(* ===== verification/_CoqProject ===== *)
-Q . S2P
Prelude.v
Bigint.v
BinIO.v
Hash.v
Bitfield.v
Storage.v
Disk.v
MptNode.v
MptTree.v
Mpt.v
MptSpec.v
MptBatch.v
MptMap.v
MptAlias.v
MptStore.v
MptProof.v
Fork.v
ForkSpec.v
Nanvil.v
Codec.v
Keys.v
Witness.v
Tx.v
Mempool.v
MempoolSpec.v
StackItem.v
Serial.v
RefCount.v
Script.v
Emit.v
Parse.v
ParseSpec.v
Block.v
NativeState.v
Native.v
NativeNeo.v
NativeInv.v
NativeVotes.v
NativeTransfer.v
NativeSafe.v
NativeSpec.v
NativeEpoch.v
BlockQueue.v
Policy.v
PolicyInv.v
PolicySpec.v
PolicyLife.v
VM.v
VMInv.v
VMCompound.v
VMSafe.v
VMRun.v
VMSpec.v
