(* ===== verification/Prelude.v ===== *)
(** * A verification development for nanvil

    nanvil is a development node for the N3 network, a fork of neo-go: a full
    node (virtual machine, storage, state trie, ledger, native contracts,
    network) with a layer of its own under [pkg/nanvil] that forks a remote
    network's state, keeps snapshots and impersonates accounts.  This library
    models the parts of it that compute - the virtual machine, its values and
    their reference counts, the storage layer, the state trie with its proofs,
    the forked store - as executable definitions that follow the Go code
    function by function, and proves what they promise to each other.

    ** How the program's parts interact

    A node executes scripts on the machine ([pkg/vm]); their data are stack
    items ([pkg/vm/stackitem]), the integers among them are kept in two's
    complement ([pkg/encoding/bigint]), and all live items are counted
    ([ref_counter.go]).  Scripts are decoded by [pkg/smartcontract/scparser].
    What scripts write goes through layers of caches ([MemCachedStore]) to a
    backend ([pkg/core/storage]); the changed contract items of a block are put
    in one batch into the state trie ([pkg/core/mpt]), whose nodes are written
    in the binary format of [pkg/io] under their hash ([pkg/crypto/hash]), and
    from which other nodes are given proofs.  A forked node ([pkg/nanvil/fork])
    puts a store of the same interface under all of this that answers from an
    overlay of local writes, a remote node and a local base, in this order.

    ** Conventions

    A Go function that returns an error and may panic is a function into [res]
    ([Ok], [Err], [Panic]); machine integers are [Z] with their wrap-around
    written out; Go maps are [gmap]s, and slices lists; byte slices and
    strings are [bytes] (lists of [Byte.byte]).  Interfaces of the code are
    type classes: [Serializable] (BinIO.v), [Store] (Storage.v), [Chain]
    (Nanvil.v); so are the functions of libraries the code calls: [Digest]
    (Hash.v).  Each class has an instance, on which the witnesses of the
    theorems about it run.  Pointers that the code shares
    are keys of an explicit heap: the cells of compound stack items, the stacks
    and contexts of the machine.

    ** The files, and the code they model

    - Bigint.v: [pkg/encoding/bigint/bigint.go], on 64-bit words.
    - BinIO.v: [pkg/io], the reader and writer with sticky errors, variable
      length integers, arrays.
    - Hash.v: [pkg/crypto/hash] (hash.go, merkle_tree.go), and the text forms
      of [pkg/util]'s hashes that it uses.
    - Storage.v: [pkg/core/storage] (memory_store.go, memcached_store.go,
      store.go).  Disk.v: its leveldb_store.go, over a database with the laws
      that goleveldb documents.
    - MptNode.v, Mpt.v: [pkg/core/mpt] (branch.go, extension.go, leaf.go,
      hash.go, empty.go, node.go, base.go, helpers.go; trie.go, batch.go,
      proof.go).  MptTree.v, MptSpec.v, MptBatch.v, MptMap.v, MptStore.v and
      MptProof.v hold no code: they are its specification and the proofs.
      MptAlias.v has the lookups and batches again, on keys that are slices of
      shared arrays.
    - Fork.v: [pkg/nanvil/fork] (tracking_store.go, remote_store.go, cache.go,
      overlay_store.go, branch.go's enumeration of contracts, transition.go);
      ForkSpec.v proves what it promises.
    - Nanvil.v: [pkg/nanvil/snapshot], [persist], [impersonate], [txregistry]
      and the timestamps of [producer].
    - Codec.v holds no code: it is what a pair of encoder and decoder promises.
    - Keys.v: [pkg/crypto/keys/publickey.go] and the signature contracts of
      [scparser/contract_checks.go].
    - Witness.v: [pkg/core/transaction] (witness_condition.go, witness_rule.go,
      witness_scope.go, signer.go, witness.go) and the check of witnesses in
      [pkg/core/interop/runtime/witness.go].
    - Tx.v: [pkg/core/transaction] (transaction.go, attribute.go, attrtype.go,
      oracle.go and the other attributes).
    - Mempool.v: [pkg/core/mempool/mem_pool.go]; MempoolSpec.v has its
      invariant and the proofs.
    - Serial.v: [pkg/vm/stackitem/serialization.go].
    - Emit.v: [pkg/vm/emit/emit.go], [pkg/core/interop/interopnames],
      [pkg/smartcontract/callflag] and [pkg/smartcontract/contract.go].
    - Parse.v: [pkg/smartcontract/scparser] (conversion.go and the contracts of
      contract_checks.go); ParseSpec.v has the proofs that it reads what Emit.v
      writes.
    - Block.v: [pkg/core/block] (header.go, block.go).
    - NativeState.v: what the token contracts store
      ([pkg/core/state/native_state.go], [pkg/core/native/neo_types.go] and
      [native_neo_candidate.go]).  Native.v: [pkg/core/native]
      (native_nep17.go, native_gas.go) with what they use of
      [pkg/core/interop/context.go], [pkg/core/dao] and [pkg/config].
      NativeNeo.v: native_neo.go.  NativeInv.v, NativeVotes.v,
      NativeTransfer.v, NativeSafe.v, NativeSpec.v and NativeEpoch.v hold the
      ledger's invariant and the proofs.
    - Policy.v: [pkg/core/native/policy.go] with [pkg/core/state/policy.go], over
      the state of the token contracts.  PolicyInv.v has the cache that a storage
      makes, PolicySpec.v the operations as changes of both, PolicyLife.v the
      theorems.
    - BlockQueue.v: [pkg/network/bqueue/queue.go], as a step relation over its
      goroutines.
    - StackItem.v: [pkg/vm/stackitem] (item.go, type.go, immutable.go,
      reference.go, conversion.go); RefCount.v: [pkg/vm/ref_counter.go].
    - Bitfield.v: [pkg/util/bitfield].
    - Script.v: [pkg/vm/opcode/opcode.go], [pkg/smartcontract/scparser]
      (context.go, contract_checks.go).
    - VM.v: [pkg/vm] (vm.go, stack.go, slot.go, exception.go, context.go) and the
      prices of [pkg/core/fee/opcode.go]: one definition per group of instructions, [execute] for one step, [run] for
      the loop.  VMInv.v (the invariant and a Hoare logic), VMCompound.v,
      VMSafe.v, VMRun.v and VMSpec.v are the proofs about it.

    ** What the theorems show

    - Trie: every sequence of operations, with lookups before the first batch and
      at the end, answers as a finite map does, and the root hash is a function of
      the contents ([MptMap]); lookups append to keys in place, which is harmless
      while the keys in an array end together, and shown to spoil a trie after a
      batch ([MptAlias]); after a flush the
      store holds exactly the nodes of the tree with their counts, and a trie
      opened from the root again is the same map ([MptStore]); proofs are
      complete and sound ([MptProof]); nodes round-trip ([MptNode]); both
      computations of a Merkle root agree with the tree ([Hash]).
    - Fork: over an honest node the forked store is the map overlay-over-
      remote-over-base ([ForkSpec.fork_refines]); the remaining theorems show
      what a dishonest one, or an empty value, does to it.  [Nanvil] has the
      snapshots and the dump of a chain.
    - Machine: every instruction keeps the invariant ([VMSafe]), a run under a
      gas limit ends ([VMRun]), exceptions land where the handlers say and
      gas is accounted for ([VMSpec]); the reference counter is exact
      ([RefCount]); items compare, convert and copy as specified
      ([StackItem]); a script that passes the check only ever fetches whole
      instructions ([Script]).
    - Storage: the merging seek of the cache and its three-phase persist refine
      the map of live pairs, over any store that keeps the contract [StoreOk]:
      [MemoryStore], and LevelDB but for backward seeks with a start ([Disk]).
    - Transactions: a valid transaction round-trips through bytes with its
      hash and size, what is accepted is valid, and one byte string can be two
      transactions with different hashes ([Tx]); the check of a witness grants
      exactly what scopes and rules say ([Witness]).
    - Blocks: full and trimmed blocks round-trip, what is accepted is valid and
      bound by its hash, and the size formulas are compared with what is
      written ([Block]).
    - Memory pool: its indices are functions of the sorted list of transactions
      and stay so through additions, evictions and new blocks; no payer ever
      owes more than the balance ([MempoolSpec]).
    - Serialization: an item is written as its tree exactly when it has one
      within the limits, and is read back; any bytes give a well-formed item,
      an error or one of the listed panics.  The fuel is one above the limit of
      items, which every level of the recursion counts down ([Serial]).
    - Scripts: the static parser reads back the calls, with nested arguments,
      and the multisignature contracts that the emitter writes ([ParseSpec]).
    - Tokens: any nesting of calls, with payees that call back before they
      return, keeps supplies, balances, votes, turnout and rewards in
      agreement; a transfer and a vote do exactly what they say or nothing, and
      a transfer that can be paid comes to its end ([NativeSpec]).  Rewards are
      sums over blocks, the committee is that of the votes, a block burns and
      mints its fees, and the cached reward of a dropped candidate is wrong
      ([NativeEpoch]).  The bound on the supply of GAS there is that of
      balances whose length fits a byte, [2^2000], and a call adds less than
      [2^256].
    - Policy: from the genesis block on the cache is that of the storage, the
      settings keep their limits, and an account is blocked as the storage says;
      a new fee of a listed method and an account blocked inside another's
      blocking are lost to the running node ([PolicyLife]).
    - Block queue: over all interleavings no signal is lost and what is queued
      in a row is added in order; a blocking [Put] can panic, and stale elements
      stay counted ([BlockQueue]).

    ** Fuel and bounds

    Recursion that is not structural takes fuel, and running out is a [Panic]
    where the code would not return.  That the fuel is enough is proved, never
    assumed: [rc_fuel] is one more than the cells of the heap ([RefCount]
    terminates on cycles with it), [trie_fuel] is twice the longest path and 4
    (the depth of a trie on keys of at most [maxPathLength] nibbles),
    [verify_fuel] adds the length of the proof, [merge_fuel] is 2, the machine
    runs for at most three times the gas limit and two, times the greatest length
    of a script and one (between two charges it leaves contexts or reads on over
    system calls that charge nothing),
    Euclid's algorithm takes twice as many rounds as its modulus has bits and
    three more, the page loops of the fork ([pages]) take more rounds than the
    remote state has items.

    ** What is assumed

    Nothing globally.  The digests have the lengths their documentation states
    ([Digest]); theorems that need the nodes of a tree to have distinct hashes
    say so for the trees at hand ([no_collision]); the environment of a
    machine has handlers and callbacks of contexts that keep the invariant
    ([EnvOk], [EnvRollback]); for the end of a run it has prices like those of
    fee/opcode.go, system calls that enter contexts only if they charge, callbacks
    that enter none, and no contexts with a fixed fee ([EnvPriced]); the database
    below LevelDB's store is what it documents ([EngineOk], [Prefixes]); a remote node
    is honest where a theorem says so ([honest], [honest_find]).

    ** Not modelled, and why

    Caches that only save work (the hash and bytes of a trie node); the
    sharing of backing arrays between slices, except where the code mutates
    through it (stack items, the seek of the cache, the keys of trie nodes in
    [MptAlias]); except in the block
    queue, goroutines: an operation is one step, as under its lock; file
    system errors; JSON beyond strings. The BoltDB backend, the
    compiler, consensus and elliptic curves are bindings of, or programs over,
    libraries that are not part of the sources. The other native contracts
    (management, ledger, oracle, designation, notary, cryptography, standard
    library), the manifests of all of them, the index of header hashes, the
    pool of extensible payloads and the blockchain that ties the components
    together are left out: it is their parts, not their composition, that is
    modelled. The network, RPC server and clients, wallets and command line
    tools are input and output.
    *)

From Stdlib Require Export ZArith Lia Strings.Byte.
From stdpp Require Export base tactics numbers list gmap sorting.

#[global] Set Default Goal Selector "!".

Open Scope Z_scope.

Declare Scope go_scope.
Delimit Scope go_scope with go.

Create HintDb go.
Create Rewrite HintDb go_rw.

(** ** Results of Go functions

    A Go function that returns [(A, error)] and may also panic is a function
    into [res E A]: [Ok a] for a [nil] error, [Err e] for a returned error and
    [Panic] for a run-time panic that leaves the function. *)
Inductive res (E A : Type) : Type :=
  | Ok (a : A)
  | Err (e : E)
  | Panic.
Arguments Ok {E A} a.
Arguments Err {E A} e.
Arguments Panic {E A}.

#[export] Instance res_ret E : MRet (res E) := λ A a, Ok a.
#[export] Instance res_bind E : MBind (res E) := λ A B f m,
  match m with Ok a => f a | Err e => Err e | Panic => Panic end.
#[export] Instance res_fmap E : FMap (res E) := λ A B f m,
  match m with Ok a => Ok (f a) | Err e => Err e | Panic => Panic end.

#[export] Instance res_eq_dec E A `{!EqDecision E, !EqDecision A} : EqDecision (res E A).
Proof. solve_decision. Defined.

Definition is_ok {E A} (r : res E A) : bool :=
  match r with Ok _ => true | _ => false end.

Lemma res_bind_ok {E A B} (f : A → res E B) a : (Ok a ≫= f) = f a.
Proof. done. Qed.

Lemma res_bind_ok_inv {E A B} (f : A → res E B) m b :
  m ≫= f = Ok b → ∃ a, m = Ok a ∧ f a = Ok b.
Proof. destruct m; cbn; naive_solver. Qed.

(** ** Bytes *)

#[export] Instance byte_eq_dec : EqDecision byte := Byte.byte_eq_dec.
#[export] Instance byte_inhabited : Inhabited byte := populate x00.
#[export] Instance byte_countable : Countable byte :=
  inj_countable Byte.to_N Byte.of_N Byte.of_to_N.

Abbreviation bytes := (list byte).

(** [b2z] is Go's implicit widening of a [byte]; [z2b] is the conversion
    [byte(x)], which keeps the low eight bits. *)
Definition b2z (b : byte) : Z := Z.of_N (Byte.to_N b).
Definition z2b (z : Z) : byte :=
  match Byte.of_N (Z.to_N (z mod 256)) with Some b => b | None => x00 end.

Lemma b2z_range b : 0 <= b2z b < 256.
Proof. unfold b2z. pose proof (Byte.to_N_bounded b). lia. Qed.
#[export] Hint Resolve b2z_range : go.

Lemma b2z_z2b z : b2z (z2b z) = z mod 256.
Proof.
  unfold b2z, z2b. pose proof (Z.mod_pos_bound z 256 ltac:(lia)).
  destruct (Byte.of_N _) as [b|] eqn:Hb.
  - apply Byte.to_of_N in Hb. rewrite Hb. lia.
  - apply Byte.of_N_None_iff in Hb. lia.
Qed.

Lemma z2b_b2z b : z2b (b2z b) = b.
Proof.
  unfold z2b. rewrite Z.mod_small by apply b2z_range.
  unfold b2z. by rewrite N2Z.id, Byte.of_to_N.
Qed.

Lemma b2z_z2b_small z : 0 <= z < 256 → b2z (z2b z) = z.
Proof. intros. rewrite b2z_z2b. by apply Z.mod_small. Qed.
#[export] Hint Rewrite b2z_z2b z2b_b2z : go_rw.

#[export] Instance b2z_inj : Inj (=) (=) b2z.
Proof. intros a b Hab. rewrite <- (z2b_b2z a), <- (z2b_b2z b). by f_equal. Qed.

(** ** Machine integers *)

Definition wrap_u (w z : Z) : Z := z mod 2 ^ w.
Definition wrap_s (w z : Z) : Z := (z + 2 ^ (w - 1)) mod 2 ^ w - 2 ^ (w - 1).
Abbreviation u8 := (wrap_u 8).
Abbreviation u16 := (wrap_u 16).
Abbreviation u32 := (wrap_u 32).
Abbreviation u64 := (wrap_u 64).
Abbreviation i32 := (wrap_s 32).
Abbreviation i64 := (wrap_s 64).

Lemma wrap_u_range w z : 0 <= w → 0 <= wrap_u w z < 2 ^ w.
Proof. intros. apply Z.mod_pos_bound. lia. Qed.

Lemma wrap_u_small w z : 0 <= z < 2 ^ w → wrap_u w z = z.
Proof. apply Z.mod_small. Qed.

Lemma wrap_s_small w z : 0 < w → - 2 ^ (w - 1) <= z < 2 ^ (w - 1) → wrap_s w z = z.
Proof.
  intros Hw Hz. unfold wrap_s.
  assert (2 ^ w = 2 * 2 ^ (w - 1)) as Hp.
  { rewrite <- Z.pow_succ_r by lia. f_equal. lia. }
  rewrite Z.mod_small; lia.
Qed.

Lemma wrap_s_range w z : 0 < w → - 2 ^ (w - 1) <= wrap_s w z < 2 ^ (w - 1).
Proof.
  intros Hw. unfold wrap_s.
  assert (2 ^ w = 2 * 2 ^ (w - 1)) as Hp.
  { rewrite <- Z.pow_succ_r by lia. f_equal. lia. }
  pose proof (Z.mod_pos_bound (z + 2 ^ (w - 1)) (2 ^ w) ltac:(lia)). lia.
Qed.

(** ** Little-endian integers *)

Fixpoint le_val (l : bytes) : Z :=
  match l with [] => 0 | b :: t => b2z b + 256 * le_val t end.

Fixpoint le_enc (n : nat) (z : Z) : bytes :=
  match n with O => [] | S n => z2b z :: le_enc n (z / 256) end.

Definition be_val (l : bytes) : Z := le_val (rev l).
Definition be_enc (n : nat) (z : Z) : bytes := rev (le_enc n z).

Lemma length_le_enc n z : length (le_enc n z) = n.
Proof. revert z; induction n as [|n IH]; intros z; cbn; [done|]. by rewrite IH. Qed.
#[export] Hint Rewrite length_le_enc : go_rw.

Lemma pow256_succ n : 256 ^ Z.of_nat (S n) = 256 * 256 ^ Z.of_nat n.
Proof. rewrite Nat2Z.inj_succ, Z.pow_succ_r; lia. Qed.

Lemma pow256_pos n : 0 < 256 ^ Z.of_nat n.
Proof. apply Z.pow_pos_nonneg; lia. Qed.
#[export] Hint Resolve pow256_pos : go.

Lemma pow256_pow2 n : 256 ^ Z.of_nat n = 2 ^ (8 * Z.of_nat n).
Proof. change 256 with (2 ^ 8). rewrite <- Z.pow_mul_r by lia. done. Qed.

Lemma le_val_range l : 0 <= le_val l < 256 ^ Z.of_nat (length l).
Proof.
  induction l as [|b t IH]; [by cbn|].
  cbn [le_val length]. rewrite pow256_succ. pose proof (b2z_range b). lia.
Qed.
#[export] Hint Resolve le_val_range : go.

Lemma le_val_enc n z : le_val (le_enc n z) = z mod 256 ^ Z.of_nat n.
Proof.
  revert z; induction n as [|n IH]; intros z; cbn [le_enc le_val].
  { by rewrite Z.mod_1_r. }
  rewrite IH, b2z_z2b, pow256_succ.
  rewrite Z.rem_mul_r by (try lia; apply pow256_pos). lia.
Qed.

Lemma le_enc_val l : le_enc (length l) (le_val l) = l.
Proof.
  induction l as [|b t IH]; [done|]. cbn [length le_enc le_val].
  pose proof (b2z_range b). f_equal.
  - unfold z2b. rewrite (Z.mul_comm 256), Z.mod_add by lia.
    fold (z2b (b2z b)). apply z2b_b2z.
  - rewrite (Z.mul_comm 256), Z.div_add by lia.
    rewrite Z.div_small by lia. by rewrite Z.add_0_l.
Qed.

Lemma le_val_inj l1 l2 : length l1 = length l2 → le_val l1 = le_val l2 → l1 = l2.
Proof. intros Hl Hv. rewrite <- (le_enc_val l1), <- (le_enc_val l2). by rewrite Hl, Hv. Qed.

Lemma le_val_app l1 l2 :
  le_val (l1 ++ l2) = le_val l1 + 256 ^ Z.of_nat (length l1) * le_val l2.
Proof.
  induction l1 as [|b t IH]; cbn [app le_val length].
  { change (256 ^ Z.of_nat 0) with 1. lia. }
  rewrite IH, pow256_succ. lia.
Qed.

Lemma le_enc_app n m z :
  le_enc (n + m) z = le_enc n z ++ le_enc m (z / 256 ^ Z.of_nat n).
Proof.
  revert z; induction n as [|n IH]; intros z; cbn [Nat.add le_enc app].
  { by rewrite Z.div_1_r. }
  rewrite IH, pow256_succ, Z.div_div by (try lia; apply pow256_pos). done.
Qed.

(** ** Lexicographic order on byte strings ([bytes.Compare], [cmp.Compare]) *)

Fixpoint bcompare (a b : bytes) : comparison :=
  match a, b with
  | [], [] => Eq
  | [], _ :: _ => Lt
  | _ :: _, [] => Gt
  | x :: a', y :: b' =>
      match Z.compare (b2z x) (b2z y) with Eq => bcompare a' b' | c => c end
  end.

Lemma bcompare_refl a : bcompare a a = Eq.
Proof. induction a as [|x a IH]; cbn; [done|]. by rewrite Z.compare_refl. Qed.

Lemma bcompare_eq a b : bcompare a b = Eq ↔ a = b.
Proof.
  split; [|intros ->; apply bcompare_refl].
  revert b; induction a as [|x a IH]; intros [|y b]; cbn; try done.
  destruct (Z.compare_spec (b2z x) (b2z y)) as [Hxy| |]; try done.
  intros ?%IH. apply (inj b2z) in Hxy. by subst.
Qed.

Lemma bcompare_antisym a b : bcompare b a = CompOpp (bcompare a b).
Proof.
  revert b; induction a as [|x a IH]; intros [|y b]; cbn; try done.
  rewrite (Z.compare_antisym (b2z x) (b2z y)).
  destruct (Z.compare (b2z x) (b2z y)); cbn; auto.
Qed.

Lemma bcompare_trans_lt a b c :
  bcompare a b = Lt → bcompare b c = Lt → bcompare a c = Lt.
Proof.
  revert b c; induction a as [|x a IH]; intros [|y b] [|z c]; cbn; try done.
  destruct (Z.compare_spec (b2z x) (b2z y)) as [Hxy|Hxy|Hxy];
    destruct (Z.compare_spec (b2z y) (b2z z)) as [Hyz|Hyz|Hyz]; try done.
  - rewrite Hxy, Hyz, Z.compare_refl. apply IH.
  - rewrite Hxy. by rewrite (proj2 (Z.compare_lt_iff _ _) Hyz).
  - rewrite <- Hyz. by rewrite (proj2 (Z.compare_lt_iff _ _) Hxy).
  - intros _ _. by rewrite (proj2 (Z.compare_lt_iff _ _) (Z.lt_trans _ _ _ Hxy Hyz)).
Qed.

Lemma bcompare_app k a b : bcompare (k ++ a) (k ++ b) = bcompare a b.
Proof. induction k as [|x k IH]; cbn; [done|]. by rewrite Z.compare_refl. Qed.

Definition blt (a b : bytes) : Prop := bcompare a b = Lt.
Definition ble (a b : bytes) : Prop := bcompare a b ≠ Gt.

#[export] Instance blt_dec : RelDecision blt.
Proof. intros a b. unfold blt. apply _. Defined.
#[export] Instance ble_dec : RelDecision ble.
Proof. intros a b. unfold ble. apply _. Defined.

#[export] Instance blt_trans : Transitive blt.
Proof. intros a b c. apply bcompare_trans_lt. Qed.
#[export] Instance blt_irrefl : Irreflexive blt.
Proof. intros a. unfold complement, blt. by rewrite bcompare_refl. Qed.

Lemma ble_lt_eq a b : ble a b ↔ blt a b ∨ a = b.
Proof.
  unfold ble, blt. rewrite <- bcompare_eq. destruct (bcompare a b); intuition congruence.
Qed.

Lemma blt_not_ble a b : blt a b ↔ ¬ ble b a.
Proof.
  unfold ble, blt. rewrite (bcompare_antisym a b).
  destruct (bcompare a b); cbn; intuition congruence.
Qed.

#[export] Instance ble_refl : Reflexive ble.
Proof. intros a. unfold ble. by rewrite bcompare_refl. Qed.
#[export] Instance ble_trans : Transitive ble.
Proof.
  intros a b c. rewrite !ble_lt_eq. intros [Hab| ->] [Hbc| ->]; auto.
  left. by etrans.
Qed.
#[export] Instance ble_antisym : AntiSymm (=) ble.
Proof.
  intros a b. rewrite !ble_lt_eq. intros [Hab| ->] [Hba|]; try done.
  exfalso. eapply blt_irrefl. by etrans.
Qed.
#[export] Instance ble_total : Total ble.
Proof.
  intros a b. unfold ble. rewrite (bcompare_antisym a b).
  destruct (bcompare a b); cbn; auto.
Qed.

(** [strings.HasPrefix] / [bytes.HasPrefix]. *)
Fixpoint has_prefix (s p : bytes) {struct p} : bool :=
  match p, s with
  | [], _ => true
  | _ :: _, [] => false
  | x :: p', y :: s' => bool_decide (x = y) && has_prefix s' p'
  end.

Lemma has_prefix_spec s p : has_prefix s p = true ↔ ∃ t, s = p ++ t.
Proof.
  revert s; induction p as [|x p IH]; intros s; cbn.
  { split; [by exists s|done]. }
  destruct s as [|y s]; cbn.
  { split; [done|]. by intros [t [=]]. }
  rewrite andb_true_iff, bool_decide_eq_true, IH. split.
  - intros [-> [t ->]]. by exists t.
  - intros [t [= -> ->]]. eauto.
Qed.

(** Elements that are all there. *)
Lemma mapM_id_Some {A} (l : list A) : mapM id (map Some l) = Some l.
Proof. induction l as [|a l IH]; cbn; [done|]. by rewrite IH. Qed.
