(* ===== verification/Bigint.v ===== *)
(** * Bigint: the VM's little-endian two's complement integers

    Models [pkg/encoding/bigint/bigint.go]: [FromBytes], [getEffectiveSize],
    [ToBytes] and [ToPreallocatedBytes] on the word representation of
    [math/big] (64-bit words, as on the supported platforms), including the
    in-place decrement of the magnitude of a negative argument and its
    restoration by the deferred function. *)

From S2P Require Import Prelude.

Definition MaxBytesLen : Z := 32.
Definition wordSizeBytes : nat := 8.

(** ** Magnitudes as word lists ([big.Int.Bits], [big.Int.SetBits]) *)

Fixpoint words_val (ws : list Z) : Z :=
  match ws with [] => 0 | w :: t => w + 2 ^ 64 * words_val t end.

Fixpoint words_enc (k : nat) (z : Z) : list Z :=
  match k with O => [] | S k => z mod 2 ^ 64 :: words_enc k (z / 2 ^ 64) end.

(** The normalised magnitude of [z]: no leading zero word. *)
Definition words_of (z : Z) : list Z :=
  match z with
  | Z0 => []
  | _ => words_enc (Z.to_nat (Z.log2 (Z.abs z) / 64 + 1)) (Z.abs z)
  end.

Definition wf_words (ws : list Z) : Prop := Forall (λ w, 0 <= w < 2 ^ 64) ws.

(** [bits.Len] of one word and [nat.bitLen] of a magnitude. *)
Definition bits_len (w : Z) : Z := if bool_decide (w = 0) then 0 else Z.log2 w + 1.

Definition words_bitlen (ws : list Z) : Z :=
  match last ws with
  | None => 0
  | Some top => 64 * (Z.of_nat (length ws) - 1) + bits_len top
  end.

(** ** Decoding *)

Fixpoint getEffectiveSize_loop (buf : bytes) (b : byte) (size : nat) : nat :=
  match size with
  | O => O
  | S n =>
      if bool_decide (buf !! n = Some b) then getEffectiveSize_loop buf b n else size
  end.

Definition getEffectiveSize (buf : bytes) (isNeg : bool) : nat :=
  getEffectiveSize_loop buf (if isNeg then xff else x00) (length buf).

(** [ws[i] <<= 8; ws[i] ^= data[j]] for [j] from the last byte of the group
    down to its first. *)
Definition load_word (group : bytes) : Z :=
  fold_left (λ w b, Z.lxor (u64 (Z.shiftl w 8)) (b2z b)) (rev group) 0.

Fixpoint load_words (lw : nat) (data : bytes) : list Z :=
  match lw with
  | O => [load_word data]
  | S k => load_word (take wordSizeBytes data) :: load_words k (drop wordSizeBytes data)
  end.

(** [ws[lw] = ws[lw] & m]. *)
Fixpoint mask_last (ws : list Z) (m : Z) : list Z :=
  match ws with
  | [] => []
  | [w] => [Z.land w m]
  | w :: t => w :: mask_last t m
  end.

Definition msb_set (data : bytes) : bool :=
  match last data with
  | Some b => negb (bool_decide (Z.land (b2z b) 128 = 0))
  | None => false
  end.

Definition FromBytes_nonnil (data : bytes) : Z :=
  if bool_decide (length data = 0%nat) then 0 else
  let isNeg := msb_set data in
  let size := getEffectiveSize data isNeg in
  if bool_decide (size = 0%nat) then (if isNeg then -1 else 0) else
  let lw := (size / wordSizeBytes)%nat in
  let ws := load_words lw (take size data) in
  if isNeg then
    let ws := map (λ w, u64 (Z.lnot w)) ws in
    let shift := Z.of_nat (wordSizeBytes - size mod wordSizeBytes) * 8 in
    let ws := mask_last ws (Z.shiftr (2 ^ 64 - 1) shift) in
    - words_val ws - 1
  else words_val ws.

(** The argument is a Go slice: [None] is the [nil] slice, for which the
    function panics. *)
Definition FromBytes {E} (data : option bytes) : res E Z :=
  match data with
  | None => Panic
  | Some data => Ok (FromBytes_nonnil data)
  end.

(** ** Encoding *)

Fixpoint dec_words (carry : bool) (ws : list Z) : list Z :=
  match ws with
  | [] => []
  | w :: t =>
      if carry then
        let w' := u64 (w - 1) in
        w' :: dec_words (bool_decide (w' = 2 ^ 64 - 1)) t
      else w :: dec_words false t
  end.

Fixpoint inc_words (ws : list Z) : list Z :=
  match ws with
  | [] => []
  | w :: t =>
      let w' := u64 (w + 1) in
      if bool_decide (w' = 0) then w' :: inc_words t else w' :: t
  end.

Definition any_nonzero (ws : list Z) : bool :=
  existsb (λ w, negb (bool_decide (w = 0))) ws.

(** [ToPreallocatedBytes] returns the encoding and the words of [n]'s magnitude
    when the function has returned; the contents of the preallocated buffer
    do not matter, [FillBytes] overwrites the part that is used. *)
Definition ToPreallocatedBytes (n : Z) : bytes * list Z :=
  let bits := words_of n in
  match n with
  | Z0 => ([], bits)
  | Zpos _ =>
      let lb := Z.to_nat (words_bitlen bits / 8 + 1) in
      (rev (be_enc lb (words_val bits)), bits)
  | Zneg _ =>
      let bits' := dec_words true bits in
      let restored := inc_words bits' in
      if negb (any_nonzero bits') then ([xff], restored) else
      let lb := Z.to_nat (words_bitlen bits' / 8 + 1) in
      let data := rev (be_enc lb (words_val bits')) in
      (map (λ b, z2b (Z.lnot (b2z b))) data, restored)
  end.

Definition ToBytes (n : Z) : bytes := (ToPreallocatedBytes n).1.

(** ** Reference semantics: two's complement *)

Definition signed_val (data : bytes) : Z :=
  le_val data - (if msb_set data then 256 ^ Z.of_nat (length data) else 0).

(** [n] fits a two's complement representation of [k] bytes. *)
Definition fits (n : Z) (k : nat) : Prop :=
  match k with
  | O => n = 0
  | S _ => - 2 ^ (8 * Z.of_nat k - 1) <= n < 2 ^ (8 * Z.of_nat k - 1)
  end.

#[export] Instance fits_dec n k : Decision (fits n k).
Proof. destruct k; cbn; apply _. Defined.

(** ** Lemmas: words *)

Lemma words_val_range ws :
  wf_words ws → 0 <= words_val ws < 2 ^ (64 * Z.of_nat (length ws)).
Proof.
  induction 1 as [|w t Hw Ht IH]; [by cbn|]. cbn [words_val length].
  replace (64 * Z.of_nat (S (length t))) with (64 + 64 * Z.of_nat (length t)) by lia.
  rewrite Z.pow_add_r by lia. nia.
Qed.

Lemma words_enc_wf k z : wf_words (words_enc k z).
Proof.
  revert z; induction k as [|k IH]; intros z; cbn; constructor; [|apply IH].
  apply Z.mod_pos_bound; lia.
Qed.

Lemma length_words_enc k z : length (words_enc k z) = k.
Proof. revert z; induction k as [|k IH]; intros z; cbn; auto. Qed.

Lemma words_val_enc k z :
  words_val (words_enc k z) = z mod 2 ^ (64 * Z.of_nat k).
Proof.
  revert z; induction k as [|k IH]; intros z; cbn [words_enc words_val].
  { by rewrite Z.mod_1_r. }
  rewrite IH.
  replace (64 * Z.of_nat (S k)) with (64 + 64 * Z.of_nat k) by lia.
  rewrite Z.pow_add_r, Z.rem_mul_r by lia. lia.
Qed.

Lemma log2_words_bound z : 0 < z →
  z < 2 ^ (64 * Z.of_nat (Z.to_nat (Z.log2 z / 64 + 1))).
Proof.
  intros Hz. pose proof (Z.log2_nonneg z). pose proof (Z.log2_spec z Hz) as [_ Hlt].
  rewrite Z2Nat.id by (apply Z.add_nonneg_nonneg; [apply Z.div_pos|]; lia).
  eapply Z.lt_le_trans; [apply Hlt|]. apply Z.pow_le_mono_r; [lia|].
  pose proof (Z.div_mod (Z.log2 z) 64 ltac:(lia)).
  pose proof (Z.mod_pos_bound (Z.log2 z) 64 ltac:(lia)). lia.
Qed.

Lemma words_of_wf z : wf_words (words_of z).
Proof. destruct z; cbn; [constructor|apply words_enc_wf..]. Qed.

Lemma words_of_val z : words_val (words_of z) = Z.abs z.
Proof.
  destruct z as [|p|p]; [done|..]; unfold words_of;
    rewrite words_val_enc, Z.mod_small; try done;
    (split; [lia|apply log2_words_bound; lia]).
Qed.

Lemma lxor_shift_byte w b :
  0 <= w → Z.lxor (Z.shiftl w 8) (b2z b) = b2z b + 256 * w.
Proof.
  intros Hw. rewrite <- Z.add_nocarry_lxor.
  { rewrite Z.shiftl_mul_pow2 by lia. lia. }
  pose proof (b2z_range b) as Hb.
  replace (b2z b) with (b2z b mod 2 ^ 8) by (apply Z.mod_small; lia).
  rewrite <- Z.land_ones by lia.
  apply Z.bits_inj'. intros i Hi.
  rewrite !Z.land_spec, Z.shiftl_spec, Z.testbit_ones, Z.bits_0 by lia.
  destruct (Z.ltb_spec i 8); [rewrite (Z.testbit_neg_r w) by lia; done|].
  by rewrite andb_false_r, !andb_false_r.
Qed.

Lemma load_word_val g : (length g ≤ 8)%nat → load_word g = le_val g.
Proof.
  unfold load_word. rewrite <- (fold_left_rev_right (λ b w, Z.lxor (u64 (Z.shiftl w 8)) (b2z b)) (rev g) 0),
    rev_involutive.
  induction g as [|b t IH]; intros Hl; [done|]. cbn in Hl.
  cbn [foldr le_val fold_right]. rewrite IH by lia.
  pose proof (le_val_range t) as Ht.
  assert (256 ^ Z.of_nat (length t) <= 256 ^ 7) by (apply Z.pow_le_mono_r; lia).
  rewrite wrap_u_small; [apply lxor_shift_byte; lia|].
  rewrite Z.shiftl_mul_pow2 by lia. lia.
Qed.

Lemma load_words_val lw data :
  (length data ≤ 8 * lw + 8)%nat → words_val (load_words lw data) = le_val data.
Proof.
  revert data; induction lw as [|k IH]; intros data Hl; cbn [load_words words_val].
  { rewrite load_word_val by lia. lia. }
  rewrite IH by (rewrite length_drop; unfold wordSizeBytes; lia).
  rewrite load_word_val by (rewrite length_take; unfold wordSizeBytes; lia).
  destruct (decide (8 ≤ length data)%nat) as [H8|H8].
  - rewrite <- (take_drop wordSizeBytes data) at 3. rewrite le_val_app, length_take.
    rewrite Nat.min_l by (unfold wordSizeBytes; lia). f_equal.
  - rewrite drop_ge by (unfold wordSizeBytes; lia).
    rewrite take_ge by (unfold wordSizeBytes; lia). cbn [le_val]. lia.
Qed.

Lemma load_word_range g : (length g ≤ 8)%nat → 0 <= load_word g < 2 ^ 64.
Proof.
  intros Hl. rewrite load_word_val by done. pose proof (le_val_range g).
  assert (256 ^ Z.of_nat (length g) <= 256 ^ 8) by (apply Z.pow_le_mono_r; lia). lia.
Qed.

Lemma load_words_wf lw data :
  (length data ≤ 8 * lw + 8)%nat → wf_words (load_words lw data).
Proof.
  revert data; induction lw as [|k IH]; intros data Hl; cbn [load_words].
  { constructor; [apply load_word_range; lia|constructor]. }
  constructor.
  - apply load_word_range. rewrite length_take. unfold wordSizeBytes. lia.
  - apply IH. rewrite length_drop. unfold wordSizeBytes. lia.
Qed.

Lemma length_load_words lw data : length (load_words lw data) = S lw.
Proof. revert data; induction lw as [|k IH]; intros data; cbn; auto. Qed.

Lemma lnot_word w : 0 <= w < 2 ^ 64 → u64 (Z.lnot w) = 2 ^ 64 - 1 - w.
Proof.
  intros Hw. unfold wrap_u. rewrite <- (Z.mod_add _ 1) by lia.
  rewrite Z.mod_small; unfold Z.lnot; lia.
Qed.

Lemma complement_words ws : wf_words ws →
  words_val (map (λ w, u64 (Z.lnot w)) ws)
  = 2 ^ (64 * Z.of_nat (length ws)) - 1 - words_val ws.
Proof.
  induction 1 as [|w t Hw Ht IH]; [by cbn|]. cbn [map words_val length].
  rewrite IH, lnot_word by done.
  replace (64 * Z.of_nat (S (length t))) with (64 + 64 * Z.of_nat (length t)) by lia.
  rewrite Z.pow_add_r by lia. lia.
Qed.

Lemma complement_words_wf ws : wf_words (map (λ w, u64 (Z.lnot w)) ws).
Proof.
  unfold wf_words. rewrite Forall_fmap. apply Forall_true. intros w. cbn.
  apply (wrap_u_range 64). lia.
Qed.

Lemma mask_last_val ws k :
  wf_words ws → ws ≠ [] → 0 <= k <= 64 →
  words_val (mask_last ws (2 ^ k - 1))
  = words_val ws mod 2 ^ (64 * (Z.of_nat (length ws) - 1) + k).
Proof.
  induction 1 as [|w t Hw Ht IH]; intros Hne Hk; [done|].
  destruct t as [|w' t].
  { cbn [mask_last words_val length].
    rewrite Z.mul_0_r, !Z.add_0_r.
    replace (2 ^ k - 1) with (Z.ones k) by (rewrite Z.ones_equiv; lia).
    rewrite Z.land_ones by lia. do 2 f_equal; lia. }
  change (mask_last (w :: w' :: t) (2 ^ k - 1)) with (w :: mask_last (w' :: t) (2 ^ k - 1)).
  set (r := w' :: t) in *. assert (r ≠ []) as Hr by done.
  cbn [words_val length]. rewrite IH by done.
  replace (64 * (Z.of_nat (S (length r)) - 1) + k)
    with (64 + (64 * (Z.of_nat (length r) - 1) + k)) by lia.
  assert (1 <= Z.of_nat (length r)) by (destruct r; cbn [length]; [done|lia]).
  set (m := 64 * (Z.of_nat (length r) - 1) + k).
  assert (0 <= m) by (subst m; lia). clearbody m.
  pose proof (Z.pow_pos_nonneg 2 m ltac:(lia) ltac:(lia)).
  rewrite (Z.pow_add_r 2 64 m), (Z.rem_mul_r _ (2 ^ 64) (2 ^ m)) by lia.
  rewrite (Z.mul_comm (2 ^ 64) (words_val r)), Z.mod_add, Z.div_add by lia.
  by rewrite (Z.mod_small w), (Z.div_small w), Z.add_0_l by lia.
Qed.

Lemma shiftr_ones s : 0 <= s <= 64 → Z.shiftr (2 ^ 64 - 1) s = 2 ^ (64 - s) - 1.
Proof.
  intros Hs. replace (2 ^ 64 - 1) with (Z.ones 64) by done.
  rewrite Z.shiftr_div_pow2, Z.ones_div_pow2, Z.ones_equiv by lia. lia.
Qed.

(** ** Lemmas: the effective size *)

Lemma getEffectiveSize_loop_spec buf b size :
  (size ≤ length buf)%nat →
  let e := getEffectiveSize_loop buf b size in
  (e ≤ size)%nat ∧ take size buf = take e buf ++ replicate (size - e) b.
Proof.
  intros Hl. induction size as [|n IH]; cbn; [by rewrite take_0|].
  case_bool_decide as Hb.
  - destruct (IH ltac:(lia)) as [He Ht]. split; [lia|].
    rewrite (take_S_r _ _ _ Hb), Ht, <- app_assoc. f_equal.
    replace (S n - getEffectiveSize_loop buf b n)%nat
      with (S (n - getEffectiveSize_loop buf b n)) by lia.
    by rewrite replicate_S_end.
  - rewrite Nat.sub_diag. cbn. by rewrite app_nil_r.
Qed.

Lemma le_val_replicate_00 k : le_val (replicate k x00) = 0.
Proof. induction k as [|k IH]; cbn [replicate le_val]; [done|]. by rewrite IH. Qed.

Lemma le_val_replicate_ff k : le_val (replicate k xff) = 256 ^ Z.of_nat k - 1.
Proof.
  induction k as [|k IH]; [done|]. cbn [replicate le_val].
  rewrite IH, pow256_succ. change (b2z xff) with 255. lia.
Qed.

Lemma effective_val data isNeg :
  let e := getEffectiveSize data isNeg in
  (e ≤ length data)%nat ∧
  le_val (take e data) - (if isNeg then 256 ^ Z.of_nat e else 0)
  = le_val data - (if isNeg then 256 ^ Z.of_nat (length data) else 0).
Proof.
  unfold getEffectiveSize.
  destruct (getEffectiveSize_loop_spec data (if isNeg then xff else x00) (length data)
    ltac:(lia)) as [He Ht].
  set (e := getEffectiveSize_loop _ _ _) in *. split; [done|].
  rewrite take_ge in Ht by lia. rewrite Ht at 2. rewrite le_val_app, length_take_le by lia.
  destruct isNeg.
  - rewrite le_val_replicate_ff.
    replace (length data) with (e + (length data - e))%nat at 2 by lia.
    rewrite Nat2Z.inj_add, Z.pow_add_r by lia. lia.
  - rewrite le_val_replicate_00. lia.
Qed.

(** ** Decoding is two's complement *)

Lemma length_data_lw size (data : bytes) :
  (size ≤ length data)%nat →
  (length (take size data) ≤ 8 * (size / wordSizeBytes) + 8)%nat.
Proof.
  intros Hs. rewrite length_take_le by done. unfold wordSizeBytes.
  pose proof (Nat.div_mod_eq size 8). pose proof (Nat.mod_upper_bound size 8). lia.
Qed.

Lemma masked_complement size (data : bytes) :
  (size ≤ length data)%nat →
  let ws := load_words (size / wordSizeBytes) (take size data) in
  let shift := Z.of_nat (wordSizeBytes - size mod wordSizeBytes) * 8 in
  words_val (mask_last (map (λ w, u64 (Z.lnot w)) ws) (Z.shiftr (2 ^ 64 - 1) shift))
  = 256 ^ Z.of_nat size - 1 - le_val (take size data).
Proof.
  intros Hs ws shift. subst ws shift. set (lw := (size / wordSizeBytes)%nat) in *.
  pose proof (length_data_lw _ _ Hs) as Hl. unfold wordSizeBytes in *. fold lw in Hl.
  pose proof (Nat.div_mod_eq size 8) as Hd. fold lw in Hd.
  pose proof (Nat.mod_upper_bound size 8 ltac:(lia)) as Hm.
  set (r := (size mod 8)%nat) in *.
  rewrite shiftr_ones by lia.
  rewrite mask_last_val; [|apply complement_words_wf| |lia].
  2:{ intros Hn%(f_equal length). rewrite length_map in Hn.
      by rewrite length_load_words in Hn. }
  rewrite complement_words by (by apply load_words_wf).
  rewrite length_map, length_load_words, load_words_val by done.
  pose proof (le_val_range (take size data)) as Hv. rewrite length_take_le in Hv by done.
  rewrite pow256_pow2 in *.
  replace (64 * (Z.of_nat (S lw) - 1) + (64 - Z.of_nat (8 - r) * 8))
    with (8 * Z.of_nat size) by lia.
  replace (64 * Z.of_nat (S lw))
    with ((64 * Z.of_nat (S lw) - 8 * Z.of_nat size) + 8 * Z.of_nat size) by lia.
  rewrite Z.pow_add_r by lia.
  set (P := 2 ^ (8 * Z.of_nat size)) in *. set (Q := 2 ^ (64 * _ - _)).
  replace (Q * P - 1 - le_val (take size data))
    with ((P - 1 - le_val (take size data)) + (Q - 1) * P) by lia.
  rewrite Z.mod_add by lia. apply Z.mod_small. lia.
Qed.

Lemma FromBytes_nonnil_spec data : FromBytes_nonnil data = signed_val data.
Proof.
  unfold FromBytes_nonnil, signed_val. case_bool_decide as H0.
  { by apply nil_length_inv in H0 as ->. }
  destruct (effective_val data (msb_set data)) as [He Hv].
  set (e := getEffectiveSize data (msb_set data)) in *.
  rewrite <- Hv. case_bool_decide as H1.
  { rewrite H1. cbn [take le_val]. by destruct (msb_set data). }
  destruct (msb_set data).
  - rewrite masked_complement by done. lia.
  - rewrite load_words_val by (by apply length_data_lw). lia.
Qed.

Lemma land_128 z : 0 <= z < 256 → Z.land z 128 = 0 ↔ z < 128.
Proof.
  intros Hz. replace 128 with (2 ^ 7) by done.
  assert (Z.land z (2 ^ 7) = if Z.testbit z 7 then 2 ^ 7 else 0) as ->.
  { apply Z.bits_inj'. intros i Hi. rewrite Z.land_spec, Z.pow2_bits_eqb by lia.
    destruct (Z.eqb_spec 7 i) as [<-|Hne].
    - rewrite andb_true_r. destruct (Z.testbit z 7); [done|by rewrite Z.bits_0].
    - rewrite andb_false_r. destruct (Z.testbit z 7).
      + rewrite Z.pow2_bits_eqb by lia. symmetry. by apply Z.eqb_neq.
      + by rewrite Z.bits_0. }
  rewrite Z.testbit_eqb by lia.
  destruct (Z.eqb_spec ((z / 2 ^ 7) mod 2) 1) as [H|H].
  - split; [done|]. intros Hlt. rewrite Z.div_small in H by lia. done.
  - split; [|done]. intros _. destruct (Z.lt_ge_cases z 128) as [|Hge]; [done|].
    replace (z / 2 ^ 7) with 1 in H; [done|].
    apply (Z.div_unique z (2 ^ 7) 1 (z - 128)); lia.
Qed.

Lemma msb_set_spec data : data ≠ [] →
  msb_set data = bool_decide (2 ^ (8 * Z.of_nat (length data) - 1) <= le_val data).
Proof.
  intros Hne. destruct (exists_last Hne) as [l [b ->]].
  unfold msb_set. rewrite last_snoc, le_val_app, length_app. cbn [length le_val].
  rewrite Z.mul_0_r, Z.add_0_r. pose proof (b2z_range b) as Hb.
  pose proof (le_val_range l) as Hl.
  replace (8 * Z.of_nat (length l + 1) - 1) with (8 * Z.of_nat (length l) + 7) by lia.
  rewrite Z.pow_add_r, <- pow256_pow2 by lia. change (2 ^ 7) with 128.
  pose proof (land_128 (b2z b) Hb) as Hand.
  set (P := 256 ^ Z.of_nat (length l)) in *.
  destruct (decide (b2z b < 128)) as [Hlt|Hge].
  - rewrite (bool_decide_eq_true_2 (Z.land _ _ = 0)) by (by apply Hand).
    rewrite bool_decide_eq_false_2 by nia. done.
  - rewrite (bool_decide_eq_false_2 (Z.land _ _ = 0)) by (intros ?%Hand; lia).
    rewrite bool_decide_eq_true_2 by nia. done.
Qed.

Lemma pow2_half k : (k ≠ 0)%nat →
  2 ^ (8 * Z.of_nat k) = 2 * 2 ^ (8 * Z.of_nat k - 1).
Proof. intros. rewrite <- Z.pow_succ_r by lia. f_equal. lia. Qed.

Lemma signed_val_fits data : fits (signed_val data) (length data).
Proof.
  destruct (decide (data = [])) as [->|Hne]; [done|].
  unfold signed_val. rewrite msb_set_spec by done.
  pose proof (le_val_range data) as Hv. rewrite pow256_pow2 in *.
  assert (length data ≠ 0)%nat by (by destruct data).
  pose proof (pow2_half (length data) ltac:(done)).
  destruct (length data) as [|n]; [done|]. unfold fits. case_bool_decide; lia.
Qed.

Lemma signed_val_unique n data :
  data ≠ [] → fits n (length data) →
  le_val data = n mod 256 ^ Z.of_nat (length data) → signed_val data = n.
Proof.
  intros Hne Hf Hv. unfold signed_val. rewrite msb_set_spec, Hv by done.
  rewrite pow256_pow2 in *. assert (length data ≠ 0)%nat by (by destruct data).
  pose proof (pow2_half (length data) ltac:(done)) as Hp.
  destruct (length data) as [|k]; [done|]. unfold fits in Hf.
  set (P := 2 ^ (8 * Z.of_nat (S k))) in *.
  destruct (decide (0 <= n)).
  - rewrite Z.mod_small by lia. rewrite bool_decide_eq_false_2; lia.
  - rewrite <- (Z.mod_add n 1 P), Z.mod_small by lia.
    rewrite bool_decide_eq_true_2; lia.
Qed.

(** ** Encoding *)

Lemma words_val_app l1 l2 :
  words_val (l1 ++ l2) = words_val l1 + 2 ^ (64 * Z.of_nat (length l1)) * words_val l2.
Proof.
  induction l1 as [|w t IH]; cbn [app words_val length].
  { rewrite Z.mul_0_r. lia. }
  rewrite IH.
  replace (64 * Z.of_nat (S (length t))) with (64 + 64 * Z.of_nat (length t)) by lia.
  rewrite Z.pow_add_r by lia. lia.
Qed.

Lemma dec_words_false ws : dec_words false ws = ws.
Proof. induction ws as [|w t IH]; cbn; [done|]. by rewrite IH. Qed.

(** Decrementing a positive magnitude borrows correctly, and the deferred loop
    undoes it. *)
Lemma dec_words_spec ws :
  wf_words ws → 0 < words_val ws →
  words_val (dec_words true ws) = words_val ws - 1
  ∧ wf_words (dec_words true ws)
  ∧ length (dec_words true ws) = length ws
  ∧ inc_words (dec_words true ws) = ws.
Proof.
  induction 1 as [|w t Hw Ht IH]; intros Hpos; [done|].
  cbn [dec_words words_val length] in *.
  destruct (decide (w = 0)) as [->|Hne].
  - change (u64 (0 - 1)) with (2 ^ 64 - 1). rewrite bool_decide_eq_true_2 by done.
    destruct IH as (IHv & IHw & IHl & IHi); [lia|].
    split_and!; [rewrite IHv; lia|constructor; [lia|done]|by rewrite IHl|].
    cbn [inc_words]. change (u64 (2 ^ 64 - 1 + 1)) with 0.
    rewrite bool_decide_eq_true_2 by done. by rewrite IHi.
  - rewrite wrap_u_small by lia. rewrite bool_decide_eq_false_2 by lia.
    rewrite dec_words_false.
    split_and!; [lia|constructor; [lia|done]|done|].
    cbn [inc_words]. rewrite wrap_u_small by lia.
    rewrite bool_decide_eq_false_2 by lia. f_equal. lia.
Qed.

Lemma any_nonzero_spec ws : wf_words ws → any_nonzero ws = bool_decide (words_val ws ≠ 0).
Proof.
  intros Hwf. induction Hwf as [|w t Hw Ht IH]; [done|].
  unfold any_nonzero in *. cbn [existsb words_val]. rewrite IH.
  pose proof (words_val_range t Ht). repeat case_bool_decide; cbn; try done; lia.
Qed.

Lemma words_bitlen_top l top :
  wf_words l → 0 < top →
  words_bitlen (l ++ [top]) = Z.log2 (words_val (l ++ [top])) + 1.
Proof.
  intros Hl Ht. unfold words_bitlen. rewrite last_snoc, length_app. cbn [length].
  unfold bits_len. rewrite bool_decide_eq_false_2 by lia.
  rewrite words_val_app. cbn [words_val].
  pose proof (words_val_range l Hl) as Hr. pose proof (Z.log2_spec top Ht) as Hlog.
  pose proof (Z.log2_nonneg top).
  set (n := 64 * Z.of_nat (length l)) in *.
  enough (Z.log2 (words_val l + 2 ^ n * (top + 2 ^ 64 * 0)) = n + Z.log2 top) by lia.
  apply Z.log2_unique; [lia|].
  rewrite <- Z.add_succ_r, !Z.pow_add_r by lia.
  rewrite Z.mul_0_r, Z.add_0_r. split.
  - apply Z.le_trans with (2 ^ n * top); [|lia]. apply Z.mul_le_mono_nonneg_l; lia.
  - apply Z.lt_le_trans with (2 ^ n * (top + 1)); [lia|].
    apply Z.mul_le_mono_nonneg_l; lia.
Qed.

(** A decremented normalised magnitude may end with a zero word; its bit length
    as computed by [math/big] is still that of its value. *)
Lemma words_of_snoc z : 0 < z →
  ∃ l top, words_of z = l ++ [top] ∧ wf_words l ∧ 0 < top < 2 ^ 64.
Proof.
  intros Hz. pose proof (words_of_wf z) as Hwf. pose proof (words_of_val z) as Hv.
  rewrite Z.abs_eq in Hv by lia.
  assert (Z.of_nat (length (words_of z)) = Z.log2 z / 64 + 1) as Hlen.
  { destruct z as [|p|p]; [lia| |lia]. unfold words_of.
    rewrite length_words_enc, Z2Nat.id; [done|].
    apply Z.add_nonneg_nonneg; [apply Z.div_pos; [apply Z.log2_nonneg|]|]; lia. }
  assert (words_of z ≠ []) as Hne.
  { intros He. rewrite He in Hv. cbn in Hv. lia. }
  destruct (exists_last Hne) as [l [top He]]. exists l, top.
  rewrite He in Hwf, Hv, Hlen. apply Forall_app in Hwf as [Hl Htop].
  apply Forall_cons_1 in Htop as [Htop _].
  change (0 <= top < 2 ^ 64) in Htop. split; [done|]. split; [done|]. split; [|lia].
  rewrite words_val_app in Hv. cbn [words_val] in Hv. rewrite length_app in Hlen.
  cbn in Hlen. pose proof (words_val_range l Hl) as Hr.
  destruct (decide (top = 0)) as [->|]; [|lia]. exfalso.
  pose proof (Z.log2_spec z Hz) as [Hlow _].
  assert (2 ^ (64 * Z.of_nat (length l)) <= 2 ^ Z.log2 z).
  { apply Z.pow_le_mono_r; [lia|]. pose proof (Z.div_mod (Z.log2 z) 64 ltac:(lia)).
    pose proof (Z.mod_pos_bound (Z.log2 z) 64 ltac:(lia)). lia. }
  lia.
Qed.

Definition bitlen (z : Z) : Z := if bool_decide (z = 0) then 0 else Z.log2 z + 1.

Lemma bitlen_le z k : 0 <= z → 0 <= k → bitlen z <= k ↔ z < 2 ^ k.
Proof.
  intros Hz Hk. unfold bitlen. case_bool_decide as H0.
  { subst. split; [intros _; apply Z.pow_pos_nonneg; lia|done]. }
  rewrite Z.log2_lt_pow2 by lia. lia.
Qed.

Lemma bitlen_nonneg z : 0 <= bitlen z.
Proof. unfold bitlen. case_bool_decide; [done|]. pose proof (Z.log2_nonneg z). lia. Qed.

Lemma words_of_bitlen z : 0 < z → words_bitlen (words_of z) = bitlen z.
Proof.
  intros Hz. destruct (words_of_snoc z Hz) as (l & top & He & Hl & Htop).
  pose proof (words_of_val z) as Hv. rewrite He in Hv |- *.
  rewrite words_bitlen_top, Hv, Z.abs_eq by (done || lia).
  unfold bitlen. by rewrite bool_decide_eq_false_2 by lia.
Qed.

Lemma dec_words_bitlen z : 1 < z →
  words_bitlen (dec_words true (words_of z)) = bitlen (z - 1).
Proof.
  intros Hz. destruct (words_of_snoc z ltac:(lia)) as (l & top & He & Hl & Htop).
  pose proof (words_of_wf z) as Hwf. pose proof (words_of_val z) as Hv.
  rewrite Z.abs_eq in Hv by lia.
  destruct (dec_words_spec (words_of z) Hwf ltac:(lia)) as (Hdv & Hdw & Hdl & _).
  set (ws := dec_words true (words_of z)) in *.
  assert (ws ≠ []) as Hne.
  { intros E. rewrite E, He, length_app in Hdl. cbn in Hdl. lia. }
  destruct (exists_last Hne) as [l' [top' He']]. rewrite He' in *.
  apply Forall_app in Hdw as [Hl' Htop']. apply Forall_cons_1 in Htop' as [Htop' _].
  change (0 <= top' < 2 ^ 64) in Htop'.
  destruct (decide (top' = 0)) as [->|Hn0].
  - unfold words_bitlen. rewrite last_snoc, length_app. cbn [length].
    change (bits_len 0) with 0. rewrite Hv, words_val_app in Hdv. cbn [words_val] in Hdv.
    rewrite He, !length_app in Hdl. cbn [length] in Hdl.
    rewrite He, words_val_app in Hv. cbn [words_val] in Hv.
    assert (length l' = length l) as Hll by lia. rewrite Hll in *.
    pose proof (words_val_range l' Hl') as Hr'. rewrite Hll in Hr'.
    pose proof (words_val_range l Hl) as Hr.
    set (P := 2 ^ (64 * Z.of_nat (length l))) in *.
    assert (P <= P * top) by nia.
    assert (z - 1 = P - 1) as -> by lia.
    unfold bitlen. rewrite bool_decide_eq_false_2 by lia.
    assert (0 < length l)%nat as Hpos.
    { destruct l; [|cbn; lia]. subst P. cbn in *. lia. }
    replace (P - 1) with (Z.pred P) by lia. subst P.
    rewrite Z.log2_pred_pow2 by lia. lia.
  - rewrite words_bitlen_top, Hdv by (done || lia).
    unfold bitlen. rewrite bool_decide_eq_false_2, Hv by lia. done.
Qed.

(** The magnitude that is written out and the number of bytes. *)
Definition enc_mag (n : Z) : Z := if bool_decide (0 <= n) then n else - n - 1.
Definition enc_len (n : Z) : nat :=
  if bool_decide (n = 0) then 0%nat else Z.to_nat (bitlen (enc_mag n) / 8 + 1).

Lemma enc_mag_nonneg n : 0 <= enc_mag n.
Proof. unfold enc_mag. case_bool_decide; lia. Qed.

Lemma enc_mag_lt n k : 0 <= k → enc_mag n < 2 ^ k ↔ - 2 ^ k <= n < 2 ^ k.
Proof.
  intros Hk. pose proof (Z.pow_pos_nonneg 2 k ltac:(lia) Hk).
  unfold enc_mag. case_bool_decide; lia.
Qed.

Lemma enc_len_le n k : (enc_len n ≤ k)%nat ↔ fits n k.
Proof.
  unfold enc_len. case_bool_decide as H0.
  { subst. split; [intros _|lia]. destruct k; unfold fits; [done|].
    pose proof (Z.pow_pos_nonneg 2 (8 * Z.of_nat (S k) - 1)). lia. }
  pose proof (bitlen_nonneg (enc_mag n)) as Hb.
  pose proof (Z.div_mod (bitlen (enc_mag n)) 8 ltac:(lia)).
  pose proof (Z.mod_pos_bound (bitlen (enc_mag n)) 8 ltac:(lia)).
  destruct k as [|k]; unfold fits; [lia|].
  rewrite <- enc_mag_lt, <- bitlen_le by (try apply enc_mag_nonneg; lia). lia.
Qed.

Lemma map_not_val l :
  le_val (map (λ b, z2b (Z.lnot (b2z b))) l) = 256 ^ Z.of_nat (length l) - 1 - le_val l.
Proof.
  induction l as [|b t IH]; [done|]. cbn [map le_val length].
  rewrite IH, b2z_z2b, pow256_succ. pose proof (b2z_range b).
  rewrite <- (Z.mod_add (Z.lnot (b2z b)) 1), Z.mod_small; unfold Z.lnot; lia.
Qed.

(** All that is needed about the encoder: its length, its little-endian value and
    that the words of its argument are restored. *)
Lemma ToPreallocatedBytes_spec n :
  length (ToBytes n) = enc_len n
  ∧ le_val (ToBytes n) = n mod 256 ^ Z.of_nat (enc_len n)
  ∧ (ToPreallocatedBytes n).2 = words_of n.
Proof.
  assert (∀ m, 0 <= m →
    m < 256 ^ Z.of_nat (Z.to_nat (bitlen m / 8 + 1))) as Hfit.
  { intros m Hm. pose proof (bitlen_nonneg m).
    pose proof (Z.div_mod (bitlen m) 8 ltac:(lia)).
    pose proof (Z.mod_pos_bound (bitlen m) 8 ltac:(lia)).
    rewrite pow256_pow2. apply bitlen_le; lia. }
  unfold ToBytes. destruct n as [|p|p]; [by cbn| |].
  - unfold ToPreallocatedBytes, be_enc, enc_len, enc_mag. cbn [fst snd].
    rewrite rev_involutive, length_le_enc, le_val_enc, words_of_val, words_of_bitlen by done.
    rewrite bool_decide_eq_false_2, bool_decide_eq_true_2 by done. done.
  - destruct (dec_words_spec (words_of (Zneg p)) (words_of_wf _)) as (Hv & Hw & _ & Hi).
    { rewrite words_of_val. lia. }
    rewrite words_of_val in Hv.
    unfold ToPreallocatedBytes, enc_len, enc_mag. rewrite any_nonzero_spec, Hv by done.
    rewrite (bool_decide_eq_false_2 (Zneg p = 0)), (bool_decide_eq_false_2 (0 <= Zneg p)) by lia.
    destruct (decide (p = 1%positive)) as [->|Hp1]; [done|].
    rewrite bool_decide_eq_true_2 by lia. cbn [negb fst snd].
    rewrite (dec_words_bitlen (Zpos p) ltac:(lia) : words_bitlen (dec_words true (words_of (Zneg p))) = _).
    unfold be_enc. rewrite rev_involutive, length_map, length_le_enc, map_not_val, le_val_enc.
    rewrite length_le_enc.
    change (Z.abs (Zneg p) - 1) with (Zpos p - 1).
    change (- Zneg p - 1) with (Zpos p - 1).
    split; [done|]. split; [|done].
    pose proof (Hfit (Zpos p - 1) ltac:(lia)) as Hf.
    set (P := 256 ^ _) in *. rewrite Z.mod_small by lia.
    rewrite <- (Z.mod_add (Zneg p) 1 P), Z.mod_small by lia. lia.
Qed.

Lemma ToBytes_signed n : signed_val (ToBytes n) = n.
Proof.
  destruct (ToPreallocatedBytes_spec n) as (Hl & Hv & _).
  destruct (decide (n = 0)) as [->|Hn]; [done|].
  apply signed_val_unique.
  - intros He. rewrite He in Hl. unfold enc_len in Hl.
    rewrite bool_decide_eq_false_2 in Hl by done. cbn in Hl.
    pose proof (bitlen_nonneg (enc_mag n)).
    pose proof (Z.div_pos (bitlen (enc_mag n)) 8). lia.
  - rewrite Hl. by apply enc_len_le.
  - by rewrite Hl.
Qed.

(** ** Properties *)

(** [FromBytes] on words computes the two's complement value of every
    byte slice, whatever its length and redundant sign bytes; the only input
    without a value is the [nil] slice, on which it panics. *)
Theorem FromBytes_twos_complement E (data : option bytes) :
  FromBytes (E := E) data
  = match data with Some d => Ok (signed_val d) | None => Panic end.
Proof. destruct data; cbn; [|done]. by rewrite FromBytes_nonnil_spec. Qed.

(** C38: [ToBytes] followed by [FromBytes] is the identity on all integers, the
    result is the shortest two's complement representation, and the magnitude
    that is decremented in place for a negative argument is restored. *)
Theorem ToBytes_FromBytes (E : Type) (n : Z) :
  FromBytes (E := E) (Some (ToBytes n)) = Ok n
  ∧ (∀ k, (length (ToBytes n) ≤ k)%nat ↔ fits n k)
  ∧ (∀ d, FromBytes (E := E) (Some d) = Ok n → (length (ToBytes n) ≤ length d)%nat)
  ∧ (ToPreallocatedBytes n).2 = words_of n.
Proof.
  destruct (ToPreallocatedBytes_spec n) as (Hl & _ & Hw).
  split_and!; [| | |done].
  - cbn. by rewrite FromBytes_nonnil_spec, ToBytes_signed.
  - intros k. rewrite Hl. apply enc_len_le.
  - intros d. cbn. rewrite FromBytes_nonnil_spec. intros [= <-].
    rewrite Hl. apply enc_len_le, signed_val_fits.
Qed.

Example ToBytes_examples :
  map ToBytes [0; 1; -1; 127; 128; -128; -129; -2 ^ 64; 2 ^ 255 - 1]
  = [[]; [x01]; [xff]; [x7f]; [x80; x00]; [x80]; [x7f; xff];
     [x00; x00; x00; x00; x00; x00; x00; x00; xff];
     replicate 31 xff ++ [x7f]].
Proof. vm_compute. reflexivity. Qed.
