(* ===== verification/BinIO.v ===== *)
(** * BinIO: the binary reader and writer

    Models [pkg/io]: [BinReader] over a byte buffer, [BinWriter]/[BufBinWriter],
    the variable-length integer format, arrays of serializable elements and
    the size computation of [size.go].  A reader carries its unread bytes and
    its sticky error; the element codec of [ReadArray]/[WriteArray] (Go's
    [Decodable]/[Encodable] interfaces) is the class [Serializable], whose
    laws [SerializableOk] are what a component promises about its codec. *)

From stdpp Require Export strings.
From S2P Require Import Prelude.

Definition MaxArraySize : Z := 16777216.

Inductive ioerr : Type :=
  | ErrEOF
  | ErrUnexpectedEOF
  | ErrArrayTooBig (n : Z)
  | ErrSliceTooBig (n : Z)
  | ErrDrained
  | ErrOther (msg : string).

#[export] Instance ioerr_eq_dec : EqDecision ioerr.
Proof. solve_decision. Defined.

(** ** Reader *)

Record BinReader := mkReader { r_buf : bytes; r_err : option ioerr }.

Definition NewBinReaderFromBuf (b : bytes) : BinReader := mkReader b None.

Definition r_fail (r : BinReader) (e : ioerr) : BinReader := mkReader (r_buf r) (Some e).

(** [Len] of a reader over a [bytes.Reader]. *)
Definition r_len (r : BinReader) : Z := Z.of_nat (length (r_buf r)).

(** [ReadBytes(buf)] for a zeroed buffer of [n] bytes: [io.ReadFull] leaves a
    partially filled buffer and an error when the input is too short. *)
Definition ReadBytes (n : nat) (r : BinReader) : bytes * BinReader :=
  match r_err r with
  | Some _ => (replicate n x00, r)
  | None =>
      let got := take n (r_buf r) in
      let rest := drop n (r_buf r) in
      if bool_decide (length got = n) then (got, mkReader rest None)
      else (got ++ replicate (n - length got) x00,
            mkReader rest (Some (if bool_decide (got = []) then ErrEOF else ErrUnexpectedEOF)))
  end.

Definition read_uint_le (n : nat) (r : BinReader) : Z * BinReader :=
  let '(b, r) := ReadBytes n r in
  match r_err r with Some _ => (0, r) | None => (le_val b, r) end.

Definition ReadU64LE := read_uint_le 8.
Definition ReadU32LE := read_uint_le 4.
Definition ReadU16LE := read_uint_le 2.

Definition ReadU16BE (r : BinReader) : Z * BinReader :=
  let '(b, r) := ReadBytes 2 r in
  match r_err r with Some _ => (0, r) | None => (be_val b, r) end.

Definition ReadB (r : BinReader) : Z * BinReader :=
  let '(b, r) := ReadBytes 1 r in
  match r_err r with Some _ => (0, r) | None => (le_val b, r) end.

Definition ReadBool (r : BinReader) : bool * BinReader :=
  let '(b, r) := ReadB r in (negb (bool_decide (b = 0)), r).

Definition ReadVarUint (r : BinReader) : Z * BinReader :=
  match r_err r with
  | Some _ => (0, r)
  | None =>
      let '(b, r) := ReadB r in
      if bool_decide (b = 253) then ReadU16LE r else
      if bool_decide (b = 254) then ReadU32LE r else
      if bool_decide (b = 255) then ReadU64LE r else
      (b, r)
  end.

(** The result is a Go slice; it is [nil] when the announced size is refused. *)
Definition ReadVarBytes (ms : Z) (r : BinReader) : option bytes * BinReader :=
  let '(n, r) := ReadVarUint r in
  if bool_decide (u64 ms < n) then (None, r_fail r (ErrSliceTooBig n)) else
  let '(b, r) := ReadBytes (Z.to_nat n) r in (Some b, r).

Definition ReadString (ms : Z) (r : BinReader) : bytes * BinReader :=
  let '(b, r) := ReadVarBytes ms r in (default [] b, r).

(** ** Writer *)

Record BinWriter := mkWriter { w_buf : bytes; w_err : option ioerr }.

Definition NewBufBinWriter : BinWriter := mkWriter [] None.

Definition WriteBytes (b : bytes) (w : BinWriter) : BinWriter :=
  match w_err w with Some _ => w | None => mkWriter (w_buf w ++ b) None end.

Definition WriteU64LE (v : Z) := WriteBytes (le_enc 8 v).
Definition WriteU32LE (v : Z) := WriteBytes (le_enc 4 v).
Definition WriteU16LE (v : Z) := WriteBytes (le_enc 2 v).
Definition WriteU16BE (v : Z) := WriteBytes (be_enc 2 v).
Definition WriteB (v : Z) := WriteBytes [z2b v].
Definition WriteBool (b : bool) := WriteB (if b then 1 else 0).

(** [PutVarUint]: the bytes it stores; their number is its result. *)
Definition PutVarUint (val : Z) : bytes :=
  if bool_decide (val < 253) then [z2b val] else
  if bool_decide (val < 65535) then xfd :: le_enc 2 val else
  if bool_decide (val < 4294967295) then xfe :: le_enc 4 val else
  xff :: le_enc 8 val.

Definition WriteVarUint (val : Z) (w : BinWriter) : BinWriter :=
  match w_err w with Some _ => w | None => WriteBytes (PutVarUint val) w end.

Definition WriteVarBytes (b : bytes) (w : BinWriter) : BinWriter :=
  WriteBytes b (WriteVarUint (Z.of_nat (length b)) w).

(** [Bytes] of a [BufBinWriter] drains it. *)
Definition Bytes (w : BinWriter) : option bytes * BinWriter :=
  match w_err w with
  | Some _ => (None, w)
  | None => (Some (w_buf w), mkWriter (w_buf w) (Some ErrDrained))
  end.

Definition Reset (w : BinWriter) : BinWriter := mkWriter [] None.

(** ** Serializable elements *)

Class Serializable (A : Type) := {
  EncodeBinary : A → BinWriter → BinWriter;
  DecodeBinary : BinReader → A * BinReader;
}.

(** What a codec promises for the values satisfying [ok]: encoding appends to a
    writer without error, and decoding consumes exactly the encoding. *)
Class SerializableOk (A : Type) `{!Serializable A} (ok : A → Prop) := {
  enc_bytes : A → bytes;
  enc_append : ∀ a w, ok a → w_err w = None →
    EncodeBinary a w = mkWriter (w_buf w ++ enc_bytes a) None;
  dec_enc : ∀ a rest, ok a →
    DecodeBinary (mkReader (enc_bytes a ++ rest) None) = (a, mkReader rest None);
}.

Section arrays.
Context {A : Type} `{!Serializable A}.

Fixpoint read_elems (l : nat) (r : BinReader) : list A * BinReader :=
  match l with
  | O => ([], r)
  | S l =>
      let '(a, r) := DecodeBinary r in
      let '(t, r) := read_elems l r in (a :: t, r)
  end.

(** [None]: the destination slice is left as it was. *)
Definition ReadArray (ms : Z) (r : BinReader) : option (list A) * BinReader :=
  match r_err r with
  | Some _ => (None, r)
  | None =>
      let '(lu, r) := ReadVarUint r in
      if bool_decide (u64 ms < lu) then (None, r_fail r (ErrArrayTooBig lu)) else
      let '(arr, r) := read_elems (Z.to_nat lu) r in (Some arr, r)
  end.

Definition WriteArray (arr : list A) (w : BinWriter) : BinWriter :=
  match w_err w with
  | Some _ => w
  | None =>
      fold_left (λ w a, EncodeBinary a w) arr
        (WriteVarUint (Z.of_nat (length arr)) w)
  end.
End arrays.

(** ** Sizes ([size.go]) *)

Definition getVarIntSize (value : Z) : Z :=
  if bool_decide (value < 253) then 1 else
  if bool_decide (value <= 65535) then 3 else 5.

(** [GetVarSize] of a string or a slice of [uint8]. *)
Definition GetVarSize_bytes (b : bytes) : Z :=
  getVarIntSize (Z.of_nat (length b)) + Z.of_nat (length b).

(** [GetVarSize] of a pointer: the element is written to a [counterWriter]. *)
Definition GetVarSize_ptr {A} `{!Serializable A} (a : A) : Z :=
  Z.of_nat (length (w_buf (EncodeBinary a NewBufBinWriter))).

(** [GetVarSize] of a slice of serializable pointers. *)
Definition GetVarSize_slice {A} `{!Serializable A} (l : list A) : Z :=
  getVarIntSize (Z.of_nat (length l)) + foldr (λ a s, GetVarSize_ptr a + s) 0 l.

(** ** Lemmas *)

Lemma ReadBytes_app n b rest :
  length b = n → ReadBytes n (mkReader (b ++ rest) None) = (b, mkReader rest None).
Proof.
  intros <-. unfold ReadBytes. cbn [r_err r_buf].
  rewrite take_app_length, drop_app_length, bool_decide_eq_true_2; done.
Qed.

Lemma ReadBytes_err n r : is_Some (r_err r) → ReadBytes n r = (replicate n x00, r).
Proof. destruct r as [b [e|]]; [done|]. by intros [? [=]]. Qed.

Lemma length_ReadBytes n r : length (ReadBytes n r).1 = n.
Proof.
  unfold ReadBytes. destruct (r_err r); cbn; [by rewrite length_replicate|].
  case_bool_decide as Hl; cbn; [done|].
  rewrite length_app, length_replicate.
  pose proof (length_take (r_buf r) n). lia.
Qed.

Lemma read_uint_le_app n v rest :
  0 <= v < 256 ^ Z.of_nat n →
  read_uint_le n (mkReader (le_enc n v ++ rest) None) = (v, mkReader rest None).
Proof.
  intros Hv. unfold read_uint_le. rewrite ReadBytes_app by apply length_le_enc.
  cbn [r_err]. by rewrite le_val_enc, Z.mod_small.
Qed.

Lemma ReadB_app b rest :
  ReadB (mkReader (b :: rest) None) = (b2z b, mkReader rest None).
Proof.
  unfold ReadB. change (b :: rest) with ([b] ++ rest). rewrite ReadBytes_app by done.
  cbn [r_err le_val]. f_equal. lia.
Qed.

Lemma read_uint_le_range n r :
  0 <= (read_uint_le n r).1 < 256 ^ Z.of_nat n.
Proof.
  unfold read_uint_le. pose proof (length_ReadBytes n r) as Hl.
  destruct (ReadBytes n r) as [b r'] eqn:E. cbn [fst] in *.
  pose proof (pow256_pos n). destruct (r_err r'); cbn [fst]; [lia|].
  pose proof (le_val_range b) as Hb. by rewrite Hl in Hb.
Qed.

Lemma ReadB_range r : 0 <= (ReadB r).1 < 256.
Proof.
  unfold ReadB. pose proof (length_ReadBytes 1 r) as Hl.
  destruct (ReadBytes 1 r) as [b r'] eqn:E. cbn [fst] in *.
  destruct (r_err r'); cbn [fst]; [lia|].
  pose proof (le_val_range b) as Hb. by rewrite Hl in Hb.
Qed.

Lemma ReadVarUint_range r : 0 <= (ReadVarUint r).1 < 2 ^ 64.
Proof.
  unfold ReadVarUint. destruct (r_err r); [cbn; lia|].
  pose proof (ReadB_range r). destruct (ReadB r) as [b r']. cbn [fst] in *.
  pose proof (read_uint_le_range 2 r'). pose proof (read_uint_le_range 4 r').
  pose proof (read_uint_le_range 8 r').
  unfold ReadU16LE, ReadU32LE, ReadU64LE.
  change (256 ^ Z.of_nat 2) with 65536 in *. change (256 ^ Z.of_nat 4) with (2 ^ 32) in *.
  change (256 ^ Z.of_nat 8) with (2 ^ 64) in *.
  repeat case_bool_decide; cbn [fst]; lia.
Qed.

Lemma ReadVarUint_app v rest :
  0 <= v < 2 ^ 64 →
  ReadVarUint (mkReader (PutVarUint v ++ rest) None) = (v, mkReader rest None).
Proof.
  intros Hv. unfold ReadVarUint, PutVarUint, ReadU16LE, ReadU32LE, ReadU64LE.
  cbn [r_err]. case_bool_decide; [|case_bool_decide; [|case_bool_decide]];
    cbn [app]; rewrite ReadB_app.
  - rewrite b2z_z2b_small by lia. by rewrite !bool_decide_eq_false_2 by lia.
  - change (b2z xfd) with 253. rewrite bool_decide_eq_true_2 by done.
    apply read_uint_le_app. change (256 ^ Z.of_nat 2) with 65536. lia.
  - change (b2z xfe) with 254. rewrite (bool_decide_eq_false_2 (254 = 253)) by done.
    rewrite bool_decide_eq_true_2 by done.
    apply read_uint_le_app. change (256 ^ Z.of_nat 4) with (2 ^ 32). lia.
  - change (b2z xff) with 255.
    rewrite (bool_decide_eq_false_2 (255 = 253)), (bool_decide_eq_false_2 (255 = 254)) by done.
    rewrite bool_decide_eq_true_2 by done.
    apply read_uint_le_app. change (256 ^ Z.of_nat 8) with (2 ^ 64). lia.
Qed.
#[export] Hint Rewrite ReadVarUint_app ReadB_app : go_rw.

Lemma length_PutVarUint v :
  Z.of_nat (length (PutVarUint v))
  = if bool_decide (v < 253) then 1 else
    if bool_decide (v < 65535) then 3 else
    if bool_decide (v < 4294967295) then 5 else 9.
Proof.
  unfold PutVarUint. repeat case_bool_decide; cbn [length]; by rewrite ?length_le_enc.
Qed.

Lemma WriteVarUint_ok v w :
  w_err w = None → WriteVarUint v w = mkWriter (w_buf w ++ PutVarUint v) None.
Proof. intros H. unfold WriteVarUint, WriteBytes. by rewrite H. Qed.

Lemma WriteVarBytes_ok b w :
  w_err w = None →
  WriteVarBytes b w = mkWriter (w_buf w ++ PutVarUint (Z.of_nat (length b)) ++ b) None.
Proof.
  intros H. unfold WriteVarBytes. rewrite WriteVarUint_ok by done.
  unfold WriteBytes. cbn. by rewrite <- app_assoc.
Qed.

Lemma ReadVarBytes_app ms b rest :
  0 <= ms < 2 ^ 63 → Z.of_nat (length b) <= ms →
  ReadVarBytes ms (mkReader (PutVarUint (Z.of_nat (length b)) ++ b ++ rest) None)
  = (Some b, mkReader rest None).
Proof.
  intros Hms Hb. unfold ReadVarBytes. rewrite ReadVarUint_app by lia.
  rewrite wrap_u_small by lia. rewrite bool_decide_eq_false_2 by lia.
  by rewrite ReadBytes_app by lia.
Qed.

(** ** Properties *)

(** Every [uint64] written by [WriteVarUint] is read back by [ReadVarUint],
    which consumes exactly the bytes written and leaves what follows. *)
Theorem varuint_roundtrip (v : Z) (w : BinWriter) (rest : bytes) :
  0 <= v < 2 ^ 64 → w_err w = None →
  ∃ enc, WriteVarUint v w = mkWriter (w_buf w ++ enc) None
    ∧ ReadVarUint (mkReader (enc ++ rest) None) = (v, mkReader rest None).
Proof.
  intros Hv Hw. exists (PutVarUint v). split; [by apply WriteVarUint_ok|].
  by apply ReadVarUint_app.
Qed.

Lemma varuint_roundtrip_witness :
  0 <= 65535 < 2 ^ 64 ∧ ∃ enc, WriteVarUint 65535 NewBufBinWriter = mkWriter enc None
    ∧ ReadVarUint (mkReader (enc ++ [x01]) None) = (65535, mkReader [x01] None).
Proof.
  split; [lia|]. apply (varuint_roundtrip 65535 NewBufBinWriter [x01]); [lia|done].
Defined.

(** The number of bytes of a variable-length integer agrees with
    [getVarIntSize] exactly outside of the two boundary cases in which the
    writer and the size function differ: [0xFFFF], and values from [0xFFFFFFFF]
    on. *)
Theorem getVarIntSize_spec (v : Z) :
  0 <= v < 2 ^ 64 →
  Z.of_nat (length (PutVarUint v)) = getVarIntSize v
  ↔ v ≠ 65535 ∧ v < 4294967295.
Proof.
  intros Hv. rewrite length_PutVarUint. unfold getVarIntSize.
  repeat case_bool_decide; lia.
Qed.

Lemma getVarIntSize_spec_witness :
  0 <= 65535 < 2 ^ 64
  ∧ (Z.of_nat (length (PutVarUint 65535)) = getVarIntSize 65535
     ↔ 65535 ≠ 65535 ∧ 65535 < 4294967295).
Proof. split; [lia|]. apply (getVarIntSize_spec 65535). lia. Defined.

(** Reading a byte slice never returns more than the allowed size, whatever
    the input; a refused size returns the nil slice and sets the error; and a
    slice within the limit that was written is read back. *)
Theorem ReadVarBytes_spec (ms : Z) :
  0 <= ms < 2 ^ 63 →
  (∀ r b r', ReadVarBytes ms r = (Some b, r') → Z.of_nat (length b) <= ms)
  ∧ (∀ r r', ReadVarBytes ms r = (None, r') → is_Some (r_err r'))
  ∧ (∀ b w rest, Z.of_nat (length b) <= ms → w_err w = None →
       ∃ enc, WriteVarBytes b w = mkWriter (w_buf w ++ enc) None
         ∧ ReadVarBytes ms (mkReader (enc ++ rest) None) = (Some b, mkReader rest None)).
Proof.
  intros Hms. split_and!.
  - intros r b r'. unfold ReadVarBytes. pose proof (ReadVarUint_range r) as Hn.
    destruct (ReadVarUint r) as [n r1]. cbn [fst] in Hn.
    rewrite wrap_u_small by lia. case_bool_decide; [done|].
    pose proof (length_ReadBytes (Z.to_nat n) r1) as Hl.
    destruct (ReadBytes (Z.to_nat n) r1) as [b' r2]. cbn [fst] in Hl.
    intros [= -> ->]. lia.
  - intros r r'. unfold ReadVarBytes. destruct (ReadVarUint r) as [n r1].
    case_bool_decide; [|by destruct (ReadBytes _ r1)]. intros [= <-]. by eexists.
  - intros b w rest Hb Hw. eexists. split; [by apply WriteVarBytes_ok|].
    rewrite <- app_assoc. by apply ReadVarBytes_app.
Qed.

Lemma ReadVarBytes_spec_witness :
  0 <= 2 < 2 ^ 63
  ∧ ReadVarBytes 2 (mkReader [x03; x01; x02; x03] None)
    = (None, mkReader [x01; x02; x03] (Some (ErrSliceTooBig 3)))
  ∧ ∀ r b r', ReadVarBytes 2 r = (Some b, r') → Z.of_nat (length b) <= 2.
Proof. split; [lia|]. split; [done|]. apply (ReadVarBytes_spec 2). lia. Defined.

Section array_roundtrip.
Context {A : Type} `{HS : !Serializable A} {ok : A → Prop} `{HO : !SerializableOk A ok}.

Lemma write_elems_ok l w :
  Forall ok l → w_err w = None →
  fold_left (λ w a, EncodeBinary a w) l w
  = mkWriter (w_buf w ++ concat (map enc_bytes l)) None.
Proof.
  intros Hl. revert w. induction Hl as [|a t Ha Ht IH]; intros w Hw; cbn.
  { rewrite app_nil_r. destruct w; cbn in *. by subst. }
  rewrite IH; rewrite (enc_append a w Ha Hw); [|done]. cbn. by rewrite <- app_assoc.
Qed.

Lemma read_elems_ok l rest :
  Forall ok l →
  read_elems (length l) (mkReader (concat (map enc_bytes l) ++ rest) None)
  = (l, mkReader rest None).
Proof.
  induction 1 as [|a t Ha Ht IH]; cbn; [done|].
  rewrite <- app_assoc, dec_enc by done. by rewrite IH.
Qed.

(** For every element type whose codec keeps its promises, an array
    written by [WriteArray] is read back by [ReadArray] with any limit that
    admits it, and a longer announced length is refused without touching the
    destination. *)
Theorem array_roundtrip (l : list A) (ms : Z) (w : BinWriter) (rest : bytes) :
  Forall ok l → 0 <= ms < 2 ^ 63 → Z.of_nat (length l) < 2 ^ 63 → w_err w = None →
  ∃ enc, WriteArray l w = mkWriter (w_buf w ++ enc) None
    ∧ if bool_decide (Z.of_nat (length l) <= ms)
      then ReadArray ms (mkReader (enc ++ rest) None) = (Some l, mkReader rest None)
      else ∃ r, ReadArray (A := A) ms (mkReader (enc ++ rest) None) = (None, r)
             ∧ r_err r = Some (ErrArrayTooBig (Z.of_nat (length l))).
Proof.
  intros Hl Hms Hlen Hw. unfold WriteArray. rewrite Hw.
  rewrite WriteVarUint_ok by done. rewrite write_elems_ok by done. cbn [w_buf].
  eexists. split; [by rewrite <- app_assoc|].
  unfold ReadArray. cbn [r_err]. rewrite <- app_assoc, ReadVarUint_app by lia.
  rewrite wrap_u_small by lia. case_bool_decide.
  - rewrite bool_decide_eq_false_2 by lia. rewrite Nat2Z.id. by rewrite read_elems_ok.
  - rewrite bool_decide_eq_true_2 by lia. by eexists.
Qed.
End array_roundtrip.

(** ** Instances for the basic integers *)

#[export] Instance u32_serializable : Serializable Z := {|
  EncodeBinary v w := WriteU32LE v w;
  DecodeBinary := ReadU32LE;
|}.

#[export] Program Instance u32_serializable_ok : SerializableOk Z (λ v, 0 <= v < 2 ^ 32) := {|
  enc_bytes v := le_enc 4 v;
|}.
Next Obligation. intros a w _ Hw. cbn. unfold WriteU32LE, WriteBytes. by rewrite Hw. Qed.
Next Obligation. intros a rest Ha. by apply read_uint_le_app. Qed.

Lemma array_roundtrip_witness :
  Forall (λ v, 0 <= v < 2 ^ 32) [7; 4294967295] ∧
  ∃ enc, WriteArray [7; 4294967295] NewBufBinWriter = mkWriter enc None
    ∧ ReadArray 2 (mkReader (enc ++ []) None) = (Some [7; 4294967295], mkReader [] None).
Proof.
  assert (Forall (λ v, 0 <= v < 2 ^ 32) [7; 4294967295]) as H by (repeat constructor; lia).
  split; [done|].
  apply (array_roundtrip [7; 4294967295] 2 NewBufBinWriter []); [done|lia|cbn; lia|done].
Defined.
