(* ===== verification/Hash.v ===== *)
(** * Hash: digests and Merkle roots

    Models [pkg/crypto/hash]: the digests built on SHA-256 and RIPEMD-160, the
    data that is signed for a network, and both computations of a Merkle root:
    the tree of [NewMerkleTree] and the in-place loop of [CalcMerkleRoot].

    The two primitive digests are functions of the Go library: the class
    [Digest] carries them with the documented size of their results. *)

From S2P Require Import Prelude.

Class Digest := {
  sha256 : bytes → bytes;
  ripemd160 : bytes → bytes;
  sha256_length b : length (sha256 b) = 32%nat;
  ripemd160_length b : length (ripemd160 b) = 20%nat;
}.

(** A [util.Uint256] is a list of 32 bytes, a [util.Uint160] one of 20. *)
Definition Uint256Size : nat := 32.
Definition Uint160Size : nat := 20.
Definition zero256 : bytes := replicate Uint256Size x00.

Section digests.
Context `{Digest}.

Definition Sha256 (data : bytes) : bytes := sha256 data.
Definition DoubleSha256 (data : bytes) : bytes := let h1 := Sha256 data in Sha256 h1.
Definition RipeMD160 (data : bytes) : bytes := ripemd160 data.
Definition Hash160 (data : bytes) : bytes := RipeMD160 (Sha256 data).
Definition Checksum (data : bytes) : bytes := take 4 (DoubleSha256 data).

(** [hh] is the hash of the signed item. *)
Definition GetSignedData (net : Z) (hh : bytes) : bytes := le_enc 4 net ++ hh.
Definition NetSha256 (net : Z) (hh : bytes) : bytes := Sha256 (GetSignedData net hh).

Lemma length_DoubleSha256 b : length (DoubleSha256 b) = 32%nat.
Proof. apply sha256_length. Qed.

(** ** Merkle trees

    A node of the tree with its children; the parent pointers are redundant. *)
Inductive MerkleTreeNode :=
  | MTLeaf (hash : bytes)
  | MTNode (hash : bytes) (leftChild rightChild : MerkleTreeNode).

Definition mt_hash (n : MerkleTreeNode) : bytes :=
  match n with MTLeaf h | MTNode h _ _ => h end.

Definition IsLeaf (n : MerkleTreeNode) : bool :=
  match n with MTLeaf _ => true | MTNode _ _ _ => false end.

(** One level of [buildMerkleTree]; the last node of an odd level is its own
    sibling. *)
Fixpoint mt_parents (leaves : list MerkleTreeNode) : list MerkleTreeNode :=
  match leaves with
  | [] => []
  | [l] => [MTNode (DoubleSha256 (mt_hash l ++ mt_hash l)) l l]
  | l :: r :: t => MTNode (DoubleSha256 (mt_hash l ++ mt_hash r)) l r :: mt_parents t
  end.

Fixpoint buildMerkleTree (fuel : nat) (leaves : list MerkleTreeNode)
    : res unit MerkleTreeNode :=
  match leaves with
  | [] => Panic
  | [l] => Ok l
  | _ => match fuel with O => Panic | S f => buildMerkleTree f (mt_parents leaves) end
  end.

Definition NewMerkleTree (hashes : list bytes) : res unit MerkleTreeNode :=
  match hashes with
  | [] => Err tt
  | _ => buildMerkleTree (length hashes) (map MTLeaf hashes)
  end.

(** The loop of [CalcMerkleRoot]: [parents] is a prefix of the slice [hashes]
    of [n] elements, so parent [i] overwrites hash [i]; [k] rounds are left. *)
Fixpoint calc_level (n i k : nat) (hashes : list bytes) : list bytes :=
  match k with
  | O => hashes
  | S k =>
      let l := hashes !!! (i * 2)%nat in
      let r := if bool_decide (i * 2 + 1 = n)%nat then l else hashes !!! (i * 2 + 1)%nat in
      calc_level n (S i) k (<[i := DoubleSha256 (l ++ r)]> hashes)
  end.

Fixpoint CalcMerkleRoot (fuel : nat) (hashes : list bytes) : res unit bytes :=
  match hashes with
  | [] => Ok zero256
  | [h] => Ok h
  | _ =>
      match fuel with
      | O => Panic
      | S f =>
          let k := ((length hashes + 1) / 2)%nat in
          CalcMerkleRoot f (take k (calc_level (length hashes) 0 k hashes))
      end
  end.

(** ** One level, in place and on the tree *)

Fixpoint level (hs : list bytes) : list bytes :=
  match hs with
  | [] => []
  | [l] => [DoubleSha256 (l ++ l)]
  | l :: r :: t => DoubleSha256 (l ++ r) :: level t
  end.

Lemma pair_ind {A} (P : list A → Prop) :
  P [] → (∀ a, P [a]) → (∀ a b t, P t → P (a :: b :: t)) → ∀ l, P l.
Proof.
  intros H0 H1 H2. fix IH 1. intros [|a [|b t]]; [done|done|]. apply H2, IH.
Qed.

Lemma level_mt ls : map mt_hash (mt_parents ls) = level (map mt_hash ls).
Proof. induction ls as [| |a b t IH] using pair_ind; cbn; [done..|]. by rewrite IH. Qed.

Lemma length_level hs : length (level hs) = ((length hs + 1) / 2)%nat.
Proof.
  induction hs as [| |a b t IH] using pair_ind; [done..|].
  cbn [level length]. rewrite IH.
  replace (S (S (length t)) + 1)%nat with (length t + 1 + 1 * 2)%nat by lia.
  rewrite Nat.div_add by lia. lia.
Qed.

Lemma lookup_level hs i :
  (i * 2 < length hs)%nat →
  level hs !! i = Some (let l := hs !!! (i * 2)%nat in
    let r := if bool_decide (i * 2 + 1 = length hs)%nat then l else hs !!! (i * 2 + 1)%nat in
    DoubleSha256 (l ++ r)).
Proof.
  revert i. induction hs as [| |a b t IH] using pair_ind; intros i Hi; cbn [length] in Hi.
  - lia.
  - by replace i with 0%nat by lia.
  - destruct i as [|i]; [by rewrite bool_decide_eq_false_2 by (cbn; lia)|].
    cbn [level length]. change (?x :: ?l) with ([x] ++ l). rewrite lookup_app_r by (cbn; lia).
    cbn [length]. replace (S i - 1)%nat with i by lia. rewrite IH by lia. cbn zeta.
    replace (S i * 2)%nat with (S (S (i * 2))) by lia.
    replace (S (S (i * 2)) + 1)%nat with (S (S (i * 2 + 1))) by lia.
    do 2 f_equal. by destruct (bool_decide_reflect (i * 2 + 1 = length t)%nat);
      [rewrite bool_decide_eq_true_2 by lia|rewrite bool_decide_eq_false_2 by lia].
Qed.

(** While the loop runs, the hashes from [i] on are the original ones. *)
Lemma calc_level_spec hs k i cur :
  (i + k = (length hs + 1) / 2)%nat →
  length cur = length hs → (∀ j, (i <= j)%nat → cur !! j = hs !! j) →
  take i cur = take i (level hs) →
  take (i + k) (calc_level (length hs) i k cur) = level hs.
Proof.
  revert i cur. induction k as [|k IH]; intros i cur Hk Hlen Hrest Hpre; cbn [calc_level].
  { rewrite Nat.add_0_r in *. rewrite Hpre. apply take_ge. rewrite length_level. lia. }
  assert (i * 2 < length hs)%nat as Hi.
  { pose proof (Nat.div_mod_eq (length hs + 1) 2). pose proof (Nat.mod_upper_bound (length hs + 1) 2). lia. }
  rewrite !list_lookup_total_alt, !Hrest by lia. rewrite <- !list_lookup_total_alt.
  rewrite Nat.add_succ_r. apply (IH (S i)).
  - lia.
  - by rewrite length_insert.
  - intros j Hj. rewrite list_lookup_insert_ne by lia. apply Hrest. lia.
  - rewrite (take_S_r _ _ _ (lookup_level hs i Hi)).
    rewrite (take_S_r _ i (DoubleSha256
      (hs !!! (i * 2)%nat ++ (if bool_decide (i * 2 + 1 = length hs)%nat then hs !!! (i * 2)%nat
                       else hs !!! (i * 2 + 1)%nat)))).
    + f_equal. rewrite take_insert_ge by lia. done.
    + apply list_lookup_insert_eq. lia.
Qed.

Lemma calc_level_level hs :
  take ((length hs + 1) / 2) (calc_level (length hs) 0 ((length hs + 1) / 2) hs) = level hs.
Proof. by apply (calc_level_spec hs ((length hs + 1) / 2) 0). Qed.

Lemma calc_build fuel ls :
  ls ≠ [] → CalcMerkleRoot fuel (map mt_hash ls) = mt_hash <$> buildMerkleTree fuel ls.
Proof.
  revert ls. induction fuel as [|f IH]; intros [|a [|b t]] Hl; try done.
  change (CalcMerkleRoot (S f) (map mt_hash (a :: b :: t))) with
    (CalcMerkleRoot f (let hs := map mt_hash (a :: b :: t) in
      take ((length hs + 1) / 2) (calc_level (length hs) 0 ((length hs + 1) / 2) hs))).
  cbn zeta. rewrite calc_level_level, <- level_mt. by apply IH.
Qed.

Lemma buildMerkleTree_ok fuel ls :
  ls ≠ [] → (length ls <= fuel)%nat → is_ok (buildMerkleTree fuel ls) = true.
Proof.
  revert ls. induction fuel as [|f IH]; intros [|a [|b t]] Hl Hf; try done; cbn in Hf; [lia|].
  cbn [buildMerkleTree]. apply IH; [done|].
  rewrite <- (length_map mt_hash), level_mt, length_level, length_map. cbn [length] in *.
  pose proof (Nat.div_mod_eq (S (S (length t)) + 1) 2). lia.
Qed.
End digests.

(** ** Properties *)

(** The loop of [CalcMerkleRoot], which overwrites its argument while it
    reads it, computes the root of the Merkle tree that [NewMerkleTree]
    builds, for every list of hashes but the empty one, for which the tree is
    refused and the root is the zero hash. *)
Theorem CalcMerkleRoot_tree `{Digest} (hashes : list bytes) :
  match NewMerkleTree hashes with
  | Ok t => CalcMerkleRoot (length hashes) hashes = Ok (mt_hash t)
  | Err _ => hashes = [] ∧ CalcMerkleRoot 0 hashes = Ok zero256
  | Panic => False
  end.
Proof.
  destruct hashes as [|h t]; [done|].
  pose proof (buildMerkleTree_ok (length (h :: t)) (map MTLeaf (h :: t))) as Hok.
  pose proof (calc_build (length (h :: t)) (map MTLeaf (h :: t)) ltac:(done)) as Hc.
  rewrite map_map, map_id in Hc. cbn [NewMerkleTree].
  rewrite Hc. destruct (buildMerkleTree _ _); [done| |];
    by specialize (Hok ltac:(done) ltac:(rewrite length_map; lia)).
Qed.

(** ** A toy digest for examples: the bytes folded into the first cells. *)
Definition toy_digest (n : nat) (b : bytes) : bytes :=
  let v := foldl (λ a x, (a * 257 + b2z x + 1) mod 2 ^ 127) 7 b in le_enc n (v * v).
#[export] Instance toy_Digest : Digest := {|
  sha256 := toy_digest 32; ripemd160 := toy_digest 20;
  sha256_length b := length_le_enc _ _; ripemd160_length b := length_le_enc _ _;
|}.
