(* ===== verification/Bitfield.v ===== *)
(** * Bitfield: bit sets on 64-bit words

    Models [pkg/util/bitfield/bitfield.go].  A field is the list of its words;
    [bit f i] is the abstract membership, against which every operation is
    specified. *)

From S2P Require Import Prelude.

Abbreviation Field := (list Z).

Definition elemBits : Z := 64.

(** [New]: Go's division truncates towards zero. *)
Definition New (n : Z) : Field := replicate (Z.to_nat (1 + Z.quot (n - 1) elemBits)) 0.

Definition wf_field (f : Field) : Prop := Forall (λ w, 0 <= w < 2 ^ 64) f.

(** [Set]; [Panic] is the index panic of an offset out of range. *)
Definition Set_ {E} (f : Field) (i : Z) : res E Field :=
  let addr := Z.quot i elemBits in
  let offset := Z.rem i elemBits in
  if bool_decide (i < 0) then Panic else
  match f !! Z.to_nat addr with
  | Some w => Ok (<[Z.to_nat addr := Z.lor w (u64 (Z.shiftl 1 offset))]> f)
  | None => Panic
  end.

Definition IsSet {E} (f : Field) (i : Z) : res E bool :=
  let addr := Z.quot i elemBits in
  let offset := Z.rem i elemBits in
  if bool_decide (i < 0) then Panic else
  match f !! Z.to_nat addr with
  | Some w => Ok (negb (bool_decide (Z.land w (u64 (Z.shiftl 1 offset)) = 0)))
  | None => Panic
  end.

Fixpoint And (f m : Field) : Field :=
  match f, m with
  | [], _ => []
  | _ :: f, [] => 0 :: And f []
  | x :: f, y :: m => Z.land x y :: And f m
  end.

Definition Field_Equals (f o : Field) : bool := bool_decide (f = o).

Fixpoint subset_loop (f o : Field) : bool :=
  match f, o with
  | [], _ => true
  | _, [] => true
  | x :: f, y :: o => if bool_decide (Z.land x y = x) then subset_loop f o else false
  end.

Definition IsSubset (f o : Field) : bool :=
  if bool_decide (length o < length f)%nat then false else subset_loop f o.

(** ** Membership *)

Definition bit (f : Field) (i : Z) : bool :=
  if bool_decide (i < 0) then false else
  match f !! Z.to_nat (i / 64) with Some w => Z.testbit w (i mod 64) | None => false end.

Lemma wf_field_lookup f k w : wf_field f → f !! k = Some w → 0 <= w < 2 ^ 64.
Proof. intros Hf Hw. by pose proof (Forall_lookup_1 _ _ _ _ Hf Hw). Qed.

Lemma u64_shiftl_1 o : 0 <= o < 64 → u64 (Z.shiftl 1 o) = 2 ^ o.
Proof.
  intros Ho. rewrite Z.shiftl_1_l. apply wrap_u_small.
  split; [apply Z.pow_nonneg; lia|]. apply Z.pow_lt_mono_r; lia.
Qed.

Lemma New_bit n i : bit (New n) i = false.
Proof.
  unfold bit, New. case_bool_decide; [done|].
  destruct (replicate _ 0 !! _) as [w|] eqn:E; [|done].
  apply lookup_replicate in E as [-> _]. apply Z.bits_0.
Qed.

Lemma New_wf n : wf_field (New n).
Proof. apply Forall_replicate. done. Qed.

Lemma length_New n : 0 <= n → Z.of_nat (length (New n)) = 1 + Z.quot (n - 1) 64.
Proof.
  intros Hn. unfold New. rewrite length_replicate. unfold elemBits.
  destruct (decide (n = 0)) as [->|]; [done|].
  pose proof (Z.quot_pos (n - 1) 64 ltac:(lia) ltac:(lia)). lia.
Qed.

Lemma New_in_range n i : 0 <= i < n → (Z.to_nat (i / 64) < length (New n))%nat.
Proof.
  intros Hi. pose proof (length_New n ltac:(lia)) as Hl.
  rewrite Z.quot_div_nonneg in Hl by lia.
  pose proof (Z.div_le_mono i (n - 1) 64 ltac:(lia) ltac:(lia)).
  pose proof (Z.div_pos i 64 ltac:(lia) ltac:(lia)). lia.
Qed.

Lemma split_64 i j : 0 <= i → 0 <= j → i / 64 = j / 64 → i mod 64 = j mod 64 → i = j.
Proof. intros. rewrite (Z.div_mod i 64), (Z.div_mod j 64) by lia. congruence. Qed.

Lemma Set_spec {E} f i :
  wf_field f → 0 <= i → (Z.to_nat (i / 64) < length f)%nat →
  ∃ f', Set_ (E := E) f i = Ok f' ∧ wf_field f' ∧ length f' = length f
    ∧ ∀ j, bit f' j = bool_decide (i = j) || bit f j.
Proof.
  intros Hf Hi Hl. unfold Set_, elemBits. rewrite bool_decide_eq_false_2 by lia.
  rewrite Z.quot_div_nonneg, Z.rem_mod_nonneg by lia.
  destruct (lookup_lt_is_Some_2 f _ Hl) as [w Hw]. rewrite Hw.
  pose proof (Z.mod_pos_bound i 64 ltac:(lia)) as Hm.
  rewrite u64_shiftl_1 by done. eexists. split; [done|].
  pose proof (wf_field_lookup f _ w Hf Hw) as Hwr.
  split; [|split; [by rewrite length_insert|]].
  - apply Forall_insert; [done|]. split; [apply Z.lor_nonneg; split; [lia|apply Z.pow_nonneg; lia]|].
    destruct (decide (Z.lor w (2 ^ (i mod 64)) = 0)) as [->|Hn0]; [done|].
    apply Z.log2_lt_pow2; [pose proof (Z.lor_nonneg w (2 ^ (i mod 64)));
      pose proof (Z.pow_nonneg 2 (i mod 64)); lia|].
    rewrite Z.log2_lor by (lia || apply Z.pow_nonneg; lia).
    rewrite Z.log2_pow2 by lia. apply Z.max_lub_lt; [|lia].
    destruct (decide (w = 0)) as [->|]; [done|]. apply Z.log2_lt_pow2; lia.
  - intros j. unfold bit. case_bool_decide as Hj.
    { rewrite bool_decide_eq_false_2 by lia. done. }
    destruct (decide (Z.to_nat (i / 64) = Z.to_nat (j / 64))) as [He|Hne].
    + rewrite <- He, list_lookup_insert_eq, Hw by done. rewrite Z.lor_spec.
      rewrite Z.pow2_bits_eqb by lia. rewrite orb_comm. f_equal.
      pose proof (Z.div_pos i 64 ltac:(lia) ltac:(lia)).
      pose proof (Z.div_pos j 64 ltac:(lia) ltac:(lia)).
      case_bool_decide as Hij; [subst; by rewrite Z.eqb_refl|].
      apply Z.eqb_neq. intros Hmod. apply Hij. apply split_64; lia.
    + rewrite list_lookup_insert_ne by done.
      rewrite bool_decide_eq_false_2; [done|]. by intros ->.
Qed.

Lemma IsSet_spec {E} f i :
  wf_field f → 0 <= i → (Z.to_nat (i / 64) < length f)%nat → IsSet (E := E) f i = Ok (bit f i).
Proof.
  intros Hf Hi Hl. unfold IsSet, bit, elemBits. rewrite bool_decide_eq_false_2 by lia.
  rewrite Z.quot_div_nonneg, Z.rem_mod_nonneg by lia.
  destruct (lookup_lt_is_Some_2 f _ Hl) as [w Hw]. rewrite Hw. f_equal.
  pose proof (Z.mod_pos_bound i 64 ltac:(lia)) as Hm. rewrite u64_shiftl_1 by done.
  destruct (Z.testbit w (i mod 64)) eqn:Hb.
  - rewrite bool_decide_eq_false_2; [done|]. intros H0.
    assert (Z.testbit (Z.land w (2 ^ (i mod 64))) (i mod 64) = true) as Ht.
    { rewrite Z.land_spec, Hb, Z.pow2_bits_true by lia. done. }
    rewrite H0, Z.bits_0 in Ht. done.
  - rewrite bool_decide_eq_true_2; [done|]. apply Z.bits_inj'. intros k Hk.
    rewrite Z.land_spec, Z.bits_0, Z.pow2_bits_eqb by lia.
    destruct (Z.eqb_spec (i mod 64) k) as [<-|]; [by rewrite Hb|]. by rewrite andb_false_r.
Qed.

Lemma bit_cons x f i :
  0 <= i → bit (x :: f) i = if bool_decide (i < 64) then Z.testbit x i else bit f (i - 64).
Proof.
  intros Hi. unfold bit. rewrite bool_decide_eq_false_2 by lia.
  case_bool_decide as H64.
  - by rewrite Z.div_small, Z.mod_small by lia.
  - rewrite bool_decide_eq_false_2 by lia.
    assert (i = (i - 64) + 1 * 64) as He by lia.
    assert (i / 64 = (i - 64) / 64 + 1) as -> by (rewrite He at 1; by rewrite Z.div_add by lia).
    assert (i mod 64 = (i - 64) mod 64) as -> by (rewrite He at 1; by rewrite Z.mod_add by lia).
    pose proof (Z.div_pos (i - 64) 64 ltac:(lia) ltac:(lia)).
    by replace (Z.to_nat ((i - 64) / 64 + 1)) with (S (Z.to_nat ((i - 64) / 64))) by lia.
Qed.

Lemma bit_nil i : bit [] i = false.
Proof. unfold bit. by case_bool_decide. Qed.

Lemma bit_neg f i : i < 0 → bit f i = false.
Proof. intros. unfold bit. by rewrite bool_decide_eq_true_2. Qed.

Lemma testbit_high w i : 0 <= w < 2 ^ 64 → 64 <= i → Z.testbit w i = false.
Proof.
  intros Hw Hi. destruct (decide (w = 0)) as [->|]; [apply Z.bits_0|].
  apply Z.bits_above_log2; [lia|]. assert (Z.log2 w < 64) by (apply Z.log2_lt_pow2; lia). lia.
Qed.

Lemma land_subset x y :
  Z.land x y = x ↔ ∀ i, Z.testbit x i = true → Z.testbit y i = true.
Proof.
  split.
  - intros He i Hi. rewrite <- He, Z.land_spec in Hi. by apply andb_true_iff in Hi as [_ ?].
  - intros H. apply Z.bits_inj'. intros i _. rewrite Z.land_spec.
    destruct (Z.testbit x i) eqn:E; [|done]. by rewrite (H i E).
Qed.

Lemma subset_loop_spec f o :
  wf_field f → (length f <= length o)%nat →
  subset_loop f o = true ↔ ∀ i, bit f i = true → bit o i = true.
Proof.
  revert o. induction f as [|x f IH]; intros o Hf Hl.
  { split; [|done]. intros _ i. by rewrite bit_nil. }
  destruct o as [|y o]; [cbn in Hl; lia|]. apply Forall_cons in Hf as [Hx Hf].
  specialize (IH o Hf ltac:(cbn in Hl; lia)). cbn. split.
  - case_bool_decide as Hxy; [|done]. rewrite IH. intros H i.
    destruct (decide (i < 0)); [by rewrite bit_neg|].
    rewrite !bit_cons by lia. case_bool_decide; [|apply H]. by apply land_subset.
  - intros H. rewrite bool_decide_eq_true_2.
    + apply IH. intros i. destruct (decide (i < 0)); [by rewrite bit_neg|].
      specialize (H (i + 64)). rewrite !bit_cons, bool_decide_eq_false_2 in H by lia.
      by replace (i + 64 - 64) with i in H by lia.
    + apply land_subset. intros i Hi.
      destruct (decide (i < 0)); [by rewrite Z.testbit_neg_r in Hi by lia|].
      destruct (decide (64 <= i)) as [H64|H64]; [by rewrite (testbit_high x) in Hi|].
      specialize (H i). rewrite !bit_cons, bool_decide_eq_true_2 in H by lia. by apply H.
Qed.

Lemma IsSubset_spec f o :
  wf_field f → (length f <= length o)%nat →
  IsSubset f o = true ↔ ∀ i, bit f i = true → bit o i = true.
Proof.
  intros Hf Hl. unfold IsSubset. rewrite bool_decide_eq_false_2 by lia. by apply subset_loop_spec.
Qed.

Lemma And_bit f m i : bit (And f m) i = bit f i && bit m i.
Proof.
  destruct (decide (i < 0)) as [Hn|Hn]; [by rewrite !bit_neg|].
  assert (0 <= i) as Hi by lia. clear Hn. revert m i Hi.
  induction f as [|x f IH]; intros m i Hi; [by rewrite !bit_nil|].
  destruct m as [|y m]; cbn; rewrite !bit_cons by done.
  - rewrite bit_nil, andb_false_r. case_bool_decide; [apply Z.bits_0|].
    rewrite IH by lia. by rewrite bit_nil, andb_false_r.
  - case_bool_decide; [apply Z.land_spec|]. apply IH. lia.
Qed.

(** * Properties *)

(** A field is a set of offsets: [New n] is empty and has room for all
    offsets below [n], [Set] adds one offset, [IsSet] tests membership, [And]
    intersects, and [IsSubset] decides inclusion between fields of one size. *)
Theorem bitfield_sets (n : Z) (f o : Field) (i : Z) :
  wf_field f → length f = length o → 0 <= i → (Z.to_nat (i / 64) < length f)%nat →
  (∀ j, bit (New n) j = false)
  ∧ (∀ j, 0 <= j < n → (Z.to_nat (j / 64) < length (New n))%nat)
  ∧ IsSet (E := unit) f i = Ok (bit f i)
  ∧ (∃ f', Set_ (E := unit) f i = Ok f' ∧ wf_field f' ∧ length f' = length f
           ∧ ∀ j, bit f' j = bool_decide (i = j) || bit f j)
  ∧ (∀ j, bit (And f o) j = bit f j && bit o j)
  ∧ (IsSubset f o = true ↔ ∀ j, bit f j = true → bit o j = true).
Proof.
  intros Hf Hlen Hi Hl. split_and!.
  - apply New_bit.
  - apply New_in_range.
  - by apply IsSet_spec.
  - by apply Set_spec.
  - intros. apply And_bit.
  - apply IsSubset_spec; [done|lia].
Qed.

Lemma bitfield_sets_witness :
  wf_field [5; 0] ∧ IsSet (E := unit) [5; 0] 66 = Ok false.
Proof.
  assert (wf_field [5; 0]) as H by (repeat constructor; lia).
  split; [exact H|].
  exact (proj1 (proj2 (proj2 (bitfield_sets 70 [5; 0] [7; 1] 66 H eq_refl ltac:(lia) ltac:(vm_compute; lia))))).
Defined.
