(* ===== verification/Storage.v ===== *)
(** * Storage: the key-value stores and the caching layer

    Models [pkg/core/storage]: [MemoryStore] ([memory_store.go]), the write-back
    cache [MemCachedStore] ([memcached_store.go]) with its merging [Seek] and
    its three-phase [Persist], and [BatchToOperations] ([store.go]).

    The interface [storage.Store] is the class [Store]; [StoreOk] is its
    contract, stated over the map of live pairs a store denotes, and
    [MemCachedStore] is proved against the contract of the layer below it. *)

From S2P Require Import Prelude.

Inductive serr := ErrKeyNotFound | ErrBackend.

#[export] Instance serr_eq_dec : EqDecision serr.
Proof. solve_decision. Defined.

(** ** Go maps from keys to byte slices

    A [nil] slice as a value is a tombstone ([None]); a [nil] map ([gm_nil])
    reads as empty and panics on assignment. *)
Abbreviation changes := (gmap bytes (option bytes)).
Abbreviation gomap := (option changes).

Definition gm (m : gomap) : changes := default ∅ m.

(** [maps.Copy(dst, src)] *)
Definition maps_Copy (dst : gomap) (src : gomap) : res serr gomap :=
  match dst with
  | Some d => Ok (Some (gm src ∪ d))
  | None => if bool_decide (gm src = ∅) then Ok None else Panic
  end.

(** The effect of a change set on the live pairs below it. *)
Definition apply_changes (m : changes) (base : gmap bytes bytes) : gmap bytes bytes :=
  merge (λ c b, match c with Some c => c | None => b end) m base.

Definition live (m : changes) : gmap bytes bytes := omap id m.

(** ** Key prefixes *)

Definition STStorage : byte := x70.
Definition STTempStorage : byte := x71.

Definition is_stor_prefix (b : byte) : bool :=
  bool_decide (b = STStorage) || bool_decide (b = STTempStorage).

(** [chooseMap]: [None] is the index panic on an empty key. *)
Definition is_stor_key (key : bytes) : option bool := is_stor_prefix <$> head key.

Definition stor_key (k : bytes) : Prop := is_stor_key k = Some true.
Definition mem_key (k : bytes) : Prop := is_stor_key k = Some false.

(** ** Seek ranges *)

Record KeyValue := mkKV { kv_key : bytes; kv_val : bytes }.
Record KeyValueExists := mkKVE { kve_key : bytes; kve_val : option bytes }.

#[export] Instance KeyValue_eq_dec : EqDecision KeyValue.
Proof. solve_decision. Defined.

(** [Exists] of a [KeyValueExists] produced by [prepareSeekMemSnapshot]. *)
Definition kve_exists (x : KeyValueExists) : bool :=
  match kve_val x with Some _ => true | None => false end.

Record SeekRange := mkRange {
  rng_Prefix : bytes;
  rng_Start : bytes;
  rng_Backwards : bool;
  rng_SearchDepth : Z;
}.

Definition cmpFunc (backwards : bool) (a b : bytes) : comparison :=
  if backwards then CompOpp (bcompare a b) else bcompare a b.

Definition isKeyOK (rng : SeekRange) (key : bytes) : bool :=
  has_prefix key (rng_Prefix rng)
  && (bool_decide (rng_Start rng = [])
      || match bcompare (drop (length (rng_Prefix rng)) key) (rng_Start rng) with
         | Eq => true
         | Gt => negb (rng_Backwards rng)
         | Lt => rng_Backwards rng
         end).

(** Sorting by key. [slices.SortFunc] is any sorting function; on the lists
    sorted here the keys are distinct, so the result does not depend on it. *)
Definition kle (bw : bool) (a b : bytes) : Prop := cmpFunc bw a b ≠ Gt.
Definition klt (bw : bool) (a b : bytes) : Prop := cmpFunc bw a b = Lt.
#[export] Instance kle_dec bw : RelDecision (kle bw).
Proof. intros a b. unfold kle. apply _. Defined.
#[export] Instance klt_dec bw : RelDecision (klt bw).
Proof. intros a b. unfold klt. apply _. Defined.

Definition sort_kv (bw : bool) : list KeyValue → list KeyValue :=
  merge_sort (λ a b, kle bw (kv_key a) (kv_key b)).
Definition sort_kve (bw : bool) : list KeyValueExists → list KeyValueExists :=
  merge_sort (λ a b, kle bw (kve_key a) (kve_key b)).

(** The pairs of a map in range, in seek order. *)
Definition seek_list (rng : SeekRange) (v : gmap bytes bytes) : list KeyValue :=
  sort_kv (rng_Backwards rng)
    (map (λ p, mkKV p.1 p.2)
       (filter (λ p, isKeyOK rng p.1 = true) (map_to_list v))).

(** ** Callbacks

    A [Seek] callback [func(k, v []byte) bool] with its captured state [St]. *)
Section iter.
Context {St : Type} (f : St → KeyValue → St * bool).

Fixpoint iter_cb (l : list KeyValue) (st : St) : St * bool :=
  match l with
  | [] => (st, true)
  | x :: t => let '(st, c) := f st x in if c then iter_cb t st else (st, false)
  end.
End iter.

(** ** The interface [storage.Store]

    [st_seek] is the sequence of pairs [Seek] hands to a callback that never
    stops it; [Seek] itself iterates the callback over that sequence. *)
Class Store (S : Type) := {
  st_get : S → bytes → res serr bytes;
  st_put : S → gomap → gomap → S * res serr unit;
  st_seek : S → SeekRange → res serr (list KeyValue);
}.

Definition Seek {S} `{!Store S} {St} (s : S) (rng : SeekRange)
    (f : St → KeyValue → St * bool) (st : St) : res serr (St * bool) :=
  l ← st_seek s rng; Ok (iter_cb f l st).

Definition wf_puts (m : gomap) : Prop := map_Forall (λ k _, mem_key k) (gm m).
Definition wf_stores (m : gomap) : Prop := map_Forall (λ k _, stor_key k) (gm m).

Definition exact_range (rng : SeekRange) : Prop := rng_Backwards rng = false ∨ rng_Start rng = [].

Class StoreOk (S : Type) `{!Store S} := {
  st_wf : S → Prop;
  (** Whether a backwards seek stops at [Start].  [MemoryStore] does; LevelDB and
      BoltDB also return what extends [Prefix + Start] (see [Disk]), so with these
      below a backwards seek with a [Start] is outside of the contract. *)
  st_strict : bool;
  (** the live pairs found when searching [depth] layers (0: all of them) *)
  st_view : Z → S → gmap bytes bytes;
  st_view_keys : ∀ d s, st_wf s → st_view d s !! [] = None;
  st_get_spec : ∀ s k, st_wf s → k ≠ [] →
    st_get s k = match st_view 0 s !! k with Some v => Ok v | None => Err ErrKeyNotFound end;
  st_seek_spec : ∀ s rng, st_wf s → rng_Prefix rng ≠ [] → st_strict = true ∨ exact_range rng →
    st_seek s rng = Ok (seek_list rng (st_view (rng_SearchDepth rng) s));
  st_put_spec : ∀ s puts stores, st_wf s → wf_puts puts → wf_stores stores →
    let '(s', r) := st_put s puts stores in
    st_wf s' ∧
    match r with
    | Ok _ => st_view 0 s' = apply_changes (gm puts ∪ gm stores) (st_view 0 s)
    | Err _ => ∀ k, gm puts !! k = None → gm stores !! k = None →
                 st_view 0 s' !! k = st_view 0 s !! k
    | Panic => False
    end;
}.

Arguments st_strict S {_ _}.

(** ** MemoryStore *)

Record MemoryStore := mkMem { ms_mem : gomap; ms_stor : gomap }.

Definition NewMemoryStore : MemoryStore := mkMem (Some ∅) (Some ∅).

Definition chooseMap (s : MemoryStore) (key : bytes) : res serr changes :=
  match is_stor_key key with
  | None => Panic
  | Some true => Ok (gm (ms_stor s))
  | Some false => Ok (gm (ms_mem s))
  end.

Definition MemoryStore_Get (s : MemoryStore) (key : bytes) : res serr bytes :=
  m ← chooseMap s key;
  match m !! key with
  | Some (Some val) => Ok val
  | _ => Err ErrKeyNotFound
  end.

(** [put(s.chooseMap(key), key, value)] *)
Definition ms_assign (s : MemoryStore) (key : bytes) (value : option bytes)
    : res serr MemoryStore :=
  match is_stor_key key with
  | None => Panic
  | Some true =>
      match ms_stor s with
      | Some m => Ok (mkMem (ms_mem s) (Some (<[key := value]> m)))
      | None => Panic
      end
  | Some false =>
      match ms_mem s with
      | Some m => Ok (mkMem (Some (<[key := value]> m)) (ms_stor s))
      | None => Panic
      end
  end.

Definition putChangeSet (s : MemoryStore) (puts stores : gomap) : MemoryStore * res serr unit :=
  match maps_Copy (ms_mem s) puts with
  | Ok m =>
      match maps_Copy (ms_stor s) stores with
      | Ok st => (mkMem m st, Ok tt)
      | _ => (mkMem m (ms_stor s), Panic)
      end
  | _ => (s, Panic)
  end.

Definition MemoryStore_seek (s : MemoryStore) (rng : SeekRange) : res serr (list KeyValue) :=
  m ← chooseMap s (rng_Prefix rng);
  Ok (sort_kv (rng_Backwards rng)
        (omap (λ p, v ← p.2; if isKeyOK rng p.1 then Some (mkKV p.1 v) else None)
           (map_to_list m))).

(** [SeekGC]: [keepCont], with its captured state, answers whether to keep the
    pair and whether to go on; the pairs are those of a seek made before the
    first deletion. *)
Definition ms_delete (key : bytes) (s : MemoryStore) : MemoryStore :=
  match is_stor_key key with
  | Some true => mkMem (ms_mem s) (delete key <$> ms_stor s)
  | _ => mkMem (delete key <$> ms_mem s) (ms_stor s)
  end.

Section seek_gc.
Context {St : Type} (keepCont : St → KeyValue → St * (bool * bool)).

Fixpoint seek_gc_loop (l : list KeyValue) (st : St) (s : MemoryStore) : St * MemoryStore :=
  match l with
  | [] => (st, s)
  | x :: t =>
      let '(st, (keep, cont)) := keepCont st x in
      let s := if keep : bool then s else ms_delete (kv_key x) s in
      if cont : bool then seek_gc_loop t st s else (st, s)
  end.

Definition SeekGC (s : MemoryStore) (rng : SeekRange) (st : St)
    : res serr (St * MemoryStore) :=
  l ← MemoryStore_seek s rng; Ok (seek_gc_loop l st s).
End seek_gc.

(** [Export] copies values with [append([]byte(nil), v...)], which turns both a
    tombstone and an empty value into [nil]. *)
Definition clone_val (v : option bytes) : option bytes :=
  match v with Some [] | None => None | Some v => Some v end.

Definition Export (s : MemoryStore) : changes * changes :=
  (clone_val <$> gm (ms_mem s), clone_val <$> gm (ms_stor s)).

Definition Import (s : MemoryStore) (mem stor : changes) : MemoryStore :=
  mkMem (Some (clone_val <$> mem)) (Some (clone_val <$> stor)).

Definition MemoryStore_Len (s : MemoryStore) : nat :=
  (size (gm (ms_mem s)) + size (gm (ms_stor s)))%nat.

Definition MemoryStore_Close (s : MemoryStore) : MemoryStore := mkMem None None.

#[export] Instance MemoryStore_store : Store MemoryStore := {|
  st_get := MemoryStore_Get;
  st_put := putChangeSet;
  st_seek := MemoryStore_seek;
|}.

(** ** MemCachedStore *)

(** [mcs_temp] is the layer that [persist] inserts between the cache and the
    persistent store while a flush is under way ([s.ps = tempstore]). *)
Record MemCachedStore (S : Type) := mkMCS {
  mcs_ms : MemoryStore;
  mcs_private : bool;
  mcs_temp : option MemoryStore;
  mcs_ps : S;
}.
Arguments mkMCS {S} _ _ _ _.
Arguments mcs_ms {S} _.
Arguments mcs_private {S} _.
Arguments mcs_temp {S} _.
Arguments mcs_ps {S} _.

Section performSeek.
Context {St : Type} (rng : SeekRange) (cutPrefix : bool).
Context (cont : St → KeyValue → St * bool).

Definition lPrefix : nat := length (rng_Prefix rng).
Definition cut (k : bytes) : bytes := if cutPrefix then drop lPrefix k else k.

(** The captured variables of [mergeFunc]: [done], [kvMem], [haveMem], the
    items after [iMem] and the state of [cont]. *)
Record mstate := mkMS {
  m_done : bool;
  m_kv : KeyValueExists;
  m_have : bool;
  m_rest : list KeyValueExists;
  m_st : St;
}.

Definition init_mstate (memRes : list KeyValueExists) (st : St) : mstate :=
  match memRes with
  | [] => mkMS false (mkKVE [] None) false [] st
  | x :: t => mkMS false x true t st
  end.

(** The [else] branch of [mergeFunc]: the item of the persistent store. *)
Definition merge_ps (kvPs : KeyValue) (kv : KeyValueExists) (have : bool)
    (rest : list KeyValueExists) (st : St) : mstate * bool :=
  if bool_decide (kve_key kv = kv_key kvPs) then (mkMS false kv have rest st, true) else
  let '(st, c) := cont st (mkKV (cut (kv_key kvPs)) (kv_val kvPs)) in
  if c then (mkMS false kv have rest st, true) else (mkMS true kv have rest st, false).

(** The [for] loop of [mergeFunc] while cached items are left; a cached item
    that has been handed over stays in [kvMem] with its key cut. *)
Fixpoint merge_loop (kvPs : KeyValue) (kv : KeyValueExists)
    (rest : list KeyValueExists) (st : St) : mstate * bool :=
  if bool_decide (cmpFunc (rng_Backwards rng) (kve_key kv) (kv_key kvPs) = Lt) then
    let '(kv', (st, c)) :=
      match kve_val kv with
      | Some v => (mkKVE (cut (kve_key kv)) (Some v), cont st (mkKV (cut (kve_key kv)) v))
      | None => (kv, (st, true))
      end in
    if negb c then (mkMS true kv' true rest st, false) else
    match rest with
    | x :: t => merge_loop kvPs x t st
    | [] => merge_ps kvPs kv' false [] st
    end
  else merge_ps kvPs kv true rest st.

Definition mergeFunc (m : mstate) (kvPs : KeyValue) : mstate * bool :=
  if m_done m then (m, false) else
  if m_have m then merge_loop kvPs (m_kv m) (m_rest m) (m_st m)
  else merge_ps kvPs (m_kv m) false (m_rest m) (m_st m).

(** The items that are left when the persistent store is exhausted. *)
Fixpoint seek_tail (l : list KeyValueExists) (st : St) : St * bool :=
  match l with
  | [] => (st, true)
  | x :: t =>
      match kve_val x with
      | None => seek_tail t st
      | Some v =>
          let '(st, c) := cont st (mkKV (cut (kve_key x)) v) in
          if c then seek_tail t st else (st, false)
      end
  end.

(** [ps_seek] are the pairs of [ps.Seek]; the second result is whether the
    callback has asked for more to the end. [ctx] is never cancelled. *)
Definition performSeek (ps_seek : SeekRange → res serr (list KeyValue))
    (memRes : list KeyValueExists) (st : St) : res serr (St * bool) :=
  let m := init_mstate (sort_kve (rng_Backwards rng) memRes) st in
  let depth := rng_SearchDepth rng in
  m ← (if bool_decide (depth = 0) || bool_decide (1 < depth) then
         let rng' := mkRange (rng_Prefix rng) (rng_Start rng) (rng_Backwards rng)
                       (if bool_decide (1 < depth) then depth - 1 else depth) in
         l ← ps_seek rng'; Ok (iter_cb mergeFunc l m).1
       else Ok m);
  Ok (if m_done m then (m_st m, false)
      else if m_have m then seek_tail (m_kv m :: m_rest m) (m_st m)
      else (m_st m, true)).
End performSeek.

Section memcached.
Context {S : Type} `{!Store S}.

Definition NewMemCachedStore (lower : S) : MemCachedStore S :=
  mkMCS NewMemoryStore false None lower.
Definition NewPrivateMemCachedStore (lower : S) : MemCachedStore S :=
  mkMCS NewMemoryStore true None lower.

(** [Get] looks into the cache, then into the layer below. *)
Definition get_layer (ms : MemoryStore) (key : bytes) (below : res serr bytes)
    : res serr bytes :=
  m ← chooseMap ms key;
  match m !! key with
  | Some (Some val) => Ok val
  | Some None => Err ErrKeyNotFound
  | None => below
  end.

(** [s.ps.Get], which goes through the temporary layer during a flush. *)
Definition below_get (s : MemCachedStore S) (key : bytes) : res serr bytes :=
  match mcs_temp s with
  | None => st_get (mcs_ps s) key
  | Some t => get_layer t key (st_get (mcs_ps s) key)
  end.

Definition MemCachedStore_Get (s : MemCachedStore S) (key : bytes) : res serr bytes :=
  get_layer (mcs_ms s) key (below_get s key).

Definition set_ms (s : MemCachedStore S) (ms : MemoryStore) : MemCachedStore S :=
  mkMCS ms (mcs_private s) (mcs_temp s) (mcs_ps s).

(** [Put]: the value is a slice that is not nil.  A nil value would be stored as
    nil ([bytes.Clone] keeps it), which is a tombstone: that is [Delete]. *)
Definition Put (s : MemCachedStore S) (key value : bytes) : res serr (MemCachedStore S) :=
  set_ms s <$> ms_assign (mcs_ms s) key (Some value).

Definition Delete (s : MemCachedStore S) (key : bytes) : res serr (MemCachedStore S) :=
  set_ms s <$> ms_assign (mcs_ms s) key None.

Definition MemCachedStore_PutChangeSet (s : MemCachedStore S) (puts stores : gomap)
    : MemCachedStore S * res serr unit :=
  let '(ms, r) := putChangeSet (mcs_ms s) puts stores in (set_ms s ms, r).

Definition prepareSeekMemSnapshot (ms : MemoryStore) (rng : SeekRange)
    : res serr (list KeyValueExists) :=
  m ← chooseMap ms (rng_Prefix rng);
  Ok (map (λ p, mkKVE p.1 p.2)
        (filter (λ p, isKeyOK rng p.1 = true) (map_to_list m))).

(** [Seek] of one cache layer over a layer given by its [Seek]. *)
Definition seek_layer {St} (ms : MemoryStore)
    (below : SeekRange → res serr (list KeyValue)) (rng : SeekRange) (cutPrefix : bool)
    (cont : St → KeyValue → St * bool) (st : St) : res serr (St * bool) :=
  memRes ← prepareSeekMemSnapshot ms rng;
  performSeek rng cutPrefix cont below memRes st.

Definition collect (acc : list KeyValue) (x : KeyValue) : list KeyValue * bool :=
  (acc ++ [x], true).

Definition below_seek (s : MemCachedStore S) (rng : SeekRange)
    : res serr (list KeyValue) :=
  match mcs_temp s with
  | None => st_seek (mcs_ps s) rng
  | Some t => fst <$> seek_layer t (st_seek (mcs_ps s)) rng false collect []
  end.

Definition MemCachedStore_Seek {St} (s : MemCachedStore S) (rng : SeekRange)
    (cont : St → KeyValue → St * bool) (st : St) : res serr (St * bool) :=
  seek_layer (mcs_ms s) (below_seek s) rng false cont st.

(** [SeekAsync] hands the same pairs, with keys cut on request, to a channel;
    this is the list of what it sends when its context is not cancelled. *)
Definition SeekAsync (s : MemCachedStore S) (rng : SeekRange) (cutPrefix : bool)
    : res serr (list KeyValue) :=
  fst <$> seek_layer (mcs_ms s) (below_seek s) rng cutPrefix collect [].

(** [GetStorageChanges] panics on a shared store. *)
Definition GetStorageChanges (s : MemCachedStore S) : res serr gomap :=
  if mcs_private s then Ok (ms_stor (mcs_ms s)) else Panic.

(** ** Persist

    [persist] of a private store is one step.  For a shared store it is
    [persist_begin], the flush [persist_flush] of the temporary layer into the
    persistent store, and [persist_end]; between the three steps other
    operations may run on the store unless the persist is synchronous. *)
Definition batch_len (ms : MemoryStore) : nat :=
  (size (gm (ms_mem ms)) + size (gm (ms_stor ms)))%nat.

Definition persist_private (s : MemCachedStore S) : MemCachedStore S * res serr nat :=
  let keys := batch_len (mcs_ms s) in
  if bool_decide (keys = 0%nat) then (s, Ok 0%nat) else
  let '(ps, r) := st_put (mcs_ps s) (ms_mem (mcs_ms s)) (ms_stor (mcs_ms s)) in
  match r with
  | Ok _ => (mkMCS (mkMem None None) (mcs_private s) (mcs_temp s) ps, Ok keys)
  | Err e => (mkMCS (mcs_ms s) (mcs_private s) (mcs_temp s) ps, Err e)
  | Panic => (mkMCS (mcs_ms s) (mcs_private s) (mcs_temp s) ps, Panic)
  end.

(** [None]: nothing to persist. *)
Definition persist_begin (s : MemCachedStore S) : option (MemCachedStore S) :=
  if bool_decide (batch_len (mcs_ms s) = 0%nat) then None else
  Some (mkMCS NewMemoryStore (mcs_private s) (Some (mcs_ms s)) (mcs_ps s)).

Definition persist_flush (s : MemCachedStore S) : MemCachedStore S * res serr unit :=
  match mcs_temp s with
  | None => (s, Ok tt)
  | Some t =>
      let '(ps, r) := st_put (mcs_ps s) (ms_mem t) (ms_stor t) in
      (mkMCS (mcs_ms s) (mcs_private s) (mcs_temp s) ps, r)
  end.

Definition persist_end (r : res serr unit) (s : MemCachedStore S)
    : MemCachedStore S * res serr unit :=
  match mcs_temp s with
  | None => (s, r)
  | Some t =>
      match r with
      | Ok _ => (mkMCS (mcs_ms s) (mcs_private s) None (mcs_ps s), r)
      | _ =>
          let '(ms, r') := putChangeSet t (ms_mem (mcs_ms s)) (ms_stor (mcs_ms s)) in
          (mkMCS ms (mcs_private s) None (mcs_ps s), match r' with Ok _ => r | _ => r' end)
      end
  end.

(** The synchronous [PersistSync]: nothing runs between the steps. *)
Definition PersistSync (s : MemCachedStore S) : MemCachedStore S * res serr nat :=
  if mcs_private s then persist_private s else
  match persist_begin s with
  | None => (s, Ok 0%nat)
  | Some s1 =>
      let '(s2, r) := persist_flush s1 in
      let '(s3, r) := persist_end r s2 in
      (s3, match r with Ok _ => Ok (batch_len (mcs_ms s)) | Err e => Err e | Panic => Panic end)
  end.

(** [GetBatch]: the accumulated change set, each key with whether it exists
    in the layer below. *)
Definition GetBatch (s : MemCachedStore S) : list (KeyValue * bool) * list (bytes * bool) :=
  let exists_below k := is_ok (below_get s k) in
  let l := map_to_list (gm (ms_mem (mcs_ms s))) ++ map_to_list (gm (ms_stor (mcs_ms s))) in
  (omap (λ p, v ← p.2; Some (mkKV p.1 v, exists_below p.1)) l,
   omap (λ p, match p.2 with None => Some (p.1, exists_below p.1) | Some _ => None end) l).
End memcached.

(** ** BatchToOperations

    [op_State] is the [State] string of [dboper.Operation]; the order of the
    batch is the (unspecified) iteration order of the Go maps. *)
Inductive opState := Added | Changed | Deleted.

Record Operation := mkOp { op_State : opState; op_Key : bytes; op_Value : option bytes }.

Definition BatchToOperations (batch : list (KeyValue * bool) * list (bytes * bool))
    : list Operation :=
  omap (λ p, match kv_key p.1 with
             | [] => None
             | b :: key =>
                 if is_stor_prefix b
                 then Some (mkOp (if p.2 : bool then Changed else Added) key
                              (Some (kv_val p.1)))
                 else None
             end) batch.1
  ++ omap (λ p, match p.1 with
                | [] => None
                | b :: key =>
                    if (p.2 : bool) && is_stor_prefix b
                    then Some (mkOp Deleted key None) else None
                end) batch.2.

#[export] Instance MemCachedStore_store S `{!Store S} : Store (MemCachedStore S) := {|
  st_get := MemCachedStore_Get;
  st_put := MemCachedStore_PutChangeSet;
  st_seek s rng := fst <$> MemCachedStore_Seek s rng collect [];
|}.

(** ** Order lemmas *)

Lemma cmpFunc_antisym bw a b : cmpFunc bw b a = CompOpp (cmpFunc bw a b).
Proof. unfold cmpFunc. destruct bw; by rewrite (bcompare_antisym a b). Qed.

Lemma cmpFunc_eq bw a b : cmpFunc bw a b = Eq ↔ a = b.
Proof.
  unfold cmpFunc. rewrite <- bcompare_eq.
  destruct bw; [|done]. destruct (bcompare a b); cbn; intuition congruence.
Qed.

#[export] Instance klt_trans bw : Transitive (klt bw).
Proof.
  intros a b c. unfold klt, cmpFunc. destruct bw; [|apply bcompare_trans_lt].
  rewrite <- !bcompare_antisym. intros Hab Hbc. by eapply bcompare_trans_lt.
Qed.

Lemma klt_irrefl bw a : ¬ klt bw a a.
Proof. unfold klt. rewrite (proj2 (cmpFunc_eq bw a a)); done. Qed.

Lemma klt_asym bw a b : klt bw a b → ¬ klt bw b a.
Proof. unfold klt. rewrite (cmpFunc_antisym bw a b). by intros ->. Qed.

Lemma not_klt bw a b : ¬ klt bw a b → a = b ∨ klt bw b a.
Proof.
  unfold klt. rewrite (cmpFunc_antisym bw a b), <- (cmpFunc_eq bw).
  destruct (cmpFunc bw a b); cbn; intuition congruence.
Qed.

Lemma kle_lt_eq bw a b : kle bw a b ↔ klt bw a b ∨ a = b.
Proof.
  unfold kle, klt. rewrite <- (cmpFunc_eq bw).
  destruct (cmpFunc bw a b); intuition congruence.
Qed.

#[export] Instance kle_trans bw : Transitive (kle bw).
Proof.
  intros a b c. rewrite !kle_lt_eq. intros [Hab| ->] [Hbc| ->]; auto.
  left. by etrans.
Qed.

#[export] Instance kle_total bw : Total (kle bw).
Proof.
  intros a b. unfold kle. rewrite (cmpFunc_antisym bw a b).
  destruct (cmpFunc bw a b); cbn; auto.
Qed.

Definition kvlt bw (a b : KeyValue) : Prop := klt bw (kv_key a) (kv_key b).
Definition kvelt bw (a b : KeyValueExists) : Prop := klt bw (kve_key a) (kve_key b).

#[export] Instance kvlt_antisym bw : AntiSymm (=) (kvlt bw).
Proof. intros a b Hab Hba. by destruct (klt_asym bw _ _ Hab Hba). Qed.

(** Sorting by distinct keys gives a strictly sorted list. *)
Section sort_by.
Context {A : Type} (key : A → bytes) (bw : bool).

Lemma sorted_strict (l : list A) :
  Sorted (λ a b, kle bw (key a) (key b)) l → NoDup (key <$> l) →
  StronglySorted (λ a b, klt bw (key a) (key b)) l.
Proof.
  intros Hs%Sorted_StronglySorted Hnd.
  2:{ intros a b c. apply kle_trans. }
  induction Hs as [|a l Hs IH Ha]; [constructor|].
  cbn in Hnd. apply NoDup_cons in Hnd as [Hni Hnd]. constructor; [by apply IH|].
  rewrite Forall_forall in Ha |- *. intros b Hb.
  destruct (proj1 (kle_lt_eq bw _ _) (Ha b Hb)) as [|Heq]; [done|].
  destruct Hni. rewrite Heq. by apply list_elem_of_fmap_2.
Qed.

Lemma sort_by_sorted (l : list A) :
  NoDup (key <$> l) →
  StronglySorted (λ a b, klt bw (key a) (key b))
    (merge_sort (λ a b, kle bw (key a) (key b)) l).
Proof.
  intros Hnd. apply sorted_strict.
  - apply Sorted_merge_sort. intros a b. apply kle_total.
  - by rewrite (merge_sort_Permutation (λ a b, kle bw (key a) (key b)) l).
Qed.
End sort_by.

Lemma elem_of_sort_kv bw l x : x ∈ sort_kv bw l ↔ x ∈ l.
Proof. unfold sort_kv. by rewrite merge_sort_Permutation. Qed.

Lemma elem_of_sort_kve bw l x : x ∈ sort_kve bw l ↔ x ∈ l.
Proof. unfold sort_kve. by rewrite merge_sort_Permutation. Qed.

Lemma kv_sorted_unique bw l1 l2 :
  StronglySorted (kvlt bw) l1 → StronglySorted (kvlt bw) l2 →
  (∀ x, x ∈ l1 ↔ x ∈ l2) → l1 = l2.
Proof.
  intros H1 H2 Hx. apply (StronglySorted_unique (kvlt bw)); [done..|].
  assert (∀ l, StronglySorted (kvlt bw) l → NoDup l) as Hnd.
  { induction 1 as [|a l Hs IH Ha]; constructor; [|done].
    intros Hin. rewrite Forall_forall in Ha. by destruct (klt_irrefl bw _ (Ha a Hin)). }
  apply NoDup_Permutation; auto.
Qed.

(** ** The pairs of a seek *)

Lemma seek_list_sorted rng v : StronglySorted (kvlt (rng_Backwards rng)) (seek_list rng v).
Proof.
  unfold seek_list, sort_kv. apply (sort_by_sorted kv_key).
  rewrite <- list_fmap_compose. cbn.
  change (NoDup (fst <$> filter (λ p, isKeyOK rng p.1 = true) (map_to_list v))).
  eapply sublist_NoDup; [apply (NoDup_fst_map_to_list v)|].
  apply fmap_sublist, sublist_filter.
Qed.

Lemma elem_of_seek_list rng v x :
  x ∈ seek_list rng v ↔ v !! kv_key x = Some (kv_val x) ∧ isKeyOK rng (kv_key x) = true.
Proof.
  unfold seek_list. rewrite elem_of_sort_kv, list_elem_of_fmap. split.
  - intros ([k y] & -> & Hp). rewrite list_elem_of_filter, elem_of_map_to_list in Hp.
    cbn in *. tauto.
  - intros [Hv Hk]. exists (kv_key x, kv_val x). split; [by destruct x|].
    by rewrite list_elem_of_filter, elem_of_map_to_list.
Qed.

Lemma seek_list_unique rng v l :
  StronglySorted (kvlt (rng_Backwards rng)) l →
  (∀ x, x ∈ l ↔ v !! kv_key x = Some (kv_val x) ∧ isKeyOK rng (kv_key x) = true) →
  l = seek_list rng v.
Proof.
  intros Hs Hl. eapply kv_sorted_unique; [done|apply seek_list_sorted|].
  intros x. by rewrite Hl, elem_of_seek_list.
Qed.

Lemma seek_list_ext rng v1 v2 :
  (∀ k, isKeyOK rng k = true → v1 !! k = v2 !! k) → seek_list rng v1 = seek_list rng v2.
Proof.
  intros Hv. apply seek_list_unique; [apply seek_list_sorted|].
  intros x. rewrite elem_of_seek_list.
  destruct (isKeyOK rng (kv_key x)) eqn:Hk; [by rewrite Hv|].
  split; intros [_ [=]].
Qed.

(** ** Change sets and views *)

Lemma lookup_apply_changes m base k :
  apply_changes m base !! k = match m !! k with Some c => c | None => base !! k end.
Proof. unfold apply_changes. rewrite lookup_merge. by destruct (m !! k), (base !! k). Qed.

Lemma apply_changes_assoc m1 m2 base :
  apply_changes m1 (apply_changes m2 base) = apply_changes (m1 ∪ m2) base.
Proof.
  apply map_eq. intros k. rewrite !lookup_apply_changes, lookup_union.
  by destruct (m1 !! k), (m2 !! k).
Qed.

Lemma apply_changes_empty base : apply_changes ∅ base = base.
Proof. apply map_eq. intros k. by rewrite lookup_apply_changes, lookup_empty. Qed.

Lemma lookup_live m k : live m !! k = m !! k ≫= id.
Proof. unfold live. by rewrite lookup_omap. Qed.

Lemma apply_changes_live m : apply_changes m ∅ = live m.
Proof.
  apply map_eq. intros k. rewrite lookup_apply_changes, lookup_live, lookup_empty.
  by destruct (m !! k).
Qed.

(** A memory layer is well formed when its maps are allocated and hold the keys
    [chooseMap] sends to them. *)
Definition ms_wf (s : MemoryStore) : Prop :=
  is_Some (ms_mem s) ∧ is_Some (ms_stor s) ∧ wf_puts (ms_mem s) ∧ wf_stores (ms_stor s).

Definition ms_all (s : MemoryStore) : changes := gm (ms_mem s) ∪ gm (ms_stor s).

Lemma is_stor_key_cons b k : is_stor_key (b :: k) = Some (is_stor_prefix b).
Proof. done. Qed.

Lemma chooseMap_ok s k m :
  wf_puts (ms_mem s) → wf_stores (ms_stor s) →
  chooseMap s k = Ok m → m !! k = ms_all s !! k.
Proof.
  intros Hm Hs. unfold chooseMap, ms_all. rewrite lookup_union.
  destruct (is_stor_key k) as [[]|] eqn:Hk; intros [= <-].
  - destruct (gm (ms_mem s) !! k) as [c|] eqn:E; [|by destruct (gm (ms_stor s) !! k)].
    apply Hm in E. unfold mem_key in E. congruence.
  - destruct (gm (ms_stor s) !! k) as [c|] eqn:E; [|by destruct (gm (ms_mem s) !! k)].
    apply Hs in E. unfold stor_key in E. congruence.
Qed.

Lemma chooseMap_nonempty s k : k ≠ [] → ∃ m, chooseMap s k = Ok m.
Proof.
  unfold chooseMap. destruct k as [|b k]; [done|]. intros _. rewrite is_stor_key_cons.
  destruct (is_stor_prefix b); eauto.
Qed.

Lemma chooseMap_same_head s k p b t t' :
  k = b :: t → p = b :: t' → chooseMap s k = chooseMap s p.
Proof. by intros -> ->. Qed.

Lemma isKeyOK_prefix rng k :
  rng_Prefix rng ≠ [] → isKeyOK rng k = true →
  ∃ b t t', k = b :: t ∧ rng_Prefix rng = b :: t'.
Proof.
  intros Hne Hk. unfold isKeyOK in Hk. apply andb_true_iff in Hk as [Hp _].
  apply has_prefix_spec in Hp as [t ->].
  destruct (rng_Prefix rng) as [|b t']; [done|]. cbn. eauto.
Qed.

(** The map chosen for a prefix agrees with the whole layer on keys in range. *)
Lemma chooseMap_range s rng m k :
  wf_puts (ms_mem s) → wf_stores (ms_stor s) → rng_Prefix rng ≠ [] →
  chooseMap s (rng_Prefix rng) = Ok m → isKeyOK rng k = true →
  m !! k = ms_all s !! k.
Proof.
  intros Hm Hs Hne Hc Hk. destruct (isKeyOK_prefix _ _ Hne Hk) as (b & t & t' & Hkb & Hpb).
  apply chooseMap_ok; [done..|]. by rewrite (chooseMap_same_head s k _ b t t' Hkb Hpb).
Qed.

(** ** MemoryStore meets the contract *)

Lemma live_keys s : ms_wf s → live (ms_all s) !! [] = None.
Proof.
  intros (_ & _ & Hm & Hs). rewrite lookup_live. unfold ms_all. rewrite lookup_union.
  destruct (gm (ms_mem s) !! []) eqn:E1; [by apply Hm in E1|].
  destruct (gm (ms_stor s) !! []) eqn:E2; [by apply Hs in E2|]. done.
Qed.

Lemma MemoryStore_Get_spec s k :
  ms_wf s → k ≠ [] →
  MemoryStore_Get s k = match live (ms_all s) !! k with
                        | Some v => Ok v | None => Err ErrKeyNotFound end.
Proof.
  intros (_ & _ & Hm & Hs) Hk. destruct (chooseMap_nonempty s k Hk) as [m Hc].
  unfold MemoryStore_Get. rewrite Hc, res_bind_ok, lookup_live.
  rewrite (chooseMap_ok s k m Hm Hs Hc). by destruct (ms_all s !! k) as [[]|].
Qed.

Lemma MemoryStore_seek_spec s rng :
  ms_wf s → rng_Prefix rng ≠ [] →
  MemoryStore_seek s rng = Ok (seek_list rng (live (ms_all s))).
Proof.
  intros (_ & _ & Hm & Hs) Hne. unfold MemoryStore_seek.
  destruct (chooseMap_nonempty s _ Hne) as [m Hc]. rewrite Hc, res_bind_ok. f_equal.
  transitivity (seek_list rng (live m)).
  2:{ apply seek_list_ext. intros k Hk. rewrite !lookup_live.
      by rewrite (chooseMap_range s rng m k). }
  apply seek_list_unique.
  - unfold sort_kv. apply (sort_by_sorted kv_key).
    pose proof (NoDup_fst_map_to_list m) as Hnd.
    induction (map_to_list m) as [|[k c] l IH]; cbn; [constructor|].
    cbn in Hnd. apply NoDup_cons in Hnd as [Hni Hnd]. specialize (IH Hnd).
    destruct c as [v|]; cbn; [|done]. destruct (isKeyOK rng k); cbn; [|done].
    constructor; [|done]. intros Hin. apply Hni.
    apply list_elem_of_fmap in Hin as ([k' v'] & -> & Hin). cbn.
    apply list_elem_of_omap in Hin as ([k'' c''] & Hin & Hx). cbn in Hx.
    apply list_elem_of_fmap. exists (k'', c''). split; [|done].
    destruct c''; cbn in Hx; [|done]. case_match; by simplify_eq.
  - intros x. rewrite elem_of_sort_kv, list_elem_of_omap, lookup_live. split.
    + intros ([k c] & Hin & Hx). apply elem_of_map_to_list in Hin. cbn in Hx.
      destruct c as [v|]; cbn in Hx; [|done]. case_match; [|done]. simplify_eq. cbn.
      by rewrite Hin.
    + intros [Hv Hk]. destruct x as [k v]. cbn in *. exists (k, Some v).
      destruct (m !! k) as [c|] eqn:E; [|done]. cbn in Hv. unfold id in Hv. subst c.
      split; [by apply elem_of_map_to_list|]. cbn. by rewrite Hk.
Qed.

Lemma wf_union (P : bytes → Prop) (m1 m2 : changes) :
  map_Forall (λ k _, P k) m1 → map_Forall (λ k _, P k) m2 →
  map_Forall (λ k _, P k) (m1 ∪ m2).
Proof.
  intros H1 H2 k c. rewrite lookup_union_Some_raw. intros [?|[_ ?]]; eauto.
Qed.

Lemma mem_stor_disjoint (m1 m2 : gomap) k :
  wf_puts m1 → wf_stores m2 → is_Some (gm m1 !! k) → gm m2 !! k = None.
Proof.
  intros H1 H2 [c Hc]. destruct (gm m2 !! k) as [c'|] eqn:E; [|done].
  apply H1 in Hc. apply H2 in E. unfold mem_key, stor_key in *. congruence.
Qed.

(** The union of two layers, map by map, is the union of the layers. *)
Lemma ms_all_union a b c d :
  wf_puts a → wf_stores b → wf_puts c → wf_stores d →
  (gm a ∪ gm c) ∪ (gm b ∪ gm d) = (gm a ∪ gm b) ∪ (gm c ∪ gm d).
Proof.
  intros Ha Hb Hc Hd. apply map_eq. intros k. rewrite !lookup_union.
  destruct (gm a !! k) eqn:Ea, (gm b !! k) eqn:Eb, (gm c !! k) eqn:Ec, (gm d !! k) eqn:Ed;
    try done; exfalso.
  all: try (pose proof (mem_stor_disjoint a b k Ha Hb ltac:(by eexists)); congruence).
  all: try (pose proof (mem_stor_disjoint c b k Hc Hb ltac:(by eexists)); congruence).
Qed.

Lemma putChangeSet_spec s puts stores :
  ms_wf s → wf_puts puts → wf_stores stores →
  ∃ s', putChangeSet s puts stores = (s', Ok tt) ∧ ms_wf s'
    ∧ ms_all s' = (gm puts ∪ gm stores) ∪ ms_all s.
Proof.
  intros ([m Hm0] & [st Hs0] & Hm & Hs) Hp Hst. destruct s as [mm ss]. cbn in *. subst.
  eexists. split; [done|]. unfold ms_wf, ms_all. cbn. split_and!; eauto.
  - by apply wf_union.
  - by apply wf_union.
  - by apply (ms_all_union puts stores (Some m) (Some st)).
Qed.

Lemma live_union m base : live (m ∪ base) = apply_changes m (live base).
Proof.
  apply map_eq. intros k. rewrite lookup_apply_changes, !lookup_live, lookup_union.
  by destruct (m !! k), (base !! k).
Qed.

#[export] Program Instance MemoryStore_ok : StoreOk MemoryStore := {|
  st_wf := ms_wf;
  st_strict := true;
  st_view _ s := live (ms_all s);
|}.
Next Obligation. intros d s Hs. by apply live_keys. Qed.
Next Obligation. intros s k. apply MemoryStore_Get_spec. Qed.
Next Obligation. intros s rng ? ? _. by apply MemoryStore_seek_spec. Qed.
Next Obligation.
  intros s puts stores Hs Hp Hst. cbn.
  destruct (putChangeSet_spec s puts stores Hs Hp Hst) as (s' & -> & Hw & Ha).
  split; [done|]. by rewrite Ha, live_union.
Qed.

(** ** The merge of [performSeek] *)

Fixpoint split_lt (bw : bool) (k : bytes) (mem : list KeyValueExists)
    : list KeyValueExists * list KeyValueExists :=
  match mem with
  | [] => ([], [])
  | y :: t =>
      if bool_decide (klt bw (kve_key y) k) then
        let '(b, a) := split_lt bw k t in (y :: b, a)
      else ([], mem)
  end.

Definition existing (mem : list KeyValueExists) : list KeyValue :=
  omap (λ x, v ← kve_val x; Some (mkKV (kve_key x) v)) mem.

Definition ps_item (after : list KeyValueExists) (x : KeyValue) : list KeyValue :=
  match after with
  | y :: _ => if bool_decide (kve_key y = kv_key x) then [] else [x]
  | [] => [x]
  end.

Fixpoint merge_spec (bw : bool) (ps : list KeyValue) (mem : list KeyValueExists)
    : list KeyValue :=
  match ps with
  | [] => existing mem
  | x :: ps =>
      let '(before, after) := split_lt bw (kv_key x) mem in
      existing before ++ ps_item after x ++ merge_spec bw ps after
  end.

Lemma iter_cb_app {St} (f : St → KeyValue → St * bool) l1 l2 st :
  iter_cb f (l1 ++ l2) st
  = let '(st', c) := iter_cb f l1 st in if c then iter_cb f l2 st' else (st', false).
Proof.
  revert st. induction l1 as [|x l1 IH]; intros st; cbn; [done|].
  destruct (f st x) as [st' []]; [apply IH|done].
Qed.

Lemma split_lt_spec bw k mem :
  StronglySorted (kvelt bw) mem →
  let '(b, a) := split_lt bw k mem in
  mem = b ++ a ∧ Forall (λ y, klt bw (kve_key y) k) b
  ∧ Forall (λ y, ¬ klt bw (kve_key y) k) a.
Proof.
  induction 1 as [|y t Hs IH Hy]; cbn; [split_and!; constructor|].
  case_bool_decide as Hlt.
  - destruct (split_lt bw k t) as [b a]. destruct IH as (-> & Hb & Ha).
    split_and!; [done|by constructor|done].
  - split_and!; [done|constructor|]. constructor; [done|].
    eapply Forall_impl; [apply Hy|]. intros z Hz Hzk. apply Hlt. by etrans.
Qed.

Lemma elem_of_existing mem x :
  x ∈ existing mem ↔ mkKVE (kv_key x) (Some (kv_val x)) ∈ mem.
Proof.
  unfold existing. rewrite list_elem_of_omap. split.
  - intros ([k c] & Hin & Hx). destruct c; by simplify_eq/=.
  - intros Hin. eexists. split; [done|]. by destruct x.
Qed.

Section merge_correct.
Context {St : Type} (rng : SeekRange) (cutPrefix : bool).
Context (cont : St → KeyValue → St * bool).

Let bw := rng_Backwards rng.
Let ccut := cut rng cutPrefix.
Definition cut_kv (x : KeyValue) : KeyValue := mkKV (cut rng cutPrefix (kv_key x)) (kv_val x).

Definition pending (m : mstate (St := St)) : list KeyValueExists :=
  if m_have m then m_kv m :: m_rest m else [].

(** A cached key whose cut form is the full key of a persistent pair. *)
Definition no_clash (mem : list KeyValueExists) (ps : list KeyValue) : Prop :=
  ∀ y x, y ∈ mem → is_Some (kve_val y) → x ∈ ps →
    cut rng cutPrefix (kve_key y) = kv_key x → kve_key y = kv_key x.

Definition stale_ok (m : mstate (St := St)) (ps : list KeyValue) : Prop :=
  m_have m = false → Forall (λ x, kve_key (m_kv m) ≠ kv_key x) ps.

(** What a call of [mergeFunc] that was to hand over [out] did. *)
Definition merge_post (out : list KeyValue) (st : St) (after : list KeyValueExists)
    (ps : list KeyValue) (r : mstate (St := St) * bool) : Prop :=
  let '(st', c) := iter_cb cont (cut_kv <$> out) st in
  r.2 = c ∧ m_st r.1 = st' ∧ m_done r.1 = negb c
  ∧ (c = true → pending r.1 = after ∧ stale_ok r.1 ps).

Lemma merge_post_cons x out st after ps r :
  merge_post (x :: out) st after ps r
  ↔ let '(st', c) := cont st (cut_kv x) in
    if c then merge_post out st' after ps r
    else r.2 = false ∧ m_st r.1 = st' ∧ m_done r.1 = true.
Proof.
  unfold merge_post. cbn. destruct (cont st (cut_kv x)) as [st' []]; [done|].
  cbn. naive_solver.
Qed.

Lemma stale_ne kv x ps :
  StronglySorted (kvlt bw) (x :: ps) → klt bw (kve_key kv) (kv_key x) →
  Forall (λ y, kve_key kv ≠ kv_key y) (x :: ps).
Proof.
  intros Hs Hlt. apply StronglySorted_inv in Hs as [_ Hx].
  constructor; [intros He; rewrite He in Hlt; by apply klt_irrefl in Hlt|].
  eapply Forall_impl; [apply Hx|]. intros y Hy He. cbn in *.
  unfold kvlt in Hy. rewrite <- He in Hy. by eapply klt_asym.
Qed.

(** Once consumed, a cached item keeps differing from the persistent ones, even
    with its key cut. *)
Lemma consumed_ne kv mem x ps :
  StronglySorted (kvlt bw) (x :: ps) → klt bw (kve_key kv) (kv_key x) →
  kv ∈ mem → no_clash mem (x :: ps) → is_Some (kve_val kv) →
  Forall (λ y, ccut (kve_key kv) ≠ kv_key y) (x :: ps).
Proof.
  intros Hs Hlt Hin Hnc Hex. pose proof (stale_ne _ _ _ Hs Hlt) as Hne.
  rewrite Forall_forall in Hne |- *. intros y Hy He.
  apply (Hne y Hy). by eapply Hnc.
Qed.

Lemma merge_ps_post x kv have rest st ps after :
  (have = false → Forall (λ y, kve_key kv ≠ kv_key y) ps) →
  after = (if have then kv :: rest else []) →
  merge_post (if bool_decide (kve_key kv = kv_key x) then [] else [x]) st after ps
    (merge_ps rng cutPrefix cont x kv have rest st).
Proof.
  intros Hst ->. unfold merge_ps. case_bool_decide.
  - unfold merge_post, pending, stale_ok. cbn. destruct have; naive_solver.
  - apply merge_post_cons. change (mkKV (cut rng cutPrefix (kv_key x)) (kv_val x)) with (cut_kv x).
    destruct (cont st (cut_kv x)) as [st' []]; [|done].
    unfold merge_post, pending, stale_ok. cbn. destruct have; naive_solver.
Qed.

Lemma merge_loop_post x ps rest kv st :
  StronglySorted (kvlt bw) (x :: ps) → StronglySorted (kvelt bw) (kv :: rest) →
  no_clash (kv :: rest) (x :: ps) →
  let '(b, a) := split_lt bw (kv_key x) (kv :: rest) in
  merge_post (existing b ++ ps_item a x) st a ps
    (merge_loop rng cutPrefix cont x kv rest st).
Proof.
  intros Hps. revert kv st. induction rest as [|y t IH]; intros kv st Hmem Hnc.
  - cbn. change (rng_Backwards rng) with bw.
    destruct (bool_decide_reflect (klt bw (kve_key kv) (kv_key x))) as [Hlt|Hge].
    + rewrite (bool_decide_eq_true_2 (cmpFunc bw (kve_key kv) (kv_key x) = Lt)) by exact Hlt. cbn.
      destruct (kve_val kv) as [v|] eqn:Hv; cbn.
      * apply merge_post_cons. destruct kv as [k c]. cbn in *. subst c.
        change (cut_kv (mkKV k v)) with (mkKV (cut rng cutPrefix k) v).
        destruct (cont st (mkKV (cut rng cutPrefix k) v)) as [st' []]; cbn; [|done].
        pose proof (consumed_ne (mkKVE k (Some v)) _ _ _ Hps Hlt
          ltac:(by apply list_elem_of_here) Hnc ltac:(by eexists)) as Hne.
        pose proof (merge_ps_post x (mkKVE (cut rng cutPrefix k) (Some v)) false [] st' ps []) as Hp.
        cbn in Hp. apply Forall_cons_1 in Hne as [Hx Hne].
        rewrite bool_decide_eq_false_2 in Hp by done. by apply Hp.
      * pose proof (stale_ne _ _ _ Hps Hlt) as Hne. apply Forall_cons_1 in Hne as [Hx Hne].
        pose proof (merge_ps_post x kv false [] st ps []) as Hp.
        rewrite bool_decide_eq_false_2 in Hp by done. by apply Hp.
    + rewrite (bool_decide_eq_false_2 (cmpFunc bw (kve_key kv) (kv_key x) = Lt)) by exact Hge. cbn. by apply merge_ps_post.
  - cbn. change (rng_Backwards rng) with bw.
    destruct (bool_decide_reflect (klt bw (kve_key kv) (kv_key x))) as [Hlt|Hge].
    + rewrite (bool_decide_eq_true_2 (cmpFunc bw (kve_key kv) (kv_key x) = Lt)) by exact Hlt.
      apply StronglySorted_inv in Hmem as [Hmem _].
      assert (no_clash (y :: t) (x :: ps)) as Hnc'.
      { intros z z' Hz. apply Hnc. by apply list_elem_of_further. }
      specialize (IH y). cbn in IH.
      destruct (if bool_decide (klt bw (kve_key y) (kv_key x)) then _ else _) as [b a] eqn:Hsp.
      cbn. destruct (kve_val kv) as [v|] eqn:Hv; cbn.
      * apply merge_post_cons.
        change (cut_kv (mkKV (kve_key kv) v)) with (mkKV (cut rng cutPrefix (kve_key kv)) v).
        destruct (cont st (mkKV (cut rng cutPrefix (kve_key kv)) v)) as [st' []]; cbn; [|done].
        by apply IH.
      * by apply IH.
    + rewrite (bool_decide_eq_false_2 (cmpFunc bw (kve_key kv) (kv_key x) = Lt)) by exact Hge. cbn. by apply merge_ps_post.
Qed.

Definition finish (m : mstate (St := St)) : St * bool :=
  if m_done m then (m_st m, false)
  else if m_have m then seek_tail rng cutPrefix cont (m_kv m :: m_rest m) (m_st m)
  else (m_st m, true).

Lemma seek_tail_existing l st :
  seek_tail rng cutPrefix cont l st = iter_cb cont (cut_kv <$> existing l) st.
Proof.
  revert st. induction l as [|[k c] t IH]; intros st; [done|]. cbn.
  destruct c as [v|]; cbn; [|apply IH].
  change (cut_kv (mkKV k v)) with (mkKV (cut rng cutPrefix k) v).
  destruct (cont st (mkKV (cut rng cutPrefix k) v)) as [st' []]; auto.
Qed.

Lemma mergeFunc_post m x ps :
  m_done m = false → stale_ok m (x :: ps) →
  StronglySorted (kvlt bw) (x :: ps) → StronglySorted (kvelt bw) (pending m) →
  no_clash (pending m) (x :: ps) →
  let '(b, a) := split_lt bw (kv_key x) (pending m) in
  merge_post (existing b ++ ps_item a x) (m_st m) a ps (mergeFunc rng cutPrefix cont m x).
Proof.
  intros Hd Hst Hps Hmem Hnc. unfold mergeFunc, pending, stale_ok in *. rewrite Hd.
  destruct (m_have m) eqn:Hh.
  - by apply merge_loop_post.
  - cbn. destruct (Forall_cons_1 _ _ _ (Hst eq_refl)) as [Hx Hr].
    pose proof (merge_ps_post x (m_kv m) false (m_rest m) (m_st m) ps []) as Hp.
    rewrite bool_decide_eq_false_2 in Hp by done. by apply Hp.
Qed.

Lemma merge_run ps m :
  m_done m = false → stale_ok m ps →
  StronglySorted (kvlt bw) ps → StronglySorted (kvelt bw) (pending m) →
  no_clash (pending m) ps →
  finish (iter_cb (mergeFunc rng cutPrefix cont) ps m).1
  = iter_cb cont (cut_kv <$> merge_spec bw ps (pending m)) (m_st m).
Proof.
  revert m. induction ps as [|x ps IH]; intros m Hd Hst Hps Hmem Hnc.
  - cbn. rewrite <- seek_tail_existing. unfold finish, pending. rewrite Hd.
    by destruct (m_have m).
  - pose proof (mergeFunc_post m x ps Hd Hst Hps Hmem Hnc) as Hpost.
    pose proof (split_lt_spec bw (kv_key x) _ Hmem) as Hsp.
    cbn [merge_spec iter_cb]. destruct (split_lt bw (kv_key x) (pending m)) as [b a].
    destruct Hsp as (Hpe & _ & _).
    rewrite app_assoc, fmap_app, iter_cb_app.
    unfold merge_post in Hpost.
    destruct (iter_cb cont (cut_kv <$> existing b ++ ps_item a x) (m_st m)) as [st' c].
    destruct (mergeFunc rng cutPrefix cont m x) as [m' c']. cbn in Hpost.
    destruct Hpost as (-> & Hst' & Hd' & Hnext).
    destruct c; cbn.
    + destruct (Hnext eq_refl) as [Ha Hso]. rewrite <- Ha, <- Hst'.
      apply IH; [done|done|by apply StronglySorted_inv in Hps as [? _]| |].
      * rewrite Ha. rewrite Hpe in Hmem. by apply StronglySorted_app_1_r in Hmem.
      * intros y z Hy Hex Hz. rewrite Ha in Hy. apply Hnc; [|done|by right].
        rewrite Hpe. apply elem_of_app. by right.
    + unfold finish. rewrite Hd'. cbn. by rewrite Hst'.
Qed.
End merge_correct.

(** The merge of two strictly sorted sequences. *)
Lemma merge_spec_elem bw ps mem x :
  StronglySorted (kvelt bw) mem → StronglySorted (kvlt bw) ps →
  x ∈ merge_spec bw ps mem
  ↔ mkKVE (kv_key x) (Some (kv_val x)) ∈ mem
    ∨ x ∈ ps ∧ ∀ y, y ∈ mem → kve_key y ≠ kv_key x.
Proof.
  intros Hmem Hps. revert mem Hmem. induction Hps as [|z ps Hps IH Hz]; intros mem Hmem.
  { cbn. rewrite elem_of_existing. set_solver. }
  cbn [merge_spec]. pose proof (split_lt_spec bw (kv_key z) mem Hmem) as Hsp.
  destruct (split_lt bw (kv_key z) mem) as [b a]. destruct Hsp as (-> & Hb & Ha).
  pose proof (StronglySorted_app_1_r _ _ _ Hmem) as Hsa.
  rewrite !elem_of_app, elem_of_existing, IH by done.
  rewrite Forall_forall in Hb, Ha. rewrite Forall_forall in Hz.
  assert (∀ y w, y ∈ b → w ∈ z :: ps → kve_key y ≠ kv_key w) as Hbw.
  { intros y w Hy Hw He. specialize (Hb y Hy). apply elem_of_cons in Hw as [->|Hw].
    - rewrite He in Hb. by apply klt_irrefl in Hb.
    - specialize (Hz w Hw). unfold kvlt in Hz. rewrite <- He in Hz.
      by eapply klt_asym. }
  assert (x ∈ ps_item a z ↔ x = z ∧ ∀ y, y ∈ a → kve_key y ≠ kv_key z) as ->.
  { destruct a as [|y a]; cbn.
    - rewrite list_elem_of_singleton. set_solver.
    - case_bool_decide as He; [set_solver|]. rewrite list_elem_of_singleton.
      split; [intros ->|by intros [-> _]]. split; [done|].
      intros w Hw Hwz. apply elem_of_cons in Hw as [->|Hw]; [done|].
      apply StronglySorted_inv in Hsa as [_ Hya]. rewrite Forall_forall in Hya.
      specialize (Hya w Hw). unfold kvelt in Hya. rewrite Hwz in Hya.
      by apply (Ha y); [left|]. }
  rewrite elem_of_cons. split.
  - intros [?|[[-> Hn]|[?|[? Hn]]]]; [tauto| |tauto|].
    + right. split; [tauto|]. intros y [Hy|Hy]%elem_of_app; [|auto].
      apply Hbw; [done|by left].
    + right. split; [tauto|]. intros y [Hy|Hy]%elem_of_app; [|auto].
      apply Hbw; [done|by right].
  - intros [[?|?]|[[->|?] Hn]]; [tauto|tauto| |].
    + right. left. split; [done|]. intros y Hy. apply Hn, elem_of_app. by right.
    + right. right. right. split; [done|]. intros y Hy. apply Hn, elem_of_app. by right.
Qed.

Lemma existing_sorted bw mem :
  StronglySorted (kvelt bw) mem → StronglySorted (kvlt bw) (existing mem).
Proof.
  induction 1 as [|[k c] t Hs IH Hy]; cbn; [constructor|].
  destruct c as [v|]; cbn; [|done]. constructor; [done|].
  rewrite Forall_forall in Hy. apply Forall_forall. intros x Hx%elem_of_existing.
  apply (Hy _ Hx).
Qed.

Lemma merge_spec_sorted bw ps mem :
  StronglySorted (kvelt bw) mem → StronglySorted (kvlt bw) ps →
  StronglySorted (kvlt bw) (merge_spec bw ps mem).
Proof.
  intros Hmem Hps. revert mem Hmem. induction Hps as [|z ps Hps IH Hz]; intros mem Hmem.
  { by apply existing_sorted. }
  cbn [merge_spec]. pose proof (split_lt_spec bw (kv_key z) mem Hmem) as Hsp.
  destruct (split_lt bw (kv_key z) mem) as [b a]. destruct Hsp as (-> & Hb & Ha).
  pose proof (StronglySorted_app_1_r _ _ _ Hmem) as Hsa.
  pose proof (StronglySorted_app_1_l _ _ _ Hmem) as Hsb.
  rewrite Forall_forall in Hb, Ha. rewrite Forall_forall in Hz.
  (* everything after [before] is at least [z], and strictly more unless it is [z] *)
  assert (∀ w, w ∈ merge_spec bw ps a →
            klt bw (kv_key z) (kv_key w) ∨ (kv_key w = kv_key z ∧ ps_item a z = [])) as Hrest.
  { intros w. rewrite merge_spec_elem by done. intros [Hw|[Hw _]].
    - destruct (not_klt bw _ _ (Ha _ Hw)) as [He|?]; [|by left]. right. split; [done|].
      destruct a as [|y a]; [by apply not_elem_of_nil in Hw|]. cbn.
      rewrite bool_decide_eq_true_2; [done|].
      apply elem_of_cons in Hw as [<-|Hw]; [done|]. exfalso.
      apply StronglySorted_inv in Hsa as [_ Hya]. rewrite Forall_forall in Hya.
      specialize (Hya _ Hw). unfold kvelt in Hya. cbn in *. rewrite He in Hya.
      by apply (Ha y); [left|].
    - left. by apply Hz. }
  apply StronglySorted_app. split_and!.
  - intros x1 x2 H1%elem_of_existing H2. unfold kvlt. specialize (Hb _ H1). cbn in Hb.
    apply elem_of_app in H2 as [H2|H2].
    + assert (x2 = z) as ->; [|done]. unfold ps_item in H2.
      repeat case_match; set_solver.
    + destruct (Hrest _ H2) as [Hlt|[-> _]]; [by etrans|done].
  - by apply existing_sorted.
  - apply StronglySorted_app. split_and!.
    + intros x1 x2 H1 H2. destruct (Hrest _ H2) as [Hlt|[_ Hn]].
      * assert (x1 = z) as ->; [|done]. unfold ps_item in H1. repeat case_match; set_solver.
      * rewrite Hn in H1. by apply not_elem_of_nil in H1.
    + unfold ps_item. repeat case_match; repeat constructor.
    + by apply IH.
Qed.

(** ** One cache layer over a layer with known views *)

Definition layer_view (ms : MemoryStore) (below : Z → gmap bytes bytes) (depth : Z)
    : gmap bytes bytes :=
  apply_changes (ms_all ms)
    (if bool_decide (depth = 0) then below 0
     else if bool_decide (1 < depth) then below (depth - 1) else ∅).

Lemma get_layer_spec (ms : MemoryStore) (key : bytes) (below : res serr bytes) (v : gmap bytes bytes) :
  ms_wf ms → key ≠ [] →
  below = match v !! key with Some x => Ok x | None => Err ErrKeyNotFound end →
  get_layer ms key below
  = match apply_changes (ms_all ms) v !! key with
    | Some x => Ok x | None => Err ErrKeyNotFound end.
Proof.
  intros (_ & _ & Hm & Hs) Hk ->. unfold get_layer.
  destruct (chooseMap_nonempty ms key Hk) as [m Hc]. rewrite Hc, res_bind_ok.
  rewrite (chooseMap_ok ms key m Hm Hs Hc), lookup_apply_changes.
  by destruct (ms_all ms !! key) as [[]|].
Qed.

Definition snapshot (rng : SeekRange) (m : changes) : list KeyValueExists :=
  sort_kve (rng_Backwards rng)
    (map (λ p, mkKVE p.1 p.2) (filter (λ p, isKeyOK rng p.1 = true) (map_to_list m))).

Lemma snapshot_sorted rng m : StronglySorted (kvelt (rng_Backwards rng)) (snapshot rng m).
Proof.
  unfold snapshot, sort_kve. apply (sort_by_sorted kve_key).
  rewrite <- list_fmap_compose.
  change (NoDup (fst <$> filter (λ p, isKeyOK rng p.1 = true) (map_to_list m))).
  eapply sublist_NoDup; [apply (NoDup_fst_map_to_list m)|].
  apply fmap_sublist, sublist_filter.
Qed.

Lemma elem_of_snapshot rng m y :
  y ∈ snapshot rng m ↔ m !! kve_key y = Some (kve_val y) ∧ isKeyOK rng (kve_key y) = true.
Proof.
  unfold snapshot. rewrite elem_of_sort_kve, list_elem_of_fmap. split.
  - intros ([k c] & -> & Hp). rewrite list_elem_of_filter, elem_of_map_to_list in Hp.
    cbn in *. tauto.
  - intros [Hv Hk]. exists (kve_key y, kve_val y). split; [by destruct y|].
    by rewrite list_elem_of_filter, elem_of_map_to_list.
Qed.

(** Merging a snapshot of the cache with the pairs below is the seek over the
    map with the changes applied. *)
Lemma merge_seek_list rng m all v :
  (∀ k, isKeyOK rng k = true → m !! k = all !! k) →
  merge_spec (rng_Backwards rng) (seek_list rng v) (snapshot rng m)
  = seek_list rng (apply_changes all v).
Proof.
  intros Hm. apply seek_list_unique.
  - apply merge_spec_sorted; [apply snapshot_sorted|apply seek_list_sorted].
  - intros x. rewrite merge_spec_elem by (apply snapshot_sorted || apply seek_list_sorted).
    rewrite elem_of_snapshot, elem_of_seek_list, lookup_apply_changes. cbn.
    split.
    + intros [[Hx Hk]|[[Hx Hk] Hn]]; (split; [|done]); rewrite <- Hm by done.
      * by rewrite Hx.
      * destruct (m !! kv_key x) as [c|] eqn:E; [|done]. exfalso.
        apply (Hn (mkKVE (kv_key x) c)); [|done]. by apply elem_of_snapshot.
    + intros [Hx Hk]. rewrite <- Hm in Hx by done.
      destruct (m !! kv_key x) as [c|] eqn:E; [by subst; left|].
      right. split; [done|]. intros y [Hy _]%elem_of_snapshot He. congruence.
Qed.

Section seek_layer_correct.
Context (ms : MemoryStore) (below : SeekRange → res serr (list KeyValue)).
Context (vb : Z → gmap bytes bytes) (strict : bool) (Hwf : ms_wf ms).
Context (Hbelow : ∀ rng, rng_Prefix rng ≠ [] → strict = true ∨ exact_range rng →
           below rng = Ok (seek_list rng (vb (rng_SearchDepth rng)))).
Context (Hkeys : ∀ d, vb d !! [] = None).

Lemma layer_view_keys d : layer_view ms vb d !! [] = None.
Proof.
  unfold layer_view. rewrite lookup_apply_changes.
  pose proof (live_keys ms Hwf) as Hl. rewrite lookup_live in Hl.
  destruct (ms_all ms !! []) as [c|]; [by destruct c|].
  repeat case_bool_decide; rewrite ?Hkeys; done.
Qed.

(** Keys cut to a suffix must not collide with full keys below. *)
Definition cut_safe (rng : SeekRange) (cutPrefix : bool) : Prop :=
  cutPrefix = false ∨
  ∀ k v, ms_all ms !! k = Some (Some v) → isKeyOK rng k = true →
    layer_view (mkMem (Some ∅) (Some ∅)) vb (rng_SearchDepth rng)
      !! drop (length (rng_Prefix rng)) k = None.

Lemma seek_list_other_depth rng d v :
  seek_list (mkRange (rng_Prefix rng) (rng_Start rng) (rng_Backwards rng) d) v
  = seek_list rng v.
Proof. done. Qed.

Lemma seek_layer_spec {St} rng cutPrefix (cont : St → KeyValue → St * bool) st :
  rng_Prefix rng ≠ [] → strict = true ∨ exact_range rng → cut_safe rng cutPrefix →
  seek_layer ms below rng cutPrefix cont st
  = Ok (iter_cb cont (cut_kv rng cutPrefix <$>
          seek_list rng (layer_view ms vb (rng_SearchDepth rng))) st).
Proof.
  intros Hne Hex Hsafe. pose proof Hwf as (_ & _ & Hm & Hs).
  unfold seek_layer, prepareSeekMemSnapshot.
  destruct (chooseMap_nonempty ms _ Hne) as [m Hc]. rewrite Hc, !res_bind_ok.
  set (d := rng_SearchDepth rng) in *.
  set (v := if bool_decide (d = 0) then vb 0
            else if bool_decide (1 < d) then vb (d - 1) else ∅).
  unfold performSeek. fold (snapshot rng m). fold d.
  set (m0 := init_mstate (snapshot rng m) st).
  assert (pending m0 = snapshot rng m ∧ m_done m0 = false ∧ m_st m0 = st
          ∧ stale_ok m0 (seek_list rng v)) as (Hp & Hd & Hst & Hstale).
  { subst m0. destruct (snapshot rng m); cbn; split_and!; try done.
    intros _. cbn. apply Forall_forall. intros x [Hx _]%elem_of_seek_list He.
    rewrite <- He in Hx. subst v.
    repeat case_bool_decide; rewrite ?Hkeys, ?lookup_empty in Hx; done. }
  assert (no_clash rng cutPrefix (pending m0) (seek_list rng v)) as Hnc.
  { rewrite Hp. intros y x [Hy Hyk]%elem_of_snapshot [w Hw] [Hx _]%elem_of_seek_list He.
    destruct Hsafe as [->|Hsafe]; [done|]. unfold cut in He.
    destruct cutPrefix; [|done]. exfalso.
    specialize (Hsafe (kve_key y) w). unfold layer_view in Hsafe.
    fold d v in Hsafe. rewrite lookup_apply_changes in Hsafe. cbn in Hsafe.
    rewrite lookup_union, !lookup_empty in Hsafe. cbn in Hsafe.
    unfold lPrefix in He. rewrite He, Hx in Hsafe.
    rewrite <- (chooseMap_range ms rng m (kve_key y)) in Hsafe by done.
    rewrite Hy, Hw in Hsafe. by specialize (Hsafe eq_refl Hyk). }
  pose proof (merge_run rng cutPrefix cont (seek_list rng v) m0 Hd Hstale
    (seek_list_sorted rng v) ltac:(rewrite Hp; apply snapshot_sorted) Hnc) as Hrun.
  rewrite Hp, Hst in Hrun.
  rewrite (merge_seek_list rng m (ms_all ms) v) in Hrun
    by (intros k Hk; by apply (chooseMap_range ms rng)).
  change (apply_changes (ms_all ms) v) with (layer_view ms vb d) in Hrun.
  assert ((if bool_decide (d = 0) || bool_decide (1 < d) then
             l ← below (mkRange (rng_Prefix rng) (rng_Start rng) (rng_Backwards rng)
                          (if bool_decide (1 < d) then d - 1 else d));
             Ok (iter_cb (mergeFunc rng cutPrefix cont) l m0).1
           else Ok m0)
          = Ok (iter_cb (mergeFunc rng cutPrefix cont) (seek_list rng v) m0).1) as ->.
  { subst v. case_bool_decide as H0.
    - rewrite bool_decide_eq_false_2 by lia. cbn [orb]. rewrite Hbelow by done.
      rewrite res_bind_ok, seek_list_other_depth. cbn. by rewrite H0.
    - cbn [orb]. case_bool_decide; [|done]. rewrite Hbelow by done.
      by rewrite res_bind_ok, seek_list_other_depth. }
  rewrite res_bind_ok. f_equal. exact Hrun.
Qed.
End seek_layer_correct.

Lemma iter_collect l acc : iter_cb collect l acc = (acc ++ l, true).
Proof.
  revert acc. induction l as [|x l IH]; intros acc; cbn; [by rewrite app_nil_r|].
  rewrite IH. by rewrite <- app_assoc.
Qed.

Lemma fmap_cut_kv_false rng (l : list KeyValue) : cut_kv rng false <$> l = l.
Proof. induction l as [|[] l IH]; cbn; [done|]. by rewrite IH. Qed.

(** ** MemCachedStore meets the contract if the layer below does *)
Section memcached_ok.
Context {S : Type} `{HS : !Store S} `{HO : !StoreOk S}.

Definition mcs_wf (s : MemCachedStore S) : Prop :=
  ms_wf (mcs_ms s) ∧ (∀ t, mcs_temp s = Some t → ms_wf t) ∧ st_wf (mcs_ps s).

Definition below_view (s : MemCachedStore S) : Z → gmap bytes bytes :=
  match mcs_temp s with
  | None => λ d, st_view d (mcs_ps s)
  | Some t => layer_view t (λ d, st_view d (mcs_ps s))
  end.

Definition mcs_view (d : Z) (s : MemCachedStore S) : gmap bytes bytes :=
  layer_view (mcs_ms s) (below_view s) d.

Lemma below_keys s d : mcs_wf s → below_view s d !! [] = None.
Proof.
  intros (_ & Ht & Hps). unfold below_view.
  destruct (mcs_temp s) as [t|]; [|by apply st_view_keys].
  apply layer_view_keys; [by apply Ht|]. intros. by apply st_view_keys.
Qed.

Lemma below_seek_spec s rng :
  mcs_wf s → rng_Prefix rng ≠ [] → st_strict S = true ∨ exact_range rng →
  below_seek s rng = Ok (seek_list rng (below_view s (rng_SearchDepth rng))).
Proof.
  intros (_ & Ht & Hps) Hne Hex. unfold below_seek, below_view.
  destruct (mcs_temp s) as [t|]; [|by apply st_seek_spec].
  erewrite (seek_layer_spec t (st_seek (mcs_ps s)) (λ d, st_view d (mcs_ps s)) (st_strict S));
    [|by apply Ht|intros; by apply st_seek_spec|intros; by apply st_view_keys|done|done|by left].
  cbn. by rewrite fmap_cut_kv_false, iter_collect.
Qed.

Lemma below_get_spec s k :
  mcs_wf s → k ≠ [] →
  below_get s k = match below_view s 0 !! k with
                  | Some v => Ok v | None => Err ErrKeyNotFound end.
Proof.
  intros (Hms & Ht & Hps) Hk. unfold below_get, below_view, layer_view.
  destruct (mcs_temp s) as [t|]; [|by apply st_get_spec].
  rewrite bool_decide_eq_true_2 by done.
  apply get_layer_spec; [by apply Ht|done|]. by apply st_get_spec.
Qed.

Lemma MemCachedStore_Get_spec s k :
  mcs_wf s → k ≠ [] →
  MemCachedStore_Get s k = match mcs_view 0 s !! k with
                           | Some v => Ok v | None => Err ErrKeyNotFound end.
Proof.
  intros Hwf Hk. unfold MemCachedStore_Get, mcs_view, layer_view.
  rewrite bool_decide_eq_true_2 by done.
  apply get_layer_spec; [exact (proj1 Hwf)|done|]. by apply below_get_spec.
Qed.

(** The general form of [Seek] and [SeekAsync]. *)
Lemma seek_spec {St} s rng cutPrefix (cont : St → KeyValue → St * bool) st :
  mcs_wf s → rng_Prefix rng ≠ [] → st_strict S = true ∨ exact_range rng →
  cut_safe (mcs_ms s) (below_view s) rng cutPrefix →
  seek_layer (mcs_ms s) (below_seek s) rng cutPrefix cont st
  = Ok (iter_cb cont (cut_kv rng cutPrefix <$>
          seek_list rng (mcs_view (rng_SearchDepth rng) s)) st).
Proof.
  intros Hwf Hne Hex Hsafe. apply (seek_layer_spec _ _ _ (st_strict S)); [|..|done|done|done].
  - exact (proj1 Hwf).
  - intros. by apply below_seek_spec.
  - intros. by apply below_keys.
Qed.

Lemma MemCachedStore_Seek_spec {St} s rng (cont : St → KeyValue → St * bool) st :
  mcs_wf s → rng_Prefix rng ≠ [] → st_strict S = true ∨ exact_range rng →
  MemCachedStore_Seek s rng cont st
  = Ok (iter_cb cont (seek_list rng (mcs_view (rng_SearchDepth rng) s)) st).
Proof.
  intros Hwf Hne Hex. unfold MemCachedStore_Seek.
  rewrite seek_spec by (done || by left). by rewrite fmap_cut_kv_false.
Qed.

Lemma mcs_view_set_ms s ms m :
  ms_all ms = m ∪ ms_all (mcs_ms s) → ∀ d,
  mcs_view d (set_ms s ms) = apply_changes m (mcs_view d s).
Proof.
  intros Ha d. unfold mcs_view, layer_view. cbn.
  rewrite Ha, <- apply_changes_assoc. done.
Qed.

Lemma MemCachedStore_put_spec s puts stores :
  mcs_wf s → wf_puts puts → wf_stores stores →
  ∃ s', MemCachedStore_PutChangeSet s puts stores = (s', Ok tt) ∧ mcs_wf s'
    ∧ ∀ d, mcs_view d s' = apply_changes (gm puts ∪ gm stores) (mcs_view d s).
Proof.
  intros (Hms & Ht & Hps) Hp Hs. unfold MemCachedStore_PutChangeSet.
  destruct (putChangeSet_spec _ _ _ Hms Hp Hs) as (ms & -> & Hw & Ha).
  eexists. split; [done|]. split; [done|]. by apply mcs_view_set_ms.
Qed.

#[export] Program Instance MemCachedStore_ok : StoreOk (MemCachedStore S) := {|
  st_wf := mcs_wf;
  st_strict := st_strict S;
  st_view := mcs_view;
|}.
Next Obligation.
  intros d s Hwf. apply layer_view_keys; [exact (proj1 Hwf)|]. intros. by apply below_keys.
Qed.
Next Obligation. intros s k. apply MemCachedStore_Get_spec. Qed.
Next Obligation.
  intros s rng Hwf Hne Hex. cbn. rewrite MemCachedStore_Seek_spec by done.
  cbn. by rewrite iter_collect.
Qed.
Next Obligation.
  intros s puts stores Hwf Hp Hs. cbn.
  destruct (MemCachedStore_put_spec s puts stores Hwf Hp Hs) as (s' & -> & Hw & Hv).
  split; [done|]. apply Hv.
Qed.

(** ** Operations on the cache *)

Lemma ms_assign_spec ms k v :
  ms_wf ms → k ≠ [] →
  ∃ ms', ms_assign ms k v = Ok ms' ∧ ms_wf ms' ∧ ms_all ms' = {[k := v]} ∪ ms_all ms.
Proof.
  intros ([m Hm0] & [st Hs0] & Hm & Hs) Hk. destruct ms as [mm ss]. cbn in *. subst.
  unfold ms_assign. destruct (is_stor_key k) as [[]|] eqn:Hc.
  - eexists. split; [done|]. unfold ms_wf, ms_all, wf_puts, wf_stores in *. cbn in *.
    split_and!; eauto.
    + apply map_Forall_insert_2; [exact Hc|done].
    + apply map_eq. intros j. rewrite !lookup_union, lookup_insert, lookup_singleton.
      case_decide as Hj; [|by rewrite (left_id None _)]. subst j.
      destruct (m !! k) eqn:E; [apply Hm in E; unfold mem_key in E; congruence|].
      cbn. by destruct (st !! k).
  - eexists. split; [done|]. unfold ms_wf, ms_all, wf_puts, wf_stores in *. cbn in *.
    split_and!; eauto.
    + apply map_Forall_insert_2; [exact Hc|done].
    + by rewrite <- insert_union_l, insert_union_singleton_l.
  - destruct k; done.
Qed.

Lemma Put_Delete_spec s k v :
  mcs_wf s → k ≠ [] →
  ∃ s', set_ms s <$> ms_assign (mcs_ms s) k v = Ok s' ∧ mcs_wf s'
    ∧ ∀ d, mcs_view d s' = apply_changes {[k := v]} (mcs_view d s).
Proof.
  intros (Hms & Ht & Hps) Hk. destruct (ms_assign_spec _ k v Hms Hk) as (ms & -> & Hw & Ha).
  eexists. split; [done|]. split; [done|]. by apply mcs_view_set_ms.
Qed.
End memcached_ok.

(** ** Properties *)

(** C39: a seek over any stack of cache layers hands the callback exactly the
    pairs of the merged view that lie in the range, in key order (descending for
    a backwards seek), and stops when the callback asks to; the view of a layer
    is its own changes (tombstones included) over the view of the layer below,
    as deep as [SearchDepth] allows.  This is for a store at the bottom that stops
    at [Start] ([MemoryStore]), or seeks that are forward or have no [Start]:
    LevelDB and BoltDB return more ([Disk.backward_seek_stale]). *)
Theorem memcached_seek_refines S (HS : Store S) (HO : StoreOk S) St
    (s : MemCachedStore S) (rng : SeekRange) (cont : St → KeyValue → St * bool) (st : St) :
  mcs_wf s → rng_Prefix rng ≠ [] → st_strict S = true ∨ exact_range rng →
  Seek s rng cont st
  = Ok (iter_cb cont (seek_list rng (mcs_view (rng_SearchDepth rng) s)) st)
  ∧ StronglySorted (kvlt (rng_Backwards rng))
      (seek_list rng (mcs_view (rng_SearchDepth rng) s))
  ∧ ∀ k v, mkKV k v ∈ seek_list rng (mcs_view (rng_SearchDepth rng) s)
      ↔ isKeyOK rng k = true
        ∧ match ms_all (mcs_ms s) !! k with
          | Some c => c = Some v
          | None =>
              let d := rng_SearchDepth rng in
              (d = 0 ∨ 1 < d)
              ∧ below_view s (if bool_decide (d = 0) then 0 else d - 1) !! k = Some v
          end.
Proof.
  intros Hwf Hne Hex. split_and!.
  - unfold Seek. cbn. rewrite MemCachedStore_Seek_spec by done. cbn.
    by rewrite iter_collect.
  - apply seek_list_sorted.
  - intros k v. rewrite elem_of_seek_list. cbn. rewrite (and_comm (isKeyOK rng k = true)).
    f_equiv. unfold mcs_view, layer_view. rewrite lookup_apply_changes.
    destruct (ms_all (mcs_ms s) !! k) as [c|]; [done|].
    repeat case_bool_decide; rewrite ?lookup_empty; intuition (done || lia || congruence).
Qed.

(** [Put] and [Delete] on a cache change what [Get] returns for their key
    and for no other key, whatever is below. *)
Theorem memcached_put_delete S (HS : Store S) (HO : StoreOk S)
    (s : MemCachedStore S) (k v : bytes) :
  mcs_wf s → k ≠ [] →
  (∃ s', Put s k v = Ok s' ∧ mcs_wf s' ∧
     ∀ k', k' ≠ [] →
       MemCachedStore_Get s' k' = if bool_decide (k' = k) then Ok v else MemCachedStore_Get s k')
  ∧ (∃ s', Delete s k = Ok s' ∧ mcs_wf s' ∧
     ∀ k', k' ≠ [] →
       MemCachedStore_Get s' k'
       = if bool_decide (k' = k) then Err ErrKeyNotFound else MemCachedStore_Get s k').
Proof.
  intros Hwf Hk. split.
  - destruct (Put_Delete_spec s k (Some v) Hwf Hk) as (s' & Hs' & Hw & Hv).
    exists s'. split; [exact Hs'|]. split; [done|]. intros k' Hk'.
    rewrite !MemCachedStore_Get_spec, Hv, lookup_apply_changes, lookup_singleton by done.
    by case_decide; case_bool_decide; subst.
  - destruct (Put_Delete_spec s k None Hwf Hk) as (s' & Hs' & Hw & Hv).
    exists s'. split; [exact Hs'|]. split; [done|]. intros k' Hk'.
    rewrite !MemCachedStore_Get_spec, Hv, lookup_apply_changes, lookup_singleton by done.
    by case_decide; case_bool_decide; subst.
Qed.

(** *** A flush is invisible to readers *)

Section persist_refinement.
Context {S : Type} `{HS : !Store S} `{HO : !StoreOk S}.

(** The phases of [persist]; [plock] admits one persist at a time. *)
Inductive phase := Idle | Flushing | Flushed (r : res serr unit).

Inductive pop := OPut (k v : bytes) | ODelete (k : bytes) | OBegin | OFlush | OEnd.

Inductive pstep : phase * MemCachedStore S → pop → phase * MemCachedStore S → Prop :=
  | step_put ph s k v s' : k ≠ [] → Put s k v = Ok s' → pstep (ph, s) (OPut k v) (ph, s')
  | step_delete ph s k s' : k ≠ [] → Delete s k = Ok s' → pstep (ph, s) (ODelete k) (ph, s')
  | step_begin s s' : persist_begin s = Some s' → pstep (Idle, s) OBegin (Flushing, s')
  | step_flush s s' r : persist_flush s = (s', r) → pstep (Flushing, s) OFlush (Flushed r, s')
  | step_end s s' r r' : persist_end r s = (s', r') → pstep (Flushed r, s) OEnd (Idle, s').

(** The abstract store is one map, which a persist does not touch. *)
Definition abs_step (m : gmap bytes bytes) (o : pop) : gmap bytes bytes :=
  match o with OPut k v => <[k := v]> m | ODelete k => delete k m | _ => m end.

Inductive psteps : phase * MemCachedStore S → list pop → phase * MemCachedStore S → Prop :=
  | psteps_nil c : psteps c [] c
  | psteps_cons c o c' os c'' : pstep c o c' → psteps c' os c'' → psteps c (o :: os) c''.

Definition phase_inv (ph : phase) (s : MemCachedStore S) : Prop :=
  match ph with
  | Idle => mcs_temp s = None
  | Flushing => is_Some (mcs_temp s)
  | Flushed r => ∃ t, mcs_temp s = Some t ∧
      match r with
      | Ok _ => apply_changes (ms_all t) (st_view 0 (mcs_ps s)) = st_view 0 (mcs_ps s)
      | Err _ => True
      | Panic => False
      end
  end.

Lemma mcs_view_0 s :
  mcs_view 0 s = apply_changes (ms_all (mcs_ms s))
    (match mcs_temp s with
     | None => st_view 0 (mcs_ps s)
     | Some t => apply_changes (ms_all t) (st_view 0 (mcs_ps s))
     end).
Proof. unfold mcs_view, layer_view, below_view. by destruct (mcs_temp s). Qed.

Lemma NewMemoryStore_wf : ms_wf NewMemoryStore.
Proof. split_and!; cbn; try by eexists. all: intros k c; cbn; by rewrite lookup_empty. Qed.

Lemma apply_changes_twice m v : apply_changes m (apply_changes m v) = apply_changes m v.
Proof.
  apply map_eq. intros k. rewrite !lookup_apply_changes. by destruct (m !! k).
Qed.

Lemma persist_begin_inv s s1 :
  mcs_wf s → mcs_temp s = None → persist_begin s = Some s1 →
  mcs_wf s1 ∧ is_Some (mcs_temp s1) ∧ mcs_view 0 s1 = mcs_view 0 s.
Proof.
  intros (Hms & _ & Hps) Ht. unfold persist_begin. case_bool_decide; [done|].
  intros [= <-]. split_and!; cbn; [|by eexists|].
  - split_and!; [apply NewMemoryStore_wf| |done]. by intros t [= <-].
  - rewrite !mcs_view_0, Ht. cbn. unfold ms_all at 1. cbn.
    by rewrite (left_id_L ∅ (∪)), apply_changes_empty.
Qed.

Lemma persist_flush_inv s s2 r :
  mcs_wf s → is_Some (mcs_temp s) → persist_flush s = (s2, r) →
  mcs_wf s2 ∧ mcs_temp s2 = mcs_temp s ∧ mcs_ms s2 = mcs_ms s
  ∧ mcs_view 0 s2 = mcs_view 0 s ∧ phase_inv (Flushed r) s2
  ∧ (is_ok r = true → st_view 0 (mcs_ps s2) = below_view s 0).
Proof.
  intros (Hms & Hts & Hps) [t Ht]. unfold persist_flush. rewrite Ht.
  pose proof (Hts t Ht) as (Htm & Htst & Htp & Hto).
  pose proof (st_put_spec (mcs_ps s) (ms_mem t) (ms_stor t) Hps Htp Hto) as Hput.
  destruct (st_put (mcs_ps s) (ms_mem t) (ms_stor t)) as [ps r0].
  destruct Hput as [Hps' Hr]. intros [= <- <-].
  assert (apply_changes (ms_all t) (st_view 0 ps) = apply_changes (ms_all t) (st_view 0 (mcs_ps s)))
    as Hview.
  { destruct r0 as [u|e|]; [|apply map_eq|done].
    - fold (ms_all t) in Hr. by rewrite Hr, apply_changes_twice.
    - intros k. rewrite !lookup_apply_changes. unfold ms_all. rewrite lookup_union.
      destruct (gm (ms_mem t) !! k) eqn:E1, (gm (ms_stor t) !! k) eqn:E2; try done.
      by apply Hr. }
  split_and!; cbn; [|done..|by rewrite !mcs_view_0, Ht; cbn; rewrite Hview| |].
  - split_and!; cbn; [done| |done]. intros t' [= <-]. by apply Hts.
  - exists t. split; [done|]. destruct r0 as [u|e|]; [|done|done].
    fold (ms_all t) in Hr. by rewrite Hr, apply_changes_twice.
  - destruct r0; [|done|done]. intros _. unfold below_view, layer_view. rewrite Ht.
    by rewrite bool_decide_eq_true_2.
Qed.

Lemma persist_end_inv s s3 r r' :
  mcs_wf s → phase_inv (Flushed r) s → persist_end r s = (s3, r') →
  mcs_wf s3 ∧ mcs_temp s3 = None ∧ mcs_ps s3 = mcs_ps s ∧ r' = r
  ∧ mcs_view 0 s3 = mcs_view 0 s.
Proof.
  intros (Hms & Hts & Hps) (t & Ht & Hr). unfold persist_end. rewrite Ht.
  destruct r as [u|e|]; [|destruct (putChangeSet_spec t (ms_mem (mcs_ms s)) (ms_stor (mcs_ms s)))
    as (ms & -> & Hw & Ha); [by apply Hts|apply Hms..|]|done]; intros [= <- <-].
  - split_and!; cbn; try done. rewrite !mcs_view_0, Ht. cbn. by rewrite Hr.
  - split_and!; cbn; try done. rewrite !mcs_view_0, Ht. cbn.
    by rewrite Ha, apply_changes_assoc.
Qed.

Lemma pstep_inv ph s o ph' s' :
  mcs_wf s → phase_inv ph s → pstep (ph, s) o (ph', s') →
  mcs_wf s' ∧ phase_inv ph' s' ∧ mcs_view 0 s' = abs_step (mcs_view 0 s) o.
Proof.
  intros Hwf Hph Hs. inversion Hs; subst.
  - destruct (Put_Delete_spec s k (Some v) Hwf ltac:(done)) as (s1 & Hs1 & Hw & Hv).
    assert (s' = s1) as -> by (unfold Put in *; congruence).
    assert (∃ ms, s1 = set_ms s ms) as [ms ->].
    { destruct (ms_assign (mcs_ms s) k (Some v)); [|done|done]. injection Hs1 as <-. eauto. }
    split; [done|]. split; [by destruct ph'|].
    rewrite Hv. apply map_eq. intros j.
    rewrite lookup_apply_changes. cbn. rewrite lookup_singleton, lookup_insert.
    by case_decide.
  - destruct (Put_Delete_spec s k None Hwf ltac:(done)) as (s1 & Hs1 & Hw & Hv).
    assert (s' = s1) as -> by (unfold Delete in *; congruence).
    assert (∃ ms, s1 = set_ms s ms) as [ms ->].
    { destruct (ms_assign (mcs_ms s) k None); [|done|done]. injection Hs1 as <-. eauto. }
    split; [done|]. split; [by destruct ph'|].
    rewrite Hv. apply map_eq. intros j.
    rewrite lookup_apply_changes. cbn. rewrite lookup_singleton, lookup_delete.
    by case_decide.
  - destruct (persist_begin_inv s s') as (? & ? & ?); done.
  - destruct (persist_flush_inv s s' r) as (? & ? & ? & ? & ? & ?); done.
  - destruct (persist_end_inv s s' r r') as (? & ? & ? & ? & ?); done.
Qed.

(** C40: whatever way puts and deletes interleave with the begin, flush and end
    of any number of persists, successful or failed, the store keeps denoting
    the map obtained from the puts and deletes alone, and [Get] answers from
    it; a flush never becomes visible to readers. *)
Theorem persist_refines (s s' : MemCachedStore S) (ph' : phase) (os : list pop) :
  mcs_wf s → mcs_temp s = None → psteps (Idle, s) os (ph', s') →
  let m := fold_left abs_step os (mcs_view 0 s) in
  mcs_wf s' ∧ mcs_view 0 s' = m
  ∧ ∀ k, k ≠ [] → MemCachedStore_Get s' k
                  = match m !! k with Some v => Ok v | None => Err ErrKeyNotFound end.
Proof.
  intros Hwf Ht Hsteps m.
  enough (mcs_wf s' ∧ mcs_view 0 s' = m) as [Hw Hv].
  { split_and!; [done..|]. intros k Hk. by rewrite MemCachedStore_Get_spec, Hv. }
  subst m. assert (phase_inv Idle s) as Hph by done. clear Ht. revert Hph Hwf.
  remember (Idle, s) as c eqn:Ec. remember (ph', s') as c' eqn:Ec'.
  revert s Ec. generalize Idle as ph. revert ph' s' Ec'.
  induction Hsteps as [c|c o [ph1 s1] os c' Hst _ IH]; intros ph' s' -> ph s Ec Hph Hwf.
  - injection Ec as -> ->. done.
  - subst c. destruct (pstep_inv ph s o ph1 s1 Hwf Hph Hst) as (Hw1 & Hp1 & Hv1).
    cbn. rewrite <- Hv1. by eapply IH.
Qed.
End persist_refinement.

(** A synchronous persist that succeeds leaves the view of the store as it
    was, empties its cache and makes the layer below denote that view. *)
Theorem PersistSync_flushes S (HS : Store S) (HO : StoreOk S) (s : MemCachedStore S) :
  mcs_wf s → mcs_temp s = None → mcs_private s = false →
  let '(s', r) := PersistSync s in
  mcs_wf s' ∧ mcs_view 0 s' = mcs_view 0 s
  ∧ match r with
    | Ok n => n = batch_len (mcs_ms s) ∧ batch_len (mcs_ms s') = 0%nat
              ∧ st_view 0 (mcs_ps s') = mcs_view 0 s
    | Err _ => True
    | Panic => False
    end.
Proof.
  intros Hwf Ht Hpriv. unfold PersistSync. rewrite Hpriv.
  destruct (persist_begin s) as [s1|] eqn:Hb.
  - destruct (persist_begin_inv s s1 Hwf Ht Hb) as (Hw1 & Ht1 & Hv1).
    destruct (persist_flush s1) as [s2 r] eqn:Hf.
    destruct (persist_flush_inv s1 s2 r Hw1 Ht1 Hf) as (Hw2 & Ht2 & Hm2 & Hv2 & Hp2 & Hbel).
    destruct (persist_end r s2) as [s3 r'] eqn:He.
    destruct (persist_end_inv s2 s3 r r' Hw2 Hp2 He) as (Hw3 & Ht3 & Hps3 & -> & Hv3).
    split; [done|]. split; [congruence|].
    destruct r as [u|e|]; [|done|by destruct Hp2 as (? & _ & [])].
    unfold persist_begin in Hb. case_bool_decide; [done|]. injection Hb as <-.
    cbn in Hm2. unfold persist_end in He. rewrite Ht2 in He. cbn in He.
    injection He as <-. cbn. rewrite Hm2. split_and!; [done|done|].
    rewrite (Hbel eq_refl), <- Hv1, mcs_view_0. cbn. unfold ms_all at 1. cbn.
    by rewrite (left_id_L ∅ (∪)), apply_changes_empty.
  - unfold persist_begin in Hb. case_bool_decide as H0; [|done].
    split_and!; try done. rewrite mcs_view_0, Ht.
    unfold batch_len in H0. apply Nat.eq_add_0 in H0 as [H1 H2].
    apply map_size_empty_inv in H1, H2. unfold ms_all. rewrite H1, H2.
    by rewrite (left_id_L ∅ (∪)), apply_changes_empty.
Qed.

(** ** Further properties of the stores *)

Lemma ms_delete_spec k s :
  ms_wf s → k ≠ [] →
  ms_wf (ms_delete k s) ∧ live (ms_all (ms_delete k s)) = delete k (live (ms_all s)).
Proof.
  intros ([m Hm0] & [st Hs0] & Hm & Hs) Hk. destruct s as [mm ss]. cbn in *. subst.
  unfold ms_delete, ms_wf, wf_puts, wf_stores, ms_all, live in *. cbn in *.
  destruct (is_stor_key k) as [[]|] eqn:Hc; cbn; [| |by destruct k].
  - split.
    + split_and!; eauto. by apply map_Forall_delete.
    + rewrite <- omap_delete, delete_union. do 2 f_equal. symmetry.
      apply delete_id. destruct (m !! k) eqn:E; [|done].
      apply Hm in E. unfold mem_key in E. congruence.
  - split.
    + split_and!; eauto. by apply map_Forall_delete.
    + rewrite <- omap_delete, delete_union. do 2 f_equal. symmetry.
      apply delete_id. destruct (st !! k) eqn:E; [|done].
      apply Hs in E. unfold stor_key in E. congruence.
Qed.

(** The pairs an iteration visits: up to and including the first one [go]
    stops at. *)
Fixpoint visited (go : KeyValue → bool) (l : list KeyValue) : list KeyValue :=
  match l with
  | [] => []
  | x :: t => x :: (if go x then visited go t else [])
  end.

Lemma visited_sub go l x : x ∈ visited go l → x ∈ l.
Proof.
  induction l as [|y l IH]; cbn; [done|]. rewrite !elem_of_cons.
  destruct (go y); [|set_solver]. naive_solver.
Qed.

Lemma seek_gc_loop_spec keep go l s :
  ms_wf s → Forall (λ x, kv_key x ≠ []) l →
  ∃ s', seek_gc_loop (λ u x, (u, (keep x, go x))) l tt s = (tt, s') ∧ ms_wf s'
    ∧ ∀ k, live (ms_all s') !! k
           = if bool_decide (k ∈ kv_key <$> filter (λ x, keep x = false) (visited go l))
             then None else live (ms_all s) !! k.
Proof.
  revert s. induction l as [|x l IH]; intros s Hwf Hl; cbn.
  { exists s. split_and!; done. }
  apply Forall_cons in Hl as [Hx Hl].
  set (s1 := if keep x then s else ms_delete (kv_key x) s).
  assert (ms_wf s1 ∧ ∀ k, live (ms_all s1) !! k
            = if bool_decide (keep x = false ∧ k = kv_key x) then None
              else live (ms_all s) !! k) as [Hw1 Hv1].
  { subst s1. destruct (ms_delete_spec (kv_key x) s Hwf Hx) as [Hwd Hd].
    destruct (keep x); (split; [done|]); intros k.
    - by rewrite bool_decide_eq_false_2 by naive_solver.
    - rewrite Hd, lookup_delete. case_decide; case_bool_decide; naive_solver. }
  assert (∀ k L, k ∈ kv_key <$> filter (λ x, keep x = false) (x :: L)
            ↔ (keep x = false ∧ k = kv_key x)
              ∨ k ∈ kv_key <$> filter (λ x, keep x = false) L) as Hcons.
  { intros k L. rewrite filter_cons. case_decide; set_solver. }
  clearbody s1. destruct (go x).
  - destruct (IH s1 Hw1 Hl) as (s' & -> & Hw & Hv). exists s'. split_and!; [done..|].
    intros k. rewrite Hv, Hv1. specialize (Hcons k (visited go l)).
    repeat case_bool_decide; naive_solver.
  - exists s1. split_and!; [done..|]. intros k. rewrite Hv1. specialize (Hcons k []).
    repeat case_bool_decide; set_solver.
Qed.

(** [SeekGC] removes exactly the pairs in range that the callback visits
    and declines to keep, in seek order, and leaves every other pair alone. *)
Theorem SeekGC_spec (s : MemoryStore) (rng : SeekRange) (keep go : KeyValue → bool) :
  ms_wf s → rng_Prefix rng ≠ [] →
  ∃ s', SeekGC (λ u x, (u, (keep x, go x))) s rng tt = Ok (tt, s') ∧ ms_wf s'
    ∧ ∀ k v, live (ms_all s') !! k = Some v
        ↔ live (ms_all s) !! k = Some v
          ∧ (mkKV k v ∈ visited go (seek_list rng (live (ms_all s))) → keep (mkKV k v) = true).
Proof.
  intros Hwf Hne. unfold SeekGC. rewrite MemoryStore_seek_spec by done.
  rewrite res_bind_ok. set (l := seek_list rng (live (ms_all s))).
  assert (∀ x, x ∈ l → live (ms_all s) !! kv_key x = Some (kv_val x)) as Hl
    by (intros x [? _]%elem_of_seek_list; done).
  destruct (seek_gc_loop_spec keep go l s Hwf) as (s' & -> & Hw & Hv).
  { apply Forall_forall. intros x Hx He. apply Hl in Hx.
    by rewrite He, live_keys in Hx. }
  exists s'. split_and!; [done..|]. intros k v. rewrite Hv. case_bool_decide as Hin.
  - split; [done|]. intros [Hk Hkeep].
    apply list_elem_of_fmap in Hin as (x & -> & [Hx Hxv]%list_elem_of_filter).
    assert (mkKV (kv_key x) v = x) as Hxe.
    { rewrite Hl in Hk by (by eapply visited_sub). destruct x; cbn in *; congruence. }
    rewrite Hxe in Hkeep. rewrite Hkeep in Hx by done. done.
  - split; [|by intros [??]]. intros Hk. split; [done|]. intros Hvis.
    destruct (keep (mkKV k v)) eqn:E; [done|]. exfalso. apply Hin.
    apply list_elem_of_fmap. exists (mkKV k v). split; [done|].
    by apply list_elem_of_filter.
Qed.

(** Unless a cached key cut to its suffix is itself a key below, the
    channel of [SeekAsync] receives the pairs of the merged view in range, in
    key order, with the prefix cut off on request. *)
Theorem SeekAsync_spec S (HS : Store S) (HO : StoreOk S)
    (s : MemCachedStore S) (rng : SeekRange) (cutPrefix : bool) :
  mcs_wf s → rng_Prefix rng ≠ [] → st_strict S = true ∨ exact_range rng →
  cut_safe (mcs_ms s) (below_view s) rng cutPrefix →
  SeekAsync s rng cutPrefix
  = Ok (map (λ x, mkKV (if cutPrefix then drop (length (rng_Prefix rng)) (kv_key x)
                        else kv_key x) (kv_val x))
          (seek_list rng (mcs_view (rng_SearchDepth rng) s))).
Proof.
  intros Hwf Hne Hex Hsafe. unfold SeekAsync. rewrite seek_spec by done.
  cbn. by rewrite iter_collect.
Qed.

(** The condition is needed: a persisted pair whose key is the cut key of a
    cached one is not sent. *)
Lemma SeekAsync_cut_clash :
  SeekAsync (mkMCS (mkMem (Some ∅) (Some {[ [x70; x70; x71] := Some [x02] ]})) true None
    (mkMem (Some ∅) (Some {[ [x70; x71] := Some [x04] ]})))
    (mkRange [x70] [] false 0) true
  = Ok [mkKV [x70; x71] [x02]].
Proof. vm_compute. reflexivity. Qed.

(** Exporting a store and importing the export gives back its live pairs,
    all but those with an empty value: the copy turns these into tombstones. *)
Theorem Export_Import (s s0 : MemoryStore) :
  let s' := Import s0 (Export s).1 (Export s).2 in
  ∀ k v, live (ms_all s') !! k = Some v
         ↔ live (ms_all s) !! k = Some v ∧ v ≠ [].
Proof.
  intros s' k v. unfold s', Import, Export, ms_all. cbn.
  rewrite !lookup_live, !lookup_union, !lookup_fmap.
  destruct (gm (ms_mem s) !! k) as [[[|]|]|], (gm (ms_stor s) !! k) as [[[|]|]|]; cbn;
    unfold id; naive_solver.
Qed.

Lemma elem_of_layer s k c :
  ms_wf s →
  (k, c) ∈ map_to_list (gm (ms_mem s)) ++ map_to_list (gm (ms_stor s))
  ↔ ms_all s !! k = Some c.
Proof.
  intros (_ & _ & Hm & Hs). unfold ms_all.
  rewrite elem_of_app, !elem_of_map_to_list, lookup_union.
  destruct (gm (ms_mem s) !! k) as [c1|] eqn:E1, (gm (ms_stor s) !! k) as [c2|] eqn:E2;
    cbn; try naive_solver.
  apply Hm in E1. apply Hs in E2. unfold mem_key, stor_key in *. congruence.
Qed.

(** [BatchToOperations] of a cache's batch describes each pending change of
    a contract storage item, as [Added] or [Changed] by whether the layer
    below has the key, as [Deleted] only when it has. *)
Theorem BatchToOperations_spec S (HS : Store S) (HO : StoreOk S) (s : MemCachedStore S) :
  mcs_wf s → ∀ op,
  op ∈ BatchToOperations (GetBatch s)
  ↔ ∃ p, is_stor_prefix p = true ∧
      let below := below_view s 0 !! (p :: op_Key op) in
      match ms_all (mcs_ms s) !! (p :: op_Key op) with
      | Some (Some v) =>
          op_Value op = Some v
          ∧ op_State op = match below with Some _ => Changed | None => Added end
      | Some None => op_Value op = None ∧ op_State op = Deleted ∧ is_Some below
      | None => False
      end.
Proof.
  intros Hwf op. pose proof (elem_of_layer (mcs_ms s)) as Hl.
  unfold BatchToOperations, GetBatch. cbn [fst snd].
  rewrite elem_of_app, !list_elem_of_omap.
  assert (∀ p k, is_ok (below_get s (p :: k)) = true ↔ is_Some (below_view s 0 !! (p :: k))) as Hb.
  { intros p k. rewrite below_get_spec by done.
    destruct (below_view s 0 !! (p :: k)); cbn; naive_solver. }
  split.
  - intros [(x & Hx & Hop)|(x & Hx & Hop)].
    + apply list_elem_of_omap in Hx as ([k c] & Hin & Hx). apply Hl in Hin; [|exact (proj1 Hwf)].
      cbn in Hx. destruct c as [v|]; cbn in Hx; [|done]. simplify_eq. cbn in Hop.
      destruct k as [|p k]; [done|]. destruct (is_stor_prefix p) eqn:Hp; [|done]. simplify_eq.
      exists p. split; [done|]. cbn. rewrite Hin. split; [done|].
      specialize (Hb p k). destruct (is_ok _), (below_view s 0 !! (p :: k)); try done.
      * by destruct (proj1 Hb eq_refl).
      * by discriminate (proj2 Hb ltac:(done)).
    + apply list_elem_of_omap in Hx as ([k c] & Hin & Hx). apply Hl in Hin; [|exact (proj1 Hwf)].
      cbn in Hx. destruct c as [v|]; cbn in Hx; [done|]. simplify_eq. cbn in Hop.
      destruct k as [|p k]; [done|]. destruct (is_ok _) eqn:Hok; [|done].
      destruct (is_stor_prefix p) eqn:Hp; [|done]. cbn in Hop. simplify_eq.
      exists p. split; [done|]. cbn. rewrite Hin. by rewrite <- Hb, Hok.
  - intros (p & Hp & H). destruct op as [st k vo]. cbn in *.
    destruct (ms_all (mcs_ms s) !! (p :: k)) as [[v|]|] eqn:E; [| |done].
    + destruct H as [-> ->]. left.
      exists (mkKV (p :: k) v, is_ok (below_get s (p :: k))). cbn. rewrite Hp. split.
      * apply list_elem_of_omap. exists (p :: k, Some v). split; [|done].
        apply Hl; [exact (proj1 Hwf)|done].
      * specialize (Hb p k). destruct (is_ok _), (below_view s 0 !! (p :: k)); try done.
        -- by destruct (proj1 Hb eq_refl).
        -- by discriminate (proj2 Hb ltac:(done)).
    + destruct H as (-> & -> & Hbel). right. exists (p :: k, is_ok (below_get s (p :: k))).
      cbn. rewrite Hp. apply Hb in Hbel. split; [|by rewrite Hbel].
      apply list_elem_of_omap. exists (p :: k, None). split; [|done].
      apply Hl; [exact (proj1 Hwf)|done].
Qed.

(** ** Witnesses *)

#[export] Instance ms_wf_dec s : Decision (ms_wf s).
Proof. unfold ms_wf, wf_puts, wf_stores, mem_key, stor_key. apply _. Defined.

Definition w_ps : MemoryStore :=
  mkMem (Some {[ [x01] := Some [xaa] ]})
        (Some (<[ [x70; x01] := Some [x11] ]> {[ [x70; x03] := Some [x33] ]})).
Definition w_store : MemCachedStore MemoryStore :=
  mkMCS (mkMem (Some ∅) (Some (<[ [x70; x01] := None ]> {[ [x70; x02] := Some [x22] ]})))
    false None w_ps.
Definition w_rng : SeekRange := mkRange [x70] [] true 0.

Lemma w_ps_wf : ms_wf w_ps.
Proof. apply (bool_decide_unpack _). vm_compute. exact I. Qed.

Lemma w_store_wf : mcs_wf w_store.
Proof.
  split; [|split; [done|exact w_ps_wf]]. apply (bool_decide_unpack _). vm_compute. exact I.
Qed.

Lemma memcached_seek_refines_witness :
  mcs_wf w_store ∧
  Seek w_store w_rng collect [] = Ok ([mkKV [x70; x03] [x33]; mkKV [x70; x02] [x22]], true).
Proof.
  split; [exact w_store_wf|].
  destruct (memcached_seek_refines MemoryStore _ _ _ w_store w_rng collect [] w_store_wf
              ltac:(done) (or_introl eq_refl)) as [-> _]. vm_compute. reflexivity.
Defined.

Lemma memcached_put_delete_witness :
  mcs_wf w_store ∧ ∃ s', Delete w_store [x70; x03] = Ok s'
    ∧ MemCachedStore_Get s' [x70; x03] = Err ErrKeyNotFound.
Proof.
  split; [exact w_store_wf|].
  destruct (memcached_put_delete MemoryStore _ _ w_store [x70; x03] [] w_store_wf ltac:(done))
    as [_ (s' & Hs & _ & Hg)].
  exists s'. split; [exact Hs|]. exact (Hg [x70; x03] ltac:(done)).
Defined.

Lemma persist_refines_witness :
  mcs_wf w_store ∧ ∃ s2,
    psteps (Idle, w_store) [OBegin; OFlush] (Flushed (Ok tt), s2) ∧
    MemCachedStore_Get s2 [x70; x02] = Ok [x22].
Proof.
  split; [exact w_store_wf|].
  assert (∃ s2, psteps (Idle, w_store) [OBegin; OFlush] (Flushed (Ok tt), s2)) as [s2 Hs].
  { eexists. eapply psteps_cons; [apply step_begin; reflexivity|].
    eapply psteps_cons; [apply step_flush; reflexivity|]. constructor. }
  exists s2. split; [exact Hs|].
  destruct (persist_refines w_store s2 _ _ w_store_wf eq_refl Hs) as (_ & _ & Hg).
  rewrite Hg by done. vm_compute. reflexivity.
Defined.

Lemma PersistSync_flushes_witness :
  mcs_wf w_store ∧ (PersistSync w_store).2 = Ok 2%nat
  ∧ mcs_view 0 (PersistSync w_store).1 = mcs_view 0 w_store.
Proof.
  split; [exact w_store_wf|]. split; [vm_compute; reflexivity|].
  pose proof (PersistSync_flushes MemoryStore _ _ w_store w_store_wf eq_refl eq_refl) as H.
  destruct (PersistSync w_store) as [s' r]. exact (proj1 (proj2 H)).
Defined.

Lemma SeekGC_spec_witness :
  ms_wf w_ps ∧ ∃ s', SeekGC (λ u x, (u, (false, true))) w_ps w_rng tt = Ok (tt, s') ∧ ms_wf s'.
Proof.
  split; [exact w_ps_wf|].
  destruct (SeekGC_spec w_ps w_rng (λ _, false) (λ _, true) w_ps_wf ltac:(done))
    as (s' & Hs & Hw & _). exists s'. split; [exact Hs|exact Hw].
Defined.

Lemma SeekAsync_spec_witness :
  mcs_wf w_store ∧
  SeekAsync w_store w_rng true = Ok [mkKV [x03] [x33]; mkKV [x02] [x22]].
Proof.
  split; [exact w_store_wf|].
  rewrite (SeekAsync_spec MemoryStore _ _ w_store w_rng true w_store_wf ltac:(done) (or_introl eq_refl)).
  - vm_compute. reflexivity.
  - right. intros k v Hk _. change (ms_all (mcs_ms w_store)) with
      (∅ ∪ <[ [x70; x01] := None ]> {[ [x70; x02] := Some [x22] ]} : changes) in Hk.
    rewrite (left_id_L ∅ (∪)), lookup_insert_Some, lookup_singleton_Some in Hk.
    destruct Hk as [[_ ?]|(_ & <- & _)]; [done|]. vm_compute. reflexivity.
Defined.

Lemma BatchToOperations_spec_witness :
  mcs_wf w_store ∧ mkOp Deleted [x01] None ∈ BatchToOperations (GetBatch w_store).
Proof.
  split; [exact w_store_wf|].
  apply (BatchToOperations_spec MemoryStore _ _ w_store w_store_wf (mkOp Deleted [x01] None)).
  exists x70. split; [reflexivity|]. vm_compute. split; [reflexivity|].
  split; [reflexivity|]. eexists. reflexivity.
Defined.
