(* ===== verification/Disk.v ===== *)
(** * Disk: the stores on disk

    LevelDB (leveldb_store.go) as an implementation of [storage.Store], with the
    range of keys that a seek asks its iterator for (store.go, shared with
    BoltDB).  The database and [BytesPrefix] are goleveldb's: they are parameters
    with the laws that its documentation states.  The contract of [Storage] holds
    but for backwards seeks with a [Start], where the range is larger. *)

From stdpp Require Import gmap.
From S2P Require Import Prelude Storage.
#[local] Open Scope Z_scope.

(** ** Ranges of keys *)

(** [util.Range]: from [Start] on, to before [Limit]; an empty limit is none. *)
Record Range := mkRange_ { rg_Start : bytes; rg_Limit : bytes }.

Definition below_limit (limit k : bytes) : bool := bool_decide (limit = []) || bool_decide (blt k limit).
Definition in_Range (r : Range) (k : bytes) : bool := bool_decide (ble (rg_Start r) k) && below_limit (rg_Limit r) k.

(** [util.BytesPrefix]: the keys that have a prefix. *)
Class Prefixes := {
  BytesPrefix : bytes → Range;
  BytesPrefix_Start : ∀ p, rg_Start (BytesPrefix p) = p;
  BytesPrefix_range : ∀ p k, in_Range (BytesPrefix p) k = has_prefix k p;
}.

Definition seekRangeToPrefixes `{Prefixes} (sr : SeekRange) : Range :=
  let start := rng_Prefix sr ++ rng_Start sr in
  if negb (rng_Backwards sr) then mkRange_ start (rg_Limit (BytesPrefix (rng_Prefix sr)))
  else mkRange_ (rng_Prefix sr) (rg_Limit (BytesPrefix start)).

(** ** Order and prefixes *)

Lemma ble_app p t : ble p (p ++ t).
Proof.
  unfold ble. induction p as [|x p IH]; cbn; [by destruct t|]. by rewrite Z.compare_refl.
Qed.

Lemma ble_app_l p a b : ble (p ++ a) (p ++ b) ↔ ble a b.
Proof. unfold ble. by rewrite bcompare_app. Qed.

Lemma ble_total_lt a b : ¬ ble a b → blt b a.
Proof.
  unfold ble, blt. rewrite (bcompare_antisym a b). intros Hn. destruct (bcompare a b); cbn; [| |done];
    by destruct Hn.
Qed.

Lemma not_ble_blt a b : blt b a → ¬ ble a b.
Proof. unfold ble, blt. rewrite (bcompare_antisym b a). intros ->. cbn. auto. Qed.

Lemma ble_blt_trans a b c : ble a b → blt b c → blt a c.
Proof.
  unfold ble, blt. destruct (bcompare a b) eqn:E; try done.
  - apply bcompare_eq in E as ->. done.
  - intros _. by apply bcompare_trans_lt.
Qed.

(** What lies between a prefix and an extension of it has the prefix. *)
Lemma between_prefix p s k : ble p k → blt k (p ++ s) → has_prefix k p = true.
Proof.
  unfold ble, blt. revert k. induction p as [|x p IH]; intros [|y k]; cbn; try done.
  rewrite (Z.compare_antisym (b2z x) (b2z y)).
  destruct (Z.compare_spec (b2z x) (b2z y)) as [E| |]; cbn; try done.
  apply (inj b2z) in E as ->. rewrite bool_decide_eq_true_2 by done. apply IH.
Qed.

Section ranges.
Context `{Prefixes}.

Lemma below_prefix_limit p k : ble p k → below_limit (rg_Limit (BytesPrefix p)) k = has_prefix k p.
Proof.
  intros Hk. rewrite <- BytesPrefix_range. unfold in_Range. rewrite BytesPrefix_Start.
  by rewrite bool_decide_eq_true_2.
Qed.

Lemma below_smaller_limit p k : blt k p → below_limit (rg_Limit (BytesPrefix p)) k = true.
Proof.
  intros Hk. pose proof (below_prefix_limit p p) as Hp.
  assert (has_prefix p p = true) as Hpp by (apply has_prefix_spec; exists []; by rewrite app_nil_r).
  rewrite Hpp in Hp. specialize (Hp ltac:(unfold ble; by rewrite bcompare_refl)).
  unfold below_limit in *. apply orb_true_iff in Hp as [->|Hp]; [done|].
  apply bool_decide_eq_true in Hp. apply orb_true_iff. right. apply bool_decide_eq_true.
  unfold blt in *. by eapply bcompare_trans_lt.
Qed.

Lemma isKeyOK_app sr t :
  isKeyOK sr (rng_Prefix sr ++ t)
  = bool_decide (rng_Start sr = [])
    || if rng_Backwards sr then bool_decide (ble t (rng_Start sr)) else bool_decide (ble (rng_Start sr) t).
Proof.
  unfold isKeyOK. rewrite drop_app_length. rewrite (proj2 (has_prefix_spec _ _)) by (by exists t).
  cbn [andb]. pose proof (bcompare_antisym t (rng_Start sr)) as Ha. f_equal.
  destruct (rng_Backwards sr); case_bool_decide as Hb; unfold ble in Hb;
    destruct (bcompare t (rng_Start sr)); cbn in *; try congruence; destruct Hb; congruence.
Qed.

(** A key in range has the prefix. *)
Lemma isKeyOK_no_prefix sr k : has_prefix k (rng_Prefix sr) = false → isKeyOK sr k = false.
Proof. intros Hk. unfold isKeyOK. by rewrite Hk. Qed.

(** The range that LevelDB and BoltDB are asked for holds the keys of the seek
    range, and for a backwards seek also those that extend [Prefix + Start]. *)
Theorem seekRangeToPrefixes_spec (sr : SeekRange) (k : bytes) :
  in_Range (seekRangeToPrefixes sr) k
  = isKeyOK sr k || (rng_Backwards sr && has_prefix k (rng_Prefix sr ++ rng_Start sr)).
Proof.
  unfold in_Range, seekRangeToPrefixes. set (p := rng_Prefix sr). set (s := rng_Start sr).
  destruct (rng_Backwards sr) eqn:Hbw; cbn [negb rg_Start rg_Limit andb].
  - destruct (decide (ble p k)) as [Hpk|Hpk].
    2:{ rewrite bool_decide_eq_false_2 by done. cbn [andb]. symmetry. apply orb_false_iff. split.
        - apply isKeyOK_no_prefix. apply not_true_is_false. intros [t ->]%has_prefix_spec.
          destruct Hpk. apply ble_app.
        - apply not_true_is_false. intros [t ->]%has_prefix_spec. destruct Hpk. rewrite <- app_assoc.
          apply ble_app. }
    rewrite bool_decide_eq_true_2 by done. cbn [andb].
    destruct (decide (ble (p ++ s) k)) as [Hsk|Hsk%ble_total_lt].
    + rewrite below_prefix_limit by done. destruct (has_prefix k (p ++ s)) eqn:E; [by rewrite orb_true_r|].
      rewrite orb_false_r. symmetry. apply not_true_is_false. intros Hok.
      assert (has_prefix k p = true) as [t ->]%has_prefix_spec.
      { destruct (has_prefix k p) eqn:E2; [done|]. by rewrite isKeyOK_no_prefix in Hok. }
      unfold p in Hok. rewrite isKeyOK_app, Hbw in Hok. unfold ble in Hsk. rewrite bcompare_app in Hsk.
      fold s in Hok. apply orb_true_iff in Hok as [Hs|Hs]; apply bool_decide_eq_true in Hs.
      * rewrite Hs, app_nil_r in E. by rewrite (proj2 (has_prefix_spec _ _)) in E by (by exists t).
      * unfold ble in Hs. rewrite (bcompare_antisym s t) in Hs. destruct (bcompare s t) eqn:Ec; try done.
        apply bcompare_eq in Ec as <-.
        by rewrite (proj2 (has_prefix_spec _ _)) in E by (exists []; by rewrite app_nil_r).
    + rewrite below_smaller_limit by done. symmetry. apply orb_true_iff. left.
      pose proof (between_prefix p s k Hpk Hsk) as [t ->]%has_prefix_spec.
      unfold p. rewrite isKeyOK_app, Hbw. unfold blt in Hsk. rewrite bcompare_app in Hsk.
      apply orb_true_iff. right. apply bool_decide_eq_true. unfold ble. fold s. by rewrite Hsk.
  - rewrite orb_false_r. destruct (has_prefix k p) eqn:E.
    + rewrite below_prefix_limit, E, andb_true_r.
      2:{ apply has_prefix_spec in E as [t ->]. apply ble_app. }
      apply has_prefix_spec in E as [t ->]. unfold p. rewrite isKeyOK_app, Hbw. fold s p.
      rewrite (bool_decide_ext _ _ (ble_app_l p s t)). destruct (decide (s = [])) as [->|Hs].
      * rewrite (bool_decide_eq_true_2 ([] = [])) by done. apply bool_decide_eq_true. by destruct t.
      * by rewrite (bool_decide_eq_false_2 (s = [])).
    + rewrite isKeyOK_no_prefix by done. case_bool_decide as Hsk; [|done]. cbn [andb].
      destruct (decide (ble p k)) as [Hpk|Hpk%ble_total_lt]; [by rewrite below_prefix_limit|].
      exfalso. apply (not_ble_blt p (p ++ s)); [|apply ble_app]. by eapply ble_blt_trans.
Qed.
End ranges.

(** ** The database

    What goleveldb promises: [db_pairs] is what it holds; an iterator over a range
    runs through the pairs of the range in the order of their keys, or back from
    the last one; a transaction takes its writes in order, and all of them or none. *)

Class Engine (D : Type) := {
  db_pairs : D → gmap bytes bytes;
  db_Transaction : D → list (bytes * option bytes) → D * res serr unit;
}.

Definition tx_write (m : gmap bytes bytes) (w : bytes * option bytes) : gmap bytes bytes :=
  match w.2 with Some v => <[w.1 := v]> m | None => delete w.1 m end.

Class EngineOk (D : Type) `{!Engine D} := {
  Transaction_spec : ∀ d ws,
    let '(d', r) := db_Transaction d ws in
    match r with
    | Ok _ => db_pairs d' = foldl tx_write (db_pairs d) ws
    | Err _ => db_pairs d' = db_pairs d
    | Panic => False
    end;
}.

(** ** LevelDBStore *)

Record LevelDBStore (D : Type) := mkLevelDB { ldb : D }.
#[global] Arguments mkLevelDB {D}.
#[global] Arguments ldb {D}.

Section leveldb.
Context `{Prefixes} {D : Type} `{!Engine D}.

Definition LevelDBStore_Get (s : LevelDBStore D) (key : bytes) : res serr bytes :=
  match db_pairs (ldb s) !! key with Some value => Ok value | None => Err ErrKeyNotFound end.

(** The writes of both maps, the order within each is any; a nil value deletes. *)
Definition LevelDBStore_PutChangeSet (s : LevelDBStore D) (puts stores : gomap) : LevelDBStore D * res serr unit :=
  let '(d, r) := db_Transaction (ldb s) (map_to_list (gm puts) ++ map_to_list (gm stores)) in (mkLevelDB d, r).

Definition LevelDBStore_seek (s : LevelDBStore D) (rng : SeekRange) : res serr (list KeyValue) :=
  Ok (sort_kv (rng_Backwards rng)
        (map (λ p, mkKV p.1 p.2)
           (filter (λ p, in_Range (seekRangeToPrefixes rng) p.1 = true) (map_to_list (db_pairs (ldb s)))))).

#[export] Instance LevelDBStore_Store : Store (LevelDBStore D) := {|
  st_get := LevelDBStore_Get;
  st_put := LevelDBStore_PutChangeSet;
  st_seek := LevelDBStore_seek;
|}.

(** *** It meets the contract but for [Start] backwards *)

Context `{!EngineOk D}.

Lemma foldl_tx_write (ws : list (bytes * option bytes)) (m : gmap bytes bytes) :
  NoDup ws.*1 → foldl tx_write m ws = apply_changes (list_to_map ws) m.
Proof.
  revert m. induction ws as [|[k c] ws IH]; intros m Hnd; cbn.
  { by rewrite apply_changes_empty. }
  apply NoDup_cons in Hnd as [Hk Hnd]. rewrite IH by done. apply map_eq. intros j.
  rewrite !lookup_apply_changes. destruct (decide (j = k)) as [->|Hj].
  - rewrite lookup_insert_eq, not_elem_of_list_to_map_1 by done. unfold tx_write. cbn.
    destruct c; [by rewrite lookup_insert_eq|by rewrite lookup_delete_eq].
  - rewrite lookup_insert_ne by done. unfold tx_write. cbn.
    destruct c; [by rewrite lookup_insert_ne|by rewrite lookup_delete_ne].
Qed.

Lemma changes_list (puts stores : gomap) : wf_puts puts → wf_stores stores →
  NoDup (map_to_list (gm puts) ++ map_to_list (gm stores)).*1
  ∧ list_to_map (map_to_list (gm puts) ++ map_to_list (gm stores)) = gm puts ∪ gm stores.
Proof.
  intros Hp Hs. split.
  - rewrite fmap_app. apply NoDup_app. split; [apply NoDup_fst_map_to_list|].
    split; [|apply NoDup_fst_map_to_list]. intros k (x & -> & Hx)%list_elem_of_fmap (y & He & Hy)%list_elem_of_fmap.
    destruct x as [k c], y as [k' c']. cbn in He. subst k'.
    apply elem_of_map_to_list in Hx, Hy.
    pose proof (mem_stor_disjoint puts stores k Hp Hs ltac:(by exists c)). cbn in *. congruence.
  - by rewrite list_to_map_app, !list_to_map_to_list.
Qed.

#[export] Program Instance LevelDBStore_ok : StoreOk (LevelDBStore D) := {|
  st_wf s := db_pairs (ldb s) !! [] = None;
  st_strict := false;
  st_view _ s := db_pairs (ldb s);
|}.
Next Obligation. done. Qed.
Next Obligation. intros s k _ _. cbn. unfold LevelDBStore_Get. by destruct (db_pairs (ldb s) !! k). Qed.
Next Obligation.
  intros s rng _ _ [|Hex]; [done|]. cbn. unfold LevelDBStore_seek, seek_list. do 3 f_equal.
  apply list_filter_iff. intros [k v]. cbn. rewrite seekRangeToPrefixes_spec.
  destruct Hex as [-> | Hs]; [by rewrite orb_false_r|]. rewrite Hs, app_nil_r.
  unfold isKeyOK. rewrite Hs. rewrite bool_decide_eq_true_2 by done. cbn [orb]. rewrite andb_true_r.
  destruct (has_prefix k (rng_Prefix rng)), (rng_Backwards rng); done.
Qed.
Next Obligation.
  intros s puts stores Hwf Hp Hs. cbn. unfold LevelDBStore_PutChangeSet.
  destruct (changes_list puts stores Hp Hs) as [Hnd Hl].
  pose proof (Transaction_spec (ldb s) (map_to_list (gm puts) ++ map_to_list (gm stores))) as Ht.
  destruct (db_Transaction _ _) as [d r]. cbn.
  destruct r as [u|e|]; [|by rewrite Ht|done].
  rewrite foldl_tx_write, Hl in Ht by done. split; [|done]. rewrite Ht, lookup_apply_changes, Hwf.
  assert (gm puts !! [] = None) as H1 by (destruct (gm puts !! []) eqn:E; [by apply Hp in E|done]).
  assert (gm stores !! [] = None) as H2 by (destruct (gm stores !! []) eqn:E; [by apply Hs in E|done]).
  by rewrite lookup_union, H1, H2.
Qed.
End leveldb.

(** ** A concrete database

    The laws can hold: a database in memory, and the limit of a prefix by adding
    one to its last byte that is not 255. *)

Fixpoint next_prefix (p : bytes) : bytes :=
  match p with
  | [] => []
  | x :: p' =>
      match next_prefix p' with
      | [] => if bool_decide (b2z x = 255) then [] else [z2b (b2z x + 1)]
      | l => x :: l
      end
  end.

Lemma below_limit_cons z l k : below_limit (z :: l) k = bool_decide (blt k (z :: l)).
Proof. done. Qed.

Lemma next_prefix_spec p k : in_Range (mkRange_ p (next_prefix p)) k = has_prefix k p.
Proof.
  unfold in_Range. cbn [rg_Start rg_Limit]. revert k.
  induction p as [|x p IH]; intros k; [by destruct k|]. destruct k as [|y k]; [done|].
  specialize (IH k). cbn [next_prefix has_prefix].
  assert (∀ l, bool_decide (ble (x :: p) (y :: k)) && bool_decide (blt (y :: k) (x :: l))
               = bool_decide (x = y) && (bool_decide (ble p k) && bool_decide (blt k l))) as Hcons.
  { intros l. destruct (decide (x = y)) as [->|Hne].
    - rewrite (bool_decide_eq_true_2 (y = y)) by done. cbn [andb].
      f_equal; apply bool_decide_ext; unfold ble, blt; cbn; by rewrite Z.compare_refl.
    - rewrite (bool_decide_eq_false_2 (x = y)) by done. cbn [andb].
      apply andb_false_iff. destruct (Z.lt_total (b2z x) (b2z y)) as [Hl|[He|Hl]].
      + right. apply bool_decide_eq_false. unfold blt. cbn.
        by rewrite (proj2 (Z.compare_gt_iff _ _) Hl).
      + by apply (inj b2z) in He.
      + left. apply bool_decide_eq_false. unfold ble. cbn. rewrite (proj2 (Z.compare_gt_iff _ _) Hl). auto. }
  destruct (next_prefix p) as [|z l] eqn:El.
  2:{ rewrite <- IH, !below_limit_cons. apply Hcons. }
  rewrite <- IH. change (below_limit [] k) with true. rewrite andb_true_r.
  pose proof (b2z_range x) as Hx. pose proof (b2z_range y) as Hy.
  destruct (Z.lt_total (b2z x) (b2z y)) as [Hl|[He|Hl]].
  - rewrite (bool_decide_eq_false_2 (x = y)) by (intros ->; lia). cbn [andb].
    rewrite (bool_decide_eq_false_2 (b2z x = 255)) by lia. rewrite below_limit_cons.
    apply andb_false_iff. right. apply bool_decide_eq_false. unfold blt. cbn.
    rewrite b2z_z2b_small by lia. destruct (Z.compare_spec (b2z y) (b2z x + 1)); [by destruct k|lia|done].
  - apply (inj b2z) in He as ->. rewrite (bool_decide_eq_true_2 (y = y)) by done. cbn [andb].
    assert (bool_decide (ble (y :: p) (y :: k)) = bool_decide (ble p k)) as ->.
    { apply bool_decide_ext. unfold ble. cbn. by rewrite Z.compare_refl. }
    assert (∀ b, b = true → bool_decide (ble p k) && b = bool_decide (ble p k)) as Hb
      by (intros ? ->; apply andb_true_r).
    apply Hb. destruct (bool_decide (b2z y = 255)) eqn:E; [done|]. apply bool_decide_eq_false in E.
    rewrite below_limit_cons. apply bool_decide_eq_true. unfold blt. cbn.
    rewrite b2z_z2b_small by lia. by rewrite (proj2 (Z.compare_lt_iff _ _)) by lia.
  - rewrite (bool_decide_eq_false_2 (x = y)) by (intros ->; lia). cbn [andb].
    apply andb_false_iff. left. apply bool_decide_eq_false. unfold ble. cbn.
    rewrite (proj2 (Z.compare_gt_iff _ _) Hl). auto.
Qed.

Definition mem_Prefixes : Prefixes := {|
  BytesPrefix p := mkRange_ p (next_prefix p);
  BytesPrefix_Start p := eq_refl;
  BytesPrefix_range := next_prefix_spec;
|}.

Definition mem_Engine : Engine (gmap bytes bytes) := {|
  db_pairs m := m;
  db_Transaction m ws := (foldl tx_write m ws, Ok tt);
|}.

Lemma mem_EngineOk : @EngineOk _ mem_Engine.
Proof. by split. Qed.

(** ** Where the contract fails

    A pair whose key extends [Prefix + Start] is deleted in the cache over LevelDB: a
    backwards seek from [Start] (as [SeekNEP17TransferLog] makes) still finds it,
    though [Get] does not; and over [MemoryStore], a pair that is not deleted is
    not found. *)

#[local] Existing Instance mem_Prefixes.
#[local] Existing Instance mem_Engine.

Definition log_range : SeekRange := mkRange [x72] [x01] true 0.

Definition log_key : bytes := [x72; x01; x05].

Theorem backward_seek_stale :
  let disk := NewMemCachedStore (mkLevelDB ({[ log_key := [x07] ]} : gmap bytes bytes)) in
  let memory := NewMemCachedStore (mkMem (Some {[ log_key := Some [x07] ]}) (Some ∅)) in
  st_seek disk log_range = Ok [mkKV log_key [x07]]
  ∧ st_seek memory log_range = Ok []
  ∧ match Delete disk log_key with
    | Ok disk' => MemCachedStore_Get disk' log_key = Err ErrKeyNotFound
                  ∧ st_seek disk' log_range = Ok [mkKV log_key [x07]]
    | _ => False
    end.
Proof. vm_compute. done. Qed.
