(* ===== verification/MptNode.v ===== *)
(** * MptNode: nodes of the state trie and their encoding

    Models the node types of [pkg/core/mpt] ([node.go], [base.go],
    [branch.go], [extension.go], [leaf.go], [hash.go], [empty.go]) with their
    binary format and hashes, and the path helpers of [helpers.go].

    A node is a value: the code owns each node from one parent and mutates it
    in place, which the operations of [Mpt.v] describe by the node they give
    back. Keys are lists here, slices that may share arrays in the code
    ([MptAlias.v]). The caches of [BaseNode] are not part of the model: hash and bytes
    are computed from the node. *)

From S2P Require Import Prelude BinIO Hash.
#[local] Open Scope Z_scope.

(** ** Nodes *)

Definition BranchT : Z := 0.
Definition ExtensionT : Z := 1.
Definition LeafT : Z := 2.
Definition HashT : Z := 3.
Definition EmptyT : Z := 4.

Definition childrenCount : nat := 17.
Definition lastChild : nat := childrenCount - 1.

Definition MaxStorageKeyLen : Z := 64.
Definition MaxStorageValueLen : Z := 65535.
Definition maxPathLength : Z := (MaxStorageKeyLen + 4) * 2.
Definition MaxKeyLength : Z := maxPathLength / 2.
Definition MaxValueLength : Z := 3 + MaxStorageValueLen + 1.

(** Keys and paths are sequences of nibbles, kept one per byte. *)
Inductive Node :=
  | LeafNode (value : bytes)
  | BranchNode (Children : list Node)
  | ExtensionNode (key : bytes) (next : Node)
  | HashNode (hash : bytes) (Collapsed : bool)
  | EmptyNode.

Section node_ind.
Context (P : Node → Prop)
  (Hleaf : ∀ v, P (LeafNode v))
  (Hbranch : ∀ cs, Forall P cs → P (BranchNode cs))
  (Hext : ∀ k n, P n → P (ExtensionNode k n))
  (Hhash : ∀ h c, P (HashNode h c))
  (Hempty : P EmptyNode).

Fixpoint Node_ind' (n : Node) : P n :=
  match n with
  | LeafNode v => Hleaf v
  | BranchNode cs =>
      Hbranch cs ((fix go cs : Forall P cs :=
        match cs with [] => Forall_nil_2 P | c :: t => Forall_cons_2 P c t (Node_ind' c) (go t) end) cs)
  | ExtensionNode k n => Hext k n (Node_ind' n)
  | HashNode h c => Hhash h c
  | EmptyNode => Hempty
  end.
End node_ind.

Fixpoint Node_eqb (a b : Node) : bool :=
  match a, b with
  | LeafNode v, LeafNode w => bool_decide (v = w)
  | BranchNode cs, BranchNode ds =>
      (fix go cs ds := match cs, ds with
        | [], [] => true | c :: cs, d :: ds => Node_eqb c d && go cs ds | _, _ => false end) cs ds
  | ExtensionNode k n, ExtensionNode l m => bool_decide (k = l) && Node_eqb n m
  | HashNode h c, HashNode g d => bool_decide (h = g) && bool_decide (c = d)
  | EmptyNode, EmptyNode => true
  | _, _ => false
  end.

Lemma Node_eqb_eq a b : Node_eqb a b = true ↔ a = b.
Proof.
  revert b. induction a as [v|cs IH|k n IH|h c|] using Node_ind'; intros [w|ds|l m|g d|]; cbn;
    rewrite ?andb_true_iff, ?bool_decide_eq_true; try (split; congruence).
  - revert ds. induction IH as [|c cs Hc _ IHcs]; intros [|d ds]; cbn; try (split; congruence).
    rewrite andb_true_iff, Hc, IHcs. split; [intros [-> [= ->]]|intros [= -> ->]]; done.
  - rewrite IH. split; [intros [-> ->]|intros [= -> ->]]; done.
  - split; [intros [-> ->]|intros [= -> ->]]; done.
Qed.

#[export] Instance Node_eq_dec : EqDecision Node.
Proof.
  intros a b. destruct (Node_eqb a b) eqn:E.
  - left. by apply Node_eqb_eq.
  - right. intros Hab%Node_eqb_eq. congruence.
Defined.

Definition isEmpty (n : Node) : bool := match n with EmptyNode => true | _ => false end.

Definition NewBranchNode : Node := BranchNode (replicate childrenCount EmptyNode).

Definition NodeType (n : Node) : Z :=
  match n with
  | BranchNode _ => BranchT
  | ExtensionNode _ _ => ExtensionT
  | LeafNode _ => LeafT
  | HashNode _ _ => HashT
  | EmptyNode => EmptyT
  end.

(** [Clone] copies the node itself and shares its children. *)
Definition Node_Clone (n : Node) : Node :=
  match n with HashNode h _ => HashNode h false | n => n end.

(** ** Paths *)

(** [splitPath] *)
Definition splitPath (path : bytes) : nat * bytes :=
  match path with
  | i :: path => (Z.to_nat (b2z i), path)
  | [] => (lastChild, path)
  end.

Fixpoint lcp (a b : bytes) : bytes :=
  match a, b with
  | x :: a, y :: b => if bool_decide (x = y) then x :: lcp a b else []
  | _, _ => []
  end.

Fixpoint toNibbles (path : bytes) : bytes :=
  match path with
  | [] => []
  | b :: t => z2b (Z.shiftr (b2z b) 4) :: z2b (Z.land (b2z b) 15) :: toNibbles t
  end.

(** [strToNibbles] skips the storage prefix; it panics on an empty string. *)
Definition strToNibbles (path : bytes) : res unit bytes :=
  match path with [] => Panic | _ :: t => Ok (toNibbles t) end.

Fixpoint fromNibbles (path : bytes) : bytes :=
  match path with
  | a :: b :: t => z2b (Z.shiftl (b2z a) 4 + b2z b) :: fromNibbles t
  | _ => []
  end.

(** ** Encoding *)
Section encoding.
Context `{Digest}.

(** The hash of a child that is neither empty nor a hash node is that of its
    encoding. [Hash] panics on an empty node, for which no caller asks. *)
Section encode_child.
Context (encodeNodeWithType : Node → BinWriter → BinWriter).

Definition encodeBinaryAsChild (n : Node) (w : BinWriter) : BinWriter :=
  match n with
  | EmptyNode => WriteB EmptyT w
  | HashNode h _ => WriteBytes h (WriteB HashT w)
  | _ => WriteBytes (DoubleSha256 (w_buf (encodeNodeWithType n NewBufBinWriter))) (WriteB HashT w)
  end.
End encode_child.

Fixpoint encodeNodeWithType (n : Node) (w : BinWriter) : BinWriter :=
  let w := WriteB (NodeType n) w in
  match n with
  | LeafNode v => WriteVarBytes v w
  | BranchNode cs => fold_left (λ w c, encodeBinaryAsChild encodeNodeWithType c w) cs w
  | ExtensionNode k n => encodeBinaryAsChild encodeNodeWithType n (WriteVarBytes k w)
  | HashNode h _ => WriteBytes h w
  | EmptyNode => w
  end.

(** [getBytes] and [getHash] *)
Definition node_Bytes (n : Node) : bytes := w_buf (encodeNodeWithType n NewBufBinWriter).

Definition node_Hash (n : Node) : bytes :=
  match n with HashNode h _ => h | n => DoubleSha256 (node_Bytes n) end.

(** [Size] of the encoding without the type byte. *)
Definition node_Size (n : Node) : Z :=
  match n with
  | LeafNode v => getVarIntSize (Z.of_nat (length v)) + Z.of_nat (length v)
  | BranchNode cs =>
      foldr (λ c s, if isEmpty c then s else Z.of_nat Uint256Size + s) (Z.of_nat childrenCount) cs
  | ExtensionNode k _ =>
      getVarIntSize (Z.of_nat (length k)) + Z.of_nat (length k) + 1 + Z.of_nat Uint256Size
  | HashNode _ _ => Z.of_nat Uint256Size
  | EmptyNode => 0
  end.

(** ** Decoding

    [remaining] is [maxPathLength + 1 - depth]. A [nil] node is [None]; it goes with
    the reader's error. *)
Definition errTooManyNodes : ioerr := ErrOther "too many nodes".

Section decode.
Context (DecodeNodeWithType : BinReader → option Node * BinReader).

Fixpoint decode_children (k : nat) (r : BinReader) : option (list Node) * BinReader :=
  match k with
  | O => (Some [], r)
  | S k =>
      let '(c, r) := DecodeNodeWithType r in
      let '(t, r) := decode_children k r in
      (c ← c; t ← t; Some (c :: t), r)
  end.

Definition decode_extension (r : BinReader) : option Node * BinReader :=
  let '(sz, r) := ReadVarUint r in
  if bool_decide (maxPathLength < sz) then (None, r_fail r (ErrOther "extension node key is too big"))
  else
    let '(key, r) := ReadBytes (Z.to_nat sz) r in
    let '(next, r) := DecodeNodeWithType r in
    (ExtensionNode key <$> next, r).

Definition decode_leaf (r : BinReader) : option Node * BinReader :=
  let '(sz, r) := ReadVarUint r in
  if bool_decide (MaxValueLength < sz) then (None, r_fail r (ErrOther "leaf node value is too big"))
  else let '(value, r) := ReadBytes (Z.to_nat sz) r in (Some (LeafNode value), r).
End decode.

Fixpoint DecodeNodeWithType (remaining : nat) (r : BinReader) : option Node * BinReader :=
  match r_err r with
  | Some _ => (None, r)
  | None =>
      match remaining with
      | O => (None, r_fail r errTooManyNodes)
      | S remaining =>
          let '(typ, r) := ReadB r in
          if bool_decide (typ = BranchT) then
            let '(cs, r) := decode_children (DecodeNodeWithType remaining) childrenCount r in
            (BranchNode <$> cs, r)
          else if bool_decide (typ = ExtensionT) then decode_extension (DecodeNodeWithType remaining) r
          else if bool_decide (typ = HashT) then
            let '(h, r) := ReadBytes Uint256Size r in (Some (HashNode h false), r)
          else if bool_decide (typ = LeafT) then decode_leaf r
          else if bool_decide (typ = EmptyT) then (Some EmptyNode, r)
          else (None, r_fail r (ErrOther "invalid node type"))
      end
  end.

(** [NodeObject.DecodeBinary] *)
Definition NodeObject_DecodeBinary (r : BinReader) : option Node * BinReader :=
  DecodeNodeWithType (Z.to_nat maxPathLength + 1) r.

(** ** The encoding as a function to bytes *)

Definition child_enc (c : Node) : bytes :=
  match c with EmptyNode => [x04] | _ => x03 :: node_Hash c end.

Definition body_enc (n : Node) : bytes :=
  match n with
  | LeafNode v => PutVarUint (Z.of_nat (length v)) ++ v
  | BranchNode cs => concat (map child_enc cs)
  | ExtensionNode k n => PutVarUint (Z.of_nat (length k)) ++ k ++ child_enc n
  | HashNode h _ => h
  | EmptyNode => []
  end.

Lemma encodeBinaryAsChild_app n b :
  encodeBinaryAsChild encodeNodeWithType n (mkWriter b None) = mkWriter (b ++ child_enc n) None.
Proof. destruct n; cbn [encodeBinaryAsChild child_enc]; cbn; by rewrite <- ?app_assoc. Qed.

Lemma encode_children_app cs b :
  fold_left (λ w c, encodeBinaryAsChild encodeNodeWithType c w) cs (mkWriter b None)
  = mkWriter (b ++ concat (map child_enc cs)) None.
Proof.
  revert b. induction cs as [|c cs IH]; intros b; cbn [fold_left map concat].
  { by rewrite app_nil_r. }
  by rewrite encodeBinaryAsChild_app, IH, <- app_assoc.
Qed.

Lemma encodeNodeWithType_app n b :
  encodeNodeWithType n (mkWriter b None) = mkWriter (b ++ z2b (NodeType n) :: body_enc n) None.
Proof.
  destruct n as [v|cs|k n|h c|]; cbn [encodeNodeWithType NodeType body_enc];
    unfold WriteB; cbn [WriteBytes w_err w_buf].
  - rewrite WriteVarBytes_ok by done. cbn [w_buf]. by rewrite <- app_assoc.
  - rewrite encode_children_app. by rewrite <- app_assoc.
  - rewrite WriteVarBytes_ok by done. rewrite encodeBinaryAsChild_app.
    cbn [w_buf]. by rewrite <- !app_assoc.
  - by rewrite <- app_assoc.
  - done.
Qed.

Lemma node_Bytes_eq n : node_Bytes n = z2b (NodeType n) :: body_enc n.
Proof. unfold node_Bytes, NewBufBinWriter. by rewrite encodeNodeWithType_app. Qed.

(** ** Decoding what was encoded

    The encoding of a node holds its children as hashes: decoding gives the
    node back with its children collapsed. *)
Definition collapse_child (c : Node) : Node :=
  if isEmpty c then EmptyNode else HashNode (node_Hash c) false.

Definition shallow (n : Node) : Node :=
  match n with
  | BranchNode cs => BranchNode (map collapse_child cs)
  | ExtensionNode k n => ExtensionNode k (collapse_child n)
  | HashNode h _ => HashNode h false
  | n => n
  end.

Definition hash_ok (n : Node) : Prop :=
  match n with HashNode h _ => length h = Uint256Size | _ => True end.

(** The sizes the decoder accepts. *)
Definition node_ok (n : Node) : Prop :=
  match n with
  | LeafNode v => Z.of_nat (length v) <= MaxValueLength
  | BranchNode cs => length cs = childrenCount ∧ Forall hash_ok cs
  | ExtensionNode k n => Z.of_nat (length k) <= maxPathLength ∧ hash_ok n
  | HashNode h _ => length h = Uint256Size
  | EmptyNode => True
  end.

Lemma length_node_Hash c : hash_ok c → length (node_Hash c) = Uint256Size.
Proof. destruct c; cbn; intros; [apply length_DoubleSha256..|done|apply length_DoubleSha256]. Qed.

Lemma decode_child c d rest :
  hash_ok c →
  DecodeNodeWithType (S d) (mkReader (child_enc c ++ rest) None)
  = (Some (collapse_child c), mkReader rest None).
Proof.
  intros Hc. destruct (isEmpty c) eqn:He.
  { destruct c; try done. }
  unfold collapse_child. rewrite He.
  assert (child_enc c = x03 :: node_Hash c) as -> by (by destruct c).
  cbn [DecodeNodeWithType r_err app]. rewrite ReadB_app.
  repeat first [rewrite bool_decide_eq_false_2 by done | rewrite bool_decide_eq_true_2 by done].
  rewrite ReadBytes_app by (by apply length_node_Hash). done.
Qed.

Lemma decode_children_app cs d rest :
  Forall hash_ok cs →
  decode_children (DecodeNodeWithType (S d)) (length cs)
    (mkReader (concat (map child_enc cs) ++ rest) None)
  = (Some (map collapse_child cs), mkReader rest None).
Proof.
  induction 1 as [|c cs Hc _ IH]; cbn [map concat length decode_children]; [done|].
  rewrite <- app_assoc, decode_child by done. by rewrite IH.
Qed.

Lemma decode_node n d rest :
  node_ok n →
  DecodeNodeWithType (S (S d)) (mkReader (node_Bytes n ++ rest) None)
  = (Some (shallow n), mkReader rest None).
Proof.
  intros Hn. rewrite node_Bytes_eq.
  remember (S d) as d' eqn:Hd. cbn [DecodeNodeWithType r_err app]. rewrite ReadB_app.
  destruct n as [v|cs|k n|h c|]; cbn [NodeType body_enc shallow node_ok] in *;
    rewrite b2z_z2b_small by (unfold LeafT, BranchT, ExtensionT, HashT, EmptyT; lia);
    repeat first [rewrite bool_decide_eq_false_2 by done | rewrite bool_decide_eq_true_2 by done].
  - unfold MaxValueLength, MaxStorageValueLen in Hn.
    unfold decode_leaf. rewrite <- app_assoc, ReadVarUint_app by lia.
    rewrite bool_decide_eq_false_2 by (unfold MaxValueLength, MaxStorageValueLen; lia).
    rewrite Nat2Z.id. by rewrite ReadBytes_app.
  - destruct Hn as [<- Hn]. subst d'. by rewrite decode_children_app.
  - destruct Hn as [Hk Hn]. unfold maxPathLength, MaxStorageKeyLen in Hk.
    unfold decode_extension. rewrite <- !app_assoc, ReadVarUint_app by lia.
    rewrite bool_decide_eq_false_2 by (unfold maxPathLength, MaxStorageKeyLen; lia).
    rewrite Nat2Z.id. rewrite ReadBytes_app by done. subst d'. by rewrite decode_child.
  - by rewrite ReadBytes_app.
  - done.
Qed.

Lemma node_Hash_collapse c : isEmpty c = false → node_Hash (collapse_child c) = node_Hash c.
Proof. intros H1. unfold collapse_child. by rewrite H1. Qed.

Lemma child_enc_collapse c : child_enc (collapse_child c) = child_enc c.
Proof. by destruct c. Qed.

Lemma node_Bytes_shallow n : node_Bytes (shallow n) = node_Bytes n.
Proof.
  rewrite !node_Bytes_eq. destruct n as [v|cs|k n|h c|]; cbn [shallow NodeType body_enc]; try done.
  - do 2 f_equal. rewrite map_map. apply map_ext, child_enc_collapse.
  - by rewrite child_enc_collapse.
Qed.

Lemma node_Hash_shallow n : node_Hash (shallow n) = node_Hash n.
Proof.
  pose proof (node_Bytes_shallow n) as Hb.
  destruct n; unfold node_Hash; cbn [shallow] in *; by rewrite ?Hb.
Qed.

Lemma length_body_enc_branch cs :
  Forall hash_ok cs →
  Z.of_nat (length (concat (map child_enc cs)))
  = foldr (λ c s, if isEmpty c then s else Z.of_nat Uint256Size + s) (Z.of_nat (length cs)) cs.
Proof.
  change (Z.of_nat Uint256Size) with 32.
  induction 1 as [|c cs Hc _ IH]; [done|]. cbn [map concat foldr length].
  rewrite length_app, Nat2Z.inj_add, IH.
  assert (foldr (λ c s, if isEmpty c then s else 32 + s) (Z.of_nat (S (length cs))) cs
    = 1 + foldr (λ c s, if isEmpty c then s else 32 + s) (Z.of_nat (length cs)) cs) as ->.
  { clear. induction cs as [|c cs IH]; [done|]. cbn [foldr length].
    assert (∀ n, foldr (λ c s, if isEmpty c then s else 32 + s) (1 + n) cs
      = 1 + foldr (λ c s, if isEmpty c then s else 32 + s) n cs) as Hn.
    { intros n. clear. induction cs as [|c cs IH]; [done|]. cbn [foldr]. rewrite IH. destruct (isEmpty c); lia. }
    rewrite Nat2Z.inj_succ, <- Z.add_1_l, Hn. destruct (isEmpty c); lia. }
  pose proof (length_node_Hash c Hc) as Hl. unfold Uint256Size in Hl.
  destruct c; cbn [isEmpty child_enc length]; try rewrite Hl; lia.
Qed.
(** [Size] allots what the encoding takes, but for a leaf of 65535 bytes, and
    relies on the child of an extension not being empty. *)
Definition size_ok (n : Node) : Prop :=
  match n with
  | LeafNode v => Z.of_nat (length v) ≠ 65535
  | ExtensionNode _ n => isEmpty n = false
  | _ => True
  end.

Lemma length_PutVarUint_size v :
  0 <= v < 4294967295 → v ≠ 65535 → Z.of_nat (length (PutVarUint v)) = getVarIntSize v.
Proof. intros. rewrite length_PutVarUint. unfold getVarIntSize. repeat case_bool_decide; lia. Qed.

Lemma node_Size_spec n :
  node_ok n → size_ok n → Z.of_nat (length (node_Bytes n)) = 1 + node_Size n.
Proof.
  intros Hn Hs. rewrite node_Bytes_eq. cbn [length].
  destruct n as [v|cs|k n|h c|]; cbn [node_ok size_ok body_enc node_Size] in *.
  - unfold MaxValueLength, MaxStorageValueLen in Hn.
    rewrite length_app. rewrite <- length_PutVarUint_size by lia. lia.
  - destruct Hn as [Hc Hn]. rewrite <- Hc, <- length_body_enc_branch by done. lia.
  - destruct Hn as [Hk Hn]. unfold maxPathLength, MaxStorageKeyLen in Hk.
    rewrite !length_app. rewrite <- length_PutVarUint_size by lia.
    pose proof (length_node_Hash n Hn).
    assert (child_enc n = x03 :: node_Hash n) as -> by (by destruct n).
    cbn [length]. lia.
  - rewrite Hn. lia.
  - done.
Qed.
End encoding.

(** ** Properties *)

(** Decoding the bytes of a node whose sizes are within the limits gives
    the node back, with every child replaced by its hash, consumes exactly the
    encoding, and the node read has the same bytes and hash as the one
    written. The bytes are as many as [Size] allots, except for a leaf of
    65535 bytes and for an extension without a child. *)
Theorem node_roundtrip `{Digest} (n : Node) (rest : bytes) :
  node_ok n →
  NodeObject_DecodeBinary (NewBinReaderFromBuf (node_Bytes n ++ rest))
    = (Some (shallow n), mkReader rest None)
  ∧ node_Bytes (shallow n) = node_Bytes n
  ∧ node_Hash (shallow n) = node_Hash n
  ∧ (size_ok n → Z.of_nat (length (node_Bytes n)) = 1 + node_Size n).
Proof.
  intros Hn. split; [exact (decode_node n _ rest Hn)|].
  split; [apply node_Bytes_shallow|]. split; [apply node_Hash_shallow|].
  by apply node_Size_spec.
Qed.

Definition w_ext : Node :=
  ExtensionNode [x01; x0f] (BranchNode (<[3%nat := LeafNode [xaa]]> (replicate 17 EmptyNode))).

Lemma node_roundtrip_witness :
  node_ok w_ext ∧ NodeObject_DecodeBinary (NewBinReaderFromBuf (node_Bytes w_ext ++ [x07]))
    = (Some (shallow w_ext), mkReader [x07] None).
Proof.
  assert (node_ok w_ext) as Hn by (split; [cbn; unfold maxPathLength, MaxStorageKeyLen; lia|done]).
  split; [done|]. destruct (node_roundtrip w_ext [x07] Hn) as [Hr _]. exact Hr.
Defined.
