(* ===== verification/MptTree.v ===== *)
(** * MptTree: the trie as a mathematical tree

    The specification side of the state trie: trees without hash nodes, the
    paths they hold ([t_lookup]), the canonical shape every trie keeps ([wf])
    and the fact that it determines the tree from its contents ([wf_unique]),
    and the nodes of a tree with their number of occurrences ([occ]). *)

From S2P Require Import Prelude BinIO Hash MptNode.
#[local] Open Scope Z_scope.

Definition nibble (b : byte) : Prop := b2z b < 16.
Abbreviation nibbles := (Forall nibble).

Lemma nibble_lt i : nibble i → (Z.to_nat (b2z i) < lastChild)%nat.
Proof. unfold nibble, lastChild, childrenCount. pose proof (b2z_range i). lia. Qed.

Lemma nibble_inj i j :
  Z.to_nat (b2z i) = Z.to_nat (b2z j) → i = j.
Proof.
  intros Hij. apply (inj b2z). pose proof (b2z_range i). pose proof (b2z_range j). lia.
Qed.

Lemma nibble_of_nat (i : nat) : (i < lastChild)%nat →
  nibble (z2b (Z.of_nat i)) ∧ Z.to_nat (b2z (z2b (Z.of_nat i))) = i.
Proof.
  unfold nibble, lastChild, childrenCount. intros. rewrite b2z_z2b_small by lia. lia.
Qed.

Definition is_hash (n : Node) : Prop := match n with HashNode _ _ => True | _ => False end.
#[export] Instance is_hash_dec n : Decision (is_hash n).
Proof. destruct n; cbn; apply _. Defined.

(** ** Contents *)

Fixpoint t_lookup (t : Node) (p : bytes) : option bytes :=
  match t with
  | LeafNode v => if bool_decide (p = []) then Some v else None
  | BranchNode cs =>
      let '(i, p) := splitPath p in
      match map t_lookup cs !! i with Some f => f p | None => None end
  | ExtensionNode k n => if has_prefix p k then t_lookup n (drop (length k) p) else None
  | HashNode _ _ | EmptyNode => None
  end.

Lemma t_lookup_branch cs p :
  t_lookup (BranchNode cs) p
  = let '(i, q) := splitPath p in c ← cs !! i; t_lookup c q.
Proof.
  cbn [t_lookup]. destruct (splitPath p) as [i q]. rewrite list_lookup_fmap.
  by destruct (cs !! i).
Qed.

Lemma has_prefix_app p q : has_prefix (p ++ q) p = true.
Proof. apply has_prefix_spec. by exists q. Qed.

Lemma t_lookup_ext_app k n q : t_lookup (ExtensionNode k n) (k ++ q) = t_lookup n q.
Proof. cbn [t_lookup]. by rewrite has_prefix_app, drop_app_length. Qed.

Lemma t_lookup_ext_inv k n p v :
  t_lookup (ExtensionNode k n) p = Some v → ∃ q, p = k ++ q ∧ t_lookup n q = Some v.
Proof.
  cbn [t_lookup]. destruct (has_prefix p k) eqn:E; [|done].
  apply has_prefix_spec in E as [q ->]. rewrite drop_app_length. eauto.
Qed.

Lemma splitPath_cons i p : splitPath (i :: p) = (Z.to_nat (b2z i), p).
Proof. done. Qed.

(** ** Canonical trees

    [wf d t]: every path of [t] has at most [d] nibbles, a branch has at least
    two children and its last child is a leaf, an extension is not empty and
    leads to a branch or a leaf. *)

Definition is_core (t : Node) : Prop :=
  match t with LeafNode _ | BranchNode _ => True | _ => False end.

Definition nchildren (cs : list Node) : nat := length (filter (λ c, isEmpty c = false) cs).

Definition child_depth (i d : nat) : nat := if bool_decide (i = lastChild) then 0%nat else d.

Lemma child_depth_last d : child_depth lastChild d = 0%nat.
Proof. done. Qed.
Lemma child_depth_lt i d : i ≠ lastChild → child_depth i d = d.
Proof. intros Hi. unfold child_depth. by rewrite bool_decide_eq_false_2. Qed.

Inductive wf : nat → Node → Prop :=
  | wf_empty d : wf d EmptyNode
  | wf_leaf d v : Z.of_nat (length v) <= MaxValueLength → wf d (LeafNode v)
  | wf_ext d e k n :
      k ≠ [] → nibbles k → (length k + d <= e)%nat → is_core n → wf d n →
      wf e (ExtensionNode k n)
  | wf_branch d e cs :
      length cs = childrenCount → (2 <= nchildren cs)%nat → (d < e)%nat →
      (∀ i c, cs !! i = Some c → wf (child_depth i d) c) →
      wf e (BranchNode cs).

Lemma wf_mono d e t : wf d t → (d <= e)%nat → wf e t.
Proof.
  intros Hw Hde. destruct Hw as [d|d v Hv|d d' k n Hk Hkn Hle Hc Hn|d d' cs Hl Hc Hle Hcs].
  - constructor.
  - by constructor.
  - apply (wf_ext d); [done..|lia|done|done].
  - apply (wf_branch d); [done..|lia|done].
Qed.

Lemma wf_ext_inv e k n :
  wf e (ExtensionNode k n) →
  k ≠ [] ∧ nibbles k ∧ (length k <= e)%nat ∧ is_core n ∧ wf (e - length k) n.
Proof.
  inversion 1 as [| |d ? ? ? Hk Hkn Hle Hc Hn|]; subst. split_and!; try done; [lia|].
  eapply wf_mono; [done|lia].
Qed.

Lemma wf_0 t : wf 0 t → t = EmptyNode ∨ ∃ v, t = LeafNode v.
Proof.
  inversion 1 as [| |? ? k ? Hk| ]; subst; eauto.
  - destruct k; cbn in *; [done|lia].
  - lia.
Qed.

Lemma wf_depth d t p v : wf d t → t_lookup t p = Some v → (length p <= d)%nat.
Proof.
  intros Hw. revert p. induction Hw as [d|d w Hv|d e k n Hk Hkn Hde Hc Hn IH|d e cs Hl Hc Hde Hcs IH]; intros p.
  - done.
  - cbn. case_bool_decide; [subst; cbn; lia|done].
  - intros (q & -> & Hq)%t_lookup_ext_inv. apply IH in Hq. rewrite length_app. lia.
  - rewrite t_lookup_branch. destruct p as [|i p]; cbn [splitPath length]; [lia|].
    intros (c & Hci & Hcp)%bind_Some. specialize (IH _ _ Hci _ Hcp).
    unfold child_depth in IH. case_bool_decide; lia.
Qed.

Lemma nchildren_pos cs :
  (0 < nchildren cs)%nat → ∃ i c, cs !! i = Some c ∧ isEmpty c = false.
Proof.
  unfold nchildren. destruct (filter _ cs) as [|c l] eqn:E; cbn; [lia|]. intros _.
  assert (c ∈ filter (λ c, isEmpty c = false) cs) as Hc by (rewrite E; left).
  apply list_elem_of_filter in Hc as [He [i Hi]%list_elem_of_lookup_1]. eauto.
Qed.

Lemma nchildren_insert cs i c c' :
  cs !! i = Some c →
  (nchildren (<[i := c']> cs) + (if isEmpty c then 0 else 1)
   = nchildren cs + (if isEmpty c' then 0 else 1))%nat.
Proof.
  intros Hi. apply list_elem_of_split_length in Hi as (l1 & l2 & -> & ->).
  rewrite insert_app_r_alt, Nat.sub_diag by done. cbn [insert list_insert].
  unfold nchildren. rewrite !filter_app, !length_app, !filter_cons.
  repeat case_decide; cbn [length]; destruct (isEmpty c), (isEmpty c'); try congruence; lia.
Qed.

Lemma nchildren_cons c cs :
  nchildren (c :: cs) = if isEmpty c then nchildren cs else S (nchildren cs).
Proof. unfold nchildren. rewrite filter_cons. case_decide; destruct (isEmpty c); done. Qed.

(** Two children of a branch: one other than the child at [i]. *)
Lemma nchildren_other cs i :
  (2 <= nchildren cs)%nat → ∃ j c, j ≠ i ∧ cs !! j = Some c ∧ isEmpty c = false.
Proof.
  intros H2. destruct (cs !! i) as [c|] eqn:Hi.
  - pose proof (nchildren_insert cs i c EmptyNode Hi) as Hn. cbn in Hn.
    destruct (nchildren_pos (<[i := EmptyNode]> cs)) as (j & c' & Hj & Hc').
    { destruct (isEmpty c); lia. }
    destruct (decide (j = i)) as [->|Hne].
    { rewrite list_lookup_insert_eq in Hj by (by eapply lookup_lt_Some). by simplify_eq. }
    rewrite list_lookup_insert_ne in Hj by done. eauto.
  - destruct (nchildren_pos cs) as (j & c & Hj & Hc); [lia|].
    exists j, c. split; [|done]. intros ->. congruence.
Qed.

(** A path of the child at [i] gives one of the branch. *)
Definition head_path (i : nat) (p : bytes) : bytes :=
  if bool_decide (i = lastChild) then p else z2b (Z.of_nat i) :: p.

Lemma lookup_head_path d e cs i c p v :
  wf e (BranchNode cs) → cs !! i = Some c → wf (child_depth i d) c →
  t_lookup c p = Some v → t_lookup (BranchNode cs) (head_path i p) = Some v.
Proof.
  intros Hw Hi Hc Hp. rewrite t_lookup_branch. unfold head_path.
  pose proof (wf_depth _ _ _ _ Hc Hp) as Hd. unfold child_depth in Hd. case_bool_decide as Hl.
  - destruct p; [|cbn in Hd; lia]. cbn [splitPath]. subst i. by rewrite Hi.
  - cbn [splitPath]. inversion Hw; subst.
    assert (i < lastChild)%nat as Hlt.
    { apply lookup_lt_Some in Hi. unfold lastChild in *. unfold childrenCount in *. lia. }
    destruct (nibble_of_nat i Hlt) as [_ ->]. by rewrite Hi.
Qed.

Lemma nibbles_head_path i p : (i <= lastChild)%nat → nibbles p → nibbles (head_path i p).
Proof.
  intros Hi Hp. unfold head_path. case_bool_decide; [done|].
  constructor; [|done]. apply nibble_of_nat. lia.
Qed.

Lemma head_path_ne i j p q :
  i ≠ j → (i <= lastChild)%nat → (j <= lastChild)%nat →
  (i = lastChild → p = []) → (j = lastChild → q = []) →
  head (head_path i p) ≠ head (head_path j q).
Proof.
  unfold head_path. intros Hij Hi Hj Hp Hq. repeat case_bool_decide; subst; cbn;
    try (by rewrite ?Hp, ?Hq); try congruence.
  intros [= Hz]. apply (f_equal b2z) in Hz. unfold lastChild, childrenCount in *.
  rewrite !b2z_z2b_small in Hz by lia. lia.
Qed.

(** Every tree but the empty one holds a path. *)
Lemma wf_inhabited d t :
  wf d t → isEmpty t = false → ∃ p v, nibbles p ∧ t_lookup t p = Some v.
Proof.
  induction 1 as [d|d w Hv|d e k n Hk Hkn Hde Hc Hn IH|d e cs Hl Hc Hde Hcs IH]; intros He.
  - done.
  - exists [], w. by split.
  - destruct IH as (p & v & Hp & Hv); [by destruct n|].
    exists (k ++ p), v. rewrite t_lookup_ext_app. split; [by apply Forall_app|done].
  - destruct (nchildren_pos cs) as (i & c & Hi & Hce); [lia|].
    destruct (IH _ _ Hi Hce) as (p & v & Hp & Hv).
    exists (head_path i p), v. split.
    + apply nibbles_head_path; [|done]. apply lookup_lt_Some in Hi.
      unfold lastChild. lia.
    + eapply lookup_head_path; eauto. eapply wf_branch; eauto.
Qed.

(** The paths of a branch do not share their first nibble. *)
Lemma branch_two_heads e cs (x : option byte) :
  wf e (BranchNode cs) → ∃ p v, nibbles p ∧ t_lookup (BranchNode cs) p = Some v ∧ head p ≠ x.
Proof.
  intros Hw. inversion Hw as [| | |d ? ? Hl Hc Hde Hcs]; subst.
  assert (∀ i c, cs !! i = Some c → isEmpty c = false →
    ∃ p v, nibbles (head_path i p) ∧ t_lookup (BranchNode cs) (head_path i p) = Some v
      ∧ (i <= lastChild)%nat ∧ (i = lastChild → p = [])) as Hpath.
  { intros i c Hi He. destruct (wf_inhabited _ _ (Hcs _ _ Hi) He) as (p & v & Hp & Hv).
    assert (i <= lastChild)%nat by (apply lookup_lt_Some in Hi; unfold lastChild; lia).
    exists p, v. split; [by apply nibbles_head_path|]. split; [eapply (lookup_head_path d); eauto|].
    split; [done|]. intros ->. pose proof (wf_depth _ _ _ _ (Hcs _ _ Hi) Hv) as Hd.
    rewrite child_depth_last in Hd. destruct p; cbn in Hd; [done|lia]. }
  destruct (nchildren_pos cs) as (i & c & Hi & He); [lia|].
  destruct (nchildren_other cs i Hc) as (j & c' & Hij & Hj & He').
  destruct (Hpath _ _ Hi He) as (p & v & Hp & Hv & Hli & Hlp).
  destruct (Hpath _ _ Hj He') as (q & w & Hq & Hw' & Hlj & Hlq).
  pose proof (head_path_ne j i q p Hij Hlj Hli Hlq Hlp) as Hne.
  destruct (decide (head (head_path i p) = x)) as [<-|]; eauto.
Qed.

(** ** Canonical trees are determined by their contents *)

Definition same_contents (t u : Node) : Prop :=
  ∀ p, nibbles p → t_lookup t p = t_lookup u p.

Lemma same_contents_sym t u : same_contents t u → same_contents u t.
Proof. intros Hs p Hp. symmetry. by apply Hs. Qed.

Lemma same_empty d t : wf d t → same_contents EmptyNode t → t = EmptyNode.
Proof.
  intros Hw Hs. destruct (isEmpty t) eqn:E; [by destruct t|].
  destruct (wf_inhabited _ _ Hw E) as (p & v & Hp & Hv).
  specialize (Hs p Hp). rewrite Hv in Hs. done.
Qed.

Lemma branch_not_headed e cs t x :
  wf e (BranchNode cs) → same_contents (BranchNode cs) t →
  (∀ p v, t_lookup t p = Some v → head p = x) → False.
Proof.
  intros Hw Hs Hx. destruct (branch_two_heads _ _ x Hw) as (p & v & Hp & Hv & Hne).
  apply Hne. rewrite Hs in Hv by done. eauto.
Qed.

Lemma leaf_headed v p w : t_lookup (LeafNode v) p = Some w → head p = None.
Proof. cbn. case_bool_decide; by subst. Qed.

Lemma ext_headed k n p w :
  k ≠ [] → t_lookup (ExtensionNode k n) p = Some w → head p = head k.
Proof. intros Hk (q & -> & _)%t_lookup_ext_inv. by destruct k. Qed.

(** An extension path cannot go on inside a branch or a leaf. *)
Lemma core_not_headed d n x t :
  wf d n → is_core n → same_contents n t →
  (∀ p v, t_lookup t p = Some v → head p = Some x) → False.
Proof.
  intros Hw Hc Hs Hx. destruct n as [v|cs|k n|h c|]; try done.
  - specialize (Hs [] ltac:(done)). cbn in Hs. symmetry in Hs. by apply Hx in Hs.
  - by eapply branch_not_headed.
Qed.

Lemma ext_tail k l n m :
  same_contents (ExtensionNode k n) (ExtensionNode (k ++ l) m) → nibbles k →
  ∀ q, nibbles q → t_lookup n q = if has_prefix q l then t_lookup m (drop (length l) q) else None.
Proof.
  intros Hs Hk q Hq. specialize (Hs (k ++ q) ltac:(by apply Forall_app)).
  rewrite t_lookup_ext_app in Hs. rewrite Hs. cbn [t_lookup].
  destruct (has_prefix q l) eqn:E.
  - apply has_prefix_spec in E as [r ->]. rewrite app_assoc, has_prefix_app.
    by rewrite drop_app_length, drop_app_length.
  - destruct (has_prefix (k ++ q) (k ++ l)) eqn:E'; [|done].
    apply has_prefix_spec in E' as [r E']. rewrite <- app_assoc in E'.
    apply app_inv_head in E'. subst q. by rewrite has_prefix_app in E.
Qed.

(** Two paths: the same, one going on with [x], or parting. *)
Lemma path_cases (k l : bytes) :
  k = l ∨ (∃ x r, l = k ++ x :: r) ∨ (∃ x r, k = l ++ x :: r)
  ∨ (∀ p q, k ++ p ≠ l ++ q).
Proof.
  revert l. induction k as [|a k IH]; intros [|b l]; [by left| | |].
  - right. left. by exists b, l.
  - right. right. left. by exists a, k.
  - destruct (decide (a = b)) as [->|Hab].
    + destruct (IH l) as [->|[(x & r & ->)|[(x & r & ->)|Hne]]]; [by left|..].
      * right. left. by exists x, r.
      * right. right. left. by exists x, r.
      * do 3 right. intros p q [= ?]. by eapply Hne.
    + do 3 right. intros p q [= ?]. done.
Qed.

Lemma ext_deeper d k x r n m :
  wf d n → is_core n → nibbles k →
  same_contents (ExtensionNode k n) (ExtensionNode (k ++ x :: r) m) → False.
Proof.
  intros Hw Hc Hk Hs. pose proof (ext_tail _ _ _ _ Hs Hk) as Ht.
  eapply (core_not_headed d n x (ExtensionNode (x :: r) m) Hw Hc).
  - intros q Hq. rewrite Ht by done. done.
  - intros p v Hp. by apply ext_headed in Hp.
Qed.

Lemma branch_child_same d e cs ds :
  wf d (BranchNode cs) → wf e (BranchNode ds) → same_contents (BranchNode cs) (BranchNode ds) →
  ∀ i c c', cs !! i = Some c → ds !! i = Some c' → same_contents c c'.
Proof.
  intros Hw Hw' Hs i c c' Hi Hi' p Hp.
  inversion Hw as [| | |d1 ? ? Hl _ _ Hcs]; subst. inversion Hw' as [| | |d2 ? ? Hl' _ _ Hds]; subst.
  assert (i <= lastChild)%nat as Hle by (apply lookup_lt_Some in Hi; unfold lastChild; lia).
  destruct (decide (i = lastChild)) as [->|Hne].
  - destruct (decide (p = [])) as [->|Hnil].
    + specialize (Hs [] ltac:(done)). rewrite !t_lookup_branch in Hs. cbn [splitPath] in Hs.
      by rewrite Hi, Hi' in Hs.
    + destruct p as [|x p]; [done|].
      destruct (t_lookup c (x :: p)) eqn:E1.
      { apply (wf_depth _ _ _ _ (Hcs _ _ Hi)) in E1. rewrite child_depth_last in E1. cbn in E1. lia. }
      destruct (t_lookup c' (x :: p)) eqn:E2; [|done].
      apply (wf_depth _ _ _ _ (Hds _ _ Hi')) in E2. rewrite child_depth_last in E2. cbn in E2. lia.
  - destruct (nibble_of_nat i ltac:(lia)) as [Hn Hv].
    specialize (Hs (z2b (Z.of_nat i) :: p) ltac:(by constructor)).
    rewrite !t_lookup_branch in Hs. cbn [splitPath] in Hs. by rewrite Hv, Hi, Hi' in Hs.
Qed.

Lemma wf_unique d e t u : wf d t → wf e u → same_contents t u → t = u.
Proof.
  intros Hw. revert e u.
  induction Hw as [d|d v Hv|d d' k n Hk Hkn Hde Hc Hn IH|d d' cs Hl Hc Hde Hcs IH]; intros e u Hu Hs.
  - symmetry. by eapply same_empty.
  - pose proof (Hs [] ltac:(done)) as H0. cbn in H0.
    inversion Hu as [|? w ?|? ? l m Hlk|]; subst.
    + done.
    + cbn in H0. congruence.
    + symmetry in H0. by apply ext_headed in H0; [destruct l|].
    + exfalso. eapply branch_not_headed; [done|by apply same_contents_sym|]. apply leaf_headed.
  - inversion Hu as [|? w ?|d2 ? l m Hlk Hln _ Hcm Hm|]; subst.
    + apply same_contents_sym in Hs. eapply same_empty; [|done]. by eapply wf_ext.
    + pose proof (Hs [] ltac:(done)) as H0. cbn in H0. by destruct k.
    + destruct (path_cases k l) as [<-|[(x & r & ->)|[(x & r & ->)|Hne]]].
      * f_equal. eapply IH; [done|]. intros q Hq.
        specialize (Hs (k ++ q) ltac:(by apply Forall_app)). by rewrite !t_lookup_ext_app in Hs.
      * exfalso. exact (ext_deeper _ _ _ _ _ _ Hn Hc Hkn Hs).
      * exfalso. exact (ext_deeper _ _ _ _ _ _ Hm Hcm Hln (same_contents_sym _ _ Hs)).
      * exfalso. destruct (wf_inhabited _ _ Hn) as (p & v & Hp & Hv); [by destruct n|].
        specialize (Hs (k ++ p) ltac:(by apply Forall_app)). rewrite t_lookup_ext_app, Hv in Hs.
        symmetry in Hs. apply t_lookup_ext_inv in Hs as (q & Hq & _). by eapply Hne.
    + exfalso. eapply branch_not_headed; [done|by apply same_contents_sym|].
      intros p v. by apply ext_headed.
  - assert (wf d' (BranchNode cs)) as Hw by (by eapply wf_branch).
    inversion Hu as [|? w ?|d2 ? l m Hlk|d2 ? ds Hl' _ _ Hds]; subst.
    + apply same_contents_sym in Hs. by eapply same_empty.
    + exfalso. eapply branch_not_headed; [exact Hw|done|]. apply leaf_headed.
    + exfalso. eapply branch_not_headed; [exact Hw|done|]. intros p v. by apply ext_headed.
    + f_equal. apply list_eq. intros i.
      destruct (cs !! i) as [c|] eqn:Hi, (ds !! i) as [c'|] eqn:Hi'; [|..|done].
      * f_equal. eapply IH; [done|by eapply Hds|].
        exact (branch_child_same _ _ _ _ Hw Hu Hs _ _ _ Hi Hi').
      * apply lookup_lt_Some in Hi. apply lookup_ge_None in Hi'. lia.
      * apply lookup_lt_Some in Hi'. apply lookup_ge_None in Hi. lia.
Qed.

(** ** Updates *)

Lemma splitPath_inj p q : nibbles p → nibbles q → splitPath p = splitPath q → p = q.
Proof.
  intros Hp Hq. destruct p as [|x p], q as [|y q]; cbn [splitPath]; [done|..].
  - intros [= Hl _]. apply Forall_inv, nibble_lt in Hq. lia.
  - intros [= Hl _]. apply Forall_inv, nibble_lt in Hp. lia.
  - intros Heq. injection Heq as Hn ->. by rewrite (nibble_inj _ _ Hn).
Qed.

Lemma splitPath_nibbles p i q : nibbles p → splitPath p = (i, q) → nibbles q ∧ (i <= lastChild)%nat.
Proof.
  intros Hp. destruct p as [|x p]; cbn [splitPath]; intros [= <- <-]; [done|].
  inversion Hp; subst. split; [done|]. apply Nat.lt_le_incl. by apply nibble_lt.
Qed.

Lemma splitPath_head p i q : nibbles p → splitPath p = (i, q) → (i = lastChild ↔ p = []) ∧ p = head_path i q.
Proof.
  intros Hp. unfold head_path. destruct p as [|x p]; cbn [splitPath]; intros [= <- <-]; [done|].
  inversion Hp as [|? ? Hx]; subst. pose proof (nibble_lt _ Hx).
  rewrite bool_decide_eq_false_2 by lia. split; [split; [lia|done]|].
  f_equal. rewrite Z2Nat.id by apply b2z_range. by rewrite z2b_b2z.
Qed.

Lemma splitPath_head_path i q :
  (i <= lastChild)%nat → (i = lastChild → q = []) → splitPath (head_path i q) = (i, q).
Proof.
  intros Hi Hq. unfold head_path. case_bool_decide as H; [subst; by rewrite Hq|].
  cbn [splitPath]. by destruct (nibble_of_nat i ltac:(lia)) as [_ ->].
Qed.

(** [t'] holds what [t] holds, but [o] at [path]. *)
Definition updated (t t' : Node) (path : bytes) (o : option bytes) : Prop :=
  ∀ p, nibbles p → t_lookup t' p = if bool_decide (p = path) then o else t_lookup t p.

Lemma branch_updated cs i q c r path o :
  nibbles path → splitPath path = (i, q) → cs !! i = Some c → updated c r q o →
  updated (BranchNode cs) (BranchNode (<[i := r]> cs)) path o.
Proof.
  intros Hpath Hs Hi Hu p Hp. rewrite !t_lookup_branch.
  destruct (splitPath p) as [j q'] eqn:Hs'.
  destruct (splitPath_nibbles _ _ _ Hp Hs') as [Hq' _].
  destruct (decide (j = i)) as [->|Hne].
  - rewrite list_lookup_insert_eq by (by eapply lookup_lt_Some). rewrite Hi. cbn.
    rewrite (Hu _ Hq'). destruct (decide (q' = q)) as [->|Hqq].
    + rewrite !bool_decide_eq_true_2; [done| |done].
      apply splitPath_inj; [done..|]. congruence.
    + rewrite !bool_decide_eq_false_2; [done| |done]. intros ->. congruence.
  - rewrite list_lookup_insert_ne by done. rewrite bool_decide_eq_false_2; [done|].
    intros ->. congruence.
Qed.

Lemma ext_updated k n r q o :
  nibbles k → updated n r q o → updated (ExtensionNode k n) (ExtensionNode k r) (k ++ q) o.
Proof.
  intros Hk Hu p Hp. cbn [t_lookup]. destruct (has_prefix p k) eqn:E.
  - apply has_prefix_spec in E as [p' ->]. rewrite drop_app_length.
    rewrite (Hu p') by (by apply Forall_app in Hp as [_ Hp]).
    destruct (decide (p' = q)) as [->|Hne].
    + by rewrite !bool_decide_eq_true_2.
    + rewrite !bool_decide_eq_false_2; [done| |done]. by intros ?%app_inv_head.
  - rewrite bool_decide_eq_false_2; [done|]. intros ->. by rewrite has_prefix_app in E.
Qed.

(** Where two paths part. *)
Lemma lcp_split k p :
  has_prefix p k = false →
  ∃ k0 kt rest, k = lcp k p ++ k0 :: kt ∧ p = lcp k p ++ rest ∧ head rest ≠ Some k0.
Proof.
  revert p. induction k as [|x k IH]; intros p; cbn [has_prefix]; [done|].
  destruct p as [|y p]; cbn [has_prefix lcp].
  - intros _. by exists x, k, [].
  - destruct (decide (x = y)) as [->|Hne].
    + rewrite !bool_decide_eq_true_2 by done. cbn. intros Hp.
      destruct (IH p Hp) as (k0 & kt & rest & Hk & Hp' & Hr).
      exists k0, kt, rest. by rewrite <- Hk, <- Hp'.
    + rewrite !bool_decide_eq_false_2 by done. intros _. exists x, k, (y :: p). cbn.
      split; [done|]. split; [done|]. congruence.
Qed.

(** An extension over any node, as the code keeps it: two extensions are
    merged and an empty one is dropped. *)
Definition join (k : bytes) (n : Node) : Node :=
  match n with
  | ExtensionNode l m => ExtensionNode (k ++ l) m
  | EmptyNode => EmptyNode
  | _ => if bool_decide (k = []) then n else ExtensionNode k n
  end.

Lemma has_prefix_app_l p k l :
  has_prefix p (k ++ l) = has_prefix p k && has_prefix (drop (length k) p) l.
Proof.
  revert p. induction k as [|x k IH]; intros p; cbn; [by rewrite drop_0|].
  destruct p as [|y p]; cbn; [done|]. rewrite IH. by rewrite andb_assoc.
Qed.

Lemma has_prefix_nil p : has_prefix p [] = true.
Proof. by destruct p. Qed.

Lemma t_lookup_join k n p :
  t_lookup (join k n) p = if has_prefix p k then t_lookup n (drop (length k) p) else None.
Proof.
  destruct n as [v|cs|l m|h c|]; cbn [join].
  - case_bool_decide; subst; [|done]. by rewrite has_prefix_nil.
  - case_bool_decide; subst; [|done]. by rewrite has_prefix_nil.
  - cbn [t_lookup]. rewrite has_prefix_app_l, length_app, <- drop_drop.
    by destruct (has_prefix p k).
  - case_bool_decide; subst; [|done]. by rewrite has_prefix_nil.
  - cbn. by destruct (has_prefix p k).
Qed.

Lemma wf_join d e k n : nibbles k → wf d n → (length k + d <= e)%nat → wf e (join k n).
Proof.
  intros Hk Hw He. destruct Hw as [d|d v Hv|d d' l m Hl Hln Hle Hc Hn|d d' cs Hl Hc Hle Hcs]; cbn [join].
  - constructor.
  - case_bool_decide; [by constructor|]. apply (wf_ext d); [done..|]. by constructor.
  - apply (wf_ext d); [by destruct k|by apply Forall_app|rewrite length_app; lia|done|done].
  - case_bool_decide; [apply (wf_branch d); [done..|lia|done]|].
    apply (wf_ext d'); [done..|]. by apply (wf_branch d).
Qed.

Lemma join_app k l n : join k (join l n) = join (k ++ l) n.
Proof.
  destruct n as [v|cs|m n|h c|]; cbn [join]; try done.
  1,2,4: destruct (decide (l = [])) as [->|Hl];
    [rewrite bool_decide_eq_true_2 by done; by rewrite app_nil_r
    |rewrite bool_decide_eq_false_2 by done; cbn;
     rewrite bool_decide_eq_false_2; [done|by destruct k, l]].
  by rewrite app_assoc.
Qed.

Lemma join_core k n : is_core n → k ≠ [] → join k n = ExtensionNode k n.
Proof. intros Hc Hk. destruct n; try done; cbn; by rewrite bool_decide_eq_false_2. Qed.

(** A branch as the code keeps it: with one child it gives way to the child. *)
Definition strip (cs : list Node) : Node :=
  match list_find (λ c, isEmpty c = false) cs with
  | None => EmptyNode
  | Some (i, c) =>
      if bool_decide (nchildren cs = 1%nat) then join (head_path i []) c else BranchNode cs
  end.

Lemma nchildren_0 cs i c : nchildren cs = 0%nat → cs !! i = Some c → c = EmptyNode.
Proof.
  intros H0 Hi. destruct (isEmpty c) eqn:E; [by destruct c|].
  pose proof (nchildren_insert cs i c EmptyNode Hi) as Hn. rewrite E in Hn. cbn in Hn. lia.
Qed.

Lemma nchildren_1 cs i c j c' :
  nchildren cs = 1%nat → cs !! i = Some c → isEmpty c = false → cs !! j = Some c' →
  isEmpty c' = false → i = j.
Proof.
  intros H1 Hi Hc Hj Hc'. destruct (decide (i = j)) as [|Hne]; [done|].
  pose proof (nchildren_insert cs i c EmptyNode Hi) as Hn. rewrite Hc in Hn. cbn in Hn.
  assert (c' = EmptyNode); [|by subst].
  eapply (nchildren_0 (<[i := EmptyNode]> cs)); [lia|]. by rewrite list_lookup_insert_ne.
Qed.

Lemma strip_many cs : (2 <= nchildren cs)%nat → strip cs = BranchNode cs.
Proof.
  intros H2. unfold strip. destruct (list_find _ cs) as [[i c]|] eqn:E.
  - rewrite bool_decide_eq_false_2 by lia. done.
  - destruct (nchildren_pos cs) as (i & c & Hi & Hc); [lia|].
    apply list_find_None in E. eapply Forall_lookup_1 in E; [|done]. done.
Qed.

Lemma strip_one cs i c :
  nchildren cs = 1%nat → cs !! i = Some c → isEmpty c = false → strip cs = join (head_path i []) c.
Proof.
  intros H1 Hi Hc. unfold strip. destruct (list_find _ cs) as [[j c']|] eqn:E.
  - apply list_find_Some in E as (Hj & Hc' & _).
    assert (i = j) as <- by (by eapply nchildren_1). simplify_eq. by rewrite bool_decide_eq_true_2.
  - apply list_find_None in E. eapply Forall_lookup_1 in E; [|done]. done.
Qed.

Lemma strip_none cs : nchildren cs = 0%nat → strip cs = EmptyNode.
Proof.
  intros H0. unfold strip. destruct (list_find _ cs) as [[j c']|] eqn:E; [|done].
  apply list_find_Some in E as (Hj & Hc' & _). by rewrite (nchildren_0 _ _ _ H0 Hj) in Hc'.
Qed.

Definition wf_children (d : nat) (cs : list Node) : Prop :=
  length cs = childrenCount ∧ ∀ i c, cs !! i = Some c → wf (child_depth i d) c.

Lemma wf_branch_inv e cs :
  wf e (BranchNode cs) → ∃ d, e = S d ∧ wf_children d cs ∧ (2 <= nchildren cs)%nat.
Proof.
  inversion 1 as [| | |d ? ? Hl Hc Hle Hcs]; subst. destruct e as [|e]; [lia|].
  exists e. split; [done|]. split; [|done]. split; [done|]. intros i c Hi.
  eapply wf_mono; [by apply Hcs|]. unfold child_depth. case_bool_decide; lia.
Qed.

Lemma length_head_path_nil i : (length (head_path i []) <= 1)%nat.
Proof. unfold head_path. case_bool_decide; cbn; lia. Qed.

Lemma wf_strip d cs : wf_children d cs → wf (S d) (strip cs).
Proof.
  intros [Hl Hw]. destruct (nchildren cs) as [|[|n]] eqn:Hn.
  - rewrite strip_none by done. constructor.
  - destruct (nchildren_pos cs) as (i & c & Hi & Hc); [lia|].
    rewrite (strip_one _ _ _ Hn Hi Hc).
    assert (i <= lastChild)%nat by (apply lookup_lt_Some in Hi; unfold lastChild; lia).
    eapply wf_join; [by apply nibbles_head_path|by apply Hw|].
    unfold head_path, child_depth. case_bool_decide; cbn; lia.
  - rewrite strip_many by lia. apply (wf_branch d); [done|lia|lia|done].
Qed.

Lemma t_lookup_strip d cs p :
  wf_children d cs → nibbles p → t_lookup (strip cs) p = t_lookup (BranchNode cs) p.
Proof.
  intros [Hl Hw] Hp. rewrite t_lookup_branch. destruct (splitPath p) as [j q] eqn:Hs.
  destruct (splitPath_head _ _ _ Hp Hs) as [Hjp Hph].
  destruct (nchildren cs) as [|[|n]] eqn:Hn.
  - rewrite strip_none by done. destruct (cs !! j) as [c|] eqn:Hj; [|done]. cbn.
    by rewrite (nchildren_0 _ _ _ Hn Hj).
  - destruct (nchildren_pos cs) as (i & c & Hi & Hc); [lia|].
    rewrite (strip_one _ _ _ Hn Hi Hc), t_lookup_join. subst p. unfold head_path.
    assert (i <= lastChild)%nat as Hle by (apply lookup_lt_Some in Hi; unfold lastChild; lia).
    destruct (decide (j = i)) as [->|Hne].
    { rewrite Hi. cbn. case_bool_decide; [by rewrite has_prefix_nil|]. cbn.
      by rewrite bool_decide_eq_true_2. }
    assert ((cs !! j ≫= λ c, t_lookup c q) = None) as ->.
    { destruct (cs !! j) as [c'|] eqn:Hj; [|done]. cbn. destruct (isEmpty c') eqn:E.
      - by destruct c'.
      - by destruct Hne; eapply nchildren_1. }
    destruct (decide (i = lastChild)) as [->|Hi'].
    + rewrite (bool_decide_eq_false_2 (j = lastChild)), bool_decide_eq_true_2 by done.
      rewrite has_prefix_nil. cbn [length]. rewrite drop_0.
      destruct (t_lookup c _) eqn:E; [|done].
      apply (wf_depth _ _ _ _ (Hw _ _ Hi)) in E. rewrite child_depth_last in E. cbn in E. lia.
    + rewrite (bool_decide_eq_false_2 (i = lastChild)) by done.
      destruct (decide (j = lastChild)) as [->|Hj'].
      { rewrite bool_decide_eq_true_2 by done.
        rewrite (proj1 Hjp eq_refl : q = []) at 1. done. }
      rewrite bool_decide_eq_false_2 by done. cbn [has_prefix].
      rewrite bool_decide_eq_false_2; [done|]. intros Hz%(f_equal b2z).
      assert (j <= lastChild)%nat as Hlj by (by apply (splitPath_nibbles _ _ _ Hp Hs)).
      unfold lastChild, childrenCount in *. rewrite !b2z_z2b_small in Hz by lia. lia.
  - rewrite strip_many by lia. by rewrite t_lookup_branch, Hs.
Qed.

Lemma updated_from t u t' path o : same_contents t u → updated t t' path o → updated u t' path o.
Proof. intros Hs Hu p Hp. rewrite (Hu p Hp). by rewrite Hs. Qed.

Lemma updated_to t t' u path o : updated t t' path o → same_contents t' u → updated t u path o.
Proof. intros Hu Hs p Hp. rewrite <- (Hs p Hp). by apply Hu. Qed.

Lemma updated_same t path : nibbles path → t_lookup t path = None → updated t t path None.
Proof. intros Hp Hn p Hp'. case_bool_decide; [by subst|done]. Qed.

Lemma wf_children_insert d cs i c r :
  wf_children d cs → cs !! i = Some c → wf (child_depth i d) r → wf_children d (<[i := r]> cs).
Proof.
  intros [Hl Hw] Hi Hr. split; [by rewrite length_insert|]. intros j c' Hj.
  destruct (decide (j = i)) as [->|Hne].
  - rewrite list_lookup_insert_eq in Hj by (by eapply lookup_lt_Some). by injection Hj as <-.
  - rewrite list_lookup_insert_ne in Hj by done. by apply Hw.
Qed.

Lemma join_updated k n r q o :
  nibbles k → updated n r q o → updated (join k n) (join k r) (k ++ q) o.
Proof.
  intros Hk Hu p Hp. rewrite !t_lookup_join. destruct (has_prefix p k) eqn:E.
  - apply has_prefix_spec in E as [p' ->]. rewrite drop_app_length.
    rewrite (Hu p') by (by apply Forall_app in Hp as [_ Hp]).
    destruct (decide (p' = q)) as [->|Hne].
    + by rewrite !bool_decide_eq_true_2.
    + rewrite !bool_decide_eq_false_2; [done| |done]. by intros ?%app_inv_head.
  - rewrite bool_decide_eq_false_2; [done|]. intros ->. by rewrite has_prefix_app in E.
Qed.

(** ** Branches made from scratch *)

Definition no_children : list Node := replicate childrenCount EmptyNode.

Lemma nchildren_none : nchildren no_children = 0%nat.
Proof. done. Qed.

Lemma lookup_none i : (i <= lastChild)%nat → no_children !! i = Some EmptyNode.
Proof. intros Hi. apply lookup_replicate_2. unfold lastChild, childrenCount in *. lia. Qed.

Lemma wf_children_none d : wf_children d no_children.
Proof. split; [done|]. intros i c Hc%lookup_replicate_1. destruct Hc as [-> _]. constructor. Qed.

Lemma nchildren_fresh i c :
  (i <= lastChild)%nat → isEmpty c = false → nchildren (<[i := c]> no_children) = 1%nat.
Proof.
  intros Hi Hc. pose proof (nchildren_insert _ i EmptyNode c (lookup_none i Hi)) as Hn.
  rewrite Hc, nchildren_none in Hn. cbn [isEmpty] in Hn. lia.
Qed.

Lemma strip_fresh i c :
  (i <= lastChild)%nat → isEmpty c = false → strip (<[i := c]> no_children) = join (head_path i []) c.
Proof.
  intros Hi Hc. apply strip_one; [by apply nchildren_fresh| |done].
  apply list_lookup_insert_eq. change (length no_children) with (Datatypes.S lastChild). lia.
Qed.

(** A branch with the children [c] at [j] and [r] at [i]. *)
Definition fork (j : nat) (c : Node) (i : nat) (r : Node) : list Node := <[i := r]> (<[j := c]> no_children).

Section fork.
Context (d i j : nat) (c r : Node) (Hi : (i <= lastChild)%nat) (Hj : (j <= lastChild)%nat) (Hij : i ≠ j)
  (Hc : isEmpty c = false) (Hr : isEmpty r = false)
  (Hwc : wf (child_depth j d) c) (Hwr : wf (child_depth i d) r).

Lemma fork_lookup : (<[j := c]> no_children) !! i = Some EmptyNode.
Proof using Hi Hij. rewrite list_lookup_insert_ne by done. by apply lookup_none. Qed.

Lemma wf_fork : wf (S d) (BranchNode (fork j c i r)).
Proof using All.
  assert (wf_children d (fork j c i r)) as [Hl Hw].
  { eapply wf_children_insert; [|apply fork_lookup|done].
    eapply wf_children_insert; [apply wf_children_none|by apply lookup_none|done]. }
  apply (wf_branch d); [done| |lia|done].
  pose proof (nchildren_insert _ i EmptyNode r fork_lookup) as Hn.
  rewrite nchildren_fresh, Hr in Hn by done. cbn [isEmpty] in Hn. unfold fork. lia.
Qed.

Lemma fork_updated path q o :
  nibbles path → splitPath path = (i, q) → updated EmptyNode r q o →
  updated (join (head_path j []) c) (BranchNode (fork j c i r)) path o.
Proof using All.
  intros Hp Hs Hu. eapply updated_from; [|by eapply branch_updated; [..|apply fork_lookup|]].
  intros p Hp'. rewrite <- strip_fresh by done. symmetry. eapply (t_lookup_strip d); [|done].
  eapply wf_children_insert; [apply wf_children_none|by apply lookup_none|done].
Qed.
End fork.

(** ** Nodes of a tree and their occurrences *)

Fixpoint nodes (t : Node) : list Node :=
  match t with
  | LeafNode _ | HashNode _ _ => [t]
  | BranchNode cs => t :: concat (map nodes cs)
  | ExtensionNode k n => t :: nodes n
  | EmptyNode => []
  end.

Lemma nodes_child cs i c u : cs !! i = Some c → u ∈ nodes c → u ∈ nodes (BranchNode cs).
Proof.
  intros Hi Hu. cbn. right. apply list_elem_of_In, in_concat. exists (nodes c).
  split; [|by apply list_elem_of_In]. apply in_map. apply list_elem_of_In.
  by eapply list_elem_of_lookup_2.
Qed.

Lemma nodes_self t : isEmpty t = false → t ∈ nodes t.
Proof. destruct t; cbn; intros; try done; left. Qed.

Section occ.
Context `{Digest}.

(** How many nodes of the tree have the hash [h]. *)
Definition occ (h : bytes) (t : Node) : Z :=
  Z.of_nat (length (filter (λ u, node_Hash u = h) (nodes t))).

Definition one (h : bytes) (t : Node) : Z := if bool_decide (node_Hash t = h) then 1 else 0.

Definition sum_occ (h : bytes) (cs : list Node) : Z := foldr (λ c s, occ h c + s) 0 cs.

Lemma sum_occ_cons h c cs : sum_occ h (c :: cs) = occ h c + sum_occ h cs.
Proof. done. Qed.

Lemma node_occ_nonneg h t : 0 <= occ h t.
Proof. unfold occ. lia. Qed.

Lemma occ_empty h : occ h EmptyNode = 0.
Proof. done. Qed.

Lemma occ_leaf h v : occ h (LeafNode v) = one h (LeafNode v).
Proof. unfold occ, one. cbn [nodes]. rewrite filter_cons. by case_decide; case_bool_decide. Qed.

Lemma occ_ext h k n : occ h (ExtensionNode k n) = one h (ExtensionNode k n) + occ h n.
Proof.
  unfold occ, one. cbn [nodes]. rewrite filter_cons.
  case_decide; case_bool_decide; try done; cbn [length]; lia.
Qed.

Lemma sum_occ_nodes h cs :
  sum_occ h cs = Z.of_nat (length (filter (λ u, node_Hash u = h) (concat (map nodes cs)))).
Proof.
  induction cs as [|c cs IH]; [done|]. cbn [map concat].
  rewrite sum_occ_cons, IH, filter_app, length_app. unfold occ. lia.
Qed.

Lemma occ_branch h cs : occ h (BranchNode cs) = one h (BranchNode cs) + sum_occ h cs.
Proof.
  rewrite sum_occ_nodes. unfold occ, one. cbn [nodes]. rewrite filter_cons.
  case_decide; case_bool_decide; try done; cbn [length]; lia.
Qed.

Lemma sum_occ_insert h cs i c r :
  cs !! i = Some c → sum_occ h (<[i := r]> cs) = sum_occ h cs - occ h c + occ h r.
Proof.
  revert i. induction cs as [|x cs IH]; intros [|i] Hi; cbn in Hi; [done..| |].
  - injection Hi as ->. cbn [insert list_insert]. rewrite !sum_occ_cons. lia.
  - change (<[S i := r]> (x :: cs)) with (x :: <[i := r]> cs).
    rewrite !sum_occ_cons, (IH _ Hi). lia.
Qed.

Lemma sum_occ_empty h n : sum_occ h (replicate n EmptyNode) = 0.
Proof. induction n as [|n IH]; [done|]. cbn [replicate]. by rewrite sum_occ_cons, IH. Qed.

Lemma sum_occ_fork h i j c r :
  (i <= lastChild)%nat → (j <= lastChild)%nat → i ≠ j →
  sum_occ h (fork j c i r) = occ h c + occ h r.
Proof.
  intros Hi Hj Hij. unfold fork.
  rewrite (sum_occ_insert h _ i EmptyNode) by (by apply fork_lookup).
  rewrite (sum_occ_insert h _ j EmptyNode) by (by apply lookup_none).
  unfold no_children. rewrite sum_occ_empty, occ_empty. lia.
Qed.

Lemma sum_occ_0 h cs : nchildren cs = 0%nat → sum_occ h cs = 0.
Proof.
  intros Hn. assert (Forall (λ c, c = EmptyNode) cs) as Hf.
  { apply Forall_lookup_2. intros i c Hi. by eapply nchildren_0. }
  clear Hn. induction Hf as [|c cs -> _ IH]; [done|]. by rewrite sum_occ_cons, IH.
Qed.

Lemma sum_occ_one h cs i c :
  nchildren cs = 1%nat → cs !! i = Some c → isEmpty c = false → sum_occ h cs = occ h c.
Proof.
  intros Hn Hi Hc. pose proof (nchildren_insert cs i c EmptyNode Hi) as He.
  rewrite Hn, Hc in He. cbn [isEmpty] in He.
  pose proof (sum_occ_0 h (<[i := EmptyNode]> cs) ltac:(lia)) as H0.
  rewrite (sum_occ_insert h _ _ _ _ Hi), occ_empty in H0. lia.
Qed.

Lemma occ_pos h t : 0 < occ h t ↔ ∃ u, u ∈ nodes t ∧ node_Hash u = h.
Proof.
  unfold occ. split.
  - intros Hp. destruct (filter _ (nodes t)) as [|u l] eqn:E; cbn in Hp; [lia|].
    assert (u ∈ filter (λ u, node_Hash u = h) (nodes t)) as Hu by (rewrite E; left).
    apply list_elem_of_filter in Hu as [? ?]. eauto.
  - intros (u & Hu & Hh).
    assert (u ∈ filter (λ u, node_Hash u = h) (nodes t)) as Hf by (by apply list_elem_of_filter).
    destruct (filter _ (nodes t)); [by apply not_elem_of_nil in Hf|cbn; lia].
Qed.

Lemma occ_join h k n :
  is_core n ∨ n = EmptyNode ∨ k = [] →
  occ h (join k n) = (if bool_decide (k = []) then 0 else if isEmpty n then 0 else one h (ExtensionNode k n)) + occ h n.
Proof.
  intros Hn. destruct n as [v|cs|l m|g c|]; cbn [join isEmpty].
  1,2,4: case_bool_decide; [lia|by rewrite occ_ext].
  - destruct Hn as [[]|[[=]| ->]]. cbn [app]. rewrite bool_decide_eq_true_2 by done. lia.
  - by case_bool_decide.
Qed.

(** In a canonical tree no node is a hash node. *)
Lemma wf_nodes d t u :
  wf d t → u ∈ nodes t → (∃ e, (e <= d)%nat ∧ wf e u) ∧ isEmpty u = false.
Proof.
  intros Hw. induction Hw as [d|d v Hv|d d' k n Hk Hkn Hle Hc Hn IH|d d' cs Hl Hc Hle Hcs IH]; cbn [nodes]; intros Hu.
  - by apply not_elem_of_nil in Hu.
  - apply list_elem_of_singleton in Hu as ->. split; [|done]. exists d. split; [done|by constructor].
  - apply elem_of_cons in Hu as [->|Hu].
    + split; [|done]. exists d'. split; [done|]. by apply (wf_ext d).
    + destruct (IH Hu) as [(e & He & Hwe) ?]. split; [|done]. exists e. split; [lia|done].
  - apply elem_of_cons in Hu as [->|Hu].
    + split; [|done]. exists d'. split; [done|]. by apply (wf_branch d).
    + apply list_elem_of_In, in_concat in Hu as (l & Hl' & Hu).
      apply in_map_iff in Hl' as (c & <- & Hci%list_elem_of_In).
      apply list_elem_of_lookup_1 in Hci as [i Hi]. apply list_elem_of_In in Hu.
      destruct (IH _ _ Hi Hu) as [(e & He & Hwe) ?]. split; [|done]. exists e. split; [|done].
      unfold child_depth in He. case_bool_decide; lia.
Qed.

Lemma wf_hash_ok d t : wf d t → hash_ok t.
Proof. by destruct 1. Qed.

Lemma wf_node_ok d t : wf d t → Z.of_nat d <= maxPathLength → node_ok t.
Proof.
  intros Hw Hd. destruct Hw as [d|d v Hv|d d' k n Hk Hkn Hle Hc Hn|d d' cs Hl Hc Hle Hcs]; cbn; try done.
  - split; [lia|by eapply wf_hash_ok].
  - split; [done|]. apply Forall_lookup_2. intros i c Hi. by eapply wf_hash_ok, Hcs.
Qed.

Lemma wf_not_hash d t h c : wf d t → t ≠ HashNode h c.
Proof. by destruct 1. Qed.
End occ.
