(* ===== verification/Mpt.v ===== *)
(** * Mpt: the state trie

    Models [pkg/core/mpt/trie.go], [batch.go] and [proof.go]: lookup,
    insertion, removal, batches, the reference counters of nodes with their
    flush to the store, and proofs.

    An operation threads the map of reference counters and answers with a node
    or an error. Recursion takes fuel, the depth of the stack: running out of
    it is the overflow that ends the program, a [Panic]. *)

From stdpp Require Import strings.
From S2P Require Import Prelude BinIO Storage Hash MptNode.
#[local] Open Scope Z_scope.

Inductive trie_err :=
  | ErrNotFound
  | EStore (e : serr)
  | EDecode (e : ioerr)
  | EMsg (msg : string).

#[export] Instance trie_err_eq_dec : EqDecision trie_err.
Proof. solve_decision. Defined.

(** ** Modes *)

Definition ModeAll : Z := 0.
Definition ModeLatest : Z := 1.
Definition ModeGCFlag : Z := 2.
Definition ModeGC : Z := 3.

Definition mode_RC (m : Z) : bool := negb (bool_decide (Z.land m ModeLatest = 0)).
Definition mode_GC (m : Z) : bool := negb (bool_decide (Z.land m ModeGCFlag = 0)).

(** ** Reference counters *)

Record cachedNode := mkCached {
  cn_bytes : option bytes;
  cn_initial : Z;
  cn_refcount : Z;
}.

Abbreviation rcmap := (gmap bytes cachedNode).

Definition M (A : Type) : Type := rcmap → rcmap * res trie_err A.

#[export] Instance M_ret : MRet M := λ A a m, (m, Ok a).
#[export] Instance M_bind : MBind M := λ A B f x m,
  match x m with
  | (m, Ok a) => f a m
  | (m, Err e) => (m, Err e)
  | (m, Panic) => (m, Panic)
  end.

Definition m_fail {A} (e : trie_err) : M A := λ m, (m, Err e).
Definition m_panic {A} : M A := λ m, (m, Panic).
Definition m_lift {A} (o : option A) : M A :=
  match o with Some a => mret a | None => m_panic end.

(** A step whose error is a value: what a caller sees that looks at the error. *)
Definition m_try {A} (x : M A) : M (A + trie_err) := λ m,
  match x m with
  | (m, Ok a) => (m, Ok (inl a))
  | (m, Err e) => (m, Ok (inr e))
  | (m, Panic) => (m, Panic)
  end.

Definition addRef (h bs : bytes) : M unit := λ m,
  (match m !! h with
   | None => <[h := mkCached (Some bs) 0 1]> m
   | Some node =>
       <[h := mkCached (Some (default bs (cn_bytes node))) (cn_initial node)
                (i32 (cn_refcount node + 1))]> m
   end, Ok tt).

Definition removeRef (h bs : bytes) : M unit := λ m,
  (match m !! h with
   | None => <[h := mkCached (Some bs) 0 (-1)]> m
   | Some node =>
       <[h := mkCached (Some (default bs (cn_bytes node))) (cn_initial node)
                (i32 (cn_refcount node - 1))]> m
   end, Ok tt).

Definition IsActiveValue (v : bytes) : bool :=
  bool_decide (4 < length v)%nat && bool_decide (v !! (length v - 5)%nat = Some x01).

Definition DataMPT : byte := x03.
Definition makeStorageKey (mptKey : bytes) : bytes := DataMPT :: mptKey.

(** The changes of a batch: paths with the value to put, [None] to remove. *)
Abbreviation kvs := (list (bytes * option bytes)).

Record Trie (S : Type) := mkTrie {
  t_Store : MemCachedStore S;
  t_root : Node;
  t_mode : Z;
  t_refcount : rcmap;
}.
Arguments mkTrie {S} _ _ _ _.
Arguments t_Store {S} _.
Arguments t_root {S} _.
Arguments t_mode {S} _.
Arguments t_refcount {S} _.

Section trie.
Context `{Digest} {S : Type} `{!Store S}.

Definition NewTrie (root : Node) (mode : Z) (store : MemCachedStore S) : Trie S :=
  mkTrie store root mode ∅.

Definition addRef_node (n : Node) : M unit := addRef (node_Hash n) (node_Bytes n).
Definition removeRef_node (n : Node) : M unit := removeRef (node_Hash n) (node_Bytes n).

Section ops.
Context (st : MemCachedStore S) (mode : Z).

(** ** Reading nodes *)

Definition getFromStore_data (key : bytes) : res trie_err bytes :=
  match MemCachedStore_Get st key with
  | Ok data =>
      if mode_GC mode && negb (IsActiveValue data) then Err (EStore ErrKeyNotFound) else Ok data
  | Err e => Err (EStore e)
  | Panic => Panic
  end.

(** The counter that follows a node in the store. *)
Definition read_initial (r : BinReader) : Z :=
  let '(_, r) := ReadB r in i32 (ReadU32LE r).1.

(** [setCache] gives the node read the hash it was looked up by, which changes
    a hash node; an empty node has no cache to set. *)
Definition getFromStore (h : bytes) : M Node := λ m,
  match getFromStore_data (makeStorageKey h) with
  | Err e => (m, Err e)
  | Panic => (m, Panic)
  | Ok data =>
      let '(n, r) := NodeObject_DecodeBinary (NewBinReaderFromBuf data) in
      match r_err r, n with
      | Some e, _ => (m, Err (EDecode e))
      | None, None => (m, Panic)
      | None, Some n =>
          if mode_RC mode && bool_decide (length data < 5)%nat then (m, Panic) else
          let m :=
            match (if mode_RC mode then m !! h else None) with
            | Some node =>
                <[h := mkCached (Some (take (length data - 5) data)) (read_initial r)
                         (cn_refcount node)]> m
            | None => m
            end in
          match n with
          | EmptyNode => (m, Panic)
          | HashNode _ c => (m, Ok (HashNode h c))
          | n => (m, Ok n)
          end
      end
  end.

(** ** Lookup

    The code appends the rest of the path to the key of an extension in place
    ([append(n.key, prefix...)]); this model of the keys as lists is right while
    nothing in use follows the key in its array, which [MptAlias] has with the
    arrays, together with where it is not. *)

Fixpoint getWithPath (fuel : nat) (curr : Node) (path : bytes) (strict : bool)
    : M (Node * Node * bytes) :=
  match fuel with
  | O => m_panic
  | Datatypes.S fuel =>
      match curr with
      | LeafNode _ =>
          if bool_decide (path = []) then mret (curr, curr, []) else m_fail ErrNotFound
      | BranchNode cs =>
          let '(i, path) := splitPath path in
          if bool_decide (i = lastChild) && negb strict then mret (curr, curr, [])
          else
            c ← m_lift (cs !! i);
            '(r, res, prefix) ← getWithPath fuel c path strict;
            mret (BranchNode (<[i := r]> cs), res, z2b (Z.of_nat i) :: prefix)
      | EmptyNode => m_fail ErrNotFound
      | HashNode h _ =>
          r ← m_try (getFromStore h);
          match r with
          | inl r => getWithPath fuel r path strict
          | inr e => m_fail (if bool_decide (e = EDecode errTooManyNodes) then e else ErrNotFound)
          end
      | ExtensionNode key next =>
          if bool_decide (path = []) && negb strict then mret (curr, next, key)
          else if has_prefix path key then
            '(r, res, prefix) ← getWithPath fuel next (drop (length key) path) strict;
            mret (ExtensionNode key r, res, key ++ prefix)
          else if negb strict && has_prefix key path then mret (curr, next, key)
          else m_fail ErrNotFound
      end
  end.

(** ** Insertion *)

Definition newSubTrie (path : bytes) (val : Node) (newVal : bool) : M Node :=
  (if newVal then addRef_node val else mret tt) ;;
  if bool_decide (path = []) then mret val
  else let e := ExtensionNode path val in addRef_node e ;; mret e.

Definition putIntoLeaf (curr : Node) (path : bytes) (val : Node) : M Node :=
  match path with
  | [] => removeRef_node curr ;; addRef_node val ;; mret val
  | i :: path =>
      s ← newSubTrie path val true;
      let b := BranchNode (<[lastChild := curr]>
                 (<[Z.to_nat (b2z i) := s]> (replicate childrenCount EmptyNode))) in
      addRef_node b ;; mret b
  end.

Section put.
Context (putIntoNode : Node → bytes → Node → M Node).

Definition putIntoBranch (cs : list Node) (path : bytes) (val : Node) : M Node :=
  let '(i, path) := splitPath path in
  removeRef_node (BranchNode cs) ;;
  c ← m_lift (cs !! i);
  r ← putIntoNode c path val;
  let b := BranchNode (<[i := r]> cs) in
  addRef_node b ;; mret b.

Definition putIntoExtension (key : bytes) (next : Node) (path : bytes) (val : Node) : M Node :=
  removeRef_node (ExtensionNode key next) ;;
  if has_prefix path key then
    r ← putIntoNode next (drop (length key) path) val;
    let e := ExtensionNode key r in
    addRef_node e ;; mret e
  else
    let pref := lcp key path in
    let lp := length pref in
    match drop lp key with
    | [] => m_panic
    | k0 :: keyTail =>
        s1 ← newSubTrie keyTail next false;
        let '(i, pathTail) := splitPath (drop lp path) in
        s2 ← newSubTrie pathTail val true;
        let b := BranchNode (<[i := s2]>
                   (<[Z.to_nat (b2z k0) := s1]> (replicate childrenCount EmptyNode))) in
        addRef_node b ;;
        if bool_decide (0 < lp)%nat then
          let e := ExtensionNode pref b in addRef_node e ;; mret e
        else mret b
    end.

Definition putIntoEmpty (path : bytes) (val : Node) : M Node := newSubTrie path val true.

Definition putIntoHash (h : bytes) (path : bytes) (val : Node) : M Node :=
  result ← getFromStore h; putIntoNode result path val.
End put.

Fixpoint putIntoNode (fuel : nat) (curr : Node) (path : bytes) (val : Node) : M Node :=
  match fuel with
  | O => m_panic
  | Datatypes.S fuel =>
      match curr with
      | LeafNode _ => putIntoLeaf curr path val
      | BranchNode cs => putIntoBranch (putIntoNode fuel) cs path val
      | ExtensionNode key next => putIntoExtension (putIntoNode fuel) key next path val
      | HashNode h _ => putIntoHash (putIntoNode fuel) h path val
      | EmptyNode => putIntoEmpty path val
      end
  end.

(** ** Removal

    The result comes with an error: the node is then what the code, which
    works in place, has made of [curr] before it gave up. *)


(** The children that are not empty, and the index of the last of them. *)
Fixpoint count_children (i : nat) (cs : list Node) : nat * nat :=
  match cs with
  | [] => (0, 0)%nat
  | c :: cs =>
      let '(count, index) := count_children (i + 1) cs in
      if isEmpty c then (count, index)
      else ((count + 1)%nat, if bool_decide (count = 0)%nat then i else index)
  end.

Section delete.
Context (deleteFromNode : Node → bytes → M (Node * option trie_err)).

Definition deleteFromBranch (cs : list Node) (path : bytes) : M (Node * option trie_err) :=
  let '(i, path) := splitPath path in
  c ← m_lift (cs !! i);
  '(r, err) ← deleteFromNode c path;
  match err with
  | Some e => mret (BranchNode (<[i := r]> cs), Some e)
  | None =>
      removeRef_node (BranchNode cs) ;;
      let cs := <[i := r]> cs in
      let '(count, index) := count_children 0 cs in
      if bool_decide (1 < count)%nat then
        addRef_node (BranchNode cs) ;; mret (BranchNode cs, None)
      else
        c ← m_lift (cs !! index);
        if bool_decide (index = lastChild) then mret (c, None)
        else
          c ← match c with HashNode h _ => m_try (getFromStore h) | c => mret (inl c) end;
          match c with
          | inr e => mret (BranchNode cs, Some e)
          | inl (ExtensionNode key next as e) =>
              removeRef_node e ;;
              let e := ExtensionNode (z2b (Z.of_nat index) :: key) next in
              addRef_node e ;; mret (e, None)
          | inl c =>
              let e := ExtensionNode [z2b (Z.of_nat index)] c in
              addRef_node e ;; mret (e, None)
          end
  end.

Definition deleteFromExtension (key : bytes) (next : Node) (path : bytes) : M (Node * option trie_err) :=
  if negb (has_prefix path key) then mret (ExtensionNode key next, None)
  else
    '(r, err) ← deleteFromNode next (drop (length key) path);
    match err with
    | Some e => mret (ExtensionNode key r, Some e)
    | None =>
        removeRef_node (ExtensionNode key next) ;;
        match r with
        | ExtensionNode nkey nnext =>
            removeRef_node r ;;
            let n := ExtensionNode (key ++ nkey) nnext in
            addRef_node n ;; mret (n, None)
        | EmptyNode => mret (r, None)
        | r => let n := ExtensionNode key r in addRef_node n ;; mret (n, None)
        end
    end.
End delete.

Fixpoint deleteFromNode (fuel : nat) (curr : Node) (path : bytes) : M (Node * option trie_err) :=
  match fuel with
  | O => m_panic
  | Datatypes.S fuel =>
      match curr with
      | LeafNode _ =>
          if bool_decide (path = []) then removeRef_node curr ;; mret (EmptyNode, None)
          else mret (curr, None)
      | BranchNode cs => deleteFromBranch (deleteFromNode fuel) cs path
      | ExtensionNode key next => deleteFromExtension (deleteFromNode fuel) key next path
      | EmptyNode => mret (curr, None)
      | HashNode h _ =>
          r ← m_try (getFromStore h);
          match r with
          | inl newNode =>
              '(n, err) ← deleteFromNode fuel newNode path;
              mret (if bool_decide (err = None) then n else curr, err)
          | inr e => mret (curr, Some e)
          end
      end
  end.

(** ** Batches

    The changes of a batch are sorted by path; a value of [None] removes the
    key. The result is the new node, the number of changes done and an error. *)


Definition stripPrefix (n : nat) (kv : kvs) : option kvs :=
  if forallb (λ x, bool_decide (n <= length x.1)%nat) kv
  then Some (map (λ x, (drop n x.1, x.2)) kv) else None.

Definition lcpMany (kv : kvs) : bytes :=
  match kv with
  | [] => []
  | [x] => x.1
  | x :: y :: t =>
      let p := lcp x.1 y.1 in
      if bool_decide (p = []) then p else fold_left (λ p z, lcp p z.1) t p
  end.

(** The loop of [getLastIndex]: how many of the following keys start with [c]. *)
Fixpoint same_head (c : byte) (kv : kvs) : option nat :=
  match kv with
  | [] => Some 0%nat
  | (k, _) :: t =>
      match k with
      | [] => None
      | d :: _ => if bool_decide (d = c) then Datatypes.S <$> same_head c t else Some 0%nat
      end
  end.

Definition getLastIndex (kv : kvs) : option (nat * nat) :=
  match kv with
  | [] => None
  | ([], _) :: _ => Some (lastChild, 1%nat)
  | (c :: _, _) :: t => i ← same_head c t; Some (Z.to_nat (b2z c), Datatypes.S i)
  end.

(** [mergeExtension] loads a hash node and starts again.  Its append is in place,
    too, but writes what the paths that share the array have there: the node it
    writes the key of is the only one at the end of the prefix. *)
Fixpoint mergeExtension (fuel : nat) (prefix : bytes) (sub : Node) : M (Node * option trie_err) :=
  match fuel with
  | O => m_panic
  | Datatypes.S fuel =>
      match sub with
      | ExtensionNode key next =>
          removeRef_node sub ;;
          let sn := ExtensionNode (prefix ++ key) next in
          addRef_node sn ;; mret (sn, None)
      | EmptyNode => mret (sub, None)
      | HashNode h _ =>
          n ← m_try (getFromStore h);
          match n with
          | inr e => mret (sub, Some e)
          | inl n => mergeExtension fuel prefix n
          end
      | _ =>
          if bool_decide (prefix = []) then mret (sub, None)
          else let e := ExtensionNode prefix sub in addRef_node e ;; mret (e, None)
      end
  end.

(** A node read from the store is not a hash node: two rounds are enough. *)
Definition merge_fuel : nat := 2.

Definition stripBranch (cs : list Node) : M (Node * option trie_err) :=
  let '(n, lastIndex) := count_children 0 cs in
  match n with
  | O => mret (EmptyNode, None)
  | 1%nat =>
      c ← m_lift (cs !! lastIndex);
      if bool_decide (lastIndex = lastChild) then mret (c, None)
      else mergeExtension merge_fuel [z2b (Z.of_nat lastIndex)] c
  | _ => addRef_node (BranchNode cs) ;; mret (BranchNode cs, None)
  end.

Section batch.
Context (putBatchIntoNode : Node → kvs → M (Node * Z * option trie_err)).

(** [iterateBatch] with the callback of [addToBranch]; [k] bounds the rounds. *)
Fixpoint iterateBatch (k : nat) (cs : list Node) (kv : kvs)
    : M (list Node * Z * option trie_err) :=
  match kv with
  | [] => mret (cs, 0, None)
  | _ =>
      match k with
      | O => m_panic
      | Datatypes.S k =>
          '(c, i) ← m_lift (getLastIndex kv);
          here ← m_lift (if bool_decide (c = lastChild) then Some (take i kv)
                         else stripPrefix 1 (take i kv));
          old ← m_lift (cs !! c);
          '(child, sub, err) ← putBatchIntoNode old here;
          let cs := <[c := child]> cs in
          match err with
          | Some _ => mret (cs, sub, err)
          | None =>
              '(cs, n, err) ← iterateBatch k cs (drop i kv);
              mret (cs, sub + n, err)
          end
      end
  end.

Definition addToBranch (cs : list Node) (kv : kvs) (inTrie : bool) : M (Node * Z * option trie_err) :=
  (if inTrie then removeRef_node (BranchNode cs) else mret tt) ;;
  '(cs, n, err) ← iterateBatch (length kv) cs kv;
  '(nd, bErr) ← stripBranch cs;
  mret (nd, n, match err with None => bErr | _ => err end).

(** [if err == nil { nd, err = t.mergeExtension(prefix, nd) }] *)
Definition merge_after (prefix : bytes) (r : Node * Z * option trie_err) : M (Node * Z * option trie_err) :=
  let '(nd, n, err) := r in
  match err with
  | Some _ => mret r
  | None => '(nd, err) ← mergeExtension merge_fuel prefix nd; mret (nd, n, err)
  end.

Fixpoint newSubTrieMany (prefix : bytes) (kv : kvs) (value : option bytes) : M (Node * Z * option trie_err) :=
  let many value :=
    (cs ← match value with
          | Some v =>
              let leaf := LeafNode v in
              addRef_node leaf ;; mret (<[lastChild := leaf]> (replicate childrenCount EmptyNode))
          | None => mret (replicate childrenCount EmptyNode)
          end;
     r ← addToBranch cs kv false;
     merge_after prefix r) in
  match kv with
  | [] => m_panic
  | ([], None) :: t =>
      match t with
      | [] => mret (EmptyNode, 1, None)
      | _ => '(node, n, err) ← newSubTrieMany prefix t None; mret (node, n + 1, err)
      end
  | ([], Some v) :: t =>
      match t with
      | [] => node ← newSubTrie prefix (LeafNode v) true; mret (node, 1, None)
      | _ => many (Some v)
      end
  | _ => many value
  end.

Definition putBatchIntoLeaf (v : bytes) (kv : kvs) : M (Node * Z * option trie_err) :=
  removeRef_node (LeafNode v) ;; newSubTrieMany [] kv (Some v).

Definition putBatchIntoExtensionNoPrefix (key : bytes) (next : Node) (kv : kvs) : M (Node * Z * option trie_err) :=
  match key with
  | [] => m_panic
  | k0 :: key =>
      s ← if bool_decide (key = []) then mret next else newSubTrie key next false;
      addToBranch (<[Z.to_nat (b2z k0) := s]> (replicate childrenCount EmptyNode)) kv false
  end.

Definition putBatchIntoExtension (key : bytes) (next : Node) (kv : kvs) : M (Node * Z * option trie_err) :=
  removeRef_node (ExtensionNode key next) ;;
  let common := lcpMany kv in
  let pref := lcp common key in
  if bool_decide (length pref = length key) then
    kv ← m_lift (stripPrefix (length key) kv);
    r ← putBatchIntoNode next kv;
    merge_after pref r
  else if negb (bool_decide (pref = [])) then
    kv ← m_lift (stripPrefix (length pref) kv);
    r ← putBatchIntoExtensionNoPrefix (drop (length pref) key) next kv;
    merge_after pref r
  else putBatchIntoExtensionNoPrefix key next kv.

Definition putBatchIntoEmpty (kv : kvs) : M (Node * Z * option trie_err) :=
  let common := lcpMany kv in
  kv ← m_lift (stripPrefix (length common) kv);
  newSubTrieMany common kv None.

Definition putBatchIntoHash (curr : Node) (h : bytes) (kv : kvs) : M (Node * Z * option trie_err) :=
  r ← m_try (getFromStore h);
  match r with
  | inl result => putBatchIntoNode result kv
  | inr e => mret (curr, 0, Some e)
  end.
End batch.

Fixpoint putBatchIntoNode (fuel : nat) (curr : Node) (kv : kvs) : M (Node * Z * option trie_err) :=
  match fuel with
  | O => m_panic
  | Datatypes.S fuel =>
      match curr with
      | LeafNode v => putBatchIntoLeaf (putBatchIntoNode fuel) v kv
      | BranchNode cs => addToBranch (putBatchIntoNode fuel) cs kv true
      | ExtensionNode key next => putBatchIntoExtension (putBatchIntoNode fuel) key next kv
      | HashNode h _ => putBatchIntoHash (putBatchIntoNode fuel) curr h kv
      | EmptyNode => putBatchIntoEmpty (putBatchIntoNode fuel) kv
      end
  end.

(** ** Proofs

    The nodes on the path, serialized; those found so far are kept when the
    search fails. *)
Fixpoint getProof (fuel : nat) (curr : Node) (path : bytes) (proofs : list bytes)
    : M (list bytes * (Node + trie_err)) :=
  match fuel with
  | O => m_panic
  | Datatypes.S fuel =>
      match curr with
      | LeafNode _ =>
          if bool_decide (path = []) then mret (proofs ++ [node_Bytes curr], inl curr)
          else mret (proofs, inr ErrNotFound)
      | BranchNode cs =>
          let proofs := proofs ++ [node_Bytes curr] in
          let '(i, path) := splitPath path in
          c ← m_lift (cs !! i);
          '(proofs, r) ← getProof fuel c path proofs;
          mret (proofs, match r with inl r => inl (BranchNode (<[i := r]> cs)) | inr e => inr e end)
      | ExtensionNode key next =>
          if has_prefix path key then
            let proofs := proofs ++ [node_Bytes curr] in
            '(proofs, r) ← getProof fuel next (drop (length key) path) proofs;
            mret (proofs, match r with inl r => inl (ExtensionNode key r) | inr e => inr e end)
          else mret (proofs, inr ErrNotFound)
      | HashNode h _ =>
          r ← m_try (getFromStore h);
          match r with
          | inl r => getProof fuel r path proofs
          | inr e => mret (proofs, inr e)
          end
      | EmptyNode => mret (proofs, inr ErrNotFound)
      end
  end.
End ops.

(** ** The trie's interface *)

(** Two stack frames for each nibble of a path of the greatest length, one for
    a node and one for the hash node in front of it, and four at the ends. *)
Definition trie_fuel : nat := 2 * Z.to_nat maxPathLength + 4.

(** On keys as lists, see [getWithPath]; [MptAlias] has it on slices. *)
Definition Trie_Get (t : Trie S) (key : bytes) : Trie S * res trie_err bytes :=
  if bool_decide (MaxKeyLength < Z.of_nat (length key)) then (t, Err (EMsg "key is too big")) else
  let '(m, r) :=
    getWithPath (t_Store t) (t_mode t) trie_fuel (t_root t) (toNibbles key) true (t_refcount t) in
  match r with
  | Ok (r, leaf, _) =>
      (mkTrie (t_Store t) r (t_mode t) m,
       match leaf with LeafNode v => Ok v | _ => Panic end)
  | Err e => (mkTrie (t_Store t) (t_root t) (t_mode t) m, Err e)
  | Panic => (mkTrie (t_Store t) (t_root t) (t_mode t) m, Panic)
  end.

(** The value is a Go slice. *)
Definition Trie_Put (t : Trie S) (key : bytes) (value : option bytes) : Trie S * res trie_err unit :=
  if bool_decide (key = []) then (t, Err (EMsg "key is empty")) else
  if bool_decide (MaxKeyLength < Z.of_nat (length key)) then (t, Err (EMsg "key is too big")) else
  if bool_decide (MaxValueLength < Z.of_nat (length (default [] value)))
  then (t, Err (EMsg "value is too big")) else
  match value with
  | None => (t, Err (EMsg "value is nil"))
  | Some v =>
      let '(m, r) :=
        putIntoNode (t_Store t) (t_mode t) trie_fuel (t_root t) (toNibbles key) (LeafNode v)
          (t_refcount t) in
      match r with
      | Ok r => (mkTrie (t_Store t) r (t_mode t) m, Ok tt)
      | Err e => (mkTrie (t_Store t) (t_root t) (t_mode t) m, Err e)
      | Panic => (mkTrie (t_Store t) (t_root t) (t_mode t) m, Panic)
      end
  end.

Definition Trie_Delete (t : Trie S) (key : bytes) : Trie S * res trie_err unit :=
  if bool_decide (MaxKeyLength < Z.of_nat (length key)) then (t, Err (EMsg "key is too big")) else
  let '(m, r) :=
    deleteFromNode (t_Store t) (t_mode t) trie_fuel (t_root t) (toNibbles key) (t_refcount t) in
  match r with
  | Ok (r, err) =>
      (mkTrie (t_Store t) r (t_mode t) m, match err with None => Ok tt | Some e => Err e end)
  | Err e => (mkTrie (t_Store t) (t_root t) (t_mode t) m, Err e)
  | Panic => (mkTrie (t_Store t) (t_root t) (t_mode t) m, Panic)
  end.

(** [MapToMPTBatch]; the keys carry the storage prefix. *)
Definition MapToMPTBatch (m : changes) : res unit kvs :=
  if forallb (λ p, bool_decide (p.1 ≠ [])) (map_to_list m) then
    Ok (merge_sort (λ a b, kle false a.1 b.1)
          (map (λ p, (toNibbles (drop 1 p.1), p.2)) (map_to_list m)))
  else Panic.

Definition PutBatch (t : Trie S) (b : kvs)
    : Trie S * res trie_err (Z * option trie_err) :=
  match b with
  | [] => (t, Ok (0, None))
  | _ =>
      let '(m, r) := putBatchIntoNode (t_Store t) (t_mode t) trie_fuel (t_root t) b (t_refcount t) in
      match r with
      | Ok (r, n, err) => (mkTrie (t_Store t) r (t_mode t) m, Ok (n, err))
      | Err e => (mkTrie (t_Store t) (t_root t) (t_mode t) m, Err e)
      | Panic => (mkTrie (t_Store t) (t_root t) (t_mode t) m, Panic)
      end
  end.

Definition StateRoot (t : Trie S) : bytes :=
  if isEmpty (t_root t) then zero256 else node_Hash (t_root t).

(** The nodes found so far come with the error. *)
Definition Trie_GetProof (t : Trie S) (key : bytes)
    : Trie S * res trie_err (list bytes * option trie_err) :=
  if bool_decide (MaxKeyLength < Z.of_nat (length key))
  then (t, Ok ([], Some (EMsg "key is too big"))) else
  let '(m, r) :=
    getProof (t_Store t) (t_mode t) trie_fuel (t_root t) (toNibbles key) [] (t_refcount t) in
  match r with
  | Ok (proof, inl r) => (mkTrie (t_Store t) r (t_mode t) m, Ok (proof, None))
  | Ok (proof, inr e) => (mkTrie (t_Store t) (t_root t) (t_mode t) m, Ok (proof, Some e))
  | Err e => (mkTrie (t_Store t) (t_root t) (t_mode t) m, Err e)
  | Panic => (mkTrie (t_Store t) (t_root t) (t_mode t) m, Panic)
  end.

(** ** Flush *)

(** [updateRefCount] of an entry with its new counter. *)
Definition updateRefCount (mode : Z) (st : MemCachedStore S) (h : bytes) (node : cachedNode)
    (index : Z) : res trie_err (MemCachedStore S * Z) :=
  let key := makeStorageKey h in
  '(data, cnt) ←
    (if bool_decide (cn_initial node = 0) then
       match getFromStore_data st mode key with
       | Ok data =>
           if bool_decide (length data < 4)%nat then Panic
           else Ok (data, i32 (le_val (drop (length data - 4) data)))
       | _ => Ok ([], 0)
       end
     else Ok ([], cn_initial node));
  let data := if bool_decide (data = []) then default [] (cn_bytes node) ++ [x01; x00; x00; x00; x00]
              else data in
  let cnt := i32 (cnt + cn_refcount node) in
  let put st data :=
    match Put st key data with Ok st => Ok (st, cnt) | _ => Panic end in
  if bool_decide (cnt < 0) then Panic
  else if bool_decide (cnt = 0) then
    if mode_GC mode then
      put st (<[(length data - 5)%nat := x00]> (take (length data - 4) data) ++ le_enc 4 index)
    else match Delete st key with Ok st => Ok (st, cnt) | _ => Panic end
  else put st (take (length data - 4) data ++ le_enc 4 cnt).

(** One round of the loop over the counters, which Go visits in any order. *)
Definition flush_entry (mode : Z) (index : Z) (s : MemCachedStore S * rcmap)
    (e : bytes * cachedNode) : res trie_err (MemCachedStore S * rcmap) :=
  let '(st, m) := s in
  let '(h, node) := e in
  if bool_decide (cn_refcount node = 0) then Ok (st, delete h m)
  else
    match cn_bytes node with
    | None => Panic
    | Some bs =>
        if mode_RC mode then
          '(st, cnt) ← updateRefCount mode st h node index;
          Ok (st, if bool_decide (cnt = 0) then delete h m
                  else <[h := mkCached (Some bs) cnt 0]> m)
        else if bool_decide (0 < cn_refcount node) then
          match Put st (makeStorageKey h) bs with
          | Ok st => Ok (st, <[h := mkCached (Some bs) (cn_initial node) 0]> m)
          | _ => Panic
          end
        else Ok (st, <[h := mkCached (Some bs) (cn_initial node) 0]> m)
    end.

Fixpoint flush_loop (mode : Z) (index : Z) (es : list (bytes * cachedNode))
    (s : MemCachedStore S * rcmap) : res trie_err (MemCachedStore S * rcmap) :=
  match es with
  | [] => Ok s
  | e :: es => s ← flush_entry mode index s e; flush_loop mode index es s
  end.

(** [order] is the order of the loop. *)
Definition Flush (t : Trie S) (index : Z) (order : list (bytes * cachedNode))
    : res trie_err (Trie S) :=
  '(st, m) ← flush_loop (t_mode t) index order (t_Store t, t_refcount t);
  Ok (mkTrie st (t_root t) (t_mode t) m).

(** ** Collapse *)

Fixpoint collapse (depth : nat) (node : Node) : Node :=
  match node with
  | HashNode _ _ | EmptyNode => node
  | _ =>
      match depth with
      | O => HashNode (node_Hash node) false
      | Datatypes.S depth =>
          match node with
          | BranchNode cs => BranchNode (map (collapse depth) cs)
          | ExtensionNode key next => ExtensionNode key (collapse depth next)
          | node => node
          end
      end
  end.

Definition Collapse (t : Trie S) (depth : Z) : res trie_err (Trie S) :=
  if bool_decide (depth < 0) then Panic
  else Ok (mkTrie (t_Store t) (collapse (Z.to_nat depth) (t_root t)) (t_mode t) ∅).
End trie.

(** [VerifyProof] builds a store from the nodes of the proof alone and looks
    the key up in it. The key may be of any length and one proof item may nest
    nodes up to the decoder's depth, hence the fuel. *)
Definition proof_store `{Digest} (proofs : list bytes) : MemCachedStore MemoryStore :=
  fold_left (λ st p, match Put st (makeStorageKey (DoubleSha256 p)) p with Ok st => st | _ => st end)
    proofs (NewMemCachedStore NewMemoryStore).

Definition verify_fuel (key : bytes) (proofs : list bytes) : nat :=
  4 * length key + 140 * Datatypes.S (length proofs) + trie_fuel.

Definition VerifyProof `{Digest} (rh key : bytes) (proofs : list bytes) : res unit (bytes * bool) :=
  match getWithPath (proof_store proofs) ModeAll (verify_fuel key proofs)
          (HashNode rh false) (toNibbles key) true ∅ with
  | (_, Ok (_, LeafNode v, _)) => Ok (v, true)
  | (_, Ok _) => Panic
  | (_, Err _) => Ok ([], false)
  | (_, Panic) => Panic
  end.
