(* ===== verification/MptSpec.v ===== *)
(** * MptSpec: what the trie operations do

    The trie in memory, whose nodes may be collapsed to hashes, represents a
    canonical tree ([rep]): every hash node stands for a tree all of whose
    nodes are in the store. Lookup, insertion and removal are proved against
    the tree: they never fail, they change exactly one path, and the reference
    counters move by the change of the number of occurrences of each node. *)

From S2P Require Import Prelude BinIO Storage Hash MptNode MptTree Mpt.
#[local] Open Scope Z_scope.

Definition cong (a b : Z) : Prop := ∃ k, a = b + k * 2 ^ 32.

Lemma cong_refl a : cong a a.
Proof. exists 0. lia. Qed.

Lemma cong_i32 a : cong (i32 a) a.
Proof.
  exists (- ((a + 2 ^ 31) / 2 ^ 32)). unfold wrap_s. change (32 - 1) with 31.
  pose proof (Z.div_mod (a + 2 ^ 31) (2 ^ 32) ltac:(lia)). lia.
Qed.

(** The counter of a node, absent nodes having none. *)
Definition cnt (m : rcmap) (h : bytes) : Z := default 0 (cn_refcount <$> m !! h).

Section spec.
Context `{Digest} {S : Type} `{!Store S} (st : MemCachedStore S) (mode : Z).

(** ** What the store holds *)

Definition data_ok (data : bytes) (u : Node) : Prop :=
  ∃ suf, data = node_Bytes u ++ suf ∧ (mode_RC mode = true → length suf = 5%nat).

Definition in_store (u : Node) : Prop :=
  ∃ data, getFromStore_data st mode (makeStorageKey (node_Hash u)) = Ok data ∧ data_ok data u.

Definition stored (t : Node) : Prop := ∀ u, u ∈ nodes t → in_store u.

(** The counter kept with a node in the store. *)
Definition stored_count (h : bytes) : Z :=
  match getFromStore_data st mode (makeStorageKey h) with
  | Ok data => i32 (le_val (drop (length data - 4) data))
  | _ => 0
  end.

Lemma stored_child cs i c : stored (BranchNode cs) → cs !! i = Some c → stored c.
Proof. intros Hs Hi u Hu. apply Hs. by eapply nodes_child. Qed.

Lemma stored_next k n : stored (ExtensionNode k n) → stored n.
Proof. intros Hs u Hu. apply Hs. by right. Qed.

(** ** Representation *)

Inductive rep : Node → Node → Prop :=
  | rep_leaf v : rep (LeafNode v) (LeafNode v)
  | rep_empty : rep EmptyNode EmptyNode
  | rep_ext k n t : rep n t → rep (ExtensionNode k n) (ExtensionNode k t)
  | rep_branch cs ts :
      length cs = length ts →
      (∀ i c t, cs !! i = Some c → ts !! i = Some t → rep c t) →
      rep (BranchNode cs) (BranchNode ts)
  | rep_hash t c : isEmpty t = false → stored t → rep (HashNode (node_Hash t) c) t.

Lemma rep_isEmpty n t : rep n t → isEmpty n = isEmpty t.
Proof. destruct 1 as [| | | |t c He _]; cbn; by rewrite ?He. Qed.

Lemma rep_child_enc n t : rep n t → child_enc n = child_enc t.
Proof.
  induction 1 as [v| |k n t Hr IH|cs ts Hl Hr IH|t c He Hs]; try done.
  - cbn [child_enc]. f_equal. cbn [node_Hash]. rewrite !node_Bytes_eq. cbn [NodeType body_enc].
    by rewrite IH.
  - cbn [child_enc]. f_equal. cbn [node_Hash]. rewrite !node_Bytes_eq. cbn [NodeType body_enc].
    do 3 f_equal. apply list_eq. intros i. rewrite !list_lookup_fmap.
    destruct (cs !! i) as [c|] eqn:Hc, (ts !! i) as [t|] eqn:Ht; cbn; [|..|done].
    + f_equal. by eapply IH.
    + apply lookup_lt_Some in Hc. apply lookup_ge_None in Ht. lia.
    + apply lookup_lt_Some in Ht. apply lookup_ge_None in Hc. lia.
  - cbn [child_enc node_Hash]. by destruct t.
Qed.

Lemma rep_Hash n t : rep n t → isEmpty t = false → node_Hash n = node_Hash t.
Proof.
  intros Hr He. pose proof (rep_child_enc _ _ Hr) as Hc. pose proof (rep_isEmpty _ _ Hr) as Hn.
  rewrite He in Hn. destruct n, t; cbn [child_enc isEmpty] in *; congruence.
Qed.

Lemma wf_not_is_hash d t : wf d t → ¬ is_hash t.
Proof. intros Hw Hx. by destruct Hw. Qed.

Lemma rep_collapse_child t : stored t → rep (collapse_child t) t.
Proof.
  intros Hs. unfold collapse_child. destruct (isEmpty t) eqn:He.
  - destruct t; try done. constructor.
  - by constructor.
Qed.

Lemma rep_shallow d t : wf d t → stored t → rep (shallow t) t.
Proof.
  intros Hw Hs. destruct t as [v|cs|k n|h c|]; cbn [shallow].
  - constructor.
  - constructor; [by rewrite length_map|]. intros i c t Hc Ht.
    rewrite list_lookup_fmap, Ht in Hc. injection Hc as <-.
    apply rep_collapse_child. by eapply stored_child.
  - constructor. apply rep_collapse_child. by eapply stored_next.
  - by apply wf_not_hash with (h := h) (c := c) in Hw.
  - constructor.
Qed.

(** ** Counters *)

Definition entry_ok (h : bytes) (c : cachedNode) : Prop :=
  - 2 ^ 31 <= cn_refcount c < 2 ^ 31
  ∧ (∃ b, cn_bytes c = Some b ∧ DoubleSha256 b = h)
  ∧ (cn_initial c = 0 ∨ mode_RC mode = true ∧ cn_initial c = stored_count h).

Definition rc_ok (m : rcmap) : Prop := map_Forall entry_ok m.

(** A run of [x] ends with a result [Q] holds of, where the last argument of
    [Q] is the change of the counters. *)
Definition wp {A} (x : M A) (Q : res trie_err A → (bytes → Z) → Prop) : Prop :=
  ∀ m, rc_ok m → ∃ m' r δ, x m = (m', r) ∧ rc_ok m' ∧ Q r δ
    ∧ ∀ h, cong (cnt m' h) (cnt m h + δ h).

Definition spec {A} (x : M A) (Q : A → (bytes → Z) → Prop) : Prop :=
  wp x (λ r δ, ∃ a, r = Ok a ∧ Q a δ).

Lemma wp_bind {A B} (x : M A) (f : A → M B) P Q :
  spec x P → (∀ a δ, P a δ → wp (f a) (λ r δ', Q r (λ h, δ h + δ' h))) → wp (x ≫= f) Q.
Proof.
  intros Hx Hf m Hm. destruct (Hx m Hm) as (m1 & r1 & δ1 & E1 & Hm1 & (a & -> & Ha) & Hc1).
  destruct (Hf a δ1 Ha m1 Hm1) as (m2 & r2 & δ2 & E2 & Hm2 & Hq & Hc2).
  exists m2, r2, (λ h, δ1 h + δ2 h). split; [|split; [done|split; [done|]]].
  - unfold mbind, M_bind. by rewrite E1.
  - intros h. destruct (Hc1 h) as [k1 H1], (Hc2 h) as [k2 H2]. exists (k1 + k2). lia.
Qed.

Lemma spec_bind {A B} (x : M A) (f : A → M B) P Q :
  spec x P → (∀ a δ, P a δ → spec (f a) (λ b δ', Q b (λ h, δ h + δ' h))) → spec (x ≫= f) Q.
Proof.
  intros Hx Hf. eapply wp_bind; [exact Hx|]. exact Hf.
Qed.

Lemma wp_ret {A} (a : A) (Q : res trie_err A → (bytes → Z) → Prop) :
  Q (Ok a) (λ _, 0) → wp (mret a) Q.
Proof.
  intros Hq m Hm. exists m, (Ok a), (λ _, 0). split; [done|split; [done|split; [done|]]].
  intros h. rewrite Z.add_0_r. apply cong_refl.
Qed.

Lemma spec_ret {A} (a : A) (Q : A → (bytes → Z) → Prop) : Q a (λ _, 0) → spec (mret a) Q.
Proof. intros Hq. apply wp_ret. eauto. Qed.

Lemma wp_fail {A} e (Q : res trie_err A → (bytes → Z) → Prop) :
  Q (Err e) (λ _, 0) → wp (m_fail e) Q.
Proof.
  intros Hq m Hm. exists m, (Err e), (λ _, 0). split; [done|split; [done|split; [done|]]].
  intros h. rewrite Z.add_0_r. apply cong_refl.
Qed.

Lemma spec_mono {A} (x : M A) (P Q : A → (bytes → Z) → Prop) :
  spec x P → (∀ a δ, P a δ → Q a δ) → spec x Q.
Proof.
  intros Hx Hpq m Hm. destruct (Hx m Hm) as (m' & r & δ & E & Hm' & (a & -> & Ha) & Hc).
  exists m', (Ok a), δ. eauto 10.
Qed.

Lemma spec_lift {A} (o : option A) (a : A) (Q : A → (bytes → Z) → Prop) :
  o = Some a → Q a (λ _, 0) → spec (m_lift o) Q.
Proof. intros ->. apply spec_ret. Qed.

Lemma spec_try {A} (x : M A) (P : A → (bytes → Z) → Prop) Q :
  spec x P → (∀ a δ, P a δ → Q (inl a) δ) → spec (m_try x) Q.
Proof.
  intros Hx Hpq m Hm. destruct (Hx m Hm) as (m' & r & δ & E & Hm' & (a & -> & Ha) & Hc).
  exists m', (Ok (inl a)), δ. unfold m_try. rewrite E. eauto 10.
Qed.

Lemma cnt_insert m h c h' :
  cnt (<[h := c]> m) h' = if bool_decide (h = h') then cn_refcount c else cnt m h'.
Proof.
  unfold cnt. case_bool_decide as Hh; [subst; by rewrite lookup_insert_eq|].
  by rewrite lookup_insert_ne.
Qed.

Lemma i32_range a : - 2 ^ 31 <= i32 a < 2 ^ 31.
Proof. apply (wrap_s_range 32). lia. Qed.

(** Both reference operations, for a change of [k]. *)
Lemma ref_step m h b k node :
  rc_ok m → m !! h = Some node → DoubleSha256 b = h →
  let m' := <[h := mkCached (Some (default b (cn_bytes node))) (cn_initial node)
                     (i32 (cn_refcount node + k))]> m in
  rc_ok m' ∧ ∀ h', cong (cnt m' h') (cnt m h' + if bool_decide (h = h') then k else 0).
Proof.
  intros Hm Hn Hb m'. destruct (Hm h node Hn) as (Hr & (b' & Hb1 & Hb2) & Hi). split.
  - apply map_Forall_insert_2; [|done]. split; [apply i32_range|]. split; [|done].
    rewrite Hb1. cbn. eauto.
  - intros h'. unfold m'. rewrite cnt_insert. case_bool_decide as Hh.
    + subst h'. unfold cnt. rewrite Hn. cbn. apply cong_i32.
    + rewrite Z.add_0_r. apply cong_refl.
Qed.

Lemma ref_new m h b k :
  rc_ok m → m !! h = None → DoubleSha256 b = h → - 2 ^ 31 <= k < 2 ^ 31 →
  let m' := <[h := mkCached (Some b) 0 k]> m in
  rc_ok m' ∧ ∀ h', cong (cnt m' h') (cnt m h' + if bool_decide (h = h') then k else 0).
Proof.
  intros Hm Hn Hb Hk m'. split.
  - apply map_Forall_insert_2; [|done]. split; [done|]. split; [|by left]. by exists b.
  - intros h'. unfold m'. rewrite cnt_insert. case_bool_decide as Hh.
    + subst h'. unfold cnt. rewrite Hn. apply cong_refl.
    + rewrite Z.add_0_r. apply cong_refl.
Qed.

Lemma spec_addRef h b :
  DoubleSha256 b = h → spec (addRef h b) (λ _ δ, ∀ h', δ h' = if bool_decide (h = h') then 1 else 0).
Proof.
  intros Hb m Hm. unfold addRef. destruct (m !! h) as [node|] eqn:Hn.
  - destruct (ref_step m h b 1 node Hm Hn Hb) as [Hok Hc].
    eexists _, _, _. split; [done|split; [exact Hok|split; [|exact Hc]]]. by eexists.
  - destruct (ref_new m h b 1 Hm Hn Hb ltac:(lia)) as [Hok Hc].
    eexists _, _, _. split; [done|split; [exact Hok|split; [|exact Hc]]]. by eexists.
Qed.

Lemma spec_removeRef h b :
  DoubleSha256 b = h → spec (removeRef h b) (λ _ δ, ∀ h', δ h' = if bool_decide (h = h') then -1 else 0).
Proof.
  intros Hb m Hm. unfold removeRef. destruct (m !! h) as [node|] eqn:Hn.
  - destruct (ref_step m h b (-1) node Hm Hn Hb) as [Hok Hc].
    eexists _, _, _. split; [done|split; [exact Hok|split; [|exact Hc]]]. by eexists.
  - destruct (ref_new m h b (-1) Hm Hn Hb ltac:(lia)) as [Hok Hc].
    eexists _, _, _. split; [done|split; [exact Hok|split; [|exact Hc]]]. by eexists.
Qed.

Lemma node_Hash_Bytes n : ¬ is_hash n → node_Hash n = DoubleSha256 (node_Bytes n).
Proof. by destruct n; cbn; intros Hn. Qed.

Lemma spec_addRef_node n t :
  rep n t → isEmpty t = false → ¬ is_hash n →
  spec (addRef_node n) (λ _ δ, ∀ h, δ h = one h t).
Proof.
  intros Hr He Hn. eapply spec_mono; [apply spec_addRef; by rewrite node_Hash_Bytes|].
  intros ? δ Hd h. cbn in Hd. rewrite Hd. unfold one. by rewrite (rep_Hash _ _ Hr He).
Qed.

Lemma spec_removeRef_node n t :
  rep n t → isEmpty t = false → ¬ is_hash n →
  spec (removeRef_node n) (λ _ δ, ∀ h, δ h = - one h t).
Proof.
  intros Hr He Hn. eapply spec_mono; [apply spec_removeRef; by rewrite node_Hash_Bytes|].
  intros ? δ Hd h. cbn in Hd. rewrite Hd. unfold one. rewrite (rep_Hash _ _ Hr He). by case_bool_decide.
Qed.

(** Step over a change of the counter of a node in memory, which [Hr] relates
    to the node it represents. *)
Ltac ref_step Hr δ Hδ :=
  eapply spec_bind;
  [first [apply (spec_addRef_node _ _ Hr) | apply (spec_removeRef_node _ _ Hr)];
    [done|by cbn; intros Hx]
  |intros ? δ Hδ; cbn beta in Hδ].

(** ** Loading a node *)

Lemma read_initial_suffix suf :
  length suf = 5%nat → read_initial (mkReader suf None) = i32 (le_val (drop 1 suf)).
Proof.
  intros Hl. destruct suf as [|x suf]; [done|]. unfold read_initial. rewrite ReadB_app.
  cbn [drop]. f_equal. injection Hl as Hl.
  pose proof (read_uint_le_app 4 (le_val suf) []) as Hr.
  pose proof (le_enc_val suf) as Hv. rewrite Hl in Hv. rewrite Hv, app_nil_r in Hr.
  unfold ReadU32LE. rewrite Hr; [done|]. pose proof (le_val_range suf) as Hb. by rewrite Hl in Hb.
Qed.

Lemma load_ok d t :
  wf d t → (d <= Z.to_nat maxPathLength)%nat → isEmpty t = false → in_store t →
  spec (getFromStore st mode (node_Hash t)) (λ n δ, n = shallow t ∧ ∀ h, δ h = 0).
Proof.
  intros Hw Hd He (data & Hg & suf & -> & Hs) m Hm.
  assert (node_ok t) as Hok by (eapply wf_node_ok; [done|unfold maxPathLength, MaxStorageKeyLen in *; lia]).
  unfold getFromStore. rewrite Hg. unfold NodeObject_DecodeBinary.
  change (Z.to_nat maxPathLength + 1)%nat with (Datatypes.S (Datatypes.S 135)).
  unfold NewBinReaderFromBuf. rewrite decode_node by done. cbn [r_err].
  set (m' := match _ with Some node => _ | None => m end).
  assert (rc_ok m' ∧ ∀ h, cnt m' h = cnt m h) as [Hm' Hc].
  { unfold m'. destruct (mode_RC mode) eqn:HRC; [|done].
    destruct (m !! node_Hash t) as [node|] eqn:Hn; [|done].
    specialize (Hs eq_refl). rewrite length_app, Hs, Nat.add_sub.
    destruct (Hm _ _ Hn) as (Hr & _ & _). split.
    - apply map_Forall_insert_2; [|done]. split; [done|]. split.
      + exists (node_Bytes t). cbn. rewrite take_app_length. split; [done|].
        symmetry. apply node_Hash_Bytes. by eapply wf_not_is_hash.
      + right. split; [done|]. cbn [cn_initial]. rewrite read_initial_suffix by done.
        unfold stored_count. rewrite Hg. rewrite length_app, Hs.
        replace (length (node_Bytes t) + 5 - 4)%nat with (length (node_Bytes t) + 1)%nat by lia.
        rewrite <- drop_drop. by rewrite drop_app_length.
    - intros h. rewrite cnt_insert. case_bool_decide; [|done]. subst h. unfold cnt. by rewrite Hn. }
  assert (mode_RC mode && bool_decide (length (node_Bytes t ++ suf) < 5)%nat = false) as ->.
  { destruct (mode_RC mode) eqn:HRC; [|done]. specialize (Hs eq_refl).
    cbn. rewrite bool_decide_eq_false_2; [done|]. rewrite length_app. lia. }
  exists m', (Ok (shallow t)), (λ _, 0). split.
  { by destruct t. }
  split; [done|]. split; [by eexists|]. intros h. rewrite Hc, Z.add_0_r. apply cong_refl.
Qed.

Lemma rep_branch_inv cs t :
  rep (BranchNode cs) t → ∃ ts, t = BranchNode ts ∧ length cs = length ts
    ∧ ∀ i c t, cs !! i = Some c → ts !! i = Some t → rep c t.
Proof. inversion 1; subst; eauto. Qed.

Lemma rep_ext_inv k n t :
  rep (ExtensionNode k n) t → ∃ tn, t = ExtensionNode k tn ∧ rep n tn.
Proof. inversion 1; subst; eauto. Qed.

Lemma rep_insert cs ts i r t' :
  rep (BranchNode cs) (BranchNode ts) → rep r t' →
  rep (BranchNode (<[i := r]> cs)) (BranchNode (<[i := t']> ts)).
Proof.
  intros (ts' & [= <-] & Hl & Hr)%rep_branch_inv Hr'.
  constructor; [by rewrite !length_insert|]. intros j c t Hc Ht.
  apply list_lookup_insert_Some in Hc as [(-> & <- & _)|[Hne Hc]].
  - apply list_lookup_insert_Some in Ht as [(_ & <- & _)|[? _]]; done.
  - apply list_lookup_insert_Some in Ht as [(? & _)|[_ Ht]]; [done|]. by eapply Hr.
Qed.

(** The child a path enters, in memory and in the tree. *)
Lemma branch_child cs ts d path i q :
  rep (BranchNode cs) (BranchNode ts) → wf_children d ts → nibbles path →
  (length path <= Datatypes.S d)%nat → splitPath path = (i, q) →
  ∃ c t, cs !! i = Some c ∧ ts !! i = Some t ∧ rep c t ∧ wf (child_depth i d) t
    ∧ nibbles q ∧ (length q <= child_depth i d)%nat ∧ (i <= lastChild)%nat.
Proof.
  intros (ts' & [= <-] & Hl & Hr)%rep_branch_inv [Hl' Hw] Hp Hd Hs.
  destruct (splitPath_nibbles _ _ _ Hp Hs) as [Hq Hi].
  destruct (splitPath_head _ _ _ Hp Hs) as [Hlast Hph].
  destruct (lookup_lt_is_Some_2 ts i) as [t Ht]; [unfold lastChild, childrenCount in *; lia|].
  destruct (lookup_lt_is_Some_2 cs i) as [c Hc]; [unfold lastChild, childrenCount in *; lia|].
  exists c, t. split_and!; try done; [by eapply Hr|by apply Hw|].
  unfold child_depth. case_bool_decide as Hx.
  - apply Hlast in Hx. clear Hph Hlast. subst path. cbn in Hs. injection Hs as <- <-. cbn. lia.
  - subst path. unfold head_path in Hd. rewrite bool_decide_eq_false_2 in Hd by done. cbn in Hd. lia.
Qed.

Lemma head_path_nibble k0 : nibble k0 → head_path (Z.to_nat (b2z k0)) [] = [k0].
Proof.
  intros Hk. pose proof (nibble_lt _ Hk). unfold head_path.
  rewrite bool_decide_eq_false_2 by lia. f_equal.
  rewrite Z2Nat.id by apply b2z_range. apply z2b_b2z.
Qed.

Lemma length_child_path (rest : bytes) i q d :
  nibbles rest → splitPath rest = (i, q) → (length rest <= Datatypes.S d)%nat → (length q <= child_depth i d)%nat.
Proof.
  intros Hp Hs Hd. destruct rest as [|x rest]; cbn in Hs; injection Hs as <- <-; [cbn; lia|].
  rewrite child_depth_lt; [cbn in Hd; lia|]. apply Forall_inv, nibble_lt in Hp. lia.
Qed.

(** A new branch over two children, the second of them new. *)
Lemma rep_fork i a x j b y :
  rep a x → rep b y → rep (BranchNode (fork j a i b)) (BranchNode (fork j x i y)).
Proof.
  intros Ha Hb. constructor; [unfold fork; by rewrite !length_insert|].
  intros k c t. unfold fork. intros Hc Ht.
  apply list_lookup_insert_Some in Hc as [(-> & <- & _)|[Hki Hc]].
  { apply list_lookup_insert_Some in Ht as [(_ & <- & _)|[? _]]; done. }
  apply list_lookup_insert_Some in Ht as [(? & _)|[_ Ht]]; [done|].
  apply list_lookup_insert_Some in Hc as [(-> & <- & _)|[Hkj Hc]].
  { apply list_lookup_insert_Some in Ht as [(_ & <- & _)|[? _]]; done. }
  apply list_lookup_insert_Some in Ht as [(? & _)|[_ Ht]]; [done|].
  apply lookup_replicate_1 in Hc as [-> _]. apply lookup_replicate_1 in Ht as [-> _]. constructor.
Qed.

(** The stack an operation needs below a node whose paths have [d] nibbles. *)
Definition stack (n : Node) (d : nat) : nat := 2 * d + if decide (is_hash n) then 2 else 1.

Lemma stack_shallow t d e : wf e t → (stack (shallow t) d = 2 * d + 1)%nat.
Proof. intros Hw. unfold stack. rewrite decide_False; [done|]. intros Hx. destruct Hw; exact Hx. Qed.

Lemma stack_node n d : ¬ is_hash n → (stack n d = 2 * d + 1)%nat.
Proof. intros Hn. unfold stack. by rewrite decide_False. Qed.

Lemma stack_hash h c d : (stack (HashNode h c) d = 2 * d + 2)%nat.
Proof. unfold stack. by rewrite decide_True by exact I. Qed.

Lemma stack_le n d : (stack n d <= 2 * d + 2)%nat.
Proof. unfold stack. case_decide; lia. Qed.

(** ** Insertion *)

Lemma rep_not_hash_core n t : rep n t → is_core t → isEmpty t = false ∧ isEmpty n = false.
Proof. intros Hr Hc. rewrite (rep_isEmpty _ _ Hr). by destruct t. Qed.

Lemma newSubTrie_spec path n t newVal :
  rep n t → is_core t → (newVal = true → ¬ is_hash n) →
  spec (newSubTrie path n newVal) (λ s δ, rep s (join path t) ∧
    ∀ h, δ h = (if newVal then one h t else 0) + occ h (join path t) - occ h t).
Proof.
  intros Hr Hc Hn. destruct (rep_not_hash_core _ _ Hr Hc) as [He _].
  unfold newSubTrie. eapply (spec_bind _ _ (λ _ δ, ∀ h, δ h = if newVal then one h t else 0)).
  { destruct newVal; [apply (spec_addRef_node n t); [done|done|by apply Hn]|by apply spec_ret]. }
  intros ? δ Hδ. cbn in Hδ. destruct (decide (path = [])) as [->|Hp].
  - rewrite bool_decide_eq_true_2 by done. apply spec_ret.
    assert (join [] t = t) as -> by (by destruct t). split; [done|].
    intros h. rewrite Hδ. lia.
  - rewrite bool_decide_eq_false_2 by done. rewrite join_core by done.
    assert (rep (ExtensionNode path n) (ExtensionNode path t)) as Hr' by (by constructor).
    ref_step Hr' δ' Hδ'. apply spec_ret.
    split; [done|]. intros h. rewrite Hδ, Hδ', occ_ext. lia.
Qed.

(** What an insertion into [t] at [path] leaves. *)
Definition put_post (t : Node) (d : nat) (path : bytes) (v : bytes) (n' : Node) (δ : bytes → Z) : Prop :=
  ∃ t', rep n' t' ∧ wf d t' ∧ isEmpty t' = false ∧ (is_core t → is_core t')
    ∧ updated t t' path (Some v) ∧ ∀ h, δ h = occ h t' - occ h t.

Lemma updated_empty_join q v : nibbles q → updated EmptyNode (join q (LeafNode v)) q (Some v).
Proof.
  intros Hq. rewrite <- (app_nil_r q) at 2. change EmptyNode with (join q EmptyNode).
  apply join_updated; [done|]. intros p ?. cbn. repeat case_bool_decide; done.
Qed.

Lemma isEmpty_join k n : isEmpty (join k n) = isEmpty n.
Proof. destruct n; cbn; try case_bool_decide; done. Qed.

Section values.
Context (v : bytes) (Hv : Z.of_nat (length v) <= MaxValueLength).

Lemma wf_join_leaf q d : nibbles q → (length q <= d)%nat → wf d (join q (LeafNode v)).
Proof using Hv. intros Hq Hl. apply (wf_join 0); [done|by constructor|lia]. Qed.

Lemma occ_join_leaf h q :
  one h (LeafNode v) + occ h (join q (LeafNode v)) - occ h (LeafNode v) = occ h (join q (LeafNode v)).
Proof. rewrite (occ_leaf h v). lia. Qed.

Lemma spec_new_leaf q :
  spec (newSubTrie q (LeafNode v) true) (λ s δ, rep s (join q (LeafNode v)) ∧
    ∀ h, δ h = occ h (join q (LeafNode v))).
Proof.
  eapply spec_mono; [apply (newSubTrie_spec q (LeafNode v) (LeafNode v) true); [apply rep_leaf|done|by intros _ ?]|].
  intros s δ [Hr Hδ]. split; [done|]. intros h. rewrite Hδ. apply occ_join_leaf.
Qed.

Lemma putIntoEmpty_spec d path :
  nibbles path → (length path <= d)%nat →
  spec (putIntoEmpty path (LeafNode v)) (put_post EmptyNode d path v).
Proof using Hv.
  intros Hp Hd. eapply spec_mono; [apply spec_new_leaf|]. intros s δ [Hr Hδ].
  exists (join path (LeafNode v)). split; [done|]. split; [by apply wf_join_leaf|].
  split; [apply isEmpty_join|]. split; [done|]. split; [by apply updated_empty_join|].
  intros h. rewrite Hδ, occ_empty. lia.
Qed.

Lemma putIntoLeaf_spec d w path :
  wf d (LeafNode w) → nibbles path → (length path <= d)%nat →
  spec (putIntoLeaf (LeafNode w) path (LeafNode v)) (put_post (LeafNode w) d path v).
Proof using Hv.
  intros Hw Hp Hd. destruct path as [|i q]; cbn [putIntoLeaf].
  - ref_step (rep_leaf w) δ1 H1. ref_step (rep_leaf v) δ2 H2. apply spec_ret. exists (LeafNode v). split; [constructor|].
    split; [by constructor|]. split; [done|]. split; [done|]. split.
    + intros p ?. cbn. repeat case_bool_decide; done.
    + intros h. rewrite H1, H2, !occ_leaf. lia.
  - inversion Hp as [|? ? Hi Hq]; subst. cbn [length] in Hd. destruct d as [|d]; [lia|].
    pose proof (nibble_lt _ Hi) as Hlt.
    eapply spec_bind; [apply spec_new_leaf|]. intros s δ1 [Hs H1].
    change (replicate childrenCount EmptyNode) with no_children.
    rewrite list_insert_insert_ne by lia.
    fold (fork lastChild (LeafNode w) (Z.to_nat (b2z i)) s).
    assert (rep (LeafNode w) (LeafNode w)) as Hrw by constructor.
    pose proof (rep_fork (Z.to_nat (b2z i)) _ _ lastChild _ _ Hrw Hs) as Hb.
    ref_step Hb δ2 H2. apply spec_ret. eexists. split; [exact Hb|].
    assert (isEmpty (join q (LeafNode v)) = false) as He by apply isEmpty_join.
    assert (wf (child_depth (Z.to_nat (b2z i)) d) (join q (LeafNode v))) as Hwj.
    { rewrite child_depth_lt by lia. apply wf_join_leaf; [done|lia]. }
    assert (wf (child_depth lastChild d) (LeafNode w)) as Hwl by (inversion Hw; by constructor).
    split; [by apply wf_fork; try done; lia|]. split; [done|]. split; [done|]. split.
    + change (LeafNode w) with (join (head_path lastChild []) (LeafNode w)) at 1.
      apply (fork_updated d (Z.to_nat (b2z i)) lastChild (LeafNode w) (join q (LeafNode v)))
        with (q := q); try done; try lia. by apply updated_empty_join.
    + intros h. rewrite H1, H2, occ_branch, sum_occ_fork by lia. lia.
Qed.

Lemma putIntoBranch_spec (rec : Node → bytes → Node → M Node) cs ts d path :
  rep (BranchNode cs) (BranchNode ts) → wf (Datatypes.S d) (BranchNode ts) → nibbles path →
  (length path <= Datatypes.S d)%nat →
  (∀ c t e q, rep c t → wf e t → (e <= d)%nat → nibbles q → (length q <= e)%nat →
     spec (rec c q (LeafNode v)) (put_post t e q v)) →
  spec (putIntoBranch rec cs path (LeafNode v)) (put_post (BranchNode ts) (Datatypes.S d) path v).
Proof.
  intros Hr Hw Hp Hd Hrec. destruct (wf_branch_inv _ _ Hw) as (d' & [= <-] & Hwc & H2).
  unfold putIntoBranch. destruct (splitPath path) as [i q] eqn:Hs.
  destruct (branch_child _ _ _ _ _ _ Hr Hwc Hp Hd Hs) as (c & t & Hc & Ht & Hrc & Hwt & Hq & Hlq & Hi).
  ref_step Hr δ1 H1. eapply spec_bind; [by apply (spec_lift _ c (λ a δ, a = c ∧ ∀ h, δ h = 0))|].
  intros ? δ2 [-> Hδ2].
  eapply spec_bind; [apply (Hrec c t (child_depth i d) q); try done; unfold child_depth; case_bool_decide; lia|].
  intros r δ3 (t' & Hr' & Hw' & He' & _ & Hu & Hδ3).
  pose proof (rep_insert _ _ i _ _ Hr Hr') as Hb. ref_step Hb δ4 H4. apply spec_ret.
  exists (BranchNode (<[i := t']> ts)). split; [done|]. split.
  - destruct (wf_children_insert _ _ _ _ t' Hwc Ht Hw') as [Hl Hw''].
    apply (wf_branch d); [done| |lia|done].
    pose proof (nchildren_insert _ _ _ t' Ht) as Hn. rewrite He' in Hn. destruct (isEmpty t); lia.
  - split; [done|]. split; [done|]. split; [by eapply branch_updated|].
    intros h. rewrite H1, Hδ2, Hδ3, H4, !occ_branch, (sum_occ_insert h _ _ _ _ Ht). lia.
Qed.

(** Splitting an extension where the new path leaves it. *)
Lemma split_extension e pref k0 kt rest n i q :
  wf e (ExtensionNode (pref ++ k0 :: kt) n) → nibbles (pref ++ rest) →
  (length (pref ++ rest) <= e)%nat → head rest ≠ Some k0 → splitPath rest = (i, q) →
  let b := BranchNode (fork (Z.to_nat (b2z k0)) (join kt n) i (join q (LeafNode v))) in
  wf e (join pref b)
  ∧ updated (ExtensionNode (pref ++ k0 :: kt) n) (join pref b) (pref ++ rest) (Some v)
  ∧ (i <= lastChild)%nat ∧ (Z.to_nat (b2z k0) <= lastChild)%nat ∧ i ≠ Z.to_nat (b2z k0).
Proof using Hv.
  intros (_ & Hk & Hle & Hc & Hn)%wf_ext_inv Hp Hd Hne Hs b.
  apply Forall_app in Hk as [Hpref [Hk0 Hkt]%Forall_cons]. apply Forall_app in Hp as [_ Hrest].
  rewrite length_app in *. cbn [length] in *.
  destruct (splitPath_nibbles _ _ _ Hrest Hs) as [Hq Hi]. pose proof (nibble_lt _ Hk0) as Hlt.
  assert (i ≠ Z.to_nat (b2z k0)) as Hik.
  { intros ->. destruct rest as [|x rest]; cbn [splitPath] in Hs; injection Hs as Hx _; [lia|].
    apply Hne. cbn. f_equal. by apply nibble_inj. }
  set (d := (e - length pref - 1)%nat).
  assert (isEmpty (join kt n) = false) as He1 by (rewrite isEmpty_join; by destruct n).
  assert (isEmpty (join q (LeafNode v)) = false) as He2 by apply isEmpty_join.
  assert (wf (child_depth (Z.to_nat (b2z k0)) d) (join kt n)) as Hw1.
  { rewrite child_depth_lt by lia. eapply wf_join; [done|done|lia]. }
  assert (wf (child_depth i d) (join q (LeafNode v))) as Hw2.
  { apply wf_join_leaf; [done|]. apply (length_child_path rest); [done|done|lia]. }
  split_and!; try done; [..|lia].
  - eapply wf_join; [done| |]; [by apply (wf_fork d); try done; lia|lia].
  - rewrite <- (join_core (pref ++ k0 :: kt) n) by (done || by destruct pref).
    rewrite <- join_app. apply join_updated; [done|].
    change (k0 :: kt) with ([k0] ++ kt). rewrite <- join_app, <- head_path_nibble by done.
    apply (fork_updated d) with (q := q); try done; try lia. by apply updated_empty_join.
Qed.

Lemma putIntoExtension_spec (rec : Node → bytes → Node → M Node) key n t e path :
  rep n t → wf e (ExtensionNode key t) → nibbles path → (length path <= e)%nat →
  (∀ c t d q, rep c t → wf d t → (d < e)%nat → nibbles q → (length q <= d)%nat →
     spec (rec c q (LeafNode v)) (put_post t d q v)) →
  spec (putIntoExtension rec key n path (LeafNode v)) (put_post (ExtensionNode key t) e path v).
Proof using Hv.
  intros Hr Hw Hp Hd Hrec. destruct (wf_ext_inv _ _ _ Hw) as (Hk & Hkn & Hle & Hc & Hn).
  unfold putIntoExtension. ref_step (rep_ext key _ _ Hr) δ1 H1.
  destruct (has_prefix path key) eqn:Hpre.
  - apply has_prefix_spec in Hpre as [q ->]. rewrite drop_app_length.
    rewrite length_app in Hd. apply Forall_app in Hp as [_ Hq].
    eapply spec_bind; [apply (Hrec n t (e - length key)%nat q); try done; [destruct key; [done|cbn in *; lia]|lia]|].
    intros r δ2 (t' & Hr' & Hw' & He' & Hc' & Hu & Hδ2). specialize (Hc' Hc).
    ref_step (rep_ext key _ _ Hr') δ3 H3. apply spec_ret. exists (ExtensionNode key t').
    split; [by constructor|]. split; [apply (wf_ext (e - length key)); [done..|lia|done|done]|].
    split; [done|]. split; [done|]. split; [by apply ext_updated|].
    intros h. rewrite H1, Hδ2, H3, !occ_ext. lia.
  - destruct (lcp_split _ _ Hpre) as (k0 & kt & rest & Hkey & Hpath & Hne). cbn zeta.
    generalize dependent (lcp key path). intros pref Hkey Hpath. clear Hpre. subst key path.
    rewrite !drop_app_length. destruct (splitPath rest) as [i q] eqn:Hs.
    destruct (split_extension _ _ _ _ _ _ _ _ Hw Hp Hd Hne Hs) as (Hwj & Hu & Hi & Hk0 & Hik).
    eapply spec_bind; [apply (newSubTrie_spec kt n t false); [done..|by intros [=]]|].
    intros s1 δ2 [Hs1 H2]. eapply spec_bind; [apply spec_new_leaf|]. intros s2 δ3 [Hs2 H3].
    change (replicate childrenCount EmptyNode) with no_children.
    fold (fork (Z.to_nat (b2z k0)) s1 i s2).
    pose proof (rep_fork i _ _ (Z.to_nat (b2z k0)) _ _ Hs1 Hs2) as Hb.
    ref_step Hb δ4 H4.
    assert (∀ h, occ h (ExtensionNode (pref ++ k0 :: kt) t) = one h (ExtensionNode (pref ++ k0 :: kt) t) + occ h t)
      as Hocc by (intros h; apply occ_ext).
    cbn [join] in Hwj, Hu. destruct (decide (pref = [])) as [->|Hpref].
    + rewrite bool_decide_eq_true_2 in Hwj, Hu by done.
      rewrite bool_decide_eq_false_2 by (cbn; lia). apply spec_ret. eexists.
      split; [exact Hb|]. split; [done|]. split; [done|]. split; [done|]. split; [done|].
      intros h. rewrite H1, H2, H3, H4, Hocc, occ_branch, sum_occ_fork by done. lia.
    + rewrite bool_decide_eq_false_2 in Hwj, Hu by done.
      rewrite bool_decide_eq_true_2 by (destruct pref; [done|cbn; lia]).
      ref_step (rep_ext pref _ _ Hb) δ5 H5. apply spec_ret. eexists.
      split; [by constructor|]. split; [done|]. split; [done|]. split; [done|]. split; [done|].
      intros h. rewrite H1, H2, H3, H4, H5, Hocc, occ_ext, occ_branch, sum_occ_fork by done. lia.
Qed.

Theorem putIntoNode_spec fuel n t d path :
  rep n t → wf d t → (d <= Z.to_nat maxPathLength)%nat → nibbles path → (length path <= d)%nat →
  (stack n d <= fuel)%nat →
  spec (putIntoNode st mode fuel n path (LeafNode v)) (put_post t d path v).
Proof using Hv.
  revert n t d path. induction fuel as [|fuel IH]; intros n t d path Hr Hw Hmax Hp Hd Hf.
  { unfold stack in Hf. destruct (decide _); lia. }
  cbn [putIntoNode]. destruct n as [w|cs|k n|h c|].
  - inversion Hr; subst. by apply putIntoLeaf_spec.
  - destruct (rep_branch_inv _ _ Hr) as (ts & -> & _).
    destruct (wf_branch_inv _ _ Hw) as (d' & -> & _).
    apply putIntoBranch_spec; [done..|]. intros c t' e q Hrc Hwe He Hq Hlq.
    apply IH; try done; [lia|]. pose proof (stack_le c e).
    rewrite stack_node in Hf by (by cbn; intros Hx). lia.
  - destruct (rep_ext_inv _ _ _ Hr) as (tn & -> & Hrn).
    apply putIntoExtension_spec; [done..|]. intros c t' e q Hrc Hwe He Hq Hlq.
    apply IH; try done; [lia|]. pose proof (stack_le c e).
    rewrite stack_node in Hf by (by cbn; intros Hx). lia.
  - inversion Hr as [| | | |? ? He Hs]; subst. unfold putIntoHash.
    eapply spec_bind; [exact (load_ok d t Hw Hmax He (Hs t (nodes_self t He)))|].
    intros ? δ [-> Hδ]. eapply spec_mono.
    { apply (IH (shallow t) t d path); try done; [by eapply rep_shallow|].
      rewrite (stack_shallow _ _ _ Hw). rewrite stack_hash in Hf. lia. }
    intros n' δ' (t' & Hr' & Hw' & He' & Hc & Hu & Hδ'). exists t'. split_and!; try done.
    intros h. rewrite Hδ, Hδ'. lia.
  - inversion Hr; subst. by apply putIntoEmpty_spec.
Qed.
End values.

(** ** Removal *)

Lemma rep_nchildren cs ts : rep (BranchNode cs) (BranchNode ts) → nchildren cs = nchildren ts.
Proof.
  intros (ts' & [= <-] & Hl & Hr)%rep_branch_inv. revert ts Hl Hr.
  induction cs as [|c cs IH]; intros [|t ts] Hl Hr; try done. cbn in Hl.
  rewrite !nchildren_cons, (IH ts ltac:(lia) (λ i, Hr (Datatypes.S i))).
  by rewrite (rep_isEmpty _ _ (Hr 0%nat c t eq_refl eq_refl)).
Qed.

Lemma count_children_spec cs k :
  (count_children k cs).1 = nchildren cs ∧ ((0 < nchildren cs)%nat →
    ∃ j c, (count_children k cs).2 = (k + j)%nat ∧ cs !! j = Some c ∧ isEmpty c = false).
Proof.
  revert k. induction cs as [|c cs IH]; intros k; [split; [done|cbn; lia]|].
  destruct (IH (k + 1)%nat) as [Hn Hx]. cbn [count_children].
  destruct (count_children (k + 1) cs) as [count index]. cbn [fst snd] in *. subst count.
  rewrite nchildren_cons. destruct (isEmpty c) eqn:Hc; cbn [fst snd].
  - split; [done|]. intros Hp. destruct (Hx Hp) as (j & c' & -> & Hj & Hc').
    exists (Datatypes.S j), c'. split; [lia|done].
  - split; [lia|]. intros _. case_bool_decide as H0.
    + exists 0%nat, c. split; [lia|done].
    + destruct Hx as (j & c' & -> & Hj & Hc'); [lia|]. exists (Datatypes.S j), c'. split; [lia|done].
Qed.

(** Putting a prefix in front of a node in memory. *)
Definition join_post (k : bytes) (t : Node) (r : Node * option trie_err) (δ : bytes → Z) : Prop :=
  ∃ n', r = (n', None) ∧ rep n' (join k t) ∧ ¬ is_hash n'
    ∧ ∀ h, δ h = occ h (join k t) - occ h t.

(** Loads a hash node, leaves any other. *)
Lemma load_child n t d :
  rep n t → wf d t → (d <= Z.to_nat maxPathLength)%nat →
  spec (match n with HashNode h _ => m_try (getFromStore st mode h) | n => mret (inl n) end)
    (λ r δ, ∃ n', r = inl n' ∧ rep n' t ∧ ¬ is_hash n' ∧ ∀ h, δ h = 0).
Proof.
  intros Hr Hw Hd. destruct n as [v|cs|k n|h c|].
  1-3,5: apply spec_ret; eexists; split; [done|]; split; [exact Hr|]; split; [by cbn; intros Hx|done].
  inversion Hr as [| | | |? ? He Hs]; subst.
  eapply spec_try; [exact (load_ok d t Hw Hd He (Hs t (nodes_self t He)))|].
  intros n δ [-> Hδ]. exists (shallow t). split; [done|]. split; [by eapply rep_shallow|].
  split; [|done]. intros Hx. destruct Hw; exact Hx.
Qed.

Lemma extend_core n t k :
  rep n t → is_core t → k ≠ [] →
  spec (let e := ExtensionNode k n in addRef_node e ;; mret (e, None)) (join_post k t).
Proof.
  intros Hr Hc Hk. ref_step (rep_ext k _ _ Hr) δ1 H1. apply spec_ret. eexists. split; [done|].
  rewrite join_core by done. split; [by constructor|]. split; [by cbn; intros Hx|].
  intros h. rewrite H1, occ_ext. lia.
Qed.

Lemma extend_extension key next tn k :
  rep next tn →
  spec (removeRef_node (ExtensionNode key next) ;;
        let e := ExtensionNode (k ++ key) next in addRef_node e ;; mret (e, None))
    (join_post k (ExtensionNode key tn)).
Proof.
  intros Hr. ref_step (rep_ext key _ _ Hr) δ1 H1. ref_step (rep_ext (k ++ key) _ _ Hr) δ2 H2.
  apply spec_ret. eexists. split; [done|]. cbn [join]. split; [by constructor|].
  split; [by cbn; intros Hx|]. intros h. rewrite H1, H2, !occ_ext. lia.
Qed.

Definition del_post (t : Node) (d : nat) (path : bytes) (r : Node * option trie_err) (δ : bytes → Z) : Prop :=
  ∃ n' t', r = (n', None) ∧ rep n' t' ∧ wf d t' ∧ (is_hash n' → is_core t')
    ∧ updated t t' path None ∧ ∀ h, δ h = occ h t' - occ h t.

Lemma deleteFromBranch_spec (rec : Node → bytes → M (Node * option trie_err)) cs ts d path :
  rep (BranchNode cs) (BranchNode ts) → wf (Datatypes.S d) (BranchNode ts) →
  (d <= Z.to_nat maxPathLength)%nat → nibbles path → (length path <= Datatypes.S d)%nat →
  (∀ c t e q, rep c t → wf e t → (e <= d)%nat → nibbles q → (length q <= e)%nat →
     spec (rec c q) (del_post t e q)) →
  spec (deleteFromBranch st mode rec cs path) (del_post (BranchNode ts) (Datatypes.S d) path).
Proof.
  intros Hr Hw Hmax Hp Hd Hrec. destruct (wf_branch_inv _ _ Hw) as (d' & [= <-] & Hwc & H2).
  unfold deleteFromBranch. destruct (splitPath path) as [i q] eqn:Hs.
  destruct (branch_child _ _ _ _ _ _ Hr Hwc Hp Hd Hs) as (c & t & Hc & Ht & Hrc & Hwt & Hq & Hlq & Hi).
  eapply spec_bind; [by apply (spec_lift _ c (λ a δ, a = c ∧ ∀ h, δ h = 0))|].
  intros ? δ0 [-> H0].
  eapply spec_bind; [apply (Hrec c t (child_depth i d) q); try done; unfold child_depth; case_bool_decide; lia|].
  intros ? δ1 (r & t' & -> & Hr' & Hw' & _ & Hu & H1).
  pose proof (wf_children_insert _ _ _ _ t' Hwc Ht Hw') as Hwc'.
  pose proof (rep_insert _ _ i _ _ Hr Hr') as Hrb.
  pose proof (nchildren_insert _ _ _ t' Ht) as Hn.
  assert (∀ h, sum_occ h (<[i := t']> ts) = sum_occ h ts - occ h t + occ h t') as Hsum
    by (intros h; by apply sum_occ_insert).
  pose proof (branch_updated _ _ _ _ _ _ _ Hp Hs Ht Hu) as Hu'.
  ref_step Hr δ2 H3. cbn zeta.
  set (cs' := <[i := r]> cs) in *. set (ts' := <[i := t']> ts) in *. clearbody cs' ts'.
  assert (same_contents (BranchNode ts') (strip ts')) as Hsame.
  { intros p Hpp. symmetry. by eapply t_lookup_strip. }
  destruct (count_children_spec cs' 0) as [Hcount Hindex].
  destruct (count_children 0 cs') as [count index]. cbn [fst snd] in *. subst count.
  rewrite (rep_nchildren _ _ Hrb) in *.
  assert (1 <= nchildren ts')%nat as Hpos by (destruct (isEmpty t), (isEmpty t'); lia).
  case_bool_decide as Hmany.
  - ref_step Hrb δ3 H4. apply spec_ret. exists (BranchNode cs'), (BranchNode ts').
    split; [done|]. split; [done|]. rewrite strip_many in Hsame by lia.
    split; [rewrite <- strip_many by lia; by apply wf_strip|]. split; [done|]. split; [done|].
    intros h. rewrite H0, H1, H3, H4, !occ_branch, Hsum. lia.
  - destruct Hindex as (j & cj & -> & Hj & Hcj); [lia|]. cbn [Nat.add].
    destruct (rep_branch_inv _ _ Hrb) as (? & [= <-] & Hlen & Hrj).
    destruct (lookup_lt_is_Some_2 ts' j) as [tj Htj]; [rewrite <- Hlen; by eapply lookup_lt_Some|].
    specialize (Hrj _ _ _ Hj Htj). rewrite (rep_isEmpty _ _ Hrj) in Hcj.
    destruct Hwc' as [Hl' Hwj]. pose proof (Hwj _ _ Htj) as Hwtj.
    assert (nchildren ts' = 1%nat) as Hone by lia.
    assert (∀ h, sum_occ h ts' = occ h tj) as Hsum1 by (intros h; by eapply sum_occ_one).
    pose proof (wf_strip d ts' (conj Hl' Hwj)) as Hws.
    rewrite (strip_one _ _ _ Hone Htj Hcj) in Hsame, Hws.
    assert (j <= lastChild)%nat as Hjl.
    { apply lookup_lt_Some in Htj. unfold lastChild, childrenCount in *. lia. }
    eapply spec_bind; [by apply (spec_lift _ cj (λ a δ, a = cj ∧ ∀ h, δ h = 0))|].
    intros ? δ3 [-> H4]. case_bool_decide as Hlast.
    + subst j. apply spec_ret. unfold head_path in *.
      rewrite bool_decide_eq_true_2 in Hsame, Hws by done.
      rewrite child_depth_last in Hwtj. destruct (wf_0 _ Hwtj) as [->|[w ->]]; [done|].
      cbn [join] in *. rewrite bool_decide_eq_true_2 in Hsame, Hws by done.
      exists cj, (LeafNode w). split; [done|]. split; [done|]. split; [done|]. split; [done|].
      split; [by eapply updated_to|].
      intros h. rewrite H0, H1, H3, H4, occ_branch. pose proof (Hsum1 h). pose proof (Hsum h). lia.
    + rewrite child_depth_lt in Hwtj by done. unfold head_path in *.
      rewrite bool_decide_eq_false_2 in Hsame, Hws by done.
      eapply spec_bind; [by eapply load_child|]. intros ? δ4 (n' & -> & Hn' & Hnh & H5).
      eapply (spec_mono _ (join_post [z2b (Z.of_nat j)] tj)).
      { destruct n' as [w|ds|k m|g b|]; [..|by destruct Hnh|].
        - apply extend_core; [done|by inversion Hn'|done].
        - apply extend_core; [done|by inversion Hn'|done].
        - destruct (rep_ext_inv _ _ _ Hn') as (tm & -> & Hrm).
          exact (extend_extension k m tm [z2b (Z.of_nat j)] Hrm).
        - rewrite <- (rep_isEmpty _ _ Hn') in Hcj. discriminate Hcj. }
      intros ? δ5 (n'' & -> & Hr'' & Hnh' & H6). eexists n'', _. split; [done|].
      split; [exact Hr''|]. split; [done|]. split; [done|]. split; [by eapply updated_to|].
      intros h. rewrite H0, H1, H3, H4, H5, H6, occ_branch. pose proof (Hsum1 h). pose proof (Hsum h). lia.
Qed.

Lemma deleteFromExtension_spec (rec : Node → bytes → M (Node * option trie_err)) key n t e path :
  rep n t → wf e (ExtensionNode key t) → nibbles path → (length path <= e)%nat →
  (∀ c t d q, rep c t → wf d t → (d < e)%nat → nibbles q → (length q <= d)%nat →
     spec (rec c q) (del_post t d q)) →
  spec (deleteFromExtension rec key n path) (del_post (ExtensionNode key t) e path).
Proof.
  intros Hr Hw Hp Hd Hrec. destruct (wf_ext_inv _ _ _ Hw) as (Hk & Hkn & Hle & Hc & Hn).
  unfold deleteFromExtension. destruct (has_prefix path key) eqn:Hpre; cbn [negb].
  - apply has_prefix_spec in Hpre as [q ->]. rewrite drop_app_length.
    rewrite length_app in Hd. apply Forall_app in Hp as [_ Hq].
    eapply spec_bind; [apply (Hrec n t (e - length key)%nat q); try done; [destruct key; [done|cbn in *; lia]|lia]|].
    intros ? δ1 (r & t' & -> & Hr' & Hw' & Hh & Hu & H1).
    ref_step (rep_ext key _ _ Hr) δ2 H2.
    assert (updated (ExtensionNode key t) (join key t') (key ++ q) None) as Hu'.
    { rewrite <- (join_core key t) by done. by apply join_updated. }
    assert (wf e (join key t')) as Hwj by (eapply wf_join; [done|done|lia]).
    eapply (spec_mono _ (λ r δ, ∃ n', r = (n', None) ∧ rep n' (join key t') ∧ ¬ is_hash n'
      ∧ ∀ h, δ h = occ h (join key t') - occ h t')).
    { destruct r as [w|ds|k m|g b|].
      - apply extend_core; [done|by inversion Hr'|done].
      - apply extend_core; [done|by inversion Hr'|done].
      - destruct (rep_ext_inv _ _ _ Hr') as (tm & -> & Hrm). exact (extend_extension k m tm key Hrm).
      - apply extend_core; [done|by apply Hh|done].
      - inversion Hr'; subst. apply spec_ret. eexists. split; [done|]. split; [constructor|].
        split; [by cbn; intros Hx|]. intros h. cbn [join]. lia. }
    intros ? δ3 (n' & -> & Hrn & Hnh & H3). eexists n', _. split; [done|]. split; [exact Hrn|].
    split; [done|]. split; [done|]. split; [done|]. intros h. rewrite H1, H2, H3, occ_ext. lia.
  - apply spec_ret. eexists _, _. split; [done|]. split; [by constructor|]. split; [done|].
    split; [by cbn; intros Hx|]. split; [|intros h; lia]. apply updated_same; [done|]. cbn.
    by rewrite Hpre.
Qed.

Theorem deleteFromNode_spec fuel n t d path :
  rep n t → wf d t → (d <= Z.to_nat maxPathLength)%nat → nibbles path → (length path <= d)%nat →
  (stack n d <= fuel)%nat →
  spec (deleteFromNode st mode fuel n path) (del_post t d path).
Proof.
  revert n t d path. induction fuel as [|fuel IH]; intros n t d path Hr Hw Hmax Hp Hd Hf.
  { unfold stack in Hf. destruct (decide _); lia. }
  cbn [deleteFromNode]. destruct n as [w|cs|k n|h c|].
  - inversion Hr; subst. case_bool_decide as Hpath.
    + subst path. ref_step (rep_leaf w) δ1 H1. apply spec_ret. exists EmptyNode, EmptyNode.
      split; [done|]. split; [constructor|]. split; [constructor|]. split; [done|]. split.
      * intros p ?. cbn. repeat case_bool_decide; done.
      * intros h. rewrite H1, occ_leaf, occ_empty. lia.
    + apply spec_ret. exists (LeafNode w), (LeafNode w). split; [done|]. split; [constructor|].
      split; [done|]. split; [done|]. split; [|intros h; lia]. apply updated_same; [done|].
      cbn. by case_bool_decide.
  - destruct (rep_branch_inv _ _ Hr) as (ts & -> & _).
    destruct (wf_branch_inv _ _ Hw) as (d' & -> & _).
    apply deleteFromBranch_spec; [done..|lia|done|done|]. intros c t' e q Hrc Hwe He Hq Hlq.
    apply IH; try done; [lia|]. pose proof (stack_le c e).
    rewrite stack_node in Hf by (by cbn; intros Hx). lia.
  - destruct (rep_ext_inv _ _ _ Hr) as (tn & -> & Hrn).
    apply deleteFromExtension_spec; [done..|]. intros c t' e q Hrc Hwe He Hq Hlq.
    apply IH; try done; [lia|]. pose proof (stack_le c e).
    rewrite stack_node in Hf by (by cbn; intros Hx). lia.
  - inversion Hr as [| | | |? ? He Hs]; subst.
    eapply spec_bind.
    { eapply (spec_try _ _ (λ r δ, r = inl (shallow t) ∧ ∀ h, δ h = 0));
        [exact (load_ok d t Hw Hmax He (Hs t (nodes_self t He)))|]. by intros ? δ [-> Hδ]. }
    intros ? δ [-> Hδ]. eapply spec_bind.
    { apply (IH (shallow t) t d path); try done; [by eapply rep_shallow|].
      rewrite (stack_shallow _ _ _ Hw). rewrite stack_hash in Hf. lia. }
    intros ? δ' (n' & t' & -> & Hr' & Hw' & Hh & Hu & Hδ'). apply spec_ret.
    rewrite bool_decide_eq_true_2 by done.
    exists n', t'. split; [done|]. split; [done|]. split; [done|]. split; [done|]. split; [done|].
    intros h. rewrite Hδ, Hδ'. lia.
  - inversion Hr; subst. apply spec_ret. exists EmptyNode, EmptyNode. split; [done|].
    split; [constructor|]. split; [constructor|]. split; [done|]. split; [|intros h; lia].
    by apply updated_same.
Qed.

(** ** Lookup *)

Lemma wp_bind_err {A B} (x : M A) (f : A → M B) P Q :
  wp x P →
  (∀ a δ, P (Ok a) δ → wp (f a) (λ r δ', Q r (λ h, δ h + δ' h))) →
  (∀ e δ, P (Err e) δ → Q (Err e) δ) → (∀ δ, ¬ P Panic δ) →
  wp (x ≫= f) Q.
Proof.
  intros Hx Hf He Hp m Hm. destruct (Hx m Hm) as (m1 & r1 & δ1 & E1 & Hm1 & Hr & Hc1).
  unfold mbind, M_bind. rewrite E1. destruct r1 as [a|e|].
  - destruct (Hf a δ1 Hr m1 Hm1) as (m2 & r2 & δ2 & E2 & Hm2 & Hq & Hc2).
    exists m2, r2, (λ h, δ1 h + δ2 h). split; [done|split; [done|split; [done|]]].
    intros h. destruct (Hc1 h) as [k1 H1], (Hc2 h) as [k2 H2]. exists (k1 + k2). lia.
  - exists m1, (Err e), δ1. split_and!; try done. by apply He.
  - by destruct (Hp δ1).
Qed.

Definition get_post (t : Node) (path : bytes) (r : res trie_err (Node * Node * bytes))
    (δ : bytes → Z) : Prop :=
  (∀ h, δ h = 0) ∧
  match t_lookup t path with
  | Some v => ∃ n' pre, r = Ok (n', LeafNode v, pre) ∧ rep n' t
  | None => r = Err ErrNotFound
  end.

Lemma get_post_zero t path r δ δ' :
  get_post t path r δ → (∀ h, δ' h = 0) → get_post t path r δ'.
Proof. intros [_ Hr] Hz. by split. Qed.

(** Both inner cases: the search goes on in a child [t] of [u]. *)
Lemma get_child u t path q x (wrap : Node → Node) (pre : bytes → bytes) :
  t_lookup u path = t_lookup t q → wp x (get_post t q) →
  (∀ n', rep n' t → rep (wrap n') u) →
  wp ('(r, res, prefix) ← x; mret (wrap r, res, pre prefix)) (get_post u path).
Proof.
  intros Hu Hx Hwrap. eapply wp_bind_err; [exact Hx| | |].
  - intros [[r res] prefix] δ [Hδ Hr]. apply wp_ret. unfold get_post. rewrite Hu.
    split; [intros h; rewrite Hδ; lia|]. destruct (t_lookup t q); [|done].
    destruct Hr as (n' & pre' & [= <- <- <-] & Hr'). eexists _, _. split; [done|]. by apply Hwrap.
  - intros e δ [Hδ Hr]. unfold get_post. rewrite Hu. split; [done|].
    destruct (t_lookup t q); [|done]. by destruct Hr as (? & ? & [=] & _).
  - intros δ [_ Hr]. destruct (t_lookup t q); [|done]. by destruct Hr as (? & ? & [=] & _).
Qed.

Lemma insert_rep cs ts i c t :
  rep (BranchNode cs) (BranchNode ts) → cs !! i = Some c → ts !! i = Some t →
  ∀ n', rep n' t → rep (BranchNode (<[i := n']> cs)) (BranchNode ts).
Proof.
  intros Hr Hc Ht n' Hn'. rewrite <- (list_insert_id ts i t Ht). by apply rep_insert.
Qed.

Theorem getWithPath_spec fuel n t d path :
  rep n t → wf d t → (d <= Z.to_nat maxPathLength)%nat → nibbles path →
  (stack n d <= fuel)%nat →
  wp (getWithPath st mode fuel n path true) (get_post t path).
Proof.
  revert n t d path. induction fuel as [|fuel IH]; intros n t d path Hr Hw Hmax Hp Hf.
  { unfold stack in Hf. destruct (decide _); lia. }
  cbn [getWithPath]. destruct n as [w|cs|k n|h c|].
  - inversion Hr; subst. case_bool_decide as Hpath.
    + subst path. apply wp_ret. split; [done|]. cbn. by eexists _, _.
    + apply wp_fail. split; [done|]. cbn. by rewrite bool_decide_eq_false_2.
  - destruct (rep_branch_inv _ _ Hr) as (ts & -> & Hl & Hrc).
    destruct (wf_branch_inv _ _ Hw) as (d' & -> & [Hlt Hwc] & _).
    destruct (splitPath path) as [i q] eqn:Hs. rewrite andb_false_r.
    destruct (splitPath_nibbles _ _ _ Hp Hs) as [Hq Hi].
    destruct (lookup_lt_is_Some_2 ts i) as [t Ht]; [unfold lastChild, childrenCount in *; lia|].
    destruct (lookup_lt_is_Some_2 cs i) as [c Hc]; [unfold lastChild, childrenCount in *; lia|].
    rewrite Hc. specialize (Hrc _ _ _ Hc Ht).
    eapply wp_bind; [by apply (spec_lift _ c (λ a δ, a = c ∧ ∀ h, δ h = 0))|].
    intros ? δ0 [-> Hδ0]. intros m Hm.
    destruct (get_child (BranchNode ts) t path q (getWithPath st mode fuel c q true)
      (λ r, BranchNode (<[i := r]> cs)) (λ prefix, z2b (Z.of_nat i) :: prefix)) with (m := m)
      as (m' & r & δ & E & Hm' & Hg & Hcg).
    + by rewrite t_lookup_branch, Hs, Ht.
    + apply (IH c t (child_depth i d') q); try done; [by apply Hwc|unfold child_depth; case_bool_decide; lia|].
      pose proof (stack_le c (child_depth i d')). rewrite stack_node in Hf by (by cbn; intros Hx).
      unfold child_depth in *. case_bool_decide; lia.
    + by eapply insert_rep.
    + done.
    + exists m', r, δ. split_and!; try done. eapply get_post_zero; [exact Hg|].
      intros h. destruct Hg as [Hδ _]. rewrite Hδ0, Hδ. lia.
  - destruct (rep_ext_inv _ _ _ Hr) as (tn & -> & Hrn).
    destruct (wf_ext_inv _ _ _ Hw) as (Hk & Hkn & Hle & Hc & Hn).
    rewrite !andb_false_r. cbn [negb andb]. destruct (has_prefix path k) eqn:Hpre.
    + apply has_prefix_spec in Hpre as [q ->]. rewrite drop_app_length.
      apply (get_child _ tn _ q _ (λ r, ExtensionNode k r) (λ prefix, k ++ prefix)).
      * apply t_lookup_ext_app.
      * apply Forall_app in Hp as [_ Hq]. apply (IH n tn (d - length k)%nat q); try done; [lia|].
        pose proof (stack_le n (d - length k)). rewrite stack_node in Hf by (by cbn; intros Hx).
        destruct k; [done|cbn in *; lia].
      * intros n' Hn'. by constructor.
    + apply wp_fail. split; [done|]. cbn. by rewrite Hpre.
  - inversion Hr as [| | | |? ? He Hs]; subst.
    eapply wp_bind.
    { eapply (spec_try _ _ (λ r δ, r = inl (shallow t) ∧ ∀ h, δ h = 0));
        [exact (load_ok d t Hw Hmax He (Hs t (nodes_self t He)))|]. by intros ? δ [-> Hδ]. }
    intros ? δ [-> Hδ] m Hm.
    destruct (IH (shallow t) t d path) with (m := m) as (m' & r & δ' & E & Hm' & Hg & Hcg);
      try done; [by eapply rep_shallow| |].
    { rewrite (stack_shallow _ _ _ Hw). rewrite stack_hash in Hf. lia. }
    exists m', r, δ'. split_and!; try done. eapply get_post_zero; [exact Hg|].
    intros h. destruct Hg as [Hδ' _]. rewrite Hδ, Hδ'. lia.
  - inversion Hr; subst. apply wp_fail. by split.
Qed.
End spec.

(** [ref_step] for proofs outside of the section. *)
Ltac ref_step Hr δ Hδ :=
  eapply spec_bind;
  [first [apply (spec_addRef_node _ _ _ _ Hr) | apply (spec_removeRef_node _ _ _ _ Hr)];
    [done|by cbn; intros Hx]
  |intros ? δ Hδ; cbn beta in Hδ].
