(* ===== verification/MptBatch.v ===== *)
(** * MptBatch: batches of changes

    [putBatchIntoNode] and the functions below it: a sorted batch of changes
    is applied to the tree in one descent. The result holds exactly what the
    changes, one after the other, would leave. *)

From S2P Require Import Prelude BinIO Storage Hash MptNode MptTree Mpt MptSpec.
#[local] Open Scope Z_scope.

(** ** Sorted changes *)

Definition kv_lt (a b : bytes * option bytes) : Prop := blt a.1 b.1.

Definition kv_item_ok (d : nat) (x : bytes * option bytes) : Prop :=
  nibbles x.1 ∧ (length x.1 <= d)%nat ∧ Z.of_nat (length (default [] x.2)) <= MaxValueLength.

Definition kv_ok (d : nat) (kv : kvs) : Prop := StronglySorted kv_lt kv ∧ Forall (kv_item_ok d) kv.

Fixpoint kv_get (kv : kvs) (p : bytes) : option (option bytes) :=
  match kv with
  | [] => None
  | (k, o) :: kv => if bool_decide (k = p) then Some o else kv_get kv p
  end.

(** [t'] holds what the changes make of the contents of [t]. *)
Definition batch_updated (kv : kvs) (t t' : Node) : Prop :=
  ∀ p, nibbles p → t_lookup t' p = match kv_get kv p with Some o => o | None => t_lookup t p end.

Lemma kv_get_Some kv p o : kv_get kv p = Some o → (p, o) ∈ kv.
Proof.
  induction kv as [|[k v] kv IH]; cbn; [done|]. case_bool_decide as Hk.
  - intros [= ->]. subst. left.
  - intros Hp. right. by apply IH.
Qed.

Lemma kv_get_app kv1 kv2 p :
  kv_get (kv1 ++ kv2) p = match kv_get kv1 p with Some o => Some o | None => kv_get kv2 p end.
Proof. induction kv1 as [|[k v] kv1 IH]; cbn; [done|]. by case_bool_decide. Qed.

Lemma sorted_app_ne kv1 kv2 x y :
  StronglySorted kv_lt (kv1 ++ kv2) → x ∈ kv1 → y ∈ kv2 → kv_lt x y.
Proof.
  induction kv1 as [|z kv1 IH]; intros Hs Hx Hy; [by apply not_elem_of_nil in Hx|].
  cbn in Hs. apply StronglySorted_inv in Hs as [Hs Hz].
  apply elem_of_cons in Hx as [->|Hx]; [|by apply IH].
  rewrite Forall_forall in Hz. apply Hz. apply elem_of_app. by right.
Qed.

Lemma sorted_app_inv kv1 kv2 :
  StronglySorted kv_lt (kv1 ++ kv2) → StronglySorted kv_lt kv1 ∧ StronglySorted kv_lt kv2.
Proof.
  induction kv1 as [|z kv1 IH]; intros Hs; cbn in *; [by split; [constructor|]|].
  apply StronglySorted_inv in Hs as [Hs Hz]. destruct (IH Hs) as [H1 H2]. split; [|done].
  constructor; [done|]. by apply Forall_app in Hz as [Hz _].
Qed.

Lemma kv_ok_app d kv1 kv2 : kv_ok d (kv1 ++ kv2) → kv_ok d kv1 ∧ kv_ok d kv2.
Proof.
  intros [Hs [H1 H2]%Forall_app]. apply sorted_app_inv in Hs as [Hs1 Hs2]. by split; split.
Qed.

Lemma batch_updated_app kv1 kv2 t1 t2 t3 :
  StronglySorted kv_lt (kv1 ++ kv2) →
  batch_updated kv1 t1 t2 → batch_updated kv2 t2 t3 → batch_updated (kv1 ++ kv2) t1 t3.
Proof.
  intros Hs H1 H2 p Hp. rewrite (H2 p Hp), kv_get_app.
  destruct (kv_get kv1 p) as [o|] eqn:E1; destruct (kv_get kv2 p) as [o'|] eqn:E2.
  - exfalso. apply kv_get_Some in E1, E2. pose proof (sorted_app_ne _ _ _ _ Hs E1 E2) as Hlt.
    by apply blt_irrefl in Hlt.
  - by rewrite (H1 p Hp), E1.
  - done.
  - by rewrite (H1 p Hp), E1.
Qed.

Lemma batch_updated_from kv t u t' : same_contents t u → batch_updated kv t t' → batch_updated kv u t'.
Proof. intros Hs Hb p Hp. rewrite (Hb p Hp). by rewrite Hs. Qed.

Lemma batch_updated_to kv t t' u : same_contents t' u → batch_updated kv t t' → batch_updated kv t u.
Proof. intros Hs Hb p Hp. rewrite <- (Hs p Hp). by apply Hb. Qed.

(** ** Common prefixes *)

Definition kv_pre (k : bytes) (kv : kvs) : kvs := map (λ x, (k ++ x.1, x.2)) kv.

Lemma kv_get_pre k kv p :
  kv_get (kv_pre k kv) p = if has_prefix p k then kv_get kv (drop (length k) p) else None.
Proof.
  induction kv as [|[l v] kv IH]; [cbn; by destruct (has_prefix p k)|].
  change (kv_pre k ((l, v) :: kv)) with ((k ++ l, v) :: kv_pre k kv). cbn [kv_get]. rewrite IH.
  destruct (has_prefix p k) eqn:E.
  - apply has_prefix_spec in E as [q ->]. rewrite drop_app_length.
    destruct (decide (l = q)) as [->|Hne]; [by rewrite !bool_decide_eq_true_2|].
    rewrite (bool_decide_eq_false_2 (l = q)) by done.
    rewrite bool_decide_eq_false_2; [done|]. by intros ?%app_inv_head.
  - rewrite bool_decide_eq_false_2; [done|]. intros <-. by rewrite has_prefix_app in E.
Qed.

Lemma batch_updated_join k kv n r :
  nibbles k → batch_updated kv n r → batch_updated (kv_pre k kv) (join k n) (join k r).
Proof.
  intros Hk Hb p Hp. rewrite !t_lookup_join, kv_get_pre. destruct (has_prefix p k) eqn:E; [|done].
  apply has_prefix_spec in E as [q ->]. rewrite drop_app_length. apply Hb.
  by apply Forall_app in Hp as [_ Hp].
Qed.

Lemma kv_pre_ok k kv d :
  kv_ok d (kv_pre k kv) → kv ≠ [] → nibbles k ∧ (length k <= d)%nat ∧ kv_ok (d - length k) kv.
Proof.
  intros [Hs Hf] Hne. split; [|split].
  - destruct kv as [|x kv]; [done|]. apply Forall_inv in Hf as (Hn & _). by apply Forall_app in Hn as [Hn _].
  - destruct kv as [|x kv]; [done|]. apply Forall_inv in Hf as (_ & Hl & _). cbn in Hl.
    rewrite length_app in Hl. lia.
  - clear Hne. split.
    + induction kv as [|x kv IH]; cbn in *; [constructor|].
      apply StronglySorted_inv in Hs as [Hs Hx]. apply Forall_cons in Hf as [_ Hf].
      constructor; [by apply IH|]. unfold kv_pre in Hx. rewrite Forall_map in Hx.
      eapply Forall_impl; [exact Hx|]. intros y. unfold kv_lt, blt. cbn. by rewrite bcompare_app.
    + unfold kv_pre in Hf. rewrite Forall_map in Hf. eapply Forall_impl; [exact Hf|].
      intros [l v] (Hn & Hl & Hv). cbn in *. rewrite length_app in Hl.
      apply Forall_app in Hn as [_ Hn]. split; [done|]. split; [cbn; lia|done].
Qed.

Lemma stripPrefix_pre k kv : stripPrefix (length k) (kv_pre k kv) = Some kv.
Proof.
  unfold stripPrefix. assert (forallb (λ x, bool_decide (length k <= length x.1)%nat) (kv_pre k kv) = true) as ->.
  { apply forallb_forall. intros x Hx. apply in_map_iff in Hx as ([l v] & <- & _). cbn.
    apply bool_decide_eq_true_2. rewrite length_app. lia. }
  f_equal. unfold kv_pre. rewrite map_map. rewrite <- (map_id kv) at 2. apply map_ext.
  intros [l v]. cbn. by rewrite drop_app_length.
Qed.

Lemma all_prefix_pre k kv :
  Forall (λ x, has_prefix x.1 k = true) kv → ∃ kv', kv = kv_pre k kv' ∧ length kv' = length kv.
Proof.
  induction 1 as [|[l v] kv Hx _ (kv' & -> & Hl)]; [by exists []|].
  apply has_prefix_spec in Hx as [q Hq]. cbn in Hq. subst l.
  exists ((q, v) :: kv'). cbn. by rewrite Hl.
Qed.

Lemma has_prefix_trans a b c : has_prefix a b = true → has_prefix b c = true → has_prefix a c = true.
Proof.
  rewrite !has_prefix_spec. intros [x ->] [y ->]. exists (y ++ x). by rewrite app_assoc.
Qed.

Lemma lcp_prefix a b : has_prefix a (lcp a b) = true ∧ has_prefix b (lcp a b) = true.
Proof.
  revert b. induction a as [|x a IH]; intros [|y b]; cbn; try done.
  case_bool_decide as Hxy; [|done]. subst. cbn. rewrite bool_decide_eq_true_2 by done. apply IH.
Qed.

Lemma lcpMany_prefix kv : Forall (λ x, has_prefix x.1 (lcpMany kv) = true) kv.
Proof.
  destruct kv as [|x [|y kv]]; cbn [lcpMany]; [done| |].
  { apply Forall_singleton. apply has_prefix_spec. exists []. by rewrite app_nil_r. }
  case_bool_decide as Hp.
  { rewrite Hp. apply Forall_forall. intros z _. apply has_prefix_nil. }
  assert (∀ (l : kvs) p, has_prefix p (fold_left (λ p z, lcp p z.1) l p) = true
    ∧ Forall (λ z, has_prefix z.1 (fold_left (λ p z, lcp p z.1) l p) = true) l) as Hfold.
  { clear. intros l. induction l as [|z l IH]; intros p; cbn [fold_left].
    - split; [|done]. apply has_prefix_spec. exists []. by rewrite app_nil_r.
    - destruct (lcp_prefix p z.1) as [Hp Hz]. destruct (IH (lcp p z.1)) as [H1 H2].
      split; [by eapply has_prefix_trans|]. constructor; [by eapply has_prefix_trans|done]. }
  destruct (Hfold kv (lcp x.1 y.1)) as [H1 H2]. destruct (lcp_prefix x.1 y.1) as [Hx Hy].
  constructor; [by eapply has_prefix_trans|]. constructor; [by eapply has_prefix_trans|done].
Qed.

(** ** The groups of a branch *)

Definition kv_head (i : nat) (kv : kvs) : kvs := map (λ x, (head_path i x.1, x.2)) kv.

Lemma kv_get_head i kv p j q :
  (i <= lastChild)%nat → (i = lastChild → Forall (λ x, x.1 = []) kv) → nibbles p → splitPath p = (j, q) →
  kv_get (kv_head i kv) p = if bool_decide (j = i) then kv_get kv q else None.
Proof.
  intros Hi Hlast Hp Hs. destruct (splitPath_head _ _ _ Hp Hs) as [Hj ->].
  assert (∀ x, x ∈ kv → i = lastChild → x.1 = []) as Hx.
  { intros x Hx Hil. specialize (Hlast Hil). rewrite Forall_forall in Hlast. by apply Hlast. }
  clear Hlast. induction kv as [|[l v] kv IH]; [cbn; by case_bool_decide|].
  change (kv_head i ((l, v) :: kv)) with ((head_path i l, v) :: kv_head i kv). cbn [kv_get].
  rewrite IH by (intros x Hin; apply Hx; by right). clear IH.
  assert (splitPath (head_path i l) = (i, l)) as Hsi.
  { apply splitPath_head_path; [done|]. intros Hil. apply (Hx (l, v)); [left|done]. }
  destruct (decide (j = i)) as [->|Hji].
  - rewrite (bool_decide_eq_true_2 (i = i)) by done.
    destruct (decide (l = q)) as [->|Hne]; [by rewrite !bool_decide_eq_true_2|].
    rewrite (bool_decide_eq_false_2 (l = q)) by done.
    rewrite bool_decide_eq_false_2; [done|]. intros Heq. rewrite Heq, Hs in Hsi. congruence.
  - rewrite (bool_decide_eq_false_2 (j = i)) by done.
    rewrite bool_decide_eq_false_2; [done|]. intros Heq. rewrite Heq, Hs in Hsi. congruence.
Qed.

Lemma batch_updated_head ts i c r kv :
  (i <= lastChild)%nat → (i = lastChild → Forall (λ x, x.1 = []) kv) →
  ts !! i = Some c → batch_updated kv c r →
  batch_updated (kv_head i kv) (BranchNode ts) (BranchNode (<[i := r]> ts)).
Proof.
  intros Hi Hlast Hc Hb p Hp. rewrite !t_lookup_branch. destruct (splitPath p) as [j q] eqn:Hs.
  rewrite (kv_get_head _ _ _ _ _ Hi Hlast Hp Hs).
  destruct (splitPath_nibbles _ _ _ Hp Hs) as [Hq _].
  case_bool_decide as Hj.
  - subst j. rewrite list_lookup_insert_eq by (by eapply lookup_lt_Some). rewrite Hc. cbn. by apply Hb.
  - by rewrite list_lookup_insert_ne.
Qed.

Lemma head_path_cons x k : nibble x → head_path (Z.to_nat (b2z x)) k = x :: k.
Proof.
  intros Hx. pose proof (nibble_lt _ Hx). unfold head_path.
  rewrite bool_decide_eq_false_2 by lia. f_equal. rewrite Z2Nat.id by apply b2z_range. apply z2b_b2z.
Qed.

Lemma kv_head_pre x kv : nibble x → kv_head (Z.to_nat (b2z x)) kv = kv_pre [x] kv.
Proof. intros Hx. apply map_ext. intros [k v]. cbn. by rewrite head_path_cons. Qed.

Lemma nil_first k o kv : StronglySorted kv_lt ((k, o) :: kv) → Forall (λ x, x.1 ≠ []) kv.
Proof.
  intros [_ Hx]%StronglySorted_inv. eapply Forall_impl; [exact Hx|]. intros [l v] Hl Hn. cbn in Hn.
  subst l. unfold kv_lt, blt in Hl. cbn in Hl. by destruct k.
Qed.

Lemma same_head_spec c kv :
  Forall (λ x, x.1 ≠ []) kv →
  ∃ n kv', same_head c kv = Some n ∧ take n kv = kv_pre [c] kv' ∧ length kv' = n
    ∧ (n <= length kv)%nat.
Proof.
  induction 1 as [|[k v] kv Hk _ (n & kv' & IH & Ht & Hl & Hle)]; [by exists 0%nat, []|].
  destruct k as [|d k]; [done|]. cbn [same_head]. case_bool_decide as Hd.
  - subst d. rewrite IH. exists (S n), ((k, v) :: kv'). cbn. rewrite Ht. split_and!; try done; lia.
  - exists 0%nat, []. split_and!; try done. cbn. lia.
Qed.

Lemma getLastIndex_spec d kv :
  kv ≠ [] → kv_ok (S d) kv →
  ∃ i n kv', getLastIndex kv = Some (i, n) ∧ (0 < n <= length kv)%nat ∧ (i <= lastChild)%nat
    ∧ take n kv = kv_head i kv' ∧ length kv' = n
    ∧ (if bool_decide (i = lastChild) then Some (take n kv) else stripPrefix 1 (take n kv)) = Some kv'
    ∧ (i = lastChild → Forall (λ x, x.1 = []) kv') ∧ kv_ok (child_depth i d) kv'.
Proof.
  intros Hne Hok. destruct kv as [|[[|c k] o] kv]; [done| |].
  - exists lastChild, 1%nat, [([], o)]. cbn. split; [done|]. split; [lia|]. split; [done|].
    split; [by rewrite take_0|]. split; [done|]. split; [by rewrite take_0|]. split; [by repeat constructor|].
    destruct Hok as [_ Hf]. apply Forall_inv in Hf as (_ & _ & Hv).
    split; [repeat constructor|]. apply Forall_singleton. split; [constructor|]. split; [cbn; lia|done].
  - pose proof (nil_first _ _ _ (proj1 Hok)) as Hnil.
    destruct (same_head_spec c kv Hnil) as (n & kv' & Hs & Ht & Hl & Hle).
    assert (nibble c) as Hc.
    { destruct Hok as [_ Hf]. apply Forall_inv in Hf as (Hn & _). by apply Forall_inv in Hn. }
    pose proof (nibble_lt _ Hc) as Hlt.
    exists (Z.to_nat (b2z c)), (S n), ((k, o) :: kv'). cbn [getLastIndex]. rewrite Hs. cbn [mbind option_bind].
    assert (take (S n) ((c :: k, o) :: kv) = kv_pre [c] ((k, o) :: kv')) as Htake.
    { cbn [take kv_pre map fst snd app]. by rewrite Ht. }
    rewrite Htake. split; [done|]. split; [cbn; lia|]. split; [lia|].
    split; [by rewrite kv_head_pre|]. split; [cbn; by rewrite Hl|].
    split; [rewrite bool_decide_eq_false_2 by lia; exact (stripPrefix_pre [c] _)|]. split; [lia|].
    rewrite <- (take_drop (S n) ((c :: k, o) :: kv)), Htake in Hok.
    apply kv_ok_app in Hok as [Hok _]. apply kv_pre_ok in Hok as (_ & _ & Hok); [|done].
    rewrite child_depth_lt by lia. cbn [length] in Hok. by replace (S d - 1)%nat with d in Hok by lia.
Qed.

(** ** The operations *)

Section batch.
Context `{Digest} {S : Type} `{!Store S} (st : MemCachedStore S) (mode : Z).

#[local] Abbreviation rep := (rep st mode).
#[local] Abbreviation spec := (spec st mode).

Definition merge_post (k : bytes) (t : Node) (r : Node * option trie_err) (δ : bytes → Z) : Prop :=
  ∃ n', r = (n', None) ∧ rep n' (join k t) ∧ ∀ h, δ h = occ h (join k t) - occ h t.

Lemma join_nil t : join [] t = t.
Proof. by destruct t. Qed.

Lemma mergeExtension_node fuel k n t :
  rep n t → ¬ is_hash n → spec (mergeExtension st mode (Datatypes.S fuel) k n) (merge_post k t).
Proof.
  intros Hr Hn. cbn [mergeExtension].
  assert (∀ n t, rep n t → is_core t → spec (if bool_decide (k = []) then mret (n, None)
    else let e := ExtensionNode k n in addRef_node e ;; mret (e, None)) (merge_post k t)) as Hcore.
  { clear. intros n t Hr Hc. case_bool_decide as Hk.
    - subst k. apply spec_ret. exists n. rewrite join_nil. split_and!; try done. intros h. lia.
    - eapply spec_mono; [by apply extend_core|]. intros ? δ (n' & -> & Hr' & _ & Hδ). by exists n'. }
  destruct n as [v|cs|key m|h c|].
  - apply Hcore; [done|by inversion Hr].
  - apply Hcore; [done|by inversion Hr].
  - destruct (rep_ext_inv _ _ _ _ _ Hr) as (tm & -> & Hrm).
    eapply spec_mono; [exact (extend_extension st mode key m tm k Hrm)|].
    intros ? δ (n' & -> & Hr' & _ & Hδ). by exists n'.
  - by destruct Hn.
  - inversion Hr; subst. apply spec_ret. exists EmptyNode. split; [done|]. split; [constructor|].
    intros h. cbn [join]. lia.
Qed.

Lemma mergeExtension_spec k n t d :
  rep n t → wf d t → (d <= Z.to_nat maxPathLength)%nat →
  spec (mergeExtension st mode merge_fuel k n) (merge_post k t).
Proof.
  intros Hr Hw Hd. destruct (decide (is_hash n)) as [Hh|Hh]; [|by apply mergeExtension_node].
  destruct n as [| | |h c|]; try done. inversion Hr as [| | | |? ? He Hs]; subst.
  unfold merge_fuel. cbn [mergeExtension]. eapply spec_bind.
  { eapply (spec_try _ _ _ _ (λ r δ, r = inl (shallow t) ∧ ∀ h, δ h = 0));
      [exact (load_ok _ _ d t Hw Hd He (Hs t (nodes_self t He)))|]. by intros ? δ [-> Hδ]. }
  intros ? δ [-> Hδ]. eapply spec_mono.
  { apply (mergeExtension_node 0 k (shallow t) t); [by eapply rep_shallow|]. intros Hx. destruct Hw; exact Hx. }
  intros ? δ' (n' & -> & Hr' & Hδ'). exists n'. split; [done|]. split; [done|].
  intros h. rewrite Hδ, Hδ'. lia.
Qed.

Lemma stripBranch_spec cs ts d :
  rep (BranchNode cs) (BranchNode ts) → wf_children d ts → (d <= Z.to_nat maxPathLength)%nat →
  spec (stripBranch st mode cs) (λ r δ, ∃ n', r = (n', None) ∧ rep n' (strip ts)
    ∧ ∀ h, δ h = occ h (strip ts) - sum_occ h ts).
Proof.
  intros Hr Hwc Hd. unfold stripBranch. destruct (count_children_spec cs 0) as [Hcount Hindex].
  destruct (count_children 0 cs) as [n index]. cbn [fst snd] in *. subst n.
  rewrite (rep_nchildren _ _ _ _ Hr) in *.
  destruct (nchildren ts) as [|[|n]] eqn:Hn.
  - apply spec_ret. exists EmptyNode. rewrite strip_none by done. split; [done|]. split; [constructor|].
    intros h. rewrite occ_empty, sum_occ_0 by done. lia.
  - destruct Hindex as (j & cj & -> & Hj & Hcj); [lia|]. cbn [Nat.add].
    destruct (rep_branch_inv _ _ _ _ Hr) as (? & [= <-] & Hlen & Hrj).
    destruct (lookup_lt_is_Some_2 ts j) as [tj Htj]; [rewrite <- Hlen; by eapply lookup_lt_Some|].
    specialize (Hrj _ _ _ Hj Htj). rewrite (rep_isEmpty _ _ _ _ Hrj) in Hcj.
    rewrite (strip_one _ _ _ Hn Htj Hcj).
    assert (∀ h, sum_occ h ts = occ h tj) as Hsum by (intros h; by eapply sum_occ_one).
    destruct Hwc as [_ Hwj]. specialize (Hwj _ _ Htj).
    eapply spec_bind; [by apply (spec_lift _ _ _ cj (λ a δ, a = cj ∧ ∀ h, δ h = 0))|].
    intros ? δ [-> Hδ]. unfold head_path. case_bool_decide as Hl.
    + apply spec_ret. exists cj. rewrite join_nil. split; [done|]. split; [done|].
      intros h. rewrite Hδ, Hsum. lia.
    + rewrite child_depth_lt in Hwj by done.
      eapply spec_mono; [by eapply mergeExtension_spec|].
      intros ? δ' (n' & -> & Hr' & Hδ'). exists n'. split; [done|]. split; [done|].
      intros h. rewrite Hδ, Hδ', Hsum. lia.
  - rewrite strip_many by lia. ref_step Hr δ Hδ. apply spec_ret. exists (BranchNode cs).
    split; [done|]. split; [done|]. intros h. rewrite Hδ, occ_branch. lia.
Qed.

(** What a batch leaves of [t]. *)
Definition batch_post (t : Node) (d : nat) (kv : kvs) (r : Node * Z * option trie_err) (δ : bytes → Z) : Prop :=
  ∃ n' t', r = (n', Z.of_nat (length kv), None) ∧ rep n' t' ∧ wf d t' ∧ batch_updated kv t t'
    ∧ ∀ h, δ h = occ h t' - occ h t.

Lemma merge_after_spec k n z u d :
  rep n u → wf d u → (d <= Z.to_nat maxPathLength)%nat →
  spec (merge_after st mode k (n, z, None)) (λ r δ, ∃ n', r = (n', z, None)
    ∧ rep n' (join k u) ∧ ∀ h, δ h = occ h (join k u) - occ h u).
Proof.
  intros Hr Hw Hd. cbn [merge_after]. eapply spec_bind; [by eapply mergeExtension_spec|].
  intros ? δ' (n' & -> & Hr' & Hδ'). apply spec_ret. exists n'. split; [done|]. split; [done|].
  intros h. rewrite Hδ'. lia.
Qed.

Section rec.
Context (rec : Node → kvs → M (Node * Z * option trie_err)) (d : nat)
  (Hd : (d < Z.to_nat maxPathLength)%nat)
  (Hrec : ∀ c t e kv, rep c t → wf e t → (e <= d)%nat → kv_ok e kv → kv ≠ [] →
     spec (rec c kv) (batch_post t e kv)).

Lemma iterateBatch_spec k cs ts kv :
  rep (BranchNode cs) (BranchNode ts) → wf_children d ts → kv_ok (Datatypes.S d) kv →
  (length kv <= k)%nat →
  spec (iterateBatch rec k cs kv) (λ r δ, ∃ cs' ts', r = (cs', Z.of_nat (length kv), None)
    ∧ rep (BranchNode cs') (BranchNode ts') ∧ wf_children d ts'
    ∧ batch_updated kv (BranchNode ts) (BranchNode ts')
    ∧ ∀ h, δ h = sum_occ h ts' - sum_occ h ts).
Proof using All.
  revert cs ts kv. induction k as [|k IH]; intros cs ts kv Hr Hwc Hok Hk.
  { destruct kv; [|cbn in Hk; lia]. apply spec_ret. exists cs, ts. split; [done|].
    split; [done|]. split; [done|]. split; [by intros p|]. intros h. lia. }
  destruct (decide (kv = [])) as [->|Hne].
  { apply spec_ret. exists cs, ts. split; [done|].
    split; [done|]. split; [done|]. split; [by intros p|]. intros h. lia. }
  assert (iterateBatch rec (Datatypes.S k) cs kv =
    ('(c, i) ← m_lift (getLastIndex kv);
          here ← m_lift (if bool_decide (c = lastChild) then Some (take i kv)
                         else stripPrefix 1 (take i kv));
          old ← m_lift (cs !! c);
          '(child, sub, err) ← rec old here;
          let cs := <[c := child]> cs in
          match err with
          | Some _ => mret (cs, sub, err)
          | None =>
              '(cs, n, err) ← iterateBatch rec k cs (drop i kv);
              mret (cs, sub + n, err)
          end)) as -> by (by destruct kv).
  destruct (getLastIndex_spec d kv Hne Hok) as (i & n & g & Hg & Hn & Hi & Ht & Hlg & Hh & Hlast & Hgok).
  eapply spec_bind; [by apply (spec_lift _ _ _ (i, n) (λ a δ, a = (i, n) ∧ ∀ h, δ h = 0))|].
  intros ? δ1 [-> H1].
  eapply spec_bind; [by apply (spec_lift _ _ _ g (λ a δ, a = g ∧ ∀ h, δ h = 0))|].
  intros ? δ2 [-> H2].
  destruct (rep_branch_inv _ _ _ _ Hr) as (? & [= <-] & Hlen & Hrc).
  destruct Hwc as [Hl Hw].
  destruct (lookup_lt_is_Some_2 ts i) as [t Hti]; [unfold lastChild, childrenCount in *; lia|].
  destruct (lookup_lt_is_Some_2 cs i) as [c Hci]; [unfold lastChild, childrenCount in *; lia|].
  eapply spec_bind; [by apply (spec_lift _ _ _ c (λ a δ, a = c ∧ ∀ h, δ h = 0))|].
  intros ? δ3 [-> H3].
  assert (g ≠ []) as Hgne by (intros ->; cbn in Hlg; lia).
  eapply spec_bind; [apply (Hrec c t (child_depth i d) g); try done;
    [by eapply Hrc|by apply Hw|unfold child_depth; case_bool_decide; lia]|].
  intros ? δ4 (r & t' & -> & Hrt & Hwt & Hu & H4). cbn zeta.
  pose proof (rep_insert _ _ _ _ i _ _ Hr Hrt) as Hr'.
  pose proof (wf_children_insert _ _ _ _ t' (conj Hl Hw) Hti Hwt) as Hwc'.
  pose proof (batch_updated_head _ _ _ _ _ Hi Hlast Hti Hu) as Hu1. rewrite <- Ht in Hu1.
  assert (kv_ok (Datatypes.S d) (drop n kv)) as Hok'.
  { rewrite <- (take_drop n kv) in Hok. by apply kv_ok_app in Hok as [_ Hok]. }
  eapply spec_bind; [apply (IH _ _ _ Hr' Hwc' Hok'); rewrite length_drop; lia|].
  intros ? δ5 (cs' & ts' & -> & Hr'' & Hwc'' & Hu2 & H5). apply spec_ret.
  exists cs', ts'. split; [f_equal; f_equal; rewrite length_drop; lia|]. split; [done|]. split; [done|].
  split.
  - rewrite <- (take_drop n kv). eapply batch_updated_app; [|exact Hu1|exact Hu2].
    rewrite take_drop. by destruct Hok.
  - intros h. rewrite H1, H2, H3, H4, H5, (sum_occ_insert h _ _ _ _ Hti). lia.
Qed.

Lemma addToBranch_spec cs ts kv (inTrie : bool) :
  rep (BranchNode cs) (BranchNode ts) → wf_children d ts → kv_ok (Datatypes.S d) kv →
  spec (addToBranch st mode rec cs kv inTrie) (λ r δ, ∃ n' t', r = (n', Z.of_nat (length kv), None)
    ∧ rep n' t' ∧ wf (Datatypes.S d) t' ∧ batch_updated kv (BranchNode ts) t'
    ∧ ∀ h, δ h = occ h t' - sum_occ h ts - if inTrie then one h (BranchNode ts) else 0).
Proof using All.
  intros Hr Hwc Hok. unfold addToBranch.
  eapply (spec_bind _ _ _ _ (λ _ δ, ∀ h, δ h = - if inTrie then one h (BranchNode ts) else 0)).
  { destruct inTrie; [apply (spec_removeRef_node _ _ _ _ Hr); [done|by cbn; intros Hx]|by apply spec_ret]. }
  intros ? δ1 H1. cbn beta in H1.
  eapply spec_bind; [by apply (iterateBatch_spec _ cs ts kv)|].
  intros ? δ2 (cs' & ts' & -> & Hr' & Hwc' & Hu & H2).
  eapply spec_bind; [eapply (stripBranch_spec cs' ts' d); try done; lia|].
  intros ? δ3 (n' & -> & Hr'' & H3). apply spec_ret. exists n', (strip ts').
  split; [done|]. split; [done|]. split; [by apply wf_strip|]. split.
  - eapply batch_updated_to; [|exact Hu]. intros p Hp. symmetry. by eapply t_lookup_strip.
  - intros h. rewrite H1, H2, H3. lia.
Qed.
End rec.

Definition value_node (value : option bytes) : Node :=
  match value with Some v => LeafNode v | None => EmptyNode end.

Definition value_children (value : option bytes) : list Node :=
  match value with Some v => <[lastChild := LeafNode v]> no_children | None => no_children end.

Lemma rep_self_wf cs : (∀ i c, cs !! i = Some c → rep c c) → rep (BranchNode cs) (BranchNode cs).
Proof. intros Hc. constructor; [done|]. intros i c t H1 H2. simplify_eq. by eapply Hc. Qed.

Lemma value_children_ok value d :
  Z.of_nat (length (default [] value)) <= MaxValueLength →
  rep (BranchNode (value_children value)) (BranchNode (value_children value))
  ∧ wf_children d (value_children value)
  ∧ same_contents (BranchNode (value_children value)) (value_node value)
  ∧ ∀ h, sum_occ h (value_children value) = occ h (value_node value).
Proof.
  intros Hv. assert (wf_children d no_children) as Hnone by apply wf_children_none.
  assert (wf_children d (value_children value)) as Hwc.
  { destruct value as [v|]; [|done]. eapply wf_children_insert; [done|by apply lookup_none|].
    by constructor. }
  split; [|split; [done|split]].
  - apply rep_self_wf. intros i c Hc. destruct value as [v|]; cbn [value_children] in Hc.
    + apply list_lookup_insert_Some in Hc as [(_ & <- & _)|[_ Hc]]; [constructor|].
      apply lookup_replicate_1 in Hc as [-> _]. constructor.
    + apply lookup_replicate_1 in Hc as [-> _]. constructor.
  - intros p Hp. rewrite <- (t_lookup_strip d) by done. destruct value as [v|]; cbn [value_children value_node].
    + rewrite strip_fresh by done. cbn [join]. done.
    + by rewrite strip_none.
  - intros h. destruct value as [v|]; cbn [value_children value_node].
    + rewrite (sum_occ_insert h _ _ EmptyNode) by (by apply lookup_none).
      unfold no_children. rewrite sum_occ_empty, occ_empty. lia.
    + unfold no_children. by rewrite sum_occ_empty.
Qed.

(** What a subtrie made from scratch under [prefix] is. *)
Definition many_post (prefix : bytes) (e : nat) (kv : kvs) (t : Node)
    (r : Node * Z * option trie_err) (δ : bytes → Z) : Prop :=
  ∃ n' u, r = (n', Z.of_nat (length kv), None) ∧ rep n' (join prefix u) ∧ wf e u
    ∧ batch_updated kv t u ∧ ∀ h, δ h = occ h (join prefix u).

Section scratch.
Context (rec : Node → kvs → M (Node * Z * option trie_err)) (e : nat)
  (He : (e <= Z.to_nat maxPathLength)%nat)
  (Hrec : ∀ c t d kv, rep c t → wf d t → (d < e)%nat → kv_ok d kv → kv ≠ [] →
     spec (rec c kv) (batch_post t d kv)).

Definition many (prefix : bytes) (kv : kvs) (value : option bytes) : M (Node * Z * option trie_err) :=
  (cs ← match value with
        | Some v =>
            let leaf := LeafNode v in
            addRef_node leaf ;; mret (<[lastChild := leaf]> (replicate childrenCount EmptyNode))
        | None => mret (replicate childrenCount EmptyNode)
        end;
   r ← addToBranch st mode rec cs kv false;
   merge_after st mode prefix r).

Lemma many_spec prefix kv value :
  kv_ok e kv → (0 < e)%nat → nibbles prefix →
  Z.of_nat (length (default [] value)) <= MaxValueLength →
  spec (many prefix kv value) (many_post prefix e kv (value_node value)).
Proof using All.
  intros Hok Hpos Hp Hv. destruct e as [|d]; [lia|].
  destruct (value_children_ok value d Hv) as (Hr & Hwc & Hsame & Hsum).
  unfold many. eapply (spec_bind _ _ _ _ (λ cs δ, cs = value_children value ∧ ∀ h, δ h = occ h (value_node value))).
  { destruct value as [v|].
    - ref_step (rep_leaf st mode v) δ Hδ. apply spec_ret. split; [done|]. intros h.
      rewrite Hδ. cbn [value_node]. rewrite occ_leaf. lia.
    - apply spec_ret. by split. }
  intros ? δ1 [-> H1]. eapply spec_bind.
  { apply (addToBranch_spec rec d ltac:(lia)); [|exact Hr|exact Hwc|exact Hok].
    intros c t d' kv' Hrc Hwt Hle Hk' Hne. by apply Hrec; try done; lia. }
  intros ? δ2 (n' & t' & -> & Hr' & Hwt & Hu & H2).
  eapply spec_mono; [by eapply merge_after_spec|]. intros ? δ3 (n'' & -> & Hr'' & H3). exists n'', t'. split; [done|]. split; [done|]. split; [done|].
  split; [by eapply batch_updated_from|]. intros h. rewrite H1, H2, H3, Hsum. lia.
Qed.

Lemma many_eq prefix kv value :
  newSubTrieMany st mode rec prefix kv value =
  match kv with
  | [] => m_panic
  | ([], None) :: t =>
      match t with
      | [] => mret (EmptyNode, 1, None)
      | _ => '(node, n, err) ← newSubTrieMany st mode rec prefix t None; mret (node, n + 1, err)
      end
  | ([], Some v) :: t =>
      match t with
      | [] => node ← newSubTrie prefix (LeafNode v) true; mret (node, 1, None)
      | _ => many prefix kv (Some v)
      end
  | _ => many prefix kv value
  end.
Proof using Type. by destruct kv as [|[[|x k] [v|]] [|y kv]]. Qed.

Lemma kv_item_ok_pos d x : kv_item_ok d x → x.1 ≠ [] → (0 < d)%nat.
Proof using Type. clear He. intros (_ & Hl & _) Hx. destruct x as [[|] ?]; cbn in *; [done|lia]. Qed.

Lemma newSubTrieMany_spec prefix kv value :
  kv_ok e kv → kv ≠ [] → nibbles prefix →
  Z.of_nat (length (default [] value)) <= MaxValueLength →
  spec (newSubTrieMany st mode rec prefix kv value) (many_post prefix e kv (value_node value)).
Proof using All.
  revert value. induction kv as [|[k o] kv IH]; intros value Hok Hne Hp Hv; [done|].
  rewrite many_eq. pose proof (nil_first _ _ _ (proj1 Hok)) as Hnil.
  assert (kv ≠ [] → (0 < e)%nat) as Hpos.
  { intros Hkv. destruct kv as [|x kv]; [done|]. apply (kv_item_ok_pos e x).
    - destruct Hok as [_ Hf]. by apply Forall_cons in Hf as [_ Hf%Forall_inv].
    - by apply Forall_inv in Hnil. }
  destruct k as [|x k].
  - destruct o as [v|].
    + destruct (decide (kv = [])) as [->|Hkv].
      * destruct Hok as [_ Hf]. apply Forall_inv in Hf as (_ & _ & Hvv). cbn in Hvv.
        eapply spec_bind; [by eapply spec_new_leaf|]. intros s δ [Hs Hδ]. apply spec_ret.
        exists s, (LeafNode v). split; [done|]. split; [done|]. split; [by constructor|]. split.
        -- intros p Hpp. cbn. destruct (decide (p = [])) as [->|Hpn]; [done|].
           rewrite !bool_decide_eq_false_2 by done. destruct value; cbn; [|done].
           by rewrite bool_decide_eq_false_2.
        -- intros h. rewrite Hδ. lia.
      * assert (match kv with [] => node ← newSubTrie prefix (LeafNode v) true; mret (node, 1, None)
          | _ :: _ => many prefix (([], Some v) :: kv) (Some v) end
          = many prefix (([], Some v) :: kv) (Some v)) as -> by (by destruct kv).
        eapply spec_mono; [apply many_spec; try done; [by apply Hpos|]|].
        { destruct Hok as [_ Hf]. by apply Forall_inv in Hf as (_ & _ & Hvv). }
        intros r δ (n' & u & -> & Hr & Hw & Hu & Hδ). exists n', u. split_and!; try done.
        intros p Hpp. rewrite (Hu p Hpp). cbn. destruct (decide (p = [])) as [->|Hpn]; [done|].
        rewrite !bool_decide_eq_false_2 by done. destruct (kv_get kv p); [done|].
        destruct value; cbn; [|done]. by rewrite bool_decide_eq_false_2.
    + destruct (decide (kv = [])) as [->|Hkv].
      * apply spec_ret. exists EmptyNode, EmptyNode. split; [done|]. split; [constructor|].
        split; [constructor|]. split; [|done]. intros p Hpp. cbn.
        destruct (decide (p = [])) as [->|Hpn]; [done|].
        rewrite !bool_decide_eq_false_2 by done. destruct value; cbn; [|done].
        by rewrite bool_decide_eq_false_2.
      * assert (match kv with [] => mret (EmptyNode, 1, None)
          | _ :: _ => '(node, n, err) ← newSubTrieMany st mode rec prefix kv None; mret (node, n + 1, err) end
          = ('(node, n, err) ← newSubTrieMany st mode rec prefix kv None; mret (node, n + 1, err))) as ->
          by (by destruct kv).
        assert (kv_ok e kv) as Hok' by (by apply (kv_ok_app e [([], None)] kv) in Hok as [_ Hok]).
        eapply spec_bind; [apply (IH None); try done; by cbn|].
        intros ? δ (n' & u & -> & Hr & Hw & Hu & Hδ). apply spec_ret. exists n', u.
        split; [f_equal; f_equal; cbn [length]; lia|]. split; [done|]. split; [done|]. split.
        -- intros p Hpp. rewrite (Hu p Hpp). cbn. destruct (decide (p = [])) as [->|Hpn].
           ++ rewrite bool_decide_eq_true_2 by done. destruct (kv_get kv []) as [o|] eqn:E; [|done].
              apply kv_get_Some in E. rewrite Forall_forall in Hnil. by destruct (Hnil _ E).
           ++ rewrite !bool_decide_eq_false_2 by done. destruct (kv_get kv p); [done|].
              destruct value; cbn; [|done]. by rewrite bool_decide_eq_false_2.
        -- intros h. rewrite Hδ. lia.
  - assert ((0 < e)%nat) as Hpos'.
    { apply (kv_item_ok_pos e (x :: k, o)); [|done]. destruct Hok as [_ Hf]. by apply Forall_inv in Hf. }
    destruct o; by apply many_spec.
Qed.

Lemma putBatchIntoLeaf_spec v kv :
  wf e (LeafNode v) → kv_ok e kv → kv ≠ [] →
  spec (putBatchIntoLeaf st mode rec v kv) (batch_post (LeafNode v) e kv).
Proof using All.
  intros Hw Hok Hne. unfold putBatchIntoLeaf. ref_step (rep_leaf st mode v) δ1 H1.
  eapply spec_mono; [apply (newSubTrieMany_spec [] kv (Some v)); try done; by inversion Hw|].
  intros r δ (n' & u & -> & Hr & Hwu & Hu & Hδ). exists n', u. rewrite join_nil in Hr, Hδ.
  split; [done|]. split; [done|]. split; [done|]. split; [done|].
  intros h. rewrite H1, Hδ, occ_leaf. lia.
Qed.

End scratch.

Lemma kv_ok_mono d e kv : kv_ok d kv → (d <= e)%nat → kv_ok e kv.
Proof.
  intros [Hs Hf] Hde. split; [done|]. eapply Forall_impl; [exact Hf|].
  intros x (Hn & Hl & Hv). split; [done|]. split; [lia|done].
Qed.

Section rec_all.
Context (rec : Node → kvs → M (Node * Z * option trie_err)) (e : nat)
  (He : (e <= Z.to_nat maxPathLength)%nat)
  (Hrec : ∀ c t d kv, rep c t → wf d t → (d < e)%nat → kv_ok d kv → kv ≠ [] →
     spec (rec c kv) (batch_post t d kv)).

(** The keys below their common prefix. *)
Lemma strip_common k kv d :
  kv_ok d kv → kv ≠ [] → Forall (λ x, has_prefix x.1 k = true) kv →
  ∃ kv', kv = kv_pre k kv' ∧ stripPrefix (length k) kv = Some kv' ∧ kv' ≠ []
    ∧ length kv' = length kv ∧ nibbles k ∧ (length k <= d)%nat ∧ kv_ok (d - length k) kv'.
Proof using Type.
  intros Hok Hne Hall. destruct (all_prefix_pre k kv Hall) as (kv' & -> & Hl).
  assert (kv' ≠ []) as Hne' by (by intros ->). exists kv'.
  destruct (kv_pre_ok _ _ _ Hok Hne') as (Hk & Hkd & Hok').
  split_and!; try done. apply stripPrefix_pre.
Qed.

Lemma putBatchIntoEmpty_spec kv :
  kv_ok e kv → kv ≠ [] → spec (putBatchIntoEmpty st mode rec kv) (batch_post EmptyNode e kv).
Proof using All.
  intros Hok Hne. unfold putBatchIntoEmpty.
  destruct (strip_common (lcpMany kv) kv e Hok Hne (lcpMany_prefix kv)) as
    (kv' & Hkv & Hstrip & Hne' & Hl & Hk & Hkd & Hok').
  eapply spec_bind; [by apply (spec_lift _ _ _ kv' (λ a δ, a = kv' ∧ ∀ h, δ h = 0))|].
  intros ? δ1 [-> H1].
  eapply spec_mono.
  { apply (newSubTrieMany_spec rec (e - length (lcpMany kv))); try done; [lia|].
    intros c t d kv'' Hr Hw Hd Hok'' Hne''. apply Hrec; try done. lia. }
  intros r δ (n' & u & -> & Hr & Hw & Hu & Hδ). exists n', (join (lcpMany kv) u).
  split; [by rewrite Hl|]. split; [done|]. split; [eapply wf_join; [done|done|lia]|]. split.
  - rewrite Hkv at 1. change EmptyNode with (join (lcpMany kv) EmptyNode).
    by apply batch_updated_join.
  - intros h. rewrite H1, Hδ, occ_empty. lia.
Qed.

(** An extension [key] in front of [t], as the only child of a new branch. *)
Lemma putBatchIntoExtensionNoPrefix_spec key next t d kv :
  rep next t → wf d (ExtensionNode key t) → (d <= e)%nat → kv_ok d kv → kv ≠ [] →
  spec (putBatchIntoExtensionNoPrefix st mode rec key next kv) (λ r δ, ∃ n' u,
    r = (n', Z.of_nat (length kv), None) ∧ rep n' u ∧ wf d u
    ∧ batch_updated kv (ExtensionNode key t) u ∧ ∀ h, δ h = occ h u - occ h t).
Proof using All.
  intros Hr Hw Hd Hok Hne. destruct (wf_ext_inv _ _ _ Hw) as (Hk & Hkn & Hkl & Hc & Hn).
  destruct key as [|k0 kt]; [done|]. cbn [length] in *. destruct d as [|d]; [lia|].
  apply Forall_cons in Hkn as [Hk0 Hkt]. pose proof (nibble_lt _ Hk0) as Hlt.
  unfold putBatchIntoExtensionNoPrefix.
  eapply (spec_bind _ _ _ _ (λ s δ, rep s (join kt t) ∧ ∀ h, δ h = occ h (join kt t) - occ h t)).
  { case_bool_decide as Hkt0.
    - subst kt. apply spec_ret. rewrite join_nil. split; [done|]. intros h. lia.
    - eapply spec_mono; [apply (newSubTrie_spec _ _ kt next t false); [done..|by intros [=]]|].
      intros s δ [Hs Hδ]. split; [done|]. intros h. rewrite Hδ. lia. }
  intros s δ1 [Hs H1]. change (replicate childrenCount EmptyNode) with no_children.
  set (i := Z.to_nat (b2z k0)) in *.
  assert (wf (child_depth i d) (join kt t)) as Hwj.
  { rewrite child_depth_lt by lia. eapply wf_join; [done|done|lia]. }
  assert (isEmpty (join kt t) = false) as Hje by (rewrite isEmpty_join; by destruct t).
  assert (wf_children d (<[i := join kt t]> no_children)) as Hwc.
  { eapply wf_children_insert; [apply wf_children_none|apply lookup_none; lia|done]. }
  assert (rep (BranchNode (<[i := s]> no_children)) (BranchNode (<[i := join kt t]> no_children))) as Hrb.
  { apply rep_insert; [|done]. apply rep_self_wf. intros j c [-> _]%lookup_replicate_1. constructor. }
  assert (same_contents (BranchNode (<[i := join kt t]> no_children)) (ExtensionNode (k0 :: kt) t)) as Hsame.
  { intros p Hp. rewrite <- (t_lookup_strip d) by done. rewrite strip_fresh by (done || lia).
    unfold i. rewrite head_path_nibble, join_app by done. by rewrite join_core. }
  assert (∀ h, sum_occ h (<[i := join kt t]> no_children) = occ h (join kt t)) as Hsum.
  { intros h. rewrite (sum_occ_insert h _ _ EmptyNode) by (apply lookup_none; lia).
    unfold no_children. rewrite sum_occ_empty, occ_empty. lia. }
  eapply spec_mono.
  { apply (addToBranch_spec rec d ltac:(lia)); [|exact Hrb|exact Hwc|exact Hok].
    intros c t' d' kv' Hrc Hwt Hle Hk' Hne'. by apply Hrec; try done; lia. }
  intros r δ2 (n' & u & -> & Hr' & Hwu & Hu & H2). exists n', u. split; [done|]. split; [done|].
  split; [done|]. split; [by eapply batch_updated_from|]. intros h. rewrite H1, H2, Hsum. lia.
Qed.

Lemma putBatchIntoExtension_spec key next t kv :
  rep next t → wf e (ExtensionNode key t) → kv_ok e kv → kv ≠ [] →
  spec (putBatchIntoExtension st mode rec key next kv) (batch_post (ExtensionNode key t) e kv).
Proof using All.
  intros Hr Hw Hok Hne. destruct (wf_ext_inv _ _ _ Hw) as (Hk & Hkn & Hkl & Hc & Hn).
  unfold putBatchIntoExtension. ref_step (rep_ext st mode key _ _ Hr) δ1 H1. cbn zeta.
  destruct (lcp_prefix (lcpMany kv) key) as [Hpc Hpk].
  set (pref := lcp (lcpMany kv) key) in *. clearbody pref.
  assert (Forall (λ x, has_prefix x.1 pref = true) kv) as Hall.
  { eapply Forall_impl; [apply lcpMany_prefix|]. intros x Hx. cbn in Hx. by eapply has_prefix_trans. }
  destruct (strip_common pref kv e Hok Hne Hall) as
    (kv' & Hkv & Hstrip & Hne' & Hl & Hpn & Hpd & Hok').
  apply has_prefix_spec in Hpk as [rest Hkey].
  assert (occ_e : ∀ h, occ h (ExtensionNode key t) = one h (ExtensionNode key t) + occ h t)
    by (intros h; apply occ_ext).
  case_bool_decide as Hlen.
  - assert (rest = []) as ->.
    { apply (f_equal length) in Hkey. rewrite length_app in Hkey. destruct rest; [done|cbn in Hkey; lia]. }
    rewrite app_nil_r in Hkey. subst key.
    eapply spec_bind; [by apply (spec_lift _ _ _ kv' (λ a δ, a = kv' ∧ ∀ h, δ h = 0))|].
    intros ? δ2 [-> H2].
    eapply spec_bind; [apply (Hrec next t (e - length pref)%nat kv'); try done; destruct pref; [done|cbn in *; lia]|].
    intros ? δ3 (n' & t' & -> & Hr' & Hw' & Hu & H3).
    eapply spec_mono; [eapply merge_after_spec; [done|done|lia]|].
    intros ? δ4 (n'' & -> & Hr'' & H4). exists n'', (join pref t').
    split; [by rewrite Hl|]. split; [done|]. split; [eapply wf_join; [done|done|lia]|]. split.
    + rewrite Hkv. rewrite <- (join_core pref t) by done. by apply batch_updated_join.
    + intros h. rewrite H1, H2, H3, H4, occ_e. lia.
  - assert (rest ≠ []) as Hrest.
    { intros ->. apply Hlen. by rewrite Hkey, app_nil_r. }
    assert (wf (e - length pref) (ExtensionNode rest t)) as Hwr.
    { subst key. rewrite length_app in *. apply Forall_app in Hkn as [_ Hkn].
      apply (wf_ext (e - (length pref + length rest))); [done..|lia|done|done]. }
    assert (join pref (ExtensionNode rest t) = ExtensionNode key t) as Hjoin by (by rewrite Hkey).
    destruct (decide (pref = [])) as [->|Hpref].
    + rewrite bool_decide_eq_true_2 by done. cbn [negb].
      cbn in Hkey. subst rest. eapply spec_mono.
      { eapply (putBatchIntoExtensionNoPrefix_spec key next t e); done. }
      intros r δ2 (n' & u & -> & Hr' & Hwu & Hu & H2). exists n', u. split_and!; try done.
      intros h. rewrite H1, H2, occ_e. lia.
    + rewrite bool_decide_eq_false_2 by done. cbn [negb].
      eapply spec_bind; [by apply (spec_lift _ _ _ kv' (λ a δ, a = kv' ∧ ∀ h, δ h = 0))|].
      intros ? δ2 [-> H2].
      assert (drop (length pref) key = rest) as -> by (subst key; by rewrite drop_app_length).
      eapply spec_bind; [eapply (putBatchIntoExtensionNoPrefix_spec rest next t (e - length pref)); try done; lia|].
      intros ? δ3 (n' & u & -> & Hr' & Hwu & Hu & H3).
      eapply spec_mono; [eapply merge_after_spec; [done|done|lia]|].
      intros ? δ4 (n'' & -> & Hr'' & H4). exists n'', (join pref u).
      split; [by rewrite Hl|]. split; [done|]. split; [eapply wf_join; [done|done|lia]|]. split.
      * rewrite Hkv, <- Hjoin. by apply batch_updated_join.
      * intros h. rewrite H1, H2, H3, H4, occ_e. lia.
Qed.
End rec_all.

Theorem putBatchIntoNode_spec fuel n t d kv :
  rep n t → wf d t → (d <= Z.to_nat maxPathLength)%nat → kv_ok d kv → kv ≠ [] →
  (stack n d <= fuel)%nat →
  spec (putBatchIntoNode st mode fuel n kv) (batch_post t d kv).
Proof.
  revert n t d kv. induction fuel as [|fuel IH]; intros n t d kv Hr Hw Hmax Hok Hne Hf.
  { unfold stack in Hf. destruct (decide _); lia. }
  assert (¬ is_hash n → ∀ c t' e kv, rep c t' → wf e t' → (e < d)%nat → kv_ok e kv → kv ≠ [] →
    spec (putBatchIntoNode st mode fuel c kv) (batch_post t' e kv)) as Hrec.
  { intros Hn c t' e kv' Hrc Hwe He Hk' Hne'. apply IH; try done; [lia|].
    pose proof (stack_le c e). rewrite (stack_node n d Hn) in Hf. lia. }
  cbn [putBatchIntoNode]. destruct n as [w|cs|k n|h c|].
  - inversion Hr; subst. apply (putBatchIntoLeaf_spec _ d); [done|apply Hrec; cbn; by intros Hx|done..].
  - destruct (rep_branch_inv _ _ _ _ Hr) as (ts & -> & _).
    destruct (wf_branch_inv _ _ Hw) as (d' & -> & Hwc & _).
    eapply spec_mono.
    { apply (addToBranch_spec _ d' ltac:(lia)) with (inTrie := true); [|exact Hr|exact Hwc|exact Hok].
      intros c t' e kv' Hrc Hwe He. apply Hrec; try done; [by cbn; intros Hx|lia]. }
    intros r δ (n' & t' & -> & Hr' & Hw' & Hu & Hδ). exists n', t'. split_and!; try done.
    intros h. rewrite Hδ, occ_branch. lia.
  - destruct (rep_ext_inv _ _ _ _ _ Hr) as (tn & -> & Hrn).
    apply (putBatchIntoExtension_spec _ d); [done|apply Hrec; cbn; by intros Hx|done..].
  - inversion Hr as [| | | |? ? He Hs]; subst. unfold putBatchIntoHash.
    eapply spec_bind.
    { eapply (spec_try _ _ _ _ (λ r δ, r = inl (shallow t) ∧ ∀ h, δ h = 0));
        [exact (load_ok _ _ d t Hw Hmax He (Hs t (nodes_self t He)))|]. by intros ? δ [-> Hδ]. }
    intros ? δ [-> Hδ]. eapply spec_mono.
    { apply (IH (shallow t) t d kv); try done; [by eapply rep_shallow|].
      rewrite (stack_shallow _ _ _ Hw). rewrite stack_hash in Hf. lia. }
    intros r δ' (n' & t' & -> & Hr' & Hw' & Hu & Hδ'). exists n', t'. split_and!; try done.
    intros h. rewrite Hδ, Hδ'. lia.
  - inversion Hr; subst. apply (putBatchIntoEmpty_spec _ d); [done|apply Hrec; cbn; by intros Hx|done..].
Qed.
End batch.
