(* ===== verification/MptMap.v ===== *)
(** * MptMap: the state trie is a map

    The operations of the trie refine those of a finite map from keys to
    values: every sequence of [Get], [Put], [Delete] and [PutBatch], with [Get]s
    before the first batch and at the end, answers as the map does, errors included, and the root hash depends on nothing but
    the contents. [trie_inv] is the invariant of a trie in use; it also says
    that the reference counters are the change of each node's occurrences
    since the last flush. *)

From stdpp Require Import strings.
From S2P Require Import Prelude BinIO Storage Hash MptNode MptTree Mpt MptSpec MptBatch.
#[local] Open Scope Z_scope.

(** ** Keys and paths *)

Lemma nibble_split b :
  nibble (z2b (Z.shiftr (b2z b) 4)) ∧ nibble (z2b (Z.land (b2z b) 15))
  ∧ z2b (Z.shiftl (b2z (z2b (Z.shiftr (b2z b) 4))) 4 + b2z (z2b (Z.land (b2z b) 15))) = b.
Proof.
  unfold nibble. pose proof (b2z_range b) as Hb.
  rewrite Z.shiftr_div_pow2 by lia. change 15 with (Z.ones 4). rewrite Z.land_ones by lia.
  change (2 ^ 4) with 16.
  pose proof (Z.div_pos (b2z b) 16 ltac:(lia) ltac:(lia)).
  pose proof (Z.div_lt_upper_bound (b2z b) 16 16 ltac:(lia) ltac:(lia)).
  pose proof (Z.mod_pos_bound (b2z b) 16 ltac:(lia)).
  rewrite !b2z_z2b_small by lia. rewrite Z.shiftl_mul_pow2 by lia. change (2 ^ 4) with 16.
  split; [lia|]. split; [lia|].
  rewrite Z.mul_comm, <- Z.div_mod by lia. apply z2b_b2z.
Qed.

Lemma nibbles_toNibbles k : nibbles (toNibbles k).
Proof.
  induction k as [|b k IH]; cbn; [constructor|].
  destruct (nibble_split b) as (H1 & H2 & _). by repeat constructor.
Qed.

Lemma fromNibbles_toNibbles k : fromNibbles (toNibbles k) = k.
Proof.
  induction k as [|b k IH]; [done|]. destruct (nibble_split b) as (_ & _ & Hb).
  cbn [toNibbles fromNibbles]. by rewrite IH, Hb.
Qed.

Lemma length_toNibbles k : length (toNibbles k) = (2 * length k)%nat.
Proof. induction k as [|b k IH]; cbn; [done|]. rewrite IH. lia. Qed.

#[export] Instance toNibbles_inj : Inj (=) (=) toNibbles.
Proof. intros a b Hab. by rewrite <- (fromNibbles_toNibbles a), Hab, fromNibbles_toNibbles. Qed.

(** What a tree holds when its paths are those of the keys of [m]. *)
Definition content (m : gmap bytes bytes) (p : bytes) : option bytes :=
  if bool_decide (toNibbles (fromNibbles p) = p) then m !! fromNibbles p else None.

Definition holds (t : Node) (m : gmap bytes bytes) : Prop :=
  ∀ p, nibbles p → t_lookup t p = content m p.

Lemma content_toNibbles m k : content m (toNibbles k) = m !! k.
Proof. unfold content. rewrite fromNibbles_toNibbles. by rewrite bool_decide_eq_true_2. Qed.

Lemma holds_lookup t m k : holds t m → t_lookup t (toNibbles k) = m !! k.
Proof. intros Hh. rewrite Hh by apply nibbles_toNibbles. apply content_toNibbles. Qed.

Lemma holds_ext t m1 m2 : holds t m1 → holds t m2 → m1 = m2.
Proof.
  intros H1 H2. apply map_eq. intros k. by rewrite <- (holds_lookup t m1 k), <- (holds_lookup t m2 k).
Qed.

Lemma holds_updated t t' m k o :
  holds t m → updated t t' (toNibbles k) o →
  holds t' (match o with Some v => <[k := v]> m | None => delete k m end).
Proof.
  intros Hh Hu p Hp. rewrite (Hu p Hp). case_bool_decide as Hk.
  - subst p. rewrite content_toNibbles. destruct o; [by rewrite lookup_insert_eq|by rewrite lookup_delete_eq].
  - rewrite Hh by done. unfold content. case_bool_decide as Hc; [|done].
    assert (fromNibbles p ≠ k) by (intros <-; done).
    destruct o; [by rewrite lookup_insert_ne|by rewrite lookup_delete_ne].
Qed.

(** The changes of a batch, without the storage prefix of their keys. *)
Definition strip_keys (c : changes) : changes :=
  list_to_map (map (λ p, (drop 1 p.1, p.2)) (map_to_list c)).

Definition batch_ok (c : changes) : Prop :=
  (∀ k o, c !! k = Some o → k ≠ [] ∧ Z.of_nat (length (drop 1 k)) <= MaxKeyLength
     ∧ Z.of_nat (length (default [] o)) <= MaxValueLength)
  ∧ (∀ k1 k2, is_Some (c !! k1) → is_Some (c !! k2) → drop 1 k1 = drop 1 k2 → k1 = k2).

Definition batch_items (c : changes) : kvs :=
  merge_sort (λ a b, kle false a.1 b.1) (map (λ p, (toNibbles (drop 1 p.1), p.2)) (map_to_list c)).

Lemma MapToMPTBatch_ok c : batch_ok c → MapToMPTBatch c = Ok (batch_items c).
Proof.
  intros [Hok _]. unfold MapToMPTBatch.
  assert (forallb (λ p, bool_decide (p.1 ≠ [])) (map_to_list c) = true) as ->; [|done].
  apply forallb_forall. intros [k o] Hin%list_elem_of_In. apply elem_of_map_to_list in Hin.
  apply bool_decide_eq_true_2. by apply Hok in Hin as (? & _).
Qed.

Lemma elem_of_batch_items c p o :
  (p, o) ∈ batch_items c ↔ ∃ k, c !! k = Some o ∧ p = toNibbles (drop 1 k).
Proof.
  unfold batch_items. rewrite merge_sort_Permutation. rewrite list_elem_of_fmap. split.
  - intros ([k o'] & [= -> ->] & Hk). apply elem_of_map_to_list in Hk. eauto.
  - intros (k & Hk & ->). exists (k, o). split; [done|]. by apply elem_of_map_to_list.
Qed.

Lemma batch_keys_NoDup c : batch_ok c → NoDup ((drop 1 ∘ fst) <$> map_to_list c).
Proof.
  intros [_ Hinj]. rewrite list_fmap_compose. pose proof (NoDup_fst_map_to_list c) as Hnd.
  apply NoDup_fmap_2_strong; [|done]. intros k1 k2 H1 H2.
  assert (∀ k, k ∈ (map_to_list c).*1 → is_Some (c !! k)) as Hin.
  { intros k ([k' o] & -> & Hk)%list_elem_of_fmap. apply elem_of_map_to_list in Hk. by exists o. }
  auto.
Qed.

Lemma batch_items_ok c d :
  batch_ok c → (2 * Z.to_nat MaxKeyLength <= d)%nat → kv_ok d (batch_items c).
Proof.
  intros Hok Hd. split.
  - apply (sort_by_sorted fst false). rewrite <- list_fmap_compose.
    change (fst ∘ (λ p : bytes * option bytes, (toNibbles (drop 1 p.1), p.2)))
      with (toNibbles ∘ (drop 1 ∘ (fst : bytes * option bytes → bytes))).
    rewrite list_fmap_compose. apply NoDup_fmap_2; [apply _|]. by apply batch_keys_NoDup.
  - apply Forall_forall. intros [p o] (k & Hk & ->)%elem_of_batch_items.
    apply (proj1 Hok) in Hk as (_ & Hl & Hv). split; [apply nibbles_toNibbles|]. split; [|done].
    cbn [fst]. rewrite length_toNibbles. lia.
Qed.

Lemma kv_get_in kv p o : StronglySorted kv_lt kv → (p, o) ∈ kv → kv_get kv p = Some o.
Proof.
  induction 1 as [|[k v] kv Hs IH Hk]; intros Hin; [by apply not_elem_of_nil in Hin|].
  cbn. apply elem_of_cons in Hin as [[= -> ->]|Hin]; [by rewrite bool_decide_eq_true_2|].
  rewrite bool_decide_eq_false_2; [by apply IH|]. intros ->.
  rewrite Forall_forall in Hk. apply Hk in Hin. by apply blt_irrefl in Hin.
Qed.

Lemma lookup_strip_keys c k o :
  batch_ok c → strip_keys c !! k = Some o ↔ ∃ k', c !! k' = Some o ∧ k = drop 1 k'.
Proof.
  intros Hok. unfold strip_keys. rewrite <- elem_of_list_to_map.
  - rewrite list_elem_of_fmap. split.
    + intros ([k' o'] & [= -> ->] & Hk). apply elem_of_map_to_list in Hk. eauto.
    + intros (k' & Hk & ->). exists (k', o). split; [done|]. by apply elem_of_map_to_list.
  - rewrite <- list_fmap_compose. by apply batch_keys_NoDup.
Qed.

Lemma holds_batch t t' m c :
  batch_ok c → holds t m → batch_updated (batch_items c) t t' →
  holds t' (apply_changes (strip_keys c) m).
Proof.
  intros Hok Hh Hb p Hp. rewrite (Hb p Hp).
  assert (StronglySorted kv_lt (batch_items c)) as Hs by (by apply (batch_items_ok c (2 * Z.to_nat MaxKeyLength))).
  assert (∀ k, kv_get (batch_items c) (toNibbles k) = strip_keys c !! k) as Hget.
  { intros k. apply option_eq. intros o. rewrite lookup_strip_keys by done. split.
    - intros (k' & Hk & Hkk)%kv_get_Some%elem_of_batch_items. apply (inj toNibbles) in Hkk. eauto.
    - intros (k' & Hk & ->). apply kv_get_in; [done|]. apply elem_of_batch_items. eauto. }
  unfold content. case_bool_decide as Hc.
  - rewrite <- Hc at 1. rewrite Hget, lookup_apply_changes. rewrite Hh by done.
    unfold content. by rewrite bool_decide_eq_true_2.
  - destruct (kv_get (batch_items c) p) as [o|] eqn:E.
    + apply kv_get_Some, elem_of_batch_items in E as (k & _ & ->). by rewrite fromNibbles_toNibbles in Hc.
    + rewrite Hh by done. unfold content. by rewrite bool_decide_eq_false_2.
Qed.

Lemma length_batch_items c : batch_ok c → length (batch_items c) = size (strip_keys c).
Proof.
  intros Hok. unfold batch_items. rewrite (Permutation_length (merge_sort_Permutation _ _)), length_map.
  rewrite <- length_map_to_list. unfold strip_keys.
  assert (NoDup (map (λ p, (drop 1 p.1, p.2)) (map_to_list c)).*1) as Hnd.
  { rewrite <- list_fmap_compose. by apply batch_keys_NoDup. }
  by rewrite (Permutation_length (map_to_list_to_map _ Hnd)), length_map.
Qed.

(** ** Operations and their specification *)

Inductive trie_op :=
  | OGet (k : bytes)
  | OPut (k : bytes) (v : option bytes)
  | ODelete (k : bytes)
  | OBatch (c : changes).

Inductive out :=
  | OutVal (v : bytes)
  | OutUnit
  | OutBatch (n : Z) (err : option trie_err).

Definition too_big (k : bytes) : bool := bool_decide (MaxKeyLength < Z.of_nat (length k)).

(** The map's side: the new map and the answer. *)
Definition map_op (m : gmap bytes bytes) (o : trie_op) : gmap bytes bytes * res trie_err out :=
  match o with
  | OGet k =>
      (m, if too_big k then Err (EMsg "key is too big")
          else match m !! k with Some v => Ok (OutVal v) | None => Err ErrNotFound end)
  | OPut k v =>
      if bool_decide (k = []) then (m, Err (EMsg "key is empty")) else
      if too_big k then (m, Err (EMsg "key is too big")) else
      if bool_decide (MaxValueLength < Z.of_nat (length (default [] v)))
      then (m, Err (EMsg "value is too big")) else
      match v with
      | None => (m, Err (EMsg "value is nil"))
      | Some v => (<[k := v]> m, Ok OutUnit)
      end
  | ODelete k =>
      if too_big k then (m, Err (EMsg "key is too big")) else (delete k m, Ok OutUnit)
  | OBatch c => (apply_changes (strip_keys c) m, Ok (OutBatch (Z.of_nat (size (strip_keys c))) None))
  end.

Definition op_ok (o : trie_op) : Prop := match o with OBatch c => batch_ok c | _ => True end.

(** [getWithPath] appends to the keys of extension nodes in place.  As long as each
    key has an array of its own - that is up to the first batch, whose changes are
    cut into keys of the same arrays - this writes over nothing; after a batch a
    lookup may spoil the keys of other nodes, so that only its own answer can be
    relied on ([MptAlias.lookup_corrupts]).  In the histories considered here a
    lookup comes before all batches or at the end. *)
Fixpoint reads_ok (batched : bool) (os : list trie_op) : bool :=
  match os with
  | [] => true
  | [OGet _] => true
  | OGet _ :: os => negb batched && reads_ok batched os
  | OBatch _ :: os => reads_ok true os
  | _ :: os => reads_ok batched os
  end.

Definition history_ok (os : list trie_op) : Prop := Forall op_ok os ∧ reads_ok false os = true.

Section trie.
Context `{Digest} {S : Type} `{!Store S}.

Definition trie_step (tr : Trie S) (o : trie_op) : Trie S * res trie_err out :=
  match o with
  | OGet k => let '(tr, r) := Trie_Get tr k in (tr, OutVal <$> r)
  | OPut k v => let '(tr, r) := Trie_Put tr k v in (tr, (λ _, OutUnit) <$> r)
  | ODelete k => let '(tr, r) := Trie_Delete tr k in (tr, (λ _, OutUnit) <$> r)
  | OBatch c =>
      match MapToMPTBatch c with
      | Ok b => let '(tr, r) := PutBatch tr b in (tr, (λ p, OutBatch p.1 p.2) <$> r)
      | _ => (tr, Panic)
      end
  end.

(** ** The invariant

    [t0] is the tree at the last flush, [t] the tree the trie stands for. *)
Record trie_inv (tr : Trie S) (t0 t : Node) (m : gmap bytes bytes) : Prop := {
  inv_rep : rep (t_Store tr) (t_mode tr) (t_root tr) t;
  inv_wf : wf (Z.to_nat maxPathLength) t;
  inv_holds : holds t m;
  inv_rc : rc_ok (t_Store tr) (t_mode tr) (t_refcount tr);
  inv_counts : ∀ h, cong (cnt (t_refcount tr) h) (occ h t - occ h t0);
}.

Lemma stack_fuel n : (stack n (Z.to_nat maxPathLength) <= trie_fuel)%nat.
Proof. pose proof (stack_le n (Z.to_nat maxPathLength)). unfold trie_fuel. lia. Qed.

Lemma path_ok k :
  too_big k = false → (length (toNibbles k) <= Z.to_nat maxPathLength)%nat.
Proof.
  intros Hk%bool_decide_eq_false_1. rewrite length_toNibbles.
  change MaxKeyLength with 68 in Hk. change (Z.to_nat maxPathLength) with 136%nat. lia.
Qed.

(** From a specified run to the invariant of the new trie. *)
Lemma inv_step tr t0 t t' m m' n' rc δ :
  trie_inv tr t0 t m →
  rep (t_Store tr) (t_mode tr) n' t' → wf (Z.to_nat maxPathLength) t' → holds t' m' →
  rc_ok (t_Store tr) (t_mode tr) rc → (∀ h, δ h = occ h t' - occ h t) →
  (∀ h, cong (cnt rc h) (cnt (t_refcount tr) h + δ h)) →
  trie_inv (mkTrie (t_Store tr) n' (t_mode tr) rc) t0 t' m'.
Proof.
  intros Hi Hr Hw Hh Hrc Hδ Hc. constructor; try done. intros h. cbn [t_refcount].
  destruct (Hc h) as [k1 H1]. destruct (inv_counts _ _ _ _ Hi h) as [k2 H2].
  exists (k1 + k2). rewrite H1, H2, Hδ. lia.
Qed.

Lemma trie_step_refines tr t0 t m o :
  trie_inv tr t0 t m → op_ok o →
  ∃ tr' t', trie_step tr o = (tr', (map_op m o).2) ∧ trie_inv tr' t0 t' (map_op m o).1
    ∧ t_Store tr' = t_Store tr ∧ t_mode tr' = t_mode tr.
Proof.
  intros Hi Hok. pose proof (inv_rep _ _ _ _ Hi) as Hr. pose proof (inv_wf _ _ _ _ Hi) as Hw.
  pose proof (inv_holds _ _ _ _ Hi) as Hh. pose proof (inv_rc _ _ _ _ Hi) as Hrc.
  pose proof (stack_fuel (t_root tr)) as Hf.
  destruct o as [k|k v|k|c]; cbn [trie_step map_op fst snd].
  - unfold Trie_Get. fold (too_big k). destruct (too_big k) eqn:Hk; [by eexists _, _|].
    destruct (getWithPath_spec _ _ trie_fuel _ _ _ (toNibbles k) Hr Hw ltac:(done) (nibbles_toNibbles k) Hf _ Hrc)
      as (rc' & r & δ & E & Hrc' & [Hδ Hg] & Hc). rewrite E. rewrite (holds_lookup _ _ _ Hh) in Hg.
    destruct (m !! k) as [v|].
    + destruct Hg as (n' & pre & -> & Hr'). eexists _, t. split; [done|]. split; [|done].
      eapply (inv_step _ _ _ _ _ _ _ _ δ); try done. intros h. rewrite Hδ. lia.
    + subst r. eexists _, t. split; [done|]. split; [|done]. eapply (inv_step _ _ _ _ _ _ _ _ δ); try done.
      intros h. rewrite Hδ. lia.
  - unfold Trie_Put. case_bool_decide; [by eexists _, _|]. fold (too_big k).
    destruct (too_big k) eqn:Hk; [by eexists _, _|]. case_bool_decide as Hv; [by eexists _, _|].
    destruct v as [v|]; [|by eexists _, _]. cbn in Hv.
    destruct (putIntoNode_spec (t_Store tr) (t_mode tr) v ltac:(lia) trie_fuel _ _ _ (toNibbles k) Hr Hw
      ltac:(done) (nibbles_toNibbles k) (path_ok k Hk) Hf _ Hrc)
      as (rc' & r & δ & E & Hrc' & (n' & -> & t' & Hr' & Hw' & _ & _ & Hu & Hδ) & Hc). rewrite E.
    eexists _, t'. split; [done|]. split; [|done]. eapply (inv_step _ _ _ _ _ _ _ _ δ); try done.
    exact (holds_updated _ _ _ _ _ Hh Hu).
  - unfold Trie_Delete. fold (too_big k). destruct (too_big k) eqn:Hk; [by eexists _, _|].
    destruct (deleteFromNode_spec (t_Store tr) (t_mode tr) trie_fuel _ _ _ (toNibbles k) Hr Hw
      ltac:(done) (nibbles_toNibbles k) (path_ok k Hk) Hf _ Hrc)
      as (rc' & r & δ & E & Hrc' & (? & -> & n' & t' & -> & Hr' & Hw' & _ & Hu & Hδ) & Hc). rewrite E.
    eexists _, t'. split; [done|]. split; [|done]. eapply (inv_step _ _ _ _ _ _ _ _ δ); try done.
    exact (holds_updated _ _ _ _ _ Hh Hu).
  - cbn in Hok. rewrite (MapToMPTBatch_ok c Hok).
    pose proof (length_batch_items c Hok) as Hlen.
    pose proof (batch_items_ok c (Z.to_nat maxPathLength) Hok ltac:(done)) as Hkv.
    destruct (decide (batch_items c = [])) as [Hnil|Hne].
    + rewrite Hnil in Hlen |- *. cbn [PutBatch]. rewrite <- Hlen. eexists _, t. split; [done|].
      split; [|done]. destruct Hi as [H1 H2 H3 H4 H5]. constructor; try done.
      apply (holds_batch t t m c Hok Hh). rewrite Hnil. by intros p.
    + assert (∀ tr b, b ≠ [] → PutBatch tr b =
        let '(m, r) := putBatchIntoNode (t_Store tr) (t_mode tr) trie_fuel (t_root tr) b (t_refcount tr) in
        match r with
        | Ok (r, n, err) => (mkTrie (t_Store tr) r (t_mode tr) m, Ok (n, err))
        | Err e => (mkTrie (t_Store tr) (t_root tr) (t_mode tr) m, Err e)
        | Panic => (mkTrie (t_Store tr) (t_root tr) (t_mode tr) m, Panic)
        end) as Heq by (by intros ? []).
      rewrite (Heq _ _ Hne).
      destruct (putBatchIntoNode_spec (t_Store tr) (t_mode tr) trie_fuel _ _ _ (batch_items c) Hr Hw
        ltac:(done) Hkv Hne Hf _ Hrc)
        as (rc' & r & δ & E & Hrc' & (? & -> & n' & t' & -> & Hr' & Hw' & Hu & Hδ) & Hc). rewrite E.
      eexists _, t'. split; [cbn; by rewrite Hlen|]. split; [|done]. eapply (inv_step _ _ _ _ _ _ _ _ δ); try done.
      by apply (holds_batch t).
Qed.

Fixpoint trie_run (tr : Trie S) (os : list trie_op) : Trie S * list (res trie_err out) :=
  match os with
  | [] => (tr, [])
  | o :: os => let '(tr, r) := trie_step tr o in
               let '(tr, rs) := trie_run tr os in (tr, r :: rs)
  end.

Fixpoint map_run (m : gmap bytes bytes) (os : list trie_op) : gmap bytes bytes * list (res trie_err out) :=
  match os with
  | [] => (m, [])
  | o :: os => let '(m, r) := map_op m o in
               let '(m, rs) := map_run m os in (m, r :: rs)
  end.

Lemma trie_run_refines tr t0 t m os :
  trie_inv tr t0 t m → Forall op_ok os →
  ∃ tr' t', trie_run tr os = (tr', (map_run m os).2) ∧ trie_inv tr' t0 t' (map_run m os).1
    ∧ t_Store tr' = t_Store tr ∧ t_mode tr' = t_mode tr.
Proof.
  intros Hi Hos. revert tr t m Hi. induction Hos as [|o os Ho _ IH]; intros tr t m Hi; cbn [trie_run map_run].
  { by exists tr, t. }
  destruct (trie_step_refines _ _ _ _ _ Hi Ho) as (tr1 & t1 & E & Hi1 & Hs & Hm). rewrite E.
  destruct (map_op m o) as [m1 r1]. cbn [fst snd] in *.
  destruct (IH _ _ _ Hi1) as (tr2 & t2 & E2 & Hi2 & Hs2 & Hm2). rewrite E2.
  destruct (map_run m1 os) as [m2 rs]. cbn [fst snd] in *. exists tr2, t2.
  split_and!; try done; congruence.
Qed.

(** A new trie over an empty root. *)
Lemma holds_empty : holds EmptyNode ∅.
Proof. intros p _. unfold content. cbn. case_bool_decide; [|done]. by rewrite lookup_empty. Qed.

Lemma trie_inv_new st mode : trie_inv (NewTrie EmptyNode mode st) EmptyNode EmptyNode ∅.
Proof.
  constructor; cbn.
  - constructor.
  - constructor.
  - apply holds_empty.
  - intros h c [=].
  - intros h. exists 0. done.
Qed.

Lemma StateRoot_rep tr t0 t m :
  trie_inv tr t0 t m → StateRoot tr = if isEmpty t then zero256 else node_Hash t.
Proof.
  intros Hi. pose proof (inv_rep _ _ _ _ Hi) as Hr. unfold StateRoot. rewrite (rep_isEmpty _ _ _ _ Hr).
  destruct (isEmpty t) eqn:He; [done|]. by eapply rep_Hash.
Qed.
End trie.

(** ** Properties *)

(** C24: whatever the sequence of insertions, removals and batches, with lookups
    before the first batch and at the end, a trie that starts empty answers each
    of them as the finite map does: a lookup finds exactly the last value put under
    its key, oversized keys and values, the empty key and the nil value are refused
    with their error and without effect, a batch does all of its changes, and no
    operation fails or runs out of stack.  A lookup after a batch may spoil what
    comes later ([MptAlias.lookup_corrupts]), hence the restriction. *)
Theorem trie_refines_map `{Digest} S (HS : Store S) (st : MemCachedStore S) (mode : Z)
    (os : list trie_op) :
  history_ok os → (trie_run (NewTrie EmptyNode mode st) os).2 = (map_run ∅ os).2.
Proof.
  intros [Hos _]. destruct (trie_run_refines _ _ _ _ os (trie_inv_new st mode) Hos) as (tr' & t' & E & _).
  by rewrite E.
Qed.

Definition w_st : MemCachedStore MemoryStore := NewMemCachedStore NewMemoryStore.
Definition w_batch : changes := <[[x70; xaa; xbb] := None]> {[[x70; xac] := Some [x07]]}.
Definition w_ops : list trie_op :=
  [OPut [xaa; xbb] (Some [x01]); OPut [xaa; xcc] (Some [x02]); OGet [xaa; xcc]; ODelete [xaa; xcc];
   OPut [] (Some [x03]); OGet [xaa; xbb]; OBatch w_batch; OGet [xac]].

Lemma w_batch_ok : batch_ok w_batch.
Proof.
  split.
  - intros k o. unfold w_batch. intros [[<- <-]|[_ [<- <-]%lookup_singleton_Some]]%lookup_insert_Some;
      (split; [done|]); split; by vm_compute.
  - unfold w_batch. intros k1 k2 [o1 [[<- _]|[_ [<- _]%lookup_singleton_Some]]%lookup_insert_Some]
      [o2 [[<- _]|[_ [<- _]%lookup_singleton_Some]]%lookup_insert_Some]; done.
Qed.

Lemma w_ops_ok : history_ok w_ops.
Proof.
  split; [|reflexivity].
  unfold w_ops. repeat (apply Forall_cons; split; [exact I || exact w_batch_ok|]). apply Forall_nil_2.
Qed.

Lemma trie_refines_map_witness :
  history_ok w_ops ∧ (trie_run (NewTrie EmptyNode ModeAll w_st) w_ops).2
    = [Ok OutUnit; Ok OutUnit; Ok (OutVal [x02]); Ok OutUnit; Err (EMsg "key is empty");
       Ok (OutVal [x01]); Ok (OutBatch 2 None); Ok (OutVal [x07])].
Proof.
  split; [exact w_ops_ok|]. rewrite (trie_refines_map _ _ w_st ModeAll w_ops w_ops_ok). by vm_compute.
Defined.

(** C25: the root hash is a function of the contents: two tries that end up with
    the same map have the same root, whatever operations led there - with lookups
    before the first batch and at the end only, see [reads_ok] - whatever their
    stores and modes, whether changes came one by one or in batches; and the root
    is the zero hash when the map is empty. *)
Theorem root_history_independent `{Digest} S1 S2 (HS1 : Store S1) (HS2 : Store S2)
    (st1 : MemCachedStore S1) (st2 : MemCachedStore S2) (mode1 mode2 : Z) (os1 os2 : list trie_op) :
  history_ok os1 → history_ok os2 → (map_run ∅ os1).1 = (map_run ∅ os2).1 →
  StateRoot (trie_run (NewTrie EmptyNode mode1 st1) os1).1
    = StateRoot (trie_run (NewTrie EmptyNode mode2 st2) os2).1
  ∧ ((map_run ∅ os1).1 = ∅ → StateRoot (trie_run (NewTrie EmptyNode mode1 st1) os1).1 = zero256).
Proof.
  intros [Hos1 _] [Hos2 _] Hm.
  destruct (trie_run_refines _ _ _ _ os1 (trie_inv_new st1 mode1) Hos1) as (tr1 & t1 & E1 & Hi1 & _).
  destruct (trie_run_refines _ _ _ _ os2 (trie_inv_new st2 mode2) Hos2) as (tr2 & t2 & E2 & Hi2 & _).
  rewrite E1, E2. cbn [fst]. rewrite (StateRoot_rep _ _ _ _ Hi1), (StateRoot_rep _ _ _ _ Hi2).
  rewrite Hm in Hi1 |- *. split.
  - assert (t1 = t2) as ->; [|done].
    apply (wf_unique _ _ _ _ (inv_wf _ _ _ _ Hi1) (inv_wf _ _ _ _ Hi2)). intros p Hp.
    by rewrite (inv_holds _ _ _ _ Hi1 p Hp), (inv_holds _ _ _ _ Hi2 p Hp).
  - intros Hempty. rewrite Hempty in Hi1. assert (t1 = EmptyNode) as ->; [|done].
    apply (same_empty _ _ (inv_wf _ _ _ _ Hi1)). intros p Hp.
    rewrite (inv_holds _ _ _ _ Hi1 p Hp). exact (holds_empty p Hp).
Qed.

Definition w_ops' : list trie_op := [OPut [xac] (Some [x07])].

Lemma root_history_independent_witness :
  (map_run ∅ w_ops).1 = (map_run ∅ w_ops').1
  ∧ StateRoot (trie_run (NewTrie EmptyNode ModeAll w_st) w_ops).1
    = StateRoot (trie_run (NewTrie EmptyNode ModeGC w_st) w_ops').1.
Proof.
  assert ((map_run ∅ w_ops).1 = (map_run ∅ w_ops').1) as Hm.
  { apply (bool_decide_eq_true_1 _). vm_compute. reflexivity. }
  assert (history_ok w_ops') as Hok'.
  { split; [|reflexivity]. apply Forall_cons. split; [exact I|apply Forall_nil_2]. }
  split; [exact Hm|].
  destruct (root_history_independent _ _ _ _ w_st w_st ModeAll ModeGC w_ops w_ops' w_ops_ok Hok' Hm)
    as [Hr _]. exact Hr.
Defined.
