(* ===== verification/MptAlias.v ===== *)
(** * MptAlias: keys of nodes that share memory

    The keys of extension nodes are slices of byte arrays, and a batch leaves
    several of them in one array ([lcp] and [stripPrefix] cut the keys of its
    changes).  [getWithPath] appends the rest of the path to such a key in place
    ([append(n.key, prefix...)]), which writes over what follows it in its array.
    [Mpt] models keys as lists, which is right as long as nothing that is still
    used follows.  This file has the arrays: lookups and batches once more, on
    slices; that lookups then do what [Mpt] says if every key ends where the
    keys in its array end; and what happens after a batch, where they do not. *)

From stdpp Require Import strings.
From S2P Require Import Prelude BinIO Storage Hash MptNode MptTree Mpt.
#[local] Open Scope Z_scope.

(** ** Arrays and slices

    The capacity of a slice is what its array has from its offset on. *)
Record slice := mkSlice { sl_buf : positive; sl_off : nat; sl_len : nat }.

Record Bufs := mkBufs { bf_map : gmap positive bytes; bf_next : positive }.

Definition buf_of (B : Bufs) (b : positive) : bytes := default [] (bf_map B !! b).
Definition sl_end (s : slice) : nat := (sl_off s + sl_len s)%nat.
Definition sl_bytes (B : Bufs) (s : slice) : bytes := take (sl_len s) (drop (sl_off s) (buf_of B (sl_buf s))).

(** A new array, with [spare] bytes behind the contents. *)
Definition make (bs : bytes) (spare : nat) (B : Bufs) : slice * Bufs :=
  (mkSlice (bf_next B) 0 (length bs),
   mkBufs (<[bf_next B := bs ++ replicate spare x00]> (bf_map B)) (Pos.succ (bf_next B))).

(** [s[n:]] and [s[:n]] *)
Definition sl_drop (n : nat) (s : slice) : slice := mkSlice (sl_buf s) (sl_off s + n) (sl_len s - n).
Definition sl_take (n : nat) (s : slice) : slice := mkSlice (sl_buf s) (sl_off s) n.

(** The nodes of [MptNode] with slices as keys. *)
Inductive anode :=
  | ALeaf (value : bytes)
  | ABranch (Children : list anode)
  | AExt (key : slice) (next : anode)
  | AHash (hash : bytes) (Collapsed : bool)
  | AEmpty.

Fixpoint a_abs (B : Bufs) (n : anode) : Node :=
  match n with
  | ALeaf v => LeafNode v
  | ABranch cs => BranchNode (map (a_abs B) cs)
  | AExt key next => ExtensionNode (sl_bytes B key) (a_abs B next)
  | AHash h c => HashNode h c
  | AEmpty => EmptyNode
  end.

Fixpoint akeys (n : anode) : list slice :=
  match n with
  | ABranch cs => flat_map akeys cs
  | AExt key next => key :: akeys next
  | _ => []
  end.

(** A node that is read from the store has keys of its own, without capacity to
    spare. *)
Fixpoint a_load (n : Node) (B : Bufs) : anode * Bufs :=
  match n with
  | LeafNode v => (ALeaf v, B)
  | BranchNode cs =>
      let '(cs, B) := (fix go cs B := match cs with
                       | [] => ([], B)
                       | c :: cs => let '(c, B) := a_load c B in let '(cs, B) := go cs B in (c :: cs, B)
                       end) cs B in (ABranch cs, B)
  | ExtensionNode key next => let '(k, B) := make key 0 B in let '(next, B) := a_load next B in (AExt k next, B)
  | HashNode h c => (AHash h c, B)
  | EmptyNode => (AEmpty, B)
  end.

Definition aIsEmpty (n : anode) : bool := match n with AEmpty => true | _ => false end.

(** ** The monad of [Mpt] with the arrays *)

Definition AM (A : Type) : Type := rcmap * Bufs → (rcmap * Bufs) * res trie_err A.

#[export] Instance AM_ret : MRet AM := λ A a s, (s, Ok a).
#[export] Instance AM_bind : MBind AM := λ A B f x s,
  match x s with
  | (s, Ok a) => f a s
  | (s, Err e) => (s, Err e)
  | (s, Panic) => (s, Panic)
  end.

Definition a_fail {A} (e : trie_err) : AM A := λ s, (s, Err e).
Definition a_panic {A} : AM A := λ s, (s, Panic).
Definition a_opt {A} (o : option A) : AM A := match o with Some a => mret a | None => a_panic end.
Definition a_counts {A} (x : M A) : AM A := λ '(m, B), let '(m, r) := x m in ((m, B), r).
Definition a_try {A} (x : AM A) : AM (A + trie_err) := λ s,
  match x s with
  | (s, Ok a) => (s, Ok (inl a))
  | (s, Err e) => (s, Ok (inr e))
  | (s, Panic) => (s, Panic)
  end.
Definition a_bufs {A} (f : Bufs → A) : AM A := λ '(m, B), ((m, B), Ok (f B)).
Definition a_make (bs : bytes) (spare : nat) : AM slice := λ '(m, B), let '(s, B) := make bs spare B in ((m, B), Ok s).

Section alias.
Context `{Digest} {S : Type} `{!Store S} (st : MemCachedStore S) (mode : Z).

(** The capacity that [append] adds to a new array of this length is up to the
    run time. *)
Context (grow : nat → nat).

(** [append]: in place if the capacity is enough. *)
Definition append (s : slice) (xs : bytes) (B : Bufs) : slice * Bufs :=
  let buf := buf_of B (sl_buf s) in
  if bool_decide (sl_end s + length xs <= length buf)%nat then
    (mkSlice (sl_buf s) (sl_off s) (sl_len s + length xs),
     mkBufs (<[sl_buf s := take (sl_end s) buf ++ xs ++ drop (sl_end s + length xs) buf]> (bf_map B)) (bf_next B))
  else make (sl_bytes B s ++ xs) (grow (sl_len s + length xs)) B.

Definition a_append (s : slice) (xs : bytes) : AM slice := λ '(m, B), let '(s, B) := append s xs B in ((m, B), Ok s).

Definition a_loaded (n : Node) : AM anode := λ '(m, B), let '(n, B) := a_load n B in ((m, B), Ok n).

Definition a_getFromStore (h : bytes) : AM anode := n ← a_counts (getFromStore st mode h); a_loaded n.

Definition a_bytes (s : slice) : AM bytes := a_bufs (λ B, sl_bytes B s).

(** ** Lookup *)

Fixpoint agetWithPath (fuel : nat) (curr : anode) (path : bytes) (strict : bool) : AM (anode * anode * bytes) :=
  match fuel with
  | O => a_panic
  | Datatypes.S fuel =>
      match curr with
      | ALeaf _ => if bool_decide (path = []) then mret (curr, curr, []) else a_fail ErrNotFound
      | ABranch cs =>
          let '(i, path) := splitPath path in
          if bool_decide (i = lastChild) && negb strict then mret (curr, curr, [])
          else
            c ← a_opt (cs !! i);
            '(r, res, prefix) ← agetWithPath fuel c path strict;
            mret (ABranch (<[i := r]> cs), res, z2b (Z.of_nat i) :: prefix)
      | AEmpty => a_fail ErrNotFound
      | AHash h _ =>
          r ← a_try (a_getFromStore h);
          match r with
          | inl r => agetWithPath fuel r path strict
          | inr e => a_fail (if bool_decide (e = EDecode errTooManyNodes) then e else ErrNotFound)
          end
      | AExt key next =>
          k ← a_bytes key;
          if bool_decide (path = []) && negb strict then mret (curr, next, k)
          else if has_prefix path k then
            '(r, res, prefix) ← agetWithPath fuel next (drop (length k) path) strict;
            p ← a_append key prefix;
            p ← a_bytes p;
            mret (AExt key r, res, p)
          else if negb strict && has_prefix k path then mret (curr, next, k)
          else a_fail ErrNotFound
      end
  end.

(** ** Batches *)

Definition a_addRef (n : anode) : AM unit := n ← a_bufs (λ B, a_abs B n); a_counts (addRef_node n).
Definition a_removeRef (n : anode) : AM unit := n ← a_bufs (λ B, a_abs B n); a_counts (removeRef_node n).

Abbreviation akvs := (list (slice * option bytes)).

(** [lcp] gives the start of the shorter slice, of [b] if none is. *)
Definition alcp (a b : slice) : AM slice :=
  n ← a_bufs (λ B, length (lcp (sl_bytes B a) (sl_bytes B b)));
  mret (sl_take n (if bool_decide (sl_len a < sl_len b)%nat then a else b)).

Fixpoint alcp_fold (p : slice) (kv : akvs) : AM slice :=
  match kv with [] => mret p | z :: kv => p ← alcp p z.1; alcp_fold p kv end.

Definition alcpMany (kv : akvs) : AM slice :=
  match kv with
  | [] => a_panic
  | [x] => mret x.1
  | x :: y :: t =>
      p ← alcp x.1 y.1;
      if bool_decide (sl_len p = 0)%nat then mret p else alcp_fold p t
  end.

Definition astripPrefix (n : nat) (kv : akvs) : option akvs :=
  if forallb (λ x, bool_decide (n <= sl_len x.1)%nat) kv
  then Some (map (λ x, (sl_drop n x.1, x.2)) kv) else None.

Definition agetLastIndex (kv : akvs) : AM (nat * nat) :=
  r ← a_bufs (λ B, getLastIndex (map (λ x, (sl_bytes B x.1, x.2)) kv)); a_opt r.

Definition anewSubTrie (path : slice) (val : anode) (newVal : bool) : AM anode :=
  (if newVal then a_addRef val else mret tt) ;;
  if bool_decide (sl_len path = 0)%nat then mret val
  else let e := AExt path val in a_addRef e ;; mret e.

(** [mergeExtension] appends in place as well. *)
Fixpoint amergeExtension (fuel : nat) (prefix : slice) (sub : anode) : AM (anode * option trie_err) :=
  match fuel with
  | O => a_panic
  | Datatypes.S fuel =>
      match sub with
      | AExt key next =>
          a_removeRef sub ;;
          k ← a_bytes key;
          key ← a_append prefix k;
          let sn := AExt key next in
          a_addRef sn ;; mret (sn, None)
      | AEmpty => mret (sub, None)
      | AHash h _ =>
          n ← a_try (a_getFromStore h);
          match n with
          | inr e => mret (sub, Some e)
          | inl n => amergeExtension fuel prefix n
          end
      | _ =>
          if bool_decide (sl_len prefix = 0)%nat then mret (sub, None)
          else let e := AExt prefix sub in a_addRef e ;; mret (e, None)
      end
  end.

Fixpoint acount_children (i : nat) (cs : list anode) : nat * nat :=
  match cs with
  | [] => (0, 0)%nat
  | c :: cs =>
      let '(count, index) := acount_children (i + 1) cs in
      if aIsEmpty c then (count, index)
      else ((count + 1)%nat, if bool_decide (count = 0)%nat then i else index)
  end.

Definition astripBranch (cs : list anode) : AM (anode * option trie_err) :=
  let '(n, lastIndex) := acount_children 0 cs in
  match n with
  | O => mret (AEmpty, None)
  | 1%nat =>
      c ← a_opt (cs !! lastIndex);
      if bool_decide (lastIndex = lastChild) then mret (c, None)
      else k ← a_make [z2b (Z.of_nat lastIndex)] 0; amergeExtension merge_fuel k c
  | _ => a_addRef (ABranch cs) ;; mret (ABranch cs, None)
  end.

Section batch.
Context (aputBatchIntoNode : anode → akvs → AM (anode * Z * option trie_err)).

Fixpoint aiterateBatch (k : nat) (cs : list anode) (kv : akvs) : AM (list anode * Z * option trie_err) :=
  match kv with
  | [] => mret (cs, 0, None)
  | _ =>
      match k with
      | O => a_panic
      | Datatypes.S k =>
          '(c, i) ← agetLastIndex kv;
          here ← a_opt (if bool_decide (c = lastChild) then Some (take i kv)
                        else astripPrefix 1 (take i kv));
          old ← a_opt (cs !! c);
          '(child, sub, err) ← aputBatchIntoNode old here;
          let cs := <[c := child]> cs in
          match err with
          | Some _ => mret (cs, sub, err)
          | None =>
              '(cs, n, err) ← aiterateBatch k cs (drop i kv);
              mret (cs, sub + n, err)
          end
      end
  end.

Definition aaddToBranch (cs : list anode) (kv : akvs) (inTrie : bool) : AM (anode * Z * option trie_err) :=
  (if inTrie then a_removeRef (ABranch cs) else mret tt) ;;
  '(cs, n, err) ← aiterateBatch (length kv) cs kv;
  '(nd, bErr) ← astripBranch cs;
  mret (nd, n, match err with None => bErr | _ => err end).

Definition amerge_after (prefix : slice) (r : anode * Z * option trie_err) : AM (anode * Z * option trie_err) :=
  let '(nd, n, err) := r in
  match err with
  | Some _ => mret r
  | None => '(nd, err) ← amergeExtension merge_fuel prefix nd; mret (nd, n, err)
  end.

Fixpoint anewSubTrieMany (prefix : slice) (kv : akvs) (value : option bytes) : AM (anode * Z * option trie_err) :=
  let many value :=
    (cs ← match value with
          | Some v =>
              let leaf := ALeaf v in
              a_addRef leaf ;; mret (<[lastChild := leaf]> (replicate childrenCount AEmpty))
          | None => mret (replicate childrenCount AEmpty)
          end;
     r ← aaddToBranch cs kv false;
     amerge_after prefix r) in
  match kv with
  | [] => a_panic
  | (k, v) :: t =>
      if bool_decide (sl_len k = 0)%nat then
        match v, t with
        | None, [] => mret (AEmpty, 1, None)
        | None, _ => '(node, n, err) ← anewSubTrieMany prefix t None; mret (node, n + 1, err)
        | Some v, [] => node ← anewSubTrie prefix (ALeaf v) true; mret (node, 1, None)
        | Some v, _ => many (Some v)
        end
      else many value
  end.

(** The nil prefix. *)
Definition nil_slice : slice := mkSlice 1 0 0.

Definition aputBatchIntoLeaf (v : bytes) (kv : akvs) : AM (anode * Z * option trie_err) :=
  a_removeRef (ALeaf v) ;; anewSubTrieMany nil_slice kv (Some v).

Definition aputBatchIntoExtensionNoPrefix (key : slice) (next : anode) (kv : akvs)
    : AM (anode * Z * option trie_err) :=
  k ← a_bytes key;
  match k with
  | [] => a_panic
  | k0 :: _ =>
      s ← if bool_decide (1 < sl_len key)%nat then anewSubTrie (sl_drop 1 key) next false else mret next;
      aaddToBranch (<[Z.to_nat (b2z k0) := s]> (replicate childrenCount AEmpty)) kv false
  end.

Definition aputBatchIntoExtension (key : slice) (next : anode) (kv : akvs) : AM (anode * Z * option trie_err) :=
  a_removeRef (AExt key next) ;;
  common ← alcpMany kv;
  pref ← alcp common key;
  if bool_decide (sl_len pref = sl_len key) then
    kv ← a_opt (astripPrefix (sl_len key) kv);
    r ← aputBatchIntoNode next kv;
    amerge_after pref r
  else if negb (bool_decide (sl_len pref = 0)%nat) then
    kv ← a_opt (astripPrefix (sl_len pref) kv);
    r ← aputBatchIntoExtensionNoPrefix (sl_drop (sl_len pref) key) next kv;
    amerge_after pref r
  else aputBatchIntoExtensionNoPrefix key next kv.

Definition aputBatchIntoEmpty (kv : akvs) : AM (anode * Z * option trie_err) :=
  common ← alcpMany kv;
  kv ← a_opt (astripPrefix (sl_len common) kv);
  anewSubTrieMany common kv None.

Definition aputBatchIntoHash (curr : anode) (h : bytes) (kv : akvs) : AM (anode * Z * option trie_err) :=
  r ← a_try (a_getFromStore h);
  match r with
  | inl result => aputBatchIntoNode result kv
  | inr e => mret (curr, 0, Some e)
  end.
End batch.

Fixpoint aputBatchIntoNode (fuel : nat) (curr : anode) (kv : akvs) : AM (anode * Z * option trie_err) :=
  match fuel with
  | O => a_panic
  | Datatypes.S fuel =>
      match curr with
      | ALeaf v => aputBatchIntoLeaf (aputBatchIntoNode fuel) v kv
      | ABranch cs => aaddToBranch (aputBatchIntoNode fuel) cs kv true
      | AExt key next => aputBatchIntoExtension (aputBatchIntoNode fuel) key next kv
      | AHash h _ => aputBatchIntoHash (aputBatchIntoNode fuel) curr h kv
      | AEmpty => aputBatchIntoEmpty (aputBatchIntoNode fuel) kv
      end
  end.

(** ** A trie of such nodes

    The paths of a batch are new arrays without capacity to spare
    ([strToNibbles]), in the order of the sorted batch. *)

Record ATrie := mkATrie { at_root : anode; at_refcount : rcmap; at_bufs : Bufs }.

Fixpoint a_batch (kv : kvs) (B : Bufs) : akvs * Bufs :=
  match kv with
  | [] => ([], B)
  | (k, v) :: kv => let '(s, B) := make k 0 B in let '(kv, B) := a_batch kv B in ((s, v) :: kv, B)
  end.

Definition aPutBatch (kv : kvs) (t : ATrie) : ATrie * res trie_err (Z * option trie_err) :=
  match kv with
  | [] => (t, Ok (0, None))
  | _ =>
      let '(kv, B) := a_batch kv (at_bufs t) in
      let '((m, B), r) := aputBatchIntoNode trie_fuel (at_root t) kv (at_refcount t, B) in
      match r with
      | Ok (root, n, err) => (mkATrie root m B, Ok (n, err))
      | Err e => (mkATrie (at_root t) m B, Err e)
      | Panic => (mkATrie (at_root t) m B, Panic)
      end
  end.

Definition aTrie_Get (key : bytes) (t : ATrie) : ATrie * res trie_err bytes :=
  if bool_decide (MaxKeyLength < Z.of_nat (length key)) then (t, Err (EMsg "key is too big")) else
  let '((m, B), r) := agetWithPath trie_fuel (at_root t) (toNibbles key) true (at_refcount t, at_bufs t) in
  match r with
  | Ok (r, leaf, _) => (mkATrie r m B, match leaf with ALeaf v => Ok v | _ => Panic end)
  | Err e => (mkATrie (at_root t) m B, Err e)
  | Panic => (mkATrie (at_root t) m B, Panic)
  end.
End alias.

(** ** What a lookup does after a batch *)

Section corruption.
#[local] Existing Instance toy_Digest.

Definition empty_trie : ATrie := mkATrie AEmpty ∅ (mkBufs ∅ 2).

Definition no_store : MemCachedStore MemoryStore := NewMemCachedStore NewMemoryStore.

(** The changes of the keys 1122 and 1133, with a storage prefix. *)
Definition two_keys : res unit kvs :=
  MapToMPTBatch {[ [x70; x11; x22] := Some [x01]; [x70; x11; x33] := Some [x02] ]}.

(** The key of the extension above the branch is the start of the path of 1133,
    whose last nibble is the key of another extension: looking 1122 up writes it
    over the path of 1133, which is not found any more. *)
Theorem lookup_corrupts :
  match two_keys with
  | Ok kv =>
      let '(t, r) := aPutBatch no_store ModeAll (λ _, 0%nat) kv empty_trie in
      let '(t', r1) := aTrie_Get no_store ModeAll (λ _, 0%nat) [x11; x22] t in
      r = Ok (2, None) ∧ r1 = Ok [x01]
      ∧ (aTrie_Get no_store ModeAll (λ _, 0%nat) [x11; x33] t).2 = Ok [x02]
      ∧ (aTrie_Get no_store ModeAll (λ _, 0%nat) [x11; x33] t').2 = Err ErrNotFound
  | _ => False
  end.
Proof. vm_compute. done. Qed.
End corruption.

(** ** Lookups when nothing follows

    [E]: where the keys in each array end.  If all keys of a node in one array end
    at the same place, what a lookup appends there is no part of any of them. *)

Section anode_ind.
Context (P : anode → Prop)
  (Hleaf : ∀ v, P (ALeaf v))
  (Hbranch : ∀ cs, Forall P cs → P (ABranch cs))
  (Hext : ∀ k n, P n → P (AExt k n))
  (Hhash : ∀ h c, P (AHash h c))
  (Hempty : P AEmpty).

Fixpoint anode_ind' (n : anode) : P n :=
  match n with
  | ALeaf v => Hleaf v
  | ABranch cs =>
      Hbranch cs ((fix go cs : Forall P cs :=
        match cs with [] => Forall_nil_2 P | c :: t => Forall_cons_2 P c t (anode_ind' c) (go t) end) cs)
  | AExt k n => Hext k n (anode_ind' n)
  | AHash h c => Hhash h c
  | AEmpty => Hempty
  end.
End anode_ind.

Definition ends (E : positive → nat) (B : Bufs) (s : slice) : Prop :=
  sl_end s = E (sl_buf s) ∧ (sl_buf s < bf_next B)%positive ∧ (E (sl_buf s) <= length (buf_of B (sl_buf s)))%nat.

Definition ends_node (E : positive → nat) (B : Bufs) (n : anode) : Prop := Forall (ends E B) (akeys n).

(** From [B] to [B'] only the bytes behind the ends and new arrays change. *)
Definition behind (E : positive → nat) (B : Bufs) (E' : positive → nat) (B' : Bufs) : Prop :=
  (bf_next B <= bf_next B')%positive ∧
  ∀ b, (b < bf_next B)%positive →
    E' b = E b ∧ length (buf_of B' b) = length (buf_of B b) ∧ take (E b) (buf_of B' b) = take (E b) (buf_of B b).

Lemma behind_refl E B : behind E B E B.
Proof. split; [lia|done]. Qed.

Lemma behind_trans E1 B1 E2 B2 E3 B3 : behind E1 B1 E2 B2 → behind E2 B2 E3 B3 → behind E1 B1 E3 B3.
Proof.
  intros [Hn1 H1] [Hn2 H2]. split; [lia|]. intros b Hb. destruct (H1 b Hb) as (He & Hl & Ht).
  destruct (H2 b ltac:(lia)) as (He' & Hl' & Ht'). rewrite He in Ht'. split; [congruence|]. split; congruence.
Qed.

Lemma take_drop_take {A} (l : list A) o n : take n (drop o l) = drop o (take (o + n) l).
Proof. by rewrite skipn_firstn_comm, Nat.add_comm, Nat.add_sub. Qed.

Lemma ends_bytes E B E' B' s : behind E B E' B' → ends E B s → sl_bytes B' s = sl_bytes B s ∧ ends E' B' s.
Proof.
  intros [Hn H] (He & Hb & Hl). destruct (H _ Hb) as (HE & HL & Ht). unfold sl_bytes, ends.
  rewrite !take_drop_take. fold (sl_end s). rewrite He, Ht, HE, HL. split; [done|]. split; [done|]. split; [lia|done].
Qed.

Lemma ends_frame E B E' B' n : behind E B E' B' → ends_node E B n → a_abs B' n = a_abs B n ∧ ends_node E' B' n.
Proof.
  intros Hbe. induction n as [v|l IH|k n IH|h c|] using anode_ind'; intros Hn;
    try solve [split; [done|constructor]].
  - unfold ends_node in *. cbn in Hn.
    assert (Forall (λ c, a_abs B' c = a_abs B c ∧ ends_node E' B' c) l) as Hcs.
    { induction IH as [|c cs Hc _ IH2]; [constructor|]. cbn in Hn. apply Forall_app in Hn as [H1 H2].
      constructor; [by apply Hc|by apply IH2]. }
    split.
    + cbn. f_equal. apply map_ext_Forall. by eapply Forall_impl; [exact Hcs|intros ? [? _]].
    + clear IH Hn. induction Hcs as [|c cs [_ Hc] _ IH2]; cbn; [constructor|]. apply Forall_app. by split.
  - apply Forall_cons in Hn as [Hk Hn]. destruct (ends_bytes _ _ _ _ _ Hbe Hk) as [Hs Hk'].
    destruct (IH Hn) as [Ha Hn']. split; [cbn; by rewrite Hs, Ha|by constructor].
Qed.

(** *** New arrays *)

Definition set_end (E : positive → nat) (b : positive) (e : nat) : positive → nat :=
  λ b', if bool_decide (b' = b) then e else E b'.

Lemma make_spec E bs spare B s B' : make bs spare B = (s, B') →
  ∃ E', behind E B E' B' ∧ ends E' B' s ∧ sl_bytes B' s = bs.
Proof.
  intros [= <- <-]. exists (set_end E (bf_next B) (length bs)). unfold set_end. split; [split; [cbn; lia|]|].
  - intros b Hb. rewrite bool_decide_eq_false_2 by lia. unfold buf_of. cbn.
    by rewrite lookup_insert_ne by lia.
  - unfold ends, sl_bytes, sl_end, buf_of. cbn. rewrite lookup_insert_eq, bool_decide_eq_true_2 by done. cbn.
    rewrite length_app. split; [|by rewrite drop_0, take_app_length]. split; [lia|]. split; [lia|]. lia.
Qed.

Lemma a_load_branch cs B : a_load (BranchNode cs) B
  = let '(cs, B) := (fix go cs B := match cs with
                       | [] => ([], B)
                       | c :: cs => let '(c, B) := a_load c B in let '(cs, B) := go cs B in (c :: cs, B)
                       end) cs B in (ABranch cs, B).
Proof. done. Qed.

Lemma a_load_spec n E B n' B' : a_load n B = (n', B') →
  ∃ E', behind E B E' B' ∧ ends_node E' B' n' ∧ a_abs B' n' = n.
Proof.
  revert E B n' B'. induction n as [v|l IH|k n IH|h c|] using Node_ind'; intros E B n' B'.
  - intros [= <- <-]. exists E. split; [apply behind_refl|]. split; [constructor|done].
  - rewrite a_load_branch. match goal with |- context [?f l B] => set (go := f) end.
    assert (∀ E B cs' B', go l B = (cs', B') →
      ∃ E', behind E B E' B' ∧ Forall (ends_node E' B') cs' ∧ map (a_abs B') cs' = l) as Hgo.
    { clear E B n' B'. induction IH as [|c cs Hc _ IH]; intros E B cs' B'; cbn.
      { intros [= <- <-]. exists E. split; [apply behind_refl|]. by split. }
      destruct (a_load c B) as [c1 B1] eqn:E1. destruct (Hc E B c1 B1 E1) as (F1 & Hb1 & He1 & Ha1).
      destruct (go cs B1) as [cs2 B2] eqn:E2. destruct (IH F1 B1 cs2 B2 E2) as (F2 & Hb2 & He2 & Ha2).
      intros [= <- <-]. destruct (ends_frame _ _ _ _ _ Hb2 He1) as [Ha He].
      exists F2. split; [by eapply behind_trans|]. split; [by constructor|]. cbn. by rewrite Ha, Ha1, Ha2. }
    destruct (go l B) as [cs' B1] eqn:Eg. destruct (Hgo E B cs' B1 Eg) as (F & Hb & He & Ha).
    intros [= <- <-]. exists F. split; [done|]. split; [|cbn; by rewrite Ha].
    unfold ends_node. cbn. clear -He. induction He as [|c cs Hc _ IH]; cbn; [constructor|].
    apply Forall_app. by split.
  - cbn [a_load]. destruct (make k 0 B) as [s B1] eqn:E1. destruct (make_spec E _ _ _ _ _ E1) as (F1 & Hb1 & Hs & Hk).
    destruct (a_load n B1) as [n1 B2] eqn:E2. destruct (IH F1 B1 n1 B2 E2) as (F2 & Hb2 & He2 & Ha2).
    intros [= <- <-]. destruct (ends_bytes _ _ _ _ _ Hb2 Hs) as [Hk2 Hs2].
    exists F2. split; [by eapply behind_trans|]. split; [by constructor|]. cbn. by rewrite Hk2, Hk, Ha2.
  - intros [= <- <-]. exists E. split; [apply behind_refl|]. split; [constructor|done].
  - intros [= <- <-]. exists E. split; [apply behind_refl|]. split; [constructor|done].
Qed.

(** *** The append behind a key *)

Lemma append_spec grow E B s xs s' B' : ends E B s → append grow s xs B = (s', B') →
  ∃ E', behind E B E' B' ∧ sl_bytes B' s' = sl_bytes B s ++ xs.
Proof.
  intros (He & Hb & Hl). unfold append. set (buf := buf_of B (sl_buf s)) in *. case_bool_decide as Hc.
  2:{ intros Hm. destruct (make_spec E _ _ _ _ _ Hm) as (E' & Hbe & _ & Hs). by exists E'. }
  intros [= <- <-]. exists E. split; [split; [cbn; lia|]|].
  - intros b _. split; [done|]. unfold buf_of at 1 3. cbn. destruct (decide (b = sl_buf s)) as [->|Hne].
    + rewrite lookup_insert_eq. cbn. fold buf. rewrite <- He in *. split.
      * rewrite !length_app, length_take, length_drop. lia.
      * rewrite take_app_le by (rewrite length_take; lia). by rewrite take_take, Nat.min_id.
    + by rewrite lookup_insert_ne by done.
  - unfold sl_bytes at 1, buf_of at 1. cbn. rewrite lookup_insert_eq. cbn. unfold sl_bytes. fold buf.
    unfold sl_end in *. rewrite take_drop_take, app_assoc.
    rewrite take_app_le by (rewrite length_app, length_take; lia).
    rewrite take_ge by (rewrite length_app, length_take; lia).
    rewrite drop_app_le by (rewrite length_take; lia). f_equal. by rewrite take_drop_take.
Qed.

(** *** The lookup *)

Lemma ends_branch E B cs : ends_node E B (ABranch cs) ↔ Forall (ends_node E B) cs.
Proof.
  unfold ends_node. cbn. induction cs as [|c cs IH]; cbn; [split; constructor|].
  by rewrite Forall_app, Forall_cons, IH.
Qed.

Section lookup.
Context `{Digest} {S : Type} `{!Store S} (st : MemCachedStore S) (mode : Z) (grow : nat → nat).

Lemma a_getFromStore_spec E h m B :
  match a_getFromStore st mode h (m, B), getFromStore st mode h m with
  | (m1, B1, Ok n'), (m2, Ok n) => m1 = m2 ∧ ∃ E', behind E B E' B1 ∧ ends_node E' B1 n' ∧ a_abs B1 n' = n
  | (m1, B1, Err e1), (m2, Err e2) => m1 = m2 ∧ B1 = B ∧ e1 = e2
  | (m1, B1, Panic), (m2, Panic) => m1 = m2 ∧ B1 = B
  | _, _ => False
  end.
Proof.
  unfold a_getFromStore, mbind, AM_bind, a_counts.
  destruct (getFromStore st mode h m) as [m2 [n|e|]]; [|done..]. unfold a_loaded.
  destruct (a_load n B) as [n' B'] eqn:El. split; [done|]. by apply (a_load_spec n).
Qed.

(** The lookup on arrays does what the one on lists does, and its nodes stay in
    order; after an error the nodes that were there are unchanged. *)
Definition same_lookup (E : positive → nat) (B : Bufs)
    (x : (rcmap * Bufs) * res trie_err (anode * anode * bytes)) (y : rcmap * res trie_err (Node * Node * bytes)) : Prop :=
  x.1.1 = y.1 ∧
  match x.2, y.2 with
  | Ok (r, res, p), Ok (r', res', p') =>
      ∃ E', behind E B E' x.1.2 ∧ ends_node E' x.1.2 r ∧ ends_node E' x.1.2 res
        ∧ a_abs x.1.2 r = r' ∧ a_abs x.1.2 res = res' ∧ p = p'
  | Err e, Err e' => e = e' ∧ ∃ E', behind E B E' x.1.2
  | Panic, Panic => ∃ E', behind E B E' x.1.2
  | _, _ => False
  end.

Lemma same_ok E B m r res p : ends_node E B r → ends_node E B res →
  same_lookup E B (m, B, Ok (r, res, p)) (m, Ok (a_abs B r, a_abs B res, p)).
Proof. intros Hr Hres. split; [done|]. exists E. split; [apply behind_refl|done]. Qed.

Lemma same_fail E B m e : same_lookup E B (m, B, Err e) (m, Err e).
Proof. split; [done|]. split; [done|]. exists E. apply behind_refl. Qed.

Lemma same_panic E B m : same_lookup E B (m, B, Panic) (m, Panic).
Proof. split; [done|]. exists E. apply behind_refl. Qed.

(** The branch around a child, and the extension around its node. *)
Lemma same_branch E B cs i x y :
  ends_node E B (ABranch cs) → same_lookup E B x y →
  same_lookup E B
    (match x with
     | (s, Ok (r, res, p)) => (s, Ok (ABranch (<[i := r]> cs), res, z2b (Z.of_nat i) :: p))
     | (s, Err e) => (s, Err e) | (s, Panic) => (s, Panic) end)
    (match y with
     | (m, Ok (r, res, p)) => (m, Ok (BranchNode (<[i := r]> (map (a_abs B) cs)), res, z2b (Z.of_nat i) :: p))
     | (m, Err e) => (m, Err e) | (m, Panic) => (m, Panic) end).
Proof.
  intros Hcs. destruct x as [[m1 B1] rx], y as [m2 ry]. unfold same_lookup. cbn [fst snd].
  destruct rx as [[[r res] p]|e|], ry as [[[r' res'] p']|e'|]; try done; try (by intros [? []]).
  cbn [fst snd]. intros (Hm & E' & Hb & Hr & Hres & <- & <- & <-). split; [done|]. exists E'.
  destruct (ends_frame _ _ _ _ _ Hb Hcs) as [Ha He]. apply ends_branch in He.
  split; [done|]. split; [apply ends_branch, Forall_insert; done|]. split; [done|].
  split; [|done]. cbn in Ha |- *. injection Ha as <-. by rewrite list_fmap_insert.
Qed.

Lemma same_ext E B key next x y :
  ends_node E B (AExt key next) → same_lookup E B x y →
  same_lookup E B
    (match x with
     | (s, Ok (r, res, p)) => ('(p : slice) ← a_append grow key p; p ← a_bytes p; mret (AExt key r, res, p)) s
     | (s, Err e) => (s, Err e) | (s, Panic) => (s, Panic) end)
    (match y with
     | (m, Ok (r, res, p)) => (m, Ok (ExtensionNode (sl_bytes B key) r, res, sl_bytes B key ++ p))
     | (m, Err e) => (m, Err e) | (m, Panic) => (m, Panic) end).
Proof.
  intros [Hk _]%Forall_cons. destruct x as [[m1 B1] rx], y as [m2 ry]. unfold same_lookup. cbn [fst snd].
  destruct rx as [[[r res] p]|e|], ry as [[[r' res'] p']|e'|]; try done; try (by intros [? []]).
  cbn [fst snd]. intros (Hm & E' & Hb & Hr & Hres & <- & <- & <-).
  destruct (ends_bytes _ _ _ _ _ Hb Hk) as [Hkb Hk1].
  unfold mbind, AM_bind, a_append. destruct (append grow key p B1) as [s B2] eqn:Ea.
  destruct (append_spec _ _ _ _ _ _ _ Hk1 Ea) as (E2 & Hb2 & Hs).
  unfold a_bytes, a_bufs, mret, AM_ret. cbn [fst snd]. split; [done|]. exists E2.
  destruct (ends_frame _ _ _ _ _ Hb2 Hr) as [Har Hr2]. destruct (ends_frame _ _ _ _ _ Hb2 Hres) as [Hares Hres2].
  destruct (ends_bytes _ _ _ _ _ Hb2 Hk1) as [Hkb2 Hk2].
  split; [by eapply behind_trans|]. split; [by constructor|]. split; [done|].
  split; [cbn; by rewrite Har, Hkb2, Hkb|]. split; [done|]. by rewrite Hs, Hkb.
Qed.

Lemma lookup_same fuel curr path strict E m B : ends_node E B curr →
  same_lookup E B (agetWithPath st mode grow fuel curr path strict (m, B))
    (getWithPath st mode fuel (a_abs B curr) path strict m).
Proof.
  revert curr path E m B. induction fuel as [|fuel IH]; intros curr path E m B Hc; [apply same_panic|].
  destruct curr as [v|cs|key next|h c|]; cbn [agetWithPath getWithPath a_abs].
  - case_bool_decide; [by apply (same_ok E B m (ALeaf v) (ALeaf v) [])|apply same_fail].
  - destruct (splitPath path) as [i rest]. case_match.
    { by apply (same_ok E B m (ABranch cs) (ABranch cs) []). }
    rewrite list_lookup_fmap. destruct (cs !! i) as [c|] eqn:Ec; cbn [fmap option_fmap option_map a_opt m_lift].
    2:{ apply same_panic. }
    assert (ends_node E B c) as Hci.
    { apply ends_branch in Hc. by eapply Forall_lookup_1 in Hc. }
    specialize (IH c rest E m B Hci). pose proof (same_branch E B cs i _ _ Hc IH) as Hs.
    unfold mbind, AM_bind, M_bind, mret, AM_ret, M_ret in *.
    destruct (agetWithPath st mode grow fuel c rest strict (m, B)) as [[m1 B1] [[[r res] p]|e|]];
      destruct (getWithPath st mode fuel (a_abs B c) rest strict m) as [m2 [[[r' res'] p']|e'|]]; exact Hs.
  - unfold mbind at 1, AM_bind at 1, a_bytes at 1, a_bufs at 1. set (k := sl_bytes B key).
    pose proof Hc as [_ Hn]%Forall_cons.
    case_match; [by apply (same_ok E B m (AExt key next) next k)|].
    destruct (has_prefix path k).
    + specialize (IH next (drop (length k) path) E m B Hn). pose proof (same_ext E B key next _ _ Hc IH) as Hs.
      unfold mbind at 1, AM_bind at 1. unfold mbind at 3, M_bind at 1.
      destruct (agetWithPath st mode grow fuel next (drop (length k) path) strict (m, B)) as [[m1 B1] [[[r res] p]|e|]];
        destruct (getWithPath st mode fuel (a_abs B next) (drop (length k) path) strict m) as [m2 [[[r' res'] p']|e'|]];
        exact Hs.
    + case_match; [by apply (same_ok E B m (AExt key next) next k)|apply same_fail].
  - pose proof (a_getFromStore_spec E h m B) as Hg. unfold mbind, AM_bind, M_bind, a_try, m_try.
    destruct (a_getFromStore st mode h (m, B)) as [[m1 B1] [n'|e|]];
      destruct (getFromStore st mode h m) as [m2 [n|e2|]]; try done.
    + destruct Hg as (<- & E1 & Hb & Hn & <-). specialize (IH n' path E1 m1 B1 Hn). revert IH.
      unfold same_lookup. intros [Hm Hr]. split; [exact Hm|].
      destruct (agetWithPath _ _ _ _ _ _ _ _) as [[m3 B3] [[[r res] p]|e|]], (getWithPath _ _ _ _ _ _ _) as [m4 [[[r' res'] p']|e'|]];
        try done; cbn [fst snd] in *.
      * destruct Hr as (E2 & Hb2 & Hr). exists E2. split; [by eapply behind_trans|exact Hr].
      * destruct Hr as (-> & E2 & Hb2). split; [done|]. exists E2. by eapply behind_trans.
      * destruct Hr as (E2 & Hb2). exists E2. by eapply behind_trans.
    + destruct Hg as (<- & -> & <-). apply same_fail.
    + destruct Hg as [<- ->]. apply same_panic.
  - apply same_fail.
Qed.

(** *** Lookups on a trie *)

Definition plain (t : ATrie) : Trie S := mkTrie st (a_abs (at_bufs t) (at_root t)) mode (at_refcount t).

Definition in_order (t : ATrie) : Prop := ∃ E, ends_node E (at_bufs t) (at_root t).

Lemma get_same t key : in_order t →
  let '(t', r) := aTrie_Get st mode grow key t in
  Trie_Get (plain t) key = (plain t', r) ∧ in_order t'.
Proof.
  intros [E HE]. unfold aTrie_Get, Trie_Get. destruct (bool_decide (MaxKeyLength < _)); [split; [done|by exists E]|].
  pose proof (lookup_same trie_fuel (at_root t) (toNibbles key) true E (at_refcount t) (at_bufs t) HE) as Hs.
  cbn [plain t_Store t_mode t_root t_refcount]. unfold same_lookup in Hs.
  destruct (agetWithPath _ _ _ _ _ _ _ _) as [[m1 B1] [[[r res] p]|e|]], (getWithPath _ _ _ _ _ _ _) as [m2 [[[r' res'] p']|e'|]];
    cbn [fst snd] in Hs; destruct Hs as [<- Hs]; try done.
  - destruct Hs as (E' & _ & Hr & _ & <- & <- & _). split; [|by exists E']. unfold plain. cbn. by destruct res.
  - destruct Hs as (<- & E' & Hb). destruct (ends_frame _ _ _ _ _ Hb HE) as [Ha He].
    split; [unfold plain; cbn; by rewrite Ha|by exists E'].
  - destruct Hs as (E' & Hb). destruct (ends_frame _ _ _ _ _ Hb HE) as [Ha He].
    split; [unfold plain; cbn; by rewrite Ha|by exists E'].
Qed.

(** The answers of some lookups, one after the other. *)
Fixpoint aGets (t : ATrie) (keys : list bytes) : list (res trie_err bytes) :=
  match keys with [] => [] | k :: keys => let '(t, r) := aTrie_Get st mode grow k t in r :: aGets t keys end.

Fixpoint Gets (t : Trie S) (keys : list bytes) : list (res trie_err bytes) :=
  match keys with [] => [] | k :: keys => let '(t, r) := Trie_Get t k in r :: Gets t keys end.
End lookup.

(** ** Properties *)

(** C26: the keys of extension nodes are slices, and a lookup appends to them in
    place.  While all keys that share an array end at the same place in it - as
    in a trie of nodes read from the store, whose keys have arrays of their own -
    lookups answer, count and load nodes as on lists, whatever capacity the arrays
    have, and leave the keys as they were, so that this holds for any number of
    them.  After a batch keys of one array may end at different places, and it
    does not hold ([lookup_corrupts]). *)
Theorem lookups_unaliased `{Digest} {S} `{!Store S} (st : MemCachedStore S) (mode : Z) (grow : nat → nat)
    (E : positive → nat) (t : ATrie) (keys : list bytes) :
  ends_node E (at_bufs t) (at_root t) →
  aGets st mode grow t keys = Gets (plain st mode t) keys.
Proof.
  intros HE. assert (in_order t) as Ht by by exists E. clear HE. revert t Ht.
  induction keys as [|k keys IH]; intros t Ht; [done|]. cbn [aGets Gets].
  pose proof (get_same st mode grow t k Ht) as Hs. destruct (aTrie_Get st mode grow k t) as [t' r].
  destruct Hs as [-> Ht']. by rewrite IH.
Qed.

(** A trie that is read whole. *)
Theorem loaded_in_order (n : Node) (m : rcmap) : let '(root, B) := a_load n (mkBufs ∅ 2) in in_order (mkATrie root m B).
Proof.
  destruct (a_load n (mkBufs ∅ 2)) as [root B] eqn:El.
  destruct (a_load_spec n (λ _, 0%nat) _ _ _ El) as (E & _ & HE & _). by exists E.
Qed.

Section alias_example.
#[local] Existing Instance toy_Digest.

(** The trie of the two keys, with keys of its own. *)
Definition two_leaves : Node :=
  ExtensionNode [x01; x01] (BranchNode (<[2%nat := ExtensionNode [x02] (LeafNode [x01])]>
    (<[3%nat := ExtensionNode [x03] (LeafNode [x02])]> (replicate childrenCount EmptyNode)))).

Lemma lookups_unaliased_witness :
  let t := let '(root, B) := a_load two_leaves (mkBufs ∅ 2) in mkATrie root ∅ B in
  in_order t ∧ aGets no_store ModeAll (λ n, n) t [[x11; x22]; [x11; x33]; [x11; x44]] = [Ok [x01]; Ok [x02]; Err ErrNotFound].
Proof.
  intros t. assert (in_order t) as [E HE] by apply (loaded_in_order two_leaves ∅).
  split; [by exists E|]. rewrite (lookups_unaliased no_store ModeAll (λ n, n) E t _ HE). vm_compute. reflexivity.
Defined.
End alias_example.
