(* ===== verification/MptStore.v ===== *)
(** * MptStore: the trie and its store

    [Flush] writes to the store exactly what the trie needs: after it the
    store holds every node of the tree, in the modes with reference counting
    with the number of its occurrences and nothing else, and no counter is
    ever negative. A trie can then be collapsed or opened again from its root
    hash. *)

From stdpp Require Import strings.
From S2P Require Import Prelude BinIO Storage Hash MptNode MptTree Mpt MptSpec MptBatch MptMap.
#[local] Open Scope Z_scope.

(** ** What a store should hold for a tree *)

Definition count_of (data : bytes) : Z := i32 (le_val (drop (length data - 4) data)).

Definition valid_mode (mode : Z) : Prop := mode = ModeAll ∨ mode = ModeLatest ∨ mode = ModeGC.

Section store.
Context `{Digest}.

(** [g] is what the store answers for the hash [h]. *)
Definition exact_at (mode : Z) (t : Node) (h : bytes) (g : res trie_err bytes) : Prop :=
  (∀ u, u ∈ nodes t → node_Hash u = h → ∃ data, g = Ok data ∧ data_ok mode data u)
  ∧ (mode_RC mode = true →
       match g with
       | Ok data => (4 <= length data)%nat ∧ count_of data = occ h t ∧ 0 < occ h t
       | Err _ => occ h t = 0
       | Panic => False
       end).

(** No two of the byte strings at hand have the same hash. *)
Definition no_collision (X : list bytes) : Prop :=
  ∀ a b, a ∈ X → b ∈ X → DoubleSha256 a = DoubleSha256 b → a = b.

Definition tree_bytes (t : Node) : list bytes := map node_Bytes (nodes t).

Definition entry_bytes (m : rcmap) : list bytes :=
  omap (λ p, cn_bytes p.2) (map_to_list m).

Lemma wf_node_Hash d t u : wf d t → u ∈ nodes t → node_Hash u = DoubleSha256 (node_Bytes u).
Proof.
  intros Hw Hu. destruct (wf_nodes _ _ _ Hw Hu) as [(e & _ & Hwe) _].
  apply node_Hash_Bytes. by eapply wf_not_is_hash.
Qed.

Section exact.
Context {S : Type} `{HS : !Store S} `{HO : !StoreOk S}.

Definition store_exact (st : MemCachedStore S) (mode : Z) (t : Node) : Prop :=
  ∀ h, exact_at mode t h (getFromStore_data st mode (makeStorageKey h)).

Lemma store_exact_stored st mode t : store_exact st mode t → stored st mode t.
Proof. intros He u Hu. destruct (proj1 (He (node_Hash u)) u Hu eq_refl) as (data & Hg & Hd). by exists data. Qed.

(** ** Writing to the store *)

(** What a lookup of a value just written gives. *)
Definition written (mode : Z) (v : bytes) : res trie_err bytes :=
  if mode_GC mode && negb (IsActiveValue v) then Err (EStore ErrKeyNotFound) else Ok v.

Lemma Put_spec st mode k v :
  mcs_wf st → ∃ st', Put st (makeStorageKey k) v = Ok st' ∧ mcs_wf st' ∧
    ∀ h, getFromStore_data st' mode (makeStorageKey h)
         = if bool_decide (h = k) then written mode v else getFromStore_data st mode (makeStorageKey h).
Proof.
  intros Hwf. destruct (Put_Delete_spec st (makeStorageKey k) (Some v) Hwf ltac:(done)) as (st' & Hs & Hw & Hv).
  exists st'. split; [exact Hs|]. split; [done|]. intros h. unfold getFromStore_data.
  rewrite !MemCachedStore_Get_spec, Hv, lookup_apply_changes, lookup_singleton by done.
  case_bool_decide as Hh.
  - subst h. by rewrite decide_True.
  - rewrite decide_False; [done|]. by intros [=].
Qed.

Lemma Delete_spec st mode k :
  mcs_wf st → ∃ st', Delete st (makeStorageKey k) = Ok st' ∧ mcs_wf st' ∧
    ∀ h, getFromStore_data st' mode (makeStorageKey h)
         = if bool_decide (h = k) then Err (EStore ErrKeyNotFound)
           else getFromStore_data st mode (makeStorageKey h).
Proof.
  intros Hwf. destruct (Put_Delete_spec st (makeStorageKey k) None Hwf ltac:(done)) as (st' & Hs & Hw & Hv).
  exists st'. split; [exact Hs|]. split; [done|]. intros h. unfold getFromStore_data.
  rewrite !MemCachedStore_Get_spec, Hv, lookup_apply_changes, lookup_singleton by done.
  case_bool_decide as Hh.
  - subst h. by rewrite decide_True.
  - rewrite decide_False; [done|]. by intros [=].
Qed.

Lemma getFromStore_data_active st mode k v :
  getFromStore_data st mode k = Ok v → mode_GC mode = true → IsActiveValue v = true.
Proof.
  unfold getFromStore_data. intros Hg EGC. rewrite EGC in Hg. cbn [andb] in Hg.
  destruct (MemCachedStore_Get st k) as [w| |]; [|done|done]. by destruct (IsActiveValue w) eqn:E; simplify_eq/=.
Qed.

Lemma cong_eq a b : cong a b → - 2 ^ 31 <= a < 2 ^ 31 → - 2 ^ 31 <= b < 2 ^ 31 → a = b.
Proof. intros [k ->] Ha Hb. lia. Qed.

Lemma i32_cong a b : cong a b → 0 <= b < 2 ^ 31 → i32 a = b.
Proof.
  intros Hab Hb. apply cong_eq; [|apply i32_range|lia].
  destruct (cong_i32 a) as [k Hk], Hab as [k' Hk']. exists (k + k'). lia.
Qed.

Lemma IsActive_app (b : bytes) (x : byte) (s : bytes) : length s = 4%nat → IsActiveValue (b ++ x :: s) = bool_decide (x = x01).
Proof.
  intros Hs. unfold IsActiveValue. rewrite length_app. cbn [length]. rewrite Hs.
  rewrite (bool_decide_eq_true_2 (4 < _)%nat) by lia. cbn [andb].
  replace (length b + 5 - 5)%nat with (length b) by lia.
  rewrite lookup_app_r, Nat.sub_diag by lia. cbn. apply bool_decide_ext. split; congruence.
Qed.

Lemma count_of_app b cnt : 0 <= cnt < 2 ^ 31 → count_of (b ++ le_enc 4 cnt) = cnt.
Proof.
  intros Hc. unfold count_of. rewrite length_app, length_le_enc, Nat.add_sub, drop_app_length.
  rewrite le_val_enc. change (256 ^ Z.of_nat 4) with (2 ^ 32). rewrite Z.mod_small by lia.
  apply (wrap_s_small 32); lia.
Qed.

(** A counted node is five bytes longer than its encoding. *)
Lemma split5 (b s : bytes) : length s = 5%nat →
  ∃ x r, s = x :: r ∧ length r = 4%nat ∧ take (length (b ++ s) - 4) (b ++ s) = b ++ [x]
    ∧ (length (b ++ s) - 5)%nat = length b.
Proof.
  intros Hs. destruct s as [|x r]; [done|]. cbn in Hs. injection Hs as Hr. exists x, r.
  split; [done|]. split; [done|]. rewrite !length_app. cbn [length]. rewrite Hr. split; [|lia].
  change (x :: r) with ([x] ++ r). rewrite app_assoc.
  rewrite take_app_le by (rewrite length_app; cbn; lia).
  apply take_ge. rewrite length_app. cbn. lia.
Qed.

(** ** One entry *)

Lemma same_bytes d t t' u u' :
  wf d t → wf d t' → no_collision (tree_bytes t ++ tree_bytes t') →
  u ∈ nodes t → u' ∈ nodes t' → node_Hash u = node_Hash u' → node_Bytes u = node_Bytes u'.
Proof.
  intros Hw Hw' Hcol Hu Hu' Hh. apply Hcol.
  - apply elem_of_app. left. by apply list_elem_of_fmap_2.
  - apply elem_of_app. right. by apply list_elem_of_fmap_2.
  - by rewrite <- (wf_node_Hash _ _ _ Hw Hu), <- (wf_node_Hash _ _ _ Hw' Hu').
Qed.

(** The old answer is right for the new tree when the count has not changed,
    and without counting when the node was there before. *)
Lemma keep_exact mode d t0 t h g :
  wf d t0 → wf d t → no_collision (tree_bytes t0 ++ tree_bytes t) →
  (mode_RC mode = true → occ h t = occ h t0) → (mode_RC mode = false → 0 < occ h t → 0 < occ h t0) →
  exact_at mode t0 h g → exact_at mode t h g.
Proof.
  intros Hw0 Hw Hcol HRC Hno [Hn Hc]. split.
  - intros u Hu Hh. assert (0 < occ h t) as Hpos by (apply occ_pos; eauto).
    assert (0 < occ h t0) as Hpos0.
    { destruct (mode_RC mode) eqn:E; [rewrite <- HRC by done; done|by apply Hno]. }
    apply occ_pos in Hpos0 as (u0 & Hu0 & Hh0).
    destruct (Hn u0 Hu0 Hh0) as (data & Hg & suf & -> & Hs).
    eexists. split; [exact Hg|]. exists suf. split; [|done].
    by rewrite <- (same_bytes d t0 t u0 u Hw0 Hw Hcol Hu0 Hu) by congruence.
  - intros E. rewrite (HRC E). by apply Hc.
Qed.

Section entry.
Context (mode : Z) (Hmode : valid_mode mode) (index : Z) (st : MemCachedStore S) (Hwf : mcs_wf st)
  (t0 t : Node) (d : nat) (Hw0 : wf d t0) (Hw : wf d t)
  (h b : bytes) (c : cachedNode) (Hb : cn_bytes c = Some b) (Hbh : DoubleSha256 b = h)
  (Hcol : no_collision (b :: tree_bytes t0 ++ tree_bytes t))
  (Hex : exact_at mode t0 h (getFromStore_data st mode (makeStorageKey h)))
  (Hcnt : cong (cn_refcount c) (occ h t - occ h t0)) (Hrange : - 2 ^ 31 <= cn_refcount c < 2 ^ 31)
  (Hocc : occ h t < 2 ^ 31) (Hocc0 : occ h t0 < 2 ^ 31)
  (Hinit : cn_initial c = 0 ∨ mode_RC mode = true ∧ cn_initial c = stored_count st mode h).

Lemma entry_bytes_of t' u : wf d t' → t' = t0 ∨ t' = t → u ∈ nodes t' → node_Hash u = h → node_Bytes u = b.
Proof using Hbh Hcol.
  intros Hw' Ht' Hu Hh. apply Hcol; [|left|].
  - right. apply elem_of_app. destruct Ht' as [-> | ->]; [left|right]; by apply list_elem_of_fmap_2.
  - rewrite <- (wf_node_Hash _ _ _ Hw' Hu). congruence.
Qed.

Lemma entry_col : no_collision (tree_bytes t0 ++ tree_bytes t).
Proof using Hcol. intros x y Hx Hy. apply Hcol; by right. Qed.

Lemma entry_count : cn_refcount c = occ h t - occ h t0.
Proof using Hcnt Hocc Hocc0 Hrange.
  pose proof (node_occ_nonneg h t). pose proof (node_occ_nonneg h t0). apply cong_eq; [done|done|lia].
Qed.

(** The data that [updateRefCount] starts from, with its count. *)
Definition counted (c : cachedNode) : res trie_err (bytes * Z) :=
  if bool_decide (cn_initial c = 0) then
    match getFromStore_data st mode (makeStorageKey h) with
    | Ok data =>
        if bool_decide (length data < 4)%nat then Panic
        else Ok (data, i32 (le_val (drop (length data - 4) data)))
    | _ => Ok ([], 0)
    end
  else Ok ([], cn_initial c).

Lemma counted_spec :
  mode_RC mode = true →
  ∃ data x r, counted c = Ok (data, occ h t0) ∧ length r = 4%nat
    ∧ (mode_GC mode = true → x = x01)
    ∧ (if bool_decide (data = []) then default [] (cn_bytes c) ++ [x01; x00; x00; x00; x00] else data) = b ++ x :: r.
Proof using All.
  intros ERC. destruct Hex as [Hn Hc]. specialize (Hc ERC). rewrite Hb. cbn [default from_option].
  assert (cn_initial c = 0 ∨ cn_initial c ≠ 0 ∧ cn_initial c = occ h t0) as Hi.
  { destruct (decide (cn_initial c = 0)); [by left|]. right. split; [done|].
    destruct Hinit as [|[_ ->]]; [done|]. unfold stored_count.
    destruct (getFromStore_data st mode (makeStorageKey h)) as [data|e|]; [by apply Hc|lia|done]. }
  unfold counted. destruct Hi as [Hi|[Hi Hi']].
  - rewrite bool_decide_eq_true_2 by done.
    destruct (getFromStore_data st mode (makeStorageKey h)) as [data|e|] eqn:Hg; [|..|done].
    + destruct Hc as (Hl & Hcount & Hpos). apply occ_pos in Hpos as (u & Hu & Hh).
      destruct (Hn u Hu Hh) as (data' & [= <-] & suf & -> & Hs). specialize (Hs ERC).
      rewrite bool_decide_eq_false_2 by lia. fold (count_of (node_Bytes u ++ suf)). rewrite Hcount.
      rewrite (entry_bytes_of t0 u Hw0 (or_introl eq_refl) Hu Hh) in *.
      destruct suf as [|x r]; [done|]. injection Hs as Hs.
      eexists _, x, r. split; [done|]. split; [done|]. split.
      * intros EGC. apply getFromStore_data_active in Hg; [|done]. rewrite IsActive_app in Hg by done.
        by apply bool_decide_eq_true_1 in Hg.
      * case_bool_decide as Hnil; [|done]. by apply app_eq_nil in Hnil as [_ ?].
    + rewrite Hc. eexists _, x01, [x00; x00; x00; x00]. do 3 (split; [done|]).
      by rewrite bool_decide_eq_true_2.
  - rewrite bool_decide_eq_false_2, Hi' by done. eexists _, x01, [x00; x00; x00; x00]. do 3 (split; [done|]).
    by rewrite bool_decide_eq_true_2.
Qed.

Lemma updateRefCount_spec :
  mode_RC mode = true →
  ∃ st', updateRefCount mode st h c index = Ok (st', occ h t) ∧ mcs_wf st'
    ∧ exact_at mode t h (getFromStore_data st' mode (makeStorageKey h))
    ∧ ∀ h', h' ≠ h → getFromStore_data st' mode (makeStorageKey h') = getFromStore_data st mode (makeStorageKey h').
Proof using All.
  intros ERC. destruct (counted_spec ERC) as (data & x & r & Hd & Hr & Hx & Hdata).
  unfold updateRefCount. fold (counted c). rewrite Hd. cbn [mbind res_bind]. rewrite Hdata, entry_count.
  replace (occ h t0 + (occ h t - occ h t0)) with (occ h t) by lia.
  pose proof (node_occ_nonneg h t) as Hpos. rewrite (i32_cong (occ h t) (occ h t)) by (lia || apply cong_refl).
  rewrite bool_decide_eq_false_2 by lia.
  destruct (split5 b (x :: r)) as (x' & r' & [= <- <-] & _ & Htake & Hdrop); [cbn; by rewrite Hr|].
  rewrite Htake, Hdrop. destruct (decide (occ h t = 0)) as [H0|H0];
    [rewrite bool_decide_eq_true_2 by done|rewrite bool_decide_eq_false_2 by done].
  - destruct (mode_GC mode) eqn:EGC.
    + rewrite insert_app_r_alt, Nat.sub_diag by lia.
      replace ((b ++ <[0%nat := x00]> [x]) ++ le_enc 4 index) with (b ++ x00 :: le_enc 4 index)
        by (by rewrite <- app_assoc).
      destruct (Put_spec st mode h (b ++ x00 :: le_enc 4 index) Hwf) as (st' & Hs & Hw' & Hg).
      rewrite Hs. exists st'. split; [done|]. split; [done|]. split.
      * rewrite Hg, bool_decide_eq_true_2 by done. unfold written. rewrite EGC.
        rewrite IsActive_app, bool_decide_eq_false_2 by (done || apply length_le_enc). cbn.
        split; [|done]. intros u Hu Hh. assert (0 < occ h t) by (apply occ_pos; eauto). lia.
      * intros h' Hne. by rewrite Hg, bool_decide_eq_false_2.
    + destruct (Delete_spec st mode h Hwf) as (st' & Hs & Hw' & Hg).
      rewrite Hs. exists st'. split; [done|]. split; [done|]. split.
      * rewrite Hg, bool_decide_eq_true_2 by done.
        split; [|done]. intros u Hu Hh. assert (0 < occ h t) by (apply occ_pos; eauto). lia.
      * intros h' Hne. by rewrite Hg, bool_decide_eq_false_2.
  - destruct (Put_spec st mode h ((b ++ [x]) ++ le_enc 4 (occ h t)) Hwf) as (st' & Hs & Hw' & Hg).
    rewrite Hs. exists st'. split; [done|]. split; [done|]. split.
    + rewrite Hg, bool_decide_eq_true_2 by done.
      assert (written mode ((b ++ [x]) ++ le_enc 4 (occ h t)) = Ok ((b ++ [x]) ++ le_enc 4 (occ h t))) as ->.
      { unfold written. destruct (mode_GC mode) eqn:EGC; [|done]. rewrite Hx by done. rewrite <- app_assoc. cbn [app].
        by rewrite IsActive_app by apply length_le_enc. }
      split.
      * intros u Hu Hh. eexists. split; [done|]. exists (x :: le_enc 4 (occ h t)).
        rewrite (entry_bytes_of t u Hw (or_intror eq_refl) Hu Hh), <- app_assoc.
        split; [done|]. intros _. cbn [length]. by rewrite length_le_enc.
      * intros _. split; [rewrite length_app, length_le_enc; lia|]. split; [|lia]. by apply count_of_app.
    + intros h' Hne. by rewrite Hg, bool_decide_eq_false_2.
Qed.

Lemma flush_entry_spec m :
  ∃ st' m', flush_entry mode index (st, m) (h, c) = Ok (st', m') ∧ mcs_wf st'
    ∧ exact_at mode t h (getFromStore_data st' mode (makeStorageKey h))
    ∧ (∀ h', h' ≠ h → getFromStore_data st' mode (makeStorageKey h') = getFromStore_data st mode (makeStorageKey h'))
    ∧ (m' = delete h m ∨ ∃ c', m' = <[h := c']> m ∧ cn_refcount c' = 0 ∧ entry_ok st' mode h c').
Proof using All.
  pose proof entry_count as Hc. pose proof (node_occ_nonneg h t0) as Hp0. pose proof (node_occ_nonneg h t) as Hp.
  unfold flush_entry. case_bool_decide as H0.
  { exists st, (delete h m). split; [done|]. split; [done|]. split; [|split; [done|by left]].
    apply (keep_exact mode d t0 t); try done; [apply entry_col|lia|lia]. }
  pose proof updateRefCount_spec as Hupd. pose proof entry_bytes_of as Hbytes. pose proof entry_col as Hcol'.
  rewrite Hb. destruct (mode_RC mode) eqn:ERC.
  - destruct (Hupd eq_refl) as (st' & Hs & Hw' & Hx & Hne). rewrite Hs. cbn [mbind res_bind].
    eexists st', _. split; [done|]. split; [done|]. split; [done|]. split; [done|].
    case_bool_decide as Hz; [by left|]. right. eexists. split; [done|]. split; [done|].
    split; [cbn; lia|]. split; [by exists b|]. right. split; [done|]. cbn [cn_initial].
    destruct Hx as [_ Hx]. specialize (Hx ERC). unfold stored_count.
    destruct (getFromStore_data st' mode (makeStorageKey h)) as [data|e|]; [|lia|done]. symmetry. by apply Hx.
  - assert (cn_initial c = 0) as Hi0 by (destruct Hinit as [|[? _]]; congruence).
    assert (∀ st', entry_ok st' mode h (mkCached (Some b) (cn_initial c) 0)) as Hentry.
    { intros st'. split; [cbn; lia|]. split; [by exists b|]. by left. }
    case_bool_decide as Hpos.
    + destruct (Put_spec st mode h b Hwf) as (st' & Hs & Hw' & Hg). rewrite Hs.
      eexists st', _. split; [done|]. split; [done|]. split; [|split].
      * rewrite Hg, bool_decide_eq_true_2 by done. unfold written.
        assert (mode_GC mode = false) as -> by (destruct Hmode as [->|[->| ->]]; done). cbn [andb].
        split; [|congruence]. intros u Hu Hh. exists b. split; [done|]. exists [].
        rewrite (Hbytes t u Hw (or_intror eq_refl) Hu Hh), app_nil_r. split; [done|congruence].
      * intros h' Hne. by rewrite Hg, bool_decide_eq_false_2.
      * right. eexists. split; [done|]. split; [done|]. apply Hentry.
    + eexists st, _. split; [done|]. split; [done|]. split; [|split; [done|]].
      * apply (keep_exact mode d t0 t); try done; [congruence|lia].
      * right. eexists. split; [done|]. split; [done|]. apply Hentry.
Qed.
End entry.

(** ** The loop *)

Lemma entry_ok_ext st st' mode h c :
  getFromStore_data st' mode (makeStorageKey h) = getFromStore_data st mode (makeStorageKey h) →
  entry_ok st mode h c → entry_ok st' mode h c.
Proof. intros E (H1 & H2 & H3). split; [done|]. split; [done|]. unfold stored_count. by rewrite E. Qed.

Section loop.
Context (mode : Z) (Hmode : valid_mode mode) (index : Z) (t0 t : Node) (d : nat)
  (Hw0 : wf d t0) (Hw : wf d t)
  (Hocc : ∀ h, occ h t < 2 ^ 31) (Hocc0 : ∀ h, occ h t0 < 2 ^ 31).

(** What is known of an entry still to be flushed. *)
Definition pending (st : MemCachedStore S) (e : bytes * cachedNode) : Prop :=
  entry_ok st mode e.1 e.2 ∧ cong (cn_refcount e.2) (occ e.1 t - occ e.1 t0).

Definition settled (st : MemCachedStore S) (h : bytes) (c : cachedNode) : Prop :=
  cn_refcount c = 0 ∧ entry_ok st mode h c.

Lemma flush_loop_spec (X : list bytes) es st m :
  no_collision (X ++ tree_bytes t0 ++ tree_bytes t) →
  (∀ e b, e ∈ es → cn_bytes e.2 = Some b → b ∈ X) →
  NoDup es.*1 → mcs_wf st → Forall (pending st) es →
  (∀ h, exact_at mode (if bool_decide (h ∈ es.*1) then t0 else t) h
          (getFromStore_data st mode (makeStorageKey h))) →
  (∀ h c, m !! h = Some c → h ∉ es.*1 → settled st h c) →
  ∃ st' m', flush_loop mode index es (st, m) = Ok (st', m') ∧ mcs_wf st'
    ∧ store_exact st' mode t ∧ map_Forall (settled st') m'.
Proof using All.
  intros Hcol HX. revert st m. induction es as [|[h c] es IH]; intros st m Hnd Hwf Hpend Hex Hset.
  { exists st, m. split; [done|]. split; [done|]. split; [exact Hex|].
    intros h c Hc. apply Hset; [done|]. cbn. set_solver. }
  cbn [flush_loop fmap list_fmap] in *. apply NoDup_cons in Hnd as [Hnin Hnd].
  apply Forall_cons in Hpend as [[(Hr & (b & Hb & Hbh) & Hi) Hcong] Hpend]. cbn [fst snd] in *.
  assert (no_collision (b :: tree_bytes t0 ++ tree_bytes t)) as Hcolb.
  { assert (b ∈ X) as HbX by (apply (HX (h, c)); [left|done]).
    intros x y [-> |Hx]%elem_of_cons [-> |Hy]%elem_of_cons; apply Hcol; apply elem_of_app; auto. }
  pose proof (Hex h) as Hexh. rewrite bool_decide_eq_true_2 in Hexh by left.
  destruct (flush_entry_spec mode Hmode index st Hwf t0 t d Hw0 Hw h b c Hb Hbh Hcolb Hexh Hcong Hr
    (Hocc h) (Hocc0 h) Hi m) as (st1 & m1 & E & Hwf1 & Hex1 & Hsame & Hm1).
  rewrite E. cbn [mbind res_bind]. apply IH; try done.
  - intros e b' He. apply HX. by right.
  - rewrite Forall_forall in Hpend |- *. intros [h' c'] He. destruct (Hpend _ He) as [Hok Hc].
    split; [|done]. apply (entry_ok_ext st st1); [|done]. apply Hsame. intros Heq.
    apply Hnin. rewrite <- Heq. exact (list_elem_of_fmap_2 fst _ _ He).
  - intros h'. specialize (Hex h'). destruct (decide (h' ∈ es.*1)) as [Hin|Hin];
      [rewrite (bool_decide_eq_true_2 (h' ∈ es.*1)) by done
      |rewrite (bool_decide_eq_false_2 (h' ∈ es.*1)) by done].
    + rewrite bool_decide_eq_true_2 in Hex by (by right). rewrite Hsame; [done|congruence].
    + destruct (decide (h' = h)) as [-> |Hne]; [done|]. rewrite Hsame by done.
      rewrite bool_decide_eq_false_2 in Hex; [done|]. by intros [|]%elem_of_cons.
  - intros h' c' Hc' Hin. destruct (decide (h' = h)) as [-> |Hne].
    + destruct Hm1 as [-> |(c1 & -> & Hz & He)]; [by rewrite lookup_delete_eq in Hc'|].
      rewrite lookup_insert_eq in Hc'. by injection Hc' as <-.
    + assert (m !! h' = Some c') as Hc.
      { destruct Hm1 as [-> |(c1 & -> & _)]; [by rewrite lookup_delete_ne in Hc'|by rewrite lookup_insert_ne in Hc']. }
      destruct (Hset h' c' Hc) as [Hz He]; [by intros [|]%elem_of_cons|].
      split; [done|]. by apply (entry_ok_ext st st1), He; apply Hsame.
Qed.
End loop.

(** ** Flush, collapse and reopening *)

Lemma rep_store_change st st' mode n t : rep st mode n t → stored st' mode t → rep st' mode n t.
Proof.
  induction 1 as [v| |k n t Hr IH|cs ts Hl Hr IH|t c He Hs]; intros Hst; try by constructor.
  - constructor. apply IH. exact (stored_next _ _ _ _ Hst).
  - constructor; [done|]. intros i c t Hc Ht. apply (IH i c t Hc Ht). exact (stored_child _ _ _ _ _ Hst Ht).
Qed.

Lemma occ_small t h : Z.of_nat (length (nodes t)) < 2 ^ 31 → occ h t < 2 ^ 31.
Proof. unfold occ. pose proof (length_filter (λ u, node_Hash u = h) (nodes t)). lia. Qed.

Lemma rep_root_hash st mode t : isEmpty t = false → stored st mode t → rep st mode (HashNode (node_Hash t) false) t.
Proof. intros He Hs. by constructor. Qed.

Lemma rep_collapsed st mode n t depth : rep st mode n t → stored st mode t → rep st mode (collapse depth n) t.
Proof.
  intros Hr. revert depth. induction Hr as [v| |k n t Hr IH|cs ts Hl Hr IH|t c He Hst]; intros depth Hs;
    destruct depth as [|depth]; cbn [collapse]; try (by constructor).
  - rewrite (rep_Hash st mode (ExtensionNode k n) (ExtensionNode k t)) by (by constructor).
    by apply rep_root_hash.
  - constructor. apply IH. exact (stored_next _ _ _ _ Hs).
  - rewrite (rep_Hash st mode (BranchNode cs) (BranchNode ts)) by (by constructor). by apply rep_root_hash.
  - constructor; [by rewrite length_map|]. intros i c t Hc Ht.
    rewrite list_lookup_fmap in Hc. destruct (cs !! i) as [c'|] eqn:Hc'; [|done]. injection Hc as <-.
    apply (IH i c' t Hc' Ht). exact (stored_child _ _ _ _ _ Hs Ht).
Qed.

(** The trie [tr] with its store: [t0] is what the store holds. *)
Record store_inv (tr : Trie S) (t0 : Node) : Prop := {
  si_mode : valid_mode (t_mode tr);
  si_wf : wf (Z.to_nat maxPathLength) t0;
  si_store : mcs_wf (t_Store tr);
  si_exact : store_exact (t_Store tr) (t_mode tr) t0;
}.

(** What a flush from the tree [t0] to the tree [t] relies on. *)
Record flush_ok (tr : Trie S) (t0 t : Node) : Prop := {
  fo_col : no_collision (entry_bytes (t_refcount tr) ++ tree_bytes t0 ++ tree_bytes t);
  fo_size0 : Z.of_nat (length (nodes t0)) < 2 ^ 31;
  fo_size : Z.of_nat (length (nodes t)) < 2 ^ 31;
}.

Lemma settled_counts (st : MemCachedStore S) (mode : Z) (m : rcmap) h : map_Forall (settled mode st) m → cnt m h = 0.
Proof. intros Hm. unfold cnt. destruct (m !! h) as [c|] eqn:E; [|done]. by destruct (Hm h c E). Qed.

Lemma Flush_spec tr t0 t m index order :
  trie_inv tr t0 t m → store_inv tr t0 → flush_ok tr t0 t → order ≡ₚ map_to_list (t_refcount tr) →
  ∃ tr', Flush tr index order = Ok tr' ∧ t_mode tr' = t_mode tr ∧ t_root tr' = t_root tr
    ∧ trie_inv tr' t t m ∧ store_inv tr' t.
Proof.
  intros [Hr Hw Hh Hrc Hc] [Hmode Hw0 Hwf Hex] [Hcol Hsz0 Hsz] Hord.
  assert (Hkeys : ∀ e, e ∈ order ↔ t_refcount tr !! e.1 = Some e.2).
  { intros [h c]. rewrite Hord, elem_of_map_to_list. done. }
  destruct (flush_loop_spec (t_mode tr) Hmode index t0 t _ Hw0 Hw (λ h, occ_small t h Hsz)
    (λ h, occ_small t0 h Hsz0) (entry_bytes (t_refcount tr)) order (t_Store tr) (t_refcount tr) Hcol)
    as (st' & m' & E & Hwf' & Hex' & Hset).
  - intros [h c] b He Hb. apply list_elem_of_omap. exists (h, c). by rewrite <- Hord.
  - rewrite Hord. apply NoDup_fst_map_to_list.
  - done.
  - rewrite Forall_forall. intros [h c] He%Hkeys. split; [exact (Hrc h c He)|].
    specialize (Hc h). unfold cnt in Hc. cbn in He. by rewrite He in Hc.
  - intros h. case_bool_decide as Hin; [apply Hex|].
    assert (t_refcount tr !! h = None) as Hnone.
    { apply eq_None_not_Some. intros [c Hhc]. apply Hin. apply list_elem_of_fmap. exists (h, c).
      split; [done|]. by apply Hkeys. }
    specialize (Hc h). unfold cnt in Hc. rewrite Hnone in Hc. cbn in Hc.
    pose proof (occ_small t h Hsz). pose proof (occ_small t0 h Hsz0).
    pose proof (node_occ_nonneg h t). pose proof (node_occ_nonneg h t0).
    assert (0 = occ h t - occ h t0) by (apply cong_eq; [done|lia|lia]).
    apply (keep_exact _ _ t0 t _ _ Hw0 Hw); [|lia|lia|apply Hex].
    intros x y Hx Hy. apply Hcol; apply elem_of_app; by right.
  - intros h c Hhc Hin. exfalso. apply Hin. apply list_elem_of_fmap. exists (h, c).
    split; [done|]. by apply Hkeys.
  - unfold Flush. rewrite E. cbn [mbind res_bind]. eexists. split; [done|]. split; [done|]. split; [done|].
    split; constructor; cbn [t_Store t_mode t_root t_refcount]; try done.
    + apply (rep_store_change _ _ _ _ _ Hr). by apply store_exact_stored.
    + intros h c Hhc. by destruct (Hset h c Hhc).
    + intros h. rewrite (settled_counts _ _ _ _ Hset). rewrite Z.sub_diag. apply cong_refl.
Qed.
End exact.
End store.

Section session.
Context `{Digest} {S : Type} `{HS : !Store S} `{HO : !StoreOk S}.

(** A new trie over an empty store. *)
Lemma store_inv_new (st : MemCachedStore S) mode :
  valid_mode mode → mcs_wf st → (∀ h, MemCachedStore_Get st (makeStorageKey h) = Err ErrKeyNotFound) →
  store_inv (NewTrie EmptyNode mode st) EmptyNode.
Proof.
  intros Hm Hwf Hg. constructor; [done|constructor|done|]. intros h. cbn [t_Store t_mode].
  unfold getFromStore_data. rewrite Hg. split; [|done]. intros u Hu. by apply elem_of_nil in Hu.
Qed.

(** The trie of the flushed contents, in any shape that shares the store. *)
Lemma trie_inv_reroot tr t m n :
  trie_inv tr t t m → rep (t_Store tr) (t_mode tr) n t →
  trie_inv (NewTrie n (t_mode tr) (t_Store tr)) t t m.
Proof.
  intros [H1 H2 H3 H4 H5] Hr. constructor; cbn; try done. intros h. rewrite Z.sub_diag. apply cong_refl.
Qed.

Lemma holds_nonempty t m : holds t m → m ≠ ∅ → isEmpty t = false.
Proof.
  intros Hh Hm. destruct (isEmpty t) eqn:E; [|done]. destruct t; try done.
  destruct Hm. exact (holds_ext _ _ _ Hh holds_empty).
Qed.
End session.

(** Trees in memory, with no node collapsed, stand for themselves. *)
Fixpoint in_memory (n : Node) : bool :=
  match n with
  | HashNode _ _ => false
  | BranchNode cs => forallb in_memory cs
  | ExtensionNode _ n => in_memory n
  | LeafNode _ | EmptyNode => true
  end.

Lemma rep_in_memory `{Digest} {S} `{Store S} (st : MemCachedStore S) mode n t :
  rep st mode n t → in_memory n = true → t = n.
Proof.
  induction 1 as [v| |k n t Hr IH|cs ts Hl Hr IH|t c He Hs]; cbn [in_memory]; intros Hm; try done.
  - f_equal. by apply IH.
  - f_equal. apply list_eq. intros i.
    destruct (cs !! i) as [c|] eqn:Hc, (ts !! i) as [t|] eqn:Ht; [|..|done].
    + f_equal. apply (IH i c t Hc Ht). rewrite forallb_forall in Hm. apply Hm.
      apply list_elem_of_In. exact (list_elem_of_lookup_2 _ _ _ Hc).
    + apply lookup_lt_Some in Hc. apply lookup_ge_None in Ht. lia.
    + apply lookup_lt_Some in Ht. apply lookup_ge_None in Hc. lia.
Qed.

Definition no_collisionb `{Digest} (X : list bytes) : bool :=
  let Y := map (λ a, (DoubleSha256 a, a)) X in
  forallb (λ p, forallb (λ q, implb (bool_decide (p.1 = q.1)) (bool_decide (p.2 = q.2))) Y) Y.

Lemma no_collisionb_ok `{Digest} X : no_collisionb X = true → no_collision X.
Proof.
  intros Hx a b Ha Hb Hab. unfold no_collisionb in Hx. rewrite forallb_forall in Hx.
  specialize (Hx (DoubleSha256 a, a) (in_map _ _ _ (proj1 (list_elem_of_In _ _) Ha))). cbn in Hx.
  rewrite forallb_forall in Hx.
  specialize (Hx (DoubleSha256 b, b) (in_map _ _ _ (proj1 (list_elem_of_In _ _) Hb))). cbn in Hx.
  rewrite bool_decide_eq_true_2 in Hx by done. by apply bool_decide_eq_true_1 in Hx.
Qed.

(** ** Properties *)

(** C27: a flush leaves in the store exactly the trie. Starting from a store
    that is exact for the tree of the last flush, and after any operations
    since, the flush ends without the panics on a negative or a missing
    counter, whatever the order in which the counters are visited. After it
    every node of the new tree is in the store under its hash; where nodes are
    counted each has with it the number of its occurrences, and a lookup by any
    other hash finds nothing. No two of the nodes involved are assumed to
    collide. *)
Theorem flush_exact `{Digest} {S} `{HS : Store S} {HO : StoreOk S} (tr : Trie S) (t0 t : Node)
    (m : gmap bytes bytes) (index : Z) (order : list (bytes * cachedNode)) :
  trie_inv tr t0 t m → store_inv tr t0 → flush_ok tr t0 t → order ≡ₚ map_to_list (t_refcount tr) →
  ∃ tr', Flush tr index order = Ok tr'
    ∧ ∀ h, let g := getFromStore_data (t_Store tr') (t_mode tr) (makeStorageKey h) in
      (∀ u, u ∈ nodes t → node_Hash u = h → ∃ data, g = Ok data ∧ data_ok (t_mode tr) data u)
      ∧ (mode_RC (t_mode tr) = true →
           match g with
           | Ok data => count_of data = occ h t ∧ 0 < occ h t
           | Err _ => occ h t = 0
           | Panic => False
           end).
Proof.
  intros Hi Hs Hf Hord. destruct (Flush_spec tr t0 t m index order Hi Hs Hf Hord) as (tr' & E & Hm & _ & _ & Hs').
  exists tr'. split; [done|]. intros h g. pose proof (si_exact _ _ Hs' h) as [Hn Hc].
  rewrite Hm in Hn, Hc. split; [exact Hn|]. intros ERC. specialize (Hc ERC). unfold g.
  destruct (getFromStore_data (t_Store tr') (t_mode tr) (makeStorageKey h)); [|done|done]. by destruct Hc as (_ & ? & ?).
Qed.

(** A flushed trie can be dropped from memory. Opened again from its root
    hash alone, or collapsed to any depth, it answers every further sequence
    of operations as the finite map of its contents does; the nodes that are left
    of a collapsed trie may share arrays, so there a lookup comes last. *)
Theorem reopen_refines_map `{Digest} {S} `{HS : Store S} {HO : StoreOk S} (tr : Trie S) (t0 t : Node)
    (m : gmap bytes bytes) (index : Z) (order : list (bytes * cachedNode)) (depth : Z) (os os2 : list trie_op) :
  trie_inv tr t0 t m → store_inv tr t0 → flush_ok tr t0 t → order ≡ₚ map_to_list (t_refcount tr) →
  0 <= depth → m ≠ ∅ → Forall op_ok os → reads_ok true os = true → history_ok os2 →
  ∃ tr' tr'', Flush tr index order = Ok tr' ∧ Collapse tr' depth = Ok tr''
    ∧ (trie_run tr'' os).2 = (map_run m os).2
    ∧ (trie_run (NewTrie (HashNode (StateRoot tr') false) (t_mode tr') (t_Store tr')) os2).2 = (map_run m os2).2.
Proof.
  intros Hi Hs Hf Hord Hd Hm Hos _ [Hos2 _].
  destruct (Flush_spec tr t0 t m index order Hi Hs Hf Hord) as (tr' & E & Hmode & _ & Hi' & Hs').
  pose proof (store_exact_stored _ _ _ (si_exact _ _ Hs')) as Hst.
  pose proof (holds_nonempty _ _ (inv_holds _ _ _ _ Hi) Hm) as He.
  exists tr'. unfold Collapse. rewrite bool_decide_eq_false_2 by lia. eexists. split; [done|]. split; [done|]. split.
  - destruct (trie_run_refines _ _ _ _ os (trie_inv_reroot _ _ _ _ Hi'
      (rep_collapsed _ _ _ _ (Z.to_nat depth) (inv_rep _ _ _ _ Hi') Hst)) Hos) as (? & ? & E1 & _).
    unfold NewTrie in E1. by rewrite E1.
  - rewrite (StateRoot_rep _ _ _ _ Hi'), He.
    destruct (trie_run_refines _ _ _ _ os2 (trie_inv_reroot _ _ _ _ Hi'
      (rep_root_hash _ _ _ He Hst)) Hos2) as (? & ? & E1 & _). by rewrite E1.
Qed.

Definition f_ops : list trie_op := [OPut [xaa; xbb] (Some [x01]); OPut [xaa; xcc] (Some [x02]); OPut [xbb; xcc] (Some [x02])].
Definition f_trie : Trie MemoryStore := (trie_run (NewTrie EmptyNode ModeGC w_st) f_ops).1.
Definition f_map : gmap bytes bytes := (map_run ∅ f_ops).1.
Definition f_order : list (bytes * cachedNode) := map_to_list (t_refcount f_trie).

Lemma w_st_wf : mcs_wf w_st.
Proof. split; [exact NewMemoryStore_wf|]. split; [done|exact NewMemoryStore_wf]. Qed.

Lemma w_st_Get h : MemCachedStore_Get w_st (makeStorageKey h) = Err ErrKeyNotFound.
Proof. done. Qed.

Lemma f_inv : trie_inv f_trie EmptyNode (t_root f_trie) f_map ∧ store_inv f_trie EmptyNode
  ∧ flush_ok f_trie EmptyNode (t_root f_trie).
Proof.
  assert (Forall op_ok f_ops) as Hok.
  { unfold f_ops. repeat (apply Forall_cons; split; [exact I|]). apply Forall_nil_2. }
  destruct (trie_run_refines _ _ _ _ f_ops (trie_inv_new w_st ModeGC) Hok) as (tr' & t' & E & Hi & Hst & Hmode).
  assert (tr' = f_trie) as -> by (unfold f_trie; by rewrite E).
  assert (t' = t_root f_trie) as ->.
  { apply (rep_in_memory _ _ _ _ (inv_rep _ _ _ _ Hi)). by vm_compute. }
  split; [exact Hi|]. split.
  - assert (store_inv (NewTrie EmptyNode ModeGC w_st) EmptyNode) as [H1 H2 H3 H4].
    { apply store_inv_new; [by right; right|exact w_st_wf|exact w_st_Get]. }
    constructor; [by rewrite Hmode|done|by rewrite Hst|by rewrite Hst, Hmode].
  - constructor; [|by vm_compute..]. apply no_collisionb_ok. by vm_compute.
Qed.

Lemma flush_exact_witness :
  ∃ tr', Flush f_trie 5 f_order = Ok tr'
    ∧ match getFromStore_data (t_Store tr') ModeGC (makeStorageKey (node_Hash (LeafNode [x02]))) with
      | Ok data => count_of data = 2
      | _ => False
      end.
Proof.
  destruct f_inv as (Hi & Hs & Hf).
  destruct (flush_exact f_trie EmptyNode (t_root f_trie) f_map 5 f_order Hi Hs Hf (Permutation_refl _))
    as (tr' & E & Hg). exists tr'. split; [exact E|].
  destruct (Hg (node_Hash (LeafNode [x02]))) as [_ Hc].
  assert (t_mode f_trie = ModeGC) as Hm by (vm_compute; reflexivity). rewrite Hm in Hc.
  specialize (Hc eq_refl).
  assert (occ (node_Hash (LeafNode [x02])) (t_root f_trie) = 2) as Hocc by (vm_compute; reflexivity).
  rewrite Hocc in Hc.
  destruct (getFromStore_data (t_Store tr') ModeGC (makeStorageKey (node_Hash (LeafNode [x02]))));
    [exact (proj1 Hc)|discriminate Hc|destruct Hc].
Defined.

Lemma reopen_refines_map_witness :
  ∃ tr' tr'', Flush f_trie 5 f_order = Ok tr' ∧ Collapse tr' 1 = Ok tr''
    ∧ (trie_run tr'' [ODelete [xaa; xcc]; OGet [xaa; xcc]]).2
        = [Ok OutUnit; Err ErrNotFound]
    ∧ (trie_run (NewTrie (HashNode (StateRoot tr') false) (t_mode tr') (t_Store tr')) [OGet [xaa; xbb]; OGet [xaa; xcc]]).2
        = [Ok (OutVal [x01]); Ok (OutVal [x02])].
Proof.
  destruct f_inv as (Hi & Hs & Hf).
  assert (f_map ≠ ∅) as Hne.
  { apply (bool_decide_eq_true_1 _). vm_compute. reflexivity. }
  assert (history_ok [OGet [xaa; xbb]; OGet [xaa; xcc]]) as Ho2.
  { split; [|reflexivity]. repeat (apply Forall_cons; split; [exact I|]); apply Forall_nil_2. }
  destruct (reopen_refines_map f_trie EmptyNode (t_root f_trie) f_map 5 f_order 1
    [ODelete [xaa; xcc]; OGet [xaa; xcc]] [OGet [xaa; xbb]; OGet [xaa; xcc]]
    Hi Hs Hf (Permutation_refl _) ltac:(lia) Hne
    ltac:(repeat (apply Forall_cons; split; [exact I|]); apply Forall_nil_2) eq_refl Ho2)
    as (tr' & tr'' & E & Ec & H1 & H2).
  exists tr', tr''. split; [exact E|]. split; [exact Ec|].
  split; [rewrite H1; vm_compute; reflexivity|rewrite H2; vm_compute; reflexivity].
Defined.
