(* ===== verification/MptProof.v ===== *)
(** * MptProof: membership proofs

    A proof that [GetProof] makes is accepted by [VerifyProof] with the value
    of the key, and whatever list of byte strings [VerifyProof] accepts, the
    value it answers is the one the trie with that root holds. *)

From stdpp Require Import strings.
From S2P Require Import Prelude BinIO Storage Hash MptNode MptTree Mpt MptSpec MptBatch MptMap MptStore.
#[local] Open Scope Z_scope.

(** The nodes a lookup of [p] goes through. *)
Fixpoint path_nodes (t : Node) (p : bytes) : list Node :=
  match t with
  | LeafNode _ => if bool_decide (p = []) then [t] else []
  | BranchNode cs =>
      let '(i, q) := splitPath p in
      t :: match map path_nodes cs !! i with Some f => f q | None => [] end
  | ExtensionNode k n => if has_prefix p k then t :: path_nodes n (drop (length k) p) else []
  | HashNode _ _ | EmptyNode => []
  end.

Lemma path_nodes_branch cs p i q c :
  splitPath p = (i, q) → cs !! i = Some c → path_nodes (BranchNode cs) p = BranchNode cs :: path_nodes c q.
Proof. intros Hs Hc. cbn [path_nodes]. by rewrite Hs, list_lookup_fmap, Hc. Qed.

Lemma path_nodes_head t p : t ∈ path_nodes t p ∨ t_lookup t p = None.
Proof.
  destruct t as [v|cs|k n|h c|]; cbn [path_nodes t_lookup]; [| | |by right..].
  - case_bool_decide; [left; left|by right].
  - destruct (splitPath p). left. left.
  - destruct (has_prefix p k); [left; left|by right].
Qed.

Lemma path_nodes_sub t p u : u ∈ path_nodes t p → u ∈ nodes t.
Proof.
  revert p. induction t as [v|cs IH|k n IH|h c|] using Node_ind'; intros p; cbn [path_nodes].
  - case_bool_decide; [done|]. by intros ?%elem_of_nil.
  - destruct (splitPath p) as [i q]. rewrite list_lookup_fmap.
    intros [-> |Hu]%elem_of_cons; [left|]. destruct (cs !! i) as [c|] eqn:Hc; cbn in Hu; [|by apply elem_of_nil in Hu].
    apply (nodes_child _ _ _ _ Hc). exact (Forall_lookup_1 _ _ _ _ IH Hc _ Hu).
  - destruct (has_prefix p k); [|by intros ?%elem_of_nil].
    intros [-> |Hu]%elem_of_cons; [left|right; by apply (IH _ Hu)].
  - by intros ?%elem_of_nil.
  - by intros ?%elem_of_nil.
Qed.

Section proof.
Context `{Digest}.

Lemma rep_Bytes {S} `{!Store S} (st : MemCachedStore S) mode n t :
  rep st mode n t → ¬ is_hash n → node_Bytes n = node_Bytes t.
Proof.
  destruct 1 as [v| |k n t Hr|cs ts Hl Hr|t c He Hs]; intros Hn; try done.
  - rewrite !node_Bytes_eq. cbn [NodeType body_enc]. by rewrite (rep_child_enc _ _ _ _ Hr).
  - rewrite !node_Bytes_eq. cbn [NodeType body_enc]. do 2 f_equal. apply list_eq. intros i.
    rewrite !list_lookup_fmap. destruct (cs !! i) as [c|] eqn:Hc, (ts !! i) as [t|] eqn:Ht; cbn; [|..|done].
    + f_equal. apply (rep_child_enc _ _ _ _ (Hr i c t Hc Ht)).
    + apply lookup_lt_Some in Hc. apply lookup_ge_None in Ht. lia.
    + apply lookup_lt_Some in Ht. apply lookup_ge_None in Hc. lia.
Qed.

(** ** What [GetProof] answers *)

Section get.
Context {S : Type} `{!Store S} (st : MemCachedStore S) (mode : Z).

Definition proof_post (t : Node) (path : bytes) (ps : list bytes)
    (a : list bytes * (Node + trie_err)) (δ : bytes → Z) : Prop :=
  (∀ h, δ h = 0) ∧
  match t_lookup t path with
  | Some _ => ∃ n', a = (ps ++ map node_Bytes (path_nodes t path), inl n') ∧ rep st mode n' t
  | None => ∃ ps', a = (ps', inr ErrNotFound)
  end.

(** Both inner cases: the search goes on in a child [t] of [u]. *)
Lemma proof_child u t path q x (wrap : Node → Node) ps :
  t_lookup u path = t_lookup t q → path_nodes u path = u :: path_nodes t q →
  spec st mode x (proof_post t q (ps ++ [node_Bytes u])) →
  (∀ n', rep st mode n' t → rep st mode (wrap n') u) →
  spec st mode ('(proofs, r) ← x; mret (proofs, match r with inl r => inl (wrap r) | inr e => inr e end))
    (proof_post u path ps).
Proof.
  intros Hu Hpn Hx Hwrap. eapply spec_bind; [exact Hx|]. intros [ps' r] δ [Hδ Hr]. apply spec_ret.
  unfold proof_post. rewrite Hu, Hpn. split; [intros h; rewrite Hδ; lia|].
  destruct (t_lookup t q).
  - destruct Hr as (n' & [= -> ->] & Hr'). eexists. split; [|by apply Hwrap].
    cbn [map]. by rewrite <- app_assoc.
  - destruct Hr as (ps'' & [= -> ->]). by eexists.
Qed.

Lemma getProof_spec fuel n t d path ps :
  rep st mode n t → wf d t → (d <= Z.to_nat maxPathLength)%nat → nibbles path →
  (stack n d <= fuel)%nat →
  spec st mode (getProof st mode fuel n path ps) (proof_post t path ps).
Proof.
  revert n t d path ps. induction fuel as [|fuel IH]; intros n t d path ps Hr Hw Hmax Hp Hf.
  { unfold stack in Hf. destruct (decide _); lia. }
  cbn [getProof]. destruct n as [w|cs|k n|h c|].
  - inversion Hr; subst. case_bool_decide as Hpath.
    + subst path. apply spec_ret. split; [done|]. cbn. by eexists.
    + apply spec_ret. split; [done|]. cbn [t_lookup]. rewrite bool_decide_eq_false_2 by done. by eexists.
  - destruct (rep_branch_inv _ _ _ _ Hr) as (ts & -> & Hl & Hrc).
    destruct (wf_branch_inv _ _ Hw) as (d' & -> & [Hlt Hwc] & _).
    destruct (splitPath path) as [i q] eqn:Hs.
    destruct (splitPath_nibbles _ _ _ Hp Hs) as [Hq Hi].
    destruct (lookup_lt_is_Some_2 ts i) as [t Ht]; [unfold lastChild, childrenCount in *; lia|].
    destruct (lookup_lt_is_Some_2 cs i) as [c Hc]; [unfold lastChild, childrenCount in *; lia|].
    rewrite Hc. specialize (Hrc _ _ _ Hc Ht). cbn [m_lift].
    rewrite (rep_Bytes _ _ _ _ Hr) by (by cbn; intros Hx).
    apply (proof_child (BranchNode ts) t path q _ (λ r, BranchNode (<[i := r]> cs))).
    + by rewrite t_lookup_branch, Hs, Ht.
    + exact (path_nodes_branch _ _ _ _ _ Hs Ht).
    + apply (IH c t (child_depth i d') q); try done; [by apply Hwc|unfold child_depth; case_bool_decide; lia|].
      pose proof (stack_le c (child_depth i d')). rewrite stack_node in Hf by (by cbn; intros Hx).
      unfold child_depth in *. case_bool_decide; lia.
    + exact (insert_rep _ _ _ _ _ _ _ Hr Hc Ht).
  - destruct (rep_ext_inv _ _ _ _ _ Hr) as (tn & -> & Hrn).
    destruct (wf_ext_inv _ _ _ Hw) as (Hk & Hkn & Hle & Hc & Hn).
    destruct (has_prefix path k) eqn:Hpre.
    + apply has_prefix_spec in Hpre as [q ->]. rewrite drop_app_length.
      rewrite (rep_Bytes _ _ _ _ Hr) by (by cbn; intros Hx).
      apply (proof_child (ExtensionNode k tn) tn _ q _ (λ r, ExtensionNode k r)).
      * apply t_lookup_ext_app.
      * cbn [path_nodes]. by rewrite has_prefix_app, drop_app_length.
      * apply Forall_app in Hp as [_ Hq]. apply (IH n tn (d - length k)%nat q); try done; [lia|].
        pose proof (stack_le n (d - length k)). rewrite stack_node in Hf by (by cbn; intros Hx).
        destruct k; [done|cbn in *; lia].
      * intros n' Hn'. by constructor.
    + apply spec_ret. split; [done|]. cbn [t_lookup]. rewrite Hpre. by eexists.
  - inversion Hr as [| | | |? ? He Hs]; subst.
    eapply spec_bind.
    { eapply (spec_try _ _ _ _ (λ r δ, r = inl (shallow t) ∧ ∀ h, δ h = 0));
        [exact (load_ok _ _ d t Hw Hmax He (Hs t (nodes_self t He)))|]. by intros ? δ [-> Hδ]. }
    intros ? δ [-> Hδ]. eapply spec_mono.
    { apply (IH (shallow t) t d path ps); try done; [by eapply rep_shallow|].
      rewrite (stack_shallow _ _ _ Hw). rewrite stack_hash in Hf. lia. }
    intros a δ' [Hδ' Ha]. split; [|done]. intros h. rewrite Hδ, Hδ'. lia.
  - inversion Hr; subst. apply spec_ret. split; [done|]. cbn. by eexists.
Qed.
End get.

(** ** What [VerifyProof] makes of a list of byte strings *)

Section walk.
Context {S : Type} `{!Store S} (st : MemCachedStore S).

(** What the store made of a proof has of a node: nothing, or the node. *)
Definition has_node (u : Node) : Prop :=
  getFromStore_data st ModeAll (makeStorageKey (node_Hash u)) = Ok (node_Bytes u).
Definition no_node (u : Node) : Prop :=
  getFromStore_data st ModeAll (makeStorageKey (node_Hash u)) = Err (EStore ErrKeyNotFound).
Definition partly (t : Node) : Prop := ∀ u, u ∈ nodes t → has_node u ∨ no_node u.

Definition walk_post (t : Node) (path : bytes) (m : rcmap)
    (o : rcmap * res trie_err (Node * Node * bytes)) : Prop :=
  o.1 = m ∧
  match o.2 with
  | Ok (_, leaf, _) => ∃ v, leaf = LeafNode v ∧ t_lookup t path = Some v
  | Err _ => t_lookup t path = None ∨ ∃ u, u ∈ path_nodes t path ∧ no_node u
  | Panic => False
  end.

Lemma load_partly d t m :
  wf d t → (d <= Z.to_nat maxPathLength)%nat → isEmpty t = false → has_node t →
  getFromStore st ModeAll (node_Hash t) m = (m, Ok (shallow t)).
Proof.
  intros Hw Hd He Hg. assert (node_ok t) as Hok.
  { apply (wf_node_ok _ _ Hw). change (Z.to_nat maxPathLength) with 136%nat in Hd.
    change maxPathLength with 136. lia. }
  unfold getFromStore. rewrite Hg. unfold NodeObject_DecodeBinary.
  change (Z.to_nat maxPathLength + 1)%nat with (Datatypes.S (Datatypes.S 135)).
  unfold NewBinReaderFromBuf. rewrite <- (app_nil_r (node_Bytes t)), decode_node by done.
  cbn [r_err mode_RC andb]. by destruct t.
Qed.

(** Both inner cases. *)
Lemma walk_child u t path q (x : M (Node * Node * bytes)) (wrap : Node → Node) (pre : bytes → bytes) m :
  t_lookup u path = t_lookup t q → path_nodes u path = u :: path_nodes t q → walk_post t q m (x m) →
  walk_post u path m ((('(r, res, prefix) ← x; mret (wrap r, res, pre prefix)) : M _) m).
Proof.
  intros Hu Hpn [Hm Hx]. unfold walk_post, mbind, M_bind. rewrite Hu, Hpn.
  destruct (x m) as [m' [[[r leaf] prefix]|e|]]; cbn [fst snd] in *; [done| |done].
  split; [done|]. destruct Hx as [Hx|(w & Hw & Hno)]; [by left|]. right. exists w. split; [by right|done].
Qed.

Lemma walk fuel t d path m :
  wf d t → (d <= Z.to_nat maxPathLength)%nat → nibbles path → partly t →
  ((2 * d + 1 <= fuel)%nat → walk_post t path m (getWithPath st ModeAll fuel (shallow t) path true m))
  ∧ ((2 * d + 2 <= fuel)%nat → walk_post t path m (getWithPath st ModeAll fuel (collapse_child t) path true m)).
Proof.
  revert t d path m. induction fuel as [|fuel IH]; intros t d path m Hw Hmax Hp Hpart; [lia|]. split; intros Hf.
  - destruct t as [v|cs|k n|h c|]; cbn [shallow getWithPath].
    + unfold walk_post. cbn [t_lookup]. case_bool_decide; (split; [done|]); cbn; [by eexists|by left].
    + destruct (wf_branch_inv _ _ Hw) as (d' & -> & [Hlt Hwc] & _).
      destruct (splitPath path) as [i q] eqn:Hs. rewrite andb_false_r.
      destruct (splitPath_nibbles _ _ _ Hp Hs) as [Hq Hi].
      destruct (lookup_lt_is_Some_2 cs i) as [c Hc]; [unfold lastChild, childrenCount in *; lia|].
      rewrite list_lookup_fmap, Hc. cbn [fmap option_fmap option_map m_lift].
      apply (walk_child (BranchNode cs) c path q _ (λ r, BranchNode (<[i := r]> (map collapse_child cs)))
        (λ prefix, z2b (Z.of_nat i) :: prefix)).
      * by rewrite t_lookup_branch, Hs, Hc.
      * exact (path_nodes_branch _ _ _ _ _ Hs Hc).
      * apply (IH c (child_depth i d') q m); try done; [by apply Hwc|..].
        -- unfold child_depth. case_bool_decide; lia.
        -- intros u Hu. apply Hpart. by eapply nodes_child.
        -- unfold child_depth. case_bool_decide; lia.
    + destruct (wf_ext_inv _ _ _ Hw) as (Hk & Hkn & Hle & Hc & Hn).
      rewrite !andb_false_r. cbn [negb andb]. destruct (has_prefix path k) eqn:Hpre.
      * apply has_prefix_spec in Hpre as [q ->]. rewrite drop_app_length.
        apply (walk_child (ExtensionNode k n) n _ q _ (λ r, ExtensionNode k r) (λ prefix, k ++ prefix)).
        -- apply t_lookup_ext_app.
        -- cbn [path_nodes]. by rewrite has_prefix_app, drop_app_length.
        -- apply Forall_app in Hp as [_ Hq]. apply (IH n (d - length k)%nat q m); try done; [lia|..].
           ++ intros u Hu. apply Hpart. by right.
           ++ destruct k; [done|cbn in *; lia].
      * split; [done|]. left. cbn [t_lookup]. by rewrite Hpre.
    + exfalso. exact (wf_not_hash _ _ _ _ Hw eq_refl).
    + split; [done|]. by left.
  - unfold collapse_child. destruct (isEmpty t) eqn:He.
    { destruct t; try done. cbn. split; [done|]. by left. }
    cbn [getWithPath]. unfold mbind, M_bind, m_try. destruct (Hpart t (nodes_self t He)) as [Hg|Hg].
    + rewrite (load_partly _ _ _ Hw Hmax He Hg). apply (IH t d path m); try done. lia.
    + unfold getFromStore. rewrite Hg. cbn [fst snd]. split; [done|]. cbn.
      destruct (path_nodes_head t path) as [Hhd|Hhd]; [right; by exists t|by left].
Qed.
End walk.

(** ** The store made of a proof *)

Lemma proof_store_spec proofs h :
  let g := getFromStore_data (proof_store proofs) ModeAll (makeStorageKey h) in
  (∃ p, p ∈ proofs ∧ DoubleSha256 p = h ∧ g = Ok p)
  ∨ ((h ∉ map DoubleSha256 proofs) ∧ g = Err (EStore ErrKeyNotFound)).
Proof.
  cbn zeta. assert (mcs_wf (proof_store proofs) ∧ ∀ h,
    (∃ p, p ∈ proofs ∧ DoubleSha256 p = h
       ∧ getFromStore_data (proof_store proofs) ModeAll (makeStorageKey h) = Ok p)
    ∨ (h ∉ map DoubleSha256 proofs)
       ∧ getFromStore_data (proof_store proofs) ModeAll (makeStorageKey h) = Err (EStore ErrKeyNotFound))
    as [_ Hx]; [|by apply Hx]. clear h.
  induction proofs as [|p proofs [Hwf IH]] using rev_ind.
  { split; [exact w_st_wf|]. intros h. right. split; [by intros ?%elem_of_nil|done]. }
  unfold proof_store. rewrite fold_left_app. fold (proof_store proofs). cbn [fold_left].
  destruct (Put_spec (proof_store proofs) ModeAll (DoubleSha256 p) p Hwf) as (st' & E & Hwf' & Hg).
  rewrite E. split; [done|]. intros h. rewrite Hg. case_bool_decide as Hh.
  - left. exists p. split; [|done]. apply elem_of_app. right. by apply list_elem_of_singleton.
  - rewrite map_app. cbn [map]. destruct (IH h) as [(q & Hq & Hqh & Hqg)|[Hn Hqg]]; rewrite Hqg.
    + left. exists q. split; [|done]. apply elem_of_app. by left.
    + right. split; [|done]. by intros [?|?%list_elem_of_singleton]%elem_of_app.
Qed.

Lemma proof_store_partly d t proofs :
  wf d t → no_collision (proofs ++ tree_bytes t) → partly (proof_store proofs) t.
Proof.
  intros Hw Hcol u Hu. destruct (proof_store_spec proofs (node_Hash u)) as [(p & Hp & Hh & Hg)|[_ Hg]]; [left|by right].
  unfold has_node. rewrite Hg. f_equal. apply Hcol.
  - apply elem_of_app. by left.
  - apply elem_of_app. right. by apply list_elem_of_fmap_2.
  - by rewrite Hh, (wf_node_Hash _ _ _ Hw Hu).
Qed.

Lemma VerifyProof_spec t key proofs :
  wf (Z.to_nat maxPathLength) t → isEmpty t = false → no_collision (proofs ++ tree_bytes t) →
  ∃ v b, VerifyProof (node_Hash t) key proofs = Ok (v, b)
    ∧ if b then t_lookup t (toNibbles key) = Some v
      else t_lookup t (toNibbles key) = None
           ∨ ∃ u, u ∈ path_nodes t (toNibbles key) ∧ node_Hash u ∉ map DoubleSha256 proofs.
Proof.
  intros Hw He Hcol.
  destruct (walk (proof_store proofs) (verify_fuel key proofs) t _ (toNibbles key) ∅ Hw ltac:(lia)
    (nibbles_toNibbles key) (proof_store_partly _ _ _ Hw Hcol)) as [_ Hwalk].
  unfold VerifyProof. unfold collapse_child in Hwalk. rewrite He in Hwalk.
  destruct Hwalk as [Hm Hr].
  { unfold verify_fuel, trie_fuel. lia. }
  destruct (getWithPath _ _ _ _ _ _ _) as [m' [[[r leaf] pre]|e|]]; cbn [fst snd] in Hr; [|..|done].
  - destruct Hr as (v & -> & Hv). by exists v, true.
  - exists [], false. split; [done|]. destruct Hr as [Hr|(u & Hu & Hno)]; [by left|]. right. exists u. split; [done|].
    destruct (proof_store_spec proofs (node_Hash u)) as [(p & _ & _ & Hg)|[Hn _]]; [|done].
    unfold no_node in Hno. by rewrite Hno in Hg.
Qed.
End proof.

(** What [GetProof] answers for a key that is not too long. *)
Lemma GetProof_run `{Digest} {S} `{!Store S} (tr : Trie S) (t0 t : Node) (m : gmap bytes bytes) (key : bytes) :
  trie_inv tr t0 t m → too_big key = false →
  ∃ proofs o, (Trie_GetProof tr key).2 = Ok (proofs, o)
    ∧ match m !! key with
      | Some _ => o = None ∧ proofs = map node_Bytes (path_nodes t (toNibbles key))
      | None => o = Some ErrNotFound
      end.
Proof.
  intros Hi Hk. unfold Trie_GetProof. fold (too_big key). rewrite Hk.
  destruct (getProof_spec (t_Store tr) (t_mode tr) trie_fuel (t_root tr) t _ (toNibbles key) []
    (inv_rep _ _ _ _ Hi) (inv_wf _ _ _ _ Hi) ltac:(done) (nibbles_toNibbles key) (stack_fuel _) _ (inv_rc _ _ _ _ Hi))
    as (rc' & r & δ & E & _ & (a & -> & _ & Ha) & _). rewrite E.
  rewrite (holds_lookup _ _ _ (inv_holds _ _ _ _ Hi)) in Ha.
  destruct (m !! key); [destruct Ha as (n' & -> & _)|destruct Ha as (ps' & ->)]; by eexists _, _.
Qed.

(** Its proof is accepted, with the value of the key. *)
Lemma GetProof_accepted `{Digest} {S} `{!Store S} (tr : Trie S) (t0 t : Node) (m : gmap bytes bytes) (key v : bytes) :
  trie_inv tr t0 t m → no_collision (tree_bytes t) → too_big key = false → m !! key = Some v →
  ∃ proofs, (Trie_GetProof tr key).2 = Ok (proofs, None) ∧ VerifyProof (StateRoot tr) key proofs = Ok (v, true).
Proof.
  intros Hi Hcol Hk Hv. pose proof (inv_wf _ _ _ _ Hi) as Hw. pose proof (inv_holds _ _ _ _ Hi) as Hh.
  destruct (GetProof_run tr t0 t m key Hi Hk) as (proofs & o & E & Ho). rewrite Hv in Ho. destruct Ho as [-> ->].
  eexists. split; [exact E|].
  assert (isEmpty t = false) as He by (apply (holds_nonempty _ _ Hh); intros ->; by rewrite lookup_empty in Hv).
  rewrite (StateRoot_rep _ _ _ _ Hi), He.
  destruct (VerifyProof_spec t key (map node_Bytes (path_nodes t (toNibbles key))) Hw He) as (w & b & E' & Hb).
  { assert (∀ x, x ∈ map node_Bytes (path_nodes t (toNibbles key)) ++ tree_bytes t → x ∈ tree_bytes t) as Hsub.
    { intros x [(u & -> & Hu%path_nodes_sub)%list_elem_of_fmap|]%elem_of_app; [by apply list_elem_of_fmap_2|done]. }
    intros x y Hx Hy. apply Hcol; by apply Hsub. }
  rewrite E'. rewrite (holds_lookup _ _ _ Hh), Hv in Hb. destruct b; [congruence|].
  destruct Hb as [|(u & Hu & Hn)]; [done|]. destruct Hn. rewrite (wf_node_Hash _ _ _ Hw (path_nodes_sub _ _ _ Hu)).
  by apply list_elem_of_fmap_2, list_elem_of_fmap_2.
Qed.

(** The items of a proof are nodes of the trie. *)
Lemma GetProof_sub `{Digest} {S} `{!Store S} (tr : Trie S) (t0 t : Node) (m : gmap bytes bytes) (key : bytes) proofs :
  trie_inv tr t0 t m → (Trie_GetProof tr key).2 = Ok (proofs, None) → ∀ x, x ∈ proofs → x ∈ tree_bytes t.
Proof.
  intros Hi E. destruct (too_big key) eqn:Hk.
  { unfold Trie_GetProof in E. fold (too_big key) in E. by rewrite Hk in E. }
  destruct (GetProof_run tr t0 t m key Hi Hk) as (ps & o & E' & Ho). rewrite E in E'. injection E' as <- <-.
  destruct (m !! key); [destruct Ho as [_ ->]|done].
  intros x (u & -> & Hu%path_nodes_sub)%list_elem_of_fmap. by apply list_elem_of_fmap_2.
Qed.

(** ** Properties *)

(** C28: [GetProof] of a key that the trie holds gives a proof that
    [VerifyProof] accepts for the trie's root, with the key's value; of any
    other key it gives an error. The trie's nodes are assumed not to collide. *)
Theorem proof_complete `{Digest} {S} `{!Store S} (tr : Trie S) (t0 t : Node) (m : gmap bytes bytes) (key : bytes) :
  trie_inv tr t0 t m → no_collision (tree_bytes t) →
  (too_big key = true → (Trie_GetProof tr key).2 = Ok ([], Some (EMsg "key is too big")))
  ∧ (too_big key = false →
       match m !! key with
       | Some v => ∃ proofs, (Trie_GetProof tr key).2 = Ok (proofs, None)
                     ∧ VerifyProof (StateRoot tr) key proofs = Ok (v, true)
       | None => ∃ proofs, (Trie_GetProof tr key).2 = Ok (proofs, Some ErrNotFound)
       end).
Proof.
  intros Hi Hcol. split; intros Hk.
  { unfold Trie_GetProof. fold (too_big key). by rewrite Hk. }
  destruct (m !! key) as [v|] eqn:Hv; [by apply (GetProof_accepted tr t0 t m)|].
  destruct (GetProof_run tr t0 t m key Hi Hk) as (proofs & o & E & Ho). rewrite Hv in Ho. rewrite E.
  exists proofs. by rewrite Ho.
Qed.

(** C29: for the root of a trie that has contents, [VerifyProof] is sound and does
    not fail: whatever byte strings make the proof and whatever the key, it
    answers, and a value it answers is the one the trie with that root holds under
    the key. The byte strings are assumed not to collide with the trie's nodes.
    For a root that is not the root of such a trie it may fail to answer
    ([proof_of_hash_node_loops]). *)
Theorem proof_sound `{Digest} {S} `{!Store S} (tr : Trie S) (t0 t : Node) (m : gmap bytes bytes) (key : bytes)
    (proofs : list bytes) :
  trie_inv tr t0 t m → m ≠ ∅ → no_collision (proofs ++ tree_bytes t) →
  ∃ v b, VerifyProof (StateRoot tr) key proofs = Ok (v, b) ∧ (b = true → m !! key = Some v).
Proof.
  intros Hi Hne Hcol. pose proof (inv_holds _ _ _ _ Hi) as Hh.
  pose proof (holds_nonempty _ _ Hh Hne) as He.
  destruct (VerifyProof_spec t key proofs (inv_wf _ _ _ _ Hi) He Hcol) as (v & b & E & Hb).
  exists v, b. rewrite (StateRoot_rep _ _ _ _ Hi), He. split; [done|]. intros ->.
  by rewrite (holds_lookup _ _ _ Hh) in Hb.
Qed.

(** But a proof made of one encoded hash node, for a root that is its own
    hash, sends the lookup around forever: no amount of stack is enough. *)
Theorem proof_of_hash_node_loops `{Digest} (h : bytes) (key : bytes) (fuel : nat) (m : rcmap) :
  length h = 32%nat →
  getWithPath (proof_store [x03 :: h]) ModeAll fuel (HashNode (DoubleSha256 (x03 :: h)) false)
    (toNibbles key) true m = (m, Panic).
Proof.
  intros Hh. generalize false as c. revert m. induction fuel as [|fuel IH]; intros m c; [done|]. cbn [getWithPath].
  assert (getFromStore (proof_store [x03 :: h]) ModeAll (DoubleSha256 (x03 :: h)) m
    = (m, Ok (HashNode (DoubleSha256 (x03 :: h)) false))) as E.
  { unfold getFromStore.
    destruct (proof_store_spec [x03 :: h] (DoubleSha256 (x03 :: h))) as [(p & Hp & _ & Hg)|[Hn _]];
      [|destruct Hn; left].
    apply list_elem_of_singleton in Hp as ->. rewrite Hg. unfold NodeObject_DecodeBinary.
    change (Z.to_nat maxPathLength + 1)%nat with (Datatypes.S (Datatypes.S 135)).
    pose proof (decode_node (HashNode h false) 135 [] Hh) as Hd. rewrite node_Bytes_eq, app_nil_r in Hd.
    assert (z2b HashT = x03) as Hz by (vm_compute; reflexivity).
    unfold NewBinReaderFromBuf. cbn [NodeType body_enc] in Hd. rewrite Hz in Hd. by rewrite Hd. }
  unfold mbind, M_bind, m_try. rewrite E. apply IH.
Qed.

(** The trie of the examples of [MptStore]. *)
Lemma f_inv_mem : trie_inv f_trie EmptyNode (t_root f_trie) f_map ∧ no_collision (tree_bytes (t_root f_trie)).
Proof.
  destruct f_inv as (Hi & _ & [Hcol _ _]). split; [exact Hi|]. intros x y Hx Hy. apply Hcol.
  - apply elem_of_app. right. apply elem_of_app. by right.
  - apply elem_of_app. right. apply elem_of_app. by right.
Qed.

Lemma proof_complete_witness :
  ∃ proofs, (Trie_GetProof f_trie [xaa; xcc]).2 = Ok (proofs, None)
    ∧ VerifyProof (StateRoot f_trie) [xaa; xcc] proofs = Ok ([x02], true).
Proof.
  destruct f_inv_mem as [Hi Hcol].
  destruct (proof_complete f_trie EmptyNode (t_root f_trie) f_map [xaa; xcc] Hi Hcol) as [_ Hp].
  specialize (Hp eq_refl). assert (f_map !! [xaa; xcc] = Some [x02]) as Hm by (vm_compute; reflexivity).
  rewrite Hm in Hp. exact Hp.
Defined.

Lemma proof_sound_witness :
  ∃ v b, VerifyProof (StateRoot f_trie) [xaa; xdd] [[x01; x02]; [x05]] = Ok (v, b)
    ∧ (b = true → f_map !! [xaa; xdd] = Some v).
Proof.
  destruct f_inv_mem as [Hi _].
  apply (proof_sound f_trie EmptyNode (t_root f_trie) f_map [xaa; xdd] [[x01; x02]; [x05]] Hi).
  - apply (bool_decide_eq_true_1 _). vm_compute. reflexivity.
  - apply no_collisionb_ok. vm_compute. reflexivity.
Defined.

Lemma proof_of_hash_node_loops_witness :
  getWithPath (proof_store [x03 :: zero256]) ModeAll 1000 (HashNode (DoubleSha256 (x03 :: zero256)) false)
    (toNibbles [xaa]) true ∅ = (∅, Panic).
Proof. exact (proof_of_hash_node_loops zero256 [xaa] 1000 ∅ eq_refl). Defined.
