(* ===== verification/Fork.v ===== *)
(** * Fork: a local chain on top of a remote network's state

    Models [pkg/nanvil/fork]: the overlay of local writes
    ([tracking_store.go]), the lazy reader of the remote state with its caches
    ([remote_store.go], [cache.go]) and the store that puts them on top of a
    base store ([overlay_store.go]).

    The remote node is a parameter, [RPC]: what it answers may depend on the
    number of the request, so that nothing is assumed of it but what a theorem
    says. Files are taken to read back as they were written. *)

From S2P Require Import Prelude BinIO Storage Hash MptNode MptTree Mpt MptSpec MptMap MptStore MptProof.
#[local] Open Scope Z_scope.

(** ** The overlay of local writes

    A [nil] value is [None]; values are copied with [append([]byte(nil), v...)],
    [clone_val], which makes [nil] of the empty value. *)

Record TrackingOverlay := mkOverlay {
  ov_writes : changes;
  ov_deletes : gset bytes;
}.

Definition NewTrackingOverlay : TrackingOverlay := mkOverlay ∅ ∅.

Definition Overlay_Put (o : TrackingOverlay) (key : bytes) (value : option bytes) : TrackingOverlay :=
  mkOverlay (<[key := clone_val value]> (ov_writes o)) (ov_deletes o ∖ {[key]}).

Definition Overlay_Delete (o : TrackingOverlay) (key : bytes) : TrackingOverlay :=
  mkOverlay (delete key (ov_writes o)) ({[key]} ∪ ov_deletes o).

(** [Some v] is [(v, true)], [None] is [(nil, false)]. *)
Definition Overlay_Get (o : TrackingOverlay) (key : bytes) : option (option bytes) :=
  if bool_decide (key ∈ ov_deletes o) then Some None
  else clone_val <$> ov_writes o !! key.

Definition Overlay_Reset (o : TrackingOverlay) : TrackingOverlay := NewTrackingOverlay.

(** The deletes come in the order of the iteration over a map. *)
Definition Overlay_Export (o : TrackingOverlay) : changes * list bytes :=
  (clone_val <$> ov_writes o, elements (ov_deletes o)).

Definition Overlay_Import (o : TrackingOverlay) (writes : changes) (deletes : list bytes) : TrackingOverlay :=
  mkOverlay (clone_val <$> writes) (list_to_set deletes).

Definition Overlay_Len (o : TrackingOverlay) : nat := (size (ov_writes o) + size (ov_deletes o))%nat.

(** ** Keys of contract storage *)

Definition isContractStorageKey (key : bytes) : bool :=
  match key with p :: _ => is_stor_prefix p | [] => false end.

Definition parseContractStorageKey (key : bytes) : option (Z * bytes) :=
  if bool_decide (length key < 5)%nat || negb (isContractStorageKey key) then None
  else Some (i32 (le_val (take 4 (drop 1 key))), drop 5 key).

Definition contractIDFromPrefix (prefix : bytes) : option (Z * bytes) :=
  if bool_decide (length prefix < 5)%nat || negb (isContractStorageKey prefix) then None
  else Some (i32 (le_val (take 4 (drop 1 prefix))), drop 5 prefix).

Definition makeContractStorageKey (id : Z) (itemKey : bytes) : bytes :=
  STStorage :: le_enc 4 (u32 id) ++ itemKey.

Definition keyInSeekRange (key : bytes) (rng : SeekRange) : bool :=
  has_prefix key (rng_Prefix rng)
  && (bool_decide (rng_Start rng = [])
      || match bcompare (drop (length (rng_Prefix rng)) key) (rng_Start rng) with Lt => false | _ => true end).

Definition PutStorageOverlay (o : TrackingOverlay) (id : Z) (key value : bytes) : TrackingOverlay :=
  Overlay_Put o (makeContractStorageKey id key) (Some value).

(** ** Keys of the cache *)

Definition hex_digit (d : Z) : byte := z2b (if bool_decide (d < 10) then 48 + d else 87 + d).

(** [hex.EncodeToString], which is also the format [%x] of a byte slice *)
Fixpoint EncodeToString (b : bytes) : bytes :=
  match b with
  | [] => []
  | x :: b => hex_digit (b2z x / 16) :: hex_digit (b2z x mod 16) :: EncodeToString b
  end.

(** The underscore between the contract, in big-endian order, and the key. *)
Definition CacheKey (contract : bytes) (key : bytes) : bytes :=
  EncodeToString contract ++ x5f :: EncodeToString key.

(** A directory of files. *)
Record DiskCache := mkDisk { dc_files : gmap bytes bytes }.

Definition DiskCache_Get (c : DiskCache) (key : bytes) : option bytes := dc_files c !! key.
Definition DiskCache_Put (c : DiskCache) (key value : bytes) : DiskCache :=
  mkDisk (<[key := value]> (dc_files c)).

(** ** The remote node *)

Record ContractInfo := mkContract { ci_ID : Z; ci_Hash : bytes; ci_Name : bytes }.

Record Manifest := mkManifest {
  mf_RPCURL : bytes;
  mf_NetworkMagic : Z;
  mf_AddressVersion : Z;
  mf_Index : Z;
  mf_IndexHash : bytes;
  mf_RootHash : bytes;
  mf_Contracts : list ContractInfo;
}.

Record ProofWithKey := mkProof { pk_Key : bytes; pk_Proof : list bytes }.
Record FindStates := mkFind { fs_Results : list KeyValue; fs_Truncated : bool }.

(** The answers of the RPC client; the first argument is the number of the
    request, [None] an error. *)
Record RPC := mkRPC {
  rpc_GetProof : nat → bytes → bytes → bytes → option ProofWithKey;
  rpc_FindStates : nat → bytes → bytes → bytes → bytes → option FindStates;
  rpc_GetNativeContracts : option (list ContractInfo);
}.

Inductive rerr := ERPC | EInvalidProof | EPages.

Record RemoteStateStore := mkRemote {
  rs_manifest : Manifest;
  rs_cache : option DiskCache;
  rs_noCache : bool;
  rs_mem : gmap bytes bytes;
  rs_contractByID : gmap Z bytes;
  rs_contractByHash : gmap bytes Z;
  rs_calls : nat;
}.

Definition rs_set_mem (r : RemoteStateStore) (m : gmap bytes bytes) : RemoteStateStore :=
  mkRemote (rs_manifest r) (rs_cache r) (rs_noCache r) m (rs_contractByID r) (rs_contractByHash r) (rs_calls r).
Definition rs_set_cache (r : RemoteStateStore) (c : option DiskCache) : RemoteStateStore :=
  mkRemote (rs_manifest r) c (rs_noCache r) (rs_mem r) (rs_contractByID r) (rs_contractByHash r) (rs_calls r).
Definition rs_called (r : RemoteStateStore) : RemoteStateStore :=
  mkRemote (rs_manifest r) (rs_cache r) (rs_noCache r) (rs_mem r) (rs_contractByID r) (rs_contractByHash r)
    (rs_calls r + 1).

(** [r.mem[cacheKey] = v], then the file unless the cache is off *)
Definition remember (r : RemoteStateStore) (cacheKey v : bytes) : RemoteStateStore :=
  let r := rs_set_mem r (<[cacheKey := v]> (rs_mem r)) in
  if rs_noCache r then r
  else rs_set_cache r ((λ c, DiskCache_Put c cacheKey v) <$> rs_cache r).

Definition ContractHash (r : RemoteStateStore) (id : Z) : option bytes := rs_contractByID r !! id.

Definition CachedCount (r : RemoteStateStore) : nat := size (rs_mem r).

Section remote.
Context `{Digest} (rpc : RPC).

Definition NewRemoteStateStore (m : Manifest) (cache : option DiskCache) (noCache : bool)
    : option RemoteStateStore :=
  natives ← rpc_GetNativeContracts rpc;
  let all := mf_Contracts m ++ natives in
  Some (mkRemote m cache noCache ∅
          (fold_left (λ b c, <[ci_ID c := ci_Hash c]> b) all ∅)
          (fold_left (λ b c, <[ci_Hash c := ci_ID c]> b) all ∅) 0).

Definition GetProof (r : RemoteStateStore) (contract key : bytes) : RemoteStateStore * res rerr bytes :=
  let cacheKey := CacheKey contract key in
  match rs_mem r !! cacheKey with
  | Some v => (r, Ok v)
  | None =>
      match (if negb (rs_noCache r) then c ← rs_cache r; DiskCache_Get c cacheKey else None) with
      | Some raw => (rs_set_mem r (<[cacheKey := raw]> (rs_mem r)), Ok raw)
      | None =>
          let root := mf_RootHash (rs_manifest r) in
          let proof := rpc_GetProof rpc (rs_calls r) root contract key in
          let r := rs_called r in
          match proof with
          | None => (r, Err ERPC)
          | Some proof =>
              match VerifyProof root (pk_Key proof) (pk_Proof proof) with
              | Ok (val, true) => (remember r cacheKey val, Ok val)
              | Ok (_, false) => (r, Err EInvalidProof)
              | Err _ | Panic => (r, Panic)
              end
          end
      end
  end.

(** The loops over the pages of an answer take as fuel the number of pages: a
    node that never comes to an end keeps the code busy forever. *)
Fixpoint PrefetchContract (pages : nat) (r : RemoteStateStore) (contract from : bytes)
    : RemoteStateStore * res rerr unit :=
  match pages with
  | O => (r, Err EPages)
  | S pages =>
      let ans := rpc_FindStates rpc (rs_calls r) (mf_RootHash (rs_manifest r)) contract [] from in
      let r := rs_called r in
      match ans with
      | None => (r, Err ERPC)
      | Some ans =>
          let r := fold_left (λ r kv, remember r (CacheKey contract (kv_key kv)) (kv_val kv)) (fs_Results ans) r in
          match last (fs_Results ans) with
          | Some kv => if fs_Truncated ans then PrefetchContract pages r contract (kv_key kv) else (r, Ok tt)
          | None => (r, Ok tt)
          end
      end
  end.

Section iterate.
Context {St : Type} (cont : St → bytes → bytes → St * bool).

(** One page; the flag tells whether the callback wants to go on. *)
Fixpoint iterate_page (contract prefix start : bytes) (l : list KeyValue) (r : RemoteStateStore) (st : St)
    : RemoteStateStore * St * bool :=
  match l with
  | [] => (r, st, true)
  | kv :: l =>
      if bool_decide (prefix ≠ []) && negb (has_prefix (kv_key kv) prefix) then
        iterate_page contract prefix start l r st
      else if bool_decide (start ≠ []) && bool_decide (bcompare (kv_key kv) start = Lt) then
        iterate_page contract prefix start l r st
      else
        let r := remember r (CacheKey contract (kv_key kv)) (kv_val kv) in
        let '(st, c) := cont st (kv_key kv) (kv_val kv) in
        if c : bool then iterate_page contract prefix start l r st else (r, st, false)
  end.

Fixpoint iterate_pages (pages : nat) (contract prefix start from : bytes) (r : RemoteStateStore) (st : St)
    : RemoteStateStore * St * res rerr unit :=
  match pages with
  | O => (r, st, Err EPages)
  | S pages =>
      let ans := rpc_FindStates rpc (rs_calls r) (mf_RootHash (rs_manifest r)) contract (prefix ++ start) from in
      let r := rs_called r in
      match ans with
      | None => (r, st, Err ERPC)
      | Some ans =>
          let '(r, st, c) := iterate_page contract prefix start (fs_Results ans) r st in
          if c : bool then
            match last (fs_Results ans) with
            | Some kv =>
                if fs_Truncated ans then iterate_pages pages contract prefix start (kv_key kv) r st
                else (r, st, Ok tt)
            | None => (r, st, Ok tt)
            end
          else (r, st, Ok tt)
      end
  end.

Definition IterateContractStorage (pages : nat) (r : RemoteStateStore) (contract prefix start : bytes) (st : St)
    : RemoteStateStore * St * res rerr unit :=
  iterate_pages pages contract prefix start [] r st.
End iterate.
End remote.

(** ** The branch point *)

Section branch.
Context (rpc : RPC).

(** The first twenty bytes of a value as a hash, the bytes after the prefix as
    an identifier. *)
Definition contract_of_item (kv : KeyValue) : option ContractInfo :=
  if bool_decide (5 <= length (kv_key kv))%nat && bool_decide (20 <= length (kv_val kv))%nat then
    Some (mkContract (i32 (be_val (take 4 (drop 1 (kv_key kv))))) (take 20 (kv_val kv)) [])
  else None.

Fixpoint enumerate_pages (pages calls : nat) (root mgmt prefix from : bytes) (out : list ContractInfo)
    : res rerr (list ContractInfo) :=
  match pages with
  | O => Err EPages
  | S pages =>
      match rpc_FindStates rpc calls root mgmt prefix from with
      | None => Err ERPC
      | Some ans =>
          let out := out ++ omap contract_of_item (fs_Results ans) in
          match last (fs_Results ans) with
          | Some kv =>
              if fs_Truncated ans then enumerate_pages pages (calls + 1) root mgmt prefix (kv_key kv) out
              else Ok out
          | None => Ok out
          end
      end
  end.

Definition enumerateContracts (pages calls : nat) (root mgmt : bytes) : res rerr (list ContractInfo) :=
  enumerate_pages pages calls root mgmt [x08] [] [].
End branch.

Record TransitionInfo := mkTransition {
  ti_BranchIndex : Z;
  ti_BranchHash : bytes;
  ti_LocalValidator : bytes;
  ti_TransitionHeight : Z;
}.

Definition BuildTransition (m : Manifest) (validator : bytes) : TransitionInfo :=
  mkTransition (mf_Index m) (mf_IndexHash m) validator (u32 (mf_Index m + 1)).

(** ** The store *)

Record ForkStore (S : Type) := mkFork {
  fs_base : S;
  fs_remote : option RemoteStateStore;
  fs_overlay : TrackingOverlay;
}.
Arguments mkFork {S} _ _ _.
Arguments fs_base {S} _.
Arguments fs_remote {S} _.
Arguments fs_overlay {S} _.

Section store.
Context `{Digest} (rpc : RPC) {S : Type} `{!Store S}.

Definition NewStore (base : S) (overlay : TrackingOverlay) : ForkStore S := mkFork base None overlay.

Definition SetRemote (s : ForkStore S) (remote : RemoteStateStore) : ForkStore S :=
  mkFork (fs_base s) (Some remote) (fs_overlay s).

Definition getRemote (s : ForkStore S) (key : bytes) : ForkStore S * res serr (option bytes) :=
  match fs_remote s with
  | None => (s, Ok None)
  | Some remote =>
      match parseContractStorageKey key with
      | None => (s, Ok None)
      | Some (id, itemKey) =>
          match ContractHash remote id with
          | None => (s, Ok None)
          | Some hash =>
              let '(remote, r) := GetProof rpc remote hash itemKey in
              let s := SetRemote s remote in
              match r with
              | Ok val => (s, Ok (Some val))
              | Err _ => (s, Ok None)
              | Panic => (s, Panic)
              end
          end
      end
  end.

Definition Get (s : ForkStore S) (key : bytes) : ForkStore S * res serr bytes :=
  if negb (isContractStorageKey key) then (s, st_get (fs_base s) key) else
  match Overlay_Get (fs_overlay s) key with
  | Some None => (s, Err ErrKeyNotFound)
  | Some (Some v) => (s, Ok v)
  | None =>
      let '(s, r) := getRemote s key in
      match r with
      | Ok (Some v) => (s, Ok v)
      | Ok None => (s, st_get (fs_base s) key)
      | Err e => (s, Err e)
      | Panic => (s, Panic)
      end
  end.

(** One round of the loop over the changes, which comes in any order. *)
Definition overlay_change (o : TrackingOverlay) (p : bytes * option bytes) : TrackingOverlay :=
  if negb (isContractStorageKey p.1) then o
  else match p.2 with None => Overlay_Delete o p.1 | Some v => Overlay_Put o p.1 (Some v) end.

Definition PutChangeSet (s : ForkStore S) (puts stores : gomap) : ForkStore S * res serr unit :=
  let overlay := fold_left overlay_change (map_to_list (gm stores)) (fs_overlay s) in
  let '(base, r) := st_put (fs_base s) puts stores in
  (mkFork base (fs_remote s) overlay, r).

(** The map [merged], whose values may be [nil], after the base, the remote and
    the overlay have been read. *)
Definition merge_remote (pages : nat) (s : ForkStore S) (rng : SeekRange) (merged : changes)
    : ForkStore S * changes :=
  match fs_remote s with
  | None => (s, merged)
  | Some remote =>
      match contractIDFromPrefix (rng_Prefix rng) with
      | None => (s, merged)
      | Some (id, subPrefix) =>
          match ContractHash remote id with
          | None => (s, merged)
          | Some hash =>
              let '(remote, merged, _) :=
                IterateContractStorage rpc
                  (λ (m : changes) itemKey value, (<[makeContractStorageKey id itemKey := Some value]> m, true))
                  pages remote hash subPrefix (rng_Start rng) merged in
              (SetRemote s remote, merged)
          end
      end
  end.

Definition merge_overlay (o : TrackingOverlay) (rng : SeekRange) (merged : changes) : changes :=
  let merged :=
    fold_left (λ m p, if keyInSeekRange p.1 rng then <[p.1 := p.2]> m else m)
      (map_to_list (ov_writes o)) merged in
  fold_left (λ m k, if keyInSeekRange k rng then delete k m else m) (elements (ov_deletes o)) merged.

Definition collectSeek (pages : nat) (s : ForkStore S) (rng : SeekRange)
    : ForkStore S * res serr (list KeyValue) :=
  match st_seek (fs_base s) rng with
  | Err e => (s, Err e)
  | Panic => (s, Panic)
  | Ok l =>
      let merged : changes := fold_left (λ m kv, <[kv_key kv := Some (kv_val kv)]> m) l ∅ in
      let '(s, merged) := merge_remote pages s rng merged in
      let merged := merge_overlay (fs_overlay s) rng merged in
      (s, Ok (sort_kv false (map (λ p, mkKV p.1 (default [] p.2)) (map_to_list merged))))
  end.

Definition Fork_Seek {St} (pages : nat) (s : ForkStore S) (rng : SeekRange) (f : St → KeyValue → St * bool) (st : St)
    : ForkStore S * res serr (St * bool) :=
  if bool_decide (rng_Prefix rng = []) || negb (isContractStorageKey (rng_Prefix rng)) then
    (s, Storage.Seek (fs_base s) rng f st)
  else
    let '(s, l) := collectSeek pages s rng in (s, (λ l, iter_cb f l st) <$> l).
End store.

(** [SeekGC] over the memory store, the base the node uses. *)
Section seek_gc.
Context `{Digest} (rpc : RPC) {St : Type} (keepCont : St → KeyValue → St * (bool * bool)).

Fixpoint gc_loop (l : list KeyValue) (st : St) (o : TrackingOverlay) (toDelete : list bytes)
    : St * TrackingOverlay * list bytes :=
  match l with
  | [] => (st, o, toDelete)
  | kv :: l =>
      let '(st, (keep, c)) := keepCont st kv in
      let '(o, toDelete) :=
        if keep : bool then (o, toDelete) else (Overlay_Delete o (kv_key kv), toDelete ++ [kv_key kv]) in
      if c : bool then gc_loop l st o toDelete else (st, o, toDelete)
  end.

Definition Fork_SeekGC (pages : nat) (s : ForkStore MemoryStore) (rng : SeekRange) (st : St)
    : ForkStore MemoryStore * res serr St :=
  if bool_decide (rng_Prefix rng = []) || negb (isContractStorageKey (rng_Prefix rng)) then
    match Storage.SeekGC keepCont (fs_base s) rng st with
    | Ok (st, base) => (mkFork base (fs_remote s) (fs_overlay s), Ok st)
    | Err e => (s, Err e)
    | Panic => (s, Panic)
    end
  else
    let '(s, l) := collectSeek rpc pages s rng in
    match l with
    | Ok l =>
        let '(st, o, toDelete) := gc_loop l st (fs_overlay s) [] in
        if bool_decide (toDelete = []) then (mkFork (fs_base s) (fs_remote s) o, Ok st)
        else
          let '(base, r) :=
            putChangeSet (fs_base s) (Some ∅) (Some (list_to_map (map (λ k, (k, None)) toDelete))) in
          (mkFork base (fs_remote s) o, match r with Panic => Panic | _ => Ok st end)
    | Err e => (s, Err e)
    | Panic => (s, Panic)
    end.
End seek_gc.

