(* ===== verification/ForkSpec.v ===== *)
(** * ForkSpec: what the forked store promises

    Reads go through the overlay, the remote state and the base in this order;
    against an honest remote node the store is the map of the three. What the
    code takes from a node without checking it is shown too. *)

From S2P Require Import Prelude BinIO Storage Hash MptNode MptTree Mpt MptSpec MptMap MptStore MptProof Fork.
#[local] Open Scope Z_scope.

(** ** Keys *)

Lemma clone_val_idem v : clone_val (clone_val v) = clone_val v.
Proof. by destruct v as [[]|]. Qed.

Lemma hex_digit_range d : 0 <= d < 16 → b2z (hex_digit d) = if bool_decide (d < 10) then 48 + d else 87 + d.
Proof. intros Hd. unfold hex_digit. apply b2z_z2b_small. case_bool_decide; lia. Qed.

Lemma hex_digit_inj d e : 0 <= d < 16 → 0 <= e < 16 → hex_digit d = hex_digit e → d = e.
Proof.
  intros Hd He Heq. apply (f_equal b2z) in Heq. rewrite !hex_digit_range in Heq by done.
  repeat case_bool_decide; lia.
Qed.

Lemma hex_digit_underscore d : 0 <= d < 16 → hex_digit d ≠ x5f.
Proof.
  intros Hd Heq. apply (f_equal b2z) in Heq. rewrite hex_digit_range in Heq by done.
  change (b2z x5f) with 95 in Heq. case_bool_decide; lia.
Qed.

Lemma byte_nibbles x : 0 <= b2z x / 16 < 16 ∧ 0 <= b2z x mod 16 < 16.
Proof.
  pose proof (b2z_range x). split; [|apply Z.mod_pos_bound; lia].
  split; [apply Z.div_pos; lia|apply Z.div_lt_upper_bound; lia].
Qed.

Lemma EncodeToString_underscore b : x5f ∉ EncodeToString b.
Proof.
  induction b as [|x b IH]; cbn [EncodeToString]; [apply not_elem_of_nil|].
  destruct (byte_nibbles x) as [H1 H2].
  rewrite !not_elem_of_cons. split; [|split; [|done]]; intros Heq; symmetry in Heq.
  - exact (hex_digit_underscore _ H1 Heq).
  - exact (hex_digit_underscore _ H2 Heq).
Qed.

Lemma EncodeToString_inj a b : EncodeToString a = EncodeToString b → a = b.
Proof.
  revert b. induction a as [|x a IH]; intros [|y b] Heq; try done. cbn [EncodeToString] in Heq.
  injection Heq as H1 H2 H3. destruct (byte_nibbles x), (byte_nibbles y).
  apply hex_digit_inj in H1, H2; try done. f_equal; [|by apply IH].
  apply (inj b2z). rewrite (Z.div_mod (b2z x) 16), (Z.div_mod (b2z y) 16) by lia. lia.
Qed.

Lemma app_sep_inj {A} (a b c d : list A) s : s ∉ a → s ∉ c → a ++ s :: b = c ++ s :: d → a = c ∧ b = d.
Proof.
  revert c. induction a as [|x a IH]; intros [|y c] Ha Hc Heq; cbn in Heq.
  - by injection Heq.
  - injection Heq as -> _. destruct Hc. left.
  - injection Heq as <- _. destruct Ha. left.
  - injection Heq as -> Heq. rewrite not_elem_of_cons in Ha, Hc.
    by destruct (IH c (proj2 Ha) (proj2 Hc) Heq) as [-> ->].
Qed.

Lemma CacheKey_inj c k c' k' : CacheKey c k = CacheKey c' k' → c = c' ∧ k = k'.
Proof.
  intros Heq. destruct (app_sep_inj _ _ _ _ _ (EncodeToString_underscore c) (EncodeToString_underscore c') Heq)
    as [H1 H2]. split; by apply EncodeToString_inj.
Qed.

(** The key of an item in the state trie: the contract and the item's key. *)
Definition state_key (id : Z) (itemKey : bytes) : bytes := le_enc 4 (u32 id) ++ itemKey.

#[local] Arguments state_key _ _ : simpl never.

Lemma u32_i32 z : u32 (i32 z) = u32 z.
Proof.
  unfold wrap_u, wrap_s. change (32 - 1) with 31.
  rewrite Zminus_mod_idemp_l. f_equal. lia.
Qed.

Lemma parse_spec key id item :
  parseContractStorageKey key = Some (id, item) →
  ∃ p, is_stor_prefix p = true ∧ key = p :: state_key id item ∧ - 2 ^ 31 <= id < 2 ^ 31.
Proof.
  unfold parseContractStorageKey. case_bool_decide as Hl; [done|].
  destruct key as [|p key]; [cbn in Hl; lia|]. cbn [orb isContractStorageKey drop].
  destruct (is_stor_prefix p) eqn:Hp; [|done]. cbn [negb orb]. intros [= <- <-]. exists p. split; [done|].
  split; [|apply (wrap_s_range 32); lia]. f_equal. unfold state_key. rewrite u32_i32.
  cbn [length] in Hl.
  rewrite wrap_u_small.
  - pose proof (le_enc_val (take 4 key)) as He. rewrite length_take_le in He by lia.
    cbn [drop]. rewrite drop_0, He. symmetry. apply take_drop.
  - pose proof (le_val_range (take 4 key)) as Hr. rewrite length_take_le in Hr by lia.
    cbn [drop]. rewrite drop_0. exact Hr.
Qed.

(** ** The remote reader *)

Section remote.
Context `{Digest} (rpc : RPC).

(** A node that answers for the state trie with the root [root] and the
    contents [m]: the contracts are told apart by their hashes, a proof it sends
    is for the key it was asked for, and it has one for every key there is.
    The digest does not collide on the proofs and the trie's nodes. *)
Record honest (root : bytes) (byID : gmap Z bytes) (m : gmap bytes bytes) : Prop := {
  hn_inj : ∀ i j c, byID !! i = Some c → byID !! j = Some c → i = j;
  hn_trie : ∃ t, wf (Z.to_nat maxPathLength) t ∧ holds t m ∧ isEmpty t = false ∧ root = node_Hash t
    ∧ ∀ n c k p, rpc_GetProof rpc n root c k = Some p → no_collision (pk_Proof p ++ tree_bytes t);
  hn_key : ∀ n id c k p, byID !! id = Some c → rpc_GetProof rpc n root c k = Some p → pk_Key p = state_key id k;
  hn_complete : ∀ n id c k, byID !! id = Some c → is_Some (m !! state_key id k) →
    ∃ p v, rpc_GetProof rpc n root c k = Some p ∧ VerifyProof root (pk_Key p) (pk_Proof p) = Ok (v, true);
}.

Lemma honest_proof root byID m n id c k p :
  honest root byID m → byID !! id = Some c → rpc_GetProof rpc n root c k = Some p →
  ∃ v b, VerifyProof root (pk_Key p) (pk_Proof p) = Ok (v, b) ∧ (b = true → m !! state_key id k = Some v).
Proof.
  intros Hh Hid Hp. rewrite (hn_key _ _ _ Hh n id c k p Hid Hp).
  destruct (hn_trie _ _ _ Hh) as (t & Hw & Hc & He & Hroot & Hcol). specialize (Hcol n c k p Hp). subst root.
  destruct (VerifyProof_spec t (state_key id k) (pk_Proof p) Hw He Hcol) as (v & b & E & Hb).
  exists v, b. split; [done|]. intros ->. by rewrite (holds_lookup _ _ _ Hc) in Hb.
Qed.

(** What the caches hold is true. *)
Definition cached (r : RemoteStateStore) (ck v : bytes) : Prop :=
  rs_mem r !! ck = Some v ∨ ∃ c, rs_cache r = Some c ∧ dc_files c !! ck = Some v.

Definition cache_ok (r : RemoteStateStore) (m : gmap bytes bytes) : Prop :=
  ∀ id c k v, rs_contractByID r !! id = Some c → cached r (CacheKey c k) v → m !! state_key id k = Some v.

Record remote_inv (r : RemoteStateStore) (m : gmap bytes bytes) : Prop := {
  ri_honest : honest (mf_RootHash (rs_manifest r)) (rs_contractByID r) m;
  ri_cache : cache_ok r m;
}.

(** The fields that reading does not change. *)
Definition same_remote (r r' : RemoteStateStore) : Prop :=
  rs_manifest r' = rs_manifest r ∧ rs_contractByID r' = rs_contractByID r.

Lemma remote_inv_same r r' m :
  remote_inv r m → same_remote r r' → cache_ok r' m → remote_inv r' m.
Proof. intros [Hh _] [H1 H2] Hc. constructor; [by rewrite H1, H2|done]. Qed.

Lemma remote_inv_called r m : remote_inv r m → remote_inv (rs_called r) m.
Proof. by intros [Hh Hc]. Qed.

Lemma cached_insert r ck v ck' v' :
  cached (rs_set_mem r (<[ck := v]> (rs_mem r))) ck' v' → (ck' = ck ∧ v' = v) ∨ cached r ck' v'.
Proof.
  intros [Hm|Hc]; [|by right; right]. cbn in Hm. apply lookup_insert_Some in Hm as [[<- <-]|[_ Hm]]; [by left|].
  right. by left.
Qed.

Lemma cached_remember r ck v ck' v' :
  cached (remember r ck v) ck' v' → (ck' = ck ∧ v' = v) ∨ cached r ck' v'.
Proof.
  unfold remember. destruct (rs_noCache _); [apply cached_insert|].
  intros [Hm|(c & Hc & Hf)]; cbn in *.
  - apply lookup_insert_Some in Hm as [[<- <-]|[_ Hm]]; [by left|right; by left].
  - destruct (rs_cache r) as [d|] eqn:Ed; [|done]. injection Hc as <-. cbn in Hf.
    apply lookup_insert_Some in Hf as [[<- <-]|[_ Hf]]; [by left|right; right; eauto].
Qed.

Lemma remember_same r ck v : same_remote r (remember r ck v).
Proof. unfold remember. by destruct (rs_noCache _). Qed.

(** Remembering a true value. *)
Lemma cache_ok_new r r' m id c k v :
  remote_inv r m → same_remote r r' → rs_contractByID r !! id = Some c → m !! state_key id k = Some v →
  (∀ ck v', cached r' ck v' → (ck = CacheKey c k ∧ v' = v) ∨ cached r ck v') → cache_ok r' m.
Proof.
  intros [Hh Hc] [_ Hid] Hk Hv Hnew id' c' k' v' Hk' Hcd. rewrite Hid in Hk'.
  destruct (Hnew _ _ Hcd) as [[Heq ->]|Hold]; [|by apply (Hc id' c')].
  apply CacheKey_inj in Heq as [-> ->]. by rewrite (hn_inj _ _ _ Hh _ _ _ Hk' Hk).
Qed.

Lemma GetProof_spec r m id c k :
  remote_inv r m → rs_contractByID r !! id = Some c →
  ∃ r' e, GetProof rpc r c k = (r', match m !! state_key id k with Some v => Ok v | None => Err e end)
    ∧ remote_inv r' m ∧ same_remote r r'.
Proof.
  intros Hi Hid. pose proof (ri_honest _ _ Hi) as Hh. pose proof (ri_cache _ _ Hi id c k) as Hc. unfold GetProof.
  destruct (rs_mem r !! CacheKey c k) as [v|] eqn:Hmem.
  { rewrite (Hc v Hid (or_introl Hmem)). by exists r, EInvalidProof. }
  destruct (if negb (rs_noCache r) then _ else None) as [raw|] eqn:Hdisk.
  { assert (cached r (CacheKey c k) raw) as Hcd.
    { destruct (negb (rs_noCache r)); [|done]. destruct (rs_cache r) as [d|] eqn:Ed; [|done].
      right. by exists d. }
    rewrite (Hc raw Hid Hcd). eexists _, EInvalidProof. split; [done|]. split; [|done].
    apply (remote_inv_same r); [done..|].
    apply (cache_ok_new r _ m id c k raw Hi); [done|done|by apply Hc|apply cached_insert]. }
  destruct (rpc_GetProof rpc (rs_calls r) _ c k) as [p|] eqn:Hp.
  - destruct (honest_proof _ _ _ _ _ _ _ _ Hh Hid Hp) as (v & b & E & Hb). rewrite E. destruct b.
    + rewrite Hb by done. eexists _, EInvalidProof. split; [done|].
      assert (same_remote r (remember (rs_called r) (CacheKey c k) v)) as Hs by apply (remember_same (rs_called r)).
      split; [|done]. apply (remote_inv_same r); [done..|].
      apply (cache_ok_new r _ m id c k v Hi); [done|done|by apply Hb|apply (cached_remember (rs_called r))].
    + destruct (m !! state_key id k) as [w|] eqn:Hm; [exfalso|].
      2:{ eexists (rs_called r), EInvalidProof. split; [done|]. split; [by apply remote_inv_called|done]. }
      destruct (hn_complete _ _ _ Hh (rs_calls r) id c k Hid ltac:(by eexists)) as (p' & v' & Hp' & Hv').
      congruence.
  - destruct (m !! state_key id k) as [w|] eqn:Hm; [exfalso|].
    2:{ eexists (rs_called r), ERPC. split; [done|]. split; [by apply remote_inv_called|done]. }
    destruct (hn_complete _ _ _ Hh (rs_calls r) id c k Hid ltac:(by eexists)) as (p' & v' & Hp' & Hv').
    congruence.
Qed.
End remote.

(** ** Honest lists of items *)

(** The items of a contract that a request for [prefix] past [from] is about. *)
Definition wanted (m : gmap bytes bytes) (id : Z) (prefix from : bytes) (x : KeyValue) : Prop :=
  m !! state_key id (kv_key x) = Some (kv_val x) ∧ has_prefix (kv_key x) prefix = true
  ∧ (from = [] ∨ blt from (kv_key x)).

#[export] Instance wanted_dec m id prefix from x : Decision (wanted m id prefix from x).
Proof. unfold wanted, blt. apply _. Defined.

(** An honest answer is a sorted page of these items: all of them, or all up to
    the last one of the page. *)
Definition honest_find (rpc : RPC) (root : bytes) (byID : gmap Z bytes) (m : gmap bytes bytes) : Prop :=
  ∀ n id c prefix from, byID !! id = Some c →
  ∃ ans, rpc_FindStates rpc n root c prefix from = Some ans
    ∧ (∀ x, x ∈ fs_Results ans → wanted m id prefix from x)
    ∧ (if fs_Truncated ans
       then ∃ kv, last (fs_Results ans) = Some kv ∧ kv_key kv ≠ []
              ∧ ∀ x, wanted m id prefix from x → x ∈ fs_Results ans ∨ blt (kv_key kv) (kv_key x)
       else ∀ x, wanted m id prefix from x → x ∈ fs_Results ans).

(** ** The view of the store *)

Section view.
Context `{Digest} (rpc : RPC) {S : Type} `{HS : !Store S} `{HO : !StoreOk S}.

(** What the remote state with the contents [m] has under a key. *)
Definition remote_part (s : ForkStore S) (m : gmap bytes bytes) (key : bytes) : option bytes :=
  r ← fs_remote s;
  '(id, item) ← parseContractStorageKey key;
  _ ← rs_contractByID r !! id;
  m !! state_key id item.

Definition view (s : ForkStore S) (m : gmap bytes bytes) (key : bytes) : option bytes :=
  if isContractStorageKey key then
    match Overlay_Get (fs_overlay s) key with
    | Some o => o
    | None =>
        match remote_part s m key with
        | Some v => Some v
        | None => st_view 0 (fs_base s) !! key
        end
    end
  else st_view 0 (fs_base s) !! key.

(** No empty value has been written: the overlay makes [nil] of it. *)
Definition overlay_ok (o : TrackingOverlay) : Prop :=
  (∀ k, ov_writes o !! k ≠ Some None ∧ ov_writes o !! k ≠ Some (Some []))
  ∧ (∀ k, k ∈ ov_deletes o → ov_writes o !! k = None).

Record fork_inv (s : ForkStore S) (m : gmap bytes bytes) : Prop := {
  fi_base : st_wf (fs_base s);
  fi_remote : ∀ r, fs_remote s = Some r →
    remote_inv rpc r m ∧ honest_find rpc (mf_RootHash (rs_manifest r)) (rs_contractByID r) m;
  fi_overlay : overlay_ok (fs_overlay s);
}.

(** Reading moves the caches only. *)
Definition same_view (s s' : ForkStore S) : Prop :=
  fs_base s' = fs_base s ∧ fs_overlay s' = fs_overlay s ∧
  match fs_remote s, fs_remote s' with
  | Some r, Some r' => same_remote r r'
  | None, None => True
  | _, _ => False
  end.

Lemma same_view_refl s : same_view s s.
Proof. unfold same_view. by destruct (fs_remote s). Qed.

Lemma same_view_view s s' m k : same_view s s' → view s' m k = view s m k.
Proof.
  intros (Hb & Ho & Hr). unfold view, remote_part. rewrite Hb, Ho.
  destruct (fs_remote s) as [r|], (fs_remote s') as [r'|]; try done.
  destruct Hr as [_ Hid]. cbn. by rewrite Hid.
Qed.

Lemma fork_inv_remote s m r r' :
  fork_inv s m → fs_remote s = Some r → remote_inv rpc r' m → same_remote r r' → fork_inv (SetRemote s r') m.
Proof.
  intros [Hb Hr Ho] Er Hi [H1 H2]. constructor; [done| |done]. intros r0 [= <-]. split; [done|].
  rewrite H1, H2. by apply Hr.
Qed.

Lemma getRemote_spec s m key :
  fork_inv s m →
  ∃ s', getRemote rpc s key = (s', Ok (remote_part s m key)) ∧ fork_inv s' m ∧ same_view s s'.
Proof.
  intros Hi. unfold getRemote, remote_part. destruct (fs_remote s) as [r|] eqn:Er; cbn.
  2:{ exists s. split; [done|]. split; [done|apply same_view_refl]. }
  destruct (parseContractStorageKey key) as [[id item]|] eqn:Hp; cbn.
  2:{ exists s. split; [done|]. split; [done|apply same_view_refl]. }
  unfold ContractHash. destruct (rs_contractByID r !! id) as [c|] eqn:Hid; cbn.
  2:{ exists s. split; [done|]. split; [done|apply same_view_refl]. }
  destruct (GetProof_spec rpc r m id c item (proj1 (fi_remote _ _ Hi r Er)) Hid) as (r' & e & E & Hi' & Hs). rewrite E.
  exists (SetRemote s r'). split; [by destruct (m !! state_key id item)|]. split.
  - by apply (fork_inv_remote s m r r').
  - split; [done|]. split; [done|]. cbn. by rewrite Er.
Qed.

Lemma Get_spec s m key :
  fork_inv s m → key ≠ [] →
  ∃ s', Get rpc s key = (s', match view s m key with Some v => Ok v | None => Err ErrKeyNotFound end)
    ∧ fork_inv s' m ∧ same_view s s'.
Proof.
  intros Hi Hk. unfold Get, view. pose proof (st_get_spec (fs_base s) key (fi_base _ _ Hi) Hk) as Hb.
  destruct (isContractStorageKey key); cbn [negb].
  2:{ exists s. split; [by rewrite Hb|]. split; [done|apply same_view_refl]. }
  destruct (Overlay_Get (fs_overlay s) key) as [[v|]|].
  1,2: exists s; split; [done|]; split; [done|apply same_view_refl].
  destruct (getRemote_spec s m key Hi) as (s' & E & Hi' & Hs). rewrite E.
  exists s'. split; [|done]. destruct Hs as (Hbs & _ & _). rewrite Hbs, Hb.
  by destruct (remote_part s m key).
Qed.

(** ** Writing *)

Lemma Overlay_Get_change o p k :
  isContractStorageKey p.1 = true →
  Overlay_Get (overlay_change o p) k = if bool_decide (k = p.1) then Some (clone_val p.2) else Overlay_Get o k.
Proof.
  destruct p as [k' c]. cbn [fst snd]. intros Hk. unfold overlay_change. cbn [fst snd]. rewrite Hk. cbn [negb].
  unfold Overlay_Get. destruct c as [v|]; cbn [Overlay_Put Overlay_Delete ov_writes ov_deletes].
  - destruct (decide (k = k')) as [-> |Hne].
    + rewrite (bool_decide_eq_true_2 (k' = k')) by done. rewrite bool_decide_eq_false_2 by set_solver.
      rewrite lookup_insert_eq. cbn [fmap option_fmap option_map]. by rewrite clone_val_idem.
    + rewrite (bool_decide_eq_false_2 (k = k')) by done. rewrite lookup_insert_ne by done.
      destruct (decide (k ∈ ov_deletes o));
        [rewrite !bool_decide_eq_true_2 by set_solver|rewrite !bool_decide_eq_false_2 by set_solver]; done.
  - destruct (decide (k = k')) as [-> |Hne].
    + rewrite (bool_decide_eq_true_2 (k' = k')) by done. by rewrite bool_decide_eq_true_2 by set_solver.
    + rewrite (bool_decide_eq_false_2 (k = k')) by done. rewrite lookup_delete_ne by done.
      destruct (decide (k ∈ ov_deletes o));
        [rewrite !bool_decide_eq_true_2 by set_solver|rewrite !bool_decide_eq_false_2 by set_solver]; done.
Qed.

Lemma Overlay_Get_changes (l : list (bytes * option bytes)) o k :
  NoDup l.*1 → Forall (λ p, isContractStorageKey p.1 = true) l →
  Overlay_Get (fold_left overlay_change l o) k
  = match (list_to_map l : changes) !! k with Some c => Some (clone_val c) | None => Overlay_Get o k end.
Proof.
  revert o. induction l as [|[k' c] l IH]; intros o Hnd Hl; cbn [fold_left list_to_map foldr]; [by rewrite lookup_empty|].
  apply Forall_cons in Hl as [Hk Hl]. cbn [fmap list_fmap] in Hnd. apply NoDup_cons in Hnd as [Hni Hnd].
  rewrite IH by done. destruct (decide (k = k')) as [-> |Hne].
  - rewrite (not_elem_of_list_to_map_1 l k' Hni), Overlay_Get_change by done. cbn [fst snd].
    rewrite bool_decide_eq_true_2 by done. cbn [uncurry fst snd]. by rewrite lookup_insert_eq.
  - rewrite Overlay_Get_change by done. cbn [fst snd]. rewrite bool_decide_eq_false_2 by done.
    cbn [uncurry fst snd]. by rewrite lookup_insert_ne.
Qed.

Lemma overlay_ok_change o p : overlay_ok o → p.2 ≠ Some [] → overlay_ok (overlay_change o p).
Proof.
  intros [Hw Hd] Hp. unfold overlay_change. destruct (negb _); [done|]. destruct p as [k' [v|]]; cbn [fst snd] in *.
  - split; intros k; cbn [Overlay_Put ov_writes ov_deletes].
    + destruct (decide (k = k')) as [-> |Hne]; [rewrite lookup_insert_eq|by rewrite lookup_insert_ne].
      destruct v as [|x v]; [done|]. split; intros [=].
    + intros Hk. rewrite lookup_insert_ne by set_solver. apply Hd. set_solver.
  - split; intros k; cbn [Overlay_Delete ov_writes ov_deletes].
    + destruct (decide (k = k')) as [-> |Hne]; [by rewrite lookup_delete_eq|by rewrite lookup_delete_ne].
    + intros Hk. destruct (decide (k = k')) as [-> |Hne]; [by rewrite lookup_delete_eq|].
      rewrite lookup_delete_ne by done. apply Hd. set_solver.
Qed.

Lemma overlay_ok_changes l o :
  overlay_ok o → Forall (λ p : bytes * option bytes, p.2 ≠ Some []) l → overlay_ok (fold_left overlay_change l o).
Proof.
  intros Ho Hl. revert o Ho. induction Hl as [|p l Hp _ IH]; intros o Ho; [done|]. cbn [fold_left].
  by apply IH, overlay_ok_change.
Qed.

Lemma stor_key_is key : stor_key key ↔ isContractStorageKey key = true.
Proof.
  unfold stor_key, is_stor_key, isContractStorageKey. destruct key as [|p key]; cbn; [done|].
  split; [by intros [= ->]|by intros ->].
Qed.

Lemma mem_key_is key : mem_key key → isContractStorageKey key = false.
Proof. unfold mem_key, is_stor_key, isContractStorageKey. destruct key as [|p key]; cbn; [done|]. by intros [= ->]. Qed.

Lemma PutChangeSet_spec s m puts stores :
  fork_inv s m → wf_puts puts → wf_stores stores →
  (∀ k v, gm stores !! k = Some (Some v) → v ≠ []) →
  let '(s', r) := PutChangeSet s puts stores in
  fork_inv s' m ∧
  match r with
  | Ok _ => ∀ k, view s' m k = match (gm puts ∪ gm stores) !! k with Some c => c | None => view s m k end
  | Err _ => ∀ k, gm puts !! k = None → gm stores !! k = None → view s' m k = view s m k
  | Panic => False
  end.
Proof.
  intros Hi Hp Hst Hne. unfold PutChangeSet.
  pose proof (st_put_spec (fs_base s) puts stores (fi_base _ _ Hi) Hp Hst) as Hput.
  destruct (st_put (fs_base s) puts stores) as [base r]. destruct Hput as [Hwf Hr].
  set (ov := fold_left overlay_change _ _).
  assert (∀ k, Overlay_Get ov k = match gm stores !! k with
    Some c => Some (clone_val c) | None => Overlay_Get (fs_overlay s) k end) as Hov.
  { intros k. unfold ov. rewrite Overlay_Get_changes.
    - by rewrite list_to_map_to_list.
    - apply NoDup_fst_map_to_list.
    - apply Forall_forall. intros [k' c'] Hk'%elem_of_map_to_list. cbn. apply stor_key_is. exact (Hst _ _ Hk'). }
  assert (∀ k c, gm stores !! k = Some c → clone_val c = c) as Hclone.
  { intros k [v|] Hk; [|done]. specialize (Hne k v Hk). by destruct v. }
  split.
  { constructor; [done|apply (fi_remote _ _ Hi)|]. apply overlay_ok_changes; [apply (fi_overlay _ _ Hi)|].
    apply Forall_forall. intros [k' [v|]] Hk'%elem_of_map_to_list; [|done]. cbn. intros [= ->].
    by apply (Hne k' []). }
  destruct r as [u|e|]; [| |done].
  - intros k. unfold view, remote_part. cbn [fs_overlay fs_base fs_remote]. rewrite Hov, Hr, lookup_apply_changes.
    destruct (isContractStorageKey k) eqn:Hk.
    + assert (gm puts !! k = None) as Hpn.
      { destruct (gm puts !! k) eqn:E; [|done]. apply Hp, mem_key_is in E. congruence. }
      rewrite lookup_union, Hpn, (left_id_L None _).
      destruct (gm stores !! k) as [c|] eqn:E; [by rewrite (Hclone k c E)|]. done.
    + assert (gm stores !! k = None) as Hsn.
      { destruct (gm stores !! k) eqn:E; [|done]. apply Hst, stor_key_is in E. congruence. }
      by rewrite lookup_union, Hsn, (right_id_L None _).
  - intros k Hpn Hsn. unfold view, remote_part. cbn [fs_overlay fs_base fs_remote]. by rewrite Hov, Hsn, Hr.
Qed.
End view.

(** ** Seeking *)

Section find.
Context `{Digest} (rpc : RPC).

Definition put_item (id : Z) (merged : changes) (itemKey value : bytes) : changes * bool :=
  (<[makeContractStorageKey id itemKey := Some value]> merged, true).

Lemma makeContractStorageKey_inj id k k' :
  makeContractStorageKey id k = makeContractStorageKey id k' → k = k'.
Proof. unfold makeContractStorageKey. intros [=]. done. Qed.

(** [merged'] is [merged] with the items of [P] put in. *)
Definition put_all (id : Z) (P : KeyValue → Prop) (merged merged' : changes) : Prop :=
  (∀ x, P x → merged' !! makeContractStorageKey id (kv_key x) = Some (Some (kv_val x)))
  ∧ (∀ k, (∀ x, P x → k ≠ makeContractStorageKey id (kv_key x)) → merged' !! k = merged !! k).

Lemma put_all_trans id P Q R m0 m1 m2 :
  put_all id P m0 m1 → put_all id Q m1 m2 → (∀ x, R x ↔ P x ∨ Q x) →
  (∀ x y, P x → Q y → kv_key x = kv_key y → x = y) → put_all id R m0 m2.
Proof.
  intros [HP1 HP2] [HQ1 HQ2] HR Hfun. split.
  - intros x Hx. destruct (proj1 (HR x) Hx) as [Hp|Hq]; [|by apply HQ1].
    destruct (decide (m2 !! makeContractStorageKey id (kv_key x) = m1 !! makeContractStorageKey id (kv_key x))) as [->|Hne];
      [by apply HP1|].
    destruct (decide (m2 !! makeContractStorageKey id (kv_key x) = Some (Some (kv_val x)))) as [|Hne2]; [done|].
    exfalso. apply Hne, HQ2. intros y Hy Heq. apply makeContractStorageKey_inj in Heq.
    apply Hne2. rewrite (Hfun x y Hp Hy Heq) in *. by apply HQ1.
  - intros k Hk. rewrite HQ2, HP2; [done|..]; intros x Hx; apply Hk, HR; tauto.
Qed.

Lemma iterate_page_spec (r : RemoteStateStore) (m : gmap bytes bytes) (id : Z) (c prefix : bytes) (l : list KeyValue) (merged : changes) :
  remote_inv rpc r m → rs_contractByID r !! id = Some c →
  (∀ x : KeyValue, x ∈ l → m !! state_key id (kv_key x) = Some (kv_val x) ∧ has_prefix (kv_key x) prefix = true) →
  ∃ r' merged', iterate_page (put_item id) c prefix [] l r merged = (r', merged', true)
    ∧ remote_inv rpc r' m ∧ same_remote r r' ∧ put_all id (λ x, x ∈ l) merged merged'.
Proof.
  intros Hi Hid Hl. revert r merged Hi Hid. induction l as [|x l IH]; intros r merged Hi Hid; cbn [iterate_page].
  { exists r, merged. split; [done|]. split; [done|]. split; [done|]. split; [|done].
    intros x Hx. by apply elem_of_nil in Hx. }
  destruct (Hl x ltac:(left)) as [Hm Hp]. rewrite Hp, andb_false_r. rewrite (bool_decide_eq_false_2 ([] ≠ [])) by (by intros Hx).
  cbn [andb put_item].
  pose proof (remember_same r (CacheKey c (kv_key x)) (kv_val x)) as Hs.
  assert (remote_inv rpc (remember r (CacheKey c (kv_key x)) (kv_val x)) m) as Hi1.
  { apply (remote_inv_same rpc r); [done..|]. by apply (cache_ok_new rpc r _ m id c (kv_key x) (kv_val x)), cached_remember. }
  destruct (IH ltac:(intros y Hy; apply Hl; by right) _
    (<[makeContractStorageKey id (kv_key x) := Some (kv_val x)]> merged) Hi1 ltac:(by rewrite (proj2 Hs)))
    as (r' & merged' & E & Hi' & Hs' & Hput).
  exists r', merged'. split; [done|]. split; [done|]. split.
  { destruct Hs, Hs'. split; congruence. }
  apply (put_all_trans id (λ y, y = x) (λ y, y ∈ l) (λ y, y ∈ x :: l) merged
    (<[makeContractStorageKey id (kv_key x) := Some (kv_val x)]> merged) merged'); [|exact Hput|..].
  - split; [intros y ->; by rewrite lookup_insert_eq|]. intros k Hk. rewrite lookup_insert_ne; [done|].
    intros Heq. by apply (Hk x).
  - intros y. apply elem_of_cons.
  - intros y z -> Hz Heq. destruct (Hl z ltac:(by right)) as [Hz' _].
    destruct x as [kx vx], z as [kz vz]. cbn in *. subst. congruence.
Qed.

(** How many items are still to come. *)
Definition to_come (m : gmap bytes bytes) (id : Z) (prefix from : bytes) : nat :=
  length (filter (λ p, wanted m id prefix from (mkKV (drop 4 p.1) p.2) ∧ p.1 = state_key id (drop 4 p.1)) (map_to_list m)).

Lemma to_come_le (m : gmap bytes bytes) (id : Z) (prefix from : bytes) : (to_come m id prefix from <= size m)%nat.
Proof. unfold to_come. rewrite <- length_map_to_list. apply length_filter. Qed.

Lemma drop_state_key id k : drop 4 (state_key id k) = k.
Proof. unfold state_key. apply drop_app_length'. symmetry. apply length_le_enc. Qed.

Lemma to_come_lt (m : gmap bytes bytes) (id : Z) (prefix from : bytes) (kv : KeyValue) :
  wanted m id prefix from kv → kv_key kv ≠ [] →
  (to_come m id prefix (kv_key kv) < to_come m id prefix from)%nat.
Proof.
  intros (Hm & Hp & Hf) Hne. unfold to_come.
  assert ((state_key id (kv_key kv), kv_val kv) ∈ map_to_list m) as Hin by (by apply elem_of_map_to_list).
  revert Hin. generalize (map_to_list m) as l. intros l Hin.
  assert (∀ p : bytes * bytes,
    wanted m id prefix (kv_key kv) (mkKV (drop 4 p.1) p.2) → wanted m id prefix from (mkKV (drop 4 p.1) p.2)) as Himp.
  { intros p (H1 & H2 & [H3|H3]); [by destruct Hne|]. split; [done|]. split; [done|].
    destruct Hf as [|Hf]; [by left|right]. cbn in *. unfold blt in *. by eapply bcompare_trans_lt. }
  assert (∀ l : list (bytes * bytes),
    (length (filter (λ p, wanted m id prefix (kv_key kv) (mkKV (drop 4 p.1) p.2) ∧ p.1 = state_key id (drop 4 p.1)) l)
     <= length (filter (λ p, wanted m id prefix from (mkKV (drop 4 p.1) p.2) ∧ p.1 = state_key id (drop 4 p.1)) l))%nat) as Hle.
  { intros l'. induction l' as [|p l' IH]; [done|]. rewrite !filter_cons.
    destruct (decide (wanted m id prefix (kv_key kv) _ ∧ _)) as [[H1 H2]|].
    - rewrite decide_True by (split; [by apply Himp|done]). cbn [length]. lia.
    - destruct (decide _); cbn [length]; lia. }
  apply list_elem_of_split in Hin as (l1 & l2 & ->).
  rewrite !filter_app, !length_app, !filter_cons. cbn [fst snd]. rewrite !drop_state_key.
  rewrite decide_False, decide_True.
  - cbn [length]. pose proof (Hle l1). pose proof (Hle l2). lia.
  - split; [by split|done].
  - intros [(_ & _ & [Hx|Hx]) _]; [done|]. unfold blt in Hx. cbn in Hx. by rewrite bcompare_refl in Hx.
Qed.

Lemma iterate_pages_spec (pages : nat) (r : RemoteStateStore) (m : gmap bytes bytes) (id : Z) (c prefix from : bytes)
    (merged : changes) :
  honest_find rpc (mf_RootHash (rs_manifest r)) (rs_contractByID r) m →
  remote_inv rpc r m → rs_contractByID r !! id = Some c → (to_come m id prefix from < pages)%nat →
  ∃ r' merged', iterate_pages rpc (put_item id) pages c prefix [] from r merged = (r', merged', Ok tt)
    ∧ remote_inv rpc r' m ∧ same_remote r r' ∧ put_all id (wanted m id prefix from) merged merged'.
Proof.
  revert r from merged. induction pages as [|pages IH]; intros r from merged Hf Hi Hid Hn; [lia|].
  cbn [iterate_pages]. rewrite app_nil_r.
  destruct (Hf (rs_calls r) id c prefix from Hid) as (ans & -> & Hres & Htr).
  destruct (iterate_page_spec (rs_called r) m id c prefix (fs_Results ans) merged) as (r1 & merged1 & E & Hi1 & Hs1 & Hput1).
  { by apply remote_inv_called. }
  { done. }
  { intros x Hx. destruct (Hres x Hx) as (H1 & H2 & _). done. }
  assert (same_remote r r1) as Hs by exact Hs1.
  rewrite E. destruct (fs_Truncated ans) eqn:Ht.
  - destruct Htr as (kv & Hlast & Hkv & Hrest). rewrite Hlast.
    assert (kv ∈ fs_Results ans) as Hin.
    { apply last_Some in Hlast as [l' ->]. apply elem_of_app. right. left. }
    destruct (IH r1 (kv_key kv) merged1) as (r2 & merged2 & E2 & Hi2 & Hs2 & Hput2).
    { destruct Hs as [-> ->]. exact Hf. }
    { done. }
    { by rewrite (proj2 Hs). }
    { pose proof (to_come_lt m id prefix from kv (Hres kv Hin) Hkv). lia. }
    exists r2, merged2. split; [done|]. split; [done|]. split.
    { destruct Hs, Hs2. split; congruence. }
    apply (put_all_trans id (λ y, y ∈ fs_Results ans) (wanted m id prefix (kv_key kv)) (wanted m id prefix from)
      merged merged1 merged2 Hput1 Hput2).
    + intros x. split.
      * intros Hx. destruct (Hrest x Hx) as [|Hlt]; [by left|right].
        destruct Hx as (H1 & H2 & _). split; [done|]. split; [done|by right].
      * intros [Hx|(H1 & H2 & [H3|H3])]; [by apply Hres|done|].
        split; [done|]. split; [done|]. destruct (Hres kv Hin) as (_ & _ & [Hfr|Hfr]); [by left|right].
        unfold blt in *. by apply (bcompare_trans_lt from (kv_key kv)).
    + intros x y Hx (Hy & _) Heq. destruct (Hres x Hx) as (Hx' & _). destruct x as [kx vx], y as [ky vy].
      cbn in *. subst. congruence.
  - assert (put_all id (wanted m id prefix from) merged merged1) as Hput.
    { destruct Hput1 as [HP1 HP2]. split; [intros x Hx; by apply HP1, Htr|].
      intros k Hk. apply HP2. intros x Hx. by apply Hk, Hres. }
    exists r1, merged1. by destruct (last (fs_Results ans)).
Qed.
End find.

Section seek.
Context `{Digest} (rpc : RPC) {S : Type} `{HS : !Store S} `{HO : !StoreOk S}.

(** The map [merged] once the base has been read. *)
Lemma merged_base (l : list KeyValue) (m0 : changes) (k : bytes) :
  fold_left (λ (m : changes) kv, <[kv_key kv := Some (kv_val kv)]> m) l m0 !! k
  = match last (filter (λ x, kv_key x = k) l) with Some x => Some (Some (kv_val x)) | None => m0 !! k end.
Proof.
  revert m0. induction l as [|x l IH]; intros m0; [done|]. cbn [fold_left]. rewrite IH, filter_cons.
  destruct (decide (kv_key x = k)) as [<-|Hne].
  - rewrite last_cons, lookup_insert_eq. by destruct (last _).
  - by rewrite lookup_insert_ne.
Qed.

Lemma merged_seek (rng : SeekRange) (v : gmap bytes bytes) (k : bytes) :
  fold_left (λ (m : changes) kv, <[kv_key kv := Some (kv_val kv)]> m) (seek_list rng v) ∅ !! k
  = if isKeyOK rng k then Some <$> v !! k else None.
Proof.
  rewrite merged_base, lookup_empty.
  destruct (last _) as [x|] eqn:E.
  - assert (x ∈ filter (λ x, kv_key x = k) (seek_list rng v)) as Hx.
    { apply last_Some in E as [l' ->]. apply elem_of_app. right. left. }
    apply list_elem_of_filter in Hx as [<- Hx]. apply elem_of_seek_list in Hx as [-> ->]. done.
  - apply last_None in E. destruct (isKeyOK rng k) eqn:Hk; [|done]. destruct (v !! k) as [w|] eqn:Hv; [|done].
    exfalso. assert (mkKV k w ∈ filter (λ x, kv_key x = k) (seek_list rng v)) as Hx.
    { apply list_elem_of_filter. split; [done|]. by apply elem_of_seek_list. }
    rewrite E in Hx. by apply elem_of_nil in Hx.
Qed.

Lemma fold_writes (rng : SeekRange) (l : list (bytes * option bytes)) (m0 : changes) (k : bytes) :
  NoDup l.*1 →
  fold_left (λ (m : changes) p, if keyInSeekRange p.1 rng then <[p.1 := p.2]> m else m) l m0 !! k
  = match (list_to_map l : changes) !! k with
    | Some c => if keyInSeekRange k rng then Some c else m0 !! k
    | None => m0 !! k
    end.
Proof.
  revert m0. induction l as [|[k' c] l IH]; intros m0 Hnd; cbn [fold_left list_to_map foldr]; [by rewrite lookup_empty|].
  cbn [fmap list_fmap] in Hnd. apply NoDup_cons in Hnd as [Hni Hnd]. rewrite IH by done. cbn [uncurry fst snd].
  destruct (decide (k = k')) as [-> |Hne].
  - rewrite (not_elem_of_list_to_map_1 l k' Hni), lookup_insert_eq.
    destruct (keyInSeekRange k' rng); [by rewrite lookup_insert_eq|done].
  - rewrite lookup_insert_ne by done. destruct (keyInSeekRange k' rng); [by rewrite lookup_insert_ne|done].
Qed.

Lemma fold_deletes (rng : SeekRange) (l : list bytes) (m0 : changes) (k : bytes) :
  fold_left (λ (m : changes) k, if keyInSeekRange k rng then delete k m else m) l m0 !! k
  = if bool_decide (k ∈ l) && keyInSeekRange k rng then None else m0 !! k.
Proof.
  revert m0. induction l as [|k' l IH]; intros m0; cbn [fold_left]; [done|]. rewrite IH.
  destruct (decide (k = k')) as [-> |Hne].
  - rewrite (bool_decide_eq_true_2 (k' ∈ k' :: l)) by left.
    destruct (keyInSeekRange k' rng); cbn [andb]; [rewrite lookup_delete_eq; by destruct (bool_decide _)|by rewrite !andb_false_r].
  - rewrite (bool_decide_ext (k ∈ k' :: l) (k ∈ l)) by (rewrite elem_of_cons; tauto).
    destruct (keyInSeekRange k' rng); [by rewrite lookup_delete_ne|done].
Qed.

Lemma merge_overlay_spec (o : TrackingOverlay) (rng : SeekRange) (merged : changes) (k : bytes) :
  overlay_ok o →
  merge_overlay o rng merged !! k
  = if keyInSeekRange k rng then
      match Overlay_Get o k with Some (Some v) => Some (Some v) | Some None => None | None => merged !! k end
    else merged !! k.
Proof.
  intros [Hw Hd]. unfold merge_overlay. rewrite fold_deletes, fold_writes by apply NoDup_fst_map_to_list.
  rewrite list_to_map_to_list. rewrite (bool_decide_ext _ (k ∈ ov_deletes o)) by apply elem_of_elements.
  unfold Overlay_Get. destruct (keyInSeekRange k rng).
  - rewrite andb_true_r. destruct (decide (k ∈ ov_deletes o)) as [Hin|Hin].
    + by rewrite !bool_decide_eq_true_2.
    + rewrite !bool_decide_eq_false_2 by done. destruct (Hw k) as [H1 H2].
      by destruct (ov_writes o !! k) as [[[|x v]|]|].
  - rewrite andb_false_r. by destruct (ov_writes o !! k).
Qed.

(** The ranges [collectSeek] is right for: all items of a contract under some
    prefix, forwards. *)
Definition seek_ok (rng : SeekRange) : Prop :=
  (∃ rest, rng_Prefix rng = STStorage :: rest ∧ (4 <= length rest)%nat)
  ∧ rng_Start rng = [] ∧ rng_Backwards rng = false ∧ rng_SearchDepth rng = 0.

Lemma in_range rng k : seek_ok rng → keyInSeekRange k rng = isKeyOK rng k.
Proof. intros (_ & Hs & _). unfold keyInSeekRange, isKeyOK. by rewrite Hs. Qed.

Lemma isKeyOK_forward rng k : seek_ok rng → isKeyOK rng k = has_prefix k (rng_Prefix rng).
Proof. intros (_ & Hs & _). unfold isKeyOK. rewrite Hs. apply andb_true_r. Qed.

(** A key in range and what its prefix says of it. *)
Lemma range_prefix rng :
  seek_ok rng → ∃ id sub, contractIDFromPrefix (rng_Prefix rng) = Some (id, sub)
    ∧ rng_Prefix rng = makeContractStorageKey id sub ∧ - 2 ^ 31 <= id < 2 ^ 31.
Proof.
  intros ((rest & Hp & Hl) & _). change (contractIDFromPrefix (rng_Prefix rng)) with (parseContractStorageKey (rng_Prefix rng)).
  destruct (parseContractStorageKey (rng_Prefix rng)) as [[id sub]|] eqn:E.
  - destruct (parse_spec _ _ _ E) as (p & _ & Heq & Hr). exists id, sub. split; [done|]. split; [|done].
    rewrite Hp in Heq. injection Heq as <- ->. by rewrite Hp.
  - rewrite Hp in E. unfold parseContractStorageKey in E. cbn [length isContractStorageKey] in E.
    rewrite bool_decide_eq_false_2 in E by lia. done.
Qed.

Lemma parse_make id k : - 2 ^ 31 <= id < 2 ^ 31 → parseContractStorageKey (makeContractStorageKey id k) = Some (id, k).
Proof.
  intros Hid. unfold parseContractStorageKey, makeContractStorageKey. cbn [length isContractStorageKey drop].
  rewrite length_app, length_le_enc. rewrite bool_decide_eq_false_2 by lia. cbn [orb negb]. rewrite drop_0.
  rewrite take_app_length' by (by rewrite length_le_enc). rewrite drop_app_length' by (by rewrite length_le_enc).
  rewrite le_val_enc. do 2 f_equal. change (256 ^ Z.of_nat 4) with (2 ^ 32).
  rewrite Z.mod_small by (apply (wrap_u_range 32); lia).
  unfold wrap_u, wrap_s. change (32 - 1) with 31. rewrite Zplus_mod_idemp_l, Z.mod_small by lia. lia.
Qed.

Lemma has_prefix_make id sub k :
  has_prefix (makeContractStorageKey id k) (makeContractStorageKey id sub) = has_prefix k sub.
Proof.
  apply eq_bool_prop_intro. rewrite !Is_true_true, !has_prefix_spec. unfold makeContractStorageKey.
  generalize (le_enc 4 (u32 id)) as e. intros e. split.
  - intros [t Ht]. exists t. cbn in Ht. injection Ht as Ht. rewrite <- app_assoc in Ht.
    by apply app_inv_head in Ht.
  - intros [t ->]. exists t. cbn. by rewrite app_assoc.
Qed.

(** A key of the range is the key of one of the contract's items. *)
Lemma key_in_range id sub k :
  has_prefix k (makeContractStorageKey id sub) = true →
  ∃ item, k = makeContractStorageKey id item ∧ has_prefix item sub = true.
Proof.
  intros [t ->]%has_prefix_spec. exists (sub ++ t). split.
  - unfold makeContractStorageKey. generalize (le_enc 4 (u32 id)) as e. intros e. cbn. by rewrite <- app_assoc.
  - apply has_prefix_spec. by exists t.
Qed.

(** What has been merged after the remote has been read. *)
Lemma merge_remote_spec (pages : nat) (s : ForkStore S) (m : gmap bytes bytes) (rng : SeekRange) (merged : changes) :
  fork_inv rpc s m → seek_ok rng → (size m < pages)%nat →
  ∃ s' merged', merge_remote rpc pages s rng merged = (s', merged') ∧ fork_inv rpc s' m ∧ same_view s s'
    ∧ ∀ k, merged' !! k = if isKeyOK rng k then
        match remote_part s m k with Some v => Some (Some v) | None => merged !! k end else merged !! k.
Proof.
  intros Hi Hrng Hn. destruct (range_prefix _ Hrng) as (id & sub & Hid & Hpre & Hidr).
  assert (∀ k v, isKeyOK rng k = true → remote_part s m k = Some v →
    ∃ r c item, fs_remote s = Some r ∧ rs_contractByID r !! id = Some c
      ∧ k = makeContractStorageKey id item ∧ wanted m id sub [] (mkKV item v)) as Hpart.
  { intros k v Hk Hv. rewrite isKeyOK_forward in Hk by done. rewrite Hpre in Hk.
    destruct (key_in_range _ _ _ Hk) as (item & -> & Hitem). unfold remote_part in Hv.
    destruct (fs_remote s) as [r|]; [|done]. cbn [mbind option_bind] in Hv. rewrite parse_make in Hv by done.
    cbn [mbind option_bind] in Hv. destruct (rs_contractByID r !! id) as [c|] eqn:Hc; [|done].
    cbn [mbind option_bind] in Hv. exists r, c, item. split; [done|]. split; [done|]. split; [done|].
    split; [done|]. split; [done|by left]. }
  assert (∀ k, (∀ r c, fs_remote s = Some r → rs_contractByID r !! id ≠ Some c) →
    (if isKeyOK rng k then match remote_part s m k with Some v => Some (Some v) | None => merged !! k end
     else merged !! k) = merged !! k) as Hnone.
  { intros k Hno. destruct (isKeyOK rng k) eqn:Hk; [|done]. destruct (remote_part s m k) as [v|] eqn:Hv; [|done].
    destruct (Hpart k v Hk Hv) as (r & c & item & Hr & Hc & _). by destruct (Hno r c). }
  unfold merge_remote. destruct (fs_remote s) as [r|] eqn:Er.
  2:{ exists s, merged. split; [done|]. split; [done|]. split; [apply same_view_refl|].
      intros k. by rewrite Hnone. }
  rewrite Hid. unfold ContractHash. destruct (rs_contractByID r !! id) as [c|] eqn:Hc.
  2:{ exists s, merged. split; [done|]. split; [done|]. split; [apply same_view_refl|].
      intros k. rewrite Hnone; [done|]. intros r0 c0 [= <-]. by rewrite Hc. }
  destruct (fi_remote _ _ _ Hi r Er) as [Hri Hf].
  destruct (iterate_pages_spec rpc pages r m id c sub [] merged Hf Hri Hc) as (r' & merged' & E & Hri' & Hs & Hput1 & Hput2).
  { pose proof (to_come_le m id sub []). lia. }
  unfold IterateContractStorage. rewrite (proj1 (proj2 Hrng)).
  change (λ (m0 : changes) itemKey value, (<[makeContractStorageKey id itemKey:=Some value]> m0, true)) with (put_item id).
  rewrite E. exists (SetRemote s r'), merged'. split; [done|].
  split; [by apply (fork_inv_remote rpc s m r r')|]. split.
  { split; [done|]. split; [done|]. cbn. by rewrite Er. }
  intros k. destruct (isKeyOK rng k) eqn:Hk.
  - destruct (remote_part s m k) as [v|] eqn:Hv.
    + destruct (Hpart k v Hk Hv) as (_ & _ & item & _ & _ & -> & Hw). by apply (Hput1 (mkKV item v)).
    + apply Hput2. intros x (Hm & Hx & _) ->. unfold remote_part in Hv. rewrite Er in Hv.
      cbn [mbind option_bind] in Hv. rewrite parse_make in Hv by done. cbn [mbind option_bind] in Hv.
      rewrite Hc in Hv. cbn [mbind option_bind] in Hv. congruence.
  - apply Hput2. intros x (_ & Hx & _) ->. rewrite isKeyOK_forward, Hpre, has_prefix_make in Hk by done. congruence.
Qed.

Lemma collectSeek_spec (pages : nat) (s : ForkStore S) (m A : gmap bytes bytes) (rng : SeekRange) :
  fork_inv rpc s m → seek_ok rng → (size m < pages)%nat → (∀ k, k ≠ [] → view s m k = A !! k) →
  ∃ s', collectSeek rpc pages s rng = (s', Ok (seek_list rng A)) ∧ fork_inv rpc s' m ∧ same_view s s'.
Proof.
  intros Hi Hrng Hn HA. unfold collectSeek.
  destruct (proj1 Hrng) as (rest & Hp & _). destruct Hrng as (Hpre & Hstart & Hbw & Hdepth) eqn:Eq. clear Eq.
  rewrite (st_seek_spec (fs_base s) rng (fi_base _ _ _ Hi)) by first [by rewrite Hp|by right; left].
  rewrite Hdepth.
  destruct (merge_remote_spec pages s m rng
    (fold_left (λ (m : changes) kv, <[kv_key kv := Some (kv_val kv)]> m) (seek_list rng (st_view 0 (fs_base s))) ∅)
    Hi Hrng Hn) as (s' & merged & E & Hi' & Hs & Hm).
  cbn zeta. rewrite E. exists s'. split; [|done]. do 2 f_equal.
  rewrite (proj1 (proj2 Hs)).
  assert (∀ k, merge_overlay (fs_overlay s) rng merged !! k = if isKeyOK rng k then Some <$> A !! k else None) as Hl.
  { intros k. rewrite merge_overlay_spec by apply (fi_overlay _ _ _ Hi). rewrite in_range by done.
    rewrite Hm, merged_seek. destruct (isKeyOK rng k) eqn:Hk; [|done].
    destruct (isKeyOK_prefix rng k) as (b & t & t' & -> & Hb); [by rewrite Hp|done|].
    rewrite <- HA by done. unfold view. rewrite Hp in Hb. injection Hb as <- _.
    change (isContractStorageKey (STStorage :: t)) with true.
    destruct (Overlay_Get (fs_overlay s) (STStorage :: t)) as [[v|]|]; [done|done|].
    by destruct (remote_part s m (STStorage :: t)). }
  revert Hl. generalize (merge_overlay (fs_overlay s) rng merged) as M. intros M Hl.
  apply seek_list_unique.
  - rewrite Hbw. unfold sort_kv. apply (sort_by_sorted kv_key). rewrite <- list_fmap_compose.
    change (NoDup (fst <$> map_to_list M)). apply NoDup_fst_map_to_list.
  - intros [k v]. rewrite elem_of_sort_kv. cbn [kv_key kv_val]. split.
    + intros ([k' w] & [= -> ->] & Hin)%list_elem_of_fmap. apply elem_of_map_to_list in Hin. cbn [fst snd] in *.
      rewrite Hl in Hin. destruct (isKeyOK rng k'); [|done]. destruct (A !! k') as [w'|]; [|done].
      injection Hin as <-. done.
    + intros [Hv Hk]. apply list_elem_of_fmap. exists (k, Some v). split; [done|].
      apply elem_of_map_to_list. by rewrite Hl, Hk, Hv.
Qed.
End seek.

(** ** Runs *)

Inductive fork_op :=
  | FGet (key : bytes)
  | FPut (puts stores : gomap)
  | FSeek (rng : SeekRange).

Inductive fork_out :=
  | FVal (v : bytes)
  | FDone
  | FItems (l : list KeyValue).

Definition fork_op_ok (o : fork_op) : Prop :=
  match o with
  | FGet key => key ≠ []
  | FPut puts stores => wf_puts puts ∧ wf_stores stores ∧ ∀ k v, gm stores !! k = Some (Some v) → v ≠ []
  | FSeek rng => seek_ok rng
  end.

(** The specification: a finite map. *)
Definition fork_map_op (A : gmap bytes bytes) (o : fork_op) : gmap bytes bytes * res serr fork_out :=
  match o with
  | FGet key => (A, match A !! key with Some v => Ok (FVal v) | None => Err ErrKeyNotFound end)
  | FPut puts stores => (apply_changes (gm puts ∪ gm stores) A, Ok FDone)
  | FSeek rng => (A, Ok (FItems (seek_list rng A)))
  end.

Fixpoint fork_map_run (A : gmap bytes bytes) (os : list fork_op) : list (res serr fork_out) :=
  match os with
  | [] => []
  | o :: os => let '(A, r) := fork_map_op A o in r :: fork_map_run A os
  end.

Section run.
Context `{Digest} (rpc : RPC) (pages : nat).

Definition fork_step (s : ForkStore MemoryStore) (o : fork_op) : ForkStore MemoryStore * res serr fork_out :=
  match o with
  | FGet key => let '(s, r) := Get rpc s key in (s, FVal <$> r)
  | FPut puts stores => let '(s, r) := PutChangeSet s puts stores in (s, (λ _, FDone) <$> r)
  | FSeek rng => let '(s, r) := Fork_Seek rpc pages s rng collect [] in (s, (λ x, FItems x.1) <$> r)
  end.

Fixpoint fork_run (s : ForkStore MemoryStore) (os : list fork_op) : list (res serr fork_out) :=
  match os with
  | [] => []
  | o :: os => let '(s, r) := fork_step s o in r :: fork_run s os
  end.

Lemma fork_step_refines s m A o :
  fork_inv rpc s m → (size m < pages)%nat → (∀ k, k ≠ [] → view s m k = A !! k) → fork_op_ok o →
  ∃ s', fork_step s o = (s', (fork_map_op A o).2) ∧ fork_inv rpc s' m
    ∧ ∀ k, k ≠ [] → view s' m k = (fork_map_op A o).1 !! k.
Proof.
  intros Hi Hn HA Ho. destruct o as [key|puts stores|rng]; cbn [fork_step fork_map_op fst snd fork_op_ok] in *.
  - destruct (Get_spec rpc s m key Hi Ho) as (s' & E & Hi' & Hs). rewrite E. exists s'. rewrite HA by done.
    split; [by destruct (A !! key)|]. split; [done|]. intros k Hk. rewrite (same_view_view _ _ _ _ Hs). by apply HA.
  - destruct Ho as (Hp & Hst & Hne). pose proof (PutChangeSet_spec rpc s m puts stores Hi Hp Hst Hne) as Hput.
    destruct (putChangeSet_spec (fs_base s) puts stores (fi_base _ _ _ Hi) Hp Hst) as (base & Eb & _ & _).
    unfold PutChangeSet in *. cbn [st_put MemoryStore_store] in *. rewrite Eb in *.
    eexists. split; [done|]. destruct Hput as [Hi' Hv]. split; [done|]. intros k Hk.
    rewrite lookup_apply_changes, <- HA by done. apply Hv.
  - unfold Fork_Seek. destruct Ho as ((rest & Hp & Hl) & Hrest) eqn:Eo.
    rewrite Hp. rewrite (bool_decide_eq_false_2 (_ = [])) by (by intros Hx).
    change (isContractStorageKey (STStorage :: rest)) with true. cbn [orb negb].
    destruct (collectSeek_spec rpc pages s m A rng Hi Ho Hn HA) as (s' & E & Hi' & Hs). rewrite E.
    exists s'. split; [cbn [fmap res_fmap]; by rewrite iter_collect|].
    split; [done|]. intros k Hk. rewrite (same_view_view _ _ _ _ Hs). by apply HA.
Qed.
End run.

(** ** An honest node

    The node that answers from a trie of its own, for one contract. *)
Section node.
Context `{Digest} {S : Type} `{!Store S} (tr : Trie S) (m : gmap bytes bytes) (id : Z).

Definition node_items (prefix from : bytes) : list KeyValue :=
  sort_kv false
    (omap (λ p, let x := mkKV (drop 4 p.1) p.2 in
       if bool_decide (p.1 = state_key id (drop 4 p.1)) && bool_decide (wanted m id prefix from x)
       then Some x else None) (map_to_list m)).

Definition node_rpc : RPC := mkRPC
  (λ _ _ _ k, match (Trie_GetProof tr (state_key id k)).2 with
              | Ok (proofs, None) => Some (mkProof (state_key id k) proofs)
              | _ => None
              end)
  (λ _ _ _ prefix from, Some (mkFind (node_items prefix from) false))
  (Some []).

Lemma elem_of_node_items (prefix from : bytes) (x : KeyValue) : x ∈ node_items prefix from ↔ wanted m id prefix from x.
Proof.
  unfold node_items. rewrite elem_of_sort_kv, list_elem_of_omap. split.
  - intros ([k v] & Hin & Hx). cbn [fst snd] in Hx. cbn zeta in Hx.
    destruct (bool_decide (k = _)); [|done]. destruct (bool_decide (wanted _ _ _ _ _)) eqn:E; [|done].
    apply bool_decide_eq_true_1 in E. by injection Hx as <-.
  - intros Hw. exists (state_key id (kv_key x), kv_val x). split; [apply elem_of_map_to_list, Hw|].
    cbn [fst snd]. rewrite drop_state_key. rewrite bool_decide_eq_true_2 by done. destruct x as [k v].
    cbn [kv_key kv_val]. by rewrite bool_decide_eq_true_2.
Qed.

Lemma node_honest t0 t (c : bytes) :
  trie_inv tr t0 t m → no_collision (tree_bytes t) → m ≠ ∅ →
  honest node_rpc (StateRoot tr) {[id := c]} m ∧ honest_find node_rpc (StateRoot tr) {[id := c]} m.
Proof.
  intros Hi Hcol Hne. pose proof (inv_wf _ _ _ _ Hi) as Hw. pose proof (inv_holds _ _ _ _ Hi) as Hh.
  pose proof (holds_nonempty _ _ Hh Hne) as He. split; [constructor|].
  - intros i j c' [<- _]%lookup_singleton_Some [<- _]%lookup_singleton_Some. done.
  - exists t. split; [done|]. split; [done|]. split; [done|]. rewrite (StateRoot_rep _ _ _ _ Hi), He.
    split; [done|]. intros n c' k p. cbn [rpc_GetProof node_rpc].
    destruct (Trie_GetProof tr (state_key id k)).2 as [[proofs [e|]]|e|] eqn:E; [done| |done..].
    intros [= <-] x y Hx Hy. cbn [pk_Proof] in *. pose proof (GetProof_sub tr t0 t m _ _ Hi E) as Hsub.
    apply Hcol; [apply elem_of_app in Hx as [Hx|Hx]|apply elem_of_app in Hy as [Hy|Hy]]; auto.
  - intros n id' c' k p [<- <-]%lookup_singleton_Some. cbn [rpc_GetProof node_rpc].
    destruct (Trie_GetProof tr (state_key id k)).2 as [[proofs [e|]]|e|]; [done| |done..]. by intros [= <-].
  - intros n id' c' k [<- <-]%lookup_singleton_Some [v Hv]. cbn [rpc_GetProof node_rpc].
    assert (too_big (state_key id k) = false) as Hk.
    { apply bool_decide_eq_false_2. rewrite <- (holds_lookup _ _ _ Hh) in Hv. apply (wf_depth _ _ _ _ Hw) in Hv.
      rewrite length_toNibbles in Hv. change (Z.to_nat maxPathLength) with 136%nat in Hv.
      change MaxKeyLength with 68. lia. }
    destruct (GetProof_accepted tr t0 t m (state_key id k) v Hi Hcol Hk Hv) as (proofs & -> & Hver).
    by exists (mkProof (state_key id k) proofs), v.
  - intros n id' c' prefix from [<- <-]%lookup_singleton_Some. eexists. split; [done|]. cbn [fs_Results fs_Truncated].
    split; intros x; apply elem_of_node_items.
Qed.
End node.

(** ** Properties *)

(** C30: against an honest node the forked store is a plain map. Let [A] agree
    with what the overlay, the remote state [m] and the base hold, in this
    order. Whatever the sequence of reads, changes and seeks, the store answers
    as [A] does: a read finds the last value written and otherwise the value
    of the remote network, checked against its state root, and then the base;
    a seek over a contract's items gives the pairs of all three, merged and in
    order, whatever the pages they come in. The restrictions are those of
    [fork_op_ok]: no empty value is stored, and seeks go forward over a whole
    prefix of a contract's items. *)
Theorem fork_refines `{Digest} (rpc : RPC) (pages : nat) (s : ForkStore MemoryStore) (m A : gmap bytes bytes)
    (os : list fork_op) :
  fork_inv rpc s m → (size m < pages)%nat → (∀ k, k ≠ [] → view s m k = A !! k) → Forall fork_op_ok os →
  fork_run rpc pages s os = fork_map_run A os.
Proof.
  intros Hi Hn HA Hos. revert s A Hi HA. induction Hos as [|o os Ho _ IH]; intros s A Hi HA; [done|].
  cbn [fork_run fork_map_run]. destruct (fork_step_refines rpc pages s m A o Hi Hn HA Ho) as (s' & E & Hi' & HA').
  rewrite E. destruct (fork_map_op A o) as [A' r]. cbn [fst snd] in *. f_equal. by apply IH.
Qed.

(** But the reader does not look at the key that a proof is for. Whatever
    contract and key it asks for, if the node sends a valid proof of another
    key of the same state, the reader answers with the value of that other key,
    and keeps it as the value of the key it asked for. *)
Theorem GetProof_key_unchecked `{Digest} (rpc : RPC) (r : RemoteStateStore) (contract key : bytes)
    (p : ProofWithKey) (v : bytes) :
  rs_mem r !! CacheKey contract key = None → rs_cache r = None →
  rpc_GetProof rpc (rs_calls r) (mf_RootHash (rs_manifest r)) contract key = Some p →
  VerifyProof (mf_RootHash (rs_manifest r)) (pk_Key p) (pk_Proof p) = Ok (v, true) →
  let r' := (GetProof rpc r contract key).1 in
  (GetProof rpc r contract key).2 = Ok v ∧ GetProof rpc r' contract key = (r', Ok v).
Proof.
  intros Hmem Hcache Hp Hv r'. unfold r', GetProof. rewrite Hmem, Hcache, Hp, Hv.
  replace (if negb (rs_noCache r) then _ else None) with (@None bytes) by (by destruct (negb (rs_noCache r))).
  cbn [fst snd]. split; [done|].
  assert (rs_mem (remember (rs_called r) (CacheKey contract key) v) !! CacheKey contract key = Some v) as ->; [|done].
  unfold remember. cbn. destruct (rs_noCache r); cbn; by rewrite lookup_insert_eq.
Qed.

(** And a stored empty value is lost: after a change set that stores it, the
    base store has it and the fork answers that there is no such key. *)
Theorem fork_empty_value_lost `{Digest} (rpc : RPC) (s : ForkStore MemoryStore) (key : bytes) :
  ms_wf (fs_base s) → stor_key key →
  ∃ s', PutChangeSet s (Some ∅) (Some {[key := Some []]}) = (s', Ok tt)
    ∧ st_get (fs_base s') key = Ok [] ∧ (Get rpc s' key).2 = Err ErrKeyNotFound.
Proof.
  intros Hwf Hk.
  assert (wf_stores (Some {[key := Some []]})) as Hst.
  { intros k c. cbn. by intros [<- _]%lookup_singleton_Some. }
  destruct (putChangeSet_spec (fs_base s) (Some ∅) (Some {[key := Some []]}) Hwf (map_Forall_empty _) Hst)
    as (base & E & Hwf' & Ha).
  unfold PutChangeSet. cbn [st_put MemoryStore_store]. rewrite E. eexists. split; [done|]. cbn [fs_base].
  assert (key ≠ []) as Hne by (by intros ->). split.
  - cbn [st_get MemoryStore_store]. rewrite MemoryStore_Get_spec by done. rewrite lookup_live, Ha, !lookup_union.
    unfold gm. cbn [default from_option id]. rewrite lookup_empty, lookup_singleton_eq.
    by destruct (ms_all (fs_base s) !! key).
  - unfold Get. pose proof (proj1 (stor_key_is key) Hk) as Hc. rewrite Hc. unfold gm. cbn [negb fs_overlay default from_option id].
    rewrite map_to_list_singleton. cbn [fold_left]. rewrite Overlay_Get_change by done. cbn [fst snd].
    by rewrite bool_decide_eq_true_2.
Qed.

(** The contracts of the branch point are not what the node has of them. An
    item of the management contract under the prefix 8 maps a contract's hash
    to its serialized state; [enumerateContracts] takes the first bytes of the
    hash for the identifier and the first bytes of the state for the hash. *)
Theorem enumerateContracts_misreads (rpc : RPC) (pages calls : nat) (root mgmt hash state : bytes) :
  length hash = 20%nat → (20 <= length state)%nat →
  rpc_FindStates rpc calls root mgmt [x08] [] = Some (mkFind [mkKV (x08 :: hash) state] false) →
  enumerateContracts rpc (S pages) calls root mgmt
    = Ok [mkContract (i32 (be_val (take 4 hash))) (take 20 state) []].
Proof.
  intros Hh Hs E. unfold enumerateContracts. cbn [enumerate_pages]. rewrite E. cbn.
  unfold contract_of_item. cbn [kv_key kv_val length drop]. rewrite drop_0.
  by rewrite !bool_decide_eq_true_2 by lia.
Qed.

(** ** Examples: a contract with two items *)

Definition e_hash : bytes := replicate 20 xaa.
Definition e_ops : list trie_op :=
  [OPut (state_key 5 [x01]) (Some [x0a]); OPut (state_key 5 [x02]) (Some [x0b])].
Definition e_trie : Trie MemoryStore := (trie_run (NewTrie EmptyNode ModeAll w_st) e_ops).1.
Definition e_map : gmap bytes bytes := <[state_key 5 [x02] := [x0b]]> {[state_key 5 [x01] := [x0a]]}.
Definition e_rpc : RPC := node_rpc e_trie e_map 5.
Definition e_remote : RemoteStateStore :=
  mkRemote (mkManifest [] 860833102 53 7 zero256 (StateRoot e_trie) [mkContract 5 e_hash []]) None false ∅ {[5 := e_hash]}
    {[e_hash := 5]} 0.
Definition e_fork : ForkStore MemoryStore := SetRemote (NewStore NewMemoryStore NewTrackingOverlay) e_remote.
Definition e_view : gmap bytes bytes := kmap (cons x70) e_map ∪ kmap (cons x71) e_map.

Lemma e_inv : trie_inv e_trie EmptyNode (t_root e_trie) e_map ∧ no_collision (tree_bytes (t_root e_trie)).
Proof.
  assert (Forall op_ok e_ops) as Hok.
  { unfold e_ops. repeat (apply Forall_cons; split; [exact I|]). apply Forall_nil_2. }
  destruct (trie_run_refines _ _ _ _ e_ops (trie_inv_new w_st ModeAll) Hok) as (tr' & t' & E & Hi & _).
  assert (tr' = e_trie) as -> by (unfold e_trie; by rewrite E).
  assert (t' = t_root e_trie) as ->.
  { apply (rep_in_memory _ _ _ _ (inv_rep _ _ _ _ Hi)). by vm_compute. }
  assert ((map_run ∅ e_ops).1 = e_map) as Hm by (apply (bool_decide_eq_true_1 _); by vm_compute).
  rewrite Hm in Hi. split; [exact Hi|]. apply no_collisionb_ok. by vm_compute.
Qed.

Lemma e_keys k v : e_map !! k = Some v → ∃ item, k = state_key 5 item.
Proof.
  unfold e_map. intros [[<- _]|[_ [<- _]%lookup_singleton_Some]]%lookup_insert_Some; by eexists.
Qed.

Lemma e_fork_inv : fork_inv e_rpc e_fork e_map.
Proof.
  destruct e_inv as [Hi Hcol]. constructor; [exact NewMemoryStore_wf| |].
  - intros r [= <-].
    destruct (node_honest e_trie e_map 5 EmptyNode (t_root e_trie) e_hash Hi Hcol) as [Hh Hf].
    { apply (bool_decide_eq_true_1 _). by vm_compute. }
    split; [|exact Hf]. constructor; [exact Hh|]. intros id c k v _ [Hm|(d & Hd & _)]; [|done]. cbn in Hm. by rewrite lookup_empty in Hm.
  - split; [intros k; cbn; rewrite lookup_empty; done|]. intros k Hk. cbn in Hk. set_solver.
Qed.

Lemma state_key_inj i j a b :
  - 2 ^ 31 <= i < 2 ^ 31 → - 2 ^ 31 <= j < 2 ^ 31 → state_key i a = state_key j b → i = j ∧ a = b.
Proof.
  intros Hi Hj Heq. assert (parseContractStorageKey (makeContractStorageKey i a)
    = parseContractStorageKey (makeContractStorageKey j b)) as Hp.
  { unfold makeContractStorageKey. fold (state_key i a) (state_key j b). by rewrite Heq. }
  rewrite !parse_make in Hp by done. by injection Hp.
Qed.

Lemma e_agrees k : k ≠ [] → view e_fork e_map k = e_view !! k.
Proof.
  destruct k as [|p k]; [done|]. intros _.
  assert (e_view !! (p :: k) = if is_stor_prefix p then e_map !! k else None) as ->.
  { unfold e_view. rewrite lookup_union.
    assert (∀ q, (kmap (cons q) e_map : gmap bytes bytes) !! (p :: k) = if bool_decide (p = q) then e_map !! k else None) as Hk.
    { intros q. case_bool_decide as Hq; [subst q; apply (lookup_kmap (cons p))|].
      apply lookup_kmap_None; [apply _|]. by intros i [= ->]. }
    rewrite !Hk. unfold is_stor_prefix, STStorage, STTempStorage.
    repeat case_bool_decide; simplify_eq; cbn [orb]; by destruct (e_map !! k). }
  unfold view. cbn [isContractStorageKey]. destruct (is_stor_prefix p) eqn:Hp; [|done].
  assert (Overlay_Get (fs_overlay e_fork) (p :: k) = None) as -> by done.
  assert (remote_part e_fork e_map (p :: k) = e_map !! k) as ->; [|by destruct (e_map !! k)].
  unfold remote_part. cbn [fs_remote e_fork SetRemote mbind option_bind].
  destruct (e_map !! k) as [v|] eqn:Hv.
  - destruct (e_keys k v Hv) as [item ->].
    assert (parseContractStorageKey (p :: state_key 5 item) = Some (5, item)) as ->.
    { pose proof (parse_make 5 item ltac:(lia)) as Hpm. unfold parseContractStorageKey, makeContractStorageKey in *.
      fold (state_key 5 item) in Hpm. cbn [isContractStorageKey length drop] in *. by rewrite Hp. }
    exact Hv.
  - destruct (parseContractStorageKey (p :: k)) as [[id item]|] eqn:E; [|done]. cbn [mbind option_bind].
    destruct (rs_contractByID e_remote !! id); [|done]. cbn [mbind option_bind].
    destruct (parse_spec _ _ _ E) as (p' & _ & [= _ ->] & _). exact Hv.
Qed.

Definition e_seek : SeekRange := mkRange (STStorage :: state_key 5 []) [] false 0.
Definition e_fork_ops : list fork_op :=
  [FGet (STStorage :: state_key 5 [x01]);
   FPut (Some ∅) (Some {[STStorage :: state_key 5 [x01] := None]});
   FGet (STStorage :: state_key 5 [x01]);
   FPut (Some ∅) (Some {[STStorage :: state_key 5 [x03] := Some [x0c]]});
   FSeek e_seek].

Lemma e_put_ok item c : c ≠ Some [] → fork_op_ok (FPut (Some ∅) (Some {[STStorage :: state_key 5 item := c]})).
Proof.
  intros Hc. split; [exact (map_Forall_empty _)|]. split.
  - intros k o. cbn. by intros [<- _]%lookup_singleton_Some.
  - intros k v. unfold gm. cbn [default from_option id]. by intros [_ ->]%lookup_singleton_Some ->.
Qed.

Lemma e_ops_ok : Forall fork_op_ok e_fork_ops.
Proof.
  unfold e_fork_ops. repeat (apply Forall_cons; split; [try done|]); [..|apply Forall_nil_2].
  - by apply e_put_ok.
  - by apply e_put_ok.
  - split; [|done]. exists (state_key 5 []). split; [done|]. by vm_compute.
Qed.

Lemma fork_refines_witness :
  Forall fork_op_ok e_fork_ops ∧ fork_run e_rpc 3 e_fork e_fork_ops =
    [Ok (FVal [x0a]); Ok FDone; Err ErrKeyNotFound; Ok FDone;
     Ok (FItems [mkKV (STStorage :: state_key 5 [x02]) [x0b]; mkKV (STStorage :: state_key 5 [x03]) [x0c]])].
Proof.
  split; [exact e_ops_ok|].
  assert ((size e_map < 3)%nat) as Hn by (vm_compute; lia).
  rewrite (fork_refines e_rpc 3 e_fork e_map e_view e_fork_ops e_fork_inv Hn e_agrees e_ops_ok).
  vm_compute. reflexivity.
Defined.

(** A node that answers every request with its proof of the second item. *)
Definition e_bad : RPC := mkRPC (λ n root c k, rpc_GetProof e_rpc n root c [x02]) (rpc_FindStates e_rpc) (Some []).

Lemma GetProof_key_unchecked_witness :
  (GetProof e_bad e_remote e_hash [x01]).2 = Ok [x0b] ∧ e_map !! state_key 5 [x01] = Some [x0a].
Proof.
  split; [|vm_compute; reflexivity].
  destruct (rpc_GetProof e_bad 0 (StateRoot e_trie) e_hash [x01]) as [p|] eqn:E; [|vm_compute in E; discriminate E].
  assert (VerifyProof (StateRoot e_trie) (pk_Key p) (pk_Proof p) = Ok ([x0b], true)) as Hv.
  { vm_compute in E. injection E as <-. vm_compute. reflexivity. }
  exact (proj1 (GetProof_key_unchecked e_bad e_remote e_hash [x01] p [x0b] eq_refl eq_refl E Hv)).
Defined.

Lemma fork_empty_value_lost_witness :
  ∃ s', PutChangeSet e_fork (Some ∅) (Some {[STStorage :: state_key 5 [x01] := Some []]}) = (s', Ok tt)
    ∧ st_get (fs_base s') (STStorage :: state_key 5 [x01]) = Ok []
    ∧ (Get e_rpc s' (STStorage :: state_key 5 [x01])).2 = Err ErrKeyNotFound.
Proof. exact (fork_empty_value_lost e_rpc e_fork (STStorage :: state_key 5 [x01]) NewMemoryStore_wf eq_refl). Defined.

Definition e_mgmt : RPC :=
  mkRPC (λ _ _ _ _, None) (λ _ _ _ _ _, Some (mkFind [mkKV (x08 :: e_hash) (replicate 30 x41)] false)) (Some []).

Lemma enumerateContracts_misreads_witness :
  enumerateContracts e_mgmt 1 0 zero256 e_hash = Ok [mkContract (-1431655766) (replicate 20 x41) []].
Proof.
  rewrite (enumerateContracts_misreads e_mgmt 0 0 zero256 e_hash e_hash (replicate 30 x41) eq_refl ltac:(cbn; lia) eq_refl).
  vm_compute. reflexivity.
Defined.
