(* ===== verification/Nanvil.v ===== *)
(** * Nanvil: the state of the development node

    Models the parts of [pkg/nanvil] that keep state of their own: snapshots
    ([snapshot/manager.go]), the dump of a chain to a file and back
    ([persist/chain.go]), impersonation ([impersonate/registry.go]), relay
    outcomes ([txregistry/registry.go]) and the timestamps of new blocks
    ([producer/producer.go]). *)

From S2P Require Import Prelude Storage Fork ForkSpec.
#[local] Open Scope Z_scope.

(** ** Snapshots *)

(** The digits of [%x]; the fuel is the number of digits. *)
Fixpoint hex_digits (fuel : nat) (n : Z) : bytes :=
  match fuel with
  | O => []
  | S fuel => if bool_decide (n < 16) then [hex_digit n] else hex_digits fuel (n / 16) ++ [hex_digit (n mod 16)]
  end.

(** [fmt.Sprintf("0x%x", counter)] of a counter that is not negative *)
Definition snapshot_id (counter : Z) : bytes := x30 :: x78 :: hex_digits 16 counter.

Record State := mkState { st_ID : bytes; st_Height : Z }.

Record Manager := mkManager { mg_snapshots : list State; mg_counter : Z }.

Definition NewManager : Manager := mkManager [] 0.

(** The chain is what the manager sees of it: its height, whether it runs, and
    the reset of its state, which may fail. *)
Class Chain (C : Type) := {
  BlockHeight : C → Z;
  isRunning : C → bool;
  resetStateInternal : C → Z → C * option unit;
}.

Section snapshots.
Context {C : Type} `{!Chain C}.

(** [Blockchain.Reset]; [None] is an error. *)
Definition Reset (c : C) (height : Z) : C * option unit :=
  if isRunning c then (c, None) else resetStateInternal c height.

Definition Snapshot (m : Manager) (c : C) : Manager * bytes :=
  let counter := mg_counter m + 1 in
  let id := snapshot_id counter in
  (mkManager (mg_snapshots m ++ [mkState id (BlockHeight c)]) counter, id).

Fixpoint find_state (id : bytes) (l : list State) (i : nat) : option (nat * Z) :=
  match l with
  | [] => None
  | s :: l => if bool_decide (st_ID s = id) then Some (i, st_Height s) else find_state id l (i + 1)
  end.

Definition Revert (m : Manager) (c : C) (id : bytes) : Manager * C * option unit :=
  match find_state id (mg_snapshots m) 0 with
  | None => (m, c, None)
  | Some (found, target) =>
      match Reset c target with
      | (c, None) => (m, c, None)
      | (c, Some _) => (mkManager (take (found + 1) (mg_snapshots m)) (mg_counter m), c, Some tt)
      end
  end.

Definition List_ (m : Manager) : list State := mg_snapshots m.

Definition Restore (m : Manager) (snaps : list State) : Manager := mkManager snaps (mg_counter m).

(** [LoadFile] of a file with a height and snapshots *)
Definition LoadFile (m : Manager) (c : C) (height : Z) (snaps : list State) : Manager * C * option unit :=
  let m := mkManager snaps (mg_counter m) in
  if bool_decide (0 < height) && bool_decide (height < BlockHeight c) then
    let '(c, r) := Reset c height in (m, c, r)
  else (m, c, Some tt).

(** The managers of a chain that goes its way, with the snapshots given out. *)
Inductive reach : Manager → list State → Prop :=
  | reach_new : reach NewManager []
  | reach_snapshot m h c : reach m h → mg_counter m < 2 ^ 63 - 1 →
      reach (Snapshot m c).1 (h ++ [mkState (Snapshot m c).2 (BlockHeight c)])
  | reach_revert m h c id : reach m h → reach (Revert m c id).1.1 h.
End snapshots.

(** ** The dump of a chain *)

(** What a string is after [json.Marshal] and [json.Unmarshal]: bytes that are
    not of a valid UTF-8 sequence become the replacement character. *)
Definition cont (lo hi : Z) (b : byte) : bool := bool_decide (lo <= b2z b) && bool_decide (b2z b <= hi).

(** The bytes after the first of a sequence of [n] bytes. *)
Definition rune_tail (s : bytes) (lo hi : Z) (n : nat) : option nat :=
  match s with
  | b1 :: s =>
      if cont lo hi b1 && bool_decide (n - 2 <= length s)%nat && forallb (cont 128 191) (take (n - 2) s)
      then Some n else None
  | [] => None
  end.

(** The length of the sequence that begins the string, if it is valid. *)
Definition rune_len (s : bytes) : option nat :=
  match s with
  | [] => None
  | b0 :: s =>
      let x := b2z b0 in
      if bool_decide (x < 128) then Some 1%nat
      else if bool_decide (x < 194) then None
      else if bool_decide (x < 224) then rune_tail s 128 191 2%nat
      else if bool_decide (x = 224) then rune_tail s 160 191 3%nat
      else if bool_decide (x = 237) then rune_tail s 128 159 3%nat
      else if bool_decide (x < 240) then rune_tail s 128 191 3%nat
      else if bool_decide (x = 240) then rune_tail s 144 191 4%nat
      else if bool_decide (x < 244) then rune_tail s 128 191 4%nat
      else if bool_decide (x = 244) then rune_tail s 128 143 4%nat
      else None
  end.

Fixpoint json_string_loop (fuel : nat) (s : bytes) : bytes :=
  match fuel, s with
  | O, _ | _, [] => []
  | S fuel, _ :: _ =>
      match rune_len s with
      | Some n => take n s ++ json_string_loop fuel (drop n s)
      | None => xef :: xbf :: xbd :: json_string_loop fuel (drop 1 s)
      end
  end.

Definition json_string (s : bytes) : bytes := json_string_loop (length s) s.

(** A Go map of strings through JSON, and a list. *)
Definition json_map (m : gmap bytes bytes) : gmap bytes bytes :=
  list_to_map (map (λ p, (json_string p.1, json_string p.2)) (map_to_list m)).

Definition hex_val (b : byte) : option Z :=
  let x := b2z b in
  if bool_decide (48 <= x) && bool_decide (x <= 57) then Some (x - 48)
  else if bool_decide (97 <= x) && bool_decide (x <= 102) then Some (x - 87)
  else if bool_decide (65 <= x) && bool_decide (x <= 70) then Some (x - 55)
  else None.

(** [hex.DecodeString] *)
Fixpoint DecodeString (s : bytes) : option bytes :=
  match s with
  | [] => Some []
  | a :: b :: s => x ← hex_val a; y ← hex_val b; t ← DecodeString s; Some (z2b (16 * x + y) :: t)
  | [_] => None
  end.

(** [None] is the [nil] map. *)
Definition encodeMap (m : changes) : gmap bytes bytes :=
  list_to_map (map (λ p, (EncodeToString p.1, match p.2 with Some v => EncodeToString v | None => [] end))
    (map_to_list m)).

Definition decode_entry (p : bytes * bytes) : option (bytes * option bytes) :=
  k ← DecodeString p.1;
  if bool_decide (p.2 = []) then Some (k, None) else v ← DecodeString p.2; Some (k, Some v).

(** [None] is an error; the loop over the map stops at the first. *)
Definition decodeMap (m : gmap bytes bytes) : option changes :=
  list_to_map <$> mapM decode_entry (map_to_list m).

Record ChainSnapshot := mkChainSnapshot {
  cs_Height : Z;
  cs_Snapshots : list State;
  cs_Fork : option Manifest;
  cs_Writes : gmap bytes bytes;
  cs_Deletes : list bytes;
  cs_Mem : gmap bytes bytes;
  cs_Stor : gmap bytes bytes;
}.

(** What [Save] marshals. An overlay that has nothing is left out, which is the
    same as an empty one. *)
Definition Save (height : Z) (snaps : list State) (base : MemoryStore) (overlay : option TrackingOverlay)
    (manifest : option Manifest) : ChainSnapshot :=
  let '(mem, stor) := Export base in
  let '(writes, deletes) := match overlay with Some o => Overlay_Export o | None => (∅, []) end in
  mkChainSnapshot height snaps manifest (encodeMap writes) deletes (encodeMap mem) (encodeMap stor).

Definition json_manifest (m : Manifest) : Manifest :=
  mkManifest (json_string (mf_RPCURL m)) (mf_NetworkMagic m) (mf_AddressVersion m) (mf_Index m) (mf_IndexHash m)
    (mf_RootHash m) (map (λ c, mkContract (ci_ID c) (ci_Hash c) (json_string (ci_Name c))) (mf_Contracts m)).

(** The file, written by [Save] and read by [Load]. *)
Definition json_snapshot (s : ChainSnapshot) : ChainSnapshot :=
  mkChainSnapshot (cs_Height s) (map (λ x, mkState (json_string (st_ID x)) (st_Height x)) (cs_Snapshots s))
    (json_manifest <$> cs_Fork s)
    (json_map (cs_Writes s)) (map json_string (cs_Deletes s)) (json_map (cs_Mem s)) (json_map (cs_Stor s)).

(** An error leaves what has been restored before it. *)
Definition Apply (snap : ChainSnapshot) (base : MemoryStore) (overlay : option TrackingOverlay)
    : MemoryStore * option TrackingOverlay * option unit :=
  match decodeMap (cs_Mem snap), decodeMap (cs_Stor snap) with
  | Some mem, Some stor =>
      let base := Import base mem stor in
      match overlay with
      | Some o =>
          if bool_decide (cs_Writes snap = ∅) && bool_decide (cs_Deletes snap = []) then (base, Some o, Some tt)
          else
            match decodeMap (cs_Writes snap) with
            | Some writes => (base, Some (Overlay_Import o writes (cs_Deletes snap)), Some tt)
            | None => (base, Some o, None)
            end
      | None => (base, None, Some tt)
      end
  | _, _ => (base, overlay, None)
  end.

(** ** Impersonation *)

Record Registry := mkRegistry { rg_accounts : gset bytes; rg_autoMode : bool; rg_enabled : bool }.

Definition NewRegistry : Registry := mkRegistry ∅ false true.
Definition SetEnabled (r : Registry) (v : bool) : Registry := mkRegistry (rg_accounts r) (rg_autoMode r) v.
Definition Impersonate (r : Registry) (hash : bytes) : Registry :=
  mkRegistry ({[hash]} ∪ rg_accounts r) (rg_autoMode r) (rg_enabled r).
Definition StopImpersonating (r : Registry) (hash : bytes) : Registry :=
  mkRegistry (rg_accounts r ∖ {[hash]}) (rg_autoMode r) (rg_enabled r).
Definition SetAutoMode (r : Registry) (v : bool) : Registry := mkRegistry (rg_accounts r) v (rg_enabled r).
Definition IsImpersonated (r : Registry) (hash : bytes) : bool :=
  if negb (rg_enabled r) then false else if rg_autoMode r then true else bool_decide (hash ∈ rg_accounts r).
Definition Registry_List (r : Registry) : list bytes := elements (rg_accounts r).
Definition Registry_Reset (r : Registry) : Registry := mkRegistry ∅ false (rg_enabled r).

(** ** Relay outcomes *)

Inductive Status := StatusRelayed | StatusRejected.
Record Entry (E : Type) := mkEntry { en_Status : Status; en_Err : option E }.
Arguments mkEntry {E} _ _.

Section txregistry.
Context {E : Type}.
Definition RecordRelayed (m : gmap bytes (Entry E)) (hash : bytes) : gmap bytes (Entry E) :=
  <[hash := mkEntry StatusRelayed None]> m.
Definition RecordRejected (m : gmap bytes (Entry E)) (hash : bytes) (err : option E) : gmap bytes (Entry E) :=
  <[hash := mkEntry StatusRejected err]> m.
Definition Lookup (m : gmap bytes (Entry E)) (hash : bytes) : option (Entry E) := m !! hash.
End txregistry.

(** ** Block timestamps *)

Record BlockBuilder := mkBuilder { bb_NextTimestampOffset : Z; bb_FixedNextTimestamp : Z }.

Definition IncreaseTime (b : BlockBuilder) (seconds : Z) : BlockBuilder :=
  mkBuilder (u64 (bb_NextTimestampOffset b + seconds)) (bb_FixedNextTimestamp b).
Definition SetNextBlockTimestamp (b : BlockBuilder) (ts : Z) : BlockBuilder :=
  mkBuilder (bb_NextTimestampOffset b) ts.

(** The timestamp of the next block, from the one of the last header and the
    clock; [nanvil] is whether the chain is a fork or has the network's magic. *)
Definition next_timestamp (b : BlockBuilder) (nanvil : bool) (last now : Z) : BlockBuilder * Z :=
  let ts := u64 (last + 1 + bb_NextTimestampOffset b) in
  if bool_decide (bb_FixedNextTimestamp b ≠ 0) then (mkBuilder 0 0, bb_FixedNextTimestamp b)
  else if nanvil then
    let minTs := u64 (last + 1) in
    (mkBuilder 0 (bb_FixedNextTimestamp b), if bool_decide (minTs < now) then now else minTs)
  else (mkBuilder 0 (bb_FixedNextTimestamp b), ts).

(** ** Snapshots: lemmas *)

Lemma hex_digits_nonempty fuel n : fuel ≠ O → hex_digits fuel n ≠ [].
Proof. destruct fuel; [done|]. intros _. cbn [hex_digits]. case_bool_decide; [done|]. by intros [_ ?]%app_eq_nil. Qed.

Lemma hex_digits_inj fuel n m :
  0 <= n < 16 ^ Z.of_nat fuel → 0 <= m < 16 ^ Z.of_nat fuel → hex_digits fuel n = hex_digits fuel m → n = m.
Proof.
  revert n m. induction fuel as [|fuel IH]; intros n m Hn Hm Heq; [change (16 ^ Z.of_nat 0) with 1 in *; lia|].
  cbn [hex_digits] in Heq. rewrite Nat2Z.inj_succ, Z.pow_succ_r in Hn, Hm by lia.
  assert (∀ k, 0 <= k < 16 * 16 ^ Z.of_nat fuel → 0 <= k / 16 < 16 ^ Z.of_nat fuel) as Hdiv.
  { intros k Hk. split; [apply Z.div_pos; lia|apply Z.div_lt_upper_bound; lia]. }
  assert (∀ k, ¬ k < 16 → 0 <= k < 16 * 16 ^ Z.of_nat fuel → fuel ≠ O) as Hfuel.
  { intros k Hk Hk' ->. change (16 ^ Z.of_nat 0) with 1 in Hk'. lia. }
  destruct (decide (n < 16)) as [Hn16|Hn16], (decide (m < 16)) as [Hm16|Hm16];
    rewrite ?(bool_decide_eq_true_2 (n < 16)), ?(bool_decide_eq_true_2 (m < 16)),
      ?(bool_decide_eq_false_2 (n < 16)), ?(bool_decide_eq_false_2 (m < 16)) in Heq by done.
  - injection Heq as Heq. apply hex_digit_inj in Heq; lia.
  - apply (app_inj_tail [] _) in Heq as [Heq _]. symmetry in Heq.
    by apply (hex_digits_nonempty fuel (m / 16) (Hfuel m Hm16 Hm)) in Heq.
  - apply (app_inj_tail _ []) in Heq as [Heq _].
    by apply (hex_digits_nonempty fuel (n / 16) (Hfuel n Hn16 Hn)) in Heq.
  - apply app_inj_tail in Heq as [H1 H2]. apply IH in H1; [|by apply Hdiv..].
    apply hex_digit_inj in H2; [|apply Z.mod_pos_bound; lia..].
    rewrite (Z.div_mod n 16), (Z.div_mod m 16) by lia. lia.
Qed.

Lemma snapshot_id_inj n m : 0 <= n < 2 ^ 63 → 0 <= m < 2 ^ 63 → snapshot_id n = snapshot_id m → n = m.
Proof.
  intros Hn Hm Heq. assert (drop 2 (snapshot_id n) = drop 2 (snapshot_id m)) as Hd by (by rewrite Heq).
  apply (hex_digits_inj 16 n m); [..|exact Hd]; change (16 ^ Z.of_nat 16) with (2 ^ 64); lia.
Qed.

Section snapshot_lemmas.
Context {C : Type} `{!Chain C}.

Lemma find_state_spec id l i :
  match find_state id l i with
  | Some (j, h) => ∃ k s, j = (i + k)%nat ∧ l !! k = Some s ∧ st_ID s = id ∧ st_Height s = h
  | None => ∀ s, s ∈ l → st_ID s ≠ id
  end.
Proof.
  revert i. induction l as [|s l IH]; intros i; cbn [find_state]; [by intros s ?%elem_of_nil|].
  case_bool_decide as Hid; [exists 0%nat, s; rewrite Nat.add_0_r; done|].
  specialize (IH (i + 1)%nat). destruct (find_state id l (i + 1)) as [[j h]|].
  - destruct IH as (k & s' & -> & Hk & H1 & H2). exists (S k), s'. split; [lia|done].
  - intros s' [-> |Hs']%elem_of_cons; [done|by apply IH].
Qed.

(** The snapshots given out have the identifiers 1, 2, ... in their order. *)
Record reach_inv (m : Manager) (h : list State) : Prop := {
  rv_counter : 0 <= mg_counter m < 2 ^ 63;
  rv_length : Z.of_nat (length h) = mg_counter m;
  rv_ids : ∀ i s, h !! i = Some s → st_ID s = snapshot_id (Z.of_nat i + 1);
  rv_sub : ∀ s, s ∈ mg_snapshots m → s ∈ h;
}.

Lemma reach_ok m h : reach m h → reach_inv m h.
Proof.
  induction 1 as [|m h c _ [Hc Hl Hi Hs] Hlt|m h c id _ [Hc Hl Hi Hs]].
  - constructor; [done|done|done|]. intros s Hs. by apply elem_of_nil in Hs.
  - constructor; cbn [Snapshot fst snd mg_counter mg_snapshots].
    + lia.
    + rewrite length_app. cbn. lia.
    + intros i s Hi'. apply lookup_app_Some in Hi' as [Hi'|[Hle Hi']]; [by apply Hi|].
      apply list_lookup_singleton_Some in Hi' as [Hi0 <-]. cbn [st_ID]. f_equal. lia.
    + intros s [Hin|Hin]%elem_of_app; apply elem_of_app; [left; by apply Hs|by right].
  - assert (mg_counter (Revert m c id).1.1 = mg_counter m ∧ ∀ s, s ∈ mg_snapshots (Revert m c id).1.1 → s ∈ mg_snapshots m)
      as [Hc' Hs'].
    { unfold Revert. destruct (find_state id (mg_snapshots m) 0) as [[j t]|]; [|done].
      destruct (Reset c t) as [c' [u|]]; [|done]. cbn. split; [done|]. intros s.
      rewrite elem_of_take. intros (k & Hk & _). exact (list_elem_of_lookup_2 _ _ _ Hk). }
    constructor; [by rewrite Hc'|by rewrite Hc'|done|]. intros s Hin. by apply Hs, Hs'.
Qed.

(** An identifier is given out once. *)
Lemma reach_unique m h s s' : reach m h → s ∈ h → s' ∈ h → st_ID s = st_ID s' → s = s'.
Proof.
  intros Hr [i Hi]%list_elem_of_lookup [j Hj]%list_elem_of_lookup Heq.
  destruct (reach_ok m h Hr) as [Hc Hl Hids _].
  pose proof (lookup_lt_Some _ _ _ Hi). pose proof (lookup_lt_Some _ _ _ Hj).
  rewrite (Hids i s Hi), (Hids j s' Hj) in Heq. apply snapshot_id_inj in Heq; [|lia..].
  replace j with i in Hj by lia. congruence.
Qed.
End snapshot_lemmas.

(** ** The dump: lemmas *)

Definition ascii (s : bytes) : Prop := Forall (λ b, b2z b < 128) s.

Lemma json_string_ascii s : ascii s → json_string s = s.
Proof.
  unfold json_string. induction 1 as [|b s Hb _ IH]; [done|]. cbn [length json_string_loop rune_len].
  rewrite bool_decide_eq_true_2 by done. cbn [take drop app]. rewrite take_0, drop_0. cbn [app]. by rewrite IH.
Qed.

Lemma EncodeToString_ascii b : ascii (EncodeToString b).
Proof.
  induction b as [|x b IH]; [constructor|]. cbn [EncodeToString]. destruct (byte_nibbles x) as [H1 H2].
  apply Forall_cons. split; [rewrite hex_digit_range by done; case_bool_decide; lia|].
  apply Forall_cons. split; [rewrite hex_digit_range by done; case_bool_decide; lia|done].
Qed.

Lemma hex_val_digit d : 0 <= d < 16 → hex_val (hex_digit d) = Some d.
Proof.
  intros Hd. unfold hex_val. cbn zeta. rewrite !hex_digit_range by done.
  destruct (decide (d < 10)); [rewrite !(bool_decide_eq_true_2 (d < 10)) by done|rewrite !(bool_decide_eq_false_2 (d < 10)) by done].
  - rewrite (bool_decide_eq_true_2 (48 <= 48 + d)), (bool_decide_eq_true_2 (48 + d <= 57)) by lia.
    cbn [andb]. f_equal. lia.
  - rewrite (bool_decide_eq_false_2 (87 + d <= 57)), andb_false_r by lia.
    rewrite (bool_decide_eq_true_2 (97 <= 87 + d)), (bool_decide_eq_true_2 (87 + d <= 102)) by lia.
    cbn [andb]. f_equal. lia.
Qed.

Lemma Decode_Encode b : DecodeString (EncodeToString b) = Some b.
Proof.
  induction b as [|x b IH]; [done|]. cbn [EncodeToString DecodeString]. destruct (byte_nibbles x) as [H1 H2].
  rewrite !hex_val_digit, IH by done. cbn. do 2 f_equal. apply (inj b2z). rewrite b2z_z2b.
  pose proof (Z.div_mod (b2z x) 16 ltac:(lia)). pose proof (b2z_range x). rewrite Z.mod_small; lia.
Qed.

Lemma EncodeToString_nil b : EncodeToString b = [] ↔ b = [].
Proof. by destruct b. Qed.

Definition encode_entry (p : bytes * option bytes) : bytes * bytes :=
  (EncodeToString p.1, match p.2 with Some v => EncodeToString v | None => [] end).

Lemma decode_encode_entry p : p.2 ≠ Some [] → decode_entry (encode_entry p) = Some p.
Proof.
  destruct p as [k [v|]]; cbn [fst snd]; intros Hv; unfold decode_entry, encode_entry; cbn [fst snd];
    rewrite Decode_Encode; cbn [mbind option_bind]; [|done].
  rewrite bool_decide_eq_false_2 by (rewrite EncodeToString_nil; by intros ->). by rewrite Decode_Encode.
Qed.

Lemma encodeMap_list (m : changes) :
  ∃ L, L ≡ₚ map_to_list m ∧ map_to_list (encodeMap m) = map encode_entry L.
Proof.
  assert (map_to_list (encodeMap m) ≡ₚ map encode_entry (map_to_list m)) as Hp.
  { apply map_to_list_to_map. rewrite <- list_fmap_compose.
    change (NoDup ((EncodeToString ∘ fst) <$> map_to_list m)). rewrite list_fmap_compose.
    apply NoDup_fmap_2; [intros a b; apply EncodeToString_inj|]. apply NoDup_fst_map_to_list. }
  symmetry in Hp. apply Permutation_sym, Permutation_map_inv in Hp as (L & E & HL). exists L.
  split; [by symmetry|exact E].
Qed.

Lemma json_map_encode (m : changes) : json_map (encodeMap m) = encodeMap m.
Proof.
  unfold json_map. transitivity (list_to_map (map_to_list (encodeMap m)) : gmap bytes bytes); [|apply list_to_map_to_list].
  f_equal. destruct (encodeMap_list m) as (L & _ & ->). rewrite map_map. apply map_ext. intros [k v].
  unfold encode_entry. cbn [fst snd]. rewrite json_string_ascii by apply EncodeToString_ascii. f_equal.
  destruct v; [apply json_string_ascii, EncodeToString_ascii|done].
Qed.

Lemma decode_encodeMap (m : changes) : (∀ k, m !! k ≠ Some (Some [])) → decodeMap (encodeMap m) = Some m.
Proof.
  intros Hm. unfold decodeMap. destruct (encodeMap_list m) as (L & HL & ->).
  assert (mapM decode_entry (map encode_entry L) = Some L) as ->.
  { apply mapM_Some. apply Forall2_fmap_l. apply Forall_Forall2_diag. apply Forall_forall. intros [k v] Hin.
    apply decode_encode_entry. cbn. intros ->. rewrite HL, elem_of_map_to_list in Hin. by apply (Hm k). }
  cbn [fmap option_fmap option_map]. f_equal. rewrite (list_to_map_proper L (map_to_list m)).
  - apply list_to_map_to_list.
  - rewrite HL. apply NoDup_fst_map_to_list.
  - done.
Qed.

Lemma clone_vals (m : changes) k : (clone_val <$> m) !! k ≠ Some (Some []).
Proof. rewrite lookup_fmap. destruct (m !! k) as [[[]|]|]; cbn; by intros [=]. Qed.

Lemma clone_vals_twice (m : changes) : clone_val <$> (clone_val <$> m) = clone_val <$> m.
Proof. rewrite <- map_fmap_compose. apply map_fmap_ext. intros k v _. apply clone_val_idem. Qed.

(** No valid UTF-8 sequence has a byte 255. *)
Lemma cont_255 lo hi b : hi < 255 → cont lo hi b = true → b ≠ xff.
Proof.
  intros Hhi Hc ->. unfold cont in Hc. apply andb_true_iff in Hc as [_ Hc%bool_decide_eq_true_1].
  change (b2z xff) with 255 in Hc. lia.
Qed.

Lemma rune_255 s n : rune_len s = Some n → xff ∉ take n s.
Proof.
  destruct s as [|b0 s]; [done|]. cbn [rune_len].
  assert (∀ lo hi k, hi < 255 → b2z b0 < 255 → rune_tail s lo hi k = Some n → xff ∉ take n (b0 :: s)) as Htail.
  { intros lo hi k Hhi Hb. unfold rune_tail. destruct s as [|b1 s']; [done|].
    destruct (cont lo hi b1) eqn:Hc1; [|done]. destruct (bool_decide _); [|done].
    destruct (forallb (cont 128 191) (take (k - 2) s')) eqn:Hf; [|done]. cbn [andb]. intros [= ->].
    assert (b0 ≠ xff) as H0 by (intros ->; change (b2z xff) with 255 in Hb; lia).
    pose proof (cont_255 _ _ _ Hhi Hc1) as H1.
    assert (xff ∉ take (n - 2) s') as Hs.
    { intros Hin. rewrite forallb_forall in Hf. specialize (Hf xff (proj1 (list_elem_of_In _ _) Hin)). done. }
    destruct n as [|[|n]]; cbn [take].
    - apply not_elem_of_nil.
    - apply not_elem_of_cons. split; [done|apply not_elem_of_nil].
    - rewrite !not_elem_of_cons. cbn in Hs. rewrite Nat.sub_0_r in Hs. done. }
  intros Hr. repeat (case_bool_decide; [|]); try done;
    try (revert Hr; apply Htail; lia).
  injection Hr as <-. cbn. rewrite take_0. apply not_elem_of_cons. split; [|apply not_elem_of_nil].
  intros <-. change (b2z xff) with 255 in *. lia.
Qed.

Lemma json_string_255 s : xff ∉ json_string s.
Proof.
  unfold json_string. generalize (length s) as fuel. intros fuel. revert s.
  induction fuel as [|fuel IH]; intros s; [apply not_elem_of_nil|]. cbn [json_string_loop].
  destruct s as [|b s]; [apply not_elem_of_nil|]. destruct (rune_len (b :: s)) as [n|] eqn:Hr.
  - rewrite not_elem_of_app. split; [by apply rune_255|apply IH].
  - rewrite !not_elem_of_cons. split; [done|]. split; [done|]. split; [done|apply IH].
Qed.

(** ** Properties *)

(** A snapshot that has been given out and not been reverted past resets the
    chain to the height it was taken at, if the chain does not run; its
    identifier stands for no other snapshot, the later snapshots are dropped
    and it stays itself. On a chain that runs, a revert does nothing but fail. *)
Theorem revert_resets {C} `{!Chain C} (m : Manager) (h : list State) (c : C) (s : State) :
  reach m h → s ∈ mg_snapshots m →
  (∀ s', s' ∈ h → st_ID s' = st_ID s → s' = s)
  ∧ (isRunning c = true → Revert m c (st_ID s) = (m, c, None))
  ∧ (isRunning c = false →
       match resetStateInternal c (st_Height s) with
       | (c', Some _) => ∃ later, mg_snapshots m = mg_snapshots (Revert m c (st_ID s)).1.1 ++ later
            ∧ last (mg_snapshots (Revert m c (st_ID s)).1.1) = Some s
            ∧ (Revert m c (st_ID s)).1.2 = c' ∧ (Revert m c (st_ID s)).2 = Some tt
       | (c', None) => Revert m c (st_ID s) = (m, c', None)
       end).
Proof.
  intros Hr Hs. pose proof (rv_sub _ _ (reach_ok m h Hr)) as Hsub.
  split; [intros s' Hs' Heq; apply (reach_unique m h); auto|].
  unfold Revert, Reset. pose proof (find_state_spec (st_ID s) (mg_snapshots m) 0) as Hf.
  destruct (find_state (st_ID s) (mg_snapshots m) 0) as [[j t]|]; [|by destruct (Hf s Hs)].
  destruct Hf as (k & s' & -> & Hk & Hid & <-). cbn [Nat.add].
  assert (s' = s) as -> by (apply (reach_unique m h); auto; apply Hsub; by apply list_elem_of_lookup_2 in Hk).
  split; intros Hrun; rewrite Hrun; [done|]. destruct (resetStateInternal c (st_Height s)) as [c' [u|]]; [|done].
  cbn [fst snd mg_snapshots]. exists (drop (k + 1) (mg_snapshots m)). split; [by rewrite take_drop|].
  split; [|by destruct u]. rewrite last_lookup, length_take_le by (apply lookup_lt_Some in Hk; lia).
  replace (pred (k + 1)) with k by lia. by rewrite lookup_take_lt by lia.
Qed.

(** C31: a chain saved to a file and loaded into a fresh node has the pairs and
    the overlay's writes it had, but that an empty value comes back as a nil one,
    which means deleted ([clone_val]). The overlay's deletes are exactly the JSON
    strings of what they were: those that are valid UTF-8 as they were, but none
    with a byte 255 in it, such as the key of an item of a native contract, whose
    deletion is forgotten. *)
Theorem chain_save_load (height : Z) (snaps : list State) (base base0 : MemoryStore) (o : TrackingOverlay)
    (manifest : option Manifest) :
  ∃ base' o', Apply (json_snapshot (Save height snaps base (Some o) manifest)) base0 (Some NewTrackingOverlay)
      = (base', Some o', Some tt)
    ∧ gm (ms_mem base') = clone_val <$> gm (ms_mem base) ∧ gm (ms_stor base') = clone_val <$> gm (ms_stor base)
    ∧ ov_writes o' = clone_val <$> ov_writes o
    ∧ ov_deletes o' = set_map json_string (ov_deletes o)
    ∧ (∀ k, k ∈ ov_deletes o → json_string k = k → k ∈ ov_deletes o')
    ∧ (∀ k, k ∈ ov_deletes o' → xff ∉ k).
Proof.
  unfold Save, Export, Overlay_Export, json_snapshot, Apply.
  cbn [cs_Mem cs_Stor cs_Writes cs_Deletes]. rewrite !json_map_encode, !decode_encodeMap by apply clone_vals.
  cbn zeta. case_bool_decide as Hw; cbn [andb].
  - case_bool_decide as Hd.
    + eexists _, _. split; [done|]. unfold Import, gm. cbn [ms_mem ms_stor default from_option id]. rewrite !clone_vals_twice.
      do 2 (split; [done|]). cbn [ov_writes ov_deletes NewTrackingOverlay]. split.
      { pose proof (decode_encodeMap (clone_val <$> ov_writes o) (clone_vals _)) as He. rewrite Hw in He.
        unfold decodeMap in He. rewrite map_to_list_empty in He. by injection He. }
      apply fmap_nil_inv, elements_empty_iff, leibniz_equiv in Hd. rewrite Hd.
      split; [by rewrite set_map_empty|set_solver].
    + eexists _, _. split; [done|]. unfold Import, Overlay_Import, gm. cbn [ms_mem ms_stor ov_writes ov_deletes default from_option id].
      rewrite !clone_vals_twice. do 4 (split; [done|]). split.
      * intros k Hk Hj. apply elem_of_list_to_set, list_elem_of_fmap. exists k. by rewrite elem_of_elements.
      * intros k (k' & -> & _)%elem_of_list_to_set%list_elem_of_fmap. apply json_string_255.
  - eexists _, _. split; [done|]. unfold Import, Overlay_Import, gm. cbn [ms_mem ms_stor ov_writes ov_deletes default from_option id].
    rewrite !clone_vals_twice. do 4 (split; [done|]). split.
    * intros k Hk Hj. apply elem_of_list_to_set, list_elem_of_fmap. exists k. by rewrite elem_of_elements.
    * intros k (k' & -> & _)%elem_of_list_to_set%list_elem_of_fmap. apply json_string_255.
Qed.

(** A chain that is its height, with whether it runs. *)
#[local] Instance e_chain : Chain (Z * bool) := {|
  BlockHeight := fst;
  isRunning := snd;
  resetStateInternal c h := if bool_decide (h <= c.1) then ((h, c.2), Some tt) else (c, None);
|}.

Definition e_manager : Manager := (Snapshot (Snapshot NewManager (5, false)).1 (9, false)).1.

Lemma e_reach : reach (C := Z * bool) e_manager [mkState (snapshot_id 1) 5; mkState (snapshot_id 2) 9].
Proof.
  exact (reach_snapshot _ _ (9, false) (reach_snapshot _ _ (5, false) reach_new eq_refl) eq_refl).
Qed.

Lemma revert_resets_witness :
  Revert e_manager (12, true) (snapshot_id 1) = (e_manager, (12, true), None)
  ∧ (Revert e_manager (12, false) (snapshot_id 1)).1.2 = (5, false).
Proof.
  assert (mkState (snapshot_id 1) 5 ∈ mg_snapshots e_manager) as Hin by (vm_compute; left).
  split.
  - exact (proj1 (proj2 (revert_resets e_manager _ (12, true) (mkState (snapshot_id 1) 5) e_reach Hin)) eq_refl).
  - destruct (proj2 (proj2 (revert_resets e_manager _ (12, false) (mkState (snapshot_id 1) 5) e_reach Hin)) eq_refl)
      as (later & _ & _ & Hc & _). exact Hc.
Defined.
