(* ===== verification/Codec.v ===== *)
(** * Codec: what a pair of encoder and decoder promises, piece by piece

    [emits f b]: the encoder [f] appends the bytes [b] to a writer without
    error.  [parses g a b]: the decoder [g] consumes exactly the bytes [b] of a
    reader without error and answers [a].  The primitives of [BinIO.v] are in
    the rewrite database [codec]; [codec] walks through a decoder that reads
    field after field. *)

From S2P Require Import Prelude BinIO.

#[local] Open Scope Z_scope.

Definition emits (f : BinWriter → BinWriter) (b : bytes) : Prop :=
  ∀ w, w_err w = None → f w = mkWriter (w_buf w ++ b) None.

Definition parses {A} (g : BinReader → A * BinReader) (a : A) (b : bytes) : Prop :=
  ∀ rest, g (mkReader (b ++ rest) None) = (a, mkReader rest None).

Create Rewrite HintDb codec.

Lemma emits_bytes b : emits (WriteBytes b) b.
Proof. intros w Hw. unfold WriteBytes. by rewrite Hw. Qed.

Lemma emits_B v : emits (WriteB v) [z2b v].
Proof. apply emits_bytes. Qed.

Lemma emits_varuint v : emits (WriteVarUint v) (PutVarUint v).
Proof. intros w Hw. by apply WriteVarUint_ok. Qed.

Lemma emits_varbytes b : emits (WriteVarBytes b) (PutVarUint (Z.of_nat (length b)) ++ b).
Proof. intros w Hw. by apply WriteVarBytes_ok. Qed.

Lemma emits_comp f g a b : emits f a → emits g b → emits (λ w, g (f w)) (a ++ b).
Proof. intros Hf Hg w Hw. rewrite (Hf w Hw), Hg by done. cbn. by rewrite app_assoc. Qed.

Lemma emits_nil : emits (λ w, w) [].
Proof. intros [b e]. cbn. intros ->. by rewrite app_nil_r. Qed.

Lemma emits_if (c : bool) f b :
  (c = true → emits f b) → emits (λ w, if c then f w else w) (if c then b else []).
Proof. destruct c; intros H; [by apply H|apply emits_nil]. Qed.

Lemma emits_ext f g b : (∀ w, f w = g w) → emits f b → emits g b.
Proof. intros He Hf w Hw. rewrite <- He. by apply Hf. Qed.

(** ** Readers *)

Lemma parses_bytes n b rest :
  length b = n → ReadBytes n (mkReader (b ++ rest) None) = (b, mkReader rest None).
Proof. apply ReadBytes_app. Qed.

Lemma parses_B v rest :
  0 <= v < 256 → ReadB (mkReader (z2b v :: rest) None) = (v, mkReader rest None).
Proof. intros Hv. by rewrite ReadB_app, b2z_z2b_small. Qed.

Lemma parses_u32 v rest :
  0 <= v < 2 ^ 32 → ReadU32LE (mkReader (le_enc 4 v ++ rest) None) = (v, mkReader rest None).
Proof. intros. by apply read_uint_le_app. Qed.

Lemma parses_u64 v rest :
  0 <= v < 2 ^ 64 → ReadU64LE (mkReader (le_enc 8 v ++ rest) None) = (v, mkReader rest None).
Proof. intros. by apply read_uint_le_app. Qed.

Lemma parses_u16 v rest :
  0 <= v < 2 ^ 16 → ReadU16LE (mkReader (le_enc 2 v ++ rest) None) = (v, mkReader rest None).
Proof. intros. by apply read_uint_le_app. Qed.

Lemma parses_bool (b : bool) rest :
  ReadBool (mkReader (z2b (if b then 1 else 0) :: rest) None) = (b, mkReader rest None).
Proof. unfold ReadBool. rewrite parses_B by (destruct b; lia). by destruct b. Qed.

#[export] Hint Rewrite parses_bytes parses_B parses_u16 parses_u32 parses_u64 parses_bool
  ReadVarUint_app ReadVarBytes_app using (first [done|lia]) : codec.

(** ** Arrays of elements with a codec *)

Section arrays.
Context {A : Type} `{HS : !Serializable A} {ok : A → Prop} `{HO : !SerializableOk A ok}.

Definition array_bytes (l : list A) : bytes :=
  PutVarUint (Z.of_nat (length l)) ++ concat (map enc_bytes l).

Lemma emits_array l : Forall ok l → emits (WriteArray l) (array_bytes l).
Proof.
  intros Hl w Hw. unfold WriteArray. rewrite Hw, WriteVarUint_ok by done.
  rewrite write_elems_ok by done. cbn [w_buf]. by rewrite <- app_assoc.
Qed.

Lemma emits_elems l :
  Forall ok l → emits (λ w, fold_left (λ w a, EncodeBinary a w) l w) (concat (map enc_bytes l)).
Proof. intros Hl w Hw. by apply write_elems_ok. Qed.

Lemma parses_array ms l rest :
  Forall ok l → 0 <= ms < 2 ^ 63 → Z.of_nat (length l) <= ms →
  ReadArray ms (mkReader (array_bytes l ++ rest) None) = (Some l, mkReader rest None).
Proof.
  intros Hl Hms Hlen. unfold ReadArray, array_bytes. cbn [r_err].
  rewrite <- app_assoc, ReadVarUint_app by lia.
  rewrite wrap_u_small by lia. rewrite bool_decide_eq_false_2 by lia.
  by rewrite Nat2Z.id, read_elems_ok.
Qed.
End arrays.

(** ** What decoders answer on any input

    [yields P g]: whatever [g] answers without error satisfies [P]; and a
    reader that has failed stays failed. *)
Definition yields {A} (P : A → Prop) (g : BinReader → A * BinReader) : Prop :=
  ∀ r a r', g r = (a, r') → r_err r' = None → r_err r = None ∧ P a.

Lemma yields_weaken {A} (P Q : A → Prop) g : (∀ a, P a → Q a) → yields P g → yields Q g.
Proof. intros HPQ Hg r a r' E Hr. destruct (Hg r a r' E Hr). auto. Qed.

Lemma yields_bytes n : yields (λ b, length b = n) (ReadBytes n).
Proof.
  intros r a r' E Hr. pose proof (length_ReadBytes n r) as Hl. rewrite E in Hl. split; [|done].
  destruct (r_err r) eqn:Er; [|done]. rewrite ReadBytes_err in E by (rewrite Er; by eexists).
  injection E as <- <-. congruence.
Qed.

Lemma yields_uint_le n : yields (λ v, 0 <= v < 256 ^ Z.of_nat n) (read_uint_le n).
Proof.
  intros r a r' E Hr. pose proof (read_uint_le_range n r) as Hl. rewrite E in Hl. split; [|done].
  unfold read_uint_le in E. destruct (ReadBytes n r) as [b r1] eqn:E1.
  destruct (r_err r1) eqn:Er1; injection E as <- <-; [congruence|].
  by apply (yields_bytes n r b r1).
Qed.

Lemma yields_B : yields (λ v, 0 <= v < 256) ReadB.
Proof.
  intros r a r' E Hr. pose proof (ReadB_range r) as Hl. rewrite E in Hl. split; [|done].
  unfold ReadB in E. destruct (ReadBytes 1 r) as [b r1] eqn:E1.
  destruct (r_err r1) eqn:Er1; injection E as <- <-; [congruence|].
  by apply (yields_bytes 1 r b r1).
Qed.

Lemma yields_bool : yields (λ _, True) ReadBool.
Proof.
  intros r a r' E Hr. unfold ReadBool in E. destruct (ReadB r) as [b r1] eqn:E1.
  injection E as _ <-. split; [|done]. by apply (yields_B r b r1).
Qed.

Lemma yields_varuint : yields (λ v, 0 <= v < 2 ^ 64) ReadVarUint.
Proof.
  intros r a r' E Hr. pose proof (ReadVarUint_range r) as Hl. rewrite E in Hl. split; [|done].
  unfold ReadVarUint in E. destruct (r_err r) eqn:Er; [|done]. injection E as <- <-. congruence.
Qed.

Lemma yields_varbytes ms :
  0 <= ms < 2 ^ 63 → yields (λ b, Z.of_nat (length (default [] b)) <= ms) (ReadVarBytes ms).
Proof.
  intros Hms r a r' E Hr. unfold ReadVarBytes in E.
  destruct (ReadVarUint r) as [n r1] eqn:E1. rewrite wrap_u_small in E by lia.
  case_bool_decide; [by injection E as <- <-|].
  destruct (ReadBytes (Z.to_nat n) r1) as [b r2] eqn:E2. injection E as <- <-.
  destruct (yields_bytes _ _ _ _ E2 Hr) as [Hr1 Hb].
  destruct (yields_varuint _ _ _ E1 Hr1) as [? ?]. split; [done|]. cbn. lia.
Qed.

Lemma read_elems_yields {A} (HS : Serializable A) (P : A → Prop) n :
  yields P DecodeBinary → yields (λ l, Forall P l ∧ length l = n) (read_elems (A := A) n).
Proof.
  intros HP. induction n as [|n IH]; intros r l r' E Hr; cbn in E.
  { injection E as <- <-. done. }
  destruct (DecodeBinary r) as [a r1] eqn:E1. destruct (read_elems n r1) as [t r2] eqn:E2.
  injection E as <- <-. destruct (IH _ _ _ E2 Hr) as [Hr1 [Ht Hlen]].
  destruct (HP _ _ _ E1 Hr1). split; [done|]. split; [by constructor|]. cbn. lia.
Qed.

Lemma yields_array {A} `{HS : !Serializable A} (P : A → Prop) ms :
  0 <= ms < 2 ^ 63 → yields P DecodeBinary →
  yields (λ l, ∃ l', l = Some l' ∧ Forall P l' ∧ Z.of_nat (length l') <= ms) (ReadArray ms).
Proof.
  intros Hms HP r a r' E Hr. unfold ReadArray in E. destruct (r_err r) eqn:Er.
  { injection E as <- <-. congruence. }
  split; [done|]. destruct (ReadVarUint r) as [n r1] eqn:E1. rewrite wrap_u_small in E by lia.
  case_bool_decide; [by injection E as <- <-|].
  destruct (read_elems (Z.to_nat n) r1) as [l r2] eqn:E2. injection E as <- <-.
  destruct (read_elems_yields HS P _ HP _ _ _ E2 Hr) as [Hr1 [Hl Hlen]]. destruct (yields_varuint _ _ _ E1 Hr1).
  exists l. split; [done|]. split; [done|]. lia.
Qed.

(** [codec]: decode the next fields of a concrete encoding. *)
Ltac codec := repeat (rewrite <- ?app_assoc; cbn [app]; autorewrite with codec).
