(* ===== verification/Keys.v ===== *)
(** * Keys: public keys and their encodings

    Models [pkg/crypto/keys/publickey.go]: comparison, the compressed and
    uncompressed forms, decompression of a point, and the verification script
    of a key, with the parser of such scripts
    ([pkg/smartcontract/scparser/contract_checks.go]).  Signatures and private
    keys belong to the libraries for elliptic curves and are not modelled, nor
    are the cache of decoded keys and the text forms. *)

From Stdlib Require Import Zpow_facts.
From S2P Require Import Prelude BinIO Codec Hash.

#[local] Open Scope Z_scope.

Definition coordLen : nat := 32.

(** ** Curves

    [elliptic.Curve]: the parameters, whether the curve is secp256k1 (whose
    type [decodeCompressedY] asks for), and [IsOnCurve]. *)
Record Curve := mkCurve {
  cu_koblitz : bool;
  cu_P : Z;
  cu_B : Z;
}.

(** [IsOnCurve] rejects coordinates that are not reduced. *)
Definition IsOnCurve (c : Curve) (x y : Z) : bool :=
  bool_decide (0 <= x < cu_P c) && bool_decide (0 <= y < cu_P c) &&
  bool_decide (y * y mod cu_P c
    = (x * x * x - (if cu_koblitz c then 0 else 3 * x) + cu_B c) mod cu_P c).

Definition P256 : Curve := mkCurve false
  0xffffffff00000001000000000000000000000000ffffffffffffffffffffffff
  0x5ac635d8aa3a93e7b3ebbd55769886bc651d06b0cc53b0f63bce3c3e27d2604b.

Definition Secp256k1 : Curve := mkCurve true
  0xfffffffffffffffffffffffffffffffffffffffffffffffffffffffefffffc2f
  7.

(** [big.Int.ModSqrt] for a prime that is 3 modulo 4, as those of both curves:
    the power [(p + 1) / 4] if it is a root, and [None] if there is none. *)
Definition ModSqrt (x p : Z) : option Z :=
  let y := Zpow_mod x ((p + 1) / 4) p in
  if bool_decide (y * y mod p = x mod p) then Some y else None.

(** ** Keys *)

Inductive PublicKey :=
  | Infinity
  | Point (X Y : Z).

#[export] Instance PublicKey_eq_dec : EqDecision PublicKey.
Proof. solve_decision. Defined.

Definition IsInfinity (p : PublicKey) : bool :=
  match p with Infinity => true | Point _ _ => false end.

Definition PublicKey_Cmp (p key : PublicKey) : comparison :=
  match p, key with
  | Infinity, Infinity => Eq
  | Infinity, _ => Lt
  | _, Infinity => Gt
  | Point x y, Point x' y' =>
      match Z.compare x x' with Eq => Z.compare y y' | c => c end
  end.

Definition PublicKey_Equal (p key : PublicKey) : bool := bool_decide (PublicKey_Cmp p key = Eq).

Definition PublicKeys_Contains (keys : list PublicKey) (k : PublicKey) : bool :=
  existsb (PublicKey_Equal k) keys.

Definition Unique (keys : list PublicKey) : list PublicKey :=
  fold_left (λ unique k, if PublicKeys_Contains unique k then unique else unique ++ [k]) keys [].

(** ** Serialization

    The coordinates of a key are below the prime of its curve, hence fit in
    [coordLen] bytes. *)
Definition sizeSerialized (p : PublicKey) (compressed : bool) : nat :=
  if IsInfinity p then 1 else if compressed then coordLen + 1 else 2 * coordLen + 1.

Definition getBytes (p : PublicKey) (compressed : bool) : bytes :=
  match p with
  | Infinity => [x00]
  | Point x y =>
      if compressed then z2b (2 + y mod 2) :: be_enc coordLen x
      else x04 :: be_enc coordLen x ++ be_enc coordLen y
  end.

Definition PublicKey_Bytes (p : PublicKey) : bytes := getBytes p true.
Definition UncompressedBytes (p : PublicKey) : bytes := getBytes p false.

Definition decodeCompressedY (x ylsb : Z) (curve : Curve) : option Z :=
  let a := if cu_koblitz curve then 0 else 3 in
  let p := cu_P curve in
  let xCubed := Zpow_mod x 3 p in
  let aX := (x * a) mod p in
  let ySquared := (xCubed - aX + cu_B curve) mod p in
  match ModSqrt ySquared p with
  | None => None
  | Some y => Some (if bool_decide (y mod 2 ≠ ylsb) then (- y) mod p else y)
  end.

(** [DecodeBinary] into a new key, which stays infinite on an error. *)
Definition PublicKey_DecodeBinary (curve : Curve) (r : BinReader) : PublicKey * BinReader :=
  let '(prefix, r) := ReadB r in
  match r_err r with Some _ => (Infinity, r) | None =>
    let finish (x y : Z) (r : BinReader) :=
      if bool_decide (cu_P curve <= x) || bool_decide (cu_P curve <= y)
      then (Infinity, r_fail r (ErrOther "enccoded point is not correct (X or Y is bigger than P"))
      else (Point x y, r) in
    if bool_decide (prefix = 0) then (Infinity, r) else
    if bool_decide (prefix = 2) || bool_decide (prefix = 3) then
      let '(xbytes, r) := ReadBytes coordLen r in
      match r_err r with Some _ => (Infinity, r) | None =>
        let x := be_val xbytes in
        match decodeCompressedY x (prefix mod 2) curve with
        | None => (Infinity, r_fail r (ErrOther "error computing Y for compressed point"))
        | Some y => finish x y r
        end
      end
    else if bool_decide (prefix = 4) then
      let '(xbytes, r) := ReadBytes coordLen r in
      let '(ybytes, r) := ReadBytes coordLen r in
      match r_err r with Some _ => (Infinity, r) | None =>
        let x := be_val xbytes in
        let y := be_val ybytes in
        if IsOnCurve curve x y then finish x y r
        else (Infinity, r_fail r (ErrOther "encoded point is not on the P256 curve"))
      end
    else (Infinity, r_fail r (ErrOther "invalid prefix"))
  end.

Definition PublicKey_EncodeBinary (p : PublicKey) (w : BinWriter) : BinWriter :=
  WriteBytes (PublicKey_Bytes p) w.

Definition PublicKey_DecodeBytes (curve : Curve) (data : bytes) : res ioerr PublicKey :=
  let '(p, b) := PublicKey_DecodeBinary curve (NewBinReaderFromBuf data) in
  match r_err b with
  | Some e => Err e
  | None => if bool_decide (r_len b ≠ 0) then Err (ErrOther "extra data") else Ok p
  end.

(** A key without a curve is decoded on secp256r1. *)
#[export] Instance PublicKey_serializable : Serializable PublicKey := {|
  EncodeBinary := PublicKey_EncodeBinary;
  DecodeBinary := PublicKey_DecodeBinary P256;
|}.

(** ** Verification scripts

    The five bytes after the key are the system call of
    [System.Crypto.CheckSig]; the older network has its own form. *)
Definition GetVerificationScript (neo2 : bool) (p : PublicKey) : bytes :=
  if neo2 then
    let key := PublicKey_Bytes p in
    x21 :: key ++ replicate (33 - length key) x00 ++ [xac]
  else
    x0c :: z2b (Z.of_nat (sizeSerialized p true)) :: PublicKey_Bytes p
      ++ [x41; x56; xe7; xb3; x27].

Definition GetScriptHash `{Digest} (neo2 : bool) (p : PublicKey) : bytes :=
  Hash160 (GetVerificationScript neo2 p).

(** [verifyInteropID] is the identifier of [System.Crypto.CheckSig]. *)
Definition ParseSignatureContract (verifyInteropID : Z) (script : bytes) : option bytes :=
  if bool_decide (length script ≠ 40%nat) then None else
  if bool_decide (script !! 0%nat = Some x0c) && bool_decide (script !! 1%nat = Some x21)
     && bool_decide (script !! 35%nat = Some x41)
     && bool_decide (le_val (drop 36 script) = verifyInteropID)
  then Some (take 33 (drop 2 script)) else None.

Definition IsSignatureContract (verifyInteropID : Z) (script : bytes) : bool :=
  bool_decide (is_Some (ParseSignatureContract verifyInteropID script)).

(** ** Lemmas *)

#[export] Instance PublicKey_inhabited : Inhabited PublicKey := populate Infinity.

Lemma PublicKey_Cmp_eq p k : PublicKey_Cmp p k = Eq ↔ p = k.
Proof.
  destruct p as [|x y], k as [|x' y']; cbn; try done.
  destruct (Z.compare_spec x x') as [->|Hx|Hx].
  - rewrite Z.compare_eq_iff. split; [by intros ->|by intros [= ->]].
  - split; [done|]. intros [= -> _]. lia.
  - split; [done|]. intros [= -> _]. lia.
Qed.

Lemma PublicKey_Equal_true p k : PublicKey_Equal p k = true ↔ p = k.
Proof. unfold PublicKey_Equal. rewrite bool_decide_eq_true. apply PublicKey_Cmp_eq. Qed.

(** A key that decoding can answer: infinity, or a point with reduced
    coordinates that decompression finds again. *)
Definition key_ok (c : Curve) (p : PublicKey) : Prop :=
  match p with
  | Infinity => True
  | Point x y => 0 <= x < cu_P c ∧ 0 <= y < cu_P c ∧ decodeCompressedY x (y mod 2) c = Some y
  end.

#[export] Instance key_ok_dec c p : Decision (key_ok c p).
Proof. destruct p; cbn; apply _. Defined.

Lemma be_val_enc n z : 0 <= z < 256 ^ Z.of_nat n → be_val (be_enc n z) = z.
Proof.
  intros Hz. unfold be_val, be_enc. by rewrite rev_involutive, le_val_enc, Z.mod_small.
Qed.

Lemma length_be_enc n z : length (be_enc n z) = n.
Proof. unfold be_enc. by rewrite length_rev, length_le_enc. Qed.

Lemma P256_bound x : 0 <= x < cu_P P256 → 0 <= x < 256 ^ Z.of_nat coordLen.
Proof.
  intros [Hx Hp]. split; [done|]. etrans; [exact Hp|]. vm_compute. reflexivity.
Qed.

Lemma length_getBytes p c : length (getBytes p c) = sizeSerialized p c.
Proof.
  destruct p as [|x y], c; cbn [getBytes sizeSerialized IsInfinity length]; [done|done| |];
    rewrite ?length_app, !length_be_enc; unfold coordLen; lia.
Qed.

(** Both forms of a valid key decode to the key. *)
Lemma key_roundtrip p (compressed : bool) :
  key_ok P256 p →
  (compressed = false → match p with Infinity => True | Point x y => IsOnCurve P256 x y = true end) →
  parses (PublicKey_DecodeBinary P256) p (getBytes p compressed).
Proof.
  intros Hok Hc rest. unfold PublicKey_DecodeBinary.
  destruct p as [|x y]; cbn [getBytes].
  { cbn [app]. rewrite ReadB_app. done. }
  destruct Hok as (Hx & Hy & Hd). pose proof (Z.mod_pos_bound y 2 ltac:(lia)).
  destruct compressed; cbn [app].
  - rewrite parses_B by lia. cbn [r_err]. rewrite (bool_decide_eq_false_2 (2 + y mod 2 = 0)) by lia.
    replace (bool_decide (2 + y mod 2 = 2) || bool_decide (2 + y mod 2 = 3)) with true
      by (symmetry; rewrite orb_true_iff, !bool_decide_eq_true; lia).
    rewrite parses_bytes by apply length_be_enc. cbn [r_err].
    rewrite be_val_enc by by apply P256_bound.
    replace ((2 + y mod 2) mod 2) with (y mod 2)
      by (rewrite Z.add_mod_idemp_r by lia; replace (2 + y) with (y + 1 * 2) by lia; by rewrite Z.mod_add by lia).
    rewrite Hd.
    by rewrite (bool_decide_eq_false_2 (cu_P P256 <= x)), (bool_decide_eq_false_2 (cu_P P256 <= y)) by lia.
  - rewrite ReadB_app. cbn [r_err]. rewrite <- app_assoc.
    change (b2z x04) with 4. rewrite !(bool_decide_eq_false_2 (4 = _)) by lia. cbn [orb].
    rewrite (bool_decide_eq_true_2 (4 = 4)) by done.
    rewrite parses_bytes by apply length_be_enc.
    rewrite parses_bytes by apply length_be_enc. cbn [r_err].
    rewrite !be_val_enc by by apply P256_bound. rewrite (Hc eq_refl).
    by rewrite (bool_decide_eq_false_2 (cu_P P256 <= x)), (bool_decide_eq_false_2 (cu_P P256 <= y)) by lia.
Qed.

#[export] Program Instance PublicKey_serializable_ok : SerializableOk PublicKey (key_ok P256) := {|
  enc_bytes := PublicKey_Bytes;
|}.
Next Obligation. intros p w _ Hw. by apply emits_bytes. Qed.
Next Obligation. intros p rest Hp. by apply (key_roundtrip p true). Qed.

(** A key is answered with reduced coordinates. *)
Lemma yields_key :
  yields (λ p, match p with Infinity => True | Point x y => x < cu_P P256 ∧ y < cu_P P256 end)
    (PublicKey_DecodeBinary P256).
Proof.
  intros r p r' E Hr. unfold PublicKey_DecodeBinary in E.
  destruct (ReadB r) as [prefix r1] eqn:E1.
  assert (r_err r1 = None → r_err r = None) as HB by (intros; by apply (yields_B r prefix r1)).
  destruct (r_err r1) eqn:Er1; [injection E as <- <-; congruence|]. split; [auto|].
  clear HB E1 Hr. cbv zeta in E.
  destruct (bool_decide (prefix = 0)); [by injection E as <- <-|].
  destruct (bool_decide (prefix = 2) || _).
  2: destruct (bool_decide (prefix = 4)); [|by injection E as <- <-].
  all: repeat first [destruct (ReadBytes coordLen _) as [? ?] | destruct (r_err _)
    | destruct (decodeCompressedY _ _ _) | destruct (IsOnCurve _ _ _)].
  all: try (by injection E as <- <-).
  all: destruct (_ || _) eqn:Hor in E; [by injection E as <- <-|]; injection E as <- <-;
    apply orb_false_elim in Hor as [?%bool_decide_eq_false ?%bool_decide_eq_false]; lia.
Qed.

(** The verification script of a finite key is parsed back. *)
Lemma signature_contract p :
  IsInfinity p = false →
  ParseSignatureContract 0x27b3e756 (GetVerificationScript false p) = Some (PublicKey_Bytes p).
Proof.
  intros Hp. unfold ParseSignatureContract, GetVerificationScript, PublicKey_Bytes.
  pose proof (length_getBytes p true) as Hl. revert Hl. unfold sizeSerialized. rewrite Hp.
  generalize (getBytes p true). intros k Hl. change (coordLen + 1)%nat with 33%nat in *.
  rewrite bool_decide_eq_false_2 by (cbn [length]; rewrite length_app, Hl; cbn; lia).
  rewrite !(lookup_cons_ne_0 _ _ 1%nat), !(lookup_cons_ne_0 _ _ 35%nat) by lia.
  cbn [Nat.pred]. rewrite (lookup_cons_ne_0 _ _ 34%nat) by lia. cbn [Nat.pred lookup list_lookup].
  rewrite lookup_app_r by lia. rewrite Hl. cbn [drop].
  rewrite drop_app_ge, drop_0 by lia. rewrite Hl, take_app_le, take_ge by lia.
  vm_compute. done.
Qed.
