(* ===== verification/Witness.v ===== *)
(** * Witness: signers, their scopes and the check of a witness

    Models the part of [pkg/core/transaction] that says what a signature of a
    transaction is good for: conditions ([witness_condition.go]), rules
    ([witness_rule.go]), scopes and their text form ([witness_scope.go]),
    signers ([signer.go]) and witnesses ([witness.go]); and the check itself,
    [CheckHashedWitness] of [pkg/core/interop/runtime/witness.go], with the
    impersonated accounts of the development node.

    An interface value of type [WitnessCondition] is an [option]: [None] is the
    nil that decoding leaves behind on an error. *)

From Stdlib Require Import Strings.String.
From stdpp Require Import pretty.
From S2P Require Import Prelude BinIO Codec Hash Keys Nanvil.

#[local] Open Scope Z_scope.

Definition maxSubitems : Z := 16.
Definition MaxConditionNesting : nat := 3.

(** ** Conditions *)

Inductive WitnessCondition :=
  | ConditionBoolean (b : bool)
  | ConditionNot (Condition : WitnessCondition)
  | ConditionAnd (cs : list WitnessCondition)
  | ConditionOr (cs : list WitnessCondition)
  | ConditionScriptHash (h : bytes)
  | ConditionGroup (k : PublicKey)
  | ConditionCalledByEntry
  | ConditionCalledByContract (h : bytes)
  | ConditionCalledByGroup (k : PublicKey).

Definition cond_Type (c : WitnessCondition) : Z :=
  match c with
  | ConditionBoolean _ => 0x00
  | ConditionNot _ => 0x01
  | ConditionAnd _ => 0x02
  | ConditionOr _ => 0x03
  | ConditionScriptHash _ => 0x18
  | ConditionGroup _ => 0x19
  | ConditionCalledByEntry => 0x20
  | ConditionCalledByContract _ => 0x28
  | ConditionCalledByGroup _ => 0x29
  end.

(** What the check asks of the execution engine. *)
Record MatchContext := mkMatchContext {
  GetCallingScriptHash : bytes;
  GetCurrentScriptHash : bytes;
  CallingScriptHasGroup : PublicKey → res string bool;
  CurrentScriptHasGroup : PublicKey → res string bool;
  IsCalledByEntry : bool;
}.

Section match_arrays.
Context (m : WitnessCondition → res string bool).

Fixpoint And_Match (cs : list WitnessCondition) : res string bool :=
  match cs with
  | [] => Ok true
  | cond :: cs => r ← m cond; if negb r then Ok false else And_Match cs
  end.

Fixpoint Or_Match (cs : list WitnessCondition) : res string bool :=
  match cs with
  | [] => Ok false
  | cond :: cs => r ← m cond; if (r : bool) then Ok true else Or_Match cs
  end.
End match_arrays.

Fixpoint Match (ctx : MatchContext) (c : WitnessCondition) : res string bool :=
  match c with
  | ConditionBoolean b => Ok b
  | ConditionNot c => r ← Match ctx c; Ok (negb r)
  | ConditionAnd cs => And_Match (Match ctx) cs
  | ConditionOr cs => Or_Match (Match ctx) cs
  | ConditionScriptHash h => Ok (bool_decide (h = GetCurrentScriptHash ctx))
  | ConditionGroup k => CurrentScriptHasGroup ctx k
  | ConditionCalledByEntry => Ok (IsCalledByEntry ctx)
  | ConditionCalledByContract h => Ok (bool_decide (h = GetCallingScriptHash ctx))
  | ConditionCalledByGroup k => CallingScriptHasGroup ctx k
  end.

(** [EncodeBinary] of every condition; [WriteArray] writes the length and the
    elements unless the writer has failed. *)
Fixpoint cond_EncodeBinary (c : WitnessCondition) (w : BinWriter) : BinWriter :=
  let w := WriteB (cond_Type c) w in
  match c with
  | ConditionBoolean b => WriteBool b w
  | ConditionNot c => cond_EncodeBinary c w
  | ConditionAnd cs | ConditionOr cs =>
      match w_err w with
      | Some _ => w
      | None => fold_left (λ w c, cond_EncodeBinary c w) cs (WriteVarUint (Z.of_nat (length cs)) w)
      end
  | ConditionScriptHash h | ConditionCalledByContract h => WriteBytes h w
  | ConditionGroup k | ConditionCalledByGroup k => PublicKey_EncodeBinary k w
  | ConditionCalledByEntry => w
  end.

Section decode.
(** The decoder of the conditions one level down. *)
Context (dec : BinReader → option WitnessCondition * BinReader).

Fixpoint read_conditions (l : nat) (r : BinReader) : list (option WitnessCondition) * BinReader :=
  match l with
  | O => ([], r)
  | S l =>
      let '(c, r) := dec r in
      let '(t, r) := read_conditions l r in (c :: t, r)
  end.

Definition readArrayOfConditions (r : BinReader) : list (option WitnessCondition) * BinReader :=
  let '(l, r) := ReadVarUint r in
  if bool_decide (l = 0) then ([], r_fail r (ErrOther "empty array of conditions")) else
  if bool_decide (maxSubitems < l) then ([], r_fail r (ErrOther "too many elements")) else
  let '(a, r) := read_conditions (Z.to_nat l) r in
  match r_err r with Some _ => ([], r) | None => (a, r) end.

(** [DecodeBinarySpecific] of the condition with the type [t]; the elements of
    an array that was read without error are not nil. *)
Definition DecodeBinarySpecific (t : Z) (r : BinReader) : option WitnessCondition * BinReader :=
  if bool_decide (t = 0x00) then
    let '(b, r) := ReadBool r in (Some (ConditionBoolean b), r)
  else if bool_decide (t = 0x01) then
    let '(c, r) := dec r in (ConditionNot <$> c, r)
  else if bool_decide (t = 0x02) then
    let '(a, r) := readArrayOfConditions r in (ConditionAnd <$> mapM id a, r)
  else if bool_decide (t = 0x03) then
    let '(a, r) := readArrayOfConditions r in (ConditionOr <$> mapM id a, r)
  else if bool_decide (t = 0x18) then
    let '(h, r) := ReadBytes Uint160Size r in (Some (ConditionScriptHash h), r)
  else if bool_decide (t = 0x19) then
    let '(k, r) := PublicKey_DecodeBinary P256 r in (Some (ConditionGroup k), r)
  else if bool_decide (t = 0x20) then (Some ConditionCalledByEntry, r)
  else if bool_decide (t = 0x28) then
    let '(h, r) := ReadBytes Uint160Size r in (Some (ConditionCalledByContract h), r)
  else if bool_decide (t = 0x29) then
    let '(k, r) := PublicKey_DecodeBinary P256 r in (Some (ConditionCalledByGroup k), r)
  else (None, r_fail r (ErrOther "invalid condition type")).
End decode.

Fixpoint decodeBinaryCondition (maxDepth : nat) (r : BinReader) : option WitnessCondition * BinReader :=
  match maxDepth with
  | O => (None, r_fail r (ErrOther "too many nesting levels"))
  | S depth =>
      let '(t, r) := ReadB r in
      match r_err r with Some _ => (None, r) | None =>
        let '(c, r) := DecodeBinarySpecific (decodeBinaryCondition depth) t r in
        match r_err r with Some _ => (None, r) | None => (c, r) end
      end
  end.

Definition DecodeBinaryCondition (r : BinReader) : option WitnessCondition * BinReader :=
  decodeBinaryCondition MaxConditionNesting r.

(** [Copy]; the copy of a negation shares what it negates, which a value does
    not show. *)
Fixpoint cond_Copy (c : WitnessCondition) : WitnessCondition :=
  match c with
  | ConditionAnd cs => ConditionAnd (map cond_Copy cs)
  | ConditionOr cs => ConditionOr (map cond_Copy cs)
  | c => c
  end.

(** ** Rules *)

Definition WitnessDeny : Z := 0.
Definition WitnessAllow : Z := 1.

Record WitnessRule := mkRule { wr_Action : Z; wr_Condition : option WitnessCondition }.

(** A rule without condition, which decoding leaves behind on an error, is
    never written: it would panic.  The failed writer stands for that. *)
Definition rule_EncodeBinary (w : WitnessRule) (bw : BinWriter) : BinWriter :=
  let bw := WriteB (wr_Action w) bw in
  match wr_Condition w with
  | Some c => cond_EncodeBinary c bw
  | None => mkWriter (w_buf bw) (Some (ErrOther "nil pointer dereference"))
  end.

Definition rule_DecodeBinary (br : BinReader) : WitnessRule * BinReader :=
  let '(action, br) := ReadB br in
  if bool_decide (r_err br = None) && bool_decide (action ≠ WitnessDeny) && bool_decide (action ≠ WitnessAllow)
  then (mkRule action None, r_fail br (ErrOther "unknown witness rule action")) else
  let '(c, br) := DecodeBinaryCondition br in (mkRule action c, br).

#[export] Instance rule_serializable : Serializable WitnessRule := {|
  EncodeBinary := rule_EncodeBinary;
  DecodeBinary := rule_DecodeBinary;
|}.

(** ** Scopes *)

Definition ScopeNone : Z := 0x00.
Definition ScopeCalledByEntry : Z := 0x01.
Definition CustomContracts : Z := 0x10.
Definition CustomGroups : Z := 0x20.
Definition Rules : Z := 0x40.
Definition Global : Z := 0x80.

(** [a & b != 0] on bytes. *)
Definition has_bits (a b : Z) : bool := bool_decide (Z.land a b ≠ 0).

Definition known_scopes : Z :=
  Z.lor Global (Z.lor ScopeCalledByEntry (Z.lor CustomContracts (Z.lor CustomGroups Rules))).

Definition ScopesFromByte (b : Z) : res string Z :=
  if has_bits b Global && has_bits b (Z.lor ScopeCalledByEntry (Z.lor CustomContracts (Z.lor CustomGroups Rules)))
  then Err "'Global' scope can not be combined with other scopes"%string
  else if bool_decide (Z.ldiff b known_scopes ≠ 0) then Err "invalid scope"%string
  else Ok b.

(** The bytes of a string constant. *)
Definition str (s : string) : bytes := String.list_byte_of_string s.

(** The names that [String] gives to the single scopes. *)
Definition scope_names : list (bytes * Z) :=
  [ (str "None", ScopeNone);
    (str "CalledByEntry", ScopeCalledByEntry);
    (str "CustomContracts", CustomContracts);
    (str "CustomGroups", CustomGroups);
    (str "WitnessRules", Rules);
    (str "Global", Global) ].

Definition scope_of_name (s : bytes) : option Z :=
  match list_find (λ p, p.1 = s) scope_names with Some (_, p) => Some p.2 | None => None end.

Definition name_of_scope (s : Z) : bytes :=
  match list_find (λ p, p.2 = s) scope_names with
  | Some (_, p) => p.1
  | None => str "WitnessScope(" ++ str (pretty s) ++ str ")"
  end.

(** [strings.TrimSpace]: the encodings of the characters that are white space. *)
Definition white_space : list bytes :=
  [[x09]; [x0a]; [x0b]; [x0c]; [x0d]; [x20]; [xc2; x85]; [xc2; xa0]; [xe1; x9a; x80]]
  ++ map (λ b, [xe2; x80; b])
       [x80; x81; x82; x83; x84; x85; x86; x87; x88; x89; x8a; xa8; xa9; xaf]
  ++ [[xe2; x81; x9f]; [xe3; x80; x80]].

Fixpoint trim_with (spaces : list bytes) (fuel : nat) (s : bytes) : bytes :=
  match fuel with
  | O => s
  | S fuel =>
      match list_find (λ p, has_prefix s p = true) spaces with
      | Some (_, p) => trim_with spaces fuel (drop (length p) s)
      | None => s
      end
  end.

Definition TrimSpace (s : bytes) : bytes :=
  let s := trim_with white_space (length s) s in
  rev (trim_with (map (@rev byte) white_space) (length s) (rev s)).

(** [strings.SplitSeq] at a comma. *)
Fixpoint split_comma (cur s : bytes) : list bytes :=
  match s with
  | [] => [rev cur]
  | b :: s => if bool_decide (b = x2c) then rev cur :: split_comma [] s else split_comma (b :: cur) s
  end.

Fixpoint scopes_loop (parts : list bytes) (isGlobal : bool) (result : Z) : res string Z :=
  match parts with
  | [] => Ok result
  | part :: parts =>
      match scope_of_name (TrimSpace part) with
      | None => Err "invalid witness scope"%string
      | Some scope =>
          if isGlobal && bool_decide (scope ≠ Global)
          then Err "'Global' scope can not be combined with other scopes"%string
          else scopes_loop parts (isGlobal || bool_decide (scope = Global)) (Z.lor result scope)
      end
  end.

Definition ScopesFromString (s : bytes) : res string Z := scopes_loop (split_comma [] s) false 0.

Definition appendScopeString (str : bytes) (scopes scope : Z) : bytes :=
  if has_bits scopes scope then
    (if bool_decide (str = []) then str else str ++ [x2c; x20]) ++ name_of_scope scope
  else str.

Definition scopesToString (scopes : Z) : bytes :=
  if has_bits scopes Global || bool_decide (scopes = ScopeNone) then name_of_scope scopes else
  let res := appendScopeString [] scopes ScopeCalledByEntry in
  let res := appendScopeString res scopes CustomContracts in
  let res := appendScopeString res scopes CustomGroups in
  appendScopeString res scopes Rules.

(** ** Signers *)

Record Signer := mkSigner {
  sg_Account : bytes;
  sg_Scopes : Z;
  sg_AllowedContracts : list bytes;
  sg_AllowedGroups : list PublicKey;
  sg_Rules : list WitnessRule;
}.

(** [util.Uint160] *)
#[export] Instance Uint160_serializable : Serializable bytes := {|
  EncodeBinary h w := WriteBytes h w;
  DecodeBinary r := ReadBytes Uint160Size r;
|}.

(** A field is written if its scope is there. *)
Definition write_allowed {A} `{!Serializable A} (scopes scope : Z) (l : list A) (w : BinWriter) : BinWriter :=
  if has_bits scopes scope then WriteArray l w else w.

Definition signer_EncodeBinary (c : Signer) (bw : BinWriter) : BinWriter :=
  let bw := WriteBytes (sg_Account c) bw in
  let bw := WriteB (sg_Scopes c) bw in
  let bw := write_allowed (sg_Scopes c) CustomContracts (sg_AllowedContracts c) bw in
  let bw := write_allowed (sg_Scopes c) CustomGroups (sg_AllowedGroups c) bw in
  write_allowed (sg_Scopes c) Rules (sg_Rules c) bw.

(** A field of a new signer, read if its scope is there. *)
Definition read_allowed {A} `{!Serializable A} (scopes scope : Z) (r : BinReader) : list A * BinReader :=
  if has_bits scopes scope
  then let '(a, r) := ReadArray maxSubitems r in (default [] a, r)
  else ([], r).

Definition signer_DecodeBinary (br : BinReader) : Signer * BinReader :=
  let '(account, br) := ReadBytes Uint160Size br in
  let '(scopes, br) := ReadB br in
  if bool_decide (Z.ldiff scopes known_scopes ≠ 0)
  then (mkSigner account scopes [] [] [], r_fail br (ErrOther "unknown witness scope")) else
  if has_bits scopes Global && bool_decide (scopes ≠ Global)
  then (mkSigner account scopes [] [] [], r_fail br (ErrOther "global scope can not be combined with other scopes")) else
  let '(contracts, br) := read_allowed scopes CustomContracts br in
  let '(groups, br) := read_allowed scopes CustomGroups br in
  let '(rules, br) := read_allowed scopes Rules br in
  (mkSigner account scopes contracts groups rules, br).

#[export] Instance signer_serializable : Serializable Signer := {|
  EncodeBinary := signer_EncodeBinary;
  DecodeBinary := signer_DecodeBinary;
|}.

(** ** Witnesses *)

Definition MaxInvocationScript : Z := 1024.
Definition MaxVerificationScript : Z := 1024.

Record Witness := mkWitness { InvocationScript : bytes; VerificationScript : bytes }.

Definition witness_EncodeBinary (w : Witness) (bw : BinWriter) : BinWriter :=
  WriteVarBytes (VerificationScript w) (WriteVarBytes (InvocationScript w) bw).

Definition witness_DecodeBinary (br : BinReader) : Witness * BinReader :=
  let '(i, br) := ReadVarBytes MaxInvocationScript br in
  let '(v, br) := ReadVarBytes MaxVerificationScript br in
  (mkWitness (default [] i) (default [] v), br).

Definition ScriptHash `{Digest} (w : Witness) : bytes := Hash160 (VerificationScript w).

Definition witness_FromBytes (b : bytes) : res ioerr Witness :=
  let '(w, buf) := witness_DecodeBinary (NewBinReaderFromBuf b) in
  match r_err buf with Some e => Err e | None => Ok w end.

#[export] Instance witness_serializable : Serializable Witness := {|
  EncodeBinary := witness_EncodeBinary;
  DecodeBinary := witness_DecodeBinary;
|}.

(** ** The check of a witness

    What the check reads of the interop context: the hashes and flags of the
    running context, the groups of deployed contracts, the signers of the
    transaction and the registry of impersonated accounts. *)
Record WitnessEnv := mkWitnessEnv {
  we_calling : bytes;
  we_current : bytes;
  we_calledByEntry : bool;
  we_readStates : bool;
  we_contract : bytes → option (list PublicKey);
  we_signers : list Signer;
  we_registry : Registry;
}.

Definition getContractGroups (ic : WitnessEnv) (h : bytes) : res string (list PublicKey) :=
  if negb (we_readStates ic) then Err "missing ReadStates call flag"%string
  else Ok (default [] (we_contract ic h)).

Definition checkScriptGroups (ic : WitnessEnv) (h : bytes) (k : PublicKey) : res string bool :=
  groups ← getContractGroups ic h; Ok (PublicKeys_Contains groups k).

(** [scopeContext] *)
Definition scopeContext (ic : WitnessEnv) : MatchContext := {|
  GetCallingScriptHash := we_calling ic;
  GetCurrentScriptHash := we_current ic;
  CallingScriptHasGroup := checkScriptGroups ic (we_calling ic);
  CurrentScriptHasGroup := checkScriptGroups ic (we_current ic);
  IsCalledByEntry := we_calledByEntry ic;
|}.

(** The first rule whose condition holds decides. *)
Fixpoint check_rules (ctx : MatchContext) (rules : list WitnessRule) : res string bool :=
  match rules with
  | [] => Ok false
  | r :: rules =>
      match wr_Condition r with
      | None => Panic
      | Some c =>
          b ← Match ctx c;
          if (b : bool) then Ok (bool_decide (wr_Action r = WitnessAllow)) else check_rules ctx rules
      end
  end.

Definition check_signer (ic : WitnessEnv) (c : Signer) : res string bool :=
  if rg_enabled (we_registry ic) && IsImpersonated (we_registry ic) (sg_Account c) then Ok true else
  if bool_decide (sg_Scopes c = Global) then Ok true else
  if has_bits (sg_Scopes c) ScopeCalledByEntry && we_calledByEntry ic then Ok true else
  if has_bits (sg_Scopes c) CustomContracts && bool_decide (we_current ic ∈ sg_AllowedContracts c)
  then Ok true else
  g ← (if has_bits (sg_Scopes c) CustomGroups
       then groups ← getContractGroups ic (we_current ic);
            Ok (existsb (PublicKeys_Contains groups) (sg_AllowedGroups c))
       else Ok false);
  if (g : bool) then Ok true else
  if has_bits (sg_Scopes c) Rules then check_rules (scopeContext ic) (sg_Rules c) else Ok false.

Definition checkScope (ic : WitnessEnv) (hash : bytes) : res string bool :=
  if bool_decide (we_signers ic = []) then Err "no valid signers"%string else
  match list_find (λ c, sg_Account c = hash) (we_signers ic) with
  | Some (_, c) => check_signer ic c
  | None => Ok false
  end.

Definition CheckHashedWitness (ic : WitnessEnv) (hash : bytes) : res string bool :=
  if bool_decide (we_calling ic ≠ replicate Uint160Size x00) && bool_decide (hash = we_calling ic)
  then Ok true else checkScope ic hash.

Definition CheckKeyedWitness `{Digest} (ic : WitnessEnv) (neo2 : bool) (key : PublicKey) : res string bool :=
  CheckHashedWitness ic (GetScriptHash neo2 key).

(** [CheckWitness] of what was popped; a hash is tried before a key. *)
Definition CheckWitness `{Digest} (ic : WitnessEnv) (neo2 : bool) (hashOrKey : bytes) : res string bool :=
  if bool_decide (length hashOrKey = Uint160Size) then
    CheckHashedWitness ic hashOrKey
  else
    match PublicKey_DecodeBytes P256 hashOrKey with
    | Ok key => CheckKeyedWitness ic neo2 key
    | Err _ => Err "parameter given is neither a key nor a hash"%string
    | Panic => Panic
    end.

(** ** Round trips

    [cond_ok K d c]: the condition [c] fits in [d] levels and its parts have
    the sizes the decoder allows; [K] is asked of its keys. *)
Fixpoint cond_ok (K : PublicKey → Prop) (d : nat) (c : WitnessCondition) : Prop :=
  match d with
  | O => False
  | S d =>
      match c with
      | ConditionBoolean _ | ConditionCalledByEntry => True
      | ConditionNot c => cond_ok K d c
      | ConditionAnd cs | ConditionOr cs =>
          1 <= Z.of_nat (length cs) <= maxSubitems ∧ Forall (cond_ok K d) cs
      | ConditionScriptHash h | ConditionCalledByContract h => length h = Uint160Size
      | ConditionGroup k | ConditionCalledByGroup k => K k
      end
  end.

Fixpoint cond_bytes (c : WitnessCondition) : bytes :=
  z2b (cond_Type c) ::
  match c with
  | ConditionBoolean b => [z2b (if b then 1 else 0)]
  | ConditionNot c => cond_bytes c
  | ConditionAnd cs | ConditionOr cs =>
      PutVarUint (Z.of_nat (length cs)) ++ concat (map cond_bytes cs)
  | ConditionScriptHash h | ConditionCalledByContract h => h
  | ConditionGroup k | ConditionCalledByGroup k => PublicKey_Bytes k
  | ConditionCalledByEntry => []
  end.

Lemma emits_fold {A} (f : A → BinWriter → BinWriter) (b : A → bytes) l :
  Forall (λ a, emits (f a) (b a)) l → emits (λ w, fold_left (λ w a, f a w) l w) (concat (map b l)).
Proof.
  induction 1 as [|a l Ha Hl IH]; cbn; [apply emits_nil|].
  intros w Hw. rewrite (Ha w Hw), IH by done. cbn. by rewrite app_assoc.
Qed.

Lemma cond_emits K d c : cond_ok K d c → emits (cond_EncodeBinary c) (cond_bytes c).
Proof.
  revert c. induction d as [|d IH]; intros c; [done|].
  assert (∀ cs, Forall (cond_ok K d) cs → ∀ t w, w_err w = None →
    match w_err (WriteB t w) with Some _ => WriteB t w | None =>
      fold_left (λ w c, cond_EncodeBinary c w) cs (WriteVarUint (Z.of_nat (length cs)) (WriteB t w)) end
    = mkWriter (w_buf w ++ z2b t :: PutVarUint (Z.of_nat (length cs)) ++ concat (map cond_bytes cs)) None)
    as Hcs.
  { intros cs Hcs t w Hw. rewrite (emits_B t w Hw). cbn [w_err].
    rewrite (emits_varuint _ (mkWriter _ None)) by done.
    rewrite (emits_fold cond_EncodeBinary cond_bytes) by (try done; eapply Forall_impl; eauto).
    cbn [w_buf]. by rewrite <- !app_assoc. }
  destruct c; cbn [cond_ok cond_EncodeBinary cond_bytes]; intros Hc w Hw; try (by apply Hcs, Hw; apply Hc);
    rewrite (emits_B _ w Hw); try done.
  - unfold WriteBool. rewrite emits_B by done. cbn. by rewrite <- app_assoc.
  - rewrite (IH _ Hc) by done. cbn. by rewrite <- app_assoc.
  - rewrite emits_bytes by done. cbn. by rewrite <- app_assoc.
  - unfold PublicKey_EncodeBinary. rewrite emits_bytes by done. cbn. by rewrite <- app_assoc.
  - rewrite emits_bytes by done. cbn. by rewrite <- app_assoc.
  - unfold PublicKey_EncodeBinary. rewrite emits_bytes by done. cbn. by rewrite <- app_assoc.
Qed.

Lemma read_conditions_parses dec cs :
  Forall (λ c, parses dec (Some c) (cond_bytes c)) cs →
  ∀ rest, read_conditions dec (length cs) (mkReader (concat (map cond_bytes cs) ++ rest) None)
    = (map Some cs, mkReader rest None).
Proof.
  induction 1 as [|c cs Hc Hcs IH]; intros rest; cbn; [done|].
  rewrite <- app_assoc, (Hc _), IH. done.
Qed.

Lemma readArray_parses dec cs :
  1 <= Z.of_nat (length cs) <= maxSubitems →
  Forall (λ c, parses dec (Some c) (cond_bytes c)) cs →
  ∀ rest, readArrayOfConditions dec
      (mkReader ((PutVarUint (Z.of_nat (length cs)) ++ concat (map cond_bytes cs)) ++ rest) None)
    = (map Some cs, mkReader rest None).
Proof.
  unfold maxSubitems. intros Hl Hcs rest. unfold readArrayOfConditions.
  rewrite <- app_assoc, ReadVarUint_app by lia.
  rewrite !bool_decide_eq_false_2 by (unfold maxSubitems; lia).
  by rewrite Nat2Z.id, read_conditions_parses.
Qed.

Lemma cond_parses d c :
  cond_ok (key_ok P256) d c → parses (decodeBinaryCondition d) (Some c) (cond_bytes c).
Proof.
  revert c. induction d as [|d IH]; intros c; [done|]. intros Hc rest.
  cbn [decodeBinaryCondition].
  destruct c; cbn [cond_ok] in Hc; cbn [cond_bytes app]; rewrite parses_B by (cbn; lia);
    cbn [r_err cond_Type]; unfold DecodeBinarySpecific;
    repeat rewrite (bool_decide_eq_false_2 (_ = _)) by lia;
    rewrite (bool_decide_eq_true_2 (_ = _)) by done.
  - by rewrite parses_bool.
  - by rewrite (IH _ Hc).
  - destruct Hc as [Hl Hcs]. rewrite readArray_parses by (try done; eapply Forall_impl; eauto).
    cbn [r_err]. by rewrite mapM_id_Some.
  - destruct Hc as [Hl Hcs]. rewrite readArray_parses by (try done; eapply Forall_impl; eauto).
    cbn [r_err]. by rewrite mapM_id_Some.
  - by rewrite parses_bytes.
  - rewrite (key_roundtrip k true) by done. done.
  - done.
  - by rewrite parses_bytes.
  - rewrite (key_roundtrip k true) by done. done.
Qed.

(** A key with reduced coordinates, which is what decoding promises. *)
Definition key_reduced (p : PublicKey) : Prop :=
  match p with Infinity => True | Point x y => x < cu_P P256 ∧ y < cu_P P256 end.

Lemma read_conditions_yields dec P l :
  yields (λ o : option WitnessCondition, ∃ c, o = Some c ∧ P c) dec →
  yields (λ a, ∃ cs, a = map Some cs ∧ length cs = l ∧ Forall P cs) (read_conditions dec l).
Proof.
  intros Hd. induction l as [|l IH]; intros r a r' E Hr; cbn in E.
  { injection E as <- <-. split; [done|]. by exists []. }
  destruct (dec r) as [o r1] eqn:E1. destruct (read_conditions dec l r1) as [t r2] eqn:E2.
  injection E as <- <-. destruct (IH _ _ _ E2 Hr) as (Hr1 & cs & -> & <- & Hcs).
  destruct (Hd _ _ _ E1 Hr1) as (Hr0 & c & -> & Hc). split; [done|].
  exists (c :: cs). split; [done|]. split; [done|]. by constructor.
Qed.

Lemma readArray_yields dec P :
  yields (λ o : option WitnessCondition, ∃ c, o = Some c ∧ P c) dec →
  yields (λ a, ∃ cs, a = map Some cs ∧ 1 <= Z.of_nat (length cs) <= maxSubitems ∧ Forall P cs)
    (readArrayOfConditions dec).
Proof.
  intros Hd r a r' E Hr. unfold readArrayOfConditions in E.
  destruct (ReadVarUint r) as [l r1] eqn:E1.
  destruct (decide (l = 0)) as [->|Hl]; [by injection E as <- <-|].
  rewrite (bool_decide_eq_false_2 (l = 0)) in E by done.
  destruct (decide (maxSubitems < l)) as [Hm|Hm].
  { rewrite bool_decide_eq_true_2 in E by done. by injection E as <- <-. }
  rewrite bool_decide_eq_false_2 in E by done.
  destruct (read_conditions dec (Z.to_nat l) r1) as [t r2] eqn:E2.
  destruct (r_err r2) eqn:Er2; injection E as <- <-; [congruence|].
  destruct (read_conditions_yields _ _ _ Hd _ _ _ E2 Er2) as (Hr1 & cs & -> & Hlen & Hcs).
  destruct (yields_varuint _ _ _ E1 Hr1) as [Hr0 Hrange]. split; [done|].
  exists cs. split; [done|]. split; [|done]. lia.
Qed.

Lemma cond_yields d :
  yields (λ o, ∃ c, o = Some c ∧ cond_ok key_reduced d c) (decodeBinaryCondition d).
Proof.
  induction d as [|d IH]; intros r o r' E Hr; cbn [decodeBinaryCondition] in E.
  { by injection E as <- <-. }
  destruct (ReadB r) as [t r1] eqn:E1.
  destruct (r_err r1) eqn:Er1; [injection E as <- <-; congruence|].
  split; [by apply (yields_B r t r1)|]. clear E1.
  destruct (DecodeBinarySpecific (decodeBinaryCondition d) t r1) as [c r2] eqn:E2.
  destruct (r_err r2) eqn:Er2; injection E as <- <-; [congruence|].
  unfold DecodeBinarySpecific in E2. revert E2.
  destruct (bool_decide (t = 0x00)).
  { destruct (ReadBool r1). intros [= <- <-]. by eexists. }
  destruct (bool_decide (t = 0x01)).
  { destruct (decodeBinaryCondition d r1) as [o' r3] eqn:E3. intros [= <- <-].
    destruct (IH _ _ _ E3 Er2) as (_ & c' & -> & Hc). by eexists. }
  destruct (bool_decide (t = 0x02)).
  { destruct (readArrayOfConditions (decodeBinaryCondition d) r1) as [a r3] eqn:E3. intros [= <- <-].
    destruct (readArray_yields _ _ IH _ _ _ E3 Er2) as (_ & cs & -> & Hcs).
    rewrite mapM_id_Some. by eexists. }
  destruct (bool_decide (t = 0x03)).
  { destruct (readArrayOfConditions (decodeBinaryCondition d) r1) as [a r3] eqn:E3. intros [= <- <-].
    destruct (readArray_yields _ _ IH _ _ _ E3 Er2) as (_ & cs & -> & Hcs).
    rewrite mapM_id_Some. by eexists. }
  destruct (bool_decide (t = 0x18)).
  { destruct (ReadBytes Uint160Size r1) as [h r3] eqn:E3. intros [= <- <-].
    destruct (yields_bytes _ _ _ _ E3 Er2). by eexists. }
  destruct (bool_decide (t = 0x19)).
  { destruct (PublicKey_DecodeBinary P256 r1) as [k r3] eqn:E3. intros [= <- <-].
    destruct (yields_key _ _ _ E3 Er2). by eexists. }
  destruct (bool_decide (t = 0x20)).
  { intros [= <- <-]. by eexists. }
  destruct (bool_decide (t = 0x28)).
  { destruct (ReadBytes Uint160Size r1) as [h r3] eqn:E3. intros [= <- <-].
    destruct (yields_bytes _ _ _ _ E3 Er2). by eexists. }
  destruct (bool_decide (t = 0x29)); [|by intros [= <- <-]].
  destruct (PublicKey_DecodeBinary P256 r1) as [k r3] eqn:E3. intros [= <- <-].
  destruct (yields_key _ _ _ E3 Er2). by eexists.
Qed.

#[local] Arguments cond_ok : simpl never.
#[local] Arguments decodeBinaryCondition : simpl never.
#[local] Arguments cond_bytes : simpl never.

(** ** Rules and signers *)

Definition rule_ok (K : PublicKey → Prop) (w : WitnessRule) : Prop :=
  (wr_Action w = WitnessDeny ∨ wr_Action w = WitnessAllow) ∧
  ∃ c, wr_Condition w = Some c ∧ cond_ok K MaxConditionNesting c.

Definition rule_bytes (w : WitnessRule) : bytes :=
  z2b (wr_Action w) :: from_option cond_bytes [] (wr_Condition w).

#[export] Program Instance rule_serializable_ok : SerializableOk WitnessRule (rule_ok (key_ok P256)) := {|
  enc_bytes := rule_bytes;
|}.
Next Obligation.
  intros [a o] w (_ & c & [= ->] & Hc) Hw. cbn. unfold rule_EncodeBinary. cbn.
  rewrite emits_B by done. rewrite (cond_emits _ _ _ Hc) by done. cbn. by rewrite <- app_assoc.
Qed.
Next Obligation.
  intros [a o] rest (Ha & c & [= ->] & Hc). cbn in *. unfold rule_DecodeBinary, rule_bytes.
  unfold WitnessDeny, WitnessAllow in *. cbn. rewrite parses_B by lia.
  replace (bool_decide (r_err (mkReader (cond_bytes c ++ rest) None) = None) && bool_decide (a ≠ 0)
    && bool_decide (a ≠ 1)) with false.
  2: { destruct Ha as [-> | ->]; cbn; by rewrite ?andb_false_r. }
  unfold DecodeBinaryCondition. rewrite (cond_parses _ _ Hc). done.
Qed.

Lemma rule_yields : yields (rule_ok key_reduced) rule_DecodeBinary.
Proof.
  intros r w r' E Hr. unfold rule_DecodeBinary in E. destruct (ReadB r) as [a r1] eqn:E1.
  destruct (bool_decide (r_err r1 = None) && bool_decide (a ≠ WitnessDeny) && bool_decide (a ≠ WitnessAllow)) eqn:Ea.
  { injection E as <- <-. done. }
  destruct (DecodeBinaryCondition r1) as [c r2] eqn:E2. injection E as <- <-.
  destruct (cond_yields _ _ _ _ E2 Hr) as (Hr1 & c' & -> & Hc).
  destruct (yields_B _ _ _ E1 Hr1) as [Hr0 _]. split; [done|]. split; [|by eexists].
  rewrite Hr1 in Ea. cbn [wr_Action]. destruct (decide (a = WitnessDeny)); [by left|].
  destruct (decide (a = WitnessAllow)); [by right|].
  by rewrite !bool_decide_eq_true_2 in Ea.
Qed.

#[export] Program Instance Uint160_serializable_ok :
  SerializableOk bytes (λ h, length h = Uint160Size) := {| enc_bytes h := h |}.
Next Obligation. intros h w _ Hw. by apply emits_bytes. Qed.
Next Obligation. intros h rest Hh. by apply parses_bytes. Qed.

(** A field is there when its scope is, and empty otherwise. *)
Definition field_ok {A} (P : A → Prop) (scopes scope : Z) (l : list A) : Prop :=
  if has_bits scopes scope then Forall P l ∧ Z.of_nat (length l) <= maxSubitems else l = [].

Definition signer_ok (K : PublicKey → Prop) (c : Signer) : Prop :=
  length (sg_Account c) = Uint160Size ∧ 0 <= sg_Scopes c < 256 ∧
  Z.ldiff (sg_Scopes c) known_scopes = 0 ∧
  (has_bits (sg_Scopes c) Global = true → sg_Scopes c = Global) ∧
  field_ok (λ h, length h = Uint160Size) (sg_Scopes c) CustomContracts (sg_AllowedContracts c) ∧
  field_ok K (sg_Scopes c) CustomGroups (sg_AllowedGroups c) ∧
  field_ok (rule_ok K) (sg_Scopes c) Rules (sg_Rules c).

Section fields.
Context {A : Type} `{HS : !Serializable A} {ok : A → Prop} `{HO : !SerializableOk A ok}.

Definition field_bytes (scopes scope : Z) (l : list A) : bytes :=
  if has_bits scopes scope then array_bytes l else [].

Lemma field_emits scopes scope l :
  field_ok ok scopes scope l → emits (write_allowed scopes scope l) (field_bytes scopes scope l).
Proof.
  intros Hl. apply emits_if. intros Hb. unfold field_ok in Hl. rewrite Hb in Hl.
  destruct Hl. by apply emits_array.
Qed.

Lemma field_parses scopes scope l :
  field_ok ok scopes scope l → parses (read_allowed scopes scope) l (field_bytes scopes scope l).
Proof.
  unfold field_ok, field_bytes, read_allowed. intros Hl rest. destruct (has_bits scopes scope).
  - destruct Hl as [Hl Hn]. rewrite (parses_array (HO := HO)) by (done || (unfold maxSubitems in *; lia)).
    done.
  - by rewrite Hl.
Qed.

Lemma field_yields P scopes scope :
  yields P DecodeBinary → yields (field_ok P scopes scope) (read_allowed (A := A) scopes scope).
Proof.
  intros HP r l r' E Hr. unfold read_allowed in E. unfold field_ok.
  destruct (has_bits scopes scope); [|by injection E as <- <-].
  destruct (ReadArray maxSubitems r) as [a r1] eqn:E1. injection E as <- <-.
  destruct (yields_array P maxSubitems ltac:(unfold maxSubitems; lia) HP _ _ _ E1 Hr) as (Hr0 & l' & -> & Hl).
  done.
Qed.
End fields.

Definition signer_bytes (c : Signer) : bytes :=
  sg_Account c ++ z2b (sg_Scopes c) :: field_bytes (sg_Scopes c) CustomContracts (sg_AllowedContracts c)
    ++ field_bytes (sg_Scopes c) CustomGroups (sg_AllowedGroups c)
    ++ field_bytes (sg_Scopes c) Rules (sg_Rules c).

#[export] Program Instance signer_serializable_ok : SerializableOk Signer (signer_ok (key_ok P256)) := {|
  enc_bytes := signer_bytes;
|}.
Next Obligation.
  intros c w (Ha & Hs & _ & _ & Hc & Hg & Hr) Hw. cbn. unfold signer_EncodeBinary, signer_bytes.
  rewrite (emits_bytes _ w Hw), emits_B by done.
  rewrite (field_emits _ _ _ Hc), (field_emits _ _ _ Hg), (field_emits _ _ _ Hr) by done. cbn [w_buf]. by rewrite <- !app_assoc.
Qed.
Next Obligation.
  intros c rest (Ha & Hs & Hk & Hgl & Hc & Hg & Hr). cbn. unfold signer_DecodeBinary, signer_bytes.
  rewrite <- app_assoc, parses_bytes by done. cbn [app]. rewrite parses_B by done.
  rewrite (bool_decide_eq_false_2 (Z.ldiff _ _ ≠ 0)) by lia.
  replace (has_bits (sg_Scopes c) Global && bool_decide (sg_Scopes c ≠ Global)) with false.
  2: { destruct (has_bits (sg_Scopes c) Global); [|done]. cbn. by rewrite bool_decide_eq_false_2 by auto. }
  rewrite <- !app_assoc, (field_parses _ _ _ Hc), (field_parses _ _ _ Hg), (field_parses _ _ _ Hr).
  by destruct c.
Qed.

Lemma signer_yields : yields (signer_ok key_reduced) signer_DecodeBinary.
Proof.
  intros r c r' E Hr. unfold signer_DecodeBinary in E.
  destruct (ReadBytes Uint160Size r) as [a r1] eqn:E1. destruct (ReadB r1) as [s r2] eqn:E2.
  destruct (decide (Z.ldiff s known_scopes = 0)) as [Hk|Hk].
  2: { rewrite bool_decide_eq_true_2 in E by done. by injection E as <- <-. }
  rewrite (bool_decide_eq_false_2 (Z.ldiff _ _ ≠ 0)) in E by auto.
  destruct (has_bits s Global && bool_decide (s ≠ Global)) eqn:Hg; [by injection E as <- <-|].
  destruct (read_allowed s CustomContracts r2) as [cs r3] eqn:E3.
  destruct (read_allowed s CustomGroups r3) as [gs r4] eqn:E4.
  destruct (read_allowed s Rules r4) as [rs r5] eqn:E5. injection E as <- <-.
  destruct (field_yields (HS := rule_serializable) (rule_ok key_reduced) s Rules rule_yields _ _ _ E5 Hr) as [Hr4 H5].
  destruct (field_yields (HS := PublicKey_serializable) key_reduced s CustomGroups yields_key _ _ _ E4 Hr4) as [Hr3 H4].
  destruct (field_yields (HS := Uint160_serializable) (λ h, length h = Uint160Size) s CustomContracts (yields_bytes _) _ _ _ E3 Hr3) as [Hr2 H3].
  destruct (yields_B _ _ _ E2 Hr2) as [Hr1 Hs]. destruct (yields_bytes _ _ _ _ E1 Hr1) as [Hr0 Ha].
  split; [done|]. unfold signer_ok. cbn. split_and!; try done; try lia.
  intros Hg'. rewrite Hg' in Hg. cbn in Hg. apply bool_decide_eq_false in Hg.
  destruct (decide (s = Global)); [done|]. by destruct Hg.
Qed.

(** ** What a condition says

    [holds] is the truth value of a condition; [Match] computes it, lazily from
    left to right, and can only fail where it needs the groups of a contract
    without the right to read the state. *)
Definition groups_of (ic : WitnessEnv) (h : bytes) : list PublicKey := default [] (we_contract ic h).

Fixpoint holds (ic : WitnessEnv) (c : WitnessCondition) : bool :=
  match c with
  | ConditionBoolean b => b
  | ConditionNot c => negb (holds ic c)
  | ConditionAnd cs => forallb (holds ic) cs
  | ConditionOr cs => existsb (holds ic) cs
  | ConditionScriptHash h => bool_decide (h = we_current ic)
  | ConditionGroup k => bool_decide (k ∈ groups_of ic (we_current ic))
  | ConditionCalledByEntry => we_calledByEntry ic
  | ConditionCalledByContract h => bool_decide (h = we_calling ic)
  | ConditionCalledByGroup k => bool_decide (k ∈ groups_of ic (we_calling ic))
  end.

Section condition_ind.
Context (P : WitnessCondition → Prop).
Context (Hbool : ∀ b, P (ConditionBoolean b)) (Hnot : ∀ c, P c → P (ConditionNot c)).
Context (Hand : ∀ cs, Forall P cs → P (ConditionAnd cs)) (Hor : ∀ cs, Forall P cs → P (ConditionOr cs)).
Context (Hsh : ∀ h, P (ConditionScriptHash h)) (Hgr : ∀ k, P (ConditionGroup k)).
Context (Hent : P ConditionCalledByEntry) (Hco : ∀ h, P (ConditionCalledByContract h)).
Context (Hcg : ∀ k, P (ConditionCalledByGroup k)).

Fixpoint condition_ind' (c : WitnessCondition) : P c :=
  let all := fix all cs : Forall P cs :=
    match cs with [] => Forall_nil_2 P | c :: cs => Forall_cons_2 P c cs (condition_ind' c) (all cs) end in
  match c with
  | ConditionBoolean b => Hbool b
  | ConditionNot c => Hnot c (condition_ind' c)
  | ConditionAnd cs => Hand cs (all cs)
  | ConditionOr cs => Hor cs (all cs)
  | ConditionScriptHash h => Hsh h
  | ConditionGroup k => Hgr k
  | ConditionCalledByEntry => Hent
  | ConditionCalledByContract h => Hco h
  | ConditionCalledByGroup k => Hcg k
  end.
End condition_ind.

(** [decides rs r b]: the result [r] is [b] or, without the right to read the
    state ([rs] is false), an error. *)
Definition decides (rs : bool) (r : res string bool) (b : bool) : Prop :=
  r = Ok b ∨ rs = false ∧ ∃ e, r = Err e.

Lemma decides_bind rs r b f b' :
  decides rs r b → decides rs (f b) b' → decides rs (r ≫= f) b'.
Proof. intros [->|(-> & e & ->)] Hf; [done|]. right. split; [done|]. by exists e. Qed.

Lemma PublicKeys_Contains_spec keys k : PublicKeys_Contains keys k = bool_decide (k ∈ keys).
Proof.
  apply eq_bool_prop_intro. rewrite bool_decide_spec, !Is_true_true. unfold PublicKeys_Contains.
  rewrite existsb_exists. setoid_rewrite PublicKey_Equal_true. rewrite list_elem_of_In. naive_solver.
Qed.

Lemma getContractGroups_decides ic h (f : list PublicKey → res string bool) b :
  decides (we_readStates ic) (f (groups_of ic h)) b →
  decides (we_readStates ic) (getContractGroups ic h ≫= f) b.
Proof.
  unfold getContractGroups. intros Hf. destruct (we_readStates ic) eqn:Hr; cbn; [done|].
  right. split; [done|]. by eexists.
Qed.

Lemma Match_decides ic c : decides (we_readStates ic) (Match (scopeContext ic) c) (holds ic c).
Proof.
  assert (∀ h k, decides (we_readStates ic) (checkScriptGroups ic h k) (bool_decide (k ∈ groups_of ic h)))
    as Hg.
  { intros h k. apply getContractGroups_decides. left. by rewrite PublicKeys_Contains_spec. }
  induction c as [b|c IH|cs IH|cs IH|h|k| |h|k] using condition_ind'; try by left.
  - cbn. eapply decides_bind; [exact IH|]. by left.
  - induction IH as [|c cs Hc Hcs IH]; [by left|].
    cbn in *. eapply decides_bind; [exact Hc|]. destruct (holds ic c); [exact IH|by left].
  - induction IH as [|c cs Hc Hcs IH]; [by left|].
    cbn in *. eapply decides_bind; [exact Hc|]. destruct (holds ic c); [by left|exact IH].
  - apply Hg.
  - apply Hg.
Qed.

(** The first rule whose condition holds. *)
Fixpoint first_rule (ic : WitnessEnv) (rules : list WitnessRule) : bool :=
  match rules with
  | [] => false
  | r :: rules =>
      if from_option (holds ic) false (wr_Condition r)
      then bool_decide (wr_Action r = WitnessAllow) else first_rule ic rules
  end.

Definition scope_allows (ic : WitnessEnv) (c : Signer) : bool :=
  let has := has_bits (sg_Scopes c) in
  bool_decide (sg_Scopes c = Global)
  || has ScopeCalledByEntry && we_calledByEntry ic
  || has CustomContracts && bool_decide (we_current ic ∈ sg_AllowedContracts c)
  || has CustomGroups && existsb (λ k, bool_decide (k ∈ groups_of ic (we_current ic))) (sg_AllowedGroups c)
  || has Rules && first_rule ic (sg_Rules c).

(** What a witness of [h] rests on: [h] is the calling contract itself, or it is
    the account of a signer that is impersonated or whose scope covers the
    running script. *)
Definition witnessed (ic : WitnessEnv) (h : bytes) : bool :=
  bool_decide (we_calling ic ≠ replicate Uint160Size x00) && bool_decide (h = we_calling ic)
  || match list_find (λ c, sg_Account c = h) (we_signers ic) with
     | Some (_, c) => IsImpersonated (we_registry ic) h || scope_allows ic c
     | None => false
     end.

Definition rules_decoded (c : Signer) : Prop := Forall (λ r, is_Some (wr_Condition r)) (sg_Rules c).

Lemma check_rules_decides ic rules :
  Forall (λ r, is_Some (wr_Condition r)) rules →
  decides (we_readStates ic) (check_rules (scopeContext ic) rules) (first_rule ic rules).
Proof.
  induction 1 as [|[a o] rules [c Hc] Hrs IH]; cbn in *; [by left|]. subst o. cbn.
  eapply decides_bind; [apply Match_decides|]. destruct (holds ic c); [by left|done].
Qed.

Lemma groups_allowed_decides ic c :
  decides (we_readStates ic)
    (if has_bits (sg_Scopes c) CustomGroups
     then groups ← getContractGroups ic (we_current ic);
          Ok (existsb (PublicKeys_Contains groups) (sg_AllowedGroups c))
     else Ok false)
    (has_bits (sg_Scopes c) CustomGroups
      && existsb (λ k, bool_decide (k ∈ groups_of ic (we_current ic))) (sg_AllowedGroups c)).
Proof.
  destruct (has_bits (sg_Scopes c) CustomGroups); [|by left].
  apply getContractGroups_decides. left. f_equal. cbn.
  induction (sg_AllowedGroups c) as [|k l IH]; cbn; [done|]. by rewrite PublicKeys_Contains_spec, IH.
Qed.

Lemma check_signer_decides ic c :
  rules_decoded c →
  decides (we_readStates ic) (check_signer ic c)
    (IsImpersonated (we_registry ic) (sg_Account c) || scope_allows ic c).
Proof.
  intros Hr. unfold check_signer, scope_allows.
  replace (rg_enabled (we_registry ic) && IsImpersonated (we_registry ic) (sg_Account c))
    with (IsImpersonated (we_registry ic) (sg_Account c))
    by (unfold IsImpersonated; by destruct (rg_enabled (we_registry ic))).
  destruct (IsImpersonated _ _); [by left|].
  destruct (bool_decide (sg_Scopes c = Global)); [by left|].
  destruct (_ && we_calledByEntry ic); [by left|].
  destruct (_ && bool_decide (we_current ic ∈ _)); [by left|]. cbn [orb].
  eapply decides_bind; [apply groups_allowed_decides|].
  destruct (_ && existsb _ _); [by left|]. cbn [orb].
  destruct (has_bits (sg_Scopes c) Rules); [|by left]. by apply check_rules_decides.
Qed.

(** ** Properties *)

(** C18: the check of a witness answers [witnessed]: with the right to read the
    state always, and without it whenever it does not fail; it never panics on
    decoded signers.  In particular nothing is granted that neither the calling
    contract, nor an impersonation, nor the scope of a signer gives. *)
Theorem CheckHashedWitness_spec (ic : WitnessEnv) (h : bytes) :
  Forall rules_decoded (we_signers ic) → we_signers ic ≠ [] →
  (we_readStates ic = true → CheckHashedWitness ic h = Ok (witnessed ic h))
  ∧ (∀ b, CheckHashedWitness ic h = Ok b → b = witnessed ic h)
  ∧ CheckHashedWitness ic h ≠ Panic.
Proof.
  intros Hs Hne.
  assert (decides (we_readStates ic) (CheckHashedWitness ic h) (witnessed ic h)) as Hd.
  { unfold CheckHashedWitness, witnessed. destruct (_ && bool_decide (h = _)); [by left|].
    unfold checkScope. rewrite bool_decide_eq_false_2 by done.
    destruct (list_find _ _) as [[i c]|] eqn:Hf; [|by left].
    apply list_find_Some in Hf as (Hi & <- & _). apply check_signer_decides.
    by apply (Forall_lookup_1 _ _ _ _ Hs Hi). }
  destruct Hd as [->|(Hrs & e & ->)]; [naive_solver|]. rewrite Hrs. naive_solver.
Qed.

(** Every condition within the limits of the decoder (three levels, 1 to 16
    operands, keys on the curve) is read back as it was written, and whatever
    the decoder answers without error on any input is within these limits. *)
Theorem condition_roundtrip :
  (∀ c w rest, cond_ok (key_ok P256) MaxConditionNesting c → w_err w = None →
     ∃ b, cond_EncodeBinary c w = mkWriter (w_buf w ++ b) None
       ∧ DecodeBinaryCondition (mkReader (b ++ rest) None) = (Some c, mkReader rest None))
  ∧ (∀ r o r', DecodeBinaryCondition r = (o, r') → r_err r' = None →
       ∃ c, o = Some c ∧ cond_ok key_reduced MaxConditionNesting c).
Proof.
  split.
  - intros c w rest Hc Hw. exists (cond_bytes c). split; [by apply (cond_emits (key_ok P256) MaxConditionNesting)|].
    by apply cond_parses.
  - intros r o r' E Hr. by apply (cond_yields _ _ _ _ E Hr).
Qed.

(** The text form of every valid combination of scopes is read back as that
    combination; but [ScopesFromString] accepts [Global] after another
    scope, which [ScopesFromByte] and its own check in the other order
    refuse. *)
Theorem scopes_text :
  (∀ b, 0 <= b < 256 → ScopesFromByte b = Ok b → ScopesFromString (scopesToString b) = Ok b)
  ∧ ScopesFromString (str "CalledByEntry, Global") = Ok 0x81
  ∧ (∃ e, ScopesFromString (str "Global, CalledByEntry") = Err e)
  ∧ (∃ e, ScopesFromByte 0x81 = Err e).
Proof.
  split; [|split_and!; try (by eexists); done].
  assert (forallb (λ n, let b := Z.of_nat n in
    bool_decide (ScopesFromByte b = Ok b → ScopesFromString (scopesToString b) = Ok b)) (seq 0 256) = true)
    as H by (vm_compute; reflexivity).
  rewrite forallb_forall in H. intros b Hb. specialize (H (Z.to_nat b)).
  rewrite Z2Nat.id, bool_decide_eq_true in H by lia. apply H, in_seq. lia.
Qed.

(** ** Witnesses *)

(** The generator of secp256r1. *)
Definition G256 : PublicKey := Point
  0x6b17d1f2e12c4247f8bce6e563a440f277037d812deb33a0f4a13945d898c296
  0x4fe342e2fe1a7f9b8ee7eb4a7c0f9e162bce33576b315ececbb6406837bf51f5.

Lemma G256_ok : key_ok P256 G256.
Proof. apply (bool_decide_eq_true_1 _). vm_cast_no_check (eq_refl true). Qed.

(** A signer whose witness is denied to its own contract and allowed to
    contracts of the group [G256] otherwise. *)
Definition ex_contract : bytes := replicate Uint160Size x07.
Definition ex_account : bytes := replicate Uint160Size x09.
Definition ex_condition : WitnessCondition :=
  ConditionAnd [ConditionNot (ConditionCalledByContract ex_contract); ConditionGroup G256].
Definition ex_signer : Signer := mkSigner ex_account Rules [] []
  [mkRule WitnessDeny (Some (ConditionScriptHash ex_account)); mkRule WitnessAllow (Some ex_condition)].
Definition ex_env (readStates : bool) : WitnessEnv := mkWitnessEnv
  (replicate Uint160Size x00) ex_contract false readStates
  (λ h, if bool_decide (h = ex_contract) then Some [G256] else None) [ex_signer] NewRegistry.

Lemma CheckHashedWitness_spec_witness :
  CheckHashedWitness (ex_env true) ex_account = Ok true
  ∧ CheckHashedWitness (ex_env false) ex_account ≠ Panic
  ∧ witnessed (ex_env false) ex_account = true
  ∧ (∃ e, CheckHashedWitness (ex_env false) ex_account = Err e).
Proof.
  assert (Forall rules_decoded [ex_signer]) as Hs.
  { repeat constructor; by eexists. }
  split; [|split; [|split]].
  - transitivity (@Ok string bool (witnessed (ex_env true) ex_account)); [|vm_compute; reflexivity].
    by apply (CheckHashedWitness_spec (ex_env true) ex_account).
  - by apply (CheckHashedWitness_spec (ex_env false) ex_account).
  - vm_compute. reflexivity.
  - eexists. vm_compute. reflexivity.
Defined.

Lemma condition_roundtrip_witness :
  cond_ok (key_ok P256) MaxConditionNesting ex_condition
  ∧ ∃ b, cond_EncodeBinary ex_condition NewBufBinWriter = mkWriter b None
    ∧ DecodeBinaryCondition (mkReader (b ++ [x01]) None) = (Some ex_condition, mkReader [x01] None).
Proof.
  assert (cond_ok (key_ok P256) MaxConditionNesting ex_condition) as H.
  { cbn [cond_ok ex_condition MaxConditionNesting]. split; [vm_compute; split; discriminate|].
    constructor; [|constructor; [apply G256_ok|constructor]]. vm_compute. reflexivity. }
  split; [exact H|]. apply (proj1 condition_roundtrip ex_condition NewBufBinWriter [x01]); [exact H|done].
Defined.
