(* ===== verification/Tx.v ===== *)
(** * Tx: transactions

    Models [pkg/core/transaction]: attributes ([attribute.go], [attrtype.go]
    and a file per kind), and transactions with their binary form, validity,
    hash and size ([transaction.go]).  Hash and size are computed once and kept
    in the transaction, which the model shows: [t_hash], [t_hashed], [t_size].
    JSON is not modelled. *)

From S2P Require Import Prelude BinIO Codec Hash Bitfield Keys Witness.

#[local] Open Scope Z_scope.

Definition MaxScriptLength : Z := 65535.
Definition MaxTransactionSize : Z := 102400.
Definition MaxAttributes : Z := 16.
Definition MaxOracleResultSize : Z := 65535.

(** ** Attributes *)

Definition ReservedLowerBound : Z := 0xe0.
Definition ReservedUpperBound : Z := 0xff.
Definition HighPriority : Z := 1.
Definition OracleResponseT : Z := 0x11.
Definition NotValidBeforeT : Z := 0x20.
Definition ConflictsT : Z := 0x21.
Definition NotaryAssistedT : Z := 0x22.

Inductive AttrValue :=
  | OracleResponse (ID Code : Z) (Result : bytes)
  | NotValidBefore (Height : Z)
  | Conflicts (Hash : bytes)
  | NotaryAssisted (NKeys : Z)
  | Reserved (Value : bytes).

(** The value of a [HighPriority] attribute is nil. *)
Record Attribute := mkAttr { at_Type : Z; at_Value : option AttrValue }.

Definition is_reserved (t : Z) : bool :=
  bool_decide (ReservedLowerBound <= t) && bool_decide (t <= ReservedUpperBound).

Definition attrTypes : list Z :=
  [HighPriority; OracleResponseT; NotValidBeforeT; ConflictsT; NotaryAssistedT].

Definition allowMultiple (t : Z) : bool := bool_decide (t = ConflictsT).

Definition IsValidAttrType (reservedAttributesEnabled : bool) (t : Z) : bool :=
  if bool_decide (t ∈ attrTypes) then true else reservedAttributesEnabled && is_reserved t.

Definition OracleCode_IsValid (c : Z) : bool :=
  bool_decide (c ∈ [0x00; 0x10; 0x12; 0x14; 0x16; 0x18; 0x1a; 0x1c; 0x1f; 0xff]).

(** [DecodeBinary] of the values, by the type of the attribute. *)
Definition oracle_DecodeBinary (br : BinReader) : AttrValue * BinReader :=
  let '(id, br) := ReadU64LE br in
  let '(code, br) := ReadB br in
  if negb (OracleCode_IsValid code)
  then (OracleResponse id code [], r_fail br (ErrOther "invalid oracle response code")) else
  let '(result, br) := ReadVarBytes MaxOracleResultSize br in
  let result := default [] result in
  (OracleResponse id code result,
   if bool_decide (code ≠ 0) && bool_decide (0 < Z.of_nat (length result))
   then r_fail br (ErrOther "oracle response != success, but result is not empty") else br).

Definition value_DecodeBinary (t : Z) (br : BinReader) : option AttrValue * BinReader :=
  if bool_decide (t = OracleResponseT) then
    let '(v, br) := oracle_DecodeBinary br in (Some v, br)
  else if bool_decide (t = NotValidBeforeT) then
    let '(h, br) := ReadU32LE br in (Some (NotValidBefore h), br)
  else if bool_decide (t = ConflictsT) then
    let '(h, br) := ReadBytes Uint256Size br in (Some (Conflicts h), br)
  else if bool_decide (t = NotaryAssistedT) then
    let '(n, br) := ReadB br in (Some (NotaryAssisted n), br)
  else if is_reserved t then
    let '(v, br) := ReadVarBytes MaxArraySize br in (Some (Reserved (default [] v)), br)
  else (None, r_fail br (ErrOther "failed decoding TX attribute usage")).

Definition attr_DecodeBinary (br : BinReader) : Attribute * BinReader :=
  let '(t, br) := ReadB br in
  if bool_decide (t = HighPriority) then (mkAttr t None, br) else
  let '(v, br) := value_DecodeBinary t br in (mkAttr t v, br).

Definition value_EncodeBinary (v : AttrValue) (w : BinWriter) : BinWriter :=
  match v with
  | OracleResponse id code result => WriteVarBytes result (WriteB code (WriteU64LE id w))
  | NotValidBefore h => WriteU32LE h w
  | Conflicts h => WriteBytes h w
  | NotaryAssisted n => WriteB n w
  | Reserved v => WriteVarBytes v w
  end.

(** A value of another kind than the type says is written all the same; the
    failed writer of a missing value stands for the panic. *)
Definition attr_EncodeBinary (attr : Attribute) (bw : BinWriter) : BinWriter :=
  let t := at_Type attr in
  let bw := WriteB t bw in
  if bool_decide (t = HighPriority) then bw
  else if bool_decide (t ∈ [OracleResponseT; NotValidBeforeT; ConflictsT; NotaryAssistedT]) || is_reserved t then
    match at_Value attr with
    | Some v => value_EncodeBinary v bw
    | None => mkWriter (w_buf bw) (Some (ErrOther "nil pointer dereference"))
    end
  else mkWriter (w_buf bw) (Some (ErrOther "failed encoding TX attribute usage")).

#[export] Instance attr_serializable : Serializable Attribute := {|
  EncodeBinary := attr_EncodeBinary;
  DecodeBinary := attr_DecodeBinary;
|}.

(** ** Transactions *)

Definition ErrInvalidVersion := ErrOther "only version 0 is supported".
Definition ErrNegativeSystemFee := ErrOther "negative system fee".
Definition ErrNegativeNetworkFee := ErrOther "negative network fee".
Definition ErrTooBigFees := ErrOther "too big fees: int64 overflow".
Definition ErrEmptySigners := ErrOther "signers array should contain sender".
Definition ErrNonUniqueSigners := ErrOther "transaction signers should be unique".
Definition ErrInvalidAttribute := ErrOther "invalid attribute".
Definition ErrEmptyScript := ErrOther "no script".
Definition ErrInvalidWitnessNum := ErrOther "number of signers doesn't match witnesses".

Record Transaction := mkTx {
  t_Version : Z;
  t_Nonce : Z;
  t_SystemFee : Z;
  t_NetworkFee : Z;
  t_ValidUntilBlock : Z;
  t_Script : bytes;
  t_Attributes : list Attribute;
  t_Signers : list Signer;
  t_Scripts : list Witness;
  t_size : Z;
  t_hash : bytes;
  t_hashed : bool;
  t_Trimmed : bool;
}.

Definition set_hash (t : Transaction) (h : bytes) : Transaction :=
  mkTx (t_Version t) (t_Nonce t) (t_SystemFee t) (t_NetworkFee t) (t_ValidUntilBlock t) (t_Script t)
    (t_Attributes t) (t_Signers t) (t_Scripts t) (t_size t) h true (t_Trimmed t).
Definition set_size (t : Transaction) (n : Z) : Transaction :=
  mkTx (t_Version t) (t_Nonce t) (t_SystemFee t) (t_NetworkFee t) (t_ValidUntilBlock t) (t_Script t)
    (t_Attributes t) (t_Signers t) (t_Scripts t) n (t_hash t) (t_hashed t) (t_Trimmed t).
Definition set_scripts (t : Transaction) (ws : list Witness) : Transaction :=
  mkTx (t_Version t) (t_Nonce t) (t_SystemFee t) (t_NetworkFee t) (t_ValidUntilBlock t) (t_Script t)
    (t_Attributes t) (t_Signers t) ws (t_size t) (t_hash t) (t_hashed t) (t_Trimmed t).

Definition NewTrimmedTX (hash : bytes) : Transaction :=
  mkTx 0 0 0 0 0 [] [] [] [] 0 hash true true.

Definition NewFakeTX (script : bytes) (sender : Signer) (hash : bytes) (size : Z) : Transaction :=
  mkTx 0 0 0 0 0 script [] [sender] [] size hash (bool_decide (hash ≠ zero256)) false.

(** [New] with the random number it draws. *)
Definition NewTx (nonce : Z) (script : bytes) (gas : Z) : Transaction :=
  mkTx 0 nonce gas 0 0 script [] [] [] 0 zero256 false false.

(** The zero transaction that decoding starts from. *)
Definition zero_tx : Transaction := mkTx 0 0 0 0 0 [] [] [] [] 0 zero256 false false.

Definition HasAttribute (t : Transaction) (typ : Z) : bool :=
  existsb (λ a, bool_decide (at_Type a = typ)) (t_Attributes t).

Definition GetAttributes (t : Transaction) (typ : Z) : list Attribute :=
  filter (λ a, at_Type a = typ) (t_Attributes t).

Definition HasSigner (t : Transaction) (h : bytes) : bool :=
  existsb (λ s, bool_decide (sg_Account s = h)) (t_Signers t).

Definition Sender (t : Transaction) : res ioerr bytes :=
  match t_Signers t with s :: _ => Ok (sg_Account s) | [] => Panic end.

(** The pairs of signers [i < j] with the same account. *)
Fixpoint repeated_signer (l : list Signer) : bool :=
  match l with
  | [] => false
  | s :: l => existsb (λ s', bool_decide (sg_Account s = sg_Account s')) l || repeated_signer l
  end.

(** The loop over the attributes with the bits of the types met. *)
Fixpoint check_attrs (attrBits : Field) (l : list Attribute) : res ioerr unit :=
  match l with
  | [] => Ok tt
  | a :: l =>
      let typ := at_Type a in
      if allowMultiple typ then check_attrs attrBits l else
      set ← IsSet attrBits typ;
      if (set : bool) then Err ErrInvalidAttribute else
      attrBits ← Set_ attrBits typ;
      check_attrs attrBits l
  end.

Definition isValid (t : Transaction) : res ioerr unit :=
  if bool_decide (0 < t_Version t) then Err ErrInvalidVersion else
  if bool_decide (t_SystemFee t < 0) then Err ErrNegativeSystemFee else
  if bool_decide (t_NetworkFee t < 0) then Err ErrNegativeNetworkFee else
  if bool_decide (i64 (t_NetworkFee t + t_SystemFee t) < t_SystemFee t) then Err ErrTooBigFees else
  if bool_decide (t_Signers t = []) then Err ErrEmptySigners else
  if repeated_signer (t_Signers t) then Err ErrNonUniqueSigners else
  _ ← check_attrs (New 256) (t_Attributes t);
  if bool_decide (t_Script t = []) then Err ErrEmptyScript else
  Ok tt.

Section binary.
Context `{Digest}.

(** *** Encoding *)

Definition encodeHashableFields (t : Transaction) (bw : BinWriter) : BinWriter :=
  let bw := WriteB (t_Version t) bw in
  let bw := WriteU32LE (t_Nonce t) bw in
  let bw := WriteU64LE (u64 (t_SystemFee t)) bw in
  let bw := WriteU64LE (u64 (t_NetworkFee t)) bw in
  let bw := WriteU32LE (t_ValidUntilBlock t) bw in
  let bw := WriteVarUint (Z.of_nat (length (t_Signers t))) bw in
  let bw := fold_left (λ bw s, signer_EncodeBinary s bw) (t_Signers t) bw in
  let bw := WriteVarUint (Z.of_nat (length (t_Attributes t))) bw in
  let bw := fold_left (λ bw a, attr_EncodeBinary a bw) (t_Attributes t) bw in
  WriteVarBytes (t_Script t) bw.

Definition tx_EncodeBinary (t : Transaction) (bw : BinWriter) : BinWriter :=
  let bw := encodeHashableFields t bw in
  let bw := WriteVarUint (Z.of_nat (length (t_Scripts t))) bw in
  fold_left (λ bw s, witness_EncodeBinary s bw) (t_Scripts t) bw.

Definition EncodeHashableFields (t : Transaction) : res ioerr bytes :=
  let bw := encodeHashableFields t NewBufBinWriter in
  match w_err bw with Some e => Err e | None => Ok (w_buf bw) end.

(** [Bytes]; [None] is the nil slice. *)
Definition tx_Bytes (t : Transaction) : option bytes :=
  let buf := tx_EncodeBinary t NewBufBinWriter in
  match w_err buf with Some _ => None | None => Some (w_buf buf) end.

(** The hash is computed of what is written. *)
Definition createHash (t : Transaction) : res ioerr Transaction :=
  h ← EncodeHashableFields t; Ok (set_hash t (sha256 h)).

Definition tx_Hash (t : Transaction) : res ioerr (bytes * Transaction) :=
  if t_hashed t then Ok (t_hash t, t) else
  match createHash t with
  | Ok t => Ok (t_hash t, t)
  | _ => Panic
  end.

(** [io.GetVarSize] counts the bytes written. *)
Definition tx_Size (t : Transaction) : Z * Transaction :=
  let t := if bool_decide (t_size t = 0)
    then set_size t (Z.of_nat (length (w_buf (tx_EncodeBinary t NewBufBinWriter)))) else t in
  (t_size t, t).

Definition tx_FeePerByte (t : Transaction) : res ioerr (Z * Transaction) :=
  let '(size, t) := tx_Size t in
  if bool_decide (size = 0) then Panic else Ok (i64 (Z.quot (t_NetworkFee t) size), t).

(** *** Decoding

    [buf] is the slice the reader reads, when there is one. *)
Definition decodeHashableFields (br : BinReader) (buf : option bytes) : Transaction * BinReader :=
  let start := from_option (λ b, Z.of_nat (length b) - r_len br) 0 buf in
  let '(version, br) := ReadB br in
  let '(nonce, br) := ReadU32LE br in
  let '(sysfee, br) := ReadU64LE br in
  let '(netfee, br) := ReadU64LE br in
  let '(vub, br) := ReadU32LE br in
  let '(nsigners, br) := ReadVarUint br in
  let t script attrs signers :=
    mkTx version nonce (i64 sysfee) (i64 netfee) vub script attrs signers [] 0 zero256 false false in
  match r_err br with Some _ => (t [] [] [], br) | None =>
    if bool_decide (MaxAttributes < nsigners) then (t [] [] [], r_fail br (ErrOther "too many signers")) else
    if bool_decide (nsigners = 0) then (t [] [] [], r_fail br (ErrOther "missing signers")) else
    let '(signers, br) := read_elems (A := Signer) (Z.to_nat nsigners) br in
    let '(nattrs, br) := ReadVarUint br in
    if bool_decide (MaxAttributes - nsigners < nattrs)
    then (t [] [] signers, r_fail br (ErrOther "too many attributes")) else
    let '(attrs, br) := read_elems (A := Attribute) (Z.to_nat nattrs) br in
    let '(script, br) := ReadVarBytes MaxScriptLength br in
    let t := t (default [] script) attrs signers in
    let br := match r_err br, isValid t with
              | None, Ok _ => br
              | None, Err e => r_fail br e
              | None, Panic => r_fail br (ErrOther "index out of range")
              | Some _, _ => br
              end in
    match buf with
    | None => (t, br)
    | Some b =>
        let end_ := Z.of_nat (length b) - r_len br in
        (set_hash t (Sha256 (take (Z.to_nat (end_ - start)) (drop (Z.to_nat start) b))), br)
    end
  end.

Definition decodeBinaryNoSize (br : BinReader) (buf : option bytes) : Transaction * BinReader :=
  let '(t, br) := decodeHashableFields br buf in
  match r_err br with Some _ => (t, br) | None =>
    let '(nscripts, br) := ReadVarUint br in
    if bool_decide (MaxAttributes < nscripts) then (t, r_fail br (ErrOther "too many witnesses")) else
    if bool_decide (nscripts ≠ Z.of_nat (length (t_Signers t))) then (t, r_fail br ErrInvalidWitnessNum) else
    let '(scripts, br) := read_elems (A := Witness) (Z.to_nat nscripts) br in
    let t := set_scripts t scripts in
    match r_err br, buf with
    | None, None =>
        match createHash t with
        | Ok t => (t, br)
        | Err e => (t, r_fail br e)
        | Panic => (t, r_fail br (ErrOther "panic"))
        end
    | _, _ => (t, br)
    end
  end.

Definition tx_DecodeBinary (br : BinReader) : Transaction * BinReader :=
  let '(t, br) := decodeBinaryNoSize br None in
  match r_err br with Some _ => (t, br) | None => ((tx_Size t).2, br) end.

(** Decoding of the part that is signed. *)
Definition DecodeHashableFields (buf : bytes) : res ioerr Transaction :=
  let '(t, r) := decodeHashableFields (NewBinReaderFromBuf buf) (Some buf) in
  match r_err r with
  | Some e => Err e
  | None =>
      if bool_decide (r_len r ≠ 0) then Err (ErrOther "additional data after the signed part")
      else Ok t
  end.

Definition NewTransactionFromBytes (b : bytes) : res ioerr Transaction :=
  let '(tx, r) := decodeBinaryNoSize (NewBinReaderFromBuf b) (Some b) in
  match r_err r with
  | Some e => Err e
  | None =>
      if bool_decide (r_len r ≠ 0) then Err (ErrOther "additional data after the transaction")
      else Ok (set_size tx (Z.of_nat (length b)))
  end.

(** [Copy]: the caches are reset. *)
Definition attr_Copy (a : Attribute) : Attribute := mkAttr (at_Type a) (at_Value a).
Definition tx_Copy (t : Transaction) : Transaction :=
  mkTx (t_Version t) (t_Nonce t) (t_SystemFee t) (t_NetworkFee t) (t_ValidUntilBlock t) (t_Script t)
    (map attr_Copy (t_Attributes t)) (t_Signers t) (t_Scripts t) 0 zero256 false (t_Trimmed t).
End binary.

(** ** Codecs of the parts *)

Definition attr_ok (a : Attribute) : Prop :=
  match at_Value a with
  | None => at_Type a = HighPriority
  | Some (OracleResponse id code r) =>
      at_Type a = OracleResponseT ∧ 0 <= id < 2 ^ 64 ∧ 0 <= code < 256 ∧ OracleCode_IsValid code = true
      ∧ Z.of_nat (length r) <= MaxOracleResultSize ∧ (code = 0 ∨ r = [])
  | Some (NotValidBefore h) => at_Type a = NotValidBeforeT ∧ 0 <= h < 2 ^ 32
  | Some (Conflicts h) => at_Type a = ConflictsT ∧ length h = Uint256Size
  | Some (NotaryAssisted n) => at_Type a = NotaryAssistedT ∧ 0 <= n < 256
  | Some (Reserved v) =>
      ReservedLowerBound <= at_Type a <= ReservedUpperBound ∧ Z.of_nat (length v) <= MaxArraySize
  end.

Definition varbytes (b : bytes) : bytes := PutVarUint (Z.of_nat (length b)) ++ b.

Definition value_bytes (v : AttrValue) : bytes :=
  match v with
  | OracleResponse id code r => le_enc 8 id ++ z2b code :: varbytes r
  | NotValidBefore h => le_enc 4 h
  | Conflicts h => h
  | NotaryAssisted n => [z2b n]
  | Reserved v => varbytes v
  end.

Definition attr_bytes (a : Attribute) : bytes :=
  z2b (at_Type a) :: from_option value_bytes [] (at_Value a).

Lemma value_emits v : emits (value_EncodeBinary v) (value_bytes v).
Proof.
  intros w Hw. destruct v; cbn [value_EncodeBinary value_bytes];
    unfold WriteU64LE, WriteU32LE, varbytes; rewrite ?emits_bytes, ?emits_B, ?emits_varbytes by done;
    cbn [w_buf]; by rewrite <- ?app_assoc.
Qed.

Lemma reserved_range t :
  is_reserved t = true ↔ ReservedLowerBound <= t <= ReservedUpperBound.
Proof. unfold is_reserved. rewrite andb_true_iff, !bool_decide_eq_true. done. Qed.

Lemma attr_emits a : attr_ok a → emits (attr_EncodeBinary a) (attr_bytes a).
Proof.
  intros Ha w Hw. unfold attr_EncodeBinary, attr_bytes. cbv zeta.
  rewrite (emits_B (at_Type a) w Hw).
  destruct a as [t [v|]]; cbn [at_Type at_Value from_option] in *.
  2: { unfold attr_ok in Ha. cbn in Ha. subst t. by rewrite bool_decide_eq_true_2. }
  assert (t ≠ HighPriority ∧ bool_decide (t ∈ [OracleResponseT; NotValidBeforeT; ConflictsT; NotaryAssistedT])
    || is_reserved t = true) as [Ht Hin].
  { unfold attr_ok in Ha. destruct v; cbn in Ha; try (destruct Ha as [-> _]; split; [discriminate|done]).
    destruct Ha as [Ha _]. split; [unfold HighPriority, ReservedLowerBound in *; lia|].
    rewrite (proj2 (reserved_range t)) by done. by rewrite orb_true_r. }
  rewrite bool_decide_eq_false_2 by done. rewrite Hin, value_emits by done.
  cbn [w_buf]. by rewrite <- app_assoc.
Qed.

Lemma value_parses t v :
  attr_ok (mkAttr t (Some v)) → parses (value_DecodeBinary t) (Some v) (value_bytes v).
Proof.
  unfold attr_ok, value_DecodeBinary. cbn [at_Value at_Type].
  destruct v; cbn [value_bytes]; intros Ht rest.
  - destruct Ht as (-> & Hid & Hc & Hv & Hl & Hr). rewrite bool_decide_eq_true_2 by done.
    unfold oracle_DecodeBinary. rewrite <- app_assoc, parses_u64 by done. cbn [app].
    rewrite parses_B by done. rewrite Hv. cbn [negb]. unfold varbytes. rewrite <- app_assoc.
    rewrite ReadVarBytes_app by (unfold MaxOracleResultSize in *; lia). cbn [default from_option id].
    destruct Hr as [->| ->]; [done|]. cbn. by rewrite andb_false_r.
  - destruct Ht as (-> & Hh). rewrite (bool_decide_eq_false_2 (_ = OracleResponseT)) by done.
    rewrite bool_decide_eq_true_2 by done. by rewrite parses_u32.
  - destruct Ht as (-> & Hh). rewrite (bool_decide_eq_false_2 (_ = OracleResponseT)) by done.
    rewrite (bool_decide_eq_false_2 (_ = NotValidBeforeT)) by done.
    rewrite bool_decide_eq_true_2 by done. by rewrite parses_bytes.
  - destruct Ht as (-> & Hh). rewrite (bool_decide_eq_false_2 (_ = OracleResponseT)) by done.
    rewrite (bool_decide_eq_false_2 (_ = NotValidBeforeT)), (bool_decide_eq_false_2 (_ = ConflictsT)) by done.
    rewrite bool_decide_eq_true_2 by done. cbn [app]. by rewrite parses_B.
  - destruct Ht as (Ht & Hl). apply reserved_range in Ht as Hr. rewrite Hr.
    unfold ReservedLowerBound in Ht.
    rewrite !(bool_decide_eq_false_2 (t = _))
      by (unfold OracleResponseT, NotValidBeforeT, ConflictsT, NotaryAssistedT; lia).
    unfold varbytes. rewrite <- app_assoc, ReadVarBytes_app; [done| |done]. done.
Qed.

#[export] Program Instance attr_serializable_ok : SerializableOk Attribute attr_ok := {|
  enc_bytes := attr_bytes;
|}.
Next Obligation. intros a w Ha Hw. by apply attr_emits. Qed.
Next Obligation.
  intros [t v] rest Ha. cbn -[PutVarUint]. unfold attr_DecodeBinary, attr_bytes. cbn [at_Type at_Value app].
  assert (0 <= t < 256) as Ht.
  { unfold attr_ok in Ha. cbn in Ha. destruct v as [[]|];
      try (apply proj1 in Ha); unfold ReservedLowerBound, ReservedUpperBound in *; try lia; by rewrite Ha. }
  rewrite parses_B by done. destruct v as [v|]; cbn [from_option].
  - rewrite bool_decide_eq_false_2.
    2: { intros ->. unfold attr_ok in Ha. cbn in Ha. destruct v; try (by destruct Ha).
         destruct Ha. unfold HighPriority, ReservedLowerBound in *. lia. }
    by rewrite (value_parses t v Ha).
  - by rewrite bool_decide_eq_true_2.
Qed.

Lemma value_yields t :
  yields (λ o, ∃ v, o = Some v ∧ attr_ok (mkAttr t (Some v))) (value_DecodeBinary t).
Proof.
  intros r o r' E Hr. unfold value_DecodeBinary, attr_ok in *. cbn [at_Value at_Type].
  destruct (decide (t = OracleResponseT)) as [->|]; [rewrite bool_decide_eq_true_2 in E by done|
    rewrite bool_decide_eq_false_2 in E by done].
  { unfold oracle_DecodeBinary in E. destruct (ReadU64LE r) as [id r1] eqn:E1.
    destruct (ReadB r1) as [code r2] eqn:E2. destruct (OracleCode_IsValid code) eqn:Hv; cbn [negb] in E.
    2: by injection E as <- <-.
    destruct (ReadVarBytes MaxOracleResultSize r2) as [b r3] eqn:E3.
    destruct (bool_decide (code ≠ 0) && bool_decide (0 < Z.of_nat (length (default [] b)))) eqn:Hc;
      injection E as <- <-; [done|].
    destruct (yields_varbytes MaxOracleResultSize ltac:(unfold MaxOracleResultSize; lia) _ _ _ E3 Hr) as [Hr2 Hb].
    destruct (yields_B _ _ _ E2 Hr2) as [Hr1 Hcode]. destruct (yields_uint_le 8 _ _ _ E1 Hr1) as [Hr0 Hid].
    split; [done|]. eexists. split; [done|]. split_and!; try done; try lia.
    apply andb_false_iff in Hc as [Hc|Hc]; apply bool_decide_eq_false in Hc;
      [left; by apply dec_stable|right].
    destruct (default [] b); [done|]. cbn in Hc. lia. }
  destruct (decide (t = NotValidBeforeT)) as [->|]; [rewrite bool_decide_eq_true_2 in E by done|
    rewrite bool_decide_eq_false_2 in E by done].
  { destruct (ReadU32LE r) as [h r1] eqn:E1. injection E as <- <-.
    destruct (yields_uint_le 4 _ _ _ E1 Hr) as [Hr0 Hh]. split; [done|]. by eexists. }
  destruct (decide (t = ConflictsT)) as [->|]; [rewrite bool_decide_eq_true_2 in E by done|
    rewrite bool_decide_eq_false_2 in E by done].
  { destruct (ReadBytes Uint256Size r) as [h r1] eqn:E1. injection E as <- <-.
    destruct (yields_bytes _ _ _ _ E1 Hr). split; [done|]. by eexists. }
  destruct (decide (t = NotaryAssistedT)) as [->|]; [rewrite bool_decide_eq_true_2 in E by done|
    rewrite bool_decide_eq_false_2 in E by done].
  { destruct (ReadB r) as [h r1] eqn:E1. injection E as <- <-.
    destruct (yields_B _ _ _ E1 Hr). split; [done|]. by eexists. }
  destruct (is_reserved t) eqn:Ht; [|by injection E as <- <-].
  destruct (ReadVarBytes MaxArraySize r) as [b r1] eqn:E1. injection E as <- <-.
  destruct (yields_varbytes MaxArraySize ltac:(unfold MaxArraySize; lia) _ _ _ E1 Hr) as [Hr0 Hb].
  apply reserved_range in Ht. split; [done|]. by eexists.
Qed.

Lemma attr_yields : yields (λ a, attr_ok a ∧ 0 <= at_Type a < 256) attr_DecodeBinary.
Proof.
  intros r a r' E Hr. unfold attr_DecodeBinary in E. destruct (ReadB r) as [t r1] eqn:E1.
  destruct (decide (t = HighPriority)) as [->|]; [rewrite bool_decide_eq_true_2 in E by done|
    rewrite bool_decide_eq_false_2 in E by done].
  { injection E as <- <-. destruct (yields_B _ _ _ E1 Hr). done. }
  destruct (value_DecodeBinary t r1) as [v r2] eqn:E2. injection E as <- <-.
  destruct (value_yields _ _ _ _ E2 Hr) as (Hr1 & v' & -> & Hv).
  by destruct (yields_B _ _ _ E1 Hr1).
Qed.

Definition witness_ok (w : Witness) : Prop :=
  Z.of_nat (length (InvocationScript w)) <= MaxInvocationScript ∧
  Z.of_nat (length (VerificationScript w)) <= MaxVerificationScript.

#[export] Program Instance witness_serializable_ok : SerializableOk Witness witness_ok := {|
  enc_bytes w := varbytes (InvocationScript w) ++ varbytes (VerificationScript w);
|}.
Next Obligation.
  intros a w _ Hw. change (EncodeBinary a w) with (witness_EncodeBinary a w).
  unfold witness_EncodeBinary. rewrite (emits_varbytes (InvocationScript a) w Hw).
  rewrite (emits_varbytes (VerificationScript a) (mkWriter _ None)) by done. unfold varbytes. cbn [w_buf].
  by rewrite <- !app_assoc.
Qed.
Next Obligation.
  intros a rest [Hi Hv]. change (DecodeBinary (A := Witness)) with witness_DecodeBinary.
  unfold witness_DecodeBinary, varbytes. rewrite <- !app_assoc.
  rewrite ReadVarBytes_app by (unfold MaxInvocationScript in *; lia).
  rewrite ReadVarBytes_app by (unfold MaxVerificationScript in *; lia). by destruct a.
Qed.

Lemma witness_yields : yields witness_ok witness_DecodeBinary.
Proof.
  intros r w r' E Hr. unfold witness_DecodeBinary in E.
  destruct (ReadVarBytes MaxInvocationScript r) as [i r1] eqn:E1.
  destruct (ReadVarBytes MaxVerificationScript r1) as [v r2] eqn:E2. injection E as <- <-.
  destruct (yields_varbytes MaxVerificationScript ltac:(unfold MaxVerificationScript; lia) _ _ _ E2 Hr) as [Hr1 ?].
  by destruct (yields_varbytes MaxInvocationScript ltac:(unfold MaxInvocationScript; lia) _ _ _ E1 Hr1).
Qed.

(** ** The binary form *)

(** A transaction that is valid and within the limits of the format. *)
Definition tx_ok (K : PublicKey → Prop) (t : Transaction) : Prop :=
  0 <= t_Version t < 256 ∧ 0 <= t_Nonce t < 2 ^ 32 ∧ 0 <= t_ValidUntilBlock t < 2 ^ 32 ∧
  - 2 ^ 63 <= t_SystemFee t < 2 ^ 63 ∧ - 2 ^ 63 <= t_NetworkFee t < 2 ^ 63 ∧
  Forall (signer_ok K) (t_Signers t) ∧ Forall attr_ok (t_Attributes t) ∧
  Z.of_nat (length (t_Signers t)) + Z.of_nat (length (t_Attributes t)) <= MaxAttributes ∧
  Z.of_nat (length (t_Script t)) <= MaxScriptLength ∧
  isValid t = Ok tt.

Definition scripts_ok (t : Transaction) : Prop :=
  Forall witness_ok (t_Scripts t) ∧ length (t_Scripts t) = length (t_Signers t).

Definition hashable_bytes (t : Transaction) : bytes :=
  [z2b (t_Version t)] ++ le_enc 4 (t_Nonce t) ++ le_enc 8 (u64 (t_SystemFee t)) ++
  le_enc 8 (u64 (t_NetworkFee t)) ++ le_enc 4 (t_ValidUntilBlock t) ++
  PutVarUint (Z.of_nat (length (t_Signers t))) ++ concat (map signer_bytes (t_Signers t)) ++
  PutVarUint (Z.of_nat (length (t_Attributes t))) ++ concat (map attr_bytes (t_Attributes t)) ++
  varbytes (t_Script t).

Definition scripts_bytes (ws : list Witness) : bytes :=
  PutVarUint (Z.of_nat (length ws)) ++ concat (map enc_bytes ws).

Definition tx_bytes (t : Transaction) : bytes := hashable_bytes t ++ scripts_bytes (t_Scripts t).

(** The fields that are signed, as decoding them gives. *)
Definition signed_part (t : Transaction) : Transaction :=
  mkTx (t_Version t) (t_Nonce t) (t_SystemFee t) (t_NetworkFee t) (t_ValidUntilBlock t) (t_Script t)
    (t_Attributes t) (t_Signers t) [] 0 zero256 false false.

Lemma i64_u64 z : - 2 ^ 63 <= z < 2 ^ 63 → i64 (u64 z) = z.
Proof.
  intros Hz. unfold wrap_s, wrap_u. change (64 - 1) with 63.
  rewrite Z.add_mod_idemp_l by lia. rewrite Z.mod_small; lia.
Qed.

Lemma signers_emit l :
  Forall (signer_ok (key_ok P256)) l →
  emits (λ w, fold_left (λ w s, signer_EncodeBinary s w) l w) (concat (map signer_bytes l)).
Proof. exact (emits_elems (HO := signer_serializable_ok) l). Qed.

Lemma attrs_emit l :
  Forall attr_ok l → emits (λ w, fold_left (λ w s, attr_EncodeBinary s w) l w) (concat (map attr_bytes l)).
Proof. exact (emits_elems (HO := attr_serializable_ok) l). Qed.

Lemma witnesses_emit l :
  Forall witness_ok l → emits (λ w, fold_left (λ w s, witness_EncodeBinary s w) l w) (concat (map enc_bytes l)).
Proof. exact (emits_elems (HO := witness_serializable_ok) l). Qed.

Lemma signers_parse l rest :
  Forall (signer_ok (key_ok P256)) l →
  read_elems (A := Signer) (length l) (mkReader (concat (map signer_bytes l) ++ rest) None) = (l, mkReader rest None).
Proof. exact (read_elems_ok (HO := signer_serializable_ok) l rest). Qed.

Lemma attrs_parse l rest :
  Forall attr_ok l →
  read_elems (A := Attribute) (length l) (mkReader (concat (map attr_bytes l) ++ rest) None) = (l, mkReader rest None).
Proof. exact (read_elems_ok (HO := attr_serializable_ok) l rest). Qed.

Section tx_codec.
Context `{Digest}.

(** What decoding of [tx_bytes t] gives, with the hash and the size. *)
Definition tx_filled (t : Transaction) : Transaction :=
  set_size (set_hash (set_scripts (signed_part t) (t_Scripts t)) (sha256 (hashable_bytes t)))
    (Z.of_nat (length (tx_bytes t))).

Lemma hashable_emits K t :
  Forall (signer_ok (key_ok P256)) (t_Signers t) → tx_ok K t → emits (encodeHashableFields t) (hashable_bytes t).
Proof.
  intros Hs (_ & _ & _ & _ & _ & _ & Ha & _) w Hw. unfold encodeHashableFields, hashable_bytes.
  rewrite (emits_B _ w Hw). unfold WriteU32LE, WriteU64LE. rewrite !emits_bytes by done.
  rewrite (emits_varuint _ (mkWriter _ None)) by done.
  rewrite (signers_emit _ Hs) by done.
  rewrite (emits_varuint _ (mkWriter _ None)) by done.
  rewrite (attrs_emit _ Ha) by done.
  rewrite emits_varbytes by done. cbn [w_buf].
  by rewrite <- !app_assoc.
Qed.

Lemma tx_emits K t :
  Forall (signer_ok (key_ok P256)) (t_Signers t) → tx_ok K t → scripts_ok t →
  emits (tx_EncodeBinary t) (tx_bytes t).
Proof.
  intros Hs Ht [Hw Hl] w Hwr. unfold tx_EncodeBinary, tx_bytes, scripts_bytes.
  rewrite (hashable_emits K t Hs Ht w Hwr). rewrite (emits_varuint _ (mkWriter _ None)) by done.
  rewrite (witnesses_emit _ Hw) by done. cbn [w_buf]. by rewrite <- !app_assoc.
Qed.

(** The decoder on the signed fields, with and without the slice it reads. *)
Lemma hashable_parses t rest buf :
  tx_ok (key_ok P256) t → (buf = None ∨ buf = Some (hashable_bytes t ++ rest)) →
  decodeHashableFields (mkReader (hashable_bytes t ++ rest) None) buf
  = (match buf with None => signed_part t | Some _ => set_hash (signed_part t) (sha256 (hashable_bytes t)) end,
     mkReader rest None).
Proof.
  intros (Hv & Hn & Hvub & Hsf & Hnf & Hs & Ha & Hlen & Hsc & Hval) Hbuf.
  assert (t_Signers t ≠ []) as Hne.
  { intros He. unfold isValid in Hval. rewrite He in Hval. repeat case_bool_decide; done. }
  assert (t_Signers t ≠ [] → 0 < Z.of_nat (length (t_Signers t))) as Hpos.
  { destruct (t_Signers t); cbn; [done|lia]. }
  specialize (Hpos Hne). unfold MaxAttributes, MaxScriptLength in *.
  unfold decodeHashableFields.
  replace (from_option _ 0 buf) with 0.
  2: { destruct Hbuf as [->| ->]; [done|]. cbn. unfold r_len. cbn. lia. }
  set (sha := sha256 (hashable_bytes t)).
  unfold hashable_bytes. rewrite <- !app_assoc. cbn [app]. cbv zeta. rewrite parses_B by done. rewrite parses_u32 by done.
  rewrite !parses_u64 by apply (wrap_u_range 64 _ ltac:(lia)). rewrite parses_u32 by done.
  rewrite ReadVarUint_app by lia. cbn [r_err]. rewrite !i64_u64 by done.
  rewrite (bool_decide_eq_false_2 (MaxAttributes < _)) by (unfold MaxAttributes; lia).
  rewrite (bool_decide_eq_false_2 (_ = 0)) by lia. rewrite !Nat2Z.id.
  rewrite (signers_parse _ _ Hs), ReadVarUint_app by lia.
  rewrite (bool_decide_eq_false_2 (MaxAttributes - _ < _)) by (unfold MaxAttributes; lia).
  rewrite Nat2Z.id, (attrs_parse _ _ Ha). unfold varbytes at 1. rewrite <- app_assoc.
  rewrite ReadVarBytes_app by (unfold MaxScriptLength; lia). cbn [default from_option id r_err].
  fold (signed_part t). replace (isValid (signed_part t)) with (@Ok ioerr unit tt) by (rewrite <- Hval; by destruct t).
  destruct Hbuf as [->| ->]; [done|]. cbn [from_option]. unfold r_len. cbn [r_buf].
  change (Z.to_nat 0) with 0%nat. rewrite drop_0, Z.sub_0_r, length_app.
  rewrite take_app_length' by lia. done.
Qed.

Lemma scripts_parses t rest :
  scripts_ok t → Z.of_nat (length (t_Signers t)) <= MaxAttributes →
  ReadVarUint (mkReader (scripts_bytes (t_Scripts t) ++ rest) None)
    = (Z.of_nat (length (t_Signers t)), mkReader (concat (map enc_bytes (t_Scripts t)) ++ rest) None)
  ∧ read_elems (length (t_Signers t)) (mkReader (concat (map enc_bytes (t_Scripts t)) ++ rest) None)
    = (t_Scripts t, mkReader rest None).
Proof.
  intros [Hw Hl] Hm. unfold MaxAttributes in *. rewrite <- Hl. split.
  - unfold scripts_bytes. by rewrite <- app_assoc, ReadVarUint_app by lia.
  - by apply (read_elems_ok (A := Witness)).
Qed.

Lemma signers_bound K t : tx_ok K t → Z.of_nat (length (t_Signers t)) <= MaxAttributes.
Proof. intros (_ & _ & _ & _ & _ & _ & _ & Hl & _). lia. Qed.

Lemma signed_part_ok K t ws h : tx_ok K t → tx_ok K (set_hash (set_scripts (signed_part t) ws) h).
Proof. by destruct t. Qed.

(** Both decoders read back the bytes of a transaction. *)
Lemma noSize_parses t rest buf :
  tx_ok (key_ok P256) t → scripts_ok t → (buf = None ∨ buf = Some (tx_bytes t ++ rest)) →
  decodeBinaryNoSize (mkReader (tx_bytes t ++ rest) None) buf
  = (set_hash (set_scripts (signed_part t) (t_Scripts t)) (sha256 (hashable_bytes t)), mkReader rest None).
Proof.
  intros Ht Hw Hbuf. pose proof (signers_bound _ _ Ht) as Hm. unfold MaxAttributes in Hm.
  unfold decodeBinaryNoSize. unfold tx_bytes in *. rewrite <- app_assoc in *.
  rewrite (hashable_parses t _ buf Ht Hbuf). cbn [r_err].
  destruct (scripts_parses t rest Hw Hm) as [-> Hel].
  rewrite (bool_decide_eq_false_2 (MaxAttributes < _)) by (unfold MaxAttributes; lia).
  replace (t_Signers (match buf with Some _ => _ | None => _ end)) with (t_Signers t)
    by (by destruct buf, t).
  rewrite (bool_decide_eq_false_2 (_ ≠ _)) by lia. rewrite Nat2Z.id, Hel. cbn [r_err].
  destruct Hbuf as [->| ->]; [|by destruct t].
  unfold createHash, EncodeHashableFields.
  assert (encodeHashableFields (set_scripts (signed_part t) (t_Scripts t)) NewBufBinWriter
    = mkWriter (hashable_bytes t) None) as ->; [|done].
  assert (tx_ok (key_ok P256) (set_scripts (signed_part t) (t_Scripts t))) as Ht' by by destruct t.
  assert (Forall (signer_ok (key_ok P256)) (t_Signers t)) as Hs by apply Ht.
  exact (hashable_emits _ _ Hs Ht' NewBufBinWriter eq_refl).
Qed.

(** The decoder over a stream computes the size as well. *)
Lemma tx_parses t rest :
  tx_ok (key_ok P256) t → scripts_ok t → tx_DecodeBinary (mkReader (tx_bytes t ++ rest) None) = (tx_filled t, mkReader rest None).
Proof.
  intros Ht Hw. assert (Forall (signer_ok (key_ok P256)) (t_Signers t)) as Hs by apply Ht.
  unfold tx_DecodeBinary. rewrite noSize_parses by (done || by left). cbn [r_err].
  f_equal. unfold tx_Size.
  set (t' := set_hash _ _). change (t_size t') with 0.
  rewrite bool_decide_eq_true_2 by done. cbn [snd].
  assert (tx_ok (key_ok P256) t') as Ht' by (destruct t; exact Ht).
  by rewrite (tx_emits _ t' Hs Ht' Hw NewBufBinWriter eq_refl).
Qed.
End tx_codec.

(** ** Validity *)

(** The types of the attributes that may be there only once. *)
Definition single_types (l : list Attribute) : list Z :=
  filter (λ t, t ≠ ConflictsT) (map at_Type l).

Lemma check_attrs_spec f l :
  wf_field f → length f = length (New 256) → Forall (λ a, 0 <= at_Type a < 256) l →
  check_attrs f l = (if bool_decide (NoDup (single_types l) ∧ Forall (λ t, bit f t = false) (single_types l))
    then Ok tt else Err ErrInvalidAttribute).
Proof.
  intros Hf Hlen Hl. revert f Hf Hlen. induction Hl as [|[t v] l Ht Hl IH]; intros f Hf Hlen; [done|].
  cbn [check_attrs at_Type] in *. unfold allowMultiple, single_types in *. cbn [map at_Type].
  case_bool_decide as Hc.
  { rewrite (IH f Hf Hlen), filter_cons_False by (intros Hn; by apply Hn). done. }
  rewrite filter_cons_True by done.
  assert (Z.to_nat (t / 64) < length f)%nat as Hin by (rewrite Hlen; by apply New_in_range).
  rewrite IsSet_spec by (done || lia). cbn [mbind res_bind].
  destruct (bit f t) eqn:Hb.
  { rewrite bool_decide_eq_false_2; [done|]. intros [_ Hall]. apply Forall_cons in Hall as [? _]. congruence. }
  destruct (Set_spec (E := ioerr) f t Hf ltac:(lia) Hin) as (f' & -> & Hf' & Hlen' & Hbit). cbn [mbind res_bind].
  rewrite (IH f' Hf') by congruence.
  match goal with |- (if bool_decide ?P then _ else _) = (if bool_decide ?Q then _ else _) =>
    assert (bool_decide P = bool_decide Q) as ->; [|done] end.
  apply bool_decide_ext.
  rewrite NoDup_cons, Forall_cons, !Forall_forall. split.
  - intros [Hnd Hall]. split; [split; [|done]|split; [done|]].
    + intros Hin'. specialize (Hall _ Hin'). cbn in Hall.
      rewrite Hbit, (bool_decide_eq_true_2 (t = t)) in Hall by done. done.
    + intros x Hx. specialize (Hall _ Hx). cbn in Hall.
      rewrite Hbit in Hall. by apply orb_false_elim in Hall as [_ ?].
  - intros [[Hni Hnd] [_ Hall]]. split; [done|]. intros x Hx. rewrite Hbit, (Hall _ Hx).
    rewrite bool_decide_eq_false_2; [done|]. by intros ->.
Qed.

Lemma repeated_signer_spec l : repeated_signer l = false ↔ NoDup (map sg_Account l).
Proof.
  induction l as [|s l IH]; cbn; [split; [constructor|done]|].
  rewrite NoDup_cons, orb_false_iff, IH. apply and_iff_compat_r.
  rewrite <- not_true_iff_false, existsb_exists, list_elem_of_fmap. setoid_rewrite bool_decide_eq_true.
  setoid_rewrite list_elem_of_In. naive_solver.
Qed.

(** What a valid transaction is, as a condition on its fields. *)
Definition valid_fields (t : Transaction) : Prop :=
  t_Version t <= 0 ∧ 0 <= t_SystemFee t ∧ 0 <= t_NetworkFee t ∧ t_NetworkFee t + t_SystemFee t < 2 ^ 63 ∧
  t_Signers t ≠ [] ∧ NoDup (map sg_Account (t_Signers t)) ∧ NoDup (single_types (t_Attributes t)) ∧
  t_Script t ≠ [].

Lemma fees_overflow s n :
  0 <= s < 2 ^ 63 → 0 <= n < 2 ^ 63 → i64 (n + s) < s ↔ 2 ^ 63 <= n + s.
Proof.
  intros Hs Hn. unfold wrap_s. change (64 - 1) with 63.
  destruct (decide (n + s < 2 ^ 63)).
  - rewrite Z.mod_small by lia. lia.
  - replace (n + s + 2 ^ 63) with (n + s - 2 ^ 63 + 1 * 2 ^ 64) by lia.
    rewrite Z.mod_add, Z.mod_small by lia. lia.
Qed.

Lemma isValid_cases t :
  Forall (λ a, 0 <= at_Type a < 256) (t_Attributes t) →
  - 2 ^ 63 <= t_SystemFee t < 2 ^ 63 → - 2 ^ 63 <= t_NetworkFee t < 2 ^ 63 →
  (isValid t = Ok tt ↔ valid_fields t) ∧ isValid t ≠ Panic.
Proof.
  intros Ha Hs Hn. unfold isValid, valid_fields.
  destruct (decide (0 < t_Version t)); [rewrite bool_decide_eq_true_2 by done; split; [split; [done|lia]|done]|].
  rewrite bool_decide_eq_false_2 by done.
  destruct (decide (t_SystemFee t < 0)); [rewrite bool_decide_eq_true_2 by done; split; [split; [done|lia]|done]|].
  rewrite bool_decide_eq_false_2 by done.
  destruct (decide (t_NetworkFee t < 0)); [rewrite bool_decide_eq_true_2 by done; split; [split; [done|lia]|done]|].
  rewrite bool_decide_eq_false_2 by done.
  pose proof (fees_overflow (t_SystemFee t) (t_NetworkFee t) ltac:(lia) ltac:(lia)) as Hov.
  destruct (decide (i64 (t_NetworkFee t + t_SystemFee t) < t_SystemFee t));
    [rewrite bool_decide_eq_true_2 by done; split; [split; [done|lia]|done]|].
  rewrite bool_decide_eq_false_2 by done.
  case_bool_decide as He; [split; [split; [done|naive_solver]|done]|].
  pose proof (repeated_signer_spec (t_Signers t)) as Hrs.
  destruct (repeated_signer (t_Signers t)).
  { split; [split; [done|]|done]. intros (_ & _ & _ & _ & _ & Hnd & _). by apply Hrs in Hnd. }
  rewrite (check_attrs_spec _ _ (New_wf 256) eq_refl Ha).
  unfold mbind, res_bind. case_bool_decide as Hat.
  2: { split; [split; [done|]|done]. intros (_ & _ & _ & _ & _ & _ & Hnd & _). destruct Hat. split; [done|].
       apply Forall_forall. intros x _. apply New_bit. }
  case_bool_decide as Hsc; [split; [split; [done|naive_solver]|done]|].
  split; [|done]. split; [|done]. intros _. split_and!; try lia; try done; [by apply Hrs|by destruct Hat].
Qed.

Lemma attrs_in_range l : Forall attr_ok l → Forall (λ a, 0 <= at_Type a < 256) l.
Proof.
  intros Ha. eapply Forall_impl; [exact Ha|]. intros [ty [[]|]]; unfold attr_ok; cbn;
    unfold ReservedLowerBound, ReservedUpperBound, OracleResponseT, NotValidBeforeT, ConflictsT,
      NotaryAssistedT, HighPriority; lia.
Qed.

Section tx_decode.
Context `{Digest}.

Lemma uint_LE_i64 z : 0 <= z < 256 ^ Z.of_nat 8 → - 2 ^ 63 <= i64 z < 2 ^ 63.
Proof. intros _. apply (wrap_s_range 64). lia. Qed.

Lemma hashable_yields r buf t r' :
  decodeHashableFields r buf = (t, r') → r_err r' = None →
  r_err r = None ∧ tx_ok key_reduced t ∧
  match buf with
  | Some b => t_hashed t = true ∧
      ∃ k, t_hash t = sha256 (take k (drop (Z.to_nat (Z.of_nat (length b) - r_len r)) b))
  | None => True
  end.
Proof.
  unfold decodeHashableFields. intros E Hr'. revert E.
  destruct (ReadB r) as [version r1] eqn:E1. destruct (ReadU32LE r1) as [nonce r2] eqn:E2.
  destruct (ReadU64LE r2) as [sysfee r3] eqn:E3. destruct (ReadU64LE r3) as [netfee r4] eqn:E4.
  destruct (ReadU32LE r4) as [vub r5] eqn:E5. destruct (ReadVarUint r5) as [nsigners r6] eqn:E6. cbv zeta.
  destruct (r_err r6) eqn:Er6; [intros [= <- <-]; congruence|].
  destruct (yields_varuint _ _ _ E6 Er6) as [Er5 Hns]. destruct (yields_uint_le 4 _ _ _ E5 Er5) as [Er4 Hvub].
  destruct (yields_uint_le 8 _ _ _ E4 Er4) as [Er3 Hnf]. destruct (yields_uint_le 8 _ _ _ E3 Er3) as [Er2 Hsf].
  destruct (yields_uint_le 4 _ _ _ E2 Er2) as [Er1 Hn]. destruct (yields_B _ _ _ E1 Er1) as [Er Hv].
  destruct (decide (MaxAttributes < nsigners)) as [Hmax|Hmax];
    [rewrite bool_decide_eq_true_2 by done; by intros [= <- <-]|rewrite bool_decide_eq_false_2 by done].
  destruct (decide (nsigners = 0)) as [Hz|Hz];
    [rewrite bool_decide_eq_true_2 by done; by intros [= <- <-]|rewrite bool_decide_eq_false_2 by done].
  destruct (read_elems (A := Signer) (Z.to_nat nsigners) r6) as [signers r7] eqn:E7.
  destruct (ReadVarUint r7) as [nattrs r8] eqn:E8.
  destruct (decide (MaxAttributes - nsigners < nattrs)) as [Hma|Hma];
    [rewrite bool_decide_eq_true_2 by done; by intros [= <- <-]|rewrite bool_decide_eq_false_2 by done].
  destruct (read_elems (A := Attribute) (Z.to_nat nattrs) r8) as [attrs r9] eqn:E9.
  destruct (ReadVarBytes MaxScriptLength r9) as [script r10] eqn:E10.
  set (t0 := mkTx _ _ _ _ _ _ _ _ _ _ _ _ _).
  set (r11 := match r_err r10 with None => _ | _ => _ end).
  intros E. assert (r_err r11 = None) as Er11 by (destruct buf; injection E as <- <-; done).
  assert (r_err r10 = None ∧ isValid t0 = Ok tt) as [Er10 Hval].
  { subst r11. destruct (r_err r10) eqn:Er10; [congruence|]. by destruct (isValid t0) as [[]| |]. }
  destruct (yields_varbytes MaxScriptLength ltac:(unfold MaxScriptLength; lia) _ _ _ E10 Er10) as [Er9 Hsc].
  destruct (read_elems_yields attr_serializable _ _ attr_yields _ _ _ E9 Er9) as [Er8 [Hat Hal]].
  destruct (yields_varuint _ _ _ E8 Er8) as [Er7 Hnat].
  destruct (read_elems_yields signer_serializable _ _ signer_yields _ _ _ E7 Er7) as [_ [Hsi Hsl]].
  split; [done|].
  assert (tx_ok key_reduced (mkTx version nonce (i64 sysfee) (i64 netfee) vub (default [] script) attrs
    signers [] 0 zero256 false false)) as Hok.
  { unfold tx_ok. cbn [t_Version t_Nonce t_ValidUntilBlock t_SystemFee t_NetworkFee t_Signers t_Attributes t_Script].
    split; [exact Hv|]. split; [exact Hn|]. split; [exact Hvub|].
    split; [by apply uint_LE_i64|]. split; [by apply uint_LE_i64|]. split; [exact Hsi|].
    split; [eapply Forall_impl; [exact Hat|]; by intros ? []|]. split; [lia|]. split; [exact Hsc|exact Hval]. }
  split; [by destruct buf; injection E as <- <-|].
  destruct buf; [|done]. injection E as <- <-. split; [done|]. by eexists.
Qed.

Lemma noSize_yields r buf t r' :
  decodeBinaryNoSize r buf = (t, r') → r_err r' = None →
  tx_ok key_reduced t ∧ scripts_ok t ∧
  match buf with
  | Some b => t_hashed t = true ∧
      ∃ k, t_hash t = sha256 (take k (drop (Z.to_nat (Z.of_nat (length b) - r_len r)) b))
  | None => True
  end.
Proof.
  unfold decodeBinaryNoSize. intros E Hr'. revert E.
  destruct (decodeHashableFields r buf) as [t1 r1] eqn:E1.
  destruct (r_err r1) eqn:Er1; [intros [= <- <-]; congruence|].
  destruct (ReadVarUint r1) as [n r2] eqn:E2.
  destruct (decide (MaxAttributes < n));
    [rewrite bool_decide_eq_true_2 by done; by intros [= <- <-]|rewrite bool_decide_eq_false_2 by done].
  destruct (decide (n = Z.of_nat (length (t_Signers t1)))) as [->|];
    [|rewrite bool_decide_eq_true_2 by done; by intros [= <- <-]].
  rewrite (bool_decide_eq_false_2 (_ ≠ _)) by auto. rewrite Nat2Z.id.
  destruct (read_elems (A := Witness) (length (t_Signers t1)) r2) as [ws r3] eqn:E3.
  destruct (hashable_yields _ _ _ _ E1 Er1) as (_ & Ht & Hh).
  assert (r_err r3 = None → scripts_ok (set_scripts t1 ws)) as Hws.
  { intros Er3. by destruct (read_elems_yields witness_serializable _ _ witness_yields _ _ _ E3 Er3) as [_ Hws]. }
  assert (tx_ok key_reduced (set_scripts t1 ws)) as Ht' by exact Ht.
  destruct (r_err r3) eqn:Er3; [intros [= <- <-]; congruence|]. specialize (Hws eq_refl).
  destruct buf; [by intros [= <- <-]|]. unfold createHash.
  destruct (EncodeHashableFields (set_scripts t1 ws)) as [h| |]; cbn [mbind res_bind];
    by intros [= <- <-].
Qed.

Lemma hashable_no_size r buf : t_size (decodeHashableFields r buf).1 = 0.
Proof.
  unfold decodeHashableFields. destruct (ReadB r) as [version r1]. destruct (ReadU32LE r1) as [nonce r2].
  destruct (ReadU64LE r2) as [sysfee r3]. destruct (ReadU64LE r3) as [netfee r4].
  destruct (ReadU32LE r4) as [vub r5]. destruct (ReadVarUint r5) as [nsigners r6]. cbv zeta.
  destruct (r_err r6); [done|]. case_bool_decide; [done|]. case_bool_decide; [done|].
  destruct (read_elems _ r6) as [signers r7]. destruct (ReadVarUint r7) as [nattrs r8]. case_bool_decide; [done|].
  destruct (read_elems _ r8) as [attrs r9]. destruct (ReadVarBytes _ r9) as [script r10]. by destruct buf.
Qed.

(** What the decoder over a stream accepts: the hash is that of what it would
    write, and so is the size. *)
Definition tx_accepted (t : Transaction) : Prop :=
  tx_ok key_reduced t ∧ scripts_ok t ∧ t_hashed t = true
  ∧ (∃ p, EncodeHashableFields t = Ok p ∧ t_hash t = sha256 p)
  ∧ t_size t = Z.of_nat (length (w_buf (tx_EncodeBinary t NewBufBinWriter))).

Lemma tx_yields : yields tx_accepted tx_DecodeBinary.
Proof.
  intros r t r' E Hr'. unfold tx_DecodeBinary in E. destruct (decodeBinaryNoSize r None) as [t1 r1] eqn:E1.
  assert (r1 = r') as -> by (by destruct (r_err r1); injection E as <- <-). rewrite Hr' in E. injection E as <-.
  destruct (noSize_yields _ _ _ _ E1 Hr') as (Hok & Hsc & _). revert E1. unfold decodeBinaryNoSize.
  destruct (decodeHashableFields r None) as [t2 r2] eqn:E2. destruct (r_err r2) eqn:Er2; [intros [= <- <-]; congruence|].
  destruct (hashable_yields _ _ _ _ E2 Er2) as (Er & _ & _). destruct (ReadVarUint r2) as [n r3].
  case_bool_decide; [by intros [= <- <-]|]. case_bool_decide; [by intros [= <- <-]|].
  destruct (read_elems _ r3) as [ws r4]. destruct (r_err r4) eqn:Er4; [intros [= <- <-]; congruence|].
  unfold createHash. destruct (EncodeHashableFields (set_scripts t2 ws)) as [p| |] eqn:Ep; cbn [mbind res_bind]; [|by intros [= <- <-]..].
  pose proof (hashable_no_size r None) as Hz. rewrite E2 in Hz. cbn [fst] in Hz.
  intros [= <- <-]. split; [done|]. unfold tx_Size. cbn [t_size set_hash set_scripts]. rewrite Hz, bool_decide_eq_true_2 by done.
  split; [by destruct t2|]. split; [by destruct t2|]. split; [done|]. split; [|done].
  exists p. by rewrite <- Ep.
Qed.

End tx_decode.

(** ** Properties *)

(** C16: the binary form of a transaction: what [Bytes] writes of a valid
    transaction, both decoders read back, the one over a slice and the one over
    a stream, with every field, the hash of the signed part and the size.  The
    hash is SHA256 applied once; the comment of the field (transaction.go:71) says
    twice, which the code does not do. *)
Theorem tx_roundtrip `{Digest} (t : Transaction) (rest : bytes) :
  tx_ok (key_ok P256) t → scripts_ok t →
  ∃ b, tx_Bytes t = Some b
    ∧ NewTransactionFromBytes b = Ok (tx_filled t)
    ∧ tx_DecodeBinary (mkReader (b ++ rest) None) = (tx_filled t, mkReader rest None).
Proof.
  intros Ht Hw. assert (Forall (signer_ok (key_ok P256)) (t_Signers t)) as Hs by apply Ht.
  exists (tx_bytes t). split; [|split].
  - unfold tx_Bytes. by rewrite (tx_emits _ t Hs Ht Hw NewBufBinWriter eq_refl).
  - unfold NewTransactionFromBytes, NewBinReaderFromBuf.
    rewrite <- (app_nil_r (tx_bytes t)) at 1. rewrite noSize_parses; [|done..|right; by rewrite app_nil_r].
    done.
  - by apply tx_parses.
Qed.

(** C17: whatever bytes are accepted as a transaction, it is valid: no version
    but 0, fees that are not negative and do not overflow together, signers
    that are there and distinct with admissible scopes and rules, no attribute
    twice but [Conflicts], a script of 1 to 65535 bytes, a witness for each
    signer; its hash is that of a leading part of the bytes and its size theirs.
    Validity never panics. *)
Theorem accepted_tx_valid `{Digest} (b : bytes) (t : Transaction) :
  NewTransactionFromBytes b = Ok t →
  valid_fields t ∧ Forall (signer_ok key_reduced) (t_Signers t) ∧ Forall attr_ok (t_Attributes t)
  ∧ Z.of_nat (length (t_Signers t)) + Z.of_nat (length (t_Attributes t)) <= MaxAttributes
  ∧ Z.of_nat (length (t_Script t)) <= MaxScriptLength
  ∧ length (t_Scripts t) = length (t_Signers t) ∧ Forall witness_ok (t_Scripts t)
  ∧ t_size t = Z.of_nat (length b) ∧ ∃ k, t_hash t = sha256 (take k b).
Proof.
  unfold NewTransactionFromBytes. intros E.
  destruct (decodeBinaryNoSize (NewBinReaderFromBuf b) (Some b)) as [t1 r] eqn:E1.
  destruct (r_err r) eqn:Er; [done|]. revert E.
  case_bool_decide; [done|]. intros [= <-].
  destruct (noSize_yields _ _ _ _ E1 Er) as (Ht & [Hw Hl] & _ & k & Hh).
  destruct Ht as (Hv & Hn & Hvub & Hsf & Hnf & Hs & Ha & Hlen & Hsc & Hval).
  apply (isValid_cases t1 (attrs_in_range _ Ha) Hsf Hnf) in Hval.
  cbn [t_Signers t_Attributes t_Script t_Scripts t_size t_hash set_size].
  do 8 (split; [done|]). exists k. rewrite Hh. f_equal. f_equal.
  unfold r_len. cbn. by rewrite Z.sub_diag, drop_0.
Qed.

(** *** Malleability *)

Definition ex_tx_signer : Signer := mkSigner (replicate Uint160Size x05) ScopeCalledByEntry [] [] [].
Definition ex_tx : Transaction :=
  mkTx 0 7 100 200 1000 [x40] [] [ex_tx_signer] [mkWitness [x01] [x02; x03]] 0 zero256 false false.

(** The bytes of [ex_tx] with the number of signers in three bytes. *)
Definition ex_tx_long : bytes :=
  take 25 (tx_bytes ex_tx) ++ [xfd; x01; x00] ++ drop 26 (tx_bytes ex_tx).

(** The bytes of a transaction are not determined by it: lengths may be
    written in more bytes than they need.  The decoder over a slice, which reads
    what comes from other nodes and over RPC, hashes the bytes as they came; the
    decoder over a stream, which reads blocks, hashes what it would write
    itself.  One byte string then is two transactions with different data
    under their hash, and one of them does not survive being sent on. *)
Theorem tx_hash_malleable `{Digest} :
  ∃ t1 t2 p1 p2, NewTransactionFromBytes (tx_bytes ex_tx) = Ok t1
    ∧ NewTransactionFromBytes ex_tx_long = Ok t2
    ∧ signed_part t1 = signed_part t2 ∧ t_Scripts t1 = t_Scripts t2
    ∧ t_hash t1 = sha256 p1 ∧ t_hash t2 = sha256 p2 ∧ p1 ≠ p2
    ∧ tx_Bytes t2 = Some (tx_bytes ex_tx)
    ∧ t_hash (tx_DecodeBinary (mkReader ex_tx_long None)).1 = sha256 p1.
Proof.
  eexists _, _, (hashable_bytes ex_tx), (take 25 (hashable_bytes ex_tx) ++ [xfd; x01; x00] ++ drop 26 (hashable_bytes ex_tx)).
  split_and!; try (vm_compute; reflexivity). vm_compute. discriminate.
Qed.

Lemma ex_tx_ok : tx_ok (key_ok P256) ex_tx ∧ scripts_ok ex_tx.
Proof.
  split; [|split; [repeat constructor|done]]; [unfold tx_ok; split_and!; try done; repeat constructor; done|..];
    unfold MaxInvocationScript, MaxVerificationScript; cbn; lia.
Qed.

(** ** Witnesses *)

Lemma tx_roundtrip_witness :
  tx_ok (key_ok P256) ex_tx ∧
  ∃ b, tx_Bytes ex_tx = Some b
    ∧ NewTransactionFromBytes (H := toy_Digest) b = Ok (tx_filled (H := toy_Digest) ex_tx)
    ∧ tx_DecodeBinary (H := toy_Digest) (mkReader (b ++ [x01]) None)
      = (tx_filled (H := toy_Digest) ex_tx, mkReader [x01] None).
Proof.
  split; [exact (proj1 ex_tx_ok)|].
  exact (@tx_roundtrip toy_Digest ex_tx [x01] (proj1 ex_tx_ok) (proj2 ex_tx_ok)).
Defined.

Lemma accepted_tx_valid_witness :
  NewTransactionFromBytes (H := toy_Digest) (tx_bytes ex_tx) = Ok (tx_filled (H := toy_Digest) ex_tx)
  ∧ valid_fields (tx_filled (H := toy_Digest) ex_tx).
Proof.
  assert (NewTransactionFromBytes (H := toy_Digest) (tx_bytes ex_tx) = Ok (tx_filled (H := toy_Digest) ex_tx))
    as E by (vm_compute; reflexivity).
  split; [exact E|]. apply (@accepted_tx_valid toy_Digest _ _ E).
Defined.
