(* ===== verification/Mempool.v ===== *)
(** * Mempool: the pool of transactions that wait for a block

    Models [pkg/core/mempool/mem_pool.go].  A pool keeps its transactions
    sorted by priority and, next to them, what it needs to answer quickly: the
    transactions by hash, the fees each payer owes, the hashes that pooled
    transactions conflict with and the oracle responses they carry.

    Transactions are values with their hash: [tx_hash] is what [Hash] answers,
    which a transaction keeps once computed.  An operation on the pool under
    its lock is a function on [Pool]; events are collected in [mp_emitted].  A
    transaction in the maps that is not in the pool is a nil pointer, and to use
    it is a [Panic]. *)

From S2P Require Import Prelude BinIO Codec Hash Bitfield Keys Witness Tx.

#[local] Open Scope Z_scope.

Inductive mperr :=
  | ErrInsufficientFunds
  | ErrConflict
  | ErrDup
  | ErrOOM
  | ErrConflictsAttribute
  | ErrOracleResponse.

#[export] Instance mperr_eq_dec : EqDecision mperr.
Proof. solve_decision. Defined.

(** The [Feer] the pool asks about fees, balances and the height. *)
Record Feer := mkFeer {
  fr_FeePerByte : Z;
  fr_GetUtilityTokenBalance : bytes → Z;
  fr_BlockHeight : Z;
}.

Record mitem := mkItem { it_txn : Transaction; it_blockStamp : Z; it_data : option Z }.

(** Balance and fees are [uint256.Int]s. *)
Record utilityBalanceAndFees := mkFees { uf_balance : Z; uf_feeSum : Z }.

Abbreviation u256 := (wrap_u 256).

Inductive Event := TransactionAdded (i : mitem) | TransactionRemoved (i : mitem).

Record Pool := mkPool {
  mp_verifiedMap : gmap bytes Transaction;
  mp_verifiedTxes : list mitem;
  mp_fees : gmap bytes utilityBalanceAndFees;
  mp_conflicts : gmap bytes (list bytes);
  mp_oracleResp : gmap Z bytes;
  mp_capacity : Z;
  mp_feePerByte : Z;
  mp_payerIndex : nat;
  mp_subscriptionsOn : bool;
  mp_resendThreshold : Z;
  mp_emitted : list Event;
}.

Definition set_map (mp : Pool) m := mkPool m (mp_verifiedTxes mp) (mp_fees mp) (mp_conflicts mp) (mp_oracleResp mp)
  (mp_capacity mp) (mp_feePerByte mp) (mp_payerIndex mp) (mp_subscriptionsOn mp) (mp_resendThreshold mp) (mp_emitted mp).
Definition set_txes (mp : Pool) l := mkPool (mp_verifiedMap mp) l (mp_fees mp) (mp_conflicts mp) (mp_oracleResp mp)
  (mp_capacity mp) (mp_feePerByte mp) (mp_payerIndex mp) (mp_subscriptionsOn mp) (mp_resendThreshold mp) (mp_emitted mp).
Definition set_fees (mp : Pool) f := mkPool (mp_verifiedMap mp) (mp_verifiedTxes mp) f (mp_conflicts mp) (mp_oracleResp mp)
  (mp_capacity mp) (mp_feePerByte mp) (mp_payerIndex mp) (mp_subscriptionsOn mp) (mp_resendThreshold mp) (mp_emitted mp).
Definition set_conflicts (mp : Pool) c := mkPool (mp_verifiedMap mp) (mp_verifiedTxes mp) (mp_fees mp) c (mp_oracleResp mp)
  (mp_capacity mp) (mp_feePerByte mp) (mp_payerIndex mp) (mp_subscriptionsOn mp) (mp_resendThreshold mp) (mp_emitted mp).
Definition set_oracle (mp : Pool) o := mkPool (mp_verifiedMap mp) (mp_verifiedTxes mp) (mp_fees mp) (mp_conflicts mp) o
  (mp_capacity mp) (mp_feePerByte mp) (mp_payerIndex mp) (mp_subscriptionsOn mp) (mp_resendThreshold mp) (mp_emitted mp).
Definition set_policy (mp : Pool) f := mkPool (mp_verifiedMap mp) (mp_verifiedTxes mp) (mp_fees mp) (mp_conflicts mp) (mp_oracleResp mp)
  (mp_capacity mp) f (mp_payerIndex mp) (mp_subscriptionsOn mp) (mp_resendThreshold mp) (mp_emitted mp).

(** An event goes to the subscribers when there are any. *)
Definition emit (mp : Pool) (e : Event) : Pool :=
  if mp_subscriptionsOn mp then
    mkPool (mp_verifiedMap mp) (mp_verifiedTxes mp) (mp_fees mp) (mp_conflicts mp) (mp_oracleResp mp)
      (mp_capacity mp) (mp_feePerByte mp) (mp_payerIndex mp) (mp_subscriptionsOn mp) (mp_resendThreshold mp)
      (mp_emitted mp ++ [e])
  else mp.

Definition NewPool (capacity : Z) (payerIndex : nat) : Pool :=
  mkPool ∅ [] ∅ ∅ ∅ capacity 0 payerIndex false 0 [].

Definition SetResendThreshold (mp : Pool) (h : Z) : Pool :=
  mkPool (mp_verifiedMap mp) (mp_verifiedTxes mp) (mp_fees mp) (mp_conflicts mp) (mp_oracleResp mp)
    (mp_capacity mp) (mp_feePerByte mp) (mp_payerIndex mp) (mp_subscriptionsOn mp) h (mp_emitted mp).

Section pool.
Context `{Digest}.

(** [t.Hash()] and [t.FeePerByte()]; a transaction that cannot be encoded has
    no hash, and one with an empty encoding no fee per byte: both panic. *)
Definition tx_hash (t : Transaction) : bytes :=
  match tx_Hash t with Ok (h, _) => h | _ => [] end.

Definition fee_per_byte (t : Transaction) : Z :=
  match tx_FeePerByte t with Ok (f, _) => f | _ => 0 end.

(** The sum of both fees as [uint64(t.SystemFee + t.NetworkFee)]. *)
Definition tx_fees (t : Transaction) : Z := u64 (i64 (t_SystemFee t + t_NetworkFee t)).

(** [tx.Signers[mp.payerIndex].Account] *)
Definition payer_of (mp : Pool) (t : Transaction) : option bytes := sg_Account <$> t_Signers t !! mp_payerIndex mp.

(** The hashes of the [Conflicts] attributes, in order. *)
Definition conflict_hashes (t : Transaction) : list bytes :=
  omap (λ a, match at_Value a with Some (Conflicts h) => Some h | _ => None end) (GetAttributes t ConflictsT).

(** The identifier of the first oracle response attribute. *)
Definition oracle_id (t : Transaction) : option Z :=
  match GetAttributes t OracleResponseT with
  | a :: _ => match at_Value a with Some (OracleResponse id _ _) => Some id | _ => None end
  | [] => None
  end.

(** *** Priorities *)

Definition Compare (p otherP : mitem) : Z :=
  let pHigh := HasAttribute (it_txn p) HighPriority in
  let otherHigh := HasAttribute (it_txn otherP) HighPriority in
  if pHigh && negb otherHigh then 1
  else if negb pHigh && otherHigh then -1
  else
    let ret := i64 (fee_per_byte (it_txn p) - fee_per_byte (it_txn otherP)) in
    if bool_decide (ret ≠ 0) then ret
    else i64 (t_NetworkFee (it_txn p) - t_NetworkFee (it_txn otherP)).

(** [sort.Search]: the loop of the binary search for the first index in
    [[i, j)] at which [f] holds. *)
Fixpoint search_loop (fuel i j : nat) (f : nat → bool) : nat :=
  match fuel with
  | O => i
  | S fuel =>
      if bool_decide (i < j)%nat then
        let h := Nat.div (i + j) 2 in
        if f h then search_loop fuel i h f else search_loop fuel (S h) j f
      else i
  end.

Definition sort_Search (n : nat) (f : nat → bool) : nat := search_loop n 0 n f.

Definition count (mp : Pool) : Z := Z.of_nat (length (mp_verifiedTxes mp)).

Definition containsKey (mp : Pool) (h : bytes) : bool := bool_decide (is_Some (mp_verifiedMap mp !! h)).

Definition HasConflicts (mp : Pool) (t : Transaction) : bool :=
  containsKey mp (tx_hash t) || bool_decide (is_Some (mp_conflicts mp !! tx_hash t))
  || existsb (containsKey mp) (conflict_hashes t).

(** *** Fees *)

Definition checkBalance (tx : Transaction) (balance : utilityBalanceAndFees) : res mperr Z :=
  let txFee := tx_fees tx in
  if bool_decide (uf_balance balance < txFee) then Err ErrInsufficientFunds else
  let txFee := u256 (txFee + uf_feeSum balance) in
  if bool_decide (uf_balance balance < txFee) then Err ErrConflict else Ok txFee.

(** The fees of a payer, asked of the [Feer] when the pool does not know
    them. *)
Definition sender_fee (mp : Pool) (feer : Feer) (payer : bytes) : utilityBalanceAndFees :=
  default (mkFees (u256 (fr_GetUtilityTokenBalance feer payer)) 0) (mp_fees mp !! payer).

Definition tryAddSendersFee (mp : Pool) (tx : Transaction) (feer : Feer) (needCheck : bool)
    : res mperr (bool * Pool) :=
  match payer_of mp tx with
  | None => Panic
  | Some payer =>
      let senderFee := sender_fee mp feer payer in
      let mp := set_fees mp (<[payer := senderFee]> (mp_fees mp)) in
      if needCheck then
        match checkBalance tx senderFee with
        | Ok newFeeSum => Ok (true, set_fees mp (<[payer := mkFees (uf_balance senderFee) newFeeSum]> (mp_fees mp)))
        | _ => Ok (false, mp)
        end
      else
        Ok (true, set_fees mp (<[payer := mkFees (uf_balance senderFee) (u256 (uf_feeSum senderFee + tx_fees tx))]>
                    (mp_fees mp)))
  end.

(** *** Conflicts *)

(** Step 1 of [checkTxConflicts]: pooled transactions whose attributes name
    the new one. *)
Fixpoint conflicting_step1 (mp : Pool) (payer : bytes) (hashes : list bytes) (fee : Z) (rm : list Transaction)
    : res mperr (Z * list Transaction) :=
  match hashes with
  | [] => Ok (fee, rm)
  | h :: hashes =>
      match mp_verifiedMap mp !! h with
      | None => Panic
      | Some existingTx =>
          conflicting_step1 mp payer hashes
            (if HasSigner existingTx payer then i64 (fee + t_NetworkFee existingTx) else fee) (rm ++ [existingTx])
      end
  end.

(** Step 2: pooled transactions that the new one names. *)
Fixpoint conflicting_step2 (mp : Pool) (txSigners : list bytes) (hashes : list bytes) (fee : Z) (rm : list Transaction)
    : res mperr (Z * list Transaction) :=
  match hashes with
  | [] => Ok (fee, rm)
  | h :: hashes =>
      match mp_verifiedMap mp !! h with
      | None => conflicting_step2 mp txSigners hashes fee rm
      | Some existingTx =>
          if existsb (λ s, bool_decide (sg_Account s ∈ txSigners)) (t_Signers existingTx)
          then conflicting_step2 mp txSigners hashes (i64 (fee + t_NetworkFee existingTx)) (rm ++ [existingTx])
          else Err ErrConflictsAttribute
      end
  end.

(** Step 3: the payer does not owe any more the fees of what is to be
    removed. *)
Fixpoint conflicting_step3 (mp : Pool) (payer : bytes) (rm : list Transaction) (f : utilityBalanceAndFees)
    : res mperr utilityBalanceAndFees :=
  match rm with
  | [] => Ok f
  | t :: rm =>
      match payer_of mp t with
      | None => Panic
      | Some p =>
          conflicting_step3 mp payer rm
            (if bool_decide (p = payer) then mkFees (uf_balance f) (u256 (uf_feeSum f - tx_fees t)) else f)
      end
  end.

(** [checkTxConflicts] answers the transactions to remove, or an error, and
    the pool, in which it keeps the balance of a payer who passed. *)
Definition checkTxConflicts (mp : Pool) (tx : Transaction) (fee : Feer) : res mperr (list Transaction * Pool) :=
  match payer_of mp tx with
  | None => Panic
  | Some payer =>
      let actualSenderFee := sender_fee mp fee payer in
      let hashes := default [] (mp_conflicts mp !! tx_hash tx) in
      '(conflictingFee, rm) ← conflicting_step1 mp payer hashes 0 [];
      '(conflictingFee, rm) ← conflicting_step2 mp (map sg_Account (t_Signers tx)) (conflict_hashes tx) conflictingFee rm;
      if bool_decide (conflictingFee ≠ 0) && bool_decide (t_NetworkFee tx <= conflictingFee)
      then Err ErrConflictsAttribute else
      expectedSenderFee ← conflicting_step3 mp payer rm actualSenderFee;
      _ ← checkBalance tx expectedSenderFee;
      Ok (rm, if bool_decide (is_Some (mp_fees mp !! payer)) then mp
              else set_fees mp (<[payer := actualSenderFee]> (mp_fees mp)))
  end.

Definition Verify (mp : Pool) (tx : Transaction) (feer : Feer) : res mperr bool :=
  match checkTxConflicts mp tx feer with
  | Ok _ => Ok true
  | Err _ => Ok false
  | Panic => Panic
  end.

(** *** Removal *)

(** Without the first occurrence of [h]. *)
Fixpoint remove_first (h : bytes) (l : list bytes) : list bytes :=
  match l with
  | [] => []
  | x :: l => if bool_decide (x = h) then l else x :: remove_first h l
  end.

Definition remove_conflict (th : bytes) (conflicts : gmap bytes (list bytes)) (conflictsHash : bytes)
    : gmap bytes (list bytes) :=
  match conflicts !! conflictsHash with
  | None => conflicts
  | Some [_] => delete conflictsHash conflicts
  | Some l => <[conflictsHash := remove_first th l]> conflicts
  end.

Definition removeConflictsOf (mp : Pool) (tx : Transaction) : Pool :=
  set_conflicts mp (fold_left (remove_conflict (tx_hash tx)) (conflict_hashes tx) (mp_conflicts mp)).

Definition removeFromMapWithFeesAndAttrs (mp : Pool) (itm : mitem) : res mperr Pool :=
  let t := it_txn itm in
  let mp := set_map mp (delete (tx_hash t) (mp_verifiedMap mp)) in
  match payer_of mp t with
  | None => Panic
  | Some payer =>
      let senderFee := default (mkFees 0 0) (mp_fees mp !! payer) in
      let mp := set_fees mp (<[payer := mkFees (uf_balance senderFee) (u256 (uf_feeSum senderFee - tx_fees t))]>
                  (mp_fees mp)) in
      let mp := removeConflictsOf mp t in
      let mp := match oracle_id t with
                | Some id => set_oracle mp (delete id (mp_oracleResp mp))
                | None => mp
                end in
      Ok (emit mp (TransactionRemoved itm))
  end.

(** The index at which the loop over the pool stops: the transaction with the
    hash, or the last one. *)
Fixpoint find_num (h : bytes) (l : list mitem) (num : nat) : nat :=
  match l with
  | [] => num
  | [i] => num
  | i :: l => if bool_decide (tx_hash (it_txn i) = h) then num else find_num h l (S num)
  end.

Definition removeInternal (mp : Pool) (h : bytes) : res mperr Pool :=
  match mp_verifiedMap mp !! h with
  | None => Ok mp
  | Some _ =>
      let num := find_num h (mp_verifiedTxes mp) 0 in
      match mp_verifiedTxes mp !! num with
      | None => Panic
      | Some itm =>
          removeFromMapWithFeesAndAttrs
            (set_txes mp (take num (mp_verifiedTxes mp) ++ drop (S num) (mp_verifiedTxes mp))) itm
      end
  end.

Definition Remove (mp : Pool) (h : bytes) : res mperr Pool := removeInternal mp h.

(** *** Addition *)

(** The part of [Add] about oracle responses: a response with the same
    identifier in the pool is replaced if it pays less. *)
Definition replace_oracle (mp : Pool) (t : Transaction) : res mperr Pool :=
  match oracle_id t with
  | None => Ok mp
  | Some id =>
      mp ← match mp_oracleResp mp !! id with
           | None => Ok mp
           | Some h =>
               match mp_verifiedMap mp !! h with
               | None => Panic
               | Some old =>
                   if bool_decide (t_NetworkFee t <= t_NetworkFee old) then Err ErrOracleResponse
                   else removeInternal mp h
               end
           end;
      Ok (set_oracle mp (<[id := tx_hash t]> (mp_oracleResp mp)))
  end.

Fixpoint remove_all (mp : Pool) (rm : list Transaction) : res mperr Pool :=
  match rm with
  | [] => Ok mp
  | t :: rm => mp ← removeInternal mp (tx_hash t); remove_all mp rm
  end.

(** Where the item goes: after all that are not less prioritized. *)
Definition insert_position (pItem : mitem) (l : list mitem) : nat :=
  match last l with
  | None => 0
  | Some lst =>
      if bool_decide (Compare pItem lst = 0) then length l
      else sort_Search (length l) (λ n, match l !! n with Some i => bool_decide (0 < Compare pItem i) | None => false end)
  end.

(** The item is at the end of [l]; [copy] moves what follows [n] by one. *)
Definition shift_in (n : nat) (pItem : mitem) (l : list mitem) : list mitem :=
  if bool_decide (n ≠ (length l - 1)%nat)
  then take n l ++ [pItem] ++ take (length l - 1 - n) (drop n l) else l.

Definition add_conflict (th : bytes) (conflicts : gmap bytes (list bytes)) (h : bytes) : gmap bytes (list bytes) :=
  <[h := default [] (conflicts !! h) ++ [th]]> conflicts.

(** A full pool has room for an item that is not the last one: what is last
    then goes.  The item is put at the end. *)
Definition make_room (mp : Pool) (pItem : mitem) (n : nat) : res mperr Pool :=
  let l := mp_verifiedTxes mp in
  if bool_decide (Z.of_nat (length l) = mp_capacity mp) then
    if bool_decide (n = length l) then Err ErrOOM else
    match last l with
    | None => Panic
    | Some unlucky => removeFromMapWithFeesAndAttrs (set_txes mp (take (length l - 1) l ++ [pItem])) unlucky
    end
  else Ok (set_txes mp (l ++ [pItem])).

(** What happens to the indices once there is room for the item. *)
Definition add_indices (mp : Pool) (pItem : mitem) (fee : Feer) : res mperr Pool :=
  let t := it_txn pItem in
  let mp := set_map mp (<[tx_hash t := t]> (mp_verifiedMap mp)) in
  let mp := set_conflicts mp (fold_left (add_conflict (tx_hash t)) (conflict_hashes t) (mp_conflicts mp)) in
  '(_, mp) ← tryAddSendersFee mp t fee false;
  Ok (emit mp (TransactionAdded pItem)).

(** [Add] answers the pool with the result: also an addition that fails leaves
    traces. *)
Definition Add (mp : Pool) (t : Transaction) (fee : Feer) (data : option Z) : Pool * res mperr unit :=
  let pItem := mkItem t (fr_BlockHeight fee) data in
  if containsKey mp (tx_hash t) then (mp, Err ErrDup) else
  match checkTxConflicts mp t fee with
  | Panic => (mp, Panic)
  | Err e => (mp, Err e)
  | Ok (conflictsToBeRemoved, mp) =>
      match replace_oracle mp t with
      | Panic => (mp, Panic)
      | Err e => (mp, Err e)
      | Ok mp =>
          match remove_all mp conflictsToBeRemoved with
          | Ok mp =>
              let n := insert_position pItem (mp_verifiedTxes mp) in
              match make_room mp pItem n with
              | Ok mp =>
                  let mp := set_txes mp (shift_in n pItem (mp_verifiedTxes mp)) in
                  match add_indices mp pItem fee with
                  | Ok mp => (mp, Ok tt)
                  | Err e => (mp, Err e)
                  | Panic => (mp, Panic)
                  end
              | Err e => (mp, Err e)
              | Panic => (mp, Panic)
              end
          | Err e => (mp, Err e)
          | Panic => (mp, Panic)
          end
      end
  end.

(** *** New blocks *)

Definition loadPolicy (mp : Pool) (feer : Feer) : bool * Pool :=
  let newFeePerByte := fr_FeePerByte feer in
  if bool_decide (mp_feePerByte mp < newFeePerByte) then (true, set_policy mp newFeePerByte) else (false, mp).

Definition checkPolicy (mp : Pool) (tx : Transaction) (policyChanged : bool) : bool :=
  negb policyChanged || bool_decide (mp_feePerByte mp <= fee_per_byte tx).

Definition OnesCount32 (z : Z) : nat := length (filter (λ i, Z.testbit z (Z.of_nat i) = true) (seq 0 32)).

(** Whether it is time to send a transaction again: after the threshold,
    twice, four times the threshold. *)
Definition is_stale (threshold height stamp : Z) : bool :=
  if bool_decide (threshold = 0) then false else
  let diff := u32 (height - stamp) in
  bool_decide (diff mod threshold = 0) && bool_decide (OnesCount32 (diff / threshold) = 1%nat).

(** The loop of [RemoveStale] over the pool: the items kept and the ones to
    send again. *)
Fixpoint stale_loop (isOK : Transaction → bool) (feer : Feer) (policyChanged : bool) (l : list mitem) (mp : Pool)
    : res mperr (list mitem * list mitem * Pool) :=
  match l with
  | [] => Ok ([], [], mp)
  | itm :: l =>
      let t := it_txn itm in
      '(keep, mp) ← (if isOK t && checkPolicy mp t policyChanged then tryAddSendersFee mp t feer true else Ok (false, mp));
      if (keep : bool) then
        let mp := set_conflicts mp (fold_left (add_conflict (tx_hash t)) (conflict_hashes t) (mp_conflicts mp)) in
        '(kept, stale, mp) ← stale_loop isOK feer policyChanged l mp;
        Ok (itm :: kept,
            (if is_stale (mp_resendThreshold mp) (fr_BlockHeight feer) (it_blockStamp itm) then itm :: stale else stale),
            mp)
      else
        let mp := set_map mp (delete (tx_hash t) (mp_verifiedMap mp)) in
        let mp := match oracle_id t with
                  | Some id => set_oracle mp (delete id (mp_oracleResp mp))
                  | None => mp
                  end in
        stale_loop isOK feer policyChanged l (emit mp (TransactionRemoved itm))
  end.

Definition RemoveStale (mp : Pool) (isOK : Transaction → bool) (feer : Feer) : res mperr (list mitem * Pool) :=
  let '(policyChanged, mp) := loadPolicy mp feer in
  let l := mp_verifiedTxes mp in
  let mp := set_conflicts (set_fees mp ∅) ∅ in
  '(kept, staleItems, mp) ← stale_loop isOK feer policyChanged l mp;
  Ok (staleItems, set_txes mp kept).

(** *** Lookup *)

Definition TryGetValue (mp : Pool) (h : bytes) : option Transaction := mp_verifiedMap mp !! h.

(** The items from the left bound on, as long as they have the priority. *)
Fixpoint data_loop (h : bytes) (itm : mitem) (l : list mitem) : option (option Z) :=
  match l with
  | [] => None
  | i :: l =>
      if bool_decide (tx_hash (it_txn i) = h) then Some (it_data i)
      else if bool_decide (Compare itm i ≠ 0) then None else data_loop h itm l
  end.

Definition TryGetData (mp : Pool) (h : bytes) : option (option Z) :=
  match mp_verifiedMap mp !! h with
  | None => None
  | Some tx =>
      let itm := mkItem tx 0 None in
      let l := mp_verifiedTxes mp in
      let n := sort_Search (length l) (λ n, match l !! n with Some i => bool_decide (0 <= Compare itm i) | None => false end) in
      if bool_decide (n < length l)%nat then data_loop h itm (drop n l) else None
  end.

Definition GetVerifiedTransactions (mp : Pool) : list Transaction := map it_txn (mp_verifiedTxes mp).

(** [IterateVerifiedTransactions]: the items that [cont] was called with. *)
Fixpoint iterate (cont : Transaction → option Z → bool) (l : list mitem) : list mitem :=
  match l with
  | [] => []
  | i :: l => if cont (it_txn i) (it_data i) then i :: iterate cont l else [i]
  end.

Definition IterateVerifiedTransactions (mp : Pool) (cont : Transaction → option Z → bool) : list mitem :=
  iterate cont (mp_verifiedTxes mp).
End pool.
