(* ===== verification/MempoolSpec.v ===== *)
(** * MempoolSpec: what the pool keeps true

    The pool is a list sorted by priority; everything else it stores is a
    function of this list ([indexed]).  Additions and removals keep it so, the
    fees of the pooled transactions of a payer never exceed the balance the pool
    knows, and a failed addition changes no transaction of the pool. *)

From S2P Require Import Prelude BinIO Codec Hash Bitfield Keys Witness Tx Mempool.

#[local] Open Scope Z_scope.

(** ** Lists *)

Lemma StronglySorted_filter {A} (R : A → A → Prop) (P : A → Prop) `{!∀ x, Decision (P x)} l :
  StronglySorted R l → StronglySorted R (filter P l).
Proof.
  induction 1 as [|x l Hl IH Hx]; [constructor|]. rewrite filter_cons.
  destruct (decide (P x)); [|done]. constructor; [done|].
  apply Forall_forall. intros y Hy%list_elem_of_filter. rewrite Forall_forall in Hx. naive_solver.
Qed.

Lemma StronglySorted_insert {A} (R : A → A → Prop) l n x :
  StronglySorted R l → Forall (λ y, R y x) (take n l) → Forall (R x) (drop n l) →
  Transitive R → StronglySorted R (take n l ++ x :: drop n l).
Proof.
  intros Hl. revert n. induction Hl as [|y l Hl IH Hy]; intros n Hb Ha HT.
  { rewrite take_nil, drop_nil. repeat constructor. }
  destruct n as [|n]; cbn in *.
  { constructor; [by constructor|]. done. }
  inversion_clear Hb as [|? ? Hyx Hb']. constructor; [by apply IH|].
  apply Forall_app. split; [by apply Forall_take|]. constructor; [done|by apply Forall_drop].
Qed.

Lemma list_filter_iff' {A} (P Q : A → Prop) `{!∀ x, Decision (P x), !∀ x, Decision (Q x)} (l : list A) :
  (∀ x, x ∈ l → P x ↔ Q x) → filter P l = filter Q l.
Proof.
  induction l as [|x l IH]; intros Heq; [done|]. rewrite !filter_cons, IH by (intros; apply Heq; by apply list_elem_of_further).
  pose proof (Heq x ltac:(apply list_elem_of_here)). destruct (decide (P x)), (decide (Q x)); naive_solver.
Qed.

Lemma filter_keep {A} (P : A → Prop) `{!∀ x, Decision (P x)} (l : list A) : Forall P l → filter P l = l.
Proof. induction 1 as [|x l Hx Hl IH]; [done|]. by rewrite filter_cons_True, IH. Qed.

Lemma filter_all {A} (P : A → Prop) `{!∀ x, Decision (P x)} (l : list A) :
  (length l <= length (filter P l))%nat → filter P l = l.
Proof.
  induction l as [|x l IH]; intros Hl; [done|]. rewrite filter_cons in *. pose proof (length_filter P l).
  destruct (decide (P x)); cbn in *; [f_equal; apply IH; lia|lia].
Qed.

Section spec.
Context `{HD : Digest}.

Definition ihash (i : mitem) : bytes := tx_hash (it_txn i).

(** ** Priorities

    The order of the pool as one number: high priority first, then the fee per
    byte, then the network fee. *)
Definition rank (i : mitem) : Z :=
  (if HasAttribute (it_txn i) HighPriority then 2 ^ 128 else 0)
  + fee_per_byte (it_txn i) * 2 ^ 64 + t_NetworkFee (it_txn i).

(** What the pool may rely on for its transactions: they are decoded (hash and
    size are known), their network fee is not negative, the account that pays
    is there and no conflict is listed twice. *)
Record tx_wf (idx : nat) (t : Transaction) : Prop := {
  wf_hashed : t_hashed t = true;
  wf_size : 0 < t_size t;
  wf_fee : 0 <= t_NetworkFee t < 2 ^ 63;
  wf_payer : is_Some (t_Signers t !! idx);
  wf_conflicts : NoDup (conflict_hashes t);
}.

Lemma fee_per_byte_range idx t : tx_wf idx t → 0 <= fee_per_byte t < 2 ^ 63.
Proof.
  intros Ht. unfold fee_per_byte, tx_FeePerByte, tx_Size.
  pose proof (wf_size _ _ Ht). pose proof (wf_fee _ _ Ht).
  rewrite !(bool_decide_eq_false_2 (t_size t = 0)) by lia.
  assert (0 <= Z.quot (t_NetworkFee t) (t_size t) <= t_NetworkFee t).
  { rewrite Z.quot_div_nonneg by lia. split; [apply Z.div_pos; lia|].
    rewrite <- (Z.div_1_r (t_NetworkFee t)) at 2. apply Z.div_le_compat_l; lia. }
  rewrite wrap_s_small by lia. lia.
Qed.

Lemma Compare_rank idx a b :
  tx_wf idx (it_txn a) → tx_wf idx (it_txn b) →
  (0 < Compare a b ↔ rank b < rank a) ∧ (Compare a b = 0 ↔ rank a = rank b).
Proof.
  intros Ha Hb. unfold Compare, rank.
  pose proof (fee_per_byte_range _ _ Ha). pose proof (fee_per_byte_range _ _ Hb).
  pose proof (wf_fee _ _ Ha). pose proof (wf_fee _ _ Hb).
  rewrite !wrap_s_small by lia.
  destruct (HasAttribute (it_txn a) HighPriority), (HasAttribute (it_txn b) HighPriority); cbn;
    try case_bool_decide; split; lia.
Qed.

(** *** The binary search *)

Lemma search_loop_spec fuel i j f :
  (i <= j)%nat → (j - i <= fuel)%nat →
  (∀ a b, (a <= b < j)%nat → f a = true → f b = true) →
  (∀ k, (k < i)%nat → f k = false) →
  let n := search_loop fuel i j f in
  (i <= n <= j)%nat ∧ (∀ k, (k < n)%nat → f k = false) ∧ (∀ k, (n <= k < j)%nat → f k = true).
Proof.
  revert i j. induction fuel as [|fuel IH]; intros i j Hij Hf Hmon Hlow; cbn -[Nat.div].
  { split_and!; [lia|lia|done|]. intros. lia. }
  case_bool_decide as Hlt; [|split_and!; [lia|lia|done|]; intros; lia].
  pose proof (Nat.Div0.div_le_mono (i + i) (i + j) 2 ltac:(lia)) as H1.
  pose proof (Nat.Div0.div_lt_upper_bound (i + j) 2 j ltac:(lia)) as H2.
  replace (i + i)%nat with (i * 2)%nat in H1 by lia. rewrite Nat.div_mul in H1 by lia.
  set (h := ((i + j) / 2)%nat) in *. destruct (f h) eqn:Hh.
  - destruct (IH i h ltac:(lia) ltac:(lia)) as (Hr & Hl & Hu).
    { intros a b Hab. apply Hmon. lia. } { done. }
    split_and!; [lia|lia|done|]. intros k Hk. destruct (decide (k < h)%nat); [apply Hu; lia|].
    apply (Hmon h k); [lia|done].
  - assert (∀ k, (k < S h)%nat → f k = false) as Hlow'.
    { intros k Hk. destruct (f k) eqn:Hfk; [|done]. rewrite (Hmon k h) in Hh; [done|lia|done]. }
    destruct (IH (S h) j ltac:(lia) ltac:(lia) Hmon Hlow') as (Hr & Hl & Hu).
    split_and!; [lia|lia|done|done].
Qed.

Definition prio_sorted (l : list mitem) : Prop := StronglySorted (λ a b, rank b <= rank a) l.

Lemma prio_sorted_lookup l j k a b :
  prio_sorted l → (j <= k)%nat → l !! j = Some a → l !! k = Some b → rank b <= rank a.
Proof.
  intros Hs. revert j k. induction Hs as [|x l Hs IH Hx]; intros j k Hjk Ha Hb; [done|].
  destruct j as [|j].
  - injection Ha as ->. destruct k as [|k]; [injection Hb as ->; lia|]. cbn in Hb.
    rewrite Forall_forall in Hx. apply Hx. by eapply list_elem_of_lookup_2.
  - destruct k as [|k]; [lia|]. cbn in *. apply (IH j k); [lia|done..].
Qed.

(** The position splits the pool into what is not less prioritized than the
    item and what is less. *)
Lemma insert_position_spec idx p l :
  prio_sorted l → tx_wf idx (it_txn p) → Forall (λ i, tx_wf idx (it_txn i)) l →
  let n := insert_position p l in
  (n <= length l)%nat ∧ Forall (λ i, rank p <= rank i) (take n l) ∧ Forall (λ i, rank i < rank p) (drop n l).
Proof.
  intros Hs Hp Hl. unfold insert_position.
  destruct (last l) as [lst|] eqn:Hlast.
  2: { apply last_None in Hlast as ->. cbn. by repeat constructor. }
  assert (∀ i, i ∈ l → tx_wf idx (it_txn i)) as Hwf by by apply Forall_forall.
  assert (lst ∈ l) as Hin by by apply last_Some_elem_of.
  destruct (Compare_rank idx p lst Hp (Hwf _ Hin)) as [_ Heq]. case_bool_decide as Hc.
  { cbn. split; [done|]. rewrite take_ge, drop_ge by lia. split; [|constructor].
    apply Forall_forall. intros i [k Hk]%list_elem_of_lookup_1. apply Heq in Hc. rewrite Hc.
    rewrite last_lookup in Hlast. apply (prio_sorted_lookup l k (pred (length l))); try done.
    apply lookup_lt_Some in Hk. lia. }
  set (f := λ n, match l !! n with Some i => bool_decide (0 < Compare p i) | None => false end).
  assert (∀ k i, l !! k = Some i → f k = true ↔ rank i < rank p) as Hf.
  { intros k i Hk. unfold f. rewrite Hk, bool_decide_eq_true.
    apply (Compare_rank idx); [done|]. apply Hwf. by eapply list_elem_of_lookup_2. }
  assert (∀ a b, (a <= b < length l)%nat → f a = true → f b = true) as Hmon.
  { intros a b Hab Hfa. destruct (lookup_lt_is_Some_2 l a ltac:(lia)) as [x Hx].
    destruct (lookup_lt_is_Some_2 l b ltac:(lia)) as [y Hy]. rewrite (Hf _ _ Hy).
    rewrite (Hf _ _ Hx) in Hfa. pose proof (prio_sorted_lookup l a b x y Hs ltac:(lia) Hx Hy). lia. }
  destruct (search_loop_spec (length l) 0 (length l) f ltac:(lia) ltac:(lia) Hmon ltac:(lia)) as (Hn & Hlow & Hup).
  cbn zeta. fold (sort_Search (length l) f) in *. split; [lia|]. split.
  - apply Forall_forall. intros i (k & Hk & Hkn)%elem_of_take.
    assert (f k = false) as Hfk by (apply Hlow; lia).
    pose proof (Hf _ _ Hk). rewrite Hfk in H. destruct (decide (rank i < rank p)); [naive_solver|lia].
  - apply Forall_forall. intros i (k & Hk)%list_elem_of_lookup_1. rewrite lookup_drop in Hk.
    apply (Hf _ _ Hk). apply Hup. apply lookup_lt_Some in Hk. lia.
Qed.

(** ** The indices *)

(** The hashes of the transactions of [l] that conflict with [h]. *)
Definition names (h : bytes) (l : list mitem) : list bytes :=
  map ihash (filter (λ i, h ∈ conflict_hashes (it_txn i)) l).

Definition conf_ok (conf : gmap bytes (list bytes)) (l : list mitem) : Prop :=
  ∀ h, match conf !! h with
       | Some ls => ls ≠ [] ∧ ls ≡ₚ names h l
       | None => names h l = []
       end.

(** What the payer [p] owes for the transactions of [l]. *)
Definition pays (idx : nat) (p : bytes) (t : Transaction) : Prop := sg_Account <$> t_Signers t !! idx = Some p.

#[export] Instance pays_dec idx p t : Decision (pays idx p t).
Proof. unfold pays. apply _. Defined.

Fixpoint owed (idx : nat) (p : bytes) (l : list Transaction) : Z :=
  match l with
  | [] => 0
  | t :: l => (if decide (pays idx p t) then tx_fees t else 0) + owed idx p l
  end.

Definition fees_ok (idx : nat) (fees : gmap bytes utilityBalanceAndFees) (l : list mitem) : Prop :=
  (∀ p f, fees !! p = Some f → uf_feeSum f = owed idx p (map it_txn l) ∧ uf_feeSum f <= uf_balance f < 2 ^ 255)
  ∧ (∀ i p, i ∈ l → pays idx p (it_txn i) → is_Some (fees !! p)).

(** Oracle responses: those of the pool, and [pending] ones. *)
Definition oracle_ok (orc : gmap Z bytes) (l : list mitem) (pending : gmap Z bytes) : Prop :=
  (∀ i id, i ∈ l → oracle_id (it_txn i) = Some id → pending !! id = None)
  ∧ (∀ id h, orc !! id = Some h ↔ (∃ i, i ∈ l ∧ ihash i = h ∧ oracle_id (it_txn i) = Some id) ∨ pending !! id = Some h).

Record indexed (mp : Pool) (l : list mitem) (pending : gmap Z bytes) : Prop := {
  ix_wf : Forall (λ i, tx_wf (mp_payerIndex mp) (it_txn i)) l;
  ix_nodup : NoDup (map ihash l);
  ix_map : ∀ h t, mp_verifiedMap mp !! h = Some t ↔ ∃ i, i ∈ l ∧ it_txn i = t ∧ ihash i = h;
  ix_conf : conf_ok (mp_conflicts mp) l;
  ix_fees : fees_ok (mp_payerIndex mp) (mp_fees mp) l;
  ix_oracle : oracle_ok (mp_oracleResp mp) l pending;
}.

Lemma tx_fees_range t : 0 <= tx_fees t < 2 ^ 64.
Proof. apply (wrap_u_range 64). lia. Qed.

Lemma owed_nonneg idx p l : 0 <= owed idx p l.
Proof. induction l as [|t l IH]; cbn; [lia|]. pose proof (tx_fees_range t). destruct (decide _); lia. Qed.

Lemma owed_app idx p l1 l2 : owed idx p (l1 ++ l2) = owed idx p l1 + owed idx p l2.
Proof. induction l1 as [|t l IH]; cbn; [done|]. lia. Qed.

#[export] Instance owed_Permutation idx p : Proper ((≡ₚ) ==> (=)) (owed idx p).
Proof. induction 1; cbn; lia. Qed.

Lemma names_Permutation h l l' : l ≡ₚ l' → names h l ≡ₚ names h l'.
Proof. intros Hl. unfold names. by rewrite Hl. Qed.

Lemma indexed_Permutation mp l l' P : l ≡ₚ l' → indexed mp l P → indexed mp l' P.
Proof.
  intros Hl [Hwf Hnd Hmap Hconf [Hf1 Hf2] [Ho1 Ho2]]. split.
  - by rewrite <- Hl.
  - rewrite <- Hl. done.
  - intros h t. rewrite Hmap. by setoid_rewrite Hl.
  - intros h. specialize (Hconf h). pose proof (names_Permutation h l l' Hl) as Hn.
    destruct (mp_conflicts mp !! h); [by rewrite <- Hn|]. rewrite Hconf in Hn. by apply Permutation_nil_l in Hn.
  - split.
    + intros p f Hp. destruct (Hf1 p f Hp) as [Hs ?]. split; [|done]. by rewrite Hs, Hl.
    + intros i p Hi. apply Hf2. by rewrite Hl.
  - split.
    + intros i id Hi. apply Ho1. by rewrite Hl.
    + intros id h. rewrite Ho2. by setoid_rewrite Hl.
Qed.

Lemma ihash_inj l i j : NoDup (map ihash l) → i ∈ l → j ∈ l → ihash i = ihash j → i = j.
Proof.
  intros Hnd [n Hn]%list_elem_of_lookup_1 [m Hm]%list_elem_of_lookup_1 He.
  assert (n = m) as ->.
  { apply (NoDup_lookup (map ihash l) n m (ihash i)); [done| |].
    - by rewrite list_lookup_fmap, Hn.
    - rewrite list_lookup_fmap, Hm. cbn. by rewrite He. }
  congruence.
Qed.

(** *** Conflicts of one transaction *)

Definition remove1 (th : bytes) (o : option (list bytes)) : option (list bytes) :=
  match o with
  | None => None
  | Some [_] => None
  | Some l => Some (remove_first th l)
  end.

Lemma remove_conflict_lookup th conf k h :
  remove_conflict th conf k !! h = if decide (h = k) then remove1 th (conf !! h) else conf !! h.
Proof.
  unfold remove_conflict. destruct (decide (h = k)) as [->|Hne].
  - destruct (conf !! k) as [[|x [|y l]]|] eqn:E; cbn [remove1];
      [apply lookup_insert_eq|apply lookup_delete_eq|apply lookup_insert_eq|done].
  - destruct (conf !! k) as [[|x [|y l]]|]; [by rewrite lookup_insert_ne|by rewrite lookup_delete_ne|
      by rewrite lookup_insert_ne|done].
Qed.

Lemma remove_conflicts_lookup th hs conf h :
  NoDup hs → fold_left (remove_conflict th) hs conf !! h
    = if decide (h ∈ hs) then remove1 th (conf !! h) else conf !! h.
Proof.
  intros Hnd. revert conf. induction Hnd as [|k hs Hk Hnd IH]; intros conf; cbn [fold_left].
  { by rewrite decide_False by apply not_elem_of_nil. }
  rewrite IH, remove_conflict_lookup.
  destruct (decide (h = k)) as [->|Hne].
  - rewrite decide_False by done. by rewrite decide_True by apply list_elem_of_here.
  - destruct (decide (h ∈ hs)).
    + by rewrite decide_True by by apply list_elem_of_further.
    + by rewrite decide_False by (rewrite elem_of_cons; naive_solver).
Qed.

Lemma add_conflicts_lookup th hs conf h :
  NoDup hs → fold_left (add_conflict th) hs conf !! h
    = if decide (h ∈ hs) then Some (default [] (conf !! h) ++ [th]) else conf !! h.
Proof.
  intros Hnd. revert conf. induction Hnd as [|k hs Hk Hnd IH]; intros conf; cbn [fold_left].
  { by rewrite decide_False by apply not_elem_of_nil. }
  rewrite IH. unfold add_conflict. destruct (decide (h = k)) as [->|Hne].
  - rewrite decide_False, lookup_insert_eq by done. by rewrite decide_True by apply list_elem_of_here.
  - rewrite lookup_insert_ne by done. destruct (decide (h ∈ hs)).
    + by rewrite decide_True by by apply list_elem_of_further.
    + by rewrite decide_False by (rewrite elem_of_cons; naive_solver).
Qed.

Lemma remove_first_cons th l ls : ls ≡ₚ th :: l → remove_first th ls ≡ₚ l.
Proof.
  revert l. induction ls as [|x ls IH]; intros l Hp; cbn.
  { by apply Permutation_nil_cons in Hp. }
  case_bool_decide as Hx; [subst; by apply Permutation_cons_inv in Hp|].
  assert (x ∈ l) as Hin.
  { assert (x ∈ th :: l) as Hin by (rewrite <- Hp; apply list_elem_of_here).
    apply elem_of_cons in Hin as [?|?]; [done|done]. }
  apply elem_of_Permutation in Hin as [l' Hl']. rewrite Hl'. apply Permutation_cons, IH; [done|].
  rewrite Hl' in Hp. rewrite (Permutation_swap x th l') in Hp. by apply Permutation_cons_inv in Hp.
Qed.

Lemma names_cons h i l :
  names h (i :: l) = if decide (h ∈ conflict_hashes (it_txn i)) then ihash i :: names h l else names h l.
Proof. unfold names. rewrite filter_cons. by destruct (decide _). Qed.

Lemma conf_remove conf i l :
  NoDup (conflict_hashes (it_txn i)) → conf_ok conf (i :: l) →
  conf_ok (fold_left (remove_conflict (ihash i)) (conflict_hashes (it_txn i)) conf) l.
Proof.
  intros Hnd Hc h. rewrite remove_conflicts_lookup by done. specialize (Hc h).
  rewrite names_cons in Hc. destruct (decide (h ∈ conflict_hashes (it_txn i))); [|done].
  destruct (conf !! h) as [ls|]; [|discriminate]. destruct Hc as [_ Hp].
  pose proof (remove_first_cons _ _ _ Hp) as Hr. pose proof (Permutation_length Hp) as Hlen.
  destruct ls as [|x [|y ls]]; [done| |]; cbn [remove1].
  - cbn in Hlen. injection Hlen as Hlen. symmetry in Hlen. by apply nil_length_inv in Hlen.
  - split; [|done]. intros He. rewrite He in Hr. apply Permutation_length in Hr. cbn in Hr, Hlen. lia.
Qed.

Lemma conf_add conf i l :
  NoDup (conflict_hashes (it_txn i)) → conf_ok conf l →
  conf_ok (fold_left (add_conflict (ihash i)) (conflict_hashes (it_txn i)) conf) (i :: l).
Proof.
  intros Hnd Hc h. rewrite add_conflicts_lookup by done. specialize (Hc h). rewrite names_cons.
  destruct (decide (h ∈ conflict_hashes (it_txn i))); [|done].
  split; [by intros [_ ?]%app_eq_nil|].
  destruct (conf !! h) as [ls|]; cbn [default from_option id].
  - destruct Hc as [_ <-]. by rewrite Permutation_app_comm.
  - by rewrite Hc.
Qed.

(** *** One transaction out of the indices, or into them *)

(** What the operations on the indices leave alone. *)
Record frame (mp mp' : Pool) : Prop := {
  fm_capacity : mp_capacity mp' = mp_capacity mp;
  fm_payerIndex : mp_payerIndex mp' = mp_payerIndex mp;
  fm_balance : ∀ p, uf_balance <$> mp_fees mp' !! p = uf_balance <$> mp_fees mp !! p;
}.

Lemma frame_refl mp : frame mp mp.
Proof. done. Qed.

Lemma frame_trans mp1 mp2 mp3 : frame mp1 mp2 → frame mp2 mp3 → frame mp1 mp3.
Proof.
  intros [H1 H2 H3] [H4 H5 H6]. split; [congruence|congruence|]. intros p. by rewrite H6.
Qed.

Lemma indexed_emit mp e l P : indexed mp l P → indexed (emit mp e) l P.
Proof. unfold emit. destruct (mp_subscriptionsOn mp); [|done]. intros []. by split. Qed.

Lemma emit_txes mp e : mp_verifiedTxes (emit mp e) = mp_verifiedTxes mp.
Proof. unfold emit. by destruct (mp_subscriptionsOn mp). Qed.

Lemma emit_frame mp e : frame mp (emit mp e).
Proof. unfold emit. by destruct (mp_subscriptionsOn mp). Qed.

Lemma owed_cons idx p t l : owed idx p (t :: l) = (if decide (pays idx p t) then tx_fees t else 0) + owed idx p l.
Proof. done. Qed.

Lemma fees_remove idx fees i l p f :
  fees_ok idx fees (i :: l) → pays idx p (it_txn i) → fees !! p = Some f →
  fees_ok idx (<[p := mkFees (uf_balance f) (u256 (uf_feeSum f - tx_fees (it_txn i)))]> fees) l.
Proof.
  intros [H1 H2] Hp Hf. destruct (H1 p f Hf) as [Hs Hb]. cbn [map] in Hs. rewrite owed_cons in Hs.
  rewrite decide_True in Hs by done.
  pose proof (owed_nonneg idx p (map it_txn l)). pose proof (tx_fees_range (it_txn i)).
  split.
  - intros q g Hg. destruct (decide (p = q)) as [<-|Hne].
    + rewrite lookup_insert_eq in Hg. injection Hg as <-. cbn [uf_feeSum uf_balance].
      rewrite wrap_u_small by lia. split; lia.
    + rewrite lookup_insert_ne in Hg by done. destruct (H1 q g Hg) as [-> ?]. split; [|done].
      cbn [map]. rewrite owed_cons, decide_False; [lia|]. unfold pays in *. congruence.
  - intros j q Hj Hq. destruct (decide (p = q)) as [<-|Hne].
    + rewrite lookup_insert_eq. by eexists.
    + rewrite lookup_insert_ne by done. apply (H2 j q); [by apply list_elem_of_further|done].
Qed.

Lemma oracle_remove orc i l P :
  NoDup (map ihash (i :: l)) → oracle_ok orc (i :: l) P →
  oracle_ok (match oracle_id (it_txn i) with Some id => delete id orc | None => orc end) l P.
Proof.
  intros Hnd [H1 H2]. split.
  { intros j id Hj. apply H1. by apply list_elem_of_further. }
  intros id h. destruct (oracle_id (it_txn i)) as [ido|] eqn:Hid.
  - assert (orc !! ido = Some (ihash i)) as Ho.
    { apply H2. left. exists i. split; [apply list_elem_of_here|done]. }
    assert (P !! ido = None) as HP by (apply (H1 i); [apply list_elem_of_here|done]).
    destruct (decide (id = ido)) as [->|Hne].
    + rewrite lookup_delete_eq. split; [done|]. intros [(j & Hj & <- & Hjo)|Hh]; [|congruence].
      assert (orc !! ido = Some (ihash j)) as Ho'.
      { apply H2. left. exists j. split; [by apply list_elem_of_further|done]. }
      cbn [map] in Hnd. apply NoDup_cons in Hnd as [Hni _]. destruct Hni.
      assert (ihash i = ihash j) as -> by congruence. by apply list_elem_of_fmap_2.
    + rewrite lookup_delete_ne, H2 by done. apply or_iff_compat_r. split.
      * intros (j & [->|Hj]%elem_of_cons & Hh & Hjo); [congruence|]. by exists j.
      * intros (j & Hj & ?). exists j. split; [by apply list_elem_of_further|done].
  - rewrite H2. apply or_iff_compat_r. split.
    + intros (j & [->|Hj]%elem_of_cons & Hh & Hjo); [congruence|]. by exists j.
    + intros (j & Hj & ?). exists j. split; [by apply list_elem_of_further|done].
Qed.

Lemma map_remove (vm : gmap bytes Transaction) i l :
  NoDup (map ihash (i :: l)) →
  (∀ h t, vm !! h = Some t ↔ ∃ j, j ∈ i :: l ∧ it_txn j = t ∧ ihash j = h) →
  ∀ h t, delete (ihash i) vm !! h = Some t ↔ ∃ j, j ∈ l ∧ it_txn j = t ∧ ihash j = h.
Proof.
  intros [Hni _]%NoDup_cons Hm h t. rewrite lookup_delete_Some, Hm. split.
  - intros (Hne & j & [->|Hj]%elem_of_cons & Ht & Hh); [congruence|]. by exists j.
  - intros (j & Hj & Ht & Hh). split.
    + intros He. apply Hni. rewrite He, <- Hh. by apply list_elem_of_fmap_2.
    + exists j. split; [by apply list_elem_of_further|done].
Qed.

Lemma remove_item_spec mp i l P :
  indexed mp (i :: l) P →
  ∃ mp', removeFromMapWithFeesAndAttrs mp i = Ok mp' ∧ indexed mp' l P
    ∧ mp_verifiedTxes mp' = mp_verifiedTxes mp ∧ frame mp mp'.
Proof.
  intros [Hwf Hnd Hmap Hconf Hfees Ho]. inversion_clear Hwf as [|? ? Hi Hl].
  destruct (wf_payer _ _ Hi) as [s Hs].
  assert (pays (mp_payerIndex mp) (sg_Account s) (it_txn i)) as Hp by (unfold pays; by rewrite Hs).
  destruct (proj2 Hfees i _ ltac:(apply list_elem_of_here) Hp) as [f Hf].
  unfold removeFromMapWithFeesAndAttrs, payer_of. cbn [set_map mp_payerIndex]. rewrite Hs.
  cbn [fmap option_fmap option_map]. cbn [mp_fees set_map]. rewrite Hf.
  cbn [default from_option id]. eexists. split; [done|].
  assert (frame mp (emit mp (TransactionRemoved i))) as _ by apply emit_frame.
  split; [apply indexed_emit|split].
  - pose proof (oracle_remove _ _ _ _ Hnd Ho) as Ho'. pose proof (map_remove _ _ _ Hnd Hmap) as Hmap'.
    pose proof (conf_remove _ _ _ (wf_conflicts _ _ Hi) Hconf) as Hconf'.
    pose proof (fees_remove _ _ _ _ _ _ Hfees Hp Hf) as Hfees'.
    cbn [map] in Hnd. apply NoDup_cons in Hnd as [_ Hnd].
    unfold removeConflictsOf. destruct (oracle_id (it_txn i)); split; done.
  - rewrite emit_txes. unfold removeConflictsOf. by destruct (oracle_id (it_txn i)).
  - eapply frame_trans; [|apply emit_frame].
    assert (∀ p, uf_balance <$> <[sg_Account s := mkFees (uf_balance f) (u256 (uf_feeSum f - tx_fees (it_txn i)))]>
        (mp_fees mp) !! p = uf_balance <$> mp_fees mp !! p) as Hbal.
    { intros p. destruct (decide (sg_Account s = p)) as [<-|Hne].
      - by rewrite lookup_insert_eq, Hf.
      - by rewrite lookup_insert_ne. }
    unfold removeConflictsOf. destruct (oracle_id (it_txn i)); split; try done; exact Hbal.
Qed.

(** *** Removal from the pool *)

Lemma find_num_spec h l k :
  NoDup (map ihash l) → h ∈ map ihash l →
  ∃ n i, find_num h l k = (k + n)%nat ∧ l !! n = Some i ∧ ihash i = h.
Proof.
  revert k. induction l as [|x l IH]; intros k Hnd Hin; [by apply not_elem_of_nil in Hin|].
  cbn [map] in *. apply NoDup_cons in Hnd as [Hni Hnd].
  destruct (decide (ihash x = h)) as [<-|Hne].
  - exists 0%nat, x. destruct l as [|y l]; cbn [find_num]; [split; [lia|done]|].
    rewrite bool_decide_eq_true_2 by done. split; [lia|done].
  - apply elem_of_cons in Hin as [?|Hin]; [congruence|].
    destruct (IH (S k) Hnd Hin) as (n & i & Hn & Hi & Hh). exists (S n), i.
    destruct l as [|y l]; [by apply not_elem_of_nil in Hin|].
    change (find_num h (x :: y :: l) k)
      with (if bool_decide (tx_hash (it_txn x) = h) then k else find_num h (y :: l) (S k)).
    rewrite bool_decide_eq_false_2 by done. rewrite Hn. split; [lia|done].
Qed.

Lemma delete_middle_filter l n i :
  NoDup (map ihash l) → l !! n = Some i →
  take n l ++ drop (S n) l = filter (λ j, ihash j ≠ ihash i) l ∧ l ≡ₚ i :: filter (λ j, ihash j ≠ ihash i) l.
Proof.
  intros Hnd Hn. assert (take n l ++ drop (S n) l = filter (λ j, ihash j ≠ ihash i) l) as He.
  { rewrite <- (take_drop_middle l n i Hn) at 3. rewrite filter_app, filter_cons_False by auto.
    rewrite <- (take_drop_middle l n i Hn), map_app in Hnd. cbn [map] in Hnd.
    apply NoDup_app in Hnd as (H1 & H12 & H2). apply NoDup_cons in H2 as [H2 H3].
    f_equal; symmetry; apply filter_keep; apply Forall_forall; intros j Hj He.
    - apply (H12 (ihash j)); [by apply list_elem_of_fmap_2|]. rewrite He. apply list_elem_of_here.
    - apply H2. rewrite <- He. by apply list_elem_of_fmap_2. }
  split; [done|]. rewrite <- He. rewrite <- (take_drop_middle l n i Hn) at 1. by rewrite Permutation_middle.
Qed.

Lemma indexed_set_txes mp l l' P : indexed mp l P → indexed (set_txes mp l') l P.
Proof. intros []. by split. Qed.

Lemma removeInternal_spec mp h P :
  indexed mp (mp_verifiedTxes mp) P →
  ∃ mp', removeInternal mp h = Ok mp' ∧ indexed mp' (mp_verifiedTxes mp') P
    ∧ mp_verifiedTxes mp' = filter (λ i, ihash i ≠ h) (mp_verifiedTxes mp) ∧ frame mp mp'.
Proof.
  intros Hx. unfold removeInternal. destruct (mp_verifiedMap mp !! h) as [t|] eqn:Hh.
  - apply (ix_map _ _ _ Hx) in Hh as (i & Hi & Ht & Hih).
    destruct (find_num_spec h (mp_verifiedTxes mp) 0 (ix_nodup _ _ _ Hx)) as (n & i' & -> & Hn & Hh').
    { rewrite <- Hih. by apply list_elem_of_fmap_2. }
    cbn [Nat.add]. rewrite Hn.
    destruct (delete_middle_filter _ _ _ (ix_nodup _ _ _ Hx) Hn) as [He Hp].
    destruct (remove_item_spec (set_txes mp (take n (mp_verifiedTxes mp) ++ drop (S n) (mp_verifiedTxes mp)))
      i' (filter (λ j, ihash j ≠ ihash i') (mp_verifiedTxes mp)) P) as (mp' & -> & Hx' & Htx & Hfr).
    { apply indexed_set_txes. by apply (indexed_Permutation _ _ _ _ Hp). }
    exists mp'. split; [done|]. rewrite Htx. cbn [mp_verifiedTxes set_txes]. rewrite He, <- Hh'.
    split; [done|]. split; [done|]. eapply frame_trans; [|exact Hfr]. done.
  - exists mp. split; [done|]. split; [done|]. split; [|apply frame_refl].
    symmetry. apply filter_keep. apply Forall_forall. intros i Hi Hih.
    assert (mp_verifiedMap mp !! h = Some (it_txn i)) as He by (apply (ix_map _ _ _ Hx); by exists i). congruence.
Qed.

(** ** Conflicts *)

(** [i] conflicts with [t], by the attributes of one or the other. *)
Definition in_conflict (t : Transaction) (i : mitem) : Prop :=
  tx_hash t ∈ conflict_hashes (it_txn i) ∨ ihash i ∈ conflict_hashes t.

#[export] Instance in_conflict_dec t i : Decision (in_conflict t i).
Proof. unfold in_conflict. apply _. Defined.

(** Two transactions cannot name each other's hash, as each hash depends on
    the other. *)
Definition one_sided (t : Transaction) (l : list mitem) : Prop :=
  ∀ i, i ∈ l → ihash i ∈ conflict_hashes t → tx_hash t ∉ conflict_hashes (it_txn i).

Lemma step1_spec mp l P payer cs fee rm :
  indexed mp l P → cs ⊆ l →
  ∃ fee', conflicting_step1 mp payer (map ihash cs) fee rm = Ok (fee', rm ++ map it_txn cs).
Proof.
  intros Hx. revert fee rm. induction cs as [|i cs IH]; intros fee rm Hsub; cbn.
  { exists fee. by rewrite app_nil_r. }
  assert (mp_verifiedMap mp !! ihash i = Some (it_txn i)) as ->.
  { apply (ix_map _ _ _ Hx). exists i. split; [|done]. apply Hsub, list_elem_of_here. }
  destruct (IH (if HasSigner (it_txn i) payer then i64 (fee + t_NetworkFee (it_txn i)) else fee)
    (rm ++ [it_txn i])) as (fee' & ->).
  { intros j Hj. by apply Hsub, list_elem_of_further. }
  exists fee'. by rewrite <- app_assoc.
Qed.

Lemma step2_spec mp l P signers hs fee rm :
  indexed mp l P → NoDup hs →
  (∃ e, conflicting_step2 mp signers hs fee rm = Err e ∧ e ≠ ErrOOM)
  ∨ ∃ fee' cs, conflicting_step2 mp signers hs fee rm = Ok (fee', rm ++ map it_txn cs)
      ∧ cs ⊆ l ∧ NoDup (map ihash cs) ∧ (∀ i, i ∈ cs ↔ i ∈ l ∧ ihash i ∈ hs).
Proof.
  intros Hx Hnd. revert fee rm. induction Hnd as [|h hs Hh Hnd IH]; intros fee rm; cbn.
  { right. exists fee, []. rewrite app_nil_r. split; [done|].
    split; [by intros j ?%not_elem_of_nil|]. split; [constructor|].
    intros i. split; [by intros ?%not_elem_of_nil|]. by intros [_ ?%not_elem_of_nil]. }
  destruct (mp_verifiedMap mp !! h) as [t|] eqn:Hm.
  - apply (ix_map _ _ _ Hx) in Hm as (i & Hi & <- & <-).
    destruct (existsb _ _); [|by left; eexists; split].
    destruct (IH (i64 (fee + t_NetworkFee (it_txn i))) (rm ++ [it_txn i])) as [?|(fee' & cs & -> & Hs & Hn & Hin)];
      [by left|]. right.
    exists fee', (i :: cs). split; [by rewrite <- app_assoc|].
    split; [|split].
    + intros j [->|Hj]%elem_of_cons; [done|]. by apply Hs.
    + cbn. constructor; [|done]. intros (j & He & Hj)%list_elem_of_fmap. apply Hin in Hj as [_ Hj]. congruence.
    + intros j. rewrite !elem_of_cons, Hin. split.
      * intros [->|[Hj Hjh]]; [split; [done|by left]|]. split; [done|by right].
      * intros [Hj [He|Hjh]]; [left|right; done]. by apply (ihash_inj l); [apply (ix_nodup _ _ _ Hx)|..].
  - destruct (IH fee rm) as [?|(fee' & cs & -> & Hs & Hn & Hin)]; [by left|]. right.
    exists fee', cs. split; [done|]. split; [done|]. split; [done|]. intros i. rewrite Hin, elem_of_cons.
    split; [naive_solver|]. intros [Hi [He|Hjh]]; [|done].
    assert (mp_verifiedMap mp !! h = Some (it_txn i)) by (apply (ix_map _ _ _ Hx); by exists i). congruence.
Qed.

Lemma step3_spec mp l P payer cs f :
  indexed mp l P → cs ⊆ l →
  owed (mp_payerIndex mp) payer (map it_txn cs) <= uf_feeSum f < 2 ^ 255 →
  conflicting_step3 mp payer (map it_txn cs) f
  = Ok (mkFees (uf_balance f) (uf_feeSum f - owed (mp_payerIndex mp) payer (map it_txn cs))).
Proof.
  intros Hx. revert f. induction cs as [|i cs IH]; intros f Hs Hle; cbn.
  { rewrite Z.sub_0_r. by destruct f. }
  assert (tx_wf (mp_payerIndex mp) (it_txn i)) as Hi.
  { pose proof (ix_wf _ _ _ Hx) as Hwf. rewrite Forall_forall in Hwf. apply Hwf, Hs, list_elem_of_here. }
  destruct (wf_payer _ _ Hi) as [s Hsg]. unfold payer_of. rewrite Hsg. cbn [fmap option_fmap option_map].
  cbn [map] in Hle. rewrite owed_cons in Hle.
  pose proof (tx_fees_range (it_txn i)). pose proof (owed_nonneg (mp_payerIndex mp) payer (map it_txn cs)).
  assert (pays (mp_payerIndex mp) payer (it_txn i) ↔ sg_Account s = payer) as Hp.
  { unfold pays. rewrite Hsg. cbn. naive_solver. }
  destruct (decide (pays (mp_payerIndex mp) payer (it_txn i))) as [Hpi|Hpi].
  - rewrite bool_decide_eq_true_2 by by apply Hp.
    rewrite IH; cbn [uf_balance uf_feeSum]; rewrite ?wrap_u_small by lia; [do 2 f_equal; lia| |lia].
    intros j Hj. by apply Hs, list_elem_of_further.
  - rewrite bool_decide_eq_false_2 by (by rewrite <- Hp). rewrite IH; [done| |lia].
    intros j Hj. by apply Hs, list_elem_of_further.
Qed.

Lemma fees_learn idx fees l payer f :
  fees_ok idx fees l →
  uf_feeSum f = owed idx payer (map it_txn l) ∧ uf_feeSum f <= uf_balance f < 2 ^ 255 →
  fees_ok idx (<[payer := f]> fees) l.
Proof.
  intros [Hf1 Hf2] Hf. split.
  - intros p h. destruct (decide (payer = p)) as [<-|Hne].
    + rewrite lookup_insert_eq. intros [= <-]. done.
    + rewrite lookup_insert_ne by done. apply Hf1.
  - intros i p Hi Hp'. destruct (decide (payer = p)) as [<-|Hne].
    + rewrite lookup_insert_eq. by eexists.
    + rewrite lookup_insert_ne by done. by apply (Hf2 i).
Qed.

Lemma sender_fee_ok mp l feer payer :
  fees_ok (mp_payerIndex mp) (mp_fees mp) l → 0 <= fr_GetUtilityTokenBalance feer payer < 2 ^ 255 →
  let f := sender_fee mp feer payer in
  uf_feeSum f = owed (mp_payerIndex mp) payer (map it_txn l) ∧ uf_feeSum f <= uf_balance f < 2 ^ 255.
Proof.
  intros [Hx1 Hin] Hb. unfold sender_fee. destruct (mp_fees mp !! payer) as [f|] eqn:Hf; cbn.
  { by apply Hx1. }
  rewrite wrap_u_small by lia. split; [|lia].
  clear -Hf Hin. induction l as [|i l IH]; [done|].
  cbn [map]. rewrite owed_cons, decide_False.
  - rewrite <- IH; [done|]. intros j p Hj. apply Hin. by apply list_elem_of_further.
  - intros Hp. destruct (Hin i payer ltac:(apply list_elem_of_here) Hp). congruence.
Qed.

Lemma checkBalance_ok t f z :
  0 <= uf_feeSum f → uf_feeSum f <= uf_balance f < 2 ^ 255 →
  checkBalance t f = Ok z → tx_fees t + uf_feeSum f <= uf_balance f ∧ z = tx_fees t + uf_feeSum f.
Proof.
  intros H0 Hle. unfold checkBalance. pose proof (tx_fees_range t).
  case_bool_decide; [done|]. case_bool_decide as Hb; [done|]. intros [= <-].
  rewrite wrap_u_small in * by lia. lia.
Qed.

(** What the check answers when it succeeds: what is to be removed is what the
    new transaction conflicts with, and without it the payer can pay. *)
Lemma checkTxConflicts_spec mp l P t feer :
  indexed mp l P → tx_wf (mp_payerIndex mp) t → one_sided t l →
  (∀ p, 0 <= fr_GetUtilityTokenBalance feer p < 2 ^ 255) →
  (∃ e, checkTxConflicts mp t feer = Err e ∧ e ≠ ErrOOM)
  ∨ ∃ cs mp' payer b, checkTxConflicts mp t feer = Ok (map it_txn cs, mp')
      ∧ (∀ i, i ∈ cs ↔ i ∈ l ∧ in_conflict t i)
      ∧ indexed mp' l P ∧ mp_verifiedTxes mp' = mp_verifiedTxes mp ∧ mp_capacity mp' = mp_capacity mp
      ∧ mp_payerIndex mp' = mp_payerIndex mp ∧ mp_oracleResp mp' = mp_oracleResp mp
      ∧ mp_verifiedMap mp' = mp_verifiedMap mp
      ∧ pays (mp_payerIndex mp) payer t ∧ uf_balance <$> mp_fees mp' !! payer = Some b
      ∧ tx_fees t + owed (mp_payerIndex mp) payer (map it_txn (filter (λ i, ¬ in_conflict t i) l)) <= b < 2 ^ 255.
Proof.
  intros Hx Ht Hone Hbal. unfold checkTxConflicts. destruct (wf_payer _ _ Ht) as [s Hs].
  unfold payer_of. rewrite Hs. cbn [fmap option_fmap option_map]. set (payer := sg_Account s).
  assert (∃ cs1, default [] (mp_conflicts mp !! tx_hash t) = map ihash cs1
    ∧ cs1 ≡ₚ filter (λ i, tx_hash t ∈ conflict_hashes (it_txn i)) l) as (cs1 & Hcs1 & Hp1).
  { pose proof (ix_conf _ _ _ Hx (tx_hash t)) as Hc. destruct (mp_conflicts mp !! tx_hash t) as [ls|]; cbn.
    - destruct Hc as [_ Hc]. apply Permutation_map_inv in Hc as (cs & -> & Hcs). by exists cs.
    - exists []. split; [done|]. unfold names in Hc. by apply map_eq_nil in Hc as ->. }
  rewrite Hcs1.
  assert (∀ i, i ∈ cs1 ↔ i ∈ l ∧ tx_hash t ∈ conflict_hashes (it_txn i)) as Hin1.
  { intros i. rewrite Hp1, list_elem_of_filter. naive_solver. }
  destruct (step1_spec mp l P payer cs1 0 [] Hx) as (fee1 & ->); [intros i Hi; by apply Hin1|].
  cbn [mbind res_bind app].
  destruct (step2_spec mp l P (map sg_Account (t_Signers t)) (conflict_hashes t) fee1 (map it_txn cs1) Hx
    (wf_conflicts _ _ Ht)) as [(e & -> & ?)|(fee2 & cs2 & -> & Hs2 & Hnd2 & Hin2)]; [by left; eexists; split|].
  cbn [mbind res_bind]. rewrite <- map_app.
  destruct (_ && _); [by left; eexists; split|].
  assert (∀ i, i ∈ cs1 ++ cs2 ↔ i ∈ l ∧ in_conflict t i) as Hin.
  { intros i. rewrite elem_of_app, Hin1, Hin2. unfold in_conflict. naive_solver. }
  assert (cs1 ++ cs2 ≡ₚ filter (in_conflict t) l) as Hp.
  { apply NoDup_Permutation.
    - apply NoDup_app. split; [rewrite Hp1|split].
      + apply NoDup_filter. apply (NoDup_fmap_1 ihash), (ix_nodup _ _ _ Hx).
      + intros i [? Hi1]%Hin1 [? Hi2]%Hin2. by apply (Hone i).
      + by apply (NoDup_fmap_1 ihash).
    - apply NoDup_filter. apply (NoDup_fmap_1 ihash), (ix_nodup _ _ _ Hx).
    - intros i. rewrite Hin, list_elem_of_filter. naive_solver. }
  pose proof (sender_fee_ok mp l feer payer (ix_fees _ _ _ Hx) (Hbal payer)) as [Hsum Hle]. cbv zeta in Hsum, Hle.
  set (f := sender_fee mp feer payer) in *.
  assert (owed (mp_payerIndex mp) payer (map it_txn l) =
    owed (mp_payerIndex mp) payer (map it_txn (cs1 ++ cs2))
    + owed (mp_payerIndex mp) payer (map it_txn (filter (λ i, ¬ in_conflict t i) l))) as Hsplit.
  { rewrite <- owed_app, <- map_app. apply owed_Permutation. apply Permutation_map. rewrite Hp.
    clear. induction l as [|i l IH]; [done|]. rewrite !filter_cons.
    destruct (decide (in_conflict t i)).
    - rewrite decide_False by auto. cbn. by rewrite <- IH.
    - rewrite decide_True by done. rewrite <- Permutation_middle. by rewrite <- IH. }
  pose proof (owed_nonneg (mp_payerIndex mp) payer (map it_txn (cs1 ++ cs2))).
  pose proof (owed_nonneg (mp_payerIndex mp) payer (map it_txn (filter (λ i, ¬ in_conflict t i) l))).
  rewrite (step3_spec mp l P payer (cs1 ++ cs2) f Hx); [|intros i Hi; by apply Hin in Hi as []|lia].
  cbn [mbind res_bind].
  destruct (checkBalance t _) as [z|e|] eqn:Hcb; [|left; exists e; split; [done|]; unfold checkBalance in Hcb; by repeat case_bool_decide; simplify_eq|].
  2: { unfold checkBalance in Hcb. by repeat case_bool_decide. }
  apply checkBalance_ok in Hcb; cbn [uf_feeSum uf_balance] in *; [|lia|lia]. destruct Hcb as [Hcb _].
  right. eexists (cs1 ++ cs2), _, payer, (uf_balance f). split; [done|]. split; [done|].
  assert (pays (mp_payerIndex mp) payer t) as Hpay by (unfold pays; by rewrite Hs).
  destruct (mp_fees mp !! payer) as [g|] eqn:Hg.
  - rewrite bool_decide_eq_true_2 by by eexists. do 7 (split; [done|]).
    split; [|lia]. unfold f, sender_fee. by rewrite Hg.
  - rewrite bool_decide_eq_false_2 by by intros [? ?].
    split; [|do 6 (split; [done|]); split; [cbn [mp_fees set_fees]; by rewrite lookup_insert_eq|lia]].
    pose proof (fees_learn _ _ _ payer f (ix_fees _ _ _ Hx) (conj Hsum Hle)). destruct Hx. by split.
Qed.

(** ** Oracle responses *)

Definition same_oracle (t : Transaction) (i : mitem) : Prop :=
  is_Some (oracle_id t) ∧ oracle_id (it_txn i) = oracle_id t.

#[export] Instance same_oracle_dec t i : Decision (same_oracle t i).
Proof. unfold same_oracle. apply _. Defined.

(** The response that [t] is about to bring. *)
Definition pending (t : Transaction) : gmap Z bytes :=
  match oracle_id t with Some id => {[id := tx_hash t]} | None => ∅ end.

Lemma oracle_pending orc l id h :
  oracle_ok orc l ∅ → (∀ i, i ∈ l → oracle_id (it_txn i) ≠ Some id) →
  oracle_ok (<[id := h]> orc) l {[id := h]}.
Proof.
  intros [H1 H2] Hno. split.
  - intros i id' Hi Hid. apply lookup_singleton_ne. intros <-. by apply (Hno i).
  - intros id' h'. destruct (decide (id = id')) as [<-|Hne].
    + rewrite lookup_insert_eq, lookup_singleton_eq. split; [by right|].
      intros [(i & Hi & _ & Hid)|?]; [by destruct (Hno i)|done].
    + rewrite lookup_insert_ne, lookup_singleton_ne, H2 by done. rewrite lookup_empty. done.
Qed.

Lemma indexed_set_oracle mp l P P' orc :
  indexed mp l P → oracle_ok orc l P' → indexed (set_oracle mp orc) l P'.
Proof. intros [] Ho. by split. Qed.

Lemma replace_oracle_spec mp t :
  indexed mp (mp_verifiedTxes mp) ∅ →
  (∃ e, replace_oracle mp t = Err e ∧ e ≠ ErrOOM)
  ∨ ∃ mp', replace_oracle mp t = Ok mp'
      ∧ mp_verifiedTxes mp' = filter (λ i, ¬ same_oracle t i) (mp_verifiedTxes mp)
      ∧ indexed mp' (mp_verifiedTxes mp') (pending t) ∧ frame mp mp'.
Proof.
  intros Hx. unfold replace_oracle, pending.
  assert (∀ id i, oracle_id t = Some id → same_oracle t i ↔ oracle_id (it_txn i) = Some id) as Hso.
  { intros id i Hid. unfold same_oracle. rewrite Hid. naive_solver. }
  destruct (oracle_id t) as [id|] eqn:Hid.
  2: { right. exists mp. split; [done|]. split; [|split; [done|apply frame_refl]].
       symmetry. apply filter_keep. apply Forall_forall. intros i _ [[? Hs] _]. by rewrite Hid in Hs. }
  pose proof (ix_oracle _ _ _ Hx) as [_ Ho]. specialize (Hso id). 
  assert (∀ i, i ∈ mp_verifiedTxes mp → oracle_id (it_txn i) = Some id → mp_oracleResp mp !! id = Some (ihash i)) as Hc.
  { intros i Hi Hio. apply Ho. left. by exists i. }
  destruct (mp_oracleResp mp !! id) as [h|] eqn:Hh.
  - apply Ho in Hh as Hh'. rewrite lookup_empty in Hh'. destruct Hh' as [(i & Hi & Hih & Hio)|?]; [|done].
    assert (mp_verifiedMap mp !! h = Some (it_txn i)) as -> by (apply (ix_map _ _ _ Hx); by exists i).
    case_bool_decide; [by left; eexists; split|]. right.
    destruct (removeInternal_spec mp h ∅ Hx) as (mp' & -> & Hx' & Htx & Hfr). cbn [mbind res_bind].
    assert (mp_verifiedTxes mp' = filter (λ j, ¬ same_oracle t j) (mp_verifiedTxes mp)) as Htx'.
    { rewrite Htx. apply list_filter_iff'. intros j Hj. apply not_iff_compat. rewrite Hso by done. split.
      - intros Hjh. rewrite <- Hio. do 2 f_equal.
        apply (ihash_inj _ j i (ix_nodup _ _ _ Hx)); [done|done|congruence].
      - intros Hjo. pose proof (Hc j Hj Hjo). congruence. }
    eexists. split; [done|]. split; [exact Htx'|]. split; [|destruct Hfr; by split].
    apply (indexed_set_oracle _ _ ∅); [done|]. apply oracle_pending; [apply (ix_oracle _ _ _ Hx')|].
    intros j Hj Hjo. cbn [mp_verifiedTxes set_oracle] in Hj. rewrite Htx' in Hj.
    apply list_elem_of_filter in Hj as [Hj _]. by apply Hj, Hso.
  - right. eexists. split; [done|]. cbn [mp_verifiedTxes set_oracle].
    assert (∀ i, i ∈ mp_verifiedTxes mp → oracle_id (it_txn i) ≠ Some id) as Hno.
    { intros i Hi Hio. pose proof (Hc i Hi Hio). congruence. }
    split; [|split; [|by split]].
    + symmetry. apply filter_keep. apply Forall_forall. intros i Hi Hs. apply Hso in Hs; [|done]. by apply (Hno i).
    + apply (indexed_set_oracle _ _ ∅); [done|]. apply oracle_pending; [apply (ix_oracle _ _ _ Hx)|done].
Qed.

Lemma remove_all_spec mp ts P :
  indexed mp (mp_verifiedTxes mp) P →
  ∃ mp', remove_all mp ts = Ok mp' ∧ indexed mp' (mp_verifiedTxes mp') P ∧ frame mp mp'
    ∧ mp_verifiedTxes mp' = filter (λ i, ihash i ∉ map tx_hash ts) (mp_verifiedTxes mp).
Proof.
  revert mp. induction ts as [|t ts IH]; intros mp Hx; cbn [remove_all].
  { exists mp. split; [done|]. split; [done|]. split; [apply frame_refl|].
    symmetry. apply filter_keep. apply Forall_forall. intros i _. apply not_elem_of_nil. }
  destruct (removeInternal_spec mp (tx_hash t) P Hx) as (mp1 & -> & Hx1 & Htx1 & Hf1). cbn [mbind res_bind].
  destruct (IH mp1 Hx1) as (mp' & -> & Hx' & Hf' & Htx'). exists mp'. split; [done|]. split; [done|].
  split; [by eapply frame_trans|]. rewrite Htx', Htx1, list_filter_filter. apply list_filter_iff'.
  intros i _. cbn [map]. rewrite not_elem_of_cons. naive_solver.
Qed.

(** ** Addition *)

Lemma fees_add idx fees l i p b f :
  fees_ok idx fees l → pays idx p (it_txn i) → fees !! p = Some f → uf_balance f = b →
  tx_fees (it_txn i) + owed idx p (map it_txn l) <= b < 2 ^ 255 →
  fees_ok idx (<[p := mkFees (uf_balance f) (u256 (uf_feeSum f + tx_fees (it_txn i)))]> fees) (i :: l).
Proof.
  intros [H1 H2] Hp Hf Hb Hle. destruct (H1 p f Hf) as [Hs _].
  pose proof (owed_nonneg idx p (map it_txn l)). pose proof (tx_fees_range (it_txn i)). split.
  - intros q g. cbn [map]. rewrite owed_cons. destruct (decide (p = q)) as [<-|Hne].
    + rewrite lookup_insert_eq. intros [= <-]. cbn [uf_feeSum uf_balance]. rewrite decide_True by done.
      rewrite wrap_u_small by lia. split; lia.
    + rewrite lookup_insert_ne by done. intros Hg. destruct (H1 q g Hg) as [-> ?].
      rewrite decide_False by (unfold pays in *; congruence). split; [lia|done].
  - intros j q [->|Hj]%elem_of_cons Hq.
    + assert (p = q) as <- by (unfold pays in *; congruence). rewrite lookup_insert_eq. by eexists.
    + destruct (decide (p = q)) as [<-|Hne]; [rewrite lookup_insert_eq; by eexists|].
      rewrite lookup_insert_ne by done. by apply (H2 j).
Qed.

Lemma oracle_add orc l i :
  oracle_ok orc l (pending (it_txn i)) → oracle_ok orc (i :: l) ∅.
Proof.
  unfold pending. intros [H1 H2]. split; [intros; apply lookup_empty|].
  intros id h. rewrite H2, lookup_empty. destruct (oracle_id (it_txn i)) as [ido|] eqn:Hid.
  - rewrite lookup_singleton_Some. split.
    + intros [(j & Hj & ?)|[<- <-]]; left; [exists j|exists i].
      * split; [by apply list_elem_of_further|done].
      * split; [apply list_elem_of_here|done].
    + intros [(j & [->|Hj]%elem_of_cons & Hh & Hjo)|?]; [|left; by exists j|done].
      right. split; [congruence|done].
  - rewrite lookup_empty. split.
    + intros [(j & Hj & ?)|?]; [|done]. left. exists j. split; [by apply list_elem_of_further|done].
    + intros [(j & [->|Hj]%elem_of_cons & Hh & Hjo)|?]; [congruence|left; by exists j|done].
Qed.

Lemma add_indices_spec mp l i feer p b :
  indexed mp l (pending (it_txn i)) → tx_wf (mp_payerIndex mp) (it_txn i) → ihash i ∉ map ihash l →
  pays (mp_payerIndex mp) p (it_txn i) → uf_balance <$> mp_fees mp !! p = Some b →
  tx_fees (it_txn i) + owed (mp_payerIndex mp) p (map it_txn l) <= b < 2 ^ 255 →
  ∃ mp', add_indices mp i feer = Ok mp' ∧ indexed mp' (i :: l) ∅
    ∧ mp_verifiedTxes mp' = mp_verifiedTxes mp ∧ mp_capacity mp' = mp_capacity mp
    ∧ mp_payerIndex mp' = mp_payerIndex mp.
Proof.
  intros [Hwf Hnd Hmap Hconf Hfees Ho] Hi Hnew Hp Hb Hle.
  destruct (mp_fees mp !! p) as [f|] eqn:Hf; [|done]. cbn in Hb. injection Hb as Hb.
  unfold add_indices, tryAddSendersFee, payer_of. cbn [mp_payerIndex set_map set_conflicts].
  unfold pays in Hp. rewrite Hp. unfold sender_fee. cbn [mp_fees set_map set_conflicts set_fees]. rewrite Hf.
  cbn [default from_option id mbind res_bind]. eexists. split; [done|].
  split; [apply indexed_emit; split|].
  7: { split; [by rewrite emit_txes|]. unfold emit. case_match; done. }
  - by constructor.
  - cbn [map]. by constructor.
  - intros h t. cbn [mp_verifiedMap set_fees set_conflicts set_map]. destruct (decide (ihash i = h)) as [<-|Hne].
    + unfold ihash at 1. rewrite lookup_insert_eq. split.
      * intros [= <-]. exists i. split; [apply list_elem_of_here|done].
      * intros (j & [->|Hj]%elem_of_cons & <- & Hh); [done|]. destruct Hnew. rewrite <- Hh. by apply list_elem_of_fmap_2.
    + rewrite lookup_insert_ne, Hmap by done. split.
      * intros (j & Hj & ?). exists j. split; [by apply list_elem_of_further|done].
      * intros (j & [->|Hj]%elem_of_cons & Ht & Hh); [done|]. by exists j.
  - apply conf_add; [apply (wf_conflicts _ _ Hi)|done].
  - cbn [mp_fees set_fees mp_payerIndex set_conflicts set_map]. rewrite insert_insert_eq.
    by apply (fees_add _ _ _ _ _ b).
  - by apply oracle_add.
Qed.

(** *** The invariant *)

Record pool_inv (mp : Pool) : Prop := {
  pi_indexed : indexed mp (mp_verifiedTxes mp) ∅;
  pi_sorted : prio_sorted (mp_verifiedTxes mp);
  pi_capacity : Z.of_nat (length (mp_verifiedTxes mp)) <= mp_capacity mp;
}.

Lemma prio_sorted_trans : Transitive (λ a b, rank b <= rank a).
Proof. intros a b c. lia. Qed.

Lemma owed_filter idx p (Q : mitem → Prop) `{!∀ i, Decision (Q i)} l :
  owed idx p (map it_txn (filter Q l)) <= owed idx p (map it_txn l).
Proof.
  induction l as [|i l IH]; [done|]. rewrite filter_cons. cbn [map]. rewrite owed_cons.
  pose proof (tx_fees_range (it_txn i)).
  destruct (decide (Q i)); cbn [map]; rewrite ?owed_cons; destruct (decide (pays _ _ _)); lia.
Qed.

Lemma shift_in_spec n p l :
  (n <= length l)%nat → shift_in n p (l ++ [p]) = take n l ++ p :: drop n l.
Proof.
  intros Hn. unfold shift_in. rewrite length_app. cbn [length].
  replace (length l + 1 - 1)%nat with (length l) by lia. case_bool_decide as Hne.
  - rewrite take_app_le, drop_app_le, take_app_le by (rewrite ?length_drop; lia).
    rewrite (take_ge (drop n l)) by (rewrite length_drop; lia). done.
  - assert (n = length l) as -> by (destruct (decide (n = length l)); tauto).
    by rewrite take_ge, drop_ge by lia.
Qed.

(** What is in the pool when there is room: all of [l], or all but the last
    one, which has a lower rank than what comes in. *)
Definition roomy (cap : Z) (p : mitem) (l s : list mitem) : Prop :=
  (s = l ∧ Z.of_nat (length l) < cap)
  ∨ (∃ u, l = s ++ [u] ∧ Z.of_nat (length l) = cap ∧ rank u < rank p).

Lemma make_room_spec mp p P :
  let l := mp_verifiedTxes mp in
  let n := insert_position p l in
  indexed mp l P → prio_sorted l → Z.of_nat (length l) <= mp_capacity mp → tx_wf (mp_payerIndex mp) (it_txn p) →
  match make_room mp p n with
  | Panic => False
  | Err e => e = ErrOOM ∧ Z.of_nat (length l) = mp_capacity mp
  | Ok mp' => ∃ s, roomy (mp_capacity mp) p l s ∧ (n <= length s)%nat ∧ mp_verifiedTxes mp' = s ++ [p]
      ∧ indexed mp' s P ∧ frame mp mp'
  end.
Proof.
  intros l n Hx Hs Hcap Hp.
  destruct (insert_position_spec _ p l Hs Hp (ix_wf _ _ _ Hx)) as (Hn & Hb & Ha). fold n in Hn, Hb, Ha.
  unfold make_room. fold l. case_bool_decide as Hfull.
  2: { exists l. split; [left; split; [done|lia]|]. split; [done|]. split; [done|].
       split; [by apply indexed_set_txes|done]. }
  case_bool_decide as Hnl; [done|].
  assert (∃ s u, l = s ++ [u]) as (s & u & Hl).
  { destruct l as [|x l'] eqn:E using rev_ind; [cbn in *; lia|]. by eexists _, _. }
  rewrite Hl in *. rewrite length_app in *. cbn [length] in *. rewrite last_snoc.
  replace (length s + 1 - 1)%nat with (length s) by lia. rewrite take_app_length.
  destruct (remove_item_spec (set_txes mp (s ++ [p])) u s P) as (mp' & -> & Hx' & Htx & Hfr).
  { apply indexed_set_txes. apply (indexed_Permutation _ (s ++ [u])); [|done]. by rewrite Permutation_app_comm. }
  exists s. split; [|split; [lia|]].
  - right. exists u. rewrite length_app. split; [done|]. split; [done|].
    rewrite drop_app_le in Ha by lia. apply Forall_app in Ha as [_ Ha]. by inversion_clear Ha.
  - split; [by rewrite Htx|]. split; [done|]. by destruct Hfr.
Qed.

(** What stays when [t] comes: neither in conflict with it nor a response to
    the same request. *)
Definition survivors (t : Transaction) (l : list mitem) : list mitem :=
  filter (λ i, ¬ in_conflict t i) (filter (λ i, ¬ same_oracle t i) l).

(** The pool with the item in its place: after what is not less prioritized. *)
Definition placed (p : mitem) (s l : list mitem) : Prop :=
  ∃ n, l = take n s ++ p :: drop n s
    ∧ Forall (λ i, rank p <= rank i) (take n s) ∧ Forall (λ i, rank i < rank p) (drop n s).

Lemma survivors_cs t l cs :
  NoDup (map ihash l) → (∀ i, i ∈ cs ↔ i ∈ l ∧ in_conflict t i) →
  filter (λ i, ihash i ∉ map tx_hash (map it_txn cs)) (filter (λ i, ¬ same_oracle t i) l) = survivors t l.
Proof.
  intros Hnd Hcs. apply list_filter_iff'. intros i [_ Hi]%list_elem_of_filter. apply not_iff_compat.
  rewrite map_map. split.
  - intros (j & Hj & [Hjl Hjc]%Hcs)%list_elem_of_fmap. by rewrite (ihash_inj l i j).
  - intros Hc. apply (list_elem_of_fmap_2 ihash). by apply Hcs.
Qed.

(** The last part of [Add]: the item comes into a pool that has no room
    problem and no transaction it conflicts with. *)
Lemma Add_tail mp p feer payer b :
  let l := mp_verifiedTxes mp in
  let n := insert_position p l in
  indexed mp l (pending (it_txn p)) → prio_sorted l → Z.of_nat (length l) <= mp_capacity mp →
  tx_wf (mp_payerIndex mp) (it_txn p) → ihash p ∉ map ihash l →
  pays (mp_payerIndex mp) payer (it_txn p) → uf_balance <$> mp_fees mp !! payer = Some b →
  tx_fees (it_txn p) + owed (mp_payerIndex mp) payer (map it_txn l) <= b < 2 ^ 255 →
  match make_room mp p n with
  | Panic => False
  | Err e => e = ErrOOM ∧ Z.of_nat (length l) = mp_capacity mp
  | Ok mp1 => ∃ mp2 s, add_indices (set_txes mp1 (shift_in n p (mp_verifiedTxes mp1))) p feer = Ok mp2
      ∧ pool_inv mp2 ∧ roomy (mp_capacity mp) p l s ∧ placed p s (mp_verifiedTxes mp2)
      ∧ mp_capacity mp2 = mp_capacity mp ∧ mp_payerIndex mp2 = mp_payerIndex mp
  end.
Proof.
  intros l n Hx Hs Hcap Hp Hnew Hpay Hb Hle.
  pose proof (make_room_spec mp p _ Hx Hs Hcap Hp) as Hroom. cbv zeta in Hroom.
  destruct (insert_position_spec _ p l Hs Hp (ix_wf _ _ _ Hx)) as (Hn & Hbef & Haft).
  fold l in Hroom. fold n in Hroom, Hn, Hbef, Haft.
  destruct (make_room mp p n) as [mp1| |]; [|done..].
  destruct Hroom as (s & Hroom & Hns & -> & Hx1 & Hfr). destruct Hfr as [Hc1 Hi1 Hb1].
  rewrite shift_in_spec by done.
  assert (∃ r, l = s ++ r) as (r & Hl).
  { destruct Hroom as [[-> _]|(u & -> & _)]; [exists []; by rewrite app_nil_r|by eexists]. }
  destruct (add_indices_spec (set_txes mp1 (take n s ++ p :: drop n s)) s p feer payer b)
    as (mp2 & -> & Hx2 & Htx2 & Hc2 & Hi2).
  { by apply indexed_set_txes. }
  { cbn. by rewrite Hi1. }
  { rewrite Hl, map_app in Hnew. by apply not_elem_of_app in Hnew as []. }
  { cbn. by rewrite Hi1. }
  { cbn. by rewrite Hb1. }
  { cbn. rewrite Hi1. rewrite Hl, map_app, owed_app in Hle. pose proof (owed_nonneg (mp_payerIndex mp) payer (map it_txn r)). lia. }
  cbn in Htx2, Hc2, Hi2. rewrite Hl, take_app_le in Hbef by done.
  rewrite Hl, drop_app_le in Haft by done. apply Forall_app in Haft as [Haft _].
  assert (p :: s ≡ₚ take n s ++ p :: drop n s) as Hperm by by rewrite <- Permutation_middle, take_drop.
  exists mp2, s. split; [done|]. split; [split|].
  - rewrite Htx2. by apply (indexed_Permutation _ _ _ _ Hperm).
  - rewrite Htx2. apply StronglySorted_insert; [|done| |apply prio_sorted_trans].
    + rewrite Hl in Hs. by apply StronglySorted_app_1_l in Hs.
    + eapply Forall_impl; [exact Haft|]. cbn. intros. lia.
  - rewrite Htx2, <- Hperm, Hc2, Hc1. cbn [length].
    destruct Hroom as [[-> ?]|(u & Hu & Heq & _)]; [lia|]. rewrite Hu, length_app in Heq. cbn in Heq. lia.
  - split; [done|]. split; [by exists n; rewrite Htx2|]. by rewrite Hc2, Hi2.
Qed.

(** C19: adding a transaction to a sorted pool whose indices are those of its
    transactions gives again such a pool.  What is left out is what conflicts
    with it or answers the same oracle request, and, of a full pool, the last
    transaction, if it has a lower rank; what is left has its order, and the
    new transaction comes after what is not less prioritized.  No payer owes
    more than the balance.  A refused addition changes no transaction of the
    pool and leaves the indices true, except that one refused for a full pool
    leaves behind the identifier of its oracle response.  It never panics. *)
Theorem Add_spec mp t feer data :
  pool_inv mp → tx_wf (mp_payerIndex mp) t → one_sided t (mp_verifiedTxes mp) →
  (∀ p, 0 <= fr_GetUtilityTokenBalance feer p < 2 ^ 255) →
  let p := mkItem t (fr_BlockHeight feer) data in
  let s := survivors t (mp_verifiedTxes mp) in
  match Add mp t feer data with
  | (_, Panic) => False
  | (mp', Err e) => mp_verifiedTxes mp' = mp_verifiedTxes mp
      ∧ indexed mp' (mp_verifiedTxes mp') (if bool_decide (e = ErrOOM) then pending t else ∅)
  | (mp', Ok _) => pool_inv mp' ∧ (∃ s', roomy (mp_capacity mp) p s s' ∧ placed p s' (mp_verifiedTxes mp'))
      ∧ mp_capacity mp' = mp_capacity mp ∧ mp_payerIndex mp' = mp_payerIndex mp
  end.
Proof.
  intros [Hx Hs Hcap] Ht Hone Hbal p s. unfold Add. fold p.
  unfold containsKey. case_bool_decide as Hdup; [done|].
  destruct (checkTxConflicts_spec mp _ ∅ t feer Hx Ht Hone Hbal)
    as [(e & -> & He)|(cs & mp1 & payer & b & -> & Hcs & Hx1 & Htx1 & Hc1 & Hi1 & Ho1 & Hm1 & Hpay & Hb & Hle)].
  { split; [done|]. by rewrite bool_decide_eq_false_2. }
  rewrite <- Htx1 in Hx1. destruct (replace_oracle_spec mp1 t Hx1) as [(e & -> & He)|(mp2 & -> & Htx2 & Hx2 & Hf2)].
  { split; [done|]. rewrite bool_decide_eq_false_2 by done. by rewrite Htx1 in *. }
  destruct (remove_all_spec mp2 (map it_txn cs) _ Hx2) as (mp3 & -> & Hx3 & Hf3 & Htx3).
  rewrite Htx2, Htx1, survivors_cs in Htx3; [|apply (ix_nodup _ _ _ Hx)|done]. fold s in Htx3.
  destruct (frame_trans _ _ _ Hf2 Hf3) as [Hc3 Hi3 Hb3].
  assert (mp_payerIndex mp3 = mp_payerIndex mp) as Hi3' by congruence.
  assert (mp_capacity mp3 = mp_capacity mp) as Hc3' by congruence.
  assert (length s <= length (mp_verifiedTxes mp))%nat as Hlen.
  { unfold s, survivors. etransitivity; [apply length_filter|apply length_filter]. }
  pose proof (Add_tail mp3 p feer payer b) as Htail. cbv zeta in Htail. rewrite Htx3, Hi3', Hc3' in Htail.
  cbn [it_txn p] in Htail. rewrite Htx3. unfold p in *.
  ospecialize* Htail.
  { by rewrite <- Htx3. } 
  { by apply StronglySorted_filter, StronglySorted_filter. }
  { lia. }
  { done. }
  { intros (i & Hi & Hil)%list_elem_of_fmap. apply Hdup. eexists.
    apply (ix_map _ _ _ Hx). exists i. split; [|by split].
    unfold s, survivors in Hil. by apply list_elem_of_filter in Hil as [_ [_ ?]%list_elem_of_filter]. }
  { done. }
  { by rewrite Hb3. }
  { unfold s, survivors. rewrite list_filter_filter. rewrite (list_filter_iff' _ _ _ (λ i _, and_comm _ _)). rewrite <- list_filter_filter.
    pose proof (owed_filter (mp_payerIndex mp) payer (λ i, ¬ same_oracle t i)
      (filter (λ i, ¬ in_conflict t i) (mp_verifiedTxes mp))). lia. }
  destruct (make_room _ _ _) as [mp4|e|]; [|destruct Htail as [-> Hfull]|done].
  - destruct Htail as (mp5 & s' & -> & Hinv & Hr & Hpl & Hc & Hi). split; [done|]. split; [by exists s'|]. done.
  - rewrite bool_decide_eq_true_2 by done. split; [|done]. rewrite Htx3 in *. unfold s, survivors in *.
    rewrite list_filter_filter in *. apply filter_all. lia.
Qed.

(** ** New blocks

    While [RemoveStale] goes over the pool, [k] is what it has kept and [l] what
    it has still to see; fees and conflicts are those of [k] only. *)
Record sweeping (mp : Pool) (k l : list mitem) : Prop := {
  sw_wf : Forall (λ i, tx_wf (mp_payerIndex mp) (it_txn i)) (k ++ l);
  sw_nodup : NoDup (map ihash (k ++ l));
  sw_map : ∀ h t, mp_verifiedMap mp !! h = Some t ↔ ∃ i, i ∈ k ++ l ∧ it_txn i = t ∧ ihash i = h;
  sw_conf : conf_ok (mp_conflicts mp) k;
  sw_fees : fees_ok (mp_payerIndex mp) (mp_fees mp) k;
  sw_oracle : oracle_ok (mp_oracleResp mp) (k ++ l) ∅;
}.

Definition same_config (mp mp' : Pool) : Prop :=
  mp_capacity mp' = mp_capacity mp ∧ mp_payerIndex mp' = mp_payerIndex mp ∧ mp_feePerByte mp' = mp_feePerByte mp.

Lemma fees_ok_Permutation idx fees l l' : l ≡ₚ l' → fees_ok idx fees l → fees_ok idx fees l'.
Proof.
  intros Hl [H1 H2]. split.
  - intros p f Hp. by rewrite <- Hl; apply H1.
  - intros i p Hi. apply H2. by rewrite Hl.
Qed.

Lemma conf_ok_Permutation conf l l' : l ≡ₚ l' → conf_ok conf l → conf_ok conf l'.
Proof.
  intros Hl Hc h. specialize (Hc h). pose proof (names_Permutation h l l' Hl) as Hn.
  destruct (conf !! h); [by rewrite <- Hn|]. rewrite Hc in Hn. by apply Permutation_nil_l in Hn.
Qed.

Lemma oracle_ok_Permutation orc l l' P : l ≡ₚ l' → oracle_ok orc l P → oracle_ok orc l' P.
Proof.
  intros Hl [H1 H2]. split.
  - intros i id Hi. apply H1. by rewrite Hl.
  - intros id h. rewrite H2. by setoid_rewrite Hl.
Qed.

Lemma snoc_Permutation {A} (l : list A) x : x :: l ≡ₚ l ++ [x].
Proof. apply Permutation_cons_append. Qed.

(** The fees of one more transaction, when the payer can pay. *)
Lemma tryAddSendersFee_spec mp k t feer :
  fees_ok (mp_payerIndex mp) (mp_fees mp) k → tx_wf (mp_payerIndex mp) t →
  (∀ p, 0 <= fr_GetUtilityTokenBalance feer p < 2 ^ 255) →
  ∃ ok fees, tryAddSendersFee mp t feer true = Ok (ok, set_fees mp fees)
    ∧ if (ok : bool) then ∀ i, it_txn i = t → fees_ok (mp_payerIndex mp) fees (i :: k)
      else fees_ok (mp_payerIndex mp) fees k.
Proof.
  intros Hf Ht Hbal. destruct (wf_payer _ _ Ht) as [s Hs]. unfold tryAddSendersFee, payer_of. rewrite Hs.
  cbn [fmap option_fmap option_map]. set (payer := sg_Account s).
  pose proof (sender_fee_ok mp k feer payer Hf (Hbal payer)) as Hsf. cbv zeta in Hsf.
  set (f := sender_fee mp feer payer) in *.
  pose proof (fees_learn _ _ _ payer f Hf Hsf) as Hl.
  pose proof (owed_nonneg (mp_payerIndex mp) payer (map it_txn k)).
  destruct (checkBalance t f) as [z|e|] eqn:Hcb; [|by eexists false, _; split; [done|]..].
  exists true. eexists. split; [done|]. intros i Hi. cbn [mp_fees set_fees].
  apply checkBalance_ok in Hcb as [Hle ->]; [|lia|lia].
  pose proof (fees_add _ _ k i payer (uf_balance f) f Hl) as Ha.
  rewrite Hi, insert_insert_eq in Ha. rewrite wrap_u_small in Ha by (pose proof (tx_fees_range t); lia).
  rewrite insert_insert_eq, (Z.add_comm (tx_fees t)). apply Ha; [|by apply lookup_insert_eq|done|lia].
  unfold pays. by rewrite Hs.
Qed.

Lemma sweep_drop mp k i l fees :
  sweeping mp k (i :: l) → fees_ok (mp_payerIndex mp) fees k →
  let mp1 := set_map (set_fees mp fees) (delete (tx_hash (it_txn i)) (mp_verifiedMap mp)) in
  let mp2 := match oracle_id (it_txn i) with
             | Some id => set_oracle mp1 (delete id (mp_oracleResp mp1))
             | None => mp1
             end in
  sweeping (emit mp2 (TransactionRemoved i)) k l.
Proof.
  intros [Hwf Hnd Hmap Hconf Hfees Ho] Hf mp1 mp2.
  assert (k ++ i :: l ≡ₚ i :: k ++ l) as Hp by by rewrite Permutation_middle.
  rewrite Hp in Hwf, Hnd. inversion_clear Hwf as [|? ? _ Hwf'].
  pose proof (oracle_remove _ _ _ _ Hnd (oracle_ok_Permutation _ _ _ _ Hp Ho)) as Ho'.
  pose proof (map_remove (mp_verifiedMap mp) i (k ++ l) Hnd) as Hmap'.
  assert (sweeping mp2 k l) as Hmp2.
  { unfold mp2. destruct (oracle_id (it_txn i)); split; cbn; try done; try (by inversion_clear Hnd);
      apply Hmap'; intros h t; rewrite Hmap; by setoid_rewrite Hp. }
  unfold emit. destruct (mp_subscriptionsOn mp2); [|done]. by destruct Hmp2.
Qed.

Lemma stale_loop_spec isOK feer pc l : ∀ mp k,
  sweeping mp k l → (∀ p, 0 <= fr_GetUtilityTokenBalance feer p < 2 ^ 255) →
  ∃ kept stale mp', stale_loop isOK feer pc l mp = Ok (kept, stale, mp')
    ∧ sweeping mp' (k ++ kept) [] ∧ sublist kept l ∧ sublist stale kept
    ∧ Forall (λ i, isOK (it_txn i) = true ∧ checkPolicy mp (it_txn i) pc = true) kept ∧ same_config mp mp'.
Proof.
  induction l as [|i l IH]; intros mp k Hsw Hbal; cbn [stale_loop].
  { exists [], [], mp. rewrite app_nil_r. do 4 (split; [done|]). split; [constructor|]. done. }
  pose proof Hsw as [Hwf Hnd Hmap Hconf Hfees Ho].
  assert (tx_wf (mp_payerIndex mp) (it_txn i)) as Hi.
  { rewrite Forall_forall in Hwf. apply Hwf, elem_of_app. right. apply list_elem_of_here. }
  destruct (tryAddSendersFee_spec mp k (it_txn i) feer Hfees Hi Hbal) as (ok & fees & Htry & Hok).
  assert (∃ keep fees', (if isOK (it_txn i) && checkPolicy mp (it_txn i) pc then tryAddSendersFee mp (it_txn i) feer true
      else Ok (false, mp)) = Ok (keep, set_fees mp fees')
    ∧ if (keep : bool) then isOK (it_txn i) = true ∧ checkPolicy mp (it_txn i) pc = true
        ∧ fees_ok (mp_payerIndex mp) fees' (i :: k) else fees_ok (mp_payerIndex mp) fees' k) as (keep & fees' & -> & Hk).
  { destruct (isOK (it_txn i)), (checkPolicy mp (it_txn i) pc); cbn [andb];
      try (exists false, (mp_fees mp); split; [by destruct mp|done]).
    exists ok, fees. split; [done|]. destruct ok; [|done]. by split_and!; [..|apply Hok]. }
  cbn [mbind res_bind]. destruct keep.
  - destruct Hk as (Hk1 & Hk2 & Hk3).
    match goal with |- context [stale_loop _ _ _ _ ?m] => destruct (IH m (k ++ [i]))
      as (kept & stale & mp' & -> & Hsw' & Hsub & Hst & Hall & Hsame); [|done|] end.
    { split; cbn [mp_verifiedMap mp_conflicts mp_fees mp_oracleResp mp_payerIndex set_conflicts set_fees];
        rewrite <- ?app_assoc; try done.
      - apply (conf_ok_Permutation _ (i :: k)); [apply snoc_Permutation|].
        by apply conf_add; [apply (wf_conflicts _ _ Hi)|].
      - by apply (fees_ok_Permutation _ _ (i :: k)); [apply snoc_Permutation|]. }
    cbn [mbind res_bind]. eexists _, _, _. split; [done|]. rewrite <- app_assoc in Hsw'.
    split; [done|]. split; [by constructor|]. split; [destruct (is_stale _ _ _); by constructor|].
    split; [constructor; [done|exact Hall]|exact Hsame].
  - set (mp1 := emit _ _). destruct (IH mp1 k) as (kept & stale & mp' & -> & Hsw' & Hsub & Hst & Hall & Hsame).
    + by apply (sweep_drop mp k i l fees').
    + done.
    + eexists _, _, _. split; [done|]. split; [done|]. split; [by constructor|]. split; [done|].
      unfold mp1, emit in Hall, Hsame. unfold checkPolicy, same_config in *.
      destruct (oracle_id (it_txn i)), (mp_subscriptionsOn mp) eqn:Hon; cbn in *; rewrite Hon in *; done.
Qed.

Lemma prio_sorted_sublist l l' : sublist l' l → prio_sorted l → prio_sorted l'.
Proof.
  unfold prio_sorted. induction 1 as [|i l' l Hs IH|i l' l Hs IH]; intros Hl; [done| |].
  - apply StronglySorted_inv in Hl as [Hl Hi]. constructor; [by apply IH|].
    rewrite Forall_forall in *. intros j Hj. apply Hi. by apply (sublist_subseteq _ _ Hs).
  - apply StronglySorted_inv in Hl as [Hl _]. by apply IH.
Qed.

(** C22: after a block the pool is again sorted with true indices, at most what
    it was and in the same order; the transactions left are those that the
    chain accepts, that pay the fee per byte if it has been raised, and whose
    payers can pay all that they owe.  What is to be sent again is in the
    pool. *)
Theorem RemoveStale_spec mp isOK feer :
  pool_inv mp → (∀ p, 0 <= fr_GetUtilityTokenBalance feer p < 2 ^ 255) →
  ∃ stale mp', RemoveStale mp isOK feer = Ok (stale, mp') ∧ pool_inv mp'
    ∧ sublist (mp_verifiedTxes mp') (mp_verifiedTxes mp) ∧ sublist stale (mp_verifiedTxes mp')
    ∧ Forall (λ i, isOK (it_txn i) = true
                 ∧ (mp_feePerByte mp < fr_FeePerByte feer → fr_FeePerByte feer <= fee_per_byte (it_txn i)))
        (mp_verifiedTxes mp')
    ∧ mp_capacity mp' = mp_capacity mp ∧ mp_payerIndex mp' = mp_payerIndex mp
    ∧ mp_feePerByte mp' = Z.max (mp_feePerByte mp) (fr_FeePerByte feer).
Proof.
  intros [[Hwf Hnd Hmap Hconf Hfees Ho] Hs Hcap] Hbal. unfold RemoveStale.
  assert (∃ pc mp0, loadPolicy mp feer = (pc, mp0) ∧ mp0 = set_policy mp (Z.max (mp_feePerByte mp) (fr_FeePerByte feer))
    ∧ pc = bool_decide (mp_feePerByte mp < fr_FeePerByte feer)) as (pc & mp0 & -> & -> & Hpc).
  { unfold loadPolicy. case_bool_decide; eexists _, _; (split; [done|]); (split; [|done]).
    - by rewrite (Z.max_r (mp_feePerByte mp)) by lia.
    - rewrite (Z.max_l (mp_feePerByte mp)) by lia. by destruct mp. }
  cbn [mp_verifiedTxes set_policy].
  match goal with |- context [stale_loop _ _ _ _ ?m] =>
    destruct (stale_loop_spec isOK feer pc (mp_verifiedTxes mp) m []) as
      (kept & stale & mp' & -> & Hsw & Hsub & Hst & Hall & (Hc & Hi & Hf)); [|done|] end.
  { split; cbn; try done. split; [intros p f; by rewrite lookup_empty|by intros i p ?%not_elem_of_nil]. }
  cbn [mbind res_bind]. eexists _, _. split; [done|]. destruct Hsw as [Hwf' Hnd' Hmap' Hconf' Hfees' Ho'].
  rewrite !app_nil_r in *. cbn [app] in *. split; [split|].
  - by split.
  - by apply (prio_sorted_sublist _ _ Hsub).
  - cbn in *. rewrite Hc. apply sublist_length in Hsub. lia.
  - split; [done|]. split; [done|]. split; [|done].
    eapply Forall_impl; [exact Hall|]. intros i [Hok Hp]. split; [done|]. intros Hlt.
    unfold checkPolicy in Hp. cbn in Hp. rewrite Hpc, bool_decide_eq_true_2 in Hp by done. cbn in Hp.
    apply bool_decide_eq_true in Hp. lia.
Qed.

(** ** Lookup *)

Lemma data_loop_spec idx h itm i l :
  (∀ j, j ∈ l → tx_wf idx (it_txn j)) → tx_wf idx (it_txn itm) → NoDup (map ihash l) →
  prio_sorted l → (∀ j, j ∈ l → rank j <= rank itm) →
  i ∈ l → ihash i = h → rank i = rank itm → data_loop h itm l = Some (it_data i).
Proof.
  intros Hwf Hw. induction l as [|j l IH]; intros Hnd Hs Hle Hi Hh Hr; [by apply not_elem_of_nil in Hi|].
  cbn [data_loop]. apply NoDup_cons in Hnd as [Hj Hnd]. apply StronglySorted_inv in Hs as [Hs Hjl].
  apply elem_of_cons in Hi as [->|Hi].
  { by rewrite bool_decide_eq_true_2. }
  rewrite bool_decide_eq_false_2.
  2: { intros He. apply Hj. change (ihash j = h) in He. rewrite He, <- Hh. by apply list_elem_of_fmap_2. }
  rewrite bool_decide_eq_false_2.
  - apply IH; try done; intros k Hk; [apply Hwf|apply Hle]; by apply list_elem_of_further.
  - intros Hc. apply Hc. apply (Compare_rank idx); [done|apply Hwf, list_elem_of_here|].
    rewrite Forall_forall in Hjl. pose proof (Hjl i Hi). pose proof (Hle j (list_elem_of_here _ _)). cbn beta in *. lia.
Qed.

(** The binary search for the data of a transaction finds them, among
    transactions of the same priority too, and nothing for other hashes. *)
Theorem TryGetData_spec mp h :
  pool_inv mp →
  (∀ i, i ∈ mp_verifiedTxes mp → ihash i = h → TryGetData mp h = Some (it_data i))
  ∧ (h ∉ map ihash (mp_verifiedTxes mp) → TryGetData mp h = None).
Proof.
  intros [[Hwf Hnd Hmap _ _ _] Hs _]. rewrite Forall_forall in Hwf. split.
  - intros i Hi Hh. unfold TryGetData.
    assert (mp_verifiedMap mp !! h = Some (it_txn i)) as -> by (apply Hmap; by exists i).
    set (itm := mkItem (it_txn i) 0 None). assert (rank itm = rank i) as Hr by done.
    assert (tx_wf (mp_payerIndex mp) (it_txn itm)) as Hw by exact (Hwf i Hi).
    set (l := mp_verifiedTxes mp) in *.
    set (f := λ n, match l !! n with Some i => bool_decide (0 <= Compare itm i) | None => false end).
    assert (∀ k j, l !! k = Some j → f k = true ↔ rank j <= rank itm) as Hf.
    { intros k j Hk. unfold f. rewrite Hk, bool_decide_eq_true.
      destruct (Compare_rank (mp_payerIndex mp) itm j Hw) as [H1 H2]; [|lia].
      apply Hwf. by eapply list_elem_of_lookup_2. }
    destruct (search_loop_spec (length l) 0 (length l) f) as (Hn & Hlow & Hup); [lia|lia| |lia|].
    { intros a b Hab Hfa. destruct (lookup_lt_is_Some_2 l a ltac:(lia)) as [x Hx].
      destruct (lookup_lt_is_Some_2 l b ltac:(lia)) as [y Hy]. rewrite (Hf _ _ Hy).
      rewrite (Hf _ _ Hx) in Hfa. pose proof (prio_sorted_lookup l a b x y Hs ltac:(lia) Hx Hy). lia. }
    fold (sort_Search (length l) f) in *. set (n := sort_Search (length l) f) in *.
    pose proof Hi as (k & Hk)%list_elem_of_lookup_1. pose proof (lookup_lt_Some _ _ _ Hk) as Hkl.
    assert (n <= k)%nat as Hnk.
    { destruct (decide (n <= k)%nat); [done|]. assert (f k = false) as Hfk by (apply Hlow; lia).
      pose proof (proj2 (Hf _ _ Hk) ltac:(lia)). congruence. }
    rewrite bool_decide_eq_true_2 by lia.
    assert (∀ j, j ∈ drop n l → j ∈ l) as Hdl by (intros j; apply sublist_subseteq, sublist_drop).
    apply (data_loop_spec (mp_payerIndex mp)); [|done| | | | |done|done].
    + intros j Hj. by apply Hwf, Hdl.
    + apply (sublist_NoDup _ (map ihash l)); [done|apply (fmap_sublist ihash), sublist_drop].
    + by apply (prio_sorted_sublist l); [apply sublist_drop|].
    + intros j (m & Hm)%list_elem_of_lookup_1. rewrite lookup_drop in Hm. apply (Hf _ _ Hm), Hup.
      apply lookup_lt_Some in Hm. lia.
    + apply (list_elem_of_lookup_2 _ (k - n)). rewrite lookup_drop. by replace (n + (k - n))%nat with k by lia.
  - intros Hh. unfold TryGetData. destruct (mp_verifiedMap mp !! h) eqn:Hm; [|done].
    apply Hmap in Hm as (i & Hi & _ & <-). destruct Hh. by apply list_elem_of_fmap_2.
Qed.
End spec.

(** ** Examples

    A pool for one transaction, and who wants to get in. *)
Section examples.
#[local] Existing Instance toy_Digest.

Definition ex_payer : bytes := repeat x01 20.

(** A transaction of 100 bytes with hash [h]. *)
Definition ex_tx (h : byte) (fee : Z) (attrs : list Attribute) : Transaction :=
  mkTx 0 0 0 fee 100 [] attrs [mkSigner ex_payer 1 [] [] []] [] 100 [h] true false.

Definition ex_feer : Feer := mkFeer 0 (λ _, 100000) 7.

Definition ex_item : mitem := mkItem (ex_tx x01 1000 []) 3 (Some 5).

Definition ex_pool (cap : Z) : Pool :=
  mkPool {[ [x01] := it_txn ex_item ]} [ex_item] {[ ex_payer := mkFees 100000 1000 ]} ∅ ∅ cap 0 0 false 0 [].

Definition ex_oracle (id : Z) : Attribute := mkAttr OracleResponseT (Some (OracleResponse id 0 [])).

Lemma ex_tx_wf h fee attrs :
  0 <= fee < 2 ^ 63 → NoDup (conflict_hashes (ex_tx h fee attrs)) → tx_wf 0 (ex_tx h fee attrs).
Proof. intros Hf Hc. split; [done|done|done|by eexists|done]. Qed.

Lemma ex_pool_inv cap : 1 <= cap → pool_inv (ex_pool cap).
Proof.
  intros Hcap. split; [split|repeat constructor|done].
  - constructor; [|constructor]. apply ex_tx_wf; [done|constructor].
  - apply NoDup_singleton.
  - intros h t. cbn [mp_verifiedMap ex_pool]. rewrite lookup_singleton_Some. split.
    + intros [<- <-]. exists ex_item. split; [apply list_elem_of_here|done].
    + by intros (i & ->%list_elem_of_singleton & <- & <-).
  - intros h. cbn. by rewrite lookup_empty.
  - split.
    + intros p f. cbn [mp_fees ex_pool]. rewrite lookup_singleton_Some. by intros [<- <-].
    + intros i p ->%list_elem_of_singleton [= <-]. cbn [mp_fees ex_pool]. rewrite lookup_singleton_eq. by eexists.
  - split; [intros; apply lookup_empty|]. intros id h. cbn. rewrite !lookup_empty. split; [done|].
    by intros [(i & ->%list_elem_of_singleton & _ & ?)|?].
Qed.

Definition ex_rich : Transaction := ex_tx x02 5000 [].

Lemma Add_spec_witness :
  pool_inv (ex_pool 1)
  ∧ map ihash (mp_verifiedTxes (fst (Add (ex_pool 1) ex_rich ex_feer None))) = [ [x02] ]
  ∧ match Add (ex_pool 1) ex_rich ex_feer None with
    | (_, Panic) => False
    | (mp', Err e) => mp_verifiedTxes mp' = mp_verifiedTxes (ex_pool 1)
        ∧ indexed mp' (mp_verifiedTxes mp') (if bool_decide (e = ErrOOM) then pending ex_rich else ∅)
    | (mp', Ok _) => pool_inv mp'
        ∧ (∃ s', roomy 1 (mkItem ex_rich 7 None) (survivors ex_rich [ex_item]) s'
             ∧ placed (mkItem ex_rich 7 None) s' (mp_verifiedTxes mp'))
        ∧ mp_capacity mp' = 1 ∧ mp_payerIndex mp' = 0%nat
    end.
Proof.
  split; [by apply ex_pool_inv|]. split; [by vm_compute|].
  apply (Add_spec (ex_pool 1) ex_rich ex_feer None).
  - by apply ex_pool_inv.
  - apply ex_tx_wf; [done|constructor].
  - intros i _ Hi. by apply not_elem_of_nil in Hi.
  - intros p. cbn. lia.
Defined.

Lemma RemoveStale_spec_witness :
  pool_inv (ex_pool 1)
  ∧ ∃ stale mp', RemoveStale (ex_pool 1) (λ _, true) ex_feer = Ok (stale, mp') ∧ pool_inv mp'
      ∧ sublist (mp_verifiedTxes mp') [ex_item] ∧ sublist stale (mp_verifiedTxes mp')
      ∧ Forall (λ i, (λ _, true) (it_txn i) = true ∧ (0 < fr_FeePerByte ex_feer → fr_FeePerByte ex_feer <= fee_per_byte (it_txn i)))
          (mp_verifiedTxes mp')
      ∧ mp_capacity mp' = 1 ∧ mp_payerIndex mp' = 0%nat ∧ mp_feePerByte mp' = Z.max 0 (fr_FeePerByte ex_feer).
Proof.
  split; [by apply ex_pool_inv|].
  apply (RemoveStale_spec (ex_pool 1) (λ _, true) ex_feer); [by apply ex_pool_inv|].
  intros p. cbn. lia.
Defined.

Lemma TryGetData_spec_witness :
  pool_inv (ex_pool 1) ∧ TryGetData (ex_pool 1) [x01] = Some (Some 5).
Proof.
  split; [by apply ex_pool_inv|].
  apply (proj1 (TryGetData_spec (ex_pool 1) [x01] (ex_pool_inv 1 ltac:(lia))) ex_item); [apply list_elem_of_here|done].
Defined.

(** An oracle response refused by a full pool leaves its identifier in the
    index; the next response to the same request, whatever it pays, is looked
    up under a hash that is not in the pool: a nil pointer. *)
Theorem oracle_leftover_panics :
  let poor := ex_tx x02 10 [ex_oracle 4] in
  let rich := ex_tx x03 5000 [ex_oracle 4] in
  let '(mp1, r1) := Add (ex_pool 1) poor ex_feer None in
  r1 = Err ErrOOM ∧ mp_verifiedTxes mp1 = [ex_item] ∧ mp_oracleResp mp1 = {[ 4 := [x02] ]}
  ∧ snd (Add mp1 rich ex_feer None) = Panic
  ∧ snd (Add (ex_pool 1) rich ex_feer None) = Ok tt.
Proof. by vm_compute. Qed.
End examples.
