(* ===== verification/StackItem.v ===== *)
(** * StackItem: the values of the virtual machine

    Models [pkg/vm/stackitem]: [item.go], [type.go], [immutable.go],
    [reference.go], [conversion.go].  Immutable items (Null, Boolean, Integer,
    ByteString, Pointer, Interop) are values; the items with identity (Buffer,
    Array, Struct, Map) are locations of a [Heap] whose cells carry their
    contents, their reference count ([rc]) and their read-only mark ([ro]).
    The value of an Interop is opaque to this package: it is a handle compared
    by the [interop_eq] of the environment.  A Go function that returns an
    error or panics is a function into [res sierr]. *)

From S2P Require Import Prelude Bigint.

Inductive sierr :=
  | ErrInvalidConversion
  | ErrTooBig
  | ErrReadOnly
  | ErrInvalidType
  | ErrInvalidValue
  | ErrRecursive
  | ErrUnserializable
  | ErrReader.

#[export] Instance sierr_eq_dec : EqDecision sierr.
Proof. solve_decision. Defined.

(** ** Limits ([item.go], [serialization.go]) *)

Definition MaxBigIntegerSizeBits : Z := 32 * 8.
Definition MaxSize : Z := 65535 * 2.
Definition MaxDeserialized : Z := 2048.
Definition MaxSerialized : Z := MaxDeserialized.
Definition MaxComparableNumOfItems : Z := MaxDeserialized.
Definition MaxClonableNumOfItems : Z := MaxDeserialized.
Definition MaxByteArrayComparableSize : Z := 65535 + 1.
Definition MaxKeySize : Z := 64.

(** ** Types ([type.go]) *)

Definition AnyT : Z := 0.
Definition PointerT : Z := 16.
Definition BooleanT : Z := 32.
Definition IntegerT : Z := 33.
Definition ByteArrayT : Z := 40.
Definition BufferT : Z := 48.
Definition ArrayT : Z := 64.
Definition StructT : Z := 65.
Definition MapT : Z := 72.
Definition InteropT : Z := 96.
Definition InvalidT : Z := 255.

Definition IsValid (t : Z) : bool :=
  bool_decide (t ∈ [AnyT; PointerT; BooleanT; IntegerT; ByteArrayT; BufferT;
                    ArrayT; StructT; MapT; InteropT]).

(** ** Items *)

Abbreviation loc := positive.

Inductive item :=
  | Null
  | Bool (b : bool)
  | Integer (n : Z)
  | ByteArray (b : bytes)
  | Buffer (l : loc)
  | Array (l : loc)
  | Struct (l : loc)
  | Map (l : loc)
  | Pointer (pos : Z) (hash : bytes)
  | Interop (v : Z).

#[export] Instance item_eq_dec : EqDecision item.
Proof. solve_decision. Defined.

Definition Type_ (i : item) : Z :=
  match i with
  | Null => AnyT
  | Bool _ => BooleanT
  | Integer _ => IntegerT
  | ByteArray _ => ByteArrayT
  | Buffer _ => BufferT
  | Array _ => ArrayT
  | Struct _ => StructT
  | Map _ => MapT
  | Pointer _ _ => PointerT
  | Interop _ => InteropT
  end.

(** [Map] keeps its elements in insertion order and an index of them by the
    hash code of their keys. *)
Record smap := mkMap { m_value : list (item * item); m_dict : gmap bytes nat }.

Inductive cell :=
  | CBuffer (b : bytes)
  | CSeq (value : list item) (rc : Z) (ro : bool)
  | CMap (m : smap) (rc : Z) (ro : bool).

Record Heap := mkHeap { h_cells : gmap loc cell; h_next : loc }.

Definition emptyHeap : Heap := mkHeap ∅ 1%positive.

Definition h_get (h : Heap) (l : loc) : option cell := h_cells h !! l.
Definition h_set (h : Heap) (l : loc) (c : cell) : Heap :=
  mkHeap (<[l := c]> (h_cells h)) (h_next h).
Definition h_alloc (h : Heap) (c : cell) : loc * Heap :=
  (h_next h, mkHeap (<[h_next h := c]> (h_cells h)) (Pos.succ (h_next h))).

#[global] Arguments h_alloc : simpl never.
#[global] Arguments h_get : simpl never.
#[global] Arguments h_set : simpl never.

(** Views of a cell; a location of another kind does not occur. *)
Definition h_buf (h : Heap) (l : loc) : res sierr bytes :=
  match h_get h l with Some (CBuffer b) => Ok b | _ => Panic end.
Definition h_seq (h : Heap) (l : loc) : res sierr (list item * Z * bool) :=
  match h_get h l with Some (CSeq v rc ro) => Ok (v, rc, ro) | _ => Panic end.
Definition h_map (h : Heap) (l : loc) : res sierr (smap * Z * bool) :=
  match h_get h l with Some (CMap m rc ro) => Ok (m, rc, ro) | _ => Panic end.

(** ** Integer size *)

(** [BitLen] of a [big.Int]: the bits of its magnitude. *)
Definition BitLen (n : Z) : Z := bitlen (Z.abs n).

Fixpoint pos_trailing_zeros (p : positive) : Z :=
  match p with xO q => 1 + pos_trailing_zeros q | _ => 0 end.

Definition TrailingZeroBits (n : Z) : Z :=
  match n with Z0 => 0 | Zpos p | Zneg p => pos_trailing_zeros p end.

Definition CheckIntegerSize (value : Z) : res sierr unit :=
  let sz := BitLen value in
  if bool_decide (sz < MaxBigIntegerSizeBits) then Ok tt else
  if bool_decide (MaxBigIntegerSizeBits < sz) then Err ErrTooBig else
  if bool_decide (Z.sgn value = 1)
     || negb (bool_decide (TrailingZeroBits value = MaxBigIntegerSizeBits - 1))
  then Err ErrTooBig else Ok tt.

Definition NewBigInteger (value : Z) : res sierr item :=
  match CheckIntegerSize value with Ok _ => Ok (Integer value) | _ => Panic end.

(** ** TryBool, TryBytes, TryInteger *)

Definition TryBool (i : item) : res sierr bool :=
  match i with
  | Null => Ok false
  | Bool b => Ok b
  | Integer n => Ok (negb (bool_decide (n = 0)))
  | ByteArray b =>
      if bool_decide (MaxBigIntegerSizeBits / 8 < Z.of_nat (length b)) then Err ErrTooBig
      else Ok (existsb (λ x, negb (bool_decide (x = x00))) b)
  | Buffer _ | Array _ | Struct _ | Map _ | Pointer _ _ | Interop _ => Ok true
  end.

Definition Bool_Bytes (b : bool) : bytes := if b then [x01] else [x00].

Definition TryBytes (h : Heap) (i : item) : res sierr bytes :=
  match i with
  | Bool b => Ok (Bool_Bytes b)
  | Integer n => Ok (ToBytes n)
  | ByteArray b => Ok b
  | Buffer l => h_buf h l
  | Null | Array _ | Struct _ | Map _ | Pointer _ _ | Interop _ => Err ErrInvalidConversion
  end.

(** A ByteString is never a [nil] slice. *)
Definition TryInteger (i : item) : res sierr Z :=
  match i with
  | Bool b => Ok (if b then 1 else 0)
  | Integer n => Ok n
  | ByteArray b =>
      if bool_decide (MaxBigIntegerSizeBits / 8 < Z.of_nat (length b)) then Err ErrTooBig
      else FromBytes (Some b)
  | Null | Buffer _ | Array _ | Struct _ | Map _ | Pointer _ _ | Interop _ =>
      Err ErrInvalidConversion
  end.

(** ** Convert *)

Definition convertPrimitive (h : Heap) (i : item) (typ : Z) : res sierr (item * Heap) :=
  if bool_decide (Type_ i = typ) then Ok (i, h) else
  if bool_decide (typ = IntegerT) then
    bi ← TryInteger i; n ← NewBigInteger bi; Ok (n, h)
  else if bool_decide (typ = ByteArrayT) || bool_decide (typ = BufferT) then
    b ← TryBytes h i;
    if bool_decide (typ = BufferT) then
      let '(l, h) := h_alloc h (CBuffer b) in Ok (Buffer l, h)
    else Ok (ByteArray b, h)
  else if bool_decide (typ = BooleanT) then
    b ← TryBool i; Ok (Bool b, h)
  else Err ErrInvalidConversion.

Definition Convert (h : Heap) (i : item) (typ : Z) : res sierr (item * Heap) :=
  match i with
  | Null =>
      if bool_decide (typ = AnyT) || negb (IsValid typ) then Err ErrInvalidConversion
      else Ok (Null, h)
  | Bool _ | Integer _ | ByteArray _ => convertPrimitive h i typ
  | Buffer l =>
      if bool_decide (typ = BooleanT) then Ok (Bool true, h) else
      if bool_decide (typ = BufferT) then Ok (i, h) else
      if bool_decide (typ = ByteArrayT) then b ← h_buf h l; Ok (ByteArray b, h) else
      if bool_decide (typ = IntegerT) then
        b ← h_buf h l;
        if bool_decide (MaxBigIntegerSizeBits / 8 < Z.of_nat (length b)) then Err ErrTooBig
        else z ← FromBytes (Some b); n ← NewBigInteger z; Ok (n, h)
      else Err ErrInvalidConversion
  | Array l =>
      if bool_decide (typ = ArrayT) then Ok (i, h) else
      if bool_decide (typ = StructT) then
        v ← h_seq h l;
        let '(l', h) := h_alloc h (CSeq v.1.1 0 false) in Ok (Struct l', h)
      else if bool_decide (typ = BooleanT) then Ok (Bool true, h)
      else Err ErrInvalidConversion
  | Struct l =>
      if bool_decide (typ = StructT) then Ok (i, h) else
      if bool_decide (typ = ArrayT) then
        v ← h_seq h l;
        let '(l', h) := h_alloc h (CSeq v.1.1 0 false) in Ok (Array l', h)
      else if bool_decide (typ = BooleanT) then Ok (Bool true, h)
      else Err ErrInvalidConversion
  | Map _ | Interop _ | Pointer _ _ =>
      if bool_decide (typ = Type_ i) then Ok (i, h) else
      if bool_decide (typ = BooleanT) then Ok (Bool true, h)
      else Err ErrInvalidConversion
  end.

(** ** Equality *)

(** Comparison of two Interop values: [==] or their [Equals]. *)
Class InteropEq := interop_eq : Z → Z → bool.

(** [equalsLimited] with the limit it leaves. *)
Definition equalsLimited (b : bytes) (s : item) (limit : Z) : res sierr (bool * Z) :=
  let lCurr := Z.of_nat (length b) in
  if bool_decide (limit < lCurr) || bool_decide (limit = 0) then Panic else
  match s with
  | ByteArray b' =>
      let lOther := Z.of_nat (length b') in
      if bool_decide (limit < lOther) then Panic
      else Ok (bool_decide (b = b'), limit - Z.max lCurr lOther)
  | _ => Ok (false, limit - 1)
  end.

Section equality.
Context `{IE : InteropEq}.

(** [Equals] of all items but Struct. *)
Definition Equals_flat (a b : item) : res sierr bool :=
  match a, b with
  | Null, Null => Ok true
  | Bool x, Bool y => Ok (bool_decide (x = y))
  | Integer x, Integer y => Ok (bool_decide (x = y))
  | ByteArray x, _ => fst <$> equalsLimited x b MaxByteArrayComparableSize
  | Buffer x, Buffer y => Ok (bool_decide (x = y))
  | Array x, Array y => Ok (bool_decide (x = y))
  | Map x, Map y => Ok (bool_decide (x = y))
  | Pointer p ph, Pointer q qh => Ok (bool_decide (p = q) && bool_decide (ph = qh))
  | Interop x, Interop y => Ok (interop_eq x y)
  | _, _ => Ok false
  end.

(** The loop of [equalStruct], given the comparison of nested structs;
    [maxc] is [maxComparableSize]. *)
Fixpoint equal_loop (eqs : loc → loc → Z → res sierr (bool * Z))
    (a b : list item) (maxc limit : Z) : res sierr (bool * Z) :=
  match a, b with
  | x :: a, y :: b =>
      let limit := limit - 1 in
      if bool_decide (limit = 0) then Panic else
      match x with
      | ByteArray bs =>
          r ← equalsLimited bs y maxc;
          if r.1 : bool then equal_loop eqs a b r.2 limit else Ok (false, limit)
      | _ =>
          if bool_decide (maxc = 0) then Panic else
          let maxc := maxc - 1 in
          match x, y with
          | Struct sa, Struct sb =>
              r ← eqs sa sb limit;
              if r.1 : bool then equal_loop eqs a b maxc r.2 else Ok (false, r.2)
          | _, _ =>
              r ← Equals_flat x y;
              if r : bool then equal_loop eqs a b maxc limit else Ok (false, limit)
          end
      end
  | _, _ => Ok (true, limit)
  end.

(** Every comparison of elements takes one from [limit], which bounds the
    depth: [fuel] from [limit] on never runs out ([equalStruct_fuel]). *)
Fixpoint equalStruct (fuel : nat) (h : Heap) (i s : loc) (limit : Z) : res sierr (bool * Z) :=
  match fuel with
  | O => Panic
  | S fuel =>
      if bool_decide (i = s) then Ok (true, limit) else
      a ← h_seq h i; b ← h_seq h s;
      if negb (bool_decide (length a.1.1 = length b.1.1)) then Ok (false, limit)
      else equal_loop (equalStruct fuel h) a.1.1 b.1.1 MaxByteArrayComparableSize limit
  end.

Definition Equals (h : Heap) (a b : item) : res sierr bool :=
  match a with
  | Struct i =>
      match b with
      | Struct s =>
          fst <$> equalStruct (Z.to_nat MaxComparableNumOfItems) h i s
                    (MaxComparableNumOfItems - 1)
      | _ => Ok false
      end
  | _ => Equals_flat a b
  end.
End equality.

(** ** Clone *)

Fixpoint clone_loop (cl : Heap → loc → Z → res sierr (loc * Heap * Z))
    (v : list item) (h : Heap) (limit : Z) : res sierr (list item * Heap * Z) :=
  match v with
  | [] => Ok ([], h, limit)
  | x :: t =>
      let limit := limit - 1 in
      if bool_decide (limit < 0) then Err ErrTooBig else
      match x with
      | Struct l =>
          '(l', h, limit) ← cl h l limit;
          '(t', h, limit) ← clone_loop cl t h limit;
          Ok (Struct l' :: t', h, limit)
      | _ =>
          '(t', h, limit) ← clone_loop cl t h limit;
          Ok (x :: t', h, limit)
      end
  end.

Fixpoint clone (fuel : nat) (h : Heap) (l : loc) (limit : Z) : res sierr (loc * Heap * Z) :=
  match fuel with
  | O => Panic
  | S fuel =>
      v ← h_seq h l;
      '(items, h, limit) ← clone_loop (clone fuel) v.1.1 h limit;
      let '(l', h) := h_alloc h (CSeq items 0 false) in Ok (l', h, limit)
  end.

Definition Clone (h : Heap) (l : loc) : res sierr (loc * Heap) :=
  '(l', h, _) ← clone (S (Z.to_nat MaxClonableNumOfItems)) h l (MaxClonableNumOfItems - 1);
  Ok (l', h).

(** ** Arrays and structs *)

Definition seq_update (h : Heap) (l : loc) (f : list item → res sierr (list item))
    : res sierr Heap :=
  '(v, rc, ro) ← h_seq h l;
  if ro : bool then Panic else
  v' ← f v; Ok (h_set h l (CSeq v' rc ro)).

Definition Seq_Append (h : Heap) (l : loc) (i : item) : res sierr Heap :=
  seq_update h l (λ v, Ok (v ++ [i])).

(** [Remove] panics on an index that is out of range. *)
Definition Seq_Remove (h : Heap) (l : loc) (pos : nat) : res sierr Heap :=
  seq_update h l (λ v, if bool_decide (pos < length v)%nat then Ok (delete pos v) else Panic).

Definition Seq_Clear (h : Heap) (l : loc) : res sierr Heap :=
  seq_update h l (λ _, Ok []).

(** ** Maps *)

Definition IsValidMapKey (key : item) : res sierr unit :=
  match key with
  | Bool _ | Integer _ => Ok tt
  | ByteArray b =>
      if bool_decide (MaxKeySize < Z.of_nat (length b)) then Err ErrTooBig else Ok tt
  | _ => Err ErrInvalidType
  end.

Definition hashCode (h : Heap) (i : item) : res sierr bytes :=
  match TryBytes h i with Ok b => Ok (z2b (Type_ i) :: b) | _ => Panic end.

Definition NewMap : smap := mkMap [] ∅.

Definition Map_Len (m : smap) : nat := length (m_value m).

Definition Map_Index (h : Heap) (m : smap) (key : item) : res sierr (option nat) :=
  k ← hashCode h key; Ok (m_dict m !! k).

Definition Map_Has (h : Heap) (m : smap) (key : item) : res sierr bool :=
  i ← Map_Index h m key; Ok (match i with Some _ => true | None => false end).

(** [Add] after its read-only check: the previous value and the map. *)
Definition map_add (h : Heap) (m : smap) (key value : item) : res sierr (option item * smap) :=
  k ← hashCode h key;
  match m_dict m !! k with
  | Some index =>
      match m_value m !! index with
      | Some e => Ok (Some e.2, mkMap (<[index := (e.1, value)]> (m_value m)) (m_dict m))
      | None => Panic
      end
  | None =>
      Ok (None, mkMap (m_value m ++ [(key, value)]) (<[k := length (m_value m)]> (m_dict m)))
  end.

Definition map_drop (h : Heap) (m : smap) (index : nat) : res sierr smap :=
  match m_value m !! index with
  | None => Panic
  | Some e =>
      k ← hashCode h e.1;
      Ok (mkMap (delete index (m_value m))
            ((λ idx, if bool_decide (index < idx)%nat then (idx - 1)%nat else idx)
               <$> delete k (m_dict m)))
  end.

Definition Map_Add (h : Heap) (l : loc) (key value : item) : res sierr (option item * Heap) :=
  match IsValidMapKey key with
  | Ok _ =>
      '(m, rc, ro) ← h_map h l;
      if ro : bool then Panic else
      '(prev, m) ← map_add h m key value;
      Ok (prev, h_set h l (CMap m rc ro))
  | _ => Panic
  end.

Definition Map_Drop (h : Heap) (l : loc) (index : nat) : res sierr Heap :=
  '(m, rc, ro) ← h_map h l;
  if ro : bool then Panic else
  m ← map_drop h m index; Ok (h_set h l (CMap m rc ro)).

Definition Map_Clear (h : Heap) (l : loc) : res sierr Heap :=
  '(m, rc, ro) ← h_map h l;
  if ro : bool then Panic else Ok (h_set h l (CMap NewMap rc ro)).

(** [NewMapWithValue] of a non-nil slice; a nil one gives [NewMap]. *)
Definition NewMapWithValue (h : Heap) (value : list (item * item)) : res sierr smap :=
  let fix go (i : nat) (l : list (item * item)) (d : gmap bytes nat) : res sierr (gmap bytes nat) :=
    match l with
    | [] => Ok d
    | (k, _) :: t => hk ← hashCode h k; go (S i) t (<[hk := i]> d)
    end in
  d ← go O value ∅; Ok (mkMap value d).

(** ** DeepCopy *)

(** [seen] maps the compound items already met to their copies.  [fuel] bounds
    the nesting, which the number of compound cells bounds. *)
Section deep_copy.
Context (dc : Heap → gmap loc loc → item → bool → res sierr (item * Heap * gmap loc loc)).

Fixpoint dc_seq (l' : loc) (v acc : list item) (h : Heap) (seen : gmap loc loc) (imm : bool)
    : res sierr (Heap * gmap loc loc) :=
  match v with
  | [] => Ok (h_set h l' (CSeq acc 0 true), seen)
  | x :: t =>
      '(x', h, seen) ← dc h seen x imm;
      dc_seq l' t (acc ++ [x']) h seen imm
  end.

Fixpoint dc_map (l' : loc) (v : list (item * item)) (h : Heap) (seen : gmap loc loc) (imm : bool)
    : res sierr (Heap * gmap loc loc) :=
  match v with
  | [] => '(m, rc, _) ← h_map h l'; Ok (h_set h l' (CMap m rc true), seen)
  | (k, x) :: t =>
      '(k', h, seen) ← dc h seen k false;
      '(x', h, seen) ← dc h seen x imm;
      '(_, h) ← Map_Add h l' k' x';
      dc_map l' t h seen imm
  end.
End deep_copy.

Fixpoint deepCopy (fuel : nat) (h : Heap) (seen : gmap loc loc) (i : item) (imm : bool)
    : res sierr (item * Heap * gmap loc loc) :=
  match fuel with
  | O => Panic
  | S fuel =>
      match i with
      | Array l =>
          match seen !! l with
          | Some l' => Ok (Array l', h, seen)
          | None =>
              v ← h_seq h l;
              let '(l', h) := h_alloc h (CSeq [] 0 false) in
              '(h, seen) ← dc_seq (deepCopy fuel) l' v.1.1 [] h (<[l := l']> seen) imm;
              Ok (Array l', h, seen)
          end
      | Struct l =>
          match seen !! l with
          | Some l' => Ok (Struct l', h, seen)
          | None =>
              v ← h_seq h l;
              let '(l', h) := h_alloc h (CSeq [] 0 false) in
              '(h, seen) ← dc_seq (deepCopy fuel) l' v.1.1 [] h (<[l := l']> seen) imm;
              Ok (Struct l', h, seen)
          end
      | Map l =>
          match seen !! l with
          | Some l' => Ok (Map l', h, seen)
          | None =>
              v ← h_map h l;
              let '(l', h) := h_alloc h (CMap NewMap 0 false) in
              '(h, seen) ← dc_map (deepCopy fuel) l' (m_value v.1.1) h (<[l := l']> seen) imm;
              Ok (Map l', h, seen)
          end
      | Buffer l =>
          b ← h_buf h l;
          if imm then Ok (ByteArray b, h, seen) else
          let '(l', h) := h_alloc h (CBuffer b) in Ok (Buffer l', h, seen)
      | _ => Ok (i, h, seen)
      end
  end.

Definition DeepCopy (h : Heap) (i : item) (asImmutable : bool) : res sierr (item * Heap) :=
  '(i', h, _) ← deepCopy (S (S (size (h_cells h)))) h ∅ i asImmutable; Ok (i', h).

(** ** conversion.go *)

Definition IsInt64 (z : Z) : bool := bool_decide (- 2 ^ 63 <= z < 2 ^ 63).
Definition IsUint64 (z : Z) : bool := bool_decide (0 <= z < 2 ^ 64).

Definition ToInt64 (s : item) : res sierr Z :=
  z ← TryInteger s; if IsInt64 z then Ok z else Err ErrInvalidValue.

Definition ToInt32 (s : item) : res sierr Z :=
  i ← ToInt64 s;
  if bool_decide (i < - 2 ^ 31) || bool_decide (2 ^ 31 - 1 < i) then Err ErrInvalidValue
  else Ok (i32 i).

Definition ToUint8 (s : item) : res sierr Z :=
  i ← ToInt64 s;
  if bool_decide (i < 0) || bool_decide (2 ^ 8 - 1 < i) then Err ErrInvalidValue else Ok (u8 i).

Definition ToUint16 (s : item) : res sierr Z :=
  i ← ToInt64 s;
  if bool_decide (i < 0) || bool_decide (2 ^ 16 - 1 < i) then Err ErrInvalidValue else Ok (u16 i).

Definition ToUint32 (s : item) : res sierr Z :=
  i ← ToInt64 s;
  if bool_decide (i < 0) || bool_decide (2 ^ 32 - 1 < i) then Err ErrInvalidValue else Ok (u32 i).

Definition ToUint64 (s : item) : res sierr Z :=
  z ← TryInteger s; if IsUint64 z then Ok z else Err ErrInvalidValue.

Definition ToUint160 (h : Heap) (s : item) : res sierr bytes :=
  buf ← TryBytes h s;
  if bool_decide (length buf = 20%nat) then Ok buf else Err ErrInvalidValue.

Definition ToUint256 (h : Heap) (s : item) : res sierr bytes :=
  buf ← TryBytes h s;
  if bool_decide (length buf = 32%nat) then Ok buf else Err ErrInvalidValue.

(** [utf8.Valid] of the Go library. *)
Definition in_range (lo hi : Z) (b : byte) : bool := bool_decide (lo <= b2z b <= hi).

Fixpoint utf8_Valid (s : bytes) : bool :=
  match s with
  | [] => true
  | a :: t =>
      if in_range 0 127 a then utf8_Valid t else
      match t with
      | b :: t2 =>
          if in_range 194 223 a then in_range 128 191 b && utf8_Valid t2 else
          match t2 with
          | c :: t3 =>
              if in_range 224 239 a then
                in_range (if bool_decide (b2z a = 224) then 160 else 128)
                         (if bool_decide (b2z a = 237) then 159 else 191) b
                && in_range 128 191 c && utf8_Valid t3
              else
              match t3 with
              | d :: t4 =>
                  if in_range 240 244 a then
                    in_range (if bool_decide (b2z a = 240) then 144 else 128)
                             (if bool_decide (b2z a = 244) then 143 else 191) b
                    && in_range 128 191 c && in_range 128 191 d && utf8_Valid t4
                  else false
              | [] => false
              end
          | [] => false
          end
      | [] => false
      end
  end.

Definition ToString (h : Heap) (s : item) : res sierr bytes :=
  bs ← TryBytes h s; if utf8_Valid bs then Ok bs else Err ErrInvalidValue.

(** * Lemmas *)

(** ** Integers *)

Lemma pos_trailing_zeros_spec p :
  0 <= pos_trailing_zeros p ∧ ∃ o, 0 < o ∧ Z.odd o = true ∧ Zpos p = o * 2 ^ pos_trailing_zeros p.
Proof.
  induction p as [p _|p [Hz (o & Ho & Hodd & He)]|]; cbn [pos_trailing_zeros].
  - split; [done|]. exists (Zpos p~1). by rewrite Z.mul_1_r.
  - split; [lia|]. exists o. split; [done|]. split; [done|].
    rewrite Z.pow_add_r by lia. change (2 ^ 1) with 2. lia.
  - split; [done|]. by exists 1.
Qed.

Lemma TrailingZeroBits_neg_min n :
  n < 0 → BitLen n = MaxBigIntegerSizeBits →
  TrailingZeroBits n = MaxBigIntegerSizeBits - 1 ↔ n = - 2 ^ 255.
Proof.
  intros Hn Hb. split; [|by intros ->].
  destruct n as [|p|p]; [lia..|]. cbn [TrailingZeroBits].
  destruct (pos_trailing_zeros_spec p) as (_ & o & Ho & Hodd & He). intros Ht.
  rewrite Ht in He. change (MaxBigIntegerSizeBits - 1) with 255 in He.
  unfold BitLen in Hb. change (Z.abs (Zneg p)) with (Zpos p) in Hb.
  assert (Zpos p < 2 ^ 256) as Hlt.
  { apply (bitlen_le _ 256); [lia..|]. rewrite Hb. done. }
  change (2 ^ 256) with (2 * 2 ^ 255) in Hlt. assert (0 < 2 ^ 255) by done.
  set (P := 2 ^ 255) in *. clearbody P.
  assert (o = 1) as -> by nia. lia.
Qed.

Lemma CheckIntegerSize_ok n : CheckIntegerSize n = Ok tt ↔ - 2 ^ 255 <= n < 2 ^ 255.
Proof.
  unfold CheckIntegerSize.
  pose proof (bitlen_le (Z.abs n) 255 ltac:(lia) ltac:(lia)) as H255.
  pose proof (bitlen_le (Z.abs n) 256 ltac:(lia) ltac:(lia)) as H256.
  fold (BitLen n) in H255, H256. change MaxBigIntegerSizeBits with 256.
  case_bool_decide as H1.
  { split; [intros _|done]. assert (Z.abs n < 2 ^ 255) by (apply H255; lia). lia. }
  assert (¬ Z.abs n < 2 ^ 255) as Hbig by (rewrite <- H255; lia).
  case_bool_decide as H2; [split; [done|]; intros ?|].
  { assert (Z.abs n < 2 ^ 256) as Hlt; [|apply H256 in Hlt; lia].
    change (2 ^ 256) with (2 * 2 ^ 255). lia. }
  case_bool_decide as H3; cbn [orb]; [split; [done|]; lia|].
  assert (n < 0) as Hneg by lia.
  pose proof (TrailingZeroBits_neg_min n Hneg ltac:(change MaxBigIntegerSizeBits with 256; lia)) as Htz.
  change (MaxBigIntegerSizeBits - 1) with (256 - 1) in Htz.
  case_bool_decide as H4; cbn [negb].
  - split; [intros _|done]. apply Htz in H4. subst n. split; [done|]. reflexivity.
  - split; [done|]. intros ?. exfalso. apply H4, Htz. lia.
Qed.

Lemma NewBigInteger_ok n i : NewBigInteger n = Ok i → i = Integer n ∧ - 2 ^ 255 <= n < 2 ^ 255.
Proof.
  unfold NewBigInteger. destruct (CheckIntegerSize n) as [[]| |] eqn:E; [|done..].
  intros [= <-]. split; [done|]. by apply CheckIntegerSize_ok.
Qed.

Lemma NewBigInteger_range n : - 2 ^ 255 <= n < 2 ^ 255 → NewBigInteger n = Ok (Integer n).
Proof. unfold NewBigInteger. by intros ->%CheckIntegerSize_ok. Qed.

(** A byte string of at most 32 bytes holds a 256-bit integer. *)
Lemma FromBytes_range b z :
  (length b <= 32)%nat → FromBytes (E := sierr) (Some b) = Ok z → - 2 ^ 255 <= z < 2 ^ 255.
Proof.
  intros Hl H. pose proof (FromBytes_nonnil_spec b) as Hs. cbn in H. injection H as <-.
  rewrite Hs. pose proof (signed_val_fits b) as Hf. unfold fits in Hf.
  destruct (length b) as [|k] eqn:E.
  { destruct b; [|done]. cbn. lia. }
  assert (2 ^ (8 * Z.of_nat (S k) - 1) <= 2 ^ 255) by (apply Z.pow_le_mono_r; lia). lia.
Qed.

Lemma TryInteger_range i z :
  match i with Integer n => - 2 ^ 255 <= n < 2 ^ 255 | _ => True end →
  TryInteger i = Ok z → - 2 ^ 255 <= z < 2 ^ 255.
Proof.
  destruct i as [|[]|n|b| | | | | |]; cbn; intros Hw; try done.
  - by intros [= <-].
  - by intros [= <-].
  - by intros [= <-].
  - case_bool_decide as Hl; [done|]. change (MaxBigIntegerSizeBits / 8) with 32 in Hl.
    apply (FromBytes_range b). lia.
Qed.

(** ** Map keys and the map representation *)

Definition khash (key : item) : bytes :=
  z2b (Type_ key) :: match key with
                     | Bool b => Bool_Bytes b
                     | Integer n => ToBytes n
                     | ByteArray b => b
                     | _ => []
                     end.

Definition key_ok (key : item) : Prop := IsValidMapKey key = Ok tt.

Lemma hashCode_valid h key : key_ok key → hashCode h key = Ok (khash key).
Proof. unfold key_ok. by destruct key. Qed.

Lemma ToBytes_inj a b : ToBytes a = ToBytes b → a = b.
Proof. intros He. by rewrite <- (ToBytes_signed a), He, ToBytes_signed. Qed.

Lemma khash_inj a b : key_ok a → key_ok b → khash a = khash b → a = b.
Proof.
  unfold key_ok, khash.
  destruct a as [|x|x|x| | | | | |], b as [|y|y|y| | | | | |]; intros Ha Hb He;
    try done; try (injection He as He); try done; f_equal.
  - by destruct x, y.
  - by apply ToBytes_inj.
  - done.
Qed.

(** The index agrees with the elements. *)
Definition map_wf (m : smap) : Prop :=
  Forall (λ e, key_ok e.1) (m_value m) ∧
  ∀ k i, m_dict m !! k = Some i ↔ ∃ e, m_value m !! i = Some e ∧ khash e.1 = k.

Lemma NewMap_wf : map_wf NewMap.
Proof.
  split; [constructor|]. intros k i. cbn. rewrite lookup_empty.
  split; [done|]. by intros (e & ? & _).
Qed.

(** Maps as association lists in insertion order. *)
Definition alist_index (l : list (item * item)) (k : item) : option nat :=
  fst <$> list_find (λ e, e.1 = k) l.
Definition alist_get (l : list (item * item)) (k : item) : option item :=
  i ← alist_index l k; snd <$> l !! i.
Definition alist_set (l : list (item * item)) (k v : item) : list (item * item) :=
  match alist_index l k with
  | Some i => <[i := (k, v)]> l
  | None => l ++ [(k, v)]
  end.

Lemma map_wf_keys_inj m i j e f :
  map_wf m → m_value m !! i = Some e → m_value m !! j = Some f → e.1 = f.1 → i = j.
Proof.
  intros [_ Hd] Hi Hj He.
  assert (m_dict m !! khash e.1 = Some i) by (apply Hd; eauto).
  assert (m_dict m !! khash e.1 = Some j) by (apply Hd; exists f; by rewrite He).
  congruence.
Qed.

Lemma map_wf_index m k :
  map_wf m → key_ok k → m_dict m !! khash k = alist_index (m_value m) k.
Proof.
  intros Hwf Hk. pose proof Hwf as [Hv Hd]. unfold alist_index.
  destruct (list_find _ (m_value m)) as [[i e]|] eqn:E; cbn.
  - apply list_find_Some in E as (Hi & <- & _). apply Hd. eauto.
  - destruct (m_dict m !! khash k) as [i|] eqn:E2; [|done].
    apply Hd in E2 as (e & He & Hh). pose proof (Forall_lookup_1 _ _ _ _ Hv He) as Hke.
    apply khash_inj in Hh; [|done..].
    rewrite list_find_None in E. pose proof (Forall_lookup_1 _ _ _ _ E He). done.
Qed.

Lemma Map_Index_spec h m k :
  map_wf m → key_ok k → Map_Index h m k = Ok (alist_index (m_value m) k).
Proof.
  intros Hwf Hk. unfold Map_Index. rewrite hashCode_valid by done.
  by rewrite res_bind_ok, map_wf_index.
Qed.

Lemma alist_index_Some m k i :
  map_wf m → alist_index (m_value m) k = Some i ↔ ∃ e, m_value m !! i = Some e ∧ e.1 = k.
Proof.
  intros Hwf. unfold alist_index. split.
  - destruct (list_find _ _) as [[j e]|] eqn:E; cbn; [|done]. intros [= ->].
    apply list_find_Some in E as (Hi & He & _). eauto.
  - intros (e & Hi & <-). destruct (list_find _ _) as [[j f]|] eqn:E; cbn.
    + apply list_find_Some in E as (Hj & He & _). f_equal. by eapply map_wf_keys_inj.
    + rewrite list_find_None in E. by pose proof (Forall_lookup_1 _ _ _ _ E Hi).
Qed.

Lemma map_add_spec h m k v :
  map_wf m → key_ok k →
  ∃ m', map_add h m k v = Ok (alist_get (m_value m) k, m') ∧ map_wf m'
    ∧ m_value m' = alist_set (m_value m) k v.
Proof.
  intros Hwf Hk. pose proof Hwf as [Hv Hd]. unfold map_add, alist_get, alist_set.
  rewrite hashCode_valid, res_bind_ok, map_wf_index by done.
  destruct (alist_index (m_value m) k) as [i|] eqn:Ei; cbn.
  - apply (alist_index_Some m k i Hwf) in Ei as (e & Hi & He). rewrite Hi. cbn.
    eexists. split; [done|]. cbn. rewrite <- He. split; [|done]. split; cbn.
    + apply Forall_insert; [done|]. by pose proof (Forall_lookup_1 _ _ _ _ Hv Hi).
    + intros k' j. rewrite Hd. split.
      * intros (f & Hj & Hf). destruct (decide (i = j)) as [<-|Hne].
        -- exists (e.1, v). rewrite list_lookup_insert_eq by (by eapply lookup_lt_Some).
           split; [done|]. cbn. congruence.
        -- exists f. by rewrite list_lookup_insert_ne.
      * intros (f & Hj & Hf). destruct (decide (i = j)) as [<-|Hne].
        -- rewrite list_lookup_insert_eq in Hj by (by eapply lookup_lt_Some).
           simplify_eq. eauto.
        -- rewrite list_lookup_insert_ne in Hj by done. eauto.
  - eexists. split; [done|]. split; [|done]. split; cbn.
    + apply Forall_app. split; [done|]. by repeat constructor.
    + intros k' j. rewrite lookup_insert_Some. split.
      * intros [[<- <-]|[Hne Hj]].
        -- exists (k, v). split; [|done]. by rewrite list_lookup_middle.
        -- apply Hd in Hj as (e & Hj & He). exists e. split; [|done].
           by apply lookup_app_l_Some.
      * intros (e & Hj & He). apply lookup_app_Some in Hj as [Hj|[Hlen Hj]].
        -- right. split; [|apply Hd; eauto]. intros <-.
           assert (m_dict m !! khash k = Some j) as E by (apply Hd; eauto).
           rewrite map_wf_index in E by done. congruence.
        -- apply list_lookup_singleton_Some in Hj as [Hj <-]. left. cbn in He.
           split; [done|]. lia.
Qed.

Lemma map_drop_spec h m k i :
  map_wf m → alist_index (m_value m) k = Some i →
  ∃ m', map_drop h m i = Ok m' ∧ map_wf m' ∧ m_value m' = delete i (m_value m).
Proof.
  intros Hwf Hi. pose proof Hwf as [Hv Hd].
  apply (alist_index_Some m k i Hwf) in Hi as (e & Hi & <-).
  pose proof (Forall_lookup_1 _ _ _ _ Hv Hi) as Hk. cbn in Hk.
  unfold map_drop. rewrite Hi, hashCode_valid, res_bind_ok by done.
  eexists. split; [done|]. split; [|done]. split; cbn.
  - by apply Forall_delete.
  - intros k' j. rewrite lookup_fmap, fmap_Some. split.
    + intros (idx & Hidx & ->). apply lookup_delete_Some in Hidx as [Hne Hidx].
      apply Hd in Hidx as (f & Hf & Hh). exists f. split; [|done].
      assert (idx ≠ i) by (intros ->; congruence). case_bool_decide.
      * rewrite list_lookup_delete_ge by lia. by replace (S (idx - 1)) with idx by lia.
      * by rewrite list_lookup_delete_lt by lia.
    + intros (f & Hf & Hh). destruct (decide (j < i)%nat) as [Hlt|Hge].
      * rewrite list_lookup_delete_lt in Hf by done. exists j.
        rewrite bool_decide_eq_false_2 by lia. split; [|done].
        apply lookup_delete_Some. split; [|apply Hd; eauto].
        intros Hkk. assert (i = j); [|lia]. eapply (map_wf_keys_inj m); try done.
        apply khash_inj; [done| |congruence]. by apply (Forall_lookup_1 _ _ _ _ Hv Hf).
      * rewrite list_lookup_delete_ge in Hf by lia. exists (S j).
        rewrite bool_decide_eq_true_2 by lia. split; [|lia].
        apply lookup_delete_Some. split; [|apply Hd; eauto].
        intros Hkk. assert (i = S j); [|lia]. eapply (map_wf_keys_inj m); try done.
        apply khash_inj; [done| |congruence]. by apply (Forall_lookup_1 _ _ _ _ Hv Hf).
Qed.

(** ** Equality *)

Section equality_correct.
Context `{IE : InteropEq}.

Lemma equalsLimited_Ok b s limit r :
  equalsLimited b s limit = Ok r → (r.1 = true ↔ s = ByteArray b).
Proof.
  unfold equalsLimited. destruct (_ || _); [done|].
  destruct s; try (intros [= <-]; cbn; split; [done|congruence]).
  case_bool_decide; [done|]. intros [= <-]. cbn.
  rewrite bool_decide_eq_true. split; congruence.
Qed.

Definition eqs_bounded (eqs : loc → loc → Z → res sierr (bool * Z)) (lim : Z) : Prop :=
  ∀ x y l r, 1 <= l < lim → eqs x y l = Ok r → 1 <= r.2 <= l.

Lemma equal_loop_bounds eqs a b maxc limit r :
  eqs_bounded eqs limit → 1 <= limit →
  equal_loop eqs a b maxc limit = Ok r → 1 <= r.2 <= limit.
Proof.
  revert b maxc limit. induction a as [|x a IH]; intros [|y b] maxc limit He Hl;
    try (intros [= <-]; cbn; lia).
  cbn. case_bool_decide as H1; [done|].
  assert (∀ l', 1 <= l' <= limit - 1 → eqs_bounded eqs l') as He'.
  { intros l' Hl' u w l r' Hb. apply He. lia. }
  assert (∀ c l', 1 <= l' <= limit - 1 → equal_loop eqs a b c l' = Ok r →
                  1 <= r.2 <= limit) as IH'.
  { intros c l' Hl' Hr. specialize (IH b c l' (He' l' Hl') ltac:(lia) Hr). lia. }
  destruct x as [| | |bs| | |sa| | |].
  4:{ destruct (equalsLimited bs y maxc) as [[[] m]| |]; cbn; [|intros [= <-]; cbn; lia|done..].
      apply IH'. lia. }
  6:{ destruct (bool_decide (maxc = 0)); [done|].
      destruct y as [| | | | | |sb| | |]; cbn; try (intros [= <-]; cbn; lia).
      destruct (eqs sa sb (limit - 1)) as [[[] m]| |] eqn:E; cbn; [| |done..];
        apply He in E; try lia; cbn in E.
      - apply IH'. lia.
      - intros [= <-]. cbn. lia. }
  all: destruct (bool_decide (maxc = 0)); [done|].
  all: destruct (Equals_flat _ y) as [[]| |]; cbn; [|intros [= <-]; cbn; lia|done..].
  all: apply IH'; lia.
Qed.

Lemma equalStruct_bounds fuel h i s limit r :
  1 <= limit → equalStruct fuel h i s limit = Ok r → 1 <= r.2 <= limit.
Proof.
  revert i s limit r. induction fuel as [|n IH]; intros i s limit r Hl; [done|]. cbn.
  case_bool_decide; [intros [= <-]; cbn; lia|].
  destruct (h_seq h i) as [a| |]; cbn; [|done..].
  destruct (h_seq h s) as [b| |]; cbn; [|done..].
  case_bool_decide; cbn; [|intros [= <-]; cbn; lia].
  apply equal_loop_bounds; [|done]. intros x y l r' Hb. apply IH. lia.
Qed.

Lemma equal_loop_ext e1 e2 a b maxc limit :
  1 <= limit → eqs_bounded e1 limit →
  (∀ x y l, 1 <= l < limit → e1 x y l = e2 x y l) →
  equal_loop e1 a b maxc limit = equal_loop e2 a b maxc limit.
Proof.
  revert b maxc limit. induction a as [|x a IH]; intros [|y b] maxc limit Hl Hb He; try done.
  cbn. case_bool_decide as H1; [done|].
  assert (∀ c l', 1 <= l' <= limit - 1 → equal_loop e1 a b c l' = equal_loop e2 a b c l') as IH'.
  { intros c l' Hl'. apply IH; [lia| |].
    - intros u w l r' Hb'. apply Hb. lia.
    - intros u w l Hb'. apply He. lia. }
  destruct x as [| | |bs| | |sa| | |].
  4:{ destruct (equalsLimited bs y maxc) as [[[] m]| |]; cbn; try done. apply IH'. lia. }
  6:{ destruct (bool_decide (maxc = 0)); [done|].
      destruct y as [| | | | | |sb| | |]; try done.
      rewrite <- He by lia.
      destruct (e1 sa sb (limit - 1)) as [[[] m]| |] eqn:E; cbn; try done.
      apply Hb in E; [|lia]. cbn in E. apply IH'. lia. }
  all: destruct (bool_decide (maxc = 0)); [done|].
  all: destruct (Equals_flat _ y) as [[]| |]; cbn; try done.
  all: apply IH'; lia.
Qed.

(** The depth of a comparison is bounded by its limit. *)
Lemma equalStruct_fuel n m h i s limit :
  1 <= limit <= Z.of_nat n → limit <= Z.of_nat m →
  equalStruct n h i s limit = equalStruct m h i s limit.
Proof.
  revert m i s limit. induction n as [|n IH]; intros [|m] i s limit Hn Hm; try lia. cbn.
  case_bool_decide; [done|].
  destruct (h_seq h i) as [a| |]; cbn; [|done..].
  destruct (h_seq h s) as [b| |]; cbn; [|done..].
  case_bool_decide; cbn; [|done].
  apply equal_loop_ext; [lia| |].
  - intros x y l r Hb. apply equalStruct_bounds. lia.
  - intros x y l Hb. apply IH; lia.
Qed.

(** Structural equality: structs by their fields, other compound items by
    identity. *)
Inductive same (h : Heap) : item → item → Prop :=
  | same_bytes b : same h (ByteArray b) (ByteArray b)
  | same_flat a b :
      match a with ByteArray _ => False | _ => True end →
      Equals_flat a b = Ok true → same h a b
  | same_struct_id l : same h (Struct l) (Struct l)
  | same_struct i s a b :
      h_seq h i = Ok a → h_seq h s = Ok b → Forall2 (same h) a.1.1 b.1.1 →
      same h (Struct i) (Struct s).

Lemma same_flat_iff h a b r :
  match a with ByteArray _ | Struct _ => False | _ => True end →
  Equals_flat a b = Ok r → (r = true ↔ same h a b).
Proof.
  intros Ha Hr. split.
  - intros ->. apply same_flat; [|done]. by destruct a.
  - inversion 1; subst; try done; congruence.
Qed.

Lemma same_struct_other h l y :
  match y with Struct _ => False | _ => True end → ¬ same h (Struct l) y.
Proof. destruct y; try done; intros _; inversion 1; subst; done. Qed.

Lemma equal_loop_same h eqs a b maxc limit r :
  (∀ x y l r, eqs x y l = Ok r → (r.1 = true ↔ same h (Struct x) (Struct y))) →
  length a = length b →
  equal_loop eqs a b maxc limit = Ok r → (r.1 = true ↔ Forall2 (same h) a b).
Proof.
  intros He. revert b maxc limit. induction a as [|x a IH]; intros [|y b] maxc limit Hl; try done.
  { intros [= <-]. split; [constructor|done]. }
  injection Hl as Hl. cbn. case_bool_decide as H1; [done|]. rewrite Forall2_cons.
  destruct x as [| | |bs| | |sa| | |].
  4:{ destruct (equalsLimited bs y maxc) as [[t m]| |] eqn:E; cbn; [|done..].
      apply equalsLimited_Ok in E. cbn in E.
      assert (same h (ByteArray bs) y ↔ t = true) as ->.
      { rewrite E. split; [|intros ->; constructor]. by inversion 1; subst. }
      destruct t; [|intros [= <-]; naive_solver].
      intros Hr%IH; [|done]. rewrite Hr. naive_solver. }
  6:{ destruct (bool_decide (maxc = 0)); [done|].
      destruct y as [| | | | | |sb| | |];
        try (intros [= <-]; cbn; split; [done|]; intros [Hs _]; by apply same_struct_other in Hs).
      destruct (eqs sa sb (limit - 1)) as [[t m]| |] eqn:E; cbn; [|done..].
      apply He in E. cbn in E. rewrite <- E.
      destruct t; [|intros [= <-]; naive_solver].
      intros Hr%IH; [|done]. rewrite Hr. naive_solver. }
  all: destruct (bool_decide (maxc = 0)); [done|].
  all: destruct (Equals_flat _ y) as [t| |] eqn:E; cbn; [|done..].
  all: apply (same_flat_iff h) in E; [|done]; rewrite <- E.
  all: destruct t; [|intros [= <-]; naive_solver].
  all: intros Hr%IH; [|done]; rewrite Hr; naive_solver.
Qed.

Lemma equalStruct_same fuel h i s limit r :
  equalStruct fuel h i s limit = Ok r → (r.1 = true ↔ same h (Struct i) (Struct s)).
Proof.
  revert i s limit r. induction fuel as [|n IH]; intros i s limit r; [done|]. cbn.
  case_bool_decide as His; [intros [= <-]; subst; split; [intros _; apply same_struct_id|done]|].
  destruct (h_seq h i) as [a| |] eqn:Ea; cbn; [|done..].
  destruct (h_seq h s) as [b| |] eqn:Eb; cbn; [|done..].
  assert (same h (Struct i) (Struct s) ↔ Forall2 (same h) a.1.1 b.1.1) as ->.
  { split; [|by apply same_struct]. inversion 1; subst; try done. congruence. }
  case_bool_decide as Hl; cbn.
  - intros Hr. by eapply equal_loop_same.
  - intros [= <-]. cbn. split; [done|]. intros Hf%Forall2_length. done.
Qed.
End equality_correct.

(** ** Well-formed heaps *)

Inductive ckind := KBuffer | KSeq | KMap.

Definition kind (c : cell) : ckind :=
  match c with CBuffer _ => KBuffer | CSeq _ _ _ => KSeq | CMap _ _ _ => KMap end.

Definition elems (m : smap) : list item := m_value m ≫= λ e, [e.1; e.2].

Definition cell_items (c : cell) : list item :=
  match c with CBuffer _ => [] | CSeq v _ _ => v | CMap m _ _ => elems m end.

Definition loc_ok (h : Heap) (l : loc) (k : ckind) : Prop := kind <$> h_get h l = Some k.

(** An item of the machine: integers fit 256 bits, locations are allocated and
    of the right kind. *)
Definition item_ok (h : Heap) (i : item) : Prop :=
  match i with
  | Integer n => - 2 ^ 255 <= n < 2 ^ 255
  | Buffer l => loc_ok h l KBuffer
  | Array l | Struct l => loc_ok h l KSeq
  | Map l => loc_ok h l KMap
  | _ => True
  end.

Definition cell_ok (h : Heap) (c : cell) : Prop :=
  Forall (item_ok h) (cell_items c) ∧ match c with CMap m _ _ => map_wf m | _ => True end.

Definition heap_wf (h : Heap) : Prop :=
  ∀ l c, h_get h l = Some c → (l < h_next h)%positive ∧ cell_ok h c.

(** [h'] has at least the locations of [h], with their kinds. *)
Definition h_le (h h' : Heap) : Prop := ∀ l k, loc_ok h l k → loc_ok h' l k.

#[export] Instance h_le_preorder : PreOrder h_le.
Proof. split; [by intros h l|]. intros a b c Hab Hbc l k Hl. by apply Hbc, Hab. Qed.

Lemma item_ok_le h h' i : h_le h h' → item_ok h i → item_ok h' i.
Proof. intros Hle. destruct i; cbn; auto. Qed.

Lemma items_ok_le h h' l : h_le h h' → Forall (item_ok h) l → Forall (item_ok h') l.
Proof. intros Hle Hl. eapply Forall_impl; [exact Hl|]. intros i. by apply item_ok_le. Qed.

Lemma cell_ok_le h h' c : h_le h h' → cell_ok h c → cell_ok h' c.
Proof. intros Hle [Hi Hm]. split; [by eapply items_ok_le|done]. Qed.

Lemma h_get_set h l c l' : h_get (h_set h l c) l' = if decide (l = l') then Some c else h_get h l'.
Proof. unfold h_get, h_set. cbn. by rewrite lookup_insert. Qed.

Lemma h_le_set h l c c' : h_get h l = Some c → kind c' = kind c → h_le h (h_set h l c').
Proof.
  intros Hl Hk l' k. unfold loc_ok. rewrite h_get_set. case_decide as Hll; [|done].
  subst l'. rewrite Hl. cbn. by rewrite Hk.
Qed.

Lemma heap_wf_set h l c c' :
  heap_wf h → h_get h l = Some c → kind c' = kind c → cell_ok h c' → heap_wf (h_set h l c').
Proof.
  intros Hwf Hl Hk Hc l' c''. rewrite h_get_set. pose proof (h_le_set h l c c' Hl Hk) as Hle.
  case_decide as Hll.
  - intros [= <-]. subst l'. split; [by apply (Hwf l c)|by eapply cell_ok_le].
  - intros Hl'. destruct (Hwf l' c'' Hl'). split; [done|by eapply cell_ok_le].
Qed.

Lemma h_next_fresh h : heap_wf h → h_get h (h_next h) = None.
Proof.
  intros Hwf. destruct (h_get h (h_next h)) as [c|] eqn:E; [|done].
  apply Hwf in E as [E _]. lia.
Qed.

Lemma h_get_alloc h c l h' :
  h_alloc h c = (l, h') → l = h_next h ∧
  ∀ l', h_get h' l' = if decide (l = l') then Some c else h_get h l'.
Proof.
  unfold h_alloc. intros [= <- <-]. split; [done|]. intros l'. unfold h_get. cbn.
  by rewrite lookup_insert.
Qed.

Lemma h_alloc_spec h c l h' :
  heap_wf h → cell_ok h c → h_alloc h c = (l, h') →
  heap_wf h' ∧ h_le h h' ∧ h_get h l = None ∧ h_get h' l = Some c
  ∧ (∀ l' c', h_get h l' = Some c' → h_get h' l' = Some c').
Proof.
  intros Hwf Hc Ha. destruct (h_get_alloc h c l h' Ha) as [-> Hg].
  pose proof (h_next_fresh h Hwf) as Hf.
  assert (∀ l' c', h_get h l' = Some c' → h_get h' l' = Some c') as Hmono.
  { intros l' c' Hl'. rewrite Hg. case_decide; [congruence|done]. }
  assert (h_le h h') as Hle.
  { intros l' k Hl'. unfold loc_ok in *. destruct (h_get h l') as [c'|] eqn:E; [|done].
    by rewrite (Hmono l' c' E). }
  split_and!; [|done|done| |done].
  - intros l' c'. rewrite Hg. injection Ha as Hh. rewrite <- Hh. cbn. case_decide as Hll.
    + intros [= <-]. subst l'. split; [lia|].
      eapply cell_ok_le; [|done]. by rewrite Hh.
    + intros Hl'. destruct (Hwf l' c' Hl'). split; [lia|].
      eapply cell_ok_le; [|done]. by rewrite Hh.
  - rewrite Hg. by case_decide.
Qed.

Lemma h_seq_Ok h l v rc ro : h_seq h l = Ok (v, rc, ro) ↔ h_get h l = Some (CSeq v rc ro).
Proof. unfold h_seq. destruct (h_get h l) as [[]|]; split; congruence. Qed.
Lemma h_map_Ok h l m rc ro : h_map h l = Ok (m, rc, ro) ↔ h_get h l = Some (CMap m rc ro).
Proof. unfold h_map. destruct (h_get h l) as [[]|]; split; congruence. Qed.
Lemma h_buf_Ok h l b : h_buf h l = Ok b ↔ h_get h l = Some (CBuffer b).
Proof. unfold h_buf. destruct (h_get h l) as [[]|]; split; congruence. Qed.

Lemma loc_ok_seq h l : loc_ok h l KSeq → ∃ v rc ro, h_seq h l = Ok (v, rc, ro).
Proof. unfold loc_ok, h_seq. destruct (h_get h l) as [[]|]; cbn; try done. eauto. Qed.
Lemma loc_ok_map h l : loc_ok h l KMap → ∃ m rc ro, h_map h l = Ok (m, rc, ro).
Proof. unfold loc_ok, h_map. destruct (h_get h l) as [[]|]; cbn; try done. eauto. Qed.
Lemma loc_ok_buf h l : loc_ok h l KBuffer → ∃ b, h_buf h l = Ok b.
Proof. unfold loc_ok, h_buf. destruct (h_get h l) as [[]|]; cbn; try done. eauto. Qed.

(** ** Clone *)

(** [i'] copies [i]: structs are copied into new cells, everything else is
    shared. *)
Inductive clone_of (h h' : Heap) : item → item → Prop :=
  | clone_other i : match i with Struct _ => False | _ => True end → clone_of h h' i i
  | clone_struct l l' v rc ro v' :
      h_get h l = Some (CSeq v rc ro) → h_get h l' = None →
      h_get h' l' = Some (CSeq v' 0 false) →
      Forall2 (clone_of h h') v v' → clone_of h h' (Struct l) (Struct l').

Definition h_extends (h h' : Heap) : Prop :=
  ∀ l c, h_get h l = Some c → h_get h' l = Some c.

#[export] Instance h_extends_preorder : PreOrder h_extends.
Proof. split; [by intros h l|]. intros a b c Hab Hbc l x Hl. by apply Hbc, Hab. Qed.

Lemma h_extends_le h h' : h_extends h h' → h_le h h'.
Proof.
  intros He l k. unfold loc_ok. destruct (h_get h l) as [c|] eqn:E; [|done].
  by rewrite (He l c E).
Qed.

Fixpoint clone_of_mono h h1 h2 i i' (Hc : clone_of h h1 i i') {struct Hc} :
  h_extends h1 h2 → clone_of h h2 i i'.
Proof.
  intros He. destruct Hc as [i Hi|l l' v rc ro v' Hl Hl' Hh Hf].
  - by constructor.
  - eapply clone_struct; [done..|by apply He|].
    clear Hl Hh. induction Hf as [|x y v v' Hxy Hf IH]; constructor; [|done].
    by eapply clone_of_mono.
Qed.

Lemma clone_of_ok h h' i i' :
  h_le h h' → item_ok h i → clone_of h h' i i' → item_ok h' i'.
Proof.
  intros Hle Hi Hc. destruct Hc as [i Ho|l l' v rc ro v' Hl Hl' Hh Hf]; [by eapply item_ok_le|].
  cbn. unfold loc_ok. by rewrite Hh.
Qed.

(** What cloning one struct guarantees, for any number of elements left. *)
Definition clone_post (h0 h : Heap) (l : loc) (limit : Z) (r : res sierr (loc * Heap * Z)) : Prop :=
  match r with
  | Ok (l', h', limit') =>
      heap_wf h' ∧ h_extends h h' ∧ clone_of h0 h' (Struct l) (Struct l') ∧ limit' <= limit
  | Err e => e = ErrTooBig
  | Panic => False
  end.

Lemma clone_loop_ok cl h0 v h limit n :
  (∀ h l limit, heap_wf h → h_extends h0 h → loc_ok h0 l KSeq → 0 <= limit < n →
     clone_post h0 h l limit (cl h l limit)) →
  heap_wf h → h_extends h0 h → Forall (item_ok h0) v → limit <= n →
  match clone_loop cl v h limit with
  | Ok (v', h', limit') =>
      heap_wf h' ∧ h_extends h h' ∧ Forall2 (clone_of h0 h') v v' ∧ limit' <= limit
  | Err e => e = ErrTooBig
  | Panic => False
  end.
Proof.
  intros Hcl. revert h limit. induction v as [|x v IH]; intros h limit Hwf He Hv Hn; cbn.
  { split_and!; [done|done|constructor|lia]. }
  apply Forall_cons in Hv as [Hx Hv]. case_bool_decide as Hlim; [done|].
  assert (∀ x' h1 lim1, heap_wf h1 → h_extends h h1 → clone_of h0 h1 x x' → lim1 <= limit - 1 →
    match clone_loop cl v h1 lim1 ≫= (λ '(t', h, limit), Ok (x' :: t', h, limit)) with
    | Ok (v', h', limit') =>
        heap_wf h' ∧ h_extends h h' ∧ Forall2 (clone_of h0 h') (x :: v) v' ∧ limit' <= limit
    | Err e => e = ErrTooBig
    | Panic => False
    end) as Hrest.
  { intros x' h1 lim1 Hw1 He1 Hc1 Hl1.
    specialize (IH h1 lim1 Hw1 ltac:(by etrans) Hv ltac:(lia)).
    destruct (clone_loop cl v h1 lim1) as [[[v' h'] lim']| |]; cbn; [|done..].
    destruct IH as (Hw & Hex & Hf & Hl). split_and!; [done|by etrans| |lia].
    constructor; [|done]. by eapply clone_of_mono. }
  destruct x as [| | | | | |l| | |]; try (apply Hrest; [done|done|by constructor|lia]).
  specialize (Hcl h l (limit - 1) Hwf He Hx ltac:(lia)). unfold clone_post in Hcl.
  destruct (cl h l (limit - 1)) as [[[l' h'] lim']| |]; cbn; [|done..].
  destruct Hcl as (Hw & Hex & Hc & Hl). by apply Hrest.
Qed.

Lemma clone_ok fuel h0 h l limit :
  heap_wf h0 → heap_wf h → h_extends h0 h → loc_ok h0 l KSeq → 0 <= limit < Z.of_nat fuel →
  clone_post h0 h l limit (clone fuel h l limit).
Proof.
  intros Hwf0. revert h l limit. induction fuel as [|n IH]; intros h l limit Hwf He Hl Hn; [lia|].
  destruct (loc_ok_seq h0 l Hl) as (v & rc & ro & Hv). apply h_seq_Ok in Hv.
  cbn. rewrite (proj2 (h_seq_Ok h l v rc ro) (He l _ Hv)). cbn.
  pose proof (Hwf0 l _ Hv) as [_ [Hitems _]]. cbn in Hitems.
  pose proof (clone_loop_ok (clone n) h0 v h limit (Z.of_nat n) IH Hwf He Hitems ltac:(lia)) as Hloop.
  destruct (clone_loop (clone n) v h limit) as [[[v' h1] lim1]| |]; cbn; [|done..].
  destruct Hloop as (Hw1 & He1 & Hf & Hlim).
  assert (h_extends h0 h1) as He01 by (by etrans).
  assert (cell_ok h1 (CSeq v' 0 false)) as Hc.
  { split; [|done]. cbn. clear Hv. induction Hf as [|x y v v' Hxy Hf IHf]; constructor.
    - apply Forall_cons in Hitems as [Hx _].
      eapply clone_of_ok; [|exact Hx|done]. by apply h_extends_le.
    - apply IHf. by apply Forall_cons in Hitems as [_ ?]. }
  destruct (h_alloc h1 (CSeq v' 0 false)) as [l' h2] eqn:Ha.
  destruct (h_alloc_spec h1 _ l' h2 Hw1 Hc Ha) as (Hw2 & _ & Hfr & Hget & Hmono).
  split_and!; [done|by etrans| |lia].
  eapply clone_struct; [done| |done|].
  - destruct (h_get h0 l') as [c|] eqn:E; [|done]. apply He01 in E. congruence.
  - eapply Forall2_impl; [exact Hf|]. intros x y Hxy. by eapply clone_of_mono.
Qed.

(** ** Conversions *)

(** The contents of an Array or a Struct. *)
Definition seq_items (h : Heap) (i : item) : option (list item) :=
  match i with
  | Array l | Struct l => match h_seq h l with Ok (v, _, _) => Some v | _ => None end
  | _ => None
  end.

(** What a conversion of [i] to [typ] yields: the requested type, with the
    truth value, the integer, the bytes or the elements of [i]. *)
Definition converted (h h' : Heap) (i i' : item) (typ : Z) : Prop :=
  i' = i ∧ (Type_ i = typ ∨ i = Null ∧ typ ≠ AnyT ∧ IsValid typ = true) ∨
  Type_ i' = typ ∧
  match i' with
  | Bool b => TryBool i = Ok b
  | Integer z =>
      TryInteger i = Ok z ∨ ∃ l b, i = Buffer l ∧ h_buf h l = Ok b ∧ z = signed_val b
  | ByteArray b => TryBytes h i = Ok b
  | Buffer l => h_get h l = None ∧ h_buf h' l = TryBytes h i
  | Array l | Struct l =>
      h_get h l = None ∧ ∃ v, seq_items h i = Some v ∧ seq_items h' i' = Some v
  | _ => False
  end.

Definition convert_post (h : Heap) (i : item) (typ : Z) (r : res sierr (item * Heap)) : Prop :=
  match r with
  | Ok (i', h') =>
      heap_wf h' ∧ h_extends h h' ∧ item_ok h' i' ∧ converted h h' i i' typ
  | Err e => e = ErrInvalidConversion ∨ e = ErrTooBig
  | Panic => False
  end.

Lemma convert_post_same h i typ :
  heap_wf h → item_ok h i → Type_ i = typ ∨ i = Null ∧ typ ≠ AnyT ∧ IsValid typ = true →
  convert_post h i typ (Ok (i, h)).
Proof. intros. split_and!; [done|done|done|]. by left. Qed.

Lemma convert_post_flat h i i' typ :
  heap_wf h → item_ok h i' → converted h h i i' typ → convert_post h i typ (Ok (i', h)).
Proof. intros. by split_and!. Qed.

Lemma convert_post_bool h i b typ :
  heap_wf h → TryBool i = Ok b → bool_decide (typ = BooleanT) = true →
  convert_post h i typ (Ok (Bool b, h)).
Proof.
  intros Hwf Hb Ht%bool_decide_eq_true. apply convert_post_flat; [done|done|]. by right.
Qed.

Lemma convert_post_seq h l i v rc ro typ (mk : loc → item) :
  heap_wf h → h_get h l = Some (CSeq v rc ro) → seq_items h i = Some v →
  (∀ l, mk l = Array l) ∧ typ = ArrayT ∨ (∀ l, mk l = Struct l) ∧ typ = StructT →
  convert_post h i typ (let '(l', h') := h_alloc h (CSeq v 0 false) in Ok (mk l', h')).
Proof.
  intros Hwf Hl Hi Hmk. destruct (Hwf l _ Hl) as [_ Hc].
  destruct (h_alloc h (CSeq v 0 false)) as [l' h'] eqn:Ha.
  destruct (h_alloc_spec h (CSeq v 0 false) l' h' Hwf Hc Ha) as (Hw & Hle & Hfr & Hget & Hmono).
  assert (h_seq h' l' = Ok (v, 0, false)) as Hs by by apply h_seq_Ok.
  assert (loc_ok h' l' KSeq) as Hk by (unfold loc_ok; by rewrite Hget).
  destruct Hmk as [[Hmk ->]|[Hmk ->]]; rewrite Hmk; split_and!; try done;
    right; (split; [done|]); (split; [done|]); exists v; cbn; by rewrite Hs.
Qed.

Lemma convert_post_bytes h i b typ :
  heap_wf h → item_ok h i → Type_ i ≠ IntegerT → TryBytes h i = Ok b → typ = IntegerT →
  TryInteger i = Ok (signed_val b) ∨ (∃ l, i = Buffer l ∧ h_buf h l = Ok b) →
  (length b <= 32)%nat →
  convert_post h i typ (n ← NewBigInteger (signed_val b); Ok (n, h)).
Proof.
  intros Hwf Hok _ Hb -> Hz Hl.
  assert (- 2 ^ 255 <= signed_val b < 2 ^ 255) as Hr.
  { apply (FromBytes_range b); [done|]. cbn. by rewrite FromBytes_nonnil_spec. }
  rewrite NewBigInteger_range, res_bind_ok by done.
  apply convert_post_flat; [done|done|]. right. split; [done|]. cbn.
  destruct Hz as [Hz|(l & -> & Hz)]; [by left|right; eauto].
Qed.

Lemma convertPrimitive_post h i typ :
  heap_wf h → item_ok h i → (match i with Bool _ | Integer _ | ByteArray _ => True | _ => False end) →
  convert_post h i typ (convertPrimitive h i typ).
Proof.
  intros Hwf Hi Hp. unfold convertPrimitive.
  case_bool_decide as H0; [apply convert_post_same; auto|].
  case_bool_decide as H1.
  { destruct (TryInteger i) as [z|e|] eqn:Ez; cbn.
    - assert (- 2 ^ 255 <= z < 2 ^ 255) by (apply (TryInteger_range i); [by destruct i|done]).
      rewrite NewBigInteger_range, res_bind_ok by done.
      apply convert_post_flat; [done|done|]. right. split; [done|by left].
    - destruct i; try done; cbn in Ez; case_bool_decide; simplify_eq; auto.
    - destruct i as [|[]| | | | | | | |]; try done. cbn in Ez. by case_bool_decide. }
  case_bool_decide as H2; cbn [orb].
  { destruct (TryBytes h i) as [b| |] eqn:Eb; [|by destruct i..].
    rewrite res_bind_ok, bool_decide_eq_false_2 by (by subst).
    apply convert_post_flat; [done|done|]. by right. }
  case_bool_decide as H3.
  { destruct (TryBytes h i) as [b| |] eqn:Eb; [|by destruct i..].
    rewrite res_bind_ok.
    destruct (h_alloc h (CBuffer b)) as [l' h'] eqn:Ha.
    destruct (h_alloc_spec h (CBuffer b) l' h' Hwf ltac:(by split; [constructor|]) Ha)
      as (Hw & Hle & Hfr & Hget & Hmono).
    split_and!; [done|done|unfold item_ok, loc_ok; by rewrite Hget|].
    right. split; [done|]. split; [done|]. rewrite Eb. by apply h_buf_Ok. }
  case_bool_decide as H4; [|by left].
  destruct (TryBool i) as [b|e|] eqn:Eb; cbn.
  - apply convert_post_bool; [done..|]. by apply bool_decide_eq_true.
  - destruct i; try done. cbn in Eb. case_bool_decide; simplify_eq. auto.
  - destruct i; try done. cbn in Eb. by case_bool_decide.
Qed.

Lemma Convert_post h i typ :
  heap_wf h → item_ok h i → convert_post h i typ (Convert h i typ).
Proof.
  intros Hwf Hi. destruct i as [|b|n|b|l|l|l|l|p ph|x]; cbn [Convert];
    try by apply convertPrimitive_post.
  - case_bool_decide; [by left|]. destruct (IsValid typ) eqn:Hv; [|by left].
    apply convert_post_same; auto.
  - case_bool_decide as H1.
    { apply convert_post_bool; [done..|]. by apply bool_decide_eq_true. }
    case_bool_decide as H2; [apply convert_post_same; auto|].
    destruct (loc_ok_buf h l Hi) as [b Hb]. rewrite Hb, !res_bind_ok.
    case_bool_decide as H3.
    { apply convert_post_flat; [done|done|]. by right. }
    case_bool_decide as H4; [|by left].
    case_bool_decide as H5; [by right|]. change (MaxBigIntegerSizeBits / 8) with 32 in H5.
    cbn [FromBytes]. rewrite res_bind_ok, FromBytes_nonnil_spec.
    apply convert_post_bytes; [done|done|done|done|done| |lia]. right. eauto.
  - case_bool_decide as H1; [apply convert_post_same; auto|].
    destruct (loc_ok_seq h l Hi) as (v & rc & ro & Hv). rewrite Hv, res_bind_ok.
    case_bool_decide as H2.
    { apply (convert_post_seq h l _ v rc ro typ Struct); [done|by apply h_seq_Ok| |by right].
      cbn. by rewrite Hv. }
    case_bool_decide; [|by left]. by apply convert_post_bool; [..|apply bool_decide_eq_true].
  - case_bool_decide as H1; [apply convert_post_same; auto|].
    destruct (loc_ok_seq h l Hi) as (v & rc & ro & Hv). rewrite Hv, res_bind_ok.
    case_bool_decide as H2.
    { apply (convert_post_seq h l _ v rc ro typ Array); [done|by apply h_seq_Ok| |by left].
      cbn. by rewrite Hv. }
    case_bool_decide; [|by left]. by apply convert_post_bool; [..|apply bool_decide_eq_true].
  - case_bool_decide; [apply convert_post_same; auto|].
    case_bool_decide; [|by left]. by apply convert_post_bool; [..|apply bool_decide_eq_true].
  - case_bool_decide; [apply convert_post_same; auto|].
    case_bool_decide; [|by left]. by apply convert_post_bool; [..|apply bool_decide_eq_true].
  - case_bool_decide; [apply convert_post_same; auto|].
    case_bool_decide; [|by left]. by apply convert_post_bool; [..|apply bool_decide_eq_true].
Qed.

(** * Properties *)

(** An integer is accepted exactly when it fits 256-bit two's complement:
    the checks on bit length, sign and trailing zeros amount to the range. *)
Theorem CheckIntegerSize_range (n : Z) :
  CheckIntegerSize n = (if bool_decide (- 2 ^ 255 <= n < 2 ^ 255) then Ok tt else Err ErrTooBig)
  ∧ NewBigInteger n = (if bool_decide (- 2 ^ 255 <= n < 2 ^ 255) then Ok (Integer n) else Panic).
Proof.
  assert (CheckIntegerSize n = (if bool_decide (- 2 ^ 255 <= n < 2 ^ 255) then Ok tt else Err ErrTooBig))
    as He.
  { case_bool_decide as H; [by apply CheckIntegerSize_ok|].
    pose proof (CheckIntegerSize_ok n) as Hok. destruct (CheckIntegerSize n) as [[]|e|] eqn:E;
      [naive_solver|..]; unfold CheckIntegerSize in E; repeat case_match; congruence. }
  split; [done|]. unfold NewBigInteger. rewrite He. by case_bool_decide.
Qed.

(** The indexed map behaves as an association list in insertion order
    under [Index], [Add] and [Drop], and keeps its index consistent with its
    elements, positions shifted by a [Drop] included. *)
Theorem map_refines_alist (h : Heap) (m : smap) (k v : item) :
  map_wf m → IsValidMapKey k = Ok tt →
  Map_Index h m k = Ok (alist_index (m_value m) k)
  ∧ (∃ m', map_add h m k v = Ok (alist_get (m_value m) k, m') ∧ map_wf m'
           ∧ m_value m' = alist_set (m_value m) k v)
  ∧ (∀ i, alist_index (m_value m) k = Some i →
       ∃ m', map_drop h m i = Ok m' ∧ map_wf m' ∧ m_value m' = delete i (m_value m)
             ∧ alist_index (m_value m') k = None).
Proof.
  intros Hwf Hk. split; [by apply Map_Index_spec|]. split; [by apply map_add_spec|].
  intros i Hi. destruct (map_drop_spec h m k i Hwf Hi) as (m' & Hd & Hw & Hv).
  exists m'. split_and!; [done..|].
  destruct (alist_index (m_value m') k) as [j|] eqn:Ej; [|done]. exfalso.
  apply (alist_index_Some m' k j Hw) in Ej as (e & Hj & He).
  apply (alist_index_Some m k i Hwf) in Hi as (f & Hi & Hf). rewrite Hv in Hj.
  destruct (decide (j < i)%nat) as [Hlt|Hge].
  - rewrite list_lookup_delete_lt in Hj by done.
    assert (i = j); [|lia]. eapply (map_wf_keys_inj m); try done. congruence.
  - rewrite list_lookup_delete_ge in Hj by lia.
    assert (i = S j); [|lia]. eapply (map_wf_keys_inj m); try done. congruence.
Qed.

(** Whenever [Equals] returns, it decides structural equality (structs by
    their fields, other compound items by identity), and the recursion of the
    comparison is bounded by its element limit. *)
Theorem Equals_correct (IE : InteropEq) (h : Heap) (a b : item) :
  (∀ r, Equals h a b = Ok r → (r = true ↔ same h a b))
  ∧ ∀ n i s, (2047 <= n)%nat →
      equalStruct n h i s 2047 = equalStruct 2047 h i s 2047.
Proof.
  split; [|intros n i s Hn; apply equalStruct_fuel; lia].
  intros r. unfold Equals. destruct a as [| | |bs| | |i| | |];
    try (intros Hr; by apply same_flat_iff).
  - cbn [Equals_flat]. destruct (equalsLimited _ _ _) as [[t m]| |] eqn:E; cbn; [|done..].
    intros [= <-]. apply equalsLimited_Ok in E. cbn in E. rewrite E.
    split; [intros ->; constructor|]. by inversion 1; subst.
  - destruct b as [| | | | | |s| | |];
      try (intros [= <-]; split; [done|]; intros Hs; by apply same_struct_other in Hs).
    destruct (equalStruct _ h i s _) as [r'| |] eqn:E; cbn; [|done..].
    intros [= <-]. by eapply equalStruct_same.
Qed.

(** [Clone] of a struct either refuses it for its size or copies it, nested
    structs included, into new cells and leaves the others alone; it always
    terminates. *)
Theorem Clone_spec (h : Heap) (l : loc) :
  heap_wf h → item_ok h (Struct l) →
  match Clone h l with
  | Ok (l', h') => heap_wf h' ∧ h_extends h h' ∧ clone_of h h' (Struct l) (Struct l')
  | Err e => e = ErrTooBig
  | Panic => False
  end.
Proof.
  intros Hwf Hl. unfold Clone.
  pose proof (clone_ok (S (Z.to_nat MaxClonableNumOfItems)) h h l (MaxClonableNumOfItems - 1)
                Hwf Hwf ltac:(done) Hl ltac:(vm_compute; split; congruence)) as Hc.
  unfold clone_post in Hc. destruct (clone _ h l _) as [[[l' h'] lim]| |]; cbn; [|done..].
  by destruct Hc as (? & ? & ? & _).
Qed.

(** [Convert] never panics; it yields the type asked for (or the item
    itself) with the truth value, integer, bytes or elements of the source, and
    changes no existing cell. *)
Theorem Convert_spec (h : Heap) (i : item) (typ : Z) :
  heap_wf h → item_ok h i → convert_post h i typ (Convert h i typ).
Proof. apply Convert_post. Qed.

(** ** Witnesses *)

Definition w_map : smap := mkMap [(Bool true, Integer 7)] {[ [x20; x01] := 0%nat ]}.

(** A struct holding another one, which holds a buffer and a map. *)
Definition w_heap : Heap :=
  mkHeap (<[1%positive := CSeq [Integer 1; Struct 2] 0 false]>
           (<[2%positive := CSeq [Buffer 3; Map 4] 1 false]>
             (<[3%positive := CBuffer [x01; x02]]>
               {[4%positive := CMap w_map 1 true]}))) 5.

Lemma w_map_wf : map_wf w_map.
Proof.
  split; [by repeat constructor|]. intros k i. cbn. rewrite lookup_singleton_Some. split.
  - intros [<- <-]. by eexists.
  - intros (e & He & <-). apply list_lookup_singleton_Some in He as [-> <-]. done.
Qed.

Lemma w_heap_wf : heap_wf w_heap.
Proof.
  intros l c Hl. unfold h_get in Hl. cbn in Hl.
  rewrite !lookup_insert_Some, lookup_singleton_Some in Hl.
  destruct Hl as [[<- <-]|[_ [[<- <-]|[_ [[<- <-]|[_ [<- <-]]]]]]];
    (split; [cbn; lia|]); split; try done; try apply w_map_wf; repeat constructor; done.
Qed.

Lemma map_refines_alist_witness :
  map_wf w_map ∧ IsValidMapKey (Bool true) = Ok tt ∧
  Map_Index w_heap w_map (Bool true) = Ok (Some 0%nat).
Proof.
  split; [exact w_map_wf|]. split; [reflexivity|].
  exact (proj1 (map_refines_alist w_heap w_map (Bool true) Null w_map_wf eq_refl)).
Defined.

Lemma Equals_correct_witness :
  let IE : InteropEq := Z.eqb in
  Equals w_heap (Struct 1) (Struct 1) = Ok true ∧ same w_heap (Struct 1) (Struct 1).
Proof.
  split; [reflexivity|].
  exact (proj1 (proj1 (Equals_correct Z.eqb w_heap (Struct 1) (Struct 1)) true eq_refl) eq_refl).
Defined.

Lemma Clone_spec_witness :
  heap_wf w_heap ∧ ∃ h', Clone w_heap 1 = Ok (6%positive, h') ∧ heap_wf h'.
Proof.
  split; [exact w_heap_wf|].
  assert (∃ h', Clone w_heap 1 = Ok (6%positive, h')) as [h' E]
    by (eexists; vm_compute; reflexivity).
  exists h'. split; [exact E|].
  pose proof (Clone_spec w_heap 1 w_heap_wf eq_refl) as H. rewrite E in H. exact (proj1 H).
Defined.

Lemma Convert_spec_witness :
  heap_wf w_heap ∧ Convert w_heap (Buffer 3) IntegerT = Ok (Integer 513, w_heap)
  ∧ converted w_heap w_heap (Buffer 3) (Integer 513) IntegerT.
Proof.
  split; [exact w_heap_wf|].
  assert (Convert w_heap (Buffer 3) IntegerT = Ok (Integer 513, w_heap)) as E
    by (vm_compute; reflexivity).
  split; [exact E|].
  pose proof (Convert_spec w_heap (Buffer 3) IntegerT w_heap_wf eq_refl) as H.
  rewrite E in H. exact (proj2 (proj2 (proj2 H))).
Defined.
