(* ===== verification/Serial.v ===== *)
(** * Serial: stack items as bytes

    Models [pkg/vm/stackitem/serialization.go].  The serializer walks over the
    items of the heap; a compound item that it has finished is copied from the
    output when it is met again, one that it is inside of is an error.  The
    deserializer makes new items.  Both count items down from a limit, which is
    also what their recursion is bounded by.

    The specification is by trees: [unf] unfolds an item of the heap to a
    [tree], which does not exist for an item that contains itself, and [enc]
    writes a tree.  The decoding of the protected mode, in which an item may be
    nil, is not modelled. *)

From S2P Require Import Prelude Bigint BinIO Codec StackItem.

#[local] Open Scope Z_scope.

(** ** Serialization *)

(** [sliceNoPointer]: where in the output an item is, and how many items it
    has. *)
Record slice := mkSlice { sl_start : Z; sl_end : Z; sl_itemsCount : Z }.

(** The map from items to slices, the latest entry first. *)
Record SerializationContext := mkSer {
  sc_data : bytes;
  sc_allowInvalid : bool;
  sc_limit : Z;
  sc_seen : list (item * slice);
}.

Fixpoint seen_get (l : list (item * slice)) (i : item) : option slice :=
  match l with
  | [] => None
  | (j, s) :: l => if bool_decide (j = i) then Some s else seen_get l i
  end.

Definition w_append (w : SerializationContext) (b : bytes) : SerializationContext :=
  mkSer (sc_data w ++ b) (sc_allowInvalid w) (sc_limit w) (sc_seen w).
Definition w_limit (w : SerializationContext) (n : Z) : SerializationContext :=
  mkSer (sc_data w) (sc_allowInvalid w) n (sc_seen w).
Definition w_see (w : SerializationContext) (i : item) (s : slice) : SerializationContext :=
  mkSer (sc_data w) (sc_allowInvalid w) (sc_limit w) ((i, s) :: sc_seen w).
Definition w_len (w : SerializationContext) : Z := Z.of_nat (length (sc_data w)).

(** [w.data[start:end]] *)
Definition w_slice (w : SerializationContext) (v : slice) : bytes :=
  take (Z.to_nat (sl_end v - sl_start v)) (drop (Z.to_nat (sl_start v)) (sc_data w)).

Fixpoint ser_items (f : SerializationContext → item → res sierr SerializationContext)
    (l : list item) (w : SerializationContext) : res sierr SerializationContext :=
  match l with
  | [] => Ok w
  | i :: l => w ← f w i; ser_items f l w
  end.

(** What arrays, structures and maps share: a mark, the number of elements and
    the elements, and then the place of all of it.  [n] is the number written,
    [start] the place of the type. *)
Definition writeArray (f : SerializationContext → item → res sierr SerializationContext)
    (i : item) (n : nat) (arr : list item) (start : Z) (w : SerializationContext) : res sierr SerializationContext :=
  let limit := sc_limit w in
  let w := w_append (w_see w i (mkSlice 0 0 0)) (PutVarUint (Z.of_nat n)) in
  w ← ser_items f arr w;
  Ok (w_see w i (mkSlice start (w_len w) (limit - sc_limit w + 1))).

Definition too_big (w : SerializationContext) : res sierr SerializationContext :=
  if bool_decide (MaxSize < w_len w) then Err ErrTooBig else Ok w.

Definition var_bytes (b : bytes) : bytes := PutVarUint (Z.of_nat (length b)) ++ b.

(** The switch over the types: an item that is met for the first time. *)
Definition ser_new (f : SerializationContext → item → res sierr SerializationContext) (h : Heap)
    (w : SerializationContext) (start : Z) (i : option item) : res sierr SerializationContext :=
  match i with
  | None => if sc_allowInvalid w then Ok (w_append w [z2b InvalidT]) else Err ErrUnserializable
  | Some i =>
      match i with
      | Null => Ok (w_append w [z2b AnyT])
      | Bool b => Ok (w_append w [z2b BooleanT; if b then x01 else x00])
      | Integer n =>
          let data := ToBytes n in
          Ok (w_append w ([z2b IntegerT; z2b (Z.of_nat (length data))] ++ data))
      | ByteArray b => Ok (w_append w (z2b ByteArrayT :: var_bytes b))
      | Buffer l => b ← h_buf h l; Ok (w_append w (z2b BufferT :: var_bytes b))
      | Interop _ => if sc_allowInvalid w then Ok (w_append w [z2b InteropT]) else Err ErrUnserializable
      | Pointer pos _ =>
          if sc_allowInvalid w then Ok (w_append w (z2b PointerT :: PutVarUint (u64 pos)))
          else Err ErrUnserializable
      | Array l =>
          '(v, _, _) ← h_seq h l;
          writeArray f i (length v) v start (w_append w [z2b ArrayT])
      | Struct l =>
          '(v, _, _) ← h_seq h l;
          writeArray f i (length v) v start (w_append w [z2b StructT])
      | Map l =>
          '(m, _, _) ← h_map h l;
          writeArray f i (Map_Len m) (elems m) start (w_append w [z2b MapT])
      end
  end.

Fixpoint serialize (fuel : nat) (h : Heap) (w : SerializationContext) (i : option item)
    : res sierr SerializationContext :=
  match fuel with
  | O => Panic
  | S fuel =>
      match i ≫= seen_get (sc_seen w) with
      | Some v =>
          if bool_decide (sl_start v = sl_end v) then Err ErrRecursive else
          if bool_decide (MaxSize < w_len w + sl_end v - sl_start v) then Err ErrTooBig else
          let w := w_limit w (sc_limit w - sl_itemsCount v) in
          if bool_decide (sc_limit w < 0) then Err ErrTooBig else
          Ok (w_append w (w_slice w v))
      | None =>
          let w := w_limit w (sc_limit w - 1) in
          if bool_decide (sc_limit w < 0) then Err ErrTooBig else
          w ← ser_new (λ w i, serialize fuel h w (Some i)) h w (w_len w) i;
          too_big w
      end
  end.

(** The recursion is deeper by one for each item counted. *)
Definition ser_fuel (limit : Z) : nat := S (Z.to_nat limit).

Definition SerializeLimited (h : Heap) (i : option item) (limit : Z) : res sierr bytes :=
  let limit := if bool_decide (0 < limit) then limit else MaxSerialized in
  w ← serialize (ser_fuel limit) h (mkSer [] false limit []) i;
  Ok (sc_data w).

Definition Serialize (h : Heap) (i : option item) : res sierr bytes := SerializeLimited h i MaxSerialized.

(** [EncodeBinaryProtected]: what it writes. *)
Definition EncodeBinaryProtected (h : Heap) (i : option item) : res sierr bytes :=
  match serialize (ser_fuel MaxSerialized) h (mkSer [] true MaxSerialized []) i with
  | Ok w => Ok (sc_data w)
  | Err _ => Ok [z2b InvalidT]
  | Panic => Panic
  end.

(** ** Deserialization *)

Definition errTooBigElements : ioerr := ErrOther "too big: many elements".
Definition errInvalidType : ioerr := ErrOther "invalid type".

(** What the deserializer threads: the items made, the limit and the reader. *)
Record deser := mkDes { ds_heap : Heap; ds_limit : Z; ds_reader : BinReader }.

Definition d_fail (d : deser) (e : ioerr) : deser := mkDes (ds_heap d) (ds_limit d) (r_fail (ds_reader d) e).

Fixpoint dec_items (f : deser → res ioerr (option item * deser)) (n : nat) (d : deser)
    : res ioerr (list (option item) * deser) :=
  match n with
  | O => Ok ([], d)
  | S n => '(i, d) ← f d; '(l, d) ← dec_items f n d; Ok (i :: l, d)
  end.

(** The loop over the elements of a map ends with the first error.  [m.Add]
    panics for what cannot be a key. *)
Fixpoint dec_pairs (f : deser → res ioerr (option item * deser)) (n : nat) (m : smap) (d : deser)
    : res ioerr (smap * deser) :=
  match n with
  | O => Ok (m, d)
  | S n =>
      '(key, d) ← f d;
      '(value, d) ← f d;
      match r_err (ds_reader d), key, value with
      | Some _, _, _ => Ok (m, d)
      | None, Some key, Some value =>
          match IsValidMapKey key with
          | Ok _ => match map_add (ds_heap d) m key value with
                    | Ok (_, m) => dec_pairs f n m d
                    | _ => Panic
                    end
          | _ => Panic
          end
      | None, _, _ => Panic
      end
  end.

(** [decodeBinary]; a slice with a nil item in it belongs to a reader with an
    error, and nobody looks at it. *)
Fixpoint decodeBinary (fuel : nat) (d : deser) : res ioerr (option item * deser) :=
  match fuel with
  | O => Panic
  | S fuel =>
      let '(t, r) := ReadB (ds_reader d) in
      let d := mkDes (ds_heap d) (ds_limit d) r in
      match r_err r with
      | Some _ => Ok (None, d)
      | None =>
          let d := mkDes (ds_heap d) (ds_limit d - 1) r in
          if bool_decide (ds_limit d < 0) then Ok (None, d_fail d errTooBigElements) else
          if bool_decide (t = ByteArrayT ∨ t = BufferT) then
            let '(data, r) := ReadVarBytes MaxSize r in
            if bool_decide (t = ByteArrayT) then Ok (Some (ByteArray (default [] data)), mkDes (ds_heap d) (ds_limit d) r) else
            let '(l, h) := h_alloc (ds_heap d) (CBuffer (default [] data)) in
            Ok (Some (Buffer l), mkDes h (ds_limit d) r)
          else if bool_decide (t = BooleanT) then
            let '(b, r) := ReadBool r in Ok (Some (Bool b), mkDes (ds_heap d) (ds_limit d) r)
          else if bool_decide (t = IntegerT) then
            let '(data, r) := ReadVarBytes MaxBytesLen r in
            num ← FromBytes data;
            match NewBigInteger num with
            | Ok i => Ok (Some i, mkDes (ds_heap d) (ds_limit d) r)
            | _ => Panic
            end
          else if bool_decide (t = ArrayT ∨ t = StructT) then
            let '(n, r) := ReadVarUint r in
            let size := i64 n in
            let d := mkDes (ds_heap d) (ds_limit d) r in
            if bool_decide (ds_limit d < size) then Ok (None, d_fail d errTooBigElements) else
            if bool_decide (size < 0) then Panic else
            '(arr, d) ← dec_items (decodeBinary fuel) (Z.to_nat size) d;
            match mapM id arr with
            | None => Ok (None, d)
            | Some v =>
                let '(l, h) := h_alloc (ds_heap d) (CSeq v 0 false) in
                Ok (Some (if bool_decide (t = ArrayT) then Array l else Struct l), mkDes h (ds_limit d) (ds_reader d))
            end
          else if bool_decide (t = MapT) then
            let '(n, r) := ReadVarUint r in
            let size := i64 n in
            let d := mkDes (ds_heap d) (ds_limit d) r in
            if bool_decide (Z.quot (ds_limit d) 2 < size) then Ok (None, d_fail d errTooBigElements) else
            '(m, d) ← dec_pairs (decodeBinary fuel) (Z.to_nat size) NewMap d;
            let '(l, h) := h_alloc (ds_heap d) (CMap m 0 false) in
            Ok (Some (Map l), mkDes h (ds_limit d) (ds_reader d))
          else if bool_decide (t = AnyT) then Ok (Some Null, d)
          else Ok (None, d_fail d errInvalidType)
      end
  end.

Definition DecodeBinary_item (h : Heap) (limit : Z) (r : BinReader) : res ioerr (option item * deser) :=
  decodeBinary (ser_fuel limit) (mkDes h limit r).

Definition DeserializeLimited (h : Heap) (data : bytes) (limit : Z) : res ioerr (item * Heap) :=
  let limit := if bool_decide (0 < limit) then limit else MaxDeserialized in
  '(i, d) ← DecodeBinary_item h limit (NewBinReaderFromBuf data);
  match r_err (ds_reader d), i with
  | Some e, _ => Err e
  | None, Some i => Ok (i, ds_heap d)
  | None, None => Panic
  end.

Definition Deserialize (h : Heap) (data : bytes) : res ioerr (item * Heap) := DeserializeLimited h data MaxDeserialized.

(** ** Trees *)

Inductive nkind := KArr | KStr | KMp.

(** A map is the list of its keys and values in turn. *)
Inductive tree :=
  | TNull
  | TBool (b : bool)
  | TInt (n : Z)
  | TBytes (b : bytes)
  | TBuf (b : bytes)
  | TNode (k : nkind) (l : list tree).

Fixpoint tree_ind' (P : tree → Prop) (Hnull : P TNull) (Hbool : ∀ b, P (TBool b)) (Hint : ∀ n, P (TInt n))
    (Hbytes : ∀ b, P (TBytes b)) (Hbuf : ∀ b, P (TBuf b)) (Hnode : ∀ k l, Forall P l → P (TNode k l)) t : P t :=
  match t with
  | TNull => Hnull
  | TBool b => Hbool b
  | TInt n => Hint n
  | TBytes b => Hbytes b
  | TBuf b => Hbuf b
  | TNode k l => Hnode k l
      ((fix go l : Forall P l := match l with
        | [] => Forall_nil_2 P
        | t :: l => Forall_cons_2 P t l (tree_ind' P Hnull Hbool Hint Hbytes Hbuf Hnode t) (go l)
        end) l)
  end.

Fixpoint tsize (t : tree) : Z :=
  match t with TNode _ l => 1 + foldr (λ t n, tsize t + n) 0 l | _ => 1 end.

Definition tsizes (l : list tree) : Z := foldr (λ t n, tsize t + n) 0 l.

Definition node_type (k : nkind) : Z := match k with KArr => ArrayT | KStr => StructT | KMp => MapT end.

(** The number that is written for a node of [n] subtrees. *)
Definition node_count (k : nkind) (n : nat) : nat := match k with KMp => Nat.div2 n | _ => n end.

Fixpoint enc (t : tree) : bytes :=
  match t with
  | TNull => [z2b AnyT]
  | TBool b => [z2b BooleanT; if b then x01 else x00]
  | TInt n => [z2b IntegerT; z2b (Z.of_nat (length (ToBytes n)))] ++ ToBytes n
  | TBytes b => z2b ByteArrayT :: var_bytes b
  | TBuf b => z2b BufferT :: var_bytes b
  | TNode k l => z2b (node_type k) :: PutVarUint (Z.of_nat (node_count k (length l))) ++ concat (map enc l)
  end.

(** The tree of an item that has no elements, and the elements of one that
    has. *)
Definition leaf_view (h : Heap) (i : item) : option tree :=
  match i with
  | Null => Some TNull
  | Bool b => Some (TBool b)
  | Integer n => Some (TInt n)
  | ByteArray b => Some (TBytes b)
  | Buffer l => match h_get h l with Some (CBuffer b) => Some (TBuf b) | _ => None end
  | _ => None
  end.

Definition node_view (h : Heap) (i : item) : option (nkind * list item) :=
  match i with
  | Array l => match h_get h l with Some (CSeq v _ _) => Some (KArr, v) | _ => None end
  | Struct l => match h_get h l with Some (CSeq v _ _) => Some (KStr, v) | _ => None end
  | Map l => match h_get h l with Some (CMap m _ _) => Some (KMp, elems m) | _ => None end
  | _ => None
  end.

(** The tree of an item. *)
Inductive unf (h : Heap) : item → tree → Prop :=
  | unf_leaf i t : leaf_view h i = Some t → unf h i t
  | unf_node i k v ts : node_view h i = Some (k, v) → Forall2 (unf h) v ts → unf h i (TNode k ts).

Lemma leaf_not_node h i t k v : leaf_view h i = Some t → node_view h i = Some (k, v) → False.
Proof. by destruct i. Qed.

Lemma leaf_view_not_node h i k ts : leaf_view h i ≠ Some (TNode k ts).
Proof. destruct i; try done. cbn. by destruct (h_get h l) as [[]|]. Qed.

Lemma unf_leaf_inv h i t u : unf h i t → leaf_view h i = Some u → t = u.
Proof. destruct 1 as [i t Ht|i k v ts Hn _]; [congruence|]. intros Hl. by destruct (leaf_not_node _ _ _ _ _ Hl Hn). Qed.

Lemma unf_node_inv h i t k v : unf h i t → node_view h i = Some (k, v) → ∃ ts, t = TNode k ts ∧ Forall2 (unf h) v ts.
Proof.
  destruct 1 as [i t Ht|i k' v' ts Hn Hf]; intros Hv; [by destruct (leaf_not_node _ _ _ _ _ Ht Hv)|].
  rewrite Hn in Hv. injection Hv as <- <-. by exists ts.
Qed.

Lemma tsize_pos t : 1 <= tsize t.
Proof.
  induction t as [| | | | |k l Hl] using tree_ind'; cbn; try lia.
  induction Hl as [|t l Ht Hl IH]; cbn; lia.
Qed.

Lemma tsizes_nonneg l : 0 <= tsizes l.
Proof. induction l as [|t l IH]; cbn; [lia|]. pose proof (tsize_pos t). unfold tsizes in IH. lia. Qed.

Lemma tsizes_cons t l : tsizes (t :: l) = tsize t + tsizes l.
Proof. done. Qed.

Lemma tsize_node k l : tsize (TNode k l) = 1 + tsizes l.
Proof. done. Qed.

Lemma tsizes_elem t l : t ∈ l → tsize t <= tsizes l.
Proof.
  induction 1 as [t l|t u l Ht IH]; rewrite tsizes_cons; [pose proof (tsizes_nonneg l)|pose proof (tsize_pos u)]; lia.
Qed.

Lemma tsizes_length l : Z.of_nat (length l) <= tsizes l.
Proof. induction l as [|t l IH]; cbn [length]; [done|]. rewrite tsizes_cons. pose proof (tsize_pos t). lia. Qed.

Lemma unf_det h i t t' : unf h i t → unf h i t' → t = t'.
Proof.
  revert i t'. induction t as [| | | | |k ts IH] using tree_ind'; intros i t' H1 H2;
    inversion H1 as [? ? Hl|? ? v ? Hn Hf]; subst;
    try (symmetry; by eapply unf_leaf_inv).
  destruct (unf_node_inv _ _ _ _ _ H2 Hn) as (ts' & -> & Hf'). f_equal.
  clear H1 H2 Hn. revert v Hf ts' Hf'. induction IH as [|t ts Ht _ IH]; intros v Hf ts' Hf';
    inversion Hf; subst; inversion Hf'; subst; [done|]. f_equal; eauto.
Qed.

Lemma leaf_view_extends h h' i t : h_extends h h' → leaf_view h i = Some t → leaf_view h' i = Some t.
Proof.
  intros He. destruct i; cbn; try done. destruct (h_get h l) as [c|] eqn:Hl; [|done]. by rewrite (He _ _ Hl).
Qed.

Lemma node_view_extends h h' i kv : h_extends h h' → node_view h i = Some kv → node_view h' i = Some kv.
Proof.
  intros He. destruct i; cbn; try done; (destruct (h_get h l) as [c|] eqn:Hl; [|done]); by rewrite (He _ _ Hl).
Qed.

Lemma unf_extends h h' i t : h_extends h h' → unf h i t → unf h' i t.
Proof.
  intros He. revert i. induction t as [| | | | |k ts IH] using tree_ind'; intros i Hu;
    inversion Hu as [? ? Hl|? ? v ? Hn Hf]; subst; try (by constructor; eapply leaf_view_extends).
  econstructor; [by eapply node_view_extends|]. clear Hu Hn. revert v Hf.
  induction IH as [|t ts Ht _ IH]; intros v Hf; inversion Hf; subst; constructor; auto.
Qed.

(** ** What the serializer writes *)

(** [i] is being written. *)
Definition open (w : SerializationContext) (i : item) : Prop := seen_get (sc_seen w) i = Some (mkSlice 0 0 0).

(** An entry is of an item that is being written, or tells where its tree
    is. *)
Definition entry_ok (h : Heap) (d : bytes) (j : item) (v : slice) : Prop :=
  v = mkSlice 0 0 0 ∨
  ∃ t, unf h j t ∧ 0 <= sl_start v < sl_end v ∧ sl_itemsCount v = tsize t
    ∧ ∃ a c, d = a ++ enc t ++ c ∧ sl_start v = Z.of_nat (length a) ∧ sl_end v = Z.of_nat (length a + length (enc t)).

Definition seen_inv (h : Heap) (w : SerializationContext) : Prop :=
  ∀ j v, seen_get (sc_seen w) j = Some v → entry_ok h (sc_data w) j v.

Lemma entry_ok_app h d b j v : entry_ok h d j v → entry_ok h (d ++ b) j v.
Proof.
  intros [?|(t & Hu & Hr & Hn & a & c & -> & Hs)]; [by left|]. right. exists t. do 3 (split; [done|]).
  exists a, (c ++ b). by rewrite <- !app_assoc.
Qed.

(** [w'] has the bytes [b] more than [w], for [n] items. *)
Record written (h : Heap) (w w' : SerializationContext) (b : bytes) (n : Z) : Prop := {
  wr_data : sc_data w' = sc_data w ++ b;
  wr_limit : sc_limit w' = sc_limit w - n;
  wr_allow : sc_allowInvalid w' = sc_allowInvalid w;
  wr_seen : seen_inv h w';
  wr_open : ∀ j, open w' j → open w j;
}.

Lemma w_len_append w b : w_len (w_append w b) = w_len w + Z.of_nat (length b).
Proof. unfold w_len. cbn. rewrite length_app. lia. Qed.

Lemma written_len h w w' b n : written h w w' b n → w_len w' = w_len w + Z.of_nat (length b).
Proof. intros Hw. unfold w_len. rewrite (wr_data _ _ _ _ _ Hw), length_app. lia. Qed.

Lemma written_append h w b : seen_inv h w → written h w (w_append w b) b 0.
Proof.
  intros Hi. split; [done|cbn; lia|done| |done]. intros j v Hv. by apply entry_ok_app, Hi.
Qed.

Lemma written_trans h w1 w2 w3 b1 b2 n1 n2 :
  written h w1 w2 b1 n1 → written h w2 w3 b2 n2 → written h w1 w3 (b1 ++ b2) (n1 + n2).
Proof.
  intros [H1 H2 H3 H4 H5] [G1 G2 G3 G4 G5]. split; [by rewrite G1, H1, app_assoc|lia|congruence|done|].
  intros j Hj. by apply H5, G5.
Qed.

Lemma length_elems m : length (elems m) = (2 * Map_Len m)%nat.
Proof. unfold elems, Map_Len. induction (m_value m) as [|[k v] l IH]; cbn in *; [done|]. lia. Qed.

Lemma node_count_map m : node_count KMp (length (elems m)) = Map_Len m.
Proof. rewrite length_elems. cbn [node_count]. apply Nat.div2_double. Qed.

(** The switch in terms of the views. *)
Lemma ser_new_leaf f h w start i t :
  leaf_view h i = Some t → ser_new f h w start (Some i) = Ok (w_append w (enc t)).
Proof.
  destruct i; cbn; try done; try by intros [= <-].
  unfold h_buf. destruct (h_get h l) as [[]|]; try done. by intros [= <-].
Qed.

Lemma ser_new_node f h w start i k v :
  node_view h i = Some (k, v) →
  ser_new f h w start (Some i)
  = writeArray f i (node_count k (length v)) v start (w_append w [z2b (node_type k)]).
Proof.
  destruct i; cbn; try done; unfold h_seq, h_map; destruct (h_get h l) as [[]|]; try done; intros [= <- <-]; cbn [mbind res_bind]; try done.
  cbn [node_type]. by rewrite node_count_map.
Qed.

Lemma ser_new_other f h w start i :
  leaf_view h i = None → node_view h i = None → sc_allowInvalid w = false →
  (∃ e, ser_new f h w start (Some i) = Err e) ∨ ser_new f h w start (Some i) = Panic ∧ ¬ item_ok h i.
Proof.
  intros Hl Hn Ha. destruct i; cbn in *; rewrite ?Ha; try done; try by (left; eexists).
  all: right; unfold loc_ok, h_buf, h_seq, h_map; destruct (h_get h l) as [[]|]; try done.
Qed.

Definition encs (ts : list tree) : bytes := concat (map enc ts).

Lemma ser_items_sound (f : SerializationContext → item → res sierr SerializationContext) h l :
  (∀ w i w', seen_inv h w → sc_allowInvalid w = false → f w i = Ok w' →
    ∃ t, unf h i t ∧ written h w w' (enc t) (tsize t) ∧ 0 <= sc_limit w' ∧ w_len w' <= MaxSize) →
  ∀ w w', seen_inv h w → sc_allowInvalid w = false → ser_items f l w = Ok w' →
    ∃ ts, Forall2 (unf h) l ts ∧ written h w w' (encs ts) (tsizes ts) ∧ (0 <= sc_limit w → 0 <= sc_limit w').
Proof.
  intros Hf. induction l as [|i l IH]; intros w w' Hi Ha Hs; cbn [ser_items] in Hs.
  { injection Hs as <-. exists []. split; [constructor|]. split; [|done]. split; try done; [by rewrite app_nil_r|cbn; lia]. }
  destruct (f w i) as [w1| |] eqn:E; cbn [mbind res_bind] in Hs; [|done..].
  destruct (Hf w i w1 Hi Ha E) as (t & Hu & Hw & Hlim & _).
  destruct (IH w1 w' (wr_seen _ _ _ _ _ Hw)) as (ts & Hus & Hws & Hl'); [by rewrite (wr_allow _ _ _ _ _ Hw)|done|].
  exists (t :: ts). split; [by constructor|]. split; [|auto]. by apply (written_trans _ _ _ _ _ _ _ _ Hw Hws).
Qed.

Lemma w_slice_mid w v a b c :
  sc_data w = a ++ b ++ c → sl_start v = Z.of_nat (length a) → sl_end v = Z.of_nat (length a + length b) →
  w_slice w v = b.
Proof.
  intros Hd Hs He. unfold w_slice. rewrite Hd, Hs, He.
  replace (Z.to_nat (Z.of_nat (length a + length b) - Z.of_nat (length a))) with (length b) by lia.
  by rewrite Nat2Z.id, drop_app_length, take_app_length.
Qed.

(** Where the elements of [i] begin. *)
Definition opened (w : SerializationContext) (i : item) (k : nkind) (n : nat) : SerializationContext :=
  w_append (w_see (w_append w [z2b (node_type k)]) i (mkSlice 0 0 0)) (PutVarUint (Z.of_nat (node_count k n))).

Lemma opened_data w i k n :
  sc_data (opened w i k n) = sc_data w ++ [z2b (node_type k)] ++ PutVarUint (Z.of_nat (node_count k n)).
Proof. cbn. by rewrite <- app_assoc. Qed.

Lemma opened_inv h w i k n : seen_inv h w → seen_inv h (opened w i k n).
Proof.
  intros Hi j s. rewrite opened_data. cbn [opened sc_seen w_append w_see seen_get].
  case_bool_decide; [intros [= <-]; by left|]. intros Hj. by apply entry_ok_app, Hi.
Qed.

(** Elements inside of their node: when they are written the node has its
    place. *)
Lemma opened_written h w i k v ts w2 :
  node_view h i = Some (k, v) → Forall2 (unf h) v ts →
  written h (opened w i k (length v)) w2 (encs ts) (tsizes ts) →
  written h w (w_see w2 i (mkSlice (w_len w) (w_len w2) (sc_limit w - sc_limit w2 + 1)))
    (enc (TNode k ts)) (tsizes ts).
Proof.
  intros Hn Hf Hw2. set (s := mkSlice _ _ _).
  assert (sc_data w2 = sc_data w ++ enc (TNode k ts)) as Hd2.
  { rewrite (wr_data _ _ _ _ _ Hw2), opened_data, <- app_assoc. cbn [enc]. by rewrite (Forall2_length _ _ _ Hf). }
  assert (w_len w2 = Z.of_nat (length (sc_data w) + length (enc (TNode k ts)))) as Hl2.
  { unfold w_len. by rewrite Hd2, length_app. }
  assert (length (enc (TNode k ts)) ≠ 0%nat) as Hpos by done. pose proof (wr_limit _ _ _ _ _ Hw2) as Hlim. cbn in Hlim.
  split; [done|cbn; lia|apply (wr_allow _ _ _ _ _ Hw2)| |].
  - intros j s'. cbn [sc_seen w_see seen_get sc_data]. case_bool_decide as Hj.
    * intros [= <-]. right. exists (TNode k ts). subst j. split; [by econstructor|]. unfold s. cbn [sl_start sl_end sl_itemsCount].
      split; [unfold w_len in *; lia|]. split; [rewrite tsize_node; lia|].
      exists (sc_data w), []. by rewrite app_nil_r.
    * intros Hs'. by apply (wr_seen _ _ _ _ _ Hw2).
  - intros j. unfold open. cbn [sc_seen w_see seen_get]. case_bool_decide as Hj.
    * unfold s. intros [= Hs1 Hs2 _]. unfold w_len in *. lia.
    * intros Hs'. apply (wr_open _ _ _ _ _ Hw2) in Hs'. unfold open in Hs'. cbn in Hs'.
      by rewrite bool_decide_eq_false_2 in Hs'.
Qed.

Lemma serialize_hit h w i v :
  seen_inv h w → seen_get (sc_seen w) i = Some v → ¬ open w i →
  ∃ t, unf h i t
    ∧ written h w (w_append (w_limit w (sc_limit w - sl_itemsCount v)) (w_slice w v)) (enc t) (tsize t) ∧ sl_start v <> sl_end v
    ∧ sl_itemsCount v = tsize t ∧ sl_end v - sl_start v = Z.of_nat (length (enc t)).
Proof.
  intros Hi Hv Ho. destruct (Hi i v Hv) as [->|(t & Hu & Hr & Hn & a & c & Hd & Hs & He)]; [done|].
  exists t. split; [done|]. rewrite (w_slice_mid w v a (enc t) c) by done. split; [|split; [lia|split; [done|lia]]].
  split; [done|cbn; lia|done| |done]. intros j s Hj. by apply entry_ok_app, Hi.
Qed.

(** What it writes when it succeeds. *)
Lemma serialize_sound h fuel : ∀ w i w',
  seen_inv h w → sc_allowInvalid w = false → serialize fuel h w (Some i) = Ok w' →
  ∃ t, unf h i t ∧ written h w w' (enc t) (tsize t) ∧ 0 <= sc_limit w' ∧ w_len w' <= MaxSize.
Proof.
  induction fuel as [|fuel IH]; intros w i w' Hi Ha; cbn [serialize]; [done|]. cbn [mbind option_bind].
  destruct (seen_get (sc_seen w) i) as [v|] eqn:Hv.
  { case_bool_decide as Hse; [done|]. case_bool_decide as Hm; [done|]. case_bool_decide as Hl; [done|]. intros [= <-].
    destruct (serialize_hit h w i v Hi Hv) as (t & Hu & Hw & _ & Hn & Hle).
    { intros Ho. unfold open in Ho. rewrite Hv in Ho. by injection Ho as ->. }
    exists t. split; [done|]. split; [done|]. pose proof (written_len _ _ _ _ _ Hw) as Hx.
    split; [cbn in *; lia|]. etransitivity; [apply Z.eq_le_incl, Hx|]. lia. }
  case_bool_decide as Hl; [done|]. set (w1 := w_limit w (sc_limit w - 1)) in *.
  change (w_len w1) with (w_len w).
  assert (∀ w2 t, unf h i t → written h w1 w2 (enc t) (tsize t - 1) → too_big w2 = Ok w' → 0 <= sc_limit w2 →
    ∃ t, unf h i t ∧ written h w w' (enc t) (tsize t) ∧ 0 <= sc_limit w' ∧ w_len w' <= MaxSize) as Hdone.
  { intros w2 t Hu Hw Htb Hl2. unfold too_big in Htb. case_bool_decide; [done|]. injection Htb as <-.
    exists t. split; [done|]. split; [|lia]. destruct Hw as [H1 H2 H3 H4 H5]. cbn in *. split; [done|lia|done..]. }
  destruct (leaf_view h i) as [t|] eqn:Hlv; [|destruct (node_view h i) as [[k v]|] eqn:Hnv].
  - rewrite (ser_new_leaf _ _ _ _ _ _ Hlv). cbn [mbind res_bind]. intros Htb.
    assert (tsize t = 1) as Ht by (destruct t as [| | | | |k l]; try done; by apply leaf_view_not_node in Hlv).
    refine (Hdone _ t _ _ Htb _); [by constructor| |cbn in *; lia].
    rewrite Ht. by apply written_append.
  - rewrite (ser_new_node _ _ _ _ _ _ _ Hnv). unfold writeArray.
    fold (opened w1 i k (length v)).
    destruct (ser_items _ v _) as [w2| |] eqn:Es; cbn [mbind res_bind]; [|done..]. intros Htb.
    apply (ser_items_sound _ h) in Es as (ts & Hts & Hw2 & Hl2); [|intros; by apply IH|by apply opened_inv|done].
    apply opened_written in Hw2 as Hw; [|done..].
    refine (Hdone _ (TNode k ts) _ _ Htb _); [by econstructor| |cbn in *; lia].
    rewrite tsize_node. replace (1 + tsizes ts - 1) with (tsizes ts) by lia. exact Hw.
  - destruct (ser_new_other (λ w i, serialize fuel h w (Some i)) h w1 (w_len w) i Hlv Hnv Ha) as [(e & ->)|[-> _]]; done.
Qed.

Lemma open_dec_see w i s j : open (w_see w i s) j → s = mkSlice 0 0 0 ∧ j = i ∨ j ≠ i ∧ open w j.
Proof.
  unfold open. cbn. case_bool_decide as Hj; [intros [= ->]; by left|]. right. by split; [congruence|].
Qed.

Lemma encs_cons t ts : encs (t :: ts) = enc t ++ encs ts.
Proof. done. Qed.

(** Trees within the limits are written: no item that is being written is met
    again, since it would have to be larger than itself. *)
Definition completes (h : Heap) (fuel : nat) : Prop := ∀ w i t,
  unf h i t → seen_inv h w → sc_allowInvalid w = false →
  (∀ j u, open w j → unf h j u → tsize t < tsize u) →
  tsize t <= sc_limit w → w_len w + Z.of_nat (length (enc t)) <= MaxSize → (Z.to_nat (sc_limit w) < fuel)%nat →
  ∃ w', serialize fuel h w (Some i) = Ok w'.

Lemma ser_items_complete h fuel (O : item → Prop) v ts :
  completes h fuel → Forall2 (unf h) v ts → (∀ j u t, t ∈ ts → O j → unf h j u → tsize t < tsize u) →
  ∀ w, seen_inv h w → sc_allowInvalid w = false → (∀ j, open w j → O j) →
  tsizes ts <= sc_limit w → w_len w + Z.of_nat (length (encs ts)) <= MaxSize → (Z.to_nat (sc_limit w) < fuel)%nat →
  ∃ w', ser_items (λ w i, serialize fuel h w (Some i)) v w = Ok w'.
Proof.
  intros IH Hts. induction Hts as [|j t v ts Hj _ IHl]; intros HO w Hi Ha Ho Hsz Hlen Hf; cbn [ser_items]; [by eexists|].
  rewrite tsizes_cons in Hsz. rewrite encs_cons, length_app in Hlen. pose proof (tsizes_nonneg ts).
  destruct (IH w j t Hj Hi Ha) as [w3 Hw3]; [|lia..|].
  { intros j' u Hj' Hu. apply (HO j' u t); [apply list_elem_of_here|by apply Ho|done]. }
  rewrite Hw3. cbn [mbind res_bind]. destruct (serialize_sound _ _ _ _ _ Hi Ha Hw3) as (t' & Ht' & Hw & _).
  rewrite <- (unf_det _ _ _ _ Hj Ht') in Hw. pose proof (tsize_pos t). pose proof (wr_limit _ _ _ _ _ Hw).
  apply IHl.
  - intros j' u t0 Ht0. apply HO. by apply list_elem_of_further.
  - apply (wr_seen _ _ _ _ _ Hw).
  - by rewrite (wr_allow _ _ _ _ _ Hw).
  - intros j' Hj'. by apply Ho, (wr_open _ _ _ _ _ Hw).
  - lia.
  - rewrite (written_len _ _ _ _ _ Hw). lia.
  - lia.
Qed.

Lemma too_big_ok w w2 b n :
  (∃ h, written h w w2 b n) → w_len w + Z.of_nat (length b) <= MaxSize → ∃ w', too_big w2 = Ok w'.
Proof.
  intros [h Hw] Hlen. unfold too_big. rewrite bool_decide_eq_false_2; [by eexists|].
  rewrite (written_len _ _ _ _ _ Hw). lia.
Qed.

Lemma serialize_complete h fuel : completes h fuel.
Proof.
  induction fuel as [|fuel IH]; intros w i t Hu Hi Ha Hop Hsz Hlen Hfuel; [lia|]. cbn [serialize mbind option_bind].
  pose proof (tsize_pos t).
  destruct (seen_get (sc_seen w) i) as [v|] eqn:Hv.
  { assert (¬ open w i) as Ho by (intros Ho; pose proof (Hop i t Ho Hu); lia).
    destruct (serialize_hit h w i v Hi Hv Ho) as (t' & Hu' & Hw & Hne & Hn & Hle).
    rewrite (unf_det _ _ _ _ Hu Hu') in *. rewrite bool_decide_eq_false_2 by done.
    rewrite bool_decide_eq_false_2 by lia. rewrite bool_decide_eq_false_2 by (cbn; lia). by eexists. }
  rewrite bool_decide_eq_false_2 by (cbn; lia). set (w1 := w_limit w (sc_limit w - 1)).
  pose proof Hu as Hu0. destruct Hu as [i t Hlv|i k v ts Hnv Hts].
  - rewrite (ser_new_leaf _ _ _ _ _ _ Hlv). cbn [mbind res_bind].
    apply (too_big_ok w1 _ (enc t) 0); [|done]. exists h. by apply written_append.
  - rewrite (ser_new_node _ _ _ _ _ _ _ Hnv). unfold writeArray. fold (opened w1 i k (length v)).
    rewrite tsize_node in *.
    destruct (ser_items_complete h fuel (λ j, open w j ∨ j = i) v ts IH Hts) with (w := opened w1 i k (length v)) as [w2 Hw2].
    + intros j u t Ht Hj Huj. pose proof (tsizes_elem _ _ Ht). destruct Hj as [Hj|Hj].
      * pose proof (Hop j u Hj Huj). lia.
      * subst j. rewrite (unf_det _ _ _ _ Huj Hu0), tsize_node. lia.
    + by apply opened_inv.
    + done.
    + intros j Hj. apply (open_dec_see w1 i (mkSlice 0 0 0)) in Hj as [[_ ->]|[_ Hj]]; [by right|by left].
    + cbn. lia.
    + unfold w_len in *. rewrite opened_data. change (sc_data w1) with (sc_data w).
      cbn [enc] in Hlen. fold (encs ts) in Hlen. rewrite <- (Forall2_length _ _ _ Hts) in Hlen.
      rewrite !length_app. cbn [length] in *. rewrite !length_app in Hlen. lia.
    + cbn. lia.
    + rewrite Hw2. cbn [mbind res_bind].
      apply (ser_items_sound _ h) in Hw2 as (ts' & Hts' & Hw2 & _); [|intros; by eapply serialize_sound|by apply opened_inv|done].
      assert (unf h i (TNode k ts')) as Hu' by by econstructor.
      injection (unf_det _ _ _ _ Hu' Hu0) as ->.
      apply (too_big_ok w1 _ (enc (TNode k ts)) (tsizes ts)); [|done]. exists h. by apply (opened_written h w1 i k v ts w2).
Qed.

Lemma node_view_ok h i k v : heap_wf h → node_view h i = Some (k, v) → Forall (item_ok h) v.
Proof.
  intros Hwf. destruct i; cbn; try done; destruct (h_get h l) as [[]|] eqn:Hl; try done; intros [= <- <-];
    apply (Hwf _ _ Hl).
Qed.

Lemma serialize_no_panic h fuel : ∀ w i,
  heap_wf h → item_ok h i → seen_inv h w → sc_allowInvalid w = false → (Z.to_nat (sc_limit w) < fuel)%nat →
  serialize fuel h w (Some i) ≠ Panic.
Proof.
  induction fuel as [|fuel IH]; intros w i Hwf Hok Hi Ha Hfuel; [lia|]. cbn [serialize mbind option_bind].
  destruct (seen_get (sc_seen w) i) as [v|] eqn:Hv; [by repeat case_bool_decide|].
  case_bool_decide as Hl; [done|]. set (w1 := w_limit w (sc_limit w - 1)) in *.
  assert (∀ w2, too_big w2 ≠ Panic) as Htb by (intros w2; unfold too_big; by case_bool_decide).
  destruct (leaf_view h i) as [t|] eqn:Hlv; [|destruct (node_view h i) as [[k v]|] eqn:Hnv].
  - rewrite (ser_new_leaf _ _ _ _ _ _ Hlv). apply Htb.
  - rewrite (ser_new_node _ _ _ _ _ _ _ Hnv). unfold writeArray. fold (opened w1 i k (length v)).
    assert (∀ w2, seen_inv h w2 → sc_allowInvalid w2 = false → (Z.to_nat (sc_limit w2) < fuel)%nat →
      ser_items (λ w i, serialize fuel h w (Some i)) v w2 ≠ Panic) as Hitems.
    { pose proof (node_view_ok _ _ _ _ Hwf Hnv) as Hall. clear -IH Hall Hwf. induction Hall as [|j v Hj _ IHl]; intros w2 Hi Ha Hf; [done|].
      cbn [ser_items]. pose proof (IH w2 j Hwf Hj Hi Ha Hf).
      destruct (serialize fuel h w2 (Some j)) as [w3| |] eqn:E; cbn [mbind res_bind]; [|done..].
      destruct (serialize_sound _ _ _ _ _ Hi Ha E) as (t & _ & Hw & _). pose proof (tsize_pos t).
      pose proof (wr_limit _ _ _ _ _ Hw). apply IHl; [apply (wr_seen _ _ _ _ _ Hw)|by rewrite (wr_allow _ _ _ _ _ Hw)|lia]. }
    specialize (Hitems (opened w1 i k (length v)) (opened_inv _ _ _ _ _ Hi) Ha ltac:(cbn in *; lia)).
    destruct (ser_items _ v _); cbn [mbind res_bind]; [apply Htb|done..].
  - destruct (ser_new_other (λ w i, serialize fuel h w (Some i)) h w1 (w_len w1) i Hlv Hnv Ha) as [(e & ->)|[_ Hn]]; done.
Qed.

Lemma SerializeLimited_Ok h i limit b :
  0 < limit → SerializeLimited h (Some i) limit = Ok b →
  ∃ t, unf h i t ∧ b = enc t ∧ tsize t <= limit ∧ Z.of_nat (length b) <= MaxSize.
Proof.
  intros Hlim. unfold SerializeLimited. rewrite bool_decide_eq_true_2 by done. set (w := mkSer [] false limit []).
  destruct (serialize (ser_fuel limit) h w (Some i)) as [w'| |] eqn:E; cbn [mbind res_bind]; [|done..]. intros [= <-].
  destruct (serialize_sound h _ w _ _ ltac:(done) eq_refl E) as (t & Hu & Hw & Hl & Hlen). exists t. split; [done|].
  pose proof (wr_data _ _ _ _ _ Hw) as Hd. pose proof (wr_limit _ _ _ _ _ Hw) as Hn. cbn in Hd, Hn.
  split; [done|]. split; [lia|done].
Qed.

(** An item is serialized exactly if it unfolds to a tree - which one that
    contains itself does not - of at most [limit] items and [MaxSize] bytes;
    the bytes are those of the tree, however much the item shares.  It is an
    error otherwise and never a panic: the recursion ends. *)
Theorem Serialize_spec (h : Heap) (i : item) (limit : Z) :
  heap_wf h → item_ok h i → 0 < limit →
  match SerializeLimited h (Some i) limit with
  | Ok b => ∃ t, unf h i t ∧ b = enc t ∧ tsize t <= limit ∧ Z.of_nat (length b) <= MaxSize
  | Err _ => ¬ ∃ t, unf h i t ∧ tsize t <= limit ∧ Z.of_nat (length (enc t)) <= MaxSize
  | Panic => False
  end.
Proof.
  intros Hwf Hok Hlim. destruct (SerializeLimited h (Some i) limit) as [b| |] eqn:E.
  { by apply SerializeLimited_Ok. }
  all: unfold SerializeLimited in E; rewrite bool_decide_eq_true_2 in E by done.
  all: set (w := mkSer [] false limit []) in E; assert (seen_inv h w) as Hi by done.
  - intros (t & Hu & Hsz & Hlen).
    destruct (serialize_complete h (ser_fuel limit) w i t Hu Hi eq_refl) as [w' Hw'];
      [done|done|exact Hlen|unfold ser_fuel; cbn [sc_limit w]; lia|]. by rewrite Hw' in E.
  - pose proof (serialize_no_panic h (ser_fuel limit) w i Hwf Hok Hi eq_refl ltac:(cbn; unfold ser_fuel; lia)).
    by destruct (serialize _ h w (Some i)).
Qed.

(** ** What the deserializer reads *)

Definition flat {A} (ps : list (A * A)) : list A := ps ≫= λ e, [e.1; e.2].

Lemma length_flat {A} (ps : list (A * A)) : length (flat ps) = (2 * length ps)%nat.
Proof. induction ps as [|p ps IH]; cbn in *; [done|]. unfold flat in IH. lia. Qed.

Lemma Forall_flat {A} (P : A → Prop) ps : Forall P (flat ps) ↔ Forall (λ e, P e.1 ∧ P e.2) ps.
Proof.
  induction ps as [|p ps IH]; [done|]. change (flat (p :: ps)) with (p.1 :: p.2 :: flat ps).
  rewrite !Forall_cons, IH. tauto.
Qed.

(** The trees of map keys, and their items. *)
Definition tkey (t : tree) : Prop :=
  match t with TBool _ | TInt _ => True | TBytes b => Z.of_nat (length b) <= MaxKeySize | _ => False end.

Definition key_item (t : tree) : item :=
  match t with TBool b => Bool b | TInt n => Integer n | TBytes b => ByteArray b | _ => Null end.

Lemma tkey_unf h i t : tkey t → unf h i t → i = key_item t.
Proof.
  intros Hk. destruct 1 as [i t Hl|i k v ts _ _]; [|done].
  destruct i; cbn in Hl; try (injection Hl as <-; done); try done.
  destruct (h_get h l) as [[]|]; try done. by injection Hl as <-.
Qed.

Lemma tkey_ok t : tkey t → key_ok (key_item t).
Proof. unfold key_ok. destruct t; try done. cbn. intros Hl. by rewrite bool_decide_eq_false_2 by lia. Qed.

Lemma key_item_inj t u : tkey t → tkey u → key_item t = key_item u → t = u.
Proof. destruct t, u; cbn; try done; congruence. Qed.

Lemma key_ok_unf h i t : key_ok i → unf h i t → tkey t ∧ key_item t = i.
Proof.
  unfold key_ok. intros Hk. destruct 1 as [i t Hl|i k v ts Hn _]; [|by destruct i].
  destruct i; try done; cbn in Hl, Hk; injection Hl as <-; try done.
  case_bool_decide; [done|]. split; [cbn; lia|done].
Qed.

(** Trees that the deserializer gives back. *)
Inductive twf : tree → Prop :=
  | twf_null : twf TNull
  | twf_bool b : twf (TBool b)
  | twf_int n : - 2 ^ 255 <= n < 2 ^ 255 → twf (TInt n)
  | twf_bytes b : Z.of_nat (length b) <= MaxSize → twf (TBytes b)
  | twf_buf b : Z.of_nat (length b) <= MaxSize → twf (TBuf b)
  | twf_seq k l : k ≠ KMp → Forall twf l → twf (TNode k l)
  | twf_map ps : Forall (λ e, tkey e.1) ps → NoDup ps.*1 → Forall twf (flat ps) → twf (TNode KMp (flat ps)).

(** An item with its tree in an extension of the heap. *)
Record made (h h' : Heap) (i : item) (t : tree) : Prop := {
  md_unf : unf h' i t;
  md_ok : item_ok h' i;
  md_ext : h_extends h h';
  md_wf : heap_wf h';
}.

Definition decodes (f : deser → res ioerr (option item * deser)) (L : Z) (t : tree) : Prop :=
  ∀ h limit rest, heap_wf h → tsize t <= limit <= L →
  ∃ i h', f (mkDes h limit (mkReader (enc t ++ rest) None))
          = Ok (Some i, mkDes h' (limit - tsize t) (mkReader rest None)) ∧ made h h' i t.

Lemma dec_items_ok f L ts : Forall (decodes f L) ts →
  ∀ h limit rest, heap_wf h → tsizes ts <= limit <= L →
  ∃ v h', dec_items f (length ts) (mkDes h limit (mkReader (encs ts ++ rest) None))
          = Ok (map Some v, mkDes h' (limit - tsizes ts) (mkReader rest None))
    ∧ Forall2 (unf h') v ts ∧ Forall (item_ok h') v ∧ h_extends h h' ∧ heap_wf h'.
Proof.
  induction 1 as [|t ts Ht _ IH]; intros h limit rest Hwf Hlim; cbn [dec_items length].
  { exists [], h. cbn. rewrite Z.sub_0_r. split; [done|]. split; [constructor|]. split; [constructor|]. by split. }
  rewrite tsizes_cons in *. rewrite encs_cons, <- app_assoc. pose proof (tsize_pos t). pose proof (tsizes_nonneg ts).
  destruct (Ht h limit (encs ts ++ rest) Hwf ltac:(lia)) as (i & h1 & -> & [Hu Hok Hext Hwf1]). cbn [mbind res_bind].
  destruct (IH h1 (limit - tsize t) rest Hwf1 ltac:(lia)) as (v & h' & -> & Hus & Hoks & Hext' & Hwf'). cbn [mbind res_bind].
  exists (i :: v), h'. split; [do 3 f_equal; lia|]. split; [constructor; [by eapply unf_extends|done]|].
  split; [constructor; [eapply item_ok_le; [by apply h_extends_le|done]|done]|]. split; [by etransitivity|done].
Qed.

Lemma alloc_made h h' c l :
  heap_wf h → cell_ok h c → h_alloc h c = (l, h') → heap_wf h' ∧ h_extends h h' ∧ h_get h' l = Some c.
Proof. intros Hwf Hc Ha. destruct (h_alloc_spec _ _ _ _ Hwf Hc Ha) as (? & ? & ? & ? & ?). done. Qed.

Definition pair_unf (h : Heap) (e : item * item) (p : tree * tree) : Prop := unf h e.1 p.1 ∧ unf h e.2 p.2.

Lemma pair_unf_extends h h' l ps : h_extends h h' → Forall2 (pair_unf h) l ps → Forall2 (pair_unf h') l ps.
Proof.
  intros He Hf. eapply Forall2_impl; [exact Hf|]. intros e p [H1 H2]. split; by eapply unf_extends.
Qed.

Lemma pair_unf_elems h m ps : Forall2 (pair_unf h) (m_value m) ps ↔ Forall2 (unf h) (elems m) (flat ps).
Proof.
  unfold elems. change (m_value m ≫= λ e, [e.1; e.2]) with (flat (m_value m)). generalize (m_value m) as l. intros l.
  revert ps. induction l as [|e l IH]; intros [|p ps]; [by split; constructor|split; intros H; inversion H..|].
  - change (flat (e :: l)) with (e.1 :: e.2 :: flat l). change (flat (p :: ps)) with (p.1 :: p.2 :: flat ps).
    rewrite !Forall2_cons, IH. unfold pair_unf. tauto.
Qed.

Lemma elems_forall (P : item → Prop) m : Forall P (elems m) ↔ Forall (λ e, P e.1 ∧ P e.2) (m_value m).
Proof. unfold elems. apply (Forall_flat P (m_value m)). Qed.

(** A key whose tree is new is appended. *)
Lemma map_add_new h m k v ps kt :
  map_wf m → key_ok k → Forall2 (pair_unf h) (m_value m) ps → Forall (λ e, tkey e.1) ps → tkey kt → unf h k kt →
  kt ∉ ps.*1 →
  ∃ m', map_add h m k v = Ok (None, m') ∧ map_wf m' ∧ m_value m' = m_value m ++ [(k, v)].
Proof.
  intros Hm Hk Hps Hkeys Hkt Hu Hnew.
  destruct (map_add_spec h m k v Hm Hk) as (m' & Hadd & Hm' & Hv).
  assert (alist_index (m_value m) k = None) as Hn.
  { destruct (alist_index (m_value m) k) as [i|] eqn:E; [|done].
    apply (alist_index_Some m k i Hm) in E as (e & He & <-). destruct Hnew.
    destruct (Forall2_lookup_l _ _ _ _ _ Hps He) as (p & Hp & [Hp1 _]). 
    pose proof (Forall_lookup_1 _ _ _ _ Hkeys Hp) as Hpk. cbn in Hpk.
    rewrite (unf_det _ _ _ _ Hu Hp1). apply list_elem_of_fmap_2. by eapply list_elem_of_lookup_2. }
  unfold alist_get in Hadd. unfold alist_set in Hv. rewrite Hn in Hadd, Hv. by exists m'.
Qed.

Lemma dec_pairs_ok f L ps : Forall (decodes f L) (flat ps) → Forall (λ e, tkey e.1) ps →
  ∀ h limit rest m ps0, heap_wf h → tsizes (flat ps) <= limit <= L →
  map_wf m → Forall2 (pair_unf h) (m_value m) ps0 → Forall (λ e, tkey e.1) ps0 → Forall (item_ok h) (elems m) →
  NoDup (ps0 ++ ps).*1 →
  ∃ m' h', dec_pairs f (length ps) m (mkDes h limit (mkReader (encs (flat ps) ++ rest) None))
          = Ok (m', mkDes h' (limit - tsizes (flat ps)) (mkReader rest None))
    ∧ Forall2 (pair_unf h') (m_value m') (ps0 ++ ps) ∧ map_wf m' ∧ Forall (item_ok h') (elems m')
    ∧ h_extends h h' ∧ heap_wf h'.
Proof.
  induction ps as [|p ps IH]; intros Hdec Hk h limit rest m ps0 Hwf Hlim Hm Hps0 Hk0 Hel Hnd; cbn [dec_pairs length].
  { exists m, h. cbn. rewrite Z.sub_0_r, app_nil_r. do 5 (split; [done|]). done. }
  change (flat (p :: ps)) with (p.1 :: p.2 :: flat ps) in *. rewrite !tsizes_cons in *.
  rewrite !encs_cons, <- !app_assoc. pose proof (tsizes_nonneg (flat ps)). pose proof (tsize_pos p.1). pose proof (tsize_pos p.2).
  inversion_clear Hdec as [|? ? Hd1 Hdec']. inversion_clear Hdec' as [|? ? Hd2 Hdec]. inversion_clear Hk as [|? ? Hkp Hk'].
  destruct (Hd1 h limit (enc p.2 ++ encs (flat ps) ++ rest) Hwf ltac:(lia)) as (k & h1 & -> & [Hu1 Hok1 Hext1 Hwf1]).
  cbn [mbind res_bind].
  destruct (Hd2 h1 (limit - tsize p.1) (encs (flat ps) ++ rest) Hwf1 ltac:(lia)) as (v & h2 & -> & [Hu2 Hok2 Hext2 Hwf2]).
  cbn [mbind res_bind ds_reader r_err ds_heap]. pose proof (tkey_unf _ _ _ Hkp Hu1) as ->. pose proof (tkey_ok _ Hkp) as Hkok.
  unfold key_ok in Hkok. rewrite Hkok. rewrite fmap_app in Hnd. cbn [fmap list_fmap] in Hnd.
  assert (h_extends h h2) as Hext by by etransitivity.
  pose proof (pair_unf_extends _ _ _ _ Hext Hps0) as Hps2. pose proof (unf_extends _ _ _ _ Hext2 Hu1) as Hu1'.
  destruct (map_add_new h2 m (key_item p.1) v ps0 p.1 Hm Hkok Hps2 Hk0 Hkp Hu1') as (m1 & -> & Hm1 & Hv1).
  { apply NoDup_app in Hnd as (_ & Hnd & _). intros Hin. apply (Hnd _ Hin), list_elem_of_here. }
  destruct (IH Hdec Hk' h2 (limit - tsize p.1 - tsize p.2) rest m1 (ps0 ++ [p]) Hwf2 ltac:(lia) Hm1)
    as (m' & h' & -> & Hps' & Hm' & Hel' & Hext' & Hwf').
  - rewrite Hv1. apply Forall2_app; [done|]. constructor; [by split|constructor].
  - apply Forall_app. split; [done|]. by constructor.
  - apply elems_forall. rewrite Hv1. apply Forall_app. split.
    + apply elems_forall. eapply items_ok_le; [by apply h_extends_le|done].
    + constructor; [|constructor]. split; [|done]. apply (item_ok_le h1); [by apply h_extends_le|done].
  - by rewrite <- app_assoc, fmap_app.
  - exists m', h'. rewrite <- app_assoc in Hps'. split; [do 3 f_equal; lia|]. do 3 (split; [done|]). split; [by etransitivity|done].
Qed.

(** What the byte of the type leads to. *)
Lemma ReadB_type t rest : 0 <= t < 256 → ReadB (mkReader (z2b t :: rest) None) = (t, mkReader rest None).
Proof. intros Ht. by rewrite ReadB_app, b2z_z2b_small. Qed.

Lemma ToBytes_max n : - 2 ^ 255 <= n < 2 ^ 255 → (length (ToBytes n) <= 32)%nat.
Proof.
  intros Hn. destruct (ToPreallocatedBytes_spec n) as (Hl & _). rewrite Hl. by apply enc_len_le.
Qed.

(** Lengths of at most 252 are one byte. *)
Lemma PutVarUint_byte n : 0 <= n < 253 → PutVarUint n = [z2b n].
Proof. intros Hn. unfold PutVarUint. by rewrite bool_decide_eq_true_2 by lia. Qed.

Ltac type_tests T :=
  repeat first [rewrite (bool_decide_eq_true_2 (T = _)) by done
               |rewrite (bool_decide_eq_false_2 (T = _)) by done
               |rewrite (bool_decide_eq_true_2 (T = _ ∨ T = _)) by auto
               |rewrite (bool_decide_eq_false_2 (T = _ ∨ T = _)) by (by intros [?|?])].

Ltac type_byte T :=
  cbn [enc app]; rewrite (ReadB_type T) by (unfold T; lia); cbn [r_err ds_limit];
  rewrite bool_decide_eq_false_2 by lia; cbn [ds_heap ds_limit ds_reader]; type_tests T.

(** A node over elements that have been made. *)
Lemma seq_made h v ts k l h' :
  k ≠ KMp → heap_wf h → Forall2 (unf h) v ts → Forall (item_ok h) v → h_alloc h (CSeq v 0 false) = (l, h') →
  ∀ h0, h_extends h0 h → made h0 h' (if bool_decide (node_type k = ArrayT) then Array l else Struct l) (TNode k ts).
Proof.
  intros Hk Hwf Hu Hok Ha h0 Hext. apply alloc_made in Ha as (Hwf' & Hext' & Hl); [|done|by split].
  assert (Forall2 (unf h') v ts) as Hu' by (eapply Forall2_impl; [done|]; intros; by eapply unf_extends).
  destruct k; [rewrite bool_decide_eq_true_2 by done|rewrite bool_decide_eq_false_2 by done|done];
    (split; [|by cbn; unfold loc_ok; rewrite Hl|by etransitivity|done]);
    (apply (unf_node _ _ _ v); [cbn; by rewrite Hl|done]).
Qed.

Lemma map_made h m ps l h' :
  heap_wf h → Forall2 (pair_unf h) (m_value m) ps → Forall (item_ok h) (elems m) → map_wf m →
  h_alloc h (CMap m 0 false) = (l, h') →
  ∀ h0, h_extends h0 h → made h0 h' (Map l) (TNode KMp (flat ps)).
Proof.
  intros Hwf Hu Hok Hm Ha h0 Hext. apply alloc_made in Ha as (Hwf' & Hext' & Hl); [|done|by split].
  split; [|by cbn; unfold loc_ok; rewrite Hl|by etransitivity|done].
  apply (unf_node _ _ _ (elems m)); [cbn; by rewrite Hl|]. apply pair_unf_elems. by eapply pair_unf_extends.
Qed.

(** A tree is read from what is written of it. *)
Lemma decodeBinary_enc t : twf t → ∀ fuel L, L < 2 ^ 62 → (Z.to_nat L < fuel)%nat → decodes (decodeBinary fuel) L t.
Proof.
  induction t as [|b|n|b|b|k l IH] using tree_ind'; intros Hw fuel L HL Hf h limit rest Hwf Hlim;
    (destruct fuel as [|fuel]; [lia|]); cbn [decodeBinary ds_reader ds_heap ds_limit]; cbn [tsize] in Hlim.
  - type_byte AnyT. eexists _, _. split; [done|]. split; [by constructor|done|done|done].
  - type_byte BooleanT. unfold ReadBool. rewrite ReadB_app. eexists _, _. split; [done|].
    split; [|done..]. by destruct b; constructor.
  - type_byte IntegerT. inversion_clear Hw as [| |? Hn| | | |]. pose proof (ToBytes_max _ Hn).
    change (z2b (Z.of_nat (length (ToBytes n))) :: ToBytes n ++ rest)
      with ([z2b (Z.of_nat (length (ToBytes n)))] ++ ToBytes n ++ rest).
    rewrite <- PutVarUint_byte, ReadVarBytes_app by (unfold MaxBytesLen; lia).
    cbn [FromBytes mbind res_bind]. rewrite FromBytes_nonnil_spec, ToBytes_signed, NewBigInteger_range by done.
    eexists _, _. split; [done|]. split; [by constructor|done..].
  - type_byte ByteArrayT. inversion_clear Hw. unfold var_bytes. rewrite <- app_assoc, ReadVarBytes_app by done.
    eexists _, _. split; [done|]. split; [by constructor|done..].
  - type_byte BufferT. inversion_clear Hw. unfold var_bytes. rewrite <- app_assoc, ReadVarBytes_app by done.
    cbn [default from_option].
    destruct (h_alloc h _) as [l h'] eqn:Ha. apply alloc_made in Ha as (Hwf' & Hext & Hl); [|done|by repeat constructor].
    eexists _, _. split; [done|]. split; [by constructor; cbn; rewrite Hl|by cbn; unfold loc_ok; rewrite Hl|done..].
  - change (1 + tsizes l <= limit <= L) in Hlim. pose proof (tsizes_nonneg l). pose proof (tsizes_length l).
    assert (Forall (decodes (decodeBinary fuel) (L - 1)) l) as Hdec.
    { assert (Forall twf l) as Hl by by inversion Hw.
      rewrite Forall_forall in IH, Hl |- *. intros t Ht. apply IH; [done|by apply Hl|lia|lia]. }
    cbn [enc]. fold (encs l). rewrite <- !app_comm_cons, <- app_assoc.
    rewrite (ReadB_type (node_type k)) by (by destruct k). cbn [r_err ds_limit].
    rewrite bool_decide_eq_false_2 by lia. cbn [ds_heap ds_limit ds_reader].
    inversion Hw as [| | | | |k' l' Hk Hl|ps Hkeys Hnd Hl]; subst.
    + assert (node_count k (length l) = length l) as -> by by destruct k.
      assert (∀ A (a b c d e : A), (if bool_decide (node_type k = ByteArrayT ∨ node_type k = BufferT) then a else
        if bool_decide (node_type k = BooleanT) then b else if bool_decide (node_type k = IntegerT) then c else
        if bool_decide (node_type k = ArrayT ∨ node_type k = StructT) then d else e) = d) as Hty by (by intros; destruct k).
      rewrite Hty, ReadVarUint_app, wrap_s_small by lia. cbn [ds_limit].
      rewrite !bool_decide_eq_false_2 by lia. rewrite Nat2Z.id.
      destruct (dec_items_ok _ _ _ Hdec h (limit - 1) rest Hwf ltac:(lia)) as (v & h1 & -> & Hu & Hok & Hext & Hwf1).
      cbn [mbind res_bind]. rewrite mapM_id_Some. cbn [ds_heap ds_limit ds_reader].
      destruct (h_alloc h1 _) as [lo h'] eqn:Ha.
      eexists _, h'. split; [rewrite tsize_node; do 3 f_equal; lia|]. by apply (seq_made h1 v l k lo).
    + cbn [node_type]. type_tests MapT. rewrite length_flat. cbn [node_count]. rewrite Nat.div2_double.
      rewrite length_flat in *. rewrite ReadVarUint_app, wrap_s_small by lia. cbn [ds_limit].
      rewrite bool_decide_eq_false_2; [|rewrite Z.quot_div_nonneg by lia; pose proof (Z.div_le_lower_bound (limit - 1) 2 (Z.of_nat (length ps))); lia].
      rewrite Nat2Z.id.
      destruct (dec_pairs_ok _ _ _ Hdec Hkeys h (limit - 1) rest NewMap [] Hwf ltac:(lia) NewMap_wf) as (m & h1 & -> & Hu & Hm & Hok & Hext & Hwf1);
        [constructor..|done|].
      cbn [mbind res_bind ds_heap ds_limit ds_reader]. destruct (h_alloc h1 _) as [lo h'] eqn:Ha.
      eexists _, h'. split; [rewrite tsize_node; do 3 f_equal; lia|]. by apply (map_made h1 m ps lo).
Qed.

Lemma flat_unf h (l : list (item * item)) ts :
  Forall2 (unf h) (flat l) ts → ∃ ps, ts = flat ps ∧ Forall2 (pair_unf h) l ps.
Proof.
  revert ts. induction l as [|e l IH]; intros ts Hf.
  { inversion Hf; subst. exists []. split; [done|constructor]. }
  change (flat (e :: l)) with (e.1 :: e.2 :: flat l) in Hf.
  inversion Hf as [|? t1 ? ts1 H1 Hf1]; subst. inversion Hf1 as [|? t2 ? ts2 H2 Hf2]; subst.
  destruct (IH ts2 Hf2) as (ps & -> & Hps). exists ((t1, t2) :: ps). split; [done|]. constructor; [by split|done].
Qed.

Lemma encs_elem t ts : t ∈ ts → (length (enc t) <= length (encs ts))%nat.
Proof.
  induction 1 as [t ts|t u ts _ IH]; rewrite encs_cons, length_app; lia.
Qed.

(** The trees of items are trees that can be read back. *)
Lemma unf_twf h t : ∀ i, heap_wf h → item_ok h i → unf h i t → Z.of_nat (length (enc t)) <= MaxSize → twf t.
Proof.
  induction t as [|b|n|b|b|k ts IH] using tree_ind'; intros i Hwf Hok Hu Hlen;
    inversion Hu as [? ? Hl|? ? v ? Hn Hf]; subst; try by apply leaf_view_not_node in Hl.
  all: try by (constructor; cbn [enc] in Hlen; unfold var_bytes in Hlen; cbn [length] in Hlen; rewrite ?length_app in Hlen; lia).
  - constructor. destruct i; cbn in Hl; try done; [|by destruct (h_get h l) as [[]|]]. by injection Hl as <-.
  - assert (Forall twf ts) as Hts.
    { pose proof (node_view_ok _ _ _ _ Hwf Hn) as Hv. rewrite Forall_forall in IH |- *. intros t Ht.
      apply list_elem_of_lookup_1 in Ht as [m Hm]. destruct (Forall2_lookup_r _ _ _ _ _ Hf Hm) as (j & Hj & Huj).
      apply (IH t (list_elem_of_lookup_2 _ _ _ Hm) j); [done|by apply (Forall_lookup_1 _ _ _ _ Hv Hj)|done|].
      pose proof (encs_elem t ts (list_elem_of_lookup_2 _ _ _ Hm)). cbn [enc length] in Hlen. fold (encs ts) in Hlen.
      rewrite length_app in Hlen. lia. }
    destruct k; [by constructor..|].
    destruct i; cbn in Hn; try done; destruct (h_get h l) as [[|?|m]|] eqn:Hg; try done; injection Hn as <-.
    destruct (Hwf _ _ Hg) as [_ [_ Hm]]. destruct (flat_unf h (m_value m) ts Hf) as (ps & -> & Hps).
    assert (∀ n e p, m_value m !! n = Some e → ps !! n = Some p → tkey p.1 ∧ key_item p.1 = e.1) as Hkey.
    { intros n e p He Hp. destruct (Forall2_lookup_lr _ _ _ _ _ _ Hps He Hp) as [Hp1 _].
      eapply key_ok_unf; [|done]. by apply (Forall_lookup_1 _ _ _ _ (proj1 Hm) He). }
    constructor; [| |done].
    + apply Forall_lookup_2. intros n p Hp. destruct (Forall2_lookup_r _ _ _ _ _ Hps Hp) as (e & He & _). by destruct (Hkey n e p).
    + apply NoDup_alt. intros a b t Ha Hb. rewrite list_lookup_fmap in Ha, Hb.
      destruct (ps !! a) as [p|] eqn:Hpa; [|done]. destruct (ps !! b) as [q|] eqn:Hqb; [|done]. cbn in Ha, Hb.
      destruct (Forall2_lookup_r _ _ _ _ _ Hps Hpa) as (e & He & _). destruct (Forall2_lookup_r _ _ _ _ _ Hps Hqb) as (f & Hfb & _).
      apply (map_wf_keys_inj m a b e f Hm He Hfb). destruct (Hkey a e p He Hpa) as [_ <-], (Hkey b f q Hfb Hqb) as [_ <-]. congruence.
Qed.

(** *** What is read is well formed *)

(** What any step of the deserializer does: an item that it makes is well
    formed and counted, and without an error there is one. *)
Record delivered (d d' : deser) (i : option item) : Prop := {
  dl_wf : heap_wf (ds_heap d');
  dl_ext : h_extends (ds_heap d) (ds_heap d');
  dl_limit : ds_limit d' <= ds_limit d;
  dl_item : ∀ j, i = Some j → item_ok (ds_heap d') j
              ∧ ∃ t, unf (ds_heap d') j t ∧ tsize t <= ds_limit d - ds_limit d';
  dl_err : r_err (ds_reader d') = None → r_err (ds_reader d) = None ∧ is_Some i ∧ 0 <= ds_limit d';
}.

Definition delivers (f : deser → res ioerr (option item * deser)) : Prop :=
  ∀ d i d', heap_wf (ds_heap d) → f d = Ok (i, d') → delivered d d' i.

Lemma dec_items_delivers f n : delivers f → ∀ d arr d', heap_wf (ds_heap d) → dec_items f n d = Ok (arr, d') →
  heap_wf (ds_heap d') ∧ h_extends (ds_heap d) (ds_heap d') ∧ ds_limit d' <= ds_limit d
  ∧ (∀ v, mapM id arr = Some v → Forall (item_ok (ds_heap d')) v
      ∧ ∃ ts, Forall2 (unf (ds_heap d')) v ts ∧ tsizes ts <= ds_limit d - ds_limit d')
  ∧ (r_err (ds_reader d') = None → r_err (ds_reader d) = None ∧ is_Some (mapM id arr)
      ∧ (0 <= ds_limit d → 0 <= ds_limit d')).
Proof.
  intros Hf. induction n as [|n IH]; intros d arr d' Hwf; cbn [dec_items].
  { intros [= <- <-]. do 2 (split; [done|]). split; [lia|]. split; [|by eauto].
    intros v [= <-]. split; [constructor|]. exists []. split; [constructor|cbn; lia]. }
  destruct (f d) as [[i d1]| |] eqn:E; cbn [mbind res_bind]; [|done..].
  destruct (Hf _ _ _ Hwf E) as [Hwf1 Hext1 Hlim1 Hit1 Herr1].
  destruct (dec_items f n d1) as [[l d2]| |] eqn:E2; cbn [mbind res_bind]; [|done..]. intros [= <- <-].
  destruct (IH _ _ _ Hwf1 E2) as (Hwf2 & Hext2 & Hlim2 & Hit2 & Herr2).
  split; [done|]. split; [by etransitivity|]. split; [lia|]. split.
  - intros v. cbn. destruct i as [j|]; cbn; [|done]. destruct (mapM id l) as [w|] eqn:Ew; cbn; [|done]. intros [= <-].
    destruct (Hit1 j eq_refl) as (Hok & t & Hu & Hsz). destruct (Hit2 w eq_refl) as (Hoks & ts & Hus & Hszs).
    split; [constructor; [by apply (item_ok_le (ds_heap d1)); [apply h_extends_le|]|done]|].
    exists (t :: ts). split; [constructor; [by eapply unf_extends|done]|]. rewrite tsizes_cons. lia.
  - intros Hn. destruct (Herr2 Hn) as (Hn1 & [w Hw] & Hp). destruct (Herr1 Hn1) as (Hn0 & [j ->] & Hp1). split; [done|].
    split; [|by intros _; apply Hp]. cbn. rewrite Hw. by eexists.
Qed.

Lemma tsizes_app l l' : tsizes (l ++ l') = tsizes l + tsizes l'.
Proof. induction l as [|t l IH]; cbn [app]; [cbn; lia|]. rewrite !tsizes_cons, IH. lia. Qed.

(** One more pair, or another value for a key. *)
Lemma map_add_tree h m k v ps kt vt :
  map_wf m → key_ok k → Forall2 (pair_unf h) (m_value m) ps → unf h k kt → unf h v vt →
  Forall (item_ok h) (elems m) → item_ok h k → item_ok h v →
  ∃ o m' ps', map_add h m k v = Ok (o, m') ∧ map_wf m' ∧ Forall2 (pair_unf h) (m_value m') ps'
    ∧ Forall (item_ok h) (elems m') ∧ tsizes (flat ps') <= tsizes (flat ps) + tsize kt + tsize vt.
Proof.
  intros Hm Hk Hps Hku Hvu Hel Hkok Hvok. destruct (map_add_spec h m k v Hm Hk) as (m' & Hadd & Hm' & Hv).
  pose proof (tsize_pos kt). pose proof (tsize_pos vt). apply elems_forall in Hel.
  unfold alist_set in Hv. destruct (alist_index (m_value m) k) as [n|] eqn:E.
  - apply (alist_index_Some m k n Hm) in E as (e & He & Hek).
    destruct (Forall2_lookup_l _ _ _ _ _ Hps He) as (p & Hp & [Hp1 Hp2]).
    exists (alist_get (m_value m) k), m', (<[n := (p.1, vt)]> ps). split; [done|]. split; [done|].
    rewrite elems_forall, Hv. split; [|split].
    + apply Forall2_insert; [done|]. split; [by rewrite <- Hek|done].
    + apply Forall_insert; [done|]. split; done.
    + rewrite <- (take_drop_middle ps n p Hp) at 2. rewrite (insert_take_drop ps n) by (by eapply lookup_lt_Some).
      unfold flat. rewrite !bind_app, !bind_cons, !tsizes_app. cbn [fst snd]. cbn. pose proof (tsize_pos p.2). lia.
  - exists (alist_get (m_value m) k), m', (ps ++ [(kt, vt)]). split; [done|]. split; [done|].
    rewrite elems_forall, Hv. split; [|split].
    + apply Forall2_app; [done|]. constructor; [by split|constructor].
    + apply Forall_app. split; [done|]. constructor; [done|constructor].
    + unfold flat. rewrite bind_app, tsizes_app. cbn. lia.
Qed.

Lemma dec_pairs_delivers f n : delivers f → ∀ m ps d m' d',
  heap_wf (ds_heap d) → map_wf m → Forall2 (pair_unf (ds_heap d)) (m_value m) ps → Forall (item_ok (ds_heap d)) (elems m) →
  dec_pairs f n m d = Ok (m', d') →
  heap_wf (ds_heap d') ∧ h_extends (ds_heap d) (ds_heap d') ∧ ds_limit d' <= ds_limit d
  ∧ map_wf m' ∧ Forall (item_ok (ds_heap d')) (elems m')
  ∧ (∃ ps', Forall2 (pair_unf (ds_heap d')) (m_value m') ps'
      ∧ tsizes (flat ps') <= tsizes (flat ps) + (ds_limit d - ds_limit d'))
  ∧ (r_err (ds_reader d') = None → r_err (ds_reader d) = None ∧ (0 <= ds_limit d → 0 <= ds_limit d')).
Proof.
  intros Hf. induction n as [|n IH]; intros m ps d m' d' Hwf Hm Hps Hel; cbn [dec_pairs].
  { intros [= <- <-]. do 2 (split; [done|]). split; [lia|]. do 2 (split; [done|]). split; [|done]. exists ps. split; [done|lia]. }
  destruct (f d) as [[k d1]| |] eqn:E1; cbn [mbind res_bind]; [|done..].
  destruct (Hf _ _ _ Hwf E1) as [Hwf1 Hext1 Hlim1 Hit1 Herr1].
  destruct (f d1) as [[v d2]| |] eqn:E2; cbn [mbind res_bind]; [|done..].
  destruct (Hf _ _ _ Hwf1 E2) as [Hwf2 Hext2 Hlim2 Hit2 Herr2].
  assert (h_extends (ds_heap d) (ds_heap d2)) as Hext by by etransitivity.
  pose proof (pair_unf_extends _ _ _ _ Hext Hps) as Hps2.
  pose proof (items_ok_le _ _ _ (h_extends_le _ _ Hext) Hel) as Hel2.
  destruct (r_err (ds_reader d2)) as [e|] eqn:Ee.
  { intros [= <- <-]. do 2 (split; [done|]). split; [lia|]. do 2 (split; [done|]).
    split; [|by rewrite Ee]. exists ps. split; [done|lia]. }
  destruct (Herr2 eq_refl) as (Hn1 & [j2 ->] & Hp2). destruct (Herr1 Hn1) as (Hn0 & [j1 ->] & _).
  destruct (IsValidMapKey j1) as [[]| |] eqn:Ek; [|done..].
  destruct (Hit1 j1 eq_refl) as (Hok1 & t1 & Hu1 & Hs1). destruct (Hit2 j2 eq_refl) as (Hok2 & t2 & Hu2 & Hs2).
  destruct (map_add_tree (ds_heap d2) m j1 j2 ps t1 t2) as (o & m1 & ps1 & -> & Hm1 & Hps1 & Hel1 & Hsz); try done.
  { exact (unf_extends _ _ _ _ Hext2 Hu1). }
  { exact (item_ok_le _ _ _ (h_extends_le _ _ Hext2) Hok1). }
  intros Hd. destruct (IH _ _ _ _ _ Hwf2 Hm1 Hps1 Hel1 Hd) as (Hwf' & Hext' & Hlim' & Hm' & Hel' & (ps' & Hps' & Hsz') & Herr').
  split; [done|]. split; [by etransitivity|]. split; [lia|]. do 2 (split; [done|]). split.
  { exists ps'. split; [done|lia]. }
  intros Hn. split; [done|]. intros _. by apply Herr'.
Qed.

Lemma leaf_delivered d limit h r j t :
  heap_wf h → h_extends (ds_heap d) h → limit + 1 = ds_limit d → 0 <= limit → item_ok h j → unf h j t → tsize t = 1 →
  (r_err r = None → r_err (ds_reader d) = None) →
  delivered d (mkDes h limit r) (Some j).
Proof.
  intros Hwf Hext Hl H0 Hok Hu Ht Hr. split; cbn; [done|done|lia| |].
  - intros ? [= <-]. split; [done|]. exists t. split; [done|lia].
  - intros Hn. split; [by apply Hr|]. split; [by eexists|done].
Qed.

Lemma none_delivered d limit r :
  heap_wf (ds_heap d) → limit <= ds_limit d → is_Some (r_err r) → delivered d (mkDes (ds_heap d) limit r) None.
Proof. intros Hwf Hl [e He]. split; cbn; try done. by rewrite He. Qed.

Lemma ReadVarUint_err r v r' : ReadVarUint r = (v, r') → r_err r' = None → r_err r = None.
Proof. unfold ReadVarUint. destruct (r_err r) eqn:E; [|done]. intros [= <- <-]. by rewrite E. Qed.

Lemma ReadVarBytes_err ms r v r' : ReadVarBytes ms r = (v, r') → r_err r' = None → r_err r = None.
Proof.
  unfold ReadVarBytes. destruct (ReadVarUint r) as [n r1] eqn:E. case_bool_decide; [by intros [= <- <-]|].
  destruct (ReadBytes _ r1) as [b r2] eqn:E2. intros [= <- <-] Hn. apply (ReadVarUint_err _ _ _ E).
  destruct (r_err r1) eqn:E3; [|done]. rewrite ReadBytes_err in E2 by by rewrite E3. injection E2 as <- <-. congruence.
Qed.

Lemma ReadB_err r v r' : ReadB r = (v, r') → r_err r' = None → r_err r = None.
Proof.
  unfold ReadB. destruct (r_err r) eqn:E; [|done]. rewrite ReadBytes_err by by rewrite E. rewrite E.
  intros [= <- <-]. by rewrite E.
Qed.

Lemma ReadVarBytes_length r b r' : ReadVarBytes MaxBytesLen r = (Some b, r') → (length b <= 32)%nat.
Proof.
  unfold ReadVarBytes. destruct (ReadVarUint r) as [n r1]. case_bool_decide as Hn; [done|].
  pose proof (length_ReadBytes (Z.to_nat n) r1) as Hl. destruct (ReadBytes _ r1) as [c r2]. intros [= <- <-].
  cbn in Hl. change (u64 MaxBytesLen) with 32 in Hn. lia.
Qed.

Ltac failed := intros [= <- <-]; unfold d_fail; cbn [ds_heap ds_limit ds_reader]; apply none_delivered; [done|lia|by eexists].

Lemma decodeBinary_delivers fuel : delivers (decodeBinary fuel).
Proof.
  induction fuel as [|fuel IH]; intros d i d' Hwf; cbn [decodeBinary]; [done|].
  destruct (ReadB (ds_reader d)) as [t r] eqn:Er. pose proof (ReadB_err _ _ _ Er) as Hr.
  destruct (r_err r) eqn:Ee; [intros [= <- <-]; apply none_delivered; [done|lia|by rewrite Ee]|].
  specialize (Hr eq_refl). cbn [ds_heap ds_limit ds_reader].
  case_bool_decide; [failed|].
  case_bool_decide.
  { destruct (ReadVarBytes MaxSize r) as [data r2]. case_bool_decide.
    - intros [= <- <-]. eapply leaf_delivered; [done|done|lia|lia|done|by constructor|done|done].
    - destruct (h_alloc _ _) as [l h'] eqn:Ha. intros [= <- <-].
      apply alloc_made in Ha as (Hwf' & Hext & Hl); [|done|by repeat constructor].
      apply (leaf_delivered _ _ _ _ _ (TBuf (default [] data))); [done|done|lia|lia|by cbn; unfold loc_ok; rewrite Hl| |done|done].
      constructor. cbn. by rewrite Hl. }
  case_bool_decide.
  { destruct (ReadBool r) as [b r2]. intros [= <- <-]. eapply leaf_delivered; [done|done|lia|lia|done|by constructor|done|done]. }
  case_bool_decide.
  { destruct (ReadVarBytes MaxBytesLen r) as [data r2] eqn:E2. destruct data as [b|]; [|done].
    cbn [FromBytes mbind res_bind]. destruct (NewBigInteger _) as [j| |] eqn:En; [|done..]. intros [= <- <-].
    apply NewBigInteger_ok in En as [-> Hn]. eapply leaf_delivered; [done|done|lia|lia|done|by constructor|done|done]. }
  destruct (ReadVarUint r) as [n r2] eqn:E2.
  case_bool_decide.
  { case_bool_decide; [failed|]. case_bool_decide; [done|].
    destruct (dec_items _ _ _) as [[arr d2]| |] eqn:Ed; cbn [mbind res_bind]; [|done..].
    destruct (dec_items_delivers _ _ IH (mkDes _ _ _) _ _ Hwf Ed) as (Hwf2 & Hext2 & Hlim2 & Hit2 & Herr2). cbn in Hext2, Hlim2, Hit2.
    destruct (mapM id arr) as [v|] eqn:Ev.
    - destruct (h_alloc _ _) as [l h'] eqn:Ha. intros [= <- <-]. destruct (Hit2 v eq_refl) as (Hok & ts & Hus & Hsz).
      destruct (seq_made _ v ts (if bool_decide (t = ArrayT) then KArr else KStr) l h' ltac:(by destruct (bool_decide _)) Hwf2 Hus Hok Ha _ Hext2) as [Hu Hok' Hext' Hwf'].
      assert ((if bool_decide (node_type (if bool_decide (t = ArrayT) then KArr else KStr) = ArrayT) then Array l else Struct l)
        = (if bool_decide (t = ArrayT) then Array l else Struct l)) as Heq by by destruct (bool_decide (t = ArrayT)).
      rewrite Heq in *. split; cbn; [done|done|lia| |intros Hn; split; [done|]; split; [by eexists|apply Herr2; [done|cbn; lia]]].
      intros ? [= <-]. split; [done|]. eexists. split; [done|]. rewrite tsize_node. lia.
    - intros [= <- <-]. split; [done|done|lia|done|]. intros Hn. destruct (Herr2 Hn) as (_ & [? ?] & _). done. }
  case_bool_decide.
  { case_bool_decide; [failed|].
    destruct (dec_pairs _ _ _ _) as [[m d2]| |] eqn:Ed; cbn [mbind res_bind]; [|done..].
    destruct (dec_pairs_delivers _ _ IH _ [] (mkDes _ _ _) _ _ Hwf NewMap_wf ltac:(constructor) ltac:(constructor) Ed)
      as (Hwf2 & Hext2 & Hlim2 & Hm2 & Hel2 & (ps & Hps & Hsz) & Herr2). cbn in Hext2, Hlim2, Hsz.
    destruct (h_alloc _ _) as [l h'] eqn:Ha. intros [= <- <-].
    destruct (map_made _ m ps l h' Hwf2 Hps Hel2 Hm2 Ha _ Hext2) as [Hu Hok' Hext' Hwf'].
    split; cbn; [done|done|lia| |intros Hn; split; [done|]; split; [by eexists|apply Herr2; [done|cbn; lia]]].
    intros ? [= <-]. split; [done|]. eexists. split; [done|]. rewrite tsize_node. lia. }
  case_bool_decide; [|failed].
  intros [= <- <-]. eapply leaf_delivered; [done|done|lia|lia|done|by constructor|done|done].
Qed.

(** C35: what is written of an item, whatever follows it, is read as an item of
    the same tree in new cells: sharing is lost, nothing else. *)
Theorem Serialize_roundtrip (h h2 : Heap) (i : item) (b rest : bytes) :
  heap_wf h → item_ok h i → heap_wf h2 → Serialize h (Some i) = Ok b →
  ∃ t i' h', unf h i t ∧ Deserialize h2 (b ++ rest) = Ok (i', h') ∧ unf h' i' t
    ∧ item_ok h' i' ∧ heap_wf h' ∧ h_extends h2 h'.
Proof.
  intros Hwf Hok Hwf2 Hs. apply SerializeLimited_Ok in Hs as (t & Hu & -> & Hsz & Hlen); [|done].
  pose proof (unf_twf h t i Hwf Hok Hu Hlen) as Htwf.
  destruct (decodeBinary_enc t Htwf (ser_fuel MaxDeserialized) MaxDeserialized ltac:(done) ltac:(unfold ser_fuel; lia)
    h2 MaxDeserialized rest Hwf2 ltac:(done)) as (i' & h' & Hd & [Hu' Hok' Hext Hwf']).
  exists t, i', h'. split; [done|]. split; [|done]. unfold Deserialize, DeserializeLimited.
  rewrite bool_decide_eq_true_2 by done. unfold DecodeBinary_item, NewBinReaderFromBuf. by rewrite Hd.
Qed.

(** C36: whatever the bytes, what is read is a well-formed item of the machine
    without cycles, of at most [limit] items, in new cells of a well-formed
    heap. *)
Theorem Deserialize_wf (h : Heap) (data : bytes) (limit : Z) (i : item) (h' : Heap) :
  heap_wf h → 0 < limit → DeserializeLimited h data limit = Ok (i, h') →
  heap_wf h' ∧ h_extends h h' ∧ item_ok h' i ∧ ∃ t, unf h' i t ∧ tsize t <= limit.
Proof.
  intros Hwf Hlim. unfold DeserializeLimited, DecodeBinary_item. rewrite bool_decide_eq_true_2 by done.
  destruct (decodeBinary _ _) as [[j d]| |] eqn:E; cbn [mbind res_bind]; [|done..].
  destruct (decodeBinary_delivers _ (mkDes _ _ _) _ _ Hwf E) as [Hwf' Hext Hl Hit Herr]. cbn in Hext, Hl, Hit.
  destruct (r_err (ds_reader d)) eqn:Ee; [done|]. destruct j as [j|]; [|done]. intros [= <- <-].
  destruct (Hit j eq_refl) as (Hok & t & Hu & Hsz). do 3 (split; [done|]). exists t. split; [done|].
  destruct (Herr eq_refl) as (_ & _ & ?). lia.
Qed.

(** *** The recursion ends *)

Definition lowers (f : deser → res ioerr (option item * deser)) : Prop :=
  ∀ d i d', f d = Ok (i, d') → ds_limit d' <= ds_limit d.

Lemma dec_items_lowers f n : lowers f → ∀ d l d', dec_items f n d = Ok (l, d') → ds_limit d' <= ds_limit d.
Proof.
  intros Hf. induction n as [|n IH]; intros d l d'; cbn [dec_items]; [by intros [= <- <-]|].
  destruct (f d) as [[i d1]| |] eqn:E; cbn [mbind res_bind]; [|done..].
  destruct (dec_items f n d1) as [[l1 d2]| |] eqn:E2; cbn [mbind res_bind]; [|done..]. intros [= <- <-].
  apply Hf in E. apply IH in E2. lia.
Qed.

Lemma dec_pairs_lowers f n : lowers f → ∀ m d m' d', dec_pairs f n m d = Ok (m', d') → ds_limit d' <= ds_limit d.
Proof.
  intros Hf. induction n as [|n IH]; intros m d m' d'; cbn [dec_pairs]; [by intros [= <- <-]|].
  destruct (f d) as [[k d1]| |] eqn:E; cbn [mbind res_bind]; [|done..].
  destruct (f d1) as [[v d2]| |] eqn:E2; cbn [mbind res_bind]; [|done..]. apply Hf in E, E2.
  destruct (r_err (ds_reader d2)); [intros [= <- <-]; lia|]. destruct k as [k|], v as [v|]; try done.
  destruct (IsValidMapKey k); try done. destruct (map_add _ _ _ _) as [[]| |]; try done. intros H%IH. lia.
Qed.

Lemma decodeBinary_lowers fuel : lowers (decodeBinary fuel).
Proof.
  induction fuel as [|fuel IH]; intros d i d'; cbn [decodeBinary]; [done|].
  destruct (ReadB _) as [t r]. destruct (r_err r); [by intros [= <- <-]|]. cbn [ds_heap ds_limit ds_reader].
  case_bool_decide; [intros [= <- <-]; cbn; lia|].
  case_bool_decide; [destruct (ReadVarBytes _ r); case_bool_decide; intros [= <- <-]; cbn; lia|].
  case_bool_decide; [destruct (ReadBool r); intros [= <- <-]; cbn; lia|].
  case_bool_decide.
  { destruct (ReadVarBytes _ r) as [b r2]. destruct (FromBytes b); cbn [mbind res_bind]; [|done..].
    destruct (NewBigInteger _); try done. intros [= <- <-]. cbn. lia. }
  destruct (ReadVarUint r) as [n r2]. case_bool_decide.
  { case_bool_decide; [intros [= <- <-]; cbn; lia|]. case_bool_decide; [done|].
    destruct (dec_items _ _ _) as [[l d1]| |] eqn:E; cbn [mbind res_bind]; [|done..].
    apply (dec_items_lowers _ _ IH) in E. cbn in E. destruct (mapM id l); intros [= <- <-]; cbn; lia. }
  case_bool_decide.
  { case_bool_decide; [intros [= <- <-]; cbn; lia|].
    destruct (dec_pairs _ _ _ _) as [[m d1]| |] eqn:E; cbn [mbind res_bind]; [|done..].
    apply (dec_pairs_lowers _ _ IH) in E. cbn in E. intros [= <- <-]; cbn; lia. }
  case_bool_decide; intros [= <- <-]; cbn; lia.
Qed.

Lemma dec_items_ext f g L n : lowers f → (∀ d, ds_limit d <= L → f d = g d) →
  ∀ d, ds_limit d <= L → dec_items f n d = dec_items g n d.
Proof.
  intros Hf He. induction n as [|n IH]; intros d Hd; cbn [dec_items]; [done|]. rewrite <- He by done.
  destruct (f d) as [[i d1]| |] eqn:E; cbn [mbind res_bind]; [|done..]. apply Hf in E. by rewrite IH by lia.
Qed.

Lemma dec_pairs_ext f g L n : lowers f → (∀ d, ds_limit d <= L → f d = g d) →
  ∀ m d, ds_limit d <= L → dec_pairs f n m d = dec_pairs g n m d.
Proof.
  intros Hf He. induction n as [|n IH]; intros m d Hd; cbn [dec_pairs]; [done|]. rewrite <- He by done.
  destruct (f d) as [[k d1]| |] eqn:E; cbn [mbind res_bind]; [|done..]. apply Hf in E. rewrite <- He by lia.
  destruct (f d1) as [[v d2]| |] eqn:E2; cbn [mbind res_bind]; [|done..]. apply Hf in E2.
  destruct (r_err (ds_reader d2)); [done|]. destruct k, v; try done. destruct (IsValidMapKey _); try done.
  destruct (map_add _ _ _ _) as [[o m']| |]; try done. apply IH. lia.
Qed.

(** The deserializer ends on every input: more fuel than the limit changes
    nothing. *)
Theorem decodeBinary_ends n : ∀ m d,
  (Z.to_nat (ds_limit d) < n)%nat → (Z.to_nat (ds_limit d) < m)%nat → decodeBinary n d = decodeBinary m d.
Proof.
  induction n as [|n IH]; intros m d Hn Hm; [lia|]. destruct m as [|m]; [lia|]. cbn [decodeBinary].
  destruct (ReadB _) as [t r]. destruct (r_err r); [done|]. cbn [ds_heap ds_limit ds_reader].
  case_bool_decide as Hl; [done|].
  assert (∀ d', ds_limit d' <= ds_limit d - 1 → decodeBinary n d' = decodeBinary m d') as He.
  { intros d' Hd'. apply IH; lia. }
  case_bool_decide; [done|]. case_bool_decide; [done|]. case_bool_decide; [done|].
  destruct (ReadVarUint r) as [c r2].
  case_bool_decide.
  - do 2 (case_bool_decide; [done|]). by rewrite (dec_items_ext _ _ _ _ (decodeBinary_lowers n) He) by done.
  - case_bool_decide; [|done]. case_bool_decide; [done|].
    by rewrite (dec_pairs_ext _ _ _ _ (decodeBinary_lowers n) He) by done.
Qed.

(** Malformed bytes are not always an error.  An array of a negative number
    of elements, an integer of more than 32 bytes and a map with a compound key
    panic, and a map of a negative number of elements is an empty map. *)
Theorem Deserialize_malformed :
  Deserialize emptyHeap (z2b ArrayT :: replicate 9 xff) = Panic
  ∧ Deserialize emptyHeap (z2b IntegerT :: x21 :: replicate 33 x00) = Panic
  ∧ Deserialize emptyHeap [z2b MapT; x01; z2b ArrayT; x00; z2b AnyT] = Panic
  ∧ Deserialize emptyHeap (z2b MapT :: replicate 9 xff) = Ok (Map 1, mkHeap {[1%positive := CMap NewMap 0 false]} 2).
Proof. by vm_compute. Qed.

(** ** Examples *)

Lemma Serialize_spec_witness :
  heap_wf w_heap
  ∧ match SerializeLimited w_heap (Some (Struct 1)) 8 with
    | Ok b => ∃ t, unf w_heap (Struct 1) t ∧ b = enc t ∧ tsize t <= 8 ∧ Z.of_nat (length b) <= MaxSize
    | Err _ => ¬ ∃ t, unf w_heap (Struct 1) t ∧ tsize t <= 8 ∧ Z.of_nat (length (enc t)) <= MaxSize
    | Panic => False
    end
  ∧ is_ok (SerializeLimited w_heap (Some (Struct 1)) 7) = true
  ∧ is_ok (SerializeLimited w_heap (Some (Struct 1)) 6) = false.
Proof.
  split; [exact w_heap_wf|]. split; [|by vm_compute].
  apply (Serialize_spec w_heap (Struct 1) 8 w_heap_wf); [by vm_compute|lia].
Defined.

Definition w_bytes : bytes := match Serialize w_heap (Some (Struct 1)) with Ok b => b | _ => [] end.

Lemma Serialize_roundtrip_witness :
  Serialize w_heap (Some (Struct 1)) = Ok w_bytes
  ∧ ∃ t i' h', unf w_heap (Struct 1) t ∧ Deserialize w_heap (w_bytes ++ [x01]) = Ok (i', h') ∧ unf h' i' t
      ∧ item_ok h' i' ∧ heap_wf h' ∧ h_extends w_heap h'.
Proof.
  split; [by vm_compute|].
  apply (Serialize_roundtrip w_heap w_heap (Struct 1) w_bytes [x01]); [exact w_heap_wf|by vm_compute|exact w_heap_wf|by vm_compute].
Defined.

Lemma Deserialize_wf_witness :
  let h' := mkHeap {[1%positive := CSeq [Null; Bool true] 0 false]} 2 in
  heap_wf emptyHeap
  ∧ DeserializeLimited emptyHeap [z2b ArrayT; x02; z2b AnyT; z2b BooleanT; x05] 3 = Ok (Array 1, h')
  ∧ heap_wf h' ∧ h_extends emptyHeap h' ∧ item_ok h' (Array 1) ∧ ∃ t, unf h' (Array 1) t ∧ tsize t <= 3.
Proof.
  split; [done|]. split; [by vm_compute|].
  apply (Deserialize_wf emptyHeap [z2b ArrayT; x02; z2b AnyT; z2b BooleanT; x05] 3 (Array 1)); [done|lia|by vm_compute].
Defined.

Lemma decodeBinary_ends_witness :
  let d := mkDes emptyHeap 2 (NewBinReaderFromBuf [z2b ArrayT; x01; z2b AnyT]) in
  (Z.to_nat (ds_limit d) < 3)%nat ∧ decodeBinary 3 d = decodeBinary 100 d.
Proof. split; [cbn; lia|]. apply (decodeBinary_ends 3 100); cbn; lia. Defined.
