(* ===== verification/RefCount.v ===== *)
(** * RefCount: the reference counter of the virtual machine

    Models [pkg/vm/ref_counter.go] over the cells of [StackItem.v]: [rc_Add] and
    [rc_Remove] act on a heap and the counter.  [RCI] is what the counter
    means: the count of every compound item is the number of references to it
    from the given roots and from referenced compound items, and the counter is
    the number of all these references.  Both operations are proved to keep it
    and to terminate on cyclic structures too. *)

From S2P Require Import Prelude Bigint StackItem.

Definition cell_rc (c : cell) : option Z :=
  match c with CBuffer _ => None | CSeq _ rc _ | CMap _ rc _ => Some rc end.

Definition set_rc (c : cell) (rc : Z) : cell :=
  match c with
  | CBuffer b => CBuffer b
  | CSeq v _ ro => CSeq v rc ro
  | CMap m _ ro => CMap m rc ro
  end.

(** The compound item behind an item. *)
Definition it_loc (i : item) : option loc :=
  match i with Array l | Struct l | Map l => Some l | _ => None end.

Definition IsReferenced (c : cell) : bool :=
  match cell_rc c with Some rc => negb (bool_decide (rc = 0)) | None => false end.

Definition rstate : Type := Heap * Z.

(** Run an action of the counter over a list of items. *)
Fixpoint rc_each (f : item → rstate → option rstate) (l : list item) (s : rstate)
    : option rstate :=
  match l with [] => Some s | x :: t => s ← f x s; rc_each f t s end.

(** [Add]: [fuel] bounds the nesting of compound items that become referenced
    ([rc_Add_ok]). *)
Fixpoint rc_Add (fuel : nat) (i : item) (s : rstate) : option rstate :=
  match fuel with
  | O => None
  | S fuel =>
      let '(h, refs) := s in
      match it_loc i with
      | Some l =>
          c ← h_get h l; rc ← cell_rc c;
          let s := (h_set h l (set_rc c (rc + 1)), refs + 1) in
          if bool_decide (rc + 1 = 1) then rc_each (rc_Add fuel) (cell_items c) s else Some s
      | None => Some (h, refs + 1)
      end
  end.

Fixpoint rc_Remove (fuel : nat) (i : item) (s : rstate) : option rstate :=
  match fuel with
  | O => None
  | S fuel =>
      let '(h, refs) := s in
      match it_loc i with
      | Some l =>
          c ← h_get h l; rc ← cell_rc c;
          if IsReferenced c then
            let s := (h_set h l (set_rc c (rc - 1)), refs - 1) in
            if bool_decide (rc - 1 = 0) then rc_each (rc_Remove fuel) (cell_items c) s else Some s
          else Some s
      | None => Some (h, refs - 1)
      end
  end.

Definition rc_fuel (h : Heap) : nat := S (size (h_cells h)).

(** * Meaning of the counter *)

(** Occurrences of a location in a list of references. *)
Definition occ (l : loc) (L : list item) : Z :=
  Z.of_nat (length (filter (λ i, it_loc i = Some l) L)).

Definition len (L : list item) : Z := Z.of_nat (length L).

Lemma occ_app l L1 L2 : occ l (L1 ++ L2) = occ l L1 + occ l L2.
Proof. unfold occ. rewrite filter_app, length_app. lia. Qed.

Lemma occ_cons l i L : occ l (i :: L) = (if decide (it_loc i = Some l) then 1 else 0) + occ l L.
Proof. unfold occ. rewrite filter_cons. case_decide; cbn; lia. Qed.

Lemma occ_nil l : occ l [] = 0.
Proof. done. Qed.

Lemma occ_nonneg l L : 0 <= occ l L.
Proof. unfold occ. lia. Qed.

Lemma len_app L1 L2 : len (L1 ++ L2) = len L1 + len L2.
Proof. unfold len. rewrite length_app. lia. Qed.

Lemma len_cons i L : len (i :: L) = 1 + len L.
Proof. unfold len. cbn. lia. Qed.

Lemma len_nil : len [] = 0.
Proof. done. Qed.

Lemma len_nonneg L : 0 <= len L.
Proof. unfold len. lia. Qed.

#[export] Instance occ_perm l : Proper ((≡ₚ) ==> (=)) (occ l).
Proof. intros L1 L2 HL. unfold occ. by rewrite HL. Qed.

#[export] Instance len_perm : Proper ((≡ₚ) ==> (=)) len.
Proof. intros L1 L2 HL. unfold len. by rewrite HL. Qed.

Create Rewrite HintDb refs.
#[export] Hint Rewrite occ_app occ_cons occ_nil len_app len_cons len_nil : refs.

Lemma occ_pos_elem l L : 0 < occ l L → ∃ i, i ∈ L ∧ it_loc i = Some l.
Proof.
  induction L as [|i L IH]; autorewrite with refs; [done|].
  case_decide; [intros _; exists i; split; [left|done]|].
  intros (j & Hj & He)%IH. exists j. split; [by right|done].
Qed.

Lemma elem_occ_pos l L i : i ∈ L → it_loc i = Some l → 0 < occ l L.
Proof.
  intros Hi He. induction L as [|j L IH]; [by apply elem_of_nil in Hi|].
  autorewrite with refs. pose proof (occ_nonneg l L).
  apply elem_of_cons in Hi as [<-|Hi]; [rewrite decide_True by done; lia|].
  specialize (IH Hi). case_decide; lia.
Qed.

(** The items held by a referenced cell, and by all of them. *)
Definition live_items (c : cell) : list item := if IsReferenced c then cell_items c else [].

Definition kids (h : Heap) : list item :=
  map_to_list (h_cells h) ≫= λ p, live_items p.2.

Definition kids_but (h : Heap) (l : loc) : list item :=
  map_to_list (delete l (h_cells h)) ≫= λ p, live_items p.2.

Lemma kids_get h l c : h_get h l = Some c → kids h ≡ₚ live_items c ++ kids_but h l.
Proof.
  intros Hl. unfold kids, kids_but. unfold h_get in Hl.
  assert (map_to_list (h_cells h) ≡ₚ (l, c) :: map_to_list (delete l (h_cells h))) as HP.
  { rewrite <- map_to_list_insert by apply lookup_delete_eq.
    by rewrite insert_delete_id. }
  rewrite HP. done.
Qed.

Lemma kids_set h l c : kids (h_set h l c) ≡ₚ live_items c ++ kids_but h l.
Proof.
  rewrite (kids_get (h_set h l c) l c) by (rewrite h_get_set; by rewrite decide_True).
  unfold kids_but, h_set. cbn. by rewrite delete_insert_eq.
Qed.

(** Live cells have their items among the kids. *)
Lemma kids_elem h l c i :
  h_get h l = Some c → IsReferenced c = true → i ∈ cell_items c → i ∈ kids h.
Proof.
  intros Hl Hr Hi. rewrite (kids_get h l c Hl). apply elem_of_app. left.
  unfold live_items. by rewrite Hr.
Qed.

Lemma kids_ok h : heap_wf h → Forall (item_ok h) (kids h).
Proof.
  intros Hwf. unfold kids. apply Forall_forall. intros i Hi.
  apply list_elem_of_bind in Hi as ([l c] & Hi & Hc).
  apply elem_of_map_to_list in Hc. destruct (Hwf l c Hc) as [_ [Hit _]].
  unfold live_items in Hi. cbn in Hi. destruct (IsReferenced c); [|by apply elem_of_nil in Hi].
  rewrite Forall_forall in Hit. by apply Hit.
Qed.

(** [RCI h refs R D]: the roots are [R]; the references in [D] are among the
    roots or in cells but have not been counted yet. *)
Definition RCI (h : Heap) (refs : Z) (R D : list item) : Prop :=
  (∀ l c rc, h_get h l = Some c → cell_rc c = Some rc →
     0 <= rc ∧ rc + occ l D = occ l R + occ l (kids h))
  ∧ refs + len D = len R + len (kids h).

Lemma RCI_perm_1 h refs R1 R2 D1 D2 :
  R1 ≡ₚ R2 → D1 ≡ₚ D2 → RCI h refs R1 D1 → RCI h refs R2 D2.
Proof.
  intros HR HD [H1 H2]. split; [|by rewrite <- HR, <- HD].
  intros l c rc Hl Hc. rewrite <- HR, <- HD. by apply (H1 l c rc).
Qed.

#[export] Instance RCI_perm h refs : Proper ((≡ₚ) ==> (≡ₚ) ==> iff) (RCI h refs).
Proof. intros R1 R2 HR D1 D2 HD. split; by apply RCI_perm_1. Qed.

(** ** Heaps up to reference counts *)

Definition erase (c : cell) : cell := set_rc c 0.

Definition h_sim (h h' : Heap) : Prop :=
  h_next h = h_next h' ∧ ∀ l, erase <$> h_get h l = erase <$> h_get h' l.

#[export] Instance h_sim_equiv : Equivalence h_sim.
Proof.
  split.
  - by intros h.
  - intros a b [Hn Hg]. split; [done|]. intros l. by rewrite Hg.
  - intros a b c [Hn Hg] [Hn' Hg']. split; [congruence|]. intros l. by rewrite Hg.
Qed.

Lemma erase_inv c c' : erase c = erase c' →
  cell_items c = cell_items c' ∧ kind c = kind c'.
Proof. destruct c, c'; intros [=]; subst; done. Qed.

Lemma h_sim_get h h' l c :
  h_sim h h' → h_get h l = Some c → ∃ c', h_get h' l = Some c' ∧ erase c' = erase c.
Proof.
  intros [_ Hg] Hl. specialize (Hg l). rewrite Hl in Hg. cbn in Hg.
  symmetry in Hg. apply fmap_Some in Hg as (c' & Hl' & He). eauto.
Qed.

Lemma h_sim_le h h' : h_sim h h' → h_le h h'.
Proof.
  intros Hs l k. unfold loc_ok. destruct (h_get h l) as [c|] eqn:E; [|done].
  destruct (h_sim_get h h' l c Hs E) as (c' & -> & He).
  apply erase_inv in He as [_ Hk]. cbn. by rewrite Hk.
Qed.

Lemma h_sim_wf h h' : h_sim h h' → heap_wf h → heap_wf h'.
Proof.
  intros Hs Hwf l c' Hl. destruct (h_sim_get h' h l c' ltac:(by symmetry) Hl) as (c & Hc & He).
  destruct (Hwf l c Hc) as [Hn Hok]. split; [by rewrite <- (proj1 Hs)|].
  apply (cell_ok_le h h') in Hok; [|by apply h_sim_le].
  destruct c, c'; cbn in He; try done; injection He as ->; try done; by subst.
Qed.

Lemma h_sim_set_rc h l c rc : h_get h l = Some c → h_sim h (h_set h l (set_rc c rc)).
Proof.
  intros Hl. split; [done|]. intros l'. rewrite h_get_set. case_decide; [|done].
  subst. rewrite Hl. cbn. f_equal. by destruct c.
Qed.

(** ** Termination measures *)

(** Total of a measure of cells. *)
Definition tally (f : cell → nat) (h : Heap) : nat :=
  sum_list_with (λ p, f p.2) (map_to_list (h_cells h)).
Definition tally_but (f : cell → nat) (h : Heap) (l : loc) : nat :=
  sum_list_with (λ p, f p.2) (map_to_list (delete l (h_cells h))).

Lemma tally_get f h l c : h_get h l = Some c → tally f h = (f c + tally_but f h l)%nat.
Proof.
  intros Hl. unfold tally, tally_but.
  assert (map_to_list (h_cells h) ≡ₚ (l, c) :: map_to_list (delete l (h_cells h))) as ->.
  { rewrite <- map_to_list_insert by apply lookup_delete_eq. by rewrite insert_delete_id. }
  done.
Qed.

Lemma tally_set f h l c : tally f (h_set h l c) = (f c + tally_but f h l)%nat.
Proof.
  rewrite (tally_get f (h_set h l c) l c) by (rewrite h_get_set; by rewrite decide_True).
  unfold tally_but, h_set. cbn. by rewrite delete_insert_eq.
Qed.

Lemma tally_size f h : (∀ c, f c <= 1)%nat → (tally f h <= size (h_cells h))%nat.
Proof.
  intros Hf. unfold tally. rewrite <- length_map_to_list.
  induction (map_to_list (h_cells h)) as [|p l IH]; cbn; [lia|]. specialize (Hf p.2). lia.
Qed.

Definition is_zero (c : cell) : nat := if bool_decide (cell_rc c = Some 0) then 1 else 0.
Definition is_live (c : cell) : nat := if IsReferenced c then 1 else 0.

(** ** Correctness of Add *)

Lemma loc_compound h i l :
  item_ok h i → it_loc i = Some l → ∃ c rc, h_get h l = Some c ∧ cell_rc c = Some rc.
Proof.
  destruct i as [| | | | |l'|l'|l'| |]; cbn; intros Hi [= <-]; unfold loc_ok in Hi;
    destruct (h_get h l') as [[]|]; try done; eauto.
Qed.

Lemma cell_items_set_rc c rc : cell_items (set_rc c rc) = cell_items c.
Proof. by destruct c. Qed.

Lemma cell_rc_set_rc c rc z : cell_rc c = Some z → cell_rc (set_rc c rc) = Some rc.
Proof. by destruct c. Qed.

Lemma IsReferenced_rc c rc : cell_rc c = Some rc → IsReferenced c = negb (bool_decide (rc = 0)).
Proof. unfold IsReferenced. by intros ->. Qed.

(** The state change of one count. *)
Lemma RCI_set h refs R D R' D' l c rc rc' refs' :
  h_get h l = Some c → cell_rc c = Some rc → RCI h refs R D →
  0 <= rc' →
  (∀ l', (if decide (l = l') then rc' - rc else 0) + (occ l' D' - occ l' D)
         = (occ l' R' - occ l' R)
           + (occ l' (live_items (set_rc c rc')) - occ l' (live_items c))) →
  refs' - refs + (len D' - len D)
  = (len R' - len R) + (len (live_items (set_rc c rc')) - len (live_items c)) →
  RCI (h_set h l (set_rc c rc')) refs' R' D'.
Proof.
  intros Hl Hc [H1 H2] Hrc Hocc Hlen. split.
  - intros l' c' z Hl' Hc'. rewrite kids_set. autorewrite with refs.
    specialize (Hocc l'). rewrite h_get_set in Hl'. case_decide as Hd.
    + simplify_eq. rewrite (cell_rc_set_rc c rc' rc Hc) in Hc'. simplify_eq.
      destruct (H1 l' c rc Hl Hc) as [_ He]. rewrite (kids_get h l' c Hl) in He.
      autorewrite with refs in He. lia.
    + destruct (H1 l' c' z Hl' Hc') as [Hz He]. rewrite (kids_get h l c Hl) in He.
      autorewrite with refs in He. lia.
  - rewrite kids_set. rewrite (kids_get h l c Hl) in H2. autorewrite with refs in *. lia.
Qed.

Definition rc_post (h : Heap) (R D : list item) (r : option rstate) : Prop :=
  ∃ h' refs', r = Some (h', refs') ∧ RCI h' refs' R D ∧ h_sim h h'.

(** Running an action over a list; [P its] holds while [its] are left. *)
Lemma rc_each_ok (f : item → rstate → option rstate) (m : Heap → nat) (n : nat)
    (P : list item → Heap → Z → Prop) :
  (∀ x its h r, heap_wf h → item_ok h x → (m h < n)%nat → P (x :: its) h r →
     ∃ h' r', f x (h, r) = Some (h', r') ∧ P its h' r' ∧ h_sim h h' ∧ (m h' <= m h)%nat) →
  ∀ its h r, heap_wf h → Forall (item_ok h) its → (m h < n)%nat → P its h r →
  ∃ h' r', rc_each f its (h, r) = Some (h', r') ∧ P [] h' r' ∧ h_sim h h' ∧ (m h' <= m h)%nat.
Proof.
  intros Hf its. induction its as [|x its IH]; intros h r Hwf Hits Hm HP; cbn.
  { exists h, r. by split_and!. }
  apply Forall_cons in Hits as [Hx Hits].
  destruct (Hf x its h r Hwf Hx Hm HP) as (h2 & r2 & -> & HP2 & Hs2 & Hm2). cbn.
  destruct (IH h2 r2) as (h3 & r3 & -> & HP3 & Hs3 & Hm3);
    [by eapply h_sim_wf|by eapply items_ok_le; [apply h_sim_le|]|lia|done|].
  exists h3, r3. split_and!; [done|done|by etrans|lia].
Qed.

Lemma rc_Add_ok fuel i h refs R D :
  heap_wf h → item_ok h i → RCI h refs R (i :: D) → (tally is_zero h < fuel)%nat →
  ∃ h' refs', rc_Add fuel i (h, refs) = Some (h', refs') ∧ RCI h' refs' R D ∧ h_sim h h'
    ∧ (tally is_zero h' <= tally is_zero h)%nat.
Proof.
  revert i h refs R D. induction fuel as [|n IH]; intros i h refs R D Hwf Hi HI Hn; [lia|].
  cbn. destruct (it_loc i) as [l|] eqn:Hil.
  2:{ exists h, (refs + 1). split_and!; [done| |done|done].
      destruct HI as [H1 H2]. autorewrite with refs in H2. split; [|lia].
      intros l c rc Hl Hc. specialize (H1 l c rc Hl Hc). autorewrite with refs in H1.
      rewrite decide_False in H1 by congruence. lia. }
  destruct (loc_compound h i l Hi Hil) as (c & rc & Hl & Hc). rewrite Hl. cbn. rewrite Hc. cbn.
  destruct (proj1 HI l c rc Hl Hc) as [Hrc _].
  assert (∀ L, occ l (i :: L) = 1 + occ l L) as Hil1.
  { intros L. autorewrite with refs. by rewrite decide_True. }
  assert (∀ l' L, l ≠ l' → occ l' (i :: L) = occ l' L) as Hil2.
  { intros l' L Hne. autorewrite with refs. rewrite decide_False; [lia|congruence]. }
  set (h1 := h_set h l (set_rc c (rc + 1))).
  assert (h_sim h h1) as Hs1 by by apply h_sim_set_rc.
  pose proof (tally_get is_zero h l c Hl) as Ht. pose proof (tally_set is_zero h l (set_rc c (rc + 1))) as Ht1.
  fold h1 in Ht1.
  assert (is_zero (set_rc c (rc + 1)) = 0%nat) as Hz1.
  { unfold is_zero. rewrite (cell_rc_set_rc c _ rc) by done.
    rewrite bool_decide_eq_false_2; [done|]. intros [=]. lia. }
  assert (live_items (set_rc c (rc + 1)) = cell_items c) as Hlv1.
  { unfold live_items. rewrite (IsReferenced_rc _ (rc + 1)) by by apply (cell_rc_set_rc c _ rc).
    rewrite bool_decide_eq_false_2 by lia. cbn. apply cell_items_set_rc. }
  case_bool_decide as H01.
  2:{ exists h1, (refs + 1). split_and!; [done| |done|lia].
      assert (live_items c = cell_items c) as Hlv.
      { unfold live_items. rewrite (IsReferenced_rc c rc Hc).
        by rewrite bool_decide_eq_false_2 by lia. }
      apply (RCI_set h refs R (i :: D) R D l c rc); [done..|lia| |].
      - intros l'. rewrite Hlv1, Hlv. case_decide; [subst; rewrite Hil1|rewrite Hil2 by done]; lia.
      - rewrite Hlv1, Hlv, len_cons. lia. }
  assert (rc = 0) as -> by lia.
  assert (live_items c = []) as Hlv by (unfold live_items; by rewrite (IsReferenced_rc c 0 Hc)).
  assert (is_zero c = 1%nat) as Hz by (unfold is_zero; by rewrite Hc).
  assert (RCI h1 (refs + 1) R (cell_items c ++ D)) as HI1.
  { apply (RCI_set h refs R (i :: D) R _ l c 0); [done..|lia| |].
    - intros l'. rewrite Hlv1, Hlv, occ_app, occ_nil.
      case_decide; [subst; rewrite Hil1|rewrite Hil2 by done]; lia.
    - rewrite Hlv1, Hlv. autorewrite with refs. lia. }
  assert (Forall (item_ok h1) (cell_items c)) as Hits.
  { eapply items_ok_le; [by apply h_sim_le|]. by apply (Hwf l c Hl). }
  destruct (rc_each_ok (rc_Add n) (tally is_zero) n (λ its h r, RCI h r R (its ++ D)))
    with (its := cell_items c) (h := h1) (r := refs + 1)
    as (h' & refs' & -> & HI' & Hs' & Ht'); [|by eapply h_sim_wf|done|lia|done|].
  { intros x its h2 r Hwf2 Hx Hm HP. by apply IH. }
  exists h', refs'. split_and!; [done|done|by etrans|lia].
Qed.

(** ** Correctness of Remove

    While a reference inside a live cell is being removed, it is still among
    the items of the cell; [D] then holds references that are not counted any
    more.  They are to cells that are dead already, where [Remove] does
    nothing. *)

Definition dead (h : Heap) (i : item) : Prop :=
  ∀ l c rc, it_loc i = Some l → h_get h l = Some c → cell_rc c = Some rc → rc = 0.

(** The same heap with counts that are not higher. *)
Definition rc_le (h h' : Heap) : Prop :=
  h_sim h h' ∧
  ∀ l c c' rc rc', h_get h l = Some c → h_get h' l = Some c' →
    cell_rc c = Some rc → cell_rc c' = Some rc' → rc' <= rc.

Lemma rc_le_refl h : rc_le h h.
Proof. split; [done|]. intros. simplify_eq. lia. Qed.

Lemma h_sim_rc h h' l c rc :
  h_sim h h' → h_get h l = Some c → cell_rc c = Some rc →
  ∃ c' rc', h_get h' l = Some c' ∧ cell_rc c' = Some rc' ∧ cell_items c' = cell_items c.
Proof.
  intros Hs Hl Hc. destruct (h_sim_get h h' l c Hs Hl) as (c' & Hl' & He).
  exists c'. pose proof (proj1 (erase_inv _ _ He)) as Hi.
  destruct c, c'; cbn in *; try done; eauto.
Qed.

Lemma rc_le_trans a b c : rc_le a b → rc_le b c → rc_le a c.
Proof.
  intros [Hs1 H1] [Hs2 H2]. split; [by etrans|].
  intros l ca cc ra rc Ha Hc Hra Hrc.
  destruct (h_sim_rc a b l ca ra Hs1 Ha Hra) as (cb & rb & Hb & Hrb & _).
  specialize (H1 l ca cb ra rb Ha Hb Hra Hrb). specialize (H2 l cb cc rb rc Hb Hc Hrb Hrc). lia.
Qed.

Lemma rc_le_set h l c rc rc' :
  h_get h l = Some c → cell_rc c = Some rc → rc' <= rc → rc_le h (h_set h l (set_rc c rc')).
Proof.
  intros Hl Hc Hle. split; [by apply h_sim_set_rc|].
  intros l' c1 c2 r1 r2 H1 H2. rewrite h_get_set in H2. case_decide; simplify_eq.
  - rewrite (cell_rc_set_rc _ rc' rc Hc). intros ? [= <-]. simplify_eq. lia.
  - intros ??. simplify_eq. lia.
Qed.

Lemma dead_le h h' refs R D i :
  rc_le h h' → RCI h' refs R D → dead h i → dead h' i.
Proof.
  intros [Hs Hle] [H1 _] Hd l c' rc' Hi Hl' Hc'.
  destruct (h_sim_rc h' h l c' rc' ltac:(by symmetry) Hl' Hc') as (c & rc & Hl & Hc & _).
  specialize (Hle l c c' rc rc' Hl Hl' Hc Hc'). specialize (Hd l c rc Hi Hl Hc).
  destruct (H1 l c' rc' Hl' Hc') as [? _]. lia.
Qed.

(** A reference that is in both lists does not matter. *)
Lemma RCI_cancel h refs R D i j :
  it_loc i = it_loc j → RCI h refs (i :: R) (j :: D) ↔ RCI h refs R D.
Proof.
  intros Hij. unfold RCI. autorewrite with refs.
  split; intros [H1 H2]; (split; [|lia]); intros l c rc Hl Hc; specialize (H1 l c rc Hl Hc);
    revert H1; autorewrite with refs; rewrite Hij; case_decide; lia.
Qed.

Lemma RCI_scalar h refs R D i :
  it_loc i = None → RCI h refs (i :: R) D ↔ RCI h (refs - 1) R D.
Proof.
  intros Hi. unfold RCI. autorewrite with refs.
  split; intros [H1 H2]; (split; [|lia]); intros l c rc Hl Hc; specialize (H1 l c rc Hl Hc);
    revert H1; autorewrite with refs; rewrite decide_False by congruence; lia.
Qed.

(** One reference less to a cell, from the roots: when it was the last one, the
    items of the cell come free. *)
Lemma RCI_release h refs R D i l c rc :
  it_loc i = Some l → h_get h l = Some c → cell_rc c = Some rc → 0 < rc →
  RCI h refs (i :: R) D →
  RCI (h_set h l (set_rc c (rc - 1))) (refs - 1)
    ((if bool_decide (rc - 1 = 0) then cell_items c else []) ++ R) D.
Proof.
  intros Hil Hl Hc Hrc HI.
  assert (live_items c = cell_items c) as Hlv.
  { unfold live_items. rewrite (IsReferenced_rc c rc Hc). by rewrite bool_decide_eq_false_2 by lia. }
  assert (live_items (set_rc c (rc - 1)) = if bool_decide (rc - 1 = 0) then [] else cell_items c)
    as Hlv1.
  { unfold live_items. rewrite (IsReferenced_rc _ (rc - 1)) by by apply (cell_rc_set_rc c _ rc).
    case_bool_decide; cbn; [done|apply cell_items_set_rc]. }
  apply (RCI_set h refs (i :: R) D _ D l c rc); [done..|lia| |].
  - intros l'. rewrite Hlv1, Hlv. case_bool_decide; autorewrite with refs; rewrite Hil;
      repeat case_decide; simplify_eq; lia.
  - rewrite Hlv1, Hlv. case_bool_decide; autorewrite with refs; lia.
Qed.

Lemma is_live_rc c rc : cell_rc c = Some rc → is_live c = if bool_decide (rc = 0) then 0%nat else 1%nat.
Proof. intros Hc. unfold is_live. rewrite (IsReferenced_rc c rc Hc). by case_bool_decide. Qed.

Lemma rc_Remove_D fuel i h refs R D :
  heap_wf h → item_ok h i → Forall (dead h) D → RCI h refs (i :: R) D →
  (tally is_live h < fuel)%nat →
  ∃ h' refs' D', rc_Remove fuel i (h, refs) = Some (h', refs') ∧ RCI h' refs' R D' ∧ D' ⊆+ D
    ∧ rc_le h h' ∧ (tally is_live h' <= tally is_live h)%nat.
Proof.
  revert i h refs R D. induction fuel as [|n IH]; intros i h refs R D Hwf Hi HD HI Hn; [lia|].
  cbn. destruct (it_loc i) as [l|] eqn:Hil.
  2:{ exists h, (refs - 1), D. split_and!; [done|by apply (RCI_scalar _ _ _ _ i)|done|apply rc_le_refl|done]. }
  destruct (loc_compound h i l Hi Hil) as (c & rc & Hl & Hc). rewrite Hl. cbn. rewrite Hc. cbn.
  destruct (proj1 HI l c rc Hl Hc) as [Hrc0 Hrc].
  rewrite (IsReferenced_rc c rc Hc). case_bool_decide as Hz; cbn.
  { subst rc. rewrite occ_cons, decide_True in Hrc by done.
    pose proof (occ_nonneg l R). pose proof (occ_nonneg l (kids h)).
    destruct (occ_pos_elem l D) as (d & Hd & Hdl); [lia|].
    apply elem_of_Permutation in Hd as [D' HD'].
    exists h, refs, D'. split_and!; [done| |rewrite HD'; by apply submseteq_cons|apply rc_le_refl|done].
    rewrite HD' in HI. apply RCI_cancel in HI; [done|congruence]. }
  pose proof (RCI_release h refs R D i l c rc Hil Hl Hc ltac:(lia) HI) as HI1.
  set (h1 := h_set h l (set_rc c (rc - 1))) in *.
  assert (rc_le h h1) as Hle1 by (apply (rc_le_set h l c rc); [done..|lia]).
  pose proof (tally_get is_live h l c Hl) as Ht.
  pose proof (tally_set is_live h l (set_rc c (rc - 1))) as Ht1. fold h1 in Ht1.
  rewrite (is_live_rc c rc Hc), bool_decide_eq_false_2 in Ht by done.
  rewrite (is_live_rc _ (rc - 1)) in Ht1 by by apply (cell_rc_set_rc c _ rc).
  case_bool_decide as H01; cbn in HI1.
  2:{ exists h1, (refs - 1), D. split_and!; [done|done|done|done|lia]. }
  assert (Forall (item_ok h1) (cell_items c)) as Hits.
  { eapply items_ok_le; [by apply h_sim_le, Hle1|]. by apply (Hwf l c Hl). }
  destruct (rc_each_ok (rc_Remove n) (tally is_live) n
              (λ its h r, rc_le h1 h ∧ ∃ D', D' ⊆+ D ∧ RCI h r (its ++ R) D'))
    with (its := cell_items c) (h := h1) (r := refs - 1)
    as (h' & refs' & -> & [Hle' (D' & HD' & HI')] & Hs' & Ht');
    [|by eapply h_sim_wf, Hwf; apply Hle1|done|lia|split; [apply rc_le_refl|by exists D]|].
  { intros x its h2 r Hwf2 Hx Hm [Hle2 (D2 & HD2 & HI2)].
    destruct (IH x h2 r (its ++ R) D2) as (h3 & r3 & D3 & -> & HI3 & HD3 & Hle3 & Ht3);
      [done|done| |done|done|].
    - apply Forall_forall. intros d Hd. rewrite Forall_forall in HD.
      apply (dead_le h h2 r (x :: its ++ R) D2); [by eapply rc_le_trans|done|].
      apply HD. by eapply elem_of_submseteq.
    - exists h3, r3. split; [done|]. split; [|split; [apply Hle3|done]].
      split; [by eapply rc_le_trans|]. exists D3. split; [by etrans|done]. }
  exists h', refs', D'. split_and!; [done|done|done|by eapply rc_le_trans|lia].
Qed.

Lemma rc_Remove_ok fuel i h refs R :
  heap_wf h → item_ok h i → RCI h refs (i :: R) [] → (tally is_live h < fuel)%nat →
  ∃ h' refs', rc_Remove fuel i (h, refs) = Some (h', refs') ∧ RCI h' refs' R [] ∧ rc_le h h'.
Proof.
  intros Hwf Hi HI Hn.
  destruct (rc_Remove_D fuel i h refs R [] Hwf Hi ltac:(constructor) HI Hn)
    as (h' & r' & D' & He & HI' & HD & Hle & _).
  apply submseteq_nil_r in HD as ->. by exists h', r'.
Qed.

(** ** The operations with the fuel of the heap *)

Lemma is_zero_le c : (is_zero c <= 1)%nat.
Proof. unfold is_zero. case_bool_decide; lia. Qed.
Lemma is_live_le c : (is_live c <= 1)%nat.
Proof. unfold is_live. destruct (IsReferenced c); lia. Qed.

Lemma Add_ok i h refs R :
  heap_wf h → item_ok h i → RCI h refs R [] →
  rc_post h (i :: R) [] (rc_Add (rc_fuel h) i (h, refs)).
Proof.
  intros Hwf Hi [H1 H2].
  destruct (rc_Add_ok (rc_fuel h) i h refs (i :: R) [] Hwf Hi) as (h' & r' & He & HI & Hs & _).
  - split; [|autorewrite with refs in *; lia].
    intros l c rc Hl Hc. specialize (H1 l c rc Hl Hc). autorewrite with refs in *. lia.
  - unfold rc_fuel. pose proof (tally_size is_zero h is_zero_le). lia.
  - exists h', r'. by split_and!.
Qed.

Lemma Remove_ok i h refs R :
  heap_wf h → item_ok h i → RCI h refs (i :: R) [] →
  rc_post h R [] (rc_Remove (rc_fuel h) i (h, refs)).
Proof.
  intros Hwf Hi HI.
  destruct (rc_Remove_ok (rc_fuel h) i h refs R Hwf Hi HI) as (h' & r' & He & HI' & Hle).
  - unfold rc_fuel. pose proof (tally_size is_live h is_live_le). lia.
  - exists h', r'. split_and!; [done|done|apply Hle].
Qed.

(** ** A reference held by a live cell *)

Lemma tally_mono f h h' :
  (∀ l, is_Some (h_get h' l) → is_Some (h_get h l)) →
  (∀ l c c', h_get h l = Some c → h_get h' l = Some c' → (f c' <= f c)%nat) →
  (tally f h' <= tally f h)%nat.
Proof.
  destruct h as [m n], h' as [m' n']. unfold tally, h_get. cbn. clear n n'.
  revert m. induction m' as [|l c' m' Hl IH] using map_ind; intros m Hd Hf.
  { rewrite map_to_list_empty. cbn. lia. }
  destruct (Hd l) as [c Hc]; [by rewrite lookup_insert_eq|].
  assert (map_to_list m ≡ₚ (l, c) :: map_to_list (delete l m)) as ->.
  { rewrite <- map_to_list_insert by apply lookup_delete_eq. by rewrite insert_delete_id. }
  rewrite map_to_list_insert by done. cbn.
  enough (sum_list_with (λ p, f p.2) (map_to_list m')
          <= sum_list_with (λ p, f p.2) (map_to_list (delete l m)))%nat.
  { specialize (Hf l c c' Hc (lookup_insert_eq _ _ _)). lia. }
  apply IH.
  - intros l' [x Hx]. assert (l ≠ l') by congruence. rewrite lookup_delete_ne by done.
    apply Hd. rewrite lookup_insert_ne by done. eauto.
  - intros l' x x' Hx Hx'. apply lookup_delete_Some in Hx as [Hne Hx].
    apply (Hf l' x x' Hx). by rewrite lookup_insert_ne.
Qed.

Lemma occ_kids l h : occ l (kids h) = Z.of_nat (tally (λ c, Z.to_nat (occ l (live_items c))) h).
Proof.
  unfold kids, tally. induction (map_to_list (h_cells h)) as [|p L IH]; [done|].
  cbn. rewrite occ_app, IH. pose proof (occ_nonneg l (live_items p.2)). lia.
Qed.

(** Lower counts leave fewer items in live cells. *)
Lemma occ_kids_but h h' refs R D x l :
  rc_le h h' → RCI h' refs R D → occ x (kids_but h' l) <= occ x (kids_but h l).
Proof.
  intros [Hs Hle] [H1 _].
  assert (∀ g, kids_but g l = kids (mkHeap (delete l (h_cells g)) (h_next g))) as Hk by done.
  rewrite !Hk, !occ_kids. apply Nat2Z.inj_le, tally_mono; unfold h_get; cbn.
  - intros l' [c' Hc']. apply lookup_delete_Some in Hc' as [Hne Hc'].
    rewrite lookup_delete_ne by done.
    destruct (h_sim_get h' h l' c' ltac:(by symmetry) Hc') as (c & Hc & _). by exists c.
  - intros l' c c' Hc Hc'. apply lookup_delete_Some in Hc as [_ Hc], Hc' as [_ Hc'].
    destruct (h_sim_get h h' l' c Hs Hc) as (c2 & Hc2 & He).
    assert (c2 = c') as -> by (unfold h_get in Hc2; congruence).
    unfold live_items. rewrite (proj1 (erase_inv _ _ He)).
    destruct (cell_rc c') as [rc'|] eqn:Er'.
    + destruct (h_sim_rc h' h l' c' rc' ltac:(by symmetry) Hc' Er') as (c3 & rc & Hc3 & Er & _).
      assert (c3 = c) as -> by (unfold h_get in Hc3; congruence).
      specialize (Hle l' c c' rc rc' Hc Hc' Er Er'). destruct (H1 l' c' rc' Hc' Er') as [Hr _].
      rewrite (IsReferenced_rc c rc Er), (IsReferenced_rc c' rc' Er').
      destruct (bool_decide (rc = 0)) eqn:E0; [apply bool_decide_eq_true in E0|].
      * by rewrite bool_decide_eq_true_2 by lia.
      * cbn. pose proof (occ_nonneg x (cell_items c)). destruct (negb _); [done|].
        rewrite occ_nil. lia.
    + unfold IsReferenced at 1. rewrite Er'. pose proof (occ_nonneg x (if IsReferenced c then cell_items c else [])).
      rewrite occ_nil. lia.
Qed.

(** [Remove] of an item of a live cell, which is then to be overwritten or
    dropped: either the cell is still live and holds the item uncounted, or it
    has died in the process and nothing of it is counted. *)
Lemma Remove_held i h refs R l c rc :
  heap_wf h → h_get h l = Some c → cell_rc c = Some rc → 0 < rc → i ∈ cell_items c →
  RCI h refs R [] →
  ∃ h' refs' rc', rc_Remove (rc_fuel h) i (h, refs) = Some (h', refs') ∧ rc_le h h'
    ∧ h_get h' l = Some (set_rc c rc')
    ∧ ((0 < rc' ∧ RCI h' refs' R [i]) ∨ (rc' = 0 ∧ RCI h' refs' R [])).
Proof.
  intros Hwf Hl Hc Hrc Hin HI.
  assert (item_ok h i) as Hi.
  { destruct (Hwf l c Hl) as [_ [Hits _]]. rewrite Forall_forall in Hits. by apply Hits. }
  pose proof (proj2 (RCI_cancel h refs R [] i i eq_refl) HI) as HI0.
  assert (h_get h l = Some (set_rc c rc)) as Hl0.
  { rewrite Hl. f_equal. destruct c; cbn in *; simplify_eq; done. }
  unfold rc_fuel. cbn. destruct (it_loc i) as [li|] eqn:Hil.
  2:{ exists h, (refs - 1), rc. split_and!; [done|apply rc_le_refl|done|].
      left. split; [done|]. by apply (RCI_scalar _ _ _ _ i). }
  destruct (loc_compound h i li Hi Hil) as (ci & ri & Hli & Hci). rewrite Hli. cbn. rewrite Hci. cbn.
  assert (IsReferenced c = true) as Hlc.
  { rewrite (IsReferenced_rc c rc Hc). by rewrite bool_decide_eq_false_2 by lia. }
  assert (1 <= occ li (cell_items c)) as Hocc.
  { pose proof (elem_occ_pos li _ i Hin Hil). lia. }
  destruct (proj1 HI li ci ri Hli Hci) as [Hri0 Hri]. rewrite occ_nil in Hri.
  rewrite (kids_get h l c Hl), occ_app in Hri. unfold live_items in Hri. rewrite Hlc in Hri.
  pose proof (occ_nonneg li R). pose proof (occ_nonneg li (kids_but h l)).
  rewrite (IsReferenced_rc ci ri Hci), bool_decide_eq_false_2 by lia. cbn.
  pose proof (RCI_release h refs R [i] i li ci ri Hil Hli Hci ltac:(lia) HI0) as HI1.
  set (h1 := h_set h li (set_rc ci (ri - 1))) in *.
  assert (rc_le h h1) as Hle1 by (apply (rc_le_set h li ci ri); [done..|lia]).
  case_bool_decide as H01; cbn in HI1.
  2:{ exists h1, (refs - 1). unfold h1. rewrite h_get_set. case_decide as Hd.
      - assert (ci = c ∧ ri = rc) as [-> ->] by (subst li; split; congruence).
        exists (rc - 1). split_and!; [done|done|done|]. left. split; [lia|done].
      - exists rc. split_and!; [done|done|done|]. by left. }
  assert (heap_wf h1) as Hwf1 by (eapply h_sim_wf, Hwf; apply Hle1).
  assert (Forall (item_ok h1) (cell_items ci)) as Hits.
  { eapply items_ok_le; [by apply h_sim_le, Hle1|]. by apply (Hwf li ci Hli). }
  assert (h_get h1 li = Some (set_rc ci 0)) as Hli1.
  { unfold h1. rewrite h_get_set, decide_True by done. by rewrite H01. }
  assert (cell_rc (set_rc ci 0) = Some 0) as Hci0 by by apply (cell_rc_set_rc ci 0 ri).
  assert (dead h1 i) as Hd1 by (intros l' c' rc' ???; simplify_eq; congruence).
  pose proof (tally_get is_live h li ci Hli) as Ht.
  pose proof (tally_set is_live h li (set_rc ci (ri - 1))) as Ht1. fold h1 in Ht1.
  rewrite (is_live_rc ci ri Hci), bool_decide_eq_false_2 in Ht by lia.
  rewrite (is_live_rc _ (ri - 1)) in Ht1 by by apply (cell_rc_set_rc ci _ ri).
  rewrite bool_decide_eq_true_2 in Ht1 by done.
  pose proof (tally_size is_live h is_live_le) as Hts. set (n := size (h_cells h)) in *.
  destruct (rc_each_ok (rc_Remove n) (tally is_live) n
              (λ its h r, rc_le h1 h ∧ ∃ D', D' ⊆+ [i] ∧ RCI h r (its ++ R) D'))
    with (its := cell_items ci) (h := h1) (r := refs - 1)
    as (h' & refs' & -> & [Hle' (D' & HD' & HI')] & _ & _);
    [|done|done|lia|split; [apply rc_le_refl|by exists [i]]|].
  { intros x its h2 r Hwf2 Hx Hm [Hle2 (D2 & HD2 & HI2)].
    destruct (rc_Remove_D n x h2 r (its ++ R) D2) as (h3 & r3 & D3 & -> & HI3 & HD3 & Hle3 & Ht3);
      [done|done| |done|done|].
    - apply Forall_forall. intros d Hd. apply (dead_le h1 h2 r (x :: its ++ R) D2); [done|done|].
      eapply elem_of_submseteq in Hd; [|exact HD2]. by apply list_elem_of_singleton in Hd as ->.
    - exists h3, r3. split; [done|]. split; [|split; [apply Hle3|done]].
      split; [by eapply rc_le_trans|]. exists D3. split; [by etrans|done]. }
  cbn in HI'. pose proof (rc_le_trans _ _ _ Hle1 Hle') as Hle.
  destruct (h_sim_rc h h' l c rc (proj1 Hle) Hl Hc) as (c' & rc' & Hl' & Hc' & Hits').
  destruct (h_sim_get h h' l c (proj1 Hle) Hl) as (c'' & Hl'' & Her).
  assert (c'' = c') as -> by congruence.
  assert (c' = set_rc c rc') as Hcs.
  { destruct c, c'; cbn in *; try done; congruence. }
  exists h', refs', rc'. split_and!; [done|done|by rewrite Hl', Hcs|].
  destruct (h_sim_rc h1 h' li _ 0 (proj1 Hle') Hli1 Hci0) as (ci' & ri' & Hli' & Hci' & _).
  assert (ri' = 0) as ->.
  { apply (dead_le h1 h' refs' R D' i Hle' HI' Hd1 li ci' ri'); done. }
  destruct (proj1 HI' li ci' 0 Hli' Hci') as [_ Ho].
  rewrite (kids_get h' l c' Hl'), occ_app in Ho. unfold live_items in Ho.
  rewrite (IsReferenced_rc c' rc' Hc') in Ho.
  pose proof (occ_kids_but h h' refs' R D' li l Hle HI') as Hk.
  pose proof (occ_nonneg li (kids_but h' l)).
  destruct (proj1 HI' l c' rc' Hl' Hc') as [Hrc' _].
  assert (occ li [i] = 1) as Hi1 by (rewrite occ_cons, occ_nil, decide_True by done; done).
  assert (D' = [] ∨ D' = [i]) as [-> | ->].
  { destruct D' as [|d D']; [by left|]. right. pose proof (submseteq_length _ _ HD') as HL.
    cbn in HL. destruct D'; [|cbn in HL; lia].
    apply singleton_submseteq_l, list_elem_of_singleton in HD' as ->. done. }
  - right. split; [|done]. rewrite occ_nil in Ho.
    destruct (decide (rc' = 0)) as [|Hne]; [done|].
    rewrite bool_decide_eq_false_2 in Ho by done. cbn in Ho. rewrite Hits' in Ho. lia.
  - left. split; [|done].
    destruct (decide (rc' = 0)) as [->|Hne]; [|lia].
    rewrite bool_decide_eq_true_2 in Ho by done. cbn in Ho. rewrite occ_nil in Ho. lia.
Qed.

(** ** What the counter bounds *)

(** Compound items reachable from the roots. *)
Inductive reach (h : Heap) (R : list item) : loc → Prop :=
  | reach_root i l : i ∈ R → it_loc i = Some l → reach h R l
  | reach_in l c i l' :
      reach h R l → h_get h l = Some c → i ∈ cell_items c → it_loc i = Some l' → reach h R l'.

Lemma reach_live h refs R l c :
  heap_wf h → Forall (item_ok h) R → RCI h refs R [] →
  reach h R l → h_get h l = Some c → IsReferenced c = true.
Proof.
  intros Hwf HR HI Hr. revert c.
  assert (∀ l c rc, h_get h l = Some c → cell_rc c = Some rc →
            0 < occ l R + occ l (kids h) → IsReferenced c = true) as Hpos.
  { intros l' c rc Hl Hc Hp. destruct (proj1 HI l' c rc Hl Hc) as [_ He].
    rewrite occ_nil in He. rewrite (IsReferenced_rc c rc Hc).
    by rewrite bool_decide_eq_false_2 by lia. }
  induction Hr as [i l Hi Hil|l c0 i l' Hr IH Hl Hi Hil]; intros c Hc.
  - rewrite Forall_forall in HR.
    destruct (loc_compound h i l (HR i Hi) Hil) as (c' & rc & Hc' & Hrc). simplify_eq.
    apply (Hpos l c rc Hc Hrc). pose proof (elem_occ_pos l R i Hi Hil).
    pose proof (occ_nonneg l (kids h)). lia.
  - specialize (IH c0 Hl). pose proof (kids_elem h l c0 i Hl IH Hi) as Hk.
    pose proof (kids_ok h Hwf) as Hok. rewrite Forall_forall in Hok.
    destruct (loc_compound h i l' (Hok i Hk) Hil) as (c' & rc & Hc' & Hrc). simplify_eq.
    apply (Hpos l' c rc Hc Hrc). pose proof (elem_occ_pos l' (kids h) i Hk Hil).
    pose proof (occ_nonneg l' R). lia.
Qed.

(** Items of distinct live cells are among the kids. *)
Definition items_at (h : Heap) (l : loc) : list item :=
  match h_get h l with Some c => cell_items c | None => [] end.

Lemma kids_tally h : len (kids h) = Z.of_nat (tally (λ c, length (live_items c)) h).
Proof.
  unfold len, kids, tally. f_equal.
  induction (map_to_list (h_cells h)) as [|p l IH]; [done|].
  cbn. rewrite length_app. by rewrite IH.
Qed.

Lemma live_cells_bound h ls :
  NoDup ls → (∀ l c, l ∈ ls → h_get h l = Some c → IsReferenced c = true) →
  len (ls ≫= items_at h) <= len (kids h).
Proof.
  intros Hnd. revert h. induction Hnd as [|l ls Hl Hnd IH]; intros h Hlive; cbn.
  { pose proof (len_nonneg (kids h)). done. }
  rewrite len_app. unfold items_at at 1. destruct (h_get h l) as [c|] eqn:E.
  - rewrite (kids_get h l c E), len_app.
    assert (live_items c = cell_items c) as ->.
    { unfold live_items. by rewrite (Hlive l c (list_elem_of_here _ _) E). }
    set (h' := mkHeap (delete l (h_cells h)) (h_next h)).
    assert (kids_but h l = kids h') as -> by done.
    assert (ls ≫= items_at h = ls ≫= items_at h') as ->.
    { clear -Hl. induction ls as [|l' ls IH]; [done|]. cbn. apply not_elem_of_cons in Hl as [Hne Hl].
      rewrite IH by done. f_equal. unfold items_at, h_get, h'. cbn.
      by rewrite lookup_delete_ne. }
    enough (len (ls ≫= items_at h') <= len (kids h')) by lia.
    apply IH. intros l' c' Hin. unfold h_get, h'. cbn.
    rewrite lookup_delete_Some. intros [_ Hc']. apply (Hlive l' c'); [by right|done].
  - enough (len (ls ≫= items_at h) <= len (kids h)) by (rewrite len_nil; lia).
    apply IH. intros l' c' Hin. apply Hlive. by right.
Qed.

(** * Properties *)

(** Pushing an item on a root of a consistent counter with [Add] and
    dropping it with [Remove] terminate on any heap, cyclic ones included,
    change nothing but counts, and keep the counter consistent. *)
Theorem refcount_ops (h : Heap) (refs : Z) (R : list item) (i : item) :
  heap_wf h → item_ok h i →
  (RCI h refs R [] → rc_post h (i :: R) [] (rc_Add (rc_fuel h) i (h, refs)))
  ∧ (RCI h refs (i :: R) [] → rc_post h R [] (rc_Remove (rc_fuel h) i (h, refs))).
Proof. intros Hwf Hi. split; intros HI; [by apply Add_ok|by apply Remove_ok]. Qed.

(** A consistent counter bounds the number of items there are: those on
    the roots and those inside any set of distinct compound items reachable
    from them. *)
Theorem refcount_bounds (h : Heap) (refs : Z) (R : list item) (ls : list loc) :
  heap_wf h → Forall (item_ok h) R → RCI h refs R [] →
  NoDup ls → (∀ l, l ∈ ls → reach h R l) →
  len R + len (ls ≫= items_at h) <= refs.
Proof.
  intros Hwf HR HI Hnd Hreach. pose proof (proj2 HI) as H2. rewrite len_nil in H2.
  enough (len (ls ≫= items_at h) <= len (kids h)) by lia.
  apply live_cells_bound; [done|]. intros l c Hin Hl. by eapply reach_live; [..|apply Hreach|].
Qed.

(** ** Witnesses *)

(** A struct that contains itself and an integer, referenced once more from the
    outside. *)
Definition w_cyc : Heap := mkHeap {[ 1%positive := CSeq [Struct 1; Integer 5] 2 false ]} 2.

Lemma w_cyc_wf : heap_wf w_cyc.
Proof.
  intros l c Hl. unfold h_get in Hl. cbn in Hl. apply lookup_singleton_Some in Hl as [<- <-].
  split; [cbn; lia|]. split; [|done]. repeat constructor; done.
Qed.

Lemma w_cyc_RCI : RCI w_cyc 3 [Struct 1] [].
Proof.
  split; [|reflexivity]. intros l c rc Hl Hc. unfold h_get in Hl. cbn in Hl.
  apply lookup_singleton_Some in Hl as [<- <-]. cbn in Hc. injection Hc as <-.
  split; [done|]. vm_compute. reflexivity.
Qed.

Lemma refcount_ops_witness :
  RCI w_cyc 3 [Struct 1] [] ∧ rc_post w_cyc [Struct 1; Struct 1] []
    (rc_Add (rc_fuel w_cyc) (Struct 1) (w_cyc, 3)).
Proof.
  split; [exact w_cyc_RCI|].
  exact (proj1 (refcount_ops w_cyc 3 [Struct 1] (Struct 1) w_cyc_wf eq_refl) w_cyc_RCI).
Defined.

Lemma refcount_bounds_witness :
  RCI w_cyc 3 [Struct 1] [] ∧ len [Struct 1] + len ([1%positive] ≫= items_at w_cyc) <= 3.
Proof.
  split; [exact w_cyc_RCI|].
  apply (refcount_bounds w_cyc 3 [Struct 1] [1%positive] w_cyc_wf).
  - repeat constructor.
  - exact w_cyc_RCI.
  - repeat constructor. set_solver.
  - intros l Hl. apply list_elem_of_singleton in Hl as ->.
    apply (reach_root _ _ (Struct 1)); [left|reflexivity].
Defined.
