(* ===== verification/Script.v ===== *)
(** * Script: opcodes and the script parser

    Models [pkg/vm/opcode/opcode.go] and [pkg/smartcontract/scparser]: the
    opcodes with their codes, the parsing context ([context.go]) that fetches an
    instruction with its parameter and computes jump targets, and the script
    checks of [contract_checks.go].  The identifiers of interop functions are
    computed by a hash outside of this package and are parameters. *)

From S2P Require Import Prelude StackItem Bitfield.

(** ** Opcodes *)

Inductive Opcode :=
  | PUSHINT8 | PUSHINT16 | PUSHINT32 | PUSHINT64 | PUSHINT128 | PUSHINT256 | PUSHT
  | PUSHF | PUSHA | PUSHNULL | PUSHDATA1 | PUSHDATA2 | PUSHDATA4 | PUSHM1 | PUSH0
  | PUSH1 | PUSH2 | PUSH3 | PUSH4 | PUSH5 | PUSH6 | PUSH7 | PUSH8 | PUSH9 | PUSH10
  | PUSH11 | PUSH12 | PUSH13 | PUSH14 | PUSH15 | PUSH16 | NOP | JMP | JMPL | JMPIF
  | JMPIFL | JMPIFNOT | JMPIFNOTL | JMPEQ | JMPEQL | JMPNE | JMPNEL | JMPGT | JMPGTL
  | JMPGE | JMPGEL | JMPLT | JMPLTL | JMPLE | JMPLEL | CALL | CALLL | CALLA | CALLT
  | ABORT | ASSERT | THROW | TRY | TRYL | ENDTRY | ENDTRYL | ENDFINALLY | RET | SYSCALL
  | DEPTH | DROP | NIP | XDROP | CLEAR | DUP | OVER | PICK | TUCK | SWAP | ROT | ROLL
  | REVERSE3 | REVERSE4 | REVERSEN | INITSSLOT | INITSLOT | LDSFLD0 | LDSFLD1 | LDSFLD2
  | LDSFLD3 | LDSFLD4 | LDSFLD5 | LDSFLD6 | LDSFLD | STSFLD0 | STSFLD1 | STSFLD2
  | STSFLD3 | STSFLD4 | STSFLD5 | STSFLD6 | STSFLD | LDLOC0 | LDLOC1 | LDLOC2 | LDLOC3
  | LDLOC4 | LDLOC5 | LDLOC6 | LDLOC | STLOC0 | STLOC1 | STLOC2 | STLOC3 | STLOC4
  | STLOC5 | STLOC6 | STLOC | LDARG0 | LDARG1 | LDARG2 | LDARG3 | LDARG4 | LDARG5
  | LDARG6 | LDARG | STARG0 | STARG1 | STARG2 | STARG3 | STARG4 | STARG5 | STARG6
  | STARG | NEWBUFFER | MEMCPY | CAT | SUBSTR | LEFT | RIGHT | INVERT | AND | OR | XOR
  | EQUAL | NOTEQUAL | SIGN | ABS | NEGATE | INC | DEC | ADD | SUB | MUL | DIV | MOD
  | POW | SQRT | MODMUL | MODPOW | SHL | SHR | NOT | BOOLAND | BOOLOR | NZ | NUMEQUAL
  | NUMNOTEQUAL | LT | LE | GT | GE | MIN | MAX | WITHIN | PACKMAP | PACKSTRUCT | PACK
  | UNPACK | NEWARRAY0 | NEWARRAY | NEWARRAYT | NEWSTRUCT0 | NEWSTRUCT | NEWMAP | SIZE
  | HASKEY | KEYS | VALUES | PICKITEM | APPEND | SETITEM | REVERSEITEMS | REMOVE
  | CLEARITEMS | POPITEM | ISNULL | ISTYPE | CONVERT | ABORTMSG | ASSERTMSG.

(** The code of an opcode. *)
Definition op_code (op : Opcode) : Z :=
  match op with
  | PUSHINT8 => 0 | PUSHINT16 => 1 | PUSHINT32 => 2 | PUSHINT64 => 3 | PUSHINT128 => 4
  | PUSHINT256 => 5 | PUSHT => 8 | PUSHF => 9 | PUSHA => 10 | PUSHNULL => 11
  | PUSHDATA1 => 12 | PUSHDATA2 => 13 | PUSHDATA4 => 14 | PUSHM1 => 15 | PUSH0 => 16
  | PUSH1 => 17 | PUSH2 => 18 | PUSH3 => 19 | PUSH4 => 20 | PUSH5 => 21 | PUSH6 => 22
  | PUSH7 => 23 | PUSH8 => 24 | PUSH9 => 25 | PUSH10 => 26 | PUSH11 => 27
  | PUSH12 => 28 | PUSH13 => 29 | PUSH14 => 30 | PUSH15 => 31 | PUSH16 => 32
  | NOP => 33 | JMP => 34 | JMPL => 35 | JMPIF => 36 | JMPIFL => 37 | JMPIFNOT => 38
  | JMPIFNOTL => 39 | JMPEQ => 40 | JMPEQL => 41 | JMPNE => 42 | JMPNEL => 43
  | JMPGT => 44 | JMPGTL => 45 | JMPGE => 46 | JMPGEL => 47 | JMPLT => 48
  | JMPLTL => 49 | JMPLE => 50 | JMPLEL => 51 | CALL => 52 | CALLL => 53 | CALLA => 54
  | CALLT => 55 | ABORT => 56 | ASSERT => 57 | THROW => 58 | TRY => 59 | TRYL => 60
  | ENDTRY => 61 | ENDTRYL => 62 | ENDFINALLY => 63 | RET => 64 | SYSCALL => 65
  | DEPTH => 67 | DROP => 69 | NIP => 70 | XDROP => 72 | CLEAR => 73 | DUP => 74
  | OVER => 75 | PICK => 77 | TUCK => 78 | SWAP => 80 | ROT => 81 | ROLL => 82
  | REVERSE3 => 83 | REVERSE4 => 84 | REVERSEN => 85 | INITSSLOT => 86 | INITSLOT => 87
  | LDSFLD0 => 88 | LDSFLD1 => 89 | LDSFLD2 => 90 | LDSFLD3 => 91 | LDSFLD4 => 92
  | LDSFLD5 => 93 | LDSFLD6 => 94 | LDSFLD => 95 | STSFLD0 => 96 | STSFLD1 => 97
  | STSFLD2 => 98 | STSFLD3 => 99 | STSFLD4 => 100 | STSFLD5 => 101 | STSFLD6 => 102
  | STSFLD => 103 | LDLOC0 => 104 | LDLOC1 => 105 | LDLOC2 => 106 | LDLOC3 => 107
  | LDLOC4 => 108 | LDLOC5 => 109 | LDLOC6 => 110 | LDLOC => 111 | STLOC0 => 112
  | STLOC1 => 113 | STLOC2 => 114 | STLOC3 => 115 | STLOC4 => 116 | STLOC5 => 117
  | STLOC6 => 118 | STLOC => 119 | LDARG0 => 120 | LDARG1 => 121 | LDARG2 => 122
  | LDARG3 => 123 | LDARG4 => 124 | LDARG5 => 125 | LDARG6 => 126 | LDARG => 127
  | STARG0 => 128 | STARG1 => 129 | STARG2 => 130 | STARG3 => 131 | STARG4 => 132
  | STARG5 => 133 | STARG6 => 134 | STARG => 135 | NEWBUFFER => 136 | MEMCPY => 137
  | CAT => 139 | SUBSTR => 140 | LEFT => 141 | RIGHT => 142 | INVERT => 144
  | AND => 145 | OR => 146 | XOR => 147 | EQUAL => 151 | NOTEQUAL => 152 | SIGN => 153
  | ABS => 154 | NEGATE => 155 | INC => 156 | DEC => 157 | ADD => 158 | SUB => 159
  | MUL => 160 | DIV => 161 | MOD => 162 | POW => 163 | SQRT => 164 | MODMUL => 165
  | MODPOW => 166 | SHL => 168 | SHR => 169 | NOT => 170 | BOOLAND => 171
  | BOOLOR => 172 | NZ => 177 | NUMEQUAL => 179 | NUMNOTEQUAL => 180 | LT => 181
  | LE => 182 | GT => 183 | GE => 184 | MIN => 185 | MAX => 186 | WITHIN => 187
  | PACKMAP => 190 | PACKSTRUCT => 191 | PACK => 192 | UNPACK => 193 | NEWARRAY0 => 194
  | NEWARRAY => 195 | NEWARRAYT => 196 | NEWSTRUCT0 => 197 | NEWSTRUCT => 198
  | NEWMAP => 200 | SIZE => 202 | HASKEY => 203 | KEYS => 204 | VALUES => 205
  | PICKITEM => 206 | APPEND => 207 | SETITEM => 208 | REVERSEITEMS => 209
  | REMOVE => 210 | CLEARITEMS => 211 | POPITEM => 212 | ISNULL => 216 | ISTYPE => 217
  | CONVERT => 219 | ABORTMSG => 224 | ASSERTMSG => 225
  end.

Definition opcodes : list Opcode :=
  [
   PUSHINT8; PUSHINT16; PUSHINT32; PUSHINT64; PUSHINT128; PUSHINT256; PUSHT; PUSHF;
   PUSHA; PUSHNULL; PUSHDATA1; PUSHDATA2; PUSHDATA4; PUSHM1; PUSH0; PUSH1; PUSH2;
   PUSH3; PUSH4; PUSH5; PUSH6; PUSH7; PUSH8; PUSH9; PUSH10; PUSH11; PUSH12; PUSH13;
   PUSH14; PUSH15; PUSH16; NOP; JMP; JMPL; JMPIF; JMPIFL; JMPIFNOT; JMPIFNOTL; JMPEQ;
   JMPEQL; JMPNE; JMPNEL; JMPGT; JMPGTL; JMPGE; JMPGEL; JMPLT; JMPLTL; JMPLE; JMPLEL;
   CALL; CALLL; CALLA; CALLT; ABORT; ASSERT; THROW; TRY; TRYL; ENDTRY; ENDTRYL;
   ENDFINALLY; RET; SYSCALL; DEPTH; DROP; NIP; XDROP; CLEAR; DUP; OVER; PICK; TUCK;
   SWAP; ROT; ROLL; REVERSE3; REVERSE4; REVERSEN; INITSSLOT; INITSLOT; LDSFLD0;
   LDSFLD1; LDSFLD2; LDSFLD3; LDSFLD4; LDSFLD5; LDSFLD6; LDSFLD; STSFLD0; STSFLD1;
   STSFLD2; STSFLD3; STSFLD4; STSFLD5; STSFLD6; STSFLD; LDLOC0; LDLOC1; LDLOC2; LDLOC3;
   LDLOC4; LDLOC5; LDLOC6; LDLOC; STLOC0; STLOC1; STLOC2; STLOC3; STLOC4; STLOC5;
   STLOC6; STLOC; LDARG0; LDARG1; LDARG2; LDARG3; LDARG4; LDARG5; LDARG6; LDARG;
   STARG0; STARG1; STARG2; STARG3; STARG4; STARG5; STARG6; STARG; NEWBUFFER; MEMCPY;
   CAT; SUBSTR; LEFT; RIGHT; INVERT; AND; OR; XOR; EQUAL; NOTEQUAL; SIGN; ABS; NEGATE;
   INC; DEC; ADD; SUB; MUL; DIV; MOD; POW; SQRT; MODMUL; MODPOW; SHL; SHR; NOT;
   BOOLAND; BOOLOR; NZ; NUMEQUAL; NUMNOTEQUAL; LT; LE; GT; GE; MIN; MAX; WITHIN;
   PACKMAP; PACKSTRUCT; PACK; UNPACK; NEWARRAY0; NEWARRAY; NEWARRAYT; NEWSTRUCT0;
   NEWSTRUCT; NEWMAP; SIZE; HASKEY; KEYS; VALUES; PICKITEM; APPEND; SETITEM;
   REVERSEITEMS; REMOVE; CLEARITEMS; POPITEM; ISNULL; ISTYPE; CONVERT; ABORTMSG;
   ASSERTMSG
  ].

(** The opcode of a byte; [None] is a byte for which [IsValid] is false. *)
Definition op_of (b : Z) : option Opcode :=
  snd <$> list_find (λ op, op_code op = b) opcodes.

Lemma op_of_code op : op_of (op_code op) = Some op.
Proof. destruct op; vm_compute; reflexivity. Qed.

#[export] Instance op_code_inj : Inj (=) (=) op_code.
Proof. intros a b Hab. pose proof (op_of_code a). rewrite Hab, op_of_code in H. congruence. Qed.

#[export] Instance Opcode_eq_dec : EqDecision Opcode.
Proof.
  intros a b. refine (cast_if (decide (op_code a = op_code b))); [by apply op_code_inj|congruence].
Defined.

Definition op_IsValid (b : Z) : bool :=
  match op_of b with Some _ => true | None => false end.

(** ** The parsing context *)

Inductive perr := ErrIncorrectOpcode | ErrNoInstParam | ErrParamTooBig | ErrInvalidOffset
  | ErrInvalidLength | ErrInvalidTypeSpec | ErrWrongJump | ErrWrongMethod.

#[export] Instance perr_eq_dec : EqDecision perr.
Proof. solve_decision. Defined.

Record Context := mkCtx { c_ip : Z; c_nextip : Z; c_prog : bytes }.

Definition NewContext (b : bytes) (pos : Z) : Context := mkCtx 0 pos b.

Definition LenInstr (c : Context) : Z := Z.of_nat (length (c_prog c)).

(** [prog[i]]; [None] is the index panic. *)
Definition byte_at (prog : bytes) (i : Z) : option byte :=
  if bool_decide (i < 0) then None else prog !! Z.to_nat i.

(** [prog[i:j]]; [None] is the slice panic. *)
Definition slice (prog : bytes) (i j : Z) : option bytes :=
  if bool_decide (0 <= i <= j) && bool_decide (j <= Z.of_nat (length prog))
  then Some (take (Z.to_nat (j - i)) (drop (Z.to_nat i) prog)) else None.

Definition Jump (c : Context) (pos : Z) : res perr Context :=
  if bool_decide (pos < 0) || bool_decide (LenInstr c <= pos) then Panic
  else Ok (mkCtx (c_ip c) pos (c_prog c)).

(** How the parameter of an instruction is sized: the length read from the
    script after the opcode, a fixed length, or none. *)
Definition fixed_param (op : Opcode) : option Z :=
  match op with
  | JMP | JMPIF | JMPIFNOT | JMPEQ | JMPNE | JMPGT | JMPGE | JMPLT | JMPLE
  | CALL | ISTYPE | CONVERT | NEWARRAYT | ENDTRY
  | INITSSLOT | LDSFLD | STSFLD | LDARG | STARG | LDLOC | STLOC => Some 1
  | INITSLOT | TRY | CALLT => Some 2
  | JMPL | JMPIFL | JMPIFNOTL | JMPEQL | JMPNEL | JMPGTL | JMPGEL | JMPLTL | JMPLEL
  | ENDTRYL | CALLL | SYSCALL | PUSHA => Some 4
  | TRYL => Some 8
  | _ =>
      if bool_decide (op_code op <= op_code PUSHINT256) then Some (Z.shiftl 1 (op_code op))
      else None
  end.

(** The part of [Next] after the opcode: where the parameter starts and how
    long it is; [Ok None] for an instruction without parameter. *)
Definition param_span (op : Opcode) (prog : bytes) (nextip : Z) : res perr (option (Z * Z)) :=
  let l := Z.of_nat (length prog) in
  match op with
  | PUSHDATA1 =>
      if bool_decide (l <= nextip) then Err ErrNoInstParam else
      match byte_at prog nextip with
      | Some b => Ok (Some (nextip + 1, b2z b))
      | None => Panic
      end
  | PUSHDATA2 =>
      if bool_decide (l <= nextip + 1) then Err ErrNoInstParam else
      match slice prog nextip (nextip + 2) with
      | Some s => Ok (Some (nextip + 2, le_val s))
      | None => Panic
      end
  | PUSHDATA4 =>
      if bool_decide (l <= nextip + 3) then Err ErrNoInstParam else
      match slice prog nextip (nextip + 4) with
      | Some s =>
          let n := le_val s in
          if bool_decide (MaxSize < n) then Err ErrParamTooBig else Ok (Some (nextip + 4, n))
      | None => Panic
      end
  | _ => Ok (match fixed_param op with Some n => Some (nextip, n) | None => None end)
  end.

(** [Next]: on an error the instruction pointers do not matter to the callers,
    which stop. *)
Definition Next (c : Context) : res perr (Opcode * bytes * Context) :=
  let prog := c_prog c in
  let ip := c_nextip c in
  if bool_decide (Z.of_nat (length prog) <= ip) then
    Ok (RET, [], mkCtx ip (c_nextip c) prog) else
  match byte_at prog ip with
  | None => Panic
  | Some instrbyte =>
      match op_of (b2z instrbyte) with
      | None => Err ErrIncorrectOpcode
      | Some instr =>
          let nextip := ip + 1 in
          sp ← param_span instr prog nextip;
          match sp with
          | None => Ok (instr, [], mkCtx ip nextip prog)
          | Some (start, numtoread) =>
              if bool_decide (Z.of_nat (length prog) <= start + numtoread - 1)
              then Err ErrNoInstParam else
              match slice prog start (start + numtoread) with
              | Some parameter => Ok (instr, parameter, mkCtx ip (start + numtoread) prog)
              | None => Panic
              end
          end
      end
  end.

(** [NextInstr]: [None] is a byte that is not an opcode. *)
Definition NextInstr (c : Context) : Z * option Opcode :=
  (c_nextip c,
   if bool_decide (c_nextip c < LenInstr c) then
     match byte_at (c_prog c) (c_nextip c) with Some b => op_of (b2z b) | None => None end
   else Some RET).

(** [CalcJumpOffset]: the absolute and the relative offset. *)
Definition CalcJumpOffset (c : Context) (parameter : bytes) : res perr (Z * Z) :=
  r ← match parameter with
      | [b] => Ok (wrap_s 8 (b2z b))
      | [_; _; _; _] => Ok (i32 (le_val parameter))
      | _ => Err ErrInvalidLength
      end;
  let offset := c_ip c + r in
  if bool_decide (offset < 0) || bool_decide (LenInstr c < offset) then Err ErrInvalidOffset
  else Ok (offset, r).

Definition GetTryParams (op : Opcode) (p : bytes) : bytes * bytes :=
  let i := if bool_decide (op = TRYL) then 4%nat else 1%nat in (take i p, drop i p).

(** ** Script checks *)

Definition is_jump (op : Opcode) : bool :=
  match op with
  | JMP | JMPIF | JMPIFNOT | JMPEQ | JMPNE | JMPGT | JMPGE | JMPLT | JMPLE
  | CALL | ENDTRY | JMPL | JMPIFL | JMPIFNOTL | JMPEQL | JMPNEL
  | JMPGTL | JMPGEL | JMPLTL | JMPLEL | ENDTRYL | CALLL | PUSHA => true
  | _ => false
  end.

(** Record one jump target; the end of the script is not recorded. *)
Definition mark_jump (script : bytes) (ctx : Context) (param : bytes) (jumps : Field)
    : res perr Field :=
  '(off, _) ← CalcJumpOffset ctx param;
  if negb (bool_decide (off = Z.of_nat (length script))) then Set_ jumps off else Ok jumps.

Definition check_instr (script : bytes) (ctx : Context) (op : Opcode) (param : bytes)
    (jumps : Field) : res perr Field :=
  if is_jump op then mark_jump script ctx param jumps else
  match op with
  | TRY | TRYL =>
      let '(catchP, finallyP) := GetTryParams op param in
      jumps ← mark_jump script ctx catchP jumps;
      mark_jump script ctx finallyP jumps
  | NEWARRAYT | ISTYPE | CONVERT =>
      match param with
      | typ :: _ =>
          if negb (IsValid (b2z typ)) then Err ErrInvalidTypeSpec else
          if bool_decide (b2z typ = AnyT) && negb (bool_decide (op = NEWARRAYT))
          then Err ErrInvalidTypeSpec else Ok jumps
      | [] => Panic
      end
  | _ => Ok jumps
  end.

(** The loop of [IsScriptCorrect]; every iteration consumes a byte at least, so
    [fuel] from the length of the script on never runs out. *)
Fixpoint check_loop (fuel : nat) (script : bytes) (ctx : Context) (instrs jumps : Field)
    : res perr (Field * Field) :=
  if bool_decide (c_nextip ctx < Z.of_nat (length script)) then
    match fuel with
    | O => Panic
    | S fuel =>
        '(op, param, ctx) ← Next ctx;
        instrs ← Set_ instrs (c_ip ctx);
        jumps ← check_instr script ctx op param jumps;
        check_loop fuel script ctx instrs jumps
    end
  else Ok (instrs, jumps).

Definition IsScriptCorrect (script : bytes) (methods : option Field) : res perr unit :=
  let l := Z.of_nat (length script) in
  '(instrs, jumps) ← check_loop (length script) script (NewContext script 0) (New l) (New l);
  if negb (IsSubset jumps instrs) then Err ErrWrongJump else
  match methods with
  | Some m => if negb (IsSubset m instrs) then Err ErrWrongMethod else Ok tt
  | None => Ok tt
  end.

(** * Lemmas *)

Lemma op_code_range op : 0 <= op_code op < 256.
Proof. by destruct op. Qed.

Lemma op_of_Some b op : op_of b = Some op ↔ op_code op = b.
Proof.
  split; [|intros <-; apply op_of_code].
  unfold op_of. intros H. apply fmap_Some in H as ([i o] & Ho & ->).
  by apply list_find_Some in Ho as (_ & ? & _).
Qed.

Lemma byte_at_in prog i : 0 <= i < Z.of_nat (length prog) → ∃ b, byte_at prog i = Some b.
Proof.
  intros Hi. unfold byte_at. rewrite bool_decide_eq_false_2 by lia.
  apply lookup_lt_is_Some_2. lia.
Qed.

Lemma slice_in prog i j :
  0 <= i <= j → j <= Z.of_nat (length prog) →
  slice prog i j = Some (take (Z.to_nat (j - i)) (drop (Z.to_nat i) prog)).
Proof. intros Hi Hj. unfold slice. by rewrite !bool_decide_eq_true_2. Qed.

Lemma slice_length prog i j s : slice prog i j = Some s → Z.of_nat (length s) = j - i.
Proof.
  unfold slice. case_bool_decide; [|done]. case_bool_decide; [|done]. intros [= <-].
  rewrite length_take, length_drop. lia.
Qed.

(** Where the parameter of an instruction lies. *)
Lemma param_span_spec op prog nextip :
  0 <= nextip →
  match param_span op prog nextip with
  | Ok (Some (start, n)) =>
      nextip <= start ∧ 0 <= n
      ∧ match fixed_param op with Some k => start = nextip ∧ n = k | None => nextip < start end
  | Ok None => fixed_param op = None
  | Err e => e = ErrNoInstParam ∨ e = ErrParamTooBig
  | Panic => False
  end.
Proof.
  intros Hn.
  assert (∀ k op', fixed_param op' = Some k → 0 <= k) as Hfix.
  { intros k op'. destruct op'; vm_compute; intros [=]; subst; congruence. }
  assert (match (Ok (match fixed_param op with Some n => Some (nextip, n) | None => None end)
                 : res perr (option (Z * Z))) with
          | Ok (Some (start, n)) =>
              nextip <= start ∧ 0 <= n
              ∧ match fixed_param op with Some k => start = nextip ∧ n = k | None => nextip < start end
          | Ok None => fixed_param op = None
          | Err e => e = ErrNoInstParam ∨ e = ErrParamTooBig
          | Panic => False
          end) as Hgen.
  { destruct (fixed_param op) as [k|] eqn:E; [|done]. split_and!; [lia|by eapply Hfix|done..]. }
  destruct op; try exact Hgen; cbn [param_span]; clear Hgen.
  - case_bool_decide; [by left|]. destruct (byte_at_in prog nextip) as [b ->]; [lia|].
    pose proof (b2z_range b). change (fixed_param PUSHDATA1) with (@None Z). lia.
  - case_bool_decide; [by left|]. rewrite slice_in by lia.
    pose proof (le_val_range (take (Z.to_nat (nextip + 2 - nextip)) (drop (Z.to_nat nextip) prog))).
    change (fixed_param PUSHDATA2) with (@None Z). lia.
  - case_bool_decide; [by left|]. rewrite slice_in by lia. cbv zeta.
    pose proof (le_val_range (take (Z.to_nat (nextip + 4 - nextip)) (drop (Z.to_nat nextip) prog))).
    case_bool_decide; [by right|]. change (fixed_param PUSHDATA4) with (@None Z). lia.
Qed.

(** [Next] from a non-negative position never panics, moves the instruction
    pointer to it and the next one past the parameter, inside the script. *)
Lemma Next_spec c :
  0 <= c_nextip c →
  match Next c with
  | Ok (op, param, c') =>
      c_ip c' = c_nextip c ∧ c_prog c' = c_prog c ∧
      if bool_decide (c_nextip c < LenInstr c) then
        byte_at (c_prog c) (c_nextip c) = Some (z2b (op_code op))
        ∧ c_nextip c < c_nextip c' <= LenInstr c
        ∧ slice (c_prog c) (c_nextip c' - Z.of_nat (length param)) (c_nextip c') = Some param
        ∧ match fixed_param op with
          | Some k => Z.of_nat (length param) = k ∧ c_nextip c' = c_nextip c + 1 + k
          | None => True
          end
      else op = RET ∧ param = [] ∧ c_nextip c' = c_nextip c
  | Err e => c_nextip c < LenInstr c
  | Panic => False
  end.
Proof.
  intros Hn. unfold Next, LenInstr. case_bool_decide as Hend.
  { cbn. rewrite bool_decide_eq_false_2 by lia. done. }
  destruct (byte_at_in (c_prog c) (c_nextip c)) as [b Hb]; [lia|]. rewrite Hb.
  destruct (op_of (b2z b)) as [op|] eqn:Hop; [|lia].
  apply op_of_Some in Hop.
  pose proof (param_span_spec op (c_prog c) (c_nextip c + 1) ltac:(lia)) as Hsp.
  destruct (param_span op (c_prog c) (c_nextip c + 1)) as [[[start n]|]|e|]; cbn; [| |lia|done].
  - destruct Hsp as (Hs & Hn0 & Hfix). case_bool_decide as Hlen; [lia|].
    rewrite slice_in by lia. cbn. rewrite bool_decide_eq_true_2 by lia.
    assert (Z.of_nat (length (take (Z.to_nat (start + n - start)) (drop (Z.to_nat start) (c_prog c)))) = n)
      as Hl by (rewrite length_take, length_drop; lia).
    split_and!; [done|done| |lia|lia| |].
    + by rewrite Hop, z2b_b2z.
    + rewrite Hl. replace (start + n - n) with start by lia.
      rewrite slice_in by lia. done.
    + destruct (fixed_param op) as [k|]; [|done]. lia.
  - rewrite bool_decide_eq_true_2 by lia. split_and!; [done|done| |lia|lia| |].
    + by rewrite Hop, z2b_b2z.
    + replace (c_nextip c + 1 - Z.of_nat 0) with (c_nextip c + 1) by lia.
      rewrite slice_in by lia. by rewrite Z.sub_diag.
    + by rewrite Hsp.
Qed.

Lemma CalcJumpOffset_spec c p :
  match CalcJumpOffset c p with
  | Ok (off, r) => 0 <= off <= LenInstr c ∧ off = c_ip c + r
  | Err e => e = ErrInvalidOffset ∨ e = ErrInvalidLength
  | Panic => False
  end.
Proof.
  unfold CalcJumpOffset.
  assert (∀ r, match (let offset := c_ip c + r in
                if bool_decide (offset < 0) || bool_decide (LenInstr c < offset)
                then Err ErrInvalidOffset else Ok (offset, r)) with
          | Ok (off, r) => 0 <= off <= LenInstr c ∧ off = c_ip c + r
          | Err e => e = ErrInvalidOffset ∨ e = ErrInvalidLength
          | Panic => False
          end) as Hgen.
  { intros r. cbv zeta. case_bool_decide; [by left|]. case_bool_decide; [by left|]. cbn. lia. }
  destruct p as [|b0 [|b1 [|b2 [|b3 [|]]]]]; cbn [mbind res_bind]; try (by right); apply Hgen.
Qed.

(** ** Scripts as sequences of instructions *)

Section script.
Context (script : bytes).

Definition at_ (ip : Z) : Context := mkCtx 0 ip script.
Definition slen : Z := Z.of_nat (length script).

(** [steps i j]: decoding from offset [i] gets to offset [j]. *)
Inductive steps (i : Z) : Z → Prop :=
  | steps_refl : steps i i
  | steps_next j op p c :
      steps i j → j < slen → Next (at_ j) = Ok (op, p, c) → steps i (c_nextip c).

(** Instruction boundaries of the script. *)
Definition instr_at (j : Z) : Prop := steps 0 j ∧ j < slen.

(** The parameters of an instruction that are jump offsets. *)
Definition jump_params (op : Opcode) (p : bytes) : list bytes :=
  if is_jump op then [p] else
  match op with TRY | TRYL => [(GetTryParams op p).1; (GetTryParams op p).2] | _ => [] end.

Definition type_ok (op : Opcode) (p : bytes) : bool :=
  match op with
  | NEWARRAYT => match p with t :: _ => IsValid (b2z t) | [] => false end
  | ISTYPE | CONVERT =>
      match p with t :: _ => IsValid (b2z t) && negb (bool_decide (b2z t = AnyT)) | [] => false end
  | _ => true
  end.

(** The instruction at an offset decodes, has jump targets in the script or at
    its end, and names a proper type. *)
Definition decodes (i : Z) : Prop :=
  ∃ op p c, Next (at_ i) = Ok (op, p, c)
    ∧ Forall (λ q, is_ok (CalcJumpOffset c q) = true) (jump_params op p)
    ∧ type_ok op p = true.

(** [j] is the target of the instruction at [i]. *)
Definition targets (i j : Z) : Prop :=
  ∃ op p c q r, Next (at_ i) = Ok (op, p, c) ∧ q ∈ jump_params op p
    ∧ CalcJumpOffset c q = Ok (j, r).

Definition field_ok (f : Field) : Prop := wf_field f ∧ length f = length (New slen).

Lemma field_set f i :
  field_ok f → 0 <= i < slen →
  ∃ f', Set_ (E := perr) f i = Ok f' ∧ field_ok f' ∧ ∀ j, bit f' j = bool_decide (i = j) || bit f j.
Proof.
  intros [Hw Hl] Hi. destruct (Set_spec (E := perr) f i Hw) as (f' & Hs & Hw' & Hl' & Hb).
  - lia.
  - rewrite Hl. by apply New_in_range.
  - exists f'. split; [done|]. split; [|done]. split; [done|]. by rewrite Hl'.
Qed.

Lemma mark_jump_spec c q jumps :
  c_prog c = script → field_ok jumps →
  match mark_jump script c q jumps with
  | Ok jumps' => field_ok jumps' ∧ ∃ off r, CalcJumpOffset c q = Ok (off, r)
      ∧ ∀ j, bit jumps' j = true ↔ bit jumps j = true ∨ j = off ∧ off ≠ slen
  | Err e => is_ok (CalcJumpOffset c q) = false
  | Panic => False
  end.
Proof.
  intros Hc Hf. unfold mark_jump. pose proof (CalcJumpOffset_spec c q) as Hj.
  destruct (CalcJumpOffset c q) as [[off r]|e|]; cbn; [|done..].
  destruct Hj as [Hr _]. unfold LenInstr in Hr. rewrite Hc in Hr. fold slen in Hr |- *.
  case_bool_decide as He; cbn.
  - split; [done|]. exists off, r. split; [done|]. intros j. naive_solver.
  - destruct (field_set jumps off Hf) as (f' & -> & Hf' & Hb); [lia|]. split; [done|].
    exists off, r. split; [done|]. intros j. rewrite Hb, orb_true_iff, bool_decide_eq_true.
    naive_solver.
Qed.

(** What checking one instruction does to the recorded jump targets. *)
Lemma check_instr_spec i op p c jumps :
  0 <= i < slen → Next (at_ i) = Ok (op, p, c) → field_ok jumps →
  match check_instr script c op p jumps with
  | Ok jumps' => field_ok jumps' ∧ decodes i
      ∧ ∀ j, bit jumps' j = true ↔ bit jumps j = true ∨ targets i j ∧ j ≠ slen
  | Err e => ¬ decodes i
  | Panic => False
  end.
Proof.
  intros Hi HN Hf. pose proof (Next_spec (at_ i) ltac:(cbn; lia)) as Hspec. rewrite HN in Hspec.
  destruct Hspec as (_ & Hprog & Hspec). cbn in Hprog.
  rewrite bool_decide_eq_true_2 in Hspec by (unfold LenInstr; cbn; fold slen; lia).
  destruct Hspec as (_ & _ & _ & Hfix).
  assert (∀ j, targets i j ↔ ∃ q r, q ∈ jump_params op p ∧ CalcJumpOffset c q = Ok (j, r)) as Ht.
  { intros j. split; [|intros (q & r & Hq & Hc); exists op, p, c, q, r; by split_and!].
    intros (op' & p' & c' & q & r & HN' & H). rewrite HN in HN'.
    injection HN' as <- <- <-. by exists q, r. }
  assert (decodes i ↔ Forall (λ q, is_ok (CalcJumpOffset c q) = true) (jump_params op p)
            ∧ type_ok op p = true) as Hd.
  { split; [|by exists op, p, c]. intros (op' & p' & c' & HN' & H). rewrite HN in HN'.
    by injection HN' as <- <- <-. }
  unfold check_instr. destruct (is_jump op) eqn:Hjmp.
  { assert (jump_params op p = [p]) as Hjp by (unfold jump_params; by rewrite Hjmp).
    assert (type_ok op p = true) as Hto by (by destruct op).
    rewrite Hjp in Ht, Hd. pose proof (mark_jump_spec c p jumps Hprog Hf) as Hm.
    destruct (mark_jump script c p jumps) as [jumps'|e|]; [| |done].
    - destruct Hm as (Hf' & off & r & Hc & Hb). split_and!; [done| |].
      + apply Hd. split; [|done]. repeat constructor. by rewrite Hc.
      + intros j. rewrite Hb, Ht. setoid_rewrite list_elem_of_singleton.
        split.
        * intros [?|[-> ?]]; [by left|right]. split; [by exists p, r|done].
        * intros [?|[(q & r' & -> & Hq) Hne]]; [by left|right].
          rewrite Hc in Hq. by injection Hq as -> _.
    - rewrite Hd. intros [Hall _]. apply Forall_cons in Hall as [Hall _]. cbn in Hall. congruence. }
  destruct (decide (op = TRY ∨ op = TRYL)) as [Htry|Hntry].
  - assert (jump_params op p = [(GetTryParams op p).1; (GetTryParams op p).2]) as Hjp
      by by destruct Htry as [->| ->].
    assert (type_ok op p = true) as Hto by by destruct Htry as [->| ->].
    rewrite Hjp in Ht, Hd. clear Hjp.
    assert (match op with
      | TRY | TRYL =>
          let '(catchP, finallyP) := GetTryParams op p in
          jumps ← mark_jump script c catchP jumps; mark_jump script c finallyP jumps
      | NEWARRAYT | ISTYPE | CONVERT =>
          match p with
          | typ :: _ =>
              if negb (IsValid (b2z typ)) then Err ErrInvalidTypeSpec else
              if bool_decide (b2z typ = AnyT) && negb (bool_decide (op = NEWARRAYT))
              then Err ErrInvalidTypeSpec else Ok jumps
          | [] => Panic
          end
      | _ => Ok jumps
      end = (jumps ← mark_jump script c (GetTryParams op p).1 jumps;
             mark_jump script c (GetTryParams op p).2 jumps)) as ->
      by (destruct (GetTryParams op p); by destruct Htry as [->| ->]).
    destruct (GetTryParams op p) as [q1 q2]; cbn [fst snd] in *.
    pose proof (mark_jump_spec c q1 jumps Hprog Hf) as Hm1.
    destruct (mark_jump script c q1 jumps) as [j1|e|]; cbn; [| |done].
    2:{ rewrite Hd. intros [Hall _]. apply Forall_cons in Hall as [Hall _]. cbn in Hall. congruence. }
    destruct Hm1 as (Hf1 & o1 & r1 & Hc1 & Hb1).
    pose proof (mark_jump_spec c q2 j1 Hprog Hf1) as Hm2.
    destruct (mark_jump script c q2 j1) as [j2|e|]; [| |done].
    2:{ rewrite Hd. intros [Hall _]. apply Forall_cons in Hall as [_ Hall].
        apply Forall_cons in Hall as [Hall _]. cbn in Hall. congruence. }
    destruct Hm2 as (Hf2 & o2 & r2 & Hc2 & Hb2). split_and!; [done| |].
    + apply Hd. split; [|done]. repeat constructor; [by rewrite Hc1|by rewrite Hc2].
    + intros j. rewrite Hb2, Hb1, Ht. setoid_rewrite elem_of_cons.
      setoid_rewrite list_elem_of_singleton. split.
      * intros [[?|[-> ?]]|[-> ?]]; [by left|right; split; [|done]..].
        -- exists q1, r1. split; [by left|done].
        -- exists q2, r2. split; [by right|done].
      * intros [?|[(q & r & [->| ->] & Hq) Hne]]; [by left; left|..].
        -- rewrite Hc1 in Hq. injection Hq as -> _. by left; right.
        -- rewrite Hc2 in Hq. injection Hq as -> _. by right.
  - assert (jump_params op p = []) as Hjp.
    { unfold jump_params. rewrite Hjmp. destruct op; try done; exfalso; apply Hntry; auto. }
    rewrite Hjp in Ht, Hd.
    assert (∀ j, bit jumps j = true ↔ bit jumps j = true ∨ targets i j ∧ j ≠ slen) as Hsame.
    { intros j. rewrite Ht. split; [by left|]. intros [?|[(q & r & Hq & _) _]]; [done|].
      by apply elem_of_nil in Hq. }
    assert (type_ok op p = true →
            field_ok jumps ∧ decodes i
            ∧ ∀ j, bit jumps j = true ↔ bit jumps j = true ∨ targets i j ∧ j ≠ slen) as Hok.
    { intros Hto. split_and!; [done| |done]. apply Hd. split; [constructor|done]. }
    destruct op; try (by apply Hok); try (exfalso; apply Hntry; auto; fail).
    all: cbn in Hfix; destruct p as [|t p]; [cbn in Hfix; lia|].
    all: unfold type_ok in Hok, Hd.
    all: destruct (IsValid (b2z t)); cbn [negb andb] in *; [|intros Hx; by apply Hd in Hx as [_ ?]].
    all: case_bool_decide; cbn [negb andb] in *;
      first [by apply Hok | intros Hx; by apply Hd in Hx as [_ ?]].
Qed.

Lemma steps_trans i j k : steps i j → steps j k → steps i k.
Proof. intros Hij Hjk. induction Hjk; [done|]. by eapply steps_next. Qed.

Lemma steps_inv i k :
  steps i k ↔ i = k ∨ i < slen ∧ ∃ op p c, Next (at_ i) = Ok (op, p, c) ∧ steps (c_nextip c) k.
Proof.
  split.
  - intros Hs. induction Hs as [|j op p c Hs IH Hj HN]; [by left|]. right.
    destruct IH as [->|(Hi & op' & p' & c' & HN' & Hs')].
    + split; [done|]. exists op, p, c. split; [done|constructor].
    + split; [done|]. exists op', p', c'. split; [done|]. by eapply steps_next.
  - intros [->|(Hi & op & p & c & HN & Hs)]; [constructor|].
    eapply steps_trans; [|exact Hs]. eapply steps_next; [constructor|done..].
Qed.

Lemma steps_end i k : slen <= i → steps i k → i = k.
Proof. intros Hi Hs. apply steps_inv in Hs as [?|[? _]]; [done|lia]. Qed.

Definition loop_post (n : Z) (instrs jumps : Field) (r : res perr (Field * Field)) : Prop :=
  match r with
  | Ok (i', j') =>
      field_ok i' ∧ field_ok j'
      ∧ (∀ k, bit i' k = true ↔ bit instrs k = true ∨ steps n k ∧ k < slen)
      ∧ (∀ k, bit j' k = true ↔ bit jumps k = true
              ∨ ∃ i, (steps n i ∧ i < slen) ∧ targets i k ∧ k ≠ slen)
      ∧ ∀ i, steps n i → i < slen → decodes i
  | Err e => ∃ i, steps n i ∧ i < slen ∧ ¬ decodes i
  | Panic => False
  end.

Lemma check_loop_spec fuel ctx instrs jumps :
  c_prog ctx = script → 0 <= c_nextip ctx → slen - c_nextip ctx <= Z.of_nat fuel →
  field_ok instrs → field_ok jumps →
  loop_post (c_nextip ctx) instrs jumps (check_loop fuel script ctx instrs jumps).
Proof.
  revert ctx instrs jumps. induction fuel as [|fuel IH]; intros ctx instrs jumps Hp Hn Hfu Hi Hj;
    cbn; fold slen; (case_bool_decide as Hlt; [try lia|]).
  1, 3: split_and!; [done|done| | |]; [intros k|intros k|intros i Hs];
    [split; [by left|intros [?|[Hs%steps_end ?]]; [done|lia..]]
    |split; [by left|intros [?|(i & [Hs%steps_end ?] & _)]; [done|lia..]]
    |apply steps_end in Hs; lia].
  assert (Next ctx = Next (at_ (c_nextip ctx))) as HN by (destruct ctx; cbn in *; by subst).
  pose proof (Next_spec ctx Hn) as Hspec.
  destruct (Next ctx) as [[[op p] c]|e|] eqn:E; cbn; [| |done].
  2:{ exists (c_nextip ctx). split_and!; [constructor|done|]. intros (op & p & c & Hd & _). congruence. }
  destruct Hspec as (Hip & Hprog & Hspec). rewrite Hp in Hprog.
  rewrite bool_decide_eq_true_2 in Hspec by (unfold LenInstr; by rewrite Hp).
  destruct Hspec as (_ & Hnext & _ & _).
  destruct (field_set instrs (c_ip c) Hi) as (i1 & -> & Hi1 & Hb1); [by rewrite Hip|]. cbn.
  rewrite Hip in Hb1.
  pose proof (check_instr_spec (c_nextip ctx) op p c jumps ltac:(lia) ltac:(by rewrite <- HN) Hj) as Hci.
  destruct (check_instr script c op p jumps) as [j1|e|]; cbn; [| |done].
  2:{ exists (c_nextip ctx). split_and!; [constructor|done|done]. }
  destruct Hci as (Hj1 & Hdec & Hbj).
  assert (∀ k, steps (c_nextip ctx) k ↔ c_nextip ctx = k ∨ steps (c_nextip c) k) as Hst.
  { intros k. rewrite steps_inv. split.
    - intros [?|(_ & op' & p' & c' & HN' & Hs)]; [by left|right].
      rewrite <- HN in HN'. by injection HN' as <- <- <-.
    - intros [?|Hs]; [by left|right]. split; [done|]. exists op, p, c. by rewrite <- HN. }
  specialize (IH c i1 j1 Hprog ltac:(lia) ltac:(lia) Hi1 Hj1). unfold loop_post in *.
  destruct (check_loop fuel script c i1 j1) as [[i' j']|e|]; [| |done].
  2:{ destruct IH as (i & Hs & Hl & Hd). exists i. split_and!; [|done..]. apply Hst. by right. }
  destruct IH as (Hi' & Hj' & Hbi' & Hbj' & Hd'). split_and!; [done|done| | |].
  - intros k. rewrite Hbi', Hb1, Hst, orb_true_iff, bool_decide_eq_true.
    split; [intros [[<-|?]|[??]]; auto|intros [?|[[<-|?] ?]]; auto].
  - intros k. rewrite Hbj', Hbj. split.
    + intros [[?|[Ht Hk]]|(i & [Hs Hl] & Ht)]; [by left| |].
      * right. exists (c_nextip ctx). split; [|done]. split; [constructor|done].
      * right. exists i. split; [|done]. split; [|done]. apply Hst. by right.
    + intros [?|(i & [Hs Hl] & Ht)]; [by left; left|].
      apply Hst in Hs as [<-|Hs]; [by left; right|right]. by exists i.
  - intros i Hs Hl. apply Hst in Hs as [<-|Hs]; [done|by apply Hd'].
Qed.
End script.

(** * Properties *)

(** Fetching an instruction from any non-negative position never panics
    and either fails inside the script or yields the opcode at that position
    with the bytes that follow as its parameter (of the opcode's own length when
    that is fixed) and moves past them, never beyond the end; past the end it
    yields [RET]. *)
Theorem Next_fetches (c : Context) :
  0 <= c_nextip c →
  match Next c with
  | Ok (op, param, c') =>
      c_ip c' = c_nextip c ∧ c_prog c' = c_prog c ∧
      if bool_decide (c_nextip c < LenInstr c) then
        byte_at (c_prog c) (c_nextip c) = Some (z2b (op_code op))
        ∧ c_nextip c < c_nextip c' <= LenInstr c
        ∧ slice (c_prog c) (c_nextip c' - Z.of_nat (length param)) (c_nextip c') = Some param
        ∧ match fixed_param op with
          | Some k => Z.of_nat (length param) = k ∧ c_nextip c' = c_nextip c + 1 + k
          | None => True
          end
      else op = RET ∧ param = [] ∧ c_nextip c' = c_nextip c
  | Err e => c_nextip c < LenInstr c
  | Panic => False
  end.
Proof. apply Next_spec. Qed.

(** C37: a script is accepted exactly when every instruction reached by decoding
    from its start decodes, names a proper type and has its jump targets at the
    end of the script or at such an instruction, and every method offset is the
    start of one; the check never panics and its loop terminates. *)
Theorem IsScriptCorrect_spec (script : bytes) (methods : option Field) :
  (∀ m, methods = Some m → wf_field m ∧ (length m <= length (New (slen script)))%nat) →
  (IsScriptCorrect script methods = Ok tt
   ↔ (∀ i, instr_at script i → decodes script i)
     ∧ (∀ i j, instr_at script i → targets script i j → j ≠ slen script → instr_at script j)
     ∧ (∀ m j, methods = Some m → bit m j = true → instr_at script j))
  ∧ IsScriptCorrect script methods ≠ Panic.
Proof.
  intros Hm. unfold IsScriptCorrect. fold (slen script).
  assert (field_ok script (New (slen script))) as Hnew by (split; [apply New_wf|done]).
  pose proof (check_loop_spec script (length script) (NewContext script 0) (New (slen script))
    (New (slen script)) eq_refl ltac:(cbn; lia) ltac:(cbn; unfold slen; lia) Hnew Hnew) as Hl.
  unfold loop_post in Hl. cbn [NewContext c_nextip] in Hl.
  destruct (check_loop _ _ _ _ _) as [[instrs jumps]|e|]; cbn; [| |done].
  2:{ split; [|done]. split; [done|]. intros [Hall _].
      destruct Hl as (i & Hs & Hi & Hd). exfalso. apply Hd, Hall. by split. }
  destruct Hl as ([Hwi Hli] & [Hwj Hlj] & Hbi & Hbj & Hdec).
  assert (∀ k, bit instrs k = true ↔ instr_at script k) as Hbi'.
  { intros k. rewrite Hbi, New_bit. unfold instr_at. naive_solver. }
  assert (∀ k, bit jumps k = true ↔ ∃ i, instr_at script i ∧ targets script i k ∧ k ≠ slen script) as Hbj'.
  { intros k. rewrite Hbj, New_bit. unfold instr_at. naive_solver. }
  assert (IsSubset jumps instrs = true ↔
            ∀ i j, instr_at script i → targets script i j → j ≠ slen script → instr_at script j) as Hsub.
  { rewrite IsSubset_spec by (done || lia). setoid_rewrite Hbj'. setoid_rewrite Hbi'. naive_solver. }
  assert (∀ m, methods = Some m →
            IsSubset m instrs = true ↔ ∀ j, bit m j = true → instr_at script j) as Hsubm.
  { intros m Hmm. destruct (Hm m Hmm) as [Hwm Hlm].
    rewrite IsSubset_spec by (done || lia). by setoid_rewrite Hbi'. }
  assert (∀ i, instr_at script i → decodes script i) as Hd by (intros i [? ?]; by apply Hdec).
  destruct (IsSubset jumps instrs) eqn:E1; cbn.
  2:{ split; [|done]. split; [done|]. intros (_ & Hj & _). by apply Hsub in Hj. }
  destruct methods as [m|].
  - specialize (Hsubm m eq_refl). destruct (IsSubset m instrs) eqn:E2; cbn.
    + split; [|done]. split; [intros _|done]. split_and!; [done|by apply Hsub|].
      intros m' j [= <-]. by apply Hsubm.
    + split; [|done]. split; [done|]. intros (_ & _ & Hmj).
      assert (false = true) by (apply Hsubm; intros j; by apply (Hmj m)). done.
  - split; [|done]. split; [intros _|done]. split_and!; [done|by apply Hsub|done].
Qed.

(** ** Witnesses *)

Lemma Next_fetches_witness :
  0 <= c_nextip (NewContext [x0c; x02; xaa; xbb] 0) ∧
  match Next (NewContext [x0c; x02; xaa; xbb] 0) with
  | Ok (op, param, c') => op = PUSHDATA1 ∧ param = [xaa; xbb] ∧ c_nextip c' <= 4
  | _ => False
  end.
Proof.
  split; [done|].
  pose proof (Next_fetches (NewContext [x0c; x02; xaa; xbb] 0) ltac:(done)) as H.
  assert (Next (NewContext [x0c; x02; xaa; xbb] 0)
          = Ok (PUSHDATA1, [xaa; xbb], mkCtx 0 4 [x0c; x02; xaa; xbb])) as E
    by (vm_compute; reflexivity).
  rewrite E in H |- *. split; [reflexivity|]. split; [reflexivity|].
  exact (proj2 (proj1 (proj2 (proj2 (proj2 H))))).
Defined.

Lemma IsScriptCorrect_spec_witness :
  IsScriptCorrect [x22; x02; x40] None = Ok tt ∧ decodes [x22; x02; x40] 0.
Proof.
  assert (IsScriptCorrect [x22; x02; x40] None = Ok tt) as E by (vm_compute; reflexivity).
  split; [exact E|].
  apply (proj1 (IsScriptCorrect_spec [x22; x02; x40] None ltac:(done))) in E as [Hd _].
  apply Hd. split; [constructor|reflexivity].
Defined.
