(* ===== verification/Emit.v ===== *)
(** * Emit: writing scripts

    Models [pkg/vm/emit/emit.go], the identifiers of interop functions
    ([pkg/core/interop/interopnames]), the flags of calls
    ([pkg/smartcontract/callflag]) and the multisignature contracts of
    [pkg/smartcontract/contract.go].  What is emitted is appended to a writer
    with a sticky error. *)

From S2P Require Import Prelude Bigint BinIO Codec Hash Keys Witness StackItem Bitfield Script.

#[local] Open Scope Z_scope.

(** ** Interop functions

    An identifier is the beginning of a digest of the name. *)
Definition SystemContractCall : bytes := str "System.Contract.Call".
Definition SystemCryptoCheckSig : bytes := str "System.Crypto.CheckSig".
Definition SystemCryptoCheckMultisig : bytes := str "System.Crypto.CheckMultisig".
Definition SystemRuntimeLoadScript : bytes := str "System.Runtime.LoadScript".

Definition interop_names : list bytes := map str
  ["System.Contract.Call";
   "System.Contract.CallNative";
   "System.Contract.CreateMultisigAccount";
   "System.Contract.CreateStandardAccount";
   "System.Contract.GetCallFlags";
   "System.Contract.NativeOnPersist";
   "System.Contract.NativePostPersist";
   "System.Iterator.Next";
   "System.Iterator.Value";
   "System.Runtime.BurnGas";
   "System.Runtime.CheckWitness";
   "System.Runtime.CurrentSigners";
   "System.Runtime.GasLeft";
   "System.Runtime.GetAddressVersion";
   "System.Runtime.GetCallingScriptHash";
   "System.Runtime.GetEntryScriptHash";
   "System.Runtime.GetExecutingScriptHash";
   "System.Runtime.GetInvocationCounter";
   "System.Runtime.GetNetwork";
   "System.Runtime.GetNotifications";
   "System.Runtime.GetRandom";
   "System.Runtime.GetScriptContainer";
   "System.Runtime.GetTime";
   "System.Runtime.GetTrigger";
   "System.Runtime.Log";
   "System.Runtime.Notify";
   "System.Runtime.Platform";
   "System.Storage.Delete";
   "System.Storage.Find";
   "System.Storage.Get";
   "System.Storage.GetContext";
   "System.Storage.GetReadOnlyContext";
   "System.Storage.Local.Get";
   "System.Storage.Local.Find";
   "System.Storage.Local.Put";
   "System.Storage.Local.Delete";
   "System.Storage.Put";
   "System.Storage.AsReadOnly";
   "System.Crypto.CheckMultisig";
   "System.Crypto.CheckSig"]%string.

Definition ToID `{Digest} (name : bytes) : Z := le_val (take 4 (sha256 name)).

Fixpoint from_names `{Digest} (id : Z) (l : list bytes) : option bytes :=
  match l with
  | [] => None
  | n :: l => if bool_decide (id = ToID n) then Some n else from_names id l
  end.

Definition FromID `{Digest} (id : Z) : option bytes := from_names id interop_names.

(** ** Call flags *)

Definition ReadStates : Z := 1.
Definition WriteStates : Z := 2.
Definition AllowCall : Z := 4.
Definition AllowNotify : Z := 8.
Definition States : Z := Z.lor ReadStates WriteStates.
Definition ReadOnly : Z := Z.lor ReadStates AllowCall.
Definition AllFlags : Z := Z.lor States (Z.lor AllowCall AllowNotify).

Definition flag_IsValid (f : Z) : bool := bool_decide (Z.ldiff f AllFlags = 0).

Definition flagString : list (bytes * Z) :=
  [ (str "ReadStates", ReadStates);
    (str "WriteStates", WriteStates);
    (str "AllowCall", AllowCall);
    (str "AllowNotify", AllowNotify);
    (str "States", States);
    (str "ReadOnly", ReadOnly);
    (str "All", AllFlags);
    (str "None", 0) ].

Definition flag_name (f : Z) : bytes :=
  match list_find (λ p, p.2 = f) flagString with Some (_, p) => p.1 | None => [] end.

Definition basicFlags : list Z := [ReadOnly; States; ReadStates; WriteStates; AllowCall; AllowNotify].

Definition flag_Has (f cf : Z) : bool := bool_decide (Z.land f cf = cf).

Fixpoint flags_loop (flags : list bytes) (res : Z) : option Z :=
  match flags with
  | [] => Some res
  | flag :: flags =>
      match list_find (λ f, TrimSpace flag = flag_name f) basicFlags with
      | Some (_, f) => flags_loop flags (Z.lor res f)
      | None => None
      end
  end.

(** [FromString]; [None] is an error. *)
Definition flag_FromString (s : bytes) : option Z :=
  match split_comma [] s with
  | [] => None
  | [_] => match list_find (λ p, p.1 = s) flagString with Some (_, p) => Some p.2 | None => None end
  | flags => flags_loop flags 0
  end.

Fixpoint flag_names (l : list Z) (f : Z) (res : bytes) : bytes :=
  match l with
  | [] => res
  | flag :: l =>
      if flag_Has f flag
      then flag_names l (Z.ldiff f flag) ((if bool_decide (res = []) then res else res ++ [x2c; x20]) ++ flag_name flag)
      else flag_names l f res
  end.

Definition flag_String (f : Z) : bytes :=
  if bool_decide (flag_name f ≠ []) then flag_name f else flag_names basicFlags f [].

(** ** Instructions *)

Definition emit_Instruction (op : Opcode) (b : bytes) (w : BinWriter) : BinWriter :=
  WriteBytes b (WriteB (op_code op) w).

Fixpoint Opcodes (ops : list Opcode) (w : BinWriter) : BinWriter :=
  match ops with
  | [] => w
  | op :: ops => Opcodes ops (WriteB (op_code op) w)
  end.

Definition InitSlot (locals args : Z) (w : BinWriter) : BinWriter :=
  emit_Instruction INITSLOT [z2b locals; z2b args] w.

Definition emit_Bool (ok : bool) (w : BinWriter) : BinWriter := Opcodes [if ok then PUSHT else PUSHF] w.

Definition w_fail (w : BinWriter) (e : ioerr) : BinWriter := mkWriter (w_buf w) (Some e).

(** *** Integers *)

(** The opcode with the code [n]. *)
Definition op_at (n : Z) : Opcode := default PUSHINT8 (op_of n).

Definition smallInt (i : Z) (w : BinWriter) : option BinWriter :=
  if bool_decide (i = -1) then Some (Opcodes [PUSHM1] w) else
  if bool_decide (0 <= i < 16) then Some (Opcodes [op_at (op_code PUSH0 + i)] w) else None.

(** To [s] bytes, with the sign of the last one; the array behind [buf] is
    zeros. *)
Definition padRight (s : nat) (buf : bytes) : bytes :=
  let l := length buf in
  buf ++ replicate (s - l) (if msb_set buf then xff else x00).

(** [8 - bits.LeadingZeros8(b)] *)
Definition len8 (b : Z) : Z := bitlen b.

Definition emit_bigInt (n : Z) (trySmall : bool) (w : BinWriter) : BinWriter :=
  match w_err w with
  | Some _ => w
  | None =>
      match (if trySmall && IsInt64 n then smallInt n w else None) with
      | Some w => w
      | None =>
          match CheckIntegerSize n with
          | Ok _ =>
              let buf := ToBytes n in
              if bool_decide (length buf = 0%nat) then Opcodes [PUSH0] w else
              let padSize := len8 (u8 (Z.of_nat (length buf) - 1)) in
              let w := Opcodes [op_at (op_code PUSHINT8 + padSize)] w in
              WriteBytes (padRight (Z.to_nat (Z.shiftl 1 padSize)) buf) w
          | _ => w_fail w (ErrOther "too big integer")
          end
      end
  end.

Definition emit_Int (i : Z) (w : BinWriter) : BinWriter :=
  match smallInt i w with
  | Some w => w
  | None => emit_bigInt i false w
  end.

Definition emit_BigInt (n : Z) (w : BinWriter) : BinWriter := emit_bigInt n true w.

(** *** Bytes *)

Definition emit_Bytes (b : bytes) (w : BinWriter) : BinWriter :=
  let n := Z.of_nat (length b) in
  let w :=
    if bool_decide (n < 0x100) then emit_Instruction PUSHDATA1 [z2b n] w else
    if bool_decide (n < 0x10000) then emit_Instruction PUSHDATA2 (le_enc 2 n) w
    else emit_Instruction PUSHDATA4 (le_enc 4 n) w in
  WriteBytes b w.

Definition emit_String (s : bytes) (w : BinWriter) : BinWriter := emit_Bytes s w.

(** *** Calls and jumps *)

Section syscalls.
Context `{Digest}.

Definition Syscall (api : bytes) (w : BinWriter) : BinWriter :=
  match w_err w with
  | Some _ => w
  | None =>
      if bool_decide (length api = 0%nat) then w_fail w (ErrOther "syscall api cannot be of length 0")
      else emit_Instruction SYSCALL (le_enc 4 (ToID api)) w
  end.

Definition AppCallNoArgs (scriptHash operation : bytes) (f : Z) (w : BinWriter) : BinWriter :=
  Syscall SystemContractCall (emit_Bytes scriptHash (emit_String operation (emit_Int f w))).

Definition CheckSig (key : bytes) (w : BinWriter) : BinWriter :=
  Syscall SystemCryptoCheckSig (emit_Bytes key w).
End syscalls.

Definition isInstructionJmp (op : Opcode) : bool :=
  bool_decide (op_code JMP <= op_code op <= op_code CALLL) || bool_decide (op = ENDTRYL).

Definition Jmp (op : Opcode) (label : Z) (w : BinWriter) : BinWriter :=
  match w_err w with
  | Some _ => w
  | None =>
      if isInstructionJmp op then emit_Instruction op (le_enc 2 label ++ [x00; x00]) w
      else w_fail w (ErrOther "opcode is not a jump or call type")
  end.

Definition emit_Call (op : Opcode) (label : Z) (w : BinWriter) : BinWriter := Jmp op label w.

(** *** Anything

    What [Any] is given: the Go types that it tells apart.  Hashes are given as
    their bytes, and a [Convertible] as the item it is converted to. *)
Inductive anyval :=
  | ANil
  | AList (l : list anyval)
  | AInt (i : Z)
  | ABigInt (n : Z)
  | ABytes (b : bytes)
  | ABool (b : bool)
  | AItem (i : item)
  | AUnsupported.

Definition unsupported (w : BinWriter) : BinWriter := w_fail w (ErrOther "unsupported type").

(** The elements from the last one on, their number and what packs them. *)
Fixpoint emit_rev {A} (f : A → BinWriter → res ioerr BinWriter) (l : list A) (w : BinWriter) : res ioerr BinWriter :=
  match l with
  | [] => Ok w
  | a :: l => w ← emit_rev f l w; f a w
  end.

Definition packed {A} (f : A → BinWriter → res ioerr BinWriter) (l : list A) (op : Opcode) (w : BinWriter)
    : res ioerr BinWriter :=
  w ← emit_rev f l w;
  Ok (Opcodes [op] (emit_Int (Z.of_nat (length l)) w)).

(** [Array] over items. *)
Definition emit_Array {A} (f : A → BinWriter → res ioerr BinWriter) (l : list A) (w : BinWriter) : res ioerr BinWriter :=
  match l with
  | [] => Ok (Opcodes [NEWARRAY0] w)
  | _ => packed f l PACK w
  end.

(** [StackItem]: an item that contains itself is never done; the stack that
    overflows is what [fuel] stands for. *)
Fixpoint emit_StackItem (fuel : nat) (h : Heap) (si : item) (w : BinWriter) : res ioerr BinWriter :=
  match fuel with
  | O => Panic
  | S fuel =>
      match si with
      | Null => Ok (Opcodes [PUSHNULL] w)
      | Bool b => Ok (emit_Bool b w)
      | Integer n => Ok (emit_BigInt n w)
      | ByteArray b => Ok (emit_Bytes b w)
      | Buffer l => match h_buf h l with Ok b => Ok (emit_Bytes b w) | _ => Panic end
      | Array l =>
          match h_seq h l with
          | Ok (v, _, _) => emit_Array (emit_StackItem fuel h) v w
          | _ => Panic
          end
      | Struct l =>
          match h_seq h l with
          | Ok (v, _, _) => packed (emit_StackItem fuel h) v PACKSTRUCT w
          | _ => Panic
          end
      | Map l =>
          match h_map h l with
          | Ok (m, _, _) =>
              w ← emit_rev (λ e w, w ← emit_StackItem fuel h e.2 w; emit_StackItem fuel h e.1 w) (m_value m) w;
              Ok (Opcodes [PACKMAP] (emit_Int (Z.of_nat (Map_Len m)) w))
          | _ => Panic
          end
      | Pointer _ _ | Interop _ => Ok (unsupported w)
      end
  end.

Fixpoint emit_Any (fuel : nat) (h : Heap) (something : anyval) (w : BinWriter) : res ioerr BinWriter :=
  match something with
  | ANil => Ok (Opcodes [PUSHNULL] w)
  | AList l => emit_Array (emit_Any fuel h) l w
  | AInt i => Ok (emit_Int i w)
  | ABigInt n => Ok (emit_BigInt n w)
  | ABytes b => Ok (emit_Bytes b w)
  | ABool b => Ok (emit_Bool b w)
  | AItem i => emit_StackItem fuel h i w
  | AUnsupported => Ok (unsupported w)
  end.

Definition AppCall `{Digest} (fuel : nat) (h : Heap) (scriptHash operation : bytes) (f : Z) (args : list anyval)
    (w : BinWriter) : res ioerr BinWriter :=
  w ← emit_Array (emit_Any fuel h) args w;
  Ok (AppCallNoArgs scriptHash operation f w).

(** ** Multisignature contracts *)

(** [slices.SortFunc] with [Cmp]. *)
Fixpoint insert_key (k : PublicKey) (l : list PublicKey) : list PublicKey :=
  match l with
  | [] => [k]
  | k' :: l' => match PublicKey_Cmp k k' with Gt => k' :: insert_key k l' | _ => k :: l end
  end.

Definition sort_keys (l : list PublicKey) : list PublicKey := foldr insert_key [] l.

Inductive merr := ErrTooFew | ErrTooMany | ErrMaximum.

Definition CreateMultiSigRedeemScript `{Digest} (m : Z) (publicKeys : list PublicKey) : res merr bytes :=
  let n := Z.of_nat (length publicKeys) in
  if bool_decide (m < 1) then Err ErrTooFew else
  if bool_decide (n < m) then Err ErrTooMany else
  if bool_decide (1024 < m) then Err ErrMaximum else
  let buf := emit_Int m NewBufBinWriter in
  let buf := fold_left (λ w k, emit_Bytes (PublicKey_Bytes k) w) (sort_keys publicKeys) buf in
  let buf := Syscall SystemCryptoCheckMultisig (emit_Int n buf) in
  Ok (default [] (fst (Bytes buf))).

Definition GetDefaultHonestNodeCount (n : Z) : Z := n - Z.quot (n - 1) 3.
Definition GetMajorityHonestNodeCount (n : Z) : Z := n - Z.quot (n - 1) 2.

Definition CreateDefaultMultiSigRedeemScript `{Digest} (publicKeys : list PublicKey) : res merr bytes :=
  CreateMultiSigRedeemScript (GetDefaultHonestNodeCount (Z.of_nat (length publicKeys))) publicKeys.

Definition CreateMajorityMultiSigRedeemScript `{Digest} (publicKeys : list PublicKey) : res merr bytes :=
  CreateMultiSigRedeemScript (GetMajorityHonestNodeCount (Z.of_nat (length publicKeys))) publicKeys.
