(* ===== verification/Parse.v ===== *)
(** * Parse: reading scripts without running them

    Models [pkg/smartcontract/scparser]: [conversion.go], which finds the values
    that a script pushes and the contract call that it makes, and the
    multisignature contracts of [contract_checks.go].

    A list that is pushed is a slice, and an item that is duplicated shares it;
    [REVERSEITEMS] reverses it in place.  The lists are kept in a store, and an
    item has the place of its list. *)

From S2P Require Import Prelude Bigint BinIO Codec Hash Keys Witness StackItem Bitfield Script Emit.

#[local] Open Scope Z_scope.

(** ** Instructions and pushed items *)

(** A parameter may be nil. *)
Record Instruction := mkInstr { in_op : Opcode; in_param : option bytes }.

Inductive PushedItem := PI (i : Instruction) (l : option nat) (m : option (list (Instruction * PushedItem))).

Definition pi_instr (p : PushedItem) : Instruction := match p with PI i _ _ => i end.
Definition pi_list (p : PushedItem) : option nat := match p with PI _ l _ => l end.
Definition pi_map (p : PushedItem) : option (list (Instruction * PushedItem)) := match p with PI _ _ m => m end.

Definition IsList (p : PushedItem) : bool := bool_decide (is_Some (pi_list p)).
Definition IsMap (p : PushedItem) : bool := match pi_map p with Some _ => true | None => false end.
Definition IsNested (p : PushedItem) : bool := IsList p || IsMap p.
Definition emptyInstr : Instruction := mkInstr PUSHINT8 None.
Definition emptyItem : PushedItem := PI emptyInstr None None.

Definition IsEmpty (p : PushedItem) : bool :=
  bool_decide (op_code (in_op (pi_instr p)) = 0) && bool_decide (in_param (pi_instr p) = None) && negb (IsNested p).

Definition IsNull (p : PushedItem) : bool := negb (IsNested p) && bool_decide (in_op (pi_instr p) = PUSHNULL).

(** What [Next] gives: an instruction without a parameter has a nil one. *)
Definition instr_of (op : Opcode) (param : bytes) : Instruction :=
  mkInstr op (match op with
              | PUSHDATA1 | PUSHDATA2 | PUSHDATA4 => Some param
              | _ => match fixed_param op with Some _ => Some param | None => None end
              end).

(** ** Values of instructions *)

Definition scerr : Type := string.

(** [param[:n]] as a number; too few bytes are an index panic. *)
Definition param_uint (n : nat) (i : Instruction) : res scerr Z :=
  match in_param i with
  | Some p => if bool_decide (length p < n)%nat then Panic else Ok (le_val (take n p))
  | None => Panic
  end.

Definition is_push_small (op : Opcode) : bool := bool_decide (op_code PUSHM1 <= op_code op <= op_code PUSH16).

Definition GetInt64FromInstr (i : Instruction) : res scerr Z :=
  if is_push_small (in_op i) then Ok (op_code (in_op i) - op_code PUSH0) else
  match in_op i with
  | PUSHINT8 => v ← param_uint 1 i; Ok (wrap_s 8 v)
  | PUSHINT16 => v ← param_uint 2 i; Ok (wrap_s 16 v)
  | PUSHINT32 => v ← param_uint 4 i; Ok (i32 v)
  | PUSHINT64 => v ← param_uint 8 i; Ok (i64 v)
  | PUSHINT128 | PUSHINT256 =>
      v ← param_uint 8 i;
      let p := default [] (in_param i) in
      if existsb (λ b, negb (bool_decide (b = x00))) (drop 8 p) then Err "parameter is not int64"%string else
      if bool_decide (0x80 <= b2z (nth 7 p x00)) then Err "parameter is not int64"%string else Ok (i64 v)
  | _ => Err "expected an integer"%string
  end.

Definition GetBigIntFromInstr (i : Instruction) : res scerr Z :=
  if is_push_small (in_op i) then Ok (op_code (in_op i) - op_code PUSH0) else
  if bool_decide (op_code (in_op i) <= op_code PUSHINT256) then FromBytes (in_param i)
  else Err "expected an integer"%string.

Definition GetBytesFromInstr (i : Instruction) : res scerr bytes :=
  if bool_decide (op_code PUSHDATA1 <= op_code (in_op i) <= op_code PUSHDATA4)
  then Ok (default [] (in_param i)) else Err "expected PUSHDATA"%string.

Definition GetStringFromInstr (i : Instruction) : res scerr bytes := GetBytesFromInstr i.

Definition GetUTF8StringFromInstr (i : Instruction) : res scerr bytes :=
  s ← GetBytesFromInstr i;
  if utf8_Valid s then Ok s else Err "not a UTF-8 string"%string.

Definition GetBoolFromInstr (i : Instruction) : res scerr bool :=
  match in_op i with
  | PUSHF | PUSH0 => Ok false
  | PUSHT | PUSH1 => Ok true
  | _ => Err "expected a boolean"%string
  end.

Definition getHashFromInstr {E} (i : Instruction) (hashFromBE : bytes → res scerr E) : res scerr E :=
  match in_op i with
  | PUSHDATA1 => hashFromBE (default [] (in_param i))
  | _ => Err "expected PUSHDATA1"%string
  end.

(** Bytes of a fixed size: [Uint160DecodeBytesBE] and the like. *)
Definition sized (n : nat) (b : bytes) : res scerr bytes :=
  if bool_decide (length b = n) then Ok b else Err "wrong size"%string.

Definition GetUint160FromInstr (i : Instruction) : res scerr bytes := getHashFromInstr i (sized 20).
Definition GetUint256FromInstr (i : Instruction) : res scerr bytes := getHashFromInstr i (sized 32).
Definition GetSignatureFromInstr (i : Instruction) : res scerr bytes := getHashFromInstr i (sized 64).

Definition GetPublicKeyFromInstr (i : Instruction) : res scerr PublicKey :=
  getHashFromInstr i (λ b,
    b ← sized 33 b;
    match PublicKey_DecodeBytes P256 b with Ok k => Ok k | Err _ => Err "bad key"%string | Panic => Panic end).

(** [GetListOfEFromPushedItems] *)
Fixpoint list_of {E} (getE : Instruction → res scerr E) (items : list PushedItem) : res scerr (list E) :=
  match items with
  | [] => Ok []
  | p :: items => e ← getE (pi_instr p); l ← list_of getE items; Ok (e :: l)
  end.

(** ** The stack of a script *)

Definition maxStackSize : nat := 2048.

(** The state of the loop: what is on the stack, the last at the top, the
    lists, and where the arguments end. *)
Record pstate := mkPS { ps_res : list PushedItem; ps_lists : list (list PushedItem); ps_last : Z }.

Definition push (s : pstate) (p : PushedItem) : pstate := mkPS (ps_res s ++ [p]) (ps_lists s) (ps_last s).

(** A list of its own for a new item. *)
Definition push_list (s : pstate) (i : Instruction) (l : list PushedItem) : pstate :=
  mkPS (ps_res s ++ [PI i (Some (length (ps_lists s))) None]) (ps_lists s ++ [l]) (ps_last s).

(** [n] copies of [pad] with the elements of the top of the stack put into the
    first ones. *)
Definition top_items (st : list PushedItem) (n toPack : nat) : list PushedItem :=
  take toPack (rev st) ++ replicate (n - toPack) emptyItem.

(** Keys and values in turn; a map key cannot be nested. *)
Fixpoint pairs_of (l : list PushedItem) : res scerr (list (Instruction * PushedItem)) :=
  match l with
  | k :: v :: l =>
      if IsNested k then Err "invalid map key"%string else
      ps ← pairs_of l; Ok ((pi_instr k, v) :: ps)
  | _ => Ok []
  end.

(** [make] of more than the address space has is a panic. *)
Definition maxAlloc : Z := 2 ^ 48.
Definition itemSize : Z := 80.
Definition pairSize : Z := 112.

Definition reverseTop {E} (n : Z) (l : list E) : res scerr (list E) :=
  if bool_decide (n < 0) then Err "negative index"%string else
  if bool_decide (Z.of_nat (length l) < n) then Err "too big index"%string else
  if bool_decide (n <= 1) then Ok l else
  let k := (length l - Z.to_nat n)%nat in Ok (take k l ++ rev (drop k l)).

(** The argument of a pack instruction, which is on top of the stack. *)
Definition pack_arg (st : list PushedItem) : res scerr (Z * list PushedItem) :=
  match last st with
  | None => Err "requires at least 1 element on stack"%string
  | Some p =>
      packArg ← GetInt64FromInstr (pi_instr p);
      if bool_decide (packArg < 0) then Err "negative argument"%string else Ok (packArg, take (length st - 1) st)
  end.

Definition do_pack (strict : bool) (i : Instruction) (nextip : Z) (s : pstate) : res scerr pstate :=
  '(packArg, st) ← pack_arg (ps_res s);
  let s := mkPS st (ps_lists s) (ps_last s) in
  match in_op i with
  | PACKMAP =>
      if bool_decide (maxAlloc < pairSize * packArg) then Panic else
      let elementsNum := (2 * Z.to_nat packArg)%nat in
      if strict && bool_decide (length st < elementsNum)%nat then Err "insufficient number of elements"%string else
      let toPack := min (length st) elementsNum in
      packed ← pairs_of (top_items st elementsNum toPack);
      let s := mkPS (take (length st - toPack) st) (ps_lists s) nextip in
      Ok (push s (PI i None (Some packed)))
  | _ =>
      if bool_decide (maxAlloc < itemSize * packArg) then Panic else
      let n := Z.to_nat packArg in
      if strict && bool_decide (length st < n)%nat then Err "insufficient number of elements"%string else
      let toPack := min (length st) n in
      let s := mkPS (take (length st - toPack) st) (ps_lists s) nextip in
      Ok (push_list s i (top_items st n toPack))
  end.

Section parse.
Context `{Digest}.

Definition verifySystemContractCall (op : Opcode) (param : bytes) : res scerr unit :=
  if bool_decide (op ≠ SYSCALL) then Err "expected SYSCALL"%string else
  if bool_decide (length param ≠ 4%nat) then Err "expected 4 bytes"%string else
  match FromID (le_val param) with
  | None => Err "not found"%string
  | Some name => if bool_decide (name = SystemContractCall) then Ok tt else Err "expected System.Contract.Call"%string
  end.

Definition is_push (op : Opcode) : bool :=
  bool_decide (op_code op <= op_code PUSHINT256) || is_push_small op
  || match op with PUSHT | PUSHF | PUSHNULL | PUSHDATA1 | PUSHDATA2 | PUSHDATA4 => true | _ => false end.

(** One instruction; [None] ends the loop. *)
Definition parse_step (strict : bool) (onCall : list PushedItem → res scerr (list PushedItem)) (maxL : nat)
    (op : Opcode) (param : bytes) (nextip : Z) (s : pstate) : res scerr (pstate * bool) :=
  let i := instr_of op param in
  let st := ps_res s in
  match op with
  | NEWARRAY0 | NEWSTRUCT0 => Ok (push_list (mkPS st (ps_lists s) nextip) i [], true)
  | PACK | PACKSTRUCT | PACKMAP => s ← do_pack strict i nextip s; Ok (s, true)
  | DUP => match last st with Some p => Ok (push s p, true) | None => Panic end
  | REVERSEITEMS =>
      match last st with
      | None => Err "REVERSEITEMS instruction requires at least 1 element on stack"%string
      | Some e =>
          match pi_list e with
          | None => Err "static parser supports only Array/Struct for REVERSEITEMS instruction"%string
          | Some l => Ok (mkPS (take (length st - 1) st) (alter (@rev PushedItem) l (ps_lists s)) nextip, true)
          end
      end
  | SWAP => st ← reverseTop 2 st; Ok (mkPS st (ps_lists s) nextip, true)
  | REVERSE3 => st ← reverseTop 3 st; Ok (mkPS st (ps_lists s) nextip, true)
  | REVERSE4 => st ← reverseTop 4 st; Ok (mkPS st (ps_lists s) nextip, true)
  | REVERSEN =>
      match last st with
      | None => Err "REVERSEN instruction requires at least 1 element on stack"%string
      | Some e =>
          n ← GetInt64FromInstr (pi_instr e);
          st ← reverseTop n (take (length st - 1) st);
          Ok (mkPS st (ps_lists s) nextip, true)
      end
  | SYSCALL =>
      _ ← verifySystemContractCall op param;
      st ← onCall st;
      Ok (mkPS st (ps_lists s) (ps_last s), false)
  | NOP => Ok (s, true)
  | RET => Ok (s, false)
  | _ =>
      if is_push op then
        let s := push s (PI i None None) in
        if bool_decide (maxL + 1 < length (ps_res s))%nat then Err "number of elements exceeds"%string else Ok (s, true)
      else Err "static parser does not support instruction"%string
  end.

(** [getSomethingFromContext]; every round reads a byte. *)
Fixpoint parse_loop (fuel : nat) (strict : bool) (onCall : list PushedItem → res scerr (list PushedItem)) (maxL : nat)
    (ctx : Context) (s : pstate) : res scerr (pstate * Context) :=
  match fuel with
  | O => Panic
  | S fuel =>
      match Next ctx with
      | Panic => Panic
      | Err _ => Err "failed to parse list element"%string
      | Ok (op, param, ctx) =>
          if bool_decide (LenInstr ctx <= c_ip ctx) then Ok (s, ctx) else
          '(s, more) ← parse_step strict onCall maxL op param (c_nextip ctx) s;
          if (more : bool) then parse_loop fuel strict onCall maxL ctx s else Ok (s, ctx)
      end
  end.

Definition getSomethingFromContext (ctx : Context) (strict : bool) (onCall : list PushedItem → res scerr (list PushedItem))
    (maxLen : option nat) : res scerr (pstate * Context) :=
  parse_loop (S (length (c_prog ctx))) strict onCall (default maxStackSize maxLen) ctx (mkPS [] [] 0).

Definition cut_call (st : list PushedItem) : res scerr (list PushedItem) :=
  if bool_decide (length st ≠ 4%nat) then Err "System.Contract.Call requires 4 parameters"%string
  else Ok (take (length st - 3) st).

(** The elements of the list, the lists they refer to, and the context. *)
Definition getListFromContext (ctx : Context) (strict : bool) (maxLen : option nat)
    : res scerr (list PushedItem * list (list PushedItem) * Context) :=
  '(s, ctx) ← getSomethingFromContext ctx strict cut_call maxLen;
  match ps_res s with
  | [p] =>
      match pi_list p with
      | None => Err "expected Array/Struct on stack"%string
      | Some l =>
          let items := default [] (ps_lists s !! l) in
          if bool_decide (0 < ps_last s < LenInstr ctx) then
            match Jump ctx (ps_last s) with
            | Ok ctx => Ok (items, ps_lists s, ctx)
            | _ => Panic
            end
          else Ok (items, ps_lists s, ctx)
      end
  | _ => Err "unexpected number of elements on stack"%string
  end.

Definition GetListFromContext (ctx : Context) (maxLen : option nat) := getListFromContext ctx true maxLen.
Definition GetListFromContextNonStrict (ctx : Context) (maxLen : option nat) := getListFromContext ctx false maxLen.

Definition GetListOfEFromPushedItem {E} (lists : list (list PushedItem)) (getE : Instruction → res scerr E) (p : PushedItem)
    : res scerr (list E) :=
  match pi_list p with
  | None => Err "expected list"%string
  | Some l => list_of getE (default [] (lists !! l))
  end.

Definition GetListOfEFromContext {E} (ctx : Context) (getE : Instruction → res scerr E) (maxLen : option nat)
    : res scerr (list E * Context) :=
  '(items, _, ctx) ← GetListFromContext ctx maxLen;
  l ← list_of getE items;
  Ok (l, ctx).

(** ** Calls *)

Definition next_instr (ctx : Context) : res scerr (Instruction * Context) :=
  match Next ctx with
  | Ok (op, param, ctx) => Ok (instr_of op param, ctx)
  | Err _ => Err "failed to parse instruction"%string
  | Panic => Panic
  end.

(** The flag is read as an [int64], converted to a byte and then checked. *)
Definition GetAppCallNoArgsFromContext (ctx : Context) : res scerr (bytes * bytes * Z * Context) :=
  '(i, ctx) ← next_instr ctx;
  f ← GetInt64FromInstr i;
  if negb (flag_IsValid (u8 f)) then Err "invalid callflag value"%string else
  '(i, ctx) ← next_instr ctx;
  method ← GetUTF8StringFromInstr i;
  if bool_decide (length method = 0%nat) then Err "empty method name"%string else
  '(i, ctx) ← next_instr ctx;
  h ← GetUint160FromInstr i;
  '(i, ctx) ← next_instr ctx;
  _ ← verifySystemContractCall (in_op i) (default [] (in_param i));
  Ok (h, method, u8 f, ctx).

Record appcall := mkCall {
  ac_hash : bytes; ac_method : bytes; ac_flag : Z; ac_args : list PushedItem; ac_lists : list (list PushedItem);
}.

Definition getAppCallFromContext (ctx : Context) (strict : bool) : res scerr (appcall * Context) :=
  '(args, lists, ctx) ← getListFromContext ctx strict None;
  '(h, m, f, ctx) ← GetAppCallNoArgsFromContext ctx;
  Ok (mkCall h m f args lists, ctx).

Definition GetASSERTFromContext (ctx : Context) : res scerr Context :=
  '(i, ctx) ← next_instr ctx;
  if bool_decide (in_op i ≠ ASSERT) then Err "expected ASSERT"%string else Ok ctx.

Definition EnsureScriptEnd (ctx : Context) : res scerr unit :=
  if bool_decide (c_nextip ctx < LenInstr ctx) then Err "extra data after script end"%string else Ok tt.

Definition parseAppCall (script : bytes) (strict assertAllowed assertRequired : bool) : res scerr appcall :=
  '(c, ctx) ← getAppCallFromContext (NewContext script 0) strict;
  ctx ← (if assertAllowed then
           if bool_decide (c_nextip ctx < LenInstr ctx) then GetASSERTFromContext ctx
           else if assertRequired then Err "ASSERT required at the end of the script"%string else Ok ctx
         else Ok ctx);
  _ ← EnsureScriptEnd ctx;
  Ok c.

Definition ParseAppCall (script : bytes) : res scerr appcall := parseAppCall script true false false.
Definition ParseAppCallNonStrict (script : bytes) : res scerr appcall := parseAppCall script false false false.
Definition ParseAppCallWithASSERT (script : bytes) (assertRequired : bool) : res scerr appcall :=
  parseAppCall script false true assertRequired.

Definition ParseSomething (script : bytes) (strict : bool) : res scerr (list PushedItem * list (list PushedItem)) :=
  '(s, ctx) ← getSomethingFromContext (NewContext script 0) strict (λ _, Err "SYSCALL is not allowed"%string) None;
  _ ← EnsureScriptEnd ctx;
  Ok (ps_res s, ps_lists s).

(** *** Transfers *)

Definition transfer_args (n : nat) (ctx : Context) : res scerr (bytes * list PushedItem * Context) :=
  '(c, ctx) ← getAppCallFromContext ctx true;
  if bool_decide (ac_method c ≠ str "transfer") then Err "expected 'transfer' call"%string else
  if bool_decide (length (ac_args c) ≠ n) then Err "unexpected number of arguments"%string else
  Ok (ac_hash c, ac_args c, ctx).

Definition GetNEP17TransferFromContext (ctx : Context)
    : res scerr (bytes * bytes * bytes * Z * PushedItem * Context) :=
  '(h, args, ctx) ← transfer_args 4 ctx;
  match args with
  | [a0; a1; a2; a3] =>
      from ← GetUint160FromInstr (pi_instr a0);
      to ← GetUint160FromInstr (pi_instr a1);
      amount ← GetBigIntFromInstr (pi_instr a2);
      Ok (h, from, to, amount, a3, ctx)
  | _ => Panic
  end.

Definition GetNEP11TransferFromContext (ctx : Context) : res scerr (bytes * bytes * bytes * PushedItem * Context) :=
  '(h, args, ctx) ← transfer_args 3 ctx;
  match args with
  | [a0; a1; a2] =>
      to ← GetUint160FromInstr (pi_instr a0);
      tokenID ← GetBytesFromInstr (pi_instr a1);
      Ok (h, to, tokenID, a2, ctx)
  | _ => Panic
  end.

Definition GetNEP11TransferDFromContext (ctx : Context)
    : res scerr (bytes * bytes * bytes * Z * bytes * PushedItem * Context) :=
  '(h, args, ctx) ← transfer_args 5 ctx;
  match args with
  | [a0; a1; a2; a3; a4] =>
      from ← GetUint160FromInstr (pi_instr a0);
      to ← GetUint160FromInstr (pi_instr a1);
      amount ← GetBigIntFromInstr (pi_instr a2);
      tokenID ← GetBytesFromInstr (pi_instr a3);
      Ok (h, from, to, amount, tokenID, a4, ctx)
  | _ => Panic
  end.

(** What the three [Parse] functions of transfers share. *)
Definition whole_script {A} (get : Context → res scerr (A * Context)) (script : bytes) : res scerr A :=
  '(a, ctx) ← get (NewContext script 0);
  ctx ← (if bool_decide (c_nextip ctx < LenInstr ctx) then GetASSERTFromContext ctx else Ok ctx);
  _ ← EnsureScriptEnd ctx;
  Ok a.

Definition ParseNEP17Transfer := whole_script GetNEP17TransferFromContext.
Definition ParseNEP11Transfer := whole_script GetNEP11TransferFromContext.
Definition ParseNEP11TransferD := whole_script GetNEP11TransferDFromContext.

(** ** Multisignature contracts *)

Definition MaxMultisigKeys : Z := 1024.

Definition getNumOfThingsFromInstr (i : Instruction) : res scerr (option Z) :=
  match GetInt64FromInstr i with
  | Ok n => Ok (if bool_decide (n < 1) || bool_decide (MaxMultisigKeys < n) then None else Some n)
  | Err _ => Ok None
  | Panic => Panic
  end.

(** The loop over the keys: the keys, and the instruction after them. *)
Fixpoint multisig_keys (fuel : nat) (ctx : Context) (pubs : list bytes) : res scerr (option (list bytes * Instruction * Context)) :=
  match fuel with
  | O => Panic
  | S fuel =>
      match Next ctx with
      | Panic => Panic
      | Err _ => Ok None
      | Ok (op, param, ctx) =>
          if bool_decide (op ≠ PUSHDATA1) then Ok (Some (pubs, instr_of op param, ctx)) else
          if bool_decide (length param < 33)%nat then Ok None else
          let pubs := pubs ++ [param] in
          if bool_decide (MaxMultisigKeys < Z.of_nat (length pubs)) then Ok None else multisig_keys fuel ctx pubs
      end
  end.

Definition ParseMultiSigContract (script : bytes) : res scerr (option (Z * list bytes)) :=
  if bool_decide (length script < 42)%nat then Ok None else
  match next_instr (NewContext script 0) with
  | Panic => Panic
  | Err _ => Ok None
  | Ok (i, ctx) =>
      nsigs ← getNumOfThingsFromInstr i;
      match nsigs with
      | None => Ok None
      | Some nsigs =>
          keys ← multisig_keys (S (length script)) ctx [];
          match keys with
          | None => Ok None
          | Some (pubs, i, ctx) =>
              let nkeys := Z.of_nat (length pubs) in
              if bool_decide (nkeys < nsigs) then Ok None else
              nkeys2 ← getNumOfThingsFromInstr i;
              if bool_decide (nkeys2 ≠ Some nkeys) then Ok None else
              match Next ctx with
              | Panic => Panic
              | Err _ => Ok None
              | Ok (op, param, ctx) =>
                  if bool_decide (op ≠ SYSCALL) || bool_decide (le_val param ≠ ToID SystemCryptoCheckMultisig)
                  then Ok None else
                  match Next ctx with
                  | Panic => Panic
                  | Err _ => Ok None
                  | Ok (op, _, ctx) =>
                      if bool_decide (op ≠ RET) || bool_decide (c_ip ctx ≠ LenInstr ctx) then Ok None
                      else Ok (Some (nsigs, pubs))
                  end
              end
          end
      end
  end.

Definition IsMultiSigContract (script : bytes) : res scerr bool :=
  r ← ParseMultiSigContract script; Ok (bool_decide (is_Some r)).

Definition IsStandardContract (script : bytes) : res scerr bool :=
  if IsSignatureContract (ToID SystemCryptoCheckSig) script then Ok true else IsMultiSigContract script.
End parse.
