(* ===== verification/ParseSpec.v ===== *)
(** * ParseSpec: what is emitted is parsed back

    The parser finds in a script what the emitter was given: the elements of
    lists, structures and maps, integers, bytes; the contract, the method, the
    flags and the arguments of a call; the keys of a multisignature contract.
    What values mean are the trees of Serial.v. *)

From S2P Require Import Prelude Bigint BinIO Codec Hash Keys Witness StackItem Serial Bitfield Script Emit Parse.

#[local] Open Scope Z_scope.

(** ** Instructions in a script *)

Definition ibytes (op : Opcode) (param : bytes) : bytes :=
  let n := Z.of_nat (length param) in
  z2b (op_code op)
  :: match op with
     | PUSHDATA1 => [z2b n]
     | PUSHDATA2 => le_enc 2 n
     | PUSHDATA4 => le_enc 4 n
     | _ => []
     end ++ param.

(** Parameters that an instruction can have. *)
Definition iok (op : Opcode) (param : bytes) : Prop :=
  let n := Z.of_nat (length param) in
  match op with
  | PUSHDATA1 => n < 256
  | PUSHDATA2 => n < 65536
  | PUSHDATA4 => n <= MaxSize
  | _ => match fixed_param op with Some k => n = k | None => param = [] end
  end.

Lemma slice_mid pre s post i j :
  i = Z.of_nat (length pre) → j = Z.of_nat (length pre + length s) → Script.slice (pre ++ s ++ post) i j = Some s.
Proof.
  intros -> ->. rewrite slice_in by (rewrite ?length_app; lia). f_equal.
  replace (Z.to_nat (Z.of_nat (length pre + length s) - Z.of_nat (length pre))) with (length s) by lia.
  by rewrite Nat2Z.id, drop_app_length, take_app_length.
Qed.

Lemma byte_at_mid pre b post i : i = Z.of_nat (length pre) → byte_at (pre ++ b :: post) i = Some b.
Proof.
  intros ->. unfold byte_at. rewrite bool_decide_eq_false_2 by lia. rewrite Nat2Z.id.
  by rewrite list_lookup_middle.
Qed.

Definition is_data (op : Opcode) : bool :=
  match op with PUSHDATA1 | PUSHDATA2 | PUSHDATA4 => true | _ => false end.

(** Every other instruction has a parameter of a fixed length, or none. *)
Lemma not_data op param prog l :
  is_data op = false →
  param_span op prog l = Ok (match fixed_param op with Some n => Some (l, n) | None => None end)
  ∧ ibytes op param = z2b (op_code op) :: param
  ∧ (iok op param ↔ match fixed_param op with Some k => Z.of_nat (length param) = k | None => param = [] end).
Proof. by destruct op. Qed.

Lemma Next_ibytes ip pre op param post :
  iok op param →
  Next (mkCtx ip (Z.of_nat (length pre)) (pre ++ ibytes op param ++ post))
  = Ok (op, param, mkCtx (Z.of_nat (length pre)) (Z.of_nat (length (pre ++ ibytes op param))) (pre ++ ibytes op param ++ post)).
Proof.
  intros Hok. unfold Next. cbn [c_prog c_nextip c_ip].
  assert (∃ pr, ibytes op param = z2b (op_code op) :: pr ++ param ∧
    (param_span op (pre ++ ibytes op param ++ post) (Z.of_nat (length pre) + 1)
      = Ok (Some (Z.of_nat (length pre) + 1 + Z.of_nat (length pr), Z.of_nat (length param)))
     ∨ param_span op (pre ++ ibytes op param ++ post) (Z.of_nat (length pre) + 1) = Ok None ∧ param = [] ∧ pr = []))
    as (pr & Hb & Hsp).
  { destruct (is_data op) eqn:Hd.
    - set (n := Z.of_nat (length param)). destruct op; try done; cbn [iok] in Hok; unfold ibytes; fold n.
      + exists [z2b n]. split; [done|]. left. cbn [param_span]. rewrite bool_decide_eq_false_2 by (rewrite !length_app; cbn; lia).
        change (pre ++ (z2b (op_code PUSHDATA1) :: [z2b n] ++ param) ++ post)
          with (pre ++ [z2b (op_code PUSHDATA1)] ++ z2b n :: param ++ post).
        rewrite app_assoc, byte_at_mid by (rewrite length_app; cbn; lia). rewrite b2z_z2b_small by lia. done.
      + exists (le_enc 2 n). split; [done|]. left. cbn [param_span].
        rewrite bool_decide_eq_false_2 by (rewrite !length_app; cbn [length]; rewrite length_app, length_le_enc; lia).
        change (pre ++ (z2b (op_code PUSHDATA2) :: le_enc 2 n ++ param) ++ post)
          with (pre ++ [z2b (op_code PUSHDATA2)] ++ (le_enc 2 n ++ param) ++ post).
        rewrite (app_assoc pre), <- (app_assoc (le_enc 2 n)). rewrite slice_mid by (rewrite length_app, ?length_le_enc; cbn; lia).
        rewrite le_val_enc, Z.mod_small by (change (256 ^ Z.of_nat 2) with 65536; lia). by rewrite length_le_enc.
      + exists (le_enc 4 n). split; [done|]. left. cbn [param_span]. change MaxSize with 131070 in *.
        rewrite bool_decide_eq_false_2 by (rewrite !length_app; cbn [length]; rewrite length_app, length_le_enc; lia).
        change (pre ++ (z2b (op_code PUSHDATA4) :: le_enc 4 n ++ param) ++ post)
          with (pre ++ [z2b (op_code PUSHDATA4)] ++ (le_enc 4 n ++ param) ++ post).
        rewrite (app_assoc pre), <- (app_assoc (le_enc 4 n)). rewrite slice_mid by (rewrite length_app, ?length_le_enc; cbn; lia).
        rewrite le_val_enc, Z.mod_small by (change (256 ^ Z.of_nat 4) with (2 ^ 32); lia). cbv zeta.
        rewrite bool_decide_eq_false_2 by lia. by rewrite length_le_enc.
    - exists []. destruct (not_data op param (pre ++ ibytes op param ++ post) (Z.of_nat (length pre) + 1) Hd) as (-> & -> & Hi).
      split; [done|]. apply Hi in Hok. destruct (fixed_param op); [left|right; done]. rewrite Hok. cbn. do 3 f_equal. lia. }
  rewrite Hb in *. rewrite bool_decide_eq_false_2 by (rewrite !length_app; cbn; lia).
  cbn [app]. rewrite byte_at_mid by done. rewrite b2z_z2b_small by apply op_code_range. rewrite op_of_code.
  cbn [app] in Hsp. destruct Hsp as [->|(-> & -> & ->)]; cbn [mbind res_bind].
  - rewrite bool_decide_eq_false_2 by (rewrite !length_app; cbn [length]; rewrite !length_app; lia).
    assert (pre ++ z2b (op_code op) :: (pr ++ param) ++ post
      = (pre ++ z2b (op_code op) :: pr) ++ param ++ post) as -> by by rewrite <- !app_assoc.
    rewrite slice_mid by (rewrite !length_app; cbn [length]; lia). do 3 f_equal. rewrite !length_app. cbn [length]. rewrite length_app. lia.
  - do 3 f_equal. rewrite length_app. cbn. lia.
Qed.

(** ** Integers *)

Lemma msb_set_app a b : b ≠ [] → msb_set (a ++ b) = msb_set b.
Proof. intros Hb. destruct (exists_last Hb) as [l [x ->]]. unfold msb_set. by rewrite app_assoc, !last_snoc. Qed.

(** Padding keeps the value. *)
Lemma signed_val_pad s buf : buf ≠ [] → signed_val (padRight s buf) = signed_val buf.
Proof.
  intros Hb. unfold padRight. destruct (s - length buf)%nat as [|k] eqn:Hk; [by rewrite app_nil_r|].
  set (c := if msb_set buf then xff else x00).
  assert (msb_set (buf ++ replicate (S k) c) = msb_set buf) as Hm.
  { rewrite msb_set_app by done. replace (S k) with (k + 1)%nat by lia. rewrite replicate_add, msb_set_app by done.
    unfold c. by destruct (msb_set buf). }
  unfold signed_val. rewrite Hm, le_val_app, length_app, length_replicate. unfold c.
  rewrite Nat2Z.inj_add, Z.pow_add_r by lia.
  destruct (msb_set buf); rewrite ?le_val_replicate_ff, ?le_val_replicate_00; lia.
Qed.

Lemma length_padRight s buf : (length buf <= s)%nat → length (padRight s buf) = s.
Proof. intros Hl. unfold padRight. rewrite length_app, length_replicate. lia. Qed.

(** The instruction that pushes [n]. *)
Definition int_instr (n : Z) : Opcode * bytes :=
  if bool_decide (n = -1) then (PUSHM1, []) else
  if bool_decide (0 <= n < 16) then (op_at (op_code PUSH0 + n), []) else
  let padSize := len8 (Z.of_nat (length (ToBytes n)) - 1) in
  (op_at (op_code PUSHINT8 + padSize), padRight (Z.to_nat (Z.shiftl 1 padSize)) (ToBytes n)).

Definition int_code (n : Z) : bytes := ibytes (int_instr n).1 (int_instr n).2.

Lemma ToBytes_nonempty n : n ≠ 0 → (1 <= length (ToBytes n))%nat.
Proof.
  intros Hn. destruct (ToPreallocatedBytes_spec n) as (-> & _).
  destruct (enc_len n) eqn:E; [|lia]. exfalso. apply Hn. apply (enc_len_le n 0). lia.
Qed.

Lemma len8_u8 l : (1 <= l <= 32)%nat → u8 (Z.of_nat l - 1) = Z.of_nat l - 1.
Proof. intros Hl. apply wrap_u_small. lia. Qed.

(** The sizes of integers. *)
Lemma int_sizes l : (1 <= l <= 32)%nat →
  let k := len8 (Z.of_nat l - 1) in
  (l <= Z.to_nat (Z.shiftl 1 k))%nat ∧ fixed_param (op_at (op_code PUSHINT8 + k)) = Some (Z.shiftl 1 k)
  ∧ op_code (op_at (op_code PUSHINT8 + k)) = k ∧ 0 <= k <= 5 ∧ ((l <= 8)%nat → k <= 3).
Proof.
  intros Hl.
  assert (Forall (λ l, (l <= Z.to_nat (Z.shiftl 1 (len8 (Z.of_nat l - 1))))%nat
    ∧ fixed_param (op_at (op_code PUSHINT8 + len8 (Z.of_nat l - 1))) = Some (Z.shiftl 1 (len8 (Z.of_nat l - 1)))
    ∧ op_code (op_at (op_code PUSHINT8 + len8 (Z.of_nat l - 1))) = len8 (Z.of_nat l - 1)
    ∧ 0 <= len8 (Z.of_nat l - 1) <= 5 ∧ ((l <= 8)%nat → len8 (Z.of_nat l - 1) <= 3)) (seq 1 32)) as Hall.
  { apply Forall_forall. intros x Hx%elem_of_seq.
    do 33 (destruct x as [|x]; [first [lia|vm_compute; split_and!; lia||done]|]). lia. }
  rewrite Forall_forall in Hall. apply Hall, elem_of_seq. lia.
Qed.

Lemma ibytes_nodata op param : is_data op = false → ibytes op param = z2b (op_code op) :: param.
Proof. by destruct op. Qed.

Lemma emits_Opcodes op w : w_err w = None → Opcodes [op] w = mkWriter (w_buf w ++ ibytes op []) None ∨ is_data op = true.
Proof.
  intros Hw. destruct (is_data op) eqn:Hd; [by right|left]. rewrite ibytes_nodata by done. cbn [Opcodes]. by apply emits_B.
Qed.

Lemma emits_op op : is_data op = false → emits (Opcodes [op]) (ibytes op []).
Proof. intros Hd w Hw. destruct (emits_Opcodes op w Hw); [done|congruence]. Qed.

Lemma int_big n : - 2 ^ 255 <= n < 2 ^ 255 → ¬ (-1 <= n < 16) → ∀ small w, w_err w = None →
  emit_bigInt n small w = mkWriter (w_buf w ++ int_code n) None.
Proof.
  intros Hr Hn small w Hw. unfold emit_bigInt. rewrite Hw.
  assert ((if small && IsInt64 n then smallInt n w else None) = None) as ->.
  { unfold smallInt. rewrite !bool_decide_eq_false_2 by lia. by destruct (small && IsInt64 n). }
  rewrite (proj2 (CheckIntegerSize_ok n)) by done. pose proof (ToBytes_nonempty n ltac:(lia)). pose proof (ToBytes_max n Hr).
  rewrite bool_decide_eq_false_2 by lia. rewrite len8_u8 by lia.
  unfold int_code, int_instr. rewrite !bool_decide_eq_false_2 by lia. cbn [fst snd].
  destruct (int_sizes (length (ToBytes n)) ltac:(lia)) as (Hle & Hfix & Hcode & Hk & _).
  set (op := op_at _) in *. assert (is_data op = false) as Hd by (destruct op; try done; cbn in Hcode; lia).
  rewrite ibytes_nodata by done. cbn [Opcodes]. rewrite (emits_B _ w Hw). rewrite (emits_bytes _ (mkWriter _ None)) by done.
  cbn [w_buf]. by rewrite <- app_assoc.
Qed.

Lemma push_op_code n : 0 <= n < 17 → op_code (op_at (op_code PUSH0 + n)) = op_code PUSH0 + n.
Proof.
  intros Hn. rewrite <- (Z2Nat.id n) by lia. assert (Z.to_nat n < 17)%nat as Hl by lia. revert Hl.
  generalize (Z.to_nat n) as k. intros k Hk. do 17 (destruct k as [|k]; [done|]). lia.
Qed.

Lemma int_small n : -1 <= n < 16 → ∀ w, w_err w = None → smallInt n w = Some (mkWriter (w_buf w ++ int_code n) None).
Proof.
  intros Hn w Hw. unfold smallInt, int_code, int_instr.
  case_bool_decide; [by rewrite (emits_op PUSHM1) by done|].
  rewrite !bool_decide_eq_true_2 by lia. cbn [fst snd].
  pose proof (push_op_code n ltac:(lia)) as Hc. rewrite emits_op; [done| |done].
  destruct (op_at _); try done; cbn in Hc; lia.
Qed.

Lemma emits_Int n : - 2 ^ 255 <= n < 2 ^ 255 → emits (emit_Int n) (int_code n).
Proof.
  intros Hr w Hw. unfold emit_Int. destruct (decide (-1 <= n < 16)) as [Hn|Hn]; [by rewrite int_small|].
  assert (smallInt n w = None) as -> by (unfold smallInt; by rewrite !bool_decide_eq_false_2 by lia).
  by apply int_big.
Qed.

Lemma emits_BigInt n : - 2 ^ 255 <= n < 2 ^ 255 → emits (emit_BigInt n) (int_code n).
Proof.
  intros Hr w Hw. unfold emit_BigInt. destruct (decide (-1 <= n < 16)) as [Hn|Hn]; [|by apply int_big].
  unfold emit_bigInt. rewrite Hw. unfold IsInt64. rewrite bool_decide_eq_true_2 by lia. cbn [andb]. by rewrite int_small.
Qed.

Definition data_op (b : bytes) : Opcode :=
  if bool_decide (Z.of_nat (length b) < 0x100) then PUSHDATA1 else
  if bool_decide (Z.of_nat (length b) < 0x10000) then PUSHDATA2 else PUSHDATA4.

Lemma emits_Bytes b : emits (emit_Bytes b) (ibytes (data_op b) b).
Proof.
  intros w Hw. unfold emit_Bytes, data_op, emit_Instruction. repeat case_bool_decide;
    rewrite (emits_B _ w Hw), !emits_bytes by done; cbn [w_buf]; unfold ibytes; by rewrite <- !app_assoc.
Qed.

Lemma data_op_ok b : Z.of_nat (length b) <= MaxSize →
  iok (data_op b) b ∧ is_push (data_op b) = true ∧ GetBytesFromInstr (instr_of (data_op b) b) = Ok b.
Proof. unfold data_op. repeat case_bool_decide; done. Qed.

Lemma signed_wrap p k : length p = k → (0 < k)%nat → wrap_s (8 * Z.of_nat k) (le_val p) = signed_val p.
Proof.
  intros Hl Hk. assert (p ≠ []) as Hp by (by intros ->; cbn in Hl; lia). symmetry.
  pose proof (wrap_s_range (8 * Z.of_nat k) (le_val p) ltac:(lia)) as Hr. pose proof (le_val_range p) as Hv.
  apply signed_val_unique; [done| |].
  - rewrite Hl. destruct k; [lia|exact Hr].
  - rewrite Hl, pow256_pow2. unfold wrap_s.
    rewrite Zminus_mod_idemp_l, Z.add_simpl_r. symmetry. apply Z.mod_small.
    rewrite <- pow256_pow2, <- Hl. exact Hv.
Qed.

Lemma param_uint_full p k op : length p = k → param_uint k (mkInstr op (Some p)) = Ok (le_val p).
Proof. intros Hl. unfold param_uint. cbn. rewrite bool_decide_eq_false_2 by lia. by rewrite take_ge by lia. Qed.

(** The parser reads the integer back. *)
Lemma int_instr_ok n : - 2 ^ 255 <= n < 2 ^ 255 →
  let '(op, param) := int_instr n in
  iok op param ∧ is_push op = true ∧ GetBigIntFromInstr (instr_of op param) = Ok n
  ∧ (- 2 ^ 63 <= n < 2 ^ 63 → GetInt64FromInstr (instr_of op param) = Ok n).
Proof.
  intros Hr. unfold int_instr. case_bool_decide as Hm; [by subst|]. case_bool_decide as Hs.
  { pose proof (push_op_code n ltac:(lia)) as Hc. change (op_code PUSH0) with 16 in *.
    set (op := op_at _) in *. assert (is_push_small op = true) as Hps.
    { unfold is_push_small. apply bool_decide_eq_true_2. rewrite Hc. cbn. lia. }
    assert (in_op (instr_of op []) = op) as Hin by done.
    unfold GetBigIntFromInstr, GetInt64FromInstr. rewrite Hin, Hps, Hc. change (op_code PUSH0) with 16.
    split; [|split; [|split; [f_equal; lia|intros _; f_equal; lia]]];
      clearbody op; clear -Hps; destruct op; vm_compute in Hps; try done; by vm_compute. }
  pose proof (ToBytes_nonempty n ltac:(lia)) as Hne. pose proof (ToBytes_max n Hr) as Hmax.
  destruct (int_sizes (length (ToBytes n)) ltac:(lia)) as (Hle & Hfix & Hcode & Hk & Hk8).
  set (k := len8 _) in *. set (op := op_at _) in *. set (p := padRight _ _).
  assert (length p = Z.to_nat (Z.shiftl 1 k)) as Hlp by by apply length_padRight.
  assert (signed_val p = n) as Hv.
  { unfold p. rewrite signed_val_pad, ToBytes_signed; [done|]. intros E. rewrite E in Hne. cbn in Hne. lia. }
  assert (0 <= Z.shiftl 1 k) as Hsh by (apply Z.shiftl_nonneg; lia).
  assert (in_param (instr_of op p) = Some p ∧ is_data op = false) as [Hp Hd].
  { unfold instr_of. cbn [in_param]. by destruct op; cbn in Hcode; try lia; rewrite ?Hfix. }
  assert (is_push_small op = false) as Hps.
  { unfold is_push_small. apply bool_decide_eq_false_2. rewrite Hcode. cbn. lia. }
  split.
  { destruct (not_data op p [] 0 Hd) as (_ & _ & Hi). apply Hi. rewrite Hfix. lia. }
  split; [unfold is_push; rewrite bool_decide_eq_true_2 by (rewrite Hcode; cbn; lia); done|].
  split.
  { unfold GetBigIntFromInstr. change (in_op (instr_of op p)) with op. rewrite Hps.
    rewrite bool_decide_eq_true_2 by (rewrite Hcode; cbn; lia). rewrite Hp. cbn [FromBytes].
    by rewrite FromBytes_nonnil_spec, Hv. }
  intros H64. unfold GetInt64FromInstr. change (in_op (instr_of op p)) with op. rewrite Hps.
  assert (k <= 3) as Hk3.
  { apply Hk8. destruct (ToPreallocatedBytes_spec n) as (-> & _). by apply enc_len_le. }
  assert (op = PUSHINT8 ∧ k = 0 ∨ op = PUSHINT16 ∧ k = 1 ∨ op = PUSHINT32 ∧ k = 2 ∨ op = PUSHINT64 ∧ k = 3) as Hop.
  { clear -Hcode Hk Hk3. destruct op; cbn in Hcode; try lia; naive_solver. }
  assert (instr_of op p = mkInstr op (Some p)) as -> by (unfold instr_of; f_equal; exact Hp).
  destruct Hop as [[-> Hk']|[[-> Hk']|[[-> Hk']|[-> Hk']]]]; rewrite Hk' in Hlp; cbn in Hlp;
    rewrite (param_uint_full p _ _ Hlp); cbn [mbind res_bind]; rewrite <- Hv; f_equal;
    by rewrite <- (signed_wrap p _ Hlp) by (vm_compute; lia).
Qed.

(** ** Rounds of the parser *)

Lemma parse_push `{Digest} strict oc maxL op param nextip s :
  is_push op = true → (length (ps_res s) <= maxL)%nat →
  parse_step strict oc maxL op param nextip s = Ok (push s (PI (instr_of op param) None None), true).
Proof.
  intros Hp Hl.
  assert (parse_step strict oc maxL op param nextip s =
    (let s := push s (PI (instr_of op param) None None) in
     if bool_decide (maxL + 1 < length (ps_res s))%nat then Err "number of elements exceeds"%string else Ok (s, true))) as ->
    by by destruct op.
  cbv zeta. rewrite bool_decide_eq_false_2; [done|]. cbn. rewrite length_app. cbn. lia.
Qed.

(** ** Values in a script *)

Definition pack_op (k : nkind) : Opcode := match k with KArr => PACK | KStr => PACKSTRUCT | KMp => PACKMAP end.

(** The code of a value: elements from the last one on, then how many there are
    and what packs them. *)
Fixpoint tcode (t : tree) : bytes :=
  match t with
  | TNull => ibytes PUSHNULL []
  | TBool b => ibytes (if b then PUSHT else PUSHF) []
  | TInt n => int_code n
  | TBytes b | TBuf b => ibytes (data_op b) b
  | TNode KArr [] => ibytes NEWARRAY0 []
  | TNode k l => concat (rev (map tcode l)) ++ int_code (Z.of_nat (node_count k (length l))) ++ ibytes (pack_op k) []
  end.

Definition lcode (l : list tree) : bytes := concat (rev (map tcode l)).

Lemma lcode_cons t l : lcode (t :: l) = lcode l ++ tcode t.
Proof. unfold lcode. cbn. rewrite concat_app. cbn. by rewrite app_nil_r. Qed.

Definition is_node (t : tree) : bool := match t with TNode _ _ => true | _ => false end.

(** What a pushed item stands for; lists are in the store. *)
Inductive shows (lists : list (list PushedItem)) : PushedItem → tree → Prop :=
  | sh_null i : in_op i = PUSHNULL → shows lists (PI i None None) TNull
  | sh_bool i b : GetBoolFromInstr i = Ok b → shows lists (PI i None None) (TBool b)
  | sh_int i n : GetBigIntFromInstr i = Ok n → shows lists (PI i None None) (TInt n)
  | sh_bytes i b : GetBytesFromInstr i = Ok b → shows lists (PI i None None) (TBytes b)
  | sh_buf i b : GetBytesFromInstr i = Ok b → shows lists (PI i None None) (TBuf b)
  | sh_seq i k r items ts :
      in_op i = pack_op k ∨ in_op i = NEWARRAY0 ∧ k = KArr → k ≠ KMp →
      lists !! r = Some items → Forall2 (shows lists) items ts → shows lists (PI i (Some r) None) (TNode k ts)
  | sh_map i ps ts :
      in_op i = PACKMAP → Forall2 (shows lists) (flat (map (λ e, (PI e.1 None None, e.2)) ps)) ts →
      shows lists (PI i None (Some ps)) (TNode KMp ts).

Lemma Forall2_weaken_r {A B} (R R' : A → B → Prop) l ts :
  Forall (λ t, ∀ p, R p t → R' p t) ts → Forall2 R l ts → Forall2 R' l ts.
Proof. intros Hall Hf. induction Hf; inversion_clear Hall; constructor; auto. Qed.

Lemma shows_app lists more : ∀ t p, shows lists p t → shows (lists ++ more) p t.
Proof.
  induction t as [| | | | |k ts IH] using tree_ind'; intros p Hs;
    inversion Hs as [| | | | |i k' r items ts' Ho Hk Hl Hf|i ps ts' Ho Hf]; subst;
    try by constructor.
  - apply (sh_seq _ i k r items); [done|done|by apply lookup_app_l_Some|]. by eapply Forall2_weaken_r.
  - constructor; [done|]. by eapply Forall2_weaken_r.
Qed.

Lemma shows_list_app lists more items ts : Forall2 (shows lists) items ts → Forall2 (shows (lists ++ more)) items ts.
Proof. intros Hf. eapply Forall2_impl; [exact Hf|]. intros. by apply shows_app. Qed.

Lemma shows_key lists p t : tkey t → shows lists p t → p = PI (pi_instr p) None None.
Proof. destruct 2; try done. Qed.

Lemma pairs_of_ok lists pts : ∀ items, Forall2 (shows lists) items (flat pts) → Forall (λ e, tkey e.1) pts →
  ∃ ps, pairs_of items = Ok ps ∧ flat (map (λ e, (PI e.1 None None, e.2)) ps) = items.
Proof.
  induction pts as [|[kt vt] pts IH]; intros items Hf Hk.
  { inversion Hf; subst. by exists []. }
  change (flat ((kt, vt) :: pts)) with (kt :: vt :: flat pts) in Hf.
  inversion Hf as [|k ? items1 ? Hks Hf1]; subst. inversion Hf1 as [|v ? items2 ? Hvs Hf2]; subst.
  inversion_clear Hk as [|? ? Hkk Hk']. destruct (IH items2 Hf2 Hk') as (ps & Hps & Hfl).
  cbn [pairs_of]. cbn in Hkk. rewrite (shows_key _ _ _ Hkk Hks). cbn [IsNested IsList IsMap pi_list pi_map pi_instr].
  rewrite Hps. eexists. split; [done|]. cbn [map]. change (flat (?x :: ?l)) with (x.1 :: x.2 :: flat l). by rewrite Hfl.
Qed.

Section rounds.
Context `{D : Digest} (strict : bool) (oc : list PushedItem → res scerr (list PushedItem)) (maxL : nat).

(** From one place of the script to another, in at most [len] rounds. *)
Definition advances (prog : bytes) (len : nat) (pos : Z) (s : pstate) (pos' : Z) (s' : pstate) : Prop :=
  ∃ n, (n <= len)%nat ∧ ∀ ip fuel, ∃ ip',
    parse_loop (n + fuel) strict oc maxL (mkCtx ip pos prog) s = parse_loop fuel strict oc maxL (mkCtx ip' pos' prog) s'.

Lemma advances_refl prog pos s : advances prog 0 pos s pos s.
Proof. exists 0%nat. split; [lia|]. intros ip fuel. by exists ip. Qed.

Lemma advances_trans prog l1 l2 p1 s1 p2 s2 p3 s3 :
  advances prog l1 p1 s1 p2 s2 → advances prog l2 p2 s2 p3 s3 → advances prog (l1 + l2) p1 s1 p3 s3.
Proof.
  intros (n & Hn & H1) (m & Hm & H2). exists (n + m)%nat. split; [lia|]. intros ip fuel.
  destruct (H1 ip (m + fuel)%nat) as [ip1 E1]. destruct (H2 ip1 fuel) as [ip2 E2]. exists ip2.
  by rewrite <- Nat.add_assoc, E1.
Qed.

Lemma advances_one pre op param post s s' :
  iok op param →
  parse_step strict oc maxL op param (Z.of_nat (length (pre ++ ibytes op param))) s = Ok (s', true) →
  advances (pre ++ ibytes op param ++ post) (length (ibytes op param)) (Z.of_nat (length pre)) s
    (Z.of_nat (length (pre ++ ibytes op param))) s'.
Proof.
  intros Hok Hst. exists 1%nat. split; [unfold ibytes; cbn; lia|]. intros ip fuel. exists (Z.of_nat (length pre)).
  cbn [parse_loop Nat.add]. rewrite Next_ibytes by done. unfold LenInstr. cbn [c_prog c_ip c_nextip].
  rewrite bool_decide_eq_false_2 by (rewrite !length_app; unfold ibytes; cbn [length]; lia).
  by rewrite Hst.
Qed.

Lemma advances_app prog l1 l2 p1 s1 p2 s2 p3 s3 l :
  advances prog l1 p1 s1 p2 s2 → advances prog l2 p2 s2 p3 s3 → (l1 + l2 <= l)%nat → advances prog l p1 s1 p3 s3.
Proof.
  intros H1 H2 Hl. destruct (advances_trans _ _ _ _ _ _ _ _ _ H1 H2) as (n & Hn & H). exists n. split; [lia|done].
Qed.

Lemma push_advances pre op param post s :
  iok op param → is_push op = true → (length (ps_res s) <= maxL)%nat →
  advances (pre ++ ibytes op param ++ post) (length (ibytes op param)) (Z.of_nat (length pre)) s
    (Z.of_nat (length (pre ++ ibytes op param))) (push s (PI (instr_of op param) None None)).
Proof. intros Hok Hp Hl. apply advances_one; [done|]. exact (parse_push strict oc maxL op param _ s Hp Hl). Qed.

(** Packing: the number and the instruction. *)
Lemma pack_arg_ok st n : 0 <= n < 2 ^ 63 →
  pack_arg (st ++ [PI (instr_of (int_instr n).1 (int_instr n).2) None None]) = Ok (n, st).
Proof.
  intros Hn. pose proof (int_instr_ok n ltac:(lia)) as Hi. destruct (int_instr n) as [op param].
  destruct Hi as (_ & _ & _ & H64). unfold pack_arg. rewrite last_snoc. cbn [pi_instr fst snd].
  rewrite H64 by lia. cbn [mbind res_bind]. rewrite bool_decide_eq_false_2 by lia.
  rewrite length_app. cbn. replace (length st + 1 - 1)%nat with (length st) by lia. by rewrite take_app_length.
Qed.

Lemma top_items_ok st items : top_items (st ++ rev items) (length items) (length items) = items.
Proof.
  unfold top_items. rewrite rev_app_distr, rev_involutive, take_app_length, Nat.sub_diag. by rewrite app_nil_r.
Qed.

Lemma do_pack_seq k i nextip st items lists last :
  k ≠ KMp → in_op i = pack_op k → Z.of_nat (length items) < 2 ^ 40 →
  let n := Z.of_nat (length items) in
  do_pack strict i nextip (mkPS ((st ++ rev items) ++ [PI (instr_of (int_instr n).1 (int_instr n).2) None None]) lists last)
  = Ok (mkPS (st ++ [PI i (Some (length lists)) None]) (lists ++ [items]) nextip).
Proof.
  intros Hk Hi Hl n. unfold do_pack. cbn [ps_res ps_lists ps_last]. rewrite pack_arg_ok by (unfold n; lia). cbn [mbind res_bind].
  rewrite Hi. destruct k; try done; cbn [pack_op]; unfold n, itemSize, maxAlloc; rewrite Nat2Z.id;
    rewrite bool_decide_eq_false_2 by lia; rewrite length_app, length_rev;
    rewrite (bool_decide_eq_false_2 (_ < _)%nat) by lia; rewrite andb_false_r;
    replace (min (length st + length items) (length items)) with (length items) by lia;
    rewrite top_items_ok; replace (length st + length items - length items)%nat with (length st) by lia;
    by rewrite take_app_length.
Qed.

Lemma do_pack_map i nextip st items lists last ps :
  in_op i = PACKMAP → pairs_of items = Ok ps → Nat.Even (length items) → Z.of_nat (length items) < 2 ^ 40 →
  let n := Z.of_nat (Nat.div2 (length items)) in
  do_pack strict i nextip (mkPS ((st ++ rev items) ++ [PI (instr_of (int_instr n).1 (int_instr n).2) None None]) lists last)
  = Ok (mkPS (st ++ [PI i None (Some ps)]) lists nextip).
Proof.
  intros Hi Hps [m Hm] Hl n. assert (n = Z.of_nat m) as -> by (unfold n; by rewrite Hm, Nat.div2_double).
  unfold do_pack. cbn [ps_res ps_lists ps_last]. rewrite pack_arg_ok by lia. cbn [mbind res_bind]. rewrite Hi.
  unfold pairSize, maxAlloc. rewrite Nat2Z.id, <- Hm. rewrite bool_decide_eq_false_2 by lia. rewrite length_app, length_rev.
  rewrite (bool_decide_eq_false_2 (_ < _)%nat) by lia. rewrite andb_false_r.
  replace (min (length st + length items) (length items)) with (length items) by lia.
  rewrite top_items_ok, Hps. cbn [mbind res_bind]. replace (length st + length items - length items)%nat with (length st) by lia.
  by rewrite take_app_length.
Qed.

(** The parser reads a value: one more item, with its lists. *)
Definition parsed (t : tree) : Prop := ∀ pre post st lists last,
  Z.of_nat (length st) + tsize t <= Z.of_nat maxL + 1 →
  ∃ p more,
    advances (pre ++ tcode t ++ post) (length (tcode t)) (Z.of_nat (length pre)) (mkPS st lists last)
      (Z.of_nat (length (pre ++ tcode t)))
      (mkPS (st ++ [p]) (lists ++ more) (if is_node t then Z.of_nat (length (pre ++ tcode t)) else last))
    ∧ shows (lists ++ more) p t.

Lemma list_parsed ts : Forall parsed ts → ∀ pre post st lists last,
  Z.of_nat (length st) + tsizes ts <= Z.of_nat maxL + 1 →
  ∃ items more last',
    advances (pre ++ lcode ts ++ post) (length (lcode ts)) (Z.of_nat (length pre)) (mkPS st lists last)
      (Z.of_nat (length (pre ++ lcode ts))) (mkPS (st ++ rev items) (lists ++ more) last')
    ∧ Forall2 (shows (lists ++ more)) items ts.
Proof.
  induction 1 as [|t ts Ht _ IH]; intros pre post st lists last Hl.
  { exists [], [], last. rewrite !app_nil_r. split; [|constructor]. apply advances_refl. }
  rewrite tsizes_cons in Hl. pose proof (tsize_pos t).
  destruct (IH pre (tcode t ++ post) st lists last ltac:(lia)) as (items & more & last1 & H1 & Hs1).
  pose proof (Forall2_length _ _ _ Hs1) as Hlen. pose proof (tsizes_length ts).
  destruct (Ht (pre ++ lcode ts) post (st ++ rev items) (lists ++ more) last1) as (p & more2 & H2 & Hs2).
  { rewrite length_app, length_rev. lia. }
  exists (p :: items), (more ++ more2). eexists. split.
  - rewrite lcode_cons. cbn [rev]. rewrite <- !app_assoc in *.
    eapply advances_app; [exact H1|exact H2|rewrite length_app; lia].
  - constructor; [by rewrite app_assoc|]. rewrite app_assoc. by apply shows_list_app.
Qed.

Lemma leaf_parsed t op param :
  tcode t = ibytes op param → is_node t = false → iok op param → is_push op = true →
  (∀ lists, shows lists (PI (instr_of op param) None None) t) → parsed t.
Proof.
  intros Ht Hn Hok Hp Hs pre post st lists last Hl. pose proof (tsize_pos t).
  exists (PI (instr_of op param) None None), []. rewrite Hn, Ht, app_nil_r. split; [|done].
  apply (push_advances pre op param post (mkPS st lists last)); [done|done|]. cbn. lia.
Qed.

Lemma node_code k l : k = KArr ∧ l = [] ∨
  tcode (TNode k l) = lcode l ++ int_code (Z.of_nat (node_count k (length l))) ++ ibytes (pack_op k) [].
Proof. destruct k, l; auto. Qed.

(** What the two ways of packing leave. *)
Lemma node_parsed k ts nextip st lists items :
  twf (TNode k ts) → Forall2 (shows lists) items ts → Z.of_nat (length items) < 2 ^ 40 →
  let n := Z.of_nat (node_count k (length items)) in
  ∃ p more, shows (lists ++ more) p (TNode k ts) ∧ ∀ last,
    parse_step strict oc maxL (pack_op k) [] nextip
      (mkPS ((st ++ rev items) ++ [PI (instr_of (int_instr n).1 (int_instr n).2) None None]) lists last)
    = Ok (mkPS (st ++ [p]) (lists ++ more) nextip, true).
Proof.
  intros Hw Hf Hlen n. inversion Hw as [| | | | |k' l Hk Hall|pts Hk Hnd Hall]; subst.
  - exists (PI (instr_of (pack_op k) []) (Some (length lists)) None), [items]. split.
    + apply (sh_seq _ _ _ _ items); [by left|done|by rewrite lookup_app_r, Nat.sub_diag by lia|by apply shows_list_app].
    + intros last. pose proof (do_pack_seq k (instr_of (pack_op k) []) nextip st items lists last Hk eq_refl Hlen) as Hd.
      cbv zeta in Hd. assert (n = Z.of_nat (length items)) as -> by by destruct k.
      destruct k; try done; cbn [parse_step pack_op] in *; by rewrite Hd.
  - destruct (pairs_of_ok _ _ _ Hf Hk) as (ps & Hps & Hfl).
    exists (PI (instr_of PACKMAP []) None (Some ps)), []. rewrite app_nil_r. split.
    + constructor; [done|]. by rewrite Hfl.
    + intros last. assert (Nat.Even (length items)) as He.
      { exists (length pts). rewrite (Forall2_length _ _ _ Hf). clear. induction pts as [|e l IH]; [done|].
        change (flat (e :: l)) with (e.1 :: e.2 :: flat l). cbn [length]. rewrite IH. lia. }
      pose proof (do_pack_map (instr_of PACKMAP []) nextip st items lists last ps eq_refl Hps He Hlen) as Hd. cbv zeta in Hd.
      change n with (Z.of_nat (Nat.div2 (length items))). cbn [parse_step pack_op]. by rewrite Hd.
Qed.

Lemma tree_parsed t : Z.of_nat maxL < 2 ^ 32 → twf t → parsed t.
Proof.
  intros HmaxL. induction t as [|b|n|b|b|k ts IH] using tree_ind'; intros Hw.
  - apply (leaf_parsed _ PUSHNULL []); try done. intros. by constructor.
  - apply (leaf_parsed _ (if b then PUSHT else PUSHF) []); try by destruct b. intros. constructor. by destruct b.
  - inversion_clear Hw as [| |? Hr| | | |]. pose proof (int_instr_ok n Hr) as Hi. destruct (int_instr n) as [op param] eqn:E.
    destruct Hi as (Hok & Hp & Hg & _). apply (leaf_parsed _ op param); try done; [cbn; unfold int_code; by rewrite E|].
    intros. by constructor.
  - inversion_clear Hw as [| | |? Hr| | |]. destruct (data_op_ok b Hr) as (Hok & Hp & Hg).
    apply (leaf_parsed _ (data_op b) b); try done. intros. by constructor.
  - inversion_clear Hw as [| | | |? Hr| |]. destruct (data_op_ok b Hr) as (Hok & Hp & Hg).
    apply (leaf_parsed _ (data_op b) b); try done. intros. by constructor.
  - assert (Forall parsed ts) as Hts.
    { assert (Forall twf ts) as Htw by (by inversion Hw). clear Hw. induction IH; inversion_clear Htw; constructor; auto. }
    clear IH. intros pre post st lists last Hl. rewrite tsize_node in Hl. cbn [is_node].
    destruct (node_code k ts) as [[-> ->]|Hc].
    { exists (PI (instr_of NEWARRAY0 []) (Some (length lists)) None), [[]]. split.
      - by apply advances_one.
      - apply (sh_seq _ _ _ _ []); [by right|done|by rewrite lookup_app_r, Nat.sub_diag by lia|constructor]. }
    rewrite Hc. set (n := Z.of_nat (node_count k (length ts))) in *.
    destruct (list_parsed ts Hts pre (int_code n ++ ibytes (pack_op k) [] ++ post) st lists last ltac:(lia))
      as (items & more & last' & H1 & Hs).
    pose proof (Forall2_length _ _ _ Hs) as Hlen. pose proof (tsizes_length ts) as Hsz.
    assert (n = Z.of_nat (node_count k (length items))) as Hn by (unfold n; by rewrite Hlen).
    destruct (node_parsed k ts (Z.of_nat (length (pre ++ lcode ts ++ int_code n ++ ibytes (pack_op k) []))) st
      (lists ++ more) items Hw Hs ltac:(lia)) as (p & more2 & Hsp & Hstep).
    exists p, (more ++ more2). rewrite (app_assoc lists). split; [|done].
    assert (0 <= n < 2 ^ 255) as Hnr.
    { assert (node_count k (length items) <= length items)%nat as Hle.
      { destruct k; cbn [node_count]; [lia..|]. apply Nat.div2_decr. lia. }
      rewrite Hn. split; [lia|]. apply Z.lt_trans with (2 ^ 40); [lia|by vm_compute]. }
    pose proof (int_instr_ok n ltac:(lia)) as Hi. specialize (Hstep last'). rewrite <- Hn in Hstep.
    unfold int_code in *. destruct (int_instr n) as [op param]. cbn [fst snd] in *. destruct Hi as (Hok & Hp & _ & _).
    pose proof (push_advances (pre ++ lcode ts) op param (ibytes (pack_op k) [] ++ post)
      (mkPS (st ++ rev items) (lists ++ more) last') Hok Hp) as H2.
    pose proof (advances_one (pre ++ lcode ts ++ ibytes op param) (pack_op k) [] post
      (mkPS ((st ++ rev items) ++ [PI (instr_of op param) None None]) (lists ++ more) last')
      (mkPS (st ++ [p]) ((lists ++ more) ++ more2) (Z.of_nat (length (pre ++ lcode ts ++ ibytes op param ++ ibytes (pack_op k) []))))) as H3.
    unfold push in H2. cbn [ps_res ps_lists ps_last] in H2. rewrite <- !app_assoc in *.
    eapply advances_app; [exact H1| |].
    + eapply advances_trans; [apply H2; rewrite length_app, length_rev; lia|]. apply H3; [by destruct k|exact Hstep].
    + rewrite !length_app. lia.
Qed.
End rounds.

(** ** Emitting values *)

Definition remits (f : BinWriter → res ioerr BinWriter) (code : bytes) : Prop :=
  ∀ w, w_err w = None → f w = Ok (mkWriter (w_buf w ++ code) None).

Lemma remits_bind f g a b : remits f a → remits g b → remits (λ w, w ← f w; g w) (a ++ b).
Proof. intros Hf Hg w Hw. rewrite Hf by done. cbn [mbind res_bind]. rewrite Hg by done. cbn [w_buf]. by rewrite app_assoc. Qed.

Lemma remits_ok f a : emits f a → remits (λ w, Ok (f w)) a.
Proof. intros Hf w Hw. by rewrite Hf. Qed.

Lemma remits_rev {A} (f : A → BinWriter → res ioerr BinWriter) l ts :
  Forall2 (λ a t, remits (f a) (tcode t)) l ts → remits (emit_rev f l) (lcode ts).
Proof.
  induction 1 as [|a t l ts Ha _ IH]; [intros [buf err] Hw; cbn in *; subst; by rewrite app_nil_r|].
  rewrite lcode_cons. exact (remits_bind _ _ _ _ IH Ha).
Qed.

(** How many there are and what packs them. *)
Lemma remits_pack f code n k :
  remits f code → 0 <= n < 2 ^ 255 →
  remits (λ w, w ← f w; Ok (Opcodes [pack_op k] (emit_Int n w))) (code ++ int_code n ++ ibytes (pack_op k) []).
Proof.
  intros Hf Hn. apply remits_bind; [done|]. apply remits_ok.
  intros w Hw. rewrite emits_Int by (lia || done). rewrite (emits_op (pack_op k)) by (try by destruct k). cbn [w_buf]. by rewrite app_assoc.
Qed.

Lemma count_range k ts : tsizes ts < 2 ^ 62 → 0 <= Z.of_nat (node_count k (length ts)) < 2 ^ 255.
Proof.
  intros Hs. pose proof (tsizes_length ts). assert (node_count k (length ts) <= length ts)%nat as Hle.
  { destruct k; cbn [node_count]; [lia..|]. apply Nat.div2_decr. lia. }
  split; [lia|]. apply Z.lt_trans with (2 ^ 62); [lia|by vm_compute].
Qed.

Lemma remits_Array {A} (f : A → BinWriter → res ioerr BinWriter) l ts :
  Forall2 (λ a t, remits (f a) (tcode t)) l ts → tsizes ts < 2 ^ 62 → remits (emit_Array f l) (tcode (TNode KArr ts)).
Proof.
  intros Hf Hs. pose proof (Forall2_length _ _ _ Hf) as Hl. apply remits_rev in Hf as Hr.
  destruct Hf as [|a t l ts _ _]; [by apply remits_ok, emits_op|].
  pose proof (count_range KArr _ Hs) as Hc. destruct (node_code KArr (t :: ts)) as [[_ Hn]|E]; [done|]. rewrite E.
  cbn [node_count] in *. rewrite <- Hl in *. by apply (remits_pack _ _ _ KArr).
Qed.

Lemma lcode_flat (ps : list (tree * tree)) : lcode (flat ps) = concat (rev (map (λ p, tcode p.2 ++ tcode p.1) ps)).
Proof.
  induction ps as [|p ps IH]; [done|]. change (flat (p :: ps)) with (p.1 :: p.2 :: flat ps).
  rewrite !lcode_cons, IH. cbn [map rev]. rewrite concat_app. cbn. by rewrite app_nil_r, <- app_assoc.
Qed.

Lemma flat_length {A} (ps : list (A * A)) : length (flat ps) = (2 * length ps)%nat.
Proof.
  induction ps as [|p ps IH]; [done|]. change (flat (p :: ps)) with (p.1 :: p.2 :: flat ps). cbn [length]. lia.
Qed.

Lemma remits_pairs (f : item → BinWriter → res ioerr BinWriter) (l : list (item * item)) ps :
  Forall2 (λ i t, remits (f i) (tcode t)) (flat l) (flat ps) → length l = length ps →
  remits (emit_rev (λ e w, w ← f e.2 w; f e.1 w) l) (lcode (flat ps)).
Proof.
  rewrite lcode_flat. revert ps. induction l as [|e l IH]; intros [|p ps] Hf Hl; try done.
  { intros [buf err] Hw; cbn in *; subst; by rewrite app_nil_r. }
  change (flat (e :: l)) with (e.1 :: e.2 :: flat l) in Hf. change (flat (p :: ps)) with (p.1 :: p.2 :: flat ps) in Hf.
  inversion_clear Hf as [|? ? ? ? Hk Hf1]. inversion_clear Hf1 as [|? ? ? ? Hv Hf2].
  cbn [map rev]. rewrite concat_app. cbn [concat]. rewrite app_nil_r.
  apply (remits_bind (emit_rev _ l)); [apply IH; [done|by injection Hl]|]. by apply (remits_bind (f e.2)).
Qed.

Lemma remits_leaf h i t fuel : twf t → leaf_view h i = Some t → remits (emit_StackItem (S fuel) h i) (tcode t).
Proof.
  intros Hw Hl. destruct i as [|b|n|b|l|l|l|l|? ?|?]; cbn in Hl; try done; try (injection Hl as <-).
  - by apply remits_ok, emits_op.
  - apply remits_ok. by apply (emits_op (if b then PUSHT else PUSHF)); destruct b.
  - apply remits_ok, emits_BigInt. by inversion Hw.
  - apply remits_ok, emits_Bytes.
  - intros w Hnone. cbn [emit_StackItem]. unfold h_buf. destruct (h_get h l) as [[]|]; try done. injection Hl as <-.
    by apply remits_ok, Hnone; apply emits_Bytes.
Qed.

Lemma remits_all {A} (f : A → BinWriter → res ioerr BinWriter) (R : A → tree → Prop) fuel l ts :
  Forall (λ t, twf t → tsize t < 2 ^ 62 → ∀ a, R a t → (Z.to_nat (tsize t) <= fuel)%nat → remits (f a) (tcode t)) ts →
  Forall2 R l ts → Forall twf ts → tsizes ts < 2 ^ 62 → (Z.to_nat (tsizes ts) <= fuel)%nat →
  Forall2 (λ a t, remits (f a) (tcode t)) l ts.
Proof.
  intros Hall Hf. induction Hf as [|a t l ts Ha Hf IH]; intros Hw Hs Hfuel; [constructor|].
  inversion_clear Hall as [|? ? Ht Hts]. inversion_clear Hw as [|? ? Hwt Hwts]. rewrite tsizes_cons in *.
  pose proof (tsize_pos t). pose proof (tsizes_nonneg ts). constructor; [apply Ht; [done|lia|done|lia]|apply IH; [done|done|lia|lia]].
Qed.

(** An item that does not contain itself is emitted as its tree. *)
Lemma remits_StackItem h t : twf t → tsize t < 2 ^ 62 → ∀ fuel i, unf h i t → (Z.to_nat (tsize t) <= fuel)%nat →
  remits (emit_StackItem fuel h i) (tcode t).
Proof.
  induction t as [| | | | |k ts IH] using tree_ind'; intros Hw Hs fuel i Hu Hfuel;
    (destruct fuel as [|fuel]; [exfalso; match goal with _ : (Z.to_nat (tsize ?t) <= _)%nat |- _ => pose proof (tsize_pos t) end; lia|]);
    inversion Hu as [i' t' Hv|i' k' v ts' Hn Hf]; subst; try by apply remits_leaf.
  rewrite tsize_node in *.
  assert (Forall2 (λ i t, remits (emit_StackItem fuel h i) (tcode t)) v ts) as Hrec.
  { apply (remits_all _ (unf h) fuel); [|done|by inversion Hw|lia|lia].
    eapply Forall_impl; [exact IH|]. cbn. auto. }
  pose proof (Forall2_length _ _ _ Hf) as Hlen. pose proof (count_range k ts ltac:(lia)) as Hc.
  destruct i; try done; cbn in Hn; destruct (h_get h l) as [[b|v' rc ro|m rc ro]|] eqn:Hg; try done; injection Hn as <- <-.
  - intros w Hnone. cbn [emit_StackItem]. unfold h_seq. rewrite Hg. cbn [mbind res_bind]. apply (remits_Array _ _ _ Hrec); [lia|done].
  - intros w Hnone. cbn [emit_StackItem]. unfold h_seq, packed. rewrite Hg, Hlen. cbn [mbind res_bind].
    by apply (remits_pack (emit_rev _ v') _ _ KStr (remits_rev _ _ _ Hrec) Hc).
  - intros w Hnone. cbn [emit_StackItem]. unfold h_map. rewrite Hg. cbn [mbind res_bind].
    inversion Hw as [| | | | |? ? Hk|ps Hk Hnd Hall]; [done|subst ts].
    assert (length (m_value m) = length ps) as Hml.
    { unfold elems in Hlen. change (m_value m ≫= λ e, [e.1; e.2]) with (flat (m_value m)) in Hlen. rewrite !flat_length in Hlen. lia. }
    assert (Map_Len m = node_count KMp (length (flat ps))) as ->.
    { cbn [node_count]. by rewrite flat_length, Nat.div2_double, <- Hml. }
    change (tcode (TNode KMp (flat ps))) with (tcode (TNode KMp (flat ps))).
    destruct (node_code KMp (flat ps)) as [[Hn ?]|E]; [done|]. rewrite E.
    by apply (remits_pack (emit_rev _ (m_value m)) _ _ KMp (remits_pairs _ _ _ Hrec Hml) Hc).
Qed.

(** What a Go value means. *)
Inductive means (h : Heap) : anyval → tree → Prop :=
  | mn_nil : means h ANil TNull
  | mn_list l ts : Forall2 (means h) l ts → means h (AList l) (TNode KArr ts)
  | mn_int i : - 2 ^ 63 <= i < 2 ^ 63 → means h (AInt i) (TInt i)
  | mn_bigint n : means h (ABigInt n) (TInt n)
  | mn_bytes b : means h (ABytes b) (TBytes b)
  | mn_bool b : means h (ABool b) (TBool b)
  | mn_item i t : unf h i t → means h (AItem i) t.

Lemma remits_Any h t : twf t → tsize t < 2 ^ 62 → ∀ fuel a, means h a t → (Z.to_nat (tsize t) <= fuel)%nat →
  remits (emit_Any fuel h a) (tcode t).
Proof.
  induction t as [| | | | |k ts IH] using tree_ind'; intros Hw Hs fuel a Hm Hfuel;
    inversion Hm as [|l ts' Hf| | | | |i t' Hu]; subst; try by apply remits_StackItem.
  - by apply remits_ok, emits_op.
  - apply remits_ok. by apply (emits_op (if b then PUSHT else PUSHF)); destruct b.
  - apply remits_ok, emits_Int. by inversion Hw.
  - apply remits_ok, emits_BigInt. by inversion Hw.
  - apply remits_ok, emits_Bytes.
  - rewrite tsize_node in *. cbn [emit_Any]. apply remits_Array; [|lia].
    apply (remits_all _ (means h) fuel); [|done|by inversion Hw|lia|lia]. eapply Forall_impl; [exact IH|]. cbn. auto.
Qed.

(** ** Calls *)

Section calls.
Context `{Digest}.

Lemma ToID_range name : 0 <= ToID name < 2 ^ 32.
Proof.
  unfold ToID. pose proof (le_val_range (take 4 (sha256 name))) as [Hl Hu]. split; [done|].
  eapply Z.lt_le_trans; [exact Hu|]. rewrite pow256_pow2. apply Z.pow_le_mono_r; [lia|]. rewrite length_take. lia.
Qed.

Lemma le_val_id name : le_val (le_enc 4 (ToID name)) = ToID name.
Proof. rewrite le_val_enc. apply Z.mod_small. apply ToID_range. Qed.

Lemma FromID_call : FromID (ToID SystemContractCall) = Some SystemContractCall.
Proof. unfold FromID. cbn [interop_names map from_names]. by rewrite bool_decide_eq_true_2. Qed.

Lemma call_verified : verifySystemContractCall SYSCALL (le_enc 4 (ToID SystemContractCall)) = Ok tt.
Proof.
  unfold verifySystemContractCall. rewrite bool_decide_eq_false_2 by (intros E; by apply E).
  rewrite bool_decide_eq_false_2 by (intros E; apply E, length_le_enc). rewrite le_val_id, FromID_call.
  by rewrite bool_decide_eq_true_2.
Qed.

Lemma emits_Syscall api : api ≠ [] → emits (Syscall api) (ibytes SYSCALL (le_enc 4 (ToID api))).
Proof.
  intros Ha w Hw. unfold Syscall, emit_Instruction. rewrite Hw. rewrite bool_decide_eq_false_2 by (by destruct api).
  rewrite (emits_B _ w Hw), (emits_bytes _ (mkWriter _ None)) by done. cbn [w_buf]. by rewrite <- app_assoc.
Qed.

(** The code of a call without its arguments. *)
Definition call_tail (h method : bytes) (f : Z) : bytes :=
  int_code f ++ ibytes (data_op method) method ++ ibytes (data_op h) h
  ++ ibytes SYSCALL (le_enc 4 (ToID SystemContractCall)).

Record call_ok (h method : bytes) (f : Z) : Prop := {
  co_hash : length h = 20%nat;
  co_utf8 : utf8_Valid method = true;
  co_method : method ≠ [];
  co_size : Z.of_nat (length method) <= MaxSize;
  co_flag : 0 <= f < 16;
}.

Lemma emits_AppCallNoArgs h method f : 0 <= f < 16 → emits (AppCallNoArgs h method f) (call_tail h method f).
Proof.
  intros Hf w Hw. unfold AppCallNoArgs, emit_String, call_tail. rewrite emits_Int by lia || done.
  rewrite (emits_Bytes method), (emits_Bytes h) by done. rewrite emits_Syscall by done. cbn [w_buf]. by rewrite <- !app_assoc.
Qed.

Lemma next_ibytes ip pre op param post :
  iok op param →
  next_instr (mkCtx ip (Z.of_nat (length pre)) (pre ++ ibytes op param ++ post))
  = Ok (instr_of op param, mkCtx (Z.of_nat (length pre)) (Z.of_nat (length (pre ++ ibytes op param))) (pre ++ ibytes op param ++ post)).
Proof. intros Hok. unfold next_instr. by rewrite Next_ibytes. Qed.

Lemma hash_instr b n : length b = n → (n < 256)%nat → getHashFromInstr (instr_of (data_op b) b) (sized n) = Ok b.
Proof.
  intros Hl Hn. unfold data_op. rewrite bool_decide_eq_true_2 by lia. cbn. unfold sized. by rewrite bool_decide_eq_true_2.
Qed.

Lemma flag_valid f : 0 <= f < 16 → flag_IsValid (u8 f) = true ∧ u8 f = f.
Proof.
  intros Hf. assert (u8 f = f) as E by (apply wrap_u_small; lia). rewrite E. split; [|done].
  rewrite <- (Z2Nat.id f) by lia. assert (Z.to_nat f < 16)%nat as Hl by lia. revert Hl. generalize (Z.to_nat f) as k.
  intros k Hk. do 16 (destruct k as [|k]; [done|]). lia.
Qed.

(** The call is found. *)
Lemma NoArgs_tail ip pre h method f post : call_ok h method f → ∃ ip',
  GetAppCallNoArgsFromContext (mkCtx ip (Z.of_nat (length pre)) (pre ++ call_tail h method f ++ post))
  = Ok (h, method, f, mkCtx ip' (Z.of_nat (length (pre ++ call_tail h method f))) (pre ++ call_tail h method f ++ post)).
Proof.
  intros [Hh Hu Hm Hs Hf]. unfold call_tail, GetAppCallNoArgsFromContext.
  pose proof (int_instr_ok f ltac:(lia)) as Hi. unfold int_code. destruct (int_instr f) as [op param]. cbn [fst snd].
  destruct Hi as (Hok & _ & _ & H64). destruct (data_op_ok method Hs) as (Hokm & _ & Hgm).
  destruct (data_op_ok h ltac:(rewrite Hh; by vm_compute)) as (Hokh & _ & _).
  eexists. rewrite <- !app_assoc. rewrite next_ibytes by done. cbn [mbind res_bind]. rewrite H64 by lia. cbn [mbind res_bind].
  destruct (flag_valid f Hf) as [-> ->]. cbn [negb].
  rewrite (app_assoc pre (ibytes op param)), next_ibytes by done. cbn [mbind res_bind]. unfold GetUTF8StringFromInstr.
  rewrite Hgm. cbn [mbind res_bind]. rewrite Hu. cbn [mbind res_bind]. rewrite bool_decide_eq_false_2 by (by destruct method).
  rewrite (app_assoc (pre ++ ibytes op param)), next_ibytes by done. cbn [mbind res_bind]. unfold GetUint160FromInstr.
  rewrite hash_instr by (done || lia). cbn [mbind res_bind]. rewrite (app_assoc ((pre ++ ibytes op param) ++ _)), next_ibytes by done.
  cbn [mbind res_bind]. change (verifySystemContractCall _ _) with (verifySystemContractCall SYSCALL (le_enc 4 (ToID SystemContractCall))).
  rewrite call_verified. cbn [mbind res_bind]. by rewrite <- !app_assoc.
Qed.

(** The loop puts the flags, the method and the contract on the stack, and ends
    at the call. *)
Lemma tail_loop strict maxL ip fuel pre h method f post st lists last :
  call_ok h method f → (length st + 3 <= maxL + 1)%nat → (length (call_tail h method f) <= fuel)%nat →
  let prog := pre ++ call_tail h method f ++ post in
  ∃ a b c ctx, c_prog ctx = prog ∧ c_nextip ctx = Z.of_nat (length (pre ++ call_tail h method f)) ∧
    parse_loop fuel strict cut_call maxL (mkCtx ip (Z.of_nat (length pre)) prog) (mkPS st lists last)
    = (st' ← cut_call (st ++ [a; b; c]); Ok (mkPS st' lists last, ctx)).
Proof.
  intros [Hh Hu Hm Hs Hf] Hst Hfuel prog. unfold call_tail in *.
  pose proof (int_instr_ok f ltac:(lia)) as Hi. unfold prog, int_code in *. destruct (int_instr f) as [op param]. cbn [fst snd] in *.
  destruct Hi as (Hok & Hp & _ & _). destruct (data_op_ok method Hs) as (Hokm & Hpm & _).
  destruct (data_op_ok h ltac:(rewrite Hh; by vm_compute)) as (Hokh & Hph & _).
  set (M := ibytes (data_op method) method) in *. set (Hb := ibytes (data_op h) h) in *. set (S := ibytes SYSCALL _) in *.
  pose proof (push_advances strict cut_call maxL pre op param (M ++ Hb ++ S ++ post) (mkPS st lists last) Hok Hp ltac:(cbn; lia)) as H1.
  set (s1 := push _ _) in H1.
  pose proof (push_advances strict cut_call maxL (pre ++ ibytes op param) (data_op method) method (Hb ++ S ++ post) s1 Hokm Hpm) as H2.
  set (s2 := push s1 _) in H2.
  pose proof (push_advances strict cut_call maxL (pre ++ ibytes op param ++ M) (data_op h) h (S ++ post) s2 Hokh Hph) as H3.
  fold M Hb in H2, H3. rewrite <- !app_assoc in *.
  assert (length (ps_res s1) <= maxL)%nat as Hl1 by (cbn; rewrite length_app; cbn; lia).
  assert (length (ps_res s2) <= maxL)%nat as Hl2 by (cbn; rewrite !length_app; cbn; lia).
  destruct (advances_trans _ _ _ _ _ _ _ _ _ _ _ _ H1 (advances_trans _ _ _ _ _ _ _ _ _ _ _ _ (H2 Hl1) (H3 Hl2))) as (n & Hn & Hgo).
  assert (length S = 5%nat) as HS by (unfold S; by rewrite ibytes_nodata by done).
  rewrite !length_app in Hfuel. replace fuel with (n + Datatypes.S (fuel - n - 1))%nat by lia.
  destruct (Hgo ip (Datatypes.S (fuel - n - 1))) as [ip' ->]. cbn [parse_loop]. fold M Hb S.
  assert (iok SYSCALL (le_enc 4 (ToID SystemContractCall))) as HokS by reflexivity.
  pose proof (Next_ibytes ip' (pre ++ ibytes op param ++ M ++ Hb) SYSCALL _ post HokS) as HN. fold S in HN.
  rewrite <- !app_assoc in HN. rewrite HN. clear HN. unfold LenInstr. cbn [c_prog c_ip c_nextip].
  rewrite bool_decide_eq_false_2 by (rewrite !length_app, HS; lia). cbn [parse_step].
  rewrite call_verified. cbn [mbind res_bind].
  exists (PI (instr_of op param) None None), (PI (instr_of (data_op method) method) None None), (PI (instr_of (data_op h) h) None None).
  eexists (mkCtx _ _ _). split; [|split; [|]]; [| |
    change (ps_res (push s2 _)) with (((st ++ [PI (instr_of op param) None None])
      ++ [PI (instr_of (data_op method) method) None None]) ++ [PI (instr_of (data_op h) h) None None]);
    rewrite <- !app_assoc; cbn [app]; destruct (cut_call _); reflexivity]; cbn; by rewrite <- !app_assoc.
Qed.

Definition call_code (h method : bytes) (f : Z) (ts : list tree) : bytes :=
  tcode (TNode KArr ts) ++ call_tail h method f.

Lemma tcode_nonempty t : (0 < length (tcode t))%nat.
Proof.
  destruct t as [| | | | |k ts]; try (cbn; unfold int_code, ibytes; cbn [length]; lia).
  destruct (node_code k ts) as [[-> ->]|Hc]; [by vm_compute; lia|]. rewrite Hc, !length_app. unfold ibytes. cbn [length]. lia.
Qed.

(** A call is read at any place of a script. *)
Lemma call_read strict ip pre h method f ts post :
  call_ok h method f → twf (TNode KArr ts) → tsize (TNode KArr ts) <= Z.of_nat maxStackSize →
  let code := call_code h method f ts in
  ∃ items lists ip',
    getAppCallFromContext (mkCtx ip (Z.of_nat (length pre)) (pre ++ code ++ post)) strict
    = Ok (mkCall h method f items lists, mkCtx ip' (Z.of_nat (length (pre ++ code))) (pre ++ code ++ post))
    ∧ Forall2 (shows lists) items ts.
Proof.
  intros Hc Hw Hsz code. unfold code, call_code. clear code.
  set (A := tcode (TNode KArr ts)) in *. set (T := call_tail h method f) in *.
  assert (Z.of_nat maxStackSize = 2048) as Hmax by by vm_compute.
  destruct (tree_parsed strict cut_call maxStackSize _ ltac:(by vm_compute) Hw pre (T ++ post) [] [] 0 ltac:(cbn [length]; lia))
    as (p & lists & (n & Hn & Hgo) & Hsp). fold A in Hn, Hgo. cbn [app is_node] in *.
  pose proof (tcode_nonempty (TNode KArr ts)) as HA. fold A in HA.
  unfold getAppCallFromContext, getListFromContext, getSomethingFromContext. cbn [c_prog default].
  set (len := length (pre ++ (A ++ T) ++ post)).
  assert (len = length pre + (length A + length T) + length post)%nat as Hlen by (unfold len; rewrite !length_app; lia).
  rewrite <- (app_assoc A). replace (S len) with (n + (S len - n))%nat by lia. destruct (Hgo ip (S len - n)%nat) as [ip1 ->].
  pose proof (tail_loop strict maxStackSize ip1 (S len - n) (pre ++ A) h method f post [p] lists
    (Z.of_nat (length (pre ++ A))) Hc ltac:(cbn [length]; unfold maxStackSize in *; lia) ltac:(fold T; lia)) as Ht.
  cbv zeta in Ht. fold T in Ht. destruct Ht as (a & b & c & ctx & Hprog & Hnext & Ht). rewrite <- !app_assoc in Ht. rewrite Ht.
  cbn [app mbind res_bind cut_call]. unfold cut_call. cbn [length]. rewrite bool_decide_eq_false_2 by lia.
  cbn [mbind res_bind ps_res length take Nat.sub ps_last].
  inversion Hsp as [| | | | |i k r items ts' Ho Hk Hl Hf|]; subst. cbn [pi_list].
  destruct (NoArgs_tail (c_ip ctx) (pre ++ A) h method f post Hc) as [ip2 Hna]. fold T in Hna. rewrite <- !app_assoc in Hna.
  unfold LenInstr, Jump, LenInstr. rewrite Hprog. rewrite <- !app_assoc. rewrite !length_app.
  assert (0 < length T)%nat as HT by (unfold T, call_tail, int_code, ibytes; cbn [length app]; lia).
  rewrite bool_decide_eq_true_2 by lia. rewrite !bool_decide_eq_false_2 by lia. cbn [orb mbind res_bind].
  rewrite length_app in Hna. rewrite Hna. cbn [mbind res_bind]. cbn [ps_lists]. rewrite Hl. cbn [default].
  exists items, lists, ip2. split; [|done]. do 3 f_equal. by rewrite !length_app.
Qed.

(** C23: a call that [AppCall] writes is what [ParseAppCall] reads back: the
    contract, the method, the flags and the arguments, whatever the lists,
    structures and maps that they are made of, when they are not more than the
    parser's limit; also when the script goes on with [ASSERT], for the parser
    that allows it. *)
Theorem AppCall_roundtrip hp fuel h method f args ts :
  call_ok h method f → Forall2 (means hp) args ts → Forall twf ts →
  1 + tsizes ts <= Z.of_nat maxStackSize → (Z.to_nat (tsizes ts) <= fuel)%nat →
  ∃ script,
    AppCall fuel hp h method f args NewBufBinWriter = Ok (mkWriter script None)
    ∧ (∀ strict, ∃ items lists,
        parseAppCall script strict false false = Ok (mkCall h method f items lists) ∧ Forall2 (shows lists) items ts)
    ∧ ∃ items lists,
        ParseAppCallWithASSERT (script ++ [z2b (op_code ASSERT)]) true = Ok (mkCall h method f items lists)
        ∧ Forall2 (shows lists) items ts.
Proof.
  intros Hc Hm Hw Hsz Hfuel. assert (Z.of_nat maxStackSize = 2048) as Hmax by by vm_compute.
  assert (twf (TNode KArr ts)) as Hwt by by constructor.
  exists (call_code h method f ts). split; [|split].
  - unfold AppCall, call_code. rewrite (remits_Array (emit_Any fuel hp) args ts); [| |lia|done].
    + cbn [mbind res_bind]. rewrite emits_AppCallNoArgs by (by destruct Hc). done.
    + apply (remits_all _ (means hp) fuel); [|done|done|lia|lia].
      apply Forall_forall. intros. by apply remits_Any.
  - intros strict. destruct (call_read strict 0 [] h method f ts [] Hc Hwt Hsz) as (items & lists & ip' & Hg & Hs).
    exists items, lists. split; [|done]. rewrite app_nil_r in Hg. cbn [app length] in Hg. unfold parseAppCall, NewContext.
    change (Z.of_nat 0) with 0 in Hg. rewrite Hg. cbn [mbind res_bind]. unfold EnsureScriptEnd, LenInstr. cbn [c_nextip c_prog]. by rewrite bool_decide_eq_false_2 by lia.
  - destruct (call_read false 0 [] h method f ts [z2b (op_code ASSERT)] Hc Hwt Hsz) as (items & lists & ip' & Hg & Hs).
    exists items, lists. split; [|done]. cbn [app length] in Hg. unfold ParseAppCallWithASSERT, parseAppCall, NewContext.
    change (@nil byte ++ call_code h method f ts ++ ?l) with (call_code h method f ts ++ l) in Hg.
    change (Z.of_nat 0) with 0 in Hg. rewrite Hg. cbn [mbind res_bind]. unfold LenInstr. cbn [c_nextip c_prog].
    rewrite length_app, bool_decide_eq_true_2 by (cbn [length]; lia). unfold GetASSERTFromContext.
    pose proof (next_ibytes ip' (call_code h method f ts) ASSERT [] [] eq_refl) as Hn.
    change (ibytes ASSERT [] ++ []) with [z2b (op_code ASSERT)] in Hn. rewrite Hn. cbn [mbind res_bind in_op instr_of].
    rewrite bool_decide_eq_false_2 by (intros E; by apply E). cbn [mbind res_bind]. unfold EnsureScriptEnd, LenInstr.
    cbn [c_nextip c_prog]. by rewrite bool_decide_eq_false_2 by (change (ibytes ASSERT []) with [z2b (op_code ASSERT)]; lia).
Qed.

(** ** Multisignature contracts *)

Definition key_pushes (ks : list bytes) : bytes := concat (map (ibytes PUSHDATA1) ks).

Lemma length_key_pushes ks : (length ks <= length (key_pushes ks))%nat.
Proof.
  induction ks as [|k ks IH]; [done|]. change (key_pushes (k :: ks)) with (ibytes PUSHDATA1 k ++ key_pushes ks).
  rewrite length_app. unfold ibytes. cbn [length]. lia.
Qed.

Lemma int_instr_nodata n : - 2 ^ 255 <= n < 2 ^ 255 → (int_instr n).1 ≠ PUSHDATA1.
Proof.
  intros Hn E. pose proof (int_instr_ok n Hn) as Hi. destruct (int_instr n) as [op param]. cbn in E. subst.
  by destruct Hi as (_ & _ & Hg & _).
Qed.

Lemma num_read n : - 2 ^ 63 <= n < 2 ^ 63 →
  getNumOfThingsFromInstr (instr_of (int_instr n).1 (int_instr n).2)
  = Ok (if bool_decide (1 <= n <= MaxMultisigKeys) then Some n else None).
Proof.
  intros Hn. pose proof (int_instr_ok n ltac:(lia)) as Hi. destruct (int_instr n) as [op param].
  destruct Hi as (_ & _ & _ & H64). unfold getNumOfThingsFromInstr. cbn [fst snd]. rewrite H64 by done.
  by repeat case_bool_decide; try lia.
Qed.

(** The keys are read up to the limit. *)
Lemma keys_read op param post ks : iok op param → op ≠ PUSHDATA1 → Forall (λ k, length k = 33%nat) ks →
  ∀ fuel ip pre pubs, (length ks < fuel)%nat → Z.of_nat (length pubs) <= MaxMultisigKeys →
  let prog := pre ++ key_pushes ks ++ ibytes op param ++ post in
  ∃ ip', multisig_keys fuel (mkCtx ip (Z.of_nat (length pre)) prog) pubs
  = Ok (if bool_decide (Z.of_nat (length pubs + length ks) <= MaxMultisigKeys)
        then Some (pubs ++ ks, instr_of op param, mkCtx ip' (Z.of_nat (length (pre ++ key_pushes ks ++ ibytes op param))) prog)
        else None).
Proof.
  intros Hok Hop Hks. induction Hks as [|k ks Hk _ IH]; intros fuel ip pre pubs Hfuel Hp prog; (destruct fuel as [|fuel]; [lia|]);
    cbn [multisig_keys]; unfold prog.
  - exists (Z.of_nat (length pre)). cbn [key_pushes map concat app]. rewrite Next_ibytes by done.
    cbn [length]. rewrite bool_decide_eq_true_2 by done. by rewrite bool_decide_eq_true_2, app_nil_r by lia.
  - change (key_pushes (k :: ks)) with (ibytes PUSHDATA1 k ++ key_pushes ks). rewrite <- app_assoc.
    rewrite Next_ibytes by (cbn; lia). rewrite bool_decide_eq_false_2 by (intros E; by apply E).
    rewrite bool_decide_eq_false_2 by lia. rewrite length_app. cbn [length]. case_bool_decide as Hmax.
    { exists 0. by rewrite bool_decide_eq_false_2 by lia. }
    cbn [length] in Hfuel. destruct (IH fuel (Z.of_nat (length pre)) (pre ++ ibytes PUSHDATA1 k) (pubs ++ [k]) ltac:(lia)) as [ip' Hr].
    { rewrite length_app. cbn [length]. lia. }
    cbv zeta in Hr. rewrite <- !app_assoc in Hr. rewrite Hr. exists ip'. rewrite length_app. cbn [length app].
    replace (length pubs + 1 + length ks)%nat with (length pubs + S (length ks))%nat by lia. by rewrite <- !app_assoc.
Qed.

Lemma insert_key_perm k l : insert_key k l ≡ₚ k :: l.
Proof.
  induction l as [|k' l IH]; [done|]. cbn. destruct (PublicKey_Cmp k k'); [done|done|]. rewrite IH. apply perm_swap.
Qed.

Lemma sort_keys_perm l : sort_keys l ≡ₚ l.
Proof. induction l as [|k l IH]; [done|]. cbn. by rewrite insert_key_perm, IH. Qed.

Lemma emits_keys l : Forall (λ k, length (PublicKey_Bytes k) = 33%nat) l →
  emits (λ w, fold_left (λ w k, emit_Bytes (PublicKey_Bytes k) w) l w) (key_pushes (map PublicKey_Bytes l)).
Proof.
  induction 1 as [|k l Hk _ IH]; intros w Hw; cbn [fold_left]; [destruct w; cbn in *; subst; by rewrite app_nil_r|].
  rewrite emits_Bytes by done. assert (data_op (PublicKey_Bytes k) = PUSHDATA1) as ->
    by (unfold data_op; by rewrite bool_decide_eq_true_2 by lia).
  rewrite (IH (mkWriter _ None)) by done. cbn [w_buf]. by rewrite <- app_assoc.
Qed.

Definition multisig_code (m : Z) (ks : list bytes) : bytes :=
  int_code m ++ key_pushes ks ++ int_code (Z.of_nat (length ks)) ++ ibytes SYSCALL (le_enc 4 (ToID SystemCryptoCheckMultisig)).

(** A multisignature script is read back, up to the limit of keys. *)
Lemma multisig_read m ks : 1 <= m <= Z.of_nat (length ks) → m <= MaxMultisigKeys → Forall (λ k, length k = 33%nat) ks →
  Z.of_nat (length ks) < 2 ^ 62 →
  ParseMultiSigContract (multisig_code m ks)
  = Ok (if bool_decide (Z.of_nat (length ks) <= MaxMultisigKeys) then Some (m, ks) else None).
Proof.
  intros Hm Hmax H33 Hn. unfold ParseMultiSigContract, NewContext.
  pose proof (int_instr_ok m ltac:(lia)) as Hi. pose proof (num_read m ltac:(lia)) as Hrm.
  pose proof (int_instr_ok (Z.of_nat (length ks)) ltac:(lia)) as Hi'. pose proof (num_read (Z.of_nat (length ks)) ltac:(lia)) as Hrn.
  pose proof (int_instr_nodata (Z.of_nat (length ks)) ltac:(lia)) as Hnd.
  assert (42 <= length (multisig_code m ks))%nat as H42.
  { unfold multisig_code. destruct H33 as [|k ks Hk _]; [cbn in Hm; lia|].
    change (key_pushes (k :: ks)) with (ibytes PUSHDATA1 k ++ key_pushes ks). rewrite !length_app. unfold int_code, ibytes.
    cbn [length app]. rewrite Hk, length_le_enc. lia. }
  rewrite bool_decide_eq_false_2 by lia.
  set (fuel := S _). assert (length ks < fuel)%nat as Hfuel.
  { unfold fuel, multisig_code. rewrite !length_app. pose proof (length_key_pushes ks). lia. }
  clearbody fuel. unfold multisig_code, int_code. destruct (int_instr m) as [op param]. destruct (int_instr (Z.of_nat (length ks))) as [op' param'].
  cbn [fst snd] in *. destruct Hi as (Hok & _ & _ & _). destruct Hi' as (Hok' & _ & _ & _). set (sys := ibytes SYSCALL _).
  pose proof (next_ibytes 0 [] op param (key_pushes ks ++ ibytes op' param' ++ sys) Hok) as H1. cbn [app length] in H1.
  change (Z.of_nat 0) with 0 in H1. rewrite H1. clear H1. rewrite Hrm. cbn [mbind res_bind].
  rewrite bool_decide_eq_true_2 by lia.
  destruct (keys_read op' param' sys ks Hok' Hnd H33 fuel 0 (ibytes op param) [] Hfuel ltac:(by vm_compute)) as [ip1 H2].
  cbv zeta in H2. change (?a :: ?l) with ([a] ++ l) in H2.
  rewrite H2. cbn [mbind res_bind length Nat.add].
  destruct (decide (Z.of_nat (length ks) <= MaxMultisigKeys)) as [Hk|Hk];
    [rewrite !(bool_decide_eq_true_2 (_ <= MaxMultisigKeys)) by done|by rewrite !(bool_decide_eq_false_2 (_ <= MaxMultisigKeys)) by done].
  cbn [mbind res_bind app]. rewrite bool_decide_eq_false_2 by lia. rewrite Hrn. cbn [mbind res_bind].
  rewrite (bool_decide_eq_true_2 (_ ∧ _)) by lia. rewrite bool_decide_eq_false_2 by (intros E; by apply E).
  pose proof (Next_ibytes ip1 (ibytes op param ++ key_pushes ks ++ ibytes op' param') SYSCALL
    (le_enc 4 (ToID SystemCryptoCheckMultisig)) [] eq_refl) as H3.
  fold sys in H3. rewrite app_nil_r, <- !app_assoc in H3. rewrite H3. clear H3.
  rewrite bool_decide_eq_false_2 by (intros E; by apply E). rewrite le_val_id. rewrite bool_decide_eq_false_2 by (intros E; by apply E).
  cbn [orb]. unfold Next. cbn [c_prog c_nextip]. rewrite bool_decide_eq_true_2 by lia.
  unfold LenInstr. cbn [c_prog c_ip]. rewrite bool_decide_eq_false_2 by (intros E; by apply E).
  by rewrite bool_decide_eq_false_2 by (intros E; by apply E).
Qed.

Lemma keys_33 keys : Forall (λ k, IsInfinity k = false) keys → Forall (λ k, length (PublicKey_Bytes k) = 33%nat) (sort_keys keys).
Proof.
  intros Hinf. rewrite sort_keys_perm. eapply Forall_impl; [exact Hinf|]. intros k Hk. unfold PublicKey_Bytes.
  rewrite length_getBytes. by destruct k.
Qed.

(** The script that is made. *)
Lemma multisig_made m keys :
  1 <= m <= Z.of_nat (length keys) → m <= MaxMultisigKeys → Z.of_nat (length keys) < 2 ^ 62 →
  Forall (λ k, IsInfinity k = false) keys →
  CreateMultiSigRedeemScript m keys = Ok (multisig_code m (map PublicKey_Bytes (sort_keys keys))).
Proof.
  intros Hm Hmax Hn Hinf. pose proof (emits_keys _ (keys_33 keys Hinf)) as Hk. unfold emits in Hk.
  assert (length (map PublicKey_Bytes (sort_keys keys)) = length keys) as Hbs by (by rewrite length_map, sort_keys_perm).
  unfold CreateMultiSigRedeemScript. change MaxMultisigKeys with 1024 in *. rewrite !bool_decide_eq_false_2 by lia.
  rewrite (emits_Int m) by (lia || done). rewrite Hk by done. rewrite (emits_Int (Z.of_nat (length keys))) by (lia || done).
  rewrite emits_Syscall by done. cbn [Bytes w_err w_buf fst default]. unfold multisig_code. rewrite Hbs. by rewrite <- !app_assoc.
Qed.

(** The script of a multisignature contract: what [CreateMultiSigRedeemScript]
    makes of keys, none of them infinite, is what [ParseMultiSigContract] reads
    back, the number of signatures and the keys in order, when there are at most
    1024 keys.  With more keys, and at most 1024 signatures, the script is still
    made and is not a multisignature contract. *)
Theorem multisig_roundtrip m keys :
  1 <= m <= Z.of_nat (length keys) → m <= MaxMultisigKeys → Z.of_nat (length keys) < 2 ^ 62 →
  Forall (λ k, IsInfinity k = false) keys →
  ∃ script,
    CreateMultiSigRedeemScript m keys = Ok script
    ∧ ParseMultiSigContract script
      = Ok (if bool_decide (Z.of_nat (length keys) <= MaxMultisigKeys)
            then Some (m, map PublicKey_Bytes (sort_keys keys)) else None)
    ∧ sort_keys keys ≡ₚ keys.
Proof.
  intros Hm Hmax Hn Hinf. eexists. split; [by apply multisig_made|]. split; [|apply sort_keys_perm].
  assert (length (map PublicKey_Bytes (sort_keys keys)) = length keys) as Hbs by (by rewrite length_map, sort_keys_perm).
  rewrite <- Hbs. apply multisig_read; [lia|done| |lia]. apply Forall_map. by apply keys_33.
Qed.
End calls.

(** ** Flags *)

(** The text of call flags is read back: for each of the sixteen values
    [FromString] of [String] is the value. *)
Theorem flags_text f : 0 <= f < 16 → flag_FromString (flag_String f) = Some f ∧ flag_IsValid f = true.
Proof.
  intros Hf. rewrite <- (Z2Nat.id f) by lia. assert (Z.to_nat f < 16)%nat as Hl by lia. revert Hl.
  generalize (Z.to_nat f) as k. intros k Hk. do 16 (destruct k as [|k]; [by vm_compute|]). lia.
Qed.

(** ** What fails *)

(** A script of the number [n], in eight bytes, and one more instruction. *)
Definition num_script (n : Z) (op : Opcode) : bytes := z2b (op_code PUSHINT64) :: le_enc 8 n ++ [z2b (op_code op)].

(** Scripts that the parser does not refuse with an error: [DUP] on an empty
    stack and a [PACK] of more elements than memory has panic, in every mode.
    The conversions of an instruction that the relaxed mode made up panic for
    integers and are an error for bytes.  A flag of 256 and 5 is taken for 5. *)
Theorem parser_panics `{Digest} :
  (∀ strict, ParseSomething [z2b (op_code DUP)] strict = Panic
    ∧ ParseSomething (num_script (2 ^ 63 - 1) PACK) strict = Panic
    ∧ parseAppCall (num_script (2 ^ 63 - 1) PACKMAP) strict true false = Panic)
  ∧ (∃ lists, ParseSomething (int_code 2 ++ ibytes PACK []) false = Ok ([PI (mkInstr PACK None) (Some 0%nat) None], lists)
      ∧ lists = [[emptyItem; emptyItem]])
  ∧ GetInt64FromInstr emptyInstr = Panic ∧ is_ok (GetBytesFromInstr emptyInstr) = false
  ∧ ∀ h, length h = 20%nat →
    let code := ibytes PUSHINT16 (le_enc 2 261) ++ ibytes PUSHDATA1 (str "f") ++ ibytes PUSHDATA1 h
      ++ ibytes SYSCALL (le_enc 4 (ToID SystemContractCall)) in
    ∃ ctx, GetAppCallNoArgsFromContext (NewContext code 0) = Ok (h, str "f", 5, ctx).
Proof.
  split; [intros []; by vm_compute|]. split; [eexists; split; by vm_compute|]. split; [by vm_compute|]. split; [by vm_compute|].
  intros h Hh. cbv zeta. eexists. unfold GetAppCallNoArgsFromContext, NewContext.
  pose proof (next_ibytes 0 []) as Hn. cbn [app length] in Hn. change (Z.of_nat 0) with 0 in Hn. rewrite Hn by done. clear Hn.
  cbn [mbind res_bind]. change (GetInt64FromInstr (instr_of PUSHINT16 _)) with (@Ok scerr Z 261). cbn [mbind res_bind].
  change (flag_IsValid (u8 261)) with true. cbn [negb]. rewrite next_ibytes by done. cbn [mbind res_bind].
  change (GetUTF8StringFromInstr _) with (@Ok scerr bytes (str "f")). cbn [mbind res_bind].
  rewrite bool_decide_eq_false_2 by done. rewrite app_assoc, next_ibytes by (cbn; lia). cbn [mbind res_bind].
  assert (GetUint160FromInstr (instr_of PUSHDATA1 h) = Ok h) as -> by (cbn; unfold sized; by rewrite bool_decide_eq_true_2).
  cbn [mbind res_bind]. rewrite (app_assoc (_ ++ _)).
  rewrite <- (app_nil_r (ibytes SYSCALL _)), next_ibytes by reflexivity. cbn [mbind res_bind].
  change (verifySystemContractCall _ _) with (verifySystemContractCall SYSCALL (le_enc 4 (ToID SystemContractCall))).
  by rewrite call_verified.
Qed.

(** An item that contains itself. *)
Definition loop_heap : Heap := mkHeap {[1%positive := CSeq [Array 1] 0 false]} 2.

(** An array that contains itself is never emitted: no amount of fuel is
    enough, and the serializer refuses it. *)
Theorem emit_recursive :
  (∀ fuel w, emit_StackItem fuel loop_heap (Array 1) w = Panic)
  ∧ Serialize loop_heap (Some (Array 1)) = Err ErrRecursive.
Proof.
  split; [|by vm_compute]. intros fuel. induction fuel as [|fuel IH]; intros w; [done|].
  cbn [emit_StackItem]. change (h_seq loop_heap 1) with (@Ok sierr (list item * Z * bool) ([Array 1], 0, false)).
  cbn [emit_Array packed emit_rev mbind res_bind]. unfold packed. cbn [emit_rev mbind res_bind]. by rewrite IH.
Qed.

(** [Jmp] writes a parameter of four bytes for every jump, and one of them is
    shorter than that. *)
Definition is_long_jump (op : Opcode) : bool := bool_decide (fixed_param op = Some 4).

(** What [Jmp] writes is five bytes for every jump.  The parser reads a jump
    of the long form with the label; a jump of the short form it reads with the
    low byte of the label, and the next instruction is in the middle of it. *)
Theorem Jmp_length op label :
  isInstructionJmp op = true → 0 <= label < 65536 →
  let script := w_buf (Jmp op label NewBufBinWriter) in
  let param := le_enc 2 label ++ [x00; x00] in
  length script = 5%nat
  ∧ Next (NewContext script 0)
    = Ok (if is_long_jump op then (op, param, mkCtx 0 5 script) else (op, take 1 param, mkCtx 0 2 script)).
Proof.
  intros Hj Hl script param. unfold script, Jmp, emit_Instruction. rewrite Hj.
  rewrite (emits_B _ NewBufBinWriter), (emits_bytes _ (mkWriter _ None)) by done. cbn [w_buf NewBufBinWriter app].
  split; [done|]. fold param. unfold NewContext.
  assert (is_data op = false ∧ (fixed_param op = Some 4 ∨ fixed_param op = Some 1)) as [Hd Hf].
  { clear -Hj. destruct op; vm_compute in Hj; try done; cbn; auto. }
  unfold is_long_jump. destruct Hf as [Hf|Hf]; rewrite Hf.
  - assert (iok op param) as Hok by (apply (not_data op param [] 0 Hd); by rewrite Hf).
    pose proof (Next_ibytes 0 [] op param [] Hok) as Hn. rewrite (ibytes_nodata op param Hd) in Hn. rewrite app_nil_r in Hn. exact Hn.
  - assert (iok op (take 1 param)) as Hok by (apply (not_data op (take 1 param) [] 0 Hd); by rewrite Hf).
    pose proof (Next_ibytes 0 [] op (take 1 param) (drop 1 param) Hok) as Hn. rewrite (ibytes_nodata op _ Hd) in Hn. exact Hn.
Qed.

(** ** Examples *)

Definition ex_hash : bytes := replicate 20 x07.
Definition ex_trees : list tree :=
  [TInt (-1); TNode KArr [TInt 1000; TNull]; TNode KMp [TInt 1; TNull]; TBytes [x61]].

(** A map in a heap of its own. *)
Definition ex_heap : Heap := mkHeap {[1%positive := CMap (mkMap [(Integer 1, Null)] ∅) 0 false]} 2.

Lemma AppCall_roundtrip_witness :
  let args := [AInt (-1); AList [AInt 1000; ANil]; AItem (Map 1); ABytes [x61]] in
  call_ok ex_hash (str "transfer") 15 ∧ Forall2 (means ex_heap) args ex_trees ∧ Forall twf ex_trees
  ∧ ∃ script,
    AppCall 100 ex_heap ex_hash (str "transfer") 15 args NewBufBinWriter = Ok (mkWriter script None)
    ∧ (∀ strict, ∃ items lists,
        parseAppCall script strict false false = Ok (mkCall ex_hash (str "transfer") 15 items lists)
        ∧ Forall2 (shows lists) items ex_trees)
    ∧ ∃ items lists,
        ParseAppCallWithASSERT (script ++ [z2b (op_code ASSERT)]) true = Ok (mkCall ex_hash (str "transfer") 15 items lists)
        ∧ Forall2 (shows lists) items ex_trees.
Proof.
  intros args.
  assert (call_ok ex_hash (str "transfer") 15) as Hc by (by constructor).
  assert (Forall2 (means ex_heap) args ex_trees) as Hm.
  { constructor; [by constructor|]. constructor; [apply mn_list; constructor; [by constructor|constructor; [constructor|constructor]]|].
    constructor; [|constructor; [constructor|constructor]]. apply mn_item. eapply (unf_node _ _ _ [Integer 1; Null]); [done|].
    constructor; [by constructor|]. constructor; [by constructor|constructor]. }
  assert (Forall twf ex_trees) as Hw.
  { constructor; [by constructor|]. constructor; [apply twf_seq; [done|constructor; [by constructor|constructor; [constructor|constructor]]]|].
    constructor; [|constructor; [by constructor|constructor]].
    apply (twf_map [(TInt 1, TNull)]); [constructor; [|constructor]|apply NoDup_singleton|constructor; [by constructor|constructor; [constructor|constructor]]].
    by vm_compute. }
  split; [exact Hc|]. split; [exact Hm|]. split; [exact Hw|].
  apply (AppCall_roundtrip ex_heap 100 ex_hash (str "transfer") 15 args ex_trees Hc Hm Hw); [by vm_compute|vm_compute; lia].
Defined.

Definition ex_keys : list PublicKey := [Point 7 1; Point 5 2; Point 7 0].

Lemma multisig_roundtrip_witness :
  Forall (λ k, IsInfinity k = false) ex_keys
  ∧ ∃ script,
    CreateMultiSigRedeemScript 2 ex_keys = Ok script
    ∧ ParseMultiSigContract script
      = Ok (if bool_decide (Z.of_nat (length ex_keys) <= MaxMultisigKeys)
            then Some (2, map PublicKey_Bytes (sort_keys ex_keys)) else None)
    ∧ sort_keys ex_keys ≡ₚ ex_keys.
Proof.
  assert (Forall (λ k, IsInfinity k = false) ex_keys) as Hk by (repeat constructor).
  split; [exact Hk|]. apply (multisig_roundtrip 2 ex_keys); [cbn; lia|by vm_compute|cbn; lia|exact Hk].
Defined.

Lemma flags_text_witness :
  flag_String 3 = str "States" ∧ flag_String 7 = str "ReadOnly, WriteStates"
  ∧ flag_FromString (flag_String 7) = Some 7 ∧ flag_IsValid 7 = true.
Proof. split; [by vm_compute|]. split; [by vm_compute|]. apply (flags_text 7). lia. Defined.

Lemma Jmp_length_witness :
  let script := w_buf (Jmp JMPIF 300 NewBufBinWriter) in
  isInstructionJmp JMPIF = true ∧ length script = 5%nat
  ∧ Next (NewContext script 0)
    = Ok (if is_long_jump JMPIF then (JMPIF, le_enc 2 300 ++ [x00; x00], mkCtx 0 5 script)
          else (JMPIF, take 1 (le_enc 2 300 ++ [x00; x00]), mkCtx 0 2 script)).
Proof. split; [done|]. apply (Jmp_length JMPIF 300); [done|lia]. Defined.
