(* ===== verification/Block.v ===== *)
(** * Block: blocks and their headers

    Models [pkg/core/block] (header.go, block.go): the binary form of headers,
    blocks and trimmed blocks, the hash, the Merkle root, and the sizes that the
    consensus code expects.  The hash of a header is kept in it when it is
    computed.  JSON is not modelled. *)

From S2P Require Import Prelude Bigint BinIO Codec Hash Keys Witness Tx StackItem Bitfield Script Emit Parse ParseSpec.

#[local] Open Scope Z_scope.

Definition MaxTransactionsPerBlock : Z := 65535.
Definition ErrMaxContentsPerBlock : ioerr := ErrOther "the number of contents exceeds the maximum number of contents per block".

(** ** Headers *)

Record Header := mkHeader {
  hd_Version : Z;
  hd_PrevHash : bytes;
  hd_MerkleRoot : bytes;
  hd_Timestamp : Z;
  hd_Nonce : Z;
  hd_Index : Z;
  hd_NextConsensus : bytes;
  hd_Script : Witness;
  hd_StateRootEnabled : bool;
  hd_PrevStateRoot : bytes;
  hd_PrimaryIndex : Z;
  hd_hash : bytes;
}.

Definition zero_header (stateRootEnabled : bool) : Header :=
  mkHeader 0 zero256 zero256 0 0 0 (replicate Uint160Size x00) (mkWitness [] []) stateRootEnabled zero256 0 zero256.

Definition hd_set_hash (b : Header) (h : bytes) : Header :=
  mkHeader (hd_Version b) (hd_PrevHash b) (hd_MerkleRoot b) (hd_Timestamp b) (hd_Nonce b) (hd_Index b) (hd_NextConsensus b)
    (hd_Script b) (hd_StateRootEnabled b) (hd_PrevStateRoot b) (hd_PrimaryIndex b) h.
Definition hd_set_script (b : Header) (w : Witness) : Header :=
  mkHeader (hd_Version b) (hd_PrevHash b) (hd_MerkleRoot b) (hd_Timestamp b) (hd_Nonce b) (hd_Index b) (hd_NextConsensus b)
    w (hd_StateRootEnabled b) (hd_PrevStateRoot b) (hd_PrimaryIndex b) (hd_hash b).
Definition hd_set_root (b : Header) (r : bytes) : Header :=
  mkHeader (hd_Version b) (hd_PrevHash b) r (hd_Timestamp b) (hd_Nonce b) (hd_Index b) (hd_NextConsensus b)
    (hd_Script b) (hd_StateRootEnabled b) (hd_PrevStateRoot b) (hd_PrimaryIndex b) (hd_hash b).

Definition header_encodeHashableFields (b : Header) (bw : BinWriter) : BinWriter :=
  let bw := WriteU32LE (hd_Version b) bw in
  let bw := WriteBytes (hd_PrevHash b) bw in
  let bw := WriteBytes (hd_MerkleRoot b) bw in
  let bw := WriteU64LE (hd_Timestamp b) bw in
  let bw := WriteU64LE (hd_Nonce b) bw in
  let bw := WriteU32LE (hd_Index b) bw in
  let bw := WriteB (hd_PrimaryIndex b) bw in
  let bw := WriteBytes (hd_NextConsensus b) bw in
  if hd_StateRootEnabled b then WriteBytes (hd_PrevStateRoot b) bw else bw.

Definition header_EncodeBinary (b : Header) (bw : BinWriter) : BinWriter :=
  witness_EncodeBinary (hd_Script b) (WriteVarUint 1 (header_encodeHashableFields b bw)).

(** ** Sizes *)

Definition expectedHeaderSizeWithEmptyWitness : Z :=
  Z.of_nat (length (w_buf (header_EncodeBinary (zero_header false) NewBufBinWriter))).

Definition GetExpectedHeaderSize (stateRootInHeader : bool) (numOfValidators : Z) : Z :=
  let size :=
    if bool_decide (numOfValidators = 0) then expectedHeaderSizeWithEmptyWitness + 1
    else
      let m := GetDefaultHonestNodeCount numOfValidators in
      expectedHeaderSizeWithEmptyWitness + (1 + 1 + 64) * m + 2 + numOfValidators * (1 + 1 + 33) + 2 + 5 in
  if stateRootInHeader then size + Z.of_nat Uint256Size else size.

Section hashed.
Context `{Digest}.

Definition header_createHash (b : Header) : Header :=
  hd_set_hash b (sha256 (default [] (fst (Bytes (header_encodeHashableFields b NewBufBinWriter))))).

(** [Hash] computes a hash that is still zero, and keeps it. *)
Definition header_Hash (b : Header) : bytes * Header :=
  let b := if bool_decide (hd_hash b = zero256) then header_createHash b else b in (hd_hash b, b).

(** Into a new header. *)
Definition header_decodeHashableFields (stateRootEnabled : bool) (br : BinReader) : Header * BinReader :=
  let '(version, br) := ReadU32LE br in
  let '(prevHash, br) := ReadBytes Uint256Size br in
  let '(merkleRoot, br) := ReadBytes Uint256Size br in
  let '(timestamp, br) := ReadU64LE br in
  let '(nonce, br) := ReadU64LE br in
  let '(index, br) := ReadU32LE br in
  let '(primary, br) := ReadB br in
  let '(nextConsensus, br) := ReadBytes Uint160Size br in
  let '(prevStateRoot, br) := if stateRootEnabled then ReadBytes Uint256Size br else (zero256, br) in
  let b := mkHeader version prevHash merkleRoot timestamp nonce index nextConsensus (mkWitness [] []) stateRootEnabled
    prevStateRoot primary zero256 in
  (match r_err br with None => header_createHash b | Some _ => b end, br).

Definition header_DecodeBinary (stateRootEnabled : bool) (br : BinReader) : Header * BinReader :=
  let '(b, br) := header_decodeHashableFields stateRootEnabled br in
  let '(witnessCount, br) := ReadVarUint br in
  if bool_decide (r_err br = None) && bool_decide (witnessCount ≠ 1)
  then (b, r_fail br (ErrOther "wrong witness count")) else
  let '(script, br) := witness_DecodeBinary br in (hd_set_script b script, br).

(** ** Blocks *)

Record Block := mkBlock { bk_Header : Header; bk_Transactions : list Transaction; bk_Trimmed : bool }.

Definition NewBlock (stateRootEnabled : bool) : Block := mkBlock (zero_header stateRootEnabled) [] false.

Definition GetIndex (b : Block) : Z := hd_Index (bk_Header b).

(** The hashes of transactions, which keep them. *)
Fixpoint tx_hashes (txs : list Transaction) : res ioerr (list bytes * list Transaction) :=
  match txs with
  | [] => Ok ([], [])
  | t :: txs =>
      '(h, t) ← tx_Hash t;
      '(hs, txs) ← tx_hashes txs;
      Ok (h :: hs, t :: txs)
  end.

Definition ComputeMerkleRoot (b : Block) : res ioerr (bytes * Block) :=
  '(hashes, txs) ← tx_hashes (bk_Transactions b);
  match CalcMerkleRoot (length hashes) hashes with
  | Ok r => Ok (r, mkBlock (bk_Header b) txs (bk_Trimmed b))
  | _ => Panic
  end.

Definition RebuildMerkleRoot (b : Block) : res ioerr Block :=
  '(r, b) ← ComputeMerkleRoot b;
  Ok (mkBlock (hd_set_root (bk_Header b) r) (bk_Transactions b) (bk_Trimmed b)).

#[export] Instance tx_serializable : Serializable Transaction := {|
  EncodeBinary := tx_EncodeBinary;
  DecodeBinary := tx_DecodeBinary;
|}.

Definition block_EncodeBinary (b : Block) (bw : BinWriter) : BinWriter :=
  let bw := header_EncodeBinary (bk_Header b) bw in
  let bw := WriteVarUint (Z.of_nat (length (bk_Transactions b))) bw in
  fold_left (λ bw t, tx_EncodeBinary t bw) (bk_Transactions b) bw.

Definition block_DecodeBinary (stateRootEnabled : bool) (br : BinReader) : Block * BinReader :=
  let '(h, br) := header_DecodeBinary stateRootEnabled br in
  let '(contentsCount, br) := ReadVarUint br in
  if bool_decide (MaxTransactionsPerBlock < contentsCount)
  then (mkBlock h [] false, mkReader (r_buf br) (Some ErrMaxContentsPerBlock)) else
  let '(txes, br) := read_elems (A := Transaction) (Z.to_nat contentsCount) br in
  (mkBlock h txes false, br).

(** [EncodeTrimmed] writes the hashes of transactions; it panics with [Hash]. *)
Definition EncodeTrimmed (b : Block) (w : BinWriter) : res ioerr BinWriter :=
  let w := header_EncodeBinary (bk_Header b) w in
  let w := WriteVarUint (Z.of_nat (length (bk_Transactions b))) w in
  '(hashes, _) ← tx_hashes (bk_Transactions b);
  Ok (fold_left (λ w h, WriteBytes h w) hashes w).

Fixpoint read_hashes (n : nat) (br : BinReader) : list bytes * BinReader :=
  match n with
  | O => ([], br)
  | S n => let '(h, br) := ReadBytes Uint256Size br in let '(l, br) := read_hashes n br in (h :: l, br)
  end.

Definition NewTrimmedFromReader (stateRootEnabled : bool) (br : BinReader) : res ioerr (Block * BinReader) :=
  let '(h, br) := header_DecodeBinary stateRootEnabled br in
  let '(lenHashes, br) := ReadVarUint br in
  if bool_decide (MaxTransactionsPerBlock < lenHashes) then Err ErrMaxContentsPerBlock else
  let '(hashes, br) := read_hashes (Z.to_nat lenHashes) br in
  match r_err br with
  | Some e => Err e
  | None => Ok (mkBlock h (map NewTrimmedTX hashes) true, br)
  end.

(** *** Sizes *)

Definition GetExpectedBlockSizeWithoutTransactions (b : Block) (txCount : Z) : Z :=
  let size := expectedHeaderSizeWithEmptyWitness - 1 - 1 + GetVarSize_ptr (hd_Script (bk_Header b)) + getVarIntSize txCount in
  if hd_StateRootEnabled (bk_Header b) then size + Z.of_nat Uint256Size else size.

Definition GetExpectedBlockSize (b : Block) : Z :=
  let transactionsSize := foldr (λ t n, (tx_Size t).1 + n) 0 (bk_Transactions b) in
  GetExpectedBlockSizeWithoutTransactions b (Z.of_nat (length (bk_Transactions b))) + transactionsSize.

(** *** The block as a stack item *)

Definition block_items (b : Block) : list item :=
  let h := bk_Header b in
  [ByteArray (header_Hash h).1; Integer (hd_Version h); ByteArray (hd_PrevHash h); ByteArray (hd_MerkleRoot h);
   Integer (i64 (hd_Timestamp h)); Integer (hd_Nonce h); Integer (hd_Index h); Integer (hd_PrimaryIndex h);
   ByteArray (hd_NextConsensus h); Integer (Z.of_nat (length (bk_Transactions b)))]
  ++ (if hd_StateRootEnabled h then [ByteArray (hd_PrevStateRoot h)] else []).

Definition block_ToStackItem (h : Heap) (b : Block) : item * Heap :=
  let '(l, h) := h_alloc h (CSeq (block_items b) 0 false) in (Array l, h).
End hashed.

(** ** The binary form of headers *)

(** The fields of a header are in range. *)
Record fields_ok (b : Header) : Prop := {
  fo_Version : 0 <= hd_Version b < 2 ^ 32;
  fo_PrevHash : length (hd_PrevHash b) = Uint256Size;
  fo_MerkleRoot : length (hd_MerkleRoot b) = Uint256Size;
  fo_Timestamp : 0 <= hd_Timestamp b < 2 ^ 64;
  fo_Nonce : 0 <= hd_Nonce b < 2 ^ 64;
  fo_Index : 0 <= hd_Index b < 2 ^ 32;
  fo_PrimaryIndex : 0 <= hd_PrimaryIndex b < 256;
  fo_NextConsensus : length (hd_NextConsensus b) = Uint160Size;
  fo_PrevStateRoot : length (hd_PrevStateRoot b) = Uint256Size;
  fo_disabled : hd_StateRootEnabled b = false → hd_PrevStateRoot b = zero256;
}.

Definition hashed_bytes (b : Header) : bytes :=
  le_enc 4 (hd_Version b) ++ hd_PrevHash b ++ hd_MerkleRoot b ++ le_enc 8 (hd_Timestamp b) ++ le_enc 8 (hd_Nonce b) ++
  le_enc 4 (hd_Index b) ++ [z2b (hd_PrimaryIndex b)] ++ hd_NextConsensus b ++
  (if hd_StateRootEnabled b then hd_PrevStateRoot b else []).

Definition script_bytes (w : Witness) : bytes := varbytes (InvocationScript w) ++ varbytes (VerificationScript w).

Definition header_bytes (b : Header) : bytes := hashed_bytes b ++ PutVarUint 1 ++ script_bytes (hd_Script b).

Lemma hashed_emits b : emits (header_encodeHashableFields b) (hashed_bytes b).
Proof.
  intros w Hw. unfold header_encodeHashableFields, hashed_bytes, WriteU32LE, WriteU64LE.
  rewrite (emits_bytes (le_enc 4 _) w Hw).
  destruct (hd_StateRootEnabled b); rewrite !emits_bytes, emits_B by done; cbn [w_buf]; by rewrite <- !app_assoc, ?app_nil_r.
Qed.

Lemma script_emits w : emits (witness_EncodeBinary w) (script_bytes w).
Proof.
  intros bw Hw. unfold witness_EncodeBinary, script_bytes, varbytes. rewrite (emits_varbytes _ bw Hw), (emits_varbytes _ (mkWriter _ None)) by done. cbn [w_buf].
  by rewrite <- !app_assoc.
Qed.

Lemma header_emits b : emits (header_EncodeBinary b) (header_bytes b).
Proof.
  intros w Hw. unfold header_EncodeBinary, header_bytes.
  rewrite (hashed_emits b w Hw), (emits_varuint 1 (mkWriter _ None)), script_emits by done.
  cbn [w_buf]. by rewrite <- !app_assoc.
Qed.

(** The bytes that are hashed determine what is hashed. *)
Definition unsigned (b : Header) : Header := hd_set_hash (hd_set_script b (mkWitness [] [])) zero256.

Section header_codec.
Context `{Digest}.

Lemma createHash_eq b : header_createHash b = hd_set_hash b (sha256 (hashed_bytes b)).
Proof. unfold header_createHash. by rewrite (hashed_emits b NewBufBinWriter eq_refl). Qed.

Lemma hashed_parses b rest : fields_ok b →
  header_decodeHashableFields (hd_StateRootEnabled b) (mkReader (hashed_bytes b ++ rest) None)
  = (hd_set_hash (unsigned b) (sha256 (hashed_bytes b)), mkReader rest None).
Proof.
  intros [Hv Hp Hm Ht Hn Hi Hpi Hnc Hps Hd]. unfold header_decodeHashableFields.
  set (s := sha256 (hashed_bytes b)). unfold hashed_bytes. rewrite <- !app_assoc.
  rewrite parses_u32 by done. rewrite !parses_bytes by done. rewrite !parses_u64 by done. rewrite parses_u32 by done.
  cbn [app]. rewrite parses_B by done. rewrite parses_bytes by done.
  destruct b as [ver ph mr ts no ix nc sc [] ps pi hh]; cbn [hd_StateRootEnabled hd_PrevStateRoot] in *.
  - rewrite parses_bytes by done. cbn [r_err]. by rewrite createHash_eq.
  - cbn [app r_err]. rewrite (Hd eq_refl), createHash_eq. done.
Qed.

(** A header as decoding its bytes gives it. *)
Definition header_filled (b : Header) : Header := hd_set_hash b (sha256 (hashed_bytes b)).

Lemma header_parses b rest : fields_ok b → witness_ok (hd_Script b) →
  header_DecodeBinary (hd_StateRootEnabled b) (mkReader (header_bytes b ++ rest) None) = (header_filled b, mkReader rest None).
Proof.
  intros Hb Hw. unfold header_DecodeBinary, header_bytes. rewrite <- !app_assoc, hashed_parses by done.
  rewrite ReadVarUint_app by lia. cbn [r_err]. rewrite (bool_decide_eq_false_2 (1 ≠ 1)) by lia. rewrite andb_false_r.
  pose proof (dec_enc (SerializableOk := witness_serializable_ok) (hd_Script b) rest Hw) as Hd.
  change (enc_bytes (hd_Script b)) with (script_bytes (hd_Script b)) in Hd.
  change (DecodeBinary (A := Witness)) with witness_DecodeBinary in Hd. rewrite Hd. by destruct b.
Qed.

Lemma hashed_inj b1 b2 : fields_ok b1 → fields_ok b2 → hashed_bytes b1 = hashed_bytes b2 → unsigned b1 = unsigned b2.
Proof.
  intros H1 H2 E. assert (hd_StateRootEnabled b1 = hd_StateRootEnabled b2) as Hs.
  { assert (∀ b, fields_ok b → length (hashed_bytes b) = if hd_StateRootEnabled b then 141%nat else 109%nat) as Hl.
    { intros b [Hv Hp Hm Ht Hn Hi Hpi Hnc Hps Hd]. unfold hashed_bytes. rewrite !length_app, !length_le_enc, Hp, Hm, Hnc.
      destruct (hd_StateRootEnabled b); [by rewrite Hps|done]. }
    apply (f_equal length) in E. rewrite (Hl b1 H1), (Hl b2 H2) in E.
    by destruct (hd_StateRootEnabled b1), (hd_StateRootEnabled b2). }
  pose proof (hashed_parses b1 [] H1) as P1. pose proof (hashed_parses b2 [] H2) as P2.
  rewrite Hs, E, P2 in P1. injection P1 as E1. destruct b1, b2. unfold unsigned in *. cbn in *. by simplify_eq.
Qed.

(** Whatever is decoded as a header is in range and has its hash. *)
Lemma header_yields sre :
  yields (λ b, fields_ok b ∧ witness_ok (hd_Script b) ∧ hd_StateRootEnabled b = sre ∧ b = header_filled b) (header_DecodeBinary sre).
Proof.
  intros r b r' E Hr'. unfold header_DecodeBinary, header_decodeHashableFields in E.
  destruct (ReadU32LE r) as [ver r1] eqn:E1. destruct (ReadBytes Uint256Size r1) as [ph r2] eqn:E2.
  destruct (ReadBytes Uint256Size r2) as [mr r3] eqn:E3. destruct (ReadU64LE r3) as [ts r4] eqn:E4.
  destruct (ReadU64LE r4) as [no r5] eqn:E5. destruct (ReadU32LE r5) as [ix r6] eqn:E6.
  destruct (ReadB r6) as [pi r7] eqn:E7. destruct (ReadBytes Uint160Size r7) as [nc r8] eqn:E8.
  destruct (if sre then ReadBytes Uint256Size r8 else (zero256, r8)) as [ps r9] eqn:E9.
  destruct (ReadVarUint r9) as [n r10] eqn:E10.
  destruct (bool_decide (r_err r10 = None) && bool_decide (n ≠ 1)); [injection E as <- <-; done|].
  destruct (witness_DecodeBinary r10) as [sc r11] eqn:E11. injection E as <- <-.
  destruct (witness_yields _ _ _ E11 Hr') as [Er10 Hsc]. destruct (yields_varuint _ _ _ E10 Er10) as [Er9 _].
  assert (r_err r8 = None ∧ length ps = Uint256Size ∧ (sre = false → ps = zero256)) as (Er8 & Hps & Hd).
  { destruct sre; [|by injection E9 as <- <-]. by destruct (yields_bytes _ _ _ _ E9 Er9). }
  destruct (yields_bytes _ _ _ _ E8 Er8) as [Er7 Hnc]. destruct (yields_B _ _ _ E7 Er7) as [Er6 Hpi].
  destruct (yields_uint_le 4 _ _ _ E6 Er6) as [Er5 Hix]. destruct (yields_uint_le 8 _ _ _ E5 Er5) as [Er4 Hno].
  destruct (yields_uint_le 8 _ _ _ E4 Er4) as [Er3 Hts]. destruct (yields_bytes _ _ _ _ E3 Er3) as [Er2 Hmr].
  destruct (yields_bytes _ _ _ _ E2 Er2) as [Er1 Hph]. destruct (yields_uint_le 4 _ _ _ E1 Er1) as [Er Hver].
  split; [done|]. rewrite Er9, createHash_eq. split; [by constructor|]. split; [done|]. by split.
Qed.
End header_codec.

(** ** Blocks *)

Definition block_ok (b : Block) : Prop :=
  fields_ok (bk_Header b) ∧ witness_ok (hd_Script (bk_Header b))
  ∧ Forall (λ t, tx_ok (Keys.key_ok P256) t ∧ scripts_ok t) (bk_Transactions b)
  ∧ Z.of_nat (length (bk_Transactions b)) <= MaxTransactionsPerBlock.

Definition block_bytes (b : Block) : bytes :=
  header_bytes (bk_Header b) ++ PutVarUint (Z.of_nat (length (bk_Transactions b))) ++ concat (map tx_bytes (bk_Transactions b)).

Section block_codec.
Context `{Digest}.

(** A block as decoding gives it. *)
Definition block_filled (b : Block) : Block :=
  mkBlock (header_filled (bk_Header b)) (map tx_filled (bk_Transactions b)) false.

Lemma block_emits b : block_ok b → emits (block_EncodeBinary b) (block_bytes b).
Proof.
  intros (_ & _ & Ht & _) w Hw. unfold block_EncodeBinary, block_bytes.
  rewrite (header_emits _ w Hw), (emits_varuint _ (mkWriter _ None)) by done. cbn [w_buf].
  assert (∀ w, w_err w = None → fold_left (λ bw t, tx_EncodeBinary t bw) (bk_Transactions b) w
    = mkWriter (w_buf w ++ concat (map tx_bytes (bk_Transactions b))) None) as ->; [|cbn [w_buf]; by rewrite <- !app_assoc|done].
  clear w Hw. induction Ht as [|t l [Ht Hs] _ IH]; intros w Hw; [destruct w; cbn in *; subst; by rewrite app_nil_r|].
  cbn [fold_left]. rewrite (tx_emits _ t ltac:(apply Ht) Ht Hs w Hw), IH by done. cbn [w_buf map concat]. by rewrite <- app_assoc.
Qed.

Lemma txs_parse l rest : Forall (λ t, tx_ok (Keys.key_ok P256) t ∧ scripts_ok t) l →
  read_elems (A := Transaction) (length l) (mkReader (concat (map tx_bytes l) ++ rest) None) = (map tx_filled l, mkReader rest None).
Proof.
  induction 1 as [|t l [Ht Hs] _ IH]; [done|]. cbn [read_elems length map concat].
  change (DecodeBinary (A := Transaction)) with tx_DecodeBinary. by rewrite <- app_assoc, tx_parses, IH.
Qed.

Lemma filled_hashes l : tx_hashes (map tx_filled l) = Ok (map (λ t, sha256 (hashable_bytes t)) l, map tx_filled l).
Proof. induction l as [|t l IH]; [done|]. cbn [map tx_hashes]. unfold tx_Hash at 1. cbn. by rewrite IH. Qed.

Lemma trimmed_hashes hs : tx_hashes (map NewTrimmedTX hs) = Ok (hs, map NewTrimmedTX hs).
Proof. induction hs as [|h hs IH]; [done|]. cbn [map tx_hashes]. unfold tx_Hash at 1. cbn. by rewrite IH. Qed.

Lemma read_hashes_app hs rest : Forall (λ h, length h = Uint256Size) hs →
  read_hashes (length hs) (mkReader (concat hs ++ rest) None) = (hs, mkReader rest None).
Proof.
  induction 1 as [|h hs Hh _ IH]; [done|]. cbn [read_hashes length concat]. by rewrite <- app_assoc, parses_bytes, IH.
Qed.

Lemma emits_hashes hs : emits (λ w, fold_left (λ w h, WriteBytes h w) hs w) (concat hs).
Proof.
  induction hs as [|h hs IH]; intros w Hw; cbn [fold_left concat]; [destruct w; cbn in *; subst; by rewrite app_nil_r|].
  rewrite (emits_bytes h w Hw). unfold emits in IH. rewrite IH by done. cbn [w_buf]. by rewrite <- app_assoc.
Qed.

(** C20: the binary form of a block: what is written of a block that is in range
    is read back with every field, the hashes of the header and of the
    transactions and their sizes.  Its trimmed form is read back as the same
    header over the hashes of the transactions, in order, and has the same
    Merkle root.  The hashes are SHA256 applied once; the comments (header.go:63,
    transaction.go:71) say twice, which the code does not do. *)
Theorem block_roundtrip b rest : block_ok b →
  let sre := hd_StateRootEnabled (bk_Header b) in
  ∃ full trimmed t,
    block_EncodeBinary b NewBufBinWriter = mkWriter full None
    ∧ block_DecodeBinary sre (mkReader (full ++ rest) None) = (block_filled b, mkReader rest None)
    ∧ EncodeTrimmed (block_filled b) NewBufBinWriter = Ok (mkWriter trimmed None)
    ∧ NewTrimmedFromReader sre (mkReader (trimmed ++ rest) None) = Ok (t, mkReader rest None)
    ∧ bk_Header t = bk_Header (block_filled b)
    ∧ map t_hash (bk_Transactions t) = map t_hash (bk_Transactions (block_filled b))
    ∧ fst <$> ComputeMerkleRoot t = fst <$> ComputeMerkleRoot (block_filled b).
Proof.
  intros (Hh & Hw & Ht & Hmax) sre. unfold MaxTransactionsPerBlock in *.
  set (hs := map (λ t, sha256 (hashable_bytes t)) (bk_Transactions b)).
  assert (length hs = length (bk_Transactions b)) as Hlen by (unfold hs; by rewrite length_map).
  assert (Forall (λ h, length h = Uint256Size) hs) as H32.
  { unfold hs. apply Forall_map, Forall_forall. intros. apply sha256_length. }
  exists (block_bytes b), (header_bytes (bk_Header b) ++ PutVarUint (Z.of_nat (length hs)) ++ concat hs),
    (mkBlock (header_filled (bk_Header b)) (map NewTrimmedTX hs) true).
  split; [by apply (block_emits b)|]. split.
  { unfold block_DecodeBinary, block_bytes, sre. rewrite <- !app_assoc, header_parses by done.
    rewrite ReadVarUint_app by lia. rewrite bool_decide_eq_false_2 by (unfold MaxTransactionsPerBlock; lia).
    by rewrite Nat2Z.id, txs_parse. }
  split.
  { unfold EncodeTrimmed, block_filled. cbn [bk_Transactions bk_Header]. rewrite filled_hashes. cbn [mbind res_bind].
    rewrite (header_emits (header_filled _) NewBufBinWriter eq_refl), (emits_varuint _ (mkWriter _ None)) by done.
    pose proof (emits_hashes hs) as He. unfold emits in He. fold hs. rewrite He by done. cbn [w_buf].
    rewrite length_map, Hlen, <- !app_assoc. do 3 f_equal. }
  split.
  { unfold NewTrimmedFromReader, sre. rewrite <- !app_assoc, header_parses by done. rewrite ReadVarUint_app by lia.
    rewrite bool_decide_eq_false_2 by (unfold MaxTransactionsPerBlock; lia). by rewrite Nat2Z.id, read_hashes_app. }
  split; [done|]. cbn [bk_Transactions block_filled]. split; [unfold hs; by rewrite !map_map|].
  unfold ComputeMerkleRoot, block_filled. cbn [bk_Transactions]. rewrite trimmed_hashes, filled_hashes. cbn [mbind res_bind]. fold hs.
  by destruct (CalcMerkleRoot _ _).
Qed.

(** C21: whatever is accepted as a block: its header is in range and hashed over
    the bytes it would write, which determine every field but the witness; it
    has at most 65535 transactions, and each is valid, hashed and sized by what
    it would write.  Hashed means SHA256 once, against the comment of header.go:63
    (double SHA256). *)
Theorem accepted_block sre r b r' :
  block_DecodeBinary sre r = (b, r') → r_err r' = None →
  fields_ok (bk_Header b) ∧ witness_ok (hd_Script (bk_Header b)) ∧ hd_StateRootEnabled (bk_Header b) = sre
  ∧ hd_hash (bk_Header b) = sha256 (hashed_bytes (bk_Header b))
  ∧ (∀ b2, fields_ok b2 → hashed_bytes b2 = hashed_bytes (bk_Header b) ↔ unsigned b2 = unsigned (bk_Header b))
  ∧ Z.of_nat (length (bk_Transactions b)) <= MaxTransactionsPerBlock
  ∧ Forall (λ t, valid_fields t ∧ tx_accepted t) (bk_Transactions b).
Proof.
  unfold block_DecodeBinary. intros E Hr'. destruct (header_DecodeBinary sre r) as [h r1] eqn:E1.
  destruct (ReadVarUint r1) as [n r2] eqn:E2. revert E. case_bool_decide as Hn; [by intros [= <- <-]|].
  destruct (read_elems _ r2) as [txs r3] eqn:E3. intros [= <- <-].
  destruct (read_elems_yields tx_serializable _ _ tx_yields _ _ _ E3 Hr') as [Er2 [Htx Hl]].
  destruct (yields_varuint _ _ _ E2 Er2) as [Er1 Hrange]. destruct (header_yields _ _ _ _ E1 Er1) as (_ & Hf & Hw & Hs & Hh).
  cbn [bk_Header bk_Transactions]. split; [done|]. split; [done|]. split; [done|]. split; [by rewrite Hh at 1|]. split.
  { intros b2 Hf2. split; [by apply hashed_inj|]. intros E. assert (∀ b, hashed_bytes b = hashed_bytes (unsigned b)) as Hu by done.
    by rewrite (Hu b2), (Hu h), E. }
  split; [lia|]. eapply Forall_impl; [exact Htx|]. intros t Ht. split; [|done]. destruct Ht as (Ht & _).
  destruct Ht as (Hv & Hno & Hvub & Hsf & Hnf & Hsi & Ha & Hlen & Hsc & Hval).
  by apply (isValid_cases t (attrs_in_range _ Ha) Hsf Hnf) in Hval.
Qed.
End block_codec.

(** ** Sizes *)

Lemma header_size_empty : expectedHeaderSizeWithEmptyWitness = 112.
Proof. by vm_compute. Qed.

Lemma length_hashed_bytes b : fields_ok b → length (hashed_bytes b) = if hd_StateRootEnabled b then 141%nat else 109%nat.
Proof.
  intros [Hv Hp Hm Ht Hn Hi Hpi Hnc Hps Hd]. unfold hashed_bytes. rewrite !length_app, !length_le_enc, Hp, Hm, Hnc.
  destruct (hd_StateRootEnabled b); [by rewrite Hps|done].
Qed.

Lemma length_tx_sizes `{Digest} l :
  Forall (λ t, tx_ok (Keys.key_ok P256) t ∧ scripts_ok t) l →
  Forall (λ t, t_size t = 0 ∨ t_size t = Z.of_nat (length (tx_bytes t))) l →
  foldr (λ t n, (tx_Size t).1 + n) 0 l = Z.of_nat (length (concat (map tx_bytes l))).
Proof.
  induction 1 as [|t l [Ht Hs] _ IH]; intros Hc; [done|]. inversion_clear Hc as [|? ? Hct Hcl]. cbn [foldr map concat].
  rewrite IH, length_app, Nat2Z.inj_add by done. f_equal. unfold tx_Size.
  rewrite (tx_emits _ t ltac:(apply Ht) Ht Hs NewBufBinWriter eq_refl). destruct Hct as [Hct|Hct]; rewrite Hct.
  - by rewrite bool_decide_eq_true_2.
  - case_bool_decide; [done|]. exact Hct.
Qed.

(** The expected size of a block is the size of what is written, when the
    sizes that its transactions keep are right; but for a block of exactly 65535
    transactions, the most there can be, it is two bytes less. *)
Theorem expected_block_size `{Digest} b :
  block_ok b → Forall (λ t, t_size t = 0 ∨ t_size t = Z.of_nat (length (tx_bytes t))) (bk_Transactions b) →
  GetExpectedBlockSize b
  = Z.of_nat (length (w_buf (block_EncodeBinary b NewBufBinWriter)))
    - (if bool_decide (Z.of_nat (length (bk_Transactions b)) = MaxTransactionsPerBlock) then 2 else 0).
Proof.
  intros Hb Hc. rewrite (block_emits b Hb NewBufBinWriter eq_refl). destruct Hb as (Hh & Hw & Ht & Hmax).
  unfold GetExpectedBlockSize, GetExpectedBlockSizeWithoutTransactions, block_bytes, header_bytes.
  rewrite (length_tx_sizes _ Ht Hc), header_size_empty. unfold GetVarSize_ptr.
  change (EncodeBinary (A := Witness)) with witness_EncodeBinary. rewrite (script_emits _ NewBufBinWriter eq_refl).
  cbn [w_buf NewBufBinWriter app]. rewrite !length_app, !Nat2Z.inj_add, length_hashed_bytes by done.
  rewrite (length_PutVarUint (Z.of_nat (length (bk_Transactions b)))). change (Z.of_nat (length (PutVarUint 1))) with 1. change (Z.of_nat Uint256Size) with 32.
  unfold MaxTransactionsPerBlock, getVarIntSize in *.
  destruct (hd_StateRootEnabled (bk_Header b)); repeat case_bool_decide; lia.
Qed.

(** *** Headers with the witness of the default multisignature contract *)

Definition code_len (n : Z) : Z := if bool_decide (n < 16) then 1 else if bool_decide (n < 128) then 2 else 3.
Definition var_len (n : Z) : Z := if bool_decide (n < 253) then 1 else if bool_decide (n < 65535) then 3 else 5.

(** The size of such a header, for [n] validators. *)
Definition signed_header_size (n : Z) : Z :=
  let m := GetDefaultHonestNodeCount n in
  let v := code_len m + 35 * n + code_len n + 5 in
  109 + 1 + (var_len (66 * m) + 66 * m) + (var_len v + v).

Lemma below_1024 (P : Z → bool) : forallb (λ n, P (Z.of_nat n)) (seq 0 1025) = true → ∀ n, 0 <= n <= 1024 → P n = true.
Proof.
  intros Hall n Hn. rewrite forallb_forall in Hall. rewrite <- (Z2Nat.id n) by lia. apply Hall, in_seq. lia.
Qed.

Lemma length_int_code n : 0 <= n <= 1024 → Z.of_nat (length (int_code n)) = code_len n.
Proof.
  intros Hn. apply Z.eqb_eq. revert n Hn. apply below_1024. by vm_compute.
Qed.

Definition size_cases (n : Z) : bool :=
  let e := GetExpectedHeaderSize false n in let a := signed_header_size n in
  if bool_decide (n = 0) then true else
  if bool_decide (n < 5) then bool_decide (a = e - 2) else if bool_decide (n <= 7) then bool_decide (a = e) else bool_decide (e + 2 <= a).

Lemma size_cases_ok n : 0 <= n <= 1024 → size_cases n = true.
Proof. revert n. apply below_1024. by vm_compute. Qed.

Lemma honest_bounds n : 1 <= n → 1 <= GetDefaultHonestNodeCount n <= n.
Proof. intros Hn. unfold GetDefaultHonestNodeCount. rewrite Z.quot_div_nonneg by lia. 
  pose proof (Z.div_pos (n - 1) 3 ltac:(lia) ltac:(lia)). pose proof (Z.mul_div_le (n - 1) 3 ltac:(lia)). lia. Qed.

Lemma PutVarUint_var_len n : n < 4294967295 → Z.of_nat (length (PutVarUint n)) = var_len n.
Proof. intros Hn. rewrite length_PutVarUint. unfold var_len. repeat case_bool_decide; lia. Qed.

Lemma length_key_code l : Forall (λ k, length (PublicKey_Bytes k) = 33%nat) l →
  length (key_pushes (map PublicKey_Bytes l)) = (35 * length l)%nat.
Proof.
  induction 1 as [|k l Hk _ IH]; [done|]. cbn [map]. change (key_pushes (?a :: ?l)) with (ibytes PUSHDATA1 a ++ key_pushes l).
  rewrite length_app, IH. unfold ibytes. cbn [length app]. lia.
Qed.

Lemma length_multisig_code `{Digest} m keys :
  let n := Z.of_nat (length keys) in
  0 <= m <= 1024 → n <= 1024 → Forall (λ k, IsInfinity k = false) keys →
  Z.of_nat (length (multisig_code m (map PublicKey_Bytes (sort_keys keys)))) = code_len m + 35 * n + code_len n + 5.
Proof.
  intros n Hm Hn Hinf. unfold multisig_code. rewrite !length_app, (length_key_code _ (keys_33 keys Hinf)), length_map.
  rewrite (Permutation_length (sort_keys_perm keys)). change (length (ibytes SYSCALL _)) with 5%nat.
  rewrite !Nat2Z.inj_add, !length_int_code by lia. fold n. lia.
Qed.

(** The expected size of a header that the default multisignature contract
    of at most 1024 keys signs is its size for 5, 6 and 7 keys only: it is two
    bytes more than the size for fewer keys, and at least two less for more. *)
Theorem expected_header_size `{Digest} (b : Header) (keys : list PublicKey) :
  let n := Z.of_nat (length keys) in
  fields_ok b → 1 <= n <= MaxMultisigKeys → Forall (λ k, IsInfinity k = false) keys →
  CreateDefaultMultiSigRedeemScript keys = Ok (VerificationScript (hd_Script b)) →
  Z.of_nat (length (InvocationScript (hd_Script b))) = 66 * GetDefaultHonestNodeCount n →
  let size := Z.of_nat (length (w_buf (header_EncodeBinary b NewBufBinWriter))) in
  let expected := GetExpectedHeaderSize (hd_StateRootEnabled b) n in
  (size = expected ↔ 5 <= n <= 7) ∧ (n < 5 → size = expected - 2) ∧ (7 < n → expected + 2 <= size).
Proof.
  intros n Hf Hn Hinf Hv Hi size expected. change MaxMultisigKeys with 1024 in *.
  pose proof (honest_bounds n ltac:(lia)) as Hm. set (m := GetDefaultHonestNodeCount n) in *.
  unfold CreateDefaultMultiSigRedeemScript in Hv. fold n m in Hv.
  rewrite (multisig_made m keys) in Hv by (change MaxMultisigKeys with 1024; lia || done). injection Hv as Hv.
  assert (Z.of_nat (length (VerificationScript (hd_Script b))) = code_len m + 35 * n + code_len n + 5) as Hlv.
  { rewrite <- Hv. apply length_multisig_code; [lia|fold n; lia|done]. }
  assert (size = signed_header_size n + if hd_StateRootEnabled b then 32 else 0) as ->.
  { unfold size. rewrite (header_emits b NewBufBinWriter eq_refl). cbn [w_buf NewBufBinWriter app].
    unfold header_bytes, script_bytes, varbytes, signed_header_size. fold m.
    rewrite !length_app, !Nat2Z.inj_add, length_hashed_bytes by done. rewrite Hi, Hlv.
    rewrite !PutVarUint_var_len by (unfold code_len; repeat case_bool_decide; lia). change (var_len 1) with 1.
    destruct (hd_StateRootEnabled b); lia. }
  assert (expected = GetExpectedHeaderSize false n + if hd_StateRootEnabled b then 32 else 0) as ->.
  { unfold expected, GetExpectedHeaderSize. destruct (hd_StateRootEnabled b); [done|]. lia. }
  pose proof (size_cases_ok n ltac:(lia)) as Hc. revert Hc. unfold size_cases. cbv zeta.
  generalize (GetExpectedHeaderSize false n) (signed_header_size n). intros e a.
  rewrite (bool_decide_eq_false_2 (n = 0)) by lia. repeat case_bool_decide; intros; try done; lia.
Qed.

(** ** Examples *)

Definition ex_header (sre : bool) : Header :=
  mkHeader 0 (replicate Uint256Size x01) (replicate Uint256Size x02) 1000 7 5 (replicate Uint160Size x03)
    (mkWitness [x01] [x02; x03]) sre (if sre then replicate Uint256Size x09 else zero256) 2 zero256.
Definition ex_block : Block := mkBlock (ex_header true) [ex_tx; ex_tx] false.

Lemma ex_header_ok sre : fields_ok (ex_header sre).
Proof. destruct sre; by constructor. Qed.

Lemma ex_block_ok : block_ok ex_block.
Proof.
  split; [exact (ex_header_ok true)|]. split; [by vm_compute|]. split; [|by vm_compute].
  constructor; [exact ex_tx_ok|]. constructor; [exact ex_tx_ok|constructor].
Qed.

Lemma block_roundtrip_witness :
  block_ok ex_block
  ∧ let sre := hd_StateRootEnabled (bk_Header ex_block) in
    ∃ full trimmed t,
    block_EncodeBinary ex_block NewBufBinWriter = mkWriter full None
    ∧ block_DecodeBinary sre (mkReader (full ++ [x01]) None) = (block_filled ex_block, mkReader [x01] None)
    ∧ EncodeTrimmed (block_filled ex_block) NewBufBinWriter = Ok (mkWriter trimmed None)
    ∧ NewTrimmedFromReader sre (mkReader (trimmed ++ [x01]) None) = Ok (t, mkReader [x01] None)
    ∧ bk_Header t = bk_Header (block_filled ex_block)
    ∧ map t_hash (bk_Transactions t) = map t_hash (bk_Transactions (block_filled ex_block))
    ∧ fst <$> ComputeMerkleRoot t = fst <$> ComputeMerkleRoot (block_filled ex_block).
Proof. split; [exact ex_block_ok|]. exact (block_roundtrip ex_block [x01] ex_block_ok). Defined.

Lemma accepted_block_witness :
  let r := mkReader (block_bytes ex_block) None in
  block_DecodeBinary true r = (block_filled ex_block, mkReader [] None)
  ∧ Forall (λ t, valid_fields t ∧ tx_accepted t) (bk_Transactions (block_filled ex_block)).
Proof.
  intros r. assert (block_DecodeBinary true r = (block_filled ex_block, mkReader [] None)) as E by (vm_compute; reflexivity).
  split; [exact E|]. apply (accepted_block true r _ _ E eq_refl).
Defined.

Lemma expected_block_size_witness :
  block_ok ex_block
  ∧ GetExpectedBlockSize ex_block
    = Z.of_nat (length (w_buf (block_EncodeBinary ex_block NewBufBinWriter)))
      - (if bool_decide (Z.of_nat (length (bk_Transactions ex_block)) = MaxTransactionsPerBlock) then 2 else 0).
Proof.
  split; [exact ex_block_ok|]. apply (expected_block_size ex_block ex_block_ok).
  constructor; [by left|]. constructor; [by left|constructor].
Defined.

(** Eight validators: one too many. *)
Definition ex_validators : list PublicKey := map (λ i, Point (Z.of_nat i) 1) (seq 1 8).
Definition ex_signed : Header := hd_set_script (ex_header false)
  (mkWitness (replicate 396 x00) (match CreateDefaultMultiSigRedeemScript ex_validators with Ok s => s | _ => [] end)).

Lemma expected_header_size_witness :
  Z.of_nat (length (w_buf (header_EncodeBinary ex_signed NewBufBinWriter))) = GetExpectedHeaderSize false 8 + 2
  ∧ (7 < 8 → GetExpectedHeaderSize false 8 + 2 <= Z.of_nat (length (w_buf (header_EncodeBinary ex_signed NewBufBinWriter)))).
Proof.
  split; [by vm_compute|].
  apply (expected_header_size ex_signed ex_validators); [by constructor|cbn; unfold MaxMultisigKeys; lia|repeat constructor|by vm_compute|by vm_compute].
Defined.
