(* ===== verification/NativeState.v ===== *)
(** * NativeState: how the native contracts keep their data

    Models [pkg/core/state/native_state.go], [native_neo_candidate.go] and the
    keys of [pkg/core/native]: the balances of GAS and NEO accounts and the
    candidates as stored bytes, which are serialized stack items. *)

From S2P Require Import Prelude Bigint BinIO Codec Hash Keys StackItem Serial.

#[local] Open Scope Z_scope.

(** An error of Go. *)
Definition nerr : Type := string.

Definition res_err {A E F} (f : F) (r : res E A) : res F A :=
  match r with Ok a => Ok a | Err _ => Err f | Panic => Panic end.

(** A structure of its own with these elements, as bytes. *)
Definition ser_struct (items : list item) : res nerr bytes :=
  let '(l, h) := h_alloc emptyHeap (CSeq items 0 false) in res_err "serialization" (Serialize h (Some (Struct l))).

(** [item.Value().([]stackitem.Item)] *)
Definition item_elems (h : Heap) (i : item) : option (list item) :=
  match i with
  | Array l | Struct l => match h_seq h l with Ok (v, _, _) => Some v | _ => None end
  | _ => None
  end.

(** *** Balances *)

(** [NEP17BalanceFromBytes] *)
Definition NEP17BalanceFromBytes (b : bytes) : res nerr Z :=
  if bool_decide (length b < 4)%nat then (if bool_decide (b = []) then Ok 0 else Err "invalid format"%string) else
  match b with
  | b0 :: b1 :: b2 :: b3 :: data =>
      if bool_decide (b2z b0 ≠ StructT) then Err "not a struct"%string else
      if bool_decide (b2z b1 ≠ 1) then Err "invalid item count"%string else
      if bool_decide (b2z b2 ≠ IntegerT) then Err "invalid balance"%string else
      if bool_decide (b2z b3 ≠ Z.of_nat (length data)) then Err "invalid balance format"%string else
      FromBytes (Some data)
  | _ => Panic
  end.

Definition NEP17Balance_Bytes (balance : Z) : bytes :=
  let data := ToBytes balance in [z2b StructT; x01; z2b IntegerT; z2b (Z.of_nat (length data))] ++ data.

Record NEOBalance := mkNB { nb_Balance : Z; nb_BalanceHeight : Z; nb_VoteTo : option PublicKey; nb_LastGasPerVote : Z }.

Definition zero_balance : NEOBalance := mkNB 0 0 None 0.

#[export] Instance NEOBalance_eq_dec : EqDecision NEOBalance.
Proof. solve_decision. Defined.

Definition big_item (n : Z) : res nerr item := res_err "too big"%string (NewBigInteger n).

Definition NEOBalance_items (s : NEOBalance) : res nerr (list item) :=
  balance ← big_item (nb_Balance s);
  last ← big_item (nb_LastGasPerVote s);
  Ok [balance; Integer (nb_BalanceHeight s);
      match nb_VoteTo s with Some k => ByteArray (PublicKey_Bytes k) | None => Null end; last].

(** [Bytes] panics when it cannot serialize. *)
Definition NEOBalance_Bytes (s : NEOBalance) : res nerr bytes :=
  items ← NEOBalance_items s;
  match ser_struct items with Ok b => Ok b | _ => Panic end.

Definition NEOBalance_FromStackItem (h : Heap) (i : item) : res nerr NEOBalance :=
  match item_elems h i with
  | Some (i0 :: i1 :: i2 :: i3 :: _) =>
      balance ← res_err "invalid balance stackitem"%string (TryInteger i0);
      height ← res_err "invalid height"%string (ToUint32 i1);
      vote ← match i2 with
             | Null => Ok None
             | _ => bs ← res_err "invalid public key stackitem"%string (TryBytes h i2);
                    pub ← res_err "invalid public key bytes"%string (PublicKey_DecodeBytes P256 bs);
                    Ok (Some pub)
             end;
      last ← res_err "invalid last vote reward per neo stackitem"%string (TryInteger i3);
      Ok (mkNB balance height vote last)
  | _ => Err "invalid stackitem length"%string
  end.

Definition NEOBalanceFromBytes (b : bytes) : res nerr NEOBalance :=
  if bool_decide (b = []) then Ok zero_balance else
  '(i, h) ← res_err "deserialization"%string (Deserialize emptyHeap b);
  NEOBalance_FromStackItem h i.

(** *** Candidates *)

Record candidate := mkCand { cd_Registered : bool; cd_Votes : Z }.

#[export] Instance candidate_eq_dec : EqDecision candidate.
Proof. solve_decision. Defined.

(** [ToStackItem] and the serialization of [PutStorageConvertible]. *)
Definition candidate_Bytes (c : candidate) : res nerr bytes :=
  votes ← big_item (cd_Votes c);
  ser_struct [Bool (cd_Registered c); votes].

Definition candidate_FromStackItem (h : Heap) (i : item) : res nerr candidate :=
  match i with
  | Struct l =>
      match h_seq h l with
      | Ok (i0 :: i1 :: _, _, _) =>
          votes ← res_err "votes"%string (TryInteger i1);
          reg ← res_err "registered"%string (TryBool i0);
          Ok (mkCand reg votes)
      | _ => Panic
      end
  | _ => Panic
  end.

(** [FromBytes] panics on an error. *)
Definition candidate_FromBytes (data : bytes) : res nerr candidate :=
  match ('(i, h) ← res_err "deserialization"%string (Deserialize emptyHeap data); candidate_FromStackItem h i) with
  | Ok c => Ok c
  | _ => Panic
  end.

(** *** The committee ([neo_types.go]) *)

Record keyWithVotes := mkKW { kw_Key : bytes; kw_Votes : Z; kw_UnmarshaledKey : option PublicKey }.

Definition keyWithVotes_PublicKey (k : keyWithVotes) : res ioerr PublicKey :=
  match kw_UnmarshaledKey k with Some p => Ok p | None => PublicKey_DecodeBytes P256 (kw_Key k) end.

(** A structure per member. *)
Fixpoint members (h : Heap) (k : list keyWithVotes) : res nerr (list item * Heap) :=
  match k with
  | [] => Ok ([], h)
  | x :: k =>
      votes ← big_item (kw_Votes x);
      let '(l, h) := h_alloc h (CSeq [ByteArray (kw_Key x); votes] 0 false) in
      '(arr, h) ← members h k;
      Ok (Struct l :: arr, h)
  end.

Definition keysWithVotes_toStackItem (h : Heap) (k : list keyWithVotes) : res nerr (item * Heap) :=
  '(arr, h) ← members h k;
  let '(l, h) := h_alloc h (CSeq arr 0 false) in Ok (Array l, h).

(** The elements of the array for a notification: the keys alone. *)
Definition toNotificationItem (k : list keyWithVotes) : list item := map (λ x, ByteArray (kw_Key x)) k.

Definition member_of (h : Heap) (i : item) : res nerr keyWithVotes :=
  match item_elems h i with
  | None => Err "element is not a struct"%string
  | Some (s0 :: s1 :: _) =>
      pub ← res_err "key"%string (TryBytes h s0);
      vs ← res_err "votes"%string (TryInteger s1);
      Ok (mkKW pub vs None)
  | Some _ => Err "invalid length"%string
  end.

Fixpoint members_of (h : Heap) (arr : list item) : res nerr (list keyWithVotes) :=
  match arr with
  | [] => Ok []
  | i :: arr => k ← member_of h i; ks ← members_of h arr; Ok (k :: ks)
  end.

Definition keysWithVotes_fromStackItem (h : Heap) (i : item) : res nerr (list keyWithVotes) :=
  match item_elems h i with Some arr => members_of h arr | None => Err "not an array"%string end.

(** [Bytes] panics when it cannot serialize. *)
Definition keysWithVotes_Bytes (k : list keyWithVotes) : res nerr bytes :=
  '(i, h) ← keysWithVotes_toStackItem emptyHeap k;
  match Serialize h (Some i) with Ok b => Ok b | _ => Panic end.

Definition keysWithVotes_DecodeBytes (data : bytes) : res nerr (list keyWithVotes) :=
  '(i, h) ← res_err "deserialization"%string (Deserialize emptyHeap data);
  keysWithVotes_fromStackItem h i.

(** A key that does not decode is a panic. *)
Fixpoint getCommitteeMembers (cvs : list keyWithVotes) : res nerr (list PublicKey) :=
  match cvs with
  | [] => Ok []
  | x :: cvs =>
      match keyWithVotes_PublicKey x with
      | Ok p => ps ← getCommitteeMembers cvs; Ok (p :: ps)
      | _ => Panic
      end
  end.

Definition toKeysWithVotes (pubs : list PublicKey) : list keyWithVotes :=
  map (λ p, mkKW (PublicKey_Bytes p) 0 (Some p)) pubs.

(** *** Keys *)

Definition prefixAccount : Z := 20.
Definition prefixCandidate : Z := 33.
Definition prefixVotersCount : Z := 1.
Definition prefixVoterRewardPerCommittee : Z := 23.
Definition prefixGASPerBlock : Z := 29.
Definition prefixRegisterPrice : Z := 13.
Definition prefixCommittee : bytes := [z2b 14].
Definition totalSupplyKey : bytes := [z2b 11].
Definition votersCountKey : bytes := [z2b prefixVotersCount].
Definition registerPriceKey : bytes := [z2b prefixRegisterPrice].

Definition makeUint160Key (prefix : Z) (h : bytes) : bytes := z2b prefix :: h.
Definition makeAccountKey (h : bytes) : bytes := makeUint160Key prefixAccount h.
Definition makeValidatorKey (key : PublicKey) : bytes := z2b prefixCandidate :: PublicKey_Bytes key.

(** The buffer is of 34 bytes: a shorter key is followed by zeros. *)
Definition makeVoterKey (pub : bytes) : bytes :=
  z2b prefixVoterRewardPerCommittee :: take 33 pub ++ replicate (33 - length pub) x00.

Definition gasRecordKey (index : Z) : bytes := z2b prefixGASPerBlock :: be_enc 4 index.

(** ** What is stored is read back *)

Definition in256 (n : Z) : Prop := - 2 ^ 255 <= n < 2 ^ 255.

Lemma big_item_ok n : in256 n → big_item n = Ok (Integer n).
Proof. intros Hn. unfold big_item, NewBigInteger. by rewrite (proj2 (CheckIntegerSize_ok n) Hn). Qed.

Lemma big_item_inv n i : big_item n = Ok i → i = Integer n ∧ in256 n.
Proof.
  unfold big_item, NewBigInteger. destruct (CheckIntegerSize n) as [u| |] eqn:E; cbn; try done. intros [= <-].
  split; [done|]. apply CheckIntegerSize_ok. by destruct u.
Qed.

Lemma FromBytes_ToBytes {E} n : FromBytes (E := E) (Some (ToBytes n)) = Ok n.
Proof. cbn. by rewrite FromBytes_nonnil_spec, ToBytes_signed. Qed.

Lemma NEP17_roundtrip n : (length (ToBytes n) <= 255)%nat → NEP17BalanceFromBytes (NEP17Balance_Bytes n) = Ok n.
Proof.
  intros Hl. pose proof (FromBytes_ToBytes (E := nerr) n) as Hb.
  unfold NEP17Balance_Bytes, NEP17BalanceFromBytes. cbv zeta. revert Hl Hb. generalize (ToBytes n). intros data Hl Hb. cbn [app].
  rewrite bool_decide_eq_false_2 by (cbn [length]; lia). change (b2z (z2b StructT)) with StructT.
  change (b2z x01) with 1. change (b2z (z2b IntegerT)) with IntegerT. rewrite b2z_z2b_small by lia.
  by rewrite !(bool_decide_eq_false_2 (_ ≠ _)) by (intros E; by apply E).
Qed.

(** Items without references. *)
Definition plain (i : item) : option tree :=
  match i with
  | Null => Some TNull
  | Bool b => Some (TBool b)
  | Integer n => Some (TInt n)
  | ByteArray b => Some (TBytes b)
  | _ => None
  end.

Definition plain_ok (i : item) : Prop :=
  match i with Null | Bool _ => True | Integer n => in256 n | ByteArray b => Z.of_nat (length b) <= 64 | _ => False end.

Lemma plain_unf h i t : plain i = Some t → unf h i t.
Proof. intros Hp. constructor. destruct i; try done; by injection Hp as <-. Qed.

Lemma plain_det h i j t : plain i = Some t → unf h j t → j = i.
Proof.
  intros Hp Hu. destruct Hu as [j t Hl|j k v ts _ _]; [|by destruct i].
  destruct j; cbn in Hl; try done; try (injection Hl as <-; destruct i; try done; by injection Hp as ->).
  destruct (h_get h l) as [[]|]; try done. injection Hl as <-. by destruct i.
Qed.

Lemma plain_all items : Forall plain_ok items →
  ∃ ts, Forall2 (λ i t, plain i = Some t) items ts ∧ tsizes ts = Z.of_nat (length items)
    ∧ Z.of_nat (length (encs ts)) <= 80 * Z.of_nat (length items).
Proof.
  induction 1 as [|i items Hi _ (ts & Hf & Hs & Hl)]; [by exists []|].
  assert (∃ t, plain i = Some t ∧ tsize t = 1 ∧ Z.of_nat (length (enc t)) <= 80) as (t & Hp & Ht & Hlt).
  { destruct i; try done; eexists; (split; [done|]); (split; [done|]); cbn [enc plain_ok] in *; rewrite ?length_app; cbn [length]; try lia.
    - pose proof (ToBytes_max _ Hi). lia.
    - unfold var_bytes. rewrite length_app, Nat2Z.inj_succ, Nat2Z.inj_add, length_PutVarUint. repeat case_bool_decide; lia. }
  exists (t :: ts). split; [by constructor|]. rewrite tsizes_cons, encs_cons, length_app. cbn [length]. lia.
Qed.

Lemma plain_item_ok h i : plain_ok i → item_ok h i.
Proof. by destruct i. Qed.

(** An item that is small enough is written, and an item of the same tree read. *)
Lemma stored h i t : heap_wf h → item_ok h i → unf h i t → tsize t <= MaxSerialized → Z.of_nat (length (enc t)) <= MaxSize →
  Serialize h (Some i) = Ok (enc t) ∧ ∃ h' i', Deserialize emptyHeap (enc t) = Ok (i', h') ∧ unf h' i' t.
Proof.
  intros Hwf Hok Hu Hst Het. set (w := mkSer [] false MaxSerialized []).
  destruct (serialize_complete h (ser_fuel MaxSerialized) w i t Hu ltac:(done) eq_refl) as [w' Hw];
    [done|done|exact Het|unfold ser_fuel; cbn [sc_limit w]; lia|].
  assert (Serialize h (Some i) = Ok (sc_data w')) as Hs.
  { unfold Serialize, SerializeLimited. rewrite bool_decide_eq_true_2 by done. fold w. by rewrite Hw. }
  destruct (SerializeLimited_Ok h i MaxSerialized (sc_data w') ltac:(done) Hs) as (t' & Hu' & Hd & _ & _).
  rewrite (unf_det _ _ _ _ Hu' Hu) in Hd. rewrite Hs, Hd. split; [done|].
  assert (twf t) as Htwf by by eapply unf_twf.
  destruct (decodeBinary_enc t Htwf (ser_fuel MaxDeserialized) MaxDeserialized ltac:(done) ltac:(unfold ser_fuel; lia)
    emptyHeap MaxDeserialized [] ltac:(done) ltac:(split; [exact Hst|done])) as (i' & h' & Hr & [Hu2 _ _ _]).
  exists h', i'. split; [|done]. unfold Deserialize, DeserializeLimited. rewrite bool_decide_eq_true_2 by done.
  unfold DecodeBinary_item, NewBinReaderFromBuf. rewrite app_nil_r in Hr. by rewrite Hr.
Qed.

Lemma unf_seq_inv h i k ts : k ≠ KMp → unf h i (TNode k ts) → ∃ l v rc ro,
  i = (match k with KArr => Array l | _ => Struct l end) ∧ h_seq h l = Ok (v, rc, ro) ∧ Forall2 (unf h) v ts.
Proof.
  intros Hk Hu. inversion Hu as [? ? Hlv|? ? v ? Hn Hf]; subst; [by apply leaf_view_not_node in Hlv|].
  destruct i as [| | | | |l|l|l| |]; cbn in Hn; try done; (destruct (h_get h l) as [[|v' rc ro|]|] eqn:Hg); try done; injection Hn as <- <-;
    try done; exists l, v', rc, ro; unfold h_seq; by rewrite Hg.
Qed.

Lemma plain_items h v ts items : Forall2 (unf h) v ts → Forall2 (λ i t, plain i = Some t) items ts → v = items.
Proof.
  intros Hf. revert items. induction Hf as [|j t v ts Hj _ IH]; intros items Hts; inversion Hts as [|i ? is0 ? Hi]; subst; [done|].
  f_equal; [by eapply plain_det|by apply IH].
Qed.

(** A structure of plain items: its bytes are there, and are read back. *)
Lemma ser_struct_ok items : Forall plain_ok items → (length items <= 100)%nat →
  ∃ b, ser_struct items = Ok b ∧ b ≠ [] ∧ ∃ h l rc ro, Deserialize emptyHeap b = Ok (Struct l, h) ∧ h_seq h l = Ok (items, rc, ro).
Proof.
  intros Hp Hlen. destruct (plain_all items Hp) as (ts & Hts & Hsz & Henc). unfold ser_struct.
  destruct (h_alloc emptyHeap (CSeq items 0 false)) as [l h1] eqn:Ha.
  apply alloc_made in Ha as (Hwf & _ & Hl); [|done|split; [|done]]; [|eapply Forall_impl; [exact Hp|]; intros; by apply plain_item_ok].
  destruct (stored h1 (Struct l) (TNode KStr ts)) as (-> & h' & i' & Hd & Hu); [done|cbn; unfold loc_ok; by rewrite Hl|..].
  { apply (unf_node _ _ _ items); [cbn; by rewrite Hl|]. eapply Forall2_impl; [exact Hts|]. intros; by apply plain_unf. }
  { rewrite tsize_node. unfold MaxSerialized, MaxDeserialized. lia. }
  { cbn [enc length]. fold (encs ts). rewrite length_app, Nat2Z.inj_succ, Nat2Z.inj_add, length_PutVarUint. unfold MaxSize.
    repeat case_bool_decide; lia. }
  cbn [res_err]. exists (enc (TNode KStr ts)). split; [done|]. split; [done|].
  apply unf_seq_inv in Hu as (l' & v & rc & ro & -> & Hg & Hv); [|done]. exists h', l', rc, ro. split; [done|].
  by rewrite <- (plain_items _ _ _ _ Hv Hts).
Qed.

Lemma ToUint32_Integer n : 0 <= n < 2 ^ 32 → ToUint32 (Integer n) = Ok n.
Proof.
  intros Hn. unfold ToUint32, ToInt64, IsInt64. cbn [TryInteger mbind res_bind].
  rewrite bool_decide_eq_true_2 by lia. cbn [mbind res_bind]. rewrite !bool_decide_eq_false_2 by lia. cbn [orb]. f_equal. by apply wrap_u_small.
Qed.

(** What [Bytes] writes of a balance or a candidate is read back. *)
Definition key_stored (k : PublicKey) : Prop := PublicKey_DecodeBytes P256 (PublicKey_Bytes k) = Ok k.

Definition balance_ok (s : NEOBalance) : Prop :=
  in256 (nb_Balance s) ∧ 0 <= nb_BalanceHeight s < 2 ^ 32 ∧ in256 (nb_LastGasPerVote s)
    ∧ match nb_VoteTo s with Some k => key_stored k | None => True end.

Lemma PublicKey_Bytes_length k : (1 <= length (PublicKey_Bytes k) <= 33)%nat.
Proof. unfold PublicKey_Bytes. rewrite length_getBytes. destruct k; cbn; unfold coordLen; lia. Qed.

Lemma key_ok_stored k : Keys.key_ok P256 k → key_stored k.
Proof.
  intros Hk. unfold key_stored, PublicKey_DecodeBytes, NewBinReaderFromBuf, PublicKey_Bytes.
  rewrite <- (app_nil_r (getBytes k true)), (key_roundtrip k true Hk ltac:(done) []) by done. done.
Qed.

Lemma NEOBalance_roundtrip s : balance_ok s → ∃ b, NEOBalance_Bytes s = Ok b ∧ b ≠ [] ∧ NEOBalanceFromBytes b = Ok s.
Proof.
  intros (Hb & Hh & Hl & Hv). unfold NEOBalance_Bytes, NEOBalance_items. rewrite !big_item_ok by done. cbn [mbind res_bind].
  destruct (ser_struct_ok [Integer (nb_Balance s); Integer (nb_BalanceHeight s);
    match nb_VoteTo s with Some k => ByteArray (PublicKey_Bytes k) | None => Null end; Integer (nb_LastGasPerVote s)])
    as (b & -> & Hne & h & l & rc & ro & Hd & Hg).
  { repeat apply Forall_cons_2; [done|cbn; unfold in256; lia| |done|by apply Forall_nil]. destruct (nb_VoteTo s) as [k|]; [|done].
    pose proof (PublicKey_Bytes_length k). cbn. lia. }
  { cbn. lia. }
  exists b. split; [done|]. split; [done|]. unfold NEOBalanceFromBytes. rewrite bool_decide_eq_false_2 by done.
  rewrite Hd. cbn [res_err mbind res_bind]. unfold NEOBalance_FromStackItem, item_elems. rewrite Hg. cbn [TryInteger res_err mbind res_bind].
  assert (ToUint32 (Integer (nb_BalanceHeight s)) = Ok (nb_BalanceHeight s)) as ->.
  { apply ToUint32_Integer. lia. }
  destruct s as [bal hh [k|] la]; cbn in *; [|done]. by rewrite Hv.
Qed.

Lemma candidate_roundtrip c : in256 (cd_Votes c) → ∃ b, candidate_Bytes c = Ok b ∧ b ≠ [] ∧ candidate_FromBytes b = Ok c.
Proof.
  intros Hv. unfold candidate_Bytes. rewrite big_item_ok by done. cbn [mbind res_bind].
  destruct (ser_struct_ok [Bool (cd_Registered c); Integer (cd_Votes c)]) as (b & Hs & Hne & h & l & rc & ro & Hd & Hg).
  { by repeat apply Forall_cons_2. }
  { cbn. lia. }
  exists b. do 2 (split; [done|]). unfold candidate_FromBytes. rewrite Hd. cbn [res_err mbind res_bind].
  unfold candidate_FromStackItem. rewrite Hg. by destruct c.
Qed.

(** *** The committee is read back *)

Definition member_ok (k : keyWithVotes) : Prop := Z.of_nat (length (kw_Key k)) <= 64 ∧ in256 (kw_Votes k).

Definition member_tree (k : keyWithVotes) : tree := TNode KStr [TBytes (kw_Key k); TInt (kw_Votes k)].

Definition stored_member (k : keyWithVotes) : keyWithVotes := mkKW (kw_Key k) (kw_Votes k) None.

Lemma members_made ks : Forall member_ok ks → ∀ h, heap_wf h →
  ∃ arr h', members h ks = Ok (arr, h') ∧ heap_wf h' ∧ h_extends h h' ∧ Forall (item_ok h') arr
    ∧ Forall2 (unf h') arr (map member_tree ks).
Proof.
  induction 1 as [|k ks [Hk Hv] _ IH]; intros h Hwf; cbn [members map].
  { exists [], h. do 3 (split; [done|]). by split; [apply Forall_nil|constructor]. }
  rewrite big_item_ok by done. cbn [mbind res_bind].
  destruct (h_alloc h _) as [l h1] eqn:Ha. apply alloc_made in Ha as (Hwf1 & He1 & Hl); [|done|split; [by repeat apply Forall_cons_2|done]].
  destruct (IH h1 Hwf1) as (arr & h' & -> & Hwf' & He & Hok & Hu). cbn [mbind res_bind].
  assert (unf h1 (Struct l) (member_tree k)) as Hk1.
  { apply (unf_node _ _ _ [ByteArray (kw_Key k); Integer (kw_Votes k)]); [cbn; by rewrite Hl|].
    repeat (constructor; [by apply unf_leaf|]). constructor. }
  exists (Struct l :: arr), h'. split; [done|]. split; [done|]. split; [by etransitivity|]. split; constructor; try done.
  - apply (item_ok_le h1); [by apply h_extends_le|]. cbn. unfold loc_ok. by rewrite Hl.
  - by eapply unf_extends.
Qed.

Lemma members_read ks h arr : Forall2 (unf h) arr (map member_tree ks) → members_of h arr = Ok (map stored_member ks).
Proof.
  revert arr. induction ks as [|k ks IH]; intros arr Hu; inversion Hu as [|i ? arr' ? Hi Hr]; subst; [done|].
  cbn [members_of map]. apply unf_seq_inv in Hi as (l & v & rc & ro & -> & Hg & Hv); [|done].
  rewrite (plain_items _ _ _ [ByteArray (kw_Key k); Integer (kw_Votes k)] Hv) in Hg by by repeat constructor.
  unfold member_of, item_elems. rewrite Hg. cbn [TryBytes TryInteger res_err mbind res_bind]. by rewrite (IH arr').
Qed.

Lemma member_trees ks : Forall member_ok ks →
  tsizes (map member_tree ks) = 3 * Z.of_nat (length ks) ∧ Z.of_nat (length (encs (map member_tree ks))) <= 120 * Z.of_nat (length ks).
Proof.
  induction 1 as [|k ks [Hk Hv] _ [IHs IHl]]; [done|]. cbn [map]. rewrite tsizes_cons, encs_cons, length_app. cbn [length].
  pose proof (ToBytes_max _ Hv). split; [cbn [member_tree tsize foldr]; lia|].
  assert (Z.of_nat (length (enc (member_tree k))) <= 120); [|lia].
  cbn [member_tree enc map concat length app]. unfold var_bytes. change (node_count KStr 2) with 2%nat.
  rewrite (PutVarUint_byte (Z.of_nat (length _))), (PutVarUint_byte (Z.of_nat 2)) by lia.
  cbn [length app]. rewrite !length_app. cbn [length]. rewrite length_app. cbn [length]. lia.
Qed.

Lemma committee_read_back ks : Forall member_ok ks → (length ks <= 600)%nat →
  ∃ b, keysWithVotes_Bytes ks = Ok b ∧ keysWithVotes_DecodeBytes b = Ok (map stored_member ks).
Proof.
  intros Hks Hlen. destruct (member_trees ks Hks) as [Hsz Hl]. unfold keysWithVotes_Bytes, keysWithVotes_toStackItem.
  destruct (members_made ks Hks emptyHeap ltac:(done)) as (arr & h1 & -> & Hwf1 & _ & Hok & Hu). cbn [mbind res_bind].
  destruct (h_alloc h1 _) as [l h2] eqn:Ha. cbn [mbind res_bind]. apply alloc_made in Ha as (Hwf2 & He & Hg); [|done|by split].
  destruct (stored h2 (Array l) (TNode KArr (map member_tree ks))) as (-> & h' & i' & Hd & Hu'); [done|cbn; unfold loc_ok; by rewrite Hg|..].
  { apply (unf_node _ _ _ arr); [cbn; by rewrite Hg|]. eapply Forall2_impl; [exact Hu|]. intros; by eapply unf_extends. }
  { rewrite tsize_node. unfold MaxSerialized, MaxDeserialized. lia. }
  { cbn [enc length]. fold (encs (map member_tree ks)). rewrite length_app, Nat2Z.inj_succ, Nat2Z.inj_add, length_PutVarUint. unfold MaxSize.
    repeat case_bool_decide; lia. }
  eexists. split; [done|]. unfold keysWithVotes_DecodeBytes. rewrite Hd. cbn [res_err mbind res_bind].
  apply unf_seq_inv in Hu' as (l' & v & rc & ro & -> & Hg' & Hv); [|done].
  unfold keysWithVotes_fromStackItem, item_elems. rewrite Hg'. by apply members_read.
Qed.
