(* ===== verification/Native.v ===== *)
(** * Native: the token contracts

    Models [pkg/core/native]: native_nep17.go and native_gas.go here, with the
    parts of the interop context they use ([pkg/core/interop/context.go]), the
    storage calls of [pkg/core/dao/dao.go] and the committee sizes of
    [pkg/config/protocol_config.go]; [NativeNeo] holds native_neo.go.

    A transfer to a contract calls its [onNEP17Payment], and the rest of the
    transfer is a continuation that runs when the contract has returned.  An
    operation that may call is therefore a [proc]: it returns, panics, or
    stops at a call with what follows, for any state the callee leaves. *)

From S2P Require Import Prelude Bigint BinIO Codec Hash Keys Witness Tx StackItem Serial Script Emit NativeState.

#[local] Open Scope Z_scope.

(** ** Configuration ([ProtocolConfiguration]) *)

Record ProtocolConfiguration := mkCfg {
  cf_StandbyCommittee : list PublicKey;
  cf_CommitteeHistory : gmap Z Z;
  cf_ValidatorsHistory : gmap Z Z;
  cf_ValidatorsCount : Z;
}.

(** The value of the greatest height that has been reached; heights are
    distinct, so the order in which the map is read does not matter. *)
Definition getBestFromMap (dict : gmap Z Z) (height : Z) : Z :=
  (map_fold (λ h n '(res, bestH), if bool_decide (bestH <= h) && bool_decide (h <= height) then (n, h) else (res, bestH))
    (0, 0) dict).1.

Definition GetCommitteeSize (p : ProtocolConfiguration) (height : Z) : Z :=
  if bool_decide (size (cf_CommitteeHistory p) = 0%nat) then Z.of_nat (length (cf_StandbyCommittee p))
  else getBestFromMap (cf_CommitteeHistory p) height.

Definition GetNumOfCNs (p : ProtocolConfiguration) (height : Z) : Z :=
  if bool_decide (size (cf_ValidatorsHistory p) = 0%nat) then cf_ValidatorsCount p
  else getBestFromMap (cf_ValidatorsHistory p) height.

(** A division by zero panics. *)
Definition ShouldUpdateCommitteeAt (p : ProtocolConfiguration) (height : Z) : res nerr bool :=
  let n := u32 (GetCommitteeSize p height) in
  if bool_decide (n = 0) then Panic else Ok (bool_decide (height mod n = 0)).

(** ** The context of an invocation *)

Record PersistingBlock := mkBlk { pb_Index : Z; pb_PrimaryIndex : Z; pb_Transactions : list Transaction }.

Record Context := mkCtx {
  ic_Block : option PersistingBlock;
  ic_chainHeight : Z;
  ic_IsBlockPersisted : bool;
  ic_Hardforks : gmap string Z;
  ic_Application : bool;
  ic_witness : WitnessEnv;
  ic_cfg : ProtocolConfiguration;
  ic_IsBlocked : bytes → bool;
  ic_AttributeFee : Z → Z;
  ic_gasLimit : Z;
  ic_whitelisted : bool;
  ic_neo2 : bool;
}.

Definition HFCockatrice : string := "Cockatrice".
Definition HFEchidna : string := "Echidna".

Definition BlockHeight (ic : Context) : Z :=
  match ic_Block ic with
  | Some b => if ic_IsBlockPersisted ic then pb_Index b else u32 (pb_Index b - 1)
  | None => if ic_IsBlockPersisted ic then u32 (ic_chainHeight ic + 1) else ic_chainHeight ic
  end.

Definition persistingBlockHeight (ic : Context) : Z :=
  match ic_Block ic with Some b => pb_Index b | None => u32 (ic_chainHeight ic + 1) end.

Definition IsHardforkEnabled (ic : Context) (hf : string) : bool :=
  match ic_Hardforks ic !! hf with
  | Some height => bool_decide (height <= persistingBlockHeight ic)
  | None => false
  end.

(** ** The state *)

(** The slices of a cached committee are replaced, never written. *)
Record NeoCache := mkCache {
  nc_gasPerBlock : list (Z * Z);
  nc_registerPrice : Z;
  nc_votesChanged : bool;
  nc_nextValidators : list PublicKey;
  nc_newEpochNextValidators : option (list PublicKey);
  nc_committee : list keyWithVotes;
  nc_newEpochCommittee : list keyWithVotes;
  nc_committeeHash : bytes;
  nc_newEpochCommitteeHash : bytes;
  nc_gasPerVoteCache : gmap bytes Z;
}.

Inductive tokid := GasT | NeoT.

#[export] Instance tokid_eq_dec : EqDecision tokid.
Proof. solve_decision. Defined.

Record Notification := mkNote { no_ScriptHash : bytes; no_Name : string; no_Item : list tree }.

(** The storage of both contracts, the cache of NEO, what has been notified
    and paid; [w_contracts] are the deployed contracts, with [true] if the call
    of their [onNEP17Payment] is accepted. *)
Record World := mkWorld {
  w_gas : gmap bytes bytes;
  w_neo : gmap bytes bytes;
  w_cache : NeoCache;
  w_notes : list Notification;
  w_consumed : Z;
  w_contracts : gmap bytes bool;
}.

Definition w_store (t : tokid) (w : World) : gmap bytes bytes := match t with GasT => w_gas w | NeoT => w_neo w end.
Definition w_set_store (t : tokid) (s : gmap bytes bytes) (w : World) : World :=
  match t with
  | GasT => mkWorld s (w_neo w) (w_cache w) (w_notes w) (w_consumed w) (w_contracts w)
  | NeoT => mkWorld (w_gas w) s (w_cache w) (w_notes w) (w_consumed w) (w_contracts w)
  end.
Definition w_set_cache (c : NeoCache) (w : World) : World :=
  mkWorld (w_gas w) (w_neo w) c (w_notes w) (w_consumed w) (w_contracts w).
Definition w_set_notes (l : list Notification) (w : World) : World :=
  mkWorld (w_gas w) (w_neo w) (w_cache w) l (w_consumed w) (w_contracts w).
Definition w_set_consumed (z : Z) (w : World) : World :=
  mkWorld (w_gas w) (w_neo w) (w_cache w) (w_notes w) z (w_contracts w).

(** *** Operations that do not call

    An error leaves the changes made before it. *)
Definition M (A : Type) : Type := World → res nerr A * World.

#[export] Instance M_ret : MRet M := λ A a w, (Ok a, w).
#[export] Instance M_bind : MBind M := λ A B f m w,
  match m w with (Ok a, w) => f a w | (Err e, w) => (Err e, w) | (Panic, w) => (Panic, w) end.

Definition panic {A} : M A := λ w, (Panic, w).
Definition fails {A} (e : nerr) : M A := λ w, (Err e, w).
Definition lift {A} (r : res nerr A) : M A := λ w, (r, w).
Definition gets {A} (f : World → A) : M A := λ w, (Ok (f w), w).
Definition modify (f : World → World) : M unit := λ w, (Ok tt, f w).

(** A library call whose errors the caller turns into a panic. *)
Definition must {E A} (r : res E A) : M A := match r with Ok a => mret a | _ => panic end.

(** The storage of a contract ([dao.Simple]). *)
Definition GetStorageItem (t : tokid) (key : bytes) : M (option bytes) := gets (λ w, w_store t w !! key).
Definition PutStorageItem (t : tokid) (key si : bytes) : M unit := modify (λ w, w_set_store t (<[key := si]> (w_store t w)) w).
Definition DeleteStorageItem (t : tokid) (key : bytes) : M unit := modify (λ w, w_set_store t (delete key (w_store t w)) w).
Definition PutBigInt (t : tokid) (key : bytes) (n : Z) : M unit := PutStorageItem t key (ToBytes n).

(** [bigint.FromBytes] of a stored item. *)
Definition stored_int (si : bytes) : Z := FromBytes_nonnil si.

Definition GetCache : M NeoCache := gets w_cache.
Definition SetCache (c : NeoCache) : M unit := modify (w_set_cache c).

Definition MaxNotificationCount : nat := 512.

Definition AddNotification (ic : Context) (hash : bytes) (name : string) (items : list tree) : M unit := λ w,
  if IsHardforkEnabled ic HFEchidna && (ic_Application ic && bool_decide (length (w_notes w) = MaxNotificationCount))
  then (Err "notification count shouldn't exceed 512"%string, w)
  else (Ok tt, w_set_notes (w_notes w ++ [mkNote hash name items]) w).

Definition ExecFeeFactorMultiplier : Z := 10000.

(** [AddDatoshi]; 256-bit words. *)
Definition AddDatoshi (ic : Context) (gas : Z) : M unit := λ w,
  let c := if ic_whitelisted ic then w_consumed w
           else wrap_u 256 (w_consumed w + wrap_u 256 (u64 gas * ExecFeeFactorMultiplier)) in
  if bool_decide (ic_gasLimit ic < 0) || bool_decide (c <= ic_gasLimit ic) then (Ok tt, w_set_consumed c w)
  else (Err "GAS limit exceeded"%string, w_set_consumed c w).

(** *** Operations that call *)

(** The call of [onNEP17Payment] by the token contract [py_caller]. *)
Record payment := mkPay { py_caller : bytes; py_to : bytes; py_from : option bytes; py_amount : Z; py_data : item }.

Inductive proc (R : Type) :=
  | Returned (r : R) (w : World)
  | Panicked
  | Calling (p : payment) (w : World) (k : World → proc R).
Arguments Returned {R} r w.
Arguments Panicked {R}.
Arguments Calling {R} p w k.

(** Continue after a step that does not call, whose errors are panics. *)
Definition do_ {A R} (m : M A) (k : A → World → proc R) : World → proc R := λ w,
  match m w with (Ok a, w) => k a w | _ => Panicked end.

(** What does not call, run to its end. *)
Definition run_sync {R} (p : World → proc R) : M R := λ w,
  match p w with Returned r w => (Ok r, w) | Panicked | Calling _ _ _ => (Panic, w) end.

(** ** NEP-17 ([native_nep17.go]) *)

Record gasDistribution := mkDist { gd_To : bytes; gd_Amount : Z }.

Record nep17TokenNative := mkToken {
  nt_id : tokid;
  nt_Hash : bytes;
  nt_incBalance : bytes → bytes → Z → option Z → M (option bytes * option gasDistribution);
  nt_balFromBytes : bytes → res nerr Z;
  nt_gasMinter : ∀ R, option (bytes → Z → bool → (World → proc R) → World → proc R);
}.

Definition toUint160 (h : Heap) (s : item) : res nerr bytes := match ToUint160 h s with Ok u => Ok u | _ => Panic end.
Definition toBigInt (s : item) : res nerr Z := match TryInteger s with Ok n => Ok n | _ => Panic end.
Definition toPublicKey (h : Heap) (s : item) : res nerr PublicKey :=
  match TryBytes h s with
  | Ok buf => match PublicKey_DecodeBytes P256 buf with Ok p => Ok p | _ => Panic end
  | _ => Panic
  end.
Definition arg (args : list item) (i : nat) : res nerr item := match args !! i with Some a => Ok a | None => Panic end.

Definition addrToStackItem (u : option bytes) : tree := match u with Some h => TBytes h | None => TNull end.

(** An integer for a notification. *)
Definition note_int (n : Z) : M tree := i ← must (NewBigInteger n); mret (TInt n).

Section token.
Context (ic : Context) (c : nep17TokenNative).

Definition getTotalSupply : M Z :=
  si ← GetStorageItem (nt_id c) totalSupplyKey; mret (stored_int (default [] si)).

Definition saveTotalSupply (supply : Z) : M unit := PutBigInt (nt_id c) totalSupplyKey supply.

Definition emitTransfer (from to : option bytes) (amount : Z) : M unit :=
  n ← note_int amount;
  AddNotification ic (nt_Hash c) "Transfer" [addrToStackItem from; addrToStackItem to; n].

(** What is stored for an account after [incBalance]. *)
Definition put_account (key : bytes) (si : option bytes) : M unit :=
  match si with Some b => PutStorageItem (nt_id c) key b | None => DeleteStorageItem (nt_id c) key end.

Definition updateAccBalance (acc : bytes) (amount : Z) (requiredBalance : option Z) : M (option gasDistribution) :=
  let key := makeAccountKey acc in
  si ← GetStorageItem (nt_id c) key;
  let inc (si : bytes) : M (option gasDistribution) := λ w,
    match nt_incBalance c acc si amount requiredBalance w with
    | (Ok (si', dist), w) => (_ ← put_account key si'; mret dist) w
    | (Err err, w) =>
        if bool_decide (amount <= 0) then (_ ← PutStorageItem (nt_id c) key si; fails err) w else (Err err, w)
    | (Panic, w) => (Panic, w)
    end in
  match si with
  | Some si => inc si
  | None =>
      if bool_decide (amount < 0) then fails "insufficient funds"%string else
      if match requiredBalance with Some b => bool_decide (0 < b) | None => false end then fails "insufficient funds"%string else
      if bool_decide (amount = 0) then mret None else inc []
  end.

(** The balance is changed, and the total supply by as much. *)
Definition addTokens (h : bytes) (amount : Z) : M (option gasDistribution) :=
  if bool_decide (amount = 0) then mret None else
  let key := makeAccountKey h in
  si ← GetStorageItem (nt_id c) key;
  '(si', dist) ← (λ w, match nt_incBalance c h (default [] si) amount None w with
                       | (Err _, w) => (Panic, w) | r => r end);
  _ ← put_account key si';
  supply ← getTotalSupply;
  _ ← saveTotalSupply (supply + amount);
  mret dist.

Definition balanceOfInternal (h : bytes) : M Z :=
  si ← GetStorageItem (nt_id c) (makeAccountKey h);
  match si with
  | None => mret 0
  | Some si => must (nt_balFromBytes c si)
  end.

Section calls.
Context {R : Type}.

(** The distributions one after the other, then the result. *)
Definition distribute (callOnPayment : bool) (dists : list (option gasDistribution)) (popArgsPushRes : item → World → proc R)
    : World → proc R :=
  if bool_decide (2 < length dists)%nat then λ _, Panicked else
  let mint (d : gasDistribution) (k : World → proc R) : World → proc R :=
    match nt_gasMinter c R with
    | Some m => m (gd_To d) (gd_Amount d) callOnPayment k
    | None => λ _, Panicked
    end in
  let dists := match dists with None :: ds => ds | _ => dists end in
  match dists with
  | Some d0 :: ds =>
      mint d0 (match ds with
               | Some d1 :: _ => mint d1 (popArgsPushRes (Bool true))
               | _ => popArgsPushRes (Bool true)
               end)
  | _ => popArgsPushRes (Bool true)
  end.

Definition postTransfer (from to : option bytes) (amount : Z) (data : item) (callOnPayment : bool)
    (popArgsPushRes : item → World → proc R) (dists : list (option gasDistribution)) : World → proc R :=
  do_ (emitTransfer from to amount) (λ _,
  let continuation := distribute callOnPayment dists popArgsPushRes in
  match to with
  | Some to =>
      if callOnPayment then λ w,
        match w_contracts w !! to with
        | None => continuation w
        | Some accepts =>
            match NewBigInteger amount with
            | Ok _ => if (accepts : bool) then Calling (mkPay (nt_Hash c) to from amount data) w continuation else Panicked
            | _ => Panicked
            end
        end
      else continuation
  | None => continuation
  end).

Definition transferDeferrable (h : Heap) (args : list item) (popArgsPushRes : item → World → proc R) : World → proc R :=
  do_ (lift (a0 ← arg args 0; toUint160 h a0)) (λ from,
  do_ (lift (a1 ← arg args 1; toUint160 h a1)) (λ to,
  do_ (lift (a2 ← arg args 2; toBigInt a2)) (λ amount,
  do_ (lift (arg args 3)) (λ data,
  if bool_decide (Z.sgn amount = -1) then λ _, Panicked else
  let caller := we_calling (ic_witness ic) in
  let rest : World → proc R :=
    let isEmpty := bool_decide (from = to) || bool_decide (amount = 0) in
    let inc := if isEmpty then 0 else - amount in
    λ w,
    match updateAccBalance from inc (Some amount) w with
    | (Panic, _) => Panicked
    | (Err _, w) => popArgsPushRes (Bool false) w
    | (Ok dist1, w) =>
        match (if isEmpty then mret None else updateAccBalance to amount None) w with
        | (Panic, _) => Panicked
        | (Err _, w) => popArgsPushRes (Bool false) w
        | (Ok dist2, w) => postTransfer (Some from) (Some to) amount data true popArgsPushRes [dist1; dist2] w
        end
    end in
  if bool_decide (caller = replicate Uint160Size x00) || negb (bool_decide (from = caller)) then
    match CheckHashedWitness (ic_witness ic) from with
    | Panic => λ _, Panicked
    | Err _ | Ok false => popArgsPushRes (Bool false)
    | Ok true => rest
    end
  else rest)))).

Definition MintDeferrable (h : bytes) (amount : Z) (callOnPayment : bool) (continuation : World → proc R) : World → proc R :=
  if bool_decide (amount = 0) then continuation else
  do_ (addTokens h amount) (λ _, postTransfer None (Some h) amount Null callOnPayment (λ _, continuation) []).
End calls.

(** The result of [postTransfer] is ignored; there is no call. *)
Definition Burn (h : bytes) (amount : Z) : M unit :=
  if bool_decide (amount = 0) then mret tt else
  dist ← addTokens h (- amount);
  run_sync (postTransfer (Some h) None amount Null false (λ _, Returned tt) [dist]).
End token.

(** ** GAS ([native_gas.go]) *)

Definition NEOTotalSupply : Z := 100000000.
Definition GASFactor : Z := NEOTotalSupply.

Definition gas_increaseBalance (si : bytes) (amount : Z) (checkBal : option Z) : M (option bytes * option gasDistribution) :=
  acc ← lift (NEP17BalanceFromBytes si);
  if bool_decide (amount = 0) then
    if match checkBal with Some b => bool_decide (acc < b) | None => false end then fails "insufficient funds"%string else mret (Some si, None)
  else if bool_decide (amount < 0) && bool_decide (Z.abs acc < Z.abs amount) then fails "insufficient funds"%string else
  let acc := acc + amount in
  mret (if bool_decide (acc ≠ 0) then Some (NEP17Balance_Bytes acc) else None, None).

(** The hash of the contract does not matter here; [gas_hash] is [nativehashes.GasToken]. *)
Definition GAS (gas_hash : bytes) : nep17TokenNative :=
  mkToken GasT gas_hash (λ _ si amount checkBal, gas_increaseBalance si amount checkBal) NEP17BalanceFromBytes (λ _, None).

Section gas.
Context `{Digest} (ic : Context) (gas_hash : bytes).

Definition gas_MintDeferrable {R} (to : bytes) (amount : Z) (callOnPayment : bool) (k : World → proc R) : World → proc R :=
  MintDeferrable ic (GAS gas_hash) to amount callOnPayment k.

Fixpoint burn_fees (txs : list Transaction) : M unit :=
  match txs with
  | [] => mret tt
  | tx :: txs =>
      sender ← must (Sender tx);
      _ ← Burn ic (GAS gas_hash) sender (i64 (t_SystemFee tx + t_NetworkFee tx));
      burn_fees txs
  end.

(** 64-bit sums. *)
Fixpoint net_fee (txs : list Transaction) (netFee : Z) : res nerr Z :=
  match txs with
  | [] => Ok netFee
  | tx :: txs =>
      let netFee := i64 (netFee + t_NetworkFee tx) in
      match GetAttributes tx NotaryAssistedT with
      | [] => net_fee txs netFee
      | mkAttr _ (Some (NotaryAssisted n)) :: _ => net_fee txs (i64 (netFee - i64 ((n + 1) * ic_AttributeFee ic NotaryAssistedT)))
      | _ :: _ => Panic
      end
  end.

Definition GAS_OnPersist (b : PersistingBlock) : M unit :=
  if bool_decide (pb_Transactions b = []) then mret tt else
  _ ← burn_fees (pb_Transactions b);
  validators ← gets (λ w, nc_nextValidators (w_cache w));
  primary ← lift (match validators !! Z.to_nat (pb_PrimaryIndex b) with Some p => Ok (GetScriptHash (ic_neo2 ic) p) | None => Panic end);
  netFee ← lift (net_fee (pb_Transactions b) 0);
  run_sync (gas_MintDeferrable primary netFee false (Returned tt)).

(** [getStandbyValidatorsHash] and [Initialize] in the genesis block. *)
Definition getStandbyValidatorsHash : res nerr bytes :=
  let n := GetNumOfCNs (ic_cfg ic) 0 in
  let committee := cf_StandbyCommittee (ic_cfg ic) in
  if bool_decide (n < 0) || bool_decide (Z.of_nat (length committee) < n) then Panic else
  s ← res_err "script"%string (CreateDefaultMultiSigRedeemScript (take (Z.to_nat n) committee));
  Ok (Hash160 s).

Definition GAS_Initialize (initialSupply : Z) : M unit :=
  totalSupply ← getTotalSupply (GAS gas_hash);
  if bool_decide (totalSupply ≠ 0) then fails "already initialized"%string else
  h ← lift getStandbyValidatorsHash;
  run_sync (gas_MintDeferrable h initialSupply false (Returned tt)).
End gas.
