(* ===== verification/NativeNeo.v ===== *)
(** * NativeNeo: NEO, its votes and its committee

    Models [pkg/core/native/native_neo.go]: balances that earn GAS, candidates
    and votes, the reward of voters, the committee of an epoch, and the cache of
    all this with its initialization from the storage.  The construction of the
    contract's manifest is not modelled, nor is the iterator of
    [getAllCandidates]. *)

From S2P Require Import Prelude Bigint BinIO Codec Hash Keys Witness Tx StackItem Serial Storage Script Emit NativeState Native.

#[local] Open Scope Z_scope.

Definition DefaultRegisterPrice : Z := 1000 * GASFactor.
Definition voterRewardFactor : Z := 100000000.
Definition effectiveVoterTurnout : Z := 5.
Definition neoHolderRewardRatio : Z := 10.
Definition committeeRewardRatio : Z := 10.
Definition voterRewardRatio : Z := 80.
Definition maxGetCandidatesRespLen : Z := 256.

(** [big.Int.Div]: the remainder is not negative. *)
Definition big_Div (x y : Z) : res nerr Z := if bool_decide (y = 0) then Panic else Ok (Z.sgn y * (x / Z.abs y)).

(** *** The cache *)

Definition zero_cache : NeoCache := mkCache [] 0 true [] None [] [] (replicate Uint160Size x00) (replicate Uint160Size x00) ∅.

Definition set_gasPerBlock (l : list (Z * Z)) (c : NeoCache) : NeoCache :=
  mkCache l (nc_registerPrice c) (nc_votesChanged c) (nc_nextValidators c) (nc_newEpochNextValidators c) (nc_committee c)
    (nc_newEpochCommittee c) (nc_committeeHash c) (nc_newEpochCommitteeHash c) (nc_gasPerVoteCache c).
Definition set_registerPrice (p : Z) (c : NeoCache) : NeoCache :=
  mkCache (nc_gasPerBlock c) p (nc_votesChanged c) (nc_nextValidators c) (nc_newEpochNextValidators c) (nc_committee c)
    (nc_newEpochCommittee c) (nc_committeeHash c) (nc_newEpochCommitteeHash c) (nc_gasPerVoteCache c).
Definition set_votesChanged (b : bool) (c : NeoCache) : NeoCache :=
  mkCache (nc_gasPerBlock c) (nc_registerPrice c) b (nc_nextValidators c) (nc_newEpochNextValidators c) (nc_committee c)
    (nc_newEpochCommittee c) (nc_committeeHash c) (nc_newEpochCommitteeHash c) (nc_gasPerVoteCache c).
Definition set_committee (vs : list PublicKey) (k : list keyWithVotes) (h : bytes) (c : NeoCache) : NeoCache :=
  mkCache (nc_gasPerBlock c) (nc_registerPrice c) (nc_votesChanged c) vs (nc_newEpochNextValidators c) k
    (nc_newEpochCommittee c) h (nc_newEpochCommitteeHash c) (nc_gasPerVoteCache c).
Definition set_newEpoch (vs : option (list PublicKey)) (k : list keyWithVotes) (h : bytes) (c : NeoCache) : NeoCache :=
  mkCache (nc_gasPerBlock c) (nc_registerPrice c) (nc_votesChanged c) (nc_nextValidators c) vs (nc_committee c)
    k (nc_committeeHash c) h (nc_gasPerVoteCache c).
Definition set_gasPerVote (m : gmap bytes Z) (c : NeoCache) : NeoCache :=
  mkCache (nc_gasPerBlock c) (nc_registerPrice c) (nc_votesChanged c) (nc_nextValidators c) (nc_newEpochNextValidators c)
    (nc_committee c) (nc_newEpochCommittee c) (nc_committeeHash c) (nc_newEpochCommitteeHash c) m.

(** A change of the cache that [GetRWCache] returns. *)
Definition on_cache (f : NeoCache → NeoCache) : M unit := modify (λ w, w_set_cache (f (w_cache w)) w).

(** [s[:n]] *)
Definition slice_to {A} (n : Z) (l : list A) : res nerr (list A) :=
  if bool_decide (n < 0) || bool_decide (Z.of_nat (length l) < n) then Panic else Ok (take (Z.to_nat n) l).

Section neo.
Context `{Digest} (ic : Context) (neo_hash gas_hash : bytes).

(** ** GAS per block and per vote *)

Definition GetGASPerBlock (index : Z) : M Z :=
  gr ← gets (λ w, nc_gasPerBlock (w_cache w));
  match list_find (λ r, r.1 <= index) (rev gr) with
  | Some (_, (_, g)) => mret g
  | None => panic
  end.

Definition getLatestGASPerVote (key : bytes) : M Z := λ w,
  (Ok match nc_gasPerVoteCache (w_cache w) !! drop 1 key with
      | Some g => g
      | None => match w_neo w !! key with None => 0 | Some item => stored_int item end
      end, w).

(** The records from the last one back; [end] moves with them. *)
Fixpoint holder_sum (gr : list (Z * Z)) (start end_ : Z) : Z :=
  match gr with
  | [] => 0
  | (Index, GASPerBlock) :: gr =>
      if bool_decide (end_ <= Index) then holder_sum gr start end_
      else if bool_decide (Index <= start) then (end_ - start) * GASPerBlock
      else (end_ - Index) * GASPerBlock + holder_sum gr start Index
  end.

Definition CalculateNEOHolderReward (value start end_ : Z) : M Z :=
  if bool_decide (value = 0) || bool_decide (end_ <= start) then mret 0
  else if bool_decide (value < 0) then fails "negative value"%string else
  gr ← gets (λ w, nc_gasPerBlock (w_cache w));
  lift (big_Div (value * holder_sum (rev gr) start end_ * neoHolderRewardRatio) (100 * NEOTotalSupply)).

Definition calculateBonus (acc : NEOBalance) (end_ : Z) : M Z :=
  r ← CalculateNEOHolderReward (nb_Balance acc) (nb_BalanceHeight acc) end_;
  match nb_VoteTo acc with
  | None => mret r
  | Some k =>
      reward ← getLatestGASPerVote (makeVoterKey (PublicKey_Bytes k));
      tmp ← lift (big_Div ((reward - nb_LastGasPerVote acc) * nb_Balance acc) voterRewardFactor);
      mret (tmp + r)
  end.

Definition CalculateBonus (acc : bytes) (end_ : Z) : M Z :=
  si ← GetStorageItem NeoT (makeAccountKey acc);
  match si with
  | None => mret 0
  | Some si =>
      st ← lift (NEOBalanceFromBytes si);
      if bool_decide (nb_Balance st = 0) then mret 0 else
      match ic_Block ic with
      | Some _ =>
          if bool_decide (end_ ≠ u32 (BlockHeight ic + 1)) then fails "can't calculate bonus"%string
          else calculateBonus st end_
      | None => fails "can't calculate bonus"%string
      end
  end.

Definition unclaimedGas (h : Heap) (args : list item) : M item :=
  u ← lift (a0 ← arg args 0; toUint160 h a0);
  end_ ← lift (a1 ← arg args 1; toBigInt a1);
  gen ← (λ w, match CalculateBonus u (u32 end_) w with (Err _, w) => (Panic, w) | r => r end);
  must (NewBigInteger gen).

(** [nil] in a block that has already been paid for; the account is changed
    as well. *)
Definition distributeGas (acc : NEOBalance) : M (option Z * NEOBalance) :=
  match ic_Block ic with
  | None => mret (None, acc)
  | Some b =>
      if bool_decide (pb_Index b = 0) || bool_decide (pb_Index b = nb_BalanceHeight acc) then mret (None, acc) else
      gen ← calculateBonus acc (pb_Index b);
      let acc := mkNB (nb_Balance acc) (pb_Index b) (nb_VoteTo acc) (nb_LastGasPerVote acc) in
      match nb_VoteTo acc with
      | None => mret (Some gen, acc)
      | Some k =>
          latest ← getLatestGASPerVote (makeVoterKey (PublicKey_Bytes k));
          mret (Some gen, mkNB (nb_Balance acc) (nb_BalanceHeight acc) (nb_VoteTo acc) latest)
      end
  end.

(** ** Candidates and votes *)

(** The key of the cache entry that is deleted has the prefix; the keys of
    the entries have none. *)
Definition dropCandidateIfZero (pub : PublicKey) (c : candidate) : M bool :=
  if cd_Registered c || bool_decide (cd_Votes c ≠ 0) then mret false else
  _ ← DeleteStorageItem NeoT (makeValidatorKey pub);
  let voterKey := makeVoterKey (PublicKey_Bytes pub) in
  _ ← DeleteStorageItem NeoT voterKey;
  _ ← on_cache (λ cache, set_gasPerVote (delete voterKey (nc_gasPerVoteCache cache)) cache);
  mret true.

Definition PutCandidate (key : bytes) (c : candidate) : M unit :=
  data ← lift (candidate_Bytes c); PutStorageItem NeoT key data.

Definition ModifyAccountVotes (acc : NEOBalance) (value : Z) (isNewVote : bool) : M unit :=
  _ ← on_cache (set_votesChanged true);
  match nb_VoteTo acc with
  | None => mret tt
  | Some k =>
      let key := makeValidatorKey k in
      si ← GetStorageItem NeoT key;
      match si with
      | None => fails "invalid validator"%string
      | Some si =>
          cd ← lift (candidate_FromBytes si);
          let cd := mkCand (cd_Registered cd) (cd_Votes cd + value) in
          ok ← (if isNewVote : bool then mret false else dropCandidateIfZero k cd);
          if (ok : bool) then mret tt else PutCandidate key cd
      end
  end.

Definition modifyVoterTurnout (amount : Z) : M unit :=
  si ← GetStorageItem NeoT votersCountKey;
  match si with
  | None => fails "voters count not found"%string
  | Some si => PutBigInt NeoT votersCountKey (stored_int si + amount)
  end.

Definition neo_increaseBalance (h si : bytes) (amount : Z) (checkBal : option Z) : M (option bytes * option gasDistribution) :=
  acc ← lift (NEOBalanceFromBytes si);
  if (bool_decide (amount < 0) && bool_decide (Z.abs (nb_Balance acc) < Z.abs amount))
     || (bool_decide (amount = 0) && match checkBal with Some b => bool_decide (nb_Balance acc < b) | None => false end)
  then fails "insufficient funds"%string else
  '(newGas, acc) ← distributeGas acc;
  let dist := match newGas with Some g => Some (mkDist h g) | None => None end in
  if bool_decide (amount = 0) then si ← lift (NEOBalance_Bytes acc); mret (Some si, dist) else
  _ ← ModifyAccountVotes acc amount false;
  _ ← match nb_VoteTo acc with Some _ => modifyVoterTurnout amount | None => mret tt end;
  let acc := mkNB (nb_Balance acc + amount) (nb_BalanceHeight acc) (nb_VoteTo acc) (nb_LastGasPerVote acc) in
  if bool_decide (nb_Balance acc ≠ 0) then si ← lift (NEOBalance_Bytes acc); mret (Some si, dist)
  else mret (None, dist).

Definition neo_balanceFromBytes (si : bytes) : res nerr Z := acc ← NEOBalanceFromBytes si; Ok (nb_Balance acc).

Definition NEO : nep17TokenNative :=
  mkToken NeoT neo_hash neo_increaseBalance neo_balanceFromBytes (λ R, Some (gas_MintDeferrable ic gas_hash)).

Definition BalanceOf (acc : bytes) : M (Z * Z) :=
  si ← GetStorageItem NeoT (makeAccountKey acc);
  match si with
  | None => mret (0, 0)
  | Some si => st ← must (NEOBalanceFromBytes si); mret (nb_Balance st, nb_BalanceHeight st)
  end.

Definition GetCommitteeAddress : M bytes := gets (λ w, nc_committeeHash (w_cache w)).

Definition CheckCommittee : M bool :=
  hash ← GetCommitteeAddress; must (CheckHashedWitness (ic_witness ic) hash).

Definition putGASRecord (index value : Z) : M unit := PutBigInt NeoT (gasRecordKey index) value.

Definition SetGASPerBlock (index gas : Z) : M unit :=
  if bool_decide (gas < 0) || bool_decide (10 * GASFactor < gas) then fails "invalid value for GASPerBlock"%string else
  ok ← CheckCommittee;
  if negb ok then fails "invalid committee signature"%string else
  _ ← putGASRecord index gas;
  on_cache (λ c, set_gasPerBlock (nc_gasPerBlock c ++ [(index, gas)]) c).

(** A handler that panics on an error. *)
Definition no_error {A} (m : M A) : M A := λ w, match m w with (Err _, w) => (Panic, w) | r => r end.

Definition setGASPerBlock (args : list item) : M item :=
  gas ← lift (a0 ← arg args 0; toBigInt a0);
  index ← lift (match ic_Block ic with Some b => Ok (u32 (pb_Index b + 1)) | None => Panic end);
  _ ← no_error (SetGASPerBlock index gas);
  mret Null.

Definition getRegisterPriceInternal : M Z := gets (λ w, nc_registerPrice (w_cache w)).

Definition setRegisterPrice (args : list item) : M item :=
  price ← lift (a0 ← arg args 0; toBigInt a0);
  if bool_decide (price <= 0) || negb (IsInt64 price) then panic else
  ok ← CheckCommittee;
  if negb ok then panic else
  _ ← PutBigInt NeoT registerPriceKey price;
  _ ← on_cache (set_registerPrice price);
  mret Null.

Definition note_candidate (pub : PublicKey) (c : candidate) : M unit :=
  votes ← note_int (cd_Votes c);
  no_error (AddNotification ic neo_hash "CandidateStateChanged" [TBytes (PublicKey_Bytes pub); TBool (cd_Registered c); votes]).

Definition RegisterCandidateInternal (pub : PublicKey) : M unit :=
  let key := makeValidatorKey pub in
  si ← GetStorageItem NeoT key;
  '(c, emitEvent) ← (match si with
                     | None => mret (mkCand true 0, true)
                     | Some si => c ← lift (candidate_FromBytes si); mret (mkCand true (cd_Votes c), negb (cd_Registered c))
                     end);
  _ ← PutCandidate key c;
  if (emitEvent : bool) then _ ← on_cache (set_votesChanged true); note_candidate pub c else mret tt.

Definition UnregisterCandidateInternal (pub : PublicKey) : M unit :=
  let key := makeValidatorKey pub in
  si ← GetStorageItem NeoT key;
  match si with
  | None => mret tt
  | Some si =>
      _ ← on_cache (set_votesChanged true);
      c ← lift (candidate_FromBytes si);
      let emitEvent := cd_Registered c in
      let c := mkCand false (cd_Votes c) in
      ok ← dropCandidateIfZero pub c;
      _ ← (if (ok : bool) then mret tt else PutCandidate key c);
      if emitEvent then note_candidate pub c else mret tt
  end.

(** [err == nil] *)
Definition succeeded (m : M unit) : M item := λ w,
  match m w with (Ok _, w) => (Ok (Bool true), w) | (Err _, w) => (Ok (Bool false), w) | (Panic, w) => (Panic, w) end.

Definition CheckKeyed (pub : PublicKey) : M bool := must (CheckKeyedWitness (ic_witness ic) (ic_neo2 ic) pub).

Definition registerCandidate (h : Heap) (args : list item) : M item :=
  pub ← lift (a0 ← arg args 0; toPublicKey h a0);
  ok ← (if IsHardforkEnabled ic HFEchidna then mret true else CheckKeyed pub);
  if negb ok then mret (Bool false) else
  price ← getRegisterPriceInternal;
  _ ← no_error (AddDatoshi ic price);
  succeeded (RegisterCandidateInternal pub).

Definition checkRegisterCandidate (pub : PublicKey) : M unit :=
  ok ← CheckKeyed pub;
  if negb ok then fails "not witnessed by the key owner"%string else RegisterCandidateInternal pub.

Definition unregisterCandidate (h : Heap) (args : list item) : M item :=
  pub ← lift (a0 ← arg args 0; toPublicKey h a0);
  ok ← CheckKeyed pub;
  if negb ok then mret (Bool false) else succeeded (UnregisterCandidateInternal pub).

Definition onNEP17Payment (h : Heap) (args : list item) : M item :=
  let caller := we_calling (ic_witness ic) in
  _ ← lift (a0 ← arg args 0; toUint160 h a0);
  amount ← lift (a1 ← arg args 1; toBigInt a1);
  pub ← lift (a2 ← arg args 2; toPublicKey h a2);
  regPrice ← getRegisterPriceInternal;
  if bool_decide (caller ≠ gas_hash) then panic else
  if negb (IsInt64 amount) || bool_decide (amount ≠ regPrice) then panic else
  _ ← no_error (checkRegisterCandidate pub);
  _ ← Burn ic (GAS gas_hash) neo_hash amount;
  mret Null.

Definition keyToStackItem (k : option PublicKey) : tree := match k with Some k => TBytes (PublicKey_Bytes k) | None => TNull end.

(** The candidate of a vote must be registered; it is put back as it is. *)
Definition check_validator (pub : option PublicKey) : M unit :=
  match pub with
  | None => mret tt
  | Some pub =>
      let valKey := makeValidatorKey pub in
      valSi ← GetStorageItem NeoT valKey;
      match valSi with
      | None => fails "unknown validator"%string
      | Some valSi =>
          cd ← lift (candidate_FromBytes valSi);
          _ ← PutStorageItem NeoT valKey valSi;
          if negb (cd_Registered cd) then fails "validator must be registered"%string else mret tt
      end
  end.

(** What [voteInternalUncheckedDeferrable] does before GAS is minted: the GAS
    that the account has earned.  Keys are compared as pointers, so a key is
    never the one that is stored. *)
Definition voteInternal (h : bytes) (pub : option PublicKey) : M (option Z) :=
  let key := makeAccountKey h in
  si ← GetStorageItem NeoT key;
  match si with
  | None => fails "invalid account"%string
  | Some si =>
      acc ← lift (NEOBalanceFromBytes si);
      _ ← PutStorageItem NeoT key si;
      _ ← check_validator pub;
      _ ← (match nb_VoteTo acc, pub with
           | None, Some _ => modifyVoterTurnout (nb_Balance acc)
           | Some _, None => modifyVoterTurnout (- nb_Balance acc)
           | _, _ => mret tt
           end);
      '(newGas, acc) ← distributeGas acc;
      _ ← ModifyAccountVotes acc (- nb_Balance acc) false;
      last ← match pub with
             | Some pub => getLatestGASPerVote (makeVoterKey (PublicKey_Bytes pub))
             | None => mret (nb_LastGasPerVote acc)
             end;
      let oldVote := nb_VoteTo acc in
      let acc := mkNB (nb_Balance acc) (nb_BalanceHeight acc) pub last in
      _ ← ModifyAccountVotes acc (nb_Balance acc) true;
      let acc := match pub with Some _ => acc | None => mkNB (nb_Balance acc) (nb_BalanceHeight acc) pub 0 end in
      data ← lift (NEOBalance_Bytes acc);
      _ ← PutStorageItem NeoT key data;
      amount ← note_int (nb_Balance acc);
      _ ← no_error (AddNotification ic neo_hash "Vote" [TBytes h; keyToStackItem oldVote; keyToStackItem pub; amount]);
      mret newGas
  end.

Section calls.
Context {R : Type}.

(** [returned] is what the caller does when no continuation is scheduled. *)
Definition voteInternalUncheckedDeferrable (h : bytes) (pub : option PublicKey) (continuation : World → proc R)
    (returned : res nerr unit → World → proc R) : World → proc R := λ w,
  match voteInternal h pub w with
  | (Panic, _) => Panicked
  | (Err e, w) => returned (Err e) w
  | (Ok None, w) => returned (Ok tt) w
  | (Ok (Some newGas), w) => gas_MintDeferrable ic gas_hash h newGas true continuation w
  end.

Definition RevokeVotesDeferrable (h : bytes) : (World → proc R) → (res nerr unit → World → proc R) → World → proc R :=
  voteInternalUncheckedDeferrable h None.

Definition voteDeferrable (h : Heap) (args : list item) (popArgsPushRes : item → World → proc R) : World → proc R :=
  do_ (lift (a0 ← arg args 0; toUint160 h a0)) (λ acc,
  do_ (lift (a1 ← arg args 1; match a1 with Null => Ok None | _ => p ← toPublicKey h a1; Ok (Some p) end)) (λ pub,
  match CheckHashedWitness (ic_witness ic) acc with
  | Panic => λ _, Panicked
  | Err _ | Ok false => popArgsPushRes (Bool false)
  | Ok true => voteInternalUncheckedDeferrable acc pub (popArgsPushRes (Bool true)) (λ r, popArgsPushRes (Bool (is_ok r)))
  end)).
End calls.

(** ** The committee *)

(** One step of the scan of the candidates. *)
Definition scan_candidate (sortByKey : bool) (maxNum : Z) (arr : res nerr (list keyWithVotes)) (kv : KeyValue)
    : res nerr (list keyWithVotes) * bool :=
  match arr with
  | Ok arr =>
      match candidate_FromBytes (kv_val kv) with
      | Ok c =>
          let k := drop 1 (kv_key kv) in
          let script := default [] (fst (Bytes (CheckSig k NewBufBinWriter))) in
          let arr := if cd_Registered c && negb (ic_IsBlocked ic (Hash160 script)) then arr ++ [mkKW k (cd_Votes c) None] else arr in
          (Ok arr, negb sortByKey || (bool_decide (0 < maxNum) && bool_decide (Z.of_nat (length arr) < maxNum)))
      | _ => (Panic, false)
      end
  | r => (r, false)
  end.

(** The ordinate of a key; the keys of candidates decode. *)
Definition kw_Y (k : keyWithVotes) : Z :=
  match PublicKey_DecodeBytes P256 (kw_Key k) with Ok (Point _ y) => y | _ => 0 end.

Definition cmp_candidates (a b : keyWithVotes) : comparison :=
  match Z.compare (kw_Votes b) (kw_Votes a) with
  | Eq => match bcompare (drop 1 (kw_Key a)) (drop 1 (kw_Key b)) with
          | Eq => Z.compare (kw_Y a) (kw_Y b)
          | c => c
          end
  | c => c
  end.

(** [slices.SortFunc]; the comparison separates distinct keys. *)
Definition sort_candidates : list keyWithVotes → list keyWithVotes := merge_sort (λ a b, cmp_candidates a b ≠ Gt).

Definition getCandidates (sortByKey : bool) (maxNum : Z) : M (list keyWithVotes) := λ w,
  let rng := mkRange [z2b prefixCandidate] [] false 0 in
  match (iter_cb (scan_candidate sortByKey maxNum) (seek_list rng (w_neo w)) (Ok [])).1 with
  | Ok arr => (Ok (if sortByKey then arr else sort_candidates arr), w)
  | r => (r, w)
  end.

Definition getCandidateVoteCall (h : Heap) (args : list item) : M item :=
  pub ← lift (a0 ← arg args 0; toPublicKey h a0);
  si ← GetStorageItem NeoT (makeValidatorKey pub);
  match si with
  | None => must (NewBigInteger (-1))
  | Some si =>
      c ← lift (candidate_FromBytes si);
      must (NewBigInteger (if cd_Registered c then cd_Votes c else -1))
  end.

(** The standby members with the votes of those that are candidates. *)
Definition standby_votes (cs : list keyWithVotes) (p : PublicKey) : keyWithVotes :=
  let key := PublicKey_Bytes p in
  mkKW key (match list_find (λ c, kw_Key c = key) cs with Some (_, c) => kw_Votes c | None => 0 end) (Some p).

Definition computeCommitteeMembers (blockHeight : Z) : M (list PublicKey * list keyWithVotes) :=
  si ← GetStorageItem NeoT votersCountKey;
  match si with
  | None => fails "voters count not found"%string
  | Some si =>
      totalSupply ← getTotalSupply NEO;
      voterTurnout ← lift (big_Div (stored_int si * effectiveVoterTurnout) totalSupply);
      let count := GetCommitteeSize (ic_cfg ic) (u32 (blockHeight + 1)) in
      sbVals ← lift (slice_to count (cf_StandbyCommittee (ic_cfg ic)));
      cs ← getCandidates false (-1);
      if bool_decide (voterTurnout <= 0) || bool_decide (Z.of_nat (length cs) < count) then
        mret (sbVals, map (standby_votes cs) sbVals)
      else
        let top := take (Z.to_nat count) cs in
        match mapM (λ k, match keyWithVotes_PublicKey k with Ok p => Some p | _ => None end) top with
        | Some pubs => mret (pubs, top)
        | None => fails "key"%string
        end
  end.

Definition updateCache (cvs : list keyWithVotes) (blockHeight : Z) : M unit :=
  c ← GetCache;
  committee ← lift (getCommitteeMembers cvs);
  script ← lift (res_err "script"%string (CreateMajorityMultiSigRedeemScript committee));
  nextVals ← lift (slice_to (GetNumOfCNs (ic_cfg ic) (u32 (blockHeight + 1))) committee);
  on_cache (set_committee (sort_keys nextVals) cvs (Hash160 script)).

Definition updateCachedNewEpochValues (blockHeight numOfCNs : Z) : M unit :=
  '(committee, cvs) ← computeCommitteeMembers blockHeight;
  _ ← on_cache (λ c, set_newEpoch (nc_newEpochNextValidators c) cvs (nc_newEpochCommitteeHash c) c);
  script ← lift (res_err "script"%string (CreateMajorityMultiSigRedeemScript committee));
  _ ← on_cache (λ c, set_newEpoch (nc_newEpochNextValidators c) cvs (Hash160 script) c);
  nextVals ← lift (slice_to numOfCNs committee);
  on_cache (λ c, set_newEpoch (Some (sort_keys nextVals)) cvs (nc_newEpochCommitteeHash c) c).

(** Whether the new committee differs, at the first member that does. *)
Fixpoint committee_differs (i : nat) (old new all_new : list keyWithVotes) (len : nat) : res nerr bool :=
  match old with
  | [] => Ok false
  | x :: old =>
      match new with
      | [] => Panic
      | y :: new =>
          if bool_decide (kw_Key y ≠ kw_Key x) || (bool_decide (i = 0%nat) && bool_decide (length all_new ≠ len)) then Ok true
          else committee_differs (S i) old new all_new len
      end
  end.

Definition NEO_OnPersist (b : PersistingBlock) : M unit :=
  update ← lift (ShouldUpdateCommitteeAt (ic_cfg ic) (pb_Index b));
  if negb update then mret tt else
  cache ← GetCache;
  differ ← (if IsHardforkEnabled ic HFCockatrice
            then lift (committee_differs 0 (nc_committee cache) (nc_newEpochCommittee cache) (nc_newEpochCommittee cache)
                         (length (nc_committee cache)))
            else mret false);
  _ ← on_cache (λ c, set_votesChanged false (set_committee (default [] (nc_newEpochNextValidators c)) (nc_newEpochCommittee c)
                       (nc_newEpochCommitteeHash c) c));
  data ← lift (keysWithVotes_Bytes (nc_newEpochCommittee cache));
  _ ← PutStorageItem NeoT prefixCommittee data;
  if (differ : bool) then
    AddNotification ic neo_hash "CommitteeChanged"
      [TNode KArr (map (λ k, TBytes (kw_Key k)) (nc_committee cache));
       TNode KArr (map (λ k, TBytes (kw_Key k)) (nc_newEpochCommittee cache))]
  else mret tt.

(** The reward of the voters of each member with votes. *)
Fixpoint reward_voters (i : nat) (cs : list keyWithVotes) (voterReward validatorsCount : Z) : M unit :=
  match cs with
  | [] => mret tt
  | x :: cs =>
      _ ← (if bool_decide (0 < kw_Votes x) then
             tmp ← lift (big_Div ((if bool_decide (Z.of_nat i < validatorsCount) then 2 else 1) * voterReward) (kw_Votes x));
             let key := makeVoterKey (kw_Key x) in
             r ← getLatestGASPerVote key;
             _ ← on_cache (λ c, set_gasPerVote (<[kw_Key x := tmp + r]> (nc_gasPerVoteCache c)) c);
             PutBigInt NeoT key (tmp + r)
           else mret tt);
      reward_voters (S i) cs voterReward validatorsCount
  end.

Definition NEO_PostPersist (b : PersistingBlock) : M unit :=
  gas ← GetGASPerBlock (u32 (BlockHeight ic + 1));
  cache ← GetCache;
  pubs ← lift (getCommitteeMembers (nc_committee cache));
  let committeeSize := GetCommitteeSize (ic_cfg ic) (pb_Index b) in
  _ ← (if bool_decide (committeeSize = 0) then panic else mret tt);
  member ← lift (match pubs !! Z.to_nat (Z.rem (pb_Index b) committeeSize) with
                 | Some p => Ok (GetScriptHash (ic_neo2 ic) p) | None => Panic end);
  reward ← lift (big_Div (gas * committeeRewardRatio) 100);
  _ ← run_sync (gas_MintDeferrable ic gas_hash member reward false (Returned tt));
  update ← lift (ShouldUpdateCommitteeAt (ic_cfg ic) (pb_Index b));
  _ ← (if (update : bool) then
         let validatorsCount := GetNumOfCNs (ic_cfg ic) (pb_Index b) in
         v ← lift (big_Div (voterRewardRatio * gas * i64 (voterRewardFactor * committeeSize)) (committeeSize + validatorsCount));
         voterReward ← lift (big_Div v 100);
         reward_voters 0 (nc_committee cache) voterReward validatorsCount
       else mret tt);
  next ← lift (ShouldUpdateCommitteeAt (ic_cfg ic) (u32 (pb_Index b + 1)));
  if negb next then mret tt else
  let h := pb_Index b in
  let numOfCNs := GetNumOfCNs (ic_cfg ic) (u32 (h + 1)) in
  c ← GetCache;
  if nc_votesChanged c || bool_decide (numOfCNs ≠ Z.of_nat (length (default [] (nc_newEpochNextValidators c))))
     || bool_decide (GetCommitteeSize (ic_cfg ic) (u32 (h + 1)) ≠ Z.of_nat (length (nc_newEpochCommittee c)))
  then updateCachedNewEpochValues h numOfCNs
  else mret tt.

(** *** Initialization *)

Definition gas_record (gr : list (Z * Z)) (kv : KeyValue) : list (Z * Z) :=
  gr ++ [(be_val (take 4 (drop 1 (kv_key kv))), stored_int (kv_val kv))].

(** The keys are those of [putGASRecord], of five bytes. *)
Definition getSortedGASRecordFromDAO (w : World) : list (Z * Z) :=
  fold_left gas_record (seek_list (mkRange [z2b prefixGASPerBlock] [] false 0) (w_neo w)) [].

(** The cache that a node makes when it starts, in place at the end. *)
Definition make_cache (blockHeight : Z) : M unit :=
  si ← GetStorageItem NeoT prefixCommittee;
  committee ← lift (keysWithVotes_DecodeBytes (default [] si));
  _ ← updateCache committee blockHeight;
  _ ← (λ w, on_cache (set_gasPerBlock (getSortedGASRecordFromDAO w)) w);
  price ← GetStorageItem NeoT registerPriceKey;
  price ← must (match price with Some si => Ok (i64 (stored_int si)) | None => Err "not initialized"%string end);
  _ ← on_cache (set_registerPrice price);
  update ← lift (ShouldUpdateCommitteeAt (ic_cfg ic) (u32 (blockHeight + 1)));
  if (update : bool) then updateCachedNewEpochValues blockHeight (GetNumOfCNs (ic_cfg ic) (u32 (blockHeight + 1)))
  else on_cache (λ c, set_newEpoch (Some (nc_nextValidators c)) (nc_committee c) (nc_committeeHash c) c).

Definition InitializeCache (blockHeight : Z) : M unit := λ w,
  match make_cache blockHeight (w_set_cache zero_cache w) with
  | (Ok u, w') => (Ok u, w')
  | (r, w') => (r, w_set_cache (w_cache w) w')
  end.

Definition NEO_Initialize (b : PersistingBlock) : M unit :=
  totalSupply ← getTotalSupply NEO;
  if bool_decide (totalSupply ≠ 0) then fails "already initialized"%string else
  _ ← SetCache zero_cache;
  committee0 ← lift (slice_to (GetCommitteeSize (ic_cfg ic) (pb_Index b)) (cf_StandbyCommittee (ic_cfg ic)));
  let cvs := toKeysWithVotes committee0 in
  _ ← updateCache cvs (BlockHeight ic);
  data ← lift (keysWithVotes_Bytes cvs);
  _ ← PutStorageItem NeoT prefixCommittee data;
  h ← lift (getStandbyValidatorsHash ic);
  _ ← run_sync (MintDeferrable ic NEO h NEOTotalSupply false (Returned tt));
  let value := 5 * GASFactor in
  _ ← putGASRecord 0 value;
  _ ← on_cache (set_gasPerBlock [(0, value)]);
  _ ← PutStorageItem NeoT votersCountKey [];
  _ ← PutBigInt NeoT registerPriceKey DefaultRegisterPrice;
  _ ← on_cache (set_registerPrice DefaultRegisterPrice);
  updateCachedNewEpochValues (BlockHeight ic) (GetNumOfCNs (ic_cfg ic) (u32 (pb_Index b + 1))).

(** [ComputeNextBlockValidators] *)
Definition ComputeNextBlockValidators : M (list PublicKey) :=
  v ← gets (λ w, nc_newEpochNextValidators (w_cache w));
  match v with Some vals => mret vals | None => panic end.

Definition GetNextBlockValidatorsInternal : M (list PublicKey) := gets (λ w, nc_nextValidators (w_cache w)).

Definition GetCommitteeMembers : M (list PublicKey) := λ w, lift (getCommitteeMembers (nc_committee (w_cache w))) w.

(** A witness of almost all members. *)
Definition CheckAlmostFullCommittee : M bool :=
  pubs ← GetCommitteeMembers;
  let n := Z.of_nat (length pubs) in
  let minCnt := Z.max 1 (n - Z.quot (n - 1) 2) in
  let maxCnt := n - 2 in
  script ← must (CreateMultiSigRedeemScript (Z.max minCnt maxCnt) pubs);
  must (CheckHashedWitness (ic_witness ic) (Hash160 script)).

Definition getGASPerBlock : M item := gas ← GetGASPerBlock (u32 (BlockHeight ic + 1)); must (NewBigInteger gas).

Definition getRegisterPrice : M item := price ← getRegisterPriceInternal; must (NewBigInteger price).

Definition getCommittee : M (list PublicKey) := pubs ← GetCommitteeMembers; mret (sort_keys pubs).
End neo.
