(* ===== verification/NativeInv.v ===== *)
(** * NativeInv: the ledger of the native tokens

    What the storage of the token contracts means: the accounts, candidates
    and counters behind the keys, the sums over them, and the invariant that
    ties the counters to the accounts.  The operations of [Native] and
    [NativeNeo] are shown to keep it. *)

From S2P Require Import Prelude Bigint BinIO Codec Hash Keys Witness Tx StackItem Serial Storage Script Emit NativeState Native NativeNeo.

#[local] Open Scope Z_scope.

(** ** Views of a storage *)

Section view.
Context {A : Type} (p : Z) (dec : bytes → option A).

(** What the keys with a prefix hold. *)
Definition view (st : gmap bytes bytes) : gmap bytes A :=
  map_imap (λ k b, if bool_decide (head k = Some (z2b p)) then dec b else None) st.

Lemma lookup_view st k : view st !! k = if bool_decide (head k = Some (z2b p)) then st !! k ≫= dec else None.
Proof. unfold view. rewrite map_lookup_imap. by destruct (st !! k), (bool_decide _). Qed.

Lemma view_insert st k b a : head k = Some (z2b p) → dec b = Some a → view (<[k := b]> st) = <[k := a]> (view st).
Proof.
  intros Hk Hb. apply map_eq. intros j. rewrite lookup_view. destruct (decide (j = k)) as [->|Hj].
  - by rewrite !lookup_insert_eq, bool_decide_eq_true_2.
  - rewrite !lookup_insert_ne by done. by rewrite lookup_view.
Qed.

Lemma view_delete st k : view (delete k st) = delete k (view st).
Proof.
  apply map_eq. intros j. rewrite lookup_view. destruct (decide (j = k)) as [->|Hj].
  - rewrite !lookup_delete_eq. by case_bool_decide.
  - rewrite !lookup_delete_ne by done. by rewrite lookup_view.
Qed.

Lemma view_insert_other st k b : head k ≠ Some (z2b p) → view (<[k := b]> st) = view st.
Proof.
  intros Hk. apply map_eq. intros j. rewrite !lookup_view. case_bool_decide; [|done].
  by rewrite lookup_insert_ne by congruence.
Qed.

Lemma view_delete_other st k : head k ≠ Some (z2b p) → view (delete k st) = view st.
Proof.
  intros Hk. apply map_eq. intros j. rewrite !lookup_view. case_bool_decide; [|done].
  by rewrite lookup_delete_ne by congruence.
Qed.
End view.

(** ** Sums over a map *)

Section msum.
Context {A : Type} (f : A → Z).

Definition msum (m : gmap bytes A) : Z := map_fold (λ _ a n, f a + n) 0 m.

Definition at_key (o : option A) : Z := match o with Some a => f a | None => 0 end.

Lemma msum_empty : msum ∅ = 0.
Proof. done. Qed.

Lemma msum_insert_new m k a : m !! k = None → msum (<[k := a]> m) = f a + msum m.
Proof. intros Hk. unfold msum. rewrite map_fold_insert_L; [done|intros; lia|done]. Qed.

Lemma msum_delete m k : msum (delete k m) = msum m - at_key (m !! k).
Proof.
  destruct (m !! k) as [a|] eqn:Hk; cbn; [|rewrite delete_id by done; lia].
  rewrite <- (insert_id m k a Hk) at 2. rewrite <- insert_delete_eq, msum_insert_new by apply lookup_delete_eq. lia.
Qed.

Lemma msum_insert m k a : msum (<[k := a]> m) = msum m - at_key (m !! k) + f a.
Proof. rewrite <- insert_delete_eq, msum_insert_new, msum_delete by apply lookup_delete_eq. lia. Qed.

Lemma msum_nonneg m : (∀ k a, m !! k = Some a → 0 <= f a) → 0 <= msum m.
Proof.
  induction m as [|k a m Hk IH] using map_ind; intros Hf; [done|]. rewrite msum_insert_new by done.
  pose proof (Hf k a (lookup_insert_eq _ _ _)). assert (0 <= msum m); [|lia].
  apply IH. intros j b Hj. apply (Hf j). rewrite lookup_insert_ne by congruence. done.
Qed.

(** An element is at most the sum. *)
Lemma msum_elem m k a : (∀ k a, m !! k = Some a → 0 <= f a) → m !! k = Some a → f a <= msum m.
Proof.
  intros Hf Hk. pose proof (msum_delete m k) as Hd. rewrite Hk in Hd. cbn in Hd.
  assert (0 <= msum (delete k m)); [|lia]. apply msum_nonneg. intros j b [_ Hj]%lookup_delete_Some. by eapply Hf.
Qed.
End msum.

Lemma msum_le {A} (f g : A → Z) m : (∀ k a, m !! k = Some a → f a <= g a) → msum f m <= msum g m.
Proof.
  induction m as [|k a m Hk IH] using map_ind; intros Hf; [done|]. rewrite !msum_insert_new by done.
  pose proof (Hf k a (lookup_insert_eq _ _ _)). assert (msum f m <= msum g m); [|lia].
  apply IH. intros j b Hj. apply (Hf j). rewrite lookup_insert_ne by congruence. done.
Qed.

Lemma msum_ext {A} (f g : A → Z) m : (∀ k a, m !! k = Some a → f a = g a) → msum f m = msum g m.
Proof.
  intros Hf. apply Z.le_antisymm; apply msum_le; intros k a Ha; rewrite (Hf k a Ha); lia.
Qed.

(** ** The ledger *)

Definition to_option {E A} (r : res E A) : option A := match r with Ok a => Some a | _ => None end.

Definition gas_accs (w : World) : gmap bytes Z := view prefixAccount (λ b, to_option (NEP17BalanceFromBytes b)) (w_gas w).
Definition accs (w : World) : gmap bytes NEOBalance := view prefixAccount (λ b, to_option (NEOBalanceFromBytes b)) (w_neo w).
Definition cands (w : World) : gmap bytes candidate := view prefixCandidate (λ b, to_option (candidate_FromBytes b)) (w_neo w).

Definition supply (t : tokid) (w : World) : Z := stored_int (default [] (w_store t w !! totalSupplyKey)).

Definition turnout (w : World) : option Z := stored_int <$> w_neo w !! votersCountKey.

(** The reward per vote of a candidate, as the contract reads it. *)
Definition latest (w : World) (k : PublicKey) : Z :=
  let key := makeVoterKey (PublicKey_Bytes k) in
  match nc_gasPerVoteCache (w_cache w) !! drop 1 key with
  | Some g => g
  | None => match w_neo w !! key with None => 0 | Some item => stored_int item end
  end.

Definition voted (s : NEOBalance) : option bytes := PublicKey_Bytes <$> nb_VoteTo s.
Definition votes_for (kb : bytes) (s : NEOBalance) : Z := if bool_decide (voted s = Some kb) then nb_Balance s else 0.
Definition voting (s : NEOBalance) : Z := match nb_VoteTo s with Some _ => nb_Balance s | None => 0 end.

Definition votes_of (w : World) (kb : bytes) : Z := at_key cd_Votes (cands w !! (z2b prefixCandidate :: kb)).

(** An account record with rewards up to [R] that earns no more than [w] has
    given. *)
Record account_ok (R : Z) (w : World) (s : NEOBalance) : Prop := {
  ac_balance : 0 <= nb_Balance s <= NEOTotalSupply;
  ac_height : 0 <= nb_BalanceHeight s < 2 ^ 32;
  ac_last : 0 <= nb_LastGasPerVote s <= R;
  ac_vote : ∀ k, nb_VoteTo s = Some k → key_stored k ∧ nb_LastGasPerVote s <= latest w k;
}.

Definition MaxReward : Z := 2 ^ 200.

(** The invariant of NEO with rewards up to [R]; [d] is in nobody's account. *)
Record neo_ok (R d : Z) (w : World) : Prop := {
  no_reward : 0 <= R <= MaxReward;
  no_acc : ∀ k b, w_neo w !! k = Some b → head k = Some (z2b prefixAccount) →
    ∃ s, NEOBalanceFromBytes b = Ok s ∧ 0 < nb_Balance s ∧ account_ok R w s;
  no_cand : ∀ k b, w_neo w !! k = Some b → head k = Some (z2b prefixCandidate) →
    ∃ c, candidate_FromBytes b = Ok c ∧ 0 <= cd_Votes c ∧ (cd_Registered c = true ∨ 0 < cd_Votes c);
  no_votes : ∀ kb, votes_of w kb = msum (votes_for kb) (accs w);
  no_turnout : turnout w = Some (msum voting (accs w));
  no_supply : supply NeoT w = msum nb_Balance (accs w) + d;
  no_total : 0 <= supply NeoT w <= NEOTotalSupply;
  no_cache : ∀ k v, nc_gasPerVoteCache (w_cache w) !! k = Some v → 0 <= v <= R;
  no_stored : ∀ k b, w_neo w !! k = Some b → head k = Some (z2b prefixVoterRewardPerCommittee) → 0 <= stored_int b <= R;
  no_records : Forall (λ r, 0 <= r.2 <= 10 * GASFactor) (nc_gasPerBlock (w_cache w));
}.

(** The bound on the balances that can be stored. *)
Definition MaxGas : Z := 2 ^ 2000.

Record gas_ok (B d : Z) (w : World) : Prop := {
  go_acc : ∀ k b, w_gas w !! k = Some b → head k = Some (z2b prefixAccount) → 
    ∃ n, NEP17BalanceFromBytes b = Ok n ∧ 0 < n ∧ b = NEP17Balance_Bytes n;
  go_supply : supply GasT w = msum id (gas_accs w) + d;
  go_total : supply GasT w <= B;
  go_bound : B <= MaxGas;
}.

Lemma length_ToBytes n : - MaxGas <= n <= MaxGas → (length (ToBytes n) <= 255)%nat.
Proof.
  intros Hn. destruct (ToPreallocatedBytes_spec n) as (Hl & _). rewrite Hl. apply enc_len_le. unfold fits.
  assert (MaxGas < 2 ^ (8 * Z.of_nat 255 - 1)) by (apply Z.ltb_lt; vm_compute; reflexivity). lia.
Qed.

Lemma stored_int_ToBytes n : stored_int (ToBytes n) = n.
Proof. unfold stored_int. by rewrite FromBytes_nonnil_spec, ToBytes_signed. Qed.

Lemma stored_int_nil : stored_int [] = 0.
Proof. done. Qed.

(** Prefixes of keys differ. *)
Lemma head_account h : head (makeAccountKey h) = Some (z2b prefixAccount).
Proof. done. Qed.

(** The map of balances after a change; an account without a balance is gone. *)
Definition set_balance (k : bytes) (n : Z) (m : gmap bytes Z) : gmap bytes Z :=
  if bool_decide (n = 0) then delete k m else <[k := n]> m.

Lemma msum_set_balance m k n : msum id (set_balance k n m) = msum id m - at_key id (m !! k) + n.
Proof.
  unfold set_balance. case_bool_decide as Hn; [rewrite msum_delete|rewrite msum_insert]; [subst n|]; unfold id; lia.
Qed.

(** *** Steps of the monad *)

Lemma run_bind {A B} (m : M A) (f : A → M B) w :
  (m ≫= f) w = match m w with (Ok a, w) => f a w | (Err e, w) => (Err e, w) | (Panic, w) => (Panic, w) end.
Proof. done. Qed.

Lemma run_bind_ok {A B} (m : M A) (f : A → M B) w a w' : m w = (Ok a, w') → (m ≫= f) w = f a w'.
Proof. intros E. by rewrite run_bind, E. Qed.

Lemma run_get {B} t key (f : option bytes → M B) w : (GetStorageItem t key ≫= f) w = f (w_store t w !! key) w.
Proof. done. Qed.

Lemma run_put {B} t key si (f : unit → M B) w :
  (PutStorageItem t key si ≫= f) w = f tt (w_set_store t (<[key := si]> (w_store t w)) w).
Proof. done. Qed.

Lemma run_lift {A B} (r : res nerr A) (f : A → M B) w :
  (lift r ≫= f) w = match r with Ok a => f a w | Err e => (Err e, w) | Panic => (Panic, w) end.
Proof. by destruct r. Qed.

(** ** GAS *)

Definition set_gas (st : gmap bytes bytes) (w : World) : World := w_set_store GasT st w.

Lemma set_gas_id w : set_gas (w_gas w) w = w.
Proof. by destruct w. Qed.

Definition gas_balance (w : World) (h : bytes) : Z := at_key id (gas_accs w !! makeAccountKey h).

Lemma gas_accs_lookup w h : gas_accs w !! makeAccountKey h = w_gas w !! makeAccountKey h ≫= λ b, to_option (NEP17BalanceFromBytes b).
Proof. unfold gas_accs. by rewrite lookup_view, bool_decide_eq_true_2. Qed.

Lemma gas_acc_pos B d w k n : gas_ok B d w → gas_accs w !! k = Some n → 0 < n.
Proof.
  intros Hok. unfold gas_accs. rewrite lookup_view. case_bool_decide as Hk; [|done].
  destruct (w_gas w !! k) as [b|] eqn:Hb; [|done]. destruct (go_acc _ _ _ Hok k b Hb Hk) as (m & Hm & Hpos & _). cbn. rewrite Hm.
  by intros [= <-].
Qed.

Lemma gas_balance_nonneg B d w h : gas_ok B d w → 0 <= gas_balance w h.
Proof.
  intros Hok. unfold gas_balance. destruct (gas_accs w !! makeAccountKey h) as [n|] eqn:Hn; [|done].
  pose proof (gas_acc_pos _ _ _ _ _ Hok Hn). cbn. unfold id. lia.
Qed.

Lemma gas_sum_nonneg B d w : gas_ok B d w → 0 <= msum id (gas_accs w).
Proof. intros Hok. apply msum_nonneg. intros k n Hn. pose proof (gas_acc_pos _ _ _ _ _ Hok Hn). unfold id. lia. Qed.

Lemma gas_balance_le B d w h : gas_ok B d w → gas_balance w h <= msum id (gas_accs w).
Proof.
  intros Hok. unfold gas_balance. destruct (gas_accs w !! makeAccountKey h) as [n|] eqn:Hn.
  - apply (msum_elem id _ _ _ (λ k a Ha, Z.lt_le_incl _ _ (gas_acc_pos _ _ _ k a Hok Ha)) Hn).
  - by apply (gas_sum_nonneg B d).
Qed.

(** A new balance in the store of GAS. *)
Definition put_gas (h : bytes) (n : Z) (st : gmap bytes bytes) : gmap bytes bytes :=
  if bool_decide (n = 0) then delete (makeAccountKey h) st else <[makeAccountKey h := NEP17Balance_Bytes n]> st.

Lemma put_gas_ok B d w h n :
  gas_ok B d w → 0 <= n → supply GasT w - d - gas_balance w h + n <= MaxGas →
  gas_ok B (d + gas_balance w h - n) (set_gas (put_gas h n (w_gas w)) w)
  ∧ gas_accs (set_gas (put_gas h n (w_gas w)) w) = set_balance (makeAccountKey h) n (gas_accs w).
Proof.
  intros Hok Hn Hb. pose proof (gas_balance_le _ _ _ h Hok) as Hle. pose proof (go_supply _ _ _ Hok) as Hsup.
  assert (n <> 0 → NEP17BalanceFromBytes (NEP17Balance_Bytes n) = Ok n) as Hrt.
  { intros _. apply NEP17_roundtrip, length_ToBytes. lia. }
  assert (gas_accs (set_gas (put_gas h n (w_gas w)) w) = set_balance (makeAccountKey h) n (gas_accs w)) as Hacc.
  { unfold put_gas, set_balance, gas_accs. cbn [w_gas set_gas w_set_store]. case_bool_decide as Hz; [apply view_delete|].
    apply view_insert; [done|]. by rewrite Hrt. }
  split; [|done]. assert (supply GasT (set_gas (put_gas h n (w_gas w)) w) = supply GasT w) as Hs.
  { unfold supply, put_gas. cbn. case_bool_decide; [by rewrite lookup_delete_ne|by rewrite lookup_insert_ne]. }
  split.
  - intros k b. unfold put_gas. cbn. case_bool_decide as Hz.
    + intros [_ Hk]%lookup_delete_Some. by apply (go_acc _ _ _ Hok).
    + intros [[<- <-]|[_ Hk]]%lookup_insert_Some; [|by apply (go_acc _ _ _ Hok)]. intros _. exists n. split; [by apply Hrt|]. split; [lia|done].
  - rewrite Hs, Hacc, msum_set_balance. fold (gas_balance w h). lia.
  - rewrite Hs. apply (go_total _ _ _ Hok).
  - apply (go_bound _ _ _ Hok).
Qed.

Lemma run_put_account c key si w :
  put_account c key si w = (Ok tt, w_set_store (nt_id c) (match si with Some b => <[key := b]> (w_store (nt_id c) w)
                                                     | None => delete key (w_store (nt_id c) w) end) w).
Proof. by destruct si. Qed.

(** Less than what is required. *)
Definition below (n : Z) (req : option Z) : bool := match req with Some b => bool_decide (n < b) | None => false end.

(** [incBalance] of GAS on what is stored for an account, or on nothing. *)
Lemma gas_inc_spec B d w h si amount req :
  gas_ok B d w → si = default [] (w_gas w !! makeAccountKey h) → (w_gas w !! makeAccountKey h = None → amount ≠ 0) →
  gas_increaseBalance si amount req w
  = if bool_decide (amount = 0) && below (gas_balance w h) req
       || bool_decide (gas_balance w h + amount < 0)
    then (Err "insufficient funds"%string, w)
    else (Ok (if bool_decide (amount = 0) then Some si else
              if bool_decide (gas_balance w h + amount = 0) then None else Some (NEP17Balance_Bytes (gas_balance w h + amount)), None), w).
Proof.
  intros Hok -> Hnew.
  assert (NEP17BalanceFromBytes (default [] (w_gas w !! makeAccountKey h)) = Ok (gas_balance w h)) as Hdec.
  { unfold gas_balance. rewrite gas_accs_lookup. destruct (w_gas w !! makeAccountKey h) as [b|] eqn:Hb; [|done].
    destruct (go_acc _ _ _ Hok _ _ Hb (head_account h)) as (m & Hm & _). cbn. by rewrite Hm. }
  pose proof (gas_balance_nonneg _ _ _ h Hok) as Hnn. unfold gas_increaseBalance. rewrite run_lift, Hdec.
  fold (below (gas_balance w h) req). set (n := gas_balance w h) in *.
  destruct (decide (amount = 0)) as [->|Ha].
  - rewrite (bool_decide_eq_true_2 (0 = 0)) by done. cbn [andb]. rewrite (bool_decide_eq_false_2 (n + 0 < 0)), orb_false_r by lia.
    by destruct (below n req).
  - rewrite (bool_decide_eq_false_2 (amount = 0)) by done. cbn [andb orb].
    destruct (decide (n + amount < 0)) as [Hs|Hs].
    + rewrite (bool_decide_eq_true_2 (n + amount < 0)), (bool_decide_eq_true_2 (amount < 0)), bool_decide_eq_true_2 by lia. done.
    + rewrite (bool_decide_eq_false_2 (n + amount < 0)) by done.
      assert (bool_decide (amount < 0) && bool_decide (Z.abs n < Z.abs amount) = false) as ->.
      { apply andb_false_iff. destruct (decide (amount < 0)); [right|left]; apply bool_decide_eq_false_2; lia. }
      unfold mret, M_ret. destruct (decide (n + amount = 0)) as [Hz|Hz].
      * by rewrite bool_decide_eq_false_2, bool_decide_eq_true_2 by (done || by intros []).
      * by rewrite bool_decide_eq_true_2, bool_decide_eq_false_2 by done.
Qed.

Section gas.
Context (ic : Context) (gh : bytes).

(** The debit or credit of an account: it fails only for lack of funds, and
    then changes nothing. *)
Lemma gas_update B d w h amount req :
  gas_ok B d w → supply GasT w - d + amount <= MaxGas → (req = None ∨ amount <= 0) →
  let n := gas_balance w h in
  let w' := set_gas (put_gas h (n + amount) (w_gas w)) w in
  updateAccBalance (GAS gh) h amount req w
  = if (bool_decide (amount = 0) && below n req) || bool_decide (n + amount < 0)
    then (Err "insufficient funds"%string, w)
    else (Ok None, w').
Proof.
  intros Hok Hb Hreq n w'. unfold updateAccBalance. cbn [nt_id GAS nt_incBalance].
  rewrite run_get. cbn [w_store].
  pose proof (gas_balance_nonneg _ _ _ h Hok) as Hnn. fold n in Hnn.
  assert (∀ si, si = default [] (w_gas w !! makeAccountKey h) → (w_gas w !! makeAccountKey h = None → amount ≠ 0) →
    w_gas w !! makeAccountKey h = None ∧ 0 < amount ∨ w_gas w !! makeAccountKey h = Some si →
    (λ w, match gas_increaseBalance si amount req w with
     | (Ok (si', dist), w) => (_ ← put_account (GAS gh) (makeAccountKey h) si'; mret dist) w
     | (Err err, w) => if bool_decide (amount <= 0) then (_ ← PutStorageItem GasT (makeAccountKey h) si; fails err) w else (Err err, w)
     | (Panic, w) => (Panic, w)
     end) w = if (bool_decide (amount = 0) && below n req) || bool_decide (n + amount < 0)
              then (Err "insufficient funds"%string, w) else (Ok None, w')) as Hinc.
  { intros si Hsi Hnew Hcase. rewrite (gas_inc_spec B d w h si amount req Hok Hsi Hnew). fold n.
    destruct (bool_decide (amount = 0) && below n req || bool_decide (n + amount < 0)) eqn:Hshort.
    - assert (amount <= 0) as Hneg by (apply orb_true_iff in Hshort as [[Hz%bool_decide_eq_true _]%andb_true_iff|Hz%bool_decide_eq_true]; lia).
      destruct Hcase as [[_ ?]|Hsome]; [lia|]. rewrite bool_decide_eq_true_2 by done. rewrite run_put. cbn [w_store w_set_store]. rewrite insert_id by done. by destruct w.
    - rewrite run_bind, run_put_account. cbn [GAS nt_id w_store]. unfold mret, M_ret. do 2 f_equal. unfold w', put_gas, set_gas. f_equal.
      destruct (decide (amount = 0)) as [->|Ha].
      + rewrite (bool_decide_eq_true_2 (0 = 0)) by done. destruct Hcase as [[_ ?]|Hsome]; [lia|]. rewrite insert_id by done.
        rewrite Z.add_0_r. destruct (go_acc _ _ _ Hok _ _ Hsome (head_account h)) as (m & Hm & Hpos & Hsi').
        assert (n = m) as -> by (unfold n, gas_balance; rewrite gas_accs_lookup, Hsome; cbn; by rewrite Hm).
        rewrite bool_decide_eq_false_2 by lia. by rewrite <- Hsi', insert_id.
      + rewrite (bool_decide_eq_false_2 (amount = 0)) by done. by destruct (bool_decide (n + amount = 0)). }
  destruct (w_gas w !! makeAccountKey h) as [si|] eqn:Hsi; [by apply Hinc; [|by intros|right]|].
  assert (n = 0) as Hn0 by (unfold n, gas_balance; by rewrite gas_accs_lookup, Hsi).
  destruct (decide (amount < 0)) as [Hneg|Hneg].
  { rewrite (bool_decide_eq_true_2 (amount < 0)), (bool_decide_eq_true_2 (n + amount < 0)) by lia. by rewrite orb_true_r. }
  rewrite (bool_decide_eq_false_2 (amount < 0)), (bool_decide_eq_false_2 (n + amount < 0)), orb_false_r in * by lia.
  fold (below 0 req). rewrite Hn0. destruct (decide (amount = 0)) as [Ha|Ha].
  - rewrite (bool_decide_eq_true_2 (amount = 0)) by done. cbn [andb]. destruct (below 0 req); [done|]. unfold mret, M_ret. do 2 f_equal.
    unfold w', put_gas. rewrite bool_decide_eq_true_2, delete_id by (done || lia). by rewrite set_gas_id.
  - rewrite (bool_decide_eq_false_2 (amount = 0)) by done. cbn [andb].
    destruct Hreq as [->|]; [|lia]. cbn [below]. rewrite (Hinc []); [|done..|left; split; [done|lia]].
    by rewrite (bool_decide_eq_false_2 (amount = 0)).
Qed.

(** GAS is made or destroyed. *)
Definition add_gas (h : bytes) (amount : Z) (w : World) : World :=
  set_gas (<[totalSupplyKey := ToBytes (supply GasT w + amount)]> (put_gas h (gas_balance w h + amount) (w_gas w))) w.

Lemma add_gas_ok B w h amount :
  gas_ok B 0 w → 0 <= gas_balance w h + amount → supply GasT w + amount <= MaxGas →
  gas_ok (Z.max (supply GasT w) (supply GasT w + amount)) 0 (add_gas h amount w)
  ∧ gas_accs (add_gas h amount w) = set_balance (makeAccountKey h) (gas_balance w h + amount) (gas_accs w)
  ∧ supply GasT (add_gas h amount w) = supply GasT w + amount.
Proof.
  intros Hok Hn Hs. destruct (put_gas_ok B 0 w h (gas_balance w h + amount) Hok Hn ltac:(lia)) as [[Ha Hsup _ _] Hacc].
  set (w1 := set_gas (put_gas h _ _) w) in *.
  assert (supply GasT (add_gas h amount w) = supply GasT w + amount) as Hs'.
  { unfold supply at 1. cbn. rewrite lookup_insert_eq. apply stored_int_ToBytes. }
  assert (gas_accs (add_gas h amount w) = gas_accs w1) as Hacc'.
  { unfold gas_accs. cbn. by apply view_insert_other. }
  assert (supply GasT w1 = supply GasT w) as Hs1.
  { unfold supply. cbn. unfold put_gas. by case_bool_decide; [rewrite lookup_delete_ne|rewrite lookup_insert_ne]. }
  rewrite Hacc', Hacc. split; [|by split].
  pose proof (go_total _ _ _ Hok). pose proof (go_bound _ _ _ Hok). split; [|rewrite Hacc'; lia|lia|lia].
  intros k b. cbn. intros [[<- <-]|[_ Hk]]%lookup_insert_Some; [done|]. by apply Ha.
Qed.

Lemma gas_addTokens B w h amount :
  gas_ok B 0 w → amount ≠ 0 → supply GasT w + amount <= MaxGas →
  addTokens (GAS gh) h amount w
  = if bool_decide (gas_balance w h + amount < 0) then (Panic, w) else (Ok None, add_gas h amount w).
Proof.
  intros Hok Ha Hs. unfold addTokens. rewrite (bool_decide_eq_false_2 (amount = 0)) by done. cbn [nt_id GAS nt_incBalance].
  rewrite run_get. cbn [w_store]. rewrite run_bind, (gas_inc_spec B 0 w h _ amount None Hok) by done. cbn [below].
  rewrite andb_false_r. cbn [orb]. rewrite (bool_decide_eq_false_2 (amount = 0)) by done. case_bool_decide as Hneg; [done|].
  rewrite run_bind, run_put_account. cbn [GAS nt_id w_store]. set (w1 := w_set_store GasT _ w).
  assert (w1 = set_gas (put_gas h (gas_balance w h + amount) (w_gas w)) w) as -> by (unfold w1, put_gas, set_gas; by case_bool_decide).
  unfold getTotalSupply. rewrite run_bind, run_get. cbn [GAS nt_id]. unfold mret, M_ret. rewrite run_bind.
  unfold saveTotalSupply, PutBigInt, PutStorageItem, modify, add_gas. cbn [nt_id GAS]. f_equal.
  cbn [w_store set_gas w_set_store w_gas w_neo w_cache w_notes w_consumed w_contracts]. do 4 f_equal.
  unfold supply. cbn [w_store]. unfold put_gas. by case_bool_decide; [rewrite lookup_delete_ne|rewrite lookup_insert_ne].
Qed.
End gas.

(** ** NEO: rewards *)

Lemma holder_sum_nonneg gr : Forall (λ r, 0 <= r.2 <= 10 * GASFactor) gr → ∀ start end_, start <= end_ → 0 <= holder_sum gr start end_.
Proof.
  induction 1 as [|[i g] gr [Hg _] _ IH]; intros s e Hse; cbn [holder_sum]; [done|]. cbn in Hg.
  case_bool_decide; [by apply IH|]. case_bool_decide; [apply Z.mul_nonneg_nonneg; lia|].
  pose proof (IH s i ltac:(lia)). assert (0 <= (e - i) * g) by (apply Z.mul_nonneg_nonneg; lia). lia.
Qed.

Lemma holder_sum_le gr : Forall (λ r, 0 <= r.2 <= 10 * GASFactor) gr →
  ∀ start end_, start <= end_ → holder_sum gr start end_ <= (end_ - start) * (10 * GASFactor).
Proof.
  induction 1 as [|[i g] gr [_ Hg] _ IH]; intros s e Hse; cbn [holder_sum]; [unfold GASFactor, NEOTotalSupply; lia|]. cbn in Hg.
  case_bool_decide; [by apply IH|]. case_bool_decide; [apply Z.mul_le_mono_nonneg_l; lia|].
  pose proof (IH s i ltac:(lia)). assert ((e - i) * g <= (e - i) * (10 * GASFactor)) by (apply Z.mul_le_mono_nonneg_l; lia). lia.
Qed.

(** The most that an account earns at once. *)
Definition MaxMint : Z := 2 ^ 255.
Definition earned (x : Z) : Prop := 0 <= x < MaxMint.

Lemma big_Div_nonneg x y : 0 <= x → 0 < y → ∃ z, big_Div x y = Ok z ∧ 0 <= z ∧ z = x / y.
Proof.
  intros Hx Hy. unfold big_Div. rewrite bool_decide_eq_false_2 by lia. rewrite Z.abs_eq, Z.sgn_pos by lia.
  exists (x / y). rewrite Z.mul_1_l. split; [done|]. split; [by apply Z.div_pos|done].
Qed.

(** The part of the invariant that the calculation of rewards needs. *)
Record rewards_ok (R : Z) (w : World) : Prop := {
  rw_reward : 0 <= R <= MaxReward;
  rw_cache : ∀ k v, nc_gasPerVoteCache (w_cache w) !! k = Some v → 0 <= v <= R;
  rw_stored : ∀ k b, w_neo w !! k = Some b → head k = Some (z2b prefixVoterRewardPerCommittee) → 0 <= stored_int b <= R;
  rw_records : Forall (λ r, 0 <= r.2 <= 10 * GASFactor) (nc_gasPerBlock (w_cache w));
}.

Lemma neo_rewards R d w : neo_ok R d w → rewards_ok R w.
Proof. by intros []. Qed.

Section neo.
Context `{Digest} (ic : Context) (nh gh : bytes).

(** The index of the block is a [uint32]. *)
Definition block_ok : Prop := ∀ b, ic_Block ic = Some b → 0 <= pb_Index b < 2 ^ 32.

Lemma holder_reward_ok R w value start end_ : rewards_ok R w → 0 <= value <= NEOTotalSupply → end_ - start <= 2 ^ 32 →
  ∃ r, CalculateNEOHolderReward value start end_ w = (Ok r, w) ∧ 0 <= r <= 2 ^ 64.
Proof.
  intros Hok Hv Hse'. unfold CalculateNEOHolderReward. destruct (_ || _) eqn:Hz; [by exists 0|].
  apply orb_false_iff in Hz as [_ Hse%bool_decide_eq_false].
  rewrite bool_decide_eq_false_2 by lia. rewrite run_bind. cbn [gets]. unfold lift.
  assert (0 <= holder_sum (rev (nc_gasPerBlock (w_cache w))) start end_) as Hs.
  { apply holder_sum_nonneg; [apply Forall_rev, (rw_records _ _ Hok)|lia]. }
  pose proof (holder_sum_le _ (Forall_rev (rw_records _ _ Hok)) start end_ ltac:(lia)) as Hs'.
  destruct (big_Div_nonneg (value * holder_sum (rev (nc_gasPerBlock (w_cache w))) start end_ * neoHolderRewardRatio)
    (100 * NEOTotalSupply)) as (z & -> & Hz & Hzv); [|done|exists z; split; [done|]; split; [done|]].
  2:{ rewrite Hzv. apply Z.div_le_upper_bound; [done|]. unfold neoHolderRewardRatio, GASFactor, NEOTotalSupply in *.
      assert (value * holder_sum (rev (nc_gasPerBlock (w_cache w))) start end_ <= 100000000 * ((end_ - start) * (10 * 100000000)))
        by (apply Z.mul_le_mono_nonneg; lia). lia. }
  unfold neoHolderRewardRatio. apply Z.mul_nonneg_nonneg; [|lia]. apply Z.mul_nonneg_nonneg; lia.
Qed.

Lemma run_latest {B} k (f : Z → M B) w : (getLatestGASPerVote (makeVoterKey (PublicKey_Bytes k)) ≫= f) w = f (latest w k) w.
Proof. done. Qed.

Lemma latest_bounds R w k : rewards_ok R w → 0 <= latest w k <= R.
Proof.
  intros Hok. unfold latest. destruct (nc_gasPerVoteCache (w_cache w) !! _) as [g|] eqn:Hg; [by apply (rw_cache _ _ Hok) in Hg|].
  destruct (w_neo w !! _) as [b|] eqn:Hb; [by apply (rw_stored _ _ Hok _ _ Hb)|]. pose proof (rw_reward _ _ Hok). lia.
Qed.

Lemma calculateBonus_ok R w s end_ : end_ < 2 ^ 32 → rewards_ok R w → account_ok R w s →
  ∃ r, calculateBonus s end_ w = (Ok r, w) ∧ earned r.
Proof.
  intros He Hok [Hb Hh Hl Hv]. unfold calculateBonus, earned. pose proof (rw_reward _ _ Hok) as HR. unfold MaxReward, MaxMint in *.
  destruct (holder_reward_ok R w (nb_Balance s) (nb_BalanceHeight s) end_ Hok Hb ltac:(lia)) as (r & Hr & Hnn).
  rewrite (run_bind_ok _ _ _ _ _ Hr). destruct (nb_VoteTo s) as [k|]; [|exists r; split; [done|lia]].
  destruct (Hv k eq_refl) as [_ Hle]. rewrite run_latest, run_lift.
  destruct (big_Div_nonneg ((latest w k - nb_LastGasPerVote s) * nb_Balance s) voterRewardFactor) as (z & -> & Hz & Hzv);
    [apply Z.mul_nonneg_nonneg; lia|done|]. exists (z + r). split; [done|].
  pose proof (latest_bounds R w k Hok). assert (z <= 2 ^ 200); [|lia]. rewrite Hzv. apply Z.div_le_upper_bound; [done|].
  unfold voterRewardFactor, NEOTotalSupply in *. rewrite (Z.mul_comm 100000000). apply Z.mul_le_mono_nonneg; lia.
Qed.

(** The record once its GAS has been handed out. *)
Definition touched (w : World) (s : NEOBalance) : NEOBalance :=
  match ic_Block ic with
  | None => s
  | Some b =>
      if bool_decide (pb_Index b = 0) || bool_decide (pb_Index b = nb_BalanceHeight s) then s
      else mkNB (nb_Balance s) (pb_Index b) (nb_VoteTo s)
             (match nb_VoteTo s with Some k => latest w k | None => nb_LastGasPerVote s end)
  end.

Lemma touched_same w s : nb_Balance (touched w s) = nb_Balance s ∧ nb_VoteTo (touched w s) = nb_VoteTo s.
Proof. unfold touched. destruct (ic_Block ic) as [b|]; [|done]. by destruct (_ || _). Qed.

Lemma touched_ok R w s : block_ok → rewards_ok R w → account_ok R w s → account_ok R w (touched w s).
Proof.
  intros Hblk Hok Hs. pose proof Hs as [Hb Hh Hl Hv]. unfold touched. destruct (ic_Block ic) as [b|] eqn:Hic; [|done].
  destruct (_ || _); [done|]. split; cbn; [done|by apply Hblk| |].
  - destruct (nb_VoteTo s) as [k|]; [by apply (latest_bounds R)|done].
  - intros k Hk. rewrite Hk. split; [by apply Hv|done].
Qed.

Lemma distributeGas_ok R w s : block_ok → rewards_ok R w → account_ok R w s →
  ∃ g, distributeGas ic s w = (Ok (g, touched w s), w) ∧ (∀ x, g = Some x → earned x).
Proof.
  intros Hblk Hok Hs. unfold distributeGas, touched. destruct (ic_Block ic) as [b|] eqn:Hic; [|by exists None].
  destruct (_ || _); [by exists None|]. destruct (calculateBonus_ok R w s (pb_Index b) (proj2 (Hblk b Hic)) Hok Hs) as (r & Hr & Hnn).
  rewrite (run_bind_ok _ _ _ _ _ Hr). exists (Some r). cbn [nb_VoteTo]. split; [|by intros x [= <-]].
  by destruct (nb_VoteTo s) as [k|]; [rewrite run_latest|].
Qed.
End neo.
