(* ===== verification/NativeVotes.v ===== *)
(** * NativeVotes: the votes of NEO follow its balances

    The operations of [NativeNeo] keep the invariant [neo_ok]: the votes of
    each candidate are the balances of the accounts that vote for it. *)

From S2P Require Import Prelude Bigint BinIO Codec Hash Keys Witness Tx StackItem Serial Storage Script Emit NativeState Native NativeNeo NativeInv.

#[local] Open Scope Z_scope.

Lemma view_ext {A} p (dec : bytes → option A) st st' :
  (∀ k, head k = Some (z2b p) → st' !! k = st !! k) → view p dec st' = view p dec st.
Proof. intros Hst. apply map_eq. intros k. rewrite !lookup_view. case_bool_decide; [by rewrite Hst|done]. Qed.

(** *** Keys *)

Lemma length_makeVoterKey kb : (length kb <= 33)%nat → length (makeVoterKey kb) = 34%nat.
Proof. intros Hl. unfold makeVoterKey. cbn [length]. rewrite length_app, length_take, length_replicate. lia. Qed.

Lemma makeVoterKey_inj a b : makeVoterKey (PublicKey_Bytes a) = makeVoterKey (PublicKey_Bytes b) → PublicKey_Bytes a = PublicKey_Bytes b.
Proof.
  assert (∀ x y, makeVoterKey (PublicKey_Bytes (Point x y)) = z2b prefixVoterRewardPerCommittee :: PublicKey_Bytes (Point x y)) as Hp.
  { intros x y. assert (length (PublicKey_Bytes (Point x y)) = 33%nat) as Hl by by (unfold PublicKey_Bytes; rewrite length_getBytes).
    unfold makeVoterKey. rewrite Hl, take_ge by lia. cbn [replicate Nat.sub]. by rewrite app_nil_r. }
  assert (∀ x y, z2b (2 + y mod 2) :: be_enc coordLen x ≠ x00 :: replicate 32 x00) as Hz.
  { intros x y E. pose proof (f_equal (λ l, b2z (hd x00 l)) E) as Hb. cbn [hd] in Hb.
    change (b2z x00) with 0 in Hb.
    pose proof (Z.mod_pos_bound y 2 ltac:(lia)). rewrite b2z_z2b_small in Hb by lia. lia. }
  destruct a as [|x y], b as [|x' y']; [done|..].
  - rewrite Hp. intros E%(f_equal (drop 1)). destruct (Hz x' y' (eq_sym E)).
  - rewrite Hp. intros E%(f_equal (drop 1)). destruct (Hz x y E).
  - rewrite !Hp. intros E%(f_equal (drop 1)). exact E.
Qed.

Definition cand_key (kb : bytes) : bytes := z2b prefixCandidate :: kb.

Definition cands_ok (w : World) : Prop := ∀ k b, w_neo w !! k = Some b → head k = Some (z2b prefixCandidate) →
  ∃ c, candidate_FromBytes b = Ok c ∧ 0 <= cd_Votes c ∧ (cd_Registered c = true ∨ 0 < cd_Votes c).

(** What a change of the votes for [kb] by [v] leaves. *)
Record cand_change (kb : bytes) (v : Z) (w w' : World) : Prop := {
  cc_key : ∀ k, head k ≠ Some (z2b prefixCandidate) → head k ≠ Some (z2b prefixVoterRewardPerCommittee) → w_neo w' !! k = w_neo w !! k;
  cc_votes : ∀ j, votes_of w' j = votes_of w j + if bool_decide (j = kb) then v else 0;
  cc_other : ∀ j, j ≠ kb → cands w' !! cand_key j = cands w !! cand_key j;
  cc_cand : cands_ok w';
  cc_stored : ∀ k b, head k = Some (z2b prefixVoterRewardPerCommittee) → w_neo w' !! k = Some b → w_neo w !! k = Some b;
  cc_latest : ∀ k, PublicKey_Bytes k ≠ kb ∨ is_Some (cands w' !! cand_key kb) → latest w' k = latest w k;
  cc_cache : ∀ k g, nc_gasPerVoteCache (w_cache w') !! k = Some g → nc_gasPerVoteCache (w_cache w) !! k = Some g;
  cc_records : nc_gasPerBlock (w_cache w') = nc_gasPerBlock (w_cache w);
  cc_rest : w_gas w' = w_gas w ∧ w_notes w' = w_notes w ∧ w_consumed w' = w_consumed w ∧ w_contracts w' = w_contracts w;
}.

Lemma cc_accs kb v w w' : cand_change kb v w w' → accs w' = accs w.
Proof. intros Hc. apply view_ext. intros k Hk. apply (cc_key _ _ _ _ Hc); by rewrite Hk. Qed.

Lemma cc_turnout kb v w w' : cand_change kb v w w' → turnout w' = turnout w.
Proof. intros Hc. unfold turnout. by rewrite (cc_key _ _ _ _ Hc). Qed.

Lemma cc_supply kb v w w' : cand_change kb v w w' → supply NeoT w' = supply NeoT w.
Proof. intros Hc. unfold supply. cbn [w_store]. by rewrite (cc_key _ _ _ _ Hc). Qed.

Definition set_neo (st : gmap bytes bytes) (w : World) : World := w_set_store NeoT st w.

Lemma cands_lookup w kb : cands w !! cand_key kb = w_neo w !! cand_key kb ≫= λ b, to_option (candidate_FromBytes b).
Proof. unfold cands. by rewrite lookup_view, bool_decide_eq_true_2. Qed.

(** A candidate is written. *)
Lemma put_cand_change w kb c c0 :
  cands_ok w → cands w !! cand_key kb = c0 → in256 (cd_Votes c) → 0 <= cd_Votes c → (cd_Registered c = true ∨ 0 < cd_Votes c) →
  ∃ b, candidate_Bytes c = Ok b ∧ let w' := set_neo (<[cand_key kb := b]> (w_neo w)) w in
    cand_change kb (cd_Votes c - at_key cd_Votes c0) w w' ∧ cands w' !! cand_key kb = Some c ∧ w_cache w' = w_cache w.
Proof.
  intros Hw Hc0 Hin Hnn Hreg. destruct (candidate_roundtrip c Hin) as (b & Hb & _ & Hrt). exists b. split; [done|]. intros w'.
  assert (cands w' = <[cand_key kb := c]> (cands w)) as Hcands by (apply view_insert; [done|by rewrite Hrt]).
  split; [|by rewrite Hcands, lookup_insert_eq].
  assert (∀ j, votes_of w' j = votes_of w j + (if bool_decide (j = kb) then cd_Votes c - at_key cd_Votes c0 else 0)) as Hv.
  { intros j. unfold votes_of. rewrite Hcands. fold (cand_key j). case_bool_decide as Hj.
    - subst j. rewrite lookup_insert_eq, Hc0. cbn [at_key]. lia.
    - rewrite lookup_insert_ne by by intros [= ->]. lia. }
  split; try done.
  - intros k H1 _. cbn. by rewrite lookup_insert_ne by (intros <-; by destruct H1).
  - intros j Hj. rewrite Hcands. by rewrite lookup_insert_ne by (intros E; injection E; congruence).
  - intros k b'. cbn. intros [[<- <-]|[_ Hk]]%lookup_insert_Some; [by exists c|by apply Hw].
  - intros k b' Hk. cbn. by rewrite lookup_insert_ne by (intros <-; done).
  - intros k _. unfold latest. cbn. by rewrite lookup_insert_ne by done.
Qed.

(** A candidate is dropped with the reward of its voters. *)
Lemma drop_cand_change w k c :
  cands_ok w → cands w !! cand_key (PublicKey_Bytes k) = Some c → ∀ c', cd_Registered c' = false → cd_Votes c' = 0 →
  ∃ w', dropCandidateIfZero k c' w = (Ok true, w') ∧ cand_change (PublicKey_Bytes k) (- cd_Votes c) w w'
    ∧ cands w' !! cand_key (PublicKey_Bytes k) = None.
Proof.
  intros Hw Hc c' Hr' Hv'. set (kb := PublicKey_Bytes k) in *. unfold dropCandidateIfZero. rewrite Hr', bool_decide_eq_false_2 by (by intros []).
  cbn [orb]. eexists. split; [done|]. set (w' := w_set_cache _ _).
  assert (cands w' = delete (cand_key kb) (cands w)) as Hcands.
  { unfold cands, w'. cbn. rewrite view_delete_other by done. apply view_delete. }
  assert (w_neo w' = delete (makeVoterKey kb) (delete (cand_key kb) (w_neo w))) as Hneo by done.
  split; [|by rewrite Hcands, lookup_delete_eq].
  assert (∀ j, votes_of w' j = votes_of w j + (if bool_decide (j = kb) then - cd_Votes c else 0)) as Hv.
  { intros j. unfold votes_of. rewrite Hcands. fold (cand_key j). case_bool_decide as Hj.
    - subst j. rewrite lookup_delete_eq, Hc. cbn [at_key]. lia.
    - rewrite lookup_delete_ne by by intros [= ->]. lia. }
  split; try done.
  - intros j H1 H2. rewrite Hneo. rewrite !lookup_delete_ne; [done|intros <-; by destruct H1|intros <-; by destruct H2].
  - intros j Hj. rewrite Hcands. by rewrite lookup_delete_ne by (intros E; injection E; congruence).
  - intros j b. rewrite Hneo. intros [_ [_ Hj]%lookup_delete_Some]%lookup_delete_Some. by apply Hw.
  - intros j b _. rewrite Hneo. by intros [_ [_ Hj]%lookup_delete_Some]%lookup_delete_Some.
  - intros j Hj. destruct Hj as [Hj|Hj].
    2:{ rewrite Hcands, lookup_delete_eq in Hj. by destruct Hj. }
    unfold latest. rewrite Hneo. cbn [w' w_cache w_set_cache set_gasPerVote nc_gasPerVoteCache].
    rewrite lookup_delete_ne.
    2:{ intros E. apply (f_equal length) in E. pose proof (PublicKey_Bytes_length j). pose proof (PublicKey_Bytes_length k).
        rewrite length_drop, !length_makeVoterKey in E by (unfold kb; lia). lia. }
    rewrite !lookup_delete_ne; [done|done|]. intros E. by apply makeVoterKey_inj in E.
  - intros j g. cbn. by intros [_ ?]%lookup_delete_Some.
Qed.

(** [votesChanged] does not matter here. *)
Definition noted (w : World) : World := w_set_cache (set_votesChanged true (w_cache w)) w.

Lemma cc_noted kb v w w' : cand_change kb v (noted w) w' → cand_change kb v w w'.
Proof. by intros []. Qed.

Lemma cc_noted_id w kb : cands_ok w → cand_change kb 0 w (noted w).
Proof.
  intros Hw. split; try done. intros j. destruct (bool_decide _); change (votes_of (noted w) j) with (votes_of w j); lia.
Qed.

Lemma drop_false k c w : cd_Registered c = true ∨ cd_Votes c ≠ 0 → dropCandidateIfZero k c w = (Ok false, w).
Proof. intros Hc. unfold dropCandidateIfZero. destruct Hc as [->|Hc]; [done|]. by rewrite (bool_decide_eq_true_2 _ Hc), orb_true_r. Qed.

Lemma modify_votes w s k c value isNew :
  cands_ok w → nb_VoteTo s = Some k → cands w !! cand_key (PublicKey_Bytes k) = Some c →
  0 <= cd_Votes c + value <= NEOTotalSupply → (isNew = true → cd_Registered c = true) →
  ∃ w', ModifyAccountVotes s value isNew w = (Ok tt, w') ∧ cand_change (PublicKey_Bytes k) value w w'
    ∧ (cd_Registered c = true → cands w' !! cand_key (PublicKey_Bytes k) = Some (mkCand true (cd_Votes c + value))).
Proof.
  intros Hw Hk Hc Hr Hnew. unfold ModifyAccountVotes. rewrite Hk. rewrite run_bind. cbn [on_cache modify]. fold (noted w).
  pose proof Hc as Hraw. rewrite cands_lookup in Hraw. destruct (w_neo w !! cand_key (PublicKey_Bytes k)) as [b|] eqn:Hb; [|done].
  cbn in Hraw. destruct (candidate_FromBytes b) as [c'| |] eqn:Hd; try done. injection Hraw as ->.
  rewrite run_get. change (w_store NeoT (noted w) !! makeValidatorKey k) with (w_neo w !! cand_key (PublicKey_Bytes k)).
  rewrite Hb, run_lift, Hd. set (c1 := mkCand (cd_Registered c) (cd_Votes c + value)).
  assert (in256 (cd_Votes c1)) as Hin by (unfold c1, in256, NEOTotalSupply in *; cbn; lia).
  destruct (decide (isNew = false ∧ cd_Registered c = false ∧ cd_Votes c + value = 0)) as [(-> & Hreg & Hz)|Hnd].
  - destruct (drop_cand_change (noted w) k c Hw Hc c1 Hreg Hz) as (w' & Hdrop & Hcc & _). exists w'.
    rewrite (run_bind_ok _ _ _ _ _ Hdrop). split; [done|]. split; [|by rewrite Hreg]. apply cc_noted. by replace value with (- cd_Votes c) by lia.
  - assert (cd_Registered c1 = true ∨ 0 < cd_Votes c1) as Hlive.
    { cbn. destruct (cd_Registered c) eqn:Hreg; [by left|right]. destruct isNew; [by specialize (Hnew eq_refl)|].
      destruct (decide (cd_Votes c + value = 0)); [by destruct Hnd|lia]. }
    destruct (put_cand_change (noted w) (PublicKey_Bytes k) c1 (Some c) Hw Hc Hin ltac:(cbn; lia) Hlive) as (b' & Hb' & Hcc & Hin' & _).
    assert ((if isNew then mret false else dropCandidateIfZero k c1) (noted w) = (Ok false, noted w)) as Hf.
    { destruct isNew; [done|]. apply drop_false. destruct Hlive; [by left|right; lia]. }
    eexists. rewrite (run_bind_ok _ _ _ _ _ Hf). unfold PutCandidate. rewrite run_lift, Hb'. split; [done|].
    split; [|intros Hreg; unfold c1 in Hin'; by rewrite Hreg in Hin']. apply cc_noted. cbn [at_key cd_Votes c1] in Hcc. replace value with (cd_Votes c + value - cd_Votes c) by lia. exact Hcc.
Qed.

Lemma modify_votes_none w s value isNew : nb_VoteTo s = None → ModifyAccountVotes s value isNew w = (Ok tt, noted w).
Proof. intros Hk. unfold ModifyAccountVotes. by rewrite Hk. Qed.

Lemma run_turnout w t amount : turnout w = Some t →
  modifyVoterTurnout amount w = (Ok tt, set_neo (<[votersCountKey := ToBytes (t + amount)]> (w_neo w)) w).
Proof.
  unfold turnout. intros Ht. unfold modifyVoterTurnout. rewrite run_get. cbn [w_store].
  destruct (w_neo w !! votersCountKey) as [b|]; [|done]. by injection Ht as <-.
Qed.

Lemma votes_of_some w kb : votes_of w kb ≠ 0 → is_Some (cands w !! cand_key kb).
Proof. unfold votes_of. fold (cand_key kb). by destruct (cands w !! cand_key kb). Qed.

(** *** The invariant after a change of one account *)

Lemma neo_cands_ok R d w : neo_ok R d w → cands_ok w.
Proof. intros Hok. exact (no_cand _ _ _ Hok). Qed.

Lemma accs_lookup w k : accs w !! k = if bool_decide (head k = Some (z2b prefixAccount)) then w_neo w !! k ≫= λ b, to_option (NEOBalanceFromBytes b) else None.
Proof. apply lookup_view. Qed.

Lemma accs_elem R d w k s : neo_ok R d w → accs w !! k = Some s → 0 < nb_Balance s ∧ account_ok R w s.
Proof.
  intros Hok. rewrite accs_lookup. case_bool_decide as Hk; [|done]. destruct (w_neo w !! k) as [b|] eqn:Hb; [|done]. cbn.
  destruct (no_acc _ _ _ Hok _ _ Hb Hk) as (s' & -> & Hpos & Hs). by intros [= <-].
Qed.

Lemma votes_for_nonneg R d w kb : neo_ok R d w → ∀ k s, accs w !! k = Some s → 0 <= votes_for kb s <= nb_Balance s.
Proof. intros Hok k s Hs. destruct (accs_elem _ _ _ _ _ Hok Hs). unfold votes_for. case_bool_decide; lia. Qed.

Lemma votes_for_elem R d w k s kb : neo_ok R d w → accs w !! k = Some s → votes_for kb s <= votes_of w kb.
Proof.
  intros Hok Hs. rewrite (no_votes _ _ _ Hok). apply (msum_elem _ _ k); [|done]. intros j a Ha.
  by apply (votes_for_nonneg _ _ _ kb Hok j).
Qed.

Lemma votes_of_le R d w kb : neo_ok R d w → 0 <= votes_of w kb <= msum nb_Balance (accs w).
Proof.
  intros Hok. rewrite (no_votes _ _ _ Hok). split.
  - apply msum_nonneg. intros j a Ha. by apply (votes_for_nonneg _ _ _ kb Hok j).
  - apply msum_le. intros j a Ha. by apply (votes_for_nonneg _ _ _ kb Hok j).
Qed.

Record account_change (R d : Z) (h : bytes) (b' : option bytes) (s' : option NEOBalance) (w w' : World) : Prop := {
  ch_key : ∀ k, head k = Some (z2b prefixAccount) → w_neo w' !! k = if bool_decide (k = makeAccountKey h) then b' else w_neo w !! k;
  ch_new : match b', s' with
           | Some b, Some s => NEOBalanceFromBytes b = Ok s ∧ 0 < nb_Balance s ∧ account_ok R w' s
           | None, None => True
           | _, _ => False
           end;
  ch_votes : ∀ j, votes_of w' j = votes_of w j - at_key (votes_for j) (accs w !! makeAccountKey h) + at_key (votes_for j) s';
  ch_turnout : turnout w' = Some (msum voting (accs w) - at_key voting (accs w !! makeAccountKey h) + at_key voting s');
  ch_supply : supply NeoT w' = supply NeoT w;
  ch_cand : cands_ok w';
  ch_stored : ∀ k b, head k = Some (z2b prefixVoterRewardPerCommittee) → w_neo w' !! k = Some b → w_neo w !! k = Some b;
  ch_cache : ∀ k g, nc_gasPerVoteCache (w_cache w') !! k = Some g → nc_gasPerVoteCache (w_cache w) !! k = Some g;
  ch_records : nc_gasPerBlock (w_cache w') = nc_gasPerBlock (w_cache w);
  ch_latest : ∀ k, votes_of w' (PublicKey_Bytes k) ≠ 0 → latest w' k = latest w k;
}.

Definition set_acc (k : bytes) (s' : option NEOBalance) (m : gmap bytes NEOBalance) : gmap bytes NEOBalance :=
  match s' with Some s => <[k := s]> m | None => delete k m end.

Lemma msum_set_acc f k s' m : msum f (set_acc k s' m) = msum f m - at_key f (m !! k) + at_key f s'.
Proof. destruct s'; cbn [set_acc at_key]; [by rewrite msum_insert|rewrite msum_delete; lia]. Qed.

Lemma change_accs R d h b' s' w w' : account_change R d h b' s' w w' → accs w' = set_acc (makeAccountKey h) s' (accs w).
Proof.
  intros Hc. apply map_eq. intros k. rewrite accs_lookup. destruct (decide (k = makeAccountKey h)) as [->|Hk].
  - rewrite bool_decide_eq_true_2, (ch_key _ _ _ _ _ _ _ Hc), bool_decide_eq_true_2 by done.
    pose proof (ch_new _ _ _ _ _ _ _ Hc) as Hn. destruct b' as [b|], s' as [s|]; try done; cbn.
    + destruct Hn as [-> _]. by rewrite lookup_insert_eq.
    + by rewrite lookup_delete_eq.
  - assert (set_acc (makeAccountKey h) s' (accs w) !! k = accs w !! k) as ->.
    { destruct s'; cbn; [by rewrite lookup_insert_ne|by rewrite lookup_delete_ne]. }
    rewrite accs_lookup. case_bool_decide; [|done]. by rewrite (ch_key _ _ _ _ _ _ _ Hc), bool_decide_eq_false_2.
Qed.

Lemma neo_change R d h b' s' w w' :
  neo_ok R d w → account_change R d h b' s' w w' →
  neo_ok R (d + at_key nb_Balance (accs w !! makeAccountKey h) - at_key nb_Balance s') w'.
Proof.
  intros Hok Hc. pose proof (change_accs _ _ _ _ _ _ _ Hc) as Hacc.
  assert (∀ kb, votes_of w' kb = msum (votes_for kb) (accs w')) as Hvotes.
  { intros kb. rewrite Hacc, msum_set_acc, (ch_votes _ _ _ _ _ _ _ Hc), (no_votes _ _ _ Hok). done. }
  split.
  - apply (no_reward _ _ _ Hok).
  - intros k b Hb Hk. rewrite (ch_key _ _ _ _ _ _ _ Hc k Hk) in Hb. case_bool_decide as Hkey.
    + pose proof (ch_new _ _ _ _ _ _ _ Hc) as Hn. rewrite Hb in Hn. destruct s' as [s|]; [|done]. by exists s.
    + destruct (no_acc _ _ _ Hok _ _ Hb Hk) as (s & Hs & Hpos & [H1 H2 H3 H4]). exists s. do 2 (split; [done|]). split; [done..|].
      intros vk Hvk. destruct (H4 vk Hvk) as [Hst Hle]. split; [done|].
      rewrite (ch_latest _ _ _ _ _ _ _ Hc); [done|]. rewrite Hvotes.
      assert (accs w' !! k = Some s) as Hin.
      { rewrite accs_lookup, bool_decide_eq_true_2, (ch_key _ _ _ _ _ _ _ Hc k Hk), bool_decide_eq_false_2, Hb by done. cbn. by rewrite Hs. }
      assert (votes_for (PublicKey_Bytes vk) s = nb_Balance s) as Hvf.
      { unfold votes_for, voted. rewrite Hvk. by rewrite bool_decide_eq_true_2. }
      assert (votes_for (PublicKey_Bytes vk) s <= msum (votes_for (PublicKey_Bytes vk)) (accs w')); [|lia].
      apply (msum_elem _ _ k); [|done]. intros j a Ha. rewrite Hacc in Ha. unfold votes_for. case_bool_decide; [|done].
      assert (0 < nb_Balance a); [|lia]. destruct s' as [s1|]; cbn in Ha.
      * apply lookup_insert_Some in Ha as [[<- <-]|[_ Ha]]; [|by apply (accs_elem R d w j)].
        pose proof (ch_new _ _ _ _ _ _ _ Hc) as Hn. destruct b'; [|done]. by destruct Hn as (_ & ? & _).
      * apply lookup_delete_Some in Ha as [_ Ha]. by apply (accs_elem R d w j).
  - exact (ch_cand _ _ _ _ _ _ _ Hc).
  - exact Hvotes.
  - rewrite (ch_turnout _ _ _ _ _ _ _ Hc), Hacc, msum_set_acc. done.
  - rewrite (ch_supply _ _ _ _ _ _ _ Hc), Hacc, msum_set_acc, (no_supply _ _ _ Hok). lia.
  - rewrite (ch_supply _ _ _ _ _ _ _ Hc). apply (no_total _ _ _ Hok).
  - intros k g Hg. apply (no_cache _ _ _ Hok k). by apply (ch_cache _ _ _ _ _ _ _ Hc).
  - intros k b Hb Hk. apply (no_stored _ _ _ Hok k); [|done]. by apply (ch_stored _ _ _ _ _ _ _ Hc).
  - rewrite (ch_records _ _ _ _ _ _ _ Hc). apply (no_records _ _ _ Hok).
Qed.

(** *** A change of a balance *)

Record same_rest (w w' : World) : Prop := {
  sr_gas : w_gas w' = w_gas w;
  sr_notes : w_notes w' = w_notes w;
  sr_consumed : w_consumed w' = w_consumed w;
  sr_contracts : w_contracts w' = w_contracts w;
}.

(** The votes change by [dv] and the turnout by [dt]; accounts do not. *)
Record moved (dv : bytes → Z) (dt : Z) (w w' : World) : Prop := {
  mv_key : ∀ k, head k = Some (z2b prefixAccount) → w_neo w' !! k = w_neo w !! k;
  mv_votes : ∀ j, votes_of w' j = votes_of w j + dv j;
  mv_turnout : ∀ t, turnout w = Some t → turnout w' = Some (t + dt);
  mv_supply : supply NeoT w' = supply NeoT w;
  mv_cand : cands_ok w';
  mv_stored : ∀ k b, head k = Some (z2b prefixVoterRewardPerCommittee) → w_neo w' !! k = Some b → w_neo w !! k = Some b;
  mv_cache : ∀ k g, nc_gasPerVoteCache (w_cache w') !! k = Some g → nc_gasPerVoteCache (w_cache w) !! k = Some g;
  mv_records : nc_gasPerBlock (w_cache w') = nc_gasPerBlock (w_cache w);
  mv_latest : ∀ k, votes_of w' (PublicKey_Bytes k) ≠ 0 → latest w' k = latest w k;
  mv_rest : same_rest w w';
}.

Lemma moved_none w : cands_ok w → moved (λ _, 0) 0 w w.
Proof. intros Hw. split; try done; [intros j; lia|intros t ->; f_equal; lia]. Qed.

Lemma moved_ext dv dv' dt dt' w w' : (∀ j, dv j = dv' j) → dt = dt' → moved dv dt w w' → moved dv' dt' w w'.
Proof. intros Hdv <- []. split; try done. intros j. by rewrite <- Hdv. Qed.

Lemma cc_moved kb v w w' : cand_change kb v w w' → moved (λ j, if bool_decide (j = kb) then v else 0) 0 w w'.
Proof.
  intros Hc. split.
  - intros k Hk. apply (cc_key _ _ _ _ Hc); by rewrite Hk.
  - exact (cc_votes _ _ _ _ Hc).
  - intros t Ht. rewrite (cc_turnout _ _ _ _ Hc), Ht. f_equal. lia.
  - by apply (cc_supply _ _ _ _ Hc).
  - exact (cc_cand _ _ _ _ Hc).
  - exact (cc_stored _ _ _ _ Hc).
  - exact (cc_cache _ _ _ _ Hc).
  - exact (cc_records _ _ _ _ Hc).
  - intros k Hk. apply (cc_latest _ _ _ _ Hc). destruct (decide (PublicKey_Bytes k = kb)) as [<-|]; [right; by apply votes_of_some|by left].
  - by destruct (cc_rest _ _ _ _ Hc) as (? & ? & ? & ?).
Qed.

Lemma noted_moved w : cands_ok w → moved (λ _, 0) 0 w (noted w).
Proof.
  intros Hw. split; try done; [intros j; change (votes_of (noted w) j) with (votes_of w j); lia|].
  intros t Ht. change (turnout (noted w)) with (turnout w). rewrite Ht. f_equal. lia.
Qed.

(** The turnout is written. *)
Lemma turnout_moved w t dt : cands_ok w → turnout w = Some t →
  moved (λ _, 0) dt w (set_neo (<[votersCountKey := ToBytes (t + dt)]> (w_neo w)) w).
Proof.
  intros Hw Ht. set (w' := set_neo _ w). assert (cands w' = cands w) as Hc by by apply view_insert_other.
  assert (∀ j, votes_of w' j = votes_of w j) as Hv by (intros j; unfold votes_of; by rewrite Hc).
  split; try done.
  - intros j Hj. cbn. by rewrite lookup_insert_ne by (intros <-; done).
  - intros j. rewrite Hv. lia.
  - rewrite Ht. intros ? [= <-]. unfold turnout. cbn. rewrite lookup_insert_eq. cbn. by rewrite stored_int_ToBytes.
  - unfold supply. cbn. by rewrite lookup_insert_ne.
  - intros j b. cbn. rewrite lookup_insert_Some. intros [[<- <-]|[_ Hb]]; [done|by apply Hw].
  - intros j b Hj. cbn. by rewrite lookup_insert_ne by (intros <-; done).
  - intros j _. unfold latest. cbn. by rewrite lookup_insert_ne.
Qed.

(** One after the other; a candidate with votes at the end must have some
    before, or the reward be kept otherwise. *)
Lemma moved_trans dv1 dt1 dv2 dt2 w w1 w2 :
  moved dv1 dt1 w w1 → moved dv2 dt2 w1 w2 →
  (∀ k, votes_of w2 (PublicKey_Bytes k) ≠ 0 → votes_of w1 (PublicKey_Bytes k) ≠ 0 ∨ latest w1 k = latest w k) →
  moved (λ j, dv1 j + dv2 j) (dt1 + dt2) w w2.
Proof.
  intros [K1 V1 T1 S1 C1 R1 H1 G1 L1 [? ? ? ?]] [K2 V2 T2 S2 C2 R2 H2 G2 L2 [? ? ? ?]] Hl. split.
  - intros k Hk. by rewrite K2, K1.
  - intros j. rewrite V2, V1. lia.
  - intros t Ht. rewrite (T2 (t + dt1)); [f_equal; lia|by apply T1].
  - congruence.
  - done.
  - intros k b Hk Hb. by apply R1, R2.
  - intros k g Hg. by apply H1, H2.
  - congruence.
  - intros k Hk. rewrite (L2 k Hk). destruct (Hl k Hk) as [Hn|Hn]; [by apply L1|done].
  - split; congruence.
Qed.

(** A record that is put in place after such a change. *)
Definition put_neo (h : bytes) (b : option bytes) (w : World) : World :=
  set_neo (match b with Some b => <[makeAccountKey h := b]> (w_neo w) | None => delete (makeAccountKey h) (w_neo w) end) w.

Lemma put_neo_lookup h b w k : w_neo (put_neo h b w) !! k = if bool_decide (k = makeAccountKey h) then b else w_neo w !! k.
Proof.
  unfold put_neo. cbn. case_bool_decide as Hk.
  - subst k. destruct b; [by rewrite lookup_insert_eq|by rewrite lookup_delete_eq].
  - destruct b; [by rewrite lookup_insert_ne|by rewrite lookup_delete_ne].
Qed.

Lemma put_change R d dv dt h b s' w w1 :
  neo_ok R d w → moved dv dt w w1 →
  (∀ j, dv j = at_key (votes_for j) s' - at_key (votes_for j) (accs w !! makeAccountKey h)) →
  dt = at_key voting s' - at_key voting (accs w !! makeAccountKey h) →
  match b, s' with
  | Some b, Some s => NEOBalanceFromBytes b = Ok s ∧ 0 < nb_Balance s ∧ account_ok R w s
  | None, None => True
  | _, _ => False
  end →
  account_change R d h b s' w (put_neo h b w1).
Proof.
  intros Hok [K V T S C St Ca Re L _] Hdv Hdt Hb. set (w' := put_neo h b w1).
  assert (cands w' = cands w1) as Hc by (unfold w', put_neo; destruct b; [by apply view_insert_other|by apply view_delete_other]).
  assert (∀ j, votes_of w' j = votes_of w1 j) as Hv by (intros j; unfold votes_of; by rewrite Hc).
  assert (∀ k, k ≠ makeAccountKey h → w_neo w' !! k = w_neo w1 !! k) as Hother.
  { intros k Hk. unfold w'. by rewrite put_neo_lookup, bool_decide_eq_false_2. }
  assert (∀ k, latest w' k = latest w1 k) as Hlat by (intros k; unfold latest; by rewrite Hother).
  assert (∀ j, votes_of w' j = votes_of w j - at_key (votes_for j) (accs w !! makeAccountKey h) + at_key (votes_for j) s') as Hvotes.
  { intros j. rewrite Hv, V, Hdv. lia. }
  split.
  - intros k Hk. unfold w'. rewrite put_neo_lookup. case_bool_decide; [done|by apply K].
  - destruct b as [b|], s' as [s|]; try done. destruct Hb as (Hd & Hpos & [H1 H2 H3 H4]). do 2 (split; [done|]). split; [done..|].
    intros k Hk. destruct (H4 k Hk) as [Hst Hle]. split; [done|]. rewrite Hlat, L; [done|]. rewrite <- Hv, Hvotes.
    cbn [at_key]. unfold votes_for at 2, voted. rewrite Hk, bool_decide_eq_true_2 by done.
    assert (at_key (votes_for (PublicKey_Bytes k)) (accs w !! makeAccountKey h) <= votes_of w (PublicKey_Bytes k)); [|lia].
    destruct (accs w !! makeAccountKey h) as [s0|] eqn:Hs0; cbn; [by eapply votes_for_elem|by eapply votes_of_le].
  - exact Hvotes.
  - transitivity (turnout w1); [unfold turnout; by rewrite Hother|]. rewrite (T _ (no_turnout _ _ _ Hok)), Hdt. f_equal. lia.
  - rewrite <- S. unfold supply. cbn [w_store]. by rewrite Hother.
  - intros k c Hk Hh. apply (C k c); [|done]. rewrite <- Hother; [done|by intros ->].
  - intros k c Hh Hk. apply St; [done|]. rewrite <- Hother; [done|by intros ->].
  - exact Ca.
  - exact Re.
  - intros k Hk. rewrite Hlat. apply L. by rewrite <- Hv.
Qed.

Section neo.
Context `{Digest} (ic : Context) (nh gh : bytes).

(** What is read of an account that may not be there. *)
Lemma stored_account R d w h : neo_ok R d w →
  let s := default zero_balance (accs w !! makeAccountKey h) in
  NEOBalanceFromBytes (default [] (w_neo w !! makeAccountKey h)) = Ok s ∧ account_ok R w s
  ∧ (w_neo w !! makeAccountKey h = None ↔ accs w !! makeAccountKey h = None)
  ∧ (∀ f, f zero_balance = 0 → at_key f (accs w !! makeAccountKey h) = f s).
Proof.
  intros Hok s. subst s. rewrite accs_lookup, bool_decide_eq_true_2 by done.
  destruct (w_neo w !! makeAccountKey h) as [b|] eqn:Hb; cbn.
  - destruct (no_acc _ _ _ Hok _ _ Hb (head_account h)) as (s & Hs & _ & Hacc). rewrite Hs. cbn. split; [done|]. split; [done|]. by split.
  - split; [done|]. split; [|done]. pose proof (no_reward _ _ _ Hok).
    by split; cbn; [unfold NEOTotalSupply; lia|lia|lia|].
Qed.

(** The votes for the candidate of an account and the turnout change with the
    balance of the account. *)
Lemma move_votes R d w h amount :
  neo_ok R d w →
  let s := default zero_balance (accs w !! makeAccountKey h) in
  0 <= nb_Balance s + amount → supply NeoT w - d + amount <= NEOTotalSupply →
  ∀ s1, nb_VoteTo s1 = nb_VoteTo s →
  ∃ w1, (_ ← ModifyAccountVotes s1 amount false;
         match nb_VoteTo s1 with Some _ => modifyVoterTurnout amount | None => mret tt end) w = (Ok tt, w1)
    ∧ moved (λ j, if bool_decide (voted s = Some j) then amount else 0) (match nb_VoteTo s with Some _ => amount | None => 0 end) w w1.
Proof.
  intros Hok s Hnn Hsup s1 Hs1. rewrite run_bind, Hs1. pose proof (neo_cands_ok _ _ _ Hok) as Hcands. unfold voted.
  destruct (nb_VoteTo s) as [k|] eqn:Hk.
  2:{ rewrite modify_votes_none by done. exists (noted w). split; [done|]. eapply moved_ext; [..|by apply noted_moved]; [|done].
      intros j. by rewrite bool_decide_eq_false_2. }
  assert (accs w !! makeAccountKey h = Some s) as Hs by (unfold s in *; by destruct (accs w !! makeAccountKey h)).
  destruct (accs_elem _ _ _ _ _ Hok Hs) as [Hpos _]. set (kb := PublicKey_Bytes k).
  assert (votes_for kb s = nb_Balance s) as Hvf by (unfold votes_for, voted; rewrite Hk; by rewrite bool_decide_eq_true_2).
  pose proof (votes_for_elem _ _ _ _ _ kb Hok Hs) as Hle. pose proof (votes_of_le _ _ _ kb Hok) as Hle2.
  rewrite (no_supply _ _ _ Hok) in Hsup. destruct (votes_of_some w kb) as [c Hc]; [lia|].
  assert (votes_of w kb = cd_Votes c) as Hvc by (unfold votes_of; fold (cand_key kb); by rewrite Hc).
  destruct (modify_votes w s1 k c amount false Hcands Hs1 Hc) as (w1 & -> & Hcc & _); [lia|done|].
  pose proof (cc_moved _ _ _ _ Hcc) as Hm. pose proof (mv_turnout _ _ _ _ Hm _ (no_turnout _ _ _ Hok)) as Ht.
  rewrite (run_turnout _ _ _ Ht). eexists. split; [done|].
  eapply moved_ext; [| |eapply moved_trans; [exact Hm|by apply turnout_moved; [apply (mv_cand _ _ _ _ Hm)|]|]].
  - intros j. cbn. fold kb. destruct (decide (j = kb)) as [->|Hj]; [rewrite !bool_decide_eq_true_2 by done; lia|].
    by rewrite !bool_decide_eq_false_2 by (done || by intros [=]).
  - lia.
  - intros j Hj. left. rewrite (mv_votes _ _ _ _ (turnout_moved _ _ _ (mv_cand _ _ _ _ Hm) Ht)) in Hj. lia.
Qed.

Definition neo_balance (w : World) (h : bytes) : Z := at_key nb_Balance (accs w !! makeAccountKey h).

(** The record of an account after a change of its balance. *)
Definition after (w : World) (s : NEOBalance) (amount : Z) : NEOBalance :=
  let t := touched ic w s in mkNB (nb_Balance s + amount) (nb_BalanceHeight t) (nb_VoteTo t) (nb_LastGasPerVote t).

Definition new_record (w : World) (s : NEOBalance) (amount : Z) : option NEOBalance :=
  if bool_decide (nb_Balance s + amount = 0) then None else Some (after w s amount).

Lemma after_vote w s amount : nb_VoteTo (after w s amount) = nb_VoteTo s.
Proof. by destruct (touched_same ic w s). Qed.

Lemma at_new_record w s amount f : (∀ t, nb_Balance t = 0 → f t = 0) → at_key f (new_record w s amount) = f (after w s amount).
Proof. intros Hf. unfold new_record. case_bool_decide as Hz; [|done]. cbn [at_key]. by rewrite Hf. Qed.

Lemma account_stored R w s : 0 <= R <= MaxReward → account_ok R w s → balance_ok s.
Proof.
  intros HR [Hb Hh Hl Hv]. unfold NEOTotalSupply, MaxReward in *. split; [unfold in256; lia|]. split; [lia|]. split; [unfold in256; lia|].
  destruct (nb_VoteTo s) as [k|]; [by apply Hv|done].
Qed.

(** The new record is in order. *)
Lemma after_ok R d w h amount : block_ok ic → neo_ok R d w →
  let s := default zero_balance (accs w !! makeAccountKey h) in
  0 <= nb_Balance s + amount → supply NeoT w - d + amount <= NEOTotalSupply → account_ok R w (after w s amount).
Proof.
  intros Hblk Hok s Hnn Hsup. destruct (stored_account R d w h Hok) as (_ & Hs & _ & Hat). fold s in Hs, Hat.
  assert (nb_Balance s <= msum nb_Balance (accs w)) as Hle.
  { rewrite <- Hat by done. assert (∀ k a, accs w !! k = Some a → 0 <= nb_Balance a) as Hpos.
    { intros k a Ha. destruct (accs_elem _ _ _ _ _ Hok Ha). lia. }
    destruct (accs w !! makeAccountKey h) as [s0|] eqn:Hs0; cbn; [by eapply msum_elem|by apply msum_nonneg]. }
  rewrite (no_supply _ _ _ Hok) in Hsup. destruct (touched_ok ic R w s Hblk (neo_rewards _ _ _ Hok) Hs) as [H1 H2 H3 H4].
  split; [cbn; lia|done..].
Qed.

(** A change of the votes and the turnout that belongs to a change of the
    balance, and the new record put in place. *)
Lemma put_new_record R d w w1 h amount bs :
  neo_ok R d w →
  let s := default zero_balance (accs w !! makeAccountKey h) in
  0 <= nb_Balance s + amount → account_ok R w (after w s amount) → NEOBalanceFromBytes bs = Ok (after w s amount) →
  moved (λ j, if bool_decide (voted s = Some j) then amount else 0) (match nb_VoteTo s with Some _ => amount | None => 0 end) w w1 →
  let b := if bool_decide (nb_Balance s + amount = 0) then None else Some bs in
  account_change R d h b (new_record w s amount) w (put_neo h b w1).
Proof.
  intros Hok s Hnn Hacc Hrt Hm b. destruct (stored_account R d w h Hok) as (_ & _ & _ & Hat). fold s in Hat.
  assert (∀ f, (∀ t, nb_Balance t = 0 → f t = 0) →
    at_key f (new_record w s amount) - at_key f (accs w !! makeAccountKey h) = f (after w s amount) - f s) as Hdiff.
  { intros f Hf. by rewrite at_new_record, Hat by (done || by apply Hf). }
  eapply put_change; [done|exact Hm| | |].
  - intros j. cbv beta. rewrite Hdiff by (intros t0 Ht0; unfold votes_for; by case_bool_decide).
    unfold votes_for, voted. rewrite after_vote. case_bool_decide; cbn; lia.
  - rewrite Hdiff by (intros t0 Ht0; unfold voting; by destruct (nb_VoteTo t0)). unfold voting. rewrite after_vote. cbn.
    destruct (nb_VoteTo s); lia.
  - unfold b, new_record. case_bool_decide; [done|]. split; [exact Hrt|]. split; [cbn; lia|exact Hacc].
Qed.

(** [incBalance] of NEO, with what it returns put in place. *)
Lemma neo_inc R d w h amount req :
  block_ok ic → neo_ok R d w → supply NeoT w - d + amount <= NEOTotalSupply →
  (accs w !! makeAccountKey h = None → amount ≠ 0) →
  let s := default zero_balance (accs w !! makeAccountKey h) in
  if (bool_decide (amount = 0) && below (nb_Balance s) req) || bool_decide (nb_Balance s + amount < 0)
  then neo_increaseBalance ic h (default [] (w_neo w !! makeAccountKey h)) amount req w = (Err "insufficient funds"%string, w)
  else ∃ b dist w1,
    neo_increaseBalance ic h (default [] (w_neo w !! makeAccountKey h)) amount req w = (Ok (b, dist), w1)
    ∧ account_change R d h b (new_record w s amount) w (put_neo h b w1) ∧ same_rest w w1
    ∧ (∀ x, dist = Some x → gd_To x = h ∧ earned (gd_Amount x)).
Proof.
  intros Hblk Hok Hsup Hnew s. destruct (stored_account R d w h Hok) as (Hdec & Hs & _ & Hat). fold s in Hdec, Hs, Hat.
  unfold neo_increaseBalance. rewrite run_lift, Hdec. fold (below (nb_Balance s) req).
  pose proof (ac_balance _ _ _ Hs) as Hrange. pose proof (no_reward _ _ _ Hok) as HR.
  assert ((bool_decide (amount < 0) && bool_decide (Z.abs (nb_Balance s) < Z.abs amount)) = bool_decide (nb_Balance s + amount < 0)) as ->.
  { destruct (decide (nb_Balance s + amount < 0)) as [Hn|Hn].
    - rewrite !bool_decide_eq_true_2 by lia. done.
    - rewrite (bool_decide_eq_false_2 (nb_Balance s + amount < 0)) by done. apply andb_false_iff.
      destruct (decide (amount < 0)); [right|left]; apply bool_decide_eq_false_2; lia. }
  rewrite (orb_comm (bool_decide (nb_Balance s + amount < 0))). destruct (_ || _) eqn:Hshort; [done|].
  apply orb_false_iff in Hshort as [_ Hnn%bool_decide_eq_false].
  destruct (distributeGas_ok ic R w s Hblk (neo_rewards _ _ _ Hok) Hs) as (g & Hg & Hgpos). rewrite (run_bind_ok _ _ _ _ _ Hg).
  destruct (touched_same ic w s) as [Htb Htv].
  destruct (move_votes R d w h amount Hok ltac:(fold s; lia) Hsup (touched ic w s) Htv) as (w1 & Hm & Hmoved). fold s in Hmoved.
  pose proof (after_ok R d w h amount Hblk Hok ltac:(fold s; lia) Hsup) as Hs'. fold s in Hs'.
  destruct (NEOBalance_roundtrip (after w s amount)) as (bs & Hbs & _ & Hrt); [by eapply account_stored|].
  assert (∀ x, match g with Some g => Some (mkDist h g) | None => None end = Some x → gd_To x = h ∧ earned (gd_Amount x)) as Hd.
  { intros x. destruct g as [g|]; [|done]. intros [= <-]. split; [done|by apply Hgpos]. }
  destruct (decide (amount = 0)) as [Ha|Ha].
  - rewrite (bool_decide_eq_true_2 (amount = 0)) by done.
    assert (after w s amount = touched ic w s) as Hst by (unfold after; rewrite Ha, Z.add_0_r, <- Htb; by destruct (touched ic w s)).
    rewrite <- Hst, run_lift, Hbs. eexists (Some bs), _, w. split; [done|]. split; [|by split].
    assert (nb_Balance s + amount ≠ 0) as Hne.
    { destruct (accs w !! makeAccountKey h) as [s0|] eqn:Hs0; [|by specialize (Hnew eq_refl)].
      destruct (accs_elem _ _ _ _ _ Hok Hs0). unfold s. cbn. lia. }
    pose proof (put_new_record R d w w h amount bs Hok ltac:(fold s; lia) Hs' Hrt) as Hput. fold s in Hput. rewrite (bool_decide_eq_false_2 _ Hne) in Hput.
    apply Hput. eapply moved_ext; [..|apply moved_none, (neo_cands_ok _ _ _ Hok)]; [intros j; rewrite Ha; by destruct (bool_decide (voted s = Some j))|].
    rewrite Ha. by destruct (nb_VoteTo s).
  - rewrite (bool_decide_eq_false_2 (amount = 0)) by done. rewrite run_bind in Hm. rewrite run_bind.
    destruct (ModifyAccountVotes (touched ic w s) amount false w) as [[[]| |] w2]; [|done..]. rewrite run_bind, Hm. cbn [nb_Balance].
    rewrite Htb. fold (after w s amount). eexists (if bool_decide (nb_Balance s + amount = 0) then None else Some bs), _, w1. split.
    { change (nb_Balance (after w s amount)) with (nb_Balance s + amount). destruct (decide (nb_Balance s + amount = 0)) as [Hz|Hz].
      - by rewrite (bool_decide_eq_false_2 (_ ≠ 0)), (bool_decide_eq_true_2 (_ = 0)) by (done || by intros E).
      - rewrite (bool_decide_eq_true_2 (_ ≠ 0)), (bool_decide_eq_false_2 (_ = 0)) by done. by rewrite run_lift, Hbs. }
    split; [by apply put_new_record; [..|fold s; lia|fold s| |fold s]|]. split; [exact (mv_rest _ _ _ _ Hmoved)|exact Hd].
Qed.

Lemma put_neo_rest h b w w1 : same_rest w w1 → same_rest w (put_neo h b w1).
Proof. by intros []. Qed.

(** The change of a balance, from the storage to the storage. *)
Lemma neo_update R d w h amount req :
  block_ok ic → neo_ok R d w → supply NeoT w - d + amount <= NEOTotalSupply → (req = None ∨ amount <= 0) →
  let s := default zero_balance (accs w !! makeAccountKey h) in
  if (bool_decide (amount = 0) && below (nb_Balance s) req) || bool_decide (nb_Balance s + amount < 0)
  then updateAccBalance (NEO ic nh gh) h amount req w = (Err "insufficient funds"%string, w)
  else ∃ dist w',
    updateAccBalance (NEO ic nh gh) h amount req w = (Ok dist, w')
    ∧ neo_ok R (d - amount) w' ∧ accs w' = set_acc (makeAccountKey h) (new_record w s amount) (accs w) ∧ same_rest w w'
    ∧ (∀ x, dist = Some x → gd_To x = h ∧ earned (gd_Amount x)).
Proof.
  intros Hblk Hok Hsup Hreq s. destruct (stored_account R d w h Hok) as (_ & _ & Hnone & Hat). fold s in Hat.
  assert ((accs w !! makeAccountKey h = None → amount ≠ 0) →
    (∀ inc, inc = (λ w, match neo_increaseBalance ic h (default [] (w_neo w !! makeAccountKey h)) amount req w with
      | (Ok (si', dist), w) => (_ ← put_account (NEO ic nh gh) (makeAccountKey h) si'; mret dist) w
      | (Err err, w1) => if bool_decide (amount <= 0) then (_ ← PutStorageItem NeoT (makeAccountKey h) (default [] (w_neo w !! makeAccountKey h)); fails err) w1 else (Err err, w1)
      | (Panic, w) => (Panic, w) end) →
    (w_neo w !! makeAccountKey h = None → 0 < amount) →
    if (bool_decide (amount = 0) && below (nb_Balance s) req) || bool_decide (nb_Balance s + amount < 0)
    then inc w = (Err "insufficient funds"%string, w)
    else ∃ dist w', inc w = (Ok dist, w')
      ∧ neo_ok R (d - amount) w' ∧ accs w' = set_acc (makeAccountKey h) (new_record w s amount) (accs w) ∧ same_rest w w'
      ∧ (∀ x, dist = Some x → gd_To x = h ∧ earned (gd_Amount x)))) as Hinc.
  { intros Hnew inc -> Hpos. pose proof (neo_inc R d w h amount req Hblk Hok Hsup Hnew) as Hi. cbn zeta in Hi. fold s in Hi.
    pose proof (stored_account R d w h Hok) as (_ & Hs & _ & _). fold s in Hs. pose proof (ac_balance _ _ _ Hs).
    destruct (_ || _) eqn:Hshort.
    - rewrite Hi. assert (amount <= 0) as Hneg by (apply orb_true_iff in Hshort as [[Hz%bool_decide_eq_true _]%andb_true_iff|Hz%bool_decide_eq_true]; lia).
      rewrite bool_decide_eq_true_2, run_put by done. cbn [w_store]. destruct (w_neo w !! makeAccountKey h) as [b|] eqn:Hb; [|specialize (Hpos eq_refl); lia].
      cbn [default]. rewrite insert_id by done. by destruct w.
    - destruct Hi as (b & dist & w1 & -> & Hch & Hrest & Hd). exists dist, (put_neo h b w1). split; [|split; [|split; [|split]]].
      + rewrite run_bind, run_put_account. by destruct b.
      + replace (d - amount) with (d + at_key nb_Balance (accs w !! makeAccountKey h) - at_key nb_Balance (new_record w s amount)).
        * by eapply neo_change.
        * rewrite at_new_record, Hat by done. cbn. lia.
      + by eapply change_accs.
      + by apply put_neo_rest.
      + exact Hd. }
  unfold updateAccBalance. cbn [nt_id NEO nt_incBalance]. rewrite run_get. cbn [w_store].
  destruct (w_neo w !! makeAccountKey h) as [si|] eqn:Hsi.
  - specialize (Hinc ltac:(intros Hn; by apply Hnone in Hn) _ eq_refl ltac:(done)). cbn beta in Hinc. rewrite Hsi in Hinc. exact Hinc.
  - assert (accs w !! makeAccountKey h = None) as Hn by by apply Hnone. assert (s = zero_balance) as Hs0 by (unfold s; by rewrite Hn).
    clear Hat. destruct (decide (amount < 0)) as [Hneg|Hneg].
    { rewrite (bool_decide_eq_true_2 (amount < 0)) by done. rewrite Hs0. cbn [nb_Balance zero_balance].
      rewrite (bool_decide_eq_true_2 (0 + amount < 0)) by lia. by rewrite orb_true_r. }
    rewrite (bool_decide_eq_false_2 (amount < 0)) by done. fold (below 0 req).
    destruct (decide (amount = 0)) as [Ha|Ha].
    + rewrite Hs0, Ha. cbn [nb_Balance zero_balance]. rewrite !(bool_decide_eq_true_2 (0 = 0)), (bool_decide_eq_false_2 (0 + 0 < 0)) by lia.
      cbn [andb]. rewrite orb_false_r. destruct (below 0 req); [done|]. exists None, w. split; [done|]. rewrite Z.sub_0_r. split; [done|].
      assert (new_record w zero_balance 0 = None) as -> by (unfold new_record; by rewrite bool_decide_eq_true_2). cbn [set_acc]. by rewrite delete_id.
    + destruct Hreq as [->|]; [|lia]. cbn [below]. rewrite (bool_decide_eq_false_2 (amount = 0)) by done.
      specialize (Hinc ltac:(done) _ eq_refl ltac:(lia)). cbn beta in Hinc. rewrite Hsi in Hinc. cbn [default below] in Hinc.
      rewrite andb_false_r in Hinc. exact Hinc.
Qed.

(** *** A vote *)

Lemma moved_rewards R dv dt w w' : moved dv dt w w' → rewards_ok R w → rewards_ok R w'.
Proof.
  intros Hm [H1 H2 H3 H4]. split; [done| | |by rewrite (mv_records _ _ _ _ Hm)].
  - intros k v Hv. apply (H2 k). by apply (mv_cache _ _ _ _ Hm).
  - intros k b Hb Hk. apply (H3 k b); [|done]. by apply (mv_stored _ _ _ _ Hm).
Qed.

Lemma account_latest R w w' s : (∀ k, latest w' k = latest w k) → account_ok R w s → account_ok R w' s.
Proof. intros Hl [H1 H2 H3 H4]. split; [done..|]. intros k Hk. by rewrite Hl; apply H4. Qed.

(** The votes of the others and the balance of an account together. *)
Lemma others_le R d w k s kb : neo_ok R d w → accs w !! k = Some s →
  votes_of w kb - votes_for kb s + nb_Balance s <= msum nb_Balance (accs w).
Proof.
  intros Hok Hs. rewrite (no_votes _ _ _ Hok). pose proof (msum_delete (votes_for kb) (accs w) k) as H1.
  pose proof (msum_delete nb_Balance (accs w) k) as H2. rewrite Hs in H1, H2. cbn in H1, H2.
  assert (msum (votes_for kb) (delete k (accs w)) <= msum nb_Balance (delete k (accs w))); [|lia].
  apply msum_le. intros j a [_ Ha]%lookup_delete_Some. by apply (votes_for_nonneg _ _ _ kb Hok j).
Qed.

Definition candidate_at (w : World) (kb : bytes) (v : Z) : Prop := cands w !! cand_key kb = Some (mkCand true v).

(** The votes of an account are taken from the candidate that has them; a
    registered candidate stays, and what it gives for a vote. *)
Lemma take_votes w s1 :
  cands_ok w →
  (∀ k, nb_VoteTo s1 = Some k → 0 < nb_Balance s1 <= votes_of w (PublicKey_Bytes k) ∧ votes_of w (PublicKey_Bytes k) <= NEOTotalSupply) →
  ∃ w', ModifyAccountVotes s1 (- nb_Balance s1) false w = (Ok tt, w')
    ∧ moved (λ j, - votes_for j s1) 0 w w'
    ∧ (∀ k v, candidate_at w (PublicKey_Bytes k) v → candidate_at w' (PublicKey_Bytes k) (v - votes_for (PublicKey_Bytes k) s1) ∧ latest w' k = latest w k).
Proof.
  intros Hw Hs1. destruct (nb_VoteTo s1) as [k|] eqn:Hk.
  2:{ rewrite modify_votes_none by done. assert (∀ j, votes_for j s1 = 0) as Hz.
      { intros j. unfold votes_for, voted. by rewrite Hk, bool_decide_eq_false_2. }
      exists (noted w). split; [done|]. split; [|intros k v Hv; rewrite Hz, Z.sub_0_r; by split].
      eapply moved_ext; [..|by apply noted_moved]; [intros j; cbn; rewrite Hz; lia|done]. }
  destruct (Hs1 k eq_refl) as [[Hpos Hle] Htot]. set (kb0 := PublicKey_Bytes k) in *.
  destruct (votes_of_some w kb0) as [c Hc]; [lia|].
  assert (votes_of w kb0 = cd_Votes c) as Hvc by (unfold votes_of; fold (cand_key kb0); by rewrite Hc).
  destruct (modify_votes w s1 k c (- nb_Balance s1) false Hw Hk Hc) as (w' & -> & Hcc & Hreg); [lia|done|]. fold kb0 in Hcc, Hreg.
  assert (∀ j, votes_for j s1 = if bool_decide (j = kb0) then nb_Balance s1 else 0) as Hvf.
  { intros j. unfold votes_for, voted. rewrite Hk. cbn. fold kb0. destruct (decide (j = kb0)) as [->|Hj]; [by rewrite !bool_decide_eq_true_2|].
    by rewrite !bool_decide_eq_false_2 by (done || by intros [=]). }
  exists w'. split; [done|]. split; [|].
  { eapply moved_ext; [..|by apply cc_moved]; [|done]. intros j. cbn. rewrite Hvf. by case_bool_decide. }
  intros j v Hv. rewrite Hvf. destruct (decide (PublicKey_Bytes j = kb0)) as [E|Hne].
  - rewrite E in *. unfold candidate_at in Hv. rewrite Hv in Hc. injection Hc as <-. specialize (Hreg eq_refl). cbn in Hreg.
    rewrite bool_decide_eq_true_2 by done. split; [exact Hreg|]. apply (cc_latest _ _ _ _ Hcc). right. by eexists.
  - rewrite bool_decide_eq_false_2, Z.sub_0_r by done. split; [unfold candidate_at; by rewrite (cc_other _ _ _ _ Hcc)|].
    apply (cc_latest _ _ _ _ Hcc). by left.
Qed.

(** They are given to a registered candidate. *)
Lemma give_votes w s k v :
  cands_ok w → nb_VoteTo s = Some k → candidate_at w (PublicKey_Bytes k) v → 0 <= v + nb_Balance s <= NEOTotalSupply →
  ∃ w', ModifyAccountVotes s (nb_Balance s) true w = (Ok tt, w') ∧ moved (λ j, votes_for j s) 0 w w'
    ∧ (∀ j, latest w' j = latest w j).
Proof.
  intros Hw Hk Hv Hle. set (kb := PublicKey_Bytes k) in *.
  destruct (modify_votes w s k _ (nb_Balance s) true Hw Hk Hv Hle) as (w' & -> & Hcc & Hreg); [done|]. fold kb in Hcc, Hreg.
  exists w'. split; [done|]. split.
  - eapply moved_ext; [..|by apply cc_moved]; [|done]. intros j. unfold votes_for, voted. rewrite Hk. cbn. fold kb.
    destruct (decide (j = kb)) as [->|Hj]; [by rewrite !bool_decide_eq_true_2|]. by rewrite !bool_decide_eq_false_2 by (done || by intros [=]).
  - intros j. apply (cc_latest _ _ _ _ Hcc). right. rewrite Hreg by done. by eexists.
Qed.

Definition turnout_delta (s : NEOBalance) (pub : option PublicKey) : Z :=
  match nb_VoteTo s, pub with
  | None, Some _ => nb_Balance s
  | Some _, None => - nb_Balance s
  | _, _ => 0
  end.

Lemma vote_turnout R w s pub : neo_ok R 0 w →
  ∃ w1, (match nb_VoteTo s, pub with
         | None, Some _ => modifyVoterTurnout (nb_Balance s)
         | Some _, None => modifyVoterTurnout (- nb_Balance s)
         | _, _ => mret tt
         end) w = (Ok tt, w1)
    ∧ moved (λ _, 0) (turnout_delta s pub) w w1 ∧ (∀ k, latest w1 k = latest w k) ∧ (∀ kb, cands w1 !! cand_key kb = cands w !! cand_key kb).
Proof.
  intros Hok. pose proof (no_turnout _ _ _ Hok) as Ht. pose proof (neo_cands_ok _ _ _ Hok) as Hw.
  assert (∀ amount, ∃ w1, modifyVoterTurnout amount w = (Ok tt, w1) ∧ moved (λ _, 0) amount w w1 ∧ (∀ k, latest w1 k = latest w k)
    ∧ (∀ kb, cands w1 !! cand_key kb = cands w !! cand_key kb)) as Hmod.
  { intros amount. rewrite (run_turnout _ _ _ Ht). eexists. split; [done|]. split; [by apply turnout_moved|]. split.
    - intros k. unfold latest. cbn. by rewrite lookup_insert_ne.
    - intros kb. rewrite !cands_lookup. cbn. by rewrite lookup_insert_ne. }
  unfold turnout_delta. destruct (nb_VoteTo s), pub; [|apply Hmod|apply Hmod|]; exists w; (split; [done|]); (split; [by apply moved_none|done]).
Qed.

(** The checks of a vote: the candidate must be registered; nothing changes. *)
Definition vote_target (w : World) (pub : option PublicKey) : Prop :=
  match pub with Some k => ∃ v, candidate_at w (PublicKey_Bytes k) v | None => True end.

(** The record of an account that votes. *)
Definition voter_record (w : World) (s : NEOBalance) (pub : option PublicKey) : NEOBalance :=
  mkNB (nb_Balance s) (nb_BalanceHeight (touched ic w s)) pub (match pub with Some k => latest w k | None => 0 end).

(** What a vote does before it is announced. *)
Lemma vote_steps R w h s pub :
  block_ok ic → neo_ok R 0 w → accs w !! makeAccountKey h = Some s → vote_target w pub → (∀ k, pub = Some k → key_stored k) →
  ∃ g w1 w2 w3 data,
    (match nb_VoteTo s, pub with
     | None, Some _ => modifyVoterTurnout (nb_Balance s)
     | Some _, None => modifyVoterTurnout (- nb_Balance s)
     | _, _ => mret tt
     end) w = (Ok tt, w1)
    ∧ distributeGas ic s w1 = (Ok (g, touched ic w1 s), w1) ∧ (∀ x, g = Some x → earned x)
    ∧ ModifyAccountVotes (touched ic w1 s) (- nb_Balance s) false w1 = (Ok tt, w2)
    ∧ (∀ k, pub = Some k → latest w2 k = latest w k)
    ∧ (let last := match pub with Some k => latest w2 k | None => nb_LastGasPerVote (touched ic w1 s) end in
       ModifyAccountVotes (mkNB (nb_Balance s) (nb_BalanceHeight (touched ic w1 s)) pub last) (nb_Balance s) true w2 = (Ok tt, w3))
    ∧ nb_BalanceHeight (touched ic w1 s) = nb_BalanceHeight (touched ic w s)
    ∧ NEOBalance_Bytes (voter_record w s pub) = Ok data
    ∧ account_change R 0 h (Some data) (Some (voter_record w s pub)) w (put_neo h (Some data) w3) ∧ same_rest w w3.
Proof.
  intros Hblk Hok Hs Htgt Hpub. destruct (accs_elem _ _ _ _ _ Hok Hs) as [Hpos Hacc]. pose proof (no_reward _ _ _ Hok) as HR.
  destruct (vote_turnout R w s pub Hok) as (w1 & H1 & Hm1 & Hl1 & Hc1).
  pose proof (moved_rewards _ _ _ _ _ Hm1 (neo_rewards _ _ _ Hok)) as Hrw1.
  destruct (distributeGas_ok ic R w1 s Hblk Hrw1 (account_latest _ _ _ _ Hl1 Hacc)) as (g & Hg & Hgpos).
  set (t := touched ic w1 s) in *. destruct (touched_same ic w1 s) as [Htb Htv]. fold t in Htb, Htv.
  assert (nb_BalanceHeight t = nb_BalanceHeight (touched ic w s)) as Hth.
  { unfold t, touched. destruct (ic_Block ic); [|done]. by destruct (_ || _). }
  assert (∀ j, votes_for j t = votes_for j s) as Hvt by (intros j; unfold votes_for, voted; by rewrite Htv, Htb).
  assert (∀ j, votes_of w1 j = votes_of w j) as Hv1 by (intros j; rewrite (mv_votes _ _ _ _ Hm1); lia).
  pose proof (no_supply _ _ _ Hok) as Hsup. pose proof (no_total _ _ _ Hok) as Htot.
  assert (∀ k, nb_VoteTo t = Some k → 0 < nb_Balance t <= votes_of w1 (PublicKey_Bytes k) ∧ votes_of w1 (PublicKey_Bytes k) <= NEOTotalSupply) as Htk.
  { intros k Hk. rewrite Hv1, Htb. pose proof (votes_for_elem _ _ _ _ _ (PublicKey_Bytes k) Hok Hs) as Hle.
    pose proof (votes_of_le _ _ _ (PublicKey_Bytes k) Hok). unfold votes_for, voted in Hle.
    rewrite <- Htv, Hk, bool_decide_eq_true_2 in Hle by done. lia. }
  set (s' := voter_record w s pub).
  assert (∃ w2 w3, ModifyAccountVotes t (- nb_Balance s) false w1 = (Ok tt, w2)
    ∧ (∀ k, pub = Some k → latest w2 k = latest w k)
    ∧ (∀ last, ModifyAccountVotes (mkNB (nb_Balance s) (nb_BalanceHeight t) pub last) (nb_Balance s) true w2 = (Ok tt, w3))
    ∧ moved (λ j, votes_for j s' - votes_for j s) 0 w1 w3) as (w2 & w3 & Hrun2 & Hl2 & Hrun3 & Hm3).
  { rewrite <- Htb. destruct (take_votes w1 t (mv_cand _ _ _ _ Hm1) Htk) as (w2 & Hrun2 & Hm2 & Hcand). rewrite Hrun2.
    destruct pub as [k|].
    - destruct Htgt as [v Hv]. assert (candidate_at w1 (PublicKey_Bytes k) v) as Hv' by (unfold candidate_at; by rewrite Hc1).
      destruct (Hcand k v Hv') as [Hv2 Hl2]. rewrite Hvt in Hv2.
      assert (v = votes_of w (PublicKey_Bytes k)) as Hvv.
      { unfold votes_of. fold (cand_key (PublicKey_Bytes k)). unfold candidate_at in Hv. by rewrite Hv. }
      pose proof (votes_for_elem _ _ _ _ _ (PublicKey_Bytes k) Hok Hs). pose proof (others_le _ _ _ _ _ (PublicKey_Bytes k) Hok Hs).
      destruct (give_votes w2 (mkNB (nb_Balance t) (nb_BalanceHeight t) (Some k) 0) k _ (mv_cand _ _ _ _ Hm2) eq_refl Hv2) as (w3 & Hrun3 & Hm3 & _);
        [cbn; lia|].
      exists w2, w3. split; [done|]. split; [intros ? [= <-]; by rewrite Hl2|]. split; [intros; exact Hrun3|].
      eapply moved_ext; [| |apply (moved_trans _ _ _ _ _ _ _ Hm2 Hm3)].
      + intros j. cbn beta. rewrite Hvt.
        assert (votes_for j (mkNB (nb_Balance t) (nb_BalanceHeight t) (Some k) 0) = votes_for j s') as -> by (unfold votes_for, voted, s'; cbn; by rewrite Htb).
        lia.
      + done.
      + intros j Hj. destruct (decide (PublicKey_Bytes j = PublicKey_Bytes k)) as [E|E].
        * right. unfold latest. rewrite E. exact Hl2.
        * left. rewrite (mv_votes _ _ _ _ Hm3) in Hj. unfold votes_for, voted in Hj. cbn in Hj.
          rewrite bool_decide_eq_false_2 in Hj by (intros [=]; congruence). lia.
    - exists w2, (noted w2). split; [done|]. split; [done|]. split; [intros; by apply modify_votes_none|].
      eapply moved_ext; [| |apply (moved_trans _ _ _ _ _ _ _ Hm2 (noted_moved _ (mv_cand _ _ _ _ Hm2)))]; [|done|intros j Hj; by left].
      intros j. cbn. rewrite Hvt. assert (votes_for j s' = 0) as -> by done. lia. }
  assert (account_ok R w s') as Hs'.
  { destruct (touched_ok ic R w s Hblk (neo_rewards _ _ _ Hok) Hacc) as [A1 A2 A3 A4]. split; cbn; [by apply Hacc|done| |].
    - destruct pub; [by eapply latest_bounds, neo_rewards|lia].
    - intros k Hk. split; [by apply Hpub|]. by rewrite Hk. }
  destruct (NEOBalance_roundtrip s') as (data & Hdata & _ & Hrt); [by eapply account_stored|].
  exists g, w1, w2, w3, data. split; [done|]. split; [done|]. split; [done|]. split; [done|]. split; [done|]. split; [by apply Hrun3|].
  split; [done|]. split; [done|].
  assert (moved (λ j, 0 + (votes_for j s' - votes_for j s)) (turnout_delta s pub + 0) w w3) as Hm.
  { apply (moved_trans _ _ _ _ _ _ _ Hm1 Hm3). intros k _. by right. }
  split; [|exact (mv_rest _ _ _ _ Hm)].
  eapply put_change; [done|exact Hm| | |by split]; [intros j|]; rewrite Hs; cbn [at_key]; [lia|].
  unfold turnout_delta, voting, s'. cbn. destruct (nb_VoteTo s), pub; lia.
Qed.

Lemma run_note_int {B} n (f : tree → M B) w : in256 n → (note_int n ≫= f) w = f (TInt n) w.
Proof.
  intros Hn. unfold note_int. rewrite run_bind. pose proof (big_item_ok n Hn) as Hi. unfold big_item in Hi.
  destruct (NewBigInteger n); [|done..]. done.
Qed.

(** No more notifications fit. *)
Definition notes_full (w : World) : bool :=
  IsHardforkEnabled ic HFEchidna && (ic_Application ic && bool_decide (length (w_notes w) = MaxNotificationCount)).

Lemma run_note name items w :
  no_error (AddNotification ic nh name items) w
  = if notes_full w then (Panic, w) else (Ok tt, w_set_notes (w_notes w ++ [mkNote nh name items]) w).
Proof. unfold no_error, AddNotification, notes_full. by destruct (_ && _). Qed.

Definition vote_note (h : bytes) (old pub : option PublicKey) (n : Z) : Notification :=
  mkNote nh "Vote" [TBytes h; keyToStackItem old; keyToStackItem pub; TInt n].

(** The invariant is one of the storage and the cache of NEO. *)
Lemma neo_ok_ext R d w w' : w_neo w' = w_neo w → nc_gasPerVoteCache (w_cache w') = nc_gasPerVoteCache (w_cache w) →
  nc_gasPerBlock (w_cache w') = nc_gasPerBlock (w_cache w) → neo_ok R d w → neo_ok R d w'.
Proof.
  intros Hn Hc Hr [H1 H2 H3 H4 H5 H6 H7 H8 H9 H10].
  assert (accs w' = accs w) as Ha by (unfold accs; by rewrite Hn). assert (∀ k, latest w' k = latest w k) as Hl by (intros k; unfold latest; by rewrite Hn, Hc).
  split; rewrite ?Ha, ?Hn, ?Hc, ?Hr; try done.
  - intros k b Hb Hk. destruct (H2 k b Hb Hk) as (s & Hs & Hpos & Hacc). exists s. do 2 (split; [done|]). by apply (account_latest R w).
  - intros kb. rewrite <- H4. unfold votes_of, cands. by rewrite Hn.
  - rewrite <- H5. unfold turnout. by rewrite Hn.
  - rewrite <- H6. unfold supply. cbn [w_store]. by rewrite Hn.
  - unfold supply in *. cbn [w_store] in *. by rewrite Hn.
Qed.

Lemma set_store_id t w : w_set_store t (w_store t w) w = w.
Proof. by destruct t, w. Qed.

Lemma run_put_same {B} t key si (f : unit → M B) w : w_store t w !! key = Some si → (PutStorageItem t key si ≫= f) w = f tt w.
Proof. intros Hk. by rewrite run_put, insert_id, set_store_id. Qed.

Lemma check_validator_spec R w pub : neo_ok R 0 w →
  check_validator pub w = (Ok tt, w) ∧ vote_target w pub ∨ (∃ e, check_validator pub w = (Err e, w)) ∧ ¬ vote_target w pub.
Proof.
  intros Hok. destruct pub as [k|]; [|by left]. unfold check_validator, vote_target, candidate_at. rewrite run_get. cbn [w_store].
  rewrite cands_lookup. change (makeValidatorKey k) with (cand_key (PublicKey_Bytes k)).
  destruct (w_neo w !! cand_key (PublicKey_Bytes k)) as [b|] eqn:Hb; [|right; split; [by eexists|by intros []]].
  destruct (no_cand _ _ _ Hok _ _ Hb eq_refl) as (c & Hc & _). cbn. rewrite run_lift, Hc, run_put_same by done.
  destruct c as [[] v]; cbn; [left; split; [done|by exists v]|right; split; [by eexists|by intros []]].
Qed.

Lemma vote_spec R w h pub :
  block_ok ic → neo_ok R 0 w → (∀ k, pub = Some k → key_stored k) →
  match voteInternal ic nh h pub w with
  | (Ok g, w') => ∃ s, accs w !! makeAccountKey h = Some s ∧ vote_target w pub ∧ (∀ x, g = Some x → earned x)
      ∧ neo_ok R 0 w' ∧ accs w' = <[makeAccountKey h := voter_record w s pub]> (accs w)
      ∧ w_gas w' = w_gas w ∧ w_contracts w' = w_contracts w
      ∧ w_notes w' = w_notes w ++ [vote_note h (nb_VoteTo s) pub (nb_Balance s)]
  | (Err _, w') => w' = w ∧ (accs w !! makeAccountKey h = None ∨ ¬ vote_target w pub)
  | (Panic, _) => notes_full w = true
  end.
Proof.
  intros Hblk Hok Hpub. unfold voteInternal. rewrite run_get. cbn [w_store].
  destruct (stored_account R 0 w h Hok) as (Hdec & _ & Hnone & _).
  destruct (w_neo w !! makeAccountKey h) as [si|] eqn:Hsi; [|split; [done|left; by apply Hnone]]. cbn [default] in Hdec.
  destruct (accs w !! makeAccountKey h) as [s|] eqn:Hs; [|by destruct Hnone as [_ Hn]; specialize (Hn eq_refl)]. cbn in Hdec.
  rewrite run_lift, Hdec, run_put_same by done. rewrite run_bind.
  destruct (check_validator_spec R w pub Hok) as [[-> Htgt]|[[e ->] Htgt]]; [|split; [done|by right]].
  destruct (vote_steps R w h s pub Hblk Hok Hs Htgt Hpub) as (g & w1 & w2 & w3 & data & H1 & Hg & Hgpos & H2 & Hl2 & H3 & Hth & Hdata & Hch & Hrest).
  rewrite (run_bind_ok _ _ _ _ _ H1), (run_bind_ok _ _ _ _ _ Hg).
  destruct (touched_same ic w1 s) as [Htb Htv]. rewrite Htb, (run_bind_ok _ _ _ _ _ H2), run_bind.
  set (last := match pub with Some k => latest w2 k | None => nb_LastGasPerVote (touched ic w1 s) end).
  assert ((match pub with
    | Some pub => getLatestGASPerVote (makeVoterKey (PublicKey_Bytes pub))
    | None => mret (nb_LastGasPerVote (touched ic w1 s))
    end) w2 = (Ok last, w2)) as -> by by destruct pub.
  cbn zeta in H3. fold last in H3. rewrite (run_bind_ok _ _ _ _ _ H3). cbn [nb_Balance].
  assert ((match pub with
    | Some _ => mkNB (nb_Balance s) (nb_BalanceHeight (touched ic w1 s)) pub last
    | None => mkNB (nb_Balance s) (nb_BalanceHeight (touched ic w1 s)) pub 0
    end) = voter_record w s pub) as Hrec.
  { unfold voter_record, last. rewrite Hth. destruct pub as [k|]; [by rewrite Hl2|done]. }
  cbn [nb_BalanceHeight]. rewrite Hrec, run_lift, Hdata, run_put. cbn [w_store].
  destruct (accs_elem _ _ _ _ _ Hok Hs) as [Hpos [Hrange _ _ _]].
  rewrite run_note_int by (cbn; unfold in256, NEOTotalSupply in *; lia). rewrite run_bind, run_note.
  pose proof (neo_change _ _ _ _ _ _ _ Hok Hch) as Hok'. rewrite Hs in Hok'. cbn [at_key nb_Balance voter_record] in Hok'.
  destruct Hrest as [R1 R2 R3 R4].
  assert (notes_full (put_neo h (Some data) w3) = notes_full w) as Hfull by (unfold notes_full; cbn; by rewrite R2).
  change (w_set_store NeoT (<[makeAccountKey h:=data]> (w_neo w3)) w3) with (put_neo h (Some data) w3). rewrite Hfull.
  destruct (notes_full w); [done|]. exists s. split; [done|]. split; [done|]. split; [done|].
  split; [apply (neo_ok_ext _ _ (put_neo h (Some data) w3)); [done..|]; by replace (0 + nb_Balance s - nb_Balance s) with 0 in Hok' by lia|].
  split; [exact (change_accs _ _ _ _ _ _ _ Hch)|]. split; [exact R1|]. split; [exact R4|]. cbn. rewrite R2, Htv. done.
Qed.
End neo.
