(* ===== verification/NativeTransfer.v ===== *)
(** * NativeTransfer: transfers of GAS and of NEO

    What a token contract promises to [transferDeferrable] is the class
    [Ledger]: how one account is changed.  GAS and NEO are its instances, and
    the transfer is specified once, against the class. *)

From S2P Require Import Prelude Bigint BinIO Codec Hash Keys Witness Tx StackItem Serial Storage Script Emit NativeState Native NativeNeo NativeInv NativeVotes.

#[local] Open Scope Z_scope.

Record ledger_ok (R B : Z) (w : World) : Prop := {
  lg_neo : neo_ok R 0 w;
  lg_gas : gas_ok B 0 w;
}.

Lemma gas_ok_ext B d w w' : w_gas w' = w_gas w → gas_ok B d w → gas_ok B d w'.
Proof.
  intros Hg [H1 H2 H3 H4]. assert (gas_accs w' = gas_accs w) as Ha by (unfold gas_accs; by rewrite Hg).
  split; rewrite ?Hg, ?Ha; try done; unfold supply in *; cbn [w_store] in *; by rewrite Hg.
Qed.

Lemma makeAccountKey_inj a b : makeAccountKey a = makeAccountKey b ↔ a = b.
Proof. split; [by intros [= ->]|by intros ->]. Qed.

(** What is not a balance. *)
Record same_outside (w w' : World) : Prop := {
  so_notes : w_notes w' = w_notes w;
  so_consumed : w_consumed w' = w_consumed w;
  so_contracts : w_contracts w' = w_contracts w;
}.

Lemma same_outside_trans w w1 w2 : same_outside w w1 → same_outside w1 w2 → same_outside w w2.
Proof. intros [] []. split; congruence. Qed.

(** Less than what is needed, before and after. *)
Definition short (n amount : Z) (req : option Z) : bool := (bool_decide (amount = 0) && below n req) || bool_decide (n + amount < 0).

(** The accounts of a token: [lg_ok d] when [d] of the supply is in nobody's
    account, and the change of one account. *)
Class Ledger (c : nep17TokenNative) := {
  lg_ok : Z → World → Prop;
  lg_balance : World → bytes → Z;
  lg_total : World → Z;
  lg_distributes : bool;
  lg_nonneg : ∀ d w h, lg_ok d w → 0 <= lg_balance w h;
  lg_update : ∀ d w h amount req, lg_ok d w → amount <= d → (req = None ∨ amount <= 0) →
    if short (lg_balance w h) amount req then updateAccBalance c h amount req w = (Err "insufficient funds"%string, w)
    else ∃ dist w', updateAccBalance c h amount req w = (Ok dist, w') ∧ lg_ok (d - amount) w' ∧ same_outside w w'
      ∧ (∀ j, lg_balance w' j = lg_balance w j + if bool_decide (j = h) then amount else 0)
      ∧ lg_total w' = lg_total w + amount
      ∧ (∀ x, dist = Some x → lg_distributes = true ∧ gd_To x = h ∧ earned (gd_Amount x));
}.

Section gas_ledger.
Context (gh : bytes) (B R : Z).

Definition gas_lg_ok (d : Z) (w : World) : Prop := gas_ok B d w ∧ neo_ok R 0 w.

#[export] Program Instance gas_ledger : Ledger (GAS gh) := {
  lg_ok := gas_lg_ok;
  lg_balance := gas_balance;
  lg_total w := msum id (gas_accs w);
  lg_distributes := false;
}.
Next Obligation. intros d w h [Hg _]. by eapply gas_balance_nonneg. Qed.
Next Obligation.
  intros d w h amount req [Hg Hn] Hd Hreq. pose proof (go_total _ _ _ Hg). pose proof (go_bound _ _ _ Hg).
  rewrite (gas_update gh B d w h amount req Hg ltac:(lia) Hreq). unfold short.
  destruct (_ || _) eqn:Hs; [done|]. apply orb_false_iff in Hs as [_ Hs%bool_decide_eq_false].
  destruct (put_gas_ok B d w h (gas_balance w h + amount) Hg) as [Hg' Hacc]; [lia|lia|].
  eexists None, _. split; [done|]. split; [split|split; [done|split; [|split; [|done]]]].
  - by replace (d - amount) with (d + gas_balance w h - (gas_balance w h + amount)) by lia.
  - by apply (neo_ok_ext R 0 w).
  - intros j. unfold gas_balance at 1. rewrite Hacc. unfold set_balance. destruct (decide (j = h)) as [->|Hj].
    + rewrite (bool_decide_eq_true_2 (h = h)) by done. case_bool_decide as Hz; [rewrite lookup_delete_eq; cbn; lia|by rewrite lookup_insert_eq].
    + rewrite (bool_decide_eq_false_2 (j = h)), Z.add_0_r by done. unfold gas_balance.
      by case_bool_decide; [rewrite lookup_delete_ne by by rewrite makeAccountKey_inj|rewrite lookup_insert_ne by by rewrite makeAccountKey_inj].
  - cbv beta. rewrite Hacc, msum_set_balance. fold (gas_balance w h). lia.
Qed.
End gas_ledger.

Section neo_ledger.
Context `{Digest} (ic : Context) (nh gh : bytes) (B R : Z) (Hblk : block_ok ic).

Definition neo_lg_ok (d : Z) (w : World) : Prop := neo_ok R d w ∧ gas_ok B 0 w.

#[export] Program Instance neo_ledger : Ledger (NEO ic nh gh) := {
  lg_ok := neo_lg_ok;
  lg_balance := neo_balance;
  lg_total w := msum nb_Balance (accs w);
  lg_distributes := true;
}.
Next Obligation.
  intros d w h [Hn _]. unfold neo_balance. destruct (accs w !! makeAccountKey h) as [s|] eqn:Hs; [|done].
  destruct (accs_elem _ _ _ _ _ Hn Hs). cbn. lia.
Qed.
Next Obligation.
  intros d w h amount req [Hn Hg] Hd Hreq. pose proof (no_total _ _ _ Hn).
  pose proof (neo_update ic nh gh R d w h amount req Hblk Hn ltac:(lia) Hreq) as Hu. cbn zeta in Hu.
  set (s := default zero_balance (accs w !! makeAccountKey h)) in *.
  assert (neo_balance w h = nb_Balance s) as Hs by (unfold neo_balance, s; by destruct (accs w !! makeAccountKey h)).
  unfold short. rewrite Hs. destruct (_ || _) eqn:Hsh; [done|].
  destruct Hu as (dist & w' & -> & Hok & Hacc & [R1 R2 R3 R4] & Hdist). exists dist, w'. split; [done|].
  split; [split; [done|by apply (gas_ok_ext B 0 w)]|]. split; [by split|]. split; [|split; [|intros x Hx; split; [done|by apply Hdist]]].
  2:{ cbv beta. rewrite Hacc, msum_set_acc. fold (neo_balance w h). rewrite at_new_record, Hs by done. cbn. lia. }
  intros j. unfold neo_balance at 1. rewrite Hacc. destruct (decide (j = h)) as [->|Hj].
  - rewrite (bool_decide_eq_true_2 (h = h)), Hs by done. unfold new_record. destruct (decide (nb_Balance s + amount = 0)) as [Hz|Hz].
    + rewrite (bool_decide_eq_true_2 _ Hz). cbn [set_acc]. rewrite lookup_delete_eq. cbn. lia.
    + rewrite (bool_decide_eq_false_2 _ Hz). cbn [set_acc]. by rewrite lookup_insert_eq.
  - rewrite (bool_decide_eq_false_2 (j = h)), Z.add_0_r by done. unfold neo_balance.
    by destruct (new_record ic w s amount); cbn [set_acc]; [rewrite lookup_insert_ne by by rewrite makeAccountKey_inj|rewrite lookup_delete_ne by by rewrite makeAccountKey_inj].
Qed.
End neo_ledger.

(** ** The transfer *)

Definition transfer_args (h : Heap) (args : list item) : res nerr (bytes * bytes * Z * item) :=
  from ← (a0 ← arg args 0; toUint160 h a0);
  to ← (a1 ← arg args 1; toUint160 h a1);
  amount ← (a2 ← arg args 2; toBigInt a2);
  data ← arg args 3;
  Ok (from, to, amount, data).

Section transfer.
Context (ic : Context) {X : Type}.

(** A contract may move what is its own; the sender is witnessed otherwise. *)
Definition authorized (from : bytes) : bool :=
  let caller := we_calling (ic_witness ic) in
  if bool_decide (caller = replicate Uint160Size x00) || negb (bool_decide (from = caller)) then
    match CheckHashedWitness (ic_witness ic) from with Ok true => true | _ => false end
  else true.

Definition refused {A} (w : World) (pop : item → World → A) (panicked : A) (p : A) : Prop := p = pop (Bool false) w ∨ p = panicked.

Section ledger.
Context (c : nep17TokenNative) {L : Ledger c} (h : Heap) (args : list item) (pop : item → World → proc X).

Definition paid (from to : bytes) (amount : Z) (w w' : World) : Prop :=
  lg_ok 0 w' ∧ same_outside w w'
  ∧ (∀ j, lg_balance w' j = lg_balance w j - (if bool_decide (j = from) then amount else 0) + (if bool_decide (j = to) then amount else 0))
  ∧ lg_total w' = lg_total w.

Definition dist_ok (to : bytes) (d : option gasDistribution) : Prop :=
  ∀ x, d = Some x → lg_distributes = true ∧ gd_To x = to ∧ earned (gd_Amount x).

Lemma transfer_bad_args w : (∀ x, transfer_args h args ≠ Ok x) → transferDeferrable ic c h args pop w = Panicked.
Proof.
  unfold transfer_args, transferDeferrable, do_, lift.
  destruct (a0 ← arg args 0; toUint160 h a0) as [from| |]; [|done..]. cbn.
  destruct (a1 ← arg args 1; toUint160 h a1) as [to| |]; [|done..]. cbn.
  destruct (a2 ← arg args 2; toBigInt a2) as [amount| |]; [|done..]. cbn.
  destruct (arg args 3) as [data| |]; [|done..]. intros Hx. by destruct (Hx (from, to, amount, data)).
Qed.

Lemma transfer_refused from to amount data w :
  transfer_args h args = Ok (from, to, amount, data) → amount < 0 ∨ authorized from = false →
  refused w pop Panicked (transferDeferrable ic c h args pop w).
Proof.
  unfold transfer_args, transferDeferrable, do_, lift, refused.
  destruct (a0 ← arg args 0; toUint160 h a0) as [f| |]; [|done..]. cbn.
  destruct (a1 ← arg args 1; toUint160 h a1) as [t| |]; [|done..]. cbn.
  destruct (a2 ← arg args 2; toBigInt a2) as [n| |]; [|done..]. cbn.
  destruct (arg args 3) as [d| |]; [|done..]. cbn. intros [= -> -> -> ->] Hcase.
  case_bool_decide as Hs; [by right|]. destruct Hcase as [Hneg|Hauth]; [destruct Hs; by apply Z.sgn_neg|].
  unfold authorized in Hauth. destruct (_ || _); [|done].
  destruct (CheckHashedWitness (ic_witness ic) from) as [[]| |]; [done|by left|by left|by right].
Qed.

Lemma transfer_run from to amount data w :
  transfer_args h args = Ok (from, to, amount, data) → 0 <= amount → authorized from = true → lg_ok 0 w →
  if bool_decide (lg_balance w from < amount) then transferDeferrable ic c h args pop w = pop (Bool false) w
  else ∃ d1 d2 w', transferDeferrable ic c h args pop w = postTransfer ic c (Some from) (Some to) amount data true pop [d1; d2] w'
    ∧ paid from to amount w w' ∧ dist_ok from d1 ∧ dist_ok to d2.
Proof.
  unfold transfer_args, transferDeferrable, do_, lift.
  destruct (a0 ← arg args 0; toUint160 h a0) as [f| |]; [|done..]. cbn -[replicate].
  destruct (a1 ← arg args 1; toUint160 h a1) as [t| |]; [|done..]. cbn -[replicate].
  destruct (a2 ← arg args 2; toBigInt a2) as [n| |]; [|done..]. cbn -[replicate].
  destruct (arg args 3) as [d| |]; [|done..]. cbn -[replicate]. intros [= -> -> -> ->] Hnn Hauth Hok.
  rewrite (bool_decide_eq_false_2 (Z.sgn amount = -1)) by (intros E%Z.sgn_neg_iff; lia).
  set (isEmpty := bool_decide (from = to) || bool_decide (amount = 0)). set (inc := if isEmpty then 0 else - amount).
  set (rest := λ w : World, match updateAccBalance c from inc (Some amount) w with _ => _ end).
  assert ((if bool_decide (we_calling (ic_witness ic) = replicate Uint160Size x00) || negb (bool_decide (from = we_calling (ic_witness ic)))
    then match CheckHashedWitness (ic_witness ic) from with
         | Ok true => rest | Ok false => pop (Bool false) | Err _ => pop (Bool false) | Panic => λ _, Panicked end
    else rest) = rest) as ->.
  { unfold authorized in Hauth. destruct (_ || _); [|done]. by destruct (CheckHashedWitness _ _) as [[]| |]. }
  unfold rest. pose proof (lg_nonneg 0 w from Hok) as Hbal.
  assert (inc <= 0) as Hinc by (unfold inc; destruct isEmpty; lia).
  pose proof (lg_update 0 w from inc (Some amount) Hok Hinc (or_intror Hinc)) as H1.
  assert (short (lg_balance w from) inc (Some amount) = bool_decide (lg_balance w from < amount)) as Hshort.
  { unfold short, inc, isEmpty, below. destruct (decide (from = to)) as [Hft|Hft]; [|destruct (decide (amount = 0)) as [Hz|Hz]].
    - rewrite (bool_decide_eq_true_2 _ Hft). cbn [orb]. rewrite (bool_decide_eq_true_2 (0 = 0)) by done. rewrite Z.add_0_r.
      rewrite (bool_decide_eq_false_2 (lg_balance w from < 0)) by lia. by rewrite orb_false_r.
    - rewrite (bool_decide_eq_false_2 _ Hft), (bool_decide_eq_true_2 _ Hz). cbn [orb]. rewrite (bool_decide_eq_true_2 (0 = 0)) by done.
      rewrite Z.add_0_r, (bool_decide_eq_false_2 (lg_balance w from < 0)) by lia. by rewrite orb_false_r.
    - rewrite (bool_decide_eq_false_2 _ Hft), (bool_decide_eq_false_2 _ Hz). cbn [orb]. rewrite (bool_decide_eq_false_2 (- amount = 0)) by lia.
      cbn [andb orb]. apply bool_decide_ext. lia. }
  rewrite Hshort in H1. case_bool_decide as Hlt; [by rewrite H1|].
  destruct H1 as (d1 & w1 & -> & Hok1 & Hs1 & Hb1 & Ht1 & Hd1). unfold inc in *. destruct isEmpty eqn:He.
  - exists d1, None, w1. split; [done|]. split; [|by split]. split; [by rewrite Z.sub_diag in Hok1|]. split; [done|]. split; [|lia].
    intros j. rewrite Hb1. apply orb_true_iff in He as [E%bool_decide_eq_true|E%bool_decide_eq_true]; [subst to|rewrite E];
      destruct (bool_decide (j = from)); try destruct (bool_decide (j = to)); lia.
  - apply orb_false_iff in He as [Hft%bool_decide_eq_false Hz%bool_decide_eq_false].
    pose proof (lg_update (0 - - amount) w1 to amount None Hok1 ltac:(lia) ltac:(by left)) as H2.
    pose proof (lg_nonneg _ w1 to Hok1). unfold short in H2. cbn [below] in H2. rewrite andb_false_r, bool_decide_eq_false_2 in H2 by lia.
    destruct H2 as (d2 & w2 & -> & Hok2 & Hs2 & Hb2 & Ht2 & Hd2). exists d1, d2, w2. split; [done|]. split; [|by split].
    replace (0 - - amount - amount) with 0 in Hok2 by lia. split; [done|]. split; [by eapply same_outside_trans|]. split; [|lia].
    intros j. rewrite Hb2, Hb1. destruct (bool_decide (j = from)); lia.
Qed.
End ledger.
End transfer.
