(* ===== verification/NativeSafe.v ===== *)
(** * NativeSafe: the ledger through every call

    The operations on candidates and the deferred operations of the token
    contracts keep the ledger of [NativeInv]; so does any sequence of calls,
    however the contracts that are paid call back. *)

From S2P Require Import Prelude Bigint BinIO Codec Hash Keys Witness Tx StackItem Serial Storage Script Emit NativeState Native NativeNeo NativeInv NativeVotes NativeTransfer.

#[local] Open Scope Z_scope.

Lemma gas_ok_le B B' d w : B <= B' → B' <= MaxGas → gas_ok B d w → gas_ok B' d w.
Proof. intros HB HB' [H1 H2 H3 H4]. split; [done|done|lia|done]. Qed.

Lemma moved_keep R d w w' : moved (λ _, 0) 0 w w' → neo_ok R d w → neo_ok R d w'.
Proof.
  intros Hm Hok. assert (accs w' = accs w) as Ha by (apply view_ext; exact (mv_key _ _ _ _ Hm)).
  pose proof Hok as [H1 H2 H3 H4 H5 H6 H7 H8 H9 H10]. split; rewrite ?Ha; try done.
  - intros k b Hb Hk. rewrite (mv_key _ _ _ _ Hm k Hk) in Hb. destruct (H2 k b Hb Hk) as (s & Hs & Hpos & [A1 A2 A3 A4]).
    exists s. do 2 (split; [done|]). split; [done..|]. intros vk Hvk. destruct (A4 vk Hvk) as [Hst Hle]. split; [done|].
    rewrite (mv_latest _ _ _ _ Hm); [done|]. rewrite (mv_votes _ _ _ _ Hm).
    assert (accs w !! k = Some s) as Hin by (rewrite accs_lookup, bool_decide_eq_true_2, Hb by done; cbn; by rewrite Hs).
    pose proof (votes_for_elem _ _ _ _ _ (PublicKey_Bytes vk) Hok Hin) as Hl. unfold votes_for, voted in Hl.
    rewrite Hvk, bool_decide_eq_true_2 in Hl by done. lia.
  - exact (mv_cand _ _ _ _ Hm).
  - intros kb. rewrite (mv_votes _ _ _ _ Hm), H4. lia.
  - rewrite (mv_turnout _ _ _ _ Hm _ H5). f_equal. lia.
  - rewrite (mv_supply _ _ _ _ Hm). done.
  - by rewrite (mv_supply _ _ _ _ Hm).
  - intros k v Hv. apply (H8 k). by apply (mv_cache _ _ _ _ Hm).
  - intros k b Hb Hk. apply (H9 k b); [|done]. by apply (mv_stored _ _ _ _ Hm).
  - by rewrite (mv_records _ _ _ _ Hm).
Qed.

(** A step that is about candidates: the ledger is kept and GAS is not touched. *)
Definition keeps {A} (w : World) (r : res nerr A * World) : Prop :=
  match r with
  | (Panic, _) => True
  | (_, w') => (∀ R, neo_ok R 0 w → neo_ok R 0 w') ∧ w_gas w' = w_gas w
  end.

Lemma keeps_ledger {A} R B w (a : A) w' : keeps w (Ok a, w') → ledger_ok R B w → ledger_ok R B w'.
Proof. intros [Hn Hg] [H1 H2]. split; [by apply Hn|]. by apply (gas_ok_ext _ _ w). Qed.

Lemma keeps_trans {A} w w1 (r : res nerr A * World) :
  (∀ R, neo_ok R 0 w → neo_ok R 0 w1) → w_gas w1 = w_gas w → keeps w1 r → keeps w r.
Proof.
  intros Hn Hg. unfold keeps. destruct r as [[a|e|] w2]; [| |done]; intros [Hn2 Hg2]; (split; [auto|by rewrite Hg2]).
Qed.

Lemma keeps_bind {A B} (m : M A) (f : A → M B) w :
  keeps w (m w) → (∀ a w1, m w = (Ok a, w1) → keeps w1 (f a w1)) → keeps w ((m ≫= f) w).
Proof.
  intros Hm Hf. rewrite run_bind. destruct (m w) as [[a|e|] w1]; [|done|done]. destruct Hm as [Hn Hg].
  apply (keeps_trans w w1); [done|done|by apply Hf].
Qed.

Lemma keeps_refl {A} w (r : res nerr A) : keeps w (r, w).
Proof. by destruct r. Qed.

(** Writing what is no account, candidate, reward or counter of NEO. *)
Definition other_key (key : bytes) : Prop :=
  head key ≠ Some (z2b prefixAccount) ∧ head key ≠ Some (z2b prefixCandidate) ∧ head key ≠ Some (z2b prefixVoterRewardPerCommittee)
  ∧ key ≠ totalSupplyKey ∧ key ≠ votersCountKey.

Lemma put_other_moved w key b : cands_ok w → other_key key → moved (λ _, 0) 0 w (w_set_store NeoT (<[key := b]> (w_neo w)) w).
Proof.
  intros Hw (H1 & H2 & H3 & H4 & H5). set (w' := w_set_store _ _ w).
  assert (cands w' = cands w) as Hc by by apply view_insert_other.
  split; try done.
  - intros k Hk. cbn. by rewrite lookup_insert_ne by congruence.
  - intros j. unfold votes_of. rewrite Hc. lia.
  - intros t Ht. unfold turnout in *. cbn. rewrite lookup_insert_ne by done. rewrite Ht. f_equal. lia.
  - unfold supply. cbn. by rewrite lookup_insert_ne.
  - intros k c. cbn. rewrite lookup_insert_Some. intros [[<- <-]|[_ Hk]]; [done|by apply Hw].
  - intros k c Hk. cbn. by rewrite lookup_insert_ne by congruence.
  - intros k _. unfold latest. cbn. rewrite lookup_insert_ne; [done|]. intros E. rewrite E in H3. done.
Qed.

Section candidates.
Context `{Digest} (ic : Context) (nh gh : bytes).

Lemma keeps_note name items w : keeps w (no_error (AddNotification ic nh name items) w).
Proof.
  rewrite run_note. destruct (notes_full ic w); [done|]. split; [|done]. intros R Hok. by apply (neo_ok_ext R 0 w).
Qed.

Lemma keeps_note_candidate pub c w : keeps w (note_candidate ic nh pub c w).
Proof.
  unfold note_candidate, note_int. rewrite run_bind. rewrite run_bind. destruct (NewBigInteger (cd_Votes c)); [|done..].
  cbn [must mret M_ret]. unfold mret, M_ret. apply keeps_note.
Qed.

Lemma keeps_noted w : (∀ R, neo_ok R 0 w → neo_ok R 0 (noted w)) ∧ w_gas (noted w) = w_gas w.
Proof. split; [|done]. intros R Hok. by apply (neo_ok_ext R 0 w). Qed.

(** The candidate that a key has in the storage. *)
Lemma stored_candidate R w k : neo_ok R 0 w →
  match w_neo w !! makeValidatorKey k with
  | Some b => ∃ c, candidate_FromBytes b = Ok c ∧ cands w !! cand_key (PublicKey_Bytes k) = Some c ∧ 0 <= cd_Votes c <= NEOTotalSupply
  | None => cands w !! cand_key (PublicKey_Bytes k) = None
  end.
Proof.
  intros Hok. change (makeValidatorKey k) with (cand_key (PublicKey_Bytes k)). rewrite cands_lookup.
  destruct (w_neo w !! _) as [b|] eqn:Hb; [|done]. destruct (no_cand _ _ _ Hok _ _ Hb eq_refl) as (c & Hc & Hv & _).
  exists c. cbn. rewrite Hc. do 2 (split; [done|]).
  pose proof (votes_of_le _ _ _ (PublicKey_Bytes k) Hok) as Hle. unfold votes_of in Hle. fold (cand_key (PublicKey_Bytes k)) in Hle.
  rewrite cands_lookup, Hb in Hle. cbn in Hle. rewrite Hc in Hle. cbn in Hle.
  pose proof (no_supply _ _ _ Hok). pose proof (no_total _ _ _ Hok). lia.
Qed.

(** A candidate whose votes stay as they are. *)
Lemma put_candidate_same R w k reg v :
  neo_ok R 0 w → at_key cd_Votes (cands w !! cand_key (PublicKey_Bytes k)) = v → 0 <= v <= NEOTotalSupply → reg = true ∨ 0 < v →
  ∃ w', PutCandidate (makeValidatorKey k) (mkCand reg v) w = (Ok tt, w') ∧ moved (λ _, 0) 0 w w' ∧ cands w' !! cand_key (PublicKey_Bytes k) = Some (mkCand reg v)
    ∧ w_cache w' = w_cache w.
Proof.
  intros Hok Hv Hr Hlive. destruct (put_cand_change w (PublicKey_Bytes k) (mkCand reg v) _ (neo_cands_ok _ _ _ Hok) eq_refl)
    as (b & Hb & Hcc & Hc & Hcache); [unfold in256, NEOTotalSupply in *; cbn; lia|cbn; lia|done|].
  eexists. unfold PutCandidate. rewrite run_lift, Hb. split; [done|]. split; [|by split].
  eapply moved_ext; [| |apply (cc_moved _ _ _ _ Hcc)]; [|done]. intros j. cbn. rewrite Hv. by case_bool_decide; lia.
Qed.

Lemma keeps_register pub w R : neo_ok R 0 w → keeps w (RegisterCandidateInternal ic nh pub w).
Proof.
  intros Hok. unfold RegisterCandidateInternal. rewrite run_get. cbn [w_store]. pose proof (stored_candidate R w pub Hok) as Hst.
  assert (∃ v emit, (match w_neo w !! makeValidatorKey pub with
      | None => mret (mkCand true 0, true)
      | Some si => c ← lift (candidate_FromBytes si); mret (mkCand true (cd_Votes c), negb (cd_Registered c))
      end) w = (Ok (mkCand true v, emit), w) ∧ at_key cd_Votes (cands w !! cand_key (PublicKey_Bytes pub)) = v ∧ 0 <= v <= NEOTotalSupply)
    as (v & emit & Hrun & Hv & Hr).
  { destruct (w_neo w !! makeValidatorKey pub) as [b|].
    - destruct Hst as (c & Hc & Hin & Hr). exists (cd_Votes c), (negb (cd_Registered c)). rewrite run_lift, Hc, Hin. done.
    - exists 0, true. rewrite Hst. by unfold NEOTotalSupply. }
  rewrite (run_bind_ok _ _ _ _ _ Hrun). destruct (put_candidate_same R w pub true v Hok Hv Hr ltac:(by left)) as (w' & Hput & Hm & _).
  rewrite (run_bind_ok _ _ _ _ _ Hput).
  assert ((∀ R, neo_ok R 0 w → neo_ok R 0 w') ∧ w_gas w' = w_gas w) as [Hn Hg].
  { split; [intros R'; by apply moved_keep|apply (sr_gas _ _ (mv_rest _ _ _ _ Hm))]. }
  apply (keeps_trans w w'); [done..|]. destruct emit; [|apply keeps_refl]. destruct (keeps_noted w') as [Hn' Hg'].
  rewrite run_bind. cbn [on_cache modify]. fold (noted w'). apply (keeps_trans w' (noted w')); [done..|]. apply keeps_note_candidate.
Qed.

Lemma keeps_unregister pub w R : neo_ok R 0 w → keeps w (UnregisterCandidateInternal ic nh pub w).
Proof.
  intros Hok. unfold UnregisterCandidateInternal. rewrite run_get. cbn [w_store]. pose proof (stored_candidate R w pub Hok) as Hst.
  destruct (w_neo w !! makeValidatorKey pub) as [b|]; [|apply keeps_refl]. destruct Hst as (c & Hc & Hin & Hr).
  rewrite run_bind. cbn [on_cache modify]. fold (noted w). destruct (keeps_noted w) as [Hn Hg].
  apply (keeps_trans w (noted w)); [done..|]. rewrite run_lift, Hc.
  pose proof (Hn R Hok) as Hok'. change (cands (noted w) !! cand_key (PublicKey_Bytes pub) = Some c) in Hin.
  assert (∃ w', (ok ← dropCandidateIfZero pub (mkCand false (cd_Votes c));
      if (ok : bool) then mret tt else PutCandidate (makeValidatorKey pub) (mkCand false (cd_Votes c))) (noted w) = (Ok tt, w')
      ∧ moved (λ _, 0) 0 (noted w) w') as (w' & Hrun & Hm).
  { destruct (decide (cd_Votes c = 0)) as [Hz|Hz].
    - assert (∃ w', dropCandidateIfZero pub (mkCand false (cd_Votes c)) (noted w) = (Ok true, w') ∧ moved (λ _, 0) 0 (noted w) w') as (w' & Hd & Hm).
      { destruct (drop_cand_change (noted w) pub c (neo_cands_ok _ _ _ Hok') Hin (mkCand false (cd_Votes c)) eq_refl Hz) as (w' & Hd & Hcc & _).
        exists w'. split; [done|]. eapply moved_ext; [| |apply (cc_moved _ _ _ _ Hcc)]; [|done]. intros j. cbn. case_bool_decide; lia. }
      exists w'. by rewrite (run_bind_ok _ _ _ _ _ Hd).
    - assert (dropCandidateIfZero pub (mkCand false (cd_Votes c)) (noted w) = (Ok false, noted w)) as Hd by (apply drop_false; by right).
      rewrite (run_bind_ok _ _ _ _ _ Hd).
      destruct (put_candidate_same R (noted w) pub false (cd_Votes c) Hok') as (w' & Hput & Hm & _); [by rewrite Hin|done|right; lia|].
      by exists w'. }
  rewrite run_bind in Hrun. rewrite run_bind. destruct (dropCandidateIfZero _ _ _) as [[ok| |] w1]; [|done..].
  rewrite run_bind, Hrun. apply (keeps_trans _ w'); [intros R'; by apply moved_keep|apply (sr_gas _ _ (mv_rest _ _ _ _ Hm))|].
  destruct (cd_Registered c); [apply keeps_note_candidate|apply keeps_refl].
Qed.

Lemma keeps_put key b w R : neo_ok R 0 w → other_key key → keeps w (PutStorageItem NeoT key b w).
Proof.
  intros Hok Hk. split; [|done]. intros R' Hok'. eapply moved_keep; [|exact Hok']. apply put_other_moved; [by eapply neo_cands_ok|done].
Qed.

Lemma keeps_records gr w R : neo_ok R 0 w → Forall (λ r, 0 <= r.2 <= 10 * GASFactor) gr → keeps w (on_cache (set_gasPerBlock gr) w).
Proof.
  intros _ Hgr. split; [|done]. intros R' [H1 H2 H3 H4 H5 H6 H7 H8 H9 H10]. split; try done.
  intros k b Hb Hk. destruct (H2 k b Hb Hk) as (s & Hs & Hpos & Hacc). exists s. do 2 (split; [done|]). by apply (account_latest R' w).
Qed.

Lemma gasRecordKey_other i : other_key (gasRecordKey i).
Proof. unfold gasRecordKey. repeat split; try (intros E; by injection E); done. Qed.

Lemma keeps_lift {A B} (r : res nerr A) (f : A → M B) w : (∀ a, r = Ok a → keeps w (f a w)) → keeps w ((lift r ≫= f) w).
Proof. intros Hf. rewrite run_lift. destruct r; [by apply Hf|apply keeps_refl|done]. Qed.

Lemma keeps_no_error {A} (m : M A) w : keeps w (m w) → keeps w (no_error m w).
Proof. unfold no_error. by destruct (m w) as [[]?]. Qed.

Lemma keeps_must {E A B} (r : res E A) (f : A → M B) w : (∀ a, r = Ok a → keeps w (f a w)) → keeps w ((must r ≫= f) w).
Proof. intros Hf. rewrite run_bind. destruct r; cbn; [by apply Hf|done|done]. Qed.

Lemma keeps_setGAS args w R : neo_ok R 0 w → keeps w (setGASPerBlock ic args w).
Proof.
  intros Hok. unfold setGASPerBlock. apply keeps_lift. intros gas _. apply keeps_lift. intros index _.
  apply keeps_bind; [|intros ? w1 _; apply keeps_refl]. apply keeps_no_error. unfold SetGASPerBlock.
  destruct (bool_decide (gas < 0) || _) eqn:Hrange; [apply keeps_refl|].
  apply orb_false_iff in Hrange as [H1%bool_decide_eq_false H2%bool_decide_eq_false].
  unfold CheckCommittee, GetCommitteeAddress. rewrite run_bind. rewrite run_bind. cbn [gets]. destruct (CheckHashedWitness _ _) as [[]| |]; cbn [must mret]; [|apply keeps_refl|done..].
  unfold mret, M_ret. cbn [negb]. pose proof (keeps_put (gasRecordKey index) (ToBytes gas) w R Hok (gasRecordKey_other index)) as Hput.
  apply keeps_bind; [exact Hput|]. intros u w1 [= <- <-]. destruct Hput as [Hn Hg].
  apply (keeps_records _ _ R); [by apply Hn|].
  apply Forall_app. split; [apply (no_records _ _ _ (Hn R Hok))|]. apply Forall_singleton. cbn. lia.
Qed.

Lemma keeps_setPrice args w R : neo_ok R 0 w → keeps w (setRegisterPrice ic args w).
Proof.
  intros Hok. unfold setRegisterPrice. apply keeps_lift. intros price _. destruct (_ || _); [done|].
  unfold CheckCommittee, GetCommitteeAddress. rewrite run_bind. rewrite run_bind. cbn [gets]. destruct (CheckHashedWitness _ _) as [[]| |]; cbn [must mret]; [|done|done..].
  unfold mret, M_ret. cbn [negb].
  assert (other_key registerPriceKey) as Hk by (repeat split; done).
  pose proof (keeps_put registerPriceKey (ToBytes price) w R Hok Hk) as Hput.
  apply keeps_bind; [exact Hput|]. intros u w1 [= <- <-]. split; [|done]. intros R' Hok'. by apply (neo_ok_ext R' 0 (w_set_store NeoT (<[registerPriceKey:=ToBytes price]> (w_store NeoT w)) w)).
Qed.

Lemma keeps_succeeded m w : keeps w (m w) → keeps w (succeeded m w).
Proof. unfold succeeded. by destruct (m w) as [[]?]. Qed.

Lemma keeps_registerCandidate h args w R : neo_ok R 0 w → keeps w (registerCandidate ic nh h args w).
Proof.
  intros Hok. unfold registerCandidate. apply keeps_lift. intros pub _.
  apply keeps_bind; [destruct (IsHardforkEnabled _ _); [apply keeps_refl|]; unfold CheckKeyed; by destruct (CheckKeyedWitness _ _ _); try apply keeps_refl|].
  intros ok w1 Hrun. assert (w1 = w) as ->.
  { revert Hrun. destruct (IsHardforkEnabled _ _); [by intros [= _ ->]|]. unfold CheckKeyed. destruct (CheckKeyedWitness _ _ _); cbn; by intros [= _ ->]. }
  destruct ok; cbn [negb]; [|apply keeps_refl]. rewrite run_bind. cbn [getRegisterPriceInternal gets].
  assert (∀ gas, keeps w (no_error (AddDatoshi ic gas) w)) as Hgas.
  { intros gas. apply keeps_no_error. unfold AddDatoshi. destruct (_ || _); (split; [|done]); intros R' Hok'; by apply (neo_ok_ext R' 0 w). }
  apply keeps_bind; [apply Hgas|]. intros u w1 E. pose proof (Hgas (nc_registerPrice (w_cache w))) as Hk. rewrite E in Hk.
  destruct Hk as [Hn _]. apply keeps_succeeded, (keeps_register _ _ R). by apply Hn.
Qed.

Lemma keeps_unregisterCandidate h args w R : neo_ok R 0 w → keeps w (unregisterCandidate ic nh h args w).
Proof.
  intros Hok. unfold unregisterCandidate. apply keeps_lift. intros pub _. unfold CheckKeyed. apply keeps_must. intros [] _; cbn [negb].
  - by apply keeps_succeeded, (keeps_unregister _ _ R).
  - apply keeps_refl.
Qed.

Lemma keeps_checkRegister pub w R : neo_ok R 0 w → keeps w (checkRegisterCandidate ic nh pub w).
Proof.
  intros Hok. unfold checkRegisterCandidate, CheckKeyed. apply keeps_must. intros [] _; cbn [negb]; [by apply (keeps_register _ _ R)|apply keeps_refl].
Qed.
End candidates.

(** ** Deferred operations *)

Lemma ledger_gas_le R B B' w : B <= B' → B' <= MaxGas → ledger_ok R B w → ledger_ok R B' w.
Proof. intros HB HB' [Hn Hg]. split; [done|]. by apply (gas_ok_le B). Qed.

(** The ledger is in order whenever a contract is called and at the end, if
    the contract leaves one that is. *)
Fixpoint safe {X} (R B : Z) (p : proc X) : Prop :=
  match p with
  | Returned _ w => ledger_ok R B w
  | Panicked => True
  | Calling _ w k => ledger_ok R B w ∧
      ∀ B' w', B <= B' → B' + 2 * MaxMint <= MaxGas → ledger_ok R B' w' → safe R (B' + 2 * MaxMint) (k w')
  end.

Lemma safe_le {X} R B B' (p : proc X) : B <= B' → B' <= MaxGas → safe R B p → safe R B' p.
Proof.
  destruct p as [r w| |pay w k]; cbn; intros HB HB'; [by apply ledger_gas_le|done|]. intros [Hl Hk].
  split; [by apply (ledger_gas_le R B)|]. intros B1 w1 HB1. apply Hk. lia.
Qed.

(** A continuation that may add [c]. *)
Definition safe_cont {X} (R c : Z) (k : World → proc X) : Prop :=
  ∀ B w, B + c <= MaxGas → ledger_ok R B w → safe R (B + c) (k w).

Lemma safe_cont_le {X} R c c' (k : World → proc X) : c <= c' → safe_cont R c k → safe_cont R c' k.
Proof. intros Hc Hk B w HB Hl. apply (safe_le R (B + c)); [lia|done|]. apply Hk; [lia|done]. Qed.

Lemma in256_NewBigInteger n : (∃ i, NewBigInteger n = Ok i) → in256 n.
Proof.
  unfold NewBigInteger. intros [i Hi]. destruct (CheckIntegerSize n) as [u| |] eqn:E; try done. apply CheckIntegerSize_ok. by destruct u.
Qed.

Section deferred.
Context `{Digest} (ic : Context) (nh gh : bytes) {X : Type} (R : Z).

(** The announcement of a transfer. *)
Lemma emit_safe t from to amount B w : ledger_ok R B w →
  match emitTransfer ic t from to amount w with
  | (Ok _, w') => ledger_ok R B w' ∧ w_contracts w' = w_contracts w ∧ in256 amount
  | _ => True
  end.
Proof.
  intros [Hn Hg]. unfold emitTransfer, note_int. rewrite run_bind. rewrite run_bind.
  destruct (NewBigInteger amount) eqn:E; cbn [must]; [|done..]. unfold mret, M_ret, AddNotification. destruct (_ && _); [done|].
  split; [split; [by apply (neo_ok_ext R 0 w)|by apply (gas_ok_ext B 0 w)]|]. split; [done|]. apply in256_NewBigInteger. by eexists.
Qed.

(** The call of the payee, or none, and then the rest. *)
Lemma call_safe B c t from to amount data cop (k : World → proc X) w :
  0 <= c <= 2 * MaxMint → safe_cont R c k → B + c <= MaxGas → ledger_ok R B w →
  safe R (B + c)
    ((match to with
      | Some to => if (cop : bool) then λ w,
          match w_contracts w !! to with
          | None => k w
          | Some accepts => match NewBigInteger amount with
                            | Ok _ => if (accepts : bool) then Calling (mkPay (nt_Hash t) to from amount data) w k else Panicked
                            | _ => Panicked end
          end else k
      | None => k
      end) w).
Proof.
  intros Hc Hk HB Hl. destruct to as [to|]; [|by apply Hk]. destruct cop; [|by apply Hk].
  destruct (w_contracts w !! to) as [accepts|]; [|by apply Hk]. destruct (NewBigInteger amount); [|done..]. destruct accepts; [|done].
  cbn [safe]. split; [apply (ledger_gas_le R B); [lia|done|done]|]. intros B' w' HB' Hmax Hl'.
  apply (safe_cont_le R c); [lia|done|lia|done].
Qed.

Lemma mint_safe to amount cop (k : World → proc X) c B w :
  0 <= c <= MaxMint → safe_cont R c k → 0 <= amount → B + MaxMint + c <= MaxGas → ledger_ok R B w →
  safe R (B + MaxMint + c) (gas_MintDeferrable ic gh to amount cop k w).
Proof.
  intros Hc Hk Ha HB [Hn Hg]. unfold gas_MintDeferrable, MintDeferrable. assert (0 < MaxMint) by (unfold MaxMint; lia).
  destruct (decide (amount = 0)) as [->|Hne].
  { rewrite (bool_decide_eq_true_2 (0 = 0)) by done. apply (safe_le R (B + c)); [lia|lia|]. apply Hk; [lia|done]. }
  rewrite bool_decide_eq_false_2 by done. unfold do_ at 1. destruct (addTokens (GAS gh) to amount w) as [[d| |] w1] eqn:Hadd; [|done..].
  unfold postTransfer, do_. destruct (decide (in256 amount)) as [Hin|Hin].
  2:{ unfold emitTransfer, note_int. rewrite run_bind. rewrite run_bind. destruct (NewBigInteger amount) eqn:E; cbn [must]; [|done..].
      exfalso. apply Hin, in256_NewBigInteger. by eexists. }
  pose proof (go_total _ _ _ Hg). assert (amount <= MaxMint) as Hm by (unfold in256, MaxMint in *; lia).
  rewrite (gas_addTokens gh B w to amount Hg Hne ltac:(lia)) in Hadd. case_bool_decide as Hneg; [done|]. injection Hadd as <- <-.
  destruct (add_gas_ok B w to amount Hg ltac:(lia) ltac:(lia)) as (Hg1 & _ & _).
  assert (ledger_ok R (B + MaxMint) (add_gas to amount w)) as Hl1.
  { split; [by apply (neo_ok_ext R 0 w)|]. apply (gas_ok_le _ (B + MaxMint)) in Hg1; [done|lia|lia]. }
  pose proof (emit_safe (GAS gh) None (Some to) amount _ _ Hl1) as He. destruct (emitTransfer _ _ _ _ _ _) as [[u| |] w2]; [|done..].
  destruct He as (Hl2 & _ & _).
  refine (call_safe (B + MaxMint) c (GAS gh) None (Some to) amount Null cop (distribute (GAS gh) cop [] (λ _, k)) w2 _ _ _ Hl2); [lia|done|lia].
Qed.

Definition dists_ok (dists : list (option gasDistribution)) : Prop := Forall (λ d, ∀ x, d = Some x → earned (gd_Amount x)) dists.

(** At most two distributions of NEO. *)
Lemma distribute_safe cop (d1 d2 : option gasDistribution) (pop : item → World → proc X) :
  (∀ i, safe_cont R 0 (pop i)) → dists_ok [d1; d2] → safe_cont R (2 * MaxMint) (distribute (NEO ic nh gh) cop [d1; d2] pop).
Proof.
  intros Hpop Hd. assert (0 < MaxMint) by (unfold MaxMint; lia). apply Forall_cons in Hd as [Hd1 Hd]. apply Forall_cons in Hd as [Hd2 _].
  assert (∀ d, (∀ x, Some d = Some x → earned (gd_Amount x)) → safe_cont R MaxMint (gas_MintDeferrable ic gh (gd_To d) (gd_Amount d) cop (pop (Bool true)))) as Hone.
  { intros d Hd B w HB Hl. apply (safe_le R (B + MaxMint + 0)); [lia|lia|]. apply (mint_safe _ _ _ _ 0); [lia|done|by apply Hd|lia|done]. }
  unfold distribute. cbn [length]. rewrite bool_decide_eq_false_2 by lia. cbn [nt_gasMinter NEO].
  destruct d1 as [d1|], d2 as [d2|].
  - intros B w HB Hl. replace (B + 2 * MaxMint) with (B + MaxMint + MaxMint) by lia.
    apply mint_safe; [lia|by apply Hone|by apply Hd1|lia|done].
  - apply (safe_cont_le R MaxMint); [lia|by apply Hone].
  - apply (safe_cont_le R MaxMint); [lia|by apply Hone].
  - apply (safe_cont_le R 0); [lia|apply Hpop].
Qed.

Lemma do_lift_safe {A} (r : res nerr A) (k : A → World → proc X) c :
  (∀ a, r = Ok a → safe_cont R c (k a)) → safe_cont R c (do_ (lift r) k).
Proof. intros Hk B w HB Hl. unfold do_, lift. destruct r as [a| |]; [by apply Hk|done..]. Qed.

Lemma postTransfer_safe c t from to amount data (pop : item → World → proc X) dists :
  0 <= c <= 2 * MaxMint → safe_cont R c (distribute t true dists pop) →
  safe_cont R c (postTransfer ic t from (Some to) amount data true pop dists).
Proof.
  intros Hc Hd B w HB Hl. unfold postTransfer, do_. pose proof (emit_safe t from (Some to) amount _ _ Hl) as He.
  destruct (emitTransfer _ _ _ _ _ _) as [[u| |] w1]; [|done..]. destruct He as (Hl1 & _).
  exact (call_safe B c t from (Some to) amount data true (distribute t true dists pop) w1 Hc Hd HB Hl1).
Qed.

Lemma pop_safe B c (pop : item → World → proc X) i w :
  (∀ i, safe_cont R 0 (pop i)) → 0 <= c → B + c <= MaxGas → ledger_ok R B w → safe R (B + c) (pop i w).
Proof. intros Hpop Hc HB Hl. apply (safe_le R (B + 0)); [lia|done|]. apply Hpop; [lia|done]. Qed.

Lemma refused_safe B c (pop : item → World → proc X) w p :
  (∀ i, safe_cont R 0 (pop i)) → 0 <= c → B + c <= MaxGas → ledger_ok R B w → refused w pop Panicked p → safe R (B + c) p.
Proof. intros Hpop Hc HB Hl [->| ->]; [by apply pop_safe|done]. Qed.

(** A transfer of a token whose distributions are safe. *)
Lemma transfer_safe (t : nep17TokenNative) {L : Ledger t} B h args (pop : item → World → proc X) w :
  (∀ w, ledger_ok R B w ↔ lg_ok 0 w) → (∀ i, safe_cont R 0 (pop i)) →
  (∀ from to d1 d2, dist_ok t from d1 → dist_ok t to d2 → safe_cont R (2 * MaxMint) (distribute t true [d1; d2] pop)) →
  B + 2 * MaxMint <= MaxGas → ledger_ok R B w → safe R (B + 2 * MaxMint) (transferDeferrable ic t h args pop w).
Proof.
  intros Hiff Hpop Hd HB Hl. assert (0 < MaxMint) by (unfold MaxMint; lia).
  destruct (transfer_args h args) as [[[[from to] amount] data]|e|] eqn:Hargs.
  2,3: by rewrite transfer_bad_args by by rewrite Hargs.
  destruct (decide (amount < 0 ∨ authorized ic from = false)) as [Hbad|Hgood].
  { eapply refused_safe; [done|lia|done..|]. by eapply transfer_refused. }
  assert (0 <= amount ∧ authorized ic from = true) as [Ha Hauth].
  { destruct (authorized ic from); [|by destruct Hgood; right]. split; [|done]. destruct (decide (0 <= amount)); [done|]. destruct Hgood. left. lia. }
  pose proof (transfer_run ic t h args pop from to amount data w Hargs Ha Hauth (proj1 (Hiff w) Hl)) as Hrun.
  case_bool_decide; [rewrite Hrun; by apply pop_safe; [|lia|..]|].
  destruct Hrun as (d1 & d2 & w' & -> & (Hok & _) & Hd1 & Hd2).
  apply postTransfer_safe; [lia|by eapply Hd|done|by apply Hiff].
Qed.

Lemma gas_transfer_safe h args (pop : item → World → proc X) :
  (∀ i, safe_cont R 0 (pop i)) → safe_cont R (2 * MaxMint) (transferDeferrable ic (GAS gh) h args pop).
Proof.
  intros Hpop B w HB Hl. apply (transfer_safe (GAS gh) (L := gas_ledger gh B R) B); [|done| |done|done].
  - intros w'. split; [by intros []|by intros []].
  - intros from to d1 d2 H1 H2. destruct d1 as [d1|]; [by destruct (H1 d1 eq_refl)|]. destruct d2 as [d2|]; [by destruct (H2 d2 eq_refl)|].
    unfold distribute. cbn [length]. rewrite bool_decide_eq_false_2 by lia.
    apply (safe_cont_le R 0); [unfold MaxMint; lia|apply Hpop].
Qed.

Lemma neo_transfer_safe h args (pop : item → World → proc X) : block_ok ic →
  (∀ i, safe_cont R 0 (pop i)) → safe_cont R (2 * MaxMint) (transferDeferrable ic (NEO ic nh gh) h args pop).
Proof.
  intros Hblk Hpop B w HB Hl. apply (transfer_safe (NEO ic nh gh) (L := neo_ledger ic nh gh B R Hblk) B); [|done| |done|done].
  - intros w'. split; [by intros []|by intros []].
  - intros from to d1 d2 H1 H2. apply distribute_safe; [done|].
    apply Forall_cons; split; [intros x ->; by apply H1|]. apply Forall_cons; split; [intros x ->; by apply H2|by apply Forall_nil].
Qed.

(** A vote, with what it does when it fails or has nothing to mint. *)
Lemma vote_call_safe h pub (k : World → proc X) returned : block_ok ic → (∀ p, pub = Some p → key_stored p) →
  safe_cont R 0 k → (∀ r, safe_cont R 0 (returned r)) →
  safe_cont R (2 * MaxMint) (voteInternalUncheckedDeferrable ic nh gh h pub k returned).
Proof.
  intros Hblk Hpub Hk Hret B w HB [Hn Hg]. assert (0 < MaxMint) by (unfold MaxMint; lia). unfold voteInternalUncheckedDeferrable.
  pose proof (vote_spec ic nh R w h pub Hblk Hn Hpub) as Hv.
  destruct (voteInternal ic nh h pub w) as [[g|e|] w1]; [| |done].
  - destruct Hv as (s & _ & _ & Hgpos & Hn1 & _ & Hg1 & _ & _).
    assert (ledger_ok R B w1) as Hl1 by (split; [done|by apply (gas_ok_ext B 0 w)]).
    destruct g as [g|].
    + apply (safe_le R (B + MaxMint + 0)); [lia|lia|]. apply (mint_safe _ _ _ _ 0); [lia|done|by apply Hgpos|lia|done].
    + apply (safe_le R (B + 0)); [lia|lia|]. apply Hret; [lia|done].
  - destruct Hv as [-> _]. apply (safe_le R (B + 0)); [lia|lia|]. apply Hret; [lia|done].
Qed.

Lemma vote_safe h args (pop : item → World → proc X) : block_ok ic →
  (∀ a p, arg args 1 = Ok a → toPublicKey h a = Ok p → key_stored p) → (∀ i, safe_cont R 0 (pop i)) →
  safe_cont R (2 * MaxMint) (voteDeferrable ic nh gh h args pop).
Proof.
  intros Hblk Hkeys Hpop. unfold voteDeferrable. assert (0 < MaxMint) by (unfold MaxMint; lia).
  apply do_lift_safe. intros acc _. apply do_lift_safe. intros pub Hpub.
  assert (∀ p, pub = Some p → key_stored p) as Hst.
  { intros p ->. destruct (arg args 1) as [a| |] eqn:Ha; [|done..]. cbn [mbind res_bind] in Hpub.
    assert (toPublicKey h a = Ok p) as Hp by (destruct a; try done; cbn [mbind res_bind] in Hpub; destruct (toPublicKey h _); try done; by injection Hpub as ->).
    by eapply Hkeys. }
  destruct (CheckHashedWitness _ _) as [[]| |].
  - by apply vote_call_safe.
  - by apply (safe_cont_le R 0); [lia|].
  - by apply (safe_cont_le R 0); [lia|].
  - intros B w HB Hl. done.
Qed.
End deferred.

(** ** The registration that a payment of GAS to NEO buys *)

Section payment.
Context `{Digest} (ic : Context) (nh gh : bytes) (R : Z).

Lemma burn_ok B w h amount : ledger_ok R B w → IsInt64 amount = true → B + MaxMint <= MaxGas →
  match Burn ic (GAS gh) h amount w with (Ok _, w') => ledger_ok R (B + MaxMint) w' | _ => True end.
Proof.
  intros [Hn Hg] Hi HB. assert (2 ^ 63 < MaxMint) by done. assert (- 2 ^ 63 <= amount) as Hlow.
  { unfold IsInt64 in Hi. apply bool_decide_eq_true in Hi. lia. }
  unfold Burn. destruct (decide (amount = 0)) as [Hz|Hz].
  { rewrite (bool_decide_eq_true_2 _ Hz). cbn. apply (ledger_gas_le R B); [lia|done|by split]. }
  rewrite (bool_decide_eq_false_2 _ Hz), run_bind. pose proof (go_total _ _ _ Hg).
  rewrite (gas_addTokens gh B w h (- amount) Hg ltac:(lia) ltac:(lia)). case_bool_decide as Hneg; [done|].
  destruct (add_gas_ok B w h (- amount) Hg ltac:(lia) ltac:(lia)) as (Hg' & _ & _). unfold run_sync, postTransfer, do_.
  assert (ledger_ok R (B + MaxMint) (add_gas h (- amount) w)) as Hl.
  { split; [by apply (neo_ok_ext R 0 w)|]. apply (gas_ok_le _ (B + MaxMint)) in Hg'; [done|lia|done]. }
  pose proof (emit_safe ic R (GAS gh) (Some h) None amount _ _ Hl) as He.
  destruct (emitTransfer _ _ _ _ _ _) as [[u| |] w1]; [|done..]. by destruct He.
Qed.

Lemma payment_ok B w h args : ledger_ok R B w → B + MaxMint <= MaxGas →
  match onNEP17Payment ic nh gh h args w with (Ok _, w') => ledger_ok R (B + MaxMint) w' | _ => True end.
Proof.
  intros Hl HB. unfold onNEP17Payment. rewrite run_lift. destruct (a0 ← arg args 0; toUint160 h a0); [|done..].
  rewrite run_lift. destruct (a1 ← arg args 1; toBigInt a1) as [amount| |]; [|done..].
  rewrite run_lift. destruct (a2 ← arg args 2; toPublicKey h a2) as [pub| |]; [|done..].
  rewrite run_bind. cbn [getRegisterPriceInternal gets]. case_bool_decide; [done|].
  destruct (IsInt64 amount) eqn:Hi; [|done]. cbn [negb orb]. case_bool_decide; [done|].
  pose proof (keeps_checkRegister ic nh pub w R (lg_neo _ _ _ Hl)) as Hk. apply keeps_no_error in Hk. rewrite run_bind.
  destruct (no_error _ w) as [[u| |] w1]; [|done..]. pose proof (keeps_ledger _ _ _ _ _ Hk Hl) as Hl1.
  rewrite run_bind. pose proof (burn_ok B w1 nh amount Hl1 Hi HB) as Hb. by destruct (Burn _ _ _ _ w1) as [[]?].
Qed.
End payment.
