(* ===== verification/NativeSpec.v ===== *)
(** * NativeSpec: what the token contracts guarantee

    Calls of the contracts, nested in any way, keep the ledger; a transfer and
    a vote do what they say, and a transfer that starts comes to its end. *)

From S2P Require Import Prelude Bigint BinIO Codec Hash Keys Nanvil Witness Tx StackItem Serial Storage Script Emit NativeState Native NativeNeo NativeInv NativeVotes NativeTransfer NativeSafe.

#[local] Open Scope Z_scope.

(** ** Calls of the contracts

    The methods that change the state; [RevokeVotes] is called by the Policy
    contract when it blocks an account. *)
Inductive method := Transfer (t : tokid) | Vote | RegisterCandidate | UnregisterCandidate | OnNEP17Payment | SetGasPerBlock
  | SetRegisterPrice | RevokeVotes (account : bytes).

Record call := mkCall { ca_ctx : Context; ca_heap : Heap; ca_method : method; ca_args : list item }.

Section calls.
Context `{Digest} (nh gh : bytes).

Definition token (ic : Context) (t : tokid) : nep17TokenNative := match t with GasT => GAS gh | NeoT => NEO ic nh gh end.

Definition at_once (m : M item) : World → proc item := λ w,
  match m w with (Ok i, w) => Returned i w | _ => Panicked end.

Definition run_call (c : call) : World → proc item :=
  let 'mkCall ic h m args := c in
  match m with
  | Transfer t => transferDeferrable ic (token ic t) h args Returned
  | Vote => voteDeferrable ic nh gh h args Returned
  | RegisterCandidate => at_once (registerCandidate ic nh h args)
  | UnregisterCandidate => at_once (unregisterCandidate ic nh h args)
  | OnNEP17Payment => at_once (onNEP17Payment ic nh gh h args)
  | SetGasPerBlock => at_once (setGASPerBlock ic args)
  | SetRegisterPrice => at_once (setRegisterPrice ic args)
  | RevokeVotes account => RevokeVotesDeferrable ic nh gh account (Returned Null) (λ _, Returned Null)
  end.

(** The keys in arguments are points of the curve. *)
Definition call_ok (c : call) : Prop :=
  block_ok (ca_ctx c) ∧ ∀ a p, arg (ca_args c) 1 = Ok a → toPublicKey (ca_heap c) a = Ok p → key_stored p.

(** [n] steps from one state to another: a call returns, and during the call
    of a payee any calls return.  A call that panics is undone by the caller,
    so that it does not count. *)
Inductive calls : nat → World → World → Prop :=
  | calls_nil w : calls 0 w w
  | calls_cons c n m w w1 w2 : call_ok c → finishes n (run_call c w) w1 → calls m w1 w2 → calls (S (n + m)) w w2
with finishes : nat → proc item → World → Prop :=
  | finishes_returned r w : finishes 0 (Returned r w) w
  | finishes_calling n m p w k w1 w2 : calls n w w1 → finishes m (k w1) w2 → finishes (S (n + m)) (Calling p w k) w2.

Scheme calls_mut := Minimality for calls Sort Prop
with finishes_mut := Minimality for finishes Sort Prop.

Lemma at_once_safe R c m : 0 <= c → (∀ B w, B + c <= MaxGas → ledger_ok R B w → ∀ i w', m w = (Ok i, w') → ledger_ok R (B + c) w') →
  safe_cont R c (at_once m).
Proof. intros Hc Hm B w HB Hl. unfold at_once. destruct (m w) as [[i|e|] w'] eqn:E; [|done..]. by eapply (Hm B w). Qed.

Lemma keeps_safe R (m : M item) : (∀ w, neo_ok R 0 w → keeps w (m w)) → safe_cont R (2 * MaxMint) (at_once m).
Proof.
  intros Hm. apply at_once_safe; [done|]. intros B w HB Hl i w' E. pose proof (Hm w (lg_neo _ _ _ Hl)) as Hk. rewrite E in Hk.
  apply (ledger_gas_le R B); [unfold MaxMint; lia|done|by eapply keeps_ledger].
Qed.

(** Each call is safe. *)
Lemma call_is_safe R c : call_ok c → safe_cont R (2 * MaxMint) (run_call c).
Proof.
  intros [Hblk Hkeys]. assert (∀ i, safe_cont R 0 (@Returned item i)) as Hpop.
  { intros i B w HB Hl. cbn. by rewrite Z.add_0_r. }
  destruct c as [ic h m args]. cbn in *. destruct m as [[]| | | | | | |account].
  - by apply gas_transfer_safe.
  - by apply neo_transfer_safe.
  - by apply vote_safe.
  - apply keeps_safe. intros w Hn. by eapply keeps_registerCandidate.
  - apply keeps_safe. intros w Hn. by eapply keeps_unregisterCandidate.
  - apply at_once_safe; [done|]. intros B w HB Hl i w' E. pose proof (payment_ok ic nh gh R B w h args Hl) as Hp. rewrite E in Hp.
    apply (ledger_gas_le R (B + MaxMint)); [unfold MaxMint in *; lia|done|]. apply Hp. unfold MaxMint in *. lia.
  - apply keeps_safe. intros w Hn. by eapply keeps_setGAS.
  - apply keeps_safe. intros w Hn. by eapply keeps_setPrice.
  - by apply vote_call_safe.
Qed.

(** C1: No sequence of calls breaks the ledger of the two tokens, even when
    the contracts that are paid call back, to any depth, before the payment
    is complete: afterwards the supplies are the sums of the balances, every
    candidate has the votes of the accounts that vote for it, the turnout is
    that of the voters, and no account has earned what its candidate has not
    given.  Each step adds at most [2^256] to the supply of GAS. *)
Theorem ledger_kept n w w' R B :
  calls n w w' → ledger_ok R B w → B + Z.of_nat n * (2 * MaxMint) <= MaxGas → ledger_ok R (B + Z.of_nat n * (2 * MaxMint)) w'.
Proof.
  intros Hc. revert B. assert (0 < MaxMint) as Hpos by done. set (c := 2 * MaxMint). assert (0 < c) as Hcp by lia.
  revert n w w' Hc. apply (calls_mut
    (λ n w w', ∀ B, ledger_ok R B w → B + Z.of_nat n * c <= MaxGas → ledger_ok R (B + Z.of_nat n * c) w')
    (λ n p w', ∀ B, safe R B p → B + Z.of_nat n * c <= MaxGas → ledger_ok R (B + Z.of_nat n * c) w')).
  - intros w B Hl _. by rewrite Z.add_0_r.
  - intros op n m w w1 w2 Hop _ IH1 _ IH2 B Hl HB.
    replace (B + Z.of_nat (S (n + m)) * c) with (B + c + Z.of_nat n * c + Z.of_nat m * c) in * by lia.
    apply IH2; [|done]. apply IH1; [|lia]. apply call_is_safe; [done|unfold c in *; lia|done].
  - intros r w B Hl _. by rewrite Z.add_0_r.
  - intros n m p w k w1 w2 _ IH1 _ IH2 B [Hl Hk] HB.
    replace (B + Z.of_nat (S (n + m)) * c) with (B + Z.of_nat n * c + c + Z.of_nat m * c) in * by lia.
    apply IH2; [|lia]. apply Hk; [lia|unfold c in *; lia|]. apply IH1; [done|lia].
Qed.

(** *** Running calls

  A payee makes the calls of a list before it returns. *)
Section run.
Context (callee : list call → World → option (nat * World)).

Fixpoint settle (lists : list (list call)) (p : proc item) : option (nat * World) :=
  match p with
  | Returned _ w => Some (0%nat, w)
  | Panicked => None
  | Calling _ w k =>
      match callee (default [] (head lists)) w with
      | Some (n, w1) => match settle (tail lists) (k w1) with Some (m, w2) => Some (S (n + m), w2) | None => None end
      | None => None
      end
  end.

Fixpoint run_calls (cs : list (call * list (list call))) (w : World) : option (nat * World) :=
  match cs with
  | [] => Some (0%nat, w)
  | (c, lists) :: cs =>
      match settle lists (run_call c w) with
      | Some (n, w1) => match run_calls cs w1 with Some (m, w2) => Some (S (n + m), w2) | None => None end
      | None => None
      end
  end.

Definition callee_ok : Prop := ∀ cs w n w', Forall call_ok cs → callee cs w = Some (n, w') → calls n w w'.

Lemma settle_finishes lists p n w' : callee_ok → Forall (Forall call_ok) lists → settle lists p = Some (n, w') → finishes n p w'.
Proof.
  intros Hcal. revert lists n w'. induction p as [r w| |pay w k IH]; intros lists n w' Hl; cbn; [intros [= <- <-]; constructor|done|].
  assert (Forall call_ok (default [] (head lists)) ∧ Forall (Forall call_ok) (tail lists)) as [Hh Ht].
  { destruct Hl; [by split; apply Forall_nil|by split]. }
  destruct (callee _ w) as [[a w1]|] eqn:Hc; [|done]. destruct (settle (tail lists) (k w1)) as [[b w2]|] eqn:Hs; [|done].
  intros [= <- <-]. econstructor; [by eapply Hcal|by eapply IH].
Qed.

Lemma run_calls_ok cs w n w' : callee_ok → Forall (λ c, call_ok c.1 ∧ Forall (Forall call_ok) c.2) cs →
  run_calls cs w = Some (n, w') → calls n w w'.
Proof.
  intros Hcal Hcs. revert w n w'. induction Hcs as [|[c lists] cs [Hc Hl] _ IH]; intros w n w'; cbn; [intros [= <- <-]; constructor|].
  destruct (settle lists (run_call c w)) as [[a w1]|] eqn:Hs; [|done]. destruct (run_calls cs w1) as [[b w2]|] eqn:Hr; [|done].
  intros [= <- <-]. econstructor; [done|by eapply settle_finishes|by apply IH].
Qed.
End run.

(** Payees at the depth [d] call nobody. *)
Fixpoint at_depth (d : nat) (cs : list call) (w : World) : option (nat * World) :=
  match d with
  | O => match cs with [] => Some (0%nat, w) | _ => None end
  | S d => run_calls (at_depth d) (map (λ c, (c, [])) cs) w
  end.

Lemma at_depth_ok d : callee_ok (at_depth d).
Proof.
  induction d as [|d IH]; intros cs w n w' Hcs; cbn.
  - destruct cs; [|done]. intros [= <- <-]. constructor.
  - apply run_calls_ok; [done|]. apply Forall_map. eapply Forall_impl; [exact Hcs|]. intros c Hc. by split; [|apply Forall_nil].
Qed.
End calls.

(** ** Transfers and votes *)

Definition balance (t : tokid) (w : World) (h : bytes) : Z := match t with GasT => gas_balance w h | NeoT => neo_balance w h end.

(** What a distribution of GAS may be: none for GAS itself. *)
Definition distribution_ok (t : tokid) (to : bytes) (d : option gasDistribution) : Prop :=
  ∀ x, d = Some x → t = NeoT ∧ gd_To x = to ∧ earned (gd_Amount x).

Section effects.
Context `{Digest} (ic : Context) (nh gh : bytes).

Definition transfer_result {X} (t : tokid) (R B : Z) (from to : bytes) (amount : Z) (data : item) (pop : item → World → proc X)
    (w : World) (p : proc X) : Prop :=
  if bool_decide (amount < 0) || negb (authorized ic from) then refused w pop Panicked p
  else if bool_decide (balance t w from < amount) then p = pop (Bool false) w
  else ∃ d1 d2 w', p = postTransfer ic (token nh gh ic t) (Some from) (Some to) amount data true pop [d1; d2] w'
    ∧ ledger_ok R B w' ∧ same_outside w w' ∧ supply t w' = supply t w
    ∧ (∀ j, balance t w' j = balance t w j - (if bool_decide (j = from) then amount else 0) + (if bool_decide (j = to) then amount else 0))
    ∧ distribution_ok t from d1 ∧ distribution_ok t to d2.

Lemma transfer_result_of {X} t {L : Ledger (token nh gh ic t)} R B h args (pop : item → World → proc X) w from to amount data :
  (∀ w, ledger_ok R B w ↔ lg_ok 0 w) → (∀ w h, lg_balance w h = balance t w h) → (∀ w, ledger_ok R B w → supply t w = lg_total w) →
  (lg_distributes = true → t = NeoT) →
  transfer_args h args = Ok (from, to, amount, data) → ledger_ok R B w →
  transfer_result t R B from to amount data pop w (transferDeferrable ic (token nh gh ic t) h args pop w).
Proof.
  intros Hiff Hbal Htot Hd Hargs Hl. unfold transfer_result. destruct (_ || _) eqn:Hbad.
  { eapply transfer_refused; [done|]. apply orb_true_iff in Hbad as [Ha%bool_decide_eq_true|Ha%negb_true_iff]; auto. }
  apply orb_false_iff in Hbad as [Ha%bool_decide_eq_false Hauth%negb_false_iff].
  pose proof (transfer_run ic _ h args pop from to amount data w Hargs ltac:(lia) Hauth (proj1 (Hiff w) Hl)) as Hrun.
  rewrite Hbal in Hrun. destruct (bool_decide (_ < _)); [done|].
  destruct Hrun as (d1 & d2 & w' & -> & (Hok & Hs & Hb & Ht) & H1 & H2). exists d1, d2, w'. split; [done|].
  assert (ledger_ok R B w') as Hl' by by apply Hiff. split; [done|]. split; [done|].
  split; [by rewrite (Htot w'), (Htot w), Ht|]. split; [intros j; rewrite <- !Hbal; apply Hb|].
  split; intros x Hx; [destruct (H1 x Hx) as (? & ? & ?)|destruct (H2 x Hx) as (? & ? & ?)]; auto.
Qed.

(** Both tokens are ledgers. *)
Lemma token_ledger t R B : block_ok ic → ∃ L : Ledger (token nh gh ic t),
  (∀ w, ledger_ok R B w ↔ lg_ok 0 w) ∧ (∀ w h, lg_balance w h = balance t w h) ∧ (∀ w, ledger_ok R B w → supply t w = lg_total w)
  ∧ (lg_distributes = true → t = NeoT).
Proof.
  intros Hblk. destruct t; [exists (gas_ledger gh B R)|exists (neo_ledger ic nh gh B R Hblk)]; (split; [|split; [done|split; [|done]]]).
  - intros w'. split; [by intros []|by intros []].
  - intros w' [_ Hg]. rewrite (go_supply _ _ _ Hg). cbn. lia.
  - intros w'. split; [by intros []|by intros []].
  - intros w' [Hn _]. rewrite (no_supply _ _ _ Hn). cbn. lia.
Qed.

(** C2: A transfer of either token with well-formed arguments: it is refused,
    with nothing changed, when the amount is negative, the sender neither is
    the caller nor is witnessed, or has less than the amount; otherwise the
    amount goes from the sender to the receiver, who may be the same, no
    other balance and no supply changes, the ledger is kept, and what is left
    is the announcement, the call of the receiver and, for NEO only, the
    minting of what the two accounts have earned. *)
Theorem transfer_effect {X} t R B h args (pop : item → World → proc X) w from to amount data :
  block_ok ic → ledger_ok R B w → transfer_args h args = Ok (from, to, amount, data) →
  transfer_result t R B from to amount data pop w (transferDeferrable ic (token nh gh ic t) h args pop w).
Proof. intros Hblk Hl Hargs. destruct (token_ledger t R B Hblk) as (L & ? & ? & ? & ?). by apply (transfer_result_of t (L := L)). Qed.

Definition for_key (kb : bytes) (k : option PublicKey) (n : Z) : Z := if bool_decide (PublicKey_Bytes <$> k = Some kb) then n else 0.

(** C3: A vote fails, with nothing changed, exactly when there is no such
    account or the key is not that of a registered candidate; otherwise the
    balance of the account moves from the votes of the old candidate to those
    of the new one, the account alone is changed, earning from now on what
    the new candidate gives, and the vote is announced. *)
Theorem vote_effect R w h pub :
  block_ok ic → neo_ok R 0 w → (∀ k, pub = Some k → key_stored k) → notes_full ic w = false →
  match voteInternal ic nh h pub w with
  | (Ok g, w') => ∃ s, accs w !! makeAccountKey h = Some s ∧ vote_target w pub ∧ (∀ x, g = Some x → earned x)
      ∧ neo_ok R 0 w' ∧ accs w' = <[makeAccountKey h := voter_record ic w s pub]> (accs w)
      ∧ (∀ kb, votes_of w' kb = votes_of w kb - for_key kb (nb_VoteTo s) (nb_Balance s) + for_key kb pub (nb_Balance s))
      ∧ w_gas w' = w_gas w
      ∧ w_notes w' = w_notes w ++ [vote_note nh h (nb_VoteTo s) pub (nb_Balance s)]
  | (Err _, w') => w' = w ∧ (accs w !! makeAccountKey h = None ∨ ¬ vote_target w pub)
  | (Panic, _) => False
  end.
Proof.
  intros Hblk Hok Hpub Hfull. pose proof (vote_spec ic nh R w h pub Hblk Hok Hpub) as Hv.
  destruct (voteInternal ic nh h pub w) as [[g|e|] w']; [|done|congruence].
  destruct Hv as (s & Hs & Ht & Hg & Hok' & Hacc & Hgas & _ & Hnotes). exists s. split_and!; try done.
  intros kb. rewrite (no_votes _ _ _ Hok'), (no_votes _ _ _ Hok), Hacc, msum_insert, Hs. cbn [at_key].
  unfold votes_for, voted, for_key. cbn [voter_record nb_VoteTo nb_Balance]. done.
Qed.
End effects.

(** ** A transfer comes to its end

    Whatever the contracts that are called do, when they return in a state that
    [Env] allows. *)
Inductive eventually (Env : World → Prop) (Q : item → World → Prop) : proc item → Prop :=
  | ev_returned r w : Q r w → eventually Env Q (Returned r w)
  | ev_calling p w k : (∀ w', Env w' → eventually Env Q (k w')) → eventually Env Q (Calling p w k).

Section progress.
Context `{Digest} (ic : Context) (nh gh : bytes) (R B : Z).
Hypothesis (Hblk : block_ok ic) (Hmax : B + 2 * MaxMint <= MaxGas).

(** Contracts do not reject payments. *)
Definition accepting (w : World) : Prop := ∀ h b, w_contracts w !! h = Some b → b = true.

(** [n] more notifications are within the limit, which holds for scripts of
    transactions since Echidna. *)
Definition room (n : nat) (w : World) : Prop :=
  IsHardforkEnabled ic HFEchidna = true → ic_Application ic = true → (length (w_notes w) + n <= MaxNotificationCount)%nat.

(** At most [c] has been added since a contract returned, and there is room for
    [n] notifications. *)
Definition good (c : Z) (n : nat) (w : World) : Prop := ledger_ok R (B + c) w ∧ accepting w ∧ room n w.

Lemma good_le c c' n n' w : c <= c' <= 2 * MaxMint → (n' <= n)%nat → good c n w → good c' n' w.
Proof.
  intros Hc Hn (Hl & Ha & Hr). split; [|split; [done|]].
  - apply (ledger_gas_le R (B + c)); [lia|lia|done].
  - intros H1 H2. specialize (Hr H1 H2). lia.
Qed.

Lemma emit_good c n t from to amount w :
  in256 amount → good c (S n) w → ∃ w', emitTransfer ic t from to amount w = (Ok tt, w') ∧ good c n w'.
Proof.
  intros Hin ([Hn Hg] & Ha & Hr). unfold emitTransfer. rewrite run_note_int by done. unfold AddNotification.
  assert (IsHardforkEnabled ic HFEchidna && (ic_Application ic && bool_decide (length (w_notes w) = MaxNotificationCount)) = false) as ->.
  { unfold room in Hr. destruct (IsHardforkEnabled ic HFEchidna), (ic_Application ic); try done. specialize (Hr eq_refl eq_refl).
    apply bool_decide_eq_false_2. lia. }
  eexists. split; [done|]. split; [|split; [done|]].
  - split; [by apply (neo_ok_ext R 0 w)|by apply (gas_ok_ext _ 0 w)].
  - intros H1 H2. specialize (Hr H1 H2). cbn. rewrite length_app. cbn. lia.
Qed.

(** The call of a payee and what follows it: two more notifications, if GAS is
    minted for both accounts. *)
Lemma call_good Q t from to amount data dists pop c n w :
  in256 amount → 0 <= c <= 2 * MaxMint → (n <= 2)%nat →
  (∀ w', good c n w' → eventually (good 0 2) Q (distribute t true dists pop w')) → good c (S n) w →
  eventually (good 0 2) Q (postTransfer ic t from (Some to) amount data true pop dists w).
Proof.
  intros Hin Hc Hn Hk Hw. unfold postTransfer, do_. destruct (emit_good c n t from (Some to) amount w Hin Hw) as (w1 & -> & Hw1).
  pose proof (big_item_ok amount Hin) as Hi. unfold big_item in Hi.
  destruct (w_contracts w1 !! to) as [b|] eqn:Hb; [|by apply Hk]. destruct (NewBigInteger amount); [|done..].
  destruct Hw1 as (_ & Ha & _). rewrite (Ha _ _ Hb). constructor. intros w' Hw'. apply Hk. by apply (good_le 0 _ 2).
Qed.

Lemma mint_good Q to amount k c n w :
  earned amount → 0 <= c <= MaxMint → (n <= 2)%nat → (∀ w', good (c + MaxMint) n w' → eventually (good 0 2) Q (k w')) → good c (S n) w →
  eventually (good 0 2) Q (gas_MintDeferrable ic gh to amount true k w).
Proof.
  intros [Ha Hlt] Hc Hn2 Hk Hw. assert (0 < MaxMint) by done. unfold gas_MintDeferrable, MintDeferrable.
  destruct (decide (amount = 0)) as [Hz|Hz].
  { rewrite (bool_decide_eq_true_2 _ Hz). apply Hk, (good_le c _ (S n)); [lia|lia|done]. }
  rewrite (bool_decide_eq_false_2 _ Hz). unfold do_ at 1. destruct Hw as ([Hn Hg] & Hacc & Hr).
  pose proof (go_total _ _ _ Hg). pose proof (gas_balance_nonneg _ _ _ to Hg).
  rewrite (gas_addTokens gh (B + c) w to amount Hg Hz ltac:(lia)). rewrite bool_decide_eq_false_2 by lia.
  destruct (add_gas_ok (B + c) w to amount Hg ltac:(lia) ltac:(lia)) as (Hg' & _ & _).
  apply (call_good Q (GAS gh) None to amount Null [] (λ _, k) (c + MaxMint) n); [unfold in256, MaxMint in *; lia|lia|done| |].
  - intros w' Hw'. unfold distribute. cbn [length]. rewrite bool_decide_eq_false_2 by lia. by apply Hk.
  - split; [|split; [done|exact Hr]]. split; [by apply (neo_ok_ext R 0 w)|].
    apply (gas_ok_le _ (B + (c + MaxMint))) in Hg'; [done|unfold MaxMint in *; lia|lia].
Qed.

Definition done_with (i : item) (w : World) : Prop := i = Bool true ∧ good (2 * MaxMint) 0 w.

Lemma distribute_good t from to d1 d2 w :
  distribution_ok t from d1 → distribution_ok t to d2 → good 0 2 w →
  eventually (good 0 2) done_with (distribute (token nh gh ic t) true [d1; d2] Returned w).
Proof.
  intros H1 H2 Hw. assert (0 < MaxMint) by done. unfold distribute. cbn [length]. rewrite bool_decide_eq_false_2 by lia.
  assert (∀ c n w', 0 <= c <= 2 * MaxMint → good c n w' → eventually (good 0 2) done_with (Returned (Bool true) w')) as Hret.
  { intros c n w' Hc Hw'. constructor. split; [done|]. apply (good_le c _ n); [lia|lia|done]. }
  destruct t.
  - destruct d1 as [d1|]; [by destruct (H1 d1 eq_refl)|]. destruct d2 as [d2|]; [by destruct (H2 d2 eq_refl)|]. apply (Hret 0 2%nat); [lia|done].
  - cbn [token nt_gasMinter NEO]. destruct d1 as [d1|], d2 as [d2|].
    + apply (mint_good _ _ _ _ 0 1); [by apply H1|lia|lia| |done]. intros w1 Hw1.
      apply (mint_good _ _ _ _ (0 + MaxMint) 0); [by apply H2|lia|lia| |done]. intros w2. apply Hret. lia.
    + apply (mint_good _ _ _ _ 0 1); [by apply H1|lia|lia| |done]. intros w1. apply Hret. lia.
    + apply (mint_good _ _ _ _ 0 1); [by apply H2|lia|lia| |done]. intros w1. apply Hret. lia.
    + apply (Hret 0 2%nat); [lia|done].
Qed.

(** C4: A transfer of either token that an authorized sender can pay is
    finished with [true], if every contract that is called, the receiver and
    for NEO the two accounts that are given GAS, accepts and returns with the
    ledger in order, and if the limit on notifications leaves room for those of
    the transfer: three when it starts and two whenever a contract returns.
    Nothing else that the contracts do in between can stop it. *)
Theorem transfer_completes t h args w from to amount data :
  ledger_ok R B w → accepting w → room 3 w → transfer_args h args = Ok (from, to, amount, data) → 
  0 <= amount <= balance t w from → in256 amount → authorized ic from = true →
  eventually (good 0 2) done_with (transferDeferrable ic (token nh gh ic t) h args Returned w).
Proof.
  intros Hl Hacc Hroom Hargs Ha Hin Hauth. destruct (token_ledger ic nh gh t R B Hblk) as (L & H1 & H2 & H3 & H4).
  pose proof (transfer_result_of ic nh gh t (L := L) R B h args Returned w from to amount data H1 H2 H3 H4 Hargs Hl) as Hr.
  unfold transfer_result in Hr. rewrite Hauth, (bool_decide_eq_false_2 (amount < 0)), (bool_decide_eq_false_2 (_ < amount)) in Hr by lia.
  destruct Hr as (d1 & d2 & w' & -> & Hl' & Hs & _ & _ & Hd1 & Hd2).
  apply (call_good _ _ _ _ _ _ _ _ 0 2); [done|unfold MaxMint; lia|lia| |].
  - intros w1. by eapply distribute_good.
  - split; [by rewrite Z.add_0_r|]. split.
    + intros a b. rewrite (so_contracts _ _ Hs). apply Hacc.
    + intros E1 E2. rewrite (so_notes _ _ Hs). by apply Hroom.
Qed.
End progress.

(** ** An example

    All NEO is in one account, which has no GAS, in block 5. *)
Section example.
#[local] Existing Instance toy_Digest.

Definition ex_hash (n : Z) : bytes := replicate 19 x00 ++ [z2b n].
Definition ex_nh : bytes := ex_hash 1.
Definition ex_gh : bytes := ex_hash 2.
Definition ex_a : bytes := ex_hash 3.
Definition ex_b : bytes := ex_hash 4.
Definition ex_cfg : ProtocolConfiguration := mkCfg [] ∅ ∅ 0.
Definition ex_env (caller : bytes) : WitnessEnv := mkWitnessEnv caller caller true true (λ _, None) [] (mkRegistry ∅ false false).
Definition ex_ctx (caller : bytes) : Context :=
  mkCtx (Some (mkBlk 5 0 [])) 4 false ∅ true (ex_env caller) ex_cfg (λ _, false) (λ _, 0) (-1) false false.
Definition ex_cache : NeoCache := set_gasPerBlock [(0, 5 * GASFactor)] zero_cache.
Definition ex_account : NEOBalance := mkNB NEOTotalSupply 0 None 0.
Definition ex_record : bytes := match NEOBalance_Bytes ex_account with Ok b => b | _ => [] end.
(** [ex_b] is a contract. *)
Definition ex_world : World :=
  mkWorld ∅ (<[makeAccountKey ex_a := ex_record]> (<[totalSupplyKey := ToBytes NEOTotalSupply]> {[votersCountKey := []]}))
    ex_cache [] 0 {[ex_b := true]}.

Definition ex_transfer (t : tokid) (from to : bytes) (n : Z) : call :=
  mkCall (ex_ctx from) emptyHeap (Transfer t) [ByteArray from; ByteArray to; Integer n; Null].

Lemma ex_decoded : NEOBalanceFromBytes ex_record = Ok ex_account.
Proof. vm_compute. reflexivity. Qed.

Lemma ex_neo k b : w_neo ex_world !! k = Some b →
  k = makeAccountKey ex_a ∧ b = ex_record ∨ k = totalSupplyKey ∧ b = ToBytes NEOTotalSupply ∨ k = votersCountKey ∧ b = [].
Proof.
  cbn [ex_world w_neo]. intros [[<- <-]|[_ [[<- <-]|[_ [<- <-]%lookup_singleton_Some]]%lookup_insert_Some]]%lookup_insert_Some; auto.
Qed.

Lemma ex_accs : accs ex_world = {[makeAccountKey ex_a := ex_account]}.
Proof.
  unfold accs, ex_world. cbn [w_neo]. rewrite (view_insert _ _ _ _ _ ex_account) by (done || by rewrite ex_decoded).
  rewrite view_insert_other by done. rewrite <- insert_empty, view_insert_other by done. done.
Qed.

Lemma ex_cands : cands ex_world = ∅.
Proof. vm_compute. reflexivity. Qed.

Lemma ex_ledger_ok : ledger_ok 0 0 ex_world.
Proof.
  split.
  - split.
    + done.
    + intros k b [[-> ->]|[[-> ->]|[-> ->]]]%ex_neo; [|intros E; discriminate E..]. intros _. exists ex_account.
      split; [exact ex_decoded|]. split; [done|]. by split.
    + intros k b [[-> ->]|[[-> ->]|[-> ->]]]%ex_neo E; discriminate E.
    + intros kb. unfold votes_of. rewrite ex_cands, ex_accs, lookup_empty. unfold msum. by rewrite map_fold_singleton.
    + rewrite ex_accs. vm_compute. reflexivity.
    + rewrite ex_accs. vm_compute. reflexivity.
    + vm_compute. by split.
    + intros k v. cbn. by rewrite lookup_empty.
    + intros k b [[-> ->]|[[-> ->]|[-> ->]]]%ex_neo E; discriminate E.
    + apply Forall_singleton. by split.
  - split.
    + intros k b. cbn. by rewrite lookup_empty.
    + vm_compute. reflexivity.
    + vm_compute. discriminate.
    + vm_compute. discriminate.
Qed.

Lemma ex_block a : block_ok (ex_ctx a).
Proof. by intros b [= <-]. Qed.

Lemma ex_call_ok t from to n : toPublicKey emptyHeap (ByteArray to) = Panic → call_ok (ex_transfer t from to n).
Proof. intros Hto. split; [apply ex_block|]. cbn [ex_transfer ca_args ca_heap]. intros a p [= <-]. by rewrite Hto. Qed.

(** [ex_a] pays 10 NEO to [ex_b], which returns 3 of them at once. *)
Definition ex_calls : list (call * list (list call)) := [(ex_transfer NeoT ex_a ex_b 10, [[ex_transfer NeoT ex_b ex_a 3]])].

Lemma ledger_kept_witness : ∃ w', calls ex_nh ex_gh 3 ex_world w' ∧ neo_balance w' ex_a = NEOTotalSupply - 7 ∧ neo_balance w' ex_b = 7
  ∧ gas_balance w' ex_a = 250000000 ∧ ledger_ok 0 (0 + 3 * (2 * MaxMint)) w'.
Proof.
  assert ((λ '(n, w'), (n, neo_balance w' ex_a, neo_balance w' ex_b, gas_balance w' ex_a)) <$>
    run_calls ex_nh ex_gh (at_depth ex_nh ex_gh 1) ex_calls ex_world = Some (3%nat, NEOTotalSupply - 7, 7, 250000000)) as Hv
    by (vm_compute; reflexivity).
  destruct (run_calls _ _ _ ex_calls ex_world) as [[n w']|] eqn:E; [|discriminate Hv]. cbn [fmap option_fmap option_map] in Hv. injection Hv as -> Ha Hb Hg. exists w'.
  assert (calls ex_nh ex_gh 3 ex_world w') as Hc.
  { eapply run_calls_ok; [apply at_depth_ok| |exact E]. apply Forall_singleton. split; [by apply ex_call_ok|].
    apply Forall_singleton, Forall_singleton. by apply ex_call_ok. }
  do 4 (split; [done|]). apply (ledger_kept ex_nh ex_gh 3 ex_world w' 0 0 Hc ex_ledger_ok). vm_compute. discriminate.
Defined.

Lemma transfer_effect_witness :
  transfer_args emptyHeap [ByteArray ex_a; ByteArray ex_b; Integer 10; Null] = Ok (ex_a, ex_b, 10, Null)
  ∧ transfer_result (ex_ctx ex_a) ex_nh ex_gh NeoT 0 0 ex_a ex_b 10 Null (@Returned item) ex_world
      (transferDeferrable (ex_ctx ex_a) (NEO (ex_ctx ex_a) ex_nh ex_gh) emptyHeap [ByteArray ex_a; ByteArray ex_b; Integer 10; Null]
        (@Returned item) ex_world).
Proof.
  split; [vm_compute; reflexivity|].
  apply (transfer_effect (ex_ctx ex_a) ex_nh ex_gh NeoT 0 0 _ _ _ _ ex_a ex_b 10 Null); [apply ex_block|exact ex_ledger_ok|vm_compute; reflexivity].
Defined.

(** The base point of the curve. *)
Definition ex_point : PublicKey :=
  Point 0x6b17d1f2e12c4247f8bce6e563a440f277037d812deb33a0f4a13945d898c296
    0x4fe342e2fe1a7f9b8ee7eb4a7c0f9e162bce33576b315ececbb6406837bf51f5.

Definition ex_registered : World := (RegisterCandidateInternal (ex_ctx ex_a) ex_nh ex_point ex_world).2.

Lemma ex_registered_ok : neo_ok 0 0 ex_registered.
Proof.
  pose proof (keeps_register (ex_ctx ex_a) ex_nh ex_point ex_world 0 (lg_neo _ _ _ ex_ledger_ok)) as Hk.
  unfold ex_registered. destruct (RegisterCandidateInternal _ _ _ _) as [[u|e|] w] eqn:E; [|by apply Hk, ex_ledger_ok|].
  - by apply Hk, ex_ledger_ok.
  - exfalso. assert (is_ok (RegisterCandidateInternal (ex_ctx ex_a) ex_nh ex_point ex_world).1 = true) as Hv by (vm_compute; reflexivity).
    by rewrite E in Hv.
Qed.

Lemma vote_effect_witness :
  match voteInternal (ex_ctx ex_a) ex_nh ex_a (Some ex_point) ex_registered with
  | (Ok g, w') => votes_of w' (PublicKey_Bytes ex_point) = NEOTotalSupply ∧ g = Some 250000000
  | _ => False
  end.
Proof.
  assert (key_stored ex_point) as Hkey by (vm_compute; reflexivity).
  assert (∀ k, Some ex_point = Some k → key_stored k) as Hkeys by (intros k E; rewrite <- (Some_inj _ _ E); exact Hkey).
  assert (notes_full (ex_ctx ex_a) ex_registered = false) as Hfull by (vm_compute; reflexivity).
  pose proof (vote_effect (ex_ctx ex_a) ex_nh 0 ex_registered ex_a (Some ex_point) (ex_block ex_a) ex_registered_ok Hkeys Hfull) as Hv.
  assert ((voteInternal (ex_ctx ex_a) ex_nh ex_a (Some ex_point) ex_registered).1 = Ok (Some 250000000)) as Hr by (vm_compute; reflexivity).
  assert (votes_of ex_registered (PublicKey_Bytes ex_point) = 0 ∧ accs ex_registered !! makeAccountKey ex_a = Some ex_account) as [Hz Ha]
    by (vm_compute; by split).
  destruct (voteInternal _ _ _ _ _) as [[g|e|] w']; [|discriminate Hr|discriminate Hr]. cbn [fst] in Hr. injection Hr as ->.
  destruct Hv as (s & Hs & _ & _ & _ & _ & Hvotes & _). clear Hkey Hkeys Hfull. split; [|reflexivity]. rewrite Ha in Hs. injection Hs as <-.
  rewrite Hvotes, Hz. unfold for_key. cbn [ex_account nb_VoteTo nb_Balance fmap option_fmap option_map].
  rewrite bool_decide_eq_false_2, bool_decide_eq_true_2 by done. done.
Defined.

Lemma transfer_completes_witness :
  eventually (good (ex_ctx ex_a) 0 0 0 2) (done_with (ex_ctx ex_a) 0 0)
    (transferDeferrable (ex_ctx ex_a) (NEO (ex_ctx ex_a) ex_nh ex_gh) emptyHeap [ByteArray ex_a; ByteArray ex_b; Integer 10; Null]
      Returned ex_world).
Proof.
  apply (transfer_completes (ex_ctx ex_a) ex_nh ex_gh 0 0 (ex_block ex_a) ltac:(vm_compute; discriminate)
    NeoT _ _ _ ex_a ex_b 10 Null ex_ledger_ok).
  - intros h b. cbn [ex_world w_contracts]. by intros [_ <-]%lookup_singleton_Some.
  - intros _ _. cbn. unfold MaxNotificationCount. lia.
  - vm_compute. reflexivity.
  - vm_compute. split; discriminate.
  - vm_compute. split; [discriminate|reflexivity].
  - vm_compute. reflexivity.
Defined.
End example.
