(* ===== verification/NativeEpoch.v ===== *)
(** * NativeEpoch: rewards and committees

    What holders of NEO earn is the sum of the blocks they held it for; the
    committee of an epoch are the candidates with the most votes when enough
    NEO votes, and the standby members otherwise; what a block burns and mints
    of GAS; and what is left of a candidate that has been dropped. *)

From S2P Require Import Prelude Bigint BinIO Codec Hash Keys Nanvil Witness Tx StackItem Serial Storage Script Emit NativeState Native NativeNeo NativeInv NativeVotes NativeTransfer NativeSafe NativeSpec.

#[local] Open Scope Z_scope.

(** ** The reward of holders *)

(** The sum of what [n] blocks from [start] on are worth. *)
Fixpoint blocks_sum (rate : Z → Z) (start : Z) (n : nat) : Z :=
  match n with O => 0 | S n => rate start + blocks_sum rate (start + 1) n end.

Lemma blocks_sum_app rate s n m : blocks_sum rate s (n + m) = blocks_sum rate s n + blocks_sum rate (s + Z.of_nat n) m.
Proof.
  revert s. induction n as [|n IH]; intros s; cbn [Nat.add blocks_sum]; [by rewrite Z.add_0_r|]. rewrite IH.
  replace (s + 1 + Z.of_nat n) with (s + Z.of_nat (S n)) by lia. lia.
Qed.

Lemma blocks_sum_ext f g s n : (∀ h, s <= h < s + Z.of_nat n → f h = g h) → blocks_sum f s n = blocks_sum g s n.
Proof.
  revert s. induction n as [|n IH]; intros s Hfg; cbn [blocks_sum]; [done|]. rewrite (Hfg s), (IH (s + 1)) by (lia || (intros; apply Hfg; lia)). done.
Qed.

Lemma blocks_sum_const g s n : blocks_sum (λ _, g) s n = Z.of_nat n * g.
Proof. revert s. induction n as [|n IH]; intros s; cbn [blocks_sum]; [done|]. rewrite IH. lia. Qed.

(** The blocks up to a height. *)
Definition blocks (rate : Z → Z) (start end_ : Z) : Z := blocks_sum rate start (Z.to_nat (end_ - start)).

Lemma blocks_split rate s i e : s <= i <= e → blocks rate s e = blocks rate s i + blocks rate i e.
Proof.
  intros Hi. unfold blocks. replace (Z.to_nat (e - s)) with (Z.to_nat (i - s) + Z.to_nat (e - i))%nat by lia.
  rewrite blocks_sum_app. do 2 f_equal. lia.
Qed.

(** The rate of the first record that applies. *)
Definition rate_in (gr : list (Z * Z)) (h : Z) : Z :=
  match list_find (λ r, r.1 <= h) gr with Some (_, (_, g)) => g | None => 0 end.

Lemma rate_in_cons i g gr h : rate_in ((i, g) :: gr) h = if bool_decide (i <= h) then g else rate_in gr h.
Proof.
  unfold rate_in. cbn. destruct (decide (i <= h)) as [Hi|Hi].
  - by rewrite bool_decide_eq_true_2.
  - rewrite bool_decide_eq_false_2 by done. by destruct (list_find _ gr) as [[j [a b]]|].
Qed.

Lemma holder_sum_blocks gr s e : s <= e → holder_sum gr s e = blocks (rate_in gr) s e.
Proof.
  revert s e. induction gr as [|[i g] gr IH]; intros s e Hse; cbn [holder_sum].
  - unfold blocks. rewrite (blocks_sum_ext _ (λ _, 0)) by done. rewrite blocks_sum_const. lia.
  - assert (∀ s' e', s' <= e' <= i → blocks (rate_in ((i, g) :: gr)) s' e' = blocks (rate_in gr) s' e') as Hlow.
    { intros s' e' He'. unfold blocks. apply blocks_sum_ext. intros h Hh. rewrite rate_in_cons. by rewrite bool_decide_eq_false_2 by lia. }
    assert (∀ s', i <= s' <= e → blocks (rate_in ((i, g) :: gr)) s' e = (e - s') * g) as Hhigh.
    { intros s' Hs'. unfold blocks. rewrite (blocks_sum_ext _ (λ _, g)), blocks_sum_const; [by rewrite Z2Nat.id by lia|].
      intros h Hh. rewrite rate_in_cons. by rewrite bool_decide_eq_true_2 by lia. }
    case_bool_decide; [rewrite IH, Hlow by lia; done|]. case_bool_decide; [by rewrite Hhigh by lia|].
    rewrite IH by lia. rewrite (blocks_split _ s i e), (Hlow s i), (Hhigh i) by lia. lia.
Qed.

(** C6: What the holder of NEO earns over a range of blocks is its tenth of the
    sum, over these blocks, of the GAS per block that the contract reports for
    each, in the proportion of the NEO held, rounded down once; the code walks
    the changes of the rate backwards instead. *)
Theorem holder_reward_per_block w value start end_ rate :
  0 < value → start < end_ → (∀ h, start <= h < end_ → GetGASPerBlock h w = (Ok (rate h), w)) →
  CalculateNEOHolderReward value start end_ w
  = (Ok (value * blocks rate start end_ * neoHolderRewardRatio / (100 * NEOTotalSupply)), w).
Proof.
  intros Hv Hse Hrate. unfold CalculateNEOHolderReward. rewrite (bool_decide_eq_false_2 (value = 0)), (bool_decide_eq_false_2 (end_ <= start)), (bool_decide_eq_false_2 (value < 0)) by lia.
  cbn [orb]. rewrite run_bind. cbn [gets]. rewrite holder_sum_blocks by lia.
  assert (blocks (rate_in (rev (nc_gasPerBlock (w_cache w)))) start end_ = blocks rate start end_) as ->.
  { unfold blocks. apply blocks_sum_ext. intros h Hh. specialize (Hrate h ltac:(lia)). unfold GetGASPerBlock in Hrate. rewrite run_bind in Hrate.
    cbn [gets] in Hrate. unfold rate_in. destruct (list_find _ _) as [[j [a b]]|]; [|done]. by injection Hrate. }
  unfold lift, big_Div. rewrite bool_decide_eq_false_2, Z.mul_1_l by done. done.
Qed.

(** Five GAS a block, and three from block 4 on. *)
Lemma holder_reward_per_block_witness :
  let w := mkWorld ∅ ∅ (set_gasPerBlock [(0, 5 * GASFactor); (4, 3 * GASFactor)] zero_cache) [] 0 ∅ in
  CalculateNEOHolderReward NEOTotalSupply 2 7 w = (Ok 190000000, w).
Proof.
  intros w. rewrite (holder_reward_per_block w NEOTotalSupply 2 7 (λ h, if bool_decide (h < 4) then 5 * GASFactor else 3 * GASFactor)); [done|done|done|].
  intros h Hh. assert (h = 2 ∨ h = 3 ∨ h = 4 ∨ h = 5 ∨ h = 6) as [->|[->|[->|[->| ->]]]] by lia; vm_compute; reflexivity.
Defined.

(** ** The order of candidates *)

Definition ranked (a b : keyWithVotes) : Prop := cmp_candidates a b ≠ Gt.

Lemma ranked_iff a b : ranked a b ↔
  kw_Votes b < kw_Votes a ∨ kw_Votes b = kw_Votes a
    ∧ (blt (drop 1 (kw_Key a)) (drop 1 (kw_Key b)) ∨ drop 1 (kw_Key a) = drop 1 (kw_Key b) ∧ kw_Y a <= kw_Y b).
Proof.
  unfold ranked, cmp_candidates, blt. destruct (Z.compare_spec (kw_Votes b) (kw_Votes a)) as [Hv|Hv|Hv]; [| |].
  - destruct (bcompare (drop 1 (kw_Key a)) (drop 1 (kw_Key b))) eqn:Hb.
    + rewrite bcompare_eq in Hb. split; [intros Hy; right; split; [done|]; right; split; [done|exact Hy]|].
      intros [?|[_ [?|[_ ?]]]]; [lia|congruence|done].
    + split; [intros _; right; split; [done|by left]|done].
    + split; [done|]. intros [?|[_ [?|[E _]]]]; [lia|done|]. rewrite E, bcompare_refl in Hb. done.
  - split; [by left|done].
  - split; [done|]. intros [?|[? _]]; lia.
Qed.

#[export] Instance ranked_trans : Transitive ranked.
Proof.
  intros a b c. rewrite !ranked_iff. intros [?|[? [Hab|[Hab ?]]]] [?|[? [Hbc|[Hbc ?]]]]; try (left; lia); right; (split; [lia|]).
  - left. by etrans.
  - left. by rewrite <- Hbc.
  - left. by rewrite Hab.
  - right. split; [congruence|lia].
Qed.

#[export] Instance ranked_total : Total ranked.
Proof.
  intros a b. rewrite !ranked_iff. destruct (Z.lt_total (kw_Votes a) (kw_Votes b)) as [?|[?|?]]; [right; by left| |left; by left].
  unfold blt. rewrite (bcompare_antisym (drop 1 (kw_Key a)) (drop 1 (kw_Key b))).
  destruct (bcompare (drop 1 (kw_Key a)) (drop 1 (kw_Key b))) eqn:Hb; cbn [CompOpp].
  - rewrite bcompare_eq in Hb. destruct (Z.le_ge_cases (kw_Y a) (kw_Y b)); [left|right]; right; (split; [done|right; by split]).
  - left. right. split; [done|by left].
  - right. right. split; [done|by left].
Qed.

(** ** The committee *)

Section committee.
Context `{Digest} (ic : Context) (nh gh : bytes).

(** The account of the contract of a candidate's key. *)
Definition candidate_account (kb : bytes) : bytes := Hash160 (default [] (fst (Bytes (CheckSig kb NewBufBinWriter)))).

(** A registered candidate that is not blocked, with its votes. *)
Definition eligible (w : World) (k : keyWithVotes) : Prop :=
  candidate_at w (kw_Key k) (kw_Votes k) ∧ ic_IsBlocked ic (candidate_account (kw_Key k)) = false ∧ kw_UnmarshaledKey k = None.

Definition scanned_ok (kv : KeyValue) : bool :=
  match candidate_FromBytes (kv_val kv) with Ok c => cd_Registered c && negb (ic_IsBlocked ic (candidate_account (drop 1 (kv_key kv)))) | _ => false end.

Definition scanned (kv : KeyValue) : keyWithVotes :=
  mkKW (drop 1 (kv_key kv)) (match candidate_FromBytes (kv_val kv) with Ok c => cd_Votes c | _ => 0 end) None.

Lemma scan_all l acc : Forall (λ kv, is_ok (candidate_FromBytes (kv_val kv)) = true) l →
  (iter_cb (scan_candidate ic false (-1)) l (Ok acc)).1 = Ok (acc ++ map scanned (filter scanned_ok l)).
Proof.
  intros Hl. revert acc. induction Hl as [|kv l Hkv _ IH]; intros acc; cbn [iter_cb map]; [by rewrite app_nil_r|].
  unfold scan_candidate at 1. rewrite filter_cons.
  destruct (candidate_FromBytes (kv_val kv)) as [c| |] eqn:Hc; [|done..]. fold (candidate_account (drop 1 (kv_key kv))). cbn [negb orb].
  assert (scanned_ok kv = cd_Registered c && negb (ic_IsBlocked ic (candidate_account (drop 1 (kv_key kv))))) as Hs by (unfold scanned_ok; by rewrite Hc).
  rewrite <- Hs. destruct (scanned_ok kv) eqn:Hok.
  - rewrite decide_True by done. cbn [map]. rewrite IH. f_equal. rewrite <- app_assoc. cbn [app]. do 2 f_equal. unfold scanned. by rewrite Hc.
  - rewrite decide_False by by intros []. by rewrite IH.
Qed.

Definition cand_range : SeekRange := mkRange [z2b prefixCandidate] [] false 0.

Lemma cand_pairs w kv : kv ∈ seek_list cand_range (w_neo w) ↔ w_neo w !! kv_key kv = Some (kv_val kv) ∧ kv_key kv = cand_key (drop 1 (kv_key kv)).
Proof.
  rewrite elem_of_seek_list. apply and_iff_compat_l. unfold isKeyOK. cbn [cand_range rng_Prefix rng_Start].
  rewrite (bool_decide_eq_true_2 ([] = [])) by done. cbn [orb]. rewrite andb_true_r. unfold cand_key. destruct (kv_key kv) as [|b k]; [done|].
  cbn [has_prefix drop]. split.
  - intros [Hb _]%andb_true_iff. apply bool_decide_eq_true in Hb. by rewrite Hb.
  - intros [= ->]. apply andb_true_iff. split; [by apply bool_decide_eq_true|done].
Qed.

Lemma scanned_elem R w k : neo_ok R 0 w →
  k ∈ map scanned (filter (scanned_ok) (seek_list cand_range (w_neo w))) ↔ eligible w k.
Proof.
  intros Hok. change (map scanned) with (fmap (M := list) scanned). rewrite list_elem_of_fmap. unfold eligible, candidate_at. rewrite cands_lookup. split.
  - intros (kv & -> & Hin). apply list_elem_of_filter in Hin as [Hs Hkv]. apply cand_pairs in Hkv as [Hl Hk].
    destruct (no_cand _ _ _ Hok _ _ Hl) as (c & Hc & _); [by rewrite Hk|]. unfold scanned_ok in Hs. unfold scanned. rewrite Hc in *.
    cbn [kw_Key kw_Votes kw_UnmarshaledKey]. rewrite <- Hk, Hl. cbn. rewrite Hc. cbn.
    apply Is_true_true, andb_true_iff in Hs as [Hr Hb%negb_true_iff]. destruct c as [reg v]. cbn in Hr. by subst reg.
  - intros (Hc & Hb & Hu). destruct (w_neo w !! cand_key (kw_Key k)) as [b|] eqn:Hl; [|done]. cbn in Hc.
    destruct (candidate_FromBytes b) as [c| |] eqn:Hd; try done. injection Hc as ->.
    exists (mkKV (cand_key (kw_Key k)) b). split.
    + unfold scanned. cbn [kv_key kv_val cand_key drop]. rewrite Hd. destruct k. cbn in *. by subst.
    + apply list_elem_of_filter. split; [|by apply cand_pairs]. unfold scanned_ok. cbn [kv_key kv_val cand_key drop]. rewrite Hd.
      apply Is_true_true. cbn [cd_Registered andb]. by rewrite drop_0, Hb.
Qed.

Lemma scanned_NoDup w : NoDup (map scanned (filter (scanned_ok) (seek_list cand_range (w_neo w)))).
Proof.
  change (map scanned) with (fmap (M := list) scanned). apply NoDup_fmap_2_strong.
  - intros x y [_ Hx]%list_elem_of_filter [_ Hy]%list_elem_of_filter Hxy. apply cand_pairs in Hx as [Hxl Hx], Hy as [Hyl Hy].
    apply (f_equal kw_Key) in Hxy. cbn [scanned kw_Key] in Hxy. rewrite Hxy, <- Hy in Hx. destruct x as [kx vx], y as [ky vy]. cbn in *. subst kx.
    rewrite Hxl in Hyl. by injection Hyl as ->.
  - apply NoDup_filter. pose proof (seek_list_sorted cand_range (w_neo w)) as Hs.
    induction Hs as [|kv l Hs IH Hall]; constructor; [|done]. intros Hin. rewrite Forall_forall in Hall. by destruct (klt_irrefl _ _ (Hall _ Hin)).
Qed.

(** The candidates in order. *)
Lemma getCandidates_sorted R w : neo_ok R 0 w → ∃ cs,
  getCandidates ic false (-1) w = (Ok cs, w) ∧ (∀ k, k ∈ cs ↔ eligible w k) ∧ NoDup cs ∧ StronglySorted ranked cs.
Proof.
  intros Hok. unfold getCandidates. fold cand_range. rewrite scan_all.
  - eexists. split; [done|]. unfold sort_candidates. cbn [app]. split; [|split].
    + intros k. rewrite merge_sort_Permutation. by eapply scanned_elem.
    + rewrite merge_sort_Permutation. apply scanned_NoDup.
    + apply (StronglySorted_merge_sort ranked).
  - apply Forall_forall. intros kv Hkv. apply cand_pairs in Hkv as [Hl Hk]. destruct (no_cand _ _ _ Hok _ _ Hl) as (c & Hc & _); [by rewrite Hk|].
    by rewrite Hc.
Qed.

Lemma elem_of_length {A} (x : A) l : x ∈ l → (0 < length l)%nat.
Proof. intros Hx. destruct l; [by apply elem_of_nil in Hx|cbn; lia]. Qed.

Lemma sorted_take {A} (Rel : A → A → Prop) l n : StronglySorted Rel l → StronglySorted Rel (take n l).
Proof.
  intros Hs. revert n. induction Hs as [|x l Hs IH Hall]; intros [|n]; cbn; try constructor; [by apply IH|]. by apply Forall_take.
Qed.

Lemma sorted_split {A} (Rel : A → A → Prop) l n a b : StronglySorted Rel l → a ∈ take n l → b ∈ drop n l → Rel a b.
Proof.
  intros Hs. revert n. induction Hs as [|x l Hs IH Hall]; intros n Ha Hb; [by rewrite take_nil in Ha; apply elem_of_nil in Ha|].
  destruct n as [|n]; [by apply elem_of_nil in Ha|]. cbn in Ha, Hb. apply elem_of_cons in Ha as [->|Ha]; [|by eapply IH].
  rewrite Forall_forall in Hall. apply Hall. rewrite <- (take_drop n l). apply elem_of_app. by right.
Qed.

(** C5: The committee of an epoch.  When less than a fifth of all NEO votes,
    or there are fewer candidates than seats, the members are the standby
    committee, each with its votes if it is a candidate; otherwise they are
    eligible candidates, registered and not blocked, as many as there are
    seats, in the order of votes, and no eligible candidate outside has more
    votes than one inside. *)
Theorem committee_elected R w height t :
  let count := GetCommitteeSize (ic_cfg ic) (u32 (height + 1)) in
  let standby := cf_StandbyCommittee (ic_cfg ic) in
  neo_ok R 0 w → supply NeoT w = NEOTotalSupply → turnout w = Some t → 0 <= count <= Z.of_nat (length standby) →
  (∀ k, eligible w k → ∃ p, keyWithVotes_PublicKey k = Ok p) →
  ∃ cs, (∀ k, k ∈ cs ↔ eligible w k) ∧ NoDup cs
    ∧ if bool_decide (t * effectiveVoterTurnout < NEOTotalSupply) || bool_decide (Z.of_nat (length cs) < count)
      then computeCommitteeMembers ic nh gh height w
           = (Ok (take (Z.to_nat count) standby, map (standby_votes cs) (take (Z.to_nat count) standby)), w)
      else ∃ pubs top, computeCommitteeMembers ic nh gh height w = (Ok (pubs, top), w)
        ∧ Z.of_nat (length top) = count ∧ Forall2 (λ k p, keyWithVotes_PublicKey k = Ok p) top pubs ∧ NoDup top ∧ StronglySorted ranked top
        ∧ (∀ k, k ∈ top → eligible w k) ∧ (∀ k k', k ∈ top → eligible w k' → k' ∉ top → kw_Votes k' <= kw_Votes k).
Proof.
  intros count standby Hok Hsup Ht Hcount Hkeys. destruct (getCandidates_sorted R w Hok) as (cs & Hcs & Hel & Hnd & Hs).
  set (top := take (Z.to_nat count) cs).
  assert (computeCommitteeMembers ic nh gh height w
    = if bool_decide (t * effectiveVoterTurnout < NEOTotalSupply) || bool_decide (Z.of_nat (length cs) < count)
      then (Ok (take (Z.to_nat count) standby, map (standby_votes cs) (take (Z.to_nat count) standby)), w)
      else match mapM (λ k, match keyWithVotes_PublicKey k with Ok p => Some p | _ => None end) top with
           | Some pubs => (Ok (pubs, top), w) | None => (Err "key"%string, w) end) as ->.
  { unfold computeCommitteeMembers. rewrite run_get. cbn [w_store].
    unfold turnout in Ht. destruct (w_neo w !! votersCountKey) as [si|]; [|done]. cbn in Ht. injection Ht as ->.
    rewrite run_bind. assert (getTotalSupply (NEO ic nh gh) w = (Ok NEOTotalSupply, w)) as -> by (rewrite <- Hsup; done).
    rewrite run_lift. unfold big_Div. rewrite (bool_decide_eq_false_2 (NEOTotalSupply = 0)) by done.
    change (Z.sgn NEOTotalSupply) with 1. change (Z.abs NEOTotalSupply) with NEOTotalSupply. rewrite Z.mul_1_l.
    fold count standby. rewrite run_lift. unfold slice_to.
    rewrite (bool_decide_eq_false_2 (count < 0)), (bool_decide_eq_false_2 (Z.of_nat (length standby) < count)) by lia. cbn [orb].
    rewrite run_bind, Hcs.
    assert (bool_decide (t * effectiveVoterTurnout / NEOTotalSupply <= 0) = bool_decide (t * effectiveVoterTurnout < NEOTotalSupply)) as ->.
    { apply bool_decide_ext. pose proof (Z.div_mod (t * effectiveVoterTurnout) NEOTotalSupply ltac:(done)).
      pose proof (Z.mod_pos_bound (t * effectiveVoterTurnout) NEOTotalSupply ltac:(done)). unfold NEOTotalSupply in *. lia. }
    destruct (_ || _); [done|]. by destruct (mapM _ _). }
  exists cs. split; [done|]. split; [done|].
  destruct (_ || _) eqn:Hfew; [done|]. apply orb_false_iff in Hfew as [_ Hfew%bool_decide_eq_false].
  assert (∀ k, k ∈ top → k ∈ cs) as Htop by (intros k Hk; rewrite <- (take_drop (Z.to_nat count) cs); apply elem_of_app; by left).
  destruct (mapM (λ k, match keyWithVotes_PublicKey k with Ok p => Some p | _ => None end) top) as [pubs|] eqn:Hm.
  2:{ exfalso. apply mapM_None in Hm. apply Exists_exists in Hm as (k & Hk & Hn). destruct (Hkeys k) as [p Hp]; [by apply Hel, Htop|]. by rewrite Hp in Hn. }
  exists pubs, top. split; [done|]. split; [unfold top; rewrite length_take; lia|]. split; [|split; [|split; [|split]]].
  - apply mapM_Some in Hm. eapply Forall2_impl; [exact Hm|]. intros k p. cbn. destruct (keyWithVotes_PublicKey k); [by intros [= ->]|done..].
  - unfold top. eapply sublist_NoDup; [exact Hnd|]. apply sublist_take.
  - unfold top. by apply sorted_take.
  - intros k Hk. by apply Hel, Htop.
  - intros k k' Hk Hk' Hn. apply Hel in Hk'. rewrite <- (take_drop (Z.to_nat count) cs) in Hk'. apply elem_of_app in Hk' as [Hk'|Hk']; [done|].
    pose proof (sorted_split ranked cs _ k k' Hs Hk Hk') as Hr. apply ranked_iff in Hr. lia.
Qed.
End committee.

(** *** An example

    All NEO is in one account that votes for the base point of the curve; the
    standby committee is its inverse. *)
Section example.
#[local] Existing Instance toy_Digest.

Definition ex_key_bytes : bytes := Eval vm_compute in PublicKey_Bytes ex_point.
Definition ex_standby : PublicKey :=
  Point 0x6b17d1f2e12c4247f8bce6e563a440f277037d812deb33a0f4a13945d898c296
    0xb01cbd1c01e58065711814b583f061e9d431cca994cea1313449bf97c840ae0a.
Definition ex_election : Context :=
  mkCtx (Some (mkBlk 5 0 [])) 4 false ∅ true (ex_env ex_a) (mkCfg [ex_standby] ∅ ∅ 1) (λ _, false) (λ _, 0) (-1) false false.
Definition ex_voter : NEOBalance := mkNB NEOTotalSupply 5 (Some ex_point) 0.
Definition ex_candidate : candidate := mkCand true NEOTotalSupply.
Definition ex_voter_bytes : bytes := Eval vm_compute in match NEOBalance_Bytes ex_voter with Ok b => b | _ => [] end.
Definition ex_candidate_bytes : bytes := Eval vm_compute in match candidate_Bytes ex_candidate with Ok b => b | _ => [] end.
Definition ex_total_bytes : bytes := Eval vm_compute in ToBytes NEOTotalSupply.
Definition ex_voted : World :=
  mkWorld ∅ (<[makeAccountKey ex_a := ex_voter_bytes]> (<[cand_key ex_key_bytes := ex_candidate_bytes]>
    (<[totalSupplyKey := ex_total_bytes]> {[votersCountKey := ex_total_bytes]}))) ex_cache [] 0 ∅.

Lemma ex_voter_decoded : NEOBalanceFromBytes ex_voter_bytes = Ok ex_voter.
Proof. vm_compute. reflexivity. Qed.

Lemma ex_candidate_decoded : candidate_FromBytes ex_candidate_bytes = Ok ex_candidate.
Proof. vm_compute. reflexivity. Qed.

Lemma ex_point_bytes : PublicKey_Bytes ex_point = ex_key_bytes.
Proof. vm_compute. reflexivity. Qed.

Lemma ex_point_stored : key_stored ex_point.
Proof. vm_compute. reflexivity. Qed.

Lemma ex_voted_neo k b : w_neo ex_voted !! k = Some b →
  k = makeAccountKey ex_a ∧ b = ex_voter_bytes ∨ k = cand_key ex_key_bytes ∧ b = ex_candidate_bytes
  ∨ k = totalSupplyKey ∧ b = ex_total_bytes ∨ k = votersCountKey ∧ b = ex_total_bytes.
Proof.
  cbn [ex_voted w_neo].
  intros [[<- <-]|[_ [[<- <-]|[_ [[<- <-]|[_ [<- <-]%lookup_singleton_Some]]%lookup_insert_Some]]%lookup_insert_Some]]%lookup_insert_Some; auto.
Qed.

Lemma ex_voted_accs : accs ex_voted = {[makeAccountKey ex_a := ex_voter]}.
Proof.
  unfold accs, ex_voted. cbn [w_neo].
  assert (to_option (NEOBalanceFromBytes ex_voter_bytes) = Some ex_voter) as Hd by (rewrite ex_voter_decoded; reflexivity).
  rewrite (view_insert prefixAccount (λ b, to_option (NEOBalanceFromBytes b)) _ (makeAccountKey ex_a) ex_voter_bytes ex_voter eq_refl Hd).
  rewrite !view_insert_other by discriminate. rewrite <- insert_empty, view_insert_other by discriminate. reflexivity.
Qed.

Lemma ex_voted_cands : cands ex_voted = {[cand_key ex_key_bytes := ex_candidate]}.
Proof.
  unfold cands, ex_voted. cbn [w_neo]. rewrite view_insert_other by discriminate.
  assert (to_option (candidate_FromBytes ex_candidate_bytes) = Some ex_candidate) as Hd by (rewrite ex_candidate_decoded; reflexivity).
  rewrite (view_insert prefixCandidate (λ b, to_option (candidate_FromBytes b)) _ (cand_key ex_key_bytes) ex_candidate_bytes ex_candidate eq_refl Hd).
  rewrite view_insert_other by discriminate. rewrite <- insert_empty, view_insert_other by discriminate. reflexivity.
Qed.

Lemma ex_voted_for kb : votes_for kb ex_voter = if bool_decide (ex_key_bytes = kb) then NEOTotalSupply else 0.
Proof.
  unfold votes_for, voted. cbn [ex_voter nb_VoteTo fmap option_fmap option_map nb_Balance]. rewrite ex_point_bytes.
  destruct (decide (ex_key_bytes = kb)) as [E|E]; [rewrite !bool_decide_eq_true_2; congruence|rewrite !bool_decide_eq_false_2; congruence].
Qed.

Lemma ex_voted_ok : neo_ok 0 0 ex_voted.
Proof.
  split.
  - split; [lia|discriminate].
  - intros k b [[-> ->]|[[-> ->]|[[-> ->]|[-> ->]]]]%ex_voted_neo; [|intros E; discriminate E..]. intros _. exists ex_voter.
    split; [exact ex_voter_decoded|]. split; [reflexivity|]. split; [vm_compute; split; discriminate|by split|by split|].
    intros k E. rewrite <- (Some_inj _ _ E). split; [exact ex_point_stored|vm_compute; discriminate].
  - intros k b [[-> ->]|[[-> ->]|[[-> ->]|[-> ->]]]]%ex_voted_neo E; [discriminate E| |discriminate E..].
    exists ex_candidate. split; [exact ex_candidate_decoded|]. split; [discriminate|by left].
  - intros kb. unfold votes_of. fold (cand_key kb). rewrite ex_voted_cands, ex_voted_accs. unfold msum. rewrite map_fold_singleton, ex_voted_for.
    destruct (decide (ex_key_bytes = kb)) as [<-|E].
    + rewrite lookup_singleton_eq, bool_decide_eq_true_2 by reflexivity. reflexivity.
    + rewrite lookup_singleton_ne, bool_decide_eq_false_2; [reflexivity|done|]. intros E'. injection E'. done.
  - rewrite ex_voted_accs. vm_compute. reflexivity.
  - rewrite ex_voted_accs. vm_compute. reflexivity.
  - vm_compute. split; discriminate.
  - intros k v. cbn. by rewrite lookup_empty.
  - intros k b [[-> ->]|[[-> ->]|[[-> ->]|[-> ->]]]]%ex_voted_neo E; discriminate E.
  - apply Forall_singleton. by split.
Qed.

Lemma ex_eligible k : eligible ex_election ex_voted k ↔ k = mkKW ex_key_bytes NEOTotalSupply None.
Proof.
  unfold eligible, candidate_at. rewrite ex_voted_cands, lookup_singleton_Some. unfold cand_key. split.
  - intros ([Hk Hc] & _ & Hu). apply (f_equal (drop 1)) in Hk. apply (f_equal cd_Votes) in Hc. cbn [drop] in Hk. rewrite !drop_0 in Hk.
    destruct k as [kb v u]. cbn [kw_Key kw_Votes kw_UnmarshaledKey cd_Votes ex_candidate] in *. by subst.
  - intros ->. by split.
Qed.

Lemma committee_elected_witness : ∃ pubs top, computeCommitteeMembers ex_election ex_nh ex_gh 5 ex_voted = (Ok (pubs, top), ex_voted)
  ∧ Z.of_nat (length top) = 1 ∧ ∀ k, k ∈ top → k = mkKW ex_key_bytes NEOTotalSupply None.
Proof.
  destruct (committee_elected ex_election ex_nh ex_gh 0 ex_voted 5 NEOTotalSupply ex_voted_ok) as (cs & Hel & Hnd & Hcs).
  - vm_compute. reflexivity.
  - vm_compute. reflexivity.
  - vm_compute. split; discriminate.
  - intros k ->%ex_eligible. exists ex_point. vm_compute. reflexivity.
  - assert (mkKW ex_key_bytes NEOTotalSupply None ∈ cs) as Hin by by apply Hel, ex_eligible.
    pose proof (elem_of_length _ _ Hin) as Hlen.
    change (GetCommitteeSize (ic_cfg ex_election) (u32 (5 + 1))) with 1 in Hcs.
    rewrite (bool_decide_eq_false_2 (_ < NEOTotalSupply)), (bool_decide_eq_false_2 (_ < 1)) in Hcs; [|lia|vm_compute; discriminate].
    destruct Hcs as (pubs & top & Hrun & Hl & _ & _ & _ & Htop & _). exists pubs, top. split; [exact Hrun|]. split; [exact Hl|].
    intros k Hk. by apply ex_eligible, Htop.
Defined.
End example.

(** ** The fees of a block *)

Definition fees (txs : list Transaction) : Z := foldr (λ t n, t_SystemFee t + t_NetworkFee t + n) 0 txs.

(** What an account pays as the first signer of transactions. *)
Definition sender_of (t : Transaction) : option bytes := sg_Account <$> head (t_Signers t).

Definition paid (h : bytes) (txs : list Transaction) : Z :=
  foldr (λ t n, (if bool_decide (sender_of t = Some h) then t_SystemFee t + t_NetworkFee t else 0) + n) 0 txs.

(** What a transaction owes to the notaries: the fee of the attribute for each
    of its keys and one more. *)
Definition notary_due (ic : Context) (t : Transaction) : Z :=
  match head (filter (λ a, at_Type a = NotaryAssistedT) (t_Attributes t)) with
  | Some (mkAttr _ (Some (NotaryAssisted n))) => (n + 1) * ic_AttributeFee ic NotaryAssistedT
  | _ => 0
  end.

(** What is left of the network fees for the primary. *)
Definition primary_reward (ic : Context) (txs : list Transaction) : Z :=
  foldr (λ t n, t_NetworkFee t - notary_due ic t + n) 0 txs.

Definition fee_ok (ic : Context) (t : Transaction) : Prop :=
  0 <= t_SystemFee t ∧ 0 <= notary_due ic t <= t_NetworkFee t.

Section fees.
Context `{Digest} (ic : Context) (gh : bytes).

(** The end of a change of GAS that calls nobody. *)
Lemma post_notes dists from to amount (k : World → proc unit) w u w' : 
  run_sync (postTransfer ic (GAS gh) from to amount Null false (λ _, k) dists) w = (Ok u, w') →
  (∀ w1, distribute (GAS gh) false dists (λ _, k) w1 = k w1) → k = Returned tt →
  w_gas w' = w_gas w ∧ w_neo w' = w_neo w ∧ w_cache w' = w_cache w.
Proof.
  unfold run_sync, postTransfer, do_, emitTransfer, note_int. rewrite run_bind. rewrite run_bind.
  destruct (NewBigInteger amount); cbn [must]; [|done..]. unfold mret, M_ret, AddNotification. destruct (_ && _); [done|].
  intros Hrun Hd ->. assert (match to with Some _ => distribute (GAS gh) false dists (λ _, Returned tt) | None => distribute (GAS gh) false dists (λ _, Returned tt) end
    = distribute (GAS gh) false dists (λ _, Returned tt)) as E by by destruct to.
  rewrite E, Hd in Hrun. by injection Hrun as <- <-.
Qed.

Lemma add_gas_balance B w h amount j : gas_ok B 0 w → 0 <= gas_balance w h + amount → supply GasT w + amount <= MaxGas →
  gas_balance (add_gas h amount w) j = gas_balance w j + (if bool_decide (j = h) then amount else 0).
Proof.
  intros Hg Hn Hs. destruct (add_gas_ok B w h amount Hg Hn Hs) as (_ & Ha & _). unfold gas_balance at 1. rewrite Ha. unfold set_balance.
  destruct (decide (j = h)) as [->|Hj].
  - rewrite (bool_decide_eq_true_2 (h = h)) by done. case_bool_decide as Hz; [by rewrite lookup_delete_eq|by rewrite lookup_insert_eq].
  - rewrite (bool_decide_eq_false_2 (j = h)), Z.add_0_r by done.
    by case_bool_decide; [rewrite lookup_delete_ne by by rewrite makeAccountKey_inj|rewrite lookup_insert_ne by by rewrite makeAccountKey_inj].
Qed.

(** The balance depends on the storage of GAS alone. *)
Lemma gas_balance_ext w w' h : w_gas w' = w_gas w → gas_balance w' h = gas_balance w h.
Proof. unfold gas_balance, gas_accs. by intros ->. Qed.

Definition moved (w w' : World) (d : bytes → Z) : Prop := ∀ j, gas_balance w' j = gas_balance w j + d j.

Lemma burn_run B w h amount u w' : gas_ok B 0 w → 0 <= amount → Burn ic (GAS gh) h amount w = (Ok u, w') →
  gas_ok B 0 w' ∧ supply GasT w' = supply GasT w - amount ∧ w_cache w' = w_cache w
  ∧ moved w w' (λ j, if bool_decide (j = h) then - amount else 0).
Proof.
  intros Hg Ha. pose proof (gas_balance_nonneg _ _ _ h Hg). pose proof (go_total _ _ _ Hg). pose proof (go_bound _ _ _ Hg). unfold Burn.
  destruct (decide (amount = 0)) as [->|Hz].
  { rewrite (bool_decide_eq_true_2 (0 = 0)) by done. intros [= _ <-]. split; [done|]. split; [lia|]. split; [done|].
    intros j. case_bool_decide; lia. }
  rewrite (bool_decide_eq_false_2 _ Hz), run_bind, (gas_addTokens gh B w h (- amount) Hg ltac:(lia) ltac:(lia)).
  case_bool_decide as Hneg; [done|]. intros Hrun.
  destruct (add_gas_ok B w h (- amount) Hg ltac:(lia) ltac:(lia)) as (Hg' & _ & Hs).
  destruct (post_notes _ _ _ _ _ _ _ _ Hrun) as (Eg & _ & Ec); [done|done|].
  split; [|split; [|split; [by rewrite Ec|]]].
  - apply (gas_ok_ext _ _ _ _ Eg). apply (gas_ok_le _ B) in Hg'; [done|lia|lia].
  - rewrite <- Z.add_opp_r, <- Hs. unfold supply. cbn [w_store]. by rewrite Eg.
  - intros j. rewrite (gas_balance_ext _ _ j Eg). apply (add_gas_balance B); [done|lia|lia].
Qed.

Lemma burn_fees_run B txs w u w' : gas_ok B 0 w → Forall (fee_ok ic) txs → fees txs < 2 ^ 63 → burn_fees ic gh txs w = (Ok u, w') →
  gas_ok B 0 w' ∧ supply GasT w' = supply GasT w - fees txs ∧ w_cache w' = w_cache w ∧ moved w w' (λ j, - paid j txs).
Proof.
  intros Hg Htxs. revert w Hg. induction Htxs as [|t txs (H1 & H2) Htxs IH]; intros w Hg Hlt; cbn [burn_fees].
  - intros [= _ <-]. split; [done|]. split; [unfold fees; cbn; lia|]. split; [done|]. intros j. cbn. lia.
  - assert (0 <= fees txs) by (clear -Htxs; unfold fees; induction Htxs as [|t txs (? & ?) _ IH]; cbn; lia).
    cbn [fees foldr] in Hlt. fold (fees txs) in Hlt.
    rewrite run_bind. destruct (Sender t) as [s| |] eqn:Hsend; cbn [must]; [|done..]. unfold mret, M_ret. rewrite run_bind.
    rewrite wrap_s_small by lia. destruct (Burn _ _ _ _ w) as [[v| |] w1] eqn:Hb; [|done..].
    destruct (burn_run B w s (t_SystemFee t + t_NetworkFee t) _ _ Hg ltac:(lia) Hb) as (Hg1 & Hs1 & Hc1 & Hm1). intros Hr.
    destruct (IH w1 Hg1 ltac:(lia) Hr) as (Hg2 & Hs2 & Hc2 & Hm2). split; [done|]. cbn [fees foldr]. fold (fees txs).
    split; [lia|]. split; [by rewrite Hc2|]. intros j. rewrite Hm2, Hm1. cbn [paid foldr]. fold (paid j txs).
    assert (sender_of t = Some s) as Hso.
    { unfold Sender in Hsend. unfold sender_of. destruct (t_Signers t); [done|]. by injection Hsend as <-. }
    rewrite Hso. rewrite (bool_decide_ext (Some s = Some j) (j = s)) by naive_solver. case_bool_decide; lia.
Qed.

Lemma mint_run B w h amount u w' : gas_ok B 0 w → 0 <= amount → B + amount <= MaxGas →
  run_sync (gas_MintDeferrable ic gh h amount false (Returned tt)) w = (Ok u, w') →
  gas_ok (B + amount) 0 w' ∧ supply GasT w' = supply GasT w + amount ∧ w_cache w' = w_cache w
  ∧ moved w w' (λ j, if bool_decide (j = h) then amount else 0).
Proof.
  intros Hg Ha HB. pose proof (gas_balance_nonneg _ _ _ h Hg). pose proof (go_total _ _ _ Hg). unfold gas_MintDeferrable, MintDeferrable.
  destruct (decide (amount = 0)) as [->|Hz].
  { rewrite (bool_decide_eq_true_2 (0 = 0)) by done. intros [= _ <-]. rewrite Z.add_0_r. split; [done|]. split; [lia|]. split; [done|].
    intros j. case_bool_decide; lia. }
  rewrite (bool_decide_eq_false_2 _ Hz). unfold run_sync at 1, do_ at 1.
  rewrite (gas_addTokens gh B w h amount Hg Hz ltac:(lia)), bool_decide_eq_false_2 by lia. intros Hrun.
  destruct (add_gas_ok B w h amount Hg ltac:(lia) ltac:(lia)) as (Hg' & _ & Hs).
  assert (run_sync (postTransfer ic (GAS gh) None (Some h) amount Null false (λ _, Returned tt) []) (add_gas h amount w) = (Ok u, w')) as Hrun'
    by (unfold run_sync; by destruct (postTransfer _ _ _ _ _ _ _ _ _ _)).
  destruct (post_notes [] None (Some h) amount (Returned tt) (add_gas h amount w) u w' Hrun') as (Eg & _ & Ec); [done|done|].
  split; [|split; [|split; [by rewrite Ec|]]].
  - apply (gas_ok_ext _ _ _ _ Eg). apply (gas_ok_le _ (B + amount)) in Hg'; [done|lia|lia].
  - rewrite <- Hs. unfold supply. cbn [w_store]. by rewrite Eg.
  - intros j. rewrite (gas_balance_ext _ _ j Eg). apply (add_gas_balance B); [done|lia|lia].
Qed.

(** The 64-bit sum does not wrap. *)
Lemma net_fee_spec txs acc n :
  Forall (fee_ok ic) txs → 0 <= acc → acc + fees txs < 2 ^ 63 → net_fee ic txs acc = Ok n → n = acc + primary_reward ic txs.
Proof.
  intros Htxs. revert acc. induction Htxs as [|t txs (H1 & H2) Htxs IH]; intros acc Ha Hlt; cbn [net_fee].
  { intros [= <-]. cbn. lia. }
  assert (0 <= fees txs) by (clear -Htxs; unfold fees; induction Htxs as [|t txs (? & ?) _ IH]; cbn; lia).
  cbn [fees foldr] in Hlt. fold (fees txs) in Hlt. cbn [primary_reward foldr]. fold (primary_reward ic txs).
  rewrite (wrap_s_small 64) by lia. unfold notary_due in *. unfold GetAttributes.
  destruct (filter _ (t_Attributes t)) as [|[ty [v|]] l]; cbn [head] in *; [|destruct v; try done|done].
  - intros Hn. apply IH in Hn; lia.
  - rewrite !(wrap_s_small 64) by (rewrite ?(wrap_s_small 64) by lia; lia). intros Hn. apply IH in Hn; lia.
Qed.

(** C7: When GAS accepts a block, every account has paid the fees of the
    transactions it sent, and the primary - the validator whose index the block
    names - has got the network fees less what is owed to notaries; no other
    balance has changed.  The supply changes by the difference and is the sum of
    the balances.  Network fees are assumed to cover what notaries are owed, as
    they do for verified transactions, and all fees to fit 63 bits. *)
Theorem block_fees B b w w' :
  gas_ok B 0 w → Forall (fee_ok ic) (pb_Transactions b) → fees (pb_Transactions b) < 2 ^ 63 →
  B + primary_reward ic (pb_Transactions b) <= MaxGas →
  GAS_OnPersist ic gh b w = (Ok tt, w') →
  let reward := primary_reward ic (pb_Transactions b) in
  let primary := GetScriptHash (ic_neo2 ic) <$> nc_nextValidators (w_cache w) !! Z.to_nat (pb_PrimaryIndex b) in
  (∀ h, gas_balance w' h = gas_balance w h - paid h (pb_Transactions b) + (if bool_decide (primary = Some h) then reward else 0))
  ∧ supply GasT w' = supply GasT w - fees (pb_Transactions b) + reward
  ∧ gas_ok (B + reward) 0 w' ∧ w_cache w' = w_cache w.
Proof.
  intros Hg Htxs Hlt HB. cbn zeta. unfold GAS_OnPersist. case_bool_decide as He.
  { rewrite He in *. intros [= <-]. cbn [primary_reward fees paid foldr].
    split; [intros h; case_bool_decide; lia|]. split; [lia|]. split; [by rewrite Z.add_0_r|done]. }
  rewrite run_bind. destruct (burn_fees ic gh (pb_Transactions b) w) as [[u| |] w1] eqn:Hb; [|done..].
  destruct (burn_fees_run B _ _ _ _ Hg Htxs Hlt Hb) as (Hg1 & Hs1 & Hc1 & Hm1). rewrite run_bind. cbn [gets]. rewrite run_lift, Hc1.
  destruct (nc_nextValidators (w_cache w) !! _) as [p|] eqn:Hp; [|done].
  destruct (net_fee ic (pb_Transactions b) 0) as [n| |] eqn:Hn; cbn [lift]; [|done..]. 
  apply net_fee_spec in Hn as ->; [|done|lia|lia]. rewrite run_lift. 
  assert (0 <= primary_reward ic (pb_Transactions b)) as Hpos by (clear -Htxs; unfold primary_reward; induction Htxs as [|t txs (? & ?) _ IH]; cbn; lia).
  intros Hm. destruct (mint_run B w1 _ _ _ _ Hg1 Hpos HB Hm) as (Hg2 & Hs2 & Hc2 & Hm2).
  split; [|split; [lia|by rewrite Hc2]]. intros h. rewrite Hm2, Hm1. cbn [fmap option_fmap option_map].
  rewrite (bool_decide_ext (Some _ = Some h) (h = GetScriptHash (ic_neo2 ic) p)) by naive_solver. case_bool_decide; lia.
Qed.
End fees.

Section fees_example.
#[local] Existing Instance toy_Digest.

Definition ex_payer : bytes := replicate Uint160Size x05.
Definition ex_fee_world : World :=
  mkWorld (<[makeAccountKey ex_payer := NEP17Balance_Bytes 1000]> {[totalSupplyKey := ToBytes 1000]}) ∅
    (set_committee [ex_point] [] [] zero_cache) [] 0 ∅.

Lemma ex_fee_ok : gas_ok 1000 0 ex_fee_world.
Proof.
  assert (NEP17BalanceFromBytes (NEP17Balance_Bytes 1000) = Ok 1000) as Hd by (vm_compute; reflexivity).
  split.
  - intros k b. cbn [ex_fee_world w_gas]. intros [[<- <-]|[_ [<- <-]%lookup_singleton_Some]]%lookup_insert_Some; [|done].
    intros _. exists 1000. by split.
  - unfold gas_accs, ex_fee_world. cbn [w_gas].
    assert (to_option (NEP17BalanceFromBytes (NEP17Balance_Bytes 1000)) = Some 1000) as Hd' by (rewrite Hd; reflexivity).
    rewrite (view_insert prefixAccount (λ b, to_option (NEP17BalanceFromBytes b)) _ (makeAccountKey ex_payer) (NEP17Balance_Bytes 1000) 1000 eq_refl Hd').
    rewrite <- insert_empty, view_insert_other by done. vm_compute. reflexivity.
  - vm_compute. discriminate.
  - vm_compute. discriminate.
Qed.

(** The payer and the standby validator, whose account is the primary's. *)
Lemma block_fees_witness : ∃ w', GAS_OnPersist ex_election ex_gh (mkBlk 5 0 [ex_tx]) ex_fee_world = (Ok tt, w')
  ∧ supply GasT w' = 900 ∧ gas_balance w' ex_payer = 700 ∧ gas_balance w' (GetScriptHash false ex_point) = 200.
Proof.
  assert ((GAS_OnPersist ex_election ex_gh (mkBlk 5 0 [ex_tx]) ex_fee_world).1 = Ok tt) as Hr by (vm_compute; reflexivity).
  destruct (GAS_OnPersist ex_election ex_gh (mkBlk 5 0 [ex_tx]) ex_fee_world) as [r w'] eqn:E. cbn [fst] in Hr. subst r.
  exists w'. split; [reflexivity|].
  destruct (block_fees ex_election ex_gh 1000 (mkBlk 5 0 [ex_tx]) ex_fee_world w' ex_fee_ok) as (Hm & Hs & _).
  - apply Forall_singleton. vm_compute. repeat split; discriminate.
  - vm_compute. reflexivity.
  - vm_compute. discriminate.
  - exact E.
  - split; [rewrite Hs; vm_compute; reflexivity|]. split; rewrite Hm; vm_compute; reflexivity.
Defined.
End fees_example.

(** ** A candidate that has been dropped *)

(** A step that leaves the storage of NEO and the cached rewards. *)
Definition rewards_same {A} (m : M A) : Prop := ∀ w, w_neo (m w).2 = w_neo w ∧ nc_gasPerVoteCache (w_cache (m w).2) = nc_gasPerVoteCache (w_cache w).

Create HintDb rewards discriminated.

Lemma rewards_bind {A B} (m : M A) (f : A → M B) : rewards_same m → (∀ a, rewards_same (f a)) → rewards_same (m ≫= f).
Proof.
  intros Hm Hf w. rewrite run_bind. destruct (m w) as [[a|e|] w1] eqn:E; destruct (Hm w) as [H1 H2]; rewrite E in H1, H2; cbn in *; [|done|done].
  destruct (Hf a w1) as [H3 H4]. split; congruence.
Qed.
Lemma rewards_lift {A} (r : res nerr A) : rewards_same (lift r).
Proof. done. Qed.
Lemma rewards_must {E A} (r : res E A) : rewards_same (must r).
Proof. by destruct r. Qed.
Lemma rewards_gets {A} (f : World → A) : rewards_same (gets f).
Proof. done. Qed.
Lemma rewards_ret {A} (a : A) : rewards_same (mret a).
Proof. done. Qed.
Lemma rewards_fails {A} e : rewards_same (A := A) (fails e).
Proof. done. Qed.
Lemma rewards_cache f : (∀ c, nc_gasPerVoteCache (f c) = nc_gasPerVoteCache c) → rewards_same (on_cache f).
Proof. intros Hf w. split; [done|]. cbn. apply Hf. Qed.
#[export] Hint Resolve rewards_bind rewards_lift rewards_must rewards_gets rewards_ret rewards_fails rewards_cache : rewards.

Section dropped.
Context `{Digest} (ic : Context) (nh gh : bytes).

Lemma rewards_getCandidates b n : rewards_same (getCandidates ic b n).
Proof. intros w. unfold getCandidates. by destruct (iter_cb _ _ _).1. Qed.

Lemma rewards_compute h : rewards_same (computeCommitteeMembers ic nh gh h).
Proof.
  unfold computeCommitteeMembers. apply rewards_bind; [apply rewards_gets|]. intros [si|]; [|apply rewards_fails].
  apply rewards_bind; [apply rewards_bind; [apply rewards_gets|intros; apply rewards_ret]|]. intros total.
  apply rewards_bind; [apply rewards_lift|]. intros turn. apply rewards_bind; [apply rewards_lift|]. intros sb.
  apply rewards_bind; [apply rewards_getCandidates|]. intros cs. destruct (_ || _); [apply rewards_ret|].
  destruct (mapM _ _); [apply rewards_ret|apply rewards_fails].
Qed.

Lemma rewards_newEpoch h n : rewards_same (updateCachedNewEpochValues ic nh gh h n).
Proof.
  unfold updateCachedNewEpochValues. apply rewards_bind; [apply rewards_compute|]. intros [committee cvs].
  repeat (apply rewards_bind; [auto with rewards|intros ?]). auto with rewards.
Qed.

Lemma rewards_updateCache cvs h : rewards_same (updateCache ic cvs h).
Proof. unfold updateCache. repeat (apply rewards_bind; [first [apply rewards_gets|auto with rewards]|intros ?]). auto with rewards. Qed.

Lemma rewards_make_cache h : rewards_same (make_cache ic nh gh h).
Proof.
  unfold make_cache.
  apply rewards_bind; [apply rewards_gets|]. intros si. apply rewards_bind; [auto with rewards|]. intros committee.
  apply rewards_bind; [apply rewards_updateCache|]. intros _. apply rewards_bind; [by intros w'|]. intros _.
  apply rewards_bind; [apply rewards_gets|]. intros price. apply rewards_bind; [auto with rewards|]. intros p.
  apply rewards_bind; [by apply rewards_cache|]. intros _. apply rewards_bind; [auto with rewards|]. intros [].
  - apply rewards_newEpoch.
  - by apply rewards_cache.
Qed.

(** A node that starts caches no reward. *)
Lemma InitializeCache_rewards h w u w' : InitializeCache ic nh gh h w = (Ok u, w') → w_neo w' = w_neo w ∧ nc_gasPerVoteCache (w_cache w') = ∅.
Proof.
  unfold InitializeCache. pose proof (rewards_make_cache h (w_set_cache zero_cache w)) as Hm.
  destruct (make_cache ic nh gh h (w_set_cache zero_cache w)) as [[v|e|] w1]; [|done..]. by intros [= _ <-].
Qed.

(** C8: A candidate that is dropped loses its reward in the storage, but not
    in the cache: the entry that is deleted there is under another key.  The
    node goes on with the old reward, which it writes into the account of who
    votes for the candidate when it registers again, and a node that has been
    restarted in between writes zero: their states differ. *)
Theorem dropped_reward_stays w k g c :
  k ≠ Infinity → nc_gasPerVoteCache (w_cache w) !! PublicKey_Bytes k = Some g → cd_Registered c = false → cd_Votes c = 0 →
  ∃ w', dropCandidateIfZero k c w = (Ok true, w')
    ∧ w_neo w' !! makeVoterKey (PublicKey_Bytes k) = None
    ∧ latest w' k = g ∧ (∀ s, nb_LastGasPerVote (voter_record ic w' s (Some k)) = g)
    ∧ ∀ h u w'', InitializeCache ic nh gh h w' = (Ok u, w'') →
      w_neo w'' = w_neo w' ∧ latest w'' k = 0 ∧ ∀ s, nb_LastGasPerVote (voter_record ic w'' s (Some k)) = 0.
Proof.
  intros Hk Hg Hr Hv. unfold dropCandidateIfZero. rewrite Hr, bool_decide_eq_false_2 by (by intros []). cbn [orb].
  eexists. split; [done|]. set (w' := w_set_cache _ _).
  assert (w_neo w' !! makeVoterKey (PublicKey_Bytes k) = None) as Hn.
  { change (w_neo w') with (delete (makeVoterKey (PublicKey_Bytes k)) (delete (makeValidatorKey k) (w_neo w))). apply lookup_delete_eq. }
  assert (drop 1 (makeVoterKey (PublicKey_Bytes k)) = PublicKey_Bytes k) as Hdrop.
  { destruct k as [|x y]; [done|]. assert (length (PublicKey_Bytes (Point x y)) = 33%nat) as Hl by by (unfold PublicKey_Bytes; rewrite length_getBytes).
    unfold makeVoterKey. cbn [drop]. rewrite Hl, take_ge by lia. by rewrite app_nil_r, drop_0. }
  assert (latest w' k = g) as Hlat.
  { unfold latest. rewrite Hdrop. change (nc_gasPerVoteCache (w_cache w')) with (delete (makeVoterKey (PublicKey_Bytes k)) (nc_gasPerVoteCache (w_cache w))).
    rewrite lookup_delete_ne; [by rewrite Hg|].
    intros E. apply (f_equal length) in E. pose proof (PublicKey_Bytes_length k). rewrite length_makeVoterKey in E by lia. lia. }
  split; [done|]. split; [done|]. split; [done|]. intros h u w'' Hinit. destruct (InitializeCache_rewards h w' u w'' Hinit) as [H1 H2].
  split; [done|]. assert (latest w'' k = 0) as Hz by (unfold latest; by rewrite H2, lookup_empty, H1, Hn). by split.
Qed.
End dropped.

Section dropped_example.
#[local] Existing Instance toy_Digest.

(** After the genesis block, with a reward for a candidate. *)
Definition ex_genesis : World :=
  (NEO_Initialize ex_election ex_nh ex_gh (mkBlk 0 0 []) (mkWorld ∅ ∅ zero_cache [] 0 ∅)).2.
Definition ex_rewarded : World :=
  w_set_store NeoT (<[makeVoterKey (PublicKey_Bytes ex_point) := ToBytes 77]> (w_neo ex_genesis))
    (w_set_cache (set_gasPerVote {[PublicKey_Bytes ex_point := 77]} (w_cache ex_genesis)) ex_genesis).

Lemma dropped_reward_stays_witness : ∃ w' w'', dropCandidateIfZero ex_point (mkCand false 0) ex_rewarded = (Ok true, w')
  ∧ InitializeCache ex_election ex_nh ex_gh 5 w' = (Ok tt, w'') ∧ w_neo w'' = w_neo w'
  ∧ latest w' ex_point = 77 ∧ latest w'' ex_point = 0.
Proof.
  destruct (dropped_reward_stays ex_election ex_nh ex_gh ex_rewarded ex_point 77 (mkCand false 0)) as (w' & H1 & _ & H2 & _ & H3).
  - discriminate.
  - apply lookup_singleton_eq.
  - reflexivity.
  - reflexivity.
  - assert ((InitializeCache ex_election ex_nh ex_gh 5 (dropCandidateIfZero ex_point (mkCand false 0) ex_rewarded).2).1 = Ok tt) as Hi
      by (vm_compute; reflexivity).
    rewrite H1 in Hi. cbn [snd] in Hi. destruct (InitializeCache ex_election ex_nh ex_gh 5 w') as [r w''] eqn:E. cbn [fst] in Hi. subst r.
    destruct (H3 5 tt w'' E) as (H4 & H5 & _). exists w', w''. split; [exact H1|]. split; [exact E|]. by split.
Defined.
End dropped_example.
