(* ===== verification/BlockQueue.v ===== *)
(** * The queue of blocks

    Models [pkg/network/bqueue/queue.go]: the ring of elements that wait for
    their predecessors, with [Put], the loop of [Run], [LastQueued] and
    [Discard].  [Put] runs on the goroutines of the peers, [Run] on its own,
    and others extend the chain behind the queue, so the model is a step
    relation over the program counters of all of them: a step is a section
    under [queueLock], one call of the chain, or one access of an atomic
    variable or of the channel.  What the [select] of [Put] does comes last in
    its section and is part of it.  An element is not [nil]; [None] is [nilQ].

    The results: without blocking no interleaving makes [Put] send to the
    closed channel, with blocking one does; [Run] never sleeps while the next
    element is queued for the height it has seen; what is queued in a row is
    added and relayed in order; and elements that the chain got from elsewhere
    are never cleaned, so that the length of the queue drifts away. *)

From S2P Require Import Prelude.
From stdpp Require Import relations.

#[local] Open Scope Z_scope.

(** [Queueable]: indexed elements that can be compared. *)
Class Queueable (Q : Type) := {
  Queueable_eq :: EqDecision Q;
  GetIndex : Q → Z;
  GetIndex_range e : 0 <= GetIndex e < 2 ^ 32;
}.

(** [Queuer], the chain: [AddItem] tells whether it took the element; [moves]
    is what others do to the chain meanwhile. *)
Class Queuer (C Q : Type) := {
  Height : C → Z;
  AddItem : C → Q → C * bool;
  moves : C → C → Prop;
  Height_range c : 0 <= Height c < 2 ^ 32;
}.

Inductive OperationMode := NonBlocking | Blocking.

Definition DefaultCacheSize : Z := 2000.

(** [checkBlocks] is the channel with a buffer of one: whether a signal is in
    it, and whether it is closed.  Metrics and logs are left out. *)
Record Queue (Q : Type) := mkQueue {
  queue : list (option Q);
  lastQ : Z;
  checkBlocks : bool;
  closed : bool;
  discarded : bool;
  len : Z;
  cacheSize : Z;
  mode : OperationMode;
}.
Arguments mkQueue {Q} _ _ _ _ _ _ _ _.
Arguments queue {Q} _.
Arguments lastQ {Q} _.
Arguments checkBlocks {Q} _.
Arguments closed {Q} _.
Arguments discarded {Q} _.
Arguments len {Q} _.
Arguments cacheSize {Q} _.
Arguments mode {Q} _.

Section queue.

Context {Q : Type} `{!Queueable Q}.

Implicit Types (q : Queue Q) (e b : Q) (l : list (option Q)).

Definition New (log : bool) (cacheSize : Z) (mode : OperationMode) : option (Queue Q) :=
  if log then
    let cacheSize := if cacheSize <=? 0 then DefaultCacheSize else cacheSize in
    Some (mkQueue (replicate (Z.to_nat cacheSize) None) 0 false false false 0 cacheSize mode)
  else None.

Definition indexToPosition q (i : Z) : nat := Z.to_nat (Z.rem i (cacheSize q)).

(** The element at a position; an index in range is the invariant's. *)
Definition at_pos l (pos : nat) : option Q := mjoin (l !! pos).

Definition set_slots q l (n : Z) : Queue Q :=
  mkQueue l (lastQ q) (checkBlocks q) (closed q) (discarded q) n (cacheSize q) (mode q).

Definition set_chan q (c : bool) : Queue Q :=
  mkQueue (queue q) (lastQ q) c (closed q) (discarded q) (len q) (cacheSize q) (mode q).

(** The loop of [Put] that moves [lastQ] over the elements in a row, up to the
    end of the ring. *)
Fixpoint advance (last : Z) l : Z :=
  match l with
  | Some e :: l => if u32 (last + 1) =? GetIndex e then advance (GetIndex e) l else last
  | _ => last
  end.

(** The end of [Put], under the lock, and whether it panics by a send to the
    closed channel. *)
Definition put_element q e : Queue Q * bool :=
  let pos := indexToPosition q (GetIndex e) in
  let stored :=
    match at_pos (queue q) pos with
    | None => true
    | Some old => GetIndex old <? GetIndex e
    end in
  let q :=
    if stored then
      let l := <[pos := Some e]> (queue q) in
      mkQueue l (advance (lastQ q) (drop pos l)) (checkBlocks q) (closed q) (discarded q)
        (len q + 1) (cacheSize q) (mode q)
    else q in
  if closed q then (q, true) else (set_chan q true, false).

(** [h+uint32(bq.cacheSize) < element.GetIndex()] *)
Definition no_room q (h : Z) e : bool := u32 (h + u32 (cacheSize q)) <? GetIndex e.

(** [Put]: before it reads the height; before it takes the lock; in its loop,
    before each access of [discarded] and of the height; before it takes the
    lock again; after its return or panic. *)
Inductive put_pc :=
  | PutStart (e : Q)
  | PutLock (e : Q) (h : Z)
  | PutTick (e : Q)
  | PutPoll (e : Q)
  | PutRelock (e : Q)
  | PutDone
  | PutPanic.

Definition put_locked q e : Queue Q * put_pc :=
  let '(q, panics) := put_element q e in (q, if panics then PutPanic else PutDone).

Definition Put q (height : Z) (pc : put_pc) : option (Queue Q * put_pc) :=
  match pc with
  | PutStart e => Some (q, PutLock e height)
  | PutLock e h =>
      Some (if discarded q then (q, PutDone)
            else if GetIndex e <=? h then (q, PutDone)
            else if no_room q h e then
              match mode q with
              | NonBlocking => (q, PutDone)
              | Blocking => (q, PutTick e)
              end
            else put_locked q e)
  | PutTick e => Some (q, if discarded q then PutDone else PutPoll e)
  | PutPoll e => Some (q, if no_room q height e then PutTick e else PutRelock e)
  | PutRelock e => Some (put_locked q e)
  | PutDone | PutPanic => None
  end.

(** The loop of [Run] over the heights from [lastHeight] that others added. *)
Fixpoint clean q (n : nat) (i : Z) : Queue Q :=
  match n with
  | O => q
  | S n =>
      let old := indexToPosition q (u32 (i + 1)) in
      let q :=
        match at_pos (queue q) old with
        | Some b => if GetIndex b =? i then set_slots q (<[old := None]> (queue q)) (len q - 1) else q
        | None => q
        end in
      clean q n (i + 1)
  end.

(** [Run]: at its start; waiting for a signal; before it reads the height;
    before it takes the lock; before it adds an element; before it takes the
    lock again; after its return. *)
Inductive run_pc :=
  | RunStart
  | RunRecv (lastHeight : Z)
  | RunTop (lastHeight : Z)
  | RunLock (lastHeight h : Z)
  | RunAdd (h : Z) (pos : nat) (b : Q)
  | RunRelock (h : Z) (pos : nat) (b : Q)
  | RunEnd.

(** The steps of [Run] but for the call of [AddItem]; [None] when it waits. *)
Definition Run q (height : Z) (pc : run_pc) : option (Queue Q * run_pc) :=
  match pc with
  | RunStart => Some (q, RunRecv height)
  | RunRecv lastHeight =>
      if checkBlocks q then Some (set_chan q false, RunTop lastHeight)
      else if closed q then Some (q, RunEnd) else None
  | RunTop lastHeight => Some (q, RunLock lastHeight height)
  | RunLock lastHeight h =>
      let pos := indexToPosition q (u32 (h + 1)) in
      let b := at_pos (queue q) pos in
      let q := clean q (Z.to_nat (h - lastHeight)) lastHeight in
      Some (q, match b with None => RunRecv h | Some b => RunAdd h pos b end)
  | RunRelock h pos b =>
      let l := if bool_decide (at_pos (queue q) pos = Some b) then <[pos := None]> (queue q)
               else queue q in
      Some (set_slots q l (len q - 1), RunTop h)
  | RunAdd _ _ _ | RunEnd => None
  end.

Definition LastQueued q : Z * Z := (lastQ q, cacheSize q - len q).

Definition Cap q : Z := cacheSize q.

(** [Discard]: before it swaps [discarded], before it takes the lock, after. *)
Inductive discard_pc := DiscardStart | DiscardLock | DiscardDone.

Definition Discard q (pc : discard_pc) : option (Queue Q * discard_pc) :=
  match pc with
  | DiscardStart =>
      Some (if discarded q then (q, DiscardDone)
            else (mkQueue (queue q) (lastQ q) (checkBlocks q) (closed q) true (len q)
                    (cacheSize q) (mode q), DiscardLock))
  | DiscardLock =>
      Some (mkQueue ((λ _, None) <$> queue q) (lastQ q) (checkBlocks q) true (discarded q) 0
              (cacheSize q) (mode q), DiscardDone)
  | DiscardDone => None
  end.

(** ** All goroutines together *)

Context {C : Type} `{!Queuer C Q}.

(** The queue, the chain, what was relayed, and where each goroutine is. *)
Record World := mkWorld {
  w_queue : Queue Q;
  w_chain : C;
  w_relayed : list Q;
  w_puts : list put_pc;
  w_run : run_pc;
  w_discards : list discard_pc;
}.

(** The goroutine of [Run]; [relayF] is given if elements are relayed. *)
Inductive run_step (relayF : bool) : World → World → Prop :=
  | step_run q c r ps pc ds q' pc' :
      Run q (Height c) pc = Some (q', pc') →
      run_step relayF (mkWorld q c r ps pc ds) (mkWorld q' c r ps pc' ds)
  | step_add q c r ps h pos b ds c' ok :
      AddItem c b = (c', ok) →
      run_step relayF (mkWorld q c r ps (RunAdd h pos b) ds)
        (mkWorld q c' (if ok && relayF then r ++ [b] else r) ps (RunRelock h pos b) ds).

(** What any goroutine does, new calls of [Put] and [Discard] included. *)
Inductive step (relayF : bool) : World → World → Prop :=
  | step_of_run w w' : run_step relayF w w' → step relayF w w'
  | step_new_put q c r ps rn ds e :
      step relayF (mkWorld q c r ps rn ds) (mkWorld q c r (ps ++ [PutStart e]) rn ds)
  | step_put q c r ps rn ds i pc q' pc' :
      ps !! i = Some pc → Put q (Height c) pc = Some (q', pc') →
      step relayF (mkWorld q c r ps rn ds) (mkWorld q' c r (<[i := pc']> ps) rn ds)
  | step_new_discard q c r ps rn ds :
      step relayF (mkWorld q c r ps rn ds) (mkWorld q c r ps rn (ds ++ [DiscardStart]))
  | step_discard q c r ps rn ds i pc q' pc' :
      ds !! i = Some pc → Discard q pc = Some (q', pc') →
      step relayF (mkWorld q c r ps rn ds) (mkWorld q' c r ps rn (<[i := pc']> ds))
  | step_chain q c r ps rn ds c' :
      moves c c' → step relayF (mkWorld q c r ps rn ds) (mkWorld q c' r ps rn ds).

(** What is reached from a new queue before anything runs. *)
Definition start (q : Queue Q) (c : C) : World := mkWorld q c [] [] RunStart [].

Definition reachable (relayF : bool) (size : Z) (m : OperationMode) (w : World) : Prop :=
  ∃ q c, New true size m = Some q ∧ rtc (step relayF) (start q c) w.

(** ** The invariants *)

(** Every element is at its position in a ring of [cacheSize] slots. *)
Definition slots_ok q : Prop :=
  0 < cacheSize q ∧ length (queue q) = Z.to_nat (cacheSize q) ∧
  ∀ pos e, at_pos (queue q) pos = Some e → pos = indexToPosition q (GetIndex e).

(** What only [Discard] changes, and what nothing does. *)
Definition same_control q q' : Prop :=
  closed q' = closed q ∧ discarded q' = discarded q ∧ cacheSize q' = cacheSize q ∧ mode q' = mode q.

(** The slots of [q'] hold nothing that those of [q] do not. *)
Definition fewer q q' : Prop :=
  length (queue q') = length (queue q) ∧
  ∀ pos e, at_pos (queue q') pos = Some e → at_pos (queue q) pos = Some e.

(** A sleeping [Run] that nobody has signalled has nothing to do. *)
Definition nothing_to_do q (pc : run_pc) : Prop :=
  match pc with
  | RunStart => ∀ pos, at_pos (queue q) pos = None
  | RunRecv lastHeight => at_pos (queue q) (indexToPosition q (u32 (lastHeight + 1))) = None
  | _ => True
  end.

Definition world_ok (w : World) : Prop :=
  slots_ok (w_queue w) ∧
  (checkBlocks (w_queue w) = false → closed (w_queue w) = false → nothing_to_do (w_queue w) (w_run w)).

(** [Put] without blocking neither waits nor panics. *)
Definition put_ok (pc : put_pc) : Prop :=
  match pc with PutStart _ | PutLock _ _ | PutDone => True | _ => False end.

Definition nonblocking_ok (w : World) : Prop :=
  mode (w_queue w) = NonBlocking ∧
  (closed (w_queue w) = true → discarded (w_queue w) = true) ∧
  (DiscardLock ∈ w_discards w → discarded (w_queue w) = true) ∧
  Forall put_ok (w_puts w).

End queue.

(** ** Lemmas *)

Section lemmas.

Context {Q : Type} `{!Queueable Q}.

Implicit Types (q : Queue Q) (e b : Q) (l : list (option Q)).

Lemma at_pos_insert l pos pos' x :
  at_pos (<[pos := x]> l) pos' =
  if decide (pos = pos' ∧ (pos < length l)%nat) then x else at_pos l pos'.
Proof.
  unfold at_pos. destruct (decide (pos = pos')) as [<-|Hn].
  - destruct (decide (pos < length l)%nat).
    + rewrite list_lookup_insert_eq, decide_True by done. done.
    + rewrite list_insert_ge by lia. rewrite decide_False by naive_solver. done.
  - rewrite list_lookup_insert_ne, decide_False by naive_solver. done.
Qed.

Lemma at_pos_None l pos : at_pos ((λ _, None) <$> l) pos = (None : option Q).
Proof. unfold at_pos. rewrite list_lookup_fmap. by destruct (l !! pos). Qed.

Lemma indexToPosition_control q q' i :
  cacheSize q' = cacheSize q → indexToPosition q' i = indexToPosition q i.
Proof. unfold indexToPosition. by intros ->. Qed.

Lemma same_control_refl q : same_control q q.
Proof. done. Qed.

Lemma fewer_refl q : fewer q q.
Proof. done. Qed.

Lemma fewer_trans q q1 q2 : fewer q q1 → fewer q1 q2 → fewer q q2.
Proof. intros [Hl1 H1] [Hl2 H2]. split; [by rewrite Hl2|auto]. Qed.

Lemma slots_ok_fewer q q' : slots_ok q → same_control q q' → fewer q q' → slots_ok q'.
Proof.
  intros (Hs & Hl & Hp) (_ & _ & Hc & _) [Hf1 Hf2]. repeat split; [lia|congruence|].
  intros pos e He. rewrite (indexToPosition_control q) by done. auto.
Qed.

Lemma clean_spec q n i : same_control q (clean q n i) ∧ fewer q (clean q n i).
Proof.
  revert q i. induction n as [|n IH]; intros q i; cbn [clean]; [done|].
  match goal with |- context[clean ?x n] => set (q1 := x) end.
  assert (same_control q q1 ∧ fewer q q1) as [Hc Hf].
  { subst q1. destruct (at_pos (queue q) _) as [b|]; [|done]. destruct (_ =? _); [|done].
    split; [done|]. split; [apply length_insert|]. intros pos e. cbn. rewrite at_pos_insert.
    by case_decide. }
  destruct (IH q1 (i + 1)) as [Hc' Hf']. split.
  - destruct Hc as (?&?&?&?), Hc' as (?&?&?&?). repeat split; congruence.
  - by eapply fewer_trans.
Qed.

(** Only an element of the very height is cleaned. *)
Lemma clean_keeps q n i pos e :
  at_pos (queue q) pos = Some e → n = O ∨ i + Z.of_nat n <= GetIndex e →
  at_pos (queue (clean q n i)) pos = Some e.
Proof.
  revert q i. induction n as [|n IH]; intros q i He Hi; cbn [clean]; [done|].
  destruct Hi as [?|Hi]; [done|]. apply IH; [|lia].
  destruct (at_pos (queue q) (indexToPosition q (u32 (i + 1)))) as [b|] eqn:Hb; [|done].
  destruct (GetIndex b =? i) eqn:Hbi; [|done]. cbn. rewrite at_pos_insert.
  case_decide as Hd; [|done]. destruct Hd as [<- _]. apply Z.eqb_eq in Hbi.
  rewrite He in Hb. injection Hb as <-. lia.
Qed.

(** Only a ring of one slot has an element of height [i] where [i + 1] goes. *)
Lemma clean_nothing q n i :
  slots_ok q → 1 < cacheSize q → 0 <= i → i + Z.of_nat n < 2 ^ 32 → clean q n i = q.
Proof.
  intros (_ & _ & Hp) Hs. revert i. induction n as [|n IH]; intros i Hi Hn; cbn [clean]; [done|].
  rewrite wrap_u_small by lia.
  destruct (at_pos (queue q) _) as [b|] eqn:Hb; [|apply IH; lia].
  destruct (GetIndex b =? i) eqn:Hbi; [|apply IH; lia]. apply Z.eqb_eq in Hbi.
  apply Hp in Hb. rewrite Hbi in Hb. unfold indexToPosition in Hb.
  assert (Z.rem (i + 1) (cacheSize q) = Z.rem i (cacheSize q)) as Hr.
  { apply Z2Nat.inj; [apply Z.rem_nonneg; lia..|done]. }
  rewrite !Z.rem_mod_nonneg in Hr by lia.
  pose proof (Z.div_mod i (cacheSize q) ltac:(lia)).
  pose proof (Z.div_mod (i + 1) (cacheSize q) ltac:(lia)) as Hd. rewrite Hr in Hd.
  assert (cacheSize q * ((i + 1) / cacheSize q - i / cacheSize q) = 1) as Hone by lia.
  apply Z.mul_eq_1 in Hone. lia.
Qed.

Lemma put_element_spec q e :
  slots_ok q →
  same_control q (put_element q e).1 ∧ slots_ok (put_element q e).1 ∧
  (closed q = false → checkBlocks (put_element q e).1 = true) ∧ (put_element q e).2 = closed q.
Proof.
  intros Hq. unfold put_element.
  match goal with |- context[if ?x then mkQueue _ _ _ _ _ _ _ _ else q] => set (b := x) end.
  match goal with |- context[if b then ?x else q] => set (q1 := if b then x else q) end.
  assert (same_control q q1 ∧ slots_ok q1) as [Hc Hs].
  { subst q1. destruct b; [|done]. split; [done|]. destruct Hq as (Hs & Hl & Hp).
    repeat split; cbn; [done|by rewrite length_insert|].
    intros pos x. rewrite at_pos_insert. case_decide as Hd.
    - intros [= <-]. symmetry. apply Hd.
    - intros Hx. apply Hp, Hx. }
  pose proof (proj1 Hc) as Hcl. rewrite Hcl. destruct (closed q); repeat split; try apply Hs; try apply Hc; done.
Qed.

Lemma queue_Put_spec q h pc q' pc' :
  slots_ok q → Put q h pc = Some (q', pc') →
  same_control q q' ∧ slots_ok q' ∧
  (q' = q ∨ (closed q = false → checkBlocks q' = true)) ∧
  (mode q = NonBlocking → (closed q = true → discarded q = true) → put_ok pc → put_ok pc').
Proof.
  intros Hq.
  assert (∀ e, let '(q', pc') := put_locked q e in
    same_control q q' ∧ slots_ok q' ∧ (closed q = false → checkBlocks q' = true) ∧
    pc' = if closed q then PutPanic else PutDone) as Hlocked.
  { intros e. unfold put_locked. destruct (put_element_spec q e Hq) as (? & ? & ? & Hp).
    destruct (put_element q e) as [q1 pn]. cbn in *. by subst pn. }
  assert (∀ e q' pc', put_locked q e = (q', pc') →
    same_control q q' ∧ slots_ok q' ∧ (q' = q ∨ (closed q = false → checkBlocks q' = true)) ∧
    (closed q = false → put_ok pc')) as Hlocked'.
  { intros e q1 pc1 He. specialize (Hlocked e). rewrite He in Hlocked.
    destruct Hlocked as (Hc & Hs & Ht & ->). do 2 (split; [done|]). split; [by right|].
    by intros ->. }
  destruct pc as [e|e h0|e|e|e| |]; cbn [Put]; intros [= Heq]; simplify_eq; try by (split_and!; auto using same_control_refl).
  - destruct (discarded q) eqn:Hd; [simplify_eq; by (split_and!; auto using same_control_refl)|].
    destruct (_ <=? _); [simplify_eq; by (split_and!; auto using same_control_refl)|].
    destruct (no_room q h0 e).
    + destruct (mode q) eqn:Hm; simplify_eq; [by (split_and!; auto using same_control_refl)|].
      split_and!; auto using same_control_refl; congruence.
    + destruct (Hlocked' _ _ _ Heq) as (Hc & Hs & Ht & Hok).
      do 3 (split; [done|]).
      intros _ Hcl _. apply Hok. destruct (closed q); [by specialize (Hcl eq_refl)|done].
  - destruct (Hlocked' _ _ _ Heq) as (Hc & Hs & Ht & Hok).
    do 3 (split; [done|]). by intros.
Qed.

Lemma Run_spec q h pc q' pc' :
  slots_ok q → Run q h pc = Some (q', pc') →
  same_control q q' ∧ slots_ok q' ∧
  ((checkBlocks q = false → closed q = false → nothing_to_do q pc) →
   checkBlocks q' = false → closed q' = false → nothing_to_do q' pc').
Proof.
  intros Hq. destruct pc as [|last|last|last h0|h0 pos b|h0 pos b|]; cbn [Run]; intros Heq; simplify_eq.
  - split_and!; [done..|]. cbn. auto.
  - destruct (checkBlocks q); simplify_eq; [done|]. destruct (closed q) eqn:?; by simplify_eq.
  - done.
  - destruct (clean_spec q (Z.to_nat (h0 - last)) last) as [Hc Hf].
    split; [done|]. split; [by eapply slots_ok_fewer|]. intros _ _ _.
    destruct (at_pos (queue q) _) as [b|] eqn:Hb; cbn; [done|].
    rewrite (indexToPosition_control q) by apply Hc.
    destruct (at_pos (queue (clean q _ _)) _) eqn:Hb'; [|done].
    apply Hf in Hb'. congruence.
  - split; [done|]. split; [|done]. eapply slots_ok_fewer; [done|done|].
    case_bool_decide; [|done]. split; cbn; [apply length_insert|].
    intros p e. rewrite at_pos_insert. by case_decide.
Qed.

Lemma Discard_spec q pc q' pc' :
  slots_ok q → Discard q pc = Some (q', pc') →
  cacheSize q' = cacheSize q ∧ mode q' = mode q ∧ slots_ok q' ∧
  (discarded q = true → discarded q' = true) ∧
  (closed q' = true → closed q = true ∨ pc = DiscardLock) ∧
  (pc' = DiscardLock → discarded q' = true) ∧
  (queue q' = queue q ∧ checkBlocks q' = checkBlocks q ∧ closed q' = closed q ∨ closed q' = true).
Proof.
  intros Hq. destruct pc; cbn; intros Heq; simplify_eq.
  - destruct (discarded q) eqn:?; simplify_eq; split_and!; auto; done.
  - split_and!; auto; try done. destruct Hq as (? & Hl & ?). split_and!; cbn; [done|by rewrite length_fmap|].
    intros pos e. by rewrite at_pos_None.
Qed.

Lemma New_ok (size : Z) (m : OperationMode) q :
  New true size m = Some q →
  slots_ok q ∧ mode q = m ∧ closed q = false ∧ discarded q = false ∧
  cacheSize q = (if size <=? 0 then DefaultCacheSize else size) ∧ ∀ pos, at_pos (queue q) pos = None.
Proof.
  unfold New. intros [= <-].
  assert (∀ n pos, at_pos (replicate n (None : option Q)) pos = None) as Hr.
  { intros n pos. unfold at_pos. destruct (replicate n None !! pos) as [x|] eqn:Hx; [|done].
    by apply lookup_replicate in Hx as [-> _]. }
  split_and!; try done; [|apply Hr]. split_and!; cbn.
  - destruct (size <=? 0) eqn:?; [done|lia].
  - apply length_replicate.
  - intros pos e. by rewrite Hr.
Qed.

Context {C : Type} `{!Queuer C Q}.

Lemma start_ok relayF size m w :
  reachable relayF size m w → world_ok w ∧ (m = NonBlocking → nonblocking_ok w).
Proof.
  intros (q0 & c0 & Hnew & Hrun). apply New_ok in Hnew as (Hs & Hm & Hcl & Hd & _ & Hemp).
  assert (world_ok (start q0 c0) ∧ (m = NonBlocking → nonblocking_ok (start q0 c0))) as Hstart.
  { split; [by split|]. intros ->. split_and!; cbn; [done|congruence|by intros ?%elem_of_nil|done]. }
  clear Hs Hm Hcl Hd Hemp. induction Hrun as [w|w w' w'' Hstep _ IH]; [done|apply IH]. clear IH.
  destruct Hstart as [[Hs Hw] Hn].
  destruct Hstep as [w w' Hrs|q c r ps rn ds e|q c r ps rn ds i pc q' pc' Hi Hp
    |q c r ps rn ds|q c r ps rn ds i pc q' pc' Hi Hp|q c r ps rn ds c' Hc]; cbn in *.
  - destruct Hrs as [q c r ps pc ds q' pc' Hrs|]; cbn in *; [|by split].
    destruct (Run_spec _ _ _ _ _ Hs Hrs) as ((Hcl & Hd & _ & Hm) & Hs' & Hw').
    split; [split; cbn; auto|]. intros Hnb. destruct (Hn Hnb) as (? & ? & ? & ?). cbn in *.
    split_and!; cbn; congruence || auto.
    + rewrite Hcl, Hd. done.
    + rewrite Hd. done.
  - split; [by split|]. intros Hnb. destruct (Hn Hnb) as (? & ? & ? & ?).
    split_and!; try done. cbn in *. apply Forall_app. by split; [|constructor].
  - destruct (queue_Put_spec _ _ _ _ _ Hs Hp) as ((Hcl & Hd & _ & Hm) & Hs' & Ht & Hok).
    split.
    + split; cbn; [done|]. rewrite Hcl. intros Hck Hc0. destruct Ht as [->|Ht]; [auto|].
      by rewrite Ht in Hck.
    + intros Hnb. destruct (Hn Hnb) as (? & ? & ? & ?). cbn in *.
      split_and!; cbn; [congruence|by rewrite Hcl, Hd|by rewrite Hd|].
      apply Forall_insert; [done|]. apply Hok; [done..|]. by eapply Forall_lookup_1.
  - split; [by split|]. intros Hnb. destruct (Hn Hnb) as (? & ? & Hl & ?).
    split_and!; try done. cbn in *. intros [?|?%list_elem_of_singleton]%elem_of_app; [auto|done].
  - destruct (Discard_spec _ _ _ _ Hs Hp) as (_ & Hm & Hs' & Hd & Hcl & Hl & Hq).
    split.
    + split; cbn; [done|]. destruct Hq as [(Hq & Hck & Hcl')|Hcl']; [|congruence].
      rewrite Hck, Hcl'. intros ? ?. unfold nothing_to_do in *.
      destruct rn; auto; [by rewrite Hq; auto|]. rewrite Hq.
      rewrite (indexToPosition_control q) by (by apply Discard_spec in Hp as (? & _)). auto.
    + intros Hnb. destruct (Hn Hnb) as (? & Hcd & Hld & ?). cbn in *.
      split_and!; cbn; [congruence| | |done].
      * intros [?| ->]%Hcl; [auto|]. apply Hd, Hld. by eapply list_elem_of_lookup_2.
      * intros Hin. apply list_elem_of_lookup in Hin as [j Hj].
        apply list_lookup_insert_Some in Hj as [(_ & Hx & _)|[_ Hj]]; [auto|].
        apply Hd, Hld. by eapply list_elem_of_lookup_2.
  - by split.
Qed.

End lemmas.

(** ** [Run] adds what is queued in a row *)

Section drain.

Context {Q : Type} `{!Queueable Q} {C : Type} `{!Queuer C Q}.

Implicit Types (q : Queue Q) (b : Q) (bs : list Q) (c : C).

(** The chain takes the elements one after the other. *)
Inductive adds : C → list Q → C → Prop :=
  | adds_nil c : adds c [] c
  | adds_cons c b c1 bs c2 :
      AddItem c b = (c1, true) → Height (Q:=Q) c1 = Height (Q:=Q) c + 1 →
      adds c1 bs c2 → adds c (b :: bs) c2.

(** The elements are queued and follow height [h]. *)
Definition queued q (h : Z) bs : Prop :=
  ∀ i b, bs !! i = Some b →
    GetIndex b = h + 1 + Z.of_nat i ∧ at_pos (queue q) (indexToPosition q (GetIndex b)) = Some b.

(** Nothing is queued after height [h] when so many elements are gone. *)
Definition end_of_row q (h : Z) (n : nat) : Prop :=
  at_pos (queue q) (indexToPosition q (h + 1 + Z.of_nat n)) = None ∨ Z.of_nat n = cacheSize q.

(** One turn of the loop with an element of the next height. *)
Lemma run_one relayF q c r ps ds last b bs c1 :
  slots_ok q → queued q (Height (Q:=Q) c) (b :: bs) →
  Height (Q:=Q) c + 1 + Z.of_nat (length (b :: bs)) < 2 ^ 32 →
  end_of_row q (Height (Q:=Q) c) (length (b :: bs)) →
  AddItem c b = (c1, true) →
  ∃ q1, rtc (run_step relayF) (mkWorld q c r ps (RunTop last) ds)
    (mkWorld q1 c1 (if relayF then r ++ [b] else r) ps (RunTop (Height (Q:=Q) c)) ds) ∧
    same_control q q1 ∧ fewer q q1 ∧ queued q1 (Height (Q:=Q) c + 1) bs ∧
    at_pos (queue q1) (indexToPosition q (GetIndex b)) = None ∧
    end_of_row q1 (Height (Q:=Q) c + 1) (length bs).
Proof.
  intros Hs Hq Hlt Hend Hadd. pose proof (Height_range (Q:=Q) c).
  destruct (Hq 0%nat b eq_refl) as [Hb Hat]. cbn [length] in *.
  set (h := Height (Q:=Q) c) in *. set (n := Z.to_nat (h - last)).
  set (q0 := clean q n last). destruct (clean_spec q n last) as [Hc0 Hf0].
  assert (∀ i b', (b :: bs) !! i = Some b' →
    at_pos (queue q0) (indexToPosition q (GetIndex b')) = Some b') as Hkeep.
  { intros i b' Hi. destruct (Hq i b' Hi) as [Hx Ha]. apply clean_keeps; [done|].
    destruct (decide (last <= h)); [right; unfold n|left; unfold n]; lia. }
  set (pos := indexToPosition q (GetIndex b)).
  set (q1 := set_slots q0 (<[pos := None]> (queue q0)) (len q0 - 1)).
  assert (same_control q q1) as Hc1 by apply Hc0.
  assert (fewer q0 q1) as Hf1.
  { split; cbn; [apply length_insert|]. intros p e. rewrite at_pos_insert. by case_decide. }
  pose proof (fewer_trans _ _ _ Hf0 Hf1) as Hf.
  assert (at_pos (queue q1) pos = None) as Hgone.
  { cbn. rewrite at_pos_insert. case_decide as Hd; [done|].
    unfold at_pos. rewrite lookup_ge_None_2; [done|]. apply Nat.nlt_ge. intros ?. by apply Hd. }
  exists q1. split; [|do 2 (split; [done|]); split; [|split]].
  - eapply rtc_l; [by apply step_run|]. eapply rtc_l.
    { apply step_run. cbn [Run]. rewrite wrap_u_small by (fold h; lia). fold h.
      replace (h + 1) with (GetIndex b) by lia. rewrite Hat. done. }
    eapply rtc_l; [by apply step_add|]. fold h n q0 pos. rewrite andb_true_l.
    eapply rtc_l; [|apply rtc_refl]. apply step_run. cbn [Run].
    rewrite bool_decide_eq_true_2; [done|]. apply (Hkeep 0%nat). done.
  - intros i b' Hi. destruct (Hq (S i) b' Hi) as [Hx Ha]. split; [lia|].
    rewrite (indexToPosition_control q) by apply Hc1. cbn. rewrite at_pos_insert.
    case_decide as Hd; [|by apply (Hkeep (S i))]. destruct Hd as [Hd _]. fold pos in Hat.
    rewrite <- Hd, Hat in Ha. injection Ha as <-. lia.
  - done.
  - left. rewrite (indexToPosition_control q) by apply Hc1.
    replace (h + 1 + 1 + Z.of_nat (length bs)) with (h + 1 + Z.of_nat (S (length bs))) by lia.
    destruct Hend as [Hend|Hend].
    + destruct (at_pos (queue q1) (indexToPosition q (h + 1 + Z.of_nat (S (length bs))))) eqn:Hx; [|done].
      apply Hf in Hx. congruence.
    + rewrite Hend. replace (indexToPosition q (h + 1 + cacheSize q)) with pos; [done|].
      destruct Hs. unfold pos, indexToPosition. f_equal.
      rewrite Hb, !Z.rem_mod_nonneg by lia. replace (h + 1 + Z.of_nat 0) with (h + 1) by lia.
      replace (h + 1 + cacheSize q) with (h + 1 + 1 * cacheSize q) by lia. by rewrite Z.mod_add by lia.
Qed.

(** C15: when [Run] looks at a queue that holds the elements of the next heights
    in a row and the chain takes them, then, left alone, it adds and relays them
    all in the order of their heights, whatever else is queued, removes them and
    goes back to sleep at the new height. *)
Theorem run_drains relayF q c r ps ds last bs c' :
  slots_ok q → queued q (Height (Q:=Q) c) bs → adds c bs c' →
  Height (Q:=Q) c + 1 + Z.of_nat (length bs) < 2 ^ 32 →
  end_of_row q (Height (Q:=Q) c) (length bs) →
  ∃ q', rtc (run_step relayF) (mkWorld q c r ps (RunTop last) ds)
    (mkWorld q' c' (if relayF then r ++ bs else r) ps (RunRecv (Height (Q:=Q) c')) ds) ∧
    Height (Q:=Q) c' = Height (Q:=Q) c + Z.of_nat (length bs) ∧
    fewer q q' ∧ Forall (λ b, at_pos (queue q') (indexToPosition q (GetIndex b)) = None) bs.
Proof.
  intros Hs Hq Hadds. revert q r last Hs Hq.
  induction Hadds as [c|c b c1 bs c2 Hadd Hh _ IH]; intros q r last Hs Hq Hlt Hend.
  - destruct (clean_spec q (Z.to_nat (Height (Q:=Q) c - last)) last) as [Hc Hf].
    exists (clean q (Z.to_nat (Height (Q:=Q) c - last)) last).
    split_and!; [|cbn; lia|done|done]. rewrite app_nil_r.
    eapply rtc_l; [by apply step_run|]. eapply rtc_l; [|destruct relayF; apply rtc_refl].
    apply step_run. cbn [Run]. pose proof (Height_range (Q:=Q) c).
    rewrite wrap_u_small by (cbn in Hlt; lia).
    destruct Hend as [Hend|Hend]; [|destruct Hs; cbn in Hend; lia].
    cbn [length Z.of_nat] in Hend. rewrite Z.add_0_r in Hend. by rewrite Hend.
  - destruct (run_one relayF q c r ps ds last b bs c1) as (q1 & Hrun & Hc & Hf & Hq1 & Hgone & Hend1);
      [done..|].
    cbn [length] in *. rewrite <- Hh in Hq1, Hend1.
    destruct (IH q1 (if relayF then r ++ [b] else r) (Height (Q:=Q) c))
      as (q' & Hrun' & Hh' & Hf' & Hgone'); [by eapply slots_ok_fewer|done|lia|done|].
    exists q'. split_and!; [|lia|by eapply fewer_trans|].
    + etrans; [done|]. destruct relayF; [|done]. by rewrite <- app_assoc in Hrun'.
    + constructor.
      2:{ eapply Forall_impl; [exact Hgone'|]. intros x. cbn. by rewrite (indexToPosition_control q q1) by apply Hc. }
      destruct (at_pos (queue q') _) eqn:Hx; [|done]. apply Hf' in Hx. congruence.
Qed.

End drain.

(** ** Signals *)

(** C14: in no interleaving does [Run] sleep without a signal while the element
    after the height it has last seen is queued: no call of [Put] is missed. *)
Theorem no_lost_wakeup `{!Queueable Q, !Queuer C Q} relayF size m (w : World (Q:=Q) (C:=C)) last :
  reachable relayF size m w →
  w_run w = RunRecv last → checkBlocks (w_queue w) = false → closed (w_queue w) = false →
  ∀ pos e, at_pos (queue (w_queue w)) pos = Some e → GetIndex e ≠ u32 (last + 1).
Proof.
  intros [[Hs Hn] _]%start_ok Hrun Hck Hcl pos e He Hidx.
  specialize (Hn Hck Hcl). rewrite Hrun in Hn. cbn in Hn.
  pose proof He as Hpos. apply Hs in Hpos. rewrite Hidx in Hpos. subst pos. congruence.
Qed.

(** ** A chain of numbers *)

Section toy.

#[local] Program Instance toy_Queueable : Queueable Z := {| GetIndex := u32 |}.
Next Obligation. intros. by apply wrap_u_range. Qed.

#[local] Program Instance toy_Queuer : Queuer Z Z := {|
  Height := u32;
  AddItem c b := if u32 b =? u32 (c + 1) then (b, true) else (c, false);
  moves c c' := c' = c + 1;
|}.
Next Obligation. intros. by apply wrap_u_range. Qed.

Lemma blocking_panics :
  ∃ w : World (Q:=Z) (C:=Z), reachable true 1 Blocking w ∧ PutPanic ∈ w_puts w.
Proof.
  eexists. split.
  { eexists _, 0. split; [done|].
    eapply rtc_l; [apply step_new_put with (e := 2)|].
    eapply rtc_l; [by eapply (step_put _ _ _ _ _ _ _ 0)|].
    eapply rtc_l; [by eapply (step_put _ _ _ _ _ _ _ 0)|].
    eapply rtc_l; [by eapply (step_put _ _ _ _ _ _ _ 0)|].
    eapply rtc_l; [by apply step_chain with (c' := 1)|].
    eapply rtc_l; [by eapply (step_put _ _ _ _ _ _ _ 0)|].
    eapply rtc_l; [apply step_new_discard|].
    eapply rtc_l; [by eapply (step_discard _ _ _ _ _ _ _ 0)|].
    eapply rtc_l; [by eapply (step_discard _ _ _ _ _ _ _ 0)|].
    eapply rtc_l; [by eapply (step_put _ _ _ _ _ _ _ 0)|]. apply rtc_refl. }
  cbn. apply list_elem_of_here.
Qed.

(** C13: a call of [Put] that does not block when the queue is full never sends
    to the closed channel, whatever runs beside it; a blocking one does, and
    panics, when [Discard] runs between its last look at [discarded] and its
    second lock. *)
Theorem put_panics_only_blocking :
  (∀ Q (HQ : Queueable Q) C (HC : Queuer C Q) relayF size (w : World (Q:=Q) (C:=C)),
    reachable relayF size NonBlocking w → PutPanic ∉ w_puts w) ∧
  (∃ w : World (Q:=Z) (C:=Z), reachable true 1 Blocking w ∧ PutPanic ∈ w_puts w).
Proof.
  split; [|apply blocking_panics]. intros Q HQ C HC relayF size w [_ Hn]%start_ok Hin.
  destruct (Hn eq_refl) as (_ & _ & _ & Hok). rewrite Forall_forall in Hok. by apply Hok in Hin.
Qed.

Lemma put_panics_only_blocking_witness :
  ∃ w : World (Q:=Z) (C:=Z), reachable true 2 NonBlocking w ∧ w_puts w = [PutDone] ∧ PutPanic ∉ w_puts w.
Proof.
  assert (∃ w : World (Q:=Z) (C:=Z), reachable true 2 NonBlocking w ∧ w_puts w = [PutDone]) as (w & Hw & Hp).
  { eexists. split.
    { eexists _, 0. split; [done|].
      eapply rtc_l; [apply step_new_put with (e := 1)|].
      eapply rtc_l; [by eapply (step_put _ _ _ _ _ _ _ 0)|].
      eapply rtc_l; [by eapply (step_put _ _ _ _ _ _ _ 0)|]. apply rtc_refl. }
    done. }
  exists w. split; [done|]. split; [done|].
  by apply (proj1 put_panics_only_blocking Z toy_Queueable Z toy_Queuer true 2 w).
Defined.

(** *** Elements that come from elsewhere *)

(** The queue of two slots after [k + 1] elements at odd heights, each put
    before the chain got it from elsewhere, with [Run] asleep. *)
Definition drifted (k : nat) : World (Q:=Z) (C:=Z) :=
  let top := 2 * Z.of_nat k + 1 in
  mkWorld (mkQueue [None; Some top] 1 false false false (Z.of_nat k + 1) 2 NonBlocking)
    top [] (replicate (S k) PutDone) (RunRecv top) [].

Lemma rem_2_odd (k : Z) : 0 <= k → Z.rem (2 * k + 1) 2 = 1.
Proof. intros. rewrite Z.rem_mod_nonneg by lia. replace (2 * k + 1) with (1 + k * 2) by lia. by rewrite Z.mod_add. Qed.

Lemma rem_2_even (k : Z) : 0 <= k → Z.rem (2 * k) 2 = 0.
Proof. intros. rewrite Z.rem_mod_nonneg by lia. replace (2 * k) with (0 + k * 2) by lia. by rewrite Z.mod_add. Qed.

(** One call of [Put] while [Run] sleeps, two heights later. *)
Lemma drift_put (k : nat) :
  2 * Z.of_nat k + 5 < 2 ^ 32 →
  Put (w_queue (drifted k)) (Height (Q:=Z) (2 * Z.of_nat k + 1))
    (PutLock (2 * Z.of_nat k + 3) (2 * Z.of_nat k + 1)) =
  Some (mkQueue [None; Some (2 * Z.of_nat k + 3)] 1 true false false (Z.of_nat k + 2) 2 NonBlocking, PutDone).
Proof.
  intros Hk. unfold Put, drifted. cbn [w_queue discarded GetIndex toy_Queueable].
  rewrite wrap_u_small by lia.
  destruct (Z.leb_spec (2 * Z.of_nat k + 3) (2 * Z.of_nat k + 1)); [lia|].
  unfold no_room. cbn [cacheSize GetIndex toy_Queueable]. change (u32 2) with 2.
  rewrite !wrap_u_small by lia.
  destruct (Z.ltb_spec (2 * Z.of_nat k + 1 + 2) (2 * Z.of_nat k + 3)); [lia|].
  unfold put_locked, put_element, indexToPosition. cbn [cacheSize GetIndex toy_Queueable queue].
  rewrite wrap_u_small by lia.
  replace (2 * Z.of_nat k + 3) with (2 * (Z.of_nat k + 1) + 1) by lia. rewrite rem_2_odd by lia.
  set (e := 2 * (Z.of_nat k + 1) + 1). cbv [at_pos lookup list_lookup Z.to_nat Pos.to_nat Pos.iter_op
    Nat.add mjoin option_join insert list_insert drop].
  cbn [advance lastQ closed]. change (u32 (1 + 1)) with 2.
  replace (u32 (2 * Z.of_nat k + 1)) with (2 * Z.of_nat k + 1) by (rewrite wrap_u_small; lia).
  rewrite (proj2 (Z.ltb_lt _ _)) by lia. cbn [advance lastQ closed queue GetIndex toy_Queueable].
  rewrite (wrap_u_small 32 e) by lia. rewrite (proj2 (Z.eqb_neq 2 e)) by lia.
  unfold set_chan. cbn. by replace (Z.of_nat k + 1 + 1) with (Z.of_nat k + 2) by lia.
Qed.

(** [Run], woken at height [2 k + 3], finds nothing to add or to clean. *)
Lemma drift_run (k : nat) :
  2 * Z.of_nat k + 5 < 2 ^ 32 →
  let q := mkQueue [None; Some (2 * Z.of_nat k + 3)] 1 false false false (Z.of_nat k + 2) 2 NonBlocking in
  Run q (2 * Z.of_nat k + 3) (RunLock (2 * Z.of_nat k + 1) (2 * Z.of_nat k + 3)) =
  Some (q, RunRecv (2 * Z.of_nat k + 3)).
Proof.
  intros Hk q. cbn [Run]. 
  assert (slots_ok q) as Hq.
  { split; [done|]. split; [done|]. intros [|[|pos]] e [= <-]. unfold indexToPosition.
    cbn [cacheSize GetIndex toy_Queueable q]. rewrite wrap_u_small by lia.
    replace (2 * Z.of_nat k + 3) with (2 * (Z.of_nat k + 1) + 1) by lia. by rewrite rem_2_odd by lia. }
  rewrite clean_nothing; [|done|cbn; lia..].
  unfold indexToPosition. rewrite wrap_u_small by lia.
  replace (2 * Z.of_nat k + 3 + 1) with (2 * (Z.of_nat k + 2)) by lia.
  cbn [cacheSize q]. rewrite rem_2_even by lia. done.
Qed.

Lemma step_put_last (q : Queue Z) (c : Z) r ps rn ds pc q' pc' :
  Put q (Height (Q:=Z) c) pc = Some (q', pc') →
  step true (mkWorld q c r (ps ++ [pc]) rn ds) (mkWorld q' c r (ps ++ [pc']) rn ds).
Proof.
  intros Hp. pose proof (step_put true q c r (ps ++ [pc]) rn ds (length ps) pc q' pc') as Hstep.
  rewrite (insert_app_r_alt ps [pc] (length ps) pc'), Nat.sub_diag in Hstep by lia.
  apply Hstep; [|done]. by rewrite lookup_app_r, Nat.sub_diag by lia.
Qed.

(** From one drifted queue to the next. *)
Lemma drift_round (k : nat) :
  2 * Z.of_nat k + 5 < 2 ^ 32 → rtc (step true) (drifted k) (drifted (S k)).
Proof.
  intros Hk. pose proof (drift_put k Hk) as Hput. pose proof (drift_run k Hk) as Hrun.
  eapply rtc_l; [apply step_new_put with (e := 2 * Z.of_nat k + 3)|].
  eapply rtc_l; [by apply step_put_last|].
  cbn [Height toy_Queuer]. rewrite (wrap_u_small 32 (2 * Z.of_nat k + 1)) by lia.
  eapply rtc_l; [apply step_put_last, Hput|].
  eapply rtc_l; [by apply step_chain|]. eapply rtc_l; [by apply step_chain|].
  replace (2 * Z.of_nat k + 1 + 1 + 1) with (2 * Z.of_nat k + 3) by lia.
  eapply rtc_l; [by apply step_of_run, step_run|]. eapply rtc_l; [by apply step_of_run, step_run|].
  cbn [Height toy_Queuer]. rewrite (wrap_u_small 32 (2 * Z.of_nat k + 3)) by lia.
  eapply rtc_l; [apply step_of_run, step_run, Hrun|].
  replace (drifted (S k)) with (mkWorld (C:=Z)
    (mkQueue [None; Some (2 * Z.of_nat k + 3)] 1 false false false (Z.of_nat k + 2) 2 NonBlocking)
    (2 * Z.of_nat k + 3) [] (replicate (S k) PutDone ++ [PutDone]) (RunRecv (2 * Z.of_nat k + 3)) []).
  { apply rtc_refl. }
  unfold drifted. replace (2 * Z.of_nat (S k) + 1) with (2 * Z.of_nat k + 3) by lia.
  replace (Z.of_nat (S k) + 1) with (Z.of_nat k + 2) by lia. f_equal.
  change [PutDone] with (replicate 1 (@PutDone Z)). by rewrite <- replicate_add, Nat.add_1_r.
Qed.

Lemma drift_first : reachable true 2 NonBlocking (drifted 0).
Proof.
  eexists _, 0. split; [done|].
  eapply rtc_l; [apply step_new_put with (e := 1)|].
  eapply rtc_l; [by apply (step_put_last _ _ _ [])|].
  eapply rtc_l; [by apply (step_put_last _ _ _ [])|].
  eapply rtc_l; [by apply step_chain with (c' := 1)|].
  do 4 (eapply rtc_l; [by apply step_of_run, step_run|]). apply rtc_refl.
Qed.

Lemma drift_reach (k : nat) : 2 * Z.of_nat k + 5 < 2 ^ 32 → reachable true 2 NonBlocking (drifted k).
Proof.
  induction k as [|k IH]; intros Hk; [apply drift_first|].
  destruct IH as (q & c & Hn & Hr); [lia|]. exists q, c. split; [done|].
  etrans; [done|]. apply drift_round. lia.
Qed.

(** In a ring of more than one slot the loop that should clean the elements
    the chain got from elsewhere cleans nothing, and every such element that is
    overwritten stays counted: a queue of two slots that holds one stale
    element can be at rest with any number of slots below zero left. *)
Theorem stale_elements_counted :
  (∀ Q (HQ : Queueable Q) (q : Queue Q) n i,
    slots_ok q → 1 < cacheSize q → 0 <= i → i + Z.of_nat n < 2 ^ 32 → clean q n i = q) ∧
  (∀ k : nat, 2 * Z.of_nat k + 5 < 2 ^ 32 →
    ∃ w : World (Q:=Z) (C:=Z), reachable true 2 NonBlocking w ∧
      w_run w = RunRecv (w_chain w) ∧ Forall (.= PutDone) (w_puts w) ∧
      queue (w_queue w) = [None; Some (w_chain w)] ∧
      (LastQueued (w_queue w)).2 = 1 - Z.of_nat k).
Proof.
  split; [intros; by apply clean_nothing|]. intros k Hk. exists (drifted k).
  split; [by apply drift_reach|]. split_and!; [done| |done|cbn; lia].
  apply Forall_forall. by intros pc [-> _]%elem_of_replicate.
Qed.

Lemma stale_elements_counted_witness :
  clean (w_queue (drifted 0)) 1 1 = w_queue (drifted 0) ∧
  ∃ w : World (Q:=Z) (C:=Z), reachable true 2 NonBlocking w ∧
    w_run w = RunRecv (w_chain w) ∧ Forall (.= PutDone) (w_puts w) ∧
    queue (w_queue w) = [None; Some (w_chain w)] ∧ (LastQueued (w_queue w)).2 = -1000.
Proof.
  split; [|by apply (proj2 stale_elements_counted 1001%nat)].
  apply (proj1 stale_elements_counted); [|done..]. split; [done|]. split; [done|].
  by intros [|[|pos]] e [= <-].
Defined.

(** *** Witnesses *)

Lemma no_lost_wakeup_witness :
  ∃ pos, at_pos (queue (w_queue (drifted 1))) pos = Some 3 ∧ u32 3 ≠ u32 (3 + 1).
Proof.
  exists 1%nat. split; [done|].
  assert (reachable true 2 NonBlocking (drifted 1)) as Hr by (apply drift_reach; lia).
  exact (no_lost_wakeup true 2 NonBlocking (drifted 1) 3 Hr eq_refl eq_refl eq_refl 1%nat 3 eq_refl).
Defined.

Lemma run_drains_witness :
  let q := mkQueue [Some 4; Some 1; Some 2; Some 3] 4 false false false 4 4 NonBlocking in
  ∃ q', rtc (run_step true) (mkWorld q 0 [] [] (RunTop 0) []) (mkWorld q' 4 [1; 2; 3; 4] [] (RunRecv 4) []) ∧
    Forall (λ b, at_pos (queue q') (indexToPosition q (GetIndex b)) = None) [1; 2; 3; 4].
Proof.
  intros q. destruct (run_drains true q 0 [] [] [] 0 [1; 2; 3; 4] 4) as (q' & Hr & _ & _ & Hq).
  - split; [done|]. split; [done|]. by intros [|[|[|[|pos]]]] e [= <-].
  - by intros [|[|[|[|i]]]] b [= <-].
  - repeat (eapply adds_cons; [done..|]). apply adds_nil.
  - done.
  - by right.
  - exists q'. done.
Defined.

End toy.
