(* ===== verification/Policy.v ===== *)
(** * Policy: fees, limits and blocked accounts

    Models [pkg/core/native/policy.go] with the record of
    [pkg/core/state/policy.go]: the settings of the network, the blocked
    accounts and the methods with a fixed fee.  Everything is kept twice, in
    the storage of the contract and in a cache from which all other code reads;
    a node that starts makes the cache from the storage.  The state here is
    that of the token contracts ([Native]), whose committee signs the changes,
    with the storage and the cache of this contract.

    Blocking an account revokes its vote, which may pay its owner and so call a
    contract before the account is blocked: such an operation is a [pproc], like
    the [proc] of [Native] over the larger state.  The construction of the
    manifest is not modelled. *)

From S2P Require Import Prelude Bigint BinIO Codec Hash Keys Witness Tx StackItem Serial Storage NativeState Native NativeNeo.

#[local] Open Scope Z_scope.

(** ** Data *)

Definition defaultExecFeeFactor : Z := 30.
Definition defaultFeePerByte : Z := 1000.
Definition defaultMaxVerificationGas : Z := 150000000.
Definition defaultAttributeFee : Z := 0.
Definition defaultNotaryAssistedFee : Z := 10000000.
Definition DefaultStoragePrice : Z := 100000.
Definition maxExecFeeFactor : Z := 100.
Definition maxFeePerByte : Z := 100000000.
Definition maxStoragePrice : Z := 10000000.
Definition maxAttributeFee : Z := 1000000000.
Definition maxMillisecondsPerBlock : Z := 30000.
Definition maxMaxVUBIncrement : Z := 86400.
Definition maxMaxTraceableBlocks : Z := 2102400.
Definition blockedAccountPrefix : Z := 15.
Definition whitelistedFeeContractPrefix : Z := 16.
Definition attributeFeePrefix : Z := 20.
Definition recoverFundsLockPeriod : Z := 365 * 24 * 60 * 60 * 1000.
Definition execFeeFactorKey : bytes := [z2b 18].
Definition feePerByteKey : bytes := [z2b 10].
Definition storagePriceKey : bytes := [z2b 19].
Definition msPerBlockKey : bytes := [z2b 21].
Definition maxVUBIncrementKey : bytes := [z2b 22].
Definition MaxTraceableBlocksKey : bytes := [z2b 23].

Definition HFFaun : string := "Faun".

Record WhitelistFeeContract := mkWFC { wf_Hash : bytes; wf_Method : bytes; wf_ArgCnt : Z; wf_Fee : Z }.

#[export] Instance WhitelistFeeContract_eq_dec : EqDecision WhitelistFeeContract.
Proof. solve_decision. Defined.

(** [ToStackItem] and the serialization of [PutStorageConvertible]. *)
Definition WhitelistFeeContract_Bytes (r : WhitelistFeeContract) : res nerr bytes :=
  argCnt ← big_item (wf_ArgCnt r);
  fee ← big_item (wf_Fee r);
  ser_struct [ByteArray (wf_Hash r); ByteArray (wf_Method r); argCnt; fee].

Definition WhitelistFeeContract_FromStackItem (h : Heap) (i : item) : res nerr WhitelistFeeContract :=
  match item_elems h i with
  | None => Err "not a struct"%string
  | Some [i0; i1; i2; i3] =>
      hash ← res_err "invalid hash"%string (ToUint160 h i0);
      method ← res_err "invalid method"%string (ToString h i1);
      argCnt ← res_err "invalid argument count"%string (ToInt32 i2);
      fee ← res_err "invalid fee"%string (ToInt64 i3);
      Ok (mkWFC hash method argCnt fee)
  | Some _ => Err "invalid structure"%string
  end.

Definition WhitelistFeeContract_FromBytes (v : bytes) : res nerr WhitelistFeeContract :=
  '(i, h) ← res_err "deserialization"%string (Deserialize emptyHeap v);
  WhitelistFeeContract_FromStackItem h i.

Record whitelistedContract := mkWC { wc_contract : WhitelistFeeContract; wc_offset : Z }.

#[export] Instance whitelistedContract_eq_dec : EqDecision whitelistedContract.
Proof. solve_decision. Defined.

Definition whitelisted_Compare (c other : whitelistedContract) : comparison :=
  match bcompare (wf_Hash (wc_contract c)) (wf_Hash (wc_contract other)) with
  | Eq => Z.compare (wc_offset c) (wc_offset other)
  | r => r
  end.

Record PolicyCache := mkPC {
  pc_execFeeFactor : Z;
  pc_faunInitialized : bool;
  pc_feePerByte : Z;
  pc_maxVerificationGas : Z;
  pc_storagePrice : Z;
  pc_msPerBlock : Z;
  pc_maxVUBIncrement : Z;
  pc_maxTraceableBlocks : Z;
  pc_attributeFee : gmap Z Z;
  pc_blockedAccounts : list bytes;
  pc_whitelistedContracts : list whitelistedContract;
}.

Definition set_execFeeFactor (v : Z) (c : PolicyCache) : PolicyCache :=
  mkPC v (pc_faunInitialized c) (pc_feePerByte c) (pc_maxVerificationGas c) (pc_storagePrice c) (pc_msPerBlock c)
    (pc_maxVUBIncrement c) (pc_maxTraceableBlocks c) (pc_attributeFee c) (pc_blockedAccounts c) (pc_whitelistedContracts c).
Definition set_faunInitialized (b : bool) (c : PolicyCache) : PolicyCache :=
  mkPC (pc_execFeeFactor c) b (pc_feePerByte c) (pc_maxVerificationGas c) (pc_storagePrice c) (pc_msPerBlock c)
    (pc_maxVUBIncrement c) (pc_maxTraceableBlocks c) (pc_attributeFee c) (pc_blockedAccounts c) (pc_whitelistedContracts c).
Definition set_feePerByte (v : Z) (c : PolicyCache) : PolicyCache :=
  mkPC (pc_execFeeFactor c) (pc_faunInitialized c) v (pc_maxVerificationGas c) (pc_storagePrice c) (pc_msPerBlock c)
    (pc_maxVUBIncrement c) (pc_maxTraceableBlocks c) (pc_attributeFee c) (pc_blockedAccounts c) (pc_whitelistedContracts c).
Definition set_storagePrice (v : Z) (c : PolicyCache) : PolicyCache :=
  mkPC (pc_execFeeFactor c) (pc_faunInitialized c) (pc_feePerByte c) (pc_maxVerificationGas c) v (pc_msPerBlock c)
    (pc_maxVUBIncrement c) (pc_maxTraceableBlocks c) (pc_attributeFee c) (pc_blockedAccounts c) (pc_whitelistedContracts c).
Definition set_msPerBlock (v : Z) (c : PolicyCache) : PolicyCache :=
  mkPC (pc_execFeeFactor c) (pc_faunInitialized c) (pc_feePerByte c) (pc_maxVerificationGas c) (pc_storagePrice c) v
    (pc_maxVUBIncrement c) (pc_maxTraceableBlocks c) (pc_attributeFee c) (pc_blockedAccounts c) (pc_whitelistedContracts c).
Definition set_maxVUBIncrement (v : Z) (c : PolicyCache) : PolicyCache :=
  mkPC (pc_execFeeFactor c) (pc_faunInitialized c) (pc_feePerByte c) (pc_maxVerificationGas c) (pc_storagePrice c)
    (pc_msPerBlock c) v (pc_maxTraceableBlocks c) (pc_attributeFee c) (pc_blockedAccounts c) (pc_whitelistedContracts c).
Definition set_maxTraceableBlocks (v : Z) (c : PolicyCache) : PolicyCache :=
  mkPC (pc_execFeeFactor c) (pc_faunInitialized c) (pc_feePerByte c) (pc_maxVerificationGas c) (pc_storagePrice c)
    (pc_msPerBlock c) (pc_maxVUBIncrement c) v (pc_attributeFee c) (pc_blockedAccounts c) (pc_whitelistedContracts c).
Definition set_attributeFee (m : gmap Z Z) (c : PolicyCache) : PolicyCache :=
  mkPC (pc_execFeeFactor c) (pc_faunInitialized c) (pc_feePerByte c) (pc_maxVerificationGas c) (pc_storagePrice c)
    (pc_msPerBlock c) (pc_maxVUBIncrement c) (pc_maxTraceableBlocks c) m (pc_blockedAccounts c) (pc_whitelistedContracts c).
Definition set_blockedAccounts (l : list bytes) (c : PolicyCache) : PolicyCache :=
  mkPC (pc_execFeeFactor c) (pc_faunInitialized c) (pc_feePerByte c) (pc_maxVerificationGas c) (pc_storagePrice c)
    (pc_msPerBlock c) (pc_maxVUBIncrement c) (pc_maxTraceableBlocks c) (pc_attributeFee c) l (pc_whitelistedContracts c).
Definition set_whitelistedContracts (l : list whitelistedContract) (c : PolicyCache) : PolicyCache :=
  mkPC (pc_execFeeFactor c) (pc_faunInitialized c) (pc_feePerByte c) (pc_maxVerificationGas c) (pc_storagePrice c)
    (pc_msPerBlock c) (pc_maxVUBIncrement c) (pc_maxTraceableBlocks c) (pc_attributeFee c) (pc_blockedAccounts c) l.

(** *** Deployed contracts

    The methods of a manifest with their numbers of parameters and offsets. *)
Record method := mkMethod { md_Name : bytes; md_Parameters : nat; md_Offset : Z }.
Record contract := mkContract { ct_Methods : list method; ct_SupportedStandards : list string }.

Definition GetMethod (methods : list method) (name : bytes) (paramCount : Z) : option method :=
  snd <$> list_find (λ m, md_Name m = name ∧ (paramCount = -1 ∨ Z.of_nat (md_Parameters m) = paramCount)) methods.

Definition IsStandardSupported (c : contract) (standard : string) : bool :=
  bool_decide (standard ∈ ct_SupportedStandards c).

(** ** The state and the operations on it *)

(** What an invocation reads: the context of the token contracts, the time of
    the block, the contracts, and the settings of the genesis block. *)
Record PolicyEnv := mkPE {
  pe_ic : Context;
  pe_Hash : bytes;
  pe_NEO : bytes;
  pe_GAS : bytes;
  pe_Treasury : bytes;
  pe_Natives : list bytes;
  pe_time : Z;
  pe_contracts : gmap bytes contract;
  pe_ReservedAttributes : bool;
  pe_MaxValidUntilBlockIncrement : Z;
  pe_Genesis_MaxValidUntilBlockIncrement : Z;
  pe_Genesis_TimePerBlock : Z;
  pe_Genesis_MaxTraceableBlocks : Z;
}.

(** [None] is the cache of a node that has not made it yet. *)
Record PolicyWorld := mkPW { pw_tokens : World; pw_store : gmap bytes bytes; pw_cache : option PolicyCache }.

Definition PolicyM (A : Type) : Type := PolicyWorld → res nerr A * PolicyWorld.

#[export] Instance PolicyM_ret : MRet PolicyM := λ A a w, (Ok a, w).
#[export] Instance PolicyM_bind : MBind PolicyM := λ A B f m w,
  match m w with (Ok a, w) => f a w | (Err e, w) => (Err e, w) | (Panic, w) => (Panic, w) end.

Definition ppanic {A} : PolicyM A := λ w, (Panic, w).
Definition plift {A} (r : res nerr A) : PolicyM A := λ w, (r, w).

(** A library call or an operation whose errors become panics. *)
Definition pmust {E A} (r : res E A) : PolicyM A := match r with Ok a => mret a | _ => ppanic end.
Definition no_perror {A} (m : PolicyM A) : PolicyM A := λ w, match m w with (Err _, w) => (Panic, w) | r => r end.

(** An operation of the token contracts. *)
Definition on_tokens {A} (m : M A) : PolicyM A := λ w,
  let '(r, t) := m (pw_tokens w) in (r, mkPW t (pw_store w) (pw_cache w)).

Definition policy_GetStorageItem (key : bytes) : PolicyM (option bytes) := λ w, (Ok (pw_store w !! key), w).
Definition policy_PutStorageItem (key si : bytes) : PolicyM unit := λ w,
  (Ok tt, mkPW (pw_tokens w) (<[key := si]> (pw_store w)) (pw_cache w)).
Definition policy_DeleteStorageItem (key : bytes) : PolicyM unit := λ w,
  (Ok tt, mkPW (pw_tokens w) (delete key (pw_store w)) (pw_cache w)).

Definition setIntWithKey (key : bytes) (value : Z) : PolicyM unit := policy_PutStorageItem key (ToBytes value).

(** [GetInt]; 64 bits of what is stored. *)
Definition policy_GetInt (key : bytes) : PolicyM Z := λ w,
  (match pw_store w !! key with Some si => Ok (i64 (stored_int si)) | None => Err "not initialized"%string end, w).

Definition getIntWithKey (key : bytes) : PolicyM Z := no_perror (policy_GetInt key).

(** The assertion of its type panics without a cache. *)
Definition GetROCache : PolicyM PolicyCache := λ w,
  (match pw_cache w with Some c => Ok c | None => Panic end, w).

(** A change of what [GetRWCache] returns. *)
Definition on_policy_cache (f : PolicyCache → PolicyCache) : PolicyM unit := λ w,
  match pw_cache w with
  | Some c => (Ok tt, mkPW (pw_tokens w) (pw_store w) (Some (f c)))
  | None => (Panic, w)
  end.

Definition policy_SetCache (c : PolicyCache) : PolicyM unit := λ w,
  (Ok tt, mkPW (pw_tokens w) (pw_store w) (Some c)).

(** *** Operations that call *)

(** As [proc]; a contract may also be called for a result, on the heap it
    leaves.  A call that fails is not continued. *)
Inductive pproc (R : Type) :=
  | PReturned (r : R) (w : PolicyWorld)
  | PPanicked
  | PCalling (p : payment) (w : PolicyWorld) (k : PolicyWorld → pproc R)
  | PInvoking (caller contract : bytes) (method : string) (args : list item) (w : PolicyWorld)
      (k : Heap → item → PolicyWorld → pproc R).
Arguments PReturned {R} r w.
Arguments PPanicked {R}.
Arguments PCalling {R} p w k.
Arguments PInvoking {R} caller contract method args w k.

Definition pdo_ {A R : Type} (m : PolicyM A) (k : A → PolicyWorld → pproc R) : PolicyWorld → pproc R := λ w,
  match m w with (Ok a, w) => k a w | _ => PPanicked end.

(** An operation of the token contracts that may call, and what follows: while
    it waits for a call, the policy's state may change. *)
Fixpoint embed {A R : Type} (p : proc A) (store : gmap bytes bytes) (cache : option PolicyCache)
    (k : A → PolicyWorld → pproc R) : pproc R :=
  match p with
  | Returned a w => k a (mkPW w store cache)
  | Panicked => PPanicked
  | Calling pay w next =>
      PCalling pay (mkPW w store cache) (λ w, embed (next (pw_tokens w)) (pw_store w) (pw_cache w) k)
  end.

(** ** Search in a sorted slice

    [slices.BinarySearchFunc]: [cmp] compares an element with what is sought. *)
Fixpoint search_loop {A} (n : nat) (x : list A) (lt : A → bool) (i j : nat) : nat :=
  match n with
  | O => i
  | S n =>
      if bool_decide (i < j)%nat then
        let h := ((i + j) / 2)%nat in
        match x !! h with
        | Some a => if lt a then search_loop n x lt (S h) j else search_loop n x lt i h
        | None => i
        end
      else i
  end.

Definition BinarySearchFunc {A} (x : list A) (cmp : A → comparison) : nat * bool :=
  let i := search_loop (length x) x (λ a, match cmp a with Lt => true | _ => false end) 0 (length x) in
  (i, match x !! i with Some a => match cmp a with Eq => true | _ => false end | None => false end).

(** [slices.Insert] at an index that is in range. *)
Definition insert_at {A} (i : nat) (a : A) (l : list A) : list A := take i l ++ a :: drop i l.
Definition delete_at {A} (i : nat) (l : list A) : list A := take i l ++ drop (S i) l.

Definition makeBlockedAccountKey (acc : bytes) : bytes := z2b blockedAccountPrefix :: acc.
Definition makeWhitelistedKey (h : bytes) (offset : Z) : bytes :=
  z2b whitelistedFeeContractPrefix :: h ++ be_enc 4 offset.
Definition attributeFeeKey (t : Z) : bytes := [z2b attributeFeePrefix; z2b t].

(** ** The cache of a node that starts *)

(** The items under a prefix, their keys without it. *)
Definition policy_Seek (prefix : Z) (store : gmap bytes bytes) : list (bytes * bytes) :=
  map (λ kv, (drop 1 (kv_key kv), kv_val kv)) (seek_list (mkRange [z2b prefix] [] false 0) store).

Fixpoint fill_blocked (kvs : list (bytes * bytes)) : res nerr (list bytes) :=
  match kvs with
  | [] => Ok []
  | (k, _) :: kvs =>
      if bool_decide (length k ≠ Uint160Size) then Err "failed to decode blocked account hash"%string else
      accs ← fill_blocked kvs; Ok (k :: accs)
  end.

Fixpoint fill_attributes (kvs : list (bytes * bytes)) (m : gmap Z Z) : res nerr (gmap Z Z) :=
  match kvs with
  | [] => Ok m
  | (k, v) :: kvs =>
      match k with
      | [t] => fill_attributes kvs (<[b2z t := u32 (i64 (stored_int v))]> m)
      | _ => Err "unexpected attribute type len"%string
      end
  end.

Fixpoint fill_whitelist (kvs : list (bytes * bytes)) : res nerr (list whitelistedContract) :=
  match kvs with
  | [] => Ok []
  | (k, v) :: kvs =>
      if bool_decide (length k ≠ Uint160Size + 4)%nat then Err "unexpected whitelisted contract key length"%string else
      c ← WhitelistFeeContract_FromBytes v;
      cs ← fill_whitelist kvs;
      Ok (mkWC c (be_val (drop Uint160Size k)) :: cs)
  end.

(** The settings since Echidna, and the methods since Faun. *)
Definition fill_echidna (enabled : bool) : PolicyM (Z * Z * Z) :=
  if enabled then
    maxVUBIncrement ← getIntWithKey maxVUBIncrementKey;
    msPerBlock ← getIntWithKey msPerBlockKey;
    maxTraceableBlocks ← getIntWithKey MaxTraceableBlocksKey;
    mret (u32 maxVUBIncrement, u32 msPerBlock, u32 maxTraceableBlocks)
  else mret (0, 0, 0).

Definition fill_faun (enabled : bool) : PolicyM (list whitelistedContract) := λ w,
  (if enabled then fill_whitelist (policy_Seek whitelistedFeeContractPrefix (pw_store w)) else Ok [], w).

(** The errors of the loops end them, and the items before are dropped with
    the cache; [enabled] tells the hard forks of the height. *)
Definition fillCacheFromDAO (enabled : string → bool) : PolicyM PolicyCache :=
  execFeeFactor ← getIntWithKey execFeeFactorKey;
  feePerByte ← getIntWithKey feePerByteKey;
  storagePrice ← getIntWithKey storagePriceKey;
  blockedAccounts ← (λ w, (fill_blocked (policy_Seek blockedAccountPrefix (pw_store w)), w));
  attributeFee ← (λ w, (fill_attributes (policy_Seek attributeFeePrefix (pw_store w)) ∅, w));
  '(maxVUBIncrement, msPerBlock, maxTraceableBlocks) ← fill_echidna (enabled HFEchidna);
  whitelistedContracts ← fill_faun (enabled HFFaun);
  mret (mkPC (u32 execFeeFactor) (enabled HFFaun) feePerByte defaultMaxVerificationGas (u32 storagePrice) msPerBlock
          maxVUBIncrement maxTraceableBlocks attributeFee blockedAccounts whitelistedContracts).

Definition Policy_InitializeCache (enabled : string → bool) : PolicyM unit :=
  cache ← fillCacheFromDAO enabled; policy_SetCache cache.

(** ** Reading *)

Definition isBlockedInternal (c : PolicyCache) (hash : bytes) : nat * bool :=
  BinarySearchFunc (pc_blockedAccounts c) (λ a, bcompare a hash).

(** The storage answers for a node that has no cache yet. *)
Definition IsBlocked (hash : bytes) (w : PolicyWorld) : bool :=
  match pw_cache w with
  | None => bool_decide (is_Some (pw_store w !! makeBlockedAccountKey hash))
  | Some c => (isBlockedInternal c hash).2
  end.

Definition GetFeePerByteInternal : PolicyM Z := c ← GetROCache; mret (pc_feePerByte c).
Definition GetMaxVerificationGas : PolicyM Z := c ← GetROCache; mret (pc_maxVerificationGas c).
Definition GetExecFeeFactorInternal : PolicyM Z :=
  c ← GetROCache;
  mret (if pc_faunInitialized c then pc_execFeeFactor c else u32 (pc_execFeeFactor c * ExecFeeFactorMultiplier)).
Definition GetStoragePriceInternal : PolicyM Z := c ← GetROCache; mret (i64 (pc_storagePrice c * ExecFeeFactorMultiplier)).
Definition GetAttributeFeeInternal (t : Z) : PolicyM Z :=
  c ← GetROCache; mret (default defaultAttributeFee (pc_attributeFee c !! t)).
Definition GetMaxValidUntilBlockIncrementFromCache : PolicyM Z := c ← GetROCache; mret (pc_maxVUBIncrement c).
Definition GetMillisecondsPerBlockInternal : PolicyM Z := c ← GetROCache; mret (pc_msPerBlock c).
Definition GetMaxTraceableBlocksInternal : PolicyM Z := c ← GetROCache; mret (pc_maxTraceableBlocks c).

(** The error names the blocked signer. *)
Definition CheckPolicy (tx : Transaction) : PolicyM unit :=
  c ← GetROCache;
  plift (match list_find (λ s, (isBlockedInternal c (sg_Account s)).2 = true) (t_Signers tx) with
         | Some _ => Err "account is blocked"%string
         | None => Ok tt
         end).

Definition sought (hash : bytes) (offset : Z) : whitelistedContract := mkWC (mkWFC hash [] 0 0) (u32 offset).

Definition find_whitelisted (c : PolicyCache) (hash : bytes) (offset : Z) : nat * bool :=
  BinarySearchFunc (pc_whitelistedContracts c) (λ a, whitelisted_Compare a (sought hash offset)).

(** The fee, in 64 bits, or -1. *)
Definition WhitelistedFee (hash : bytes) (offset : Z) : PolicyM Z :=
  c ← GetROCache;
  let '(i, ok) := find_whitelisted c hash offset in
  mret (if ok then
          match pc_whitelistedContracts c !! i with
          | Some r => i64 (wf_Fee (wc_contract r) * ExecFeeFactorMultiplier)
          | None => -1
          end
        else -1).

Definition toUint32 (s : item) : res nerr Z := match ToUint32 s with Ok n => Ok n | _ => Panic end.
Definition toUint8 (s : item) : res nerr Z := match ToUint8 s with Ok n => Ok n | _ => Panic end.
Definition toInt64 (s : item) : res nerr Z := match ToInt64 s with Ok n => Ok n | _ => Panic end.
Definition toString (h : Heap) (s : item) : res nerr bytes := match ToString h s with Ok b => Ok b | _ => Panic end.

(** The result of a getter. *)
Definition as_item (m : PolicyM Z) : PolicyM item := n ← m; mret (Integer n).

Definition getFeePerByte : PolicyM item := as_item GetFeePerByteInternal.
Definition getExecFeeFactor : PolicyM item := as_item (n ← GetExecFeeFactorInternal; mret (Z.quot n ExecFeeFactorMultiplier)).
Definition getExecPicoFeeFactor : PolicyM item := as_item (c ← GetROCache; mret (pc_execFeeFactor c)).
Definition getStoragePrice : PolicyM item := as_item (n ← GetStoragePriceInternal; mret (Z.quot n ExecFeeFactorMultiplier)).
Definition getMaxValidUntilBlockIncrement : PolicyM item := as_item GetMaxValidUntilBlockIncrementFromCache.
Definition getMillisecondsPerBlock : PolicyM item := as_item GetMillisecondsPerBlockInternal.
Definition getMaxTraceableBlocks : PolicyM item := as_item GetMaxTraceableBlocksInternal.

Definition isBlocked (h : Heap) (args : list item) : PolicyM item :=
  hash ← plift (a0 ← arg args 0; toUint160 h a0);
  c ← GetROCache;
  mret (Bool (isBlockedInternal c hash).2).

(** The iterators of [getBlockedAccounts] and [getWhitelistFeeContracts] go
    over copies. *)
Definition getBlockedAccounts : PolicyM (list bytes) := c ← GetROCache; mret (pc_blockedAccounts c).
Definition getWhitelistFeeContracts : PolicyM (list WhitelistFeeContract) :=
  c ← GetROCache; mret (map wc_contract (pc_whitelistedContracts c)).

Record iterator (T : Type) := mkIter { it_keys : list T; it_next : bool }.
Arguments mkIter {T} _ _.
Arguments it_keys {T} _.
Arguments it_next {T} _.

Definition iterator_Next {T} (i : iterator T) : bool * iterator T :=
  let keys := if it_next i then drop 1 (it_keys i) else it_keys i in
  let next := bool_decide (0 < length keys)%nat in
  (next, mkIter keys next).

Definition iterator_Value {T} (i : iterator T) : res nerr T :=
  if it_next i then match it_keys i with k :: _ => Ok k | [] => Panic end else Panic.

(** ** Changes *)

Section policy.
Context `{Digest} (pe : PolicyEnv).

Definition faun : bool := IsHardforkEnabled (pe_ic pe) HFFaun.

(** The committee's signature, or a panic. *)
Definition check_committee : PolicyM unit :=
  ok ← no_perror (on_tokens (CheckCommittee (pe_ic pe)));
  if (ok : bool) then mret tt else ppanic.

Definition notify (name : string) (items : list tree) : PolicyM unit :=
  on_tokens (AddNotification (pe_ic pe) (pe_Hash pe) name items).

Definition setExecFeeFactor (args : list item) : PolicyM item :=
  value ← plift (a0 ← arg args 0; toUint32 a0);
  let maxValue := if faun then u32 (maxExecFeeFactor * ExecFeeFactorMultiplier) else maxExecFeeFactor in
  if bool_decide (value <= 0) || bool_decide (maxValue < value) then ppanic else
  _ ← check_committee;
  _ ← setIntWithKey execFeeFactorKey value;
  _ ← on_policy_cache (set_execFeeFactor value);
  mret Null.

Definition setStoragePrice (args : list item) : PolicyM item :=
  value ← plift (a0 ← arg args 0; toUint32 a0);
  if bool_decide (value <= 0) || bool_decide (maxStoragePrice < value) then ppanic else
  _ ← check_committee;
  _ ← setIntWithKey storagePriceKey value;
  _ ← on_policy_cache (set_storagePrice value);
  mret Null.

Definition valid_attribute (t : Z) (allowNotaryAssisted : bool) : bool :=
  IsValidAttrType (pe_ReservedAttributes pe) t && (allowNotaryAssisted || negb (bool_decide (t = NotaryAssistedT))).

Definition getAttributeFeeGeneric (args : list item) (allowNotaryAssisted : bool) : PolicyM item :=
  t ← plift (a0 ← arg args 0; toUint8 a0);
  if negb (valid_attribute t allowNotaryAssisted) then ppanic else as_item (GetAttributeFeeInternal t).

Definition getAttributeFeeV0 (args : list item) : PolicyM item := getAttributeFeeGeneric args false.
Definition getAttributeFeeV1 (args : list item) : PolicyM item := getAttributeFeeGeneric args true.

Definition setAttributeFeeGeneric (args : list item) (allowNotaryAssisted : bool) : PolicyM item :=
  t ← plift (a0 ← arg args 0; toUint8 a0);
  value ← plift (a1 ← arg args 1; toUint32 a1);
  if negb (valid_attribute t allowNotaryAssisted) then ppanic else
  if bool_decide (maxAttributeFee < value) then ppanic else
  _ ← check_committee;
  _ ← setIntWithKey (attributeFeeKey t) value;
  _ ← on_policy_cache (λ c, set_attributeFee (<[t := value]> (pc_attributeFee c)) c);
  mret Null.

Definition setAttributeFeeV0 (args : list item) : PolicyM item := setAttributeFeeGeneric args false.
Definition setAttributeFeeV1 (args : list item) : PolicyM item := setAttributeFeeGeneric args true.

(** The 64 bits of the value are taken before its range is looked at. *)
Definition setFeePerByte (args : list item) : PolicyM item :=
  value ← plift (a0 ← arg args 0; n ← toBigInt a0; Ok (i64 n));
  if bool_decide (value < 0) || bool_decide (maxFeePerByte < value) then ppanic else
  _ ← check_committee;
  _ ← setIntWithKey feePerByteKey value;
  _ ← on_policy_cache (set_feePerByte value);
  mret Null.

Definition setMaxValidUntilBlockIncrement (args : list item) : PolicyM item :=
  value ← plift (a0 ← arg args 0; toUint32 a0);
  if bool_decide (value <= 0) || bool_decide (maxMaxVUBIncrement < value) then ppanic else
  mtb ← GetMaxTraceableBlocksInternal;
  if bool_decide (mtb <= value) then ppanic else
  _ ← check_committee;
  _ ← setIntWithKey maxVUBIncrementKey value;
  _ ← on_policy_cache (set_maxVUBIncrement value);
  mret Null.

Definition setMillisecondsPerBlock (args : list item) : PolicyM item :=
  value ← plift (a0 ← arg args 0; toUint32 a0);
  if bool_decide (value <= 0) || bool_decide (maxMillisecondsPerBlock < value) then ppanic else
  _ ← check_committee;
  _ ← setIntWithKey msPerBlockKey value;
  old ← GetMillisecondsPerBlockInternal;
  _ ← on_policy_cache (set_msPerBlock value);
  _ ← no_perror (notify "MillisecondsPerBlockChanged" [TInt old; TInt value]);
  mret Null.

Definition setMaxTraceableBlocks (args : list item) : PolicyM item :=
  value ← plift (a0 ← arg args 0; toUint32 a0);
  if bool_decide (value <= 0) || bool_decide (maxMaxTraceableBlocks < value) then ppanic else
  old ← GetMaxTraceableBlocksInternal;
  if bool_decide (old < value) then ppanic else
  maxVUBInc ← GetMaxValidUntilBlockIncrementFromCache;
  if bool_decide (value <= maxVUBInc) then ppanic else
  _ ← check_committee;
  _ ← setIntWithKey MaxTraceableBlocksKey value;
  _ ← on_policy_cache (set_maxTraceableBlocks value);
  mret Null.

(** [GetMaxValidUntilBlockIncrementInternal] *)
Definition GetMaxValidUntilBlockIncrementInternal : PolicyM Z :=
  if IsHardforkEnabled (pe_ic pe) HFEchidna then GetMaxValidUntilBlockIncrementFromCache
  else mret (pe_MaxValidUntilBlockIncrement pe).

(** ** Blocked accounts *)

(** An index beyond the end is out of the bounds of the slice. *)
Definition insert_blocked (i : nat) (hash : bytes) (c : PolicyCache) : res nerr PolicyCache :=
  let l := pc_blockedAccounts c in
  if bool_decide (length l = i) then Ok (set_blockedAccounts (l ++ [hash]) c)
  else if bool_decide (length l < i)%nat then Panic
  else Ok (set_blockedAccounts (insert_at i hash l) c).

(** The continuation: the index was found before the vote was revoked. *)
Definition block_at (hash : bytes) (i : nat) : PolicyM unit :=
  _ ← policy_PutStorageItem (makeBlockedAccountKey hash) (if faun then ToBytes (u64 (pe_time pe)) else []);
  c ← GetROCache;
  c' ← plift (insert_blocked i hash c);
  policy_SetCache c'.

Section calls.
Context {R : Type}.

Definition BlockAccountInternalDeferrable (hash : bytes) (handleRes : bool → PolicyWorld → pproc R) : PolicyWorld → pproc R :=
  pdo_ GetROCache (λ c,
  let '(i, blocked) := isBlockedInternal c hash in
  if (blocked : bool) then handleRes false else
  let continuation := pdo_ (block_at hash i) (λ _, handleRes true) in
  if faun then λ w,
    embed (RevokeVotesDeferrable (pe_ic pe) (pe_NEO pe) (pe_GAS pe) hash (Returned tt) (λ _, Returned tt) (pw_tokens w))
      (pw_store w) (pw_cache w) (λ _, continuation)
  else continuation).

Definition blockAccountDeferrable (h : Heap) (args : list item) (popArgsPushRes : item → PolicyWorld → pproc R) : PolicyWorld → pproc R :=
  pdo_ check_committee (λ _,
  pdo_ (plift (a0 ← arg args 0; toUint160 h a0)) (λ hash,
  if bool_decide (hash ∈ pe_Natives pe) then λ _, PPanicked else
  BlockAccountInternalDeferrable hash (λ res, popArgsPushRes (Bool res)))).

(** A panic of the code is an error of the machine. *)
Definition recoverFundDeferrable (h : Heap) (args : list item) (popArgsPushRes : item → PolicyWorld → pproc R) : PolicyWorld → pproc R :=
  pdo_ (plift (a0 ← arg args 0; toUint160 h a0)) (λ acc,
  pdo_ (plift (a1 ← arg args 1; toUint160 h a1)) (λ token,
  pdo_ (no_perror (on_tokens (CheckAlmostFullCommittee (pe_ic pe)))) (λ ok,
  if negb ok then λ _, PPanicked else
  pdo_ (no_perror (policy_GetInt (makeBlockedAccountKey acc))) (λ start,
  let elapsed := u64 (pe_time pe - u64 start) in
  if bool_decide (elapsed < recoverFundsLockPeriod) then λ _, PPanicked else
  match pe_contracts pe !! token with
  | None => λ _, PPanicked
  | Some cs =>
      if negb (IsStandardSupported cs "NEP-17") then λ _, PPanicked else λ w,
      PInvoking acc token "balanceOf" [ByteArray acc] w (λ _ v,
        pdo_ (plift (toBigInt v)) (λ balance,
        if bool_decide (balance <= 0) then popArgsPushRes (Bool false) else λ w,
        PInvoking acc token "transfer" [ByteArray acc; ByteArray (pe_Treasury pe); Integer balance; Null] w (λ _ v,
          pdo_ (pmust (TryBool v)) (λ ok,
          if negb ok then λ _, PPanicked else
          pdo_ (notify "RecoveredFund" [TBytes acc]) (λ _, popArgsPushRes (Bool true))))))
  end)))).
End calls.

Definition unblockAccount (h : Heap) (args : list item) : PolicyM item :=
  _ ← check_committee;
  hash ← plift (a0 ← arg args 0; toUint160 h a0);
  c ← GetROCache;
  let '(i, blocked) := isBlockedInternal c hash in
  if negb blocked then mret (Bool false) else
  _ ← policy_DeleteStorageItem (makeBlockedAccountKey hash);
  _ ← on_policy_cache (λ c, set_blockedAccounts (delete_at i (pc_blockedAccounts c)) c);
  mret (Bool true).

(** ** Methods with a fixed fee *)

Definition whitelist_note (h method : bytes) (argCnt : Z) (fee : tree) : PolicyM unit :=
  notify "WhitelistFeeChanged" [TBytes h; TBytes method; TInt argCnt; fee].

(** [slices.DeleteFunc]: what is kept, and the first error, after which
    nothing is deleted. *)
Fixpoint clean_whitelist (h : bytes) (cs : list whitelistedContract) : PolicyM (list whitelistedContract * option nerr) :=
  match cs with
  | [] => mret ([], None)
  | c :: cs =>
      if bool_decide (wf_Hash (wc_contract c) ≠ h) then '(kept, err) ← clean_whitelist h cs; mret (c :: kept, err) else
      _ ← policy_DeleteStorageItem (makeWhitelistedKey (wf_Hash (wc_contract c)) (wc_offset c));
      err ← (λ w, match whitelist_note (wf_Hash (wc_contract c)) (wf_Method (wc_contract c)) (wf_ArgCnt (wc_contract c)) TNull w with
                  | (Ok _, w) => (Ok None, w) | (Err e, w) => (Ok (Some e), w) | (Panic, w) => (Panic, w) end);
      match err with
      | Some e => mret (c :: cs, Some e)
      | None => clean_whitelist h cs
      end
  end.

Definition CleanWhitelist (h : bytes) : PolicyM unit :=
  c ← GetROCache;
  '(kept, err) ← clean_whitelist h (pc_whitelistedContracts c);
  _ ← on_policy_cache (set_whitelistedContracts kept);
  plift (match err with Some e => Err e | None => Ok tt end).

(** The method of a deployed contract, or a panic. *)
Definition find_method (h name : bytes) (argCnt : Z) : PolicyM method :=
  plift (match pe_contracts pe !! h with
         | Some cs => match GetMethod (ct_Methods cs) name argCnt with Some md => Ok md | None => Panic end
         | None => Panic
         end).

Definition removeWhitelistFeeContract (hp : Heap) (args : list item) : PolicyM item :=
  _ ← check_committee;
  h ← plift (a0 ← arg args 0; toUint160 hp a0);
  method ← plift (a1 ← arg args 1; toString hp a1);
  argCnt ← plift (a2 ← arg args 2; toInt64 a2);
  md ← find_method h method argCnt;
  c ← GetROCache;
  let '(i, ok) := find_whitelisted c h (md_Offset md) in
  if negb ok then ppanic else
  _ ← policy_DeleteStorageItem (makeWhitelistedKey h (u32 (md_Offset md)));
  _ ← on_policy_cache (λ c, set_whitelistedContracts (delete_at i (pc_whitelistedContracts c)) c);
  _ ← no_perror (whitelist_note h method argCnt TNull);
  mret Null.

(** An entry that is found is left as it is. *)
Definition setWhitelistFeeContract (hp : Heap) (args : list item) : PolicyM item :=
  h ← plift (a0 ← arg args 0; toUint160 hp a0);
  method ← plift (a1 ← arg args 1; toString hp a1);
  argCnt ← plift (a2 ← arg args 2; toInt64 a2);
  fee ← plift (a3 ← arg args 3; toInt64 a3);
  if bool_decide (fee < 0) then ppanic else
  _ ← check_committee;
  md ← find_method h method argCnt;
  let r := mkWFC h method argCnt fee in
  data ← pmust (WhitelistFeeContract_Bytes r);
  _ ← policy_PutStorageItem (makeWhitelistedKey h (u32 (md_Offset md))) data;
  c ← GetROCache;
  let '(i, ok) := find_whitelisted c h (md_Offset md) in
  _ ← (if ok then mret tt
       else policy_SetCache (set_whitelistedContracts
              (insert_at i (mkWC r (u32 (md_Offset md))) (pc_whitelistedContracts c)) c));
  _ ← no_perror (whitelist_note h method argCnt (TInt fee));
  mret Null.

(** ** Initialization *)

(** The time of the block for all blocked accounts. *)
Fixpoint stamp_blocked (accs : list bytes) : PolicyM unit :=
  match accs with
  | [] => mret tt
  | acc :: accs => _ ← setIntWithKey (makeBlockedAccountKey acc) (u64 (pe_time pe)); stamp_blocked accs
  end.

Definition zero_policy_cache : PolicyCache :=
  mkPC defaultExecFeeFactor false defaultFeePerByte defaultMaxVerificationGas DefaultStoragePrice 0 0 0 ∅ [] [].

(** [None] is the genesis block, in which the contract is active. *)
Definition Policy_Initialize (hf : option string) : PolicyM unit :=
  _ ← (match hf with
       | None =>
           _ ← setIntWithKey feePerByteKey defaultFeePerByte;
           _ ← setIntWithKey execFeeFactorKey defaultExecFeeFactor;
           _ ← setIntWithKey storagePriceKey DefaultStoragePrice;
           policy_SetCache zero_policy_cache
       | Some _ => mret tt
       end);
  _ ← (if bool_decide (hf = Some HFEchidna) then
         _ ← setIntWithKey maxVUBIncrementKey (pe_Genesis_MaxValidUntilBlockIncrement pe);
         _ ← on_policy_cache (set_maxVUBIncrement (pe_Genesis_MaxValidUntilBlockIncrement pe));
         _ ← setIntWithKey msPerBlockKey (pe_Genesis_TimePerBlock pe);
         _ ← on_policy_cache (set_msPerBlock (u32 (pe_Genesis_TimePerBlock pe)));
         _ ← setIntWithKey MaxTraceableBlocksKey (pe_Genesis_MaxTraceableBlocks pe);
         _ ← on_policy_cache (set_maxTraceableBlocks (pe_Genesis_MaxTraceableBlocks pe));
         _ ← setIntWithKey (attributeFeeKey NotaryAssistedT) defaultNotaryAssistedFee;
         on_policy_cache (λ c, set_attributeFee (<[NotaryAssistedT := defaultNotaryAssistedFee]> (pc_attributeFee c)) c)
       else mret tt);
  if bool_decide (hf = Some HFFaun) then
    _ ← on_policy_cache (λ c, set_faunInitialized true (set_execFeeFactor (u32 (pc_execFeeFactor c * ExecFeeFactorMultiplier)) c));
    c ← GetROCache;
    _ ← setIntWithKey execFeeFactorKey (pc_execFeeFactor c);
    stamp_blocked (pc_blockedAccounts c)
  else mret tt.

End policy.
