(* ===== verification/PolicyInv.v ===== *)
(** * PolicyInv: sorted caches and the storage below them

    Binary search over a strictly sorted list of keys; the items under a prefix
    of the storage as such a list, and how it changes with the storage; and
    what it means that a cache is the one a node would make from the storage.
    No code is modelled here. *)

From S2P Require Import Prelude Bigint BinIO Codec Hash Keys Witness Tx StackItem Serial Storage NativeState Native NativeNeo Policy.

#[local] Open Scope Z_scope.

(** ** Search *)

(** [lt] holds of a first part of the list. *)
Definition initial {A} (x : list A) (lt : A → bool) : Prop :=
  ∀ i j a b, (i < j)%nat → x !! i = Some a → x !! j = Some b → lt b = true → lt a = true.

Lemma bsearch_loop_spec {A} (x : list A) (lt : A → bool) n i j :
  initial x lt → (i <= j <= length x)%nat → (j - i <= n)%nat →
  (∀ k a, (k < i)%nat → x !! k = Some a → lt a = true) →
  (∀ k a, (j <= k)%nat → x !! k = Some a → lt a = false) →
  let r := search_loop n x lt i j in
  (r <= length x)%nat ∧ (∀ k a, (k < r)%nat → x !! k = Some a → lt a = true) ∧
  (∀ k a, (r <= k)%nat → x !! k = Some a → lt a = false).
Proof.
  intros Hx. revert i j. induction n as [|n IH]; intros i j Hij Hn Hlo Hhi; cbn [search_loop].
  { replace j with i in Hhi by lia. split; [lia|done]. }
  case_bool_decide as Hlt; [|replace j with i in Hhi by lia; split; [lia|done]].
  assert (i <= (i + j) / 2 < j)%nat as Hh.
  { split; [apply Nat.div_le_lower_bound; lia|apply Nat.Div0.div_lt_upper_bound; lia]. }
  destruct (x !! ((i + j) / 2)%nat) as [a|] eqn:Ha; [|apply lookup_ge_None in Ha; lia].
  destruct (lt a) eqn:Hla; apply IH; try lia.
  - intros k b Hk Hb. destruct (decide (k = (i + j) / 2)%nat) as [->|]; [congruence|].
    apply (Hx k ((i + j) / 2)%nat b a); [lia|done..].
  - done.
  - done.
  - intros k b Hk Hb. destruct (decide (k = (i + j) / 2)%nat) as [->|]; [congruence|].
    destruct (lt b) eqn:Hlb; [|done]. rewrite (Hx ((i + j) / 2)%nat k a b) in Hla; [done|lia|done..].
Qed.

Lemma search_loop_map {A B} (f : A → B) (x : list A) (lt : B → bool) n i j :
  search_loop n (map f x) lt i j = search_loop n x (λ a, lt (f a)) i j.
Proof.
  revert i j. induction n as [|n IH]; intros i j; cbn [search_loop]; [done|].
  case_bool_decide; [|done]. rewrite list_lookup_fmap. destruct (x !! _); cbn; [|done].
  destruct (lt (f a)); apply IH.
Qed.

Lemma search_loop_ext {A} (x : list A) (lt lt' : A → bool) n i j :
  (∀ a, a ∈ x → lt a = lt' a) → search_loop n x lt i j = search_loop n x lt' i j.
Proof.
  intros Hlt. revert i j. induction n as [|n IH]; intros i j; cbn [search_loop]; [done|].
  case_bool_decide; [|done]. destruct (x !! _) eqn:Ha; [|done].
  rewrite Hlt by (by eapply list_elem_of_lookup_2). destruct (lt' a); apply IH.
Qed.

(** The search in a list of items by their keys. *)
Lemma search_by_key {A} (key : A → bytes) (x : list A) (cmp : A → comparison) k :
  (∀ a, a ∈ x → cmp a = bcompare (key a) k) →
  BinarySearchFunc x cmp = BinarySearchFunc (map key x) (λ a, bcompare a k).
Proof.
  intros Hc. unfold BinarySearchFunc. rewrite length_map, search_loop_map. f_equal.
  - apply search_loop_ext. intros a Ha. by rewrite Hc.
  - set (i := search_loop _ _ _ _ _). set (i' := search_loop _ _ _ _ _).
    replace i' with i; [|apply search_loop_ext; intros a Ha; by rewrite Hc].
    rewrite list_lookup_fmap. destruct (x !! i) eqn:Ha; [|done]. cbn.
    by rewrite Hc by (by eapply list_elem_of_lookup_2).
Qed.

Definition keys_sorted (ks : list bytes) : Prop := StronglySorted (λ a b, bcompare a b = Lt) ks.

Lemma keys_sorted_lookup ks i j a b :
  keys_sorted ks → (i < j)%nat → ks !! i = Some a → ks !! j = Some b → bcompare a b = Lt.
Proof.
  intros Hs. revert i j. induction Hs as [|x ks Hs IH Hx]; intros i j Hij Ha Hb; [done|].
  destruct j as [|j]; [lia|]. destruct i as [|i].
  - injection Ha as <-. rewrite Forall_forall in Hx. apply Hx. by eapply list_elem_of_lookup_2.
  - apply (IH i j); [lia|done..].
Qed.

Lemma keys_sorted_initial ks k :
  keys_sorted ks → initial ks (λ a, match bcompare a k with Lt => true | _ => false end).
Proof.
  intros Hs i j a b Hij Ha Hb. pose proof (keys_sorted_lookup _ _ _ _ _ Hs Hij Ha Hb) as Hlt.
  destruct (bcompare b k) eqn:Hbk; [done| |done]. by rewrite (bcompare_trans_lt _ _ _ Hlt Hbk).
Qed.

(** Where the search ends: at the key, or between the smaller and the greater
    ones. *)
Lemma search_keys ks k i b :
  keys_sorted ks → BinarySearchFunc ks (λ a, bcompare a k) = (i, b) →
  (i <= length ks)%nat ∧
  (∀ j a, (j < i)%nat → ks !! j = Some a → bcompare a k = Lt) ∧
  if b then ks !! i = Some k else ∀ j a, (i <= j)%nat → ks !! j = Some a → bcompare k a = Lt.
Proof.
  intros Hs. unfold BinarySearchFunc.
  destruct (bsearch_loop_spec ks _ (length ks) 0 (length ks) (keys_sorted_initial ks k Hs))
    as (Hle & Hlo & Hhi); [lia|lia|lia|intros j a Hj Ha; apply lookup_lt_Some in Ha; lia|].
  set (r := search_loop _ _ _ _ _) in *. intros [= <- <-].
  split; [done|]. split.
  { intros j a Hj Ha. specialize (Hlo j a Hj Ha). by destruct (bcompare a k). }
  assert (∀ j a, (r <= j)%nat → ks !! j = Some a → bcompare a k ≠ Eq → bcompare k a = Lt) as Hgt.
  { intros j a Hj Ha Hne. rewrite bcompare_antisym. specialize (Hhi j a Hj Ha). by destruct (bcompare a k). }
  destruct (ks !! r) as [a|] eqn:Ha.
  - destruct (bcompare a k) eqn:Hak; [by apply bcompare_eq in Hak as ->| |].
    + specialize (Hhi r a ltac:(lia) Ha). by rewrite Hak in Hhi.
    + intros j c Hj Hc. destruct (decide (j = r)) as [->|]; [apply (Hgt r); [lia|done|congruence]|].
      eapply bcompare_trans_lt; [apply (Hgt r a); [lia|done|congruence]|].
      apply (keys_sorted_lookup ks r j); [done|lia|done..].
  - intros j c Hj Hc. apply lookup_lt_Some in Hc. apply lookup_ge_None in Ha. lia.
Qed.

Lemma search_found ks k : keys_sorted ks → (BinarySearchFunc ks (λ a, bcompare a k)).2 = true ↔ k ∈ ks.
Proof.
  intros Hs. destruct (BinarySearchFunc ks _) as [i b] eqn:Hb. apply search_keys in Hb as (_ & Hlo & Hb); [|done].
  cbn. destruct b.
  - split; [|done]. intros _. by eapply list_elem_of_lookup_2.
  - split; [done|]. intros [j Hj]%list_elem_of_lookup.
    destruct (decide (j < i)%nat) as [Hji|Hji].
    + specialize (Hlo j k Hji Hj). by rewrite bcompare_refl in Hlo.
    + specialize (Hb j k ltac:(lia) Hj). by rewrite bcompare_refl in Hb.
Qed.

(** ** The items under a prefix *)

Definition sorted_items (l : list (bytes * bytes)) : Prop := keys_sorted (map fst l).

Lemma policy_Seek_elem (p : Z) (s : gmap bytes bytes) (k v : bytes) :
  (k, v) ∈ policy_Seek p s ↔ s !! (z2b p :: k) = Some v.
Proof.
  unfold policy_Seek. rewrite list_elem_of_fmap. split.
  - intros ([key val] & [= -> ->] & Hin). apply elem_of_seek_list in Hin as [Hv Hk]. cbn in *.
    apply isKeyOK_prefix in Hk as (b & t & t' & -> & [= <- _]); [|done]. done.
  - intros Hv. exists (mkKV (z2b p :: k) v). split; [done|]. apply elem_of_seek_list. cbn. split; [done|].
    unfold isKeyOK. cbn. by rewrite bool_decide_eq_true_2.
Qed.

Lemma policy_Seek_sorted (p : Z) (s : gmap bytes bytes) : sorted_items (policy_Seek p s).
Proof.
  unfold sorted_items, keys_sorted, policy_Seek. rewrite map_map. cbn [fst].
  pose proof (seek_list_sorted (mkRange [z2b p] [] false 0) s) as Hs.
  assert (Forall (λ kv, ∃ k, kv_key kv = z2b p :: k) (seek_list (mkRange [z2b p] [] false 0) s)) as Hp.
  { apply Forall_forall. intros [key val] [_ Hk]%elem_of_seek_list. cbn in *.
    apply isKeyOK_prefix in Hk as (b & t & t' & -> & [= <- _]); [by exists t|done]. }
  induction Hs as [|a l Hs IH Ha]; cbn; [constructor|]. apply Forall_cons in Hp as [[k Hk] Hp].
  constructor; [by apply IH|]. rewrite Forall_forall in Ha. rewrite Forall_forall in Hp. apply Forall_forall. intros key (b & -> & Hb)%list_elem_of_fmap.
  specialize (Ha b Hb). destruct (Hp b Hb) as [k' Hk']. unfold kvlt, klt, cmpFunc in Ha. cbn in Ha.
  rewrite Hk, Hk' in Ha |- *. cbn in *. by rewrite Z.compare_refl in Ha.
Qed.

Lemma sorted_items_unique l1 l2 :
  sorted_items l1 → sorted_items l2 → (∀ x, x ∈ l1 ↔ x ∈ l2) → l1 = l2.
Proof.
  intros H1 H2 Hx.
  assert (∀ l, sorted_items l → StronglySorted (kvlt false) (map (λ x, mkKV x.1 x.2) l)) as Hkv.
  { induction l as [|a l IH]; intros Hl; cbn; [constructor|]. unfold sorted_items, keys_sorted in Hl. cbn in Hl.
    inversion Hl as [|? ? Hl' Ha]; subst. constructor; [by apply IH|].
    rewrite Forall_forall in Ha. apply Forall_forall. intros kv (b & -> & Hb)%list_elem_of_fmap. apply Ha. cbn. by apply (list_elem_of_fmap_2 fst). }
  assert (map (λ x : bytes * bytes, mkKV x.1 x.2) l1 = map (λ x, mkKV x.1 x.2) l2) as He.
  { apply (kv_sorted_unique false); [by apply Hkv..|]. intros x. rewrite !list_elem_of_fmap.
    split; intros (y & -> & Hy); exists y; (split; [done|by apply Hx]). }
  assert (∀ l, map (λ kv, (kv_key kv, kv_val kv)) (map (λ x : bytes * bytes, mkKV x.1 x.2) l) = l) as Hid.
  { induction l as [|[k v] l IH]; cbn; [done|]. by rewrite IH. }
  by rewrite <- (Hid l1), <- (Hid l2), He.
Qed.

Lemma keys_sorted_app l1 l2 :
  keys_sorted (l1 ++ l2) ↔ keys_sorted l1 ∧ keys_sorted l2 ∧ ∀ a b, a ∈ l1 → b ∈ l2 → bcompare a b = Lt.
Proof.
  induction l1 as [|x l1 IH]; cbn.
  - split; [|tauto]. intros H. split; [constructor|]. split; [done|]. by intros a b ?%elem_of_nil.
  - split.
    + inversion 1 as [|? ? Hs Hx]; subst. apply IH in Hs as (H1 & H2 & H12).
      rewrite Forall_app, !Forall_forall in Hx. destruct Hx as [Hx1 Hx2].
      split; [constructor; [done|by apply Forall_forall]|]. split; [done|].
      intros a b [->|Ha]%elem_of_cons Hb; auto.
    + intros (H1 & H2 & H12). inversion H1 as [|? ? Hs Hx]; subst. constructor.
      * apply IH. split; [done|]. split; [done|]. intros a b Ha. apply H12. by right.
      * apply Forall_app. split; [done|]. apply Forall_forall. intros b Hb. apply H12; [left|done].
Qed.

Lemma take_lookup_lt {A} (l : list A) i : (∀ P : A → Prop, (∀ j a, (j < i)%nat → l !! j = Some a → P a) → ∀ a, a ∈ take i l → P a).
Proof. intros P HP a [j Hj]%list_elem_of_lookup. apply lookup_take_Some in Hj as [Hj Hlt]. eauto. Qed.

Lemma drop_lookup_ge {A} (l : list A) i : (∀ P : A → Prop, (∀ j a, (i <= j)%nat → l !! j = Some a → P a) → ∀ a, a ∈ drop i l → P a).
Proof. intros P HP a [j Hj]%list_elem_of_lookup. rewrite lookup_drop in Hj. apply (HP (i + j)%nat); [lia|done]. Qed.

(** An item is put where the search for its key ends. *)
Lemma sorted_insert_at l k v i :
  sorted_items l → BinarySearchFunc (map fst l) (λ a, bcompare a k) = (i, false) →
  sorted_items (insert_at i (k, v) l).
Proof.
  intros Hs Hb. apply search_keys in Hb as (_ & Hlo & Hhi); [|done].
  unfold sorted_items, insert_at in *. rewrite map_app. cbn [map]. rewrite <- firstn_map, <- skipn_map.
  rewrite <- (take_drop i (map fst l)) in Hs. apply keys_sorted_app in Hs as (H1 & H2 & H12).
  apply keys_sorted_app. split; [done|]. split.
  - constructor; [done|]. apply Forall_forall. by apply (drop_lookup_ge _ _ (λ a, bcompare k a = Lt)).
  - intros a b Ha [->|Hb]%elem_of_cons; [|by apply H12].
    revert a Ha. by apply (take_lookup_lt _ _ (λ a, bcompare a k = Lt)).
Qed.

Lemma elem_of_insert_at {A} i (x y : A) l : y ∈ insert_at i x l ↔ y = x ∨ y ∈ l.
Proof.
  unfold insert_at. rewrite elem_of_app, elem_of_cons. rewrite <- (take_drop i l) at 3. rewrite elem_of_app. tauto.
Qed.

Lemma Seek_insert_at (p : Z) s k v i :
  BinarySearchFunc (map fst (policy_Seek p s)) (λ a, bcompare a k) = (i, false) →
  policy_Seek p (<[z2b p :: k := v]> s) = insert_at i (k, v) (policy_Seek p s).
Proof.
  intros Hb. pose proof (policy_Seek_sorted p s) as Hs.
  apply sorted_items_unique; [apply policy_Seek_sorted|by apply sorted_insert_at|].
  assert (k ∉ map fst (policy_Seek p s)) as Hk.
  { rewrite <- (search_found (map fst (policy_Seek p s)) k Hs), Hb. done. }
  intros [k' v']. rewrite elem_of_insert_at, !policy_Seek_elem, lookup_insert_Some. split.
  - intros [[[= ->] ->]|[_ Hl]]; [by left|by right].
  - intros [[= -> ->]|Hl]; [by left|]. right. split; [|done]. intros [= <-]. apply Hk.
    apply list_elem_of_fmap. exists (k, v'). split; [done|]. by apply policy_Seek_elem.
Qed.

Lemma keys_sorted_NoDup ks : keys_sorted ks → NoDup ks.
Proof.
  induction 1 as [|x ks Hs IH Hx]; constructor; [|done]. rewrite Forall_forall in Hx.
  intros Hin. specialize (Hx x Hin). by rewrite bcompare_refl in Hx.
Qed.

Lemma sorted_items_det l k v v' : sorted_items l → (k, v) ∈ l → (k, v') ∈ l → v = v'.
Proof.
  intros Hs [i Hi]%list_elem_of_lookup [j Hj]%list_elem_of_lookup. apply keys_sorted_NoDup in Hs.
  assert (i = j) as ->; [|congruence].
  eapply (NoDup_lookup _ _ _ k Hs); rewrite list_lookup_fmap; [by rewrite Hi|by rewrite Hj].
Qed.

Lemma Seek_delete_at (p : Z) s k i :
  map fst (policy_Seek p s) !! i = Some k →
  policy_Seek p (delete (z2b p :: k) s) = delete_at i (policy_Seek p s).
Proof.
  intros Hi. pose proof (policy_Seek_sorted p s) as Hs. set (l := policy_Seek p s) in *.
  rewrite list_lookup_fmap in Hi. destruct (l !! i) as [[k' v]|] eqn:Hl; [|done]. injection Hi as ->.
  assert (l = take i l ++ (k, v) :: drop (S i) l) as Hsplit by (symmetry; by apply take_drop_middle).
  unfold delete_at. revert Hsplit. generalize (take i l) (drop (S i) l). intros l1 l2 Hsplit.
  assert (∀ v', (k, v') ∉ l1 ++ l2) as Hk.
  { intros v' Hin. unfold sorted_items in Hs. rewrite Hsplit, map_app in Hs. cbn in Hs.
    apply keys_sorted_NoDup in Hs. apply NoDup_app in Hs as (_ & H12 & Hs). apply NoDup_cons in Hs as [Hni _].
    apply elem_of_app in Hin as [Hin|Hin]; apply (list_elem_of_fmap_2 fst) in Hin; [|done].
    apply (H12 k Hin). left. }
  apply sorted_items_unique; [apply policy_Seek_sorted| |].
  { unfold sorted_items in *. rewrite Hsplit in Hs. rewrite map_app in *. cbn in Hs.
    apply keys_sorted_app in Hs as (H1 & H2 & H12). inversion H2; subst. apply keys_sorted_app.
    split; [done|]. split; [done|]. intros a b Ha Hb. apply H12; [done|by right]. }
  intros [k' v']. rewrite policy_Seek_elem, lookup_delete_Some, <- policy_Seek_elem. fold l. rewrite Hsplit.
  rewrite !elem_of_app, elem_of_cons. specialize (Hk v'). rewrite elem_of_app in Hk. split.
  - intros [Hne [?|[[= -> ->]|?]]]; [by left|done|by right].
  - intros [?|?]; (split; [|tauto]); intros [= <-]; tauto.
Qed.

(** A new value of a key that is there. *)
Lemma Seek_replace (p : Z) s k v0 v i :
  policy_Seek p s !! i = Some (k, v0) →
  policy_Seek p (<[z2b p :: k := v]> s) = <[i := (k, v)]> (policy_Seek p s).
Proof.
  intros Hl. pose proof (policy_Seek_sorted p s) as Hs. set (l := policy_Seek p s) in *.
  assert ((k, v0) ∈ l) as Hk0 by (by eapply list_elem_of_lookup_2).
  assert (map fst (<[i := (k, v)]> l) = map fst l) as Hfst.
  { assert (map fst l !! i = Some k) as Hk by by rewrite list_lookup_fmap, Hl.
    change (fst <$> <[i := (k, v)]> l = fst <$> l). rewrite list_fmap_insert. by apply list_insert_id. }
  apply sorted_items_unique; [apply policy_Seek_sorted|unfold sorted_items; by rewrite Hfst|].
  intros [k' v']. rewrite policy_Seek_elem, lookup_insert_Some, <- policy_Seek_elem. fold l. split.
  - intros [[[= ->] ->]|[Hne Hin]].
    + apply list_elem_of_lookup. exists i. apply list_lookup_insert_eq. by eapply lookup_lt_Some.
    + apply list_elem_of_lookup in Hin as [j Hj]. apply list_elem_of_lookup. exists j.
      rewrite list_lookup_insert_ne; [done|]. intros ->. rewrite Hl in Hj. injection Hj as -> ->. done.
  - intros [j Hj]%list_elem_of_lookup. apply list_lookup_insert_Some in Hj as [(-> & [= -> ->] & _)|[Hij Hj]].
    + by left.
    + right. split; [|by eapply list_elem_of_lookup_2]. intros [= <-]. apply Hij.
      apply keys_sorted_NoDup in Hs. eapply (NoDup_lookup _ _ _ k Hs); rewrite list_lookup_fmap; [by rewrite Hl|by rewrite Hj].
Qed.

(** Other keys do not matter. *)
Lemma Seek_other (p : Z) (s s' : gmap bytes bytes) :
  (∀ k, s' !! (z2b p :: k) = s !! (z2b p :: k)) → policy_Seek p s' = policy_Seek p s.
Proof.
  intros Hs. apply sorted_items_unique; [apply policy_Seek_sorted..|]. intros [k v].
  by rewrite !policy_Seek_elem, Hs.
Qed.

(** ** The cache that a node makes *)

Lemma fill_blocked_spec kvs accs :
  fill_blocked kvs = Ok accs ↔ accs = map fst kvs ∧ Forall (λ kv, length kv.1 = Uint160Size) kvs.
Proof.
  revert accs. induction kvs as [|[k v] kvs IH]; intros accs; cbn [fill_blocked map].
  - split; [intros [= <-]; done|intros [-> _]; done].
  - rewrite Forall_cons. cbn [fst]. case_bool_decide as Hk; [split; [done|tauto]|].
    split.
    + by intros (accs' & [-> Hf]%IH & [= <-])%res_bind_ok_inv.
    + intros (-> & _ & Hf). by rewrite (proj2 (IH (map fst kvs)) (conj eq_refl Hf)).
Qed.

(** What the cache holds of a stored method. *)
Definition wl_entry (kv : bytes * bytes) (x : whitelistedContract) : Prop :=
  length kv.1 = (Uint160Size + 4)%nat ∧ WhitelistFeeContract_FromBytes kv.2 = Ok (wc_contract x) ∧
  wc_offset x = be_val (drop Uint160Size kv.1).

Lemma fill_whitelist_spec kvs cs : fill_whitelist kvs = Ok cs ↔ Forall2 wl_entry kvs cs.
Proof.
  revert cs. induction kvs as [|[k v] kvs IH]; intros cs; cbn [fill_whitelist].
  - split; [intros [= <-]; constructor|inversion 1; done].
  - case_bool_decide as Hk; [split; [done|inversion 1 as [|? ? ? ? He]; by destruct He]|].
    split.
    + intros (c & Hc & Hf)%res_bind_ok_inv. apply res_bind_ok_inv in Hf as (cs' & Hcs & [= <-]).
      constructor; [done|by apply IH].
    + inversion 1 as [|? x ? cs' (Hl & Hc & Ho) Hf]; subst. cbn in *. rewrite Hc. cbn.
      apply IH in Hf. rewrite Hf. cbn. destruct x. cbn in *. by rewrite Ho.
Qed.

(** The number of a stored fee, as the cache has it. *)
Definition stored_u32 (v : bytes) : Z := u32 (i64 (stored_int v)).

Lemma fill_attributes_list kvs m0 m :
  NoDup (map fst kvs) → fill_attributes kvs m0 = Ok m →
  Forall (λ kv, length kv.1 = 1%nat) kvs ∧
  (∀ b v, ([b], v) ∈ kvs → m !! b2z b = Some (stored_u32 v)) ∧
  (∀ t, (∀ b v, ([b], v) ∈ kvs → t ≠ b2z b) → m !! t = m0 !! t).
Proof.
  revert m0. induction kvs as [|[k v] kvs IH]; intros m0 Hnd; cbn [fill_attributes].
  { intros [= <-]. split; [done|]. split; [|done]. by intros b v ?%elem_of_nil. }
  cbn in Hnd. apply NoDup_cons in Hnd as [Hk Hnd].
  destruct k as [|b [|b' k]]; [done| |done]. intros (Hf & Hin & Hout)%IH; [|done].
  split; [by constructor|]. split.
  - intros b' v' [[= -> ->]|Hl]%elem_of_cons; [|by apply Hin].
    rewrite Hout; [by rewrite lookup_insert_eq|]. intros b' v' Hl Heq. apply (inj b2z) in Heq. subst b'.
    apply Hk. by apply (list_elem_of_fmap_2 fst) in Hl.
  - intros t Ht. rewrite Hout; [|intros b' v' Hl; apply (Ht b' v'); by right].
    rewrite lookup_insert_ne; [done|]. intros <-. apply (Ht b v); [left|done].
Qed.

(** The fees of attributes in the storage. *)
Definition attributes_of (s : gmap bytes bytes) (m : gmap Z Z) : Prop :=
  (∀ k v, s !! (z2b attributeFeePrefix :: k) = Some v → length k = 1%nat) ∧
  (∀ b, m !! b2z b = stored_u32 <$> s !! [z2b attributeFeePrefix; b]) ∧
  (∀ t, ¬ 0 <= t < 256 → m !! t = None).

Lemma fill_attributes_spec s m :
  fill_attributes (policy_Seek attributeFeePrefix s) ∅ = Ok m ↔ attributes_of s m.
Proof.
  assert (NoDup (map fst (policy_Seek attributeFeePrefix s))) as Hnd.
  { apply keys_sorted_NoDup, policy_Seek_sorted. }
  assert (∀ m, fill_attributes (policy_Seek attributeFeePrefix s) ∅ = Ok m → attributes_of s m) as Hto.
  { intros m' (Hf & Hin & Hout)%fill_attributes_list; [|done]. rewrite Forall_forall in Hf. split; [|split].
    - intros k v Hk. apply (Hf (k, v)). by apply policy_Seek_elem.
    - intros b. destruct (s !! [z2b attributeFeePrefix; b]) as [v|] eqn:Hv; cbn.
      + apply Hin. by apply policy_Seek_elem.
      + rewrite Hout; [by rewrite lookup_empty|]. intros b' v' Hl Heq. apply (inj b2z) in Heq. subst b'.
        apply policy_Seek_elem in Hl. congruence.
    - intros t Ht. rewrite Hout; [by rewrite lookup_empty|]. intros b v _ ->. apply Ht. apply b2z_range. }
  split; [apply Hto|]. intros (Hlen & Hb & Ht).
  assert (∃ m', fill_attributes (policy_Seek attributeFeePrefix s) ∅ = Ok m') as [m' Hm'].
  { assert (∀ l m0, Forall (λ kv : bytes * bytes, length kv.1 = 1%nat) l → ∃ m', fill_attributes l m0 = Ok m') as Hex.
    { induction l as [|[k v] l IH]; intros m0 Hl; cbn [fill_attributes]; [by exists m0|].
      apply Forall_cons in Hl as [Hk Hl]. destruct k as [|b [|]]; [done| |done]. by apply IH. }
    apply Hex. apply Forall_forall. intros [k v] Hin%policy_Seek_elem. by apply (Hlen k v). }
  rewrite Hm'. f_equal. apply Hto in Hm' as (_ & Hb' & Ht'). apply map_eq. intros t.
  destruct (decide (0 <= t < 256)) as [Hr|Hr]; [|by rewrite Ht, Ht'].
  rewrite <- (b2z_z2b_small t Hr). by rewrite Hb, Hb'.
Qed.

(** A stored integer as the cache has it. *)
Definition stored_as (s : gmap bytes bytes) (key : bytes) (conv : Z → Z) (v : Z) : Prop :=
  ∃ si, s !! key = Some si ∧ conv (i64 (stored_int si)) = v.

(** The cache is what a node makes from the storage; [e] and [f] tell whether
    Echidna and Faun are enabled. *)
Record restores (e f : bool) (s : gmap bytes bytes) (c : PolicyCache) : Prop := {
  rs_exec : stored_as s execFeeFactorKey u32 (pc_execFeeFactor c);
  rs_faun : pc_faunInitialized c = f;
  rs_fee : stored_as s feePerByteKey id (pc_feePerByte c);
  rs_gas : pc_maxVerificationGas c = defaultMaxVerificationGas;
  rs_price : stored_as s storagePriceKey u32 (pc_storagePrice c);
  rs_blocked : pc_blockedAccounts c = map fst (policy_Seek blockedAccountPrefix s);
  rs_accounts : Forall (λ kv, length kv.1 = Uint160Size) (policy_Seek blockedAccountPrefix s);
  rs_attributes : attributes_of s (pc_attributeFee c);
  rs_echidna : if e then
      stored_as s maxVUBIncrementKey u32 (pc_maxVUBIncrement c) ∧ stored_as s msPerBlockKey u32 (pc_msPerBlock c) ∧
      stored_as s MaxTraceableBlocksKey u32 (pc_maxTraceableBlocks c)
    else pc_maxVUBIncrement c = 0 ∧ pc_msPerBlock c = 0 ∧ pc_maxTraceableBlocks c = 0;
  rs_list : if f then Forall2 wl_entry (policy_Seek whitelistedFeeContractPrefix s) (pc_whitelistedContracts c)
    else pc_whitelistedContracts c = [];
}.

Lemma prun_ok {A B} (m : PolicyM A) (f : A → PolicyM B) w b w' :
  (m ≫= f) w = (Ok b, w') ↔ ∃ a w1, m w = (Ok a, w1) ∧ f a w1 = (Ok b, w').
Proof.
  unfold mbind, PolicyM_bind. destruct (m w) as [[a| |] w1].
  - split; [intros Hf; by exists a, w1|]. by intros (? & ? & [= <- <-] & ?).
  - split; [done|]. by intros (? & ? & [=] & _).
  - split; [done|]. by intros (? & ? & [=] & _).
Qed.

Lemma getInt_ok key w n w' :
  getIntWithKey key w = (Ok n, w') ↔ w' = w ∧ ∃ si, pw_store w !! key = Some si ∧ n = i64 (stored_int si).
Proof.
  unfold getIntWithKey, no_perror, policy_GetInt. destruct (pw_store w !! key) as [si|].
  - split; [intros [= <- <-]; eauto|]. by intros (-> & ? & [= <-] & ->).
  - split; [done|]. by intros (_ & ? & ? & _).
Qed.

Lemma fill_echidna_ok e w t w' :
  fill_echidna e w = (Ok t, w') ↔ w' = w ∧
  if e then ∃ a b c, t = (a, b, c) ∧ stored_as (pw_store w) maxVUBIncrementKey u32 a ∧
    stored_as (pw_store w) msPerBlockKey u32 b ∧ stored_as (pw_store w) MaxTraceableBlocksKey u32 c
  else t = (0, 0, 0).
Proof.
  unfold fill_echidna. destruct e.
  - rewrite prun_ok. setoid_rewrite prun_ok. setoid_rewrite prun_ok. setoid_rewrite getInt_ok. split.
    + intros (a & ? & (-> & sa & Ha & ->) & b & ? & (-> & sb & Hb & ->) & c & ? & (-> & sc & Hc & ->) & [= <- <-]).
      split; [done|]. do 3 eexists. split; [done|]. unfold stored_as. eauto 10.
    + intros (-> & a & b & c & -> & (sa & Ha & <-) & (sb & Hb & <-) & (sc & Hc & <-)).
      do 2 eexists. split; [eauto|]. do 2 eexists. split; [eauto|]. do 2 eexists. split; [eauto|]. done.
  - split; [by intros [= <- <-]|]. by intros [-> ->].
Qed.

(** A node makes the cache, or none. *)
Lemma fill_restores enabled w c w' :
  fillCacheFromDAO enabled w = (Ok c, w') ↔ w' = w ∧ restores (enabled HFEchidna) (enabled HFFaun) (pw_store w) c.
Proof.
  unfold fillCacheFromDAO. split.
  - intros (x & w1 & Hx & Hr)%prun_ok. apply getInt_ok in Hx as (-> & sx & Hx & ->).
    apply prun_ok in Hr as (y & w1 & Hy & Hr). apply getInt_ok in Hy as (-> & sy & Hy & ->).
    apply prun_ok in Hr as (z & w1 & Hz & Hr). apply getInt_ok in Hz as (-> & sz & Hz & ->).
    apply prun_ok in Hr as (bl & w1 & [= Hbl <-] & Hr). apply prun_ok in Hr as (at_ & w1 & [= Hat <-] & Hr).
    apply prun_ok in Hr as ([[a b] d] & w1 & He & Hr). apply fill_echidna_ok in He as [-> He].
    apply prun_ok in Hr as (wl & w1 & [= Hwl <-] & [= <- <-]). split; [done|].
    apply fill_blocked_spec in Hbl as [-> Hbl]. apply fill_attributes_spec in Hat.
    constructor; cbn; try done.
    + by exists sx.
    + by exists sy.
    + by exists sz.
    + destruct (enabled HFEchidna); [destruct He as (? & ? & ? & [= -> -> ->] & ?); done|by injection He as -> -> ->].
    + destruct (enabled HFFaun); [by apply fill_whitelist_spec|by injection Hwl].
  - intros [-> [(sx & Hx & Hex) Hf (sy & Hy & Hey) Hg (sz & Hz & Hez) Hbl Hac Hat He Hl]].
    apply prun_ok. do 2 eexists. split; [apply getInt_ok; eauto|].
    apply prun_ok. do 2 eexists. split; [apply getInt_ok; eauto|].
    apply prun_ok. do 2 eexists. split; [apply getInt_ok; eauto|].
    apply prun_ok. exists (pc_blockedAccounts c), w. split.
    { f_equal. by apply fill_blocked_spec. }
    apply prun_ok. exists (pc_attributeFee c), w. split.
    { f_equal. by apply fill_attributes_spec. }
    apply prun_ok. exists (pc_maxVUBIncrement c, pc_msPerBlock c, pc_maxTraceableBlocks c), w. split.
    { apply fill_echidna_ok. split; [done|]. destruct (enabled HFEchidna); [eauto 10|]. by destruct He as (-> & -> & ->). }
    apply prun_ok. exists (pc_whitelistedContracts c), w. split.
    { unfold fill_faun. f_equal. destruct (enabled HFFaun); [by apply fill_whitelist_spec|by rewrite Hl]. }
    rewrite Hex, Hez, <- Hg, <- Hf. cbn in Hey. rewrite Hey. by destruct c.
Qed.
