(* ===== verification/PolicySpec.v ===== *)
(** * PolicySpec: the policy's cache and its storage

    What the handlers of [Policy] change, as a relation on the cache and the
    storage, and what is proved from it: the cache stays the one a restarted
    node makes, the settings stay within their limits, and the cases in which
    the code breaks this. *)

From S2P Require Import Prelude Bigint BinIO Codec Hash Keys Witness Tx StackItem Serial Storage NativeState Native NativeNeo Policy PolicyInv.
From stdpp Require Import relations.

#[local] Open Scope Z_scope.

Implicit Types (e f : bool) (s : gmap bytes bytes) (c : PolicyCache).

(** ** Keys of methods with a fixed fee *)

Lemma be_val_cons x l : be_val (x :: l) = b2z x * 256 ^ Z.of_nat (length l) + be_val l.
Proof. unfold be_val. cbn [rev]. rewrite le_val_app, length_rev. cbn. lia. Qed.

Lemma be_val_range l : 0 <= be_val l < 256 ^ Z.of_nat (length l).
Proof. unfold be_val. rewrite <- (length_rev l). apply le_val_range. Qed.

(** Numbers in big-endian order compare as their bytes. *)
Lemma bcompare_be a b : length a = length b → bcompare a b = Z.compare (be_val a) (be_val b).
Proof.
  revert b. induction a as [|x a IH]; intros [|y b]; cbn [length]; try done. intros [= Hl].
  rewrite !be_val_cons, <- Hl. cbn [bcompare].
  pose proof (be_val_range a). pose proof (be_val_range b) as Hb. rewrite <- Hl in Hb.
  pose proof (pow256_pos (length a)).
  destruct (Z.compare_spec (b2z x) (b2z y)) as [Hxy|Hxy|Hxy].
  - rewrite IH, Hxy by done. symmetry. apply Z.add_compare_mono_l.
  - symmetry. apply Z.compare_lt_iff. nia.
  - symmetry. apply Z.compare_gt_iff. nia.
Qed.

Lemma bcompare_app_parts a1 a2 b1 b2 :
  length a1 = length a2 →
  bcompare (a1 ++ b1) (a2 ++ b2) = match bcompare a1 a2 with Eq => bcompare b1 b2 | c => c end.
Proof.
  revert a2. induction a1 as [|x a1 IH]; intros [|y a2]; cbn; try done. intros [= Hl].
  destruct (b2z x ?= b2z y); [by apply IH|done..].
Qed.

Definition wl_key (x : whitelistedContract) : bytes := wf_Hash (wc_contract x) ++ be_enc 4 (wc_offset x).

Definition wl_key_ok (x : whitelistedContract) : Prop :=
  length (wf_Hash (wc_contract x)) = Uint160Size ∧ 0 <= wc_offset x < 2 ^ 32.

(** The order of the cache is that of the storage. *)
Lemma whitelisted_Compare_key x y :
  wl_key_ok x → wl_key_ok y → whitelisted_Compare x y = bcompare (wl_key x) (wl_key y).
Proof.
  intros [Hx Hox] [Hy Hoy]. unfold whitelisted_Compare, wl_key. rewrite bcompare_app_parts by congruence.
  rewrite (bcompare_be (be_enc 4 _)) by by rewrite !length_be_enc.
  by rewrite !be_val_enc by (cbn; lia).
Qed.

(** ** A record of a fixed fee is read back *)

Definition wfc_ok (r : WhitelistFeeContract) : Prop :=
  length (wf_Hash r) = Uint160Size ∧ utf8_Valid (wf_Method r) = true ∧
  - 2 ^ 31 <= wf_ArgCnt r < 2 ^ 31 ∧ - 2 ^ 63 <= wf_Fee r < 2 ^ 63.

(** What is written of plain items is read. *)
Lemma ser_struct_read items b :
  Forall (item_ok emptyHeap) items → Forall (λ i, is_Some (plain i)) items → ser_struct items = Ok b →
  ∃ h l rc ro, Deserialize emptyHeap b = Ok (Struct l, h) ∧ h_seq h l = Ok (items, rc, ro).
Proof.
  intros Hok Hp. unfold ser_struct.
  destruct (h_alloc emptyHeap (CSeq items 0 false)) as [l h1] eqn:Ha.
  apply alloc_made in Ha as (Hwf & _ & Hl); [|done|by split].
  unfold res_err, Serialize. destruct (SerializeLimited h1 _ _) as [b'| |] eqn:Hs; [|done..]. intros [= <-].
  destruct (SerializeLimited_Ok h1 (Struct l) MaxSerialized b' ltac:(done) Hs) as (t & Hu & -> & Hsz & Hlen).
  assert (item_ok h1 (Struct l)) as Hil by (cbn; unfold loc_ok; by rewrite Hl).
  assert (∃ ts, Forall2 (λ i t, plain i = Some t) items ts) as [ts Hts].
  { clear -Hp. induction Hp as [|i items [t Ht] _ [ts IH]]; [by exists []|]. exists (t :: ts). by constructor. }
  assert (unf h1 (Struct l) (TNode KStr ts)) as Hu'.
  { apply (unf_node _ _ _ items); [cbn; by rewrite Hl|]. eapply Forall2_impl; [exact Hts|]. intros; by apply plain_unf. }
  rewrite (unf_det _ _ _ _ Hu Hu') in Hsz, Hlen |- *.
  destruct (stored h1 (Struct l) (TNode KStr ts) Hwf Hil Hu' Hsz Hlen) as (_ & h' & i' & Hd & Hi').
  apply unf_seq_inv in Hi' as (l' & v & rc & ro & -> & Hg & Hv); [|done].
  exists h', l', rc, ro. split; [done|]. by rewrite <- (plain_items _ _ _ _ Hv Hts).
Qed.

Lemma WhitelistFeeContract_read r b :
  wfc_ok r → WhitelistFeeContract_Bytes r = Ok b → WhitelistFeeContract_FromBytes b = Ok r.
Proof.
  intros (Hh & Hm & Ha & Hf). unfold WhitelistFeeContract_Bytes.
  rewrite !big_item_ok by (unfold in256; lia). cbn [mbind res_bind].
  intros Hb. apply ser_struct_read in Hb as (h & l & rc & ro & Hd & Hg).
  2: repeat apply Forall_cons_2; cbn; lia || done || apply Forall_nil.
  2: repeat (apply Forall_cons_2; [by eexists|]); by apply Forall_nil.
  unfold WhitelistFeeContract_FromBytes. rewrite Hd. cbn [res_err mbind res_bind].
  unfold WhitelistFeeContract_FromStackItem, item_elems. rewrite Hg.
  unfold ToUint160, ToString, ToInt32, ToInt64, IsInt64. cbn [TryBytes TryInteger mbind res_bind].
  rewrite !bool_decide_eq_true_2 by (done || lia). cbn [res_err mbind res_bind]. rewrite Hm. cbn [res_err mbind res_bind].
  rewrite !bool_decide_eq_false_2 by lia. cbn [orb res_err mbind res_bind].
  rewrite wrap_s_small by lia. by destruct r.
Qed.

(** ** The invariant *)

(** The cache is the one of the storage, and the keys of the methods are those
    of their records; there are none before Faun. *)
Record policy_ok (e f : bool) (s : gmap bytes bytes) (c : PolicyCache) : Prop := {
  po_restores : restores e f s c;
  po_keys : ∀ k v, s !! (z2b whitelistedFeeContractPrefix :: k) = Some v →
    if f then ∃ x, wl_entry (k, v) x ∧ k = wl_key x ∧ wl_key_ok x else False;
}.

Lemma wl_entry_det kv x y : wl_entry kv x → wl_entry kv y → x = y.
Proof.
  intros (_ & Hx & Hox) (_ & Hy & Hoy). rewrite Hx in Hy. injection Hy as Hc.
  destruct x, y. cbn in *. congruence.
Qed.

(** The entries of the cache by their keys. *)
Lemma listed_keys e s c :
  policy_ok e true s c →
  map wl_key (pc_whitelistedContracts c) = map fst (policy_Seek whitelistedFeeContractPrefix s) ∧
  Forall wl_key_ok (pc_whitelistedContracts c).
Proof.
  intros [Hr Hk]. pose proof (rs_list _ _ _ _ Hr) as Hl. cbn in Hl.
  assert (Forall (λ kv, ∃ x, wl_entry kv x ∧ kv.1 = wl_key x ∧ wl_key_ok x) (policy_Seek whitelistedFeeContractPrefix s)) as Hf.
  { apply Forall_forall. intros [k v] Hin%policy_Seek_elem. by apply Hk. }
  induction Hl as [|kv x kvs xs Hx Hl IH]; [done|]. apply Forall_cons in Hf as [(y & Hy & Hky & Hok) Hf].
  rewrite (wl_entry_det _ _ _ Hx Hy) in *. destruct (IH Hf) as [IHk IHo]. cbn. split; [by rewrite IHk, Hky|by constructor].
Qed.

Lemma find_whitelisted_keys e s c h off :
  policy_ok e true s c → length h = Uint160Size →
  find_whitelisted c h off =
  BinarySearchFunc (map fst (policy_Seek whitelistedFeeContractPrefix s)) (λ a, bcompare a (h ++ be_enc 4 (u32 off))).
Proof.
  intros Hok Hh. destruct (listed_keys e s c Hok) as [<- Hks]. unfold find_whitelisted.
  apply (search_by_key wl_key). intros x Hx. rewrite Forall_forall in Hks.
  rewrite whitelisted_Compare_key; [done|by apply Hks|]. split; [done|]. cbn. by apply wrap_u_range.
Qed.

Lemma isBlocked_keys e f s c h :
  restores e f s c → isBlockedInternal c h = BinarySearchFunc (map fst (policy_Seek blockedAccountPrefix s)) (λ a, bcompare a h).
Proof. intros Hr. unfold isBlockedInternal. by rewrite (rs_blocked _ _ _ _ Hr). Qed.

(** ** What the handlers change *)

(** One change of the cache and the storage. *)
Inductive change (e f : bool) : PolicyCache * gmap bytes bytes → PolicyCache * gmap bytes bytes → Prop :=
  | ch_exec v c s : 0 < v <= (if f then maxExecFeeFactor * ExecFeeFactorMultiplier else maxExecFeeFactor) →
      change e f (c, s) (set_execFeeFactor v c, <[execFeeFactorKey := ToBytes v]> s)
  | ch_fee v c s : 0 <= v <= maxFeePerByte →
      change e f (c, s) (set_feePerByte v c, <[feePerByteKey := ToBytes v]> s)
  | ch_price v c s : 0 < v <= maxStoragePrice →
      change e f (c, s) (set_storagePrice v c, <[storagePriceKey := ToBytes v]> s)
  | ch_ms v c s : e = true → 0 < v <= maxMillisecondsPerBlock →
      change e f (c, s) (set_msPerBlock v c, <[msPerBlockKey := ToBytes v]> s)
  | ch_vub v c s : e = true → 0 < v <= maxMaxVUBIncrement → v < pc_maxTraceableBlocks c →
      change e f (c, s) (set_maxVUBIncrement v c, <[maxVUBIncrementKey := ToBytes v]> s)
  | ch_mtb v c s : e = true → 0 < v <= maxMaxTraceableBlocks → pc_maxVUBIncrement c < v <= pc_maxTraceableBlocks c →
      change e f (c, s) (set_maxTraceableBlocks v c, <[MaxTraceableBlocksKey := ToBytes v]> s)
  | ch_attribute t v c s : 0 <= t < 256 → 0 <= v <= maxAttributeFee →
      change e f (c, s) (set_attributeFee (<[t := v]> (pc_attributeFee c)) c, <[attributeFeeKey t := ToBytes v]> s)
  | ch_block h i v c s : length h = Uint160Size → isBlockedInternal c h = (i, false) →
      change e f (c, s) (set_blockedAccounts (insert_at i h (pc_blockedAccounts c)) c, <[makeBlockedAccountKey h := v]> s)
  | ch_unblock h i c s : isBlockedInternal c h = (i, true) →
      change e f (c, s) (set_blockedAccounts (delete_at i (pc_blockedAccounts c)) c, delete (makeBlockedAccountKey h) s)
  | ch_list i r off data c s : f = true → wfc_ok r → WhitelistFeeContract_Bytes r = Ok data →
      find_whitelisted c (wf_Hash r) off = (i, false) →
      change e f (c, s) (set_whitelistedContracts (insert_at i (mkWC r (u32 off)) (pc_whitelistedContracts c)) c,
        <[makeWhitelistedKey (wf_Hash r) (u32 off) := data]> s)
  | ch_unlist i x c s : f = true → pc_whitelistedContracts c !! i = Some x →
      change e f (c, s) (set_whitelistedContracts (delete_at i (pc_whitelistedContracts c)) c,
        delete (makeWhitelistedKey (wf_Hash (wc_contract x)) (wc_offset x)) s).

(** *** They keep the invariant *)

Lemma stored_as_insert s key conv v :
  - 2 ^ 63 <= v < 2 ^ 63 → conv v = v → stored_as (<[key := ToBytes v]> s) key conv v.
Proof.
  intros Hv Hc. exists (ToBytes v). rewrite lookup_insert_eq. split; [done|].
  unfold stored_int. pose proof (FromBytes_ToBytes (E := nerr) v) as Hr. cbn in Hr. injection Hr as ->.
  by rewrite wrap_s_small by lia.
Qed.

Lemma stored_as_other s key key' x conv v :
  key ≠ key' → stored_as s key conv v → stored_as (<[key' := x]> s) key conv v.
Proof. intros Hne (si & Hs & Hv). exists si. by rewrite lookup_insert_ne. Qed.

Lemma stored_as_delete s key key' conv v :
  key ≠ key' → stored_as s key conv v → stored_as (delete key' s) key conv v.
Proof. intros Hne (si & Hs & Hv). exists si. by rewrite lookup_delete_ne. Qed.

Lemma attributes_of_other (s s' : gmap bytes bytes) m :
  (∀ k, s' !! (z2b attributeFeePrefix :: k) = s !! (z2b attributeFeePrefix :: k)) → attributes_of s m → attributes_of s' m.
Proof.
  intros Hs (Hl & Hb & Ht). split; [|split; [|done]].
  - intros k v. rewrite Hs. apply Hl.
  - intros b. rewrite Hs. apply Hb.
Qed.

(** Different keys of the contract. *)
Ltac other_key :=
  let Heq := fresh in intros Heq; apply (f_equal head) in Heq;
  unfold makeBlockedAccountKey, makeWhitelistedKey, attributeFeeKey, wl_key in Heq; cbn [head] in Heq;
  vm_compute in Heq; discriminate Heq.

(** What a change of another key leaves. *)
Ltac keep_rest :=
  first
  [ assumption
  | apply stored_as_other; [other_key|assumption]
  | apply stored_as_delete; [other_key|assumption]
  | rewrite (Seek_other _ _ (insert _ _ _)); [assumption|intros; apply lookup_insert_ne; other_key]
  | match goal with |- context[policy_Seek _ (<[?k := ?v]> ?s)] =>
      rewrite (Seek_other _ s (<[k := v]> s)); [assumption|intros; apply lookup_insert_ne; other_key] end
  | match goal with |- context[policy_Seek _ (delete ?k ?s)] =>
      rewrite (Seek_other _ s (delete k s)); [assumption|intros; apply lookup_delete_ne; other_key] end
  | eapply attributes_of_other; [|eassumption]; intros; first [apply lookup_insert_ne|apply lookup_delete_ne]; other_key ].

Lemma method_keys_other e f (s s' : gmap bytes bytes) c c' :
  (∀ k, s' !! (z2b whitelistedFeeContractPrefix :: k) = s !! (z2b whitelistedFeeContractPrefix :: k)) →
  policy_ok e f s c → restores e f s' c' → policy_ok e f s' c'.
Proof. intros Hs [_ Hk] Hr. constructor; [done|]. intros k v. rewrite Hs. apply Hk. Qed.

Ltac setting :=
  match goal with Hok : policy_ok ?e ?f ?s ?c |- policy_ok ?e ?f (<[?k := ?v]> ?s) _ =>
    apply (method_keys_other e f s (<[k := v]> s) c); [intros; apply lookup_insert_ne; other_key|exact Hok|];
    destruct Hok as [[Hexec Hfaun Hfee Hgas Hprice Hbl Hacc Hattr Hech Hlist] _]
  end.

(** The fields that the change leaves; the new ones remain. *)
Ltac keep_all :=
  constructor; cbn -[be_enc policy_Seek]; try keep_rest;
  try match goal with Hech : if ?e then _ else _ |- if ?e then _ else _ =>
    destruct e; [destruct Hech as (? & ? & ?); split_and!; keep_rest|exact Hech] end.

Lemma change_settings_ok e f v c s :
  policy_ok e f s c →
  (0 < v <= (if f then maxExecFeeFactor * ExecFeeFactorMultiplier else maxExecFeeFactor) →
    policy_ok e f (<[execFeeFactorKey := ToBytes v]> s) (set_execFeeFactor v c)) ∧
  (0 <= v <= maxFeePerByte → policy_ok e f (<[feePerByteKey := ToBytes v]> s) (set_feePerByte v c)) ∧
  (0 < v <= maxStoragePrice → policy_ok e f (<[storagePriceKey := ToBytes v]> s) (set_storagePrice v c)).
Proof.
  intros Hok. split_and!; intros Hv.
  - assert (0 < v <= 1000000) by (destruct f; unfold maxExecFeeFactor, ExecFeeFactorMultiplier in Hv; lia).
    setting. keep_all. apply stored_as_insert; [lia|apply wrap_u_small; lia].
  - unfold maxFeePerByte in Hv. setting. keep_all. apply stored_as_insert; [lia|done].
  - unfold maxStoragePrice in Hv. setting. keep_all. apply stored_as_insert; [lia|apply wrap_u_small; lia].
Qed.

(** The settings since Echidna. *)
Lemma change_echidna_ok f v c s :
  policy_ok true f s c → 0 < v < 2 ^ 32 →
  policy_ok true f (<[msPerBlockKey := ToBytes v]> s) (set_msPerBlock v c) ∧
  policy_ok true f (<[maxVUBIncrementKey := ToBytes v]> s) (set_maxVUBIncrement v c) ∧
  policy_ok true f (<[MaxTraceableBlocksKey := ToBytes v]> s) (set_maxTraceableBlocks v c).
Proof.
  intros Hok Hv. split_and!; setting; keep_all; destruct Hech as (? & ? & ?); split_and!; try keep_rest;
    (apply stored_as_insert; [lia|apply wrap_u_small; lia]).
Qed.

Lemma change_attribute_ok e f t v c s :
  policy_ok e f s c → 0 <= t < 256 → 0 <= v <= maxAttributeFee →
  policy_ok e f (<[attributeFeeKey t := ToBytes v]> s) (set_attributeFee (<[t := v]> (pc_attributeFee c)) c).
Proof.
  intros Hok Ht Hv. unfold maxAttributeFee in Hv. setting. keep_all.
  destruct Hattr as (Hl & Hb & Hn). unfold attributeFeeKey. split_and!.
  - intros k v' [[[= <-] _]|[_ Hk]]%lookup_insert_Some; [done|by eapply Hl].
  - intros b. destruct (decide (b = z2b t)) as [->|Hbt].
    + rewrite lookup_insert_eq, b2z_z2b_small, lookup_insert_eq by done. cbn. f_equal. unfold stored_u32.
      destruct (stored_as_insert s [] id v) as (si & Hsi & Hid); [lia|done|].
      rewrite lookup_insert_eq in Hsi. injection Hsi as <-. cbn in Hid. rewrite Hid. symmetry. apply wrap_u_small. lia.
    + rewrite !lookup_insert_ne; [apply Hb|congruence|]. intros ->. by rewrite z2b_b2z in Hbt.
  - intros t' Ht'. rewrite lookup_insert_ne by lia. by apply Hn.
Qed.

Lemma change_block_ok e f h i v c s :
  policy_ok e f s c → length h = Uint160Size → isBlockedInternal c h = (i, false) →
  policy_ok e f (<[makeBlockedAccountKey h := v]> s) (set_blockedAccounts (insert_at i h (pc_blockedAccounts c)) c).
Proof.
  intros Hok Hh Hi. rewrite (isBlocked_keys e f s) in Hi by apply Hok. pose proof (Seek_insert_at _ s h v i Hi) as Hs.
  setting. keep_all; unfold makeBlockedAccountKey; rewrite Hs.
  - unfold insert_at. by rewrite map_app, <- firstn_map, Hbl; cbn; rewrite <- skipn_map.
  - unfold insert_at. apply Forall_app. split; [by apply Forall_take|]. constructor; [done|by apply Forall_drop].
Qed.

Lemma change_unblock_ok e f h i c s :
  policy_ok e f s c → isBlockedInternal c h = (i, true) →
  policy_ok e f (delete (makeBlockedAccountKey h) s) (set_blockedAccounts (delete_at i (pc_blockedAccounts c)) c).
Proof.
  intros Hok Hi. rewrite (isBlocked_keys e f s) in Hi by apply Hok.
  apply search_keys in Hi as (_ & _ & Hi); [|apply policy_Seek_sorted]. pose proof (Seek_delete_at _ s h i Hi) as Hs.
  apply (method_keys_other e f s _ c); [intros; apply lookup_delete_ne; other_key|exact Hok|].
  destruct Hok as [[Hexec Hfaun Hfee Hgas Hprice Hbl Hacc Hattr Hech Hlist] _].
  keep_all; unfold makeBlockedAccountKey; rewrite Hs.
  - unfold delete_at. by rewrite map_app, <- firstn_map, Hbl, <- skipn_map.
  - unfold delete_at. apply Forall_app. split; [by apply Forall_take|by apply Forall_drop].
Qed.

(** *** The list of methods *)

Lemma Forall2_insert_at {A B} (R : A → B → Prop) l1 l2 i x y :
  Forall2 R l1 l2 → R x y → Forall2 R (insert_at i x l1) (insert_at i y l2).
Proof.
  intros Hl Hxy. unfold insert_at. apply Forall2_app; [by apply Forall2_take|]. constructor; [done|by apply Forall2_drop].
Qed.

Lemma Forall2_delete_at {A B} (R : A → B → Prop) l1 l2 i :
  Forall2 R l1 l2 → Forall2 R (delete_at i l1) (delete_at i l2).
Proof. intros Hl. unfold delete_at. apply Forall2_app; [by apply Forall2_take|by apply Forall2_drop]. Qed.

Lemma wl_entry_made r off data :
  wfc_ok r → 0 <= off < 2 ^ 32 → WhitelistFeeContract_Bytes r = Ok data →
  wl_entry (wf_Hash r ++ be_enc 4 off, data) (mkWC r off) ∧ wl_key (mkWC r off) = wf_Hash r ++ be_enc 4 off ∧ wl_key_ok (mkWC r off).
Proof.
  intros Hr Ho Hd. pose proof Hr as (Hh & _). split; [|split; [done|by split]]. unfold wl_entry.
  cbn [fst snd wc_contract wc_offset]. split_and!.
  - rewrite length_app, Hh, length_be_enc. done.
  - by apply WhitelistFeeContract_read.
  - rewrite <- Hh, drop_app_length. symmetry. apply be_val_enc. cbn. lia.
Qed.

Lemma change_list_ok e i r off data c s :
  policy_ok e true s c → wfc_ok r → WhitelistFeeContract_Bytes r = Ok data →
  find_whitelisted c (wf_Hash r) off = (i, false) →
  policy_ok e true (<[makeWhitelistedKey (wf_Hash r) (u32 off) := data]> s)
    (set_whitelistedContracts (insert_at i (mkWC r (u32 off)) (pc_whitelistedContracts c)) c).
Proof.
  intros Hok Hr Hd Hi. pose proof Hr as (Hh & _). rewrite (find_whitelisted_keys e s) in Hi by done.
  pose proof (Seek_insert_at _ s _ data i Hi) as Hs. unfold makeWhitelistedKey.
  destruct (wl_entry_made r (u32 off) data Hr ltac:(by apply wrap_u_range) Hd) as (He & Hk & Hko).
  destruct Hok as [[Hexec Hfaun Hfee Hgas Hprice Hbl Hacc Hattr Hech Hlist] Hkeys]. constructor.
  - keep_all. rewrite Hs. by apply Forall2_insert_at.
  - intros k v [[[= <-] <-]|[_ Hl]]%lookup_insert_Some; [|by apply Hkeys]. by exists (mkWC r (u32 off)).
Qed.

Lemma change_unlist_ok e i x c s :
  policy_ok e true s c → pc_whitelistedContracts c !! i = Some x →
  policy_ok e true (delete (makeWhitelistedKey (wf_Hash (wc_contract x)) (wc_offset x)) s)
    (set_whitelistedContracts (delete_at i (pc_whitelistedContracts c)) c).
Proof.
  intros Hok Hx. destruct (listed_keys e s c Hok) as [Hks _].
  assert (map fst (policy_Seek whitelistedFeeContractPrefix s) !! i = Some (wl_key x)) as Hi.
  { by rewrite <- Hks, list_lookup_fmap, Hx. }
  pose proof (Seek_delete_at _ s _ i Hi) as Hs. unfold makeWhitelistedKey. fold (wl_key x).
  destruct Hok as [[Hexec Hfaun Hfee Hgas Hprice Hbl Hacc Hattr Hech Hlist] Hkeys]. constructor.
  - keep_all. rewrite Hs. by apply Forall2_delete_at.
  - intros k v [_ Hl]%lookup_delete_Some. by apply Hkeys.
Qed.

(** A change keeps the cache that of the storage. *)
Lemma change_ok e f x y : change e f x y → policy_ok e f x.2 x.1 → policy_ok e f y.2 y.1.
Proof.
  intros Hc Hok. destruct Hc; cbn in *; subst.
  - by apply change_settings_ok.
  - by apply change_settings_ok.
  - by apply change_settings_ok.
  - apply change_echidna_ok; [done|unfold maxMillisecondsPerBlock in *; lia].
  - apply change_echidna_ok; [done|unfold maxMaxVUBIncrement in *; lia].
  - apply change_echidna_ok; [done|unfold maxMaxTraceableBlocks in *; lia].
  - by apply change_attribute_ok.
  - by apply change_block_ok.
  - by apply change_unblock_ok.
  - by apply change_list_ok.
  - by apply change_unlist_ok.
Qed.

(** ** The handlers make changes *)

(** What leaves the storage and the cache. *)
Definition policy_same (w w' : PolicyWorld) : Prop := pw_store w' = pw_store w ∧ pw_cache w' = pw_cache w.

(** [m] may turn the cache and the storage of [w] into those of [w']. *)
Definition turns (e f : bool) (w w' : PolicyWorld) : Prop :=
  ∀ c, pw_cache w = Some c → ∃ c', pw_cache w' = Some c' ∧ rtc (change e f) (c, pw_store w) (c', pw_store w').

Section handlers.
Context `{Digest} (pe : PolicyEnv).

Lemma no_perror_ok {A} (m : PolicyM A) w a w' : no_perror m w = (Ok a, w') → m w = (Ok a, w').
Proof. unfold no_perror. by destruct (m w) as [[] ?]. Qed.

Lemma on_tokens_same {A} (m : M A) w r w' : on_tokens m w = (r, w') → policy_same w w'.
Proof. unfold on_tokens. destruct (m (pw_tokens w)). by intros [= _ <-]. Qed.

Lemma check_committee_same w u w' : check_committee pe w = (Ok u, w') → policy_same w w'.
Proof.
  intros (ok & w1 & Hc%no_perror_ok%on_tokens_same & Hr)%prun_ok. destruct ok; [|done]. by injection Hr as _ <-.
Qed.

Lemma notify_same name items w r w' : notify pe name items w = (r, w') → policy_same w w'.
Proof. apply on_tokens_same. Qed.

Lemma toUint32_range a v : toUint32 a = Ok v → 0 <= v < 2 ^ 32.
Proof.
  unfold toUint32, ToUint32. destruct (ToInt64 a) as [i| |]; cbn; [|done..].
  destruct (_ || _); [done|]. intros [= <-]. by apply wrap_u_range.
Qed.

Lemma toUint8_range a v : toUint8 a = Ok v → 0 <= v < 256.
Proof.
  unfold toUint8, ToUint8. destruct (ToInt64 a) as [i| |]; cbn; [|done..].
  destruct (_ || _); [done|]. intros [= <-]. change 256 with (2 ^ 8). by apply wrap_u_range.
Qed.

Lemma toInt64_range a v : toInt64 a = Ok v → - 2 ^ 63 <= v < 2 ^ 63.
Proof.
  unfold toInt64, ToInt64, IsInt64. destruct (TryInteger a) as [i| |]; cbn; [|done..].
  case_bool_decide; [|done]. by intros [= <-].
Qed.

Lemma toString_valid h a v : toString h a = Ok v → utf8_Valid v = true.
Proof.
  unfold toString, ToString. destruct (TryBytes h a) as [i| |]; cbn; [|done..].
  destruct (utf8_Valid i) eqn:Hu; [|done]. by intros [= <-].
Qed.

Lemma toUint160_length h a v : toUint160 h a = Ok v → length v = Uint160Size.
Proof.
  unfold toUint160, ToUint160. destruct (TryBytes h a) as [i| |]; cbn; [|done..].
  case_bool_decide; [|done]. by intros [= <-].
Qed.

Lemma plift_ok {A} (r : res nerr A) w a w' : plift r w = (Ok a, w') → r = Ok a ∧ w' = w.
Proof. by intros [= -> ->]. Qed.

Lemma arg_ok {A} args i (g : item → res nerr A) v : (a ← arg args i; g a) = Ok v → ∃ a, g a = Ok v.
Proof. intros (a & _ & Ha)%res_bind_ok_inv. by exists a. Qed.

Lemma cache_ok w c w' : GetROCache w = (Ok c, w') → pw_cache w = Some c ∧ w' = w.
Proof. unfold GetROCache. destruct (pw_cache w); [|done]. by intros [= -> ->]. Qed.

Lemma on_cache_ok g w u w' :
  on_policy_cache g w = (Ok u, w') → ∃ c, pw_cache w = Some c ∧ w' = mkPW (pw_tokens w) (pw_store w) (Some (g c)).
Proof. unfold on_policy_cache. destruct (pw_cache w) as [c|]; [|done]. intros [= <-]. by exists c. Qed.

(** The end of a setter. *)
Lemma set_cached key v g (r0 r : item) w w' :
  (_ ← setIntWithKey key v; _ ← on_policy_cache g; mret r0) w = (Ok r, w') →
  ∃ c, pw_cache w = Some c ∧ pw_cache w' = Some (g c) ∧ pw_store w' = <[key := ToBytes v]> (pw_store w).
Proof.
  intros (? & w1 & [= _ <-] & Hr)%prun_ok. apply prun_ok in Hr as (? & w2 & (c & Hc & ->)%on_cache_ok & [= _ <-]).
  by exists c.
Qed.

Lemma committee_set_cached key v g (r0 r : item) w w' e f :
  (_ ← check_committee pe; _ ← setIntWithKey key v; _ ← on_policy_cache g; mret r0) w = (Ok r, w') →
  (∀ c s, pw_cache w = Some c → change e f (c, s) (g c, <[key := ToBytes v]> s)) → turns e f w w'.
Proof.
  intros (? & w1 & [Hs Hc]%check_committee_same & Hr)%prun_ok Hch c Hcw.
  apply set_cached in Hr as (c' & Hc' & Hw' & Hs'). rewrite Hc, Hcw in Hc'. injection Hc' as <-.
  exists (g c). split; [done|]. rewrite Hs', Hs. apply rtc_once. by apply Hch.
Qed.

Lemma if_panic {A} (b : bool) (m : PolicyM A) w a w' : (if b then ppanic else m) w = (Ok a, w') → b = false ∧ m w = (Ok a, w').
Proof. by destruct b. Qed.

Lemma orb_range (v lo hi : Z) : bool_decide (v <= lo) || bool_decide (hi < v) = false → lo < v <= hi.
Proof. intros [H1%bool_decide_eq_false H2%bool_decide_eq_false]%orb_false_iff. lia. Qed.

(** A value from the arguments, then a check of it. *)
Ltac from_arg Hr v w1 Hv Hb :=
  apply prun_ok in Hr as (v & w1 & Hv & Hr); apply plift_ok in Hv as [Hv ->]; apply arg_ok in Hv as [? Hv];
  try (apply if_panic in Hr as [Hb Hr]; try apply orb_range in Hb).

Ltac from_cache Hr v :=
  let w1 := fresh "w" in let Hv := fresh "H" v in
  apply prun_ok in Hr as (v & w1 & Hv & Hr); apply prun_ok in Hv as (? & ? & [Hv ->]%cache_ok & [= <- <-]).

Lemma setExecFeeFactor_turns e args w r w' :
  setExecFeeFactor pe args w = (Ok r, w') → turns e (faun pe) w w'.
Proof.
  intros Hr. unfold setExecFeeFactor in Hr. apply prun_ok in Hr as (v & w1 & Hv & Hr).
  apply plift_ok in Hv as [Hv ->]. apply if_panic in Hr as [Hb%orb_range Hr].
  eapply committee_set_cached; [exact Hr|]. intros c s _. constructor.
  destruct (faun pe); unfold maxExecFeeFactor, ExecFeeFactorMultiplier in *; [|lia].
  rewrite wrap_u_small in Hb by lia. lia.
Qed.

Lemma setStoragePrice_turns e f args w r w' : setStoragePrice pe args w = (Ok r, w') → turns e f w w'.
Proof.
  intros Hr. unfold setStoragePrice in Hr. from_arg Hr v w1 Hv Hb.
  eapply committee_set_cached; [exact Hr|]. intros c s _. by constructor.
Qed.

Lemma setFeePerByte_turns e f args w r w' : setFeePerByte pe args w = (Ok r, w') → turns e f w w'.
Proof.
  intros Hr. unfold setFeePerByte in Hr. apply prun_ok in Hr as (v & w1 & Hv & Hr). apply plift_ok in Hv as [Hv ->].
  apply if_panic in Hr as [[H1%bool_decide_eq_false H2%bool_decide_eq_false]%orb_false_iff Hr].
  eapply committee_set_cached; [exact Hr|]. intros c s _. constructor. lia.
Qed.

Lemma setAttributeFee_turns e f b args w r w' : setAttributeFeeGeneric pe args b w = (Ok r, w') → turns e f w w'.
Proof.
  intros Hr. unfold setAttributeFeeGeneric in Hr. from_arg Hr t w1 Ht Hb. from_arg Hr v w1 Hv Hb.
  apply if_panic in Hr as [Hmax%bool_decide_eq_false Hr].
  apply toUint8_range in Ht. apply toUint32_range in Hv.
  eapply committee_set_cached; [exact Hr|]. intros c s _. constructor; [done|lia].
Qed.

Lemma setMaxValidUntilBlockIncrement_turns f args w r w' :
  setMaxValidUntilBlockIncrement pe args w = (Ok r, w') → turns true f w w'.
Proof.
  intros Hr. unfold setMaxValidUntilBlockIncrement in Hr. from_arg Hr v w1 Hv Hb. from_cache Hr mtb.
  apply if_panic in Hr as [Hlt%bool_decide_eq_false Hr].
  eapply committee_set_cached; [exact Hr|]. intros c s Hc. rewrite Hmtb in Hc. injection Hc as ->.
  constructor; [done..|lia].
Qed.

Lemma setMaxTraceableBlocks_turns f args w r w' :
  setMaxTraceableBlocks pe args w = (Ok r, w') → turns true f w w'.
Proof.
  intros Hr. unfold setMaxTraceableBlocks in Hr. from_arg Hr v w1 Hv Hb. from_cache Hr old.
  apply if_panic in Hr as [Hle%bool_decide_eq_false Hr]. from_cache Hr inc.
  apply if_panic in Hr as [Hlt%bool_decide_eq_false Hr]. rewrite Hold in Hinc. injection Hinc as <-.
  eapply committee_set_cached; [exact Hr|]. intros c s Hc. rewrite Hold in Hc. injection Hc as ->.
  constructor; [done..|lia].
Qed.

Lemma setMillisecondsPerBlock_turns f args w r w' :
  setMillisecondsPerBlock pe args w = (Ok r, w') → turns true f w w'.
Proof.
  intros Hr c Hc. unfold setMillisecondsPerBlock in Hr. from_arg Hr v w1 Hv Hb.
  apply prun_ok in Hr as (? & w1 & [Hs1 Hc1]%check_committee_same & Hr).
  apply prun_ok in Hr as (? & w2 & [= _ <-] & Hr). from_cache Hr old. cbn in *.
  apply prun_ok in Hr as (? & w3 & (c' & Hc' & ->)%on_cache_ok & Hr). cbn in *.
  apply prun_ok in Hr as (? & w4 & [Hs4 Hc4]%no_perror_ok%notify_same & [= _ <-]). cbn in *.
  rewrite Hc1, Hc in Hc'. injection Hc' as <-. exists (set_msPerBlock v c). split; [done|].
  rewrite Hs4, Hs1. apply rtc_once. by constructor.
Qed.

Lemma unblockAccount_turns e f h args w r w' : unblockAccount pe h args w = (Ok r, w') → turns e f w w'.
Proof.
  intros Hr c Hc. unfold unblockAccount in Hr.
  apply prun_ok in Hr as (? & w1 & [Hs1 Hc1]%check_committee_same & Hr). from_arg Hr acc w2 Hacc Hb.
  apply prun_ok in Hr as (c0 & ? & [Hc0 ->]%cache_ok & Hr). rewrite Hc1, Hc in Hc0. injection Hc0 as <-.
  destruct (isBlockedInternal c acc) as [i []] eqn:Hi; cbn [negb] in Hr.
  - apply prun_ok in Hr as (? & w3 & [= _ <-] & Hr).
    apply prun_ok in Hr as (? & w4 & (c' & Hc' & ->)%on_cache_ok & [= _ <-]). cbn in *.
    rewrite Hc1, Hc in Hc'. injection Hc' as <-. eexists. split; [done|]. rewrite Hs1. apply rtc_once. by constructor.
  - injection Hr as _ <-. exists c. split; [congruence|]. by rewrite Hs1.
Qed.

(** Methods have fewer parameters than an [int32] counts. *)
Definition parameters_ok : Prop :=
  ∀ h cs md, pe_contracts pe !! h = Some cs → md ∈ ct_Methods cs → Z.of_nat (md_Parameters md) < 2 ^ 31.

Lemma find_method_ok h name n w md w' :
  find_method pe h name n w = (Ok md, w') →
  w' = w ∧ ∃ cs, pe_contracts pe !! h = Some cs ∧ md ∈ ct_Methods cs ∧ (n = -1 ∨ Z.of_nat (md_Parameters md) = n).
Proof.
  unfold find_method. intros [Hf ->]%plift_ok. split; [done|].
  destruct (pe_contracts pe !! h) as [cs|]; [|done]. exists cs. split; [done|].
  unfold GetMethod in Hf. destruct (list_find _ _) as [[i m]|] eqn:Hm; [|done]. injection Hf as ->.
  apply list_find_Some in Hm as (Hi & [_ Hn] & _). split; [|done]. by eapply list_elem_of_lookup_2.
Qed.

Lemma removeWhitelist_turns e hp args w r w' :
  removeWhitelistFeeContract pe hp args w = (Ok r, w') → (∀ c, pw_cache w = Some c → policy_ok e true (pw_store w) c) →
  turns e true w w'.
Proof.
  intros Hr Hok c Hc. specialize (Hok c Hc). unfold removeWhitelistFeeContract in Hr.
  apply prun_ok in Hr as (? & w1 & [Hs1 Hc1]%check_committee_same & Hr).
  from_arg Hr h w2 Hh Hb. from_arg Hr name w2 Hn Hb. from_arg Hr n w2 Hcnt Hb. apply toUint160_length in Hh.
  apply prun_ok in Hr as (md & ? & [-> _]%find_method_ok & Hr).
  apply prun_ok in Hr as (c0 & ? & [Hc0 ->]%cache_ok & Hr). rewrite Hc1, Hc in Hc0. injection Hc0 as <-.
  destruct (find_whitelisted c h (md_Offset md)) as [i ok] eqn:Hi. destruct ok; [cbn [negb] in Hr|done].
  apply prun_ok in Hr as (? & w3 & [= _ <-] & Hr).
  apply prun_ok in Hr as (? & w4 & (c' & Hc' & ->)%on_cache_ok & Hr). cbn in Hc'. rewrite Hc1, Hc in Hc'. injection Hc' as <-.
  apply prun_ok in Hr as (? & w5 & [Hs5 Hc5]%no_perror_ok%notify_same & [= _ <-]). cbn [pw_store pw_cache] in *.
  eexists. split; [exact Hc5|]. rewrite Hs5, Hs1.
  rewrite (find_whitelisted_keys e (pw_store w)) in Hi by done.
  apply search_keys in Hi as (_ & _ & Hi); [|apply policy_Seek_sorted].
  destruct (listed_keys e (pw_store w) c Hok) as [Hks _]. rewrite <- Hks, list_lookup_fmap in Hi.
  destruct (pc_whitelistedContracts c !! i) as [z|] eqn:Hz; [|done]. change (Some (wl_key z) = Some (h ++ be_enc 4 (u32 (md_Offset md)))) in Hi. assert (wl_key z = h ++ be_enc 4 (u32 (md_Offset md))) as Hk by congruence.
  apply rtc_once. unfold makeWhitelistedKey. rewrite <- Hk. by apply (ch_unlist e true i z).
Qed.

(** The method that the arguments name. *)
Definition names (hp : Heap) (args : list item) (h name : bytes) (n : Z) (md : method) : Prop :=
  ∃ a0 a1 a2 cs, args !! 0%nat = Some a0 ∧ args !! 1%nat = Some a1 ∧ args !! 2%nat = Some a2 ∧
    toUint160 hp a0 = Ok h ∧ toString hp a1 = Ok name ∧ toInt64 a2 = Ok n ∧
    pe_contracts pe !! h = Some cs ∧ GetMethod (ct_Methods cs) name n = Some md.

(** The cache has a fee for it. *)
Definition lists (hp : Heap) (args : list item) (c : PolicyCache) : Prop :=
  ∃ h name n md i, names hp args h name n md ∧ find_whitelisted c h (md_Offset md) = (i, true).

Lemma names_det hp args h name n md h' name' n' md' :
  names hp args h name n md → names hp args h' name' n' md' → h' = h ∧ md' = md.
Proof.
  intros (a0 & a1 & a2 & cs & H0 & H1 & H2 & Hh & Hn & Hc & Hcs & Hm)
    (b0 & b1 & b2 & cs' & H0' & H1' & H2' & Hh' & Hn' & Hc' & Hcs' & Hm').
  rewrite H0 in H0'. injection H0' as <-. rewrite H1 in H1'. injection H1' as <-. rewrite H2 in H2'. injection H2' as <-.
  rewrite Hh in Hh'. injection Hh' as <-. rewrite Hn in Hn'. injection Hn' as <-. rewrite Hc in Hc'. injection Hc' as <-.
  rewrite Hcs in Hcs'. injection Hcs' as <-. rewrite Hm in Hm'. by injection Hm' as <-.
Qed.

Lemma arg_at {A} args i (g : item → res nerr A) v : (a ← arg args i; g a) = Ok v → ∃ a, args !! i = Some a ∧ g a = Ok v.
Proof.
  intros (a & Ha & Hg)%res_bind_ok_inv. unfold arg in Ha. destruct (args !! i) as [b|] eqn:Hb; [|done].
  injection Ha as ->. by exists a.
Qed.

(** What [setWhitelistFeeContract] reads and writes. *)
Lemma setWhitelist_run hp args w r w' c :
  parameters_ok → setWhitelistFeeContract pe hp args w = (Ok r, w') → pw_cache w = Some c →
  ∃ name n fee h md data i ok,
    let rec := mkWFC h name n fee in
    wfc_ok rec ∧ 0 <= fee ∧ WhitelistFeeContract_Bytes rec = Ok data ∧
    find_whitelisted c h (md_Offset md) = (i, ok) ∧ names hp args h name n md ∧
    (∃ a3, args !! 3%nat = Some a3 ∧ toInt64 a3 = Ok fee) ∧
    pw_store w' = <[makeWhitelistedKey h (u32 (md_Offset md)) := data]> (pw_store w) ∧
    pw_cache w' = Some (if ok then c else
      set_whitelistedContracts (insert_at i (mkWC rec (u32 (md_Offset md))) (pc_whitelistedContracts c)) c).
Proof.
  intros Hpar Hr Hc. unfold setWhitelistFeeContract in Hr.
  apply prun_ok in Hr as (h & w1 & [Hh ->]%plift_ok & Hr). apply prun_ok in Hr as (name & w1 & [Hn ->]%plift_ok & Hr).
  apply prun_ok in Hr as (n & w1 & [Hcnt ->]%plift_ok & Hr). apply prun_ok in Hr as (fee & w1 & [Hfee ->]%plift_ok & Hr).
  apply if_panic in Hr as [Hf0%bool_decide_eq_false Hr]. apply arg_at in Hfee as (a3 & H3 & Hfee).
  apply arg_at in Hh as (a0 & H0 & Hh). apply arg_at in Hn as (a1 & H1 & Hn). apply arg_at in Hcnt as (a2 & H2 & Hcnt).
  apply prun_ok in Hr as (? & w1 & [Hs1 Hc1]%check_committee_same & Hr).
  apply prun_ok in Hr as (md & ? & Hmd & Hr). pose proof Hmd as Hfind. apply find_method_ok in Hmd as (-> & cs & Hcs & Hin & Hpn).
  unfold find_method in Hfind. rewrite Hcs in Hfind. destruct (GetMethod _ _ _) as [md'|] eqn:Hg; [|done]. injection Hfind as ->.
  apply prun_ok in Hr as (data & w2 & Hd & Hr). unfold pmust in Hd.
  destruct (WhitelistFeeContract_Bytes _) as [data'| |] eqn:Hdata; [|done..]. injection Hd as -> ->.
  apply prun_ok in Hr as (? & w3 & [= _ <-] & Hr). apply prun_ok in Hr as (c0 & ? & [Hc0 ->]%cache_ok & Hr).
  cbn in Hc0. rewrite Hc1, Hc in Hc0. injection Hc0 as <-.
  destruct (find_whitelisted c h (md_Offset md)) as [i ok] eqn:Hi.
  exists name, n, fee, h, md, data, i, ok. specialize (Hpar h cs md Hcs Hin).
  pose proof (toUint160_length _ _ _ Hh). pose proof (toString_valid _ _ _ Hn). pose proof (toInt64_range _ _ Hfee).
  split; [split_and!; cbn; [done|done|lia|lia|lia|lia]|]. split; [lia|]. split; [done|]. split; [done|].
  split; [by exists a0, a1, a2, cs|]. split; [by exists a3|].
  apply prun_ok in Hr as (? & w4 & Hset & Hr).
  apply prun_ok in Hr as (? & w5 & [Hs5 Hc5]%no_perror_ok%notify_same & [= _ <-]). rewrite Hs5, Hc5.
  destruct ok; injection Hset as _ <-; cbn; by rewrite ?Hs1, ?Hc1, ?Hc.
Qed.

Lemma setWhitelist_turns e hp args w r w' :
  parameters_ok → setWhitelistFeeContract pe hp args w = (Ok r, w') → (∀ c, pw_cache w = Some c → ¬ lists hp args c) →
  turns e true w w'.
Proof.
  intros Hpar Hr Hnot c Hc.
  destruct (setWhitelist_run hp args w r w' c Hpar Hr Hc) as (name & n & fee & h & md & data & i & ok & Hw & _ & Hd & Hi & Hl & _ & Hs & Hc').
  destruct ok; [destruct (Hnot c Hc); by exists h, name, n, md, i|]. eexists. split; [exact Hc'|]. rewrite Hs.
  apply rtc_once. by apply (ch_list e true i (mkWFC h name n fee) (md_Offset md)).
Qed.

Lemma clean_whitelist_turns e h cs w kept w' :
  clean_whitelist pe h cs w = (Ok (kept, None), w') →
  pw_cache w' = pw_cache w ∧
  ∀ c pre, rtc (change e true) (set_whitelistedContracts (pre ++ cs) c, pw_store w)
             (set_whitelistedContracts (pre ++ kept) c, pw_store w').
Proof.
  revert w kept w'. induction cs as [|x cs IH]; intros w kept w'; cbn [clean_whitelist].
  { intros [= <- <-]. done. }
  case_bool_decide as Hx; intros Hr.
  - apply prun_ok in Hr as ([kept' err] & w1 & Hr & [= <- -> <-]). apply IH in Hr as [Hc Hs]. split; [done|].
    intros c pre. specialize (Hs c (pre ++ [x])). by rewrite <- !app_assoc in Hs.
  - apply prun_ok in Hr as (? & w1 & [= _ <-] & Hr). apply prun_ok in Hr as (err & w2 & Hn & Hr).
    destruct (whitelist_note _ _ _ _ _) as [nr w3] eqn:Hnote. apply notify_same in Hnote as [Hs3 Hc3].
    destruct nr; [|injection Hn as <- <-; by injection Hr|done]. injection Hn as <- <-. apply IH in Hr as [Hc Hs].
    split; [by rewrite Hc, Hc3|]. intros c pre. specialize (Hs c pre). rewrite Hs3 in Hs. cbn [pw_store] in Hs.
    eapply rtc_l; [|exact Hs].
    pose proof (ch_unlist e true (length pre) x (set_whitelistedContracts (pre ++ x :: cs) c) (pw_store w) eq_refl) as Hch.
    cbn [pc_whitelistedContracts set_whitelistedContracts] in Hch. rewrite list_lookup_middle in Hch by done. specialize (Hch eq_refl).
    unfold delete_at in Hch. rewrite take_app_length, <- (Nat.add_1_r (length pre)), <- drop_drop, drop_app_length in Hch. exact Hch.
Qed.

Lemma CleanWhitelist_turns e h w u w' : CleanWhitelist pe h w = (Ok u, w') → turns e true w w'.
Proof.
  intros Hr c Hc. unfold CleanWhitelist in Hr. apply prun_ok in Hr as (c0 & ? & [Hc0 ->]%cache_ok & Hr).
  rewrite Hc in Hc0. injection Hc0 as <-. apply prun_ok in Hr as ([kept err] & w1 & Hcl & Hr).
  apply prun_ok in Hr as (? & w2 & (c' & Hc' & ->)%on_cache_ok & Hr). destruct err; [done|]. injection Hr as _ <-.
  apply (clean_whitelist_turns e) in Hcl as [Hc1 Hs]. rewrite Hc1, Hc in Hc'. injection Hc' as <-.
  eexists. split; [done|]. specialize (Hs c []). cbn in Hs. by destruct c.
Qed.

(** *** Operations that call *)

(** A run to the end in which [callee] is what called contracts do. *)
Inductive runs {R : Type} (callee : PolicyWorld → PolicyWorld → Prop) : pproc R → R → PolicyWorld → Prop :=
  | runs_returned r w : runs callee (PReturned r w) r w
  | runs_calling p w k w1 r w' : callee w w1 → runs callee (k w1) r w' → runs callee (PCalling p w k) r w'
  | runs_invoking a b m l w k w1 h v r w' :
      callee w w1 → runs callee (k h v w1) r w' → runs callee (PInvoking a b m l w k) r w'.

(** Calls that leave the policy alone. *)
Lemma embed_runs {A R : Type} (p : proc A) store cache (k : A → PolicyWorld → pproc R) r w' :
  runs policy_same (embed p store cache k) r w' → ∃ a t, runs policy_same (k a (mkPW t store cache)) r w'.
Proof.
  induction p as [a w| |pay w next IH]; cbn; intros Hr.
  - by exists a, w.
  - inversion Hr.
  - inversion Hr as [|? ? ? w1 ? ? [Hs Hc] Hr'|]; subst. cbn in *. rewrite Hs, Hc in Hr'. by eapply IH.
Qed.

Lemma insert_blocked_ok i h c c' :
  insert_blocked i h c = Ok c' → c' = set_blockedAccounts (insert_at i h (pc_blockedAccounts c)) c.
Proof.
  unfold insert_blocked. case_bool_decide as Hi.
  - intros [= <-]. subst i. unfold insert_at. by rewrite take_ge, drop_ge by done.
  - case_bool_decide; [done|]. by intros [= <-].
Qed.

Lemma block_at_turns e f h i w u w' :
  length h = Uint160Size → (∀ c, pw_cache w = Some c → isBlockedInternal c h = (i, false)) →
  block_at pe h i w = (Ok u, w') → turns e f w w'.
Proof.
  intros Hh Hi Hr c Hc. specialize (Hi c Hc). unfold block_at in Hr.
  apply prun_ok in Hr as (? & w1 & [= _ <-] & Hr). apply prun_ok in Hr as (c0 & ? & [Hc0 ->]%cache_ok & Hr).
  cbn in Hc0. rewrite Hc in Hc0. injection Hc0 as <-. apply prun_ok in Hr as (c' & w2 & [->%insert_blocked_ok ->]%plift_ok & Hr).
  injection Hr as _ <-. eexists. split; [done|]. apply rtc_once. by constructor.
Qed.

Lemma BlockAccount_turns e f h w b w' :
  length h = Uint160Size → runs policy_same (BlockAccountInternalDeferrable pe h PReturned w) b w' → turns e f w w'.
Proof.
  intros Hh. unfold BlockAccountInternalDeferrable, pdo_. destruct (GetROCache w) as [[c| |] w1] eqn:Hc; [|inversion 1..].
  apply cache_ok in Hc as [Hc ->]. destruct (isBlockedInternal c h) as [i []] eqn:Hi.
  { inversion 1; subst. intros c' Hc'. by exists c'. }
  assert (∀ t, runs policy_same (match block_at pe h i (mkPW t (pw_store w) (pw_cache w)) with
    | (Ok _, w0) => PReturned true w0 | _ => PPanicked end) b w' → turns e f w w') as Hblock.
  { intros t Hr c' Hc'. rewrite Hc in Hc'. injection Hc' as <-.
    destruct (block_at pe h i _) as [[u| |] w2] eqn:Hb; [|by inversion Hr..]. inversion Hr; subst.
    eapply (block_at_turns e f h i (mkPW t (pw_store w) (pw_cache w))); [done| |exact Hb|done].
    cbn. intros c' Hc'. rewrite Hc in Hc'. by injection Hc' as <-. }
  destruct (faun pe); [|by destruct w; apply Hblock].
  intros (a & t & Hr)%embed_runs. by apply (Hblock t).
Qed.

(** ** Any sequence of operations *)

Inductive policy_step (e f : bool) (w : PolicyWorld) : PolicyWorld → Prop :=
  | ps_tokens t : policy_step e f w (mkPW t (pw_store w) (pw_cache w))
  | ps_exec args r w' : setExecFeeFactor pe args w = (Ok r, w') → policy_step e f w w'
  | ps_price args r w' : setStoragePrice pe args w = (Ok r, w') → policy_step e f w w'
  | ps_fee args r w' : setFeePerByte pe args w = (Ok r, w') → policy_step e f w w'
  | ps_attribute0 args r w' : setAttributeFeeV0 pe args w = (Ok r, w') → policy_step e f w w'
  | ps_attribute1 args r w' : setAttributeFeeV1 pe args w = (Ok r, w') → policy_step e f w w'
  | ps_vub args r w' : e = true → setMaxValidUntilBlockIncrement pe args w = (Ok r, w') → policy_step e f w w'
  | ps_ms args r w' : e = true → setMillisecondsPerBlock pe args w = (Ok r, w') → policy_step e f w w'
  | ps_mtb args r w' : e = true → setMaxTraceableBlocks pe args w = (Ok r, w') → policy_step e f w w'
  | ps_unblock h args r w' : unblockAccount pe h args w = (Ok r, w') → policy_step e f w w'
  | ps_block h b w' : length h = Uint160Size →
      runs policy_same (BlockAccountInternalDeferrable pe h PReturned w) b w' → policy_step e f w w'
  | ps_clean h u w' : f = true → CleanWhitelist pe h w = (Ok u, w') → policy_step e f w w'
  | ps_remove hp args r w' : f = true → removeWhitelistFeeContract pe hp args w = (Ok r, w') → policy_step e f w w'
  | ps_list hp args r w' : f = true → setWhitelistFeeContract pe hp args w = (Ok r, w') →
      (∀ c, pw_cache w = Some c → ¬ lists hp args c) → policy_step e f w w'.

Lemma changes_ok e f x y : rtc (change e f) x y → policy_ok e f x.2 x.1 → policy_ok e f y.2 y.1.
Proof. induction 1; [done|]. intros Hok. apply IHrtc. by eapply change_ok. Qed.

Lemma policy_step_turns e f w w' c :
  faun pe = f → parameters_ok → pw_cache w = Some c → policy_ok e f (pw_store w) c → policy_step e f w w' → turns e f w w'.
Proof.
  intros Hf Hp Hc Hok [t|args r w1 Hr|args r w1 Hr|args r w1 Hr|args r w1 Hr|args r w1 Hr|args r w1 -> Hr|args r w1 -> Hr|args r w1 -> Hr
    |h args r w1 Hr|h b w1 Hh Hr|h u w1 -> Hr|hp args r w1 -> Hr|hp args r w1 -> Hr Hn].
  - intros c' Hc'. by exists c'.
  - rewrite <- Hf. by eapply setExecFeeFactor_turns.
  - by eapply setStoragePrice_turns.
  - by eapply setFeePerByte_turns.
  - by eapply setAttributeFee_turns.
  - by eapply setAttributeFee_turns.
  - by eapply setMaxValidUntilBlockIncrement_turns.
  - by eapply setMillisecondsPerBlock_turns.
  - by eapply setMaxTraceableBlocks_turns.
  - by eapply unblockAccount_turns.
  - by eapply BlockAccount_turns.
  - by eapply CleanWhitelist_turns.
  - eapply removeWhitelist_turns; [done|]. intros c' Hc'. rewrite Hc in Hc'. by injection Hc' as <-.
  - by eapply setWhitelist_turns.
Qed.

Lemma policy_steps_ok e f w w' c :
  faun pe = f → parameters_ok → pw_cache w = Some c → policy_ok e f (pw_store w) c →
  rtc (policy_step e f) w w' →
  ∃ c', pw_cache w' = Some c' ∧ policy_ok e f (pw_store w') c' ∧ rtc (change e f) (c, pw_store w) (c', pw_store w').
Proof.
  intros Hf Hp Hc Hok Hs. revert c Hc Hok. induction Hs as [w|w w1 w' Hs _ IH]; intros c Hc Hok; [by exists c|].
  destruct (policy_step_turns _ _ _ _ _ Hf Hp Hc Hok Hs c Hc) as (c1 & Hc1 & Hch).
  pose proof (changes_ok _ _ _ _ Hch Hok) as Hok1. cbn in Hok1. destruct (IH c1 Hc1 Hok1) as (c' & Hc' & Hok' & Hch').
  exists c'. split; [done|]. split; [done|]. by etrans.
Qed.

(** A node that starts with the right cache in place changes nothing. *)
Lemma restart_same enabled w c :
  pw_cache w = Some c → restores (enabled HFEchidna) (enabled HFFaun) (pw_store w) c →
  Policy_InitializeCache enabled w = (Ok tt, w).
Proof.
  intros Hc Hr. apply prun_ok. exists c, w. split; [by apply fill_restores|].
  unfold policy_SetCache. rewrite <- Hc. by destruct w.
Qed.

Lemma restart_cache enabled w c :
  restores (enabled HFEchidna) (enabled HFFaun) (pw_store w) c →
  Policy_InitializeCache enabled w = (Ok tt, mkPW (pw_tokens w) (pw_store w) (Some c)).
Proof. intros Hr. apply prun_ok. exists c, w. split; [by apply fill_restores|done]. Qed.

(** ** The contract's first cache *)

Lemma stamp_blocked_run accs w u w' :
  stamp_blocked pe accs w = (Ok u, w') → pw_cache w' = pw_cache w ∧
  (∀ k, (∀ a, a ∈ accs → k ≠ makeBlockedAccountKey a) → pw_store w' !! k = pw_store w !! k) ∧
  (∀ a, a ∈ accs → is_Some (pw_store w' !! makeBlockedAccountKey a)).
Proof.
  revert w. induction accs as [|a accs IH]; intros w; cbn [stamp_blocked].
  { intros [= _ <-]. split; [done|]. split; [done|]. by intros a ?%elem_of_nil. }
  intros (? & w1 & [= _ <-] & Hr)%prun_ok. apply IH in Hr as (Hc & Hs & Ha). split; [done|]. split.
  - intros k Hk. rewrite Hs by (intros b Hb; apply Hk; by right). cbn.
    rewrite lookup_insert_ne; [done|]. intros <-. by apply (Hk a); [left|].
  - intros b [->|Hb]%elem_of_cons; [|by apply Ha].
    destruct (decide (a ∈ accs)) as [|Hn]; [by apply Ha|]. rewrite Hs.
    + cbn. by rewrite lookup_insert_eq.
    + intros b Hb [= ->]. done.
Qed.

(** New values under the same keys. *)
Lemma Seek_same_keys (p : Z) s s' :
  (∀ k, is_Some (s' !! (z2b p :: k)) ↔ is_Some (s !! (z2b p :: k))) →
  map fst (policy_Seek p s') = map fst (policy_Seek p s).
Proof.
  intros Hk.
  assert (∀ s k, k ∈ map fst (policy_Seek p s) ↔ is_Some (s !! (z2b p :: k))) as Hin.
  { intros s0 k. rewrite list_elem_of_fmap. split.
    - intros ([k' v] & -> & Hv%policy_Seek_elem). by exists v.
    - intros [v Hv]. exists (k, v). split; [done|]. by apply policy_Seek_elem. }
  apply (StronglySorted_unique_strong (λ a b : bytes, bcompare a b = Lt)); [|apply policy_Seek_sorted..|].
  - intros x y _ _ Hxy Hyx. rewrite bcompare_antisym, Hyx in Hxy. done.
  - apply NoDup_Permutation; [apply keys_sorted_NoDup, policy_Seek_sorted..|]. intros k. by rewrite !Hin.
Qed.

(** The genesis block makes the cache of its storage. *)
Lemma initialize_genesis w u w' :
  (∀ p k, p ∈ [blockedAccountPrefix; whitelistedFeeContractPrefix; attributeFeePrefix] → pw_store w !! (z2b p :: k) = None) →
  Policy_Initialize pe None w = (Ok u, w') →
  pw_cache w' = Some zero_policy_cache ∧ policy_ok false false (pw_store w') zero_policy_cache.
Proof.
  intros Hw Hr.
  assert (Policy_Initialize pe None w = (Ok tt, mkPW (pw_tokens w)
    (<[storagePriceKey := ToBytes DefaultStoragePrice]> (<[execFeeFactorKey := ToBytes defaultExecFeeFactor]>
      (<[feePerByteKey := ToBytes defaultFeePerByte]> (pw_store w)))) (Some zero_policy_cache))) as Hi by reflexivity.
  rewrite Hr in Hi. injection Hi as _ ->. split; [done|]. cbn [pw_store].
  set (s := <[storagePriceKey := _]> _).
  assert (∀ p k, p ∈ [blockedAccountPrefix; whitelistedFeeContractPrefix; attributeFeePrefix] → s !! (z2b p :: k) = None) as Hs.
  { intros p k Hp. unfold s. rewrite !lookup_insert_ne; [by apply Hw|..];
      (repeat (apply elem_of_cons in Hp as [->|Hp]; [other_key|])); by apply elem_of_nil in Hp. }
  assert (∀ p, p ∈ [blockedAccountPrefix; whitelistedFeeContractPrefix; attributeFeePrefix] → policy_Seek p s = []) as Hnil.
  { intros p Hp. destruct (policy_Seek p s) as [|[k v] l] eqn:Hl; [done|].
    assert ((k, v) ∈ policy_Seek p s) as Hin by (rewrite Hl; left). apply policy_Seek_elem in Hin.
    by rewrite (Hs p k Hp) in Hin. }
  constructor.
  - constructor; cbn -[policy_Seek ToBytes]; try done.
    + unfold s. apply stored_as_other; [other_key|]. by apply stored_as_insert.
    + unfold s. do 2 (apply stored_as_other; [other_key|]). by apply stored_as_insert.
    + unfold s. by apply stored_as_insert.
    + by rewrite Hnil by set_solver.
    + by rewrite Hnil by set_solver.
    + split; [|split].
      * intros k v Hk. rewrite (Hs attributeFeePrefix) in Hk by set_solver. done.
      * intros b. rewrite (Hs attributeFeePrefix) by set_solver. done.
      * intros t _. apply lookup_empty.
  - intros k v Hk. rewrite (Hs whitelistedFeeContractPrefix) in Hk by set_solver. done.
Qed.

(** The caches that the hard forks make. *)
Definition echidna_settings (c : PolicyCache) : PolicyCache :=
  set_maxTraceableBlocks (pe_Genesis_MaxTraceableBlocks pe)
    (set_msPerBlock (u32 (pe_Genesis_TimePerBlock pe)) (set_maxVUBIncrement (pe_Genesis_MaxValidUntilBlockIncrement pe) c)).
Definition echidna_cache (c : PolicyCache) : PolicyCache :=
  set_attributeFee (<[NotaryAssistedT := defaultNotaryAssistedFee]> (pc_attributeFee c)) (echidna_settings c).
Definition faun_cache (c : PolicyCache) : PolicyCache :=
  set_faunInitialized true (set_execFeeFactor (u32 (pc_execFeeFactor c * ExecFeeFactorMultiplier)) c).

(** At Echidna the settings of the genesis configuration are added. *)
Lemma initialize_echidna f w u w' c :
  pw_cache w = Some c → policy_ok false f (pw_store w) c →
  0 <= pe_Genesis_MaxValidUntilBlockIncrement pe < 2 ^ 32 → 0 <= pe_Genesis_MaxTraceableBlocks pe < 2 ^ 32 →
  - 2 ^ 63 <= pe_Genesis_TimePerBlock pe < 2 ^ 63 →
  Policy_Initialize pe (Some HFEchidna) w = (Ok u, w') →
  pw_cache w' = Some (echidna_cache c) ∧ policy_ok true f (pw_store w') (echidna_cache c).
Proof.
  intros Hc Hok Hv Hm Ht Hr.
  pose (c1 := echidna_settings c).
  set (s1 := <[MaxTraceableBlocksKey := ToBytes (pe_Genesis_MaxTraceableBlocks pe)]>
    (<[msPerBlockKey := ToBytes (pe_Genesis_TimePerBlock pe)]>
      (<[maxVUBIncrementKey := ToBytes (pe_Genesis_MaxValidUntilBlockIncrement pe)]> (pw_store w)))).
  assert (Policy_Initialize pe (Some HFEchidna) w = (Ok tt, mkPW (pw_tokens w)
    (<[attributeFeeKey NotaryAssistedT := ToBytes defaultNotaryAssistedFee]> s1)
    (Some (echidna_cache c)))) as Hi.
  { destruct w as [t st ca]. cbn in Hc. subst ca. reflexivity. }
  rewrite Hr in Hi. injection Hi as _ ->. split; [done|]. cbn [pw_store].
  change (echidna_cache c) with (set_attributeFee (<[NotaryAssistedT := defaultNotaryAssistedFee]> (pc_attributeFee c1)) c1). apply change_attribute_ok; [|by cbn|by cbn].
  assert (∀ k x, x ∈ [blockedAccountPrefix; whitelistedFeeContractPrefix; attributeFeePrefix] →
    s1 !! (z2b x :: k) = pw_store w !! (z2b x :: k)) as Hs.
  { intros k x Hx. unfold s1. rewrite !lookup_insert_ne; [done|..];
      (repeat (apply elem_of_cons in Hx as [->|Hx]; [other_key|])); by apply elem_of_nil in Hx. }
  destruct Hok as [[Hexec Hfaun Hfee Hgas Hprice Hbl Hacc Hattr Hech Hlist] Hkeys]. constructor.
  - constructor; cbn -[policy_Seek ToBytes]; try done; try (unfold s1; repeat (apply stored_as_other; [other_key|]); done).
    + rewrite (Seek_other _ (pw_store w) s1); [done|]. intros k. apply Hs. set_solver.
    + rewrite (Seek_other _ (pw_store w) s1); [done|]. intros k. apply Hs. set_solver.
    + eapply attributes_of_other; [|exact Hattr]. intros k. apply Hs. set_solver.
    + split_and!.
      * unfold s1. do 2 (apply stored_as_other; [other_key|]). apply stored_as_insert; [lia|apply wrap_u_small; lia].
      * unfold s1. apply stored_as_other; [other_key|].
        destruct (stored_as_insert (<[maxVUBIncrementKey := ToBytes (pe_Genesis_MaxValidUntilBlockIncrement pe)]> (pw_store w))
          msPerBlockKey id (pe_Genesis_TimePerBlock pe)) as (si & Hsi & Hid); [lia|done|]. exists si. split; [done|].
        cbn in Hid. by rewrite Hid.
      * unfold s1. apply stored_as_insert; [lia|apply wrap_u_small; lia].
    + destruct f; [|done]. rewrite (Seek_other _ (pw_store w) s1); [done|]. intros k. apply Hs. set_solver.
  - intros k v. rewrite Hs by set_solver. apply Hkeys.
Qed.

(** At Faun the factor is scaled and the blocked accounts get the time. *)
Lemma initialize_faun e w u w' c :
  pw_cache w = Some c → policy_ok e false (pw_store w) c →
  Policy_Initialize pe (Some HFFaun) w = (Ok u, w') →
  pw_cache w' = Some (faun_cache c) ∧ policy_ok e true (pw_store w') (faun_cache c).
Proof.
  intros Hc Hok Hr.
  set (v := u32 (pc_execFeeFactor c * ExecFeeFactorMultiplier)).
  pose (c1 := faun_cache c).
  assert (Policy_Initialize pe (Some HFFaun) w = stamp_blocked pe (pc_blockedAccounts c)
    (mkPW (pw_tokens w) (<[execFeeFactorKey := ToBytes v]> (pw_store w)) (Some c1))) as Hi.
  { destruct w as [t st ca]. cbn in Hc. subst ca. reflexivity. }
  rewrite Hi in Hr. apply stamp_blocked_run in Hr as (Hc' & Hs & Hb). cbn [pw_cache pw_store] in *. split; [done|].
  assert (0 <= v < 2 ^ 32) as Hv by by apply wrap_u_range.
  set (s1 := <[execFeeFactorKey := ToBytes v]> (pw_store w)) in *.
  assert (∀ k, head k ≠ Some (z2b blockedAccountPrefix) → pw_store w' !! k = s1 !! k) as Hs'.
  { intros k Hk. apply Hs. intros a _ ->. by apply Hk. }
  assert (∀ key conv n, head key ≠ Some (z2b blockedAccountPrefix) → stored_as s1 key conv n → stored_as (pw_store w') key conv n) as Hst.
  { intros key conv n Hk (si & Hsi & Hn). exists si. by rewrite Hs'. }
  destruct Hok as [[Hexec Hfaun Hfee Hgas Hprice Hbl Hacc Hattr Hech Hlist] Hkeys].
  assert (map fst (policy_Seek blockedAccountPrefix (pw_store w')) = map fst (policy_Seek blockedAccountPrefix (pw_store w))) as Hkk.
  { apply Seek_same_keys. intros k. destruct (decide (k ∈ pc_blockedAccounts c)) as [Hin|Hin].
    - split; intros _; [|by apply (Hb k)]. rewrite Hbl in Hin. apply list_elem_of_fmap in Hin as ([k' x] & -> & Hx%policy_Seek_elem). by exists x.
    - rewrite Hs; [|by intros a Ha [= ->]]. unfold s1. rewrite lookup_insert_ne by other_key. done. }
  constructor.
  - constructor; cbn -[policy_Seek ToBytes]; try done.
    + apply Hst; [done|]. unfold s1. apply stored_as_insert; [lia|by apply wrap_u_small].
    + apply Hst; [done|]. unfold s1. apply stored_as_other; [other_key|done].
    + apply Hst; [done|]. unfold s1. apply stored_as_other; [other_key|done].
    + by rewrite Hbl, Hkk.
    + rewrite Forall_forall in Hacc. apply Forall_forall. intros [k x] Hin. apply (list_elem_of_fmap_2 fst) in Hin.
      change (fst <$> ?l) with (map fst l) in Hin. rewrite Hkk in Hin. apply list_elem_of_fmap in Hin as ([k' y] & [= ->] & Hy).
      by apply (Hacc (k', y)).
    + eapply attributes_of_other; [|exact Hattr]. intros k. rewrite Hs' by done. unfold s1. apply lookup_insert_ne. other_key.
    + destruct e; [|done]. destruct Hech as (? & ? & ?).
      split_and!; (apply Hst; [done|]); unfold s1; (apply stored_as_other; [other_key|done]).
    + rewrite Hlist. destruct (policy_Seek whitelistedFeeContractPrefix (pw_store w')) as [|[k x] l] eqn:Hl; [constructor|].
      assert ((k, x) ∈ policy_Seek whitelistedFeeContractPrefix (pw_store w')) as Hin by (rewrite Hl; left).
      apply policy_Seek_elem in Hin. rewrite Hs' in Hin by done. unfold s1 in Hin.
      rewrite lookup_insert_ne in Hin by other_key. by apply Hkeys in Hin.
  - intros k x. rewrite Hs' by done. unfold s1. rewrite lookup_insert_ne by other_key. intros Hx. by apply Hkeys in Hx.
Qed.

End handlers.
