(* ===== verification/PolicyLife.v ===== *)
(** * PolicyLife: the policy from the genesis block on

    The contract over the life of a chain: made at the genesis block, changed at
    the hard forks, used between them.  Its cache is always the one a restarted
    node makes and its settings keep their limits; an account is blocked as the
    storage says.  Last, the two cases in which the cache is not kept. *)

From S2P Require Import Prelude Bigint BinIO Codec Hash Keys Witness Tx StackItem Serial Storage NativeState Native NativeNeo NativeSpec Policy PolicyInv PolicySpec.
From stdpp Require Import relations.

#[local] Open Scope Z_scope.

Implicit Types (e f : bool) (s : gmap bytes bytes) (c : PolicyCache).

(** ** The limits of the settings *)

Record limits (e f : bool) (c : PolicyCache) : Prop := {
  li_exec : 0 < pc_execFeeFactor c <= (if f then maxExecFeeFactor * ExecFeeFactorMultiplier else maxExecFeeFactor);
  li_fee : 0 <= pc_feePerByte c <= maxFeePerByte;
  li_price : 0 < pc_storagePrice c <= maxStoragePrice;
  li_attribute t v : pc_attributeFee c !! t = Some v → 0 <= v <= maxAttributeFee;
  li_echidna : e = true → 0 < pc_msPerBlock c <= maxMillisecondsPerBlock ∧
    0 < pc_maxVUBIncrement c <= maxMaxVUBIncrement ∧ pc_maxVUBIncrement c < pc_maxTraceableBlocks c <= maxMaxTraceableBlocks;
}.

Lemma change_limits e f x y :
  change e f x y → limits e f x.1 → limits e f y.1 ∧ pc_maxTraceableBlocks y.1 <= pc_maxTraceableBlocks x.1.
Proof.
  intros Hc [H1 H2 H3 H4 H5]. destruct Hc; cbn in *; (split; [constructor; cbn|]); try done; try lia; try (intros He; specialize (H5 He); lia).
  intros t' v' [[<- <-]|[_ Hl]]%lookup_insert_Some; [done|by eapply H4].
Qed.

Lemma step_limits `{Digest} (pe : PolicyEnv) e f w w' c :
  faun pe = f → parameters_ok pe → pw_cache w = Some c → policy_ok e f (pw_store w) c → policy_step pe e f w w' →
  ∃ c', pw_cache w' = Some c' ∧ policy_ok e f (pw_store w') c' ∧
    (limits e f c → limits e f c' ∧ pc_maxTraceableBlocks c' <= pc_maxTraceableBlocks c).
Proof.
  intros Hf Hp Hc Hok Hs. destruct (policy_step_turns _ _ _ _ _ _ Hf Hp Hc Hok Hs c Hc) as (c' & Hc' & Hch).
  exists c'. split; [done|]. pose proof (changes_ok _ _ _ _ Hch Hok) as Hok'. split; [done|].
  change c with (c, pw_store w).1. change c' with (c', pw_store w').1. generalize (c, pw_store w), (c', pw_store w'), Hch.
  clear. intros x y. induction 1 as [|x z y Hxz _ IH]; [done|]. intros [Hz Hle]%(change_limits _ _ _ _ Hxz).
  destruct (IH Hz). split; [done|lia].
Qed.

(** ** The life of the contract *)

(** What the configuration of the genesis block says of the settings. *)
Record genesis_ok (pe : PolicyEnv) : Prop := {
  go_time : 0 < pe_Genesis_TimePerBlock pe <= maxMillisecondsPerBlock;
  go_vub : 0 < pe_Genesis_MaxValidUntilBlockIncrement pe <= maxMaxVUBIncrement;
  go_traceable : pe_Genesis_MaxValidUntilBlockIncrement pe < pe_Genesis_MaxTraceableBlocks pe <= maxMaxTraceableBlocks;
}.

(** The worlds in which Echidna is enabled if [e], Faun if [f]. *)
Inductive life `{Digest} : bool → bool → PolicyWorld → Prop :=
  | lf_genesis pe w u w' :
      (∀ p k, p ∈ [blockedAccountPrefix; whitelistedFeeContractPrefix; attributeFeePrefix] → pw_store w !! (z2b p :: k) = None) →
      Policy_Initialize pe None w = (Ok u, w') → life false false w'
  | lf_echidna pe f w u w' : life false f w → genesis_ok pe → Policy_Initialize pe (Some HFEchidna) w = (Ok u, w') → life true f w'
  | lf_faun pe e w u w' : life e false w → Policy_Initialize pe (Some HFFaun) w = (Ok u, w') → life e true w'
  | lf_step pe e f w w' : life e f w → faun pe = f → parameters_ok pe → policy_step pe e f w w' → life e f w'.

Lemma small_u32 n : 0 <= n < 2 ^ 32 → u32 n = n.
Proof. apply wrap_u_small. Qed.

Lemma life_ok `{Digest} e f w : life e f w → ∃ c, pw_cache w = Some c ∧ policy_ok e f (pw_store w) c ∧ limits e f c.
Proof.
  induction 1 as [pe w u w' Hw Hr|pe f w u w' _ (c & Hc & Hok & Hl) Hg Hr|pe e w u w' _ (c & Hc & Hok & Hl) Hr|pe e f w w' _ (c & Hc & Hok & Hl) Hf Hp Hs].
  - apply initialize_genesis in Hr as [Hc Hok]; [|done]. eexists. split; [done|]. split; [done|].
    constructor; [vm_compute; split; congruence..| |done]. intros t v. cbn [pc_attributeFee zero_policy_cache]. by rewrite lookup_empty.
  - destruct Hg as [H1 H2 H3]. unfold maxMillisecondsPerBlock, maxMaxVUBIncrement, maxMaxTraceableBlocks in *.
    destruct (initialize_echidna pe f w u w' c Hc Hok ltac:(lia) ltac:(lia) ltac:(lia) Hr) as [Hc' Hok']. eexists. split; [done|]. split; [done|].
    destruct Hl as [L1 L2 L3 L4 _]. constructor; cbn -[u32]; try done.
    + intros t v [[<- <-]|[_ Hv]]%lookup_insert_Some; [done|by eapply L4].
    + intros _. rewrite small_u32 by lia.
      unfold maxMillisecondsPerBlock, maxMaxVUBIncrement, maxMaxTraceableBlocks. lia.
  - destruct (initialize_faun pe e w u w' c Hc Hok Hr) as [Hc' Hok']. eexists. split; [done|]. split; [done|].
    destruct Hl as [L1 L2 L3 L4 L5]. constructor; cbn -[u32]; try done.
    unfold maxExecFeeFactor, ExecFeeFactorMultiplier in *. rewrite small_u32 by lia. lia.
  - destruct (step_limits _ _ _ _ _ _ Hf Hp Hc Hok Hs) as (c' & Hc' & Hok' & Hl'). exists c'. split; [done|]. split; [done|by apply Hl'].
Qed.


(** C10: no sequence of operations takes a setting out of its limits: fees and
    prices keep theirs, a transaction may always be valid for fewer blocks than
    are traceable, and the number of traceable blocks never grows. *)
Theorem limits_kept `{Digest} (pe : PolicyEnv) e f w w' :
  life e f w → faun pe = f → parameters_ok pe → policy_step pe e f w w' →
  ∃ c c', pw_cache w = Some c ∧ pw_cache w' = Some c' ∧ limits e f c ∧ limits e f c' ∧
    pc_maxTraceableBlocks c' <= pc_maxTraceableBlocks c.
Proof.
  intros (c & Hc & Hok & Hl)%life_ok Hf Hp Hs.
  destruct (step_limits _ _ _ _ _ _ Hf Hp Hc Hok Hs) as (c' & Hc' & _ & Hl'). destruct (Hl' Hl). by exists c, c'.
Qed.

Section handlers.
Context `{Digest} (pe : PolicyEnv).

(** *** Blocked accounts *)

Lemma blocked_stored e f s c h : restores e f s c →
  (isBlockedInternal c h).2 = true ↔ is_Some (s !! makeBlockedAccountKey h).
Proof.
  intros Hr. rewrite (isBlocked_keys e f s) by done. rewrite search_found by apply policy_Seek_sorted.
  rewrite list_elem_of_fmap. unfold makeBlockedAccountKey. split.
  - intros ([k v] & -> & Hin). exists v. by apply policy_Seek_elem.
  - intros [v Hv]. exists (h, v). split; [done|]. by apply policy_Seek_elem.
Qed.

(** With the cache that a node makes from its storage ([cache_kept] says when
    a running node still has it), an account is blocked exactly if the storage says
    so, which is also what a node answers that has not made its cache yet, and a
    transaction is refused exactly if a signer is blocked. *)
Theorem blocked_exact e f w c h tx :
  pw_cache w = Some c → restores e f (pw_store w) c →
  IsBlocked h w = bool_decide (is_Some (pw_store w !! makeBlockedAccountKey h)) ∧
  IsBlocked h (mkPW (pw_tokens w) (pw_store w) None) = IsBlocked h w ∧
  (CheckPolicy tx w = (Ok tt, w) ↔
    Forall (λ sg, pw_store w !! makeBlockedAccountKey (sg_Account sg) = None) (t_Signers tx)).
Proof.
  intros Hc Hr.
  assert (∀ h, IsBlocked h w = bool_decide (is_Some (pw_store w !! makeBlockedAccountKey h))) as Hb.
  { intros h'. unfold IsBlocked. rewrite Hc. apply Bool.eq_iff_eq_true. rewrite bool_decide_eq_true. by apply (blocked_stored e f). }
  split; [apply Hb|]. split; [by rewrite Hb|].
  assert (CheckPolicy tx w = (match list_find (λ sg, (isBlockedInternal c (sg_Account sg)).2 = true) (t_Signers tx) with
    | Some _ => Err "account is blocked"%string | None => Ok tt end, w)) as ->.
  { unfold CheckPolicy, GetROCache, mbind, PolicyM_bind. by rewrite Hc. }
  destruct (list_find _ _) as [[i sg]|] eqn:Hf.
  - split; [done|]. intros Hall. apply list_find_Some in Hf as (Hi & Hs & _).
    rewrite Forall_forall in Hall. apply (blocked_stored e f _ _ _ Hr) in Hs as [v Hv].
    rewrite (Hall sg) in Hv; [done|]. by eapply list_elem_of_lookup_2.
  - split; [|done]. intros _. apply list_find_None in Hf. eapply Forall_impl; [exact Hf|]. intros sg Hs.
    destruct (pw_store w !! _) eqn:Hv; [|done]. destruct Hs. apply (blocked_stored e f _ _ _ Hr). by rewrite Hv.
Qed.

(** *** A new fee of a method that has one *)

Lemma Forall2_replace {A B} (R : A → B → Prop) l1 l2 i x y :
  Forall2 R l1 l2 → R x y → Forall2 R (<[i := x]> l1) (<[i := y]> l2).
Proof. apply Forall2_insert. Qed.

(** The storage has the new record, and so has the cache of a restarted node. *)
Lemma relisted e r off data c s i :
  policy_ok e true s c → wfc_ok r → WhitelistFeeContract_Bytes r = Ok data →
  find_whitelisted c (wf_Hash r) off = (i, true) →
  policy_ok e true (<[makeWhitelistedKey (wf_Hash r) (u32 off) := data]> s)
    (set_whitelistedContracts (<[i := mkWC r (u32 off)]> (pc_whitelistedContracts c)) c).
Proof.
  intros Hok Hr Hd Hi. pose proof Hr as (Hh & _). rewrite (find_whitelisted_keys e s) in Hi by done.
  apply search_keys in Hi as (_ & _ & Hi); [|apply policy_Seek_sorted]. rewrite list_lookup_fmap in Hi.
  destruct (policy_Seek whitelistedFeeContractPrefix s !! i) as [[k v0]|] eqn:Hl; [|done].
  change (Some k = Some (wf_Hash r ++ be_enc 4 (u32 off))) in Hi. injection Hi as Hk.
  rewrite Hk in Hl. pose proof (Seek_replace _ s _ v0 data i Hl) as Hs. unfold makeWhitelistedKey.
  destruct (wl_entry_made r (u32 off) data Hr ltac:(by apply wrap_u_range) Hd) as (He & Hkey & Hko).
  destruct Hok as [[Hexec Hfaun Hfee Hgas Hprice Hbl Hacc Hattr Hech Hlist] Hkeys]. constructor.
  - keep_all. rewrite Hs. by apply Forall2_replace.
  - intros k' v [[[= <-] <-]|[_ Hl']]%lookup_insert_Some; [|by apply Hkeys]. by exists (mkWC r (u32 off)).
Qed.

Lemma WhitelistedFee_run h off w c :
  pw_cache w = Some c →
  (WhitelistedFee h off w).1 = Ok (let '(i, ok) := find_whitelisted c h off in
    if ok then match pc_whitelistedContracts c !! i with
               | Some x => i64 (wf_Fee (wc_contract x) * ExecFeeFactorMultiplier) | None => -1 end else -1).
Proof.
  intros Hc. unfold WhitelistedFee, GetROCache, mbind, PolicyM_bind. rewrite Hc. by destruct (find_whitelisted c h off).
Qed.

(** C11: setting the fee of a method that already has one writes it to the
    storage only: the running node goes on to charge the old fee, and a node that
    restarts charges the new one. *)
Theorem new_fee_lost enabled hp args w r w' c :
  parameters_ok pe → enabled HFFaun = true →
  life (enabled HFEchidna) true w → pw_cache w = Some c →
  lists pe hp args c → setWhitelistFeeContract pe hp args w = (Ok r, w') →
  ∃ h off fee a3, args !! 3%nat = Some a3 ∧ toInt64 a3 = Ok fee ∧
    pw_cache w' = Some c ∧ (WhitelistedFee h off w').1 = (WhitelistedFee h off w).1 ∧
    ∃ w2, Policy_InitializeCache enabled w' = (Ok tt, w2) ∧
      (WhitelistedFee h off w2).1 = Ok (i64 (fee * ExecFeeFactorMultiplier)).
Proof.
  intros Hp Hf Hlife Hc (h & name & n & md & i & Hnm & Hi) Hr.
  destruct (life_ok _ _ _ Hlife) as (c' & Hc' & Hok & _). rewrite Hc in Hc'. injection Hc' as <-.
  destruct (setWhitelist_run pe hp args w r w' c Hp Hr Hc)
    as (name' & n' & fee & h' & md' & data & i' & ok & Hw & _ & Hd & Hi' & Hnm' & (a3 & H3 & Hfee) & Hs & Hc').
  destruct (names_det _ _ _ _ _ _ _ _ _ _ _ Hnm Hnm') as [-> ->]. rewrite Hi in Hi'. injection Hi' as <- <-.
  exists h, (md_Offset md), fee, a3. do 3 (split; [done|]).
  split; [by rewrite (WhitelistedFee_run _ _ w' c), (WhitelistedFee_run _ _ w c)|].
  pose proof (relisted _ (mkWFC h name' n' fee) (md_Offset md) data c (pw_store w) i Hok Hw Hd Hi) as Hre.
  cbn [wf_Hash] in Hre. rewrite <- Hs in Hre. set (c2 := set_whitelistedContracts _ c) in Hre.
  exists (mkPW (pw_tokens w') (pw_store w') (Some c2)). split.
  { apply restart_cache. rewrite Hf. apply Hre. }
  rewrite (WhitelistedFee_run _ _ _ c2) by done.
  assert (length h = Uint160Size) as Hh by apply Hw.
  pose proof (find_whitelisted_keys _ _ _ h (md_Offset md) Hok Hh) as Hf1.
  pose proof (find_whitelisted_keys _ _ _ h (md_Offset md) Hre Hh) as Hf2.
  destruct (listed_keys _ _ _ Hok) as [Hk1 _]. destruct (listed_keys _ _ _ Hre) as [Hk2 _].
  rewrite Hf1 in Hi. pose proof Hi as Hat. apply search_keys in Hat as (_ & _ & Hat); [|apply policy_Seek_sorted].
  assert (map fst (policy_Seek whitelistedFeeContractPrefix (pw_store w')) =
    map fst (policy_Seek whitelistedFeeContractPrefix (pw_store w))) as Hkk.
  { rewrite <- Hk2. rewrite <- Hk1 in Hat |- *. unfold c2. cbn [pc_whitelistedContracts set_whitelistedContracts].
    change (wl_key <$> <[i := mkWC (mkWFC h name' n' fee) (u32 (md_Offset md))]> (pc_whitelistedContracts c) =
      wl_key <$> pc_whitelistedContracts c). rewrite list_fmap_insert. by apply list_insert_id. }
  rewrite Hf2, Hkk, Hi. unfold c2. cbn [pc_whitelistedContracts set_whitelistedContracts].
  rewrite list_lookup_insert_eq; [done|]. rewrite <- Hk1 in Hat. apply lookup_lt_Some in Hat. by rewrite length_map in Hat.
Qed.

(** *** Accounts blocked during the revocation of a vote *)

(** After its only call the revocation is done. *)
Lemma revoke_calls h t pay t1 k :
  RevokeVotesDeferrable (pe_ic pe) (pe_NEO pe) (pe_GAS pe) h (Returned tt) (λ _, Returned tt) t = Calling pay t1 k →
  ∀ t2, k t2 = Returned tt t2.
Proof.
  unfold RevokeVotesDeferrable, voteInternalUncheckedDeferrable. destruct (voteInternal _ _ _ _ t) as [[[g|]| |] t0]; [|done..].
  unfold gas_MintDeferrable, MintDeferrable. case_bool_decide; [done|]. unfold do_ at 1.
  destruct (addTokens _ _ _ _) as [[d| |] t3]; [|done..]. unfold postTransfer, do_.
  destruct (emitTransfer _ _ _ _ _ _) as [[u| |] t4]; [|done..]. destruct (w_contracts t4 !! h) as [acc|]; [|done].
  destruct (NewBigInteger g); [|done..]. destruct acc; [|done]. by intros [= _ _ <-].
Qed.

Lemma BlockAccount_embeds h w c i :
  faun pe = true → pw_cache w = Some c → isBlockedInternal c h = (i, false) →
  BlockAccountInternalDeferrable pe h PReturned w =
  embed (RevokeVotesDeferrable (pe_ic pe) (pe_NEO pe) (pe_GAS pe) h (Returned tt) (λ _, Returned tt) (pw_tokens w))
    (pw_store w) (pw_cache w) (λ _, pdo_ (block_at pe h i) (λ _, PReturned true)).
Proof.
  intros Hf Hc Hi. assert (GetROCache w = (Ok c, w)) as Hg by (unfold GetROCache; by rewrite Hc).
  unfold BlockAccountInternalDeferrable, pdo_ at 1. by rewrite Hg, Hi, Hf.
Qed.

(** C12: an account is put in the cache at the index found before its vote was
    revoked.  If the revocation pays a contract and this has a smaller account
    blocked before it returns, both are stored as blocked, but the cache is out
    of order and no longer finds the smaller one: it is blocked only on nodes
    that restart. *)
Theorem nested_block_forgets e w c a b pay t k w1 :
  faun pe = true → pw_cache w = Some c → restores e true (pw_store w) c → pc_blockedAccounts c = [] →
  length a = Uint160Size → length b = Uint160Size → bcompare a b = Lt →
  RevokeVotesDeferrable (pe_ic pe) (pe_NEO pe) (pe_GAS pe) b (Returned tt) (λ _, Returned tt) (pw_tokens w) = Calling pay t k →
  runs policy_same (BlockAccountInternalDeferrable pe a PReturned (mkPW t (pw_store w) (pw_cache w))) true w1 →
  ∃ w', runs (λ _ w2, w2 = w1) (BlockAccountInternalDeferrable pe b PReturned w) true w' ∧
    is_Some (pw_store w' !! makeBlockedAccountKey a) ∧ is_Some (pw_store w' !! makeBlockedAccountKey b) ∧
    IsBlocked a w' = false ∧ IsBlocked a (mkPW (pw_tokens w') (pw_store w') None) = true.
Proof.
  intros Hf Hc Hr Hl Ha Hb Hab Hcall Hrun.
  assert (∀ h, isBlockedInternal c h = (0%nat, false)) as Hnone by (intros h; unfold isBlockedInternal; by rewrite Hl).
  assert (∃ v c1, pw_store w1 = <[makeBlockedAccountKey a := v]> (pw_store w) ∧ pw_cache w1 = Some c1 ∧
    pc_blockedAccounts c1 = [a]) as (v & c1 & Hs1 & Hc1 & Hl1).
  { rewrite (BlockAccount_embeds a _ c 0) in Hrun by done. apply embed_runs in Hrun as (u & t' & Hrun).
    unfold pdo_ in Hrun. destruct (block_at pe a 0 _) as [[x| |] w2] eqn:Hblk; [|by inversion Hrun..].
    inversion Hrun; subst. cbn [pw_store pw_cache] in Hblk.
    apply prun_ok in Hblk as (? & w3 & [= _ <-] & Hblk). apply prun_ok in Hblk as (c0 & ? & [Hc0 ->]%cache_ok & Hblk).
    cbn in Hc0. rewrite Hc in Hc0. injection Hc0 as <-.
    apply prun_ok in Hblk as (c' & w4 & [->%insert_blocked_ok ->]%plift_ok & [= _ <-]).
    do 2 eexists. split; [done|]. split; [done|]. cbn. by rewrite Hl. }
  rewrite (BlockAccount_embeds b w c 0), Hcall by done. cbn [embed].
  set (v' := if faun pe then ToBytes (u64 (pe_time pe)) else []).
  exists (mkPW (pw_tokens w1) (<[makeBlockedAccountKey b := v']> (pw_store w1))
    (Some (set_blockedAccounts [b; a] c1))).
  assert (makeBlockedAccountKey b ≠ makeBlockedAccountKey a) as Hne.
  { intros [= ->]. by rewrite bcompare_refl in Hab. }
  split.
  - eapply runs_calling; [done|]. rewrite (revoke_calls _ _ _ _ _ Hcall). cbn [embed].
    unfold pdo_, block_at, mbind, PolicyM_bind, policy_PutStorageItem, GetROCache. cbn [pw_cache pw_store pw_tokens].
    rewrite Hc1. unfold insert_blocked. rewrite Hl1. cbn. apply runs_returned.
  - cbn. rewrite lookup_insert_ne, lookup_insert_eq, Hs1, lookup_insert_eq by done.
    split; [done|]. split; [done|].
    assert (bcompare b a = Gt) as Hba by by rewrite bcompare_antisym, Hab.
    split.
    + unfold IsBlocked, isBlockedInternal, BinarySearchFunc. cbn. rewrite bcompare_refl, !Hba.
      repeat rewrite bool_decide_eq_true_2 by lia. cbn. by rewrite Hba.
    + by apply bool_decide_eq_true_2.
Qed.

End handlers.

(** ** Examples *)

Section example.
#[local] Existing Instance toy_Digest.

Lemma run_pair {A B} (r : res nerr A * B) a : r.1 = Ok a → r = (Ok a, r.2).
Proof. destruct r. by intros [= ->]. Qed.

Definition ex_policy_ctx : Context :=
  mkCtx (Some (mkBlk 5 0 [])) 4 false {[HFFaun := 0]} true (ex_env (ex_hash 9)) ex_cfg (λ _, false) (λ _, 0) (-1) false false.
Definition ex_method : bytes := [x66].
(** [ex_b] is a contract with one method. *)
Definition ex_pe : PolicyEnv :=
  mkPE ex_policy_ctx (ex_hash 7) ex_nh ex_gh (ex_hash 8) [ex_nh; ex_gh] 1000
    {[ex_b := mkContract [mkMethod ex_method 1 7] []]} false 5760 5760 15000 2102400.
(** It has all NEO; the committee signs. *)
Definition ex_tokens : World :=
  mkWorld ∅ (<[makeAccountKey ex_b := ex_record]> (<[totalSupplyKey := ToBytes NEOTotalSupply]> {[votersCountKey := []]}))
    (mkCache [(0, 5 * GASFactor)] 0 false [] None [] [] (ex_hash 9) [] ∅) [] 0 {[ex_b := true]}.

Definition ex_genesis : PolicyWorld := (Policy_Initialize ex_pe None (mkPW ex_tokens ∅ None)).2.
Definition ex_echidna : PolicyWorld := (Policy_Initialize ex_pe (Some HFEchidna) ex_genesis).2.
Definition ex_faun : PolicyWorld := (Policy_Initialize ex_pe (Some HFFaun) ex_echidna).2.

Lemma ex_life : life true true ex_faun.
Proof.
  apply (lf_faun ex_pe true ex_echidna tt); [|apply run_pair; vm_compute; reflexivity].
  apply (lf_echidna ex_pe false ex_genesis tt); [|by split|apply run_pair; vm_compute; reflexivity].
  apply (lf_genesis ex_pe (mkPW ex_tokens ∅ None) tt); [|apply run_pair; vm_compute; reflexivity].
  intros p k _. apply lookup_empty.
Qed.

Lemma ex_parameters : parameters_ok ex_pe.
Proof.
  intros h cs md Hh. cbn [pe_contracts ex_pe] in Hh. apply lookup_singleton_Some in Hh as [<- <-]. intros [->|Hmd]%elem_of_cons; [done|]. by apply elem_of_nil in Hmd.
Qed.

(** [ex_a] is blocked. *)
Definition ex_block (h : bytes) (w : PolicyWorld) : PolicyWorld :=
  match BlockAccountInternalDeferrable ex_pe h PReturned w with PReturned _ w' => w' | _ => w end.
Definition ex_blocked : PolicyWorld := ex_block ex_a ex_faun.

Lemma ex_block_runs (callee : PolicyWorld → PolicyWorld → Prop) w :
  match BlockAccountInternalDeferrable ex_pe ex_a PReturned w with PReturned true _ => true | _ => false end = true →
  runs callee (BlockAccountInternalDeferrable ex_pe ex_a PReturned w) true (ex_block ex_a w).
Proof.
  unfold ex_block. destruct (BlockAccountInternalDeferrable _ _ _ _) as [[] ?| | |]; try done. intros _. constructor.
Qed.

Lemma ex_life_blocked : life true true ex_blocked.
Proof.
  apply (lf_step ex_pe true true ex_faun); [apply ex_life|by vm_compute|apply ex_parameters|].
  apply (ps_block _ _ _ _ ex_a true); [done|]. apply ex_block_runs. vm_compute. reflexivity.
Qed.


Definition ex_traceable : list item := [Integer 100000].
Definition ex_shorter : PolicyWorld := (setMaxTraceableBlocks ex_pe ex_traceable ex_blocked).2.

Lemma limits_kept_witness : ∃ c c', pw_cache ex_blocked = Some c ∧ pw_cache ex_shorter = Some c' ∧
  limits true true c ∧ limits true true c' ∧ pc_maxTraceableBlocks c' <= pc_maxTraceableBlocks c.
Proof.
  apply (limits_kept ex_pe); [apply ex_life_blocked|by vm_compute|apply ex_parameters|].
  apply (ps_mtb _ _ _ _ ex_traceable Null); [done|]. unfold ex_shorter. apply run_pair. vm_compute. reflexivity.
Defined.

Definition ex_signed (h : bytes) : Transaction :=
  mkTx 0 0 0 0 0 [x40] [] [mkSigner h 0 [] [] []] [] 0 [] false false.

Lemma blocked_exact_witness :
  IsBlocked ex_a ex_blocked = true ∧ CheckPolicy (ex_signed ex_b) ex_blocked = (Ok tt, ex_blocked) ∧
  CheckPolicy (ex_signed ex_a) ex_blocked ≠ (Ok tt, ex_blocked).
Proof.
  destruct (life_ok _ _ _ ex_life_blocked) as (c & Hc & Hok & _).
  destruct (blocked_exact true true ex_blocked c ex_a (ex_signed ex_a) Hc (po_restores _ _ _ _ Hok)) as (Hb & _ & Ha).
  destruct (blocked_exact true true ex_blocked c ex_b (ex_signed ex_b) Hc (po_restores _ _ _ _ Hok)) as (_ & _ & Hbb).
  split; [by rewrite Hb; vm_compute|]. split.
  - apply Hbb. cbn [t_Signers ex_signed]. apply Forall_cons_2; [vm_compute; reflexivity|constructor].
  - intros Hn. apply Ha in Hn. cbn [t_Signers ex_signed] in Hn. apply Forall_cons_1 in Hn as [Hn _]. revert Hn. vm_compute. discriminate.
Defined.

(** The fee of the method is set to 7, then to 9. *)
Definition ex_fee (n : Z) : list item := [ByteArray ex_b; ByteArray ex_method; Integer 1; Integer n].
Definition ex_fee7 : PolicyWorld := (setWhitelistFeeContract ex_pe emptyHeap (ex_fee 7) ex_faun).2.
Definition ex_fee9 : PolicyWorld := (setWhitelistFeeContract ex_pe emptyHeap (ex_fee 9) ex_fee7).2.

Lemma ex_names n : names ex_pe emptyHeap (ex_fee n) ex_b ex_method 1 (mkMethod ex_method 1 7).
Proof. by exists (ByteArray ex_b), (ByteArray ex_method), (Integer 1), (mkContract [mkMethod ex_method 1 7] []). Qed.

Lemma ex_life_fee7 : life true true ex_fee7.
Proof.
  apply (lf_step ex_pe true true ex_faun); [apply ex_life|by vm_compute|apply ex_parameters|].
  apply (ps_list _ _ _ _ emptyHeap (ex_fee 7) Null); [done|unfold ex_fee7; apply run_pair; vm_compute; reflexivity|].
  intros c Hc (h & name & n & md & i & Hn & Hi). destruct (names_det _ _ _ _ _ _ _ _ _ _ _ (ex_names 7) Hn) as [-> ->].
  revert Hi. replace c with (default c (pw_cache ex_faun)) by by rewrite Hc. vm_compute. discriminate.
Qed.

Lemma new_fee_lost_witness :
  ∃ w2, Policy_InitializeCache (λ _, true) ex_fee9 = (Ok tt, w2) ∧
    (WhitelistedFee ex_b 7 ex_fee9).1 = Ok (7 * 10000) ∧ (WhitelistedFee ex_b 7 w2).1 = Ok (9 * 10000).
Proof.
  destruct (pw_cache ex_fee7) as [c|] eqn:Hc; [|vm_compute in Hc; discriminate Hc].
  assert (lists ex_pe emptyHeap (ex_fee 9) c) as Hl.
  { exists ex_b, ex_method, 1, (mkMethod ex_method 1 7), 0%nat. split; [apply ex_names|].
    replace c with (default c (pw_cache ex_fee7)) by by rewrite Hc. vm_compute. reflexivity. }
  destruct (new_fee_lost ex_pe (λ _, true) emptyHeap (ex_fee 9) ex_fee7 Null ex_fee9 c ex_parameters eq_refl ex_life_fee7 Hc Hl)
    as (h & off & fee & a3 & H3 & Hfee & _ & _ & w2 & Hw2 & Hnew); [unfold ex_fee9; apply run_pair; vm_compute; reflexivity|].
  exists w2. split; [exact Hw2|]. split; [vm_compute; reflexivity|].
  assert (w2 = (Policy_InitializeCache (λ _, true) ex_fee9).2) as -> by by rewrite Hw2. vm_compute. reflexivity.
Defined.

Lemma calling_of {A} (p : proc A) : match p with Calling _ _ _ => true | _ => false end = true → ∃ pay t k, p = Calling pay t k.
Proof. destruct p as [| |pay t k]; [done..|]. by exists pay, t, k. Qed.

(** [ex_b] is blocked; while its vote is revoked it has [ex_a] blocked. *)
Lemma nested_block_forgets_witness : ∃ w',
  IsBlocked ex_a w' = false ∧ IsBlocked ex_a (mkPW (pw_tokens w') (pw_store w') None) = true.
Proof.
  destruct (life_ok _ _ _ ex_life) as (c & Hc & Hok & _).
  destruct (calling_of (RevokeVotesDeferrable (pe_ic ex_pe) (pe_NEO ex_pe) (pe_GAS ex_pe) ex_b (Returned tt) (λ _, Returned tt)
    (pw_tokens ex_faun))) as (pay & t & k & Hr); [vm_compute; reflexivity|].
  assert (pc_blockedAccounts c = []) as Hl.
  { replace c with (default c (pw_cache ex_faun)) by by rewrite Hc. vm_compute. reflexivity. }
  assert (faun ex_pe = true) as Hf by (vm_compute; reflexivity).
  assert (runs policy_same (BlockAccountInternalDeferrable ex_pe ex_a PReturned (mkPW t (pw_store ex_faun) (pw_cache ex_faun))) true
    (ex_block ex_a (mkPW t (pw_store ex_faun) (pw_cache ex_faun)))) as Hrun.
  { apply ex_block_runs.
    assert (t = match RevokeVotesDeferrable (pe_ic ex_pe) (pe_NEO ex_pe) (pe_GAS ex_pe) ex_b (Returned tt) (λ _, Returned tt)
      (pw_tokens ex_faun) with Calling _ t _ => t | _ => t end) as -> by by rewrite Hr.
    vm_compute. reflexivity. }
  destruct (nested_block_forgets ex_pe true ex_faun c ex_a ex_b pay t k _ Hf Hc (po_restores _ _ _ _ Hok) Hl
    eq_refl eq_refl eq_refl Hr Hrun) as (w' & _ & _ & _ & H1 & H2).
  exists w'. split; [exact H1|exact H2].
Defined.

End example.
