(* ===== verification/VM.v ===== *)
(** * VM: the virtual machine

    Models [pkg/vm]: [stack.go], [slot.go], [exception.go], [context.go] and
    [vm.go].  A Go function that changes the machine and may panic is an action
    of the monad [M]; a panic ends the action ([None]) and [execute] turns it
    into the FAULT state, as its deferred recover does.  Stacks and script
    contexts, which the code shares through pointers, live in stores
    ([v_stacks], [v_scs]) and are referred to by their keys; compound items
    live in the heap of [StackItem.v].

    The environment of a machine ([Env]) holds what it is configured with: the
    price function, the hardfork switch, the system call and method token
    handlers, the callbacks of contexts and the script hash function. *)

From Stdlib Require Import Zpow_facts.
From stdpp Require Import pretty strings.
From S2P Require Import Prelude Bigint StackItem RefCount Script.

Definition MaxInvocationStackSize : Z := 1024.
Definition MaxTryNestingDepth : Z := 16.
Definition MaxStackSize : Z := 2 * 1024.
Definition maxSHLArg : Z := MaxBigIntegerSizeBits.
Definition ExecFeeFactorMultiplier : Z := 10000.

(** ** Data *)

(** [vmstate.State]: a set of flags. *)
Definition VNone : Z := 0.
Definition VHalt : Z := 1.
Definition VFault : Z := 2.
Definition VBreak : Z := 4.
Definition HasFlag (s f : Z) : bool := negb (bool_decide (Z.land s f = 0)).

(** A slot is a slice of possibly nil items; [None] is the nil slice. *)
Abbreviation Slot := (option (list (option item))).

Inductive exstate := eTry | eCatch | eFinally.

#[export] Instance exstate_eq_dec : EqDecision exstate.
Proof. solve_decision. Defined.

Record exctx := mkEx {
  CatchOffset : Z;
  FinallyOffset : Z;
  EndOffset : Z;
  State : exstate;
}.

Definition newExceptionHandlingContext (cOffset fOffset : Z) : exctx :=
  mkEx cOffset fOffset (-1) eTry.
Definition HasCatch (c : exctx) : bool := bool_decide (0 <= CatchOffset c).
Definition HasFinally (c : exctx) : bool := bool_decide (0 <= FinallyOffset c).

Abbreviation sid := positive.

Inductive unloadCb := DynamicOnUnload | OnUnload (id : nat).

(** The part of a context that contexts of one script share. *)
Record scriptContext := mkSC {
  sc_prog : bytes;
  sc_breakPoints : list Z;
  sc_estack : sid;
  sc_static : Slot;
  sc_scriptHash : bytes;
  sc_callingScriptHash : bytes;
  sc_callingContext : option sid;
  sc_callFlag : Z;
  sc_deployed : bool;
  sc_onUnload : option unloadCb;
  sc_onUnloaded : option nat;
  sc_whitelisted : bool;
}.

Record frame := mkFrame {
  f_ctx : Context;
  f_sc : sid;
  f_local : Slot;
  f_args : Slot;
  f_try : list exctx;
  f_ret : Z;
}.

Record VM := mkVM {
  v_state : Z;
  v_istack : list frame;
  v_estack : sid;
  v_uncaught : option item;
  v_refs : Z;
  v_gas : Z;
  v_gasLimit : Z;
  v_heap : Heap;
  v_stacks : gmap sid (list item);
  v_scs : gmap sid scriptContext;
  v_next : sid;
}.

(** ** The monad *)

Definition M (A : Type) : Type := VM → VM * option A.

#[export] Instance M_ret : MRet M := λ A a v, (v, Some a).
#[export] Instance M_bind : MBind M := λ A B f m v,
  match m v with (v, Some a) => f a v | (v, None) => (v, None) end.

Definition panic {A} : M A := λ v, (v, None).
Definition gets {A} (f : VM → A) : M A := λ v, (v, Some (f v)).
Definition modify (f : VM → VM) : M unit := λ v, (f v, Some tt).

(** A library call whose errors the caller turns into a panic. *)
Definition lift {E A} (r : res E A) : M A := match r with Ok a => mret a | _ => panic end.
Definition lift_opt {A} (r : option A) : M A := match r with Some a => mret a | None => panic end.
Definition require (b : bool) : M unit := if b then mret tt else panic.

Definition set_state (s : Z) (v : VM) : VM :=
  mkVM s (v_istack v) (v_estack v) (v_uncaught v) (v_refs v) (v_gas v) (v_gasLimit v)
    (v_heap v) (v_stacks v) (v_scs v) (v_next v).
Definition set_istack (l : list frame) (v : VM) : VM :=
  mkVM (v_state v) l (v_estack v) (v_uncaught v) (v_refs v) (v_gas v) (v_gasLimit v)
    (v_heap v) (v_stacks v) (v_scs v) (v_next v).
Definition set_estack (s : sid) (v : VM) : VM :=
  mkVM (v_state v) (v_istack v) s (v_uncaught v) (v_refs v) (v_gas v) (v_gasLimit v)
    (v_heap v) (v_stacks v) (v_scs v) (v_next v).
Definition set_uncaught (i : option item) (v : VM) : VM :=
  mkVM (v_state v) (v_istack v) (v_estack v) i (v_refs v) (v_gas v) (v_gasLimit v)
    (v_heap v) (v_stacks v) (v_scs v) (v_next v).
Definition set_gas (g : Z) (v : VM) : VM :=
  mkVM (v_state v) (v_istack v) (v_estack v) (v_uncaught v) (v_refs v) g (v_gasLimit v)
    (v_heap v) (v_stacks v) (v_scs v) (v_next v).
Definition set_gasLimit (g : Z) (v : VM) : VM :=
  mkVM (v_state v) (v_istack v) (v_estack v) (v_uncaught v) (v_refs v) (v_gas v) g
    (v_heap v) (v_stacks v) (v_scs v) (v_next v).
Definition set_heap_refs (h : Heap) (r : Z) (v : VM) : VM :=
  mkVM (v_state v) (v_istack v) (v_estack v) (v_uncaught v) r (v_gas v) (v_gasLimit v)
    h (v_stacks v) (v_scs v) (v_next v).
Definition set_heap (h : Heap) (v : VM) : VM := set_heap_refs h (v_refs v) v.
Definition set_refs (r : Z) (v : VM) : VM := set_heap_refs (v_heap v) r v.
Definition set_stack (s : sid) (l : list item) (v : VM) : VM :=
  mkVM (v_state v) (v_istack v) (v_estack v) (v_uncaught v) (v_refs v) (v_gas v) (v_gasLimit v)
    (v_heap v) (<[s := l]> (v_stacks v)) (v_scs v) (v_next v).
Definition set_sc (s : sid) (c : scriptContext) (v : VM) : VM :=
  mkVM (v_state v) (v_istack v) (v_estack v) (v_uncaught v) (v_refs v) (v_gas v) (v_gasLimit v)
    (v_heap v) (v_stacks v) (<[s := c]> (v_scs v)) (v_next v).
Definition set_next (n : sid) (v : VM) : VM :=
  mkVM (v_state v) (v_istack v) (v_estack v) (v_uncaught v) (v_refs v) (v_gas v) (v_gasLimit v)
    (v_heap v) (v_stacks v) (v_scs v) n.

(** An operation of [stackitem] that needs the heap, or changes it. *)
Definition with_heap {E A} (f : Heap → res E A) : M A := λ v,
  match f (v_heap v) with Ok a => (v, Some a) | _ => (v, None) end.
Definition on_heap {E A} (f : Heap → res E (A * Heap)) : M A := λ v,
  match f (v_heap v) with Ok (a, h) => (set_heap h v, Some a) | _ => (v, None) end.
Definition upd_heap {E} (f : Heap → res E Heap) : M unit := λ v,
  match f (v_heap v) with Ok h => (set_heap h v, Some tt) | _ => (v, None) end.
Definition alloc (c : cell) : M loc := on_heap (E := sierr) (λ h, Ok (h_alloc h c)).

(** ** The reference counter of the machine *)

Definition refs_Add (i : item) : M unit := λ v,
  match rc_Add (rc_fuel (v_heap v)) i (v_heap v, v_refs v) with
  | Some (h, r) => (set_heap_refs h r v, Some tt)
  | None => (v, None)
  end.

Definition refs_Remove (i : item) : M unit := λ v,
  match rc_Remove (rc_fuel (v_heap v)) i (v_heap v, v_refs v) with
  | Some (h, r) => (set_heap_refs h r v, Some tt)
  | None => (v, None)
  end.

Definition refs_shift (n : Z) : M unit := modify (λ v, set_refs (v_refs v + n) v).

(** Run an action for each element of a list. *)
Fixpoint each {A} (f : A → M unit) (l : list A) : M unit :=
  match l with [] => mret tt | x :: t => f x ;; each f t end.

(** [IncRC], [DecRC] and [IsReferenced] of a compound item. *)
Definition shift_rc (l : loc) (n : Z) : M unit := λ v,
  match h_get (v_heap v) l with
  | Some c =>
      match cell_rc c with
      | Some rc => (set_heap (h_set (v_heap v) l (set_rc c (rc + n))) v, Some tt)
      | None => (v, None)
      end
  | None => (v, None)
  end.
Definition IncRC (l : loc) : M unit := shift_rc l 1.
Definition DecRC (l : loc) : M unit := shift_rc l (-1).
Definition is_referenced (l : loc) : M bool := λ v,
  match h_get (v_heap v) l with Some c => (v, Some (IsReferenced c)) | None => (v, None) end.

(** ** stack.go

    The evaluation stack in use, its top element first. *)

Definition cur_stack : M (list item) := λ v, (v, v_stacks v !! v_estack v).
Definition put_stack (l : list item) : M unit := λ v, (set_stack (v_estack v) l v, Some tt).

Definition Len : M Z := s ← cur_stack; mret (Z.of_nat (length s)).

Definition pushNoRef (i : item) : M unit := s ← cur_stack; put_stack (i :: s).

Definition popNoRef : M item :=
  s ← cur_stack;
  match s with x :: t => put_stack t ;; mret x | [] => panic end.

Definition PushItem (i : item) : M unit := pushNoRef i ;; refs_Add i.

Definition pushItemCounted (i : item) (count : Z) : M unit :=
  pushNoRef i ;; refs_shift count.

Definition Pop : M item := i ← popNoRef; refs_Remove i ;; mret i.

(** [s.elems[len(s.elems)-n-1]]: panics out of range. *)
Definition Peek (n : Z) : M item :=
  s ← cur_stack;
  if bool_decide (n < 0) then panic else lift_opt (s !! Z.to_nat n).

Definition InsertAt (e : item) (n : nat) : M unit :=
  s ← cur_stack;
  require (bool_decide (n <= length s)%nat) ;;
  put_stack (take n s ++ e :: drop n s) ;; refs_Add e.

Definition RemoveAt (n : Z) : M item :=
  s ← cur_stack;
  if bool_decide (n < 0) then panic else
  match s !! Z.to_nat n with
  | Some e => put_stack (delete (Z.to_nat n) s) ;; refs_Remove e ;; mret e
  | None => panic
  end.

Definition Clear : M unit :=
  s ← cur_stack; each refs_Remove (rev s) ;; put_stack [].

Definition Swap (n1 n2 : Z) : M unit :=
  s ← cur_stack;
  let l := Z.of_nat (length s) in
  require (negb (bool_decide (n1 < 0) || bool_decide (n2 < 0))) ;;
  require (negb (bool_decide (l <= n1) || bool_decide (l <= n2))) ;;
  match s !! Z.to_nat n1, s !! Z.to_nat n2 with
  | Some a, Some b => put_stack (<[Z.to_nat n1 := b]> (<[Z.to_nat n2 := a]> s))
  | _, _ => panic
  end.

Definition ReverseTop (n : Z) : M unit :=
  s ← cur_stack;
  require (negb (bool_decide (n < 0) || bool_decide (Z.of_nat (length s) < n))) ;;
  if bool_decide (n <= 1) then mret tt else
  put_stack (rev (take (Z.to_nat n) s) ++ drop (Z.to_nat n) s).

Definition Roll (n : Z) : M unit :=
  s ← cur_stack;
  require (negb (bool_decide (n < 0) || bool_decide (Z.of_nat (length s) <= n))) ;;
  if bool_decide (n = 0) then mret tt else
  match s !! Z.to_nat n with
  | Some e => put_stack (e :: delete (Z.to_nat n) s)
  | None => panic
  end.

(** The typed views of an element; a failed conversion panics. *)
Definition PopBigInt : M Z := i ← Pop; lift (TryInteger i).
Definition PopBool : M bool := i ← Pop; lift (TryBool i).
Definition PopBytes : M bytes := i ← Pop; with_heap (λ h, TryBytes h i).
Definition PopString : M bytes := i ← Pop; with_heap (λ h, ToString h i).

Definition toInt (i : Z) : M Z :=
  require (IsInt64 i) ;;
  require (negb (bool_decide (i < - 2 ^ 31) || bool_decide (2 ^ 31 - 1 < i))) ;;
  mret i.

Definition PopInt : M Z := z ← PopBigInt; toInt z.

Definition PushInteger (n : Z) : M unit := i ← lift (NewBigInteger n); PushItem i.
Definition PushBool (b : bool) : M unit := PushItem (Bool b).

(** ** slot.go *)

Definition slot_init (s : Slot) (n : Z) : M Slot :=
  match s with
  | Some _ => panic
  | None => refs_shift n ;; mret (Some (replicate (Z.to_nat n) None))
  end.

Fixpoint pop_n (n : nat) : M (list item) :=
  match n with
  | O => mret []
  | S n => i ← popNoRef; t ← pop_n n; mret (i :: t)
  end.

Definition initFromStack (s : Slot) (n : Z) : M Slot :=
  match s with
  | Some _ => panic
  | None => l ← pop_n (Z.to_nat n); mret (Some (Some <$> l))
  end.

(** A nil item counts as [Null]. *)
Definition slot_item (i : option item) : item := default Null i.

Definition slot_store (s : Slot) (i : Z) : M Slot :=
  match s with
  | None => panic
  | Some l =>
      require (negb (bool_decide (i < 0) || bool_decide (Z.of_nat (length l) <= i))) ;;
      item ← popNoRef;
      old ← lift_opt (l !! Z.to_nat i);
      refs_Remove (slot_item old) ;;
      mret (Some (<[Z.to_nat i := Some item]> l))
  end.

Definition slot_Get (s : Slot) (i : Z) : M item :=
  match s with
  | None => panic
  | Some l => if bool_decide (i < 0) then panic else
      x ← lift_opt (l !! Z.to_nat i); mret (slot_item x)
  end.

Definition clearRefs (s : Slot) : M unit :=
  match s with None => mret tt | Some l => each (λ i, refs_Remove (slot_item i)) l end.

(** ** Prices (core/fee/opcode.go, core/interop/gas_price.go) *)

Definition coefficients (op : Opcode) : Z :=
  match op with
  | PUSHINT8 | PUSHINT16 | PUSHINT32 | PUSHINT64 => Z.shiftl 1 0
  | PUSHINT128 | PUSHINT256 => Z.shiftl 1 2
  | PUSHT | PUSHF => Z.shiftl 1 0
  | PUSHA => Z.shiftl 1 2
  | PUSHNULL => Z.shiftl 1 0
  | PUSHDATA1 => Z.shiftl 1 3
  | PUSHDATA2 => Z.shiftl 1 9
  | PUSHDATA4 => Z.shiftl 1 12
  | PUSHM1 | PUSH0 | PUSH1 | PUSH2 | PUSH3 | PUSH4 | PUSH5 | PUSH6 | PUSH7 | PUSH8 | PUSH9 | PUSH10
  | PUSH11 | PUSH12 | PUSH13 | PUSH14 | PUSH15 | PUSH16 | NOP => Z.shiftl 1 0
  | JMP | JMPL | JMPIF | JMPIFL | JMPIFNOT | JMPIFNOTL | JMPEQ | JMPEQL | JMPNE | JMPNEL | JMPGT | JMPGTL
  | JMPGE | JMPGEL | JMPLT | JMPLTL | JMPLE | JMPLEL => Z.shiftl 1 1
  | CALL | CALLL | CALLA => Z.shiftl 1 9
  | CALLT => Z.shiftl 1 15
  | ABORT => 0
  | ASSERT => Z.shiftl 1 0
  | ABORTMSG => 0
  | ASSERTMSG => Z.shiftl 1 0
  | THROW => Z.shiftl 1 9
  | TRY | TRYL | ENDTRY | ENDTRYL | ENDFINALLY => Z.shiftl 1 2
  | RET | SYSCALL => 0
  | DEPTH | DROP | NIP => Z.shiftl 1 1
  | XDROP | CLEAR => Z.shiftl 1 4
  | DUP | OVER | PICK | TUCK | SWAP | ROT => Z.shiftl 1 1
  | ROLL => Z.shiftl 1 4
  | REVERSE3 | REVERSE4 => Z.shiftl 1 1
  | REVERSEN | INITSSLOT => Z.shiftl 1 4
  | INITSLOT => Z.shiftl 1 6
  | LDSFLD0 | LDSFLD1 | LDSFLD2 | LDSFLD3 | LDSFLD4 | LDSFLD5 | LDSFLD6 | LDSFLD | STSFLD0 | STSFLD1
  | STSFLD2 | STSFLD3 | STSFLD4 | STSFLD5 | STSFLD6 | STSFLD | LDLOC0 | LDLOC1 | LDLOC2 | LDLOC3 | LDLOC4
  | LDLOC5 | LDLOC6 | LDLOC | STLOC0 | STLOC1 | STLOC2 | STLOC3 | STLOC4 | STLOC5 | STLOC6 | STLOC | LDARG0
  | LDARG1 | LDARG2 | LDARG3 | LDARG4 | LDARG5 | LDARG6 | LDARG | STARG0 | STARG1 | STARG2 | STARG3
  | STARG4 | STARG5 | STARG6 | STARG => Z.shiftl 1 1
  | NEWBUFFER => Z.shiftl 1 8
  | MEMCPY | CAT | SUBSTR | LEFT | RIGHT => Z.shiftl 1 11
  | INVERT => Z.shiftl 1 2
  | AND | OR | XOR => Z.shiftl 1 3
  | EQUAL | NOTEQUAL => Z.shiftl 1 5
  | SIGN | ABS | NEGATE | INC | DEC => Z.shiftl 1 2
  | ADD | SUB | MUL | DIV | MOD => Z.shiftl 1 3
  | POW | SQRT => Z.shiftl 1 6
  | MODMUL => Z.shiftl 1 5
  | MODPOW => Z.shiftl 1 11
  | SHL | SHR => Z.shiftl 1 3
  | NOT => Z.shiftl 1 2
  | BOOLAND | BOOLOR => Z.shiftl 1 3
  | NZ => Z.shiftl 1 2
  | NUMEQUAL | NUMNOTEQUAL | LT | LE | GT | GE | MIN | MAX | WITHIN => Z.shiftl 1 3
  | PACKMAP | PACKSTRUCT | PACK | UNPACK => Z.shiftl 1 11
  | NEWARRAY0 => Z.shiftl 1 4
  | NEWARRAY | NEWARRAYT => Z.shiftl 1 9
  | NEWSTRUCT0 => Z.shiftl 1 4
  | NEWSTRUCT => Z.shiftl 1 9
  | NEWMAP => Z.shiftl 1 3
  | SIZE => Z.shiftl 1 2
  | HASKEY => Z.shiftl 1 6
  | KEYS => Z.shiftl 1 4
  | VALUES => Z.shiftl 1 13
  | PICKITEM => Z.shiftl 1 6
  | APPEND | SETITEM | REVERSEITEMS => Z.shiftl 1 13
  | REMOVE | CLEARITEMS | POPITEM => Z.shiftl 1 4
  | ISNULL | ISTYPE => Z.shiftl 1 1
  | CONVERT => Z.shiftl 1 13
  end.

(** [Opcode] of the fee package. *)
Definition fee_Opcode (base : Z) (opcodes : list Opcode) : Z :=
  i64 (foldl (λ result op, i64 (result + coefficients op)) 0 opcodes * base).

(** [Context.GetPrice] with the base fee of the context. *)
Definition GetPrice (baseExecFee : Z) (op : Opcode) (parameter : bytes) : Z := fee_Opcode baseExecFee [op].

(** ** Environment *)

Class Env := {
  getPrice : option (Opcode → bytes → Z);
  hfGorgon : bool;
  Hash160 : bytes → bytes;
  SyscallHandler : option (Z → M unit);
  LoadToken : option (Z → M unit);
  (** a callback that is not [DynamicOnUnload]; the flag is [commit] *)
  unload_callback : nat → frame → bool → M unit;
  unloaded_callback : nat → M unit;
  env_interop : InteropEq;
}.
#[export] Existing Instance env_interop.

Section machine.
Context `{ENV : Env}.

(** ** context.go *)

Definition top_frame : M frame := λ v, (v, head (v_istack v)).

Definition set_top (f : frame) : M unit := λ v,
  match v_istack v with
  | _ :: t => (set_istack (f :: t) v, Some tt)
  | [] => (v, None)
  end.

Definition get_sc (s : sid) : M scriptContext := λ v, (v, v_scs v !! s).

Definition zero160 : bytes := replicate 20 x00.

(** [ScriptHash]: the hash given at load time, or the hash of the script. *)
Definition ScriptHash (sc : scriptContext) : bytes :=
  if bool_decide (sc_scriptHash sc = zero160) then Hash160 (sc_prog sc) else sc_scriptHash sc.

Definition getContextScriptHash (n : Z) (v : VM) : bytes :=
  if bool_decide (Z.of_nat (length (v_istack v)) <= n) then zero160 else
  match v_istack v !! Z.to_nat n with
  | Some f => match v_scs v !! f_sc f with Some sc => ScriptHash sc | None => zero160 end
  | None => zero160
  end.

Definition GetCurrentScriptHash (v : VM) : bytes := getContextScriptHash 0 v.
Definition GetEntryScriptHash (v : VM) : bytes :=
  getContextScriptHash (Z.of_nat (length (v_istack v)) - 1) v.

Definition PushContextScriptHash (n : Z) : M unit :=
  h ← gets (getContextScriptHash n); PushItem (ByteArray h).

(** [IsCalledByEntry] of the script context [s]. *)
Definition IsCalledByEntry (v : VM) (s : sid) : bool :=
  match v_scs v !! s with
  | None => true
  | Some sc =>
      match sc_callingContext sc with
      | None => true
      | Some p =>
          match v_scs v !! p with
          | Some psc => match sc_callingContext psc with None => true | Some _ => false end
          | None => true
          end
      end
  end.

Definition atBreakPoint (v : VM) (f : frame) : bool :=
  match v_scs v !! f_sc f with
  | Some sc => bool_decide (c_nextip (f_ctx f) ∈ sc_breakPoints sc)
  | None => false
  end.

(** [DynamicOnUnload]: exactly one value or none, in which case a [Null] is
    pushed to the stack of the context that is current now. *)
Definition dynamic_on_unload (ctx : frame) (commit : bool) : M unit :=
  if commit then
    sc ← get_sc (f_sc ctx);
    old ← (λ v, (v, v_stacks v !! sc_estack sc));
    if bool_decide (length old = 0%nat) then
      cur ← top_frame;
      cursc ← get_sc (f_sc cur);
      s ← (λ v, (v, v_stacks v !! sc_estack cursc));
      modify (set_stack (sc_estack cursc) (Null :: s)) ;; refs_Add Null
    else require (negb (bool_decide (1 < length old)%nat))
  else mret tt.

Definition call_onUnload (cb : unloadCb) (ctx : frame) (commit : bool) : M unit :=
  match cb with
  | DynamicOnUnload => dynamic_on_unload ctx commit
  | OnUnload id => unload_callback id ctx commit
  end.

Definition no_exception (v : VM) : bool :=
  match v_uncaught v with None => true | Some _ => false end.

(** [unloadContext] of a context that is no longer on the invocation stack. *)
Definition unloadContext (ctx : frame) : M unit :=
  clearRefs (f_local ctx) ;;
  clearRefs (f_args ctx) ;;
  currCtx ← gets (λ v, head (v_istack v));
  if match currCtx with None => true | Some c => negb (bool_decide (f_sc ctx = f_sc c)) end then
    sc ← get_sc (f_sc ctx);
    clearRefs (sc_static sc) ;;
    match sc_onUnload sc with
    | Some cb => commit ← gets no_exception; call_onUnload cb ctx commit
    | None => mret tt
    end ;;
    match sc_onUnloaded sc with
    | Some id => ok ← gets no_exception; require ok ;; unloaded_callback id
    | None => mret tt
    end
  else mret tt.

Definition checkInvocationStackSize : M unit :=
  n ← gets (λ v, Z.of_nat (length (v_istack v)));
  require (negb (bool_decide (MaxInvocationStackSize <= n))).

(** ** Loading scripts *)

Definition fresh_sid : M sid := λ v, (set_next (Pos.succ (v_next v)) v, Some (v_next v)).

(** [subStack]: a new empty stack. *)
Definition subStack : M unit :=
  s ← fresh_sid; modify (set_stack s []) ;; modify (set_estack s).

Definition set_sc_estack (sc : scriptContext) (s : sid) : scriptContext :=
  mkSC (sc_prog sc) (sc_breakPoints sc) s (sc_static sc) (sc_scriptHash sc)
    (sc_callingScriptHash sc) (sc_callingContext sc) (sc_callFlag sc) (sc_deployed sc)
    (sc_onUnload sc) (sc_onUnloaded sc) (sc_whitelisted sc).

Definition set_sc_static (sc : scriptContext) (s : Slot) : scriptContext :=
  mkSC (sc_prog sc) (sc_breakPoints sc) (sc_estack sc) s (sc_scriptHash sc)
    (sc_callingScriptHash sc) (sc_callingContext sc) (sc_callFlag sc) (sc_deployed sc)
    (sc_onUnload sc) (sc_onUnloaded sc) (sc_whitelisted sc).

Definition loadScriptWithCallingHash (b : bytes) (deployed : bool) (caller hash : bytes)
    (f : Z) (rvcount offset : Z) (onUnload : option unloadCb) (onUnloaded : option nat)
    (whitelisted : bool) : M unit :=
  checkInvocationStackSize ;;
  parent ← gets (λ v, head (v_istack v));
  match parent with
  | Some p =>
      sc ← get_sc (f_sc p);
      e ← gets v_estack;
      modify (set_sc (f_sc p) (set_sc_estack sc e))
  | None => mret tt
  end ;;
  l ← Len;
  (if negb (bool_decide (rvcount = -1)) || negb (bool_decide (l = 0)) then subStack else mret tt) ;;
  e ← gets v_estack;
  s ← fresh_sid;
  modify (set_sc s (mkSC b [] e None hash caller (f_sc <$> parent) f deployed onUnload onUnloaded
                      whitelisted)) ;;
  fs ← gets v_istack;
  modify (set_istack (mkFrame (NewContext b offset) s None None [] rvcount :: fs)).

Definition LoadScriptWithFlags (b : bytes) (f : Z) : M unit :=
  caller ← gets GetCurrentScriptHash;
  loadScriptWithCallingHash b false caller zero160 f (-1) 0 None None false.

Definition LoadDynamicScript (b : bytes) (f : Z) : M unit :=
  caller ← gets GetCurrentScriptHash;
  loadScriptWithCallingHash b false caller zero160 f (-1) 0 (Some DynamicOnUnload) None false.

Definition LoadScriptWithHash (b hash : bytes) (f : Z) : M unit :=
  caller ← gets GetCurrentScriptHash;
  loadScriptWithCallingHash b false caller hash f 1 0 None None false.

(** ** Jumps and calls *)

(** [getJumpOffset] in the current context. *)
Definition getJumpOffset (parameter : bytes) : M Z :=
  f ← top_frame;
  r ← lift (CalcJumpOffset (f_ctx f) parameter); mret r.1.

Definition set_f_ctx (f : frame) (c : Context) : frame :=
  mkFrame c (f_sc f) (f_local f) (f_args f) (f_try f) (f_ret f).
Definition set_f_try (f : frame) (t : list exctx) : frame :=
  mkFrame (f_ctx f) (f_sc f) (f_local f) (f_args f) t (f_ret f).
Definition set_f_local (f : frame) (s : Slot) : frame :=
  mkFrame (f_ctx f) (f_sc f) s (f_args f) (f_try f) (f_ret f).
Definition set_f_args (f : frame) (s : Slot) : frame :=
  mkFrame (f_ctx f) (f_sc f) (f_local f) s (f_try f) (f_ret f).

Definition jump (pos : Z) : M unit :=
  f ← top_frame; c ← lift (Jump (f_ctx f) pos); set_top (set_f_ctx f c).

(** [call] from the current context. *)
Definition call (offset : Z) : M unit :=
  checkInvocationStackSize ;;
  f ← top_frame;
  sc ← get_sc (f_sc f);
  fs ← gets v_istack;
  modify (set_istack (mkFrame (NewContext (sc_prog sc) 0) (f_sc f) None None [] (-1) :: fs)) ;;
  jump offset.

Definition LoadNEFMethod (script : bytes) (caller hash : bytes) (f : Z) (hasReturn : bool)
    (methodOff initOff : Z) (onUnload : option unloadCb) (onUnloaded : option nat)
    (whitelisted : bool) : M unit :=
  loadScriptWithCallingHash script true caller hash f (if hasReturn then 1 else 0) methodOff
    onUnload onUnloaded whitelisted ;;
  if bool_decide (0 <= initOff) then call initOff else mret tt.

(** ** Exceptions *)

(** Handlers that cannot take an exception any more are dropped. *)
Fixpoint drop_handlers (t : list exctx) : list exctx :=
  match t with
  | [] => []
  | e :: t' =>
      if bool_decide (State e = eFinally)
         || (bool_decide (State e = eCatch) && negb (HasFinally e))
      then drop_handlers t' else t
  end.

(** The first context, from the top, with a handler left: how many contexts are
    above it and the invocation stack with the handlers dropped on the way. *)
Fixpoint find_handler (fs : list frame) : option (nat * list frame) :=
  match fs with
  | [] => None
  | f :: t =>
      let f' := set_f_try f (drop_handlers (f_try f)) in
      match f_try f' with
      | _ :: _ => Some (O, f' :: t)
      | [] => '(n, t') ← find_handler t; Some (S n, f' :: t')
      end
  end.

(** Pop a context and unload it, [n] times. *)
Fixpoint unload_n (n : nat) : M unit :=
  match n with
  | O => mret tt
  | S n =>
      ctx ← top_frame;
      modify (λ v, set_istack (tail (v_istack v)) v) ;;
      unloadContext ctx ;;
      unload_n n
  end.

Definition handleException : M unit :=
  fs ← gets v_istack;
  match find_handler fs with
  | None => panic
  | Some (n, fs') =>
      modify (set_istack fs') ;;
      unload_n n ;;
      ictx ← top_frame;
      sc ← get_sc (f_sc ictx);
      modify (set_estack (sc_estack sc)) ;;
      match f_try ictx with
      | [] => panic
      | e :: t =>
          if bool_decide (State e = eTry) && HasCatch e then
            set_top (set_f_try ictx (mkEx (CatchOffset e) (FinallyOffset e) (EndOffset e) eCatch :: t)) ;;
            i ← gets v_uncaught; i ← lift_opt i;
            PushItem i ;;
            modify (set_uncaught None) ;;
            jump (CatchOffset e)
          else
            set_top (set_f_try ictx (mkEx (CatchOffset e) (FinallyOffset e) (EndOffset e) eFinally :: t)) ;;
            jump (FinallyOffset e)
      end
  end.

Definition throw (i : item) : M unit :=
  modify (set_uncaught (Some i)) ;; handleException.

(** [ContractHasTryBlock] *)
Fixpoint has_try (s : sid) (fs : list frame) : bool :=
  match fs with
  | [] => false
  | f :: t =>
      if bool_decide (f_sc f = s) then
        existsb (λ e, bool_decide (State e = eTry)) (f_try f) || has_try s t
      else false
  end.

Definition ContractHasTryBlock (v : VM) : bool :=
  match v_istack v with [] => false | f :: _ => has_try (f_sc f) (v_istack v) end.

(** ** Instructions

    One action per group of opcodes, in the order of [execute]. *)

Definition param0 (p : bytes) : M Z := match p with b :: _ => mret (b2z b) | [] => panic end.
Definition param1 (p : bytes) : M Z := match p with _ :: b :: _ => mret (b2z b) | _ => panic end.

(** Constants and types. *)
Definition exec_push (op : Opcode) (parameter : bytes) : M unit :=
  match op with
  | PUSHINT8 | PUSHINT16 | PUSHINT32 | PUSHINT64 | PUSHINT128 | PUSHINT256 =>
      z ← lift (FromBytes (E := sierr) (Some parameter)); PushInteger z
  | PUSHM1 | PUSH0 | PUSH1 | PUSH2 | PUSH3 | PUSH4 | PUSH5 | PUSH6 | PUSH7 | PUSH8
  | PUSH9 | PUSH10 | PUSH11 | PUSH12 | PUSH13 | PUSH14 | PUSH15 | PUSH16 =>
      PushInteger (op_code op - op_code PUSH0)
  | PUSHDATA1 | PUSHDATA2 | PUSHDATA4 => PushItem (ByteArray parameter)
  | PUSHT => PushBool true
  | PUSHF => PushBool false
  | PUSHA =>
      n ← getJumpOffset parameter;
      f ← top_frame; sc ← get_sc (f_sc f);
      PushItem (Pointer n (ScriptHash sc))
  | PUSHNULL => PushItem Null
  | ISNULL => i ← Pop; PushBool (bool_decide (i = Null))
  | ISTYPE => i ← Pop; t ← param0 parameter; PushBool (bool_decide (Type_ i = t))
  | CONVERT =>
      typ ← param0 parameter;
      i ← Pop;
      r ← on_heap (λ h, Convert h i typ);
      PushItem r
  | _ => panic
  end.

(** Slots: [static], [local] and [arguments] of the current context. *)
Definition get_static : M Slot := f ← top_frame; sc ← get_sc (f_sc f); mret (sc_static sc).
Definition put_static (s : Slot) : M unit :=
  f ← top_frame; sc ← get_sc (f_sc f); modify (set_sc (f_sc f) (set_sc_static sc s)).
Definition get_local : M Slot := f ← top_frame; mret (f_local f).
Definition put_local (s : Slot) : M unit := f ← top_frame; set_top (set_f_local f s).
Definition get_args : M Slot := f ← top_frame; mret (f_args f).
Definition put_args (s : Slot) : M unit := f ← top_frame; set_top (set_f_args f s).

Definition load_slot (get : M Slot) (i : Z) : M unit :=
  s ← get; x ← slot_Get s i; PushItem x.
Definition store_slot (get : M Slot) (put : Slot → M unit) (i : Z) : M unit :=
  s ← get; s ← slot_store s i; put s.

Definition exec_slot (op : Opcode) (parameter : bytes) : M unit :=
  match op with
  | INITSSLOT =>
      n ← param0 parameter;
      require (negb (bool_decide (n = 0))) ;;
      s ← get_static; s ← slot_init s n; put_static s
  | INITSLOT =>
      f ← top_frame;
      require (match f_local f, f_args f with None, None => true | _, _ => false end) ;;
      nl ← param0 parameter; na ← param1 parameter;
      require (negb (bool_decide (nl = 0) && bool_decide (na = 0))) ;;
      (if bool_decide (0 < nl) then s ← slot_init (f_local f) nl; put_local s else mret tt) ;;
      (if bool_decide (0 < na) then s ← initFromStack (f_args f) na; put_args s else mret tt)
  | LDSFLD0 | LDSFLD1 | LDSFLD2 | LDSFLD3 | LDSFLD4 | LDSFLD5 | LDSFLD6 =>
      load_slot get_static (op_code op - op_code LDSFLD0)
  | LDSFLD => n ← param0 parameter; load_slot get_static n
  | STSFLD0 | STSFLD1 | STSFLD2 | STSFLD3 | STSFLD4 | STSFLD5 | STSFLD6 =>
      store_slot get_static put_static (op_code op - op_code STSFLD0)
  | STSFLD => n ← param0 parameter; store_slot get_static put_static n
  | LDLOC0 | LDLOC1 | LDLOC2 | LDLOC3 | LDLOC4 | LDLOC5 | LDLOC6 =>
      load_slot get_local (op_code op - op_code LDLOC0)
  | LDLOC => n ← param0 parameter; load_slot get_local n
  | STLOC0 | STLOC1 | STLOC2 | STLOC3 | STLOC4 | STLOC5 | STLOC6 =>
      store_slot get_local put_local (op_code op - op_code STLOC0)
  | STLOC => n ← param0 parameter; store_slot get_local put_local n
  | LDARG0 | LDARG1 | LDARG2 | LDARG3 | LDARG4 | LDARG5 | LDARG6 =>
      load_slot get_args (op_code op - op_code LDARG0)
  | LDARG => n ← param0 parameter; load_slot get_args n
  | STARG0 | STARG1 | STARG2 | STARG3 | STARG4 | STARG5 | STARG6 =>
      store_slot get_args put_args (op_code op - op_code STARG0)
  | STARG => n ← param0 parameter; store_slot get_args put_args n
  | _ => panic
  end.

(** Buffers. *)
Definition as_buffer (i : item) : M loc := match i with Buffer l => mret l | _ => panic end.

Definition buf_of (l : loc) : M bytes := with_heap (λ h, h_buf h l).
Definition set_buf (l : loc) (b : bytes) : M unit :=
  modify (λ v, set_heap (h_set (v_heap v) l (CBuffer b)) v).

(** [copy(dst[di:], src)] for a range that fits. *)
Definition splice (dst : bytes) (di : nat) (src : bytes) : bytes :=
  take di dst ++ src ++ drop (di + length src) dst.

Definition newBuffer (b : bytes) : M unit := l ← alloc (CBuffer b); PushItem (Buffer l).

Definition exec_splice (op : Opcode) : M unit :=
  match op with
  | NEWBUFFER =>
      n ← PopInt;
      require (negb (bool_decide (n < 0) || bool_decide (MaxSize < n))) ;;
      newBuffer (replicate (Z.to_nat n) x00)
  | MEMCPY =>
      n ← PopInt;
      require (negb (bool_decide (n < 0))) ;;
      si ← PopInt;
      require (negb (bool_decide (si < 0))) ;;
      src ← PopBytes;
      require (negb (bool_decide (si + n < 0) || bool_decide (Z.of_nat (length src) < si + n))) ;;
      di ← PopInt;
      require (negb (bool_decide (di < 0))) ;;
      i ← Pop; l ← as_buffer i;
      dst ← buf_of l;
      require (negb (bool_decide (di + n < 0) || bool_decide (Z.of_nat (length dst) < di + n))) ;;
      set_buf l (splice dst (Z.to_nat di) (take (Z.to_nat n) (drop (Z.to_nat si) src)))
  | CAT =>
      b ← PopBytes; a ← PopBytes;
      let l := Z.of_nat (length a) + Z.of_nat (length b) in
      require (negb (bool_decide (MaxSize < l))) ;;
      newBuffer (a ++ b)
  | SUBSTR =>
      l ← PopInt; require (negb (bool_decide (l < 0))) ;;
      o ← PopInt; require (negb (bool_decide (o < 0))) ;;
      s ← PopBytes;
      require (negb (bool_decide (Z.of_nat (length s) < l + o))) ;;
      newBuffer (take (Z.to_nat l) (drop (Z.to_nat o) s))
  | LEFT =>
      l ← PopInt; require (negb (bool_decide (l < 0))) ;;
      s ← PopBytes;
      require (negb (bool_decide (Z.of_nat (length s) < l))) ;;
      newBuffer (take (Z.to_nat l) s)
  | RIGHT =>
      l ← PopInt; require (negb (bool_decide (l < 0))) ;;
      s ← PopBytes;
      require (negb (bool_decide (Z.of_nat (length s) < l))) ;;
      newBuffer (drop (length s - Z.to_nat l) s)
  | _ => panic
  end.

(** Stack manipulation. *)
Definition exec_stack (op : Opcode) : M unit :=
  match op with
  | DEPTH => n ← Len; PushInteger n
  | DROP => n ← Len; require (negb (bool_decide (n < 1))) ;; Pop ;; mret tt
  | NIP => n ← Len; require (negb (bool_decide (n < 2))) ;; RemoveAt 1 ;; mret tt
  | XDROP =>
      n ← PopInt;
      require (negb (bool_decide (n < 0))) ;;
      l ← Len; require (negb (bool_decide (l < n + 1))) ;;
      RemoveAt n ;; mret tt
  | CLEAR => Clear
  | DUP => a ← Peek 0; PushItem a
  | OVER => n ← Len; require (negb (bool_decide (n < 2))) ;; a ← Peek 1; PushItem a
  | PICK =>
      n ← PopInt;
      require (negb (bool_decide (n < 0))) ;;
      l ← Len; require (negb (bool_decide (l < n + 1))) ;;
      a ← Peek n; PushItem a
  | TUCK => n ← Len; require (negb (bool_decide (n < 2))) ;; a ← Peek 0; InsertAt a 2
  | SWAP => Swap 1 0
  | ROT => Roll 2
  | ROLL => n ← PopInt; Roll n
  | REVERSE3 => ReverseTop 3
  | REVERSE4 => ReverseTop 4
  | REVERSEN => n ← PopInt; ReverseTop n
  | _ => panic
  end.

(** Bit operations and comparison. *)
Definition exec_bit (op : Opcode) : M unit :=
  match op with
  | INVERT => i ← PopBigInt; PushInteger (Z.lnot i)
  | AND => b ← PopBigInt; a ← PopBigInt; PushInteger (Z.land b a)
  | OR => b ← PopBigInt; a ← PopBigInt; PushInteger (Z.lor b a)
  | XOR => b ← PopBigInt; a ← PopBigInt; PushInteger (Z.lxor b a)
  | EQUAL | NOTEQUAL =>
      n ← Len; require (negb (bool_decide (n < 2))) ;;
      b ← Pop; a ← Pop;
      r ← with_heap (λ h, Equals h a b);
      PushBool (bool_decide (r = bool_decide (op = EQUAL)))
  | _ => panic
  end.

(** [big.Int] library functions: [Exp] with a non-zero modulus and a
    non-negative exponent, and [ModInverse], [None] for no inverse. *)
Definition big_Exp (x y m : Z) : Z := Zpow_mod x y (Z.abs m).

(** Extended Euclid: [(g, u)] with [u * a = g] modulo [b]. *)
Fixpoint egcd (fuel : nat) (a b u0 u1 : Z) : Z * Z :=
  match fuel with
  | O => (a, u0)
  | S fuel =>
      if bool_decide (b = 0) then (a, u0) else egcd fuel b (a mod b) u1 (u0 - (a / b) * u1)
  end.

Definition big_ModInverse (g n : Z) : option Z :=
  let '(d, x) := egcd (2 * Z.to_nat (Z.log2 n) + 3) (g mod n) n 1 0 in
  if bool_decide (d = 1) then Some (x mod n) else None.

Definition modpow (base exponent modulus : Z) : option Z :=
  match exponent ?= -1 with
  | Lt => None
  | Eq =>
      if bool_decide (base <= 0) then None else
      if bool_decide (modulus < 2) then None else big_ModInverse base modulus
  | Gt =>
      if bool_decide (modulus = 0) then None else
      let res := big_Exp base exponent modulus in
      Some (if bool_decide (base < 0) && Z.odd exponent && negb (bool_decide (res = 0))
            then res - Z.abs modulus else res)
  end.

(** Integer arithmetic. *)
Definition exec_arith (op : Opcode) : M unit :=
  match op with
  | SIGN => x ← PopBigInt; PushInteger (Z.sgn x)
  | ABS => x ← PopBigInt; PushInteger (Z.abs x)
  | NEGATE => x ← PopBigInt; PushInteger (- x)
  | INC => x ← PopBigInt; PushInteger (x + 1)
  | DEC => x ← PopBigInt; PushInteger (x - 1)
  | ADD => a ← PopBigInt; b ← PopBigInt; PushInteger (a + b)
  | SUB => b ← PopBigInt; a ← PopBigInt; PushInteger (a - b)
  | MUL => a ← PopBigInt; b ← PopBigInt; PushInteger (a * b)
  | DIV =>
      b ← PopBigInt; a ← PopBigInt;
      require (negb (bool_decide (b = 0))) ;; PushInteger (Z.quot a b)
  | MOD =>
      b ← PopBigInt; a ← PopBigInt;
      require (negb (bool_decide (b = 0))) ;; PushInteger (Z.rem a b)
  | POW =>
      exp ← PopBigInt; a ← PopBigInt;
      require (IsUint64 exp && negb (bool_decide (maxSHLArg < exp))) ;;
      PushInteger (a ^ exp)
  | SQRT =>
      a ← PopBigInt;
      require (negb (bool_decide (Z.sgn a = -1))) ;; PushInteger (Z.sqrt a)
  | MODMUL =>
      modulus ← PopBigInt;
      require (negb (bool_decide (modulus = 0))) ;;
      x2 ← PopBigInt; x1 ← PopBigInt;
      PushInteger (Z.rem (x1 * x2) modulus)
  | MODPOW =>
      modulus ← PopBigInt; exponent ← PopBigInt; base ← PopBigInt;
      r ← lift_opt (modpow base exponent modulus);
      PushInteger r
  | SHL | SHR =>
      b ← PopInt;
      require (negb (bool_decide (b < 0) || bool_decide (maxSHLArg < b))) ;;
      if negb hfGorgon && bool_decide (b = 0) then mret tt else
      a ← PopBigInt;
      PushInteger (if bool_decide (op = SHL) then Z.shiftl a b else Z.shiftr a b)
  | _ => panic
  end.

(** Logic and comparisons of numbers. *)
Definition exec_logic (op : Opcode) : M unit :=
  match op with
  | NOT => x ← PopBool; PushBool (negb x)
  | BOOLAND => b ← PopBool; a ← PopBool; PushBool (a && b)
  | BOOLOR => b ← PopBool; a ← PopBool; PushBool (a || b)
  | NZ => x ← PopBigInt; PushBool (negb (bool_decide (x = 0)))
  | NUMEQUAL => b ← PopBigInt; a ← PopBigInt; PushBool (bool_decide (a = b))
  | NUMNOTEQUAL => b ← PopBigInt; a ← PopBigInt; PushBool (negb (bool_decide (a = b)))
  | LT | LE | GT | GE =>
      eb ← Pop; ea ← Pop;
      if bool_decide (ea = Null) || bool_decide (eb = Null) then PushBool false else
      a ← lift (TryInteger ea); b ← lift (TryInteger eb);
      PushBool (match op with
                | LT => bool_decide (a < b)
                | LE => bool_decide (a <= b)
                | GT => bool_decide (b < a)
                | _ => bool_decide (b <= a)
                end)
  | MIN => b ← PopBigInt; a ← PopBigInt; PushInteger (if bool_decide (b < a) then b else a)
  | MAX => b ← PopBigInt; a ← PopBigInt; PushInteger (if bool_decide (a < b) then b else a)
  | WITHIN =>
      b ← PopBigInt; a ← PopBigInt; x ← PopBigInt;
      PushBool (bool_decide (a <= x) && bool_decide (x < b))
  | _ => panic
  end.
(** Compound items: reads and writes through their location. *)
Definition seq_of (l : loc) : M (list item) := with_heap (λ h, s ← h_seq h l; Ok s.1.1).
Definition map_of (l : loc) : M smap := with_heap (λ h, m ← h_map h l; Ok m.1.1).
Definition seq_ro (l : loc) : M bool := with_heap (λ h, s ← h_seq h l; Ok s.2).
Definition map_ro (l : loc) : M bool := with_heap (λ h, m ← h_map h l; Ok m.2).
(** [arr[i] = x] and the like on the slice of a sequence: no read-only check. *)
Definition set_seq (l : loc) (value : list item) : M unit :=
  upd_heap (λ h, s ← h_seq h l; Ok (h_set h l (CSeq value s.1.2 s.2))).

Definition map_index (l : loc) (key : item) : M (option nat) :=
  m ← map_of l; with_heap (λ h, Map_Index h m key).

Definition validateMapKey (key : item) : M unit := lift (IsValidMapKey key) ;; mret tt.

Definition cloneIfStruct (i : item) : M (item * bool) :=
  match i with
  | Struct l => l' ← on_heap (λ h, Clone h l); mret (Struct l', true)
  | _ => mret (i, false)
  end.

Definition makeArrayOfType (n : nat) (typ : Z) : M (list item) :=
  require (IsValid typ) ;;
  let item :=
    if bool_decide (typ = BooleanT) then Bool false
    else if bool_decide (typ = IntegerT) then Integer 0
    else if bool_decide (typ = ByteArrayT) then ByteArray []
    else Null in
  mret (replicate n item).

(** A new compound item that is referenced once, pushed with the references
    [count] it brings. *)
Definition push_counted (mk : loc → item) (c : cell) (count : Z) : M unit :=
  l ← alloc c; IncRC l ;; pushItemCounted (mk l) count.

Definition out_of_range (index : Z) : bytes :=
  String.list_byte_of_string ("The value " +:+ pretty index +:+ " is out of range.")%string.
Definition key_not_found : bytes := String.list_byte_of_string "Key not found in Map".

Definition throw_range (index : Z) : M unit := throw (ByteArray (out_of_range index)).

Definition exec_new (op : Opcode) (parameter : bytes) : M unit :=
  match op with
  | NEWARRAY0 => l ← alloc (CSeq [] 0 false); PushItem (Array l)
  | NEWSTRUCT0 => l ← alloc (CSeq [] 0 false); PushItem (Struct l)
  | NEWMAP => l ← alloc (CMap NewMap 0 false); PushItem (Map l)
  | NEWARRAY | NEWARRAYT | NEWSTRUCT =>
      n ← PopInt;
      require (negb (bool_decide (n < 0) || bool_decide (MaxStackSize < n))) ;;
      typ ← (if bool_decide (op = NEWARRAYT) then param0 parameter else mret AnyT);
      items ← makeArrayOfType (Z.to_nat n) typ;
      push_counted (if bool_decide (op = NEWSTRUCT) then Struct else Array)
        (CSeq items 0 false) (n + 1)
  | _ => panic
  end.

Definition exec_APPEND : M unit :=
  itemElem ← Pop;
  arrElem ← Pop;
  val ← cloneIfStruct itemElem;
  match arrElem with
  | Array l | Struct l =>
      isReferenced ← is_referenced l;
      upd_heap (λ h, Seq_Append h l val.1) ;;
      if isReferenced : bool then refs_Add val.1 else mret tt
  | _ => panic
  end.

Fixpoint packmap_loop (l : loc) (n : nat) : M unit :=
  match n with
  | O => mret tt
  | S n =>
      key ← popNoRef;
      val ← popNoRef;
      prev ← on_heap (λ h, Map_Add h l key val);
      match prev with
      | Some i => refs_shift (-1) ;; refs_Remove i
      | None => mret tt
      end ;;
      packmap_loop l n
  end.

Definition exec_PACKMAP : M unit :=
  n ← PopInt;
  len ← Len;
  require (negb (bool_decide (n < 0) || bool_decide (len < n * 2))) ;;
  m ← alloc (CMap NewMap 0 false);
  packmap_loop m (Z.to_nat n) ;;
  IncRC m ;;
  pushItemCounted (Map m) 1.

Definition exec_PACK (mk : loc → item) : M unit :=
  n ← PopInt;
  len ← Len;
  require (negb (bool_decide (n < 0) || bool_decide (len < n))) ;;
  items ← pop_n (Z.to_nat n);
  push_counted mk (CSeq items 0 false) 1.

(** Push the elements from the last one down. *)
Definition unpack_push (isReferenced : bool) (l : list item) : M unit :=
  each (λ i, if isReferenced then PushItem i else pushItemCounted i 0) (rev l).

Definition unpack_map_push (isReferenced : bool) (l : list (item * item)) : M unit :=
  each (λ e, if isReferenced then PushItem e.2 ;; pushItemCounted e.1 1
             else pushItemCounted e.2 0 ;; pushItemCounted e.1 0) (rev l).

Definition exec_UNPACK : M unit :=
  e ← popNoRef;
  refs_shift (-1) ;;
  l ← (match e with
       | Array l | Struct l =>
           DecRC l ;;
           isReferenced ← is_referenced l;
           arr ← seq_of l;
           unpack_push isReferenced arr ;;
           mret (length arr)
       | Map l =>
           DecRC l ;;
           isReferenced ← is_referenced l;
           m ← map_of l;
           unpack_map_push isReferenced (m_value m) ;;
           mret (Map_Len m)
       | _ => panic
       end);
  PushInteger (Z.of_nat l).

Definition exec_PICKITEM : M unit :=
  key ← Pop;
  validateMapKey key ;;
  obj ← Pop;
  match obj with
  | Array l | Struct l =>
      index ← lift (TryInteger key); index ← toInt index;
      arr ← seq_of l;
      if bool_decide (index < 0) || bool_decide (Z.of_nat (length arr) <= index)
      then throw_range index
      else i ← lift_opt (arr !! Z.to_nat index); PushItem i
  | Map l =>
      m ← map_of l;
      index ← map_index l key;
      match index with
      | None => throw (ByteArray key_not_found)
      | Some index => e ← lift_opt (m_value m !! index); PushItem e.2
      end
  | _ =>
      index ← lift (TryInteger key); index ← toInt index;
      arr ← with_heap (λ h, TryBytes h obj);
      if bool_decide (index < 0) || bool_decide (Z.of_nat (length arr) <= index)
      then throw_range index
      else b ← lift_opt (arr !! Z.to_nat index); PushInteger (b2z b)
  end.

Definition exec_SETITEM : M unit :=
  item ← popNoRef;
  c ← cloneIfStruct item;
  let '(cloned, isStruct) := c in
  (if isStruct : bool then refs_Remove item ;; refs_Add cloned else mret tt) ;;
  key ← Pop;
  validateMapKey key ;;
  obj ← Pop;
  match obj with
  | Array l | Struct l =>
      arr ← seq_of l;
      index ← lift (TryInteger key); index ← toInt index;
      if bool_decide (index < 0) || bool_decide (Z.of_nat (length arr) <= index)
      then refs_Remove cloned ;; throw_range index
      else
        ro ← seq_ro l; require (negb ro) ;;
        isReferenced ← is_referenced l;
        (if isReferenced : bool
         then old ← lift_opt (arr !! Z.to_nat index); refs_Remove old
         else refs_Remove cloned) ;;
        set_seq l (<[Z.to_nat index := cloned]> arr)
  | Map l =>
      ro ← map_ro l; require (negb ro) ;;
      isReferenced ← is_referenced l;
      (if isReferenced : bool then
         m ← map_of l;
         i ← map_index l key;
         match i with
         | Some i => e ← lift_opt (m_value m !! i); refs_Remove e.2
         | None => refs_Add key
         end
       else refs_Remove cloned) ;;
      on_heap (λ h, Map_Add h l key cloned) ;; mret tt
  | Buffer l =>
      refs_Remove cloned ;;
      index ← lift (TryInteger key); index ← toInt index;
      buf ← buf_of l;
      if bool_decide (index < 0) || bool_decide (Z.of_nat (length buf) <= index)
      then throw_range index
      else
        bi ← lift (TryInteger cloned); b ← toInt bi;
        require (negb (bool_decide (b < - 2 ^ 7) || bool_decide (2 ^ 8 - 1 < b))) ;;
        set_buf l (<[Z.to_nat index := z2b (wrap_u 8 b)]> buf)
  | _ => panic
  end.

Definition exec_REVERSEITEMS : M unit :=
  item ← Pop;
  match item with
  | Array l | Struct l =>
      ro ← seq_ro l; require (negb ro) ;;
      arr ← seq_of l; set_seq l (rev arr)
  | Buffer l => b ← buf_of l; set_buf l (rev b)
  | _ => panic
  end.

Definition exec_REMOVE : M unit :=
  key ← Pop;
  validateMapKey key ;;
  elem ← Pop;
  match elem with
  | Array l | Struct l =>
      a ← seq_of l;
      k ← lift (TryInteger key); k ← toInt k;
      require (negb (bool_decide (k < 0) || bool_decide (Z.of_nat (length a) <= k))) ;;
      isReferenced ← is_referenced l;
      (if isReferenced : bool
       then i ← lift_opt (a !! Z.to_nat k); refs_Remove i else mret tt) ;;
      upd_heap (λ h, Seq_Remove h l (Z.to_nat k))
  | Map l =>
      index ← map_index l key;
      match index with
      | Some index =>
          isReferenced ← is_referenced l;
          (if isReferenced : bool then
             m ← map_of l;
             e ← lift_opt (m_value m !! index);
             refs_Remove e.1 ;; refs_Remove e.2
           else mret tt) ;;
          upd_heap (λ h, Map_Drop h l index)
      | None => mret tt
      end
  | _ => panic
  end.

Definition exec_CLEARITEMS : M unit :=
  elem ← Pop;
  match elem with
  | Array l | Struct l =>
      ro ← seq_ro l; require (negb ro) ;;
      elems ← seq_of l;
      upd_heap (λ h, Seq_Clear h l) ;;
      isReferenced ← is_referenced l;
      if isReferenced : bool then each refs_Remove elems else mret tt
  | Map l =>
      ro ← map_ro l; require (negb ro) ;;
      m ← map_of l;
      upd_heap (λ h, Map_Clear h l) ;;
      isReferenced ← is_referenced l;
      if isReferenced : bool
      then each (λ e, refs_Remove e.1 ;; refs_Remove e.2) (m_value m) else mret tt
  | _ => panic
  end.

Definition exec_POPITEM : M unit :=
  arr ← Pop;
  match arr with
  | Array l | Struct l =>
      elems ← seq_of l;
      elem ← lift_opt (last elems);
      PushItem elem ;;
      upd_heap (λ h, Seq_Remove h l (length elems - 1)) ;;
      isReferenced ← is_referenced l;
      if isReferenced : bool then refs_Remove elem else mret tt
  | _ => panic
  end.

Definition exec_SIZE : M unit :=
  elem ← Pop;
  n ← match elem with
      | Array l | Struct l => a ← seq_of l; mret (length a)
      | Map l => m ← map_of l; mret (Map_Len m)
      | _ => b ← with_heap (λ h, TryBytes h elem); mret (length b)
      end;
  PushInteger (Z.of_nat n).

Definition exec_KEYS : M unit :=
  len ← Len;
  require (negb (bool_decide (len = 0))) ;;
  item ← Pop;
  match item with
  | Map l =>
      m ← map_of l;
      push_counted Array (CSeq (m_value m).*1 0 false) (Z.of_nat (Map_Len m) + 1)
  | _ => panic
  end.

Fixpoint cpValues (src : list item) (isReferenced : bool) : M (list item) :=
  match src with
  | [] => mret []
  | it :: t =>
      c ← cloneIfStruct it;
      (if isReferenced : bool then refs_Add c.1
       else if c.2 : bool then refs_Remove it ;; refs_Add c.1 else mret tt) ;;
      rest ← cpValues t isReferenced;
      mret (c.1 :: rest)
  end.

Definition exec_VALUES : M unit :=
  len ← Len;
  require (negb (bool_decide (len = 0))) ;;
  item ← popNoRef;
  arr ← (match item with
         | Array l | Struct l =>
             DecRC l ;;
             isReferenced ← is_referenced l;
             src ← seq_of l;
             cpValues src isReferenced
         | Map l =>
             DecRC l ;;
             m ← map_of l;
             isReferenced ← is_referenced l;
             (if isReferenced : bool then mret tt else refs_shift (- Z.of_nat (Map_Len m))) ;;
             cpValues (m_value m).*2 isReferenced
         | _ => panic
         end);
  push_counted Array (CSeq arr 0 false) 0.

Definition exec_HASKEY : M unit :=
  len ← Len;
  require (negb (bool_decide (len < 2))) ;;
  key ← Pop;
  validateMapKey key ;;
  c ← Pop;
  res ← match c with
        | Map l => i ← map_index l key; mret (match i with Some _ => true | None => false end)
        | Array _ | Struct _ | Buffer _ | ByteArray _ =>
            index ← lift (TryInteger key); index ← toInt index;
            require (negb (bool_decide (index < 0)
                           || hfGorgon && bool_decide (MaxSize <= index))) ;;
            n ← match c with
                | Array l | Struct l => a ← seq_of l; mret (length a)
                | _ => b ← with_heap (λ h, TryBytes h c); mret (length b)
                end;
            mret (bool_decide (index < Z.of_nat n))
        | _ => panic
        end;
  PushBool res.

Definition exec_compound (op : Opcode) (parameter : bytes) : M unit :=
  match op with
  | APPEND => exec_APPEND
  | PACKMAP => exec_PACKMAP
  | PACKSTRUCT => exec_PACK Struct
  | PACK => exec_PACK Array
  | UNPACK => exec_UNPACK
  | PICKITEM => exec_PICKITEM
  | SETITEM => exec_SETITEM
  | REVERSEITEMS => exec_REVERSEITEMS
  | REMOVE => exec_REMOVE
  | CLEARITEMS => exec_CLEARITEMS
  | POPITEM => exec_POPITEM
  | SIZE => exec_SIZE
  | KEYS => exec_KEYS
  | VALUES => exec_VALUES
  | HASKEY => exec_HASKEY
  | _ => exec_new op parameter
  end.

(** ** Control flow *)

Definition getJumpCondition (op : Opcode) (a b : Z) : option bool :=
  match op with
  | JMPEQ | JMPEQL => Some (bool_decide (a = b))
  | JMPNE | JMPNEL => Some (negb (bool_decide (a = b)))
  | JMPGT | JMPGTL => Some (bool_decide (b < a))
  | JMPGE | JMPGEL => Some (bool_decide (b <= a))
  | JMPLT | JMPLTL => Some (bool_decide (a < b))
  | JMPLE | JMPLEL => Some (bool_decide (a <= b))
  | _ => None
  end.

Definition exec_jump (op : Opcode) (parameter : bytes) : M unit :=
  offset ← getJumpOffset parameter;
  cond ← match op with
         | JMP | JMPL => mret true
         | JMPIF | JMPIFL | JMPIFNOT | JMPIFNOTL =>
             b ← PopBool;
             mret (bool_decide (b = bool_decide (op = JMPIF) || bool_decide (op = JMPIFL)))
         | _ =>
             b ← PopBigInt; a ← PopBigInt;
             lift_opt (getJumpCondition op a b)
         end;
  if cond : bool then jump offset else mret tt.

Definition exec_call (op : Opcode) (parameter : bytes) : M unit :=
  match op with
  | CALL | CALLL => n ← getJumpOffset parameter; call n
  | CALLA =>
      i ← Pop;
      match i with
      | Pointer pos hash =>
          f ← top_frame; sc ← get_sc (f_sc f);
          require (bool_decide (hash = ScriptHash sc)) ;;
          call pos
      | _ => panic
      end
  | CALLT =>
      match slice parameter 0 2, LoadToken with
      | Some p, Some load => load (le_val p)
      | _, _ => panic
      end
  | SYSCALL =>
      match slice parameter 0 4, SyscallHandler with
      | Some p, Some handler => handler (le_val p)
      | _, _ => panic
      end
  | _ => panic
  end.

(** The items a context returns move to the stack of its caller; they keep
    their order and are not counted again. *)
Definition exec_RET : M unit :=
  oldCtx ← top_frame;
  modify (λ v, set_istack (tail (v_istack v)) v) ;;
  fs ← gets v_istack;
  oldsc ← get_sc (f_sc oldCtx);
  match fs with
  | f :: _ =>
      newsc ← get_sc (f_sc f);
      if bool_decide (sc_estack oldsc = sc_estack newsc) then mret tt else
      old ← (λ v, (v, v_stacks v !! sc_estack oldsc));
      require (negb (bool_decide (0 <= f_ret oldCtx)
                     && negb (bool_decide (Z.of_nat (length old) = f_ret oldCtx)))) ;;
      new ← (λ v, (v, v_stacks v !! sc_estack newsc));
      modify (set_stack (sc_estack newsc) (old ++ new)) ;;
      modify (set_estack (sc_estack newsc))
  | [] => modify (set_state VHalt)
  end ;;
  unloadContext oldCtx.

Definition exec_try (op : Opcode) (parameter : bytes) : M unit :=
  ctx ← top_frame;
  match op with
  | TRY | TRYL =>
      let '(catchP, finallyP) := GetTryParams op parameter in
      require (negb (bool_decide (MaxTryNestingDepth <= Z.of_nat (length (f_try ctx))))) ;;
      cOffset ← getJumpOffset catchP;
      fOffset ← getJumpOffset finallyP;
      let c := bool_decide (cOffset = c_ip (f_ctx ctx)) in
      let f := bool_decide (fOffset = c_ip (f_ctx ctx)) in
      require (negb (c && f)) ;;
      let eCtx := newExceptionHandlingContext
                    (if c then -1 else cOffset) (if f then -1 else fOffset) in
      set_top (set_f_try ctx (eCtx :: f_try ctx))
  | ENDTRY | ENDTRYL =>
      match f_try ctx with
      | [] => panic
      | e :: t =>
          require (negb (bool_decide (State e = eFinally))) ;;
          eOffset ← getJumpOffset parameter;
          if HasFinally e then
            set_top (set_f_try ctx
              (mkEx (CatchOffset e) (FinallyOffset e) eOffset eFinally :: t)) ;;
            jump (FinallyOffset e)
          else
            set_top (set_f_try ctx t) ;;
            jump eOffset
      end
  | ENDFINALLY =>
      exc ← gets v_uncaught;
      match exc with
      | Some _ => handleException
      | None =>
          match f_try ctx with
          | [] => panic
          | e :: t => set_top (set_f_try ctx t) ;; jump (EndOffset e)
          end
      end
  | _ => panic
  end.

Definition exec_misc (op : Opcode) : M unit :=
  match op with
  | NOP => mret tt
  | THROW => i ← Pop; throw i
  | ABORT => panic
  | ABORTMSG => PopString ;; panic
  | ASSERT => b ← PopBool; require b
  | ASSERTMSG => PopString ;; b ← PopBool; require b
  | _ => panic
  end.

(** The [switch] of [execute]. *)
Definition exec_body (op : Opcode) (parameter : bytes) : M unit :=
  match op with
  | PUSHINT8 | PUSHINT16 | PUSHINT32 | PUSHINT64 | PUSHINT128 | PUSHINT256
  | PUSHM1 | PUSH0 | PUSH1 | PUSH2 | PUSH3 | PUSH4 | PUSH5 | PUSH6 | PUSH7 | PUSH8
  | PUSH9 | PUSH10 | PUSH11 | PUSH12 | PUSH13 | PUSH14 | PUSH15 | PUSH16
  | PUSHDATA1 | PUSHDATA2 | PUSHDATA4 | PUSHT | PUSHF | PUSHA | PUSHNULL
  | ISNULL | ISTYPE | CONVERT => exec_push op parameter
  | INITSSLOT | INITSLOT
  | LDSFLD0 | LDSFLD1 | LDSFLD2 | LDSFLD3 | LDSFLD4 | LDSFLD5 | LDSFLD6 | LDSFLD
  | STSFLD0 | STSFLD1 | STSFLD2 | STSFLD3 | STSFLD4 | STSFLD5 | STSFLD6 | STSFLD
  | LDLOC0 | LDLOC1 | LDLOC2 | LDLOC3 | LDLOC4 | LDLOC5 | LDLOC6 | LDLOC
  | STLOC0 | STLOC1 | STLOC2 | STLOC3 | STLOC4 | STLOC5 | STLOC6 | STLOC
  | LDARG0 | LDARG1 | LDARG2 | LDARG3 | LDARG4 | LDARG5 | LDARG6 | LDARG
  | STARG0 | STARG1 | STARG2 | STARG3 | STARG4 | STARG5 | STARG6 | STARG =>
      exec_slot op parameter
  | NEWBUFFER | MEMCPY | CAT | SUBSTR | LEFT | RIGHT => exec_splice op
  | DEPTH | DROP | NIP | XDROP | CLEAR | DUP | OVER | PICK | TUCK | SWAP | ROT | ROLL
  | REVERSE3 | REVERSE4 | REVERSEN => exec_stack op
  | INVERT | AND | OR | XOR | EQUAL | NOTEQUAL => exec_bit op
  | SIGN | ABS | NEGATE | INC | DEC | ADD | SUB | MUL | DIV | MOD | POW | SQRT
  | MODMUL | MODPOW | SHL | SHR => exec_arith op
  | NOT | BOOLAND | BOOLOR | NZ | NUMEQUAL | NUMNOTEQUAL | LT | LE | GT | GE
  | MIN | MAX | WITHIN => exec_logic op
  | NEWARRAY0 | NEWARRAY | NEWARRAYT | NEWSTRUCT0 | NEWSTRUCT | NEWMAP
  | APPEND | PACKMAP | PACKSTRUCT | PACK | UNPACK | PICKITEM | SETITEM | REVERSEITEMS
  | REMOVE | CLEARITEMS | POPITEM | SIZE | KEYS | VALUES | HASKEY =>
      exec_compound op parameter
  | JMP | JMPL | JMPIF | JMPIFL | JMPIFNOT | JMPIFNOTL | JMPEQ | JMPEQL | JMPNE | JMPNEL
  | JMPGT | JMPGTL | JMPGE | JMPGEL | JMPLT | JMPLTL | JMPLE | JMPLEL =>
      exec_jump op parameter
  | CALL | CALLL | CALLA | CALLT | SYSCALL => exec_call op parameter
  | RET => exec_RET
  | TRY | TRYL | ENDTRY | ENDTRYL | ENDFINALLY => exec_try op parameter
  | _ => exec_misc op
  end.

(** ** Gas

    [gasConsumed] is a 256-bit word, the limit and the prices are [int64]. *)

Definition SetGasLimit (datoshi : Z) (v : VM) : VM :=
  set_gasLimit (if bool_decide (0 < datoshi)
                then wrap_s 64 (datoshi * ExecFeeFactorMultiplier) else datoshi) v.

Definition GasLimit (v : VM) : Z :=
  if bool_decide (0 < v_gasLimit v) then Z.quot (v_gasLimit v) ExecFeeFactorMultiplier
  else v_gasLimit v.

Definition PicoGasToDatoshi (x : Z) : Z :=
  wrap_u 256 (wrap_u 256 (x + ExecFeeFactorMultiplier) - 1) / ExecFeeFactorMultiplier.

Definition PicoGasToDatoshiInt64 (x : Z) : option Z :=
  if bool_decide (2 ^ 63 - 1 - ExecFeeFactorMultiplier + 1 < x) then None
  else Some (Z.quot (wrap_s 64 (x + ExecFeeFactorMultiplier - 1)) ExecFeeFactorMultiplier).

Definition GasConsumed (v : VM) : Z :=
  let consumed := PicoGasToDatoshi (v_gas v) in
  if bool_decide (consumed <= 2 ^ 63 - 1) then consumed
  else Z.quot (v_gasLimit v) ExecFeeFactorMultiplier.

(** [uint64(v.gasLimit)] of a limit that is not [-1]. *)
Definition GasLeft (v : VM) : Z :=
  if bool_decide (v_gasLimit v = -1) then v_gasLimit v
  else if bool_decide (wrap_u 64 (v_gasLimit v) <= v_gas v) then 0
  else (wrap_u 64 (v_gasLimit v) - v_gas v) / ExecFeeFactorMultiplier.

Definition top_whitelisted (v : VM) : bool :=
  match v_istack v with
  | f :: _ => match v_scs v !! f_sc f with Some sc => sc_whitelisted sc | None => false end
  | [] => false
  end.

(** Whether the limit holds after [gas], a 256-bit word, is consumed, and the
    machine. *)
Definition addPicoGasInternal (gas : Z) (v : VM) : VM * bool :=
  let v := if top_whitelisted v then v else set_gas (wrap_u 256 (v_gas v + gas)) v in
  (v, bool_decide (v_gasLimit v < 0) || negb (bool_decide (v_gasLimit v < v_gas v))).

Definition AddPicoGas (gas : Z) : VM → VM * bool := addPicoGasInternal (wrap_u 64 gas).
Definition AddDatoshi (gas : Z) : VM → VM * bool :=
  addPicoGasInternal (wrap_u 256 (wrap_u 64 gas * ExecFeeFactorMultiplier)).

(** The charge of an instruction. *)
Definition charge (op : Opcode) (parameter : bytes) : M unit :=
  match getPrice with
  | None => mret tt
  | Some price =>
      f ← top_frame; sc ← get_sc (f_sc f);
      if bool_decide (c_ip (f_ctx f) < Z.of_nat (length (sc_prog sc))) && negb (sc_whitelisted sc)
      then
        modify (λ v, set_gas (wrap_u 256 (v_gas v + wrap_u 64 (price op parameter))) v) ;;
        v ← gets id;
        require (negb (bool_decide (0 <= v_gasLimit v) && bool_decide (v_gasLimit v < v_gas v)))
      else mret tt
  end.

(** ** Execution *)

(** [execute]: the machine after the instruction, and whether there was no
    error; a panic and too many items are the FAULT state. *)
Definition execute (op : Opcode) (parameter : bytes) (v : VM) : VM * bool :=
  match (charge op parameter ;; exec_body op parameter) v with
  | (v, None) => (set_state VFault v, false)
  | (v, Some _) =>
      if bool_decide (MaxStackSize < v_refs v) then (set_state VFault v, false) else (v, true)
  end.

(** [step] of the current context; without one the code panics. *)
Definition step (v : VM) : VM * bool :=
  match v_istack v with
  | [] => (set_state VFault v, false)
  | f :: t =>
      match Next (f_ctx f) with
      | Ok (op, param, c) => execute op param (set_istack (set_f_ctx f c :: t) v)
      | _ => (set_state VFault v, false)
      end
  end.

Definition check_break (v : VM) : VM :=
  match v_istack v with
  | f :: _ => if atBreakPoint v f then set_state VBreak v else v
  | [] => v
  end.

(** The loop of [Run]; [None] when the fuel is out. *)
Fixpoint run_loop (fuel : nat) (v : VM) : option (VM * bool) :=
  match fuel with
  | O => None
  | S fuel =>
      if HasFlag (v_state v) VFault then Some (v, false)
      else if HasFlag (v_state v) VHalt || HasFlag (v_state v) VBreak then Some (v, true)
      else if bool_decide (v_state v = VNone) then
        match step v with
        | (v, true) => run_loop fuel (check_break v)
        | (v, false) => Some (v, false)
        end
      else Some (set_state VFault v, false)
  end.

Definition Run (fuel : nat) (v : VM) : option (VM * bool) :=
  match v_istack v with
  | [] => Some (set_state VFault v, false)
  | _ :: _ =>
      if HasFlag (v_state v) VFault then Some (v, false) else run_loop fuel (set_state VNone v)
  end.

(** [StepInto]: without a context the machine halts. *)
Definition StepInto (v : VM) : VM * bool :=
  match v_istack v with
  | [] => (set_state VHalt v, true)
  | _ :: _ =>
      if HasFlag (v_state v) VHalt || HasFlag (v_state v) VFault then (v, true) else
      match step v with
      | (v, true) => (check_break v, true)
      | r => r
      end
  end.

(** [New] *)
Definition New : VM :=
  mkVM VNone [] 1 None 0 0 0 emptyHeap {[ 1%positive := [] ]} ∅ 2.

(** [LoadScriptWithFlags] of a machine that is ready for it. *)
Definition load (script : bytes) (f : Z) (v : VM) : VM := (LoadScriptWithFlags script f v).1.
End machine.

(** A machine whose instructions cost one, and whose method tokens load the
    script NOP. *)
Definition plain_env : Env := {|
  getPrice := Some (GetPrice (30 * ExecFeeFactorMultiplier));
  hfGorgon := true;
  Hash160 := λ b, take 20 (b ++ zero160);
  SyscallHandler := None;
  LoadToken := Some (λ n, loadScriptWithCallingHash [z2b (op_code NOP)] true zero160 zero160 n (-1) 0
                            None None false);
  unload_callback := λ _ _ _, mret tt;
  unloaded_callback := λ _, mret tt;
  env_interop := λ a b, bool_decide (a = b);
|}.
