(* ===== verification/VMInv.v ===== *)
(** * VMInv: the invariant of the machine and a Hoare logic for its operations

    The invariant [Inv] of the machine that [VM.v] defines: the heap is well formed; every item on a
    live stack, in a slot of a live context or inside a compound item is well
    formed; the reference counter never undercounts the items there are (a
    ghost list stands for what it counts too much); the contexts on the
    invocation stack have their script, their evaluation stack and at most
    [MaxTryNestingDepth] handlers, and there are at most
    [MaxInvocationStackSize] of them.

    The development is a Hoare logic for the monad [M] ([triple]) with one rule
    per operation and a tactic that walks through the instructions. *)

From stdpp Require Import pretty strings sorting.
From S2P Require Import Prelude Bigint StackItem RefCount Script VM.

(** ** Changes of the heap and the counter *)

Lemma RCI_ext h refs R R' D D' :
  (∀ l, occ l R - occ l D = occ l R' - occ l D') → len R - len D = len R' - len D' →
  RCI h refs R D → RCI h refs R' D'.
Proof.
  intros Ho Hl [H1 H2]. split; [|lia]. intros l c rc Hg Hc.
  specialize (H1 l c rc Hg Hc). specialize (Ho l). lia.
Qed.

(** New items for a cell whose count stays. *)
Lemma RCI_set_items h refs R R' D D' l c c' :
  h_get h l = Some c → cell_rc c' = cell_rc c →
  live_items c' ++ R' ++ D ≡ₚ live_items c ++ R ++ D' →
  RCI h refs R D → RCI (h_set h l c') refs R' D'.
Proof.
  intros Hl Hc HP [H1 H2].
  assert (∀ x, occ x (live_items c') + occ x R' + occ x D
               = occ x (live_items c) + occ x R + occ x D') as Ho.
  { intros x. apply (occ_perm x) in HP. autorewrite with refs in HP. lia. }
  assert (len (live_items c') + len R' + len D = len (live_items c) + len R + len D') as Hn.
  { apply len_perm in HP. autorewrite with refs in HP. lia. }
  split.
  - intros l' c2 rc Hl' Hc2. rewrite kids_set, occ_app. specialize (Ho l').
    rewrite h_get_set in Hl'. case_decide.
    + simplify_eq. rewrite Hc in Hc2. destruct (H1 l' c rc Hl Hc2) as [? He].
      rewrite (kids_get h l' c Hl), occ_app in He. lia.
    + destruct (H1 l' c2 rc Hl' Hc2) as [? He].
      rewrite (kids_get h l c Hl), occ_app in He. lia.
  - rewrite kids_set, len_app. rewrite (kids_get h l c Hl), len_app in H2. lia.
Qed.

(** One reference more to a cell: when it is the first one, the items of the
    cell are no roots any more. *)
Lemma RCI_acquire h refs R D i l c rc :
  it_loc i = Some l → h_get h l = Some c → cell_rc c = Some rc →
  RCI h refs ((if bool_decide (rc = 0) then cell_items c else []) ++ R) D →
  RCI (h_set h l (set_rc c (rc + 1))) (refs + 1) (i :: R) D.
Proof.
  intros Hil Hl Hc HI. destruct (proj1 HI l c rc Hl Hc) as [Hrc _].
  assert (live_items c = if bool_decide (rc = 0) then [] else cell_items c) as Hlv.
  { unfold live_items. rewrite (IsReferenced_rc c rc Hc). by case_bool_decide. }
  assert (live_items (set_rc c (rc + 1)) = cell_items c) as Hlv1.
  { unfold live_items. rewrite (IsReferenced_rc _ (rc + 1)) by by apply (cell_rc_set_rc c _ rc).
    rewrite bool_decide_eq_false_2 by lia. apply cell_items_set_rc. }
  eapply (RCI_set h refs _ D _ D l c rc (rc + 1)); [done|done|exact HI|lia| |].
  - intros l'. rewrite Hlv1, Hlv. case_bool_decide; autorewrite with refs; rewrite Hil;
      repeat case_decide; simplify_eq; lia.
  - rewrite Hlv1, Hlv. case_bool_decide; autorewrite with refs; lia.
Qed.

(** Cells that are allocated are not referenced. *)
Definition h_fresh (h h' : Heap) : Prop :=
  ∀ l c, h_get h' l = Some c → h_get h l = Some c ∨ default 0 (cell_rc c) = 0.

Lemma live_items_zero c : default 0 (cell_rc c) = 0 → live_items c = [].
Proof. unfold live_items, IsReferenced. destruct (cell_rc c); cbn; [intros ->|]; done. Qed.

Lemma occ_fresh h L l : Forall (item_ok h) L → h_get h l = None → occ l L = 0.
Proof.
  intros HL Hl. pose proof (occ_nonneg l L). destruct (decide (0 < occ l L)) as [Hp|]; [|lia].
  apply occ_pos_elem in Hp as (i & Hi & Hil). rewrite Forall_forall in HL.
  destruct (loc_compound h i l (HL i Hi) Hil) as (c & _ & Hc & _). congruence.
Qed.

Lemma kids_extends h h' :
  h_extends h h' → h_fresh h h' → kids h' ≡ₚ kids h.
Proof.
  destruct h as [m n], h' as [m' n']. unfold h_extends, h_fresh, h_get, kids. cbn. clear n n'.
  revert m'. induction m as [|l c m Hl IH] using map_ind; intros m' He Hf.
  - rewrite map_to_list_empty. cbn. clear He.
    induction m' as [|l c m' Hl IH] using map_ind; [by rewrite map_to_list_empty|].
    rewrite map_to_list_insert by done. cbn.
    rewrite (live_items_zero c) by by (destruct (Hf l c (lookup_insert_eq _ _ _))).
    apply IH. intros l' c' Hc'. apply Hf. rewrite lookup_insert_ne by congruence. done.
  - assert (m' !! l = Some c) as Hc by (apply He, lookup_insert_eq).
    assert (map_to_list m' ≡ₚ (l, c) :: map_to_list (delete l m')) as ->.
    { rewrite <- map_to_list_insert by apply lookup_delete_eq. by rewrite insert_delete_id. }
    rewrite map_to_list_insert by done. cbn. f_equiv. apply IH.
    + intros l' c' Hc'. assert (l ≠ l') by congruence. rewrite lookup_delete_ne by done.
      apply He. by rewrite lookup_insert_ne.
    + intros l' c' Hc'. apply lookup_delete_Some in Hc' as [Hne Hc'].
      destruct (Hf l' c' Hc') as [Hx|]; [|by right]. left. by rewrite lookup_insert_ne in Hx.
Qed.

Lemma RCI_grow h h' refs R :
  heap_wf h → Forall (item_ok h) R → h_extends h h' → h_fresh h h' →
  RCI h refs R [] → RCI h' refs R [].
Proof.
  intros Hwf HR He Hf [H1 H2]. pose proof (kids_extends h h' He Hf) as Hk.
  split; [|by rewrite Hk]. intros l c rc Hl Hc. rewrite Hk.
  destruct (h_get h l) as [c0|] eqn:E.
  - pose proof (He l c0 E). simplify_eq. by apply (H1 l c rc).
  - rewrite (occ_fresh h R l HR E), (occ_fresh h (kids h) l (kids_ok h Hwf) E).
    destruct (Hf l c Hl) as [Hz|Hz]; [congruence|]. rewrite Hc in Hz. cbn in Hz. by subst.
Qed.

#[export] Instance h_fresh_preorder : PreOrder h_fresh.
Proof.
  split; [by left|]. intros a b c Hab Hbc l x Hl. destruct (Hbc l x Hl) as [Hb|]; [|by right].
  by apply Hab.
Qed.

Lemma h_alloc_fresh h c l h' :
  default 0 (cell_rc c) = 0 → h_alloc h c = (l, h') → h_fresh h h'.
Proof.
  intros Hc Ha. destruct (h_get_alloc h c l h' Ha) as [-> Hg].
  intros l' c'. rewrite Hg. case_decide; [intros [= <-]; by right|by left].
Qed.

Lemma clone_loop_fresh cl v h limit v' h' limit' :
  (∀ h l limit l' h' limit', cl h l limit = Ok (l', h', limit') → h_fresh h h') →
  clone_loop cl v h limit = Ok (v', h', limit') → h_fresh h h'.
Proof.
  intros Hcl. revert h limit v' h' limit'.
  induction v as [|x v IH]; intros h limit v' h' limit'; cbn.
  { by intros [= <- <- <-]. }
  case_bool_decide; [done|].
  assert (∀ x' h1 lim1,
    (clone_loop cl v h1 lim1 ≫= λ '(t', h, limit), Ok (x' :: t', h, limit)) = Ok (v', h', limit') →
    h_fresh h1 h') as Hrest.
  { intros x' h1 lim1. destruct (clone_loop cl v h1 lim1) as [[[t' h2] lim2]| |] eqn:E; try done.
    intros [= <- <- <-]. by eapply IH. }
  destruct x; try apply (Hrest _ h (limit - 1)).
  destruct (cl h l (limit - 1)) as [[[l' h1] lim1]| |] eqn:E; try done. cbn.
  intros He. etrans; [by eapply Hcl|by eapply Hrest].
Qed.

Lemma clone_fresh fuel h l limit l' h' limit' :
  clone fuel h l limit = Ok (l', h', limit') → h_fresh h h'.
Proof.
  revert h l limit l' h' limit'. induction fuel as [|n IH]; intros h l limit l' h' limit'; [done|].
  cbn. destruct (h_seq h l) as [v| |]; try done. cbn.
  destruct (clone_loop (clone n) v.1.1 h limit) as [[[v' h1] lim1]| |] eqn:E; try done. cbn.
  destruct (h_alloc h1 (CSeq v' 0 false)) as [l1 h2] eqn:Ha. intros [= <- <- <-].
  etrans; [eapply clone_loop_fresh, E; apply IH|by eapply h_alloc_fresh, Ha].
Qed.

Lemma Clone_grow h l l' h' :
  heap_wf h → loc_ok h l KSeq → Clone h l = Ok (l', h') →
  heap_wf h' ∧ h_extends h h' ∧ h_fresh h h' ∧ item_ok h' (Struct l').
Proof.
  intros Hwf Hl. unfold Clone.
  pose proof (clone_ok (S (Z.to_nat MaxClonableNumOfItems)) h h l (MaxClonableNumOfItems - 1)
                Hwf Hwf ltac:(done) Hl ltac:(unfold MaxClonableNumOfItems, MaxDeserialized; lia)) as Hp.
  destruct (clone _ h l _) as [[[l1 h1] lim]| |] eqn:E; try done. cbn. intros [= <- <-].
  destruct Hp as (Hw & Hex & Hc & _). split; [done|]. split; [done|].
  split; [by eapply clone_fresh|].
  apply (clone_of_ok h h1 (Struct l) (Struct l1)); [by apply h_extends_le|exact Hl|done].
Qed.

Lemma convertPrimitive_fresh h i typ i' h' :
  convertPrimitive h i typ = Ok (i', h') → h_fresh h h'.
Proof.
  unfold convertPrimitive. case_bool_decide; [by intros [= <- <-]|].
  case_bool_decide.
  { destruct (TryInteger i) as [z| |]; try done. cbn.
    destruct (NewBigInteger z) as [n| |]; try done. cbn. by intros [= <- <-]. }
  destruct (_ || _).
  { destruct (TryBytes h i) as [b| |]; try done. cbn. case_bool_decide.
    - destruct (h_alloc h (CBuffer b)) as [l1 h1] eqn:Ha. intros [= <- <-].
      by eapply h_alloc_fresh, Ha.
    - by intros [= <- <-]. }
  case_bool_decide; [|done]. destruct (TryBool i); try done. cbn. by intros [= <- <-].
Qed.

Lemma Convert_fresh h i typ i' h' : Convert h i typ = Ok (i', h') → h_fresh h h'.
Proof.
  assert (∀ v (mk : loc → item),
    (let '(l', h1) := h_alloc h (CSeq v 0 false) in Ok (E := sierr) (mk l', h1)) = Ok (i', h') →
    h_fresh h h') as Hseq.
  { intros v mk. destruct (h_alloc h (CSeq v 0 false)) as [l1 h1] eqn:Ha. intros [= <- <-].
    by eapply h_alloc_fresh, Ha. }
  destruct i; cbn; try apply convertPrimitive_fresh;
    repeat (case_bool_decide; cbn; [try (by intros [= <- <-])|]; try done);
    try (by destruct (IsValid typ); cbn; intros [= <- <-]);
    try (destruct (h_seq h l) as [v| |]; cbn; try done; apply Hseq).
  all: try (destruct (h_buf h l) as [b| |]; cbn; try done; try (by intros [= <- <-])).
  case_bool_decide; [done|].
  destruct (NewBigInteger (FromBytes_nonnil b)) as [n| |]; cbn; try done. by intros [= <- <-].
Qed.

(** ** The roots of a machine *)

Definition slot_items (s : Slot) : list item :=
  match s with None => [] | Some l => slot_item <$> l end.

Definition frame_items (f : frame) : list item := slot_items (f_local f) ++ slot_items (f_args f).

Definition sc_of (v : VM) (f : frame) : option scriptContext := v_scs v !! f_sc f.
Definition est (v : VM) (f : frame) : sid :=
  match sc_of v f with Some sc => sc_estack sc | None => 1%positive end.

Definition stack_of (v : VM) (s : sid) : list item := default [] (v_stacks v !! s).
Definition static_of (v : VM) (s : sid) : list item :=
  match v_scs v !! s with Some sc => slot_items (sc_static sc) | None => [] end.

(** The evaluation stacks and the script contexts in use. *)
Definition st_ids (v : VM) : gset sid := {[v_estack v]} ∪ list_to_set (est v <$> v_istack v).
Definition sc_ids (v : VM) : gset sid := list_to_set (f_sc <$> v_istack v).

Definition over {A} (f : sid → list A) (X : gset sid) : list A := elements X ≫= f.

Definition roots (v : VM) : list item :=
  over (stack_of v) (st_ids v) ++ over (static_of v) (sc_ids v)
  ++ (v_istack v ≫= frame_items).

Lemma over_union {A} (f : sid → list A) s X :
  s ∈ X → over f X ≡ₚ f s ++ over f (X ∖ {[s]}).
Proof.
  intros Hs. unfold over.
  assert (elements X ≡ₚ s :: elements (X ∖ {[s]})) as ->; [|done].
  rewrite <- elements_union_singleton by set_solver.
  apply elements_proper. set_unfold. intros x. destruct (decide (x = s)); naive_solver.
Qed.

Lemma over_ext {A} (f g : sid → list A) X : (∀ s, s ∈ X → f s = g s) → over f X = over g X.
Proof.
  intros H. unfold over. assert (∀ s, s ∈ elements X → f s = g s) as H'.
  { intros s Hs. apply H. by apply elem_of_elements. }
  clear H. induction (elements X) as [|s L IH]; [done|]. cbn.
  rewrite H' by left. f_equal. apply IH. intros t Ht. apply H'. by right.
Qed.

(** ** The invariant *)

Definition frame_ok (v : VM) (f : frame) : Prop :=
  (∃ sc, sc_of v f = Some sc ∧ is_Some (v_stacks v !! sc_estack sc)
         ∧ c_prog (f_ctx f) = sc_prog sc)
  ∧ 0 <= c_nextip (f_ctx f) ∧ (length (f_try f) <= Z.to_nat MaxTryNestingDepth)%nat.

(** The part of the machine that says where it is: contexts that run later have
    higher keys, of their script and of their stack. *)
Record ctl (at_top : bool) (v : VM) : Prop := {
  ctl_frames : Forall (frame_ok v) (v_istack v);
  ctl_estack : is_Some (v_stacks v !! v_estack v);
  ctl_next : (∀ s, is_Some (v_stacks v !! s) → (s < v_next v)%positive)
             ∧ (∀ s, is_Some (v_scs v !! s) → (s < v_next v)%positive);
  ctl_scs : StronglySorted (λ f g, f_sc g <= f_sc f)%positive (v_istack v);
  ctl_ests : StronglySorted (λ f g, est v g <= est v f)%positive (v_istack v);
  ctl_max : Forall (λ f, est v f <= v_estack v)%positive (v_istack v);
  ctl_depth : Z.of_nat (length (v_istack v)) <= MaxInvocationStackSize;
  ctl_top : at_top = true → ∀ f, head (v_istack v) = Some f → est v f = v_estack v;
}.

(** [H]: items that are counted and held by the instruction; [K]: items it has
    seen and may store. *)
Record Inv (at_top : bool) (H K : list item) (v : VM) : Prop := {
  inv_heap : heap_wf (v_heap v);
  inv_ok : Forall (item_ok (v_heap v)) (roots v ++ H ++ K);
  inv_rc : ∃ G, Forall (item_ok (v_heap v)) G ∧ RCI (v_heap v) (v_refs v) (roots v ++ H ++ G) [];
  inv_exc : ∀ i, v_uncaught v = Some i → item_ok (v_heap v) i;
  inv_ctl : ctl at_top v;
}.

(** Machines that differ in the heap, the counter and in the contents of the
    stacks. *)
Record same_ctl (v v' : VM) : Prop := {
  sm_istack : v_istack v' = v_istack v;
  sm_estack : v_estack v' = v_estack v;
  sm_scs : v_scs v' = v_scs v;
  sm_next : v_next v' = v_next v;
  sm_dom : ∀ s, is_Some (v_stacks v' !! s) ↔ is_Some (v_stacks v !! s);
}.

Lemma est_same v v' f : same_ctl v v' → est v' f = est v f.
Proof. intros [_ _ Hs _ _]. unfold est, sc_of. by rewrite Hs. Qed.

Lemma ctl_same b v v' : same_ctl v v' → ctl b v → ctl b v'.
Proof.
  intros Hs [H1 H2 [H3 H3'] H4 H5 H6 H7 H8]. pose proof (λ f, est_same v v' f Hs) as He.
  destruct Hs as [Ei Ee Es En Ed]. split; rewrite ?Ei, ?Ee, ?En.
  - eapply Forall_impl; [exact H1|]. intros f [(sc & Hsc & Hst & Hp) Hr]. split; [|done].
    exists sc. unfold sc_of. rewrite Es, Ed. done.
  - by rewrite Ed.
  - split; intros s; [rewrite Ed; apply H3|rewrite Es; apply H3'].
  - done.
  - clear -H5 He. induction H5 as [|f t Ht IH Hf]; constructor; [done|].
    eapply Forall_impl; [exact Hf|]. intros g Hg. by rewrite !He.
  - eapply Forall_impl; [exact H6|]. intros g Hg. by rewrite He.
  - done.
  - intros Hb f Hf. rewrite He. by apply H8.
Qed.

Lemma ids_same v v' : same_ctl v v' → st_ids v' = st_ids v ∧ sc_ids v' = sc_ids v.
Proof.
  intros Hs. pose proof (λ f, est_same v v' f Hs) as He. destruct Hs as [Ei Ee _ _ _].
  unfold st_ids, sc_ids. rewrite Ei, Ee. split; [|done].
  f_equal. f_equal. apply list_fmap_ext. intros. apply He.
Qed.

Lemma estack_ids v : v_estack v ∈ st_ids v.
Proof. unfold st_ids. set_solver. Qed.

(** The roots but for one stack. *)
Definition roots_but (v : VM) (s : sid) : list item :=
  over (stack_of v) (st_ids v ∖ {[s]}) ++ over (static_of v) (sc_ids v)
  ++ (v_istack v ≫= frame_items).

Lemma roots_stack v s : s ∈ st_ids v → roots v ≡ₚ stack_of v s ++ roots_but v s.
Proof.
  intros Hs. unfold roots, roots_but. rewrite (over_union (stack_of v) s) by done.
  by rewrite <- app_assoc.
Qed.

Lemma roots_put v s l :
  is_Some (v_stacks v !! s) → s ∈ st_ids v →
  same_ctl v (set_stack s l v) ∧ roots (set_stack s l v) ≡ₚ l ++ roots_but v s.
Proof.
  intros Hd Hs. assert (same_ctl v (set_stack s l v)) as Hsm.
  { split; try done. intros t. cbn. destruct (decide (s = t)) as [<-|Hne].
    - rewrite lookup_insert_eq. split; [by intros _|eauto].
    - by rewrite lookup_insert_ne. }
  split; [done|]. destruct (ids_same v _ Hsm) as [Est Esc].
  rewrite (roots_stack _ s) by by rewrite Est. f_equiv.
  - unfold stack_of. cbn. by rewrite lookup_insert_eq.
  - unfold roots_but. rewrite Est, Esc.
    rewrite (over_ext (stack_of (set_stack s l v)) (stack_of v)); [done|].
    intros t Ht. unfold stack_of. cbn. rewrite lookup_insert_ne by set_solver. done.
Qed.

(** Changes of the heap and the counter leave the roots alone. *)
Lemma same_heap_refs v h r : same_ctl v (set_heap_refs h r v) ∧ roots (set_heap_refs h r v) = roots v.
Proof. done. Qed.

(** ** Changes that keep the invariant *)

Lemma Inv_item b H K v i : Inv b H K v → i ∈ H ++ K → item_ok (v_heap v) i.
Proof.
  intros HI Hi. pose proof (inv_ok _ _ _ _ HI) as Hok. rewrite Forall_forall in Hok.
  apply Hok. apply elem_of_app. by right.
Qed.

Lemma Inv_known b H K K' v :
  Inv b H K v → Forall (item_ok (v_heap v)) K' → Inv b H K' v.
Proof.
  intros [H1 H2 H3 H4 H5] HK. split; [done| |done..].
  apply Forall_app in H2 as [H2 H2']. apply Forall_app in H2' as [H2' _].
  by rewrite !Forall_app.
Qed.

Lemma Inv_weaken b H K K' v : K' ⊆ H ++ K → Inv b H K v → Inv b H K' v.
Proof.
  intros HK HI. eapply Inv_known; [done|]. apply Forall_forall. intros i Hi.
  eapply Inv_item; [done|]. by apply HK.
Qed.

(** Items held may be forgotten: they stay counted. *)
Lemma Inv_leak b H L K v : Inv b (L ++ H) K v → Inv b H K v.
Proof.
  intros [H1 H2 (G & HG & HR) H4 H5]. rewrite !Forall_app in H2. destruct H2 as (Hr & (HL & HH) & HK).
  split; [done|by rewrite !Forall_app| |done..].
  exists (L ++ G). split; [by apply Forall_app|].
  eapply RCI_perm; [| |exact HR]; [|done]. solve_Permutation.
Qed.

Lemma Inv_perm b H H' K v : H ≡ₚ H' → Inv b H K v → Inv b H' K v.
Proof.
  intros HP [H1 H2 (G & HG & HR) H4 H5]. split; [done| | |done..].
  - by rewrite <- HP.
  - exists G. by rewrite <- HP.
Qed.

(** Between machines that differ in the heap, the counter and the stacks. *)
Lemma Inv_change b H K H' K' v v' :
  Inv b H K v → same_ctl v v' → v_uncaught v' = v_uncaught v →
  heap_wf (v_heap v') → h_le (v_heap v) (v_heap v') →
  Forall (item_ok (v_heap v')) (roots v' ++ H' ++ K') →
  (∀ G, Forall (item_ok (v_heap v)) G → RCI (v_heap v) (v_refs v) (roots v ++ H ++ G) [] →
     ∃ G', Forall (item_ok (v_heap v')) G' ∧ RCI (v_heap v') (v_refs v') (roots v' ++ H' ++ G') []) →
  Inv b H' K' v'.
Proof.
  intros [H1 H2 (G & HG & HR) H4 H5] Hs He Hw Hle Hok Hrc. split.
  - done.
  - done.
  - by apply (Hrc G).
  - intros i. rewrite He. intros Hi. eapply item_ok_le; [exact Hle|by apply H4].
  - by eapply ctl_same.
Qed.

Lemma Inv_roots b H K v : Inv b H K v →
  Forall (item_ok (v_heap v)) (roots v) ∧ Forall (item_ok (v_heap v)) H
  ∧ Forall (item_ok (v_heap v)) K.
Proof. intros HI. pose proof (inv_ok _ _ _ _ HI) as Hok. by rewrite !Forall_app in Hok. Qed.

(** The heap and the counter change, the roots do not. *)
Lemma Inv_heap_refs b H K H' K' v h r :
  Inv b H K v → heap_wf h → h_le (v_heap v) h → Forall (item_ok h) (H' ++ K') →
  (∀ R, Forall (item_ok (v_heap v)) R → RCI (v_heap v) (v_refs v) (H ++ R) [] → RCI h r (H' ++ R) []) →
  Inv b H' K' (set_heap_refs h r v).
Proof.
  intros HI Hw Hle Hok Hrc. pose proof (Inv_roots _ _ _ _ HI) as (Hro & _ & _).
  eapply Inv_change; [exact HI|done|done|done|done| |]; cbn.
  - apply Forall_app. split; [by eapply items_ok_le|done].
  - intros G HG HR. exists G. split; [by eapply items_ok_le|].
    assert (RCI h r (H' ++ roots v ++ G) []) as HR'.
    { apply Hrc; [by apply Forall_app|]. eapply RCI_perm; [| |exact HR]; [|done]. solve_Permutation. }
    change (roots (set_heap_refs h r v)) with (roots v).
    eapply RCI_perm; [| |exact HR']; [|done]. solve_Permutation.
Qed.

(** The contents of a stack change. *)
Lemma Inv_stack b H K H' s l v :
  Inv b H K v → is_Some (v_stacks v !! s) → s ∈ st_ids v → stack_of v s ++ H ≡ₚ l ++ H' →
  Inv b H' K (set_stack s l v).
Proof.
  intros HI Hd Hs HP. destruct (roots_put v s l Hd Hs) as [Hsm Hr].
  pose proof (roots_stack v s Hs) as Hr0.
  assert (roots (set_stack s l v) ++ H' ≡ₚ roots v ++ H) as HP'.
  { rewrite Hr, Hr0. transitivity ((l ++ H') ++ roots_but v s); [solve_Permutation|].
    rewrite <- HP. solve_Permutation. }
  pose proof (inv_ok _ _ _ _ HI) as Hok.
  eapply Inv_change; [exact HI|done|done|apply HI|done| |].
  - rewrite app_assoc, HP', <- app_assoc. exact Hok.
  - intros G HG HR. exists G. split; [done|]. by rewrite app_assoc, HP', <- app_assoc.
Qed.

(** ** Hoare triples *)

Definition triple {A} (P : VM → Prop) (m : M A) (Q : A → VM → Prop) : Prop :=
  ∀ v v' a, P v → m v = (v', Some a) → Q a v'.

Lemma T_bind {A B} P (m : M A) Q (f : A → M B) R :
  triple P m Q → (∀ a, triple (Q a) (f a) R) → triple P (m ≫= f) R.
Proof.
  intros Hm Hf v v' b HP. unfold mbind, M_bind. destruct (m v) as [v1 [a|]] eqn:E; [|done].
  apply Hf. by apply (Hm v).
Qed.

Lemma T_conseq {A} (P P' : VM → Prop) (m : M A) (Q Q' : A → VM → Prop) :
  triple P' m Q' → (∀ v, P v → P' v) → (∀ a v, Q' a v → Q a v) → triple P m Q.
Proof. intros Hm HP HQ v v' a Hv He. apply HQ. eapply Hm; [|done]. by apply HP. Qed.

Lemma T_post {A} (P : VM → Prop) (m : M A) (Q Q' : A → VM → Prop) :
  triple P m Q' → (∀ a v, Q' a v → Q a v) → triple P m Q.
Proof. intros Hm HQ. by eapply T_conseq. Qed.

Lemma T_ret {A} (P : VM → Prop) (a : A) (Q : A → VM → Prop) :
  (∀ v, P v → Q a v) → triple P (mret a) Q.
Proof. intros H v v' x Hv [= <- <-]. by apply H. Qed.

Lemma T_bind_ret {A B} P (a : A) (f : A → M B) Q :
  triple P (f a) Q → triple P (mret a ≫= f) Q.
Proof. done. Qed.

Lemma T_panic {A} P Q : triple P (@panic A) Q.
Proof. by intros v v' x Hv [=]. Qed.

(** Actions that only read. *)
Definition reads {A} (m : M A) : Prop := ∀ v v' a, m v = (v', Some a) → v' = v.

Lemma T_reads {A} P (m : M A) : reads m → triple P m (λ _, P).
Proof. intros Hm v v' a Hv He. by rewrite (Hm v v' a He). Qed.

Lemma reads_bind {A B} (m : M A) (f : A → M B) : reads m → (∀ a, reads (f a)) → reads (m ≫= f).
Proof.
  intros Hm Hf v v' b. unfold mbind, M_bind. destruct (m v) as [v1 [a|]] eqn:E; [|done].
  intros He. apply Hf in He as ->. by apply Hm in E.
Qed.

Ltac reads_tac :=
  intros ? ? ?; unfold mret, M_ret;
  repeat (case_match; try done); intros; simplify_eq; done.

Lemma reads_ret {A} (a : A) : reads (mret a).
Proof. reads_tac. Qed.
Lemma reads_gets {A} (f : VM → A) : reads (gets f).
Proof. unfold gets. reads_tac. Qed.
Lemma reads_lift {E A} (r : res E A) : reads (lift r).
Proof. unfold lift, panic. reads_tac. Qed.
Lemma reads_lift_opt {A} (r : option A) : reads (lift_opt r).
Proof. unfold lift_opt, panic. reads_tac. Qed.
Lemma reads_require c : reads (require c).
Proof. unfold require, panic. reads_tac. Qed.
Lemma reads_with_heap {E A} (f : Heap → res E A) : reads (with_heap f).
Proof. unfold with_heap. reads_tac. Qed.
Lemma reads_is_referenced l : reads (is_referenced l).
Proof. unfold is_referenced. reads_tac. Qed.
Lemma reads_cur_stack : reads cur_stack.
Proof. unfold cur_stack. reads_tac. Qed.
Lemma reads_top_frame : reads top_frame.
Proof. unfold top_frame. reads_tac. Qed.
Lemma reads_get_sc s : reads (get_sc s).
Proof. unfold get_sc. reads_tac. Qed.
Lemma reads_buf_of l : reads (buf_of l).
Proof. apply reads_with_heap. Qed.
Lemma reads_panic {A} : reads (@panic A).
Proof. unfold panic. reads_tac. Qed.

Create HintDb reads.
#[export] Hint Resolve reads_ret reads_gets reads_lift reads_lift_opt reads_require
  reads_with_heap reads_is_referenced reads_cur_stack reads_top_frame reads_get_sc reads_buf_of
  reads_panic : reads.

Ltac solve_reads :=
  repeat first
    [ solve [auto with reads]
    | apply reads_bind; [|intros ?]
    | case_match ].

Lemma reads_Len : reads Len.
Proof. unfold Len. solve_reads. Qed.
Lemma reads_getJumpOffset p : reads (getJumpOffset p).
Proof. unfold getJumpOffset. solve_reads. Qed.
Lemma reads_param0 p : reads (param0 p).
Proof. unfold param0. solve_reads. Qed.
Lemma reads_param1 p : reads (param1 p).
Proof. unfold param1. solve_reads. Qed.
Lemma reads_toInt z : reads (toInt z).
Proof. unfold toInt. solve_reads. Qed.
Lemma reads_as_buffer i : reads (as_buffer i).
Proof. unfold as_buffer. solve_reads. Qed.
Lemma reads_validateMapKey k : reads (validateMapKey k).
Proof. unfold validateMapKey. solve_reads. Qed.
Lemma reads_map_index l k : reads (map_index l k).
Proof. unfold map_index, map_of. solve_reads. Qed.
Lemma reads_makeArrayOfType n t : reads (makeArrayOfType n t).
Proof. unfold makeArrayOfType. solve_reads. Qed.
#[export] Hint Resolve reads_Len reads_getJumpOffset reads_param0 reads_param1 reads_toInt
  reads_as_buffer reads_validateMapKey reads_map_index reads_makeArrayOfType : reads.

(** ** Rules of the operations *)

Section rules.
Context {b : bool}.

Lemma T_weaken {A} H K K' (m : M A) Q :
  K' ⊆ H ++ K → triple (Inv b H K') m Q → triple (Inv b H K) m Q.
Proof. intros HK Hm v v' a HI. apply Hm. by eapply Inv_weaken. Qed.

Lemma cur_stack_Some v v' s : cur_stack v = (v', Some s) → v' = v ∧ stack_of v (v_estack v) = s
  ∧ is_Some (v_stacks v !! v_estack v).
Proof. unfold cur_stack, stack_of. intros [= <- ->]. done. Qed.

Lemma T_popNoRef H K : triple (Inv b H K) popNoRef (λ i, Inv b (i :: H) (i :: K)).
Proof.
  intros v v' i HI. unfold popNoRef, mbind, M_bind.
  destruct (cur_stack v) as [v1 [s|]] eqn:E; [|done].
  apply cur_stack_Some in E as (-> & Hs & Hd). destruct s as [|x t]; [done|].
  unfold put_stack. cbn. intros [= <- <-].
  assert (item_ok (v_heap v) x) as Hx.
  { pose proof (Inv_roots _ _ _ _ HI) as (Hr & _ & _). rewrite Forall_forall in Hr.
    apply Hr. rewrite (roots_stack v _ (estack_ids v)), Hs. left. }
  eapply Inv_known.
  - eapply (Inv_stack b H K (x :: H)); [done|done|apply estack_ids|]. rewrite Hs. solve_Permutation.
  - cbn. constructor; [done|]. apply (Inv_roots _ _ _ _ HI).
Qed.

Lemma T_pushNoRef H K i : triple (Inv b (i :: H) K) (pushNoRef i) (λ _, Inv b H K).
Proof.
  intros v v' a HI. unfold pushNoRef, mbind, M_bind.
  destruct (cur_stack v) as [v1 [s|]] eqn:E; [|done].
  apply cur_stack_Some in E as (-> & Hs & Hd). unfold put_stack. intros [= <- <-].
  eapply (Inv_stack b (i :: H) K H); [done|done|apply estack_ids|]. rewrite Hs. solve_Permutation.
Qed.

Lemma T_refs_Remove H K i : triple (Inv b (i :: H) K) (refs_Remove i) (λ _, Inv b H K).
Proof.
  intros v v' a HI. unfold refs_Remove.
  assert (item_ok (v_heap v) i) as Hi by (eapply Inv_item; [done|left]).
  destruct (rc_Remove _ i _) as [[h r]|] eqn:E; [|done]. intros [= <- <-].
  destruct (inv_rc _ _ _ _ HI) as (G & HG & HR).
  assert (RCI (v_heap v) (v_refs v) (i :: roots v ++ H ++ G) []) as HR'.
  { eapply RCI_perm; [| |exact HR]; [|done]. solve_Permutation. }
  pose proof (Remove_ok i _ _ _ (inv_heap _ _ _ _ HI) Hi HR') as (h' & r' & He & HI' & Hsim).
  rewrite E in He. simplify_eq.
  eapply Inv_heap_refs; [done|by eapply h_sim_wf, HI|by apply h_sim_le| |].
  - eapply items_ok_le; [by apply h_sim_le|]. apply Forall_app.
    pose proof (Inv_roots _ _ _ _ HI) as (_ & HH & HK). by inv HH.
  - intros R HRok HRC.
    destruct (Remove_ok i _ _ _ (inv_heap _ _ _ _ HI) Hi HRC) as (h2 & r2 & He & HI2 & _).
    rewrite E in He. by simplify_eq.
Qed.

Lemma Inv_refs_Add H K v v' a i :
  Inv b H K v → item_ok (v_heap v) i → refs_Add i v = (v', Some a) → Inv b (i :: H) K v'.
Proof.
  intros HI Hi. unfold refs_Add.
  destruct (rc_Add _ i _) as [[h r]|] eqn:E; [|done]. intros [= <- <-].
  destruct (inv_rc _ _ _ _ HI) as (G & HG & HR).
  destruct (Add_ok i _ _ _ (inv_heap _ _ _ _ HI) Hi HR) as (h' & r' & He & _ & Hsim).
  rewrite E in He. simplify_eq.
  eapply Inv_heap_refs; [done|by eapply h_sim_wf, HI|by apply h_sim_le| |].
  - eapply items_ok_le; [by apply h_sim_le|]. cbn. constructor; [done|].
    apply Forall_app. apply (Inv_roots _ _ _ _ HI).
  - intros R HRok HRC.
    destruct (Add_ok i _ _ _ (inv_heap _ _ _ _ HI) Hi HRC) as (h2 & r2 & He & HI2 & _).
    rewrite E in He. by simplify_eq.
Qed.

(** An item that may be stored: a scalar, or one seen before. *)
Definition storable (H K : list item) (i : item) : Prop :=
  ∀ v, Inv b H K v → item_ok (v_heap v) i.

Lemma storable_known H K i : i ∈ H ++ K → storable H K i.
Proof. intros Hi v HI. by eapply Inv_item. Qed.
Lemma storable_Null H K : storable H K Null.
Proof. done. Qed.
Lemma storable_Bool H K x : storable H K (Bool x).
Proof. done. Qed.
Lemma storable_ByteArray H K x : storable H K (ByteArray x).
Proof. done. Qed.
Lemma storable_Pointer H K x y : storable H K (Pointer x y).
Proof. done. Qed.

Lemma T_refs_Add H K i : storable H K i → triple (Inv b H K) (refs_Add i) (λ _, Inv b (i :: H) K).
Proof. intros Hi v v' a HI. apply Inv_refs_Add; [done|by apply Hi]. Qed.

Lemma T_refs_shift_scalar H K i :
  it_loc i = None → triple (Inv b (i :: H) K) (refs_shift (-1)) (λ _, Inv b H K).
Proof.
  intros Hi v v' a HI [= <- <-].
  eapply Inv_heap_refs; [done|apply HI|done| |].
  - apply Forall_app. pose proof (Inv_roots _ _ _ _ HI) as (_ & HH & HK). by inv HH.
  - intros R _ HRC. apply (RCI_scalar _ _ _ _ i) in HRC; [|done].
    by replace (v_refs v + -1) with (v_refs v - 1) by lia.
Qed.

Lemma refs_Add_set_stack i s l v :
  refs_Add i (set_stack s l v) = (let '(v', r) := refs_Add i v in (set_stack s l v', r)).
Proof.
  unfold refs_Add.
  change (v_heap (set_stack s l v)) with (v_heap v). change (v_refs (set_stack s l v)) with (v_refs v).
  by destruct (rc_Add _ i _) as [[h r]|].
Qed.

Lemma T_PushItem H K i : storable H K i → triple (Inv b H K) (PushItem i) (λ _, Inv b H K).
Proof.
  intros Hi v v' a HI. unfold PushItem, pushNoRef, mbind, M_bind.
  destruct (cur_stack v) as [v1 [s|]] eqn:E; [|done].
  apply cur_stack_Some in E as (-> & Hs & Hd). unfold put_stack.
  rewrite refs_Add_set_stack. destruct (refs_Add i v) as [v2 x] eqn:E. intros [= <- ->].
  pose proof (Inv_refs_Add H K v v2 a i HI (Hi v HI) E) as HI2.
  unfold refs_Add in E. destruct (rc_Add _ i _) as [[h r]|] eqn:E2; [|done].
  injection E as <- <-.
  eapply (Inv_stack b (i :: H) K H (v_estack v) (i :: s)) in HI2;
    [exact HI2|done|exact (estack_ids (set_heap_refs h r v))|].
  unfold stack_of in *. cbn. rewrite Hs. solve_Permutation.
Qed.

Lemma T_Pop H K : triple (Inv b H K) Pop (λ i, Inv b H (i :: K)).
Proof.
  unfold Pop. eapply T_bind; [apply T_popNoRef|]. intros i.
  eapply T_bind; [apply T_refs_Remove|]. intros ?. by apply T_ret.
Qed.

Lemma T_PushInteger H K n : triple (Inv b H K) (PushInteger n) (λ _, Inv b H K).
Proof.
  unfold PushInteger. intros v v' a HI. unfold mbind, M_bind.
  destruct (NewBigInteger n) as [i| |] eqn:E; cbn; try done.
  apply NewBigInteger_ok in E as [-> Hn]. apply (T_PushItem H K (Integer n)); [|done]. by intros ? _.
Qed.

Lemma T_PushBool H K x : triple (Inv b H K) (PushBool x) (λ _, Inv b H K).
Proof. by apply T_PushItem. Qed.

(** Reads that yield items. *)
Lemma T_Peek H K n : triple (Inv b H K) (Peek n) (λ i, Inv b H (i :: K)).
Proof.
  intros v v' i HI. unfold Peek, mbind, M_bind.
  destruct (cur_stack v) as [v1 [s|]] eqn:E; [|done].
  apply cur_stack_Some in E as (-> & Hs & Hd). case_bool_decide; [done|].
  destruct (s !! Z.to_nat n) as [x|] eqn:Ex; [|done]. intros [= <- <-].
  eapply Inv_known; [done|]. pose proof (Inv_roots _ _ _ _ HI) as (Hr & _ & HK).
  constructor; [|done]. rewrite Forall_forall in Hr. apply Hr.
  rewrite (roots_stack v _ (estack_ids v)), Hs. apply elem_of_app. left.
  by eapply list_elem_of_lookup_2.
Qed.

Lemma cell_items_known H K v l c :
  Inv b H K v → h_get (v_heap v) l = Some c → Inv b H (cell_items c ++ K) v.
Proof.
  intros HI Hl. eapply Inv_known; [done|]. apply Forall_app. split; [|by apply (Inv_roots _ _ _ _ HI)].
  by destruct (inv_heap _ _ _ _ HI l c Hl) as [_ [? _]].
Qed.

Lemma T_seq_of H K l : triple (Inv b H K) (seq_of l) (λ s, Inv b H (s ++ K)).
Proof.
  intros v v' s HI. unfold seq_of, with_heap.
  destruct (h_seq (v_heap v) l) as [[[x rc] ro]| |] eqn:E; cbn; try done.
  intros [= <- <-]. apply h_seq_Ok in E. by apply (cell_items_known H K v l _ HI E).
Qed.

Lemma T_map_of H K l : triple (Inv b H K) (map_of l) (λ m, Inv b H (elems m ++ K)).
Proof.
  intros v v' m HI. unfold map_of, with_heap.
  destruct (h_map (v_heap v) l) as [[[x rc] ro]| |] eqn:E; cbn; try done.
  intros [= <- <-]. apply h_map_Ok in E. by apply (cell_items_known H K v l _ HI E).
Qed.

(** Allocation. *)
Lemma Inv_grow H K K' v h :
  Inv b H K v → heap_wf h → h_extends (v_heap v) h → h_fresh (v_heap v) h →
  Forall (item_ok h) K' → Inv b H K' (set_heap h v).
Proof.
  intros HI Hw He Hf HK'. pose proof (Inv_roots _ _ _ _ HI) as (_ & HH & HK).
  eapply Inv_heap_refs; [done|done|by apply h_extends_le| |].
  - apply Forall_app. split; [|done]. eapply items_ok_le; [by apply h_extends_le|done].
  - intros R HR. apply RCI_grow; [apply HI| |done|done]. by apply Forall_app.
Qed.

Lemma Inv_alloc H K v c l h :
  Inv b H K v → cell_ok (v_heap v) c → default 0 (cell_rc c) = 0 →
  h_alloc (v_heap v) c = (l, h) → Inv b H K (set_heap h v) ∧ h_get h l = Some c.
Proof.
  intros HI Hc Hrc Ha. pose proof (Inv_roots _ _ _ _ HI) as (_ & _ & HK).
  destruct (h_alloc_spec _ c l h (inv_heap _ _ _ _ HI) Hc Ha) as (Hw & Hle & _ & Hg & Hm).
  split; [|done]. eapply Inv_grow; [done|done|done|by eapply h_alloc_fresh, Ha|].
  by eapply items_ok_le.
Qed.

Lemma T_alloc H K c (mk : loc → item) :
  (∀ v, Inv b H K v → cell_ok (v_heap v) c) → default 0 (cell_rc c) = 0 →
  (∀ h l, loc_ok h l (kind c) → item_ok h (mk l)) →
  triple (Inv b H K) (alloc c) (λ l, Inv b H (mk l :: K)).
Proof.
  intros Hc Hrc Hmk v v' l HI. unfold alloc, on_heap.
  destruct (h_alloc (v_heap v) c) as [l' h] eqn:Ha. intros [= <- <-].
  destruct (Inv_alloc H K v c l' h HI (Hc v HI) Hrc Ha) as [HI' Hg].
  eapply Inv_known; [done|]. constructor; [|by apply (Inv_roots _ _ _ _ HI')].
  apply Hmk. unfold loc_ok. cbn. by rewrite Hg.
Qed.

Lemma T_newBuffer H K x : triple (Inv b H K) (newBuffer x) (λ _, Inv b H K).
Proof.
  unfold newBuffer. eapply T_bind; [apply (T_alloc H K _ Buffer); [|done|done]|].
  - intros v HI. split; [by constructor|done].
  - intros l. eapply T_conseq; [apply (T_PushItem H (Buffer l :: K))| |].
    + apply storable_known. apply elem_of_app. right. left.
    + done.
    + intros ? v. apply Inv_weaken. set_solver.
Qed.

Lemma T_Convert H K i t :
  storable H K i → triple (Inv b H K) (on_heap (λ h, Convert h i t)) (λ r, Inv b H (r :: K)).
Proof.
  intros Hi v v' r HI. unfold on_heap.
  pose proof (Convert_post (v_heap v) i t (inv_heap _ _ _ _ HI) (Hi v HI)) as Hp.
  destruct (Convert (v_heap v) i t) as [[i' h]| |] eqn:E; try done. intros [= <- <-].
  destruct Hp as (Hw & He & Hok & _). eapply Inv_grow; [done|done|done|by eapply Convert_fresh|].
  constructor; [done|]. eapply items_ok_le; [by apply h_extends_le|apply (Inv_roots _ _ _ _ HI)].
Qed.

Lemma T_cloneIfStruct H K i :
  storable H K i → triple (Inv b H K) (cloneIfStruct i) (λ c, Inv b H (c.1 :: K)).
Proof.
  intros Hi v v' r HI. pose proof (Hi v HI) as Hok. unfold cloneIfStruct.
  assert (∀ x, item_ok (v_heap v) x → Inv b H (x :: K) v) as Hsame.
  { intros x Hx. eapply Inv_known; [done|]. constructor; [done|apply (Inv_roots _ _ _ _ HI)]. }
  destruct i as [| | | | | |l| | |]; try (intros [= <- <-]; by apply Hsame).
  unfold on_heap, mbind, M_bind.
  destruct (Clone (v_heap v) l) as [[l' h]| |] eqn:E; try done. intros [= <- <-].
  destruct (Clone_grow _ l l' h (inv_heap _ _ _ _ HI) Hok E) as (Hw & He & Hf & Hl').
  eapply Inv_grow; [done|done|done|done|]. constructor; [done|].
  eapply items_ok_le; [by apply h_extends_le|apply (Inv_roots _ _ _ _ HI)].
Qed.
End rules.

Section stack_rules.
Context {b : bool}.

(** Forget what an action yields. *)
Lemma T_drop {A} H K K' (m : M A) :
  triple (Inv b H K) m (λ _, Inv b H (K' ++ K)) → triple (Inv b H K) m (λ _, Inv b H K).
Proof.
  intros Hm v v' a HI He. eapply Inv_weaken; [|by eapply Hm]. set_solver.
Qed.

Lemma T_pop_as {A} H K (f : item → M A) :
  (∀ i, reads (f i)) → triple (Inv b H K) (i ← Pop; f i) (λ _, Inv b H K).
Proof.
  intros Hf. eapply T_bind; [apply T_Pop|]. intros i.
  eapply T_conseq; [apply (T_reads (Inv b H (i :: K))); apply Hf|done|].
  intros ? v. apply Inv_weaken. set_solver.
Qed.

Lemma T_PopBigInt H K : triple (Inv b H K) PopBigInt (λ _, Inv b H K).
Proof. apply T_pop_as. auto with reads. Qed.
Lemma T_PopBool H K : triple (Inv b H K) PopBool (λ _, Inv b H K).
Proof. apply T_pop_as. auto with reads. Qed.
Lemma T_PopBytes H K : triple (Inv b H K) PopBytes (λ _, Inv b H K).
Proof. apply T_pop_as. auto with reads. Qed.
Lemma T_PopString H K : triple (Inv b H K) PopString (λ _, Inv b H K).
Proof. apply T_pop_as. auto with reads. Qed.
Lemma T_PopInt H K : triple (Inv b H K) PopInt (λ _, Inv b H K).
Proof. eapply T_bind; [apply T_PopBigInt|]. intros z. apply T_reads. auto with reads. Qed.

(** Permutations of the stack. *)
Lemma T_permute {A} H K (m : M A) :
  (∀ v v' a, m v = (v', Some a) →
     v' = v ∨ ∃ s', v' = set_stack (v_estack v) s' v ∧ s' ≡ₚ stack_of v (v_estack v)) →
  triple (Inv b H K) m (λ _, Inv b H K).
Proof.
  intros Hm v v' a HI He. destruct (Hm v v' a He) as [->|(s' & -> & HP)]; [done|].
  eapply (Inv_stack b H K H); [done|apply HI|apply estack_ids|]. by rewrite HP.
Qed.

Lemma T_Swap H K n1 n2 : triple (Inv b H K) (Swap n1 n2) (λ _, Inv b H K).
Proof.
  apply T_permute. intros v v' a. unfold Swap, mbind, M_bind.
  destruct (cur_stack v) as [v1 [s|]] eqn:E; [|done].
  apply cur_stack_Some in E as (-> & Hs & _). subst s.
  unfold require. destruct (negb _); [|done]. cbn. destruct (negb _); [|done]. cbn.
  destruct (_ !! Z.to_nat n1) as [x|] eqn:E1; [|done].
  destruct (_ !! Z.to_nat n2) as [y|] eqn:E2; [|done].
  unfold put_stack. intros [= <- <-]. right. eexists. split; [done|].
  by apply Permutation_insert_swap.
Qed.

Lemma T_ReverseTop H K n : triple (Inv b H K) (ReverseTop n) (λ _, Inv b H K).
Proof.
  apply T_permute. intros v v' a. unfold ReverseTop, mbind, M_bind.
  destruct (cur_stack v) as [v1 [s|]] eqn:E; [|done].
  apply cur_stack_Some in E as (-> & Hs & _). subst s.
  unfold require. destruct (negb _); [|done]. cbn. case_bool_decide.
  { intros [= <- <-]. by left. }
  unfold put_stack. intros [= <- <-]. right. eexists. split; [done|].
  rewrite <- Permutation_rev. by rewrite take_drop.
Qed.

Lemma T_Roll H K n : triple (Inv b H K) (Roll n) (λ _, Inv b H K).
Proof.
  apply T_permute. intros v v' a. unfold Roll, mbind, M_bind.
  destruct (cur_stack v) as [v1 [s|]] eqn:E; [|done].
  apply cur_stack_Some in E as (-> & Hs & _). subst s.
  unfold require. destruct (negb _); [|done]. cbn. case_bool_decide.
  { intros [= <- <-]. by left. }
  destruct (_ !! Z.to_nat n) as [x|] eqn:E1; [|done].
  unfold put_stack. intros [= <- <-]. right. eexists. split; [done|].
  symmetry. by apply delete_Permutation.
Qed.

(** Stacks and the counter do not interfere. *)
Lemma refs_Remove_set_stack i s l v :
  refs_Remove i (set_stack s l v) = (let '(v', r) := refs_Remove i v in (set_stack s l v', r)).
Proof.
  unfold refs_Remove.
  change (v_heap (set_stack s l v)) with (v_heap v). change (v_refs (set_stack s l v)) with (v_refs v).
  by destruct (rc_Remove _ i _) as [[h r]|].
Qed.

Lemma each_Remove_set_stack L s l v :
  each refs_Remove L (set_stack s l v) = (let '(v', r) := each refs_Remove L v in (set_stack s l v', r)).
Proof.
  revert v. induction L as [|i L IH]; intros v; [done|]. cbn. unfold mbind, M_bind.
  rewrite refs_Remove_set_stack. destruct (refs_Remove i v) as [v' [u|]]; [|done]. apply IH.
Qed.

Lemma T_each_Remove H K L : triple (Inv b (L ++ H) K) (each refs_Remove L) (λ _, Inv b H K).
Proof.
  induction L as [|i L IH]; cbn; [by apply T_ret|].
  eapply T_bind; [apply T_refs_Remove|]. intros ?. exact IH.
Qed.

Lemma refs_Remove_estack i v v' a : refs_Remove i v = (v', a) → v_estack v' = v_estack v.
Proof. unfold refs_Remove. destruct (rc_Remove _ i _) as [[h r]|]; by intros [= <- _]. Qed.

Lemma each_Remove_estack L v v' a : each refs_Remove L v = (v', a) → v_estack v' = v_estack v.
Proof.
  revert v. induction L as [|i L IH]; intros v; cbn; [by intros [= <- _]|].
  unfold mbind, M_bind. destruct (refs_Remove i v) as [v1 [u|]] eqn:E.
  - intros He. rewrite (IH _ He). by eapply refs_Remove_estack.
  - intros [= <- _]. by eapply refs_Remove_estack.
Qed.

Lemma T_Clear H K : triple (Inv b H K) Clear (λ _, Inv b H K).
Proof.
  intros v v' a HI. unfold Clear, mbind, M_bind.
  destruct (cur_stack v) as [v1 [s|]] eqn:E; [|done].
  apply cur_stack_Some in E as (-> & Hs & Hd).
  destruct (each refs_Remove (rev s) v) as [v2 [u|]] eqn:E; [|done].
  unfold put_stack. intros [= <- <-]. rewrite (each_Remove_estack _ _ _ _ E).
  eapply (T_each_Remove H K (rev s) (set_stack (v_estack v) [] v) _ u).
  - eapply (Inv_stack b H K (rev s ++ H)); [done|done|apply estack_ids|]. rewrite Hs.
    by rewrite <- Permutation_rev, app_nil_l.
  - by rewrite each_Remove_set_stack, E.
Qed.

Lemma T_InsertAt H K e n : storable (b := b) H K e → triple (Inv b H K) (InsertAt e n) (λ _, Inv b H K).
Proof.
  intros He v v' a HI. unfold InsertAt, mbind, M_bind.
  destruct (cur_stack v) as [v1 [s|]] eqn:E; [|done].
  apply cur_stack_Some in E as (-> & Hs & Hd). unfold require. case_bool_decide; [|done]. cbn.
  unfold put_stack. rewrite refs_Add_set_stack.
  destruct (refs_Add e v) as [v2 x] eqn:E. intros [= <- ->].
  pose proof (Inv_refs_Add H K v v2 a e HI (He v HI) E) as HI2.
  unfold refs_Add in E. destruct (rc_Add _ e _) as [[h r]|] eqn:E2; [|done].
  injection E as <- <-.
  eapply (Inv_stack b (e :: H) K H); [exact HI2|done|exact (estack_ids (set_heap_refs h r v))|].
  change (stack_of (set_heap_refs h r v) (v_estack v)) with (stack_of v (v_estack v)). rewrite Hs.
  rewrite <- (take_drop n s) at 1. solve_Permutation.
Qed.

Lemma T_RemoveAt H K n : triple (Inv b H K) (RemoveAt n) (λ _, Inv b H K).
Proof.
  intros v v' a HI. unfold RemoveAt, mbind, M_bind.
  destruct (cur_stack v) as [v1 [s|]] eqn:E; [|done].
  apply cur_stack_Some in E as (-> & Hs & Hd). case_bool_decide; [done|].
  destruct (s !! Z.to_nat n) as [e|] eqn:Ee; [|done]. unfold put_stack.
  destruct (refs_Remove e _) as [v2 [u|]] eqn:E; [|done]. intros [= <- <-].
  eapply (T_refs_Remove H K e (set_stack (v_estack v) _ v) _ u); [|exact E].
  pose proof (Inv_roots _ _ _ _ HI) as (Hr & _ & HK).
  eapply (Inv_stack b H K (e :: H)); [done|done|apply estack_ids|]. rewrite Hs.
  rewrite (delete_Permutation s _ e Ee) at 1. solve_Permutation.
Qed.

Lemma T_pop_n H K n : triple (Inv b H K) (pop_n n) (λ l, Inv b (l ++ H) (l ++ K)).
Proof.
  revert H K. induction n as [|n IH]; intros H K; [by apply T_ret|]. cbn.
  eapply T_bind; [apply T_popNoRef|]. intros i. eapply T_bind; [apply IH|]. intros t.
  apply T_ret. intros v HI. eapply Inv_perm; [|eapply Inv_weaken; [|exact HI]].
  - solve_Permutation.
  - set_solver.
Qed.

(** Counts of scalars that are not there yet. *)
Lemma Inv_shift H K n v L :
  Inv b H K v → Forall (λ i, it_loc i = None) L → Forall (item_ok (v_heap v)) L → n = len L →
  Inv b (L ++ H) K (set_refs (v_refs v + n) v).
Proof.
  intros HI HL Hok ->. pose proof (Inv_roots _ _ _ _ HI) as (_ & HH & HK).
  eapply Inv_heap_refs; [done|apply HI|done|by rewrite !Forall_app|].
  intros R _ HR. clear -HL HR. revert HR. generalize (v_refs v).
  induction HL as [|i L Hi HL IH]; intros r HR; cbn.
  { rewrite len_nil. by replace (r + 0) with r by lia. }
  apply RCI_scalar; [done|]. rewrite len_cons.
  replace (r + (1 + len L) - 1) with (r + len L) by lia. by apply IH.
Qed.

Lemma T_refs_shift H K n :
  0 <= n → triple (Inv b H K) (refs_shift n) (λ _, Inv b (replicate (Z.to_nat n) Null ++ H) K).
Proof.
  intros Hn v v' a HI [= <- <-]. apply Inv_shift; [done| | |].
  - by apply Forall_replicate.
  - by apply Forall_replicate.
  - unfold len. rewrite length_replicate. lia.
Qed.

Lemma T_pushItemCounted_0 H K i : triple (Inv b (i :: H) K) (pushItemCounted i 0) (λ _, Inv b H K).
Proof.
  unfold pushItemCounted. eapply T_bind; [apply T_pushNoRef|].
  intros u v v' a HI [= <- <-]. pose proof (Inv_shift H K 0 v [] HI) as Hs. by apply Hs.
Qed.

Lemma T_pushItemCounted_1 H K i :
  it_loc i = None → storable (b := b) H K i →
  triple (Inv b H K) (pushItemCounted i 1) (λ _, Inv b H K).
Proof.
  intros Hi Hok v v' a HI He.
  eapply (T_pushNoRef H K i (set_refs (v_refs v + 1) v)).
  - apply (Inv_shift H K 1 v [i]); [done|by constructor|constructor; [by apply Hok|done]|done].
  - revert He. unfold pushItemCounted, pushNoRef, mbind, M_bind, cur_stack, put_stack. cbn.
    destruct (v_stacks v !! v_estack v); [|done]. cbn. intros [= <- <-]. done.
Qed.
End stack_rules.

(** ** Contexts *)

Lemma StronglySorted_head {A} (R : A → A → Prop) (f f' : A) t :
  (∀ g, R f g → R f' g) → StronglySorted R (f :: t) → StronglySorted R (f' :: t).
Proof.
  intros HR Hs. inv Hs. constructor; [done|]. by eapply Forall_impl; [|intros g; apply HR].
Qed.

Lemma est_sc v v' f f' : v_scs v' = v_scs v → f_sc f' = f_sc f → est v' f' = est v f.
Proof. intros Hs Hf. unfold est, sc_of. by rewrite Hs, Hf. Qed.

Section context_rules.
Context {b : bool}.

(** The current context is replaced by one of the same script. *)
Lemma Inv_top H K H' v f f' t :
  Inv b H K v → v_istack v = f :: t → f_sc f' = f_sc f → frame_ok v f' →
  frame_items f ++ H ≡ₚ frame_items f' ++ H' → Inv b H' K (set_istack (f' :: t) v).
Proof.
  intros HI Hv Hsc Hok HP. destruct HI as [H1 H2 (G & HG & HR) H4 H5].
  set (v' := set_istack (f' :: t) v).
  assert (∀ g, est v' g = est v g) as He by done.
  assert (est v f' = est v f) as Hef by by apply est_sc.
  assert (roots v' ++ H' ≡ₚ roots v ++ H) as HP'.
  { unfold roots. assert (st_ids v' = st_ids v) as ->.
    { unfold st_ids, v'. cbn. rewrite Hv. cbn. by rewrite !He, Hef. }
    assert (sc_ids v' = sc_ids v) as ->.
    { unfold sc_ids, v'. cbn. rewrite Hv. cbn. by rewrite Hsc. }
    change (stack_of v') with (stack_of v). change (static_of v') with (static_of v).
    change (v_istack v') with (f' :: t). rewrite Hv. cbn.
    transitivity ((frame_items f' ++ H') ++ over (stack_of v) (st_ids v)
                  ++ over (static_of v) (sc_ids v) ++ (t ≫= frame_items)); [solve_Permutation|].
    rewrite <- HP. solve_Permutation. }
  split.
  - done.
  - change (v_heap v') with (v_heap v). by rewrite app_assoc, HP', <- app_assoc.
  - exists G. split; [done|]. change (v_heap v') with (v_heap v). change (v_refs v') with (v_refs v).
    by rewrite app_assoc, HP', <- app_assoc.
  - done.
  - destruct H5 as [C1 C2 C3 C4 C5 C6 C7 C8]. rewrite Hv in C1, C4, C5, C6, C7.
    apply Forall_cons in C1 as [C1 C1']. apply Forall_cons in C6 as [C6 C6'].
    split; cbn; rewrite ?Hv; try done.
    + by constructor.
    + eapply StronglySorted_head; [|exact C4]. intros g. by rewrite Hsc.
    + eapply StronglySorted_head; [|exact C5]. intros g. by rewrite !He, Hef.
    + constructor; [by rewrite He, Hef|done].
    + intros Hb g [= <-]. rewrite He, Hef. apply C8; [done|by rewrite Hv].
Qed.

(** The current context is known. *)
Definition TopIs (f : frame) (H K : list item) (v : VM) : Prop :=
  Inv b H K v ∧ head (v_istack v) = Some f.

Lemma T_top_frame H K : triple (Inv b H K) top_frame (λ f, TopIs f H K).
Proof. intros v v' f HI. unfold top_frame. intros [= <- Hf]. done. Qed.

Lemma T_require (P : VM → Prop) c : triple P (require c) (λ _ v, P v ∧ c = true).
Proof. intros v v' a HP. unfold require. destruct c; [|done]. by intros [= <- <-]. Qed.

Lemma TopIs_ok f H K v : TopIs f H K v → frame_ok v f ∧ ∃ t, v_istack v = f :: t.
Proof.
  intros [HI Hf]. destruct (v_istack v) as [|g t] eqn:E; [done|]. cbn in Hf. simplify_eq.
  split; [|eauto]. pose proof (ctl_frames _ _ (inv_ctl _ _ _ _ HI)) as HF. rewrite E in HF.
  by apply Forall_cons in HF as [? _].
Qed.

(** Handlers of the current context. *)
Lemma T_set_try f H K tr :
  (length (f_try f) <= Z.to_nat MaxTryNestingDepth → length tr <= Z.to_nat MaxTryNestingDepth)%nat →
  triple (TopIs f H K) (set_top (set_f_try f tr)) (λ _, TopIs (set_f_try f tr) H K).
Proof.
  intros Htr v v' a HT. destruct (TopIs_ok f H K v HT) as [(Hsc & Hip & Hlen) [t Ht]].
  unfold set_top. rewrite Ht. intros [= <- <-]. split; [|done].
  eapply (Inv_top H K H v f); [apply HT|done|done| |done]. split; [exact Hsc|]. split; [done|by apply Htr].
Qed.

Lemma T_jump H K pos : triple (Inv b H K) (jump pos) (λ _, Inv b H K).
Proof.
  intros v v' a HI. unfold jump, mbind, M_bind.
  destruct (top_frame v) as [v1 [f|]] eqn:E; [|done].
  destruct (T_top_frame H K v v1 f HI E) as [HI1 Hf]. clear E HI.
  destruct (TopIs_ok f H K v1 (conj HI1 Hf)) as [(Hsc & Hip & Hlen) [t Ht]].
  unfold Jump. destruct (_ || _) eqn:Ep; [done|]. cbn. unfold set_top. rewrite Ht. intros [= <- <-].
  apply orb_false_iff in Ep as [Ep%bool_decide_eq_false _].
  eapply (Inv_top H K H v1 f); [done|done|done| |done]. split; [exact Hsc|]. cbn. split; [lia|done].
Qed.

(** A call: one more context of the current script. *)
Lemma Inv_push H K v f g t :
  Inv b H K v → v_istack v = f :: t → f_sc g = f_sc f → frame_ok v g → frame_items g = [] →
  Z.of_nat (length (f :: t)) < MaxInvocationStackSize →
  Inv b H K (set_istack (g :: f :: t) v).
Proof.
  intros HI Hv Hsc Hok Hg Hd. destruct HI as [H1 H2 H3 H4 H5].
  set (v' := set_istack (g :: f :: t) v).
  assert (est v g = est v f) as Hef by by apply est_sc.
  assert (roots v' = roots v) as Hr.
  { unfold roots. assert (st_ids v' = st_ids v) as ->.
    { unfold st_ids. change (v_istack v') with (g :: f :: t). change (est v') with (est v).
      change (v_estack v') with (v_estack v). rewrite Hv, !fmap_cons, Hef. set_solver. }
    assert (sc_ids v' = sc_ids v) as ->.
    { unfold sc_ids. change (v_istack v') with (g :: f :: t).
      rewrite Hv, !fmap_cons, Hsc. set_solver. }
    change (v_istack v') with (g :: f :: t). rewrite Hv. cbn. by rewrite Hg. }
  split; [done|by rewrite Hr|by rewrite Hr|done|].
  destruct H5 as [C1 C2 C3 C4 C5 C6 C7 C8]. rewrite Hv in C1, C4, C5, C6, C7.
  split; cbn; try done.
  - by constructor.
  - constructor; [done|]. inv C4. constructor; [by rewrite Hsc|].
    eapply Forall_impl; [done|]. intros x. by rewrite Hsc.
  - constructor; [done|]. inv C5. constructor.
    { change (est v f <= est v g)%positive. by rewrite Hef. }
   
    eapply Forall_impl; [done|]. intros x Hx. change (est v x <= est v g)%positive. by rewrite Hef.
  - constructor; [|done]. inv C6. change (est v g <= v_estack v)%positive. by rewrite Hef.
  - cbn in Hd. lia.
  - intros Hb x [= <-]. change (est v g = v_estack v). rewrite Hef. apply C8; [done|by rewrite Hv].
Qed.

Lemma T_call H K n : triple (Inv b H K) (call n) (λ _, Inv b H K).
Proof.
  unfold call. eapply (T_bind _ _ (λ _ v, Inv b H K v ∧ Z.of_nat (length (v_istack v)) < MaxInvocationStackSize)).
  { unfold checkInvocationStackSize. intros v v' a HI. unfold mbind, M_bind, gets, require.
    case_bool_decide; [done|]. cbn. intros [= <- <-]. split; [done|lia]. }
  intros ? v v' a0 [HI Hd]. unfold mbind, M_bind at 1.
  destruct (top_frame v) as [v1 [f|]] eqn:E; [|done].
  destruct (T_top_frame H K v v1 f HI E) as [HI1 Hf].
  apply reads_top_frame in E as ->.
  destruct (TopIs_ok f H K v (conj HI1 Hf)) as [(Hsc & Hip & Hlen) [t Ht]].
  unfold M_bind. destruct (get_sc (f_sc f) v) as [v1 [sc|]] eqn:E; [|done].
  unfold get_sc in E. injection E as <- Hsc'. unfold gets, modify. rewrite Ht.
  intros He. eapply (T_jump H K n); [|exact He]. apply (Inv_push H K v f); [done|done|done| |done|].
  - split; [|cbn; split; [done|lia]]. destruct Hsc as (sc' & Hs1 & Hs2 & Hs3).
    exists sc'. unfold sc_of in *. cbn. rewrite Hsc' in Hs1. simplify_eq. done.
  - by rewrite <- Ht.
Qed.
End context_rules.

(** ** Slots

    What the three slots of a context have in common: reading one only reads,
    replacing one exchanges its items, and it does not depend on the heap. *)
Record slot_ops (b : bool) (get : M Slot) (put : Slot → M unit) : Prop := {
  so_reads : reads get;
  so_same : ∀ v1 v2 s, same_ctl v1 v2 → get v1 = (v1, Some s) → get v2 = (v2, Some s);
  so_roots : ∀ v s, get v = (v, Some s) → slot_items s ⊆ roots v;
  so_put : ∀ v v' s s' u H K H',
    Inv b H K v → get v = (v, Some s) → slot_items s ++ H ≡ₚ slot_items s' ++ H' →
    put s' v = (v', Some u) → Inv b H' K v';
  so_heap : ∀ v v' s u h r,
    put s v = (v', Some u) → put s (set_heap_refs h r v) = (set_heap_refs h r v', Some u)
    ∧ v_heap v' = v_heap v ∧ v_refs v' = v_refs v;
}.

Lemma slot_in_roots v f i :
  head (v_istack v) = Some f → i ∈ frame_items f → i ∈ roots v.
Proof.
  intros Hf Hi. unfold roots. rewrite !elem_of_app. right. right.
  destruct (v_istack v) as [|g t]; [done|]. cbn in *. simplify_eq. apply elem_of_app. by left.
Qed.

Lemma set_top_Some v v' f u :
  set_top f v = (v', Some u) → ∃ g t, v_istack v = g :: t ∧ v' = set_istack (f :: t) v.
Proof. unfold set_top. destruct (v_istack v) as [|g t]; [done|]. intros [= <- <-]. eauto. Qed.

Lemma frame_slot_ops b (get : frame → Slot) (upd : frame → Slot → frame) :
  (∀ f s, f_sc (upd f s) = f_sc f ∧ f_ctx (upd f s) = f_ctx f ∧ f_try (upd f s) = f_try f) →
  (∀ f, slot_items (get f) ⊆ frame_items f) →
  (∀ f s L, slot_items s ++ L ++ frame_items f ≡ₚ slot_items (get f) ++ L ++ frame_items (upd f s)) →
  slot_ops b (f ← top_frame; mret (get f)) (λ s, f ← top_frame; set_top (upd f s)).
Proof.
  intros Hu Hg Hx. split.
  - apply reads_bind; [auto with reads|]. intros. auto with reads.
  - intros v1 v2 s [Hi _ _ _ _]. unfold mbind, M_bind, top_frame. rewrite Hi.
    destruct (head (v_istack v1)); [|done]. unfold mret, M_ret. congruence.
  - intros v s. unfold mbind, M_bind, top_frame.
    destruct (head (v_istack v)) as [f|] eqn:E; [|done]. intros [= <-] i Hi.
    eapply slot_in_roots; [done|]. by apply Hg.
  - intros v v' s s' u H K H' HI. unfold mbind, M_bind, top_frame.
    destruct (head (v_istack v)) as [f|] eqn:E; [|done]. intros [= <-] HP Hset.
    apply set_top_Some in Hset as (g & t & Ht & ->).
    rewrite Ht in E. cbn in E. simplify_eq. destruct (Hu f s') as (U1 & U2 & U3).
    eapply (Inv_top H K H' v f); [done|done|done| |].
    + pose proof (ctl_frames _ _ (inv_ctl _ _ _ _ HI)) as HF. rewrite Ht in HF.
      apply Forall_cons in HF as [(HF1 & HF2 & HF3) _]. unfold frame_ok, sc_of. by rewrite U1, U2, U3.
    + apply (Permutation_app_inv_l (slot_items s')).
      pose proof (Hx f s' H) as P1. rewrite (Permutation_app_comm H (frame_items f)) in P1.
      rewrite P1. rewrite app_assoc, HP. solve_Permutation.
  - intros v v' s u h r. unfold mbind, M_bind, top_frame.
    change (v_istack (set_heap_refs h r v)) with (v_istack v).
    destruct (head (v_istack v)) as [f|] eqn:E; [|done]. unfold set_top.
    change (v_istack (set_heap_refs h r v)) with (v_istack v).
    destruct (v_istack v) as [|g t]; [done|]. by intros [= <- <-].
Qed.

Lemma local_ops b : slot_ops b get_local put_local.
Proof.
  apply (frame_slot_ops b f_local set_f_local); [done| |].
  - intros f. unfold frame_items. set_solver.
  - intros f s L. unfold frame_items. cbn. solve_Permutation.
Qed.

Lemma args_ops b : slot_ops b get_args put_args.
Proof.
  apply (frame_slot_ops b f_args set_f_args); [done| |].
  - intros f. unfold frame_items. set_solver.
  - intros f s L. unfold frame_items. cbn. solve_Permutation.
Qed.

(** The script context of the current context changes its static slot. *)
Lemma Inv_static b H K H' v f sc s :
  Inv b H K v → head (v_istack v) = Some f → sc_of v f = Some sc →
  slot_items (sc_static sc) ++ H ≡ₚ slot_items s ++ H' →
  Inv b H' K (set_sc (f_sc f) (set_sc_static sc s) v).
Proof.
  intros HI Hf Hsc HP. set (v' := set_sc (f_sc f) (set_sc_static sc s) v).
  assert (∀ g, est v' g = est v g) as He.
  { intros g. unfold est, sc_of, v'. cbn. destruct (decide (f_sc f = f_sc g)) as [Hg|Hg].
    - rewrite <- Hg, lookup_insert_eq. unfold sc_of in Hsc. by rewrite Hsc.
    - by rewrite lookup_insert_ne. }
  assert (f_sc f ∈ sc_ids v) as Hin.
  { unfold sc_ids. destruct (v_istack v); [done|]. cbn in Hf. simplify_eq. set_solver. }
  assert (roots v' ++ H' ≡ₚ roots v ++ H) as HP'.
  { unfold roots. assert (st_ids v' = st_ids v) as ->.
    { unfold st_ids. change (v_istack v') with (v_istack v). change (v_estack v') with (v_estack v).
      f_equal. f_equal. apply list_fmap_ext. intros. apply He. }
    change (sc_ids v') with (sc_ids v). change (stack_of v') with (stack_of v).
    change (v_istack v') with (v_istack v).
    rewrite (over_union (static_of v) (f_sc f) (sc_ids v)) by done.
    rewrite (over_union (static_of v') (f_sc f) (sc_ids v)) by done.
    rewrite (over_ext (static_of v') (static_of v) (sc_ids v ∖ _)).
    2:{ intros x Hx. unfold static_of, v'. cbn. rewrite lookup_insert_ne by set_solver. done. }
    assert (static_of v' (f_sc f) = slot_items s) as ->.
    { unfold static_of, v'. cbn. by rewrite lookup_insert_eq. }
    assert (static_of v (f_sc f) = slot_items (sc_static sc)) as ->.
    { unfold static_of. unfold sc_of in Hsc. by rewrite Hsc. }
    set (X := over (static_of v) _). set (Y := over (stack_of v) _). set (Z := _ ≫= frame_items).
    transitivity ((slot_items s ++ H') ++ Y ++ X ++ Z); [solve_Permutation|].
    rewrite <- HP. solve_Permutation. }
  destruct HI as [H1 H2 (G & HG & HR) H4 H5]. split.
  - done.
  - change (v_heap v') with (v_heap v). by rewrite app_assoc, HP', <- app_assoc.
  - exists G. split; [done|]. change (v_heap v') with (v_heap v). change (v_refs v') with (v_refs v).
    by rewrite app_assoc, HP', <- app_assoc.
  - done.
  - destruct H5 as [C1 C2 [C3 C3'] C4 C5 C6 C7 C8].
    change (v_istack v) with (v_istack v') in C1, C4, C5, C6, C7, C8.
    split; try done.
    + eapply Forall_impl; [exact C1|]. intros g [(sc' & Hg1 & Hg2 & Hg3) Hg4]. split; [|done].
      unfold sc_of, v' in *. cbn. destruct (decide (f_sc f = f_sc g)) as [Hg|Hg].
      * rewrite <- Hg in Hg1. simplify_eq. rewrite <- Hg, lookup_insert_eq. by eexists.
      * rewrite lookup_insert_ne by done. eauto.
    + split; [done|]. intros x. cbn. destruct (decide (f_sc f = x)) as [<-|Hx].
      * intros _. apply C3'. unfold sc_of in Hsc. by rewrite Hsc.
      * rewrite lookup_insert_ne by done. apply C3'.
    + clear -C5 He. induction C5 as [|x t Ht IH Hx]; constructor; [done|].
      eapply Forall_impl; [exact Hx|]. intros g Hg. by rewrite !He.
    + eapply Forall_impl; [exact C6|]. intros g Hg. by rewrite He.
    + intros Hb g Hg. rewrite He. by apply C8.
Qed.

Lemma static_ops b : slot_ops b get_static put_static.
Proof.
  split.
  - unfold get_static. solve_reads.
  - intros v1 v2 s [Hi _ Hs _ _]. unfold get_static, mbind, M_bind, top_frame, get_sc.
    rewrite Hi. destruct (head (v_istack v1)) as [f|]; [|done]. rewrite Hs.
    destruct (v_scs v1 !! f_sc f); [|done]. unfold mret, M_ret. congruence.
  - intros v s. unfold get_static, mbind, M_bind, top_frame, get_sc.
    destruct (head (v_istack v)) as [f|] eqn:E; [|done].
    destruct (v_scs v !! f_sc f) as [sc|] eqn:Esc; [|done]. intros [= <-] i Hi.
    unfold roots. rewrite !elem_of_app. right. left.
    rewrite (over_union (static_of v) (f_sc f)).
    + apply elem_of_app. left. unfold static_of. by rewrite Esc.
    + unfold sc_ids. destruct (v_istack v); [done|]. cbn in E. simplify_eq. set_solver.
  - intros v v' s s' u H K H' HI. unfold get_static, put_static, mbind, M_bind, top_frame, get_sc.
    destruct (head (v_istack v)) as [f|] eqn:E; [|done].
    destruct (v_scs v !! f_sc f) as [sc|] eqn:Esc; [|done]. intros [= <-] HP [= <- <-].
    by eapply Inv_static.
  - intros v v' s u h r. unfold put_static, mbind, M_bind, top_frame, get_sc.
    change (v_istack (set_heap_refs h r v)) with (v_istack v).
    destruct (head (v_istack v)) as [f|] eqn:E; [|done].
    change (v_scs (set_heap_refs h r v)) with (v_scs v).
    destruct (v_scs v !! f_sc f) as [sc|] eqn:Esc; [|done]. by intros [= <- <-].
Qed.

Section slot_rules.
Context {b : bool}.

Lemma slot_item_in (l : list (option item)) n x :
  l !! n = Some x → slot_item x ∈ slot_items (Some l).
Proof.
  intros Hx. cbn. apply list_elem_of_fmap. exists x. split; [done|]. by eapply list_elem_of_lookup_2.
Qed.

Lemma T_load_slot get put H K i :
  slot_ops b get put → triple (Inv b H K) (load_slot get i) (λ _, Inv b H K).
Proof.
  intros Hs v v' a HI. unfold load_slot, mbind, M_bind.
  destruct (get v) as [v1 [s|]] eqn:E; [|done].
  pose proof (so_reads _ _ _ Hs _ _ _ E) as ->.
  destruct (slot_Get s i v) as [v1 [x|]] eqn:Ex; [|done].
  assert (v1 = v ∧ x ∈ slot_items s) as [-> Hx].
  { revert Ex. unfold slot_Get, mbind, M_bind. destruct s as [l|]; [|done]. case_bool_decide; [done|].
    destruct (l !! Z.to_nat i) as [y|] eqn:Ey; [|done]. cbn. intros [= <- <-].
    split; [done|by eapply slot_item_in]. }
  intros He. eapply (Inv_weaken b H (x :: K)); [set_solver|].
  eapply (T_PushItem H (x :: K) x); [|eapply Inv_known; [exact HI|]|exact He].
  - apply storable_known. set_solver.
  - pose proof (Inv_roots _ _ _ _ HI) as (Hr & _ & HK). constructor; [|done].
    rewrite Forall_forall in Hr. apply Hr. by apply (so_roots _ _ _ Hs v s E).
Qed.

Lemma popNoRef_same v v' i : popNoRef v = (v', Some i) → same_ctl v v'.
Proof.
  unfold popNoRef, mbind, M_bind. destruct (cur_stack v) as [v1 [s|]] eqn:E; [|done].
  apply cur_stack_Some in E as (-> & _ & Hd). destruct s as [|x t]; [done|].
  intros [= <- <-]. split; try done. intros s. cbn.
  destruct (decide (v_estack v = s)) as [<-|Hne].
  - rewrite lookup_insert_eq. split; [by intros _|eauto].
  - by rewrite lookup_insert_ne.
Qed.

Lemma same_ctl_trans v1 v2 v3 : same_ctl v1 v2 → same_ctl v2 v3 → same_ctl v1 v3.
Proof.
  intros [A1 A2 A3 A4 A5] [B1 B2 B3 B4 B5]. split; try congruence. intros s. by rewrite B5, A5.
Qed.

Lemma T_store_slot get put H K i :
  slot_ops b get put → triple (Inv b H K) (store_slot get put i) (λ _, Inv b H K).
Proof.
  intros Hs v v' a HI. unfold store_slot, slot_store, mbind, M_bind.
  destruct (get v) as [v1 [s|]] eqn:E; [|done].
  pose proof (so_reads _ _ _ Hs _ _ _ E) as ->.
  destruct s as [l|]; [|done]. unfold require. destruct (negb _); [|done]. cbn -[popNoRef].
  destruct (popNoRef v) as [v1 [x|]] eqn:Ep; [|done].
  destruct (l !! Z.to_nat i) as [old|] eqn:Eo; [|done]. cbn.
  destruct (refs_Remove (slot_item old) v1) as [v2 [u|]] eqn:Er; [|done]. intros He.
  pose proof (T_popNoRef H K v v1 x HI Ep) as HI1.
  pose proof (so_same _ _ _ Hs v v1 _ (popNoRef_same _ _ _ Ep) E) as E1.
  unfold refs_Remove in Er. destruct (rc_Remove _ _ _) as [[h r]|] eqn:Erc; [|done].
  injection Er as <- _. unfold mret, M_ret in He.
  assert (∃ v3 u3, put (Some (<[Z.to_nat i:=Some x]> l)) v1 = (v3, Some u3)) as (v3 & u3 & Hput).
  { destruct (so_heap _ _ _ Hs _ _ _ _ (v_heap v1) (v_refs v1) He) as (Hp & _).
    cbn in Hp. replace (set_heap_refs (v_heap v1) (v_refs v1) (set_heap_refs h r v1)) with v1 in Hp
      by by destruct v1. eauto. }
  assert (slot_items (Some l) ++ x :: H
          ≡ₚ slot_items (Some (<[Z.to_nat i:=Some x]> l)) ++ slot_item old :: H) as HP.
  { pose proof (lookup_lt_Some _ _ _ Eo). cbn.
    rewrite insert_take_drop by done. rewrite <- (take_drop_middle l _ old Eo) at 1.
    rewrite !fmap_app, !fmap_cons. cbn [slot_item default]. solve_Permutation. }
  pose proof (so_put _ _ _ Hs v1 v3 (Some l) _ u3 (x :: H) (x :: K) (slot_item old :: H)
                HI1 E1 HP Hput) as HI3.
  destruct (so_heap _ _ _ Hs _ _ _ _ h r Hput) as (Hput' & Hh3 & Hr3).
  rewrite Hput' in He. injection He as <- <-.
  eapply (Inv_weaken b H (x :: K)); [set_solver|].
  eapply (T_refs_Remove H (x :: K) (slot_item old) v3 _ tt); [done|].
  unfold refs_Remove. by rewrite Hh3, Hr3, Erc.
Qed.

(** Initialising a slot of the current context that is not there yet. *)
Lemma T_init_slot get put H K n :
  slot_ops b get put → 0 <= n →
  triple (Inv b H K) (s ← get; s ← slot_init s n; put s) (λ _, Inv b H K).
Proof.
  intros Hs Hn v v' a HI. unfold mbind, M_bind.
  destruct (get v) as [v1 [s|]] eqn:E; [|done].
  pose proof (so_reads _ _ _ Hs _ _ _ E) as ->.
  unfold slot_init. destruct s; [done|]. unfold mbind, M_bind. cbn.
  intros He. pose proof (T_refs_shift H K n Hn v _ tt HI eq_refl) as HI1.
  eapply (so_put _ _ _ Hs _ _ None _ _ _ _ H); [exact HI1| | |exact He].
  - eapply so_same; [exact Hs| |exact E]. done.
  - cbn. unfold slot_item. rewrite fmap_replicate. done.
Qed.

Lemma T_init_args get put H K n :
  slot_ops b get put →
  triple (Inv b H K) (s ← get; s ← initFromStack s n; put s) (λ _, Inv b H K).
Proof.
  intros Hs v v' a HI. unfold mbind, M_bind.
  destruct (get v) as [v1 [s|]] eqn:E; [|done].
  pose proof (so_reads _ _ _ Hs _ _ _ E) as ->.
  unfold initFromStack. destruct s; [done|]. unfold mbind, M_bind.
  destruct (pop_n (Z.to_nat n) v) as [v1 [l|]] eqn:El; [|done]. cbn.
  intros He. pose proof (T_pop_n H K _ v v1 l HI El) as HI1.
  eapply (Inv_weaken b H (l ++ K)); [set_solver|].
  eapply (so_put _ _ _ Hs v1 _ None _ _ _ _ H); [exact HI1| | |exact He].
  - eapply so_same; [exact Hs| |exact E]. clear -El. revert v v1 l El.
    induction (Z.to_nat n) as [|m IH]; intros v v1 l; cbn.
    { by intros [= <- <-]. }
    unfold mbind, M_bind. destruct (popNoRef v) as [v2 [x|]] eqn:Ex; [|done].
    destruct (pop_n m v2) as [v3 [t|]] eqn:Et; [|done]. intros [= <- <-].
    eapply same_ctl_trans; [by eapply popNoRef_same|by eapply IH].
  - cbn. rewrite <- list_fmap_compose. cbn. by rewrite list_fmap_id.
Qed.
End slot_rules.

(** ** Buffers *)

Section buffer_rules.
Context {b : bool}.

Lemma Inv_buffer H K v l x :
  Inv b H K v → loc_ok (v_heap v) l KBuffer → Inv b H K (set_heap (h_set (v_heap v) l (CBuffer x)) v).
Proof.
  intros HI Hl. unfold loc_ok in Hl.
  destruct (h_get (v_heap v) l) as [[y| |]|] eqn:E; try done.
  pose proof (Inv_roots _ _ _ _ HI) as (_ & HH & HK).
  assert (h_le (v_heap v) (h_set (v_heap v) l (CBuffer x))) as Hle by by eapply h_le_set.
  eapply Inv_heap_refs; [done| |done| |].
  - eapply heap_wf_set; [apply HI|done|done|by split].
  - apply Forall_app. by split; eapply items_ok_le.
  - intros R _. by eapply (RCI_set_items _ _ _ _ _ _ l (CBuffer y)).
Qed.

Lemma T_set_buf H K l x :
  Buffer l ∈ H ++ K → triple (Inv b H K) (set_buf l x) (λ _, Inv b H K).
Proof.
  intros Hl v v' a HI [= <- <-]. apply Inv_buffer; [done|].
  apply (Inv_item b H K v (Buffer l) HI Hl).
Qed.

Lemma T_as_buffer H K i :
  i ∈ H ++ K → triple (Inv b H K) (as_buffer i) (λ l, Inv b H (Buffer l :: K)).
Proof.
  intros Hi v v' l HI. unfold as_buffer. destruct i; try done. intros [= <- <-].
  eapply Inv_weaken; [|done]. set_solver.
Qed.
End buffer_rules.

(** ** Walking through instructions *)

Ltac known_tac := repeat (first [left; done | apply elem_of_app; right | right]).

Ltac storable_tac :=
  first [ apply storable_Null | apply storable_Bool | apply storable_ByteArray
        | apply storable_Pointer
        | apply storable_known; known_tac ].

Ltac vm_spec :=
  lazymatch goal with
  | |- triple _ PopBigInt _ => eapply T_PopBigInt
  | |- triple _ PopInt _ => eapply T_PopInt
  | |- triple _ PopBool _ => eapply T_PopBool
  | |- triple _ PopBytes _ => eapply T_PopBytes
  | |- triple _ PopString _ => eapply T_PopString
  | |- triple _ Pop _ => eapply T_Pop
  | |- triple _ popNoRef _ => eapply T_popNoRef
  | |- triple _ (PushInteger _) _ => eapply T_PushInteger
  | |- triple _ (PushBool _) _ => eapply T_PushBool
  | |- triple _ (newBuffer _) _ => eapply T_newBuffer
  | |- triple _ (Peek _) _ => eapply T_Peek
  | |- triple _ (RemoveAt _) _ => eapply T_RemoveAt
  | |- triple _ Clear _ => eapply T_Clear
  | |- triple _ (Swap _ _) _ => eapply T_Swap
  | |- triple _ (ReverseTop _) _ => eapply T_ReverseTop
  | |- triple _ (Roll _) _ => eapply T_Roll
  | |- triple _ (jump _) _ => eapply T_jump
  | |- triple _ (call _) _ => eapply T_call
  | |- triple _ (as_buffer _) _ => eapply T_as_buffer; known_tac
  | |- triple _ (set_buf _ _) _ => eapply T_set_buf; known_tac
  | |- triple _ (seq_of _) _ => eapply T_seq_of
  | |- triple _ (map_of _) _ => eapply T_map_of
  | |- triple _ (PushItem _) _ => eapply T_PushItem; storable_tac
  | |- triple _ (InsertAt _ _) _ => eapply T_InsertAt; storable_tac
  | |- triple _ (cloneIfStruct _) _ => eapply T_cloneIfStruct; storable_tac
  | |- triple _ (on_heap _) _ => eapply T_Convert; storable_tac
  | |- triple _ (load_slot _ _) _ =>
      eapply T_load_slot; first [apply local_ops | apply args_ops | apply static_ops]
  | |- triple _ (store_slot _ _ _) _ =>
      eapply T_store_slot; first [apply local_ops | apply args_ops | apply static_ops]
  | |- triple _ (mbind _ _) _ => fail
  | |- _ => eapply T_reads; solve [auto with reads]
  end.

Ltac vm_weaken := intros; cbn beta in *; eapply Inv_weaken; [|eassumption]; set_solver.

Ltac vm_walk :=
  repeat lazymatch goal with
    | |- triple _ panic _ => eapply T_panic
    | |- triple _ (mret _) _ => eapply T_ret; vm_weaken
    | |- triple _ (mbind _ _) _ => eapply T_bind; [solve [vm_spec]|intros ?; cbn beta]
    | |- triple _ (if ?c then _ else _) _ => destruct c
    | |- triple _ (match ?x with _ => _ end) _ => destruct x
    | |- triple _ _ _ => eapply T_post; [solve [vm_spec]|vm_weaken]
    end.

Section instructions.
Context `{ENV : Env} {b : bool}.

Abbreviation keeps m := (triple (Inv b [] []) m (λ _, Inv b [] [])).

Lemma keeps_push op p : keeps (exec_push op p).
Proof. destruct op; cbn [exec_push]; vm_walk. Qed.

Lemma keeps_stack op : keeps (exec_stack op).
Proof. destruct op; cbn [exec_stack]; vm_walk. Qed.

Lemma keeps_bit op : keeps (exec_bit op).
Proof. destruct op; cbn [exec_bit]; vm_walk. Qed.

Lemma keeps_arith op : keeps (exec_arith op).
Proof. destruct op; cbn [exec_arith]; vm_walk. Qed.

Lemma keeps_logic op : keeps (exec_logic op).
Proof. destruct op; cbn [exec_logic]; vm_walk. Qed.

Lemma keeps_jump op p : keeps (exec_jump op p).
Proof.
  unfold exec_jump. eapply T_bind; [vm_spec|intros off].
  eapply (T_bind _ _ (λ _, Inv b [] [])); [destruct op; vm_walk|intros c]. vm_walk.
Qed.

Lemma b2z_nonneg x : 0 <= b2z x.
Proof. unfold b2z. lia. Qed.

Lemma T_param (P : VM → Prop) (m : M Z) p :
  m = param0 p ∨ m = param1 p → triple P m (λ n v, P v ∧ 0 <= n).
Proof.
  intros Hm v v' n HP. destruct Hm as [-> | ->]; unfold param0, param1;
    destruct p as [|x [|y p]]; try done; intros [= <- <-];
    (split; [done|apply b2z_nonneg]).
Qed.

Lemma T_fact {A} (P : VM → Prop) (F : Prop) (m : M A) Q :
  (F → triple P m Q) → triple (λ v, P v ∧ F) m Q.
Proof. intros H v v' a [HP HF]. by apply H. Qed.

(** The current context with a slot that is not initialised. *)
Definition NoSlot (get : frame → Slot) (H K : list item) (v : VM) : Prop :=
  Inv b H K v ∧ get <$> head (v_istack v) = Some None.

Lemma T_init_local n H K :
  0 <= n →
  triple (λ v, NoSlot f_local H K v ∧ NoSlot f_args H K v)
    (s ← slot_init None n; put_local s) (λ _, NoSlot f_args H K).
Proof.
  intros Hn v v' a [[HI Hl] [_ Ha]] He. split.
  - eapply (T_init_slot get_local put_local H K n (local_ops b) Hn v v' a HI).
    rewrite <- He. clear He. unfold get_local, mbind, M_bind. unfold top_frame at 1.
    destruct (head (v_istack v)) as [f|]; [|done]. injection Hl as Hl.
    unfold mret at 1, M_ret at 1. rewrite Hl. reflexivity.
  - revert He Ha. unfold slot_init, put_local, mbind, M_bind, top_frame, set_top.
    unfold refs_shift, modify, mret, M_ret.
    change (v_istack (set_refs (v_refs v + n) v)) with (v_istack v).
    destruct (v_istack v) as [|f t]; [done|]. intros [= <- <-]. done.
Qed.

Lemma T_init_from_stack n H K :
  triple (NoSlot f_args H K) (s ← initFromStack None n; put_args s) (λ _, Inv b H K).
Proof.
  intros v v' a [HI Ha] He.
  eapply (T_init_args get_args put_args H K n (args_ops b) v v' a HI).
  rewrite <- He. clear He. unfold get_args, mbind, M_bind. unfold top_frame at 1.
  destruct (head (v_istack v)) as [f|]; [|done]. injection Ha as Ha.
  unfold mret at 1, M_ret at 1. rewrite Ha. reflexivity.
Qed.

Lemma keeps_INITSLOT p : keeps (exec_slot INITSLOT p).
Proof.
  cbn [exec_slot]. eapply T_bind; [apply T_top_frame|]. intros f.
  eapply T_bind; [apply T_require|]. intros ?.
  eapply (T_conseq _ (λ v, (NoSlot f_local [] [] v ∧ NoSlot f_args [] [] v)
                         ∧ f_local f = None ∧ f_args f = None)); [|intros v [[HI Hf] Hr]|intros ? ? HQ; exact HQ].
  2:{ assert (f_local f = None ∧ f_args f = None) as [Hl Ha].
      { destruct (f_local f), (f_args f); done. }
      unfold NoSlot. rewrite Hf. cbn. by rewrite Hl, Ha. }
  apply T_fact. intros [-> ->].
  eapply T_bind; [by apply (T_param _ _ p); left|]. intros nl. apply T_fact. intros Hnl.
  eapply T_bind; [by apply (T_param _ _ p); right|]. intros na. apply T_fact. intros Hna.
  eapply T_bind; [apply T_reads; auto with reads|]. intros ?.
  eapply (T_bind _ _ (λ _, NoSlot f_args [] [])).
  - case_bool_decide; [by apply T_init_local|].
    apply T_ret. by intros v [_ HN].
  - intros ?. case_bool_decide; [apply T_init_from_stack|]. apply T_ret. by intros v [HI _].
Qed.

Lemma keeps_slot op p : keeps (exec_slot op p).
Proof.
  destruct op; try apply keeps_INITSLOT; cbn [exec_slot]; try solve [vm_walk].
  eapply T_bind; [by apply (T_param _ _ p); left|]. intros n. apply T_fact. intros Hn.
  eapply T_bind; [vm_spec|]. intros ?. by apply T_init_slot; [apply static_ops|].
Qed.

Lemma keeps_splice op : keeps (exec_splice op).
Proof. destruct op; cbn [exec_splice]; vm_walk. Qed.
End instructions.


(** ** Leaving contexts *)

Definition same_sc (f : frame) (o : option frame) : Prop :=
  match o with Some g => f_sc g = f_sc f | None => False end.

#[export] Instance same_sc_dec f o : Decision (same_sc f o).
Proof. unfold same_sc. destruct o; apply _. Defined.

(** [f] is no longer on the invocation stack; its items are still counted, and
    the static slot of its script when no context of that script is left. *)
Definition popped (b : bool) (f : frame) (H K : list item) (v : VM) : Prop :=
  ∃ sc, sc_of v f = Some sc ∧
    Inv b (frame_items f ++ (if decide (same_sc f (head (v_istack v))) then [] else slot_items (sc_static sc))
           ++ H) K v.

Lemma sorted_tail_notin (key : frame → sid) f t :
  StronglySorted (λ f g, key g <= key f)%positive (f :: t) →
  (∀ g, head t = Some g → key g ≠ key f) → Forall (λ g, key g ≠ key f) t.
Proof.
  intros Hs Hne. inv Hs. destruct t as [|g t]; [constructor|].
  specialize (Hne g eq_refl). inv H2. inv H1.
  constructor; [done|]. eapply Forall_impl; [done|]. intros x Hx. cbn in *. lia.
Qed.

Lemma not_in_keys (key : frame → sid) s t :
  Forall (λ g, key g ≠ s) t → s ∉ (list_to_set (key <$> t) : gset sid).
Proof.
  intros HF. rewrite elem_of_list_to_set. intros (g & -> & Hg)%list_elem_of_fmap.
  rewrite Forall_forall in HF. by apply (HF g Hg).
Qed.

Lemma over_insert {A} (g : sid → list A) s X :
  over g ({[s]} ∪ X) ≡ₚ (if decide (s ∈ X) then [] else g s) ++ over g X.
Proof.
  case_decide as Hs; [by rewrite subseteq_union_1_L by set_solver|].
  rewrite (over_union g s) by set_solver. f_equiv.
  by replace (({[s]} ∪ X) ∖ {[s]}) with X by set_solver.
Qed.

(** The stack of the context may have no other owner: its items stay counted. *)
Lemma Inv_pop b K v f t :
  Inv b [] K v → v_istack v = f :: t → popped false f [] K (set_istack t v).
Proof.
  intros HI Hv. set (v' := set_istack t v).
  pose proof (inv_ctl _ _ _ _ HI) as [C1 C2 C3 C4 C5 C6 C7 C8]. rewrite Hv in C1, C4, C5, C6, C7.
  apply Forall_cons in C1 as [[(sc & Hsc & Hst & Hp) _] C1]. exists sc. split; [exact Hsc|].
  change (v_istack v') with t. rewrite app_nil_r.
  set (X := if decide _ then [] else slot_items (sc_static sc)).
  set (S := if decide (est v f ∈ st_ids v') then [] else stack_of v (est v f)).
  assert (roots v ≡ₚ roots v' ++ (frame_items f ++ X) ++ S) as HP.
  { unfold roots.
    assert (st_ids v = {[est v f]} ∪ st_ids v') as ->.
    { unfold st_ids. rewrite Hv. change (v_istack v') with t. change (est v') with (est v).
      change (v_estack v') with (v_estack v). rewrite fmap_cons. set_solver. }
    assert (sc_ids v = {[f_sc f]} ∪ sc_ids v') as ->.
    { unfold sc_ids. rewrite Hv. change (v_istack v') with t. by rewrite fmap_cons. }
    rewrite !over_insert. change (stack_of v') with (stack_of v). change (static_of v') with (static_of v).
    change (v_istack v') with t. rewrite Hv. cbn [mbind list_bind].
    assert ((if decide (f_sc f ∈ sc_ids v') then [] else static_of v (f_sc f)) = X) as ->.
    { unfold X. unfold static_of. unfold sc_of in Hsc. rewrite Hsc.
      destruct (decide (same_sc f (head t))) as [Hs|Hs]; [rewrite decide_True; [done|]|
        rewrite decide_False; [done|]].
      - unfold sc_ids. change (v_istack v') with t. destruct t as [|g t]; [done|]. cbn in Hs.
        rewrite fmap_cons, Hs. set_solver.
      - apply not_in_keys. apply (sorted_tail_notin f_sc f t C4).
        intros g Hg. unfold same_sc in Hs. by rewrite Hg in Hs. }
    fold S. solve_Permutation. }
  destruct HI as [H1 H2 (G & HG & HR) H4 _].
  rewrite HP, !Forall_app in H2. destruct H2 as ((Hro & (Hfi & HX) & HS) & _ & HK).
  split.
  - done.
  - change (v_heap v') with (v_heap v). by rewrite !Forall_app.
  - exists (S ++ G). change (v_heap v') with (v_heap v). change (v_refs v') with (v_refs v). split.
    + by apply Forall_app.
    + rewrite HP in HR. eapply RCI_perm; [| |exact HR]; [|done]. solve_Permutation.
  - done.
  - apply Forall_cons in C6 as [_ C6]. inv C4. inv C5. split; try done; cbn in *; try lia.
Qed.

(** The callbacks and handlers a machine is configured with keep it
    consistent. *)
Class EnvOk `{ENV : Env} : Prop := {
  syscall_keeps : ∀ h n, SyscallHandler = Some h →
    triple (Inv true [] []) (h n) (λ _, Inv true [] []);
  token_keeps : ∀ h n, LoadToken = Some h →
    triple (Inv true [] []) (h n) (λ _, Inv true [] []);
  unload_keeps : ∀ b id f commit H,
    triple (Inv b H []) (unload_callback id f commit) (λ _, Inv b H []);
  unloaded_keeps : ∀ b id H, triple (Inv b H []) (unloaded_callback id) (λ _, Inv b H []);
}.

Section unloading.
Context `{EOK : EnvOk}.

Lemma T_clearRefs b H K s : triple (Inv b (slot_items s ++ H) K) (clearRefs s) (λ _, Inv b H K).
Proof.
  destruct s as [l|]; [|by apply T_ret]. cbn. induction l as [|x l IH]; cbn; [by apply T_ret|].
  eapply T_bind; [apply T_refs_Remove|]. intros ?. exact IH.
Qed.

Lemma est_in_ids v f : f ∈ v_istack v → est v f ∈ st_ids v.
Proof.
  intros Hf. unfold st_ids. apply elem_of_union. right. apply elem_of_list_to_set.
  by apply list_elem_of_fmap_2.
Qed.

Lemma T_dynamic b H ctx c : triple (Inv b H []) (dynamic_on_unload ctx c) (λ _, Inv b H []).
Proof.
  unfold dynamic_on_unload. destruct c; [|by apply T_ret].
  eapply T_bind; [apply T_reads; auto with reads|]. intros sc.
  eapply (T_bind _ _ (λ _, Inv b H [])); [intros v v' a HI [= <- _]; done|]. intros old.
  case_bool_decide; [|apply T_reads; auto with reads].
  intros v v' a HI. unfold mbind, M_bind.
  destruct (top_frame v) as [v1 [cur|]] eqn:Ec; [|done].
  pose proof (T_top_frame H [] v v1 cur HI Ec) as HT. apply reads_top_frame in Ec as ->.
  destruct (TopIs_ok cur H [] v HT) as [[(csc & Hsc & Hst & _) _] [t Ht]].
  unfold get_sc. unfold sc_of in Hsc. rewrite Hsc.
  destruct (v_stacks v !! sc_estack csc) as [s|] eqn:Es; [|by destruct Hst]. unfold modify.
  change (refs_Add Null (set_stack (sc_estack csc) (Null :: s) v))
    with (refs_Add Null (set_stack (sc_estack csc) (Null :: s) v)).
  rewrite refs_Add_set_stack. destruct (refs_Add Null v) as [v2 x] eqn:E. intros [= <- ->].
  pose proof (Inv_refs_Add H [] v v2 a Null HI I E) as HI2.
  unfold refs_Add in E. destruct (rc_Add _ _ _) as [[h r]|] eqn:E2; [|done].
  injection E as <- <-.
  assert (est v cur = sc_estack csc) as He by (unfold est, sc_of; by rewrite Hsc).
  eapply (Inv_stack b (Null :: H) [] H); [exact HI2|cbn; by rewrite Es| |].
  - rewrite <- He. apply (est_in_ids (set_heap_refs h r v) cur). cbn. rewrite Ht. left.
  - unfold stack_of. cbn. rewrite Es. cbn. solve_Permutation.
Qed.

Lemma refs_Remove_fields i v v' a :
  refs_Remove i v = (v', a) →
  v_istack v' = v_istack v ∧ v_scs v' = v_scs v ∧ v_uncaught v' = v_uncaught v.
Proof. unfold refs_Remove. destruct (rc_Remove _ i _) as [[h r]|]; by intros [= <- _]. Qed.

Lemma clearRefs_fields s v v' a :
  clearRefs s v = (v', a) →
  v_istack v' = v_istack v ∧ v_scs v' = v_scs v ∧ v_uncaught v' = v_uncaught v.
Proof.
  destruct s as [l|]; [|by intros [= <- _]]. cbn. revert v.
  induction l as [|x l IH]; intros v; cbn; [by intros [= <- _]|].
  unfold mbind, M_bind. destruct (refs_Remove _ v) as [v2 [u|]] eqn:E.
  - apply refs_Remove_fields in E as (E1 & E2 & E3). intros (F1 & F2 & F3)%IH.
    by rewrite F1, F2, F3.
  - intros [= <- _]. by apply refs_Remove_fields in E.
Qed.

Lemma T_unload_script b H f sc :
  triple (Inv b (slot_items (sc_static sc) ++ H) [])
    (clearRefs (sc_static sc) ;;
     match sc_onUnload sc with
     | Some cb => commit ← gets no_exception; call_onUnload cb f commit
     | None => mret tt
     end ;;
     match sc_onUnloaded sc with
     | Some id => ok ← gets no_exception; require ok ;; unloaded_callback id
     | None => mret tt
     end) (λ _, Inv b H []).
Proof.
  eapply T_bind; [apply T_clearRefs|]. intros ?.
  eapply (T_bind _ _ (λ _, Inv b H [])).
  - destruct (sc_onUnload sc) as [cb|]; [|by apply T_ret].
    eapply T_bind; [apply T_reads; auto with reads|]. intros c.
    destruct cb; [apply T_dynamic|apply unload_keeps].
  - intros ?. destruct (sc_onUnloaded sc) as [id|]; [|by apply T_ret].
    do 2 (eapply T_bind; [apply T_reads; auto with reads|]; intros ?). apply unloaded_keeps.
Qed.

Lemma T_unload b H f : triple (popped b f H []) (unloadContext f) (λ _, Inv b H []).
Proof.
  intros v v' a (sc & Hsc & HI). unfold unloadContext, mbind at 1, M_bind at 1.
  unfold frame_items in HI. rewrite <- !app_assoc in HI.
  destruct (clearRefs (f_local f) v) as [v1 [u1|]] eqn:E1; [|done].
  pose proof (T_clearRefs b _ [] (f_local f) v v1 u1 HI E1) as HI1.
  unfold mbind at 1, M_bind at 1.
  destruct (clearRefs (f_args f) v1) as [v2 [u2|]] eqn:E2; [|done].
  pose proof (T_clearRefs b _ [] (f_args f) v1 v2 u2 HI1 E2) as HI2.
  destruct (clearRefs_fields _ _ _ _ E1) as (A1 & A2 & _).
  destruct (clearRefs_fields _ _ _ _ E2) as (B1 & B2 & _).
  assert (v_scs v2 !! f_sc f = Some sc) as Hsc2 by (unfold sc_of in Hsc; by rewrite B2, A2).
  rewrite <- A1, <- B1 in HI2. clear E1 E2 HI HI1 Hsc.
  unfold mbind at 1, M_bind at 1, gets at 1.
  assert (∀ m : scriptContext → M unit,
    (sc ← get_sc (f_sc f); m sc) v2 = m sc v2) as Hget.
  { intros m. unfold mbind, M_bind, get_sc. by rewrite Hsc2. }
  destruct (head (v_istack v2)) as [c|] eqn:Eh; [case_bool_decide as Hc; cbn [negb]|].
  - intros [= <- <-]. rewrite decide_True in HI2; [done|]. by cbn.
  - rewrite decide_False in HI2 by by (cbn; intros ?; apply Hc).
    rewrite Hget. exact (T_unload_script b H f sc v2 v' a HI2).
  - rewrite decide_False in HI2 by (by intros []).
    rewrite Hget. exact (T_unload_script b H f sc v2 v' a HI2).
Qed.

(** ** RET *)

Lemma Inv_set_state b H K v s : Inv b H K v → Inv b H K (set_state s v).
Proof. intros [H1 H2 H3 H4 [C1 C2 C3 C4 C5 C6 C7 C8]]. by split. Qed.

(** The stack of the context that is now current is the one in use; the items of
    a stack without owner stay counted. *)
Lemma Inv_set_estack b H K v f t :
  Inv b H K v → v_istack v = f :: t → Inv true H K (set_estack (est v f) v).
Proof.
  intros HI Hv. set (v' := set_estack (est v f) v).
  pose proof (inv_ctl _ _ _ _ HI) as [C1 C2 C3 C4 C5 C6 C7 C8].
  set (S := if decide (v_estack v ∈ st_ids v') then [] else stack_of v (v_estack v)).
  assert (roots v ≡ₚ roots v' ++ S) as HP.
  { unfold roots. assert (st_ids v = {[v_estack v]} ∪ st_ids v') as ->.
    { unfold st_ids. change (v_istack v') with (v_istack v). change (est v') with (est v).
      change (v_estack v') with (est v f). rewrite Hv, fmap_cons. set_solver. }
    rewrite over_insert. change (stack_of v') with (stack_of v). change (static_of v') with (static_of v).
    change (v_istack v') with (v_istack v). change (sc_ids v') with (sc_ids v). fold S.
    solve_Permutation. }
  destruct HI as [H1 H2 (G & HG & HR) H4 _].
  rewrite HP, !Forall_app in H2. destruct H2 as ((Hro & HS) & HH & HK).
  split; [done| | |done|].
  - change (v_heap v') with (v_heap v). by rewrite !Forall_app.
  - exists (S ++ G). split; [by apply Forall_app|]. rewrite HP in HR.
    eapply RCI_perm; [| |exact HR]; [|done]. solve_Permutation.
  - assert (Forall (λ g, est v g <= est v f)%positive (v_istack v)) as Hle.
    { rewrite Hv in *. inv C5. constructor; [done|]. done. }
    split; try done.
    + change (is_Some (v_stacks v !! est v f)). rewrite Hv in C1.
      apply Forall_cons in C1 as [[(sc & Hsc & Hst & _) _] _]. unfold est. by rewrite Hsc.
    + intros _ g. change (v_istack v') with (v_istack v). rewrite Hv. by intros [= <-].
Qed.

(** The items of the stack in use move to the stack of the context that is now
    current. *)
Lemma Inv_move b H K v f t old new :
  Inv b H K v → v_istack v = f :: t →
  v_stacks v !! v_estack v = Some old → v_stacks v !! est v f = Some new →
  (est v f < v_estack v)%positive →
  Inv true H K (set_estack (est v f) (set_stack (est v f) (old ++ new) v)).
Proof.
  intros HI Hv Hold Hnew Hlt. set (v' := set_estack _ _).
  pose proof (inv_ctl _ _ _ _ HI) as [C1 C2 C3 C4 C5 C6 C7 C8].
  assert (Forall (λ g, est v g <= est v f)%positive (v_istack v)) as Hle.
  { rewrite Hv in *. inv C5. constructor; [done|]. done. }
  assert (v_estack v ∉ st_ids v') as Hnot.
  { unfold st_ids. change (v_istack v') with (v_istack v). change (est v') with (est v).
    change (v_estack v') with (est v f). rewrite elem_of_union. intros [He|He].
    - apply elem_of_singleton in He. lia.
    - revert He. apply not_in_keys. eapply Forall_impl; [exact Hle|]. intros g Hg. cbn in Hg. lia. }
  assert (est v f ∈ st_ids v') as Hin by (unfold st_ids; set_solver).
  assert (roots v' ≡ₚ roots v) as HP.
  { unfold roots. assert (st_ids v = {[v_estack v]} ∪ st_ids v') as ->.
    { unfold st_ids. change (v_istack v') with (v_istack v). change (est v') with (est v).
      change (v_estack v') with (est v f). rewrite Hv, fmap_cons. set_solver. }
    rewrite over_insert, decide_False by done.
    change (static_of v') with (static_of v).
    change (v_istack v') with (v_istack v). change (sc_ids v') with (sc_ids v).
    rewrite (over_union (stack_of v') (est v f) (st_ids v')) by done.
    rewrite (over_union (stack_of v) (est v f) (st_ids v')) by done.
    rewrite (over_ext (stack_of v') (stack_of v)).
    2:{ intros s Hs. unfold stack_of, v'. cbn. rewrite lookup_insert_ne by set_solver. done. }
    assert (stack_of v' (est v f) = old ++ new) as ->.
    { unfold stack_of, v'. cbn. by rewrite lookup_insert_eq. }
    assert (stack_of v (est v f) = new) as -> by (unfold stack_of; by rewrite Hnew).
    assert (stack_of v (v_estack v) = old) as -> by (unfold stack_of; by rewrite Hold).
    solve_Permutation. }
  destruct HI as [H1 H2 (G & HG & HR) H4 _].
  split; [done| | |done|].
  - change (v_heap v') with (v_heap v). by rewrite HP.
  - exists G. split; [done|]. by rewrite HP.
  - assert (∀ s, is_Some (v_stacks v' !! s) ↔ is_Some (v_stacks v !! s)) as Hd.
    { intros s. unfold v'. cbn. destruct (decide (est v f = s)) as [<-|Hne].
      - rewrite lookup_insert_eq, Hnew. split; eauto.
      - by rewrite lookup_insert_ne. }
    split; try done.
    + eapply Forall_impl; [exact C1|]. intros g [(sc & Hs1 & Hs2 & Hs3) Hg].
      split; [|done]. exists sc. by rewrite Hd.
    + rewrite Hd. change (is_Some (v_stacks v !! est v f)). by rewrite Hnew.
    + split; [|apply C3]. intros s. rewrite Hd. apply C3.
    + intros _ g. change (v_istack v') with (v_istack v). rewrite Hv. by intros [= <-].
Qed.
End unloading.

Section returning.
Context `{EOK : EnvOk}.

Lemma Inv_at_top b H K v :
  Inv b H K v → (∀ f, head (v_istack v) = Some f → est v f = v_estack v) → Inv true H K v.
Proof. intros [H1 H2 H3 H4 [C1 C2 C3 C4 C5 C6 C7 C8]] Hf. by split. Qed.

Lemma keeps_RET : triple (Inv true [] []) exec_RET (λ _, Inv true [] []).
Proof.
  intros v v' a HI. unfold exec_RET, mbind at 1, M_bind at 1, top_frame.
  destruct (v_istack v) as [|f t] eqn:Ev; [done|]. cbn [head].
  unfold mbind at 1, M_bind at 1, modify at 1. rewrite Ev. cbn [tail].
  pose proof (Inv_pop true [] v f t HI Ev) as Hpop. set (v1 := set_istack t v) in *.
  unfold mbind at 1, M_bind at 1, gets at 1. change (v_istack v1) with t.
  destruct Hpop as (sc & Hsc & HI1). change (head (v_istack v1)) with (head t) in HI1.
  set (Hd := _ ++ _) in HI1.
  assert (∀ m : scriptContext → M unit, (sc ← get_sc (f_sc f); m sc) v1 = m sc v1) as Hget.
  { intros m. unfold mbind, M_bind, get_sc. unfold sc_of in Hsc. by rewrite Hsc. }
  rewrite Hget. unfold mbind at 1, M_bind at 1.
  assert (est v1 f = v_estack v1) as Hef.
  { apply (ctl_top _ _ (inv_ctl _ _ _ _ HI) eq_refl f). by rewrite Ev. }
  assert (∀ v2, Inv true Hd [] v2 → v_istack v2 = t → v_scs v2 = v_scs v1 →
            unloadContext f v2 = (v', Some a) → Inv true [] [] v') as Hend.
  { intros v2 HI2 Hi2 Hs2. apply T_unload. exists sc. unfold sc_of. rewrite Hs2. split; [done|].
    by rewrite Hi2. }
  destruct t as [|g t].
  { unfold modify. apply Hend; [|done|done]. apply Inv_set_state. by eapply Inv_at_top. }
  assert (v_estack v1 = sc_estack sc) as Hes.
  { rewrite <- Hef. unfold est. by rewrite Hsc. }
  unfold mbind at 1, M_bind at 1, get_sc at 1.
  destruct (v_scs v1 !! f_sc g) as [gsc|] eqn:Eg; [|done].
  assert (est v1 g = sc_estack gsc) as Heg by (unfold est, sc_of; by rewrite Eg).
  case_bool_decide as Hsame.
  { apply Hend; [|done|done]. eapply Inv_at_top; [done|]. intros x [= <-]. congruence. }
  unfold mbind at 1, M_bind at 1.
  destruct (v_stacks v1 !! sc_estack sc) as [old|] eqn:Eo; [|done].
  unfold mbind at 1, M_bind at 1, require at 1.
  destruct (negb _); [|done]. unfold mret at 1, M_ret at 1.
  unfold mbind at 1, M_bind at 1.
  destruct (v_stacks v1 !! sc_estack gsc) as [new|] eqn:En; [|done].
  unfold mbind at 1, M_bind at 1, modify at 1. unfold modify at 1.
  apply Hend; [|done|done]. rewrite <- Heg.
  eapply (Inv_move false Hd [] v1 g t); [done|done|by rewrite Hes|by rewrite Heg|].
  pose proof (ctl_max _ _ (inv_ctl _ _ _ _ HI1)) as HM. apply Forall_cons in HM as [HM _]. lia.
Qed.
End returning.

(** ** Exceptions *)

(** The same context with no more handlers. *)
Definition fewer_try (f f' : frame) : Prop :=
  f_ctx f' = f_ctx f ∧ f_sc f' = f_sc f ∧ f_local f' = f_local f ∧ f_args f' = f_args f
  ∧ (length (f_try f') <= length (f_try f))%nat.

Lemma fewer_try_refl f : fewer_try f f.
Proof. by split_and!. Qed.

Lemma drop_handlers_length t : (length (drop_handlers t) <= length t)%nat.
Proof. induction t as [|e t IH]; cbn; [done|]. destruct (_ || _); cbn; lia. Qed.

Lemma find_handler_fewer fs n fs' :
  find_handler fs = Some (n, fs') → Forall2 fewer_try fs fs'.
Proof.
  revert n fs'. induction fs as [|f t IH]; intros n fs'; [done|]. cbn.
  pose proof (drop_handlers_length (f_try f)).
  destruct (drop_handlers (f_try f)) as [|e tr] eqn:E.
  - destruct (find_handler t) as [[m t']|]; [|done]. cbn. intros [= <- <-].
    constructor; [|by eapply IH]. unfold fewer_try. cbn. split_and!; try done; lia.
  - intros [= <- <-]. constructor; [unfold fewer_try; by split_and!|].
    clear. induction t; constructor; [apply fewer_try_refl|done].
Qed.

Lemma Inv_frames b H K v fs :
  Forall2 fewer_try (v_istack v) fs → Inv b H K v → Inv b H K (set_istack fs v).
Proof.
  intros HF HI. set (v' := set_istack fs v).
  assert (f_sc <$> fs = f_sc <$> v_istack v) as Hsc.
  { induction HF as [|f f' t t' (_ & Hf & _) _ IH]; [done|]. by rewrite !fmap_cons, Hf, IH. }
  assert (est v' <$> fs = est v <$> v_istack v) as Hest.
  { change (est v') with (est v). clear -HF.
    induction HF as [|f f' t t' (_ & Hf & _) _ IH]; [done|].
    rewrite !fmap_cons, IH. f_equal. by apply est_sc. }
  assert ((fs ≫= frame_items) = (v_istack v ≫= frame_items)) as Hit.
  { clear -HF. induction HF as [|f f' t t' (_ & _ & H1 & H2 & _) _ IH]; [done|].
    cbn. unfold frame_items at 1 3. by rewrite H1, H2, IH. }
  assert (roots v' = roots v) as Hr.
  { unfold roots. assert (st_ids v' = st_ids v) as ->.
    { unfold st_ids. change (v_istack v') with fs. by rewrite Hest. }
    assert (sc_ids v' = sc_ids v) as ->.
    { unfold sc_ids. change (v_istack v') with fs. by rewrite Hsc. }
    change (v_istack v') with fs. by rewrite Hit. }
  destruct HI as [H1 H2 H3 H4 [C1 C2 C3 C4 C5 C6 C7 C8]].
  assert (∀ (key : frame → sid) (key' : frame → sid) l l',
            key' <$> l' = key <$> l → StronglySorted (λ f g, key g <= key f)%positive l →
            StronglySorted (λ f g, key' g <= key' f)%positive l') as Hsort.
  { clear. intros key key' l l' He Hs. revert l' He.
    induction Hs as [|f t Ht IH Hf]; intros [|f' t'] He; try done; [constructor|].
    rewrite !fmap_cons in He. injection He as Hk He. constructor; [by apply IH|].
    apply Forall_forall. intros g Hg. rewrite Forall_forall in Hf.
    assert (key' g ∈ key <$> t) as (x & Hx & Hxt)%list_elem_of_fmap.
    { rewrite <- He. by apply list_elem_of_fmap_2. }
    rewrite Hx, Hk. by apply Hf. }
  split; [done|by rewrite Hr|by rewrite Hr|done|].
  split; try done; change (v_istack v') with fs.
  - clear -HF C1. induction HF as [|f f' t t' (A1 & A2 & _ & _ & A5) _ IH]; [constructor|].
    apply Forall_cons in C1 as [(B1 & B2 & B3) C1]. constructor; [|by apply IH].
    unfold frame_ok, sc_of. rewrite A1, A2. split_and!; [exact B1|done|]. lia.
  - by eapply Hsort.
  - by eapply Hsort.
  - apply Forall_forall. intros g Hg. rewrite Forall_forall in C6.
    assert (est v' g ∈ est v <$> v_istack v) as (x & Hx & Hxt)%list_elem_of_fmap.
    { rewrite <- Hest. by apply list_elem_of_fmap_2. }
    rewrite Hx. by apply C6.
  - by rewrite <- (Forall2_length _ _ _ HF).
  - intros Hb g Hg. destruct HF as [|f f' t t' (_ & A2 & _) _]; [done|]. injection Hg as <-.
    rewrite (est_sc v v' f f') by done. by apply C8.
Qed.

Section exceptions.
Context `{EOK : EnvOk}.

Lemma T_unload_n n : triple (Inv false [] []) (unload_n n) (λ _, Inv false [] []).
Proof.
  induction n as [|n IH]; [by apply T_ret|]. intros v v' a HI. cbn [unload_n].
  unfold mbind at 1, M_bind at 1, top_frame.
  destruct (v_istack v) as [|f t] eqn:Ev; [done|]. cbn [head].
  unfold mbind at 1, M_bind at 1, modify at 1. rewrite Ev. cbn [tail].
  pose proof (Inv_pop false [] v f t HI Ev) as Hpop.
  exact (T_bind _ _ _ _ _ (T_unload false [] f) (λ _, IH) _ v' a Hpop).
Qed.

Lemma Inv_set_uncaught b H K v i :
  Inv b H K v → (∀ x, i = Some x → item_ok (v_heap v) x) → Inv b H K (set_uncaught i v).
Proof. intros [H1 H2 H3 H4 [C1 C2 C3 C4 C5 C6 C7 C8]] Hi. by split. Qed.

Lemma Inv_false b H K v : Inv b H K v → Inv false H K v.
Proof. intros [H1 H2 H3 H4 [C1 C2 C3 C4 C5 C6 C7 C8]]. by split. Qed.

Lemma T_handleException b : triple (Inv b [] []) handleException (λ _, Inv true [] []).
Proof.
  unfold handleException.
  eapply (T_bind _ _ (λ fs v, Inv b [] [] v ∧ fs = v_istack v)).
  { by intros v v' fs HI [= <- <-]. }
  intros fs. destruct (find_handler fs) as [[n fs']|] eqn:Eh; [|apply T_panic].
  eapply (T_bind _ _ (λ _, Inv false [] [])).
  { intros v v' a [HI ->] [= <- <-]. eapply Inv_frames; [by eapply find_handler_fewer|].
    by eapply Inv_false. }
  intros ?. eapply T_bind; [apply T_unload_n|]. intros ?.
  eapply T_bind; [apply T_top_frame|]. intros f.
  eapply (T_bind _ _ (λ sc v, TopIs (b := false) f [] [] v ∧ sc_of v f = Some sc)).
  { intros v v' sc HT. unfold get_sc. by intros [= <- Hsc]. }
  intros sc. eapply (T_bind _ _ (λ _, TopIs (b := true) f [] [])).
  { intros v v' x [HT Hsc] [= <- <-]. destruct (TopIs_ok f [] [] v HT) as [_ [t Ht]].
    split; [|apply HT]. assert (sc_estack sc = est v f) as -> by (unfold est; by rewrite Hsc).
    eapply Inv_set_estack; [apply HT|done]. }
  intros ?. destruct (f_try f) as [|e tr] eqn:Etr; [apply T_panic|].
  assert (∀ x, (length (f_try f) <= Z.to_nat MaxTryNestingDepth →
                length (x :: tr) <= Z.to_nat MaxTryNestingDepth)%nat) as Hlen by by rewrite Etr.
  destruct (_ && _).
  - eapply T_bind; [apply T_set_try, Hlen|]. intros ?.
    eapply (T_bind _ _ (λ o, Inv true [] (match o with Some x => [x] | None => [] end))).
    { intros v v' o [HI _] [= <- <-]. eapply Inv_known; [done|].
      pose proof (inv_exc _ _ _ _ HI) as He. destruct (v_uncaught v) as [x|]; [|constructor].
      constructor; [by apply He|constructor]. }
    intros [i|]; [|by intros v v' x HI [=]].
    apply T_bind_ret. eapply T_bind; [vm_spec|]. intros ?.
    eapply (T_bind _ _ (λ _, Inv true [] [i])).
    { intros v v' x HI [= <- <-]. by apply Inv_set_uncaught. }
    intros ?. vm_walk.
  - eapply T_bind; [apply T_set_try, Hlen|]. intros ?.
    eapply T_conseq; [apply (T_jump (b := true) [] [])|by intros v [HI _]|auto].
Qed.

Lemma T_throw b i K :
  item_ok emptyHeap i ∨ i ∈ K → triple (Inv b [] K) (throw i) (λ _, Inv true [] []).
Proof.
  intros Hi. unfold throw. eapply (T_bind _ _ (λ _, Inv b [] [])); [|intros ?; apply T_handleException].
  intros v v' a HI [= <- <-]. apply Inv_set_uncaught; [eapply Inv_weaken; [|exact HI]; set_solver|].
  intros x [= <-]. destruct Hi as [Hi|Hi].
  - eapply item_ok_le; [|exact Hi]. intros l k. unfold loc_ok, h_get. cbn. by rewrite lookup_empty.
  - eapply Inv_item; [exact HI|done].
Qed.

Lemma keeps_try op p : triple (Inv true [] []) (exec_try op p) (λ _, Inv true [] []).
Proof.
  unfold exec_try. eapply T_bind; [apply T_top_frame|]. intros f.
  assert (∀ (P : VM → Prop) m (Q : unit → VM → Prop), (m = panic) → triple P m Q) as Hp.
  { intros P m Q ->. apply T_panic. }
  destruct op; try apply T_panic; clear Hp.
  all: try (destruct (GetTryParams _ p) as [catchP finallyP];
    eapply T_bind; [apply T_require|]; intros ?; apply T_fact; intros Hlen;
    do 3 (eapply T_bind; [apply T_reads; auto with reads|]; intros ?);
    eapply T_post; [apply T_set_try; intros _|by intros ? ? [HI _]];
    apply negb_true_iff, bool_decide_eq_false in Hlen; cbn [length]; lia).
  all: try (destruct (f_try f) as [|e tr] eqn:Etr; [apply T_panic|];
    assert (∀ tr' : list exctx, (length tr' <= S (length tr) → length (f_try f) <= Z.to_nat MaxTryNestingDepth →
                    length tr' <= Z.to_nat MaxTryNestingDepth)%nat) as Hlen by (rewrite Etr; cbn; intros; lia);
    do 2 (eapply T_bind; [apply T_reads; auto with reads|]; intros ?);
    destruct (HasFinally e); (eapply T_bind; [apply T_set_try; apply Hlen; cbn; lia|]; intros ?);
    (eapply T_conseq; [apply (T_jump (b := true) [] [])|by intros v [HI _]|auto])).
  eapply T_bind; [apply T_reads; auto with reads|]. intros [exc|].
  - eapply T_conseq; [apply (T_handleException true)|by intros v [HI _]|auto].
  - destruct (f_try f) as [|e tr] eqn:Etr; [apply T_panic|].
    eapply T_bind; [apply T_set_try; rewrite Etr; cbn; lia|]. intros ?.
    eapply T_conseq; [apply (T_jump (b := true) [] [])|by intros v [HI _]|auto].
Qed.

Lemma keeps_misc op : triple (Inv true [] []) (exec_misc op) (λ _, Inv true [] []).
Proof.
  destruct op; cbn [exec_misc]; try solve [vm_walk].
  eapply T_bind; [apply T_Pop|]. intros i. apply T_throw. right. left.
Qed.

Lemma keeps_call op p : triple (Inv true [] []) (exec_call op p) (λ _, Inv true [] []).
Proof.
  destruct op; cbn [exec_call]; try solve [vm_walk].
  - destruct (slice p 0 2) as [q|]; [|apply T_panic].
    destruct LoadToken as [h|] eqn:E; [|apply T_panic]. by apply token_keeps.
  - destruct (slice p 0 4) as [q|]; [|apply T_panic].
    destruct SyscallHandler as [h|] eqn:E; [|apply T_panic]. by apply syscall_keeps.
Qed.
End exceptions.
