(* ===== verification/VMCompound.v ===== *)
(** * VMCompound: the instructions on compound items keep the invariant

    Arrays, structs and maps are cells of the heap with a reference count; an
    instruction that changes one must count the items it brings in and release
    those it takes out when, and only when, the cell is referenced. *)

From stdpp Require Import pretty strings sorting.
From S2P Require Import Prelude Bigint StackItem RefCount Script VM VMInv.

(** ** Compound items *)

Section compound_rules.
Context {b : bool}.

(** One reference more to a cell whose items, if it was not referenced, are
    among those held. *)
Lemma IncRC_push_ok H0 H K v v' u l i c count :
  Inv b H0 K v → h_get (v_heap v) l = Some c → cell_rc c = Some 0 →
  it_loc i = Some l → item_ok (v_heap v) i → Forall (item_ok (v_heap v)) H →
  (∀ R, RCI (v_heap v) (v_refs v) (H0 ++ R) [] →
        RCI (v_heap v) (v_refs v + count - 1) (cell_items c ++ H ++ R) []) →
  (IncRC l ;; pushItemCounted i count) v = (v', Some u) → Inv b H K v'.
Proof.
  intros HI Hl Hrc Hi Hok HH Hcnt.
  pose proof (Inv_roots _ _ _ _ HI) as (Hro & _ & HK).
  unfold mbind, M_bind, IncRC, shift_rc. rewrite Hl, Hrc.
  set (h2 := h_set (v_heap v) l (set_rc c (0 + 1))).
  assert (h_le (v_heap v) h2) as Hle by (eapply h_le_set; [done|by destruct c]).
  assert (Inv b (i :: H) K (set_heap_refs h2 (v_refs v + count) v)) as HI2.
  { eapply Inv_heap_refs; [exact HI| |done| |].
    - destruct (inv_heap _ _ _ _ HI l c Hl) as [_ [Hc1 Hc2]].
      eapply heap_wf_set; [apply HI|done|by destruct c|]. split; [by rewrite cell_items_set_rc|].
      by destruct c.
    - cbn. constructor; [by eapply item_ok_le|]. apply Forall_app. by split; eapply items_ok_le.
    - intros R HR HRC. apply Hcnt in HRC.
      replace (v_refs v + count) with (v_refs v + count - 1 + 1) by lia.
      by eapply (RCI_acquire (v_heap v) _ _ [] i l c 0). }
  intros He. eapply (T_pushNoRef H K i); [exact HI2|].
  revert He. unfold pushItemCounted, pushNoRef, refs_shift, modify, mbind, M_bind, cur_stack, put_stack.
  cbn. destruct (v_stacks v !! v_estack v); [|done]. by intros [= <- <-].
Qed.

Lemma push_counted_ok H0 H K v v' u (mk : loc → item) c count :
  Inv b H0 K v → cell_ok (v_heap v) c → cell_rc c = Some 0 →
  (∀ l, it_loc (mk l) = Some l) → (∀ h l, loc_ok h l (kind c) → item_ok h (mk l)) →
  Forall (item_ok (v_heap v)) H →
  (∀ R, RCI (v_heap v) (v_refs v) (H0 ++ R) [] →
        RCI (v_heap v) (v_refs v + count - 1) (cell_items c ++ H ++ R) []) →
  push_counted mk c count v = (v', Some u) → Inv b H K v'.
Proof.
  intros HI Hc Hrc Hmk Hmk' HH Hcnt. unfold push_counted, alloc, mbind at 1, M_bind at 1, on_heap.
  destruct (h_alloc (v_heap v) c) as [l h] eqn:Ha.
  pose proof (Inv_roots _ _ _ _ HI) as (Hro & HH0 & HK).
  destruct (h_alloc_spec _ c l h (inv_heap _ _ _ _ HI) Hc Ha) as (Hw & Hle & Hn & Hg & Hm).
  pose proof (h_alloc_fresh _ c l h ltac:(by rewrite Hrc) Ha) as Hf.
  assert (Inv b (Null :: cell_items c ++ H) K (set_heap_refs h (v_refs v + count) v)) as HI1.
  { eapply Inv_heap_refs; [exact HI|done|done| |].
    - cbn. constructor; [done|]. rewrite !Forall_app.
      split_and!; (eapply items_ok_le; [exact Hle|]); [apply Hc|done|done].
    - intros R HR HRC. apply Hcnt in HRC. cbn. apply RCI_scalar; [done|].
      rewrite <- app_assoc. eapply RCI_grow; [apply HI| |intros ???; by apply Hm|done|exact HRC].
      rewrite !Forall_app. split_and!; [apply Hc|done|done]. }
  intros He. eapply (IncRC_push_ok _ H K (set_heap_refs h (v_refs v + count) v) v' u l (mk l) c 0);
    [exact HI1|exact Hg|done|done| | | |].
  - apply Hmk'. unfold loc_ok. cbn. by rewrite Hg.
  - cbn. by eapply items_ok_le.
  - intros R HR. rewrite <- app_comm_cons, <- app_assoc in HR. apply RCI_scalar in HR; [|done].
    replace (v_refs (set_heap_refs h (v_refs v + count) v) + 0 - 1)
      with (v_refs (set_heap_refs h (v_refs v + count) v) - 1) by lia. exact HR.
  - revert He. unfold IncRC, shift_rc, pushItemCounted, pushNoRef, refs_shift, modify, mbind, M_bind,
      cur_stack, put_stack. cbn. rewrite Hg, Hrc. cbn.
    destruct (v_stacks v !! v_estack v); [|done]. cbn. intros [= <- <-].
    unfold set_refs, set_heap_refs, set_stack. cbn.
    by replace (v_refs v + count + 0) with (v_refs v + count) by lia.
Qed.

Lemma key_scalar k : key_ok k → it_loc k = None.
Proof. by destruct k. Qed.

Lemma RCI_shift_scalars h refs R L :
  Forall (λ i, it_loc i = None) L → RCI h refs R [] → RCI h (refs + len L) (L ++ R) [].
Proof.
  intros HL. revert refs. induction HL as [|i L Hi HL IH]; intros refs HR; cbn.
  { rewrite len_nil. by replace (refs + 0) with refs by lia. }
  apply RCI_scalar; [done|]. rewrite len_cons.
  replace (refs + (1 + len L) - 1) with (refs + len L) by lia. by apply IH.
Qed.

Lemma keeps_new `{ENV : Env} op p : triple (Inv b [] []) (exec_new op p) (λ _, Inv b [] []).
Proof.
  assert (∀ (mk : loc → item) c, cell_items c = [] → match c with CMap m _ _ => m = NewMap | _ => True end →
    default 0 (cell_rc c) = 0 → (∀ h l, loc_ok h l (kind c) → item_ok h (mk l)) →
    triple (Inv b [] []) (l ← alloc c; PushItem (mk l)) (λ _, Inv b [] [])) as H0.
  { intros mk c Hc Hm Hrc Hmk. eapply T_bind; [apply (T_alloc _ _ c mk); [|done|done]|].
    - intros v _. split; [by rewrite Hc|]. destruct c; try done. subst. apply NewMap_wf.
    - intros l. vm_walk. }
  destruct op; cbn [exec_new]; try apply T_panic; try (by apply H0).
  all: eapply T_bind; [vm_spec|]; intros n; eapply T_bind; [apply T_require|]; intros ?; apply T_fact;
    intros Hn%negb_true_iff; apply orb_false_iff in Hn as [Hn%bool_decide_eq_false _];
    cbn [op_code bool_decide decide]; eapply T_bind; [apply T_reads; solve_reads|]; intros typ;
    intros v v' u HI; unfold makeArrayOfType, mbind, M_bind, require;
    (destruct (IsValid typ); [|done]); cbn;
    match goal with |- context [replicate _ ?x] => assert (it_loc x = None ∧ ∀ h, item_ok h x) as [Hx1 Hx2]
      by (repeat case_bool_decide; done); generalize dependent x end; intros x Hx1 Hx2;
    (eapply push_counted_ok; [exact HI| |done|done|done|constructor|]);
    [ split; [by apply Forall_replicate|done]
    | intros R HR; cbn [cell_items]; replace (v_refs v + (n + 1) - 1) with (v_refs v + len (replicate (Z.to_nat n) x))
        by (unfold len; rewrite length_replicate; lia);
      apply RCI_shift_scalars; [by apply Forall_replicate|done] ].
Qed.
End compound_rules.

Section compound_ops.
Context `{EOK : EnvOk}.

Abbreviation keeps m := (triple (Inv true [] []) m (λ _, Inv true [] [])).

Lemma T_throw_range K n : triple (Inv true [] K) (throw_range n) (λ _, Inv true [] []).
Proof. apply T_throw. by left. Qed.

Lemma T_lift_opt {A} (P : VM → Prop) (o : option A) :
  triple P (lift_opt o) (λ x v, P v ∧ o = Some x).
Proof. intros v v' x HP. destruct o; [|done]. by intros [= <- <-]. Qed.

Lemma T_mid {A B} K (m : M A) (f : A → M B) Q :
  triple (Inv true [] K) m (λ _, Inv true [] []) → (∀ a, triple (Inv true [] []) (f a) Q) →
  triple (Inv true [] K) (m ≫= f) Q.
Proof. apply T_bind. Qed.

Lemma keeps_SIZE : keeps exec_SIZE.
Proof.
  unfold exec_SIZE. eapply T_bind; [vm_spec|]. intros e. apply T_mid; [destruct e; vm_walk|].
  intros n. vm_walk.
Qed.

Lemma keeps_HASKEY : keeps exec_HASKEY.
Proof.
  unfold exec_HASKEY. do 5 (eapply T_bind; [vm_spec|]; intros ?; cbn beta).
  apply T_mid; [|intros n; vm_walk].
  match goal with |- triple _ (match ?x with _ => _ end) _ => destruct x end; try solve [vm_walk].
  all: do 3 (eapply T_bind; [vm_spec|]; intros ?; cbn beta); apply T_mid; intros; vm_walk.
Qed.

Lemma elem_in_elems m n e : m_value m !! n = Some e → e.1 ∈ elems m ∧ e.2 ∈ elems m.
Proof.
  intros He%list_elem_of_lookup_2. unfold elems.
  split; apply list_elem_of_bind; exists e; (split; [|done]); set_solver.
Qed.

Lemma keeps_PICKITEM : keeps exec_PICKITEM.
Proof.
  unfold exec_PICKITEM. do 3 (eapply T_bind; [vm_spec|]; intros ?; cbn beta).
  match goal with |- triple _ (match ?x with _ => _ end) _ => destruct x end; try solve [vm_walk].
  all: try (do 3 (eapply T_bind; [vm_spec|]; intros ?; cbn beta);
    match goal with |- triple _ (if ?c then _ else _) _ => destruct c end;
    [apply T_throw_range|]; try solve [vm_walk]).
  1,2: eapply T_bind; [apply T_lift_opt|]; intros x; apply T_fact; intros Hx%list_elem_of_lookup_2;
    eapply T_post; [eapply T_PushItem, storable_known; set_solver|vm_weaken].
  do 2 (eapply T_bind; [vm_spec|]; intros ?; cbn beta).
  match goal with |- triple _ (match ?x with _ => _ end) _ => destruct x as [n|] end.
  2:{ apply T_throw. by left. }
  eapply T_bind; [apply T_lift_opt|]. intros e. apply T_fact. intros [_ He]%elem_in_elems.
  eapply T_post; [eapply T_PushItem, storable_known; set_solver|vm_weaken].
Qed.

Lemma keeps_PACK mk :
  (∀ l, it_loc (mk l) = Some l) → (∀ h l, loc_ok h l KSeq → item_ok h (mk l)) →
  keeps (exec_PACK mk).
Proof.
  intros Hmk Hok. unfold exec_PACK. do 3 (eapply T_bind; [vm_spec|]; intros ?; cbn beta).
  eapply T_bind; [apply T_pop_n|]. intros its v v' u HI He. rewrite app_nil_r in HI.
  pose proof (Inv_roots _ _ _ _ HI) as (_ & Hits & _).
  eapply Inv_weaken; [|eapply (push_counted_ok its [] its v v' u mk (CSeq its 0 false) 1); [exact HI|split; [exact Hits|done]|done|done|done|constructor| |exact He]].
  - set_solver.
  - intros R HR. cbn. by replace (v_refs v + 1 - 1) with (v_refs v) by lia.
Qed.

Lemma elems_keys m : (m_value m).*1 ⊆ elems m.
Proof.
  intros x (e & -> & He)%list_elem_of_fmap. apply list_elem_of_lookup in He as [n He].
  by apply (elem_in_elems m n e).
Qed.

Lemma elems_values m : (m_value m).*2 ⊆ elems m.
Proof.
  intros x (e & -> & He)%list_elem_of_fmap. apply list_elem_of_lookup in He as [n He].
  by apply (elem_in_elems m n e).
Qed.

(** A map in the heap. *)
Lemma T_map_known K l :
  triple (Inv true [] K) (map_of l) (λ m v, Inv true [] (elems m ++ K) v ∧ map_wf m).
Proof.
  intros v v' m HI He. split; [by apply (T_map_of (b := true) [] K l v v' m HI He)|].
  revert He. unfold map_of, with_heap.
  destruct (h_map (v_heap v) l) as [[[x rc] ro]| |] eqn:E; cbn; try done. intros [= <- <-].
  apply h_map_Ok in E. by destruct (inv_heap _ _ _ _ HI l _ E) as [_ [_ ?]].
Qed.

Lemma keys_scalar m : map_wf m → Forall (λ i, it_loc i = None) ((m_value m).*1).
Proof.
  intros [Hk _]. apply Forall_forall. intros x (e & -> & He)%list_elem_of_fmap.
  rewrite Forall_forall in Hk. by apply key_scalar, Hk.
Qed.

Lemma keeps_KEYS : keeps exec_KEYS.
Proof.
  unfold exec_KEYS. do 3 (eapply T_bind; [vm_spec|]; intros ?; cbn beta).
  match goal with |- triple _ (match ?x with _ => _ end) _ => destruct x end; try solve [vm_walk].
  eapply T_bind; [apply T_map_known|]. intros m. apply T_fact. intros Hm v v' u HI He.
  pose proof (Inv_roots _ _ _ _ HI) as (_ & _ & HK).
  eapply Inv_weaken; [|eapply (push_counted_ok [] [] _ v v' u Array (CSeq (m_value m).*1 0 false)); [exact HI| |done|done|done|constructor| |exact He]].
  - set_solver.
  - split; [|done]. cbn. apply Forall_forall. intros x Hx. rewrite Forall_forall in HK.
    apply HK, elem_of_app. left. by apply elems_keys.
  - intros R HR. cbn [cell_items].
    replace (v_refs v + (Z.of_nat (Map_Len m) + 1) - 1) with (v_refs v + len (m_value m).*1)
      by (unfold len, Map_Len; rewrite length_fmap; lia).
    apply RCI_shift_scalars; [by apply keys_scalar|done].
Qed.

(** ** Changing a cell *)

(** A cell with new contents: [N] comes in from the items held, or was just
    counted, and [O] goes out to them. *)
Lemma Inv_set_cell H H' K v l c c' :
  Inv true H K v → h_get (v_heap v) l = Some c → kind c' = kind c → cell_rc c' = cell_rc c →
  cell_ok (v_heap v) c' →
  live_items c' ++ H' ≡ₚ live_items c ++ H →
  Inv true H' K (set_heap (h_set (v_heap v) l c') v).
Proof.
  intros HI Hl Hk Hrc Hc HP. pose proof (Inv_roots _ _ _ _ HI) as (_ & HH & HK).
  pose proof (h_le_set _ l c c' Hl Hk) as Hle.
  eapply Inv_heap_refs; [done|eapply heap_wf_set; [apply HI|done..]|done| |].
  - apply Forall_app. split; [|by eapply items_ok_le].
    assert (Forall (item_ok (v_heap v)) (live_items c' ++ H')) as HF.
    { rewrite HP. apply Forall_app. split; [|done].
      destruct (inv_heap _ _ _ _ HI l c Hl) as [_ [Hc' _]]. unfold live_items.
      destruct (IsReferenced c); [done|constructor]. }
    apply Forall_app in HF as [_ HF]. by eapply items_ok_le.
  - intros R HR. eapply (RCI_set_items _ _ _ _ [] [] l c); [done|done|].
    rewrite !app_nil_r, !app_assoc. by rewrite HP.
Qed.

Lemma keeps_REVERSEITEMS : keeps exec_REVERSEITEMS.
Proof.
  unfold exec_REVERSEITEMS. eapply T_bind; [vm_spec|]. intros e.
  assert (∀ l, triple (Inv true [] [e]) (ro ← seq_ro l; require (negb ro) ;; arr ← seq_of l; set_seq l (rev arr))
            (λ _, Inv true [] [])) as Hs.
  { intros l. do 2 (eapply T_bind; [apply T_reads; unfold seq_ro; auto with reads|]; intros ?).
    intros v v' u HI. unfold mbind, M_bind, seq_of, with_heap, set_seq, upd_heap.
    destruct (h_seq (v_heap v) l) as [[[arr rc] ro]| |] eqn:E; cbn; try done.
    rewrite E. cbn. intros [= <- _]. apply h_seq_Ok in E.
    eapply (Inv_weaken _ _ [e]); [set_solver|].
    eapply (Inv_set_cell [] [] [e]); [done|done|done|done| |].
    - destruct (inv_heap _ _ _ _ HI l _ E) as [_ [Hc _]]. split; [|done]. cbn in *.
      by rewrite <- Permutation_rev.
    - unfold live_items, IsReferenced. cbn. destruct (negb _); [by rewrite <- Permutation_rev|done]. }
  destruct e; try solve [vm_walk]; apply Hs.
Qed.
End compound_ops.

(** ** Removing references *)

Lemma rc_Remove_shift fuel i h r k :
  rc_Remove fuel i (h, r + k) = (λ s, (s.1, s.2 + k)) <$> rc_Remove fuel i (h, r).
Proof.
  revert i h r. induction fuel as [|n IH]; intros i h r; [done|]. cbn.
  destruct (it_loc i) as [l|]; [|cbn; do 2 f_equal; lia].
  destruct (h_get h l) as [c|]; [|done]. cbn. destruct (cell_rc c) as [rc|]; [|done]. cbn.
  destruct (IsReferenced c); [|done].
  replace (r + k - 1) with (r - 1 + k) by lia. case_bool_decide; [|done].
  generalize (cell_items c). generalize (r - 1). generalize (h_set h l (set_rc c (rc - 1))).
  clear -IH. intros h r L. revert h r. induction L as [|x L IHL]; intros h r; [done|]. cbn.
  rewrite IH. destruct (rc_Remove n x (h, r)) as [[h' r']|]; [|done]. cbn. apply IHL.
Qed.

Lemma Remove_info {b} H K v v' u i :
  Inv b (i :: H) K v → refs_Remove i v = (v', Some u) →
  Inv b H K v' ∧ rc_le (v_heap v) (v_heap v').
Proof.
  intros HI He. split; [by eapply T_refs_Remove|]. revert He. unfold refs_Remove.
  destruct (rc_Remove _ i _) as [[h r]|] eqn:E; [|done]. intros [= <- _]. cbn.
  destruct (inv_rc _ _ _ _ HI) as (G & HG & HR).
  destruct (rc_Remove_ok (rc_fuel (v_heap v)) i (v_heap v) (v_refs v) (roots v ++ H ++ G))
    as (h' & r' & He & _ & Hle).
  - apply HI.
  - eapply Inv_item; [done|left].
  - eapply RCI_perm; [| |exact HR]; [|done]. solve_Permutation.
  - unfold rc_fuel. pose proof (tally_size is_live (v_heap v) is_live_le). lia.
  - rewrite E in He. by simplify_eq.
Qed.

Lemma dead_cell {b} H K v h l c :
  Inv b H K v → rc_le h (v_heap v) → h_get h l = Some c → cell_rc c = Some 0 →
  h_get (v_heap v) l = Some c.
Proof.
  intros HI [Hs Hle] Hl Hc. destruct (h_sim_get h _ l c Hs Hl) as (c' & Hl' & He).
  rewrite Hl'. f_equal. destruct (h_sim_rc h _ l c 0 Hs Hl Hc) as (c2 & rc & Hl2 & Hc2 & _).
  assert (c2 = c') as -> by congruence. specialize (Hle l c c' 0 rc Hl Hl2 Hc Hc2).
  destruct (inv_rc _ _ _ _ HI) as (G & _ & [HR _]). destruct (HR l c' rc Hl2 Hc2) as [? _].
  assert (rc = 0) as -> by lia. by destruct c, c'; cbn in *; simplify_eq.
Qed.

(** The reference [old] of a live cell is replaced by [N], which is held. *)
Lemma Inv_replace N K v v1 u l c rc old c' :
  Inv true N K v → h_get (v_heap v) l = Some c → cell_rc c = Some rc → 0 < rc →
  old ∈ cell_items c → refs_Remove old v = (v1, Some u) →
  ∃ rc', h_get (v_heap v1) l = Some (set_rc c rc') ∧ h_le (v_heap v) (v_heap v1) ∧
    (kind c' = kind c → cell_rc c' = Some rc' → cell_ok (v_heap v1) c' →
     cell_items c' ++ [old] ≡ₚ cell_items c ++ N →
     Inv true [] K (set_heap (h_set (v_heap v1) l c') v1)).
Proof.
  intros HI Hl Hc Hrc Hold. unfold refs_Remove.
  destruct (rc_Remove _ old _) as [[h1 r1]|] eqn:E; [|done]. intros [= <- _].
  destruct (inv_rc _ _ _ _ HI) as (G & HG & HR).
  destruct (Remove_held old _ _ _ l c rc (inv_heap _ _ _ _ HI) Hl Hc Hrc Hold HR)
    as (h' & r' & rc' & He & Hle & Hl' & _).
  rewrite E in He. simplify_eq. exists rc'. cbn. split; [done|].
  assert (h_le (v_heap v) h') as Hle' by (apply h_sim_le, Hle). split; [done|].
  intros Hk Hc' Hok HP. pose proof (Inv_roots _ _ _ _ HI) as (_ & HN & HK).
  assert (heap_wf h') as Hw by (eapply h_sim_wf; [apply Hle|apply HI]).
  assert (kind c' = kind (set_rc c rc')) as Hk2 by (rewrite Hk; by destruct c).
  assert (cell_rc (set_rc c rc') = Some rc') as Hsrc by by eapply cell_rc_set_rc.
  pose proof (h_le_set h' l _ c' Hl' Hk2) as Hle2.
  assert (heap_wf (h_set h' l c')) as Hw2 by (by eapply heap_wf_set).
  assert (h_le (v_heap v) (h_set h' l c')) as Hle3 by (etrans; [exact Hle'|exact Hle2]).
  change (set_heap _ _) with (set_heap_refs (h_set h' l c') r' v).
  destruct (decide (rc' = 0)) as [->|Hne].
  - apply (Inv_leak true [] N). rewrite app_nil_r.
    eapply (Inv_heap_refs true N K N K v); [done|exact Hw2|exact Hle3| |].
    + apply Forall_app. split; (eapply items_ok_le; [exact Hle3|done]).
    + intros R _ HRC.
      destruct (Remove_held old _ _ _ l c rc (inv_heap _ _ _ _ HI) Hl Hc Hrc Hold HRC)
        as (h2 & r2 & rc2 & He & _ & Hl2 & Hcase).
      rewrite E in He. injection He as <- <-. rewrite Hl' in Hl2.
      assert (rc2 = 0) as ->.
      { assert (cell_rc (set_rc c rc2) = Some rc2) by by eapply cell_rc_set_rc. congruence. }
      destruct Hcase as [[? _]|[_ HRC']]; [lia|].
      eapply (RCI_set_items h' r' _ _ [] [] l (set_rc c 0)); [done|congruence| |exact HRC'].
      unfold live_items. by rewrite (IsReferenced_rc _ 0 Hc'), (IsReferenced_rc _ 0 Hsrc).
  - eapply (Inv_heap_refs true N K [] K v); [done|exact Hw2|exact Hle3| |].
    + eapply items_ok_le; [exact Hle3|done].
    + intros R _ HRC.
      destruct (Remove_held old _ _ _ l c rc (inv_heap _ _ _ _ HI) Hl Hc Hrc Hold HRC)
        as (h2 & r2 & rc2 & He & _ & Hl2 & Hcase).
      rewrite E in He. injection He as <- <-. rewrite Hl' in Hl2.
      assert (rc2 = rc') as ->.
      { assert (cell_rc (set_rc c rc2) = Some rc2) by by eapply cell_rc_set_rc. congruence. }
      destruct Hcase as [[_ HRC']|[? _]]; [|lia].
      eapply (RCI_set_items h' r' _ R [old] [] l (set_rc c rc')); [done|congruence| |exact HRC'].
      unfold live_items. rewrite (IsReferenced_rc _ rc' Hc'), (IsReferenced_rc _ rc' Hsrc).
      rewrite bool_decide_eq_false_2 by done. cbn. rewrite cell_items_set_rc.
      rewrite app_nil_r. transitivity ((cell_items c' ++ [old]) ++ R); [solve_Permutation|].
      rewrite HP. solve_Permutation.
Qed.

Section compound_ops2.
Context `{EOK : EnvOk}.

Abbreviation keeps m := (triple (Inv true [] []) m (λ _, Inv true [] [])).

(** An item is stored in a cell and counted when the cell is live. *)
Lemma Inv_store K v v' u l c c' x :
  Inv true [] K v → h_get (v_heap v) l = Some c → kind c' = kind c → cell_rc c' = cell_rc c →
  cell_ok (v_heap v) c' → x ∈ K → cell_items c' ≡ₚ cell_items c ++ [x] →
  (if IsReferenced c then refs_Add x else mret tt) (set_heap (h_set (v_heap v) l c') v) = (v', Some u) →
  Inv true [] K v'.
Proof.
  intros HI Hl Hk Hrc Hc Hx HP. pose proof (Inv_roots _ _ _ _ HI) as (Hro & _ & HK).
  assert (IsReferenced c' = IsReferenced c) as Hr by (unfold IsReferenced; by rewrite Hrc).
  pose proof (h_le_set _ l c c' Hl Hk) as Hle.
  assert (heap_wf (h_set (v_heap v) l c')) as Hw by (eapply heap_wf_set; [apply HI|done..]).
  destruct (IsReferenced c) eqn:E.
  2:{ intros [= <- <-]. eapply (Inv_set_cell [] [] K); [done..|].
      unfold live_items. by rewrite Hr, E. }
  unfold refs_Add. set (h1 := h_set (v_heap v) l c') in *.
  change (v_heap (set_heap h1 v)) with h1. change (v_refs (set_heap h1 v)) with (v_refs v).
  destruct (rc_Add (rc_fuel h1) x (h1, v_refs v)) as [[h2 r2]|] eqn:Ea; [|done]. intros [= <- <-].
  assert (item_ok h1 x) as Hxok.
  { eapply item_ok_le; [done|]. rewrite Forall_forall in HK. by apply HK. }
  assert (∀ R, RCI (v_heap v) (v_refs v) R [] → RCI h2 r2 R [] ∧ h_sim h1 h2) as Hadd.
  { intros R HR. destruct (rc_Add_ok (rc_fuel h1) x h1 (v_refs v) R []) as (h & r & He & HR' & Hs & _);
      [done|done| |unfold rc_fuel; pose proof (tally_size is_zero h1 is_zero_le); lia|].
    - eapply (RCI_set_items _ _ R R [] [x] l c); [done|done| |done].
      unfold live_items. rewrite Hr, E, HP. solve_Permutation.
    - rewrite Ea in He. by injection He as <- <-. }
  destruct (inv_rc _ _ _ _ HI) as (G & HG & HR0).
  pose proof (proj2 (Hadd _ HR0)) as Hs. pose proof (h_sim_le _ _ Hs) as Hle2.
  change (set_heap_refs h2 r2 (set_heap h1 v)) with (set_heap_refs h2 r2 v).
  eapply (Inv_heap_refs true [] K [] K); [done|by eapply h_sim_wf|by etrans| |].
  - eapply items_ok_le; [|exact HK]. by etrans.
  - intros R _ HR. by apply Hadd.
Qed.

Lemma is_referenced_Some l v v' r :
  is_referenced l v = (v', Some r) → v' = v ∧ ∃ c, h_get (v_heap v) l = Some c ∧ r = IsReferenced c.
Proof. unfold is_referenced. destruct (h_get (v_heap v) l) as [c|]; [|done]. intros [= <- <-]. eauto. Qed.

Lemma seq_update_Ok h l f h' :
  seq_update h l f = Ok h' →
  ∃ arr rc arr', h_get h l = Some (CSeq arr rc false) ∧ f arr = Ok arr'
    ∧ h' = h_set h l (CSeq arr' rc false).
Proof.
  unfold seq_update. destruct (h_seq h l) as [[[arr rc] ro]| |] eqn:E; try done. cbn.
  destruct ro; [done|]. destruct (f arr) as [arr'| |] eqn:Ef; try done. cbn. intros [= <-].
  apply h_seq_Ok in E. eauto 8.
Qed.

Lemma keeps_APPEND : keeps exec_APPEND.
Proof.
  unfold exec_APPEND. do 3 (eapply T_bind; [vm_spec|]; intros ?; cbn beta).
  match goal with |- context [c ← mret ?x; _] => idtac | _ => idtac end.
  match goal with |- triple (Inv _ _ (?x.1 :: _)) _ _ => rename x into val end.
  assert (∀ l K, val.1 ∈ K → triple (Inv true [] K)
    (isReferenced ← is_referenced l;
     upd_heap (λ h, Seq_Append h l val.1) ;;
     if isReferenced : bool then refs_Add val.1 else mret tt) (λ _, Inv true [] [])) as Hs.
  { intros l K Hval v v' u HI. unfold mbind, M_bind.
    destruct (is_referenced l v) as [v1 [r|]] eqn:Er; [|done].
    apply is_referenced_Some in Er as (-> & c & Hl & ->).
    unfold upd_heap. destruct (Seq_Append (v_heap v) l val.1) as [h| |] eqn:Ea; try done.
    apply seq_update_Ok in Ea as (arr & rc & arr' & Hg & [= <-] & ->). simplify_eq.
    intros He. eapply (Inv_weaken _ _ K); [set_solver|].
    eapply (Inv_store K v v' u l _ (CSeq (arr ++ [val.1]) rc false) val.1);
      [done|exact Hl|done|done| |done|done|exact He].
    destruct (inv_heap _ _ _ _ HI l _ Hl) as [_ [Hc _]]. split; [|done]. cbn in *.
    apply Forall_app. split; [done|]. constructor; [|constructor].
    eapply Inv_item; [done|]. cbn. done. }
  match goal with |- triple _ (match ?x with _ => _ end) _ => destruct x end; try solve [vm_walk].
  all: apply Hs; left.
Qed.

Lemma T_each_Remove_pairs (L : list (item * item)) H K :
  triple (Inv true ((L ≫= λ e, [e.1; e.2]) ++ H) K)
    (each (λ e, refs_Remove e.1 ;; refs_Remove e.2) L) (λ _, Inv true H K).
Proof.
  induction L as [|e L IH]; cbn; [by apply T_ret|].
  eapply T_bind; [eapply T_bind; [apply T_refs_Remove|intros ?; apply T_refs_Remove]|].
  intros ?. exact IH.
Qed.

(** A cell is emptied and its items are released when it is live. *)
Lemma Inv_clear K v l c c' :
  Inv true [] K v → h_get (v_heap v) l = Some c → kind c' = kind c → cell_rc c' = cell_rc c →
  cell_ok (v_heap v) c' → cell_items c' = [] →
  Inv true (if IsReferenced c then cell_items c else []) K (set_heap (h_set (v_heap v) l c') v).
Proof.
  intros HI Hl Hk Hrc Hc Hit. eapply (Inv_set_cell []); [done..|].
  unfold live_items. rewrite Hit. destruct (IsReferenced c'); by rewrite app_nil_r.
Qed.

Lemma keeps_CLEARITEMS : keeps exec_CLEARITEMS.
Proof.
  unfold exec_CLEARITEMS. eapply T_bind; [vm_spec|]. intros e.
  assert (∀ l, triple (Inv true [] [e])
    (ro ← seq_ro l; require (negb ro) ;;
     elems ← seq_of l;
     upd_heap (λ h, Seq_Clear h l) ;;
     isReferenced ← is_referenced l;
     if isReferenced : bool then each refs_Remove elems else mret tt) (λ _, Inv true [] [])) as Hs.
  { intros l. do 2 (eapply T_bind; [apply T_reads; unfold seq_ro; auto with reads|]; intros ?).
    intros v v' u HI. unfold mbind, M_bind, seq_of, with_heap, upd_heap.
    destruct (h_seq (v_heap v) l) as [[[arr rc] ro]| |] eqn:E; try done. cbn.
    apply h_seq_Ok in E.
    destruct (Seq_Clear (v_heap v) l) as [h| |] eqn:Ec; try done.
    apply seq_update_Ok in Ec as (arr2 & rc2 & ? & Hg & [= <-] & ->).
    rewrite E in Hg. injection Hg as <- <- ->.
    destruct (is_referenced l _) as [v1 [r|]] eqn:Er; [|done].
    apply is_referenced_Some in Er as (-> & c & Hl & ->). cbn in Hl.
    rewrite h_get_set, decide_True in Hl by done. simplify_eq.
    pose proof (Inv_clear [e] v l _ (CSeq [] rc false) HI E eq_refl eq_refl
                  ltac:(by split; [constructor|]) eq_refl) as HI2.
    change (IsReferenced (CSeq [] rc false)) with (IsReferenced (CSeq arr rc false)).
    destruct (IsReferenced (CSeq arr rc false)).
    - cbn [cell_items] in HI2. rewrite <- (app_nil_r arr) in HI2. intros He.
      eapply (Inv_weaken _ _ [e]); [set_solver|]. eapply T_each_Remove; [exact HI2|exact He].
    - intros [= <- <-]. eapply (Inv_weaken _ _ [e]); [set_solver|]. exact HI2. }
  destruct e as [| | | | | | |l| |]; try solve [vm_walk]; try apply Hs.
  do 2 (eapply T_bind; [apply T_reads; unfold map_ro; auto with reads|]; intros ?).
  intros v v' u HI. unfold mbind, M_bind, map_of, with_heap, upd_heap.
  destruct (h_map (v_heap v) l) as [[[m rc] ro]| |] eqn:E; try done. cbn.
  unfold Map_Clear. rewrite E. cbn. destruct ro; [done|].
  apply h_map_Ok in E.
  destruct (is_referenced l _) as [v1 [r|]] eqn:Er; [|done].
  apply is_referenced_Some in Er as (-> & c & Hl & ->). cbn in Hl.
  rewrite h_get_set, decide_True in Hl by done. simplify_eq.
  pose proof (Inv_clear [Map l] v l _ (CMap NewMap rc false) HI E eq_refl eq_refl
                ltac:(split; [constructor|apply NewMap_wf]) eq_refl) as HI2.
  change (IsReferenced (CMap NewMap rc false)) with (IsReferenced (CMap m rc false)).
  destruct (IsReferenced (CMap m rc false)).
  - cbn [cell_items] in HI2. rewrite <- (app_nil_r (elems m)) in HI2. intros He.
    eapply (Inv_weaken _ _ [Map l]); [set_solver|]. eapply T_each_Remove_pairs; [exact HI2|exact He].
  - intros [= <- <-]. eapply (Inv_weaken _ _ [Map l]); [set_solver|]. exact HI2.
Qed.

(** Pushing changes nothing in the heap but counts. *)
Lemma PushItem_sim H K v v' u i :
  Inv true H K v → item_ok (v_heap v) i → PushItem i v = (v', Some u) → h_sim (v_heap v) (v_heap v').
Proof.
  intros HI Hi. unfold PushItem, pushNoRef, mbind, M_bind.
  destruct (cur_stack v) as [v1 [s|]] eqn:E; [|done].
  apply cur_stack_Some in E as (-> & Hs & Hd). unfold put_stack.
  rewrite refs_Add_set_stack. destruct (refs_Add i v) as [v2 x] eqn:E. intros [= <- ->].
  unfold refs_Add in E. destruct (rc_Add _ i _) as [[h r]|] eqn:E2; [|done].
  injection E as <- <-. destruct (inv_rc _ _ _ _ HI) as (G & HG & HR).
  destruct (Add_ok i _ _ _ (inv_heap _ _ _ _ HI) Hi HR) as (h' & r' & He & _ & Hsim).
  rewrite E2 in He. by injection He as <- <-.
Qed.

Lemma keeps_POPITEM : keeps exec_POPITEM.
Proof.
  unfold exec_POPITEM. eapply T_bind; [vm_spec|]. intros e.
  assert (∀ l, triple (Inv true [] [e])
    (elems ← seq_of l;
     elem ← lift_opt (last elems);
     PushItem elem ;;
     upd_heap (λ h, Seq_Remove h l (length elems - 1)) ;;
     isReferenced ← is_referenced l;
     if isReferenced : bool then refs_Remove elem else mret tt) (λ _, Inv true [] [])) as Hs.
  { intros l v v' u HI. unfold mbind at 1, M_bind at 1, seq_of, with_heap.
    destruct (h_seq (v_heap v) l) as [[[arr rc] ro]| |] eqn:E; try done. cbn.
    apply h_seq_Ok in E. pose proof (cell_items_known [] [e] v l _ HI E) as HI0. cbn [cell_items] in HI0.
    destruct (last arr) as [x|] eqn:Elast; [|done]. unfold mbind at 1, M_bind at 1. cbn.
    assert (arr !! (length arr - 1)%nat = Some x) as Hx.
    { rewrite <- Elast. rewrite last_lookup. f_equal. lia. }
    pose proof (list_elem_of_lookup_2 _ _ _ Hx) as Hin.
    assert (item_ok (v_heap v) x) as Hxok by (eapply Inv_item; [exact HI0|set_solver]).
    unfold mbind, M_bind.
    destruct (PushItem x v) as [v1 [u1|]] eqn:Ep; [|done].
    pose proof (PushItem_sim [] _ v v1 u1 x HI0 Hxok Ep) as Hsim.
    assert (Inv true [] (arr ++ [e]) v1) as HI1.
    { eapply (T_PushItem (b := true) [] (arr ++ [e]) x); [|exact HI0|exact Ep].
      apply storable_known. set_solver. }
    unfold upd_heap. destruct (Seq_Remove (v_heap v1) l _) as [h| |] eqn:Er; try done.
    apply seq_update_Ok in Er as (arr1 & rc1 & arr2 & Hg & Hr & ->).
    destruct (h_sim_get _ _ l _ Hsim E) as (c2 & Hc2 & Her). rewrite Hg in Hc2. simplify_eq.
    rewrite bool_decide_eq_true_2 in Hr by (by eapply lookup_lt_Some). injection Hr as <-.
    destruct (is_referenced l _) as [v2 [r|]] eqn:Eref; [|done].
    apply is_referenced_Some in Eref as (-> & c & Hl & ->). cbn in Hl.
    rewrite h_get_set, decide_True in Hl by done. simplify_eq.
    pose proof (delete_Permutation _ _ _ Hx) as HP.
    set (c' := CSeq (delete (length arr - 1)%nat arr) rc1 false).
    assert (Inv true (if IsReferenced c' then [x] else []) (arr ++ [e])
              (set_heap (h_set (v_heap v1) l c') v1)) as HI2.
    { eapply (Inv_set_cell [] _ _ v1 l _ c'); [exact HI1|exact Hg|done|done| |].
      - destruct (inv_heap _ _ _ _ HI1 l _ Hg) as [_ [Hc _]]. split; [|done]. cbn in *.
        by apply Forall_delete.
      - unfold live_items. change (IsReferenced (CSeq arr rc1 false)) with (IsReferenced c').
        destruct (IsReferenced c'); [|done]. cbn [cell_items c']. rewrite app_nil_r.
        transitivity (x :: delete (length arr - 1)%nat arr); [solve_Permutation|by symmetry]. }
    destruct (IsReferenced c'); intros He.
    - eapply (Inv_weaken _ _ (arr ++ [e])); [set_solver|]. eapply T_refs_Remove; [exact HI2|exact He].
    - injection He as <- _. eapply (Inv_weaken _ _ (arr ++ [e])); [set_solver|]. exact HI2. }
  destruct e; try solve [vm_walk]; apply Hs.
Qed.
End compound_ops2.

(** ** SETITEM *)

Section setitem.
Context `{EOK : EnvOk}.

Abbreviation keeps m := (triple (Inv true [] []) m (λ _, Inv true [] [])).

(** The machine with a known sequence or map in the heap. *)
Definition SeqAt (l : loc) (arr : list item) (H K : list item) (v : VM) : Prop :=
  Inv true H K v ∧ ∃ rc ro, h_get (v_heap v) l = Some (CSeq arr rc ro).
Definition MapAt (l : loc) (m : smap) (H K : list item) (v : VM) : Prop :=
  Inv true H K v ∧ ∃ rc ro, h_get (v_heap v) l = Some (CMap m rc ro).

Lemma T_seq_at H K l : triple (Inv true H K) (seq_of l) (λ arr, SeqAt l arr H (arr ++ K)).
Proof.
  intros v v' arr HI He. split; [by eapply T_seq_of|]. revert He. unfold seq_of, with_heap.
  destruct (h_seq (v_heap v) l) as [[[x rc] ro]| |] eqn:E; cbn; try done. intros [= <- <-].
  apply h_seq_Ok in E. eauto.
Qed.

Lemma T_validate (P : VM → Prop) key : triple P (validateMapKey key) (λ _ v, P v ∧ key_ok key).
Proof.
  intros v v' u HP. unfold validateMapKey, key_ok, mbind, M_bind.
  destruct (IsValidMapKey key) as [[]| |]; try done. by intros [= <- <-].
Qed.

Lemma set_seq_run v l arr0 arr rc ro :
  h_get (v_heap v) l = Some (CSeq arr0 rc ro) →
  set_seq l arr v = (set_heap (h_set (v_heap v) l (CSeq arr rc ro)) v, Some tt).
Proof. intros Hl. unfold set_seq, upd_heap, h_seq. by rewrite Hl. Qed.

Lemma T_clone_same H K i :
  i ∈ H ++ K →
  triple (Inv true H K) (cloneIfStruct i) (λ c v, Inv true H (c.1 :: K) v ∧ (c.2 = false → c.1 = i)).
Proof.
  intros Hi v v' c HI He. split.
  - revert HI He. apply T_cloneIfStruct. by apply storable_known.
  - revert He. destruct i; cbn; try (by intros [= _ <-]).
    unfold mbind, M_bind. destruct (on_heap _ v) as [v1 [l'|]]; [|done]. by intros [= _ <-].
Qed.

(** A clone of a struct is counted in the place of the struct itself. *)
Lemma T_hold i cl (st : bool) H K :
  cl ∈ K → (st = false → cl = i) →
  triple (Inv true (i :: H) K) (if st then refs_Remove i ;; refs_Add cl else mret tt)
    (λ _, Inv true (cl :: H) K).
Proof.
  intros Hcl Hc. destruct st; [|rewrite Hc by done; by apply T_ret].
  eapply T_bind; [apply T_refs_Remove|]. intros ?. apply T_refs_Add, storable_known. set_solver.
Qed.

Lemma insert_swap_perm (arr : list item) n old x :
  arr !! n = Some old → <[n := x]> arr ++ [old] ≡ₚ arr ++ [x].
Proof.
  intros Hn. rewrite insert_take_drop by (by eapply lookup_lt_Some).
  rewrite <- (take_drop_middle arr n old Hn) at 3. solve_Permutation.
Qed.

(** An element is replaced: its reference is released when the sequence is
    live, that of the new element when it is not. *)
Lemma T_seq_store l arr n cl K :
  (n < length arr)%nat →
  triple (SeqAt l arr [cl] K)
    (isReferenced ← is_referenced l;
     (if isReferenced : bool then old ← lift_opt (arr !! n); refs_Remove old else refs_Remove cl) ;;
     set_seq l (<[n := cl]> arr)) (λ _, Inv true [] K).
Proof.
  intros Hn v v' u [HI (rc & ro & Hl)]. unfold mbind at 1, M_bind at 1, is_referenced. rewrite Hl.
  destruct (lookup_lt_is_Some_2 _ _ Hn) as [old Hold].
  destruct (inv_rc _ _ _ _ HI) as (G & HG & HR).
  destruct (proj1 HR l (CSeq arr rc ro) rc Hl eq_refl) as [Hrc _].
  assert (Forall (item_ok (v_heap v)) (<[n := cl]> arr)) as Hok.
  { apply Forall_insert; [by destruct (inv_heap _ _ _ _ HI l _ Hl) as [_ [? _]]|].
    eapply Inv_item; [done|left]. }
  rewrite (IsReferenced_rc (CSeq arr rc ro) rc eq_refl). case_bool_decide as Hz; cbn [negb].
  - subst rc. unfold mbind, M_bind. destruct (refs_Remove cl v) as [v1 [u1|]] eqn:E; [|done].
    destruct (Remove_info [] K v v1 u1 cl HI E) as [HI1 Hle].
    pose proof (dead_cell [] K v1 _ l _ HI1 Hle Hl eq_refl) as Hl1.
    rewrite (set_seq_run v1 l arr _ 0 ro Hl1). intros [= <- _].
    eapply (Inv_set_cell [] [] K); [done|exact Hl1|done|done| |done].
    split; [|done]. eapply items_ok_le; [apply h_sim_le, Hle|exact Hok].
  - unfold mbind, M_bind. rewrite Hold. cbn.
    destruct (refs_Remove old v) as [v1 [u1|]] eqn:E; [|done].
    destruct (Inv_replace [cl] K v v1 u1 l (CSeq arr rc ro) rc old (CSeq (<[n := cl]> arr) 0 ro) HI Hl eq_refl ltac:(lia))
      as (rc' & Hl1 & Hle & _); [by eapply list_elem_of_lookup_2|done|].
    destruct (Inv_replace [cl] K v v1 u1 l (CSeq arr rc ro) rc old (CSeq (<[n := cl]> arr) rc' ro) HI Hl eq_refl ltac:(lia))
      as (rc2 & Hl2 & _ & Hrep); [by eapply list_elem_of_lookup_2|done|].
    cbn in Hl1, Hl2. rewrite Hl1 in Hl2. injection Hl2 as <-.
    rewrite (set_seq_run v1 l arr _ rc' ro Hl1). intros [= <- _]. apply Hrep; [done|done| |].
    + split; [|done]. by eapply items_ok_le.
    + by apply insert_swap_perm.
Qed.
Lemma Map_Add_run h l m rc ro key x r h' :
  h_get h l = Some (CMap m rc ro) → map_wf m → key_ok key → Map_Add h l key x = Ok (r, h') →
  ro = false ∧ r = alist_get (m_value m) key ∧
  ∃ m', h' = h_set h l (CMap m' rc ro) ∧ map_wf m' ∧ m_value m' = alist_set (m_value m) key x.
Proof.
  intros Hl Hwf Hk. unfold Map_Add, h_map. rewrite Hk, Hl. cbn. destruct ro; [done|].
  destruct (map_add_spec h m key x Hwf Hk) as (m' & -> & Hw & Hv). cbn. intros [= <- <-]. eauto 8.
Qed.

Lemma elems_set_new m m' key x :
  alist_index (m_value m) key = None → m_value m' = alist_set (m_value m) key x →
  elems m' = elems m ++ [key; x].
Proof. intros Hi Hv. unfold elems. rewrite Hv. unfold alist_set. by rewrite Hi, bind_app. Qed.

Lemma elems_set_old m m' key x i e :
  alist_index (m_value m) key = Some i → m_value m !! i = Some e → e.1 = key →
  m_value m' = alist_set (m_value m) key x →
  elems m' ++ [e.2] ≡ₚ elems m ++ [x].
Proof.
  intros Hi He Hk Hv. unfold elems. rewrite Hv. unfold alist_set. rewrite Hi.
  rewrite insert_take_drop by (by eapply lookup_lt_Some).
  rewrite <- (take_drop_middle (m_value m) i e He) at 3.
  rewrite !bind_app. cbn. rewrite Hk. solve_Permutation.
Qed.

Lemma map_cell_ok h m m' rc ro N O :
  Forall (item_ok h) (elems m ++ N) → elems m' ++ O ≡ₚ elems m ++ N → map_wf m' →
  cell_ok h (CMap m' rc ro).
Proof. intros HF HP Hw. rewrite <- HP in HF. apply Forall_app in HF as [HF _]. done. Qed.

Lemma refs_Add_scalar i v : it_loc i = None → refs_Add i v = (set_refs (v_refs v + 1) v, Some tt).
Proof. intros Hi. unfold refs_Add. cbn [rc_Add rc_fuel]. by rewrite Hi. Qed.

Lemma T_map_ro_at H K l :
  triple (Inv true H K) (map_ro l)
    (λ ro v, Inv true H K v ∧ ∃ m rc, h_get (v_heap v) l = Some (CMap m rc ro)).
Proof.
  intros v v' ro HI. unfold map_ro, with_heap.
  destruct (h_map (v_heap v) l) as [[[m rc] ro']| |] eqn:E; cbn; try done. intros [= <- <-].
  apply h_map_Ok in E. eauto.
Qed.

(** A pair is stored in a map that is not referenced. *)
Lemma map_store_dead l key cl K v v1 u m ro p v' :
  key_ok key → key ∈ K → Inv true [cl] K v → h_get (v_heap v) l = Some (CMap m 0 ro) → map_wf m →
  refs_Remove cl v = (v1, Some u) → on_heap (λ h, Map_Add h l key cl) v1 = (v', Some p) →
  Inv true [] K v'.
Proof.
  intros Hk HkK HI Hl Hwf Hrm. destruct (Remove_info [] K v v1 u cl HI Hrm) as [HI1 Hle].
  pose proof (dead_cell [] K v1 _ l _ HI1 Hle Hl eq_refl) as Hl1. unfold on_heap.
  destruct (Map_Add (v_heap v1) l key cl) as [[r h']| |] eqn:Ea; try done. intros [= <- _].
  destruct (Map_Add_run _ l m 0 ro key cl r h' Hl1 Hwf Hk Ea) as (-> & _ & m' & -> & Hw' & Hv').
  assert (h_le (v_heap v) (v_heap v1)) as Hle' by apply h_sim_le, Hle.
  assert (Forall (item_ok (v_heap v1)) (elems m ++ [key; cl])) as HF.
  { apply Forall_app. split; [by destruct (inv_heap _ _ _ _ HI1 l _ Hl1) as [_ [? _]]|].
    repeat constructor; (eapply item_ok_le; [exact Hle'|]); (eapply Inv_item; [exact HI|set_solver]). }
  eapply (Inv_set_cell [] [] K); [done|exact Hl1|done|done| |done].
  destruct (alist_index (m_value m) key) as [i|] eqn:Ei.
  - pose proof Ei as Ei'. apply (alist_index_Some m key i Hwf) in Ei' as (e & He & Hek).
    eapply (map_cell_ok _ m m' _ _ [cl] [e.2]); [|by eapply elems_set_old|done].
    apply Forall_app in HF as [HF1 HF2]. inv HF2. by apply Forall_app.
  - eapply (map_cell_ok _ m m' _ _ [key; cl] []); [done| |done].
    by rewrite (elems_set_new m m' key cl), app_nil_r.
Qed.

(** A pair whose key is new is stored in a live map. *)
Lemma map_store_new l key cl K v m rc ro p v' :
  key_ok key → key ∈ K → Inv true [cl] K v → h_get (v_heap v) l = Some (CMap m rc ro) → map_wf m →
  rc ≠ 0 → alist_index (m_value m) key = None →
  (refs_Add key ;; on_heap (λ h, Map_Add h l key cl)) v = (v', Some p) →
  Inv true [] K v'.
Proof.
  intros Hk HkK HI Hl Hwf Hrc Hi. unfold mbind, M_bind.
  pose proof (T_refs_Add (b := true) [cl] K key) as Hadd.
  destruct (refs_Add key v) as [v1 [u1|]] eqn:E; [|done].
  assert (Inv true [key; cl] K v1) as HI1.
  { eapply Hadd; [|exact HI|exact E]. apply storable_known. set_solver. }
  rewrite refs_Add_scalar in E by by apply key_scalar. injection E as <- _. unfold on_heap.
  set (v1 := set_refs _ v) in *. change (v_heap v) with (v_heap v1) in Hl.
  destruct (Map_Add (v_heap v1) l key cl) as [[r h']| |] eqn:Ea; try done. intros [= <- _].
  destruct (Map_Add_run _ l m rc ro key cl r h' Hl Hwf Hk Ea) as (-> & _ & m' & -> & Hw' & Hv').
  pose proof (elems_set_new m m' key cl Hi Hv') as Hel.
  eapply (Inv_set_cell [key; cl] [] K); [done|exact Hl|done|done| |].
  - eapply (map_cell_ok _ m m' _ _ [key; cl] []); [|by rewrite Hel, app_nil_r|done].
    apply Forall_app. split; [by destruct (inv_heap _ _ _ _ HI1 l _ Hl) as [_ [? _]]|].
    repeat constructor; (eapply Inv_item; [exact HI1|set_solver]).
  - unfold live_items. rewrite (IsReferenced_rc (CMap m' rc false) rc eq_refl),
      (IsReferenced_rc (CMap m rc false) rc eq_refl), bool_decide_eq_false_2 by done. cbn.
    by rewrite Hel, app_nil_r.
Qed.

(** The value of a key is replaced in a live map. *)
Lemma map_store_old l key cl K v v1 u m rc ro i e p v' :
  key_ok key → Inv true [cl] K v → h_get (v_heap v) l = Some (CMap m rc ro) → map_wf m →
  0 < rc → alist_index (m_value m) key = Some i → m_value m !! i = Some e → e.1 = key →
  refs_Remove e.2 v = (v1, Some u) → on_heap (λ h, Map_Add h l key cl) v1 = (v', Some p) →
  Inv true [] K v'.
Proof.
  intros Hk HI Hl Hwf Hrc Hi He Hek Hrm. unfold on_heap.
  assert (e.2 ∈ cell_items (CMap m rc ro)) as Hin by by apply (elem_in_elems m i e).
  destruct (Inv_replace [cl] K v v1 u l (CMap m rc ro) rc e.2 (CMap m 0 ro) HI Hl eq_refl Hrc Hin Hrm)
    as (rc' & Hl1 & Hle & _). cbn in Hl1.
  destruct (Map_Add (v_heap v1) l key cl) as [[r h']| |] eqn:Ea; try done. intros [= <- _].
  destruct (Map_Add_run _ l m rc' ro key cl r h' Hl1 Hwf Hk Ea) as (-> & _ & m' & -> & Hw' & Hv').
  destruct (Inv_replace [cl] K v v1 u l (CMap m rc false) rc e.2 (CMap m' rc' false) HI Hl eq_refl Hrc Hin Hrm)
    as (rc2 & Hl2 & _ & Hrep). cbn in Hl2. rewrite Hl1 in Hl2. injection Hl2 as <-.
  pose proof (elems_set_old m m' key cl i e Hi He Hek Hv') as HP.
  apply Hrep; [done|done| |exact HP].
  eapply (map_cell_ok _ m m' _ _ [cl] [e.2]); [|exact HP|done].
  eapply items_ok_le; [exact Hle|]. apply Forall_app.
  split; [by destruct (inv_heap _ _ _ _ HI l _ Hl) as [_ [? _]]|].
  constructor; [|constructor]. eapply Inv_item; [exact HI|left].
Qed.

Lemma T_map_store l key cl K ro :
  key_ok key → key ∈ K →
  triple (λ v, Inv true [cl] K v ∧ ∃ m rc, h_get (v_heap v) l = Some (CMap m rc ro))
    (isReferenced ← is_referenced l;
     (if isReferenced : bool then
        m ← map_of l;
        i ← map_index l key;
        match i with
        | Some i => e ← lift_opt (m_value m !! i); refs_Remove e.2
        | None => refs_Add key
        end
      else refs_Remove cl) ;;
     on_heap (λ h, Map_Add h l key cl) ;; mret tt) (λ _, Inv true [] K).
Proof.
  intros Hk HkK v v' u [HI (m & rc & Hl)]. unfold mbind at 1, M_bind at 1, is_referenced. rewrite Hl.
  destruct (inv_rc _ _ _ _ HI) as (G & HG & HR).
  destruct (proj1 HR l (CMap m rc ro) rc Hl eq_refl) as [Hrc _].
  assert (map_wf m) as Hwf by (by destruct (inv_heap _ _ _ _ HI l _ Hl) as [_ [_ ?]]).
  rewrite (IsReferenced_rc (CMap m rc ro) rc eq_refl). case_bool_decide as Hz; cbn [negb].
  - subst rc. unfold mbind, M_bind. destruct (refs_Remove cl v) as [v1 [u1|]] eqn:E; [|done].
    destruct (on_heap _ v1) as [v2 [p|]] eqn:Ea; [|done]. intros [= <- _].
    by eapply (map_store_dead l key cl K v v1 u1 m ro p v2).
  - unfold map_index, map_of, with_heap, h_map, mbind, M_bind. rewrite Hl. cbn.
    rewrite Hl. cbn. rewrite (Map_Index_spec _ m key Hwf Hk).
    destruct (alist_index (m_value m) key) as [i|] eqn:Ei.
    + pose proof Ei as Ei'. apply (alist_index_Some m key i Hwf) in Ei' as (e & He & Hek).
      rewrite He. cbn. destruct (refs_Remove e.2 v) as [v1 [u1|]] eqn:E; [|done].
      destruct (on_heap _ v1) as [v2 [p|]] eqn:Ea; [|done]. intros [= <- _].
      eapply (map_store_old l key cl K v v1 u1 m rc ro i e p v2); try done. lia.
    + destruct (refs_Add key v) as [v1 [u1|]] eqn:E; [|done].
      destruct (on_heap _ v1) as [v2 [p|]] eqn:Ea; [|done]. intros [= <- _].
      eapply (map_store_new l key cl K v m rc ro p v2); try done.
      unfold mbind, M_bind. by rewrite E.
Qed.

Lemma T_release_throw cl K n :
  triple (Inv true [cl] K) (refs_Remove cl ;; throw_range n) (λ _, Inv true [] []).
Proof. eapply T_bind; [apply T_refs_Remove|]. intros ?. apply T_throw_range. Qed.

Lemma T_setitem_seq l key cl K :
  triple (Inv true [cl] K)
    (arr ← seq_of l;
     index ← lift (TryInteger key); index ← toInt index;
     if bool_decide (index < 0) || bool_decide (Z.of_nat (length arr) <= index)
     then refs_Remove cl ;; throw_range index
     else
       ro ← seq_ro l; require (negb ro) ;;
       isReferenced ← is_referenced l;
       (if isReferenced : bool
        then old ← lift_opt (arr !! Z.to_nat index); refs_Remove old
        else refs_Remove cl) ;;
       set_seq l (<[Z.to_nat index := cl]> arr)) (λ _, Inv true [] []).
Proof.
  eapply T_bind; [apply T_seq_at|]. intros arr.
  do 2 (eapply T_bind; [apply T_reads; auto with reads|]; intros ?).
  match goal with |- triple _ (if ?c then _ else _) _ => destruct c eqn:Eb end.
  - intros v v' u [HI _]. by apply (T_release_throw cl (arr ++ K)).
  - apply orb_false_iff in Eb as [H1%bool_decide_eq_false H2%bool_decide_eq_false].
    do 2 (eapply T_bind; [apply T_reads; unfold seq_ro; auto with reads|]; intros ?).
    eapply T_post; [apply T_seq_store; lia|]. intros ? v. apply Inv_weaken. set_solver.
Qed.

Lemma keeps_SETITEM : keeps exec_SETITEM.
Proof.
  unfold exec_SETITEM. eapply T_bind; [apply T_popNoRef|]. intros i.
  eapply T_bind; [apply T_clone_same; set_solver|]. intros [cl st]. apply T_fact. intros Hc.
  eapply T_bind; [apply T_hold; [left|exact Hc]|]. intros ?.
  eapply T_bind; [apply T_Pop|]. intros key.
  eapply T_bind; [apply T_validate|]. intros ?. apply T_fact. intros Hk.
  eapply T_bind; [apply T_Pop|]. intros obj. cbn [fst].
  destruct obj as [| | | | | l|l|l|l|]; try (apply T_panic); try apply T_setitem_seq.
  - eapply T_bind; [apply T_refs_Remove|]. intros ?.
    do 3 (eapply T_bind; [vm_spec|]; intros ?; cbn beta).
    match goal with |- triple _ (if ?c then _ else _) _ => destruct c end;
      [apply T_throw_range|vm_walk].
  - eapply T_bind; [apply T_map_ro_at|]. intros ro.
    eapply T_bind; [apply T_reads; auto with reads|]. intros ?.
    eapply T_post; [apply T_map_store; [done|set_solver]|]. intros ? v. apply Inv_weaken. set_solver.
Qed.
End setitem.

(** ** REMOVE

    The code releases the key and the value before it drops the pair.  When
    the value held the last reference to the map, releasing it releases the
    items of the map, the key and the value once more. *)

Section remove.
Context `{EOK : EnvOk}.

(** REMOVE up to the drop: whether a map was live before and is not after. *)
Definition release_kills (l : loc) (key : item) : M bool :=
  index ← map_index l key;
  match index with
  | Some index =>
      isReferenced ← is_referenced l;
      if isReferenced : bool then
        m ← map_of l;
        e ← lift_opt (m_value m !! index);
        refs_Remove e.1 ;; refs_Remove e.2 ;;
        r ← is_referenced l; mret (negb r)
      else mret false
  | None => mret false
  end.

Definition remove_kills : M bool :=
  key ← Pop;
  validateMapKey key ;;
  elem ← Pop;
  match elem with Map l => release_kills l key | _ => mret false end.

Lemma delete_perm (arr : list item) n x :
  arr !! n = Some x → delete n arr ++ [x] ≡ₚ arr.
Proof. intros Hx. rewrite (delete_Permutation arr n x Hx) at 2. solve_Permutation. Qed.

Lemma T_remove_seq l K key :
  triple (Inv true [] K)
    (a ← seq_of l;
     k ← lift (TryInteger key); k ← toInt k;
     require (negb (bool_decide (k < 0) || bool_decide (Z.of_nat (length a) <= k))) ;;
     isReferenced ← is_referenced l;
     (if isReferenced : bool
      then i ← lift_opt (a !! Z.to_nat k); refs_Remove i else mret tt) ;;
     upd_heap (λ h, Seq_Remove h l (Z.to_nat k))) (λ _, Inv true [] []).
Proof.
  eapply T_bind; [apply T_seq_at|]. intros arr.
  do 2 (eapply T_bind; [apply T_reads; auto with reads|]; intros ?).
  eapply T_bind; [apply T_reads; auto with reads|]. intros ?.
  match goal with |- context [Z.to_nat ?k] => set (n := Z.to_nat k) end.
  intros v v' u [HI (rc & ro & Hl)]. unfold mbind at 1, M_bind at 1, is_referenced. rewrite Hl.
  destruct (inv_rc _ _ _ _ HI) as (G & HG & HR).
  destruct (proj1 HR l (CSeq arr rc ro) rc Hl eq_refl) as [Hrc _].
  assert (∀ x, Forall (item_ok (v_heap v)) (delete x arr)) as Hok.
  { intros x. apply Forall_delete. by destruct (inv_heap _ _ _ _ HI l _ Hl) as [_ [? _]]. }
  rewrite (IsReferenced_rc (CSeq arr rc ro) rc eq_refl). case_bool_decide as Hz; cbn [negb].
  - subst rc. unfold mbind, M_bind, upd_heap. cbn.
    destruct (Seq_Remove (v_heap v) l n) as [h| |] eqn:Er; try done. intros [= <- _].
    apply seq_update_Ok in Er as (arr1 & rc1 & arr2 & Hg & Hr & ->).
    rewrite Hl in Hg. injection Hg as <- <- ->.
    case_bool_decide; [|done]. injection Hr as <-.
    eapply (Inv_weaken true [] (arr ++ K)); [set_solver|].
    eapply (Inv_set_cell [] [] (arr ++ K)); [done|exact Hl|done|done|split; [apply Hok|done]|done].
  - unfold mbind, M_bind. destruct (arr !! n) as [old|] eqn:Hold; [|done]. cbn.
    destruct (refs_Remove old v) as [v1 [u1|]] eqn:E; [|done].
    assert (old ∈ arr) as Hin by by eapply list_elem_of_lookup_2.
    destruct (Inv_replace [] (arr ++ K) v v1 u1 l (CSeq arr rc ro) rc old (CSeq arr 0 ro) HI Hl eq_refl ltac:(lia) Hin E)
      as (rc' & Hl1 & Hle & _). cbn in Hl1. unfold upd_heap.
    destruct (Seq_Remove (v_heap v1) l n) as [h| |] eqn:Er; try done. intros [= <- _].
    apply seq_update_Ok in Er as (arr1 & rc1 & arr2 & Hg & Hr & ->).
    rewrite Hl1 in Hg. injection Hg as <- <- ->.
    case_bool_decide; [|done]. injection Hr as <-.
    destruct (Inv_replace [] (arr ++ K) v v1 u1 l (CSeq arr rc false) rc old (CSeq (delete n arr) rc' false) HI Hl eq_refl ltac:(lia) Hin E)
      as (rc2 & Hl2 & _ & Hrep). cbn in Hl2. rewrite Hl1 in Hl2. injection Hl2 as <-.
    eapply (Inv_weaken true [] (arr ++ K)); [set_solver|]. apply Hrep; [done|done| |].
    + split; [|done]. eapply items_ok_le; [exact Hle|apply Hok].
    + cbn. rewrite app_nil_r. by apply delete_perm.
Qed.

Lemma refs_Remove_scalar i v : it_loc i = None → refs_Remove i v = (set_refs (v_refs v - 1) v, Some tt).
Proof. intros Hi. unfold refs_Remove. cbn [rc_Remove rc_fuel]. by rewrite Hi. Qed.

Lemma elems_delete m m' i e :
  m_value m !! i = Some e → m_value m' = delete i (m_value m) →
  elems m' ++ [e.1; e.2] ≡ₚ elems m.
Proof.
  intros He Hv. unfold elems. rewrite Hv, delete_take_drop.
  rewrite <- (take_drop_middle (m_value m) i e He) at 3. rewrite !bind_app. cbn. solve_Permutation.
Qed.

(** The pair of a live map is released and the map stays live. *)
Lemma Inv_remove_pair K v v1 u l m rc ro e c' :
  Inv true [] K v → h_get (v_heap v) l = Some (CMap m rc ro) → 0 < rc →
  e.2 ∈ elems m → it_loc e.1 = None →
  (refs_Remove e.1 ;; refs_Remove e.2) v = (v1, Some u) →
  ∃ rc', h_get (v_heap v1) l = Some (CMap m rc' ro) ∧ h_le (v_heap v) (v_heap v1) ∧
    (rc' ≠ 0 → kind c' = KMap → cell_rc c' = Some rc' → cell_ok (v_heap v1) c' →
     cell_items c' ++ [e.1; e.2] ≡ₚ elems m →
     Inv true [] K (set_heap (h_set (v_heap v1) l c') v1)).
Proof.
  intros HI Hl Hrc Hin Hk. unfold mbind, M_bind. rewrite (refs_Remove_scalar _ _ Hk).
  unfold refs_Remove. change (v_heap (set_refs _ v)) with (v_heap v).
  change (v_refs (set_refs ?r v)) with r. replace (v_refs v - 1) with (v_refs v + -1) by lia.
  rewrite rc_Remove_shift.
  destruct (inv_rc _ _ _ _ HI) as (G & HG & HR).
  destruct (Remove_held e.2 _ _ _ l (CMap m rc ro) rc (inv_heap _ _ _ _ HI) Hl eq_refl Hrc Hin HR)
    as (h' & r' & rc' & He & Hle & Hl' & _).
  rewrite He. cbn. intros [= <- _]. cbn. exists rc'. split; [exact Hl'|].
  assert (h_le (v_heap v) h') as Hle' by apply h_sim_le, Hle. split; [done|].
  intros Hne Hkd Hc' Hok HP. pose proof (Inv_roots _ _ _ _ HI) as (_ & _ & HK).
  assert (heap_wf h') as Hw by (eapply h_sim_wf; [apply Hle|apply HI]).
  pose proof (h_le_set h' l _ c' Hl' Hkd) as Hle2.
  assert (h_le (v_heap v) (h_set h' l c')) as Hle3 by (by etrans).
  change (set_heap _ _) with (set_heap_refs (h_set h' l c') (r' + -1) v).
  eapply (Inv_heap_refs true [] K [] K v); [done|by eapply heap_wf_set|exact Hle3| |].
  - by eapply items_ok_le.
  - intros R _ HRC.
    destruct (Remove_held e.2 _ _ _ l (CMap m rc ro) rc (inv_heap _ _ _ _ HI) Hl eq_refl Hrc Hin HRC)
      as (h2 & r2 & rc2 & He2 & _ & Hl2 & Hcase).
    rewrite He in He2. injection He2 as <- <-. rewrite Hl' in Hl2. injection Hl2 as <-.
    destruct Hcase as [[_ HRC']|[? _]]; [|done].
    apply (RCI_cancel _ _ _ _ e.1 e.1 eq_refl) in HRC'. apply RCI_scalar in HRC'; [|done].
    replace (r' + -1) with (r' - 1) by lia.
    eapply (RCI_set_items h' _ _ R _ [] l (CMap m rc' ro)); [done|exact Hc'| |exact HRC'].
    unfold live_items. rewrite (IsReferenced_rc _ rc' Hc'), (IsReferenced_rc (CMap m rc' ro) rc' eq_refl).
    rewrite bool_decide_eq_false_2 by done. cbn. rewrite <- HP. solve_Permutation.
Qed.

Lemma Map_Drop_run h l m rc ro key i h' :
  h_get h l = Some (CMap m rc ro) → map_wf m → alist_index (m_value m) key = Some i →
  Map_Drop h l i = Ok h' →
  ro = false ∧ ∃ m', h' = h_set h l (CMap m' rc ro) ∧ map_wf m' ∧ m_value m' = delete i (m_value m).
Proof.
  intros Hl Hwf Hi. unfold Map_Drop, h_map. rewrite Hl. cbn. destruct ro; [done|].
  destruct (map_drop_spec h m key i Hwf Hi) as (m' & -> & Hw & Hv). cbn. intros [= <-]. eauto.
Qed.

Lemma T_remove_map l K key :
  key_ok key →
  triple (λ v, Inv true [] K v ∧ (release_kills l key v).2 ≠ Some true)
    (index ← map_index l key;
     match index with
     | Some index =>
         isReferenced ← is_referenced l;
         (if isReferenced : bool then
            m ← map_of l;
            e ← lift_opt (m_value m !! index);
            refs_Remove e.1 ;; refs_Remove e.2
          else mret tt) ;;
         upd_heap (λ h, Map_Drop h l index)
     | None => mret tt
     end) (λ _, Inv true [] K).
Proof.
  intros Hk v v' u [HI Hnk]. revert Hnk. unfold release_kills, map_index, map_of, is_referenced, with_heap, mbind, M_bind.
  destruct (h_map (v_heap v) l) as [[[m rc] ro]| |] eqn:E; cbn; try done. apply h_map_Ok in E as Hl.
  assert (map_wf m) as Hwf by (by destruct (inv_heap _ _ _ _ HI l _ Hl) as [_ [_ ?]]).
  rewrite (Map_Index_spec _ m key Hwf Hk).
  destruct (alist_index (m_value m) key) as [i|] eqn:Ei; [|by intros _ [= <- _]].
  pose proof Ei as Ei'. apply (alist_index_Some m key i Hwf) in Ei' as (e & He & Hek).
  destruct (inv_rc _ _ _ _ HI) as (G & HG & HR).
  destruct (proj1 HR l (CMap m rc ro) rc Hl eq_refl) as [Hrc _].
  rewrite Hl, (IsReferenced_rc (CMap m rc ro) rc eq_refl). case_bool_decide as Hz; cbn [negb].
  - intros _. cbn. unfold upd_heap.
    destruct (Map_Drop (v_heap v) l i) as [h'| |] eqn:Ed; try done. intros [= <- _].
    destruct (Map_Drop_run _ l m rc ro key i h' Hl Hwf Ei Ed) as (-> & m' & -> & Hw' & Hv').
    pose proof (elems_delete m m' i e He Hv') as HP.
    eapply (Inv_set_cell [] [] K); [done|exact Hl|done|done| |].
    + eapply (map_cell_ok _ m m' _ _ [] [e.1; e.2]); [|by rewrite app_nil_r|done].
      rewrite app_nil_r. by destruct (inv_heap _ _ _ _ HI l _ Hl) as [_ [? _]].
    + unfold live_items. by rewrite (IsReferenced_rc (CMap m' rc false) rc eq_refl),
        (IsReferenced_rc (CMap m rc false) rc eq_refl), bool_decide_eq_true_2.
  - rewrite E. cbn. rewrite He. cbn.
    pose proof (Inv_remove_pair K v) as Hpair. unfold mbind, M_bind in Hpair.
    destruct (refs_Remove e.1 v) as [v1 [u1|]] eqn:E1; [|done].
    destruct (refs_Remove e.2 v1) as [v2 [u2|]] eqn:E2; [|done].
    destruct (elem_in_elems m i e He) as [_ Hin].
    assert (it_loc e.1 = None) as Hks by (rewrite Hek; by apply key_scalar).
    destruct (Hpair v2 u2 l m rc ro e (CMap m 0 ro) HI Hl ltac:(lia) Hin Hks ltac:(by rewrite E1))
      as (rc' & Hl2 & Hle & _).
    rewrite Hl2, (IsReferenced_rc (CMap m rc' ro) rc' eq_refl). cbn. unfold upd_heap.
    intros Hnk. case_bool_decide as Hz2; [done|]. clear Hnk.
    destruct (Map_Drop (v_heap v2) l i) as [h'| |] eqn:Ed; try done. intros [= <- _].
    destruct (Map_Drop_run _ l m rc' ro key i h' Hl2 Hwf Ei Ed) as (-> & m' & -> & Hw' & Hv').
    pose proof (elems_delete m m' i e He Hv') as HP.
    destruct (Hpair v2 u2 l m rc false e (CMap m' rc' false) HI Hl ltac:(lia) Hin Hks ltac:(by rewrite E1))
      as (rc2 & Hl3 & _ & Hrep). rewrite Hl2 in Hl3. injection Hl3 as <-.
    apply Hrep; [done|done|done| |exact HP].
    eapply (map_cell_ok _ m m' _ _ [] [e.1; e.2]); [|by rewrite app_nil_r|done].
    rewrite app_nil_r. eapply items_ok_le; [exact Hle|].
    by destruct (inv_heap _ _ _ _ HI l _ Hl) as [_ [? _]].
Qed.

Lemma keeps_REMOVE :
  triple (λ v, Inv true [] [] v ∧ (remove_kills v).2 ≠ Some true) exec_REMOVE (λ _, Inv true [] []).
Proof.
  intros v v' u [HI Hnk]. revert Hnk. unfold exec_REMOVE, remove_kills, mbind, M_bind.
  pose proof (T_Pop (b := true) [] [] v) as HP1.
  destruct (Pop v) as [v1 [key|]] eqn:E1; [|done]. specialize (HP1 v1 key HI eq_refl).
  pose proof (T_validate (Inv true [] [key]) key v1) as HV.
  destruct (validateMapKey key v1) as [v2 [u2|]] eqn:E2; [|done].
  destruct (HV v2 u2 HP1 eq_refl) as [HI2 Hk].
  pose proof (T_Pop (b := true) [] [key] v2) as HP3.
  destruct (Pop v2) as [v3 [obj|]] eqn:E3; [|done]. specialize (HP3 v3 obj HI2 eq_refl).
  intros Hnk He. destruct obj as [| | | | | |l|l|l|]; try done.
  1,2: by apply (T_remove_seq l [_; key] key v3 v' u HP3).
  eapply (Inv_weaken true [] [Map l; key]); [set_solver|].
  by apply (T_remove_map l [Map l; key] key Hk v3 v' u (conj HP3 Hnk)).
Qed.
End remove.

(** ** PACKMAP, UNPACK and VALUES *)

Section packing.
Context `{EOK : EnvOk}.

Abbreviation keeps m := (triple (Inv true [] []) m (λ _, Inv true [] [])).

Lemma popNoRef_heap v v' i : popNoRef v = (v', Some i) → v_heap v' = v_heap v.
Proof.
  unfold popNoRef, mbind, M_bind, cur_stack, put_stack.
  destruct (v_stacks v !! v_estack v) as [[|x t]|]; try done. by intros [= <- _].
Qed.

(** The map under construction is not referenced; what it holds was counted on
    the stack. *)
Definition Packing (l : loc) (K : list item) (v : VM) : Prop :=
  ∃ m, Inv true (elems m) K v ∧ h_get (v_heap v) l = Some (CMap m 0 false) ∧ map_wf m.

Lemma packing_add l K m v key x r v' :
  Inv true (x :: key :: elems m) K v → h_get (v_heap v) l = Some (CMap m 0 false) → map_wf m →
  on_heap (λ h, Map_Add h l key x) v = (v', Some r) →
  key_ok key ∧ ∃ m' N, map_wf m' ∧ h_get (v_heap v') l = Some (CMap m' 0 false)
    ∧ Inv true (N ++ elems m') K v' ∧ N = match r with Some old => [key; old] | None => [] end.
Proof.
  intros HI Hl Hwf. unfold on_heap.
  assert (Map_Add (v_heap v) l key x = Map_Add (v_heap v) l key x → key_ok key ∨
    Map_Add (v_heap v) l key x = Panic) as Hk.
  { intros _. unfold Map_Add, key_ok. destruct (IsValidMapKey key) as [[]| |]; auto. }
  destruct (Hk eq_refl) as [Hkey| ->]; [|done]. clear Hk.
  destruct (Map_Add (v_heap v) l key x) as [[r' h']| |] eqn:Ea; try done. intros [= <- <-].
  split; [done|].
  destruct (Map_Add_run _ l m 0 false key x r' h' Hl Hwf Hkey Ea) as (_ & -> & m' & -> & Hw' & Hv').
  assert (∀ N O, elems m' ++ O ≡ₚ elems m ++ N → N ⊆ [key; x] →
    Inv true (match alist_get (m_value m) key with Some old => [key; old] | None => [] end ++ elems m') K
      (set_heap (h_set (v_heap v) l (CMap m' 0 false)) v)) as Hgo.
  { intros N O HP HN. eapply (Inv_set_cell (x :: key :: elems m)); [done|exact Hl|done|done| |].
    - eapply (map_cell_ok _ m m' _ _ N O); [|done|done]. apply Forall_forall. intros y Hy.
      eapply Inv_item; [exact HI|]. set_solver.
    - cbn. unfold live_items. cbn. unfold alist_get.
      destruct (alist_index (m_value m) key) as [i|] eqn:Ei; cbn.
      + pose proof Ei as Ei'. apply (alist_index_Some m key i Hwf) in Ei' as (e & He & Hek).
        rewrite He. cbn. pose proof (elems_set_old m m' key x i e Ei He Hek Hv') as HP'.
        transitivity (key :: (elems m' ++ [e.2])); [solve_Permutation|]. rewrite HP'. solve_Permutation.
      + rewrite (elems_set_new m m' key x Ei Hv'). solve_Permutation. }
  exists m'. eexists. split; [done|]. split; [cbn; by rewrite h_get_set, decide_True|].
  split; [|done]. destruct (alist_index (m_value m) key) as [i|] eqn:Ei.
  - pose proof Ei as Ei'. apply (alist_index_Some m key i Hwf) in Ei' as (e & He & Hek).
    apply (Hgo [x] [e.2]); [by eapply elems_set_old|set_solver].
  - apply (Hgo [key; x] []); [by rewrite (elems_set_new m m' key x Ei Hv'), app_nil_r|set_solver].
Qed.

Lemma T_packmap_loop l n K : triple (Packing l K) (packmap_loop l n) (λ _, Packing l K).
Proof.
  induction n as [|n IH]; cbn [packmap_loop]; [by apply T_ret|].
  intros v v' u (m & HI & Hl & Hwf) He. revert He. unfold mbind, M_bind.
  pose proof (T_popNoRef (b := true) (elems m) K v) as H1.
  destruct (popNoRef v) as [v1 [key|]] eqn:E1; [|done]. specialize (H1 v1 key HI eq_refl).
  apply popNoRef_heap in E1. rewrite <- E1 in Hl.
  pose proof (T_popNoRef (b := true) (key :: elems m) (key :: K) v1) as H2.
  destruct (popNoRef v1) as [v2 [x|]] eqn:E2; [|done]. specialize (H2 v2 x H1 eq_refl).
  apply popNoRef_heap in E2. rewrite <- E2 in Hl.
  destruct (on_heap _ v2) as [v3 [r|]] eqn:E3; [|done].
  apply (Inv_weaken true _ _ K) in H2; [|set_solver].
  destruct (packing_add l K m v2 key x r v3 H2 Hl Hwf E3) as (Hk & m' & N & Hw' & Hl' & HI' & HN).
  destruct r as [old|]; subst N.
  2:{ intros He. eapply IH; [|exact He]. by exists m'. }
  pose proof (T_refs_shift_scalar (b := true) (old :: elems m') K key (key_scalar key Hk) v3) as H4.
  change (refs_shift (-1) v3) with (set_refs (v_refs v3 + -1) v3, Some tt) in *. cbn iota beta in *.
  specialize (H4 _ _ HI' eq_refl).
  destruct (refs_Remove old _) as [v5 [u5|]] eqn:E5; [|done].
  destruct (Remove_info _ K _ v5 u5 old H4 E5) as [HI5 Hle].
  intros He. eapply IH; [|exact He]. exists m'. split; [done|]. split; [|done].
  by eapply (dead_cell (elems m') K v5).
Qed.

Lemma keeps_PACKMAP : keeps exec_PACKMAP.
Proof.
  unfold exec_PACKMAP. do 3 (eapply T_bind; [vm_spec|]; intros ?; cbn beta).
  intros v v' u HI. unfold mbind at 1, M_bind at 1, alloc, on_heap.
  destruct (h_alloc (v_heap v) (CMap NewMap 0 false)) as [l h] eqn:Ha.
  destruct (Inv_alloc [] [] v (CMap NewMap 0 false) l h HI ltac:(split; [constructor|apply NewMap_wf]) eq_refl Ha) as [HI1 Hl].
  unfold mbind at 1, M_bind at 1.
  match goal with |- context [packmap_loop l ?n] => set (k := n) end.
  destruct (packmap_loop l k (set_heap h v)) as [v1 [u1|]] eqn:E; [|done].
  assert (Inv true [] [Map l] (set_heap h v)) as HI2.
  { eapply Inv_known; [exact HI1|]. constructor; [|constructor]. unfold item_ok, loc_ok. cbn.
    by rewrite Hl. }
  assert (Packing l [Map l] v1) as (m & HIm & Hlm & Hwf).
  { eapply T_packmap_loop; [|exact E]. exists NewMap. split; [done|]. split; [done|apply NewMap_wf]. }
  intros He. eapply (Inv_weaken true [] [Map l]); [set_solver|].
  eapply (IncRC_push_ok (elems m) [] [Map l] v1 v' u l (Map l) (CMap m 0 false) 1); try done.
  - eapply Inv_item; [exact HIm|set_solver].
  - intros R HR. cbn. by replace (v_refs v1 + 1 - 1) with (v_refs v1) by lia.
Qed.

(** The reference [e] to a cell is released but for the items of the cell. *)
Lemma Inv_release e l K v c rc :
  Inv true [e] K v → it_loc e = Some l → h_get (v_heap v) l = Some c → cell_rc c = Some rc →
  0 < rc ∧ Inv true (if bool_decide (rc - 1 = 0) then cell_items c else []) K
    (set_heap_refs (h_set (v_heap v) l (set_rc c (rc - 1))) (v_refs v - 1) v).
Proof.
  intros HI Hel Hl Hc. destruct (inv_rc _ _ _ _ HI) as (G & HG & HR).
  assert (0 < rc) as Hrc.
  { destruct (proj1 HR l c rc Hl Hc) as [_ Ho]. autorewrite with refs in Ho.
    rewrite decide_True in Ho by done.
    pose proof (occ_nonneg l (roots v)). pose proof (occ_nonneg l G). pose proof (occ_nonneg l (kids (v_heap v))). lia. }
  split; [done|]. pose proof (Inv_roots _ _ _ _ HI) as (_ & _ & HK).
  destruct (inv_heap _ _ _ _ HI l c Hl) as [_ [Hit Hwf]].
  assert (h_le (v_heap v) (h_set (v_heap v) l (set_rc c (rc - 1)))) as Hle
    by (eapply h_le_set; [done|by destruct c]).
  eapply Inv_heap_refs; [exact HI| |exact Hle| |].
  - eapply heap_wf_set; [apply HI|done|by destruct c|]. split; [by rewrite cell_items_set_rc|].
    by destruct c.
  - apply Forall_app. split; (eapply items_ok_le; [exact Hle|]); [|done].
    case_bool_decide; [done|constructor].
  - intros R _ HRC. by eapply (RCI_release _ _ R [] e).
Qed.

Lemma T_each_PushItem L H K :
  L ⊆ K → triple (Inv true H K) (each PushItem L) (λ _, Inv true H K).
Proof.
  induction L as [|x L IH]; intros HL; cbn; [by apply T_ret|].
  eapply T_bind; [apply T_PushItem, storable_known; set_solver|]. intros ?. apply IH. set_solver.
Qed.

Lemma T_each_push_held L H K :
  triple (Inv true (L ++ H) K) (each (λ i, pushItemCounted i 0) L) (λ _, Inv true H K).
Proof.
  induction L as [|x L IH]; cbn; [by apply T_ret|].
  eapply T_bind; [apply T_pushItemCounted_0|]. intros ?. exact IH.
Qed.

Lemma DecRC_ok e l K v v1 u :
  Inv true [e] K v → it_loc e = Some l → DecRC l v = (v1, Some u) →
  ∃ c, h_get (v_heap v1) l = Some c ∧ v_refs v1 = v_refs v
    ∧ (∀ r, DecRC l (set_refs r v) = (set_refs r v1, Some u))
    ∧ Inv true (if IsReferenced c then [] else cell_items c) K (set_refs (v_refs v - 1) v1).
Proof.
  intros HI Hel. unfold DecRC, shift_rc.
  destruct (h_get (v_heap v) l) as [c|] eqn:Hl; [|done].
  destruct (cell_rc c) as [rc|] eqn:Hc; [|done]. intros [= <- <-].
  destruct (Inv_release e l K v c rc HI Hel Hl Hc) as [Hrc HI1].
  exists (set_rc c (rc - 1)). cbn.
  replace (rc + -1) with (rc - 1) by lia. split; [by rewrite h_get_set, decide_True|].
  split; [done|]. split; [intros r; by rewrite Hl, Hc|].
  rewrite (IsReferenced_rc (set_rc c (rc - 1)) (rc - 1)) by by apply (cell_rc_set_rc c _ rc).
  rewrite cell_items_set_rc. by destruct (bool_decide (rc - 1 = 0)).
Qed.

(** The items of a sequence move to the stack, or are counted there. *)
Lemma T_unpack_seq l arr c K v v' u :
  h_get (v_heap v) l = Some c → cell_items c = arr →
  Inv true (if IsReferenced c then [] else arr) K v →
  unpack_push (IsReferenced c) arr v = (v', Some u) → Inv true [] [] v'.
Proof.
  intros Hl <- HI. pose proof (cell_items_known _ K v l c HI Hl) as HI2. unfold unpack_push.
  intros E. eapply (Inv_weaken true [] (cell_items c ++ K)); [set_solver|].
  destruct (IsReferenced c).
  - eapply (T_each_PushItem (rev (cell_items c))); [|exact HI2|exact E].
    intros x Hx. rewrite <- (Permutation_rev (cell_items c)) in Hx. set_solver.
  - eapply (T_each_push_held (rev (cell_items c)) []); [|exact E].
    eapply Inv_perm; [|exact HI2]. rewrite app_nil_r. apply Permutation_rev.
Qed.

Lemma T_push_pair (e : item * item) H K :
  triple (Inv true (e.1 :: e.2 :: H) K) (pushItemCounted e.2 0 ;; pushItemCounted e.1 0)
    (λ _, Inv true H K).
Proof.
  assert (triple (Inv true (e.2 :: e.1 :: H) K) (pushItemCounted e.2 0 ;; pushItemCounted e.1 0)
            (λ _, Inv true H K)) as Hp.
  { eapply T_bind; [apply T_pushItemCounted_0|intros ?; apply T_pushItemCounted_0]. }
  intros v v' u HI. apply Hp. eapply Inv_perm; [apply perm_swap|exact HI].
Qed.

Lemma unpack_map_held L H K :
  triple (Inv true ((L ≫= λ e, [e.1; e.2]) ++ H) K)
    (each (λ e, pushItemCounted e.2 0 ;; pushItemCounted e.1 0) L) (λ _, Inv true H K).
Proof.
  induction L as [|e L IH]; cbn; [by apply T_ret|].
  eapply T_bind; [apply T_push_pair|]. intros ?. exact IH.
Qed.

Lemma unpack_map_counted L H K :
  (L ≫= λ e, [e.1; e.2]) ⊆ K → Forall (λ e, it_loc e.1 = None) L →
  triple (Inv true H K) (each (λ e, PushItem e.2 ;; pushItemCounted e.1 1) L) (λ _, Inv true H K).
Proof.
  intros HK HL. induction HL as [|e L He HL IH]; cbn; [by apply T_ret|]. cbn in HK.
  eapply T_bind; [eapply T_bind; [apply T_PushItem, storable_known; set_solver|]|].
  - intros ?. apply T_pushItemCounted_1; [done|]. apply storable_known. set_solver.
  - intros ?. apply IH. set_solver.
Qed.

Lemma T_unpack_map l m rc ro K v v' u :
  h_get (v_heap v) l = Some (CMap m rc ro) → map_wf m →
  Inv true (if IsReferenced (CMap m rc ro) then [] else elems m) K v →
  unpack_map_push (IsReferenced (CMap m rc ro)) (m_value m) v = (v', Some u) → Inv true [] [] v'.
Proof.
  intros Hl Hwf HI. pose proof (cell_items_known _ K v l _ HI Hl) as HI2. cbn [cell_items] in HI2.
  assert (rev (m_value m) ≡ₚ m_value m) as Hrev by by rewrite <- Permutation_rev.
  unfold unpack_map_push. intros E. eapply (Inv_weaken true [] (elems m ++ K)); [set_solver|].
  destruct (IsReferenced _).
  - eapply unpack_map_counted; [| |exact HI2|exact E].
    + rewrite Hrev. set_solver.
    + rewrite Hrev. pose proof (keys_scalar m Hwf) as Hk. by rewrite Forall_fmap in Hk.
  - eapply (unpack_map_held _ []); [|exact E]. eapply Inv_perm; [|exact HI2].
    rewrite app_nil_r. unfold elems. by rewrite Hrev.
Qed.

Lemma keeps_UNPACK : keeps exec_UNPACK.
Proof.
  unfold exec_UNPACK. eapply T_bind; [apply T_popNoRef|]. intros e v v' u HI.
  unfold mbind at 1, M_bind at 1.
  change (refs_shift (-1) v) with (set_refs (v_refs v + -1) v, Some tt). cbn iota beta.
  replace (v_refs v + -1) with (v_refs v - 1) by lia.
  assert (∀ m : M nat, (∀ v' n, m (set_refs (v_refs v - 1) v) = (v', Some n) → Inv true [] [] v') →
    (n ← m; PushInteger (Z.of_nat n)) (set_refs (v_refs v - 1) v) = (v', Some u) → Inv true [] [] v') as Hgo.
  { intros m Hm. unfold mbind, M_bind. destruct (m _) as [v1 [n|]]; [|done].
    apply T_PushInteger. by eapply Hm. }
  destruct e as [| | | | | |l|l|l|]; try done.
  all: apply Hgo; intros v2 n; unfold mbind, M_bind;
    destruct (DecRC l v) as [v1 [u1|]] eqn:E;
    [|unfold DecRC, shift_rc in *; change (v_heap (set_refs _ v)) with (v_heap v);
      repeat case_match; try done; simplify_eq].
  all: (destruct (DecRC_ok _ l _ v v1 u1 HI eq_refl E) as (c & Hl & Hr & Hd & HI1));
    rewrite Hd; unfold is_referenced; change (v_heap (set_refs ?r v1)) with (v_heap v1);
    rewrite Hl; unfold seq_of, map_of, with_heap, h_seq, h_map;
    change (v_heap (set_refs ?r v1)) with (v_heap v1); rewrite Hl; destruct c as [|arr rc ro|m rc ro]; try done; cbn [fst snd mbind res_bind].
  1,2: destruct (unpack_push _ arr _) as [v3 [u3|]] eqn:E3; [|done]; intros [= <- _];
    exact (T_unpack_seq l arr (CSeq arr rc ro) _ (set_refs (v_refs v - 1) v1) _ _ Hl eq_refl HI1 E3).
  destruct (inv_heap _ _ _ _ HI1 l _ Hl) as [_ [_ Hwf]].
  destruct (unpack_map_push _ _ _) as [v3 [u3|]] eqn:E3; [|done]. intros [= <- _].
  exact (T_unpack_map l m rc ro _ (set_refs (v_refs v - 1) v1) _ _ Hl Hwf HI1 E3).
Qed.

(** The values of a container that was released are copied: they are counted
    anew when the container lives on, and only clones are counted otherwise. *)
Lemma T_cpValues_live src H K :
  src ⊆ K → triple (Inv true H K) (cpValues src true) (λ l, Inv true (l ++ H) (l ++ K)).
Proof.
  revert H K. induction src as [|x src IH]; intros H K HK; cbn [cpValues]; [by apply T_ret|].
  eapply T_bind; [apply T_cloneIfStruct, storable_known; set_solver|]. intros c.
  eapply T_bind; [apply T_refs_Add, storable_known; set_solver|]. intros ?.
  eapply T_bind; [apply IH; set_solver|]. intros rest. apply T_ret. intros v HI.
  eapply (Inv_perm true (rest ++ c.1 :: H)); [solve_Permutation|].
  eapply Inv_weaken; [|exact HI]. set_solver.
Qed.

Lemma T_cpValues_dead src H K :
  triple (Inv true (src ++ H) K) (cpValues src false) (λ l, Inv true (l ++ H) (l ++ K)).
Proof.
  revert H K. induction src as [|x src IH]; intros H K; cbn [cpValues]; [by apply T_ret|].
  eapply T_bind; [apply T_clone_same; set_solver|]. intros c. apply T_fact. intros Hc.
  eapply T_bind; [apply T_hold; [left|exact Hc]|]. intros ?.
  eapply (T_bind _ _ (λ l, Inv true (l ++ c.1 :: H) (l ++ c.1 :: K))).
  - intros v v' l HI. apply IH. eapply Inv_perm; [|exact HI]. solve_Permutation.
  - intros rest. apply T_ret. intros v HI.
    eapply (Inv_perm true (rest ++ c.1 :: H)); [solve_Permutation|].
    eapply Inv_weaken; [|exact HI]. set_solver.
Qed.

Lemma elems_split m : elems m ≡ₚ (m_value m).*1 ++ (m_value m).*2.
Proof.
  unfold elems. induction (m_value m) as [|e l IH]; [done|]. cbn. rewrite IH. solve_Permutation.
Qed.

Lemma Inv_unshift L H K v :
  Forall (λ i, it_loc i = None) L → Inv true (L ++ H) K v →
  Inv true H K (set_refs (v_refs v - len L) v).
Proof.
  intros HL. revert v. induction HL as [|i L Hi HL IH]; intros v HI.
  { rewrite len_nil, Z.sub_0_r. by destruct v. }
  pose proof (T_refs_shift_scalar (b := true) (L ++ H) K i Hi v _ tt HI eq_refl) as HI1.
  apply IH in HI1. cbn in HI1. rewrite len_cons.
  by replace (v_refs v - (1 + len L)) with (v_refs v + -1 - len L) by lia.
Qed.

Lemma VALUES_push arr K v v' u :
  Inv true (arr ++ [Null]) K v → push_counted Array (CSeq arr 0 false) 0 v = (v', Some u) →
  Inv true [] [] v'.
Proof.
  intros HI He. pose proof (Inv_roots _ _ _ _ HI) as (_ & Hits & _).
  apply Forall_app in Hits as [Hits _].
  eapply (Inv_weaken true [] K); [set_solver|].
  eapply (push_counted_ok (arr ++ [Null]) [] K v v' u Array (CSeq arr 0 false) 0);
    [exact HI|by split|done|done|done|constructor| |exact He].
  intros R HR. cbn. replace (v_refs v + 0 - 1) with (v_refs v - 1) by lia.
  apply (RCI_scalar _ _ _ _ Null); [done|]. eapply RCI_perm; [| |exact HR]; [|done]. solve_Permutation.
Qed.

(** The container whose values are taken: [Null] stands for the reference to
    it, which the new array takes over. *)
Lemma Inv_take e l K v v1 u :
  Inv true [e] K v → it_loc e = Some l → DecRC l v = (v1, Some u) →
  ∃ c, h_get (v_heap v1) l = Some c ∧
    Inv true ((if IsReferenced c then [] else cell_items c) ++ [Null]) (cell_items c ++ K) v1.
Proof.
  intros HI Hel E. destruct (DecRC_ok e l K v v1 u HI Hel E) as (c & Hl & Hr & _ & HI1).
  exists c. split; [done|].
  apply (cell_items_known _ K (set_refs (v_refs v - 1) v1) l c) in HI1; [|done].
  pose proof (Inv_shift (b := true) _ _ 1 _ [Null] HI1 ltac:(by constructor) ltac:(by constructor) eq_refl) as HI2.
  cbn in HI2. replace (v_refs v - 1 + 1) with (v_refs v1) in HI2 by lia.
  eapply Inv_perm in HI2; [|apply (Permutation_app_comm [Null])]. by destruct v1.
Qed.

Lemma values_seq l e K v v' arr :
  Inv true [e] K v → it_loc e = Some l →
  (DecRC l ;; isReferenced ← is_referenced l; src ← seq_of l; cpValues src isReferenced) v
    = (v', Some arr) →
  ∃ K', Inv true (arr ++ [Null]) K' v'.
Proof.
  intros HI Hel. unfold mbind, M_bind. destruct (DecRC l v) as [v1 [u|]] eqn:E; [|done].
  destruct (Inv_take e l K v v1 u HI Hel E) as (c & Hl & HI1).
  unfold is_referenced, seq_of, with_heap, h_seq. rewrite Hl. rewrite Hl.
  destruct c as [|src rc ro|]; cbn [fst snd mbind res_bind cell_items] in *; try done.
  destruct (IsReferenced _); intros He; eexists.
  - eapply T_cpValues_live; [|exact HI1|exact He]. set_solver.
  - eapply T_cpValues_dead; [exact HI1|exact He].
Qed.

Lemma values_map l e K v v' arr :
  Inv true [e] K v → it_loc e = Some l →
  (DecRC l ;; m ← map_of l; isReferenced ← is_referenced l;
   (if isReferenced : bool then mret tt else refs_shift (- Z.of_nat (Map_Len m))) ;;
   cpValues (m_value m).*2 isReferenced) v = (v', Some arr) →
  ∃ K', Inv true (arr ++ [Null]) K' v'.
Proof.
  intros HI Hel. unfold mbind, M_bind. destruct (DecRC l v) as [v1 [u|]] eqn:E; [|done].
  destruct (Inv_take e l K v v1 u HI Hel E) as (c & Hl & HI1).
  unfold is_referenced, map_of, with_heap, h_map. rewrite Hl.
  destruct c as [| |m rc ro]; cbn [fst snd mbind res_bind cell_items] in *; try done. rewrite Hl.
  destruct (inv_heap _ _ _ _ HI1 l _ Hl) as [_ [_ Hwf]].
  destruct (IsReferenced _); intros He; eexists.
  - eapply T_cpValues_live; [|exact HI1|exact He]. pose proof (elems_values m). set_solver.
  - eapply (T_cpValues_dead _ [Null]); [|exact He].
    replace (v_refs v1 + - Z.of_nat (Map_Len m)) with (v_refs v1 - len (m_value m).*1)
      by (unfold len, Map_Len; rewrite length_fmap; lia).
    apply Inv_unshift; [by apply keys_scalar|]. eapply Inv_perm; [|exact HI1].
    rewrite (elems_split m). solve_Permutation.
Qed.

Lemma keeps_VALUES : keeps exec_VALUES.
Proof.
  unfold exec_VALUES. do 2 (eapply T_bind; [vm_spec|]; intros ?; cbn beta).
  eapply T_bind; [apply T_popNoRef|]. intros e v v' u HI.
  assert (∀ m, (∀ v' arr, m v = (v', Some arr) → ∃ K', Inv true (arr ++ [Null]) K' v') →
    (arr ← m; push_counted Array (CSeq arr 0 false) 0) v = (v', Some u) → Inv true [] [] v') as Hgo.
  { intros m Hm. unfold mbind, M_bind. destruct (m v) as [v1 [arr|]]; [|done].
    destruct (Hm v1 arr eq_refl) as [K' HI']. by apply (VALUES_push arr K'). }
  apply Hgo. intros v1 arr. destruct e as [| | | | | |l|l|l|]; try done.
  1,2: by apply (values_seq l _ _ v v1 arr HI).
  by apply (values_map l _ _ v v1 arr HI).
Qed.
End packing.
