(* ===== verification/VMSafe.v ===== *)
(** * VMSafe: the machine stays consistent

    Loading a script and executing an instruction keep the invariant of
    [VMInv.v]; a machine that runs a script counts at least the items there
    are, and never more than [MaxStackSize] of them, as long as no REMOVE drops
    the last reference to the map it works on. *)

From stdpp Require Import pretty strings sorting.
From S2P Require Import Prelude Bigint StackItem RefCount Script VM VMInv VMCompound.

Lemma StronglySorted_impl {A} (R R' : A → A → Prop) l :
  StronglySorted R l → (∀ x y, x ∈ l → y ∈ l → R x y → R' x y) → StronglySorted R' l.
Proof.
  induction 1 as [|x l Hl IH Hx]; intros HR; constructor.
  - apply IH. intros y z Hy Hz. apply HR; by right.
  - rewrite Forall_forall in *. intros y Hy. apply HR; [left|by right|by apply Hx].
Qed.

(** ** Loading scripts *)

Section loading.
Context `{ENV : Env}.

Lemma ids_fresh b H K v :
  Inv b H K v →
  Forall (λ g, est v g < v_next v)%positive (v_istack v) ∧
  Forall (λ g, f_sc g < v_next v)%positive (v_istack v).
Proof.
  intros HI. pose proof (inv_ctl _ _ _ _ HI) as [C1 C2 [C3 C3'] C4 C5 C6 C7 C8].
  split; (eapply Forall_impl; [exact C1|]); intros g [(sc & Hsc & Hst & _) _].
  - apply C3. unfold est. by rewrite Hsc.
  - apply C3'. unfold sc_of in Hsc. by rewrite Hsc.
Qed.

(** The machine with a new empty stack in use. *)
Lemma Inv_substack b H K v :
  Inv b H K v →
  Inv false H K (set_estack (v_next v) (set_stack (v_next v) [] (set_next (Pos.succ (v_next v)) v))).
Proof.
  intros HI. set (n := v_next v). set (v' := set_estack _ _).
  destruct (ids_fresh b H K v HI) as [Hest Hsc].
  pose proof (inv_ctl _ _ _ _ HI) as [C1 C2 [C3 C3'] C4 C5 C6 C7 C8].
  set (X := list_to_set (est v <$> v_istack v) : gset sid).
  assert (n ∉ X) as Hn.
  { apply not_in_keys. eapply Forall_impl; [exact Hest|]. intros g Hg. cbn in Hg. unfold n. lia. }
  set (S := if decide (v_estack v ∈ X) then [] else stack_of v (v_estack v)).
  assert (roots v ≡ₚ roots v' ++ S) as HP.
  { unfold roots. change (st_ids v) with ({[v_estack v]} ∪ X). change (st_ids v') with ({[n]} ∪ X).
    change (static_of v') with (static_of v). change (sc_ids v') with (sc_ids v).
    change (v_istack v') with (v_istack v).
    rewrite !over_insert, (decide_False (P := n ∈ X)) by done. fold S.
    assert (stack_of v' n = []) as -> by (unfold stack_of, v'; cbn; by rewrite lookup_insert_eq).
    rewrite (over_ext (stack_of v') (stack_of v)).
    - solve_Permutation.
    - intros s Hs. unfold stack_of, v'. cbn. rewrite lookup_insert_ne by (intros <-; done). done. }
  destruct HI as [H1 H2 (G & HG & HR) H4 _].
  rewrite HP, !Forall_app in H2. destruct H2 as ((Hro & HS) & HH & HK).
  assert (∀ s, is_Some (v_stacks v' !! s) ↔ s = n ∨ is_Some (v_stacks v !! s)) as Hd.
  { intros s. unfold v'. cbn. destruct (decide (n = s)) as [<-|Hne].
    - rewrite lookup_insert_eq. split; [by left|eauto].
    - rewrite lookup_insert_ne by done. naive_solver. }
  split; [done| | |done|].
  - change (v_heap v') with (v_heap v). by rewrite !Forall_app.
  - exists (S ++ G). split; [by apply Forall_app|]. rewrite HP in HR.
    change (v_heap v') with (v_heap v). change (v_refs v') with (v_refs v).
    eapply RCI_perm; [| |exact HR]; [|done]. solve_Permutation.
  - split; try done.
    + eapply Forall_impl; [exact C1|]. intros g [(sc & Hs1 & Hs2 & Hs3) Hg].
      split; [|done]. exists sc. rewrite Hd. auto.
    + rewrite Hd. by left.
    + change (v_next v') with (Pos.succ n). split; intros s.
      * rewrite Hd. intros [->|Hs]; [lia|]. apply C3 in Hs. unfold n. lia.
      * intros Hs. apply C3' in Hs. unfold n. lia.
    + eapply Forall_impl; [exact Hest|]. intros g Hg. cbn in Hg. change (est v g <= n)%positive. unfold n. lia.
Qed.

(** The machine with a context of a new script. *)
Lemma Inv_enter b H K v sc f :
  Inv b H K v → sc_estack sc = v_estack v → sc_static sc = None →
  f_sc f = v_next v → frame_items f = [] → c_prog (f_ctx f) = sc_prog sc →
  0 <= c_nextip (f_ctx f) → f_try f = [] →
  Z.of_nat (length (v_istack v)) < MaxInvocationStackSize →
  Inv true H K (set_istack (f :: v_istack v)
                 (set_sc (v_next v) sc (set_next (Pos.succ (v_next v)) v))).
Proof.
  intros HI Hse Hss Hf Hfi Hprog Hip Htry Hdep. set (n := v_next v) in *. set (v' := set_istack _ _).
  destruct (ids_fresh b H K v HI) as [Hest Hsc].
  pose proof (inv_ctl _ _ _ _ HI) as [C1 C2 [C3 C3'] C4 C5 C6 C7 C8].
  assert (∀ g, (f_sc g < n)%positive → sc_of v' g = sc_of v g) as Hof.
  { intros g Hg. unfold sc_of, v'. cbn. rewrite lookup_insert_ne by (intros ?; lia). done. }
  assert (∀ g, (f_sc g < n)%positive → est v' g = est v g) as He.
  { intros g Hg. unfold est. by rewrite Hof. }
  assert (sc_of v' f = Some sc) as Hfs.
  { unfold sc_of, v'. cbn. rewrite Hf. by rewrite lookup_insert_eq. }
  assert (est v' f = v_estack v) as Hfe by (unfold est; by rewrite Hfs).
  assert (roots v' ≡ₚ roots v) as HP.
  { unfold roots.
    assert (st_ids v' = st_ids v) as ->.
    { unfold st_ids. change (v_istack v') with (f :: v_istack v). change (v_estack v') with (v_estack v).
      rewrite fmap_cons, Hfe.
      assert (est v' <$> v_istack v = est v <$> v_istack v) as ->.
      { apply list_fmap_ext. intros i g Hi. apply He. by apply (Forall_lookup_1 _ _ i g Hsc). }
      set_solver. }
    assert (sc_ids v' = {[n]} ∪ sc_ids v) as ->.
    { unfold sc_ids. change (v_istack v') with (f :: v_istack v). by rewrite fmap_cons, Hf. }
    assert (n ∉ sc_ids v) as Hn.
    { apply not_in_keys. eapply Forall_impl; [exact Hsc|]. intros g Hg. cbn in Hg. unfold n. lia. }
    rewrite over_insert, decide_False by done.
    change (stack_of v') with (stack_of v). change (v_istack v') with (f :: v_istack v).
    rewrite (over_ext (static_of v') (static_of v)).
    2:{ intros s Hs. unfold static_of, v'. cbn. rewrite lookup_insert_ne by (intros <-; done). done. }
    assert (static_of v' n = []) as ->.
    { unfold static_of, v'. cbn. rewrite lookup_insert_eq. by rewrite Hss. }
    cbn. by rewrite Hfi. }
  destruct HI as [H1 H2 (G & HG & HR) H4 _].
  split; [done| | |done|].
  - change (v_heap v') with (v_heap v). by rewrite HP.
  - exists G. split; [done|]. by rewrite HP.
  - assert (∀ s, is_Some (v_scs v' !! s) ↔ s = n ∨ is_Some (v_scs v !! s)) as Hd.
    { intros s. unfold v'. cbn. destruct (decide (n = s)) as [<-|Hne].
      - rewrite lookup_insert_eq. split; [by left|eauto].
      - rewrite lookup_insert_ne by done. naive_solver. }
    rewrite Forall_forall in Hsc, C6. split.
    + change (v_istack v') with (f :: v_istack v). constructor.
      * split; [exists sc; rewrite Hse; done|]. rewrite Htry. cbn. split; [done|lia].
      * rewrite Forall_forall in *. intros g Hg. destruct (C1 g Hg) as [(s & Hs1 & Hs2) Hs3].
        split; [|done]. exists s. by rewrite Hof by by apply Hsc.
    + done.
    + change (v_next v') with (Pos.succ n). split; intros s.
      * intros Hs. apply C3 in Hs. unfold n. lia.
      * rewrite Hd. intros [->|Hs]; [lia|]. apply C3' in Hs. unfold n. lia.
    + change (v_istack v') with (f :: v_istack v). constructor; [done|].
      apply Forall_forall. intros g Hg. apply Hsc in Hg. lia.
    + change (v_istack v') with (f :: v_istack v). constructor.
      * eapply StronglySorted_impl; [exact C5|]. intros x y Hx Hy Hxy.
        by rewrite !He by by apply Hsc.
      * apply Forall_forall. intros g Hg. rewrite Hfe, He by by apply Hsc. by apply C6.
    + change (v_istack v') with (f :: v_istack v). change (v_estack v') with (v_estack v).
      constructor; [by rewrite Hfe|]. apply Forall_forall. intros g Hg.
      rewrite He by by apply Hsc. by apply C6.
    + change (v_istack v') with (f :: v_istack v). cbn. lia.
    + intros _ g. change (v_istack v') with (f :: v_istack v). by intros [= <-].
Qed.

(** The calling context already has the stack in use. *)
Lemma set_parent_id H K v p sc :
  Inv true H K v → head (v_istack v) = Some p → v_scs v !! f_sc p = Some sc →
  set_sc (f_sc p) (set_sc_estack sc (v_estack v)) v = v.
Proof.
  intros HI Hp Hsc. pose proof (ctl_top _ _ (inv_ctl _ _ _ _ HI) eq_refl p Hp) as He.
  unfold est, sc_of in He. rewrite Hsc in He.
  assert (set_sc_estack sc (v_estack v) = sc) as -> by (rewrite <- He; by destruct sc).
  unfold set_sc. rewrite insert_id by done. by destruct v.
Qed.

Lemma T_set_parent (P : VM → Prop) p :
  (∀ v, P v → ∃ H K, Inv true H K v ∧ head (v_istack v) = p) →
  triple P
    (match p with
     | Some p =>
         sc ← get_sc (f_sc p); e ← gets v_estack; modify (set_sc (f_sc p) (set_sc_estack sc e))
     | None => mret tt
     end) (λ _, P).
Proof.
  intros HP. destruct p as [p|]; [|by apply T_ret]. intros v v' u Hv. unfold mbind, M_bind, get_sc.
  destruct (v_scs v !! f_sc p) as [sc|] eqn:Esc; [|done]. intros [= <- _].
  destruct (HP v Hv) as (H & K & HI & Hp). by rewrite (set_parent_id H K v p sc).
Qed.

Lemma T_load script deployed caller hash fl rv offset cb cb2 wl :
  0 <= offset →
  triple (Inv true [] [])
    (loadScriptWithCallingHash script deployed caller hash fl rv offset cb cb2 wl)
    (λ _, Inv true [] []).
Proof.
  intros Hoff. unfold loadScriptWithCallingHash.
  eapply (T_bind _ _ (λ _ v, Inv true [] [] v ∧ Z.of_nat (length (v_istack v)) < MaxInvocationStackSize)).
  { unfold checkInvocationStackSize. intros v v' a HI. unfold mbind, M_bind, gets, require.
    case_bool_decide; [done|]. cbn. intros [= <- <-]. split; [done|lia]. }
  intros ?. eapply (T_bind _ _ (λ p v, (Inv true [] [] v ∧ Z.of_nat (length (v_istack v)) < MaxInvocationStackSize)
    ∧ head (v_istack v) = p)). { by intros v v' p HI [= <- <-]. }
  intros parent. eapply T_bind; [apply T_set_parent; naive_solver|]. intros ?.
  eapply T_bind; [apply T_reads, reads_Len|]. intros l.
  eapply (T_bind _ _ (λ _ v, (∃ b, Inv b [] [] v) ∧ Z.of_nat (length (v_istack v)) < MaxInvocationStackSize)).
  - match goal with |- context [if ?c then _ else _] => destruct c end.
    + intros v v' u [[HI Hd] _] [= <- _]. split; [|done]. exists false. by apply (Inv_substack true).
    + apply T_ret. intros v [[HI Hd] _]. eauto.
  - intros ? v v' u [[b HI] Hd] [= <- _].
    by eapply (Inv_enter b [] [] v (mkSC script [] (v_estack v) None hash caller _ fl deployed cb cb2 wl)
            (mkFrame (NewContext script offset) (v_next v) None None [] rv)).
Qed.
End loading.

(** ** Instructions *)

Section executing.
Context `{EOK : EnvOk}.

Lemma Inv_gas b H K v g : Inv b H K v → Inv b H K (set_gas g v).
Proof. intros [H1 H2 H3 H4 [C1 C2 C3 C4 C5 C6 C7 C8]]. by split. Qed.

Lemma T_charge op p : triple (Inv true [] []) (charge op p) (λ _, Inv true [] []).
Proof.
  unfold charge. destruct getPrice as [price|]; [|by apply T_ret].
  do 2 (eapply T_bind; [apply T_reads; auto with reads|]; intros ?).
  match goal with |- triple _ (if ?c then _ else _) _ => destruct c end; [|by apply T_ret].
  eapply T_bind; [|intros ?; eapply T_bind; [apply T_reads, reads_gets|intros ?; apply T_reads, reads_require]].
  intros v v' u HI [= <- _]. by apply Inv_gas.
Qed.

Lemma keeps_body op p :
  triple (λ v, Inv true [] [] v ∧ (op = REMOVE → (remove_kills v).2 ≠ Some true)) (exec_body op p)
    (λ _, Inv true [] []).
Proof.
  destruct (decide (op = REMOVE)) as [->|Hne].
  { intros v v' u [HI Hk]. apply keeps_REMOVE. split; [done|by apply Hk]. }
  intros v v' u [HI _]. revert v v' u HI.
  change (triple (Inv true [] []) (exec_body op p) (λ _, Inv true [] [])).
  destruct op; try done; cbn [exec_body exec_compound];
    first [ apply keeps_push | apply keeps_slot | apply keeps_splice | apply keeps_stack
          | apply keeps_bit | apply keeps_arith | apply keeps_logic | apply keeps_jump
          | apply keeps_call | apply keeps_RET | apply keeps_try | apply keeps_misc
          | apply keeps_new | apply keeps_APPEND | apply keeps_PACKMAP | by apply keeps_PACK
          | apply keeps_UNPACK | apply keeps_PICKITEM | apply keeps_SETITEM
          | apply keeps_REVERSEITEMS | apply keeps_CLEARITEMS | apply keeps_POPITEM
          | apply keeps_SIZE | apply keeps_KEYS | apply keeps_VALUES | apply keeps_HASKEY ].
Qed.

(** REMOVE is about to drop the last reference to its map. *)
Definition kills (op : Opcode) (p : bytes) (v : VM) : bool :=
  bool_decide (op = REMOVE)
  && match (charge op p ;; remove_kills) v with (_, Some r) => r | _ => false end.

Lemma execute_keeps op p v v' :
  Inv true [] [] v → kills op p v = false → execute op p v = (v', true) →
  Inv true [] [] v' ∧ v_refs v' <= MaxStackSize.
Proof.
  intros HI Hk. unfold execute, mbind, M_bind.
  pose proof (T_charge op p v) as Hc. destruct (charge op p v) as [v1 [u|]] eqn:E; [|done].
  specialize (Hc v1 u HI eq_refl).
  pose proof (keeps_body op p v1) as Hb. destruct (exec_body op p v1) as [v2 [u2|]] eqn:E2; [|done].
  case_bool_decide; [done|]. intros [= <-]. split; [|lia]. apply (Hb v2 u2); [|done]. split; [done|].
  intros ->. revert Hk. unfold kills, mbind, M_bind. rewrite E, bool_decide_eq_true_2 by done.
  cbn. destruct (remove_kills v1) as [v3 [[]|]]; done.
Qed.

Definition step_kills (v : VM) : bool :=
  match v_istack v with
  | f :: t =>
      match Next (f_ctx f) with
      | Ok (op, param, c) => kills op param (set_istack (set_f_ctx f c :: t) v)
      | _ => false
      end
  | [] => false
  end.

Lemma step_keeps v v' :
  Inv true [] [] v → step_kills v = false → step v = (v', true) →
  Inv true [] [] v' ∧ v_refs v' <= MaxStackSize.
Proof.
  intros HI. unfold step_kills, step. destruct (v_istack v) as [|f t] eqn:Ev; [done|].
  destruct (TopIs_ok (b := true) f [] [] v) as [(Hsc & Hip & Hlen) _]; [by split; [|rewrite Ev]|].
  pose proof (Next_spec (f_ctx f) Hip) as HN.
  destruct (Next (f_ctx f)) as [[[op p] c]| |]; try done. destruct HN as (Hcip & Hprog & HN).
  apply execute_keeps. apply (Inv_top [] [] [] v f (set_f_ctx f c) t); [done|done|done| |done].
  destruct Hsc as (sc & Hs1 & Hs2 & Hs3).
  split; [exists sc; split; [exact Hs1|]; split; [done|cbn; congruence]|]. split; [|done]. cbn.
  case_bool_decide; [lia|]. destruct HN as (_ & _ & HN). lia.
Qed.

Lemma Inv_break v : Inv true [] [] v → Inv true [] [] (check_break v).
Proof.
  intros HI. unfold check_break. destruct (v_istack v) as [|f t]; [done|].
  destruct (atBreakPoint v f); [by apply Inv_set_state|done].
Qed.

(** The machines [Run] goes through, and stops at, as long as no REMOVE drops
    the last reference to its map. *)
Inductive runs : VM → VM → Prop :=
  | runs_refl v : runs v v
  | runs_step v w v' :
      v_state v = VNone → step_kills v = false → step v = (w, true) →
      runs (check_break w) v' → runs v v'.

Lemma runs_keeps v v' :
  runs v v' → Inv true [] [] v ∧ v_refs v <= MaxStackSize →
  Inv true [] [] v' ∧ v_refs v' <= MaxStackSize.
Proof.
  induction 1 as [v|v w v' Hst Hk Hs Hr IH]; [done|]. intros [HI _].
  destruct (step_keeps v w HI Hk Hs) as [HI' Hrefs]. apply IH. split; [by apply Inv_break|].
  unfold check_break. destruct (v_istack w) as [|f t]; [done|]. by destruct (atBreakPoint w f).
Qed.

Lemma Inv_New : Inv true [] [] New.
Proof.
  assert (roots New = []) as Hr by reflexivity.
  split.
  - intros l c Hl. by apply (lookup_empty_Some (A := cell)) in Hl.
  - by rewrite Hr.
  - exists []. split; [done|]. rewrite Hr. split; [|done].
    intros l c rc Hl. by apply (lookup_empty_Some (A := cell)) in Hl.
  - done.
  - split; cbn; try constructor; try done; try by eexists.
    + intros s [l Hl]. apply lookup_singleton_Some in Hl as [<- _]. cbn. lia.
    + intros s [c Hc]. by apply (lookup_empty_Some (A := scriptContext)) in Hc.
Qed.

Lemma load_New script f g :
  Inv true [] [] (load script f (SetGasLimit g New)) ∧ v_refs (load script f (SetGasLimit g New)) = 0.
Proof.
  split; [|reflexivity]. unfold load, LoadScriptWithFlags, mbind at 1, M_bind at 1, gets.
  set (v0 := SetGasLimit g New).
  assert (Inv true [] [] v0) as H0.
  { pose proof Inv_New as [H1 H2 H3 H4 [C1 C2 C3 C4 C5 C6 C7 C8]]. by split. }
  pose proof (T_load script false (GetCurrentScriptHash v0) zero160 f (-1) 0 None None false ltac:(lia) v0) as HT.
  destruct (loadScriptWithCallingHash _ _ _ _ _ _ _ _ _ _ v0) as [v [u|]] eqn:E.
  - exact (HT v u H0 eq_refl).
  - discriminate E.
Qed.

(** What a consistent machine is: its heap is well formed, the items of its
    live stacks and slots are too, it has no more contexts and handlers than
    the limits, and its counter is at least the number of items on its stacks
    and slots and in any set of distinct compound items it can reach. *)
Record machine_ok (v : VM) : Prop := {
  mo_heap : heap_wf (v_heap v);
  mo_items : Forall (item_ok (v_heap v)) (roots v);
  mo_depth : Z.of_nat (length (v_istack v)) <= MaxInvocationStackSize;
  mo_try : Forall (λ f, Z.of_nat (length (f_try f)) <= MaxTryNestingDepth) (v_istack v);
  mo_refs : ∀ ls, NoDup ls → (∀ l, l ∈ ls → reach (v_heap v) (roots v) l) →
              len (roots v) + len (ls ≫= items_at (v_heap v)) <= v_refs v;
}.

Lemma Inv_machine_ok v : Inv true [] [] v → machine_ok v.
Proof.
  intros HI. pose proof (inv_ctl _ _ _ _ HI) as HC.
  pose proof (Inv_roots _ _ _ _ HI) as (Hro & _).
  split; [apply HI|exact Hro|apply HC| |].
  - eapply Forall_impl; [apply HC|]. intros f (_ & _ & Hl). unfold MaxTryNestingDepth in *. lia.
  - intros ls Hnd Hls. destruct (inv_rc _ _ _ _ HI) as (G & HG & HR).
    pose proof (proj2 HR) as H2. rewrite len_nil, !len_app in H2. cbn [app] in H2, HR.
    assert (len (ls ≫= items_at (v_heap v)) <= len (kids (v_heap v))) as Hk.
    { apply live_cells_bound; [done|]. intros l c Hin Hl.
      apply (reach_live (v_heap v) (v_refs v) (roots v ++ G) l c (inv_heap _ _ _ _ HI));
        [by apply Forall_app|done| |done].
      specialize (Hls l Hin). clear -Hls. induction Hls as [i l Hi Hil|l c i l' Hr IH Hl Hi Hil].
      - apply (reach_root _ _ i l); [set_solver|done].
      - by eapply reach_in. }
    pose proof (len_nonneg G). rewrite len_nil in H2. lia.
Qed.

(** C32: an instruction that succeeds keeps the machine consistent and within
    [MaxStackSize] counted items, unless it is a REMOVE that drops the last
    reference to the map it works on. *)
Theorem execute_safe (op : Opcode) (p : bytes) (v v' : VM) :
  Inv true [] [] v → kills op p v = false → execute op p v = (v', true) →
  Inv true [] [] v' ∧ machine_ok v' ∧ v_refs v' <= MaxStackSize.
Proof.
  intros HI Hk He. destruct (execute_keeps op p v v' HI Hk He) as [HI' Hr].
  split; [done|]. split; [by apply Inv_machine_ok|done].
Qed.

(** C33: every machine that a script reaches without a REMOVE that drops the last
    reference to its map is consistent and counts at most [MaxStackSize] items: no
    such run can hold more items than the limit.  With such a REMOVE a run can
    ([remove_undercounts]). *)
Theorem vm_safe (script : bytes) (f g : Z) (v : VM) :
  runs (load script f (SetGasLimit g New)) v →
  machine_ok v ∧ len (roots v) <= v_refs v <= MaxStackSize.
Proof.
  intros Hr. destruct (load_New script f g) as [HI H0].
  destruct (runs_keeps _ v Hr) as [HI' Hrefs]; [split; [done|rewrite H0; done]|].
  pose proof (Inv_machine_ok v HI') as Hok. split; [done|]. split; [|done].
  pose proof (mo_refs v Hok [] (NoDup_nil_2)) as Hb. cbn in Hb. rewrite len_nil, Z.add_0_r in Hb.
  apply Hb. intros l Hl. by apply elem_of_nil in Hl.
Qed.
End executing.

(** ** A run that holds more items than the limit *)

Lemma plain_env_ok : @EnvOk plain_env.
Proof.
  split.
  - done.
  - intros h n [= <-]. by apply T_load.
  - intros b id f c H. by apply T_ret.
  - intros b id H. by apply T_ret.
Qed.

Definition asm (l : list Opcode) : bytes := (λ op, z2b (op_code op)) <$> l.

(** A map that holds an array that holds the map, both without other
    references when REMOVE releases the array. *)
Definition kill_script : list Opcode :=
  [NEWMAP; DUP; DUP; PUSH1; PACK; PUSH1; SWAP; SETITEM; PUSH1; REMOVE].

(** After that REMOVE the counter is too low: the script halts normally
    with more items on its stack than [MaxStackSize]. *)
Theorem remove_undercounts :
  let script := asm (kill_script ++ replicate 2049 PUSH1) in
  match Run (ENV := plain_env) 3000 (load (ENV := plain_env) script 0 (SetGasLimit (-1) New)) with
  | Some (v, ok) => ok = true ∧ v_state v = VHalt ∧ v_refs v = 2048
                    ∧ MaxStackSize < len (stack_of v (v_estack v))
  | None => False
  end.
Proof. vm_compute. done. Qed.

(** ** Witnesses *)

Definition demo_script : list Opcode := [NEWMAP; DUP; PUSH1; PUSH2; SETITEM; PUSH1; REMOVE].

Lemma execute_safe_witness :
  let v := load (ENV := plain_env) [] 0 (SetGasLimit (-1) New) in
  execute (ENV := plain_env) PUSH1 [] v = ((execute (ENV := plain_env) PUSH1 [] v).1, true)
  ∧ v_refs (execute (ENV := plain_env) PUSH1 [] v).1 <= MaxStackSize.
Proof.
  intros v. assert (execute (ENV := plain_env) PUSH1 [] v
                    = ((execute (ENV := plain_env) PUSH1 [] v).1, true)) as He by reflexivity.
  split; [exact He|].
  exact (proj2 (proj2 (execute_safe (EOK := plain_env_ok) PUSH1 [] v _
           (proj1 (load_New (ENV := plain_env) [] 0 (-1))) eq_refl He))).
Defined.

Fixpoint run_n (n : nat) (v : VM) : VM :=
  match n with
  | O => v
  | S n => run_n n (check_break (step (ENV := plain_env) v).1)
  end.

Lemma runs_run_n n v :
  forallb (λ k, let w := run_n k v in
    bool_decide (v_state w = VNone) && negb (step_kills (ENV := plain_env) w)
    && (step (ENV := plain_env) w).2) (seq 0 n) = true →
  runs (ENV := plain_env) v (run_n n v).
Proof.
  revert v. induction n as [|n IH]; intros v Hf; [apply runs_refl|]. cbn [seq forallb] in Hf.
  apply andb_true_iff in Hf as [Hv Hf].
  apply andb_true_iff in Hv as [Hv H3]. apply andb_true_iff in Hv as [H1 H2].
  eapply (runs_step v (step (ENV := plain_env) v).1).
  - by apply bool_decide_eq_true in H1.
  - by apply negb_true_iff in H2.
  - cbn [run_n] in H3. destruct (step (ENV := plain_env) v) as [w x]. cbn in H3. by rewrite H3.
  - apply IH. rewrite <- seq_shift, forallb_forall in Hf. apply forallb_forall. intros k Hk.
    apply (Hf (S k)), in_map, Hk.
Qed.

Lemma vm_safe_witness :
  let v := run_n 7 (load (ENV := plain_env) (asm demo_script) 0 (SetGasLimit (-1) New)) in
  v_istack v ≠ [] ∧ machine_ok v ∧ v_refs v <= MaxStackSize.
Proof.
  intros v. assert (runs (ENV := plain_env) (load (ENV := plain_env) (asm demo_script) 0 (SetGasLimit (-1) New)) v)
    as Hr by (apply runs_run_n; vm_compute; reflexivity).
  split; [by vm_compute|].
  destruct (vm_safe (EOK := plain_env_ok) (asm demo_script) 0 (-1) v Hr) as [Hok [_ Hb]].
  by split.
Defined.
