(* ===== verification/VMRun.v ===== *)
(** * VMRun: a run with a gas limit ends

    Every instruction inside the script costs something, but for [RET], [SYSCALL]
    and the aborts (fee/opcode.go), so a run under a gas limit executes finitely
    many of the others.  Between two of those it can only leave contexts, or read
    on in the same script over system calls that charge nothing.  The measure is
    lexicographic: three times the gas left plus the depth of the invocation stack
    (an instruction enters two contexts at most), then the bytes of the current
    script that have not been read. *)

From stdpp Require Import pretty strings.
From S2P Require Import Prelude Bigint StackItem RefCount Script VM VMInv.

(** ** Actions that leave contexts and gas alone *)

Definition same_run (v v' : VM) : Prop :=
  v_istack v' = v_istack v ∧ v_scs v' = v_scs v
  ∧ v_gas v' = v_gas v ∧ v_gasLimit v' = v_gasLimit v ∧ (v_next v <= v_next v')%positive.

Ltac same_run_tac := unfold same_run; cbn; repeat split; first [reflexivity | lia].

Definition quiet {A} (m : M A) : Prop := ∀ v, same_run v (m v).1.

Lemma quiet_bind {A B} (m : M A) (f : A → M B) :
  quiet m → (∀ a, quiet (f a)) → quiet (m ≫= f).
Proof.
  intros Hm Hf v. unfold mbind, M_bind. specialize (Hm v).
  destruct (m v) as [v1 [a|]]; [|done]. specialize (Hf a v1).
  destruct (f a v1) as [v2 r]. cbn in *. unfold same_run in *. intuition (congruence || lia).
Qed.

Ltac quiet_tac := intros v; unfold mret, M_ret; repeat case_match; same_run_tac.

Lemma quiet_ret {A} (a : A) : quiet (mret a).
Proof. quiet_tac. Qed.
Lemma quiet_panic {A} : quiet (@panic A).
Proof. quiet_tac. Qed.
Lemma quiet_gets {A} (f : VM → A) : quiet (gets f).
Proof. quiet_tac. Qed.
Lemma quiet_read {A} (f : VM → option A) : quiet (λ v, (v, f v)).
Proof. quiet_tac. Qed.
Lemma quiet_lift {E A} (r : res E A) : quiet (lift r).
Proof. unfold lift, panic. quiet_tac. Qed.
Lemma quiet_lift_opt {A} (r : option A) : quiet (lift_opt r).
Proof. unfold lift_opt, panic. quiet_tac. Qed.
Lemma quiet_require c : quiet (require c).
Proof. unfold require, panic. quiet_tac. Qed.
Lemma quiet_with_heap {E A} (f : Heap → res E A) : quiet (with_heap f).
Proof. unfold with_heap. quiet_tac. Qed.
Lemma quiet_on_heap {E A} (f : Heap → res E (A * Heap)) : quiet (on_heap f).
Proof. unfold on_heap. quiet_tac. Qed.
Lemma quiet_upd_heap {E} (f : Heap → res E Heap) : quiet (upd_heap f).
Proof. unfold upd_heap. quiet_tac. Qed.
Lemma quiet_refs_Add i : quiet (refs_Add i).
Proof. unfold refs_Add. quiet_tac. Qed.
Lemma quiet_refs_Remove i : quiet (refs_Remove i).
Proof. unfold refs_Remove. quiet_tac. Qed.
Lemma quiet_shift_rc l n : quiet (shift_rc l n).
Proof. unfold shift_rc. quiet_tac. Qed.
Lemma quiet_is_referenced l : quiet (is_referenced l).
Proof. unfold is_referenced. quiet_tac. Qed.
Lemma quiet_modify (f : VM → VM) : (∀ v, same_run v (f v)) → quiet (modify f).
Proof. done. Qed.
Lemma quiet_refs_shift n : quiet (refs_shift n).
Proof. quiet_tac. Qed.
Lemma quiet_put_stack l : quiet (put_stack l).
Proof. quiet_tac. Qed.

Lemma quiet_fresh_sid : quiet fresh_sid.
Proof. unfold fresh_sid. quiet_tac. Qed.

Create HintDb quiet.
#[export] Hint Resolve quiet_ret quiet_panic quiet_gets quiet_read quiet_lift quiet_lift_opt
  quiet_require quiet_with_heap quiet_on_heap quiet_upd_heap quiet_refs_Add quiet_refs_Remove
  quiet_shift_rc quiet_is_referenced quiet_refs_shift quiet_put_stack quiet_fresh_sid : quiet.
#[export] Hint Extern 1 (quiet (modify _)) => (apply quiet_modify; intros; same_run_tac) : quiet.

Ltac solve_quiet :=
  repeat first
    [ solve [auto with quiet nocore]
    | progress unfold alloc, Len, pushNoRef, popNoRef, PushItem, pushItemCounted, Pop, Peek, InsertAt,
        RemoveAt, Clear, Swap, ReverseTop, Roll, PopBigInt, PopBool, PopBytes, PopString, toInt, PopInt,
        PushInteger, PushBool, slot_init, initFromStack, slot_store, slot_Get, cur_stack, top_frame,
        get_sc, IncRC, DecRC, getJumpOffset, param0, param1, seq_of, map_of, seq_ro, map_ro, set_seq,
        map_index, validateMapKey, cloneIfStruct, makeArrayOfType, push_counted, buf_of, set_buf,
        as_buffer, newBuffer, get_static, get_local, get_args, load_slot
    | apply quiet_bind; [|intros ?]
    | case_match ].

Lemma quiet_each {A} (f : A → M unit) l : (∀ a, quiet (f a)) → quiet (each f l).
Proof. intros Hf. induction l as [|a l IH]; cbn; [apply quiet_ret|]. by apply quiet_bind. Qed.
Lemma quiet_pop_n n : quiet (pop_n n).
Proof. induction n; cbn [pop_n]; solve_quiet. Qed.
Lemma quiet_packmap_loop l n : quiet (packmap_loop l n).
Proof. induction n; cbn [packmap_loop]; solve_quiet. Qed.
Lemma quiet_cpValues l r : quiet (cpValues l r).
Proof. induction l; cbn [cpValues]; solve_quiet. Qed.
Lemma quiet_clearRefs s : quiet (clearRefs s).
Proof. unfold clearRefs. destruct s; [|apply quiet_ret]. apply quiet_each. intros ?. solve_quiet. Qed.
#[export] Hint Resolve quiet_each quiet_pop_n quiet_packmap_loop quiet_cpValues quiet_clearRefs : quiet.

Section quiet_instructions.
Context `{ENV : Env}.

Lemma quiet_push op p : quiet (exec_push op p).
Proof. destruct op; cbn [exec_push]; solve_quiet. Qed.
Lemma quiet_splice op : quiet (exec_splice op).
Proof. destruct op; cbn [exec_splice]; solve_quiet. Qed.
Lemma quiet_stack op : quiet (exec_stack op).
Proof. destruct op; cbn [exec_stack]; solve_quiet. Qed.
Lemma quiet_bit op : quiet (exec_bit op).
Proof. destruct op; cbn [exec_bit]; solve_quiet. Qed.
Lemma quiet_arith op : quiet (exec_arith op).
Proof. destruct op; cbn [exec_arith]; solve_quiet. Qed.
Lemma quiet_logic op : quiet (exec_logic op).
Proof. destruct op; cbn [exec_logic]; solve_quiet. Qed.
Lemma quiet_new op p : quiet (exec_new op p).
Proof. destruct op; cbn [exec_new]; solve_quiet. Qed.
Lemma quiet_APPEND : quiet exec_APPEND.
Proof. unfold exec_APPEND. solve_quiet. Qed.
Lemma quiet_PACKMAP : quiet exec_PACKMAP.
Proof. unfold exec_PACKMAP. solve_quiet. Qed.
Lemma quiet_PACK mk : quiet (exec_PACK mk).
Proof. unfold exec_PACK. solve_quiet. Qed.
Lemma quiet_UNPACK : quiet exec_UNPACK.
Proof.
  unfold exec_UNPACK, unpack_push, unpack_map_push. solve_quiet.
  all: apply quiet_each; intros ?; solve_quiet.
Qed.
Lemma quiet_REVERSEITEMS : quiet exec_REVERSEITEMS.
Proof. unfold exec_REVERSEITEMS. solve_quiet. Qed.
Lemma quiet_REMOVE : quiet exec_REMOVE.
Proof. unfold exec_REMOVE. solve_quiet. Qed.
Lemma quiet_CLEARITEMS : quiet exec_CLEARITEMS.
Proof. unfold exec_CLEARITEMS. solve_quiet. all: apply quiet_each; intros ?; solve_quiet. Qed.
Lemma quiet_POPITEM : quiet exec_POPITEM.
Proof. unfold exec_POPITEM. solve_quiet. Qed.
Lemma quiet_SIZE : quiet exec_SIZE.
Proof. unfold exec_SIZE. solve_quiet. Qed.
Lemma quiet_KEYS : quiet exec_KEYS.
Proof. unfold exec_KEYS. solve_quiet. Qed.
Lemma quiet_VALUES : quiet exec_VALUES.
Proof. unfold exec_VALUES. solve_quiet. Qed.
Lemma quiet_HASKEY : quiet exec_HASKEY.
Proof. unfold exec_HASKEY. solve_quiet. Qed.
End quiet_instructions.

(** ** Contexts, gas and depth *)

(** A bound on the length of the scripts that are loaded. *)
Class ScriptMax := script_max : Z.

Definition prog_len (f : frame) : Z := Z.of_nat (length (c_prog (f_ctx f))).

Section depth.
Context `{SM : ScriptMax}.

(** A context that is charged for what it executes. *)
Definition charged (v : VM) (f : frame) : Prop :=
  (∃ sc, v_scs v !! f_sc f = Some sc ∧ c_prog (f_ctx f) = sc_prog sc ∧ sc_whitelisted sc = false)
  ∧ 0 <= c_nextip (f_ctx f) ∧ (f_sc f < v_next v)%positive ∧ prog_len f <= script_max.

(** [F]: contexts seen before; [L]: a bound on the depth; [g]: gas that was
    consumed before, under the limit [lim]. *)
Definition Trk (F : list frame) (L : nat) (g lim : Z) (v : VM) : Prop :=
  Forall (charged v) (v_istack v ++ F) ∧ (length (v_istack v) <= L)%nat
  ∧ g <= v_gas v <= lim ∧ v_gasLimit v = lim.

Lemma Trk_same F L g lim v v' : same_run v v' → Trk F L g lim v → Trk F L g lim v'.
Proof.
  intros (H1 & H2 & H3 & H4 & H5) (HF & HL & Hg & Hl). unfold Trk. rewrite H1, H3, H4.
  split; [|done]. eapply Forall_impl; [exact HF|]. intros f. unfold charged. rewrite H2.
  intros (Hs & Hip & Hn & Hm). split; [done|]. split; [done|]. split; [lia|done].
Qed.

Lemma Trk_weaken F F' L L' g lim v : F' ⊆ F → (L <= L')%nat → Trk F L g lim v → Trk F' L' g lim v.
Proof.
  intros HF HL (H1 & H2 & H3). split; [|split; [lia|done]].
  apply Forall_app in H1 as [H1 H1']. apply Forall_app. split; [done|].
  rewrite Forall_forall in *. intros f Hf. by apply H1', HF.
Qed.

(** The shared part of a context changes but for its script. *)
Lemma charged_set_sc v s sc sc' x :
  v_scs v !! s = Some sc → sc_prog sc' = sc_prog sc → sc_whitelisted sc' = sc_whitelisted sc →
  charged v x → charged (set_sc s sc' v) x.
Proof.
  intros Hsc Hp' Hw' [(sc2 & Hs & Hp & Hw) Hip]. split; [|exact Hip]. cbn.
  destruct (decide (s = f_sc x)) as [->|He].
  - rewrite lookup_insert_eq. exists sc'. simplify_eq. split; [done|]. by rewrite Hp', Hw'.
  - rewrite lookup_insert_ne by done. eauto.
Qed.
End depth.

Section tracking.
Context `{SM : ScriptMax} {L : nat} {g lim : Z}.

Abbreviation trk F m := (triple (Trk F L g lim) m (λ _, Trk F L g lim)).

Lemma T_quiet {A} F (m : M A) : quiet m → trk F m.
Proof. intros Hm v v' a HT He. specialize (Hm v). rewrite He in Hm. by eapply Trk_same. Qed.

Lemma T_forget {A} F F' (m : M A) : trk F m → F' ⊆ F → triple (Trk F L g lim) m (λ _, Trk F' L g lim).
Proof. intros Hm HF v v' a HT He. eapply Trk_weaken; [exact HF|done|]. by eapply Hm. Qed.

Lemma T_top F : triple (Trk F L g lim) top_frame (λ f, Trk (f :: F) L g lim).
Proof.
  intros v v' f HT. unfold top_frame. intros [= <- Hf]. destruct HT as (HF & HL & Hg).
  split; [|done]. destruct (v_istack v) as [|f' t]; [done|]. injection Hf as ->.
  rewrite Forall_app in *. destruct HF as [H1 H2]. split; [done|]. constructor; [by inv H1|done].
Qed.

(** The current context is replaced by one of the same script. *)
Lemma T_set_top F f f' :
  f ∈ F → f_sc f' = f_sc f → c_prog (f_ctx f') = c_prog (f_ctx f) → 0 <= c_nextip (f_ctx f') →
  trk F (set_top f').
Proof.
  intros Hf Hsc Hp Hip v v' u (HF & HL & Hg). unfold set_top.
  destruct (v_istack v) as [|x t] eqn:Ev; [done|]. intros [= <- _]. split; [|split; [exact HL|exact Hg]].
  change (v_istack (set_istack (f' :: t) v)) with (f' :: t). rewrite Forall_app in *.
  destruct HF as [H1 H2]. split; [|exact H2]. inv H1. constructor; [|done].
  rewrite Forall_forall in H2. destruct (H2 f Hf) as [(sc & Hs & Hpr & Hw) (_ & Hn & Hm)].
  split; [|unfold prog_len; rewrite Hsc, Hp; done]. exists sc.
  change (v_scs (set_istack (f' :: t) v)) with (v_scs v). by rewrite Hsc, Hp.
Qed.

Lemma T_with_top {A} F (f : frame → M A) Q :
  (∀ x, 0 <= c_nextip (f_ctx x) → triple (Trk (x :: F) L g lim) (f x) Q) →
  triple (Trk F L g lim) (x ← top_frame; f x) Q.
Proof.
  intros Hf. eapply T_bind; [apply T_top|]. intros x v v' a HT. eapply Hf; [|exact HT].
  destruct HT as [HF _]. apply Forall_app in HF as [_ HF]. inv HF. by destruct H1 as (_ & Hip & _).
Qed.

Lemma T_top_field F (upd : frame → frame) :
  (∀ x, f_sc (upd x) = f_sc x ∧ f_ctx (upd x) = f_ctx x) →
  trk F (f ← top_frame; set_top (upd f)).
Proof.
  intros Hu. apply T_with_top. intros x Hx. destruct (Hu x) as [H1 H2].
  eapply T_forget; [apply (T_set_top _ x)|]; rewrite ?H2; set_solver.
Qed.

Lemma T_put_local F s : trk F (put_local s).
Proof. unfold put_local. by apply (T_top_field F (λ f, set_f_local f s)). Qed.
Lemma T_put_args F s : trk F (put_args s).
Proof. unfold put_args. by apply (T_top_field F (λ f, set_f_args f s)). Qed.

Lemma K_jump F pos : trk F (jump pos).
Proof.
  unfold jump. apply T_with_top. intros x Hx. unfold Jump.
  destruct (bool_decide (pos < 0)) eqn:Hp; [apply T_panic|].
  destruct (bool_decide (LenInstr (f_ctx x) <= pos)); [apply T_panic|].
  apply bool_decide_eq_false in Hp.
  eapply T_forget; [apply (T_set_top _ x); cbn; try done; [set_solver|lia]|set_solver].
Qed.

Lemma T_put_static F s : trk F (put_static s).
Proof.
  intros v v' u (HF & HL & Hg). unfold put_static, mbind, M_bind, top_frame, get_sc.
  destruct (head (v_istack v)) as [f|]; [|done].
  destruct (v_scs v !! f_sc f) as [sc|] eqn:Esc; [|done]. intros [= <- _].
  split; [|done]. eapply Forall_impl; [exact HF|]. intros x. by apply charged_set_sc with sc.
Qed.

Lemma T_slot op p : trk [] (exec_slot op p).
Proof.
  assert (∀ get put n, quiet get → (∀ s, trk [] (put s)) → trk [] (store_slot get put n)) as Hst.
  { intros get put n Hg Hp. unfold store_slot. eapply T_bind; [by apply T_quiet|]. intros s.
    eapply T_bind; [apply T_quiet; solve_quiet|]. intros s'. apply Hp. }
  assert (∀ put (m : M Slot) (c : bool), quiet m → (∀ s, trk [] (put s)) →
    trk [] (if c then s ← m; put s else mret tt)) as Hinit.
  { intros put m c Hm Hp. destruct c; [|apply T_quiet; solve_quiet].
    eapply T_bind; [by apply T_quiet|]. intros s. apply Hp. }
  pose proof T_put_static as H1. pose proof T_put_local as H2. pose proof T_put_args as H3.
  destruct op; cbn [exec_slot]; try (solve [apply T_quiet; solve_quiet]);
    try (solve [apply Hst; [solve_quiet|auto]]);
    repeat first
      [ solve [auto]
      | solve [apply Hst; [solve_quiet|auto]]
      | solve [apply Hinit; [solve_quiet|auto]]
      | eapply T_bind;
        [first [solve [apply T_quiet; solve_quiet] | apply Hinit; [solve_quiet|auto]]|intros ?; cbn beta] ].
Qed.

Lemma T_jump_op `{ENV : Env} op p : trk [] (exec_jump op p).
Proof.
  unfold exec_jump. do 2 (eapply T_bind; [apply T_quiet; solve_quiet|]; intros ?).
  case_match; [apply K_jump|apply T_quiet; solve_quiet].
Qed.

(** Popping contexts. *)
Lemma T_pop F : trk F (modify (λ v, set_istack (tail (v_istack v)) v)).
Proof.
  intros v v' u (HF & HL & Hg) [= <- _]. split; [|split; [|exact Hg]]; cbn.
  - rewrite Forall_app in *. destruct HF as [H1 H2]. split; [|done].
    destruct (v_istack v); [done|]. by inv H1.
  - destruct (v_istack v); cbn in *; lia.
Qed.

Lemma T_frames F fs :
  triple (λ v, Trk F L g lim v ∧ Forall2 fewer_try (v_istack v) fs) (modify (set_istack fs))
    (λ _, Trk F L g lim).
Proof.
  intros v v' u [(HF & HL & Hg) H2] [= <- _]. split; [|split; [|exact Hg]]; cbn.
  - rewrite Forall_app in *. destruct HF as [H1 H3]. split; [|done]. clear -H1 H2.
    revert H1. change (charged (set_istack fs v)) with (charged v).
    induction H2 as [|f f' t t' (A1 & A2 & _) _ IH]; intros H1; [constructor|]. inv H1.
    constructor; [|by apply IH]. unfold charged, prog_len. by rewrite A1, A2.
  - by rewrite <- (Forall2_length _ _ _ H2).
Qed.
End tracking.

(** The opcodes that cost nothing by themselves. *)
Definition free_op (op : Opcode) : bool :=
  match op with ABORT | ABORTMSG | RET | SYSCALL => true | _ => false end.

(** What the run relies on.  The getter has no negative prices and makes only
    the opcodes above free.  A system call that charges something may enter two
    contexts; one that charges nothing leaves the invocation stack as it was.  A
    token enters two contexts at most, the callbacks of contexts none.  Contexts
    are entered with scripts within [script_max] that are not on the whitelist of
    fixed fees (which run without charge), and nothing gives gas back or takes
    more than the limit. *)
Class EnvPriced `{ENV : Env} `{SM : ScriptMax} := {
  price_of : Opcode → bytes → Z;
  priced : getPrice = Some price_of;
  price_range : ∀ op p, 0 <= price_of op p < 2 ^ 63;
  price_pos : ∀ op p, free_op op = false → 1 <= price_of op p;
  syscall_tracked : ∀ h n fs L g lim, SyscallHandler = Some h → 0 <= g → lim < 2 ^ 63 →
    triple (λ v, Trk [] L g lim v ∧ v_istack v = fs) (h n)
      (λ _ v, Trk [] (2 + L) (g + 1) lim v ∨ Trk [] L g lim v ∧ v_istack v = fs);
  token_tracked : ∀ h n L g lim, LoadToken = Some h →
    triple (Trk [] L g lim) (h n) (λ _, Trk [] (2 + L) g lim);
  unload_tracked : ∀ id f c F L g lim,
    triple (Trk F L g lim) (unload_callback id f c) (λ _, Trk F L g lim);
  unloaded_tracked : ∀ id F L g lim,
    triple (Trk F L g lim) (unloaded_callback id) (λ _, Trk F L g lim);
}.

(** The prices of the repository, for the factors that the policy contract allows
    (1 to 100 datoshi, in picoGAS from Faun on). *)
Lemma coefficients_range op : 0 <= coefficients op < 2 ^ 16 ∧ (free_op op = false → 1 <= coefficients op).
Proof. by destruct op. Qed.

Lemma GetPrice_eq base op p :
  1 <= base <= 100 * ExecFeeFactorMultiplier → GetPrice base op p = coefficients op * base.
Proof.
  intros Hb. unfold GetPrice, fee_Opcode, ExecFeeFactorMultiplier in *.
  cbn [foldl]. destruct (coefficients_range op) as [Hr _].
  rewrite (wrap_s_small 64 (0 + _)) by lia. apply wrap_s_small; nia.
Qed.

Lemma GetPrice_range base op p :
  1 <= base <= 100 * ExecFeeFactorMultiplier → 0 <= GetPrice base op p < 2 ^ 63.
Proof.
  intros Hb. rewrite GetPrice_eq by done. destruct (coefficients_range op) as [Hr _].
  unfold ExecFeeFactorMultiplier in Hb. nia.
Qed.

Lemma GetPrice_pos base op p :
  1 <= base <= 100 * ExecFeeFactorMultiplier → free_op op = false → 1 <= GetPrice base op p.
Proof.
  intros Hb Hf. rewrite GetPrice_eq by done. destruct (coefficients_range op) as [_ Hr]. specialize (Hr Hf).
  nia.
Qed.

Section tracking2.
Context `{EP : EnvPriced} {L : nat} {g lim : Z}.

Abbreviation trk F m := (triple (Trk F L g lim) m (λ _, Trk F L g lim)).

Lemma T_unloadContext F f : trk F (unloadContext f).
Proof.
  unfold unloadContext.
  do 3 (eapply T_bind; [apply T_quiet; solve_quiet|]; intros ?; cbn beta).
  match goal with |- triple _ (if ?c then _ else _) _ => destruct c end; [|apply T_quiet; solve_quiet].
  do 2 (eapply T_bind; [apply T_quiet; solve_quiet|]; intros ?; cbn beta).
  eapply (T_bind _ _ (λ _, Trk F L g lim)).
  - case_match; [|apply T_quiet; solve_quiet].
    eapply T_bind; [apply T_quiet; solve_quiet|]. intros ?. cbn beta. unfold call_onUnload.
    case_match; [|apply unload_tracked]. apply T_quiet. unfold dynamic_on_unload. solve_quiet.
  - intros ?. case_match; [|apply T_quiet; solve_quiet].
    do 2 (eapply T_bind; [apply T_quiet; solve_quiet|]; intros ?; cbn beta). apply unloaded_tracked.
Qed.

Lemma K_unload_n F n : trk F (unload_n n).
Proof.
  induction n as [|n IH]; cbn [unload_n]; [apply T_quiet; solve_quiet|].
  eapply T_bind; [apply T_quiet; solve_quiet|]. intros f.
  eapply T_bind; [apply T_pop|]. intros ?. eapply T_bind; [apply T_unloadContext|]. intros ?. exact IH.
Qed.

Lemma K_set_try F f t : f ∈ F → 
  triple (λ v, Trk F L g lim v ∧ 0 <= c_nextip (f_ctx f)) (set_top (set_f_try f t)) (λ _, Trk F L g lim).
Proof. intros Hf v v' u [HT Hip]. by apply (T_set_top F f). Qed.

Lemma T_handle : trk [] handleException.
Proof.
  unfold handleException.
  eapply (T_bind _ _ (λ fs v, Trk [] L g lim v ∧ v_istack v = fs)).
  { by intros v v' fs HT [= <- <-]. }
  intros fs. destruct (find_handler fs) as [[n fs']|] eqn:Ef; [|apply T_panic].
  apply find_handler_fewer in Ef.
  eapply (T_bind _ _ (λ _, Trk [] L g lim)).
  { intros v v' u [HT Hv]. apply T_frames. split; [done|by rewrite Hv]. }
  intros ?. eapply T_bind; [apply K_unload_n|]. intros ?. apply T_with_top. intros f Hf.
  do 2 (eapply T_bind; [apply T_quiet; solve_quiet|]; intros ?; cbn beta).
  destruct (f_try f) as [|e t]; [apply T_panic|].
  match goal with |- triple _ (if ?c then _ else _) _ => destruct c end;
    (eapply T_bind; [apply (T_set_top [f] f); cbn; try done; set_solver|]; intros ?; cbn beta).
  - do 4 (eapply T_bind; [apply T_quiet; solve_quiet|]; intros ?; cbn beta).
    eapply T_forget; [apply K_jump|set_solver].
  - eapply T_forget; [apply K_jump|set_solver].
Qed.

Lemma T_throw' i : trk [] (throw i).
Proof. unfold throw. eapply T_bind; [apply T_quiet; solve_quiet|]. intros ?. apply T_handle. Qed.

Lemma T_try op p : trk [] (exec_try op p).
Proof.
  unfold exec_try. apply T_with_top. intros f Hf.
  assert (∀ t, trk [f] (set_top (set_f_try f t))) as Hst.
  { intros t. apply (T_set_top [f] f); cbn; try done; set_solver. }
  assert (∀ t n, triple (Trk [f] L g lim) (set_top (set_f_try f t) ;; jump n) (λ _, Trk [] L g lim)) as Hsj.
  { intros t n. eapply T_bind; [apply Hst|]. intros ?. eapply T_forget; [apply K_jump|set_solver]. }
  destruct op; try apply T_panic.
  1,2: destruct (GetTryParams _ p) as [c fi];
    do 4 (eapply T_bind; [apply T_quiet; solve_quiet|]; intros ?; cbn beta);
    eapply T_forget; [apply Hst|set_solver].
  1,2: destruct (f_try f) as [|e t]; [apply T_panic|];
    do 2 (eapply T_bind; [apply T_quiet; solve_quiet|]; intros ?; cbn beta);
    destruct (HasFinally e); apply Hsj.
  eapply T_bind; [apply T_quiet; solve_quiet|]. intros [exc|].
  - intros v v' u HT. apply T_handle. eapply Trk_weaken; [|done|exact HT]. set_solver.
  - destruct (f_try f) as [|e t]; [apply T_panic|]. apply Hsj.
Qed.

Lemma T_misc op : trk [] (exec_misc op).
Proof.
  destruct op; cbn [exec_misc]; try solve [apply T_quiet; solve_quiet].
  eapply T_bind; [apply T_quiet; solve_quiet|]. intros i. apply T_throw'.
Qed.

(** Instructions that may throw. *)
Ltac trk_walk :=
  repeat first
    [ solve [apply T_quiet; solve_quiet]
    | apply T_throw'
    | eapply T_bind; [solve [apply T_quiet; solve_quiet]|intros ?; cbn beta]
    | case_match ].

Lemma T_PICKITEM : trk [] exec_PICKITEM.
Proof. unfold exec_PICKITEM. trk_walk. Qed.

Lemma T_SETITEM : trk [] exec_SETITEM.
Proof. unfold exec_SETITEM. trk_walk. Qed.
End tracking2.

Section tracking3.
Context `{EP : EnvPriced}.

(** A context is entered. *)
Lemma Trk_enter F L g lim v f :
  Trk F L g lim v → charged v f → Trk F (S L) g lim (set_istack (f :: v_istack v) v).
Proof.
  intros (HF & HL & Hg) Hf. split; [|split; [cbn; lia|exact Hg]]. cbn. by constructor.
Qed.

Lemma T_call' L g lim n : triple (Trk [] L g lim) (call n) (λ _, Trk [] (S L) g lim).
Proof.
  unfold call. eapply T_bind; [apply T_quiet; unfold checkInvocationStackSize; solve_quiet|].
  intros ?. eapply T_bind; [apply T_top|]. intros f v v' u HT.
  unfold mbind at 1, M_bind at 1, get_sc. destruct (v_scs v !! f_sc f) as [sc|] eqn:Esc; [|done].
  unfold mbind, M_bind, gets, modify. intros He. eapply (K_jump (L := S L) []); [|exact He].
  assert (charged v f) as [(sc' & Hs & Hp & Hw) (_ & Hn & Hm)].
  { destruct HT as [HF _]. apply Forall_app in HF as [_ HF]. by inv HF. }
  apply Trk_enter; [eapply Trk_weaken; [|done|exact HT]; set_solver|].
  assert (sc' = sc) as -> by congruence. unfold prog_len in *. rewrite Hp in Hm.
  split; [by exists sc|done].
Qed.

(** Loading a script that is charged. *)
Lemma T_load_tracked L g lim script deployed caller hash fl rv offset cb cb2 :
  0 <= offset → Z.of_nat (length script) <= script_max →
  triple (Trk [] L g lim)
    (loadScriptWithCallingHash script deployed caller hash fl rv offset cb cb2 false)
    (λ _ v, Trk [] (S L) g lim v).
Proof.
  intros Hoff Hlen. unfold loadScriptWithCallingHash.
  eapply T_bind; [apply T_quiet; unfold checkInvocationStackSize; solve_quiet|].
  intros ?. cbn beta. eapply T_bind; [apply T_quiet; solve_quiet|]. intros p. cbn beta.
  eapply (T_bind _ _ (λ _, Trk [] L g lim)).
  - destruct p as [f|]; [|apply T_quiet; solve_quiet].
    intros v v' u HT. unfold mbind, M_bind, get_sc, gets, modify.
    destruct (v_scs v !! f_sc f) as [sc|] eqn:Esc; [|done]. intros [= <- _].
    destruct HT as (HF & HL & Hg). split; [|done]. eapply Forall_impl; [exact HF|].
    intros x. by apply charged_set_sc with sc.
  - intros ?. eapply T_bind; [apply T_quiet; solve_quiet|]. intros l. cbn beta.
    eapply T_bind; [apply T_quiet; unfold subStack; solve_quiet|].
    intros ? v v' u HT [= <- _]. cbn beta in HT. set (sc := mkSC _ _ _ _ _ _ _ _ _ _ _ _).
    set (v1 := set_sc (v_next v) sc (set_next (Pos.succ (v_next v)) v)).
    change (v_istack v) with (v_istack v1). apply Trk_enter.
    + destruct HT as (HF & HL & Hg). split; [|done]. eapply Forall_impl; [exact HF|].
      intros x [(sc' & Hs & Hp & Hw) (Hip & Hn & Hm)]. split; [|split; [done|split; [cbn; lia|done]]]. cbn.
      rewrite lookup_insert_ne by (intros ?; lia). eauto.
    + split; [|split; [done|split; [cbn; lia|done]]]. exists sc. cbn. by rewrite lookup_insert_eq.
Qed.

(** The instructions that enter contexts. *)
Lemma T_call_op L g lim op p :
  op ≠ SYSCALL → triple (Trk [] L g lim) (exec_call op p) (λ _, Trk [] (2 + L) g lim).
Proof.
  intros Hop.
  assert (∀ n, triple (Trk [] L g lim) (call n) (λ _, Trk [] (2 + L) g lim)) as Hc.
  { intros n. eapply T_post; [apply T_call'|]. intros ? v. by apply Trk_weaken; [|lia]. }
  destruct op; cbn [exec_call]; try apply T_panic.
  1,2: eapply T_bind; [apply T_quiet; solve_quiet|]; intros n; apply Hc.
  - eapply T_bind; [apply T_quiet; solve_quiet|]. intros i. destruct i; try apply T_panic.
    do 3 (eapply T_bind; [apply T_quiet; solve_quiet|]; intros ?; cbn beta). apply Hc.
  - destruct (slice p 0 2); [|apply T_panic]. destruct LoadToken eqn:E; [|apply T_panic].
    by apply token_tracked.
  - done.
Qed.

Lemma T_SYSCALL fs L g lim p : 0 <= g → lim < 2 ^ 63 →
  triple (λ v, Trk [] L g lim v ∧ v_istack v = fs) (exec_call SYSCALL p)
    (λ _ v, Trk [] (2 + L) (g + 1) lim v ∨ Trk [] L g lim v ∧ v_istack v = fs).
Proof.
  intros Hg0 Hlim. cbn [exec_call]. destruct (slice p 0 4); [|apply T_panic].
  destruct SyscallHandler eqn:E; [|apply T_panic]. by apply syscall_tracked.
Qed.

(** A return leaves a context. *)
Lemma T_RET L g lim : triple (Trk [] (S L) g lim) exec_RET (λ _, Trk [] L g lim).
Proof.
  unfold exec_RET. eapply T_bind; [apply T_quiet; solve_quiet|]. intros f. cbn beta.
  eapply (T_bind _ _ (λ _, Trk [] L g lim)).
  { intros v v' u (HF & HL & Hg) [= <- _]. split; [|split; [|exact Hg]]; cbn.
    - rewrite app_nil_r in *. destruct (v_istack v); [done|]. by inv HF.
    - destruct (v_istack v); cbn in *; lia. }
  intros ?. do 2 (eapply T_bind; [apply T_quiet; solve_quiet|]; intros ?; cbn beta).
  eapply T_bind; [apply T_quiet; solve_quiet|]. intros ?. apply T_unloadContext.
Qed.

Lemma T_body L g lim op p :
  op ≠ SYSCALL → triple (Trk [] L g lim) (exec_body op p) (λ _, Trk [] (2 + L) g lim).
Proof.
  intros Hop.
  assert (∀ m : M unit, triple (Trk [] L g lim) m (λ _, Trk [] L g lim) →
            triple (Trk [] L g lim) m (λ _, Trk [] (2 + L) g lim)) as Hw.
  { intros m Hm. eapply T_post; [exact Hm|]. intros ? v. by apply Trk_weaken; [|lia]. }
  assert (∀ m : M unit, quiet m → triple (Trk [] L g lim) m (λ _, Trk [] (2 + L) g lim)) as Hq.
  { intros m Hm. by apply Hw, T_quiet. }
  destruct op; cbn [exec_body exec_compound];
    first [ apply Hq, quiet_push | apply Hw, T_slot | apply Hq, quiet_splice | apply Hq, quiet_stack
          | apply Hq, quiet_bit | apply Hq, quiet_arith | apply Hq, quiet_logic | apply Hw, T_jump_op
          | by apply T_call_op | apply Hw, T_try | apply Hw, T_misc | apply Hq, quiet_new
          | apply Hq, quiet_APPEND | apply Hq, quiet_PACKMAP | apply Hq, quiet_PACK
          | apply Hq, quiet_UNPACK | apply Hw, T_PICKITEM | apply Hw, T_SETITEM
          | apply Hq, quiet_REVERSEITEMS | apply Hq, quiet_REMOVE | apply Hq, quiet_CLEARITEMS
          | apply Hq, quiet_POPITEM | apply Hq, quiet_SIZE | apply Hq, quiet_KEYS
          | apply Hq, quiet_VALUES | apply Hq, quiet_HASKEY
          | intros v v' u HT He; apply Trk_weaken with (F := []) (L := L); [done|lia|];
            eapply T_RET; [|exact He]; by apply Trk_weaken with (F := []) (L := L); [|lia|] ].
Qed.
End tracking3.

(** ** The run *)

Section running.
Context `{EP : EnvPriced}.

(** An instruction inside the script is charged. *)
Lemma charge_inside L g lim op p v v' u f t :
  0 <= g → lim < 2 ^ 63 → Trk [] L g lim v → v_istack v = f :: t →
  c_ip (f_ctx f) < prog_len f → charge op p v = (v', Some u) →
  Trk [] L (g + if free_op op then 0 else 1) lim v' ∧ v_istack v' = f :: t.
Proof.
  intros Hg0 Hlim (HF & HL & [Hg Hg'] & Hl) Hv Hip. unfold charge. rewrite priced.
  rewrite app_nil_r, Hv in HF. apply Forall_cons in HF as [Hf HF].
  pose proof Hf as [(sc & Hs & Hp & Hw) _].
  unfold mbind, M_bind, top_frame, get_sc. rewrite Hv. cbn [head]. rewrite Hs.
  rewrite bool_decide_eq_true_2 by (rewrite <- Hp; exact Hip). rewrite Hw. cbn [andb negb].
  unfold modify, gets, id. cbn iota beta.
  pose proof (price_range op p) as Hpr. pose proof (price_pos op p) as Hpos.
  rewrite (wrap_u_small 64 (price_of op p)) by lia.
  rewrite (wrap_u_small 256) by lia. cbn [v_gasLimit v_gas set_gas]. unfold require.
  rewrite (bool_decide_eq_true_2 (0 <= v_gasLimit v)) by lia. cbn [andb].
  case_bool_decide as Hx; [done|]. cbn [negb]. intros [= <- _]. split; [|exact Hv].
  split; [|split; [exact HL|split; [cbn|exact Hl]]].
  - rewrite app_nil_r. cbn. rewrite Hv. by constructor.
  - destruct (free_op op); [lia|]. specialize (Hpos eq_refl). lia.
Qed.

Lemma charge_end op p v f t sc :
  v_istack v = f :: t → v_scs v !! f_sc f = Some sc →
  Z.of_nat (length (sc_prog sc)) <= c_ip (f_ctx f) → charge op p v = (v, Some tt).
Proof.
  intros Hv Hs Hip. unfold charge. rewrite priced. unfold mbind, M_bind, top_frame, get_sc.
  rewrite Hv. cbn [head]. rewrite Hs. by rewrite bool_decide_eq_false_2 by lia.
Qed.

(** The bytes that the current context has not read. *)
Definition unread (v : VM) : Z :=
  match v_istack v with f :: _ => prog_len f - c_nextip (f_ctx f) | [] => 0 end.

Lemma abort_body op p v v' u : op = ABORT ∨ op = ABORTMSG → exec_body op p v = (v', Some u) → False.
Proof.
  intros [-> | ->]; cbn [exec_body exec_misc]; [done|]. unfold mbind at 1, M_bind at 1.
  by destruct (PopString v) as [? [?|]].
Qed.

(** A step consumes gas, leaves a context, or is a system call that charges
    nothing, which the context has read. *)
Definition progress (L : nat) (g lim : Z) (v v' : VM) : Prop :=
  Trk [] (2 + L) (g + 1) lim v' ∨ (∃ L', L = S L' ∧ Trk [] L' g lim v')
  ∨ Trk [] L g lim v' ∧ 0 <= unread v' < unread v.

Lemma body_progress L g lim op p v v1 v2 u f t :
  0 <= g → lim < 2 ^ 63 → Trk [] L (g + if free_op op then 0 else 1) lim v1 → v_istack v1 = f :: t →
  0 <= prog_len f - c_nextip (f_ctx f) < unread v → exec_body op p v1 = (v2, Some u) →
  progress L g lim v v2.
Proof.
  intros Hg0 Hlim HT Hv Hun Hb. destruct (free_op op) eqn:Hfree.
  2:{ left. eapply T_body; [|exact HT|exact Hb]. by intros ->. }
  rewrite Z.add_0_r in HT. destruct op; try discriminate Hfree.
  - destruct (abort_body ABORT p v1 v2 u); auto.
  - right. left. assert (∃ L', L = S L') as [L' ->].
    { destruct HT as (_ & HL & _). rewrite Hv in HL. destruct L; [cbn in HL; lia|eauto]. }
    exists L'. split; [done|]. eapply T_RET; [exact HT|exact Hb].
  - destruct (T_SYSCALL (f :: t) L g lim p Hg0 Hlim v1 v2 u (conj HT Hv) Hb) as [H1|[H1 H2]]; [by left|].
    right. right. split; [done|]. unfold unread at 1 2. by rewrite H2.
  - destruct (abort_body ABORTMSG p v1 v2 u); auto.
Qed.

Lemma step_progress L g lim v v' :
  0 <= g → lim < 2 ^ 63 → Trk [] L g lim v → step v = (v', true) → progress L g lim v v'.
Proof.
  intros Hg0 Hlim HT. unfold step. destruct (v_istack v) as [|f t] eqn:Hv; [done|].
  pose proof HT as (HF & HL & Hg). rewrite app_nil_r, Hv in HF. apply Forall_cons in HF as [Hf HF].
  destruct Hf as [(sc & Hs & Hp & Hw) (Hip & Hn & Hm)].
  pose proof (Next_spec (f_ctx f) Hip) as HN.
  destruct (Next (f_ctx f)) as [[[op p] c]| |]; try done. destruct HN as (Hcip & Hprog & HN).
  set (v1 := set_istack (set_f_ctx f c :: t) v).
  assert (0 <= c_nextip c) as Hc.
  { revert HN. case_bool_decide; [intros (_ & ? & _); lia|intros (_ & _ & ?); lia]. }
  assert (Trk [] L g lim v1) as HT1.
  { split; [|split; [by rewrite Hv in HL|exact Hg]]. rewrite app_nil_r. cbn. constructor; [|exact HF].
    split; [|unfold prog_len; cbn; rewrite Hprog; done]. exists sc. cbn. by rewrite Hprog. }
  unfold execute, mbind, M_bind.
  destruct (charge op p v1) as [v2 [u|]] eqn:Ec; [|done].
  destruct (exec_body op p v2) as [v3 [u3|]] eqn:Eb; [|done].
  destruct (bool_decide (MaxStackSize < v_refs v3)); [done|]. intros [= <-].
  revert HN. case_bool_decide as Hend; intros HN; unfold LenInstr in Hend, HN.
  - destruct (charge_inside L g lim op p v1 v2 u (set_f_ctx f c) t) as [HT2 Hv2]; try done.
    { unfold prog_len. cbn. rewrite Hcip, Hprog. exact Hend. }
    eapply body_progress; [done|done|exact HT2|exact Hv2| |exact Eb].
    unfold unread, prog_len. rewrite Hv. cbn. rewrite Hprog. lia.
  - right. left. destruct HN as (-> & -> & _).
    assert (v2 = v1) as ->.
    { rewrite (charge_end RET [] v1 (set_f_ctx f c) t sc) in Ec; [by injection Ec|done|done|].
      cbn. rewrite Hcip, <- Hp. lia. }
    assert (∃ L', L = S L') as [L' ->].
    { destruct L; [|eauto]. rewrite Hv in HL. cbn in HL. lia. }
    exists L'. split; [done|]. eapply T_RET; [exact HT1|exact Eb].
Qed.

Lemma check_break_istack v : v_istack (check_break v) = v_istack v.
Proof.
  unfold check_break. destruct (v_istack v) as [|f t] eqn:E; [done|]. destruct (atBreakPoint v f); [|done].
  exact E.
Qed.

Lemma Trk_break F L g lim v : Trk F L g lim v → Trk F L g lim (check_break v).
Proof.
  unfold check_break. destruct (v_istack v) as [|f t]; [done|]. by destruct (atBreakPoint v f).
Qed.

Lemma unread_break v : unread (check_break v) = unread v.
Proof. unfold unread. by rewrite check_break_istack. Qed.

Lemma unread_max L g lim v : 0 <= script_max → Trk [] L g lim v → unread v <= script_max.
Proof.
  intros H0 (HF & _). unfold unread. destruct (v_istack v); [done|]. cbn in HF.
  apply Forall_cons in HF as [[_ (Hip & _ & Hm)] _]. lia.
Qed.

(** What the run has left: three times the gas and the depth, and then the bytes
    of the current script. *)
Definition left_over (L : nat) (g lim u : Z) : Z := (3 * (lim - g) + Z.of_nat L) * (script_max + 1) + Z.max 0 u.

Lemma progress_measure L g lim v v' :
  0 <= script_max → 0 <= g → progress L g lim v v' →
  ∃ L' g', 0 <= g' ∧ Trk [] L' g' lim v' ∧ left_over L' g' lim (unread v') < left_over L g lim (unread v).
Proof.
  intros H0 Hg0 Hp. unfold left_over. destruct Hp as [HT|[(L' & -> & HT)|[HT Hu]]].
  - exists (2 + L)%nat, (g + 1). split; [lia|]. split; [done|].
    pose proof (unread_max _ _ _ _ H0 HT). nia.
  - exists L', g. split; [done|]. split; [done|]. pose proof (unread_max _ _ _ _ H0 HT). nia.
  - exists L, g. split; [done|]. split; [done|]. nia.
Qed.

Lemma run_loop_ends fuel L g lim v :
  0 <= script_max → 0 <= g → lim < 2 ^ 63 → Trk [] L g lim v → left_over L g lim (unread v) < Z.of_nat fuel →
  ∃ v' ok, run_loop fuel v = Some (v', ok)
    ∧ (ok = true → v_gas v' <= lim ∧ (HasFlag (v_state v') VHalt || HasFlag (v_state v') VBreak) = true)
    ∧ (ok = false → HasFlag (v_state v') VFault = true).
Proof.
  intros H0. revert L g v. induction fuel as [|fuel IH]; intros L g v Hg0 Hlim HT Hfuel.
  { destruct HT as (_ & _ & Hg & _). unfold left_over in Hfuel. nia. }
  cbn. destruct (HasFlag (v_state v) VFault) eqn:Ef; [by eexists _, _|].
  destruct (HasFlag (v_state v) VHalt || HasFlag (v_state v) VBreak) eqn:Eh.
  { eexists _, _. split; [done|]. split; [|done]. intros _. split; [apply HT|done]. }
  case_bool_decide; [|by eexists _, _].
  destruct (step v) as [w []] eqn:Es.
  - destruct (progress_measure L g lim v w H0 Hg0 (step_progress L g lim v w Hg0 Hlim HT Es))
      as (L' & g' & Hg' & HT' & Hm).
    apply (IH L' g'); [done|done|by apply Trk_break|]. rewrite unread_break. lia.
  - eexists _, _. split; [done|]. split; [done|]. intros _.
    unfold step in Es. destruct (v_istack v) as [|f t]; [by injection Es as <-|].
    destruct (Next (f_ctx f)) as [[[op p] c]| |]; [|by injection Es as <-|by injection Es as <-].
    unfold execute in Es. destruct ((charge op p ;; exec_body op p) _) as [v2 [u|]]; [|by injection Es as <-].
    case_bool_decide; [by injection Es as <-|done].
Qed.

Lemma load_tracked script f d :
  0 < d → d * ExecFeeFactorMultiplier < 2 ^ 63 → Z.of_nat (length script) <= script_max →
  Trk [] 1 0 (d * ExecFeeFactorMultiplier) (load script f (SetGasLimit d New)).
Proof.
  intros Hd Hlim Hlen. unfold ExecFeeFactorMultiplier in *.
  assert (v_gasLimit (SetGasLimit d New) = d * 10000) as Hl.
  { unfold SetGasLimit, ExecFeeFactorMultiplier. rewrite bool_decide_eq_true_2 by lia. cbn.
    apply wrap_s_small; lia. }
  unfold load, LoadScriptWithFlags, mbind at 1, M_bind at 1, gets.
  set (v0 := SetGasLimit d New) in *.
  pose proof (T_load_tracked 0 0 (d * 10000) script false (GetCurrentScriptHash v0) zero160 f (-1) 0 None None
                ltac:(lia) Hlen v0) as HT.
  destruct (loadScriptWithCallingHash _ _ _ _ _ _ _ _ _ _ v0) as [v [u|]] eqn:E; [|discriminate E].
  apply (HT v u); [|done]. split; [constructor|]. split; [cbn; lia|]. split; [cbn; lia|done].
Qed.

(** C34: a script that runs under a gas limit ends, for prices like those of
    fee/opcode.go (where [RET], [SYSCALL] and the aborts are free), system calls
    that enter contexts only if they charge something, callbacks that enter none,
    and no scripts on the whitelist of fixed fees, which run without charge.  The
    number of steps is bounded by three times the gas limit (and two), times the
    greatest length of a script (and one), in picoGAS and bytes; the machine halts
    within the limit or stops at a break point, or it faults. *)
Theorem run_ends (script : bytes) (f d : Z) :
  0 < d → d * ExecFeeFactorMultiplier < 2 ^ 63 → Z.of_nat (length script) <= script_max →
  ∃ v ok,
    Run (Z.to_nat ((3 * (d * ExecFeeFactorMultiplier) + 2) * (script_max + 1)))
      (load script f (SetGasLimit d New)) = Some (v, ok)
    ∧ (ok = true → v_gas v <= d * ExecFeeFactorMultiplier
                   ∧ (HasFlag (v_state v) VHalt || HasFlag (v_state v) VBreak) = true)
    ∧ (ok = false → HasFlag (v_state v) VFault = true).
Proof.
  intros Hd Hlim Hlen. pose proof (load_tracked script f d Hd Hlim Hlen) as HT. unfold Run.
  destruct (v_istack (load script f (SetGasLimit d New))); [by eexists _, _|].
  destruct (HasFlag _ VFault) eqn:Ef; [done|].
  pose proof (unread_max _ _ _ _ ltac:(lia) HT) as Hu. unfold ExecFeeFactorMultiplier in *.
  apply (run_loop_ends _ 1 0 (d * 10000)); [lia|lia|lia|exact HT|]. unfold left_over.
  set (u := unread _) in *. change (unread (set_state VNone _)) with u. rewrite Z2Nat.id by nia. nia.
Qed.
End running.

(** ** Witness

    The prices of the repository, a system call that charges nothing, others that
    charge what [System.Runtime.LoadScript] does and load a script, and tokens
    that load one. *)

Definition nop_script : bytes := [z2b (op_code NOP)].

Definition load_nop (n : Z) : M unit :=
  loadScriptWithCallingHash nop_script true zero160 zero160 n (-1) 0 None None false.

Definition demo_syscall (n : Z) : M unit :=
  if bool_decide (n = 0) then PushInteger 4
  else (λ v, match AddPicoGas (32768 * 300000) v with (v, true) => (v, Some tt) | (v, false) => (v, None) end) ;;
       load_nop n.

Definition fee_env : Env := {|
  getPrice := Some (GetPrice (30 * ExecFeeFactorMultiplier));
  hfGorgon := true;
  Hash160 := λ b, take 20 (b ++ zero160);
  SyscallHandler := Some demo_syscall;
  LoadToken := Some load_nop;
  unload_callback := λ _ _ _, mret tt;
  unloaded_callback := λ _, mret tt;
  env_interop := λ a b, bool_decide (a = b);
|}.

(** Scripts of transactions are not longer (MaxScriptLength). *)
Definition tx_script_max : ScriptMax := 65535.

Lemma T_AddPicoGas `{SM : ScriptMax} L g lim a : 0 < a < 2 ^ 63 → 0 <= g → lim < 2 ^ 63 →
  triple (Trk [] L g lim)
    (λ v, match AddPicoGas a v with (v, true) => (v, Some tt) | (v, false) => (v, None) end)
    (λ _, Trk [] L (g + 1) lim).
Proof.
  intros Ha Hg0 Hlim v v' u (HF & HL & [Hg Hg'] & Hl). unfold AddPicoGas, addPicoGasInternal.
  assert (top_whitelisted v = false) as ->.
  { unfold top_whitelisted. destruct (v_istack v) as [|f t]; [done|]. cbn in HF.
    apply Forall_cons in HF as [[(sc & -> & _ & Hw) _] _]. exact Hw. }
  rewrite (wrap_u_small 64) by lia. rewrite (wrap_u_small 256) by lia. cbn.
  rewrite (bool_decide_eq_false_2 (v_gasLimit v < 0)) by lia. case_bool_decide; [done|].
  intros [= <- _]. split; [exact HF|]. split; [exact HL|]. split; [cbn; lia|exact Hl].
Qed.

Lemma fee_env_priced : @EnvPriced fee_env tx_script_max.
Proof.
  assert (∀ n L g lim, triple (Trk (SM := tx_script_max) [] L g lim) (load_nop n)
            (λ _, Trk (SM := tx_script_max) [] (2 + L) g lim)) as Hload.
  { intros n L g lim. unfold load_nop.
    eapply T_post; [apply (T_load_tracked (SM := tx_script_max)); [lia|vm_compute; discriminate]|].
    intros ? v. by apply Trk_weaken; [|lia]. }
  refine (Build_EnvPriced fee_env tx_script_max (GetPrice (30 * ExecFeeFactorMultiplier)) eq_refl _ _ _ _ _ _).
  - intros op p. by apply GetPrice_range.
  - intros op p. by apply GetPrice_pos.
  - intros h n fs L g lim [= <-] Hg0 Hlim. unfold demo_syscall. case_bool_decide.
    + intros v v' u [HT Hfs] He. right. assert (quiet (PushInteger 4)) as Hq by solve_quiet.
      specialize (Hq v). rewrite He in Hq. split; [by eapply Trk_same|]. destruct Hq as [Hq _]. cbn in Hq. by rewrite Hq.
    + assert (triple (Trk (SM := tx_script_max) [] L g lim)
        ((λ v, match AddPicoGas (32768 * 300000) v with (v, true) => (v, Some tt) | (v, false) => (v, None) end)
           ;; load_nop n) (λ _, Trk (SM := tx_script_max) [] (2 + L) (g + 1) lim)) as Hc.
      { eapply T_bind; [by apply T_AddPicoGas|]. intros ?. apply Hload. }
      intros v v' u [HT Hfs] He. left. exact (Hc v v' u HT He).
  - intros h n L g lim [= <-]. apply Hload.
  - intros id f c F L g lim. by apply T_ret.
  - intros id F L g lim. by apply T_ret.
Qed.

(** A script that asks for a free system call for ever. *)
Lemma run_ends_witness :
  let script := [z2b (op_code SYSCALL); x00; x00; x00; x00; z2b (op_code JMP); z2b (-5)] in
  0 < 1000 ∧ Z.of_nat (length script) <= 65535 ∧
  ∃ v ok, Run (ENV := fee_env) (Z.to_nat ((3 * (1000 * ExecFeeFactorMultiplier) + 2) * (65535 + 1)))
    (load (ENV := fee_env) script 0 (SetGasLimit 1000 New)) = Some (v, ok)
    ∧ (ok = false → HasFlag (v_state v) VFault = true).
Proof.
  intros script. split; [lia|]. split; [cbn; lia|].
  destruct (run_ends (EP := fee_env_priced) script 0 1000 ltac:(lia) ltac:(done)
              ltac:(vm_compute; discriminate))
    as (v & ok & H1 & _ & H2).
  exists v, ok. split; [exact H1|exact H2].
Defined.

(** The same run with less fuel: it faults for the lack of gas. *)
Example free_syscall_loop :
  let script := [z2b (op_code SYSCALL); x00; x00; x00; x00; z2b (op_code JMP); z2b (-5)] in
  match Run (ENV := fee_env) 100 (load (ENV := fee_env) script 0 (SetGasLimit 1000 New)) with
  | Some (v, ok) => ok = false ∧ v_gas v = 17 * 600000
  | None => False
  end.
Proof. vm_compute. done. Qed.
