(* ===== verification/VMSpec.v ===== *)
(** * VMSpec: what the arithmetic, gas and exceptions of the machine compute *)

From Stdlib Require Import Zpow_facts Znumtheory.
From stdpp Require Import pretty strings.
From S2P Require Import Prelude Bigint StackItem RefCount Script VM VMInv.

(** ** Modular powers *)

(** Extended Euclid on [a >= b]: the product of the two halves with every step. *)
Lemma egcd_spec fuel a b u0 u1 g n :
  0 <= b <= a → (b = 0 ∨ Z.log2 (a * b) < Z.of_nat fuel) →
  (n | a - u0 * g) → (n | b - u1 * g) →
  (egcd fuel a b u0 u1).1 = Z.gcd a b
  ∧ (n | (egcd fuel a b u0 u1).1 - (egcd fuel a b u0 u1).2 * g).
Proof.
  revert a b u0 u1. induction fuel as [|fuel IH]; intros a b u0 u1 Hab Hf H0 H1; cbn.
  - destruct Hf as [->|Hf]; [|pose proof (Z.log2_nonneg (a * b)); lia].
    split; [|done]. rewrite Z.gcd_0_r. lia.
  - case_bool_decide as Hb.
    { subst b. split; [|done]. cbn. rewrite Z.gcd_0_r. lia. }
    assert (0 <= a mod b < b) as Hm by (apply Z.mod_pos_bound; lia).
    pose proof (Z.div_mod a b ltac:(lia)) as Hd.
    assert (1 <= a / b) as Hq by (apply Z.div_le_lower_bound; lia).
    rewrite (Z.gcd_comm a b), <- (Z.gcd_mod a b), (Z.gcd_comm (a mod b)) by lia.
    apply IH; [lia| |done|].
    + destruct (decide (a mod b = 0)) as [->|Hz]; [by left|]. right.
      destruct Hf as [?|Hf]; [lia|].
      assert (2 * (b * (a mod b)) <= a * b) as Hle by nia.
      assert (Z.log2 (2 * (b * (a mod b))) <= Z.log2 (a * b)) as Hl by by apply Z.log2_le_mono.
      rewrite Z.log2_double in Hl by nia. lia.
    + replace (a mod b - (u0 - a / b * u1) * g)
        with (a - u0 * g - (a / b) * (b - u1 * g)) by lia.
      apply Z.divide_sub_r; [done|]. by apply Z.divide_mul_r.
Qed.

Lemma big_ModInverse_spec g n :
  1 < n →
  match big_ModInverse g n with
  | Some x => 0 <= x < n ∧ (g * x) mod n = 1
  | None => Z.gcd g n ≠ 1
  end.
Proof.
  intros Hn. unfold big_ModInverse.
  destruct (2 * Z.to_nat (Z.log2 n) + 3)%nat as [|fuel] eqn:Efuel; [lia|]. cbn [egcd].
  rewrite bool_decide_eq_false_2 by lia. rewrite Z.mod_mod by lia.
  pose proof (Z.mod_pos_bound g n ltac:(lia)) as Hg.
  pose proof (egcd_spec fuel n (g mod n) 0 (1 - g mod n / n * 0) g n) as Hs.
  destruct (egcd fuel n (g mod n) 0 (1 - g mod n / n * 0)) as [d x]. cbn in Hs.
  destruct Hs as [Hd Hx].
  - lia.
  - destruct (decide (g mod n = 0)) as [|Hz]; [by left|]. right.
    assert (Z.log2 (n * (g mod n)) < 2 * Z.log2 n + 2) as Hl.
    { apply Z.log2_lt_pow2; [nia|]. pose proof (Z.log2_spec n ltac:(lia)) as [_ Hub].
      replace (2 * Z.log2 n + 2) with (Z.succ (Z.log2 n) + Z.succ (Z.log2 n)) by lia.
      pose proof (Z.log2_nonneg n). rewrite Z.pow_add_r by lia. nia. }
    pose proof (Z.log2_nonneg n). lia.
  - exists 1. lia.
  - exists (- (g / n)). pose proof (Z.div_mod g n ltac:(lia)). nia.
  - assert (d = Z.gcd g n) as Hdg.
    { rewrite Hd, (Z.gcd_comm n), Z.gcd_mod by lia. apply Z.gcd_comm. }
    case_bool_decide as H1; [|by rewrite <- Hdg].
    split; [apply Z.mod_pos_bound; lia|]. rewrite Z.mul_mod_idemp_r by lia.
    destruct Hx as [q Hq]. replace (g * x) with (1 + (- q) * n) by lia.
    rewrite Z.mod_add by lia. apply Z.mod_small. lia.
Qed.

Lemma big_Exp_spec x y m : 0 <= y → m ≠ 0 → big_Exp x y m = (x ^ y) mod (Z.abs m).
Proof. intros Hy Hm. unfold big_Exp. apply Zpow_mod_correct. lia. Qed.

Lemma rem_nonneg a m : 0 <= a → m ≠ 0 → Z.rem a m = a mod (Z.abs m).
Proof.
  intros Ha Hm. rewrite <- Z.rem_mod_nonneg by lia.
  destruct (Z.abs_eq_or_opp m) as [->| ->]; [done|]. by rewrite Z.rem_opp_r.
Qed.

Lemma rem_neg q m : 0 <= q → m ≠ 0 →
  Z.rem (- q) m = (if bool_decide ((- q) mod (Z.abs m) = 0) then 0
                   else (- q) mod (Z.abs m) - Z.abs m).
Proof.
  intros Hq Hm. rewrite Z.rem_opp_l, rem_nonneg by done.
  destruct (decide (q mod Z.abs m = 0)) as [Hz|Hz].
  - by rewrite (Z.mod_opp_l_z q (Z.abs m)), Hz by lia.
  - rewrite (Z.mod_opp_l_nz q (Z.abs m)) by lia.
    pose proof (Z.mod_pos_bound q (Z.abs m) ltac:(lia)). rewrite bool_decide_eq_false_2; lia.
Qed.

(** MODPOW.  With a non-negative exponent the result is the remainder of
    the power, truncated towards zero as [DIV] and [MOD] are; with the exponent
    [-1] it is the inverse modulo [modulus], which exists exactly for a
    relatively prime base; everything else is an error. *)
Theorem modpow_spec (base exponent modulus : Z) :
  match modpow base exponent modulus with
  | Some r =>
      (0 <= exponent ∧ modulus ≠ 0 ∧ r = Z.rem (base ^ exponent) modulus)
      ∨ (exponent = -1 ∧ 0 < base ∧ 1 < modulus ∧ 0 <= r < modulus ∧ (base * r) mod modulus = 1)
  | None =>
      exponent < -1 ∨ (0 <= exponent ∧ modulus = 0)
      ∨ (exponent = -1 ∧ (base <= 0 ∨ modulus < 2 ∨ Z.gcd base modulus ≠ 1))
  end.
Proof.
  unfold modpow. destruct (exponent ?= -1) eqn:Ec.
  - apply Z.compare_eq_iff in Ec as ->.
    repeat (case_bool_decide; [by right; right; auto|]).
    pose proof (big_ModInverse_spec base modulus ltac:(lia)) as Hm.
    destruct (big_ModInverse base modulus) as [x|]; [right|right; right]; by auto with lia.
  - left. by apply Z.compare_lt_iff in Ec.
  - apply Z.compare_gt_iff in Ec. case_bool_decide as Hm; [right; left; split; [lia|done]|].
    left. split; [lia|]. split; [done|]. rewrite big_Exp_spec by lia.
    destruct (decide (base < 0)) as [Hb|Hb].
    + rewrite (bool_decide_eq_true_2 (base < 0)) by done. cbn [andb].
      assert (0 <= (- base) ^ exponent) as Hp by (apply Z.pow_nonneg; lia).
      destruct (Z.odd exponent) eqn:Ho; cbn [andb].
      * assert (base ^ exponent = - (- base) ^ exponent) as ->.
        { rewrite Z.pow_opp_odd by (by apply Z.odd_spec). lia. }
        rewrite rem_neg by done. by case_bool_decide as H0; [rewrite H0|].
      * assert (base ^ exponent = (- base) ^ exponent) as ->.
        { rewrite Z.pow_opp_even; [done|]. apply Z.even_spec. by rewrite <- Z.negb_odd, Ho. }
        by rewrite rem_nonneg.
    + rewrite (bool_decide_eq_false_2 (base < 0)) by done. cbn [andb].
      rewrite rem_nonneg; [done|apply Z.pow_nonneg; lia|done].
Qed.

(** ** Gas *)

Section gas.
Context `{ENV : Env}.

Lemma ceil_left_gas g d :
  0 <= g → g <= d * 10000 → (g + 9999) / 10000 + (d * 10000 - g) / 10000 = d.
Proof.
  intros H0 Hg.
  pose proof (Z.div_mod g 10000 ltac:(lia)) as Hd. pose proof (Z.mod_pos_bound g 10000 ltac:(lia)).
  destruct (decide (g mod 10000 = 0)) as [Hz|Hz].
  - replace (g + 9999) with (9999 + (g / 10000) * 10000) by lia.
    replace (d * 10000 - g) with (0 + (d - g / 10000) * 10000) by lia.
    rewrite !Z.div_add by lia. change (9999 / 10000) with 0. change (0 / 10000) with 0. lia.
  - replace (g + 9999) with (g mod 10000 - 1 + (g / 10000 + 1) * 10000) by lia.
    replace (d * 10000 - g) with (10000 - g mod 10000 + (d - g / 10000 - 1) * 10000) by lia.
    rewrite !Z.div_add by lia. rewrite (Z.div_small (g mod 10000 - 1)), (Z.div_small (10000 - g mod 10000)) by lia. lia.
Qed.

(** Gas accounting.  With a limit of [d] datoshi that fits 64 bits after
    scaling, the limit reads back; consumed gas is rounded up to datoshi and
    what is left is rounded down, so that they add up to the limit; and a
    charge is refused exactly when it goes past the limit. *)
Theorem gas_accounting (d x : Z) (v : VM) :
  0 < d → d * ExecFeeFactorMultiplier < 2 ^ 63 → 0 <= x < 2 ^ 63 →
  0 <= v_gas v <= d * ExecFeeFactorMultiplier → top_whitelisted v = false →
  let w := SetGasLimit d v in
  GasLimit w = d
  ∧ GasConsumed w = (v_gas v + ExecFeeFactorMultiplier - 1) / ExecFeeFactorMultiplier
  ∧ GasConsumed w + GasLeft w = d
  ∧ v_gas (AddDatoshi x w).1 = v_gas v + x * ExecFeeFactorMultiplier
  ∧ ((AddDatoshi x w).2 = true ↔ x <= GasLeft w).
Proof.
  intros Hd Hlim Hx Hg Hw w. unfold ExecFeeFactorMultiplier in Hlim, Hg |- *.
  assert (v_gasLimit w = d * 10000) as Hl.
  { unfold w, SetGasLimit, ExecFeeFactorMultiplier. rewrite bool_decide_eq_true_2 by lia. cbn.
    apply wrap_s_small; lia. }
  assert (v_gas w = v_gas v) as Hgw by done.
  assert (top_whitelisted w = false) as Hww by done. clearbody w.
  assert (GasLeft w = (d * 10000 - v_gas v) / 10000) as Hleft.
  { unfold GasLeft. rewrite Hl, Hgw, bool_decide_eq_false_2, wrap_u_small by lia.
    case_bool_decide; [|done]. replace (v_gas v) with (d * 10000) by lia. by rewrite Z.sub_diag. }
  assert (GasConsumed w = (v_gas v + 9999) / 10000) as Hcons.
  { unfold GasConsumed, PicoGasToDatoshi, ExecFeeFactorMultiplier. rewrite Hgw.
    rewrite (wrap_u_small 256 (v_gas v + 10000)) by lia. rewrite wrap_u_small by lia.
    replace (v_gas v + 10000 - 1) with (v_gas v + 9999) by lia. rewrite bool_decide_eq_true_2; [done|].
    enough ((v_gas v + 9999) / 10000 < 2 ^ 63) by lia. apply Z.div_lt_upper_bound; lia. }
  split. { unfold GasLimit, ExecFeeFactorMultiplier. rewrite Hl, bool_decide_eq_true_2 by lia.
    by rewrite Z.quot_mul. }
  split; [rewrite Hcons; f_equal; lia|].
  split; [rewrite Hcons, Hleft; apply ceil_left_gas; lia|].
  unfold AddDatoshi, addPicoGasInternal, ExecFeeFactorMultiplier.
  rewrite Hww.
  rewrite (wrap_u_small 64 x), (wrap_u_small 256 (x * 10000)) by lia. cbn. rewrite Hgw.
  rewrite wrap_u_small by lia. split; [done|]. rewrite Hl, Hleft.
  rewrite bool_decide_eq_false_2 by lia. cbn [orb]. rewrite negb_true_iff, bool_decide_eq_false.
  pose proof (Z.div_mod (d * 10000 - v_gas v) 10000 ltac:(lia)).
  pose proof (Z.mod_pos_bound (d * 10000 - v_gas v) 10000 ltac:(lia)). lia.
Qed.
End gas.

(** ** Exceptions *)

(** A handler that can still take an exception. *)
Definition usable (e : exctx) : bool :=
  negb (bool_decide (State e = eFinally) || (bool_decide (State e = eCatch) && negb (HasFinally e))).

Definition spent (f : frame) : Prop := Forall (λ e, usable e = false) (f_try f).

Lemma drop_handlers_spec t :
  match drop_handlers t with
  | [] => Forall (λ e, usable e = false) t
  | e :: t' => usable e = true ∧ ∃ u, t = u ++ e :: t' ∧ Forall (λ e, usable e = false) u
  end.
Proof.
  induction t as [|e t IH]; cbn; [constructor|].
  destruct (bool_decide (State e = eFinally) || _) eqn:E.
  - assert (usable e = false) as Hu by (unfold usable; by rewrite E).
    destruct (drop_handlers t) as [|e' t']; [by constructor|].
    destruct IH as (Hu' & u & -> & HF). split; [done|]. exists (e :: u). split; [done|by constructor].
  - split; [unfold usable; by rewrite E|]. by exists [].
Qed.

Lemma find_handler_spec fs :
  match find_handler fs with
  | Some (n, fs') =>
      ∃ f e t, fs !! n = Some f ∧ drop_handlers (f_try f) = e :: t
        ∧ (∀ j g, (j < n)%nat → fs !! j = Some g → spent g)
        ∧ drop n fs' = set_f_try f (e :: t) :: drop (S n) fs ∧ length fs' = length fs
  | None => Forall spent fs
  end.
Proof.
  induction fs as [|f fs IH]; cbn; [constructor|].
  pose proof (drop_handlers_spec (f_try f)) as Hd.
  destruct (drop_handlers (f_try f)) as [|e t] eqn:E.
  - destruct (find_handler fs) as [[n fs']|]; cbn; [|by constructor].
    destruct IH as (f' & e & t & H1 & H2 & H3 & H4 & H5). exists f', e, t.
    split; [done|]. split; [done|]. split; [|split; [done|by rewrite H5]].
    intros [|j] g Hj Hg; [by simplify_eq/=|]. apply (H3 j g); [lia|done].
  - exists f, e, t. cbn. split; [done|]. split; [done|]. split; [intros j g ?; lia|done].
Qed.

(** Callbacks of contexts that are unloaded by an exception. *)
Class EnvRollback `{ENV : Env} : Prop :=
  rollback_fields : ∀ id f v v' u, unload_callback id f false v = (v', Some u) →
    v_istack v' = v_istack v ∧ v_scs v' = v_scs v ∧ v_uncaught v' = v_uncaught v.

Section throwing.
Context `{ER : EnvRollback}.

Definition same_place (v v' : VM) : Prop :=
  v_istack v' = v_istack v ∧ v_scs v' = v_scs v ∧ v_uncaught v' = v_uncaught v.

Lemma unload_place f v v' u i :
  v_uncaught v = Some i → unloadContext f v = (v', Some u) → same_place v v'.
Proof.
  intros Hu. unfold unloadContext, mbind, M_bind.
  destruct (clearRefs (f_local f) v) as [v1 [u1|]] eqn:E1; [|done].
  apply clearRefs_fields in E1 as (A1 & A2 & A3).
  destruct (clearRefs (f_args f) v1) as [v2 [u2|]] eqn:E2; [|done].
  apply clearRefs_fields in E2 as (B1 & B2 & B3). cbn.
  destruct (match head (v_istack v2) with None => true | Some c => negb (bool_decide (f_sc f = f_sc c)) end).
  2:{ intros [= <- _]. unfold same_place. by rewrite B1, B2, B3. }
  destruct (v_scs v2 !! f_sc f) as [sc|]; [|done].
  destruct (clearRefs (sc_static sc) v2) as [v4 [u4|]] eqn:E4; [|done].
  apply clearRefs_fields in E4 as (C1 & C2 & C3).
  assert (no_exception v4 = false) as Hne.
  { unfold no_exception. by rewrite C3, B3, A3, Hu. }
  destruct (sc_onUnload sc) as [cb|]; cbn; rewrite ?Hne.
  - destruct (call_onUnload cb f false v4) as [v5 [u5|]] eqn:E5; [|done].
    assert (same_place v4 v5) as (D1 & D2 & D3).
    { destruct cb; [by injection E5 as <- _|]. by eapply rollback_fields. }
    assert (no_exception v5 = false) as Hne5 by (unfold no_exception in *; by rewrite D3).
    destruct (sc_onUnloaded sc); cbn; rewrite ?Hne5; [done|]. intros [= <- _].
    unfold same_place. by rewrite D1, D2, D3, C1, C2, C3, B1, B2, B3.
  - destruct (sc_onUnloaded sc); cbn; rewrite ?Hne; [done|]. intros [= <- _].
    unfold same_place. by rewrite C1, C2, C3, B1, B2, B3.
Qed.

Lemma unload_n_place n v v' u i :
  v_uncaught v = Some i → unload_n n v = (v', Some u) →
  v_istack v' = drop n (v_istack v) ∧ v_uncaught v' = Some i.
Proof.
  revert v. induction n as [|n IH]; intros v Hu; cbn; [by intros [= <- _]|].
  unfold mbind, M_bind, top_frame, modify. destruct (head (v_istack v)) as [f|] eqn:Ef; [|done].
  destruct (unloadContext f _) as [v1 [u1|]] eqn:E; [|done].
  apply (unload_place f _ v1 u1 i) in E as (H1 & H2 & H3); [|done]. cbn in H1, H3.
  intros He. apply IH in He as [-> ->]; [|by rewrite H3]. split; [|done].
  rewrite H1. by destruct (v_istack v).
Qed.

Lemma jump_run n v f t :
  v_istack v = f :: t →
  match jump n v with
  | (v', Some _) => v' = set_istack (set_f_ctx f (mkCtx (c_ip (f_ctx f)) n (c_prog (f_ctx f))) :: t) v
  | _ => True
  end.
Proof.
  intros Hv. unfold jump, mbind, M_bind, top_frame, Jump, set_top. rewrite Hv. cbn [head].
  destruct (bool_decide (n < 0) || _); cbn; [done|]. by rewrite Hv.
Qed.

Lemma set_top_run f' v f t :
  v_istack v = f :: t → set_top f' v = (set_istack (f' :: t) v, Some tt).
Proof. intros Hv. unfold set_top. by rewrite Hv. Qed.

(** What is left of an exception [i] that landed in the handler [e] of [f]. *)
Definition landed (i : item) (f : frame) (e : exctx) (t : list exctx) (below : list frame) (v : VM) : Prop :=
  ∃ f', v_istack v = f' :: below ∧ f_sc f' = f_sc f ∧ f_local f' = f_local f ∧ f_args f' = f_args f ∧
    if bool_decide (State e = eTry) && HasCatch e
    then c_nextip (f_ctx f') = CatchOffset e ∧ v_uncaught v = None
         ∧ f_try f' = mkEx (CatchOffset e) (FinallyOffset e) (EndOffset e) eCatch :: t
         ∧ ∃ s, v_stacks v !! v_estack v = Some (i :: s)
    else c_nextip (f_ctx f') = FinallyOffset e ∧ v_uncaught v = Some i
         ∧ f_try f' = mkEx (CatchOffset e) (FinallyOffset e) (EndOffset e) eFinally :: t.

Lemma PushItem_run i v v' u :
  PushItem i v = (v', Some u) →
  v_istack v' = v_istack v ∧ v_estack v' = v_estack v ∧ v_uncaught v' = v_uncaught v
  ∧ ∃ s, v_stacks v' !! v_estack v' = Some (i :: s).
Proof.
  unfold PushItem, pushNoRef, mbind, M_bind, cur_stack, put_stack, refs_Add.
  destruct (v_stacks v !! v_estack v) as [s|]; [|done]. cbn [v_heap set_stack].
  destruct (rc_Add _ i _) as [[h r]|]; [|done]. intros [= <- _]. cbn.
  split; [done|]. split; [done|]. split; [done|]. exists s. by rewrite lookup_insert_eq.
Qed.

(** The last part of [handleException], in the context that takes over. *)
Definition land : M unit :=
  ictx ← top_frame;
  sc ← get_sc (f_sc ictx);
  modify (set_estack (sc_estack sc)) ;;
  match f_try ictx with
  | [] => panic
  | e :: t =>
      if bool_decide (State e = eTry) && HasCatch e then
        set_top (set_f_try ictx (mkEx (CatchOffset e) (FinallyOffset e) (EndOffset e) eCatch :: t)) ;;
        i ← gets v_uncaught; i ← lift_opt i;
        PushItem i ;;
        modify (set_uncaught None) ;;
        jump (CatchOffset e)
      else
        set_top (set_f_try ictx (mkEx (CatchOffset e) (FinallyOffset e) (EndOffset e) eFinally :: t)) ;;
        jump (FinallyOffset e)
  end.

Lemma throw_run i v :
  throw i v = match find_handler (v_istack v) with
              | None => (set_uncaught (Some i) v, None)
              | Some (n, fs) => (unload_n n ;; land) (set_istack fs (set_uncaught (Some i) v))
              end.
Proof.
  unfold throw, handleException, mbind at 1, M_bind at 1, modify at 1.
  unfold mbind at 1, M_bind at 1, gets at 1. cbn [v_istack set_uncaught].
  by destruct (find_handler (v_istack v)) as [[n fs]|].
Qed.

Lemma land_run i f e t below v v' u :
  v_istack v = set_f_try f (e :: t) :: below → v_uncaught v = Some i →
  land v = (v', Some u) → landed i f e t below v'.
Proof.
  intros Hv Hu. unfold land, mbind at 1, M_bind at 1, top_frame. rewrite Hv. cbn [head].
  unfold mbind at 1, M_bind at 1, get_sc. cbn [set_f_try f_sc].
  destruct (v_scs v !! f_sc f) as [sc|]; [|done]. unfold mbind at 1, M_bind at 1, modify.
  set (v1 := set_estack (sc_estack sc) v). cbn [f_try set_f_try]. unfold landed.
  destruct (bool_decide (State e = eTry) && HasCatch e); unfold mbind, M_bind;
    rewrite (set_top_run _ v1 (set_f_try f (e :: t)) below) by done.
  - match goal with |- context [set_istack (?g :: below) v1] => set (f1 := g) end.
    unfold gets, lift_opt. cbn [v_uncaught set_istack]. change (v_uncaught v1) with (v_uncaught v).
    rewrite Hu. cbn [mret M_ret].
    destruct (PushItem i _) as [v2 [u2|]] eqn:E2; [|done].
    apply PushItem_run in E2 as (A1 & A2 & A3 & s & A4). cbn [v_istack set_istack] in A1.
    pose proof (jump_run (CatchOffset e) (set_uncaught None v2) f1 below A1) as Hj.
    destruct (jump _ _) as [v3 [u3|]]; [|done]. subst v3. intros [= <- _].
    eexists. split; [done|]. split_and!; try done. exists s. exact A4.
  - match goal with |- context [set_istack (?g :: below) v1] => set (f1 := g) end.
    pose proof (jump_run (FinallyOffset e) (set_istack (f1 :: below) v1) f1 below eq_refl) as Hj.
    destruct (jump _ _) as [v3 [u3|]]; [|done]. subst v3. intros [= <- _].
    eexists. split; [done|]. split_and!; done.
Qed.

(** An exception lands in the closest context with a handler that can
    still take it, and in the innermost such handler there: its catch block
    starts with the exception on the stack, or its finally block with the
    exception pending.  Contexts above it are gone, handlers above it were
    spent.  Without such a handler the machine faults. *)
Theorem throw_lands (i : item) (v : VM) :
  match throw i v with
  | (v', Some _) =>
      ∃ n f u e t, v_istack v !! n = Some f ∧ f_try f = u ++ e :: t ∧ usable e = true
        ∧ Forall (λ e, usable e = false) u
        ∧ (∀ j g, (j < n)%nat → v_istack v !! j = Some g → spent g)
        ∧ landed i f e t (drop (S n) (v_istack v)) v'
  | _ => True
  end
  ∧ (Forall spent (v_istack v) → (throw i v).2 = None).
Proof.
  rewrite throw_run. pose proof (find_handler_spec (v_istack v)) as Hf.
  destruct (find_handler (v_istack v)) as [[n fs']|]; [|by split].
  destruct Hf as (f & e & t & H1 & H2 & H3 & H4 & H5).
  pose proof (drop_handlers_spec (f_try f)) as Hd. rewrite H2 in Hd.
  destruct Hd as (Hu & w & Hw & HF). split.
  2:{ intros Hsp. exfalso. rewrite Forall_forall in Hsp.
      specialize (Hsp f (list_elem_of_lookup_2 _ _ _ H1)). unfold spent in Hsp.
      rewrite Hw, Forall_app in Hsp. destruct Hsp as [_ Hsp]. inv Hsp. congruence. }
  unfold mbind, M_bind.
  destruct (unload_n n _) as [v1 [u1|]] eqn:E1; [|done].
  apply (unload_n_place n _ v1 u1 i) in E1 as [A1 A2]; [|done]. cbn [v_istack set_istack] in A1.
  rewrite H4 in A1. destruct (land v1) as [v2 [u2|]] eqn:E2; [|done].
  exists n, f, w, e, t. repeat (split; [done|]). by eapply land_run.
Qed.
End throwing.

(** ** Witnesses *)

Lemma gas_accounting_witness :
  let v := set_gas 25001 New in
  0 < 7 ∧ GasConsumed (SetGasLimit 7 v) + GasLeft (SetGasLimit 7 v) = 7.
Proof.
  intros v. split; [lia|].
  exact (proj1 (proj2 (proj2 (gas_accounting 7 3 v ltac:(lia) ltac:(done) ltac:(done)
           ltac:(vm_compute; done) eq_refl)))).
Defined.

Lemma plain_env_rollback : @EnvRollback plain_env.
Proof. intros id f v v' u [= <- _]. done. Qed.

(** A machine inside a try block with a catch block. *)
Definition trying : VM :=
  (step (ENV := plain_env)
     (load (ENV := plain_env) [z2b (op_code TRY); x05; x00; z2b (op_code PUSH1); z2b (op_code THROW);
                               z2b (op_code NOP)] 0 (SetGasLimit (-1) New))).1.

Lemma throw_lands_witness :
  (throw (ENV := plain_env) (Integer 7) trying).2 = Some tt
  ∧ ∃ n f v', v_istack trying !! n = Some f
      ∧ throw (ENV := plain_env) (Integer 7) trying = (v', Some tt)
      ∧ (∃ e t, landed (Integer 7) f e t (drop (S n) (v_istack trying)) v').
Proof.
  assert ((throw (ENV := plain_env) (Integer 7) trying).2 = Some tt) as Hs by (vm_compute; reflexivity).
  split; [exact Hs|].
  destruct (throw_lands (ER := plain_env_rollback) (Integer 7) trying) as [H _].
  revert Hs H. generalize (throw (ENV := plain_env) (Integer 7) trying). generalize trying.
  intros v [v' [[]|]] Hs H; [|discriminate Hs].
  destruct H as (n & f & u & e & t & H1 & _ & _ & _ & _ & H2).
  exists n, f, v'. split; [exact H1|]. split; [reflexivity|]. exists e, t. exact H2.
Defined.
